(* ===== verification/_CoqProject ===== *)
-Q . S2P
Prelude.v
LedgerTrie.v
LedgerTrieSpec.v
LedgerTriePreferred.v
RCLValidatedLedger.v
SupportTrie.v
LedgerTrieTheorems.v
AgedMap.v
Validations.v
ValidationsSpec.v
ValidationsTheorems.v
LedgerTiming.v
Disputes.v
ConsensusState.v
Consensus.v
ConsensusSpec.v
ConsensusRounds.v
ConsensusTheorems.v
DecisionTheorems.v
Resource.v
ResourceSpec.v
ResourceTheorems.v
BaseUint.v
BaseUintTheorems.v
Serializer.v
SerializerTheorems.v
Varint.v
IOUAmount.v
IOUTheorems.v
STAmount.v
STAmountSpec.v
STAmountArith.v
STAmountTheorems.v
Conditions.v
SField.v
STPathSet.v
STObject.v
STObjectSpec.v
STObjectTotal.v
STObjectFields.v
STObjectTheorems.v
STTx.v
STTxTheorems.v
Fees.v
TxQ.v
TxQTheorems.v
SHAMapNodeID.v
SHAMap.v
SHAMapSpec.v
SHAMapRefine.v
SHAMapIter.v
SHAMapHash.v
SHAMapDelta.v
SHAMapTheorems.v
TxSetMap.v
SHAMapRaw.v
SHAMapRawTheorems.v
SHAMapSync.v
SHAMapSyncSpec.v
SHAMapSyncTheorems.v
LedgerEntry.v
RawStateTable.v
RawStateSpec.v
ApplyStateTable.v
ApplyStateSpec.v
LedgerViewTheorems.v
Directory.v
DirectorySpec.v
DirectoryTheorems.v
IPEndpoint.v
PeerSlots.v
Bootcache.v
Livecache.v
Handouts.v
PeerFinder.v
PeerFinderSpec.v
PeerFinderOps.v
PeerFinderHandout.v
PeerFinderRun.v
PeerFinderTheorems.v
