(* ===== verification/Prelude.v ===== *)
(** * Verification of the ald ledger server

    ald is a fork of the rippled ledger server (src/src/ripple/, C++).  Servers
    of the network agree, round after round, on the next ledger.  This library
    models the parts of the server that decide - which ledger the network
    prefers, when a round of consensus ends and with which transactions and
    close time, how much load a peer may impose, whom to connect to -, the
    tree and the views that hold ledgers and the formats under them, and proves
    what makes them correct.

    ** The program and its model

    - The ledger trie (consensus/LedgerTrie.h) counts the validators that support
      each branch of the ledger history and picks the preferred ledger.
      [LedgerTrie.v] has its spans, nodes and operations ([Trie.insert],
      [Trie.remove], [Trie.getPreferred], ...) under the names of the source.
      [LedgerTrieSpec.v] proves the prefix-tree invariant and the refinement to a
      multiset of supported ledgers, [LedgerTriePreferred.v] the choice of the
      preferred ledger, and [LedgerTrieTheorems.v] states the claims.
      [RCLValidatedLedger.v] models the ledger type it is used with
      (app/consensus/RCLValidations.cpp), which knows up to 256 ancestors.
    - [SupportTrie.v] is the interface between the trie and its client: a class
      of operations with laws on multisets, and the instance that the trie of
      [LedgerTrie.v] keeps the laws.  The lemmas of [LedgerTrieSpec.v] are about
      ledgers with their whole history ([LedgerLaws]); here they are carried over
      to ledgers that know their latest ancestors only ([LedgerWindow]).
    - The validations store (consensus/Validations.h, with the aged containers of
      beast/container) keeps the current and recent validations and drives the
      trie.  [AgedMap.v] models the container, [Validations.v] every member
      function; [ValidationsSpec.v] proves the invariant against the interface,
      [ValidationsTheorems.v] states the claims.
    - The consensus engine (consensus/Consensus.h, ConsensusTypes.h,
      ConsensusProposal.h, DisputedTx.h, LedgerTiming.h, Consensus.cpp and the
      transaction sets of app/consensus/RCLCxTx.h) is a state machine driven by
      proposals, transaction sets and a timer.  [LedgerTiming.v] has close times
      and the decision functions, [Disputes.v] proposals, transaction sets (a
      class with laws and the instance of RCLCxTx.h) and disputes,
      [ConsensusState.v] the state record and the error and state monad of the
      operations, [Consensus.v] one definition per member function.
      [ConsensusSpec.v] and [ConsensusRounds.v] prove by weakest preconditions
      that every operation keeps the invariant and returns;
      [ConsensusTheorems.v] and [DecisionTheorems.v] state the claims.
    - The resource manager (resource/impl/Logic.h, Entry.h, Key.h, Import.h,
      Consumer.cpp, with basics/DecayingSample.h) charges peers for load.
      [Resource.v] models every operation that changes its state,
      [ResourceSpec.v] proves the invariant of reference counts, lists and
      balances, [ResourceTheorems.v] closes it under a step relation of the
      manager with its callers.
    - Number formats: fixed-width integers ([BaseUint.v] and
      [BaseUintTheorems.v], basics/base_uint.h and strHex), variable-length
      integers of the node store ([Varint.v], nodestore/impl/varint.h), issued
      amounts ([IOUAmount.v] and [IOUTheorems.v], protocol/IOUAmount.h).
    - SHAMap (shamap/), the Merkle radix tree that holds ledgers and transaction
      sets, in both its versions.  [SHAMapNodeID.v] has node identifiers, [SHAMap.v]
      the tree with lookup, update, iteration, conversion and invariants,
      [SHAMapSpec.v], [SHAMapRefine.v] and [SHAMapIter.v] the
      well-formedness of the tree, its refinement of finite maps, the order of
      iteration and the uniqueness of the tree of given contents; [SHAMapHash.v]
      has hashes, [SHAMapDelta.v] the comparison of maps,
      [SHAMapTheorems.v] the claims.  [SHAMapRaw.v] with [SHAMapRawTheorems.v] are
      the byte forms of nodes; [SHAMapSync.v], [SHAMapSyncSpec.v] and
      [SHAMapSyncTheorems.v] a map that is filled with nodes from peers.
      [TxSetMap.v] shows that transaction sets kept in SHAMaps are an instance of
      the interface of [Disputes.v].
    - The serializer (protocol/Serializer.h and .cpp): [Serializer.v] and
      [SerializerTheorems.v].
    - Amounts (protocol/STAmount.h and .cpp, Issue.h): [STAmount.v] has native and
      issued amounts with their constructors, canonical form, sums, products,
      quotients, rates and bytes; [STAmountSpec.v] relates them to the numbers of
      [IOUAmount.v] and to their bytes, [STAmountArith.v] to exact
      products and quotients; it also has the qualities of offers and transfer
      rates (Quality.h, Rate2.cpp).  [STAmountTheorems.v] has the claims.
    - Serialized objects (protocol/STObject.h and the types of fields): [SField.v]
      has the table of fields and the templates of inner objects, [STPathSet.v]
      payment paths, [STObject.v] values of every type, writing, reading and
      templates, [STObjectFields.v] access to the fields of an object.
      [STObjectSpec.v] says when objects are well formed and proves that what is
      written is read back, [STObjectTotal.v] that reading ends
      and what it gives; [STObjectTheorems.v] has the claims.
    - Transactions and ledger entries (protocol/STTx.h, STLedgerEntry.h, Sign.h) are
      objects with formats: [STTx.v] has the formats of all types (KnownFormats.h,
      TxFormats.cpp, LedgerFormats.cpp), construction, identifiers, reading,
      signatures by one or several keys, the local checks, and the entries with their
      threads; [STTxTheorems.v] proves the claims from those of objects.
    - The transaction queue (app/misc/TxQ.h and impl/TxQ.cpp) holds transactions that
      pay too little for the open ledger.  [Fees.v] has the metrics that set the level
      of fee, and the fees under load (LoadFeeTrack.h and .cpp); [TxQ.v] every operation
      of the queue, over an engine that applies transactions; [TxQTheorems.v] proves
      that the set by fee and the maps of the accounts agree in every reachable state.
    - Crypto-conditions (conditions/ and the check of an escrow in
      app/tx/impl/Escrow.cpp): [Conditions.v] has the decoders of DER, conditions and
      fulfillments, and the claim.
    - Ledger views (ledger/): [LedgerEntry.v] has entries and keylets,
      [RawStateTable.v] the changes of an open view with its iterators,
      [ApplyStateTable.v] the changes of an apply view or sandbox, whose entries
      are shared through pointers; [RawStateSpec.v], [ApplyStateSpec.v] and
      [LedgerViewTheorems.v] prove that views refine the changed state.
      [Directory.v] has the directories (dirAdd, dirRemove and the three ways to
      walk them), [DirectorySpec.v] their rings of pages,
      [DirectoryTheorems.v] the claims.
    - The peer finder (peerfinder/impl/Logic.h and the parts it uses):
      [IPEndpoint.v] has addresses (beast/net), [PeerSlots.v] slots, counts and
      fixed peers, [Bootcache.v] and [Livecache.v] the caches, [Handouts.v] the
      dealing of endpoints with its three kinds of targets as instances of a class
      with laws, [PeerFinder.v] every operation of the logic and the message that
      brings endpoints (overlay/impl/PeerImp.cpp).
      [PeerFinderSpec.v] (the invariant), [PeerFinderOps.v] (slots and
      reported endpoints), [PeerFinderHandout.v] (lists
      handed out) and [PeerFinderRun.v] (runs and limits) prove the lemmas,
      [PeerFinderTheorems.v] states the claims.

    The engine asks the validations store for the preferred ledger and for the
    validators that are ahead through its adaptor; the store asks the trie.  The
    adaptors, template parameters of the source, are records of what they answer
    during one call ([Env], [Adaptor]); what the code tells them is appended to
    logs in the state.  A mutex or the caller makes each operation atomic, so an
    operation is a function from state to state, and interleavings are sequences
    of operations: [trie_reach], [vreach], [creach], [reachable] and [run] are the
    states such sequences reach from the initial one.

    ** What the theorems show

    - Trie: for ledgers that know their ancestors back to a history they share,
      after any run its answers are those of the multiset, it passes its
      own [checkInvariants], removal undoes insertion, and the preferred ledger
      ends the maximal chain of steps that uncommitted support cannot overturn.
      Ledgers of the system that branch off a common history at most 256 ledgers
      ago are such ledgers ([history_window]); for those whose windows do not
      meet [mismatch] is 1 and the counts are others ([windows_apart]).
    - Validations: for the same ledgers, support is a count of validators in every
      reachable state; [add], [trustChanged], [expire], [getPreferred] and the queries are
      described on every branch; accepted sequence numbers increase.
    - Consensus: every call returns in every reachable state (termination of the
      recursion of [timerEntry] included) and no missing result is used; the
      assertions of the source hold; disputes and votes are those of the
      positions; a round is accepted only by [checkConsensus] on our position
      with an agreed close time; the decision functions are exact inequalities,
      rounding of floating point included.
    - Resources: as long as the only consumer of an entry is not assigned to
      itself, reference counts are the live consumers, nothing dangles, expiry
      removes exactly what has expired, thresholds, gossip and decay are exact.
    - Numbers: modular arithmetic and order of fixed-width integers, round trips
      of hexadecimal and of variable-length integers, normal form, order and
      accuracy of issued amounts, with the conditions of each exception.
    - SHAMap: any run gives the answers of a finite map, and fails an assertion
      exactly when it updates an item that is not there or puts a new leaf of
      fewer than 12 bytes in; the tree depends on the contents only and its hash
      identifies them, iteration is in order, comparison of version 1 maps is
      exact, nodes survive their byte forms.  A version 1 map filled with whatever
      peers send agrees with the map of its root hash, as long as the nodes have
      the size and place that are asserted; it can always be completed when the
      nodes that came are those of that map.
    - Serializer: reads give back what was written and fail exactly on short or
      malformed input.
    - Amounts: what is written is read back, and only canonical amounts are read;
      order and equality are those of the values; sums of issued amounts are those
      of IOUAmount and sums of native ones are exact; products and quotients to an
      issued currency, not of two XRP amounts, are within one unit in the last
      place, or rounded in the direction asked for up to a tenth of a unit; packed
      rates compare as prices do.
    - Objects: well-formed objects survive their bytes; reading ends on any bytes
      and gives typed fields nested at most ten deep, with every field that the
      template of an inner object requires; lookup and update are those
      of a map from field codes to values.
    - Transactions: what is read follows the format of its type and is read back from
      what is written; signing changes the signature and the identifier only; a check
      of signatures passes exactly for one valid signature or one to eight ordered
      signers; threads of ledger entries, with the assertion on the sequence.
    - Queue and fees: the queue is consistent in every reachable state, whatever the
      engine answers; its operations return and it does not outgrow its size, but
      for two assertions on what the engine says of fees ([underpaid], [unpaid]);
      fee levels, the expected size of ledgers and scaled fees are exact or bounded,
      the local load fee as long as the product by which it is raised fits.
    - Conditions: the decoders stay within their bytes and accept exactly the
      encodings; an escrow's check passes exactly for the preimage of its condition.
    - Views: open views, apply views, sandboxes and their commits show and write
      the state that the operations make; directories refine lists of pages, hold
      what was added, and are walked completely.
    - Peer finder: in every reachable state slots, counts, addresses and keys agree
      and no assertion fails; limits on peers hold; activation, the filter of
      reported endpoints, redirects, broadcasts and connection attempts are
      characterised; the boot cache refines a map of valences.

    Some theorems that are not claims show where the code falls short of its
    intent: [untrusted_support_remains], [busy_sample_never_decays],
    [self_assignment_dangles], [varint_overflow_accepted],
    [mulRatio_roundUp_below], [compare_v2_mismatch], [wire_bogus_branch],
    [prefix_depth_overrun], [getVL_at_throws], [dir_iterator_misses],
    [v6_unicast_private], [boot_failure_pruned], [wire_hops_unchecked],
    [round_up_below], [native_wraps], [zero_account_path], [unclosed_object],
    [vector_drops_bytes], [make_present_absent], [inner_error_lost],
    [encoding_not_unique], [raise_wraps], [native_product_overflows],
    [native_round_up_exact], [wire_short_leaf] and [windows_apart].

    ** Hypotheses

    Hash functions, the signature scheme, the predicates of boost addresses, the
    parser of endpoints and the shuffles are parameters.  The claim on signing assumes
    that a scheme accepts the signatures it makes, that on the queue that a view has
    fewer than 2^31 transactions.  Claims on the trie and on validations ask that the
    ledgers know their ancestors back to a shared history ([LedgerWindow]).  Claims on
    hashes assume no collision among the nodes they are about, claims on directories that the keys of pages differ and
    that callbacks which describe a new page leave its links alone, claims on
    handouts that a shuffle permutes.  The contract of the peer finder's callers is
    [contract]; the claims on views ask that a step makes sense in the state it is
    applied to, which is what the views check.

    ** Integers, bounds and fuel

    Machine integers are [Z] with the wrap-around of their width written out
    where the source can leave it ([u32], [u64], [to_int], [u128]).  The support
    counts of the trie are 32-bit: the claims about runs of insertions ask for a
    total below 2^32, the number of validators.  The counts in the decisions are
    below 2^50 and 2^24 so that the double and single precision of the source are
    exact or their rounding is bounded; the claim on pausing is for up to 24
    validators.  [timerEntry] recurses through [checkLedger]; fuel 2 is proved
    enough when the adaptor's answers do not change during a call.  The loops of
    the trie take as fuel its height or its number of nodes, of [rcl_mismatch_loop] the sequence
    number, of [normalize] 20 and of the varint codec 64 rounds; the claims are
    about the results, so that they show these are enough.  In SHAMap a path has
    at most 65 nodes, loops over a map take its number of nodes; walks over a
    directory take 262145 rounds, one more than a directory can have pages;
    [succ] over a table takes one round more than its entries; a handout takes
    one round more than its targets have room.  The loops that scale the mantissa
    of an amount take 20 rounds, as many as 64 bits have digits; a path set takes
    one round more than there are bytes; reading an object takes two rounds for
    each byte and four more, which is proved enough.  The loop of Euclid takes 129
    rounds for 64-bit numbers, and accepting queued transactions the square of one more
    than their number, as one is met again only after another was erased.

    ** Not modelled

    JSON reports, logging, the adaptors to the application
    (app/consensus/RCLConsensus.cpp), the transactors (the engine of the queue is a
    parameter), payment paths, overlay
    (but for one message), RPC and the other I/O parts of the server, and
    third-party code.  Of SHAMap the sharing of nodes between maps, writing to the
    store and the search for missing nodes; of the views the metadata of
    transactions and PaymentSandbox, and entries of types or fields that are not
    known; of the peer finder the connectivity checker, the database, the sources
    that parse strings and the manager; of amounts, objects and transactions their
    text and JSON forms.

    This file is the prelude: machine integers, sums over lists, vectors, sorted
    lists and the automation the components share. *)

From stdpp Require Import prelude gmap sorting.
From Stdlib Require Import ZArith Lia.

#[global] Open Scope Z_scope.

(** ** Machine integers

    A [w]-bit unsigned value is a [Z] in [[0, 2^w)]; every arithmetic
    operation of the source that can leave that range is wrapped explicitly. *)
Definition wrap (w z : Z) : Z := z mod 2 ^ w.
Definition u32 (z : Z) : Z := wrap 32 z.
Definition u64 (z : Z) : Z := wrap 64 z.

Declare Scope ald_scope.
Delimit Scope ald_scope with ald.
Notation "a ⊕₃₂ b" := (u32 (a + b)) (at level 50, left associativity) : ald_scope.
Notation "a ⊖₃₂ b" := (u32 (a - b)) (at level 50, left associativity) : ald_scope.
#[global] Open Scope ald_scope.

(** ** Automation

    [ald] holds the lemmas that close the common side conditions: ranges of
    machine integers, sums of non-negative terms, and, from the component files,
    that each operation keeps its component's invariant. *)
Create HintDb ald.

(** Case analysis on the integer comparisons of the goal. *)
Ltac zcases :=
  repeat match goal with
  | |- context [?a <? ?b] => destruct (Z.ltb_spec a b)
  | |- context [?a <=? ?b] => destruct (Z.leb_spec a b)
  | |- context [?a =? ?b] => destruct (Z.eqb_spec a b)
  end.

(** Case analysis on whether two keys are the same, in either order. *)
Ltac same_key a k := destruct (decide (a = k)), (decide (k = a)); subst; try done; try lia.

Lemma wrap_small w z : 0 ≤ z < 2 ^ w → wrap w z = z.
Proof. apply Z.mod_small. Qed.

Lemma u32_small z : 0 ≤ z < 2 ^ 32 → u32 z = z.
Proof. apply wrap_small. Qed.

Lemma u64_small z : 0 ≤ z < 2 ^ 64 → u64 z = z.
Proof. apply wrap_small. Qed.

Lemma u32_range z : 0 ≤ u32 z < 2 ^ 32.
Proof. apply Z.mod_pos_bound. lia. Qed.

#[export] Hint Resolve u32_range u32_small u64_small wrap_small : ald.

(** ** Sums over lists *)
Fixpoint sumZ {A} (f : A → Z) (l : list A) : Z :=
  match l with
  | [] => 0
  | x :: l' => f x + sumZ f l'
  end.

Section sums.
Context {A : Type}.
Implicit Types (f g : A → Z) (l : list A).

Lemma sumZ_app f l k : sumZ f (l ++ k) = sumZ f l + sumZ f k.
Proof. induction l; simpl; lia. Qed.

Lemma sumZ_perm f l k : l ≡ₚ k → sumZ f l = sumZ f k.
Proof. induction 1; simpl; lia. Qed.

Lemma sumZ_ext f g l : (∀ x, x ∈ l → f x = g x) → sumZ f l = sumZ g l.
Proof.
  induction l as [|x l IH]; simpl; intros Hfg; [done|].
  rewrite Hfg, IH; set_solver.
Qed.

Lemma sumZ_zero f l : (∀ x, x ∈ l → f x = 0) → sumZ f l = 0.
Proof. induction l as [|x l IH]; simpl; intros Hf; [done|]. rewrite Hf, IH; set_solver. Qed.

Lemma sumZ_nonneg f l : (∀ x, x ∈ l → 0 ≤ f x) → 0 ≤ sumZ f l.
Proof.
  induction l as [|x l IH]; simpl; intros Hf; [done|].
  assert (0 ≤ f x) by (apply Hf; set_solver).
  assert (0 ≤ sumZ f l) by (apply IH; set_solver). lia.
Qed.

Lemma sumZ_elem f l x :
  (∀ y, y ∈ l → 0 ≤ f y) → x ∈ l → f x ≤ sumZ f l.
Proof.
  intros Hf. induction l as [|y l IH]; simpl; [set_solver|].
  assert (0 ≤ f y) by (apply Hf; set_solver).
  assert (0 ≤ sumZ f l) by (apply sumZ_nonneg; set_solver).
  intros [->|Hx]%elem_of_cons; [lia|].
  assert (f x ≤ sumZ f l) by (apply IH; set_solver). lia.
Qed.

Lemma sumZ_insert f l i x y :
  l !! i = Some x → sumZ f (<[i:=y]> l) = sumZ f l - f x + f y.
Proof.
  revert i; induction l as [|z l IH]; intros [|i] Hi; simplify_eq/=; [lia|].
  rewrite (IH _ Hi). lia.
Qed.

Lemma sumZ_delete f l i x :
  l !! i = Some x → sumZ f (delete i l) = sumZ f l - f x.
Proof.
  revert i; induction l as [|z l IH]; intros [|i] Hi; simplify_eq/=; [lia|].
  rewrite (IH _ Hi). lia.
Qed.

Lemma sumZ_add f g l : sumZ (λ x, f x + g x) l = sumZ f l + sumZ g l.
Proof. induction l; simpl; lia. Qed.

Lemma sumZ_le f g l : (∀ x, x ∈ l → f x ≤ g x) → sumZ f l ≤ sumZ g l.
Proof.
  induction l as [|x l IH]; simpl; intros Hf; [done|].
  assert (f x ≤ g x) by (apply Hf; set_solver).
  assert (sumZ f l ≤ sumZ g l) by (apply IH; set_solver). lia.
Qed.
End sums.

#[export] Hint Resolve sumZ_nonneg sumZ_elem : ald.

Lemma sumZ_swap {A B} (g : A → B → Z) (l : list A) (k : list B) :
  sumZ (λ x, sumZ (g x) k) l = sumZ (λ y, sumZ (λ x, g x y) l) k.
Proof.
  induction l as [|x l IH]; simpl; [symmetry; by apply sumZ_zero|].
  rewrite IH, <- sumZ_add. apply sumZ_ext. intros y _. done.
Qed.

(** Summing a value concentrated at one element of a duplicate-free list. *)
Lemma sumZ_single {A} (f : A → Z) (l : list A) x :
  NoDup l → x ∈ l → (∀ y, y ≠ x → f y = 0) → sumZ f l = f x.
Proof.
  intros Hnd Hx Hf. induction Hnd as [|y l Hy Hnd IH]; [set_solver|]. simpl.
  apply elem_of_cons in Hx as [->|Hx].
  - rewrite sumZ_zero; [lia|]. intros z Hz. apply Hf. set_solver.
  - rewrite IH by done. rewrite Hf; [lia|]. set_solver.
Qed.

Lemma sumZ_filter {A} (P : A → Prop) `{∀ x, Decision (P x)} (f : A → Z) l :
  sumZ f (filter P l) = sumZ (λ x, if decide (P x) then f x else 0) l.
Proof.
  induction l as [|x l IH]; [done|]. rewrite filter_cons. simpl.
  case_decide; simpl; lia.
Qed.

Lemma sumZ_map {A B} (g : A → B) (f : B → Z) l :
  sumZ f (map g l) = sumZ (λ x, f (g x)) l.
Proof. induction l; simpl; lia. Qed.

(** ** Vectors: swap-and-pop erasure

    [std::swap(v[i], v.back()); v.pop_back()]. *)
Definition swap_pop {A} (i : nat) (v : list A) : list A :=
  match last v with
  | Some b => removelast (<[i := b]> v)
  | None => v
  end.

Lemma removelast_insert_ge {A} (v : list A) i (b : A) :
  (length v ≤ i)%nat → removelast (<[i := b]> v) = removelast v.
Proof. intros Hi. by rewrite list_insert_ge. Qed.

Lemma swap_pop_perm {A} (i : nat) (v : list A) x :
  v !! i = Some x → x :: swap_pop i v ≡ₚ v.
Proof.
  intros Hi. destruct v as [|y w _] using rev_ind; [done|].
  unfold swap_pop. rewrite last_snoc.
  destruct (decide (i < length w)%nat) as [Hlt|Hge].
  - rewrite lookup_app_l in Hi by lia.
    rewrite insert_app_l, removelast_last by lia.
    rewrite <- (take_drop_middle w i x Hi) at 2.
    rewrite insert_take_drop by lia.
    rewrite <- Permutation_middle.
    rewrite <- (assoc_L (++)), <- !Permutation_middle. simpl.
    rewrite Permutation_app_comm; simpl. solve_Permutation.
  - assert (i = length w) as ->.
    { apply lookup_lt_Some in Hi. rewrite length_app in Hi. simpl in Hi. lia. }
    rewrite lookup_app_r, Nat.sub_diag in Hi by lia. simplify_eq/=.
    rewrite insert_app_r_alt, Nat.sub_diag by lia. simpl.
    rewrite removelast_last. apply Permutation_cons_append.
Qed.

Lemma alter_as_insert {A} (f : A → A) (v : list A) i x :
  v !! i = Some x → alter f i v = <[i := f x]> v.
Proof.
  revert i. induction v as [|y v IH]; intros [|i] Hi; simplify_eq/=; [done|].
  f_equal. by apply IH.
Qed.

(** ** Invariants of step relations *)
Lemma rtc_invariant {A} (R : relation A) (P : A → Prop) x y :
  (∀ a b, R a b → P a → P b) → rtc R x y → P x → P y.
Proof. intros Hstep. induction 1; eauto. Qed.

(** ** Sorted lists *)
Lemma StronglySorted_weaken {A} (R R' : relation A) l :
  (∀ a b, a ∈ l → b ∈ l → R a b → R' a b) → StronglySorted R l → StronglySorted R' l.
Proof.
  intros HR. induction 1 as [|x l Hs IH Hall]; constructor.
  - apply IH. intros a b Ha Hb. apply HR; by apply list_elem_of_further.
  - rewrite Forall_forall in *. intros y Hy. apply HR; auto using list_elem_of_further.
    apply list_elem_of_here.
Qed.

Lemma StronglySorted_filter {A} (R : relation A) (P : A → Prop) `{∀ x, Decision (P x)} l :
  StronglySorted R l → StronglySorted R (filter P l).
Proof.
  induction 1 as [|x l Hs IH Hall]; [constructor|]. rewrite filter_cons.
  case_decide; [|done]. constructor; [done|]. rewrite Forall_forall in *.
  intros y [_ Hy]%list_elem_of_filter. auto.
Qed.

Lemma StronglySorted_snoc {A} (R : relation A) l y :
  StronglySorted R l → (∀ x, x ∈ l → R x y) → StronglySorted R (l ++ [y]).
Proof.
  induction 1 as [|x l Hs IH Hall]; intros Hy; simpl; [repeat constructor|].
  constructor; [apply IH; intros; apply Hy; by apply list_elem_of_further|].
  apply Forall_app. split; [done|]. repeat constructor. apply Hy, list_elem_of_here.
Qed.

Lemma filter_keeps {A} (P : A → Prop) `{∀ x, Decision (P x)} (l : list A) :
  (∀ x, x ∈ l → P x) → filter P l = l.
Proof.
  induction l as [|x l IH]; intros Hl; [done|]. rewrite filter_cons_True.
  - f_equal. apply IH. intros y Hy. by apply Hl, list_elem_of_further.
  - apply Hl, list_elem_of_here.
Qed.

Lemma filter_drops {A} (P : A → Prop) `{∀ x, Decision (P x)} (l : list A) :
  (∀ x, x ∈ l → ¬ P x) → filter P l = [].
Proof.
  induction l as [|x l IH]; intros Hl; [done|]. rewrite filter_cons_False.
  - apply IH. intros y Hy. by apply Hl, list_elem_of_further.
  - apply Hl, list_elem_of_here.
Qed.
