(* ===== verification/LedgerTrie.v ===== *)
(** * The ledger trie of src/src/ripple/consensus/LedgerTrie.h

    Compressed ancestry trie of the ledgers that validators support.  The
    template parameter [Ledger] is the class [LedgerLike]; what the trie relies
    on of it is [LedgerLaws] when ledgers know all their ancestors, and
    [LedgerWindow] when they know a limited number of them.  Nodes own their children; the parent pointers of
    the source are the paths (lists of child indices from the root) along which
    [update_path] and [compact] walk. *)

From stdpp Require Import prelude gmap sorting.
From Stdlib Require Import ZArith Lia.
From S2P Require Import Prelude.

(** ** The template parameter [Ledger] *)

(** [Seq] is [std::uint32_t] and [ID] is [uint256]; both are carried as [Z].
    [at_] is [Ledger::operator[](Seq)]. *)
Class LedgerLike (L : Type) := {
  genesis : L;
  seq : L → Z;
  id : L → Z;
  at_ : L → Z → Z;
  mismatch : L → L → Z;
}.

(** What the trie relies on when a ledger knows its whole history: sequence
    numbers fit, every history starts at the genesis ledger, [mismatch] is the
    first sequence number at which two histories differ, histories that differ
    once differ from then on, and a hash determines the sequence number of the
    ledger it is the hash of. *)
Class LedgerLaws (L : Type) `{LedgerLike L} := {
  seq_range : ∀ l : L, 0 ≤ seq l < 2 ^ 32 - 1;
  seq_genesis : seq (genesis (L:=L)) = 0;
  at_seq : ∀ l : L, at_ l (seq l) = id l;
  at_zero : ∀ l : L, at_ l 0 = id (genesis (L:=L));
  mismatch_le : ∀ a b : L, mismatch a b ≤ Z.min (seq a) (seq b) + 1;
  mismatch_agree : ∀ (a b : L) s, 0 ≤ s < mismatch a b → at_ a s = at_ b s;
  mismatch_differ : ∀ (a b : L) s,
    0 ≤ s → mismatch a b ≤ s ≤ Z.min (seq a) (seq b) → at_ a s ≠ at_ b s;
  at_inj_seq : ∀ (a b : L) s t,
    0 ≤ s ≤ seq a → 0 ≤ t ≤ seq b → at_ a s = at_ b t → s = t;
}.

(** The same ledgers, with another account of their ancestors. *)
Definition with_ancestors {L} `{LedgerLike L} (anc : L → Z → Z) : LedgerLike L := {|
  genesis := genesis;
  seq := seq;
  id := id;
  at_ := anc;
  mismatch := mismatch;
|}.

(** What the trie relies on when a ledger knows only its latest ancestors, as
    [RCLValidatedLedger] does: the histories [anc] satisfy the laws above, all
    ledgers but the genesis ledger share their history up to the sequence number
    [trunk], and a ledger knows its ancestors from [trunk] on.  Below [trunk]
    nothing is asked of [at_]; ledgers that share too little for their windows
    to meet are what this class leaves out. *)
Class LedgerWindow (L : Type) `{LedgerLike L} := {
  anc : L → Z → Z;
  trunk : Z;
  anc_laws : @LedgerLaws L (with_ancestors anc);
  seq_trunk : ∀ l : L, seq l = 0 ∨ trunk ≤ seq l;
  mismatch_trunk : ∀ a b : L, mismatch a b ≤ trunk → seq a = 0 ∨ seq b = 0;
  at_known : ∀ (l : L) s, s = 0 ∨ trunk ≤ s → 0 ≤ s ≤ seq l → at_ l s = anc l s;
}.

(** ** Spans *)
Record SpanTip (L : Type) := { st_seq : Z; st_id : Z; st_ledger : L }.
Arguments st_seq {L} _.
Arguments st_id {L} _.
Arguments st_ledger {L} _.

Definition ancestor {L} `{LedgerLike L} (t : SpanTip L) (s : Z) : Z := at_ (st_ledger t) s.

Record Span (L : Type) := mkSpan { start_ : Z; end_ : Z; ledger_ : L }.
Arguments mkSpan {L} _ _ _.
Arguments start_ {L} _.
Arguments end_ {L} _.
Arguments ledger_ {L} _.

Section span.
  Context {L : Type} `{LedgerLike L}.
  Implicit Types s : Span L.

Definition span_default : Span L := mkSpan 0 1 genesis.

Definition span_of (l : L) : Span L := mkSpan 0 (seq l ⊕₃₂ 1) l.

Definition clamp s (val : Z) : Z := Z.min (Z.max (start_ s) val) (end_ s).

Definition sub s (from to : Z) : option (Span L) :=
  let newFrom := clamp s from in
  let newTo := clamp s to in
  if newFrom <? newTo then Some (mkSpan newFrom newTo (ledger_ s)) else None.

Definition span_from s (spot : Z) : option (Span L) := sub s spot (end_ s).

Definition before s (spot : Z) : option (Span L) := sub s (start_ s) spot.

Definition startID s : Z := at_ (ledger_ s) (start_ s).

Definition diff s (o : L) : Z := clamp s (mismatch (ledger_ s) o).

Definition tip s : SpanTip L :=
  let tipSeq := end_ s ⊖₃₂ 1 in
  {| st_seq := tipSeq; st_id := at_ (ledger_ s) tipSeq; st_ledger := ledger_ s |}.

Definition merge (a b : Span L) : Span L :=
  if end_ a <? end_ b
  then mkSpan (Z.min (start_ a) (start_ b)) (end_ b) (ledger_ b)
  else mkSpan (Z.min (start_ a) (start_ b)) (end_ a) (ledger_ a).
End span.

(** ** Nodes *)
Inductive Node (L : Type) :=
  mkNode (span : Span L) (tipSupport branchSupport : Z) (children : list (Node L)).
Arguments mkNode {L} _ _ _ _.

Definition n_span {L} (n : Node L) : Span L := let 'mkNode s _ _ _ := n in s.
Definition n_tip {L} (n : Node L) : Z := let 'mkNode _ t _ _ := n in t.
Definition n_branch {L} (n : Node L) : Z := let 'mkNode _ _ b _ := n in b.
Definition n_children {L} (n : Node L) : list (Node L) := let 'mkNode _ _ _ cs := n in cs.

Definition set_children {L} (cs : list (Node L)) (n : Node L) : Node L :=
  mkNode (n_span n) (n_tip n) (n_branch n) cs.
Definition set_span {L} (s : Span L) (n : Node L) : Node L :=
  mkNode s (n_tip n) (n_branch n) (n_children n).

(** [Node::Node(Span)]: no support yet. *)
Definition node_of_span {L} (s : Span L) : Node L := mkNode s 0 0 [].

(** [Node::erase(child)], the child given by its index. *)
Definition erase {L} (i : nat) (n : Node L) : Node L :=
  set_children (swap_pop i (n_children n)) n.

Definition inc_tip {L} (count : Z) (n : Node L) : Node L :=
  mkNode (n_span n) (n_tip n ⊕₃₂ count) (n_branch n) (n_children n).
Definition inc_branch {L} (count : Z) (n : Node L) : Node L :=
  mkNode (n_span n) (n_tip n) (n_branch n ⊕₃₂ count) (n_children n).
Definition dec_tip {L} (count : Z) (n : Node L) : Node L :=
  mkNode (n_span n) (n_tip n ⊖₃₂ count) (n_branch n) (n_children n).
Definition dec_branch {L} (count : Z) (n : Node L) : Node L :=
  mkNode (n_span n) (n_tip n) (n_branch n ⊖₃₂ count) (n_children n).

(** The node at a path, and a change at the end of a path together with the
    loop that walks the parent pointers back to the root. *)
Fixpoint at_path {L} (p : list nat) (n : Node L) : option (Node L) :=
  match p with
  | [] => Some n
  | i :: p' => n_children n !! i ≫= at_path p'
  end.

Fixpoint update_path {L} (anc f : Node L → Node L) (p : list nat) (n : Node L) : Node L :=
  match p with
  | [] => f n
  | i :: p' => set_children (alter (update_path anc f p') i (n_children n)) (anc n)
  end.

(** ** The trie *)
Record LedgerTrie (L : Type) := mkTrie {
  root : Node L;
  seqSupport : gmap Z Z;
}.
Arguments mkTrie {L} _ _.
Arguments root {L} _.
Arguments seqSupport {L} _.

Module Trie.
Section trie.
  Context {L : Type} `{LedgerLike L}.
  Implicit Types (n : Node L) (t : LedgerTrie L) (ledger : L).

Definition empty_trie : LedgerTrie L := mkTrie (mkNode span_default 0 0 []) ∅.

(** The loop of [LedgerTrie::find], from a node and the position already
    matched in it; the result is the path of the last node reached. *)
Fixpoint find_loop ledger n (pos : Z) : list nat * Z :=
  if pos =? end_ (n_span n) then
    (fix scan (cs : list (Node L)) (i : nat) : list nat * Z :=
       match cs with
       | [] => ([], pos)
       | c :: cs' =>
         let childPos := diff (n_span c) ledger in
         if pos <? childPos
         then let '(p, q) := find_loop ledger c childPos in (i :: p, q)
         else scan cs' (S i)
       end) (n_children n) 0%nat
  else ([], pos).

Definition find t ledger : list nat * Z :=
  find_loop ledger (root t) (diff (n_span (root t)) ledger).

Fixpoint findByLedgerID ledger n : option (list nat) :=
  if id ledger =? st_id (tip (n_span n)) then Some []
  else
    (fix go (cs : list (Node L)) (i : nat) : option (list nat) :=
       match cs with
       | [] => None
       | c :: cs' =>
         match findByLedgerID ledger c with
         | Some p => Some (i :: p)
         | None => go cs' (S i)
         end
       end) (n_children n) 0%nat.

(** The part of [LedgerTrie::insert] that works on the node [loc] found: split
    it at [diffSeq] if part of its span is past it, hang the rest of the new
    ledger below it, and count the support at the incremented node and at
    [loc] (the ancestors of [loc] are counted by [update_path]). *)
Definition insert_at ledger (diffSeq count : Z) (loc : Node L) : Node L :=
  let prefix := before (n_span loc) diffSeq in
  let oldSuffix := span_from (n_span loc) diffSeq in
  let newSuffix := span_from (span_of ledger) diffSeq in
  let loc :=
    match oldSuffix with
    | Some os =>
      let newNode := mkNode os (n_tip loc) (n_branch loc) (n_children loc) in
      mkNode (default (n_span loc) prefix) 0 (n_branch loc) [newNode]
    | None => loc
    end in
  match newSuffix with
  | Some ns =>
    let newNode := inc_branch count (inc_tip count (node_of_span ns)) in
    inc_branch count (set_children (n_children loc ++ [newNode]) loc)
  | None => inc_branch count (inc_tip count loc)
  end.

Definition insert t ledger (count : Z) : LedgerTrie L :=
  let '(loc, diffSeq) := find t ledger in
  mkTrie (update_path (inc_branch count) (insert_at ledger diffSeq count) loc (root t))
    (<[seq ledger := default 0 (seqSupport t !! seq ledger) ⊕₃₂ count]> (seqSupport t)).

(** One turn of the compaction loop of [LedgerTrie::remove]: [loc] is the
    [i]-th child of [parent]; the boolean says whether the loop goes on with
    the parent. *)
Definition compact_step (i : nat) (loc parent : Node L) : Node L * bool :=
  if n_tip loc =? 0 then
    match n_children loc with
    | [] => (erase i parent, true)
    | [child] =>
      let child := set_span (merge (n_span loc) (n_span child)) child in
      (erase i (set_children (n_children parent ++ [child]) parent), true)
    | _ => (parent, false)
    end
  else (parent, false).

Fixpoint compact (p : list nat) n : Node L * bool :=
  match p with
  | [] => (n, true)
  | i :: p' =>
    match n_children n !! i with
    | None => (n, false)
    | Some c =>
      let '(c', live) := compact p' c in
      let n' := set_children (<[i := c']> (n_children n)) n in
      if live then compact_step i c' n' else (n', false)
    end
  end.

Definition dec_seqSupport (s count : Z) (m : gmap Z Z) : gmap Z Z :=
  match m !! s with
  | Some v => let v' := v ⊖₃₂ count in if v' =? 0 then delete s m else <[s := v']> m
  | None => m
  end.

Definition remove t ledger (count : Z) : LedgerTrie L * bool :=
  match findByLedgerID ledger (root t) with
  | None => (t, false)
  | Some p =>
    match at_path p (root t) with
    | None => (t, false)
    | Some loc =>
      if n_tip loc =? 0 then (t, false)
      else
        let count := Z.min count (n_tip loc) in
        let root1 :=
          update_path (dec_branch count) (λ n, dec_branch count (dec_tip count n)) p (root t) in
        (mkTrie (compact p root1).1 (dec_seqSupport (seq ledger) count (seqSupport t)), true)
    end
  end.

Definition tipSupport t ledger : Z :=
  match findByLedgerID ledger (root t) ≫= λ p, at_path p (root t) with
  | Some loc => n_tip loc
  | None => 0
  end.

Definition branchSupport t ledger : Z :=
  match findByLedgerID ledger (root t) ≫= λ p, at_path p (root t) with
  | Some loc => n_branch loc
  | None =>
    let '(p, diffSeq) := find t ledger in
    match at_path p (root t) with
    | Some loc =>
      if (seq ledger <? diffSeq) && (seq ledger <? end_ (n_span loc))
      then n_branch loc else 0
    | None => 0
    end
  end.

Definition empty t : bool := n_branch (root t) =? 0.

(** ** [getPreferred] *)

(** [seqSupport] in iteration order of [std::map]. *)
Definition seq_le (a b : Z * Z) : Prop := a.1 ≤ b.1.
#[export] Instance seq_le_dec : RelDecision seq_le.
Proof. intros a b. apply Z_le_dec. Defined.
Definition seq_iter (m : gmap Z Z) : list (Z * Z) := merge_sort seq_le (map_to_list m).

(** Add up the support of the sequence numbers below [bound]. *)
Fixpoint add_uncommitted (bound uncommitted : Z) (it : list (Z * Z)) : Z * list (Z * Z) :=
  match it with
  | (s, v) :: it' =>
    if s <? bound then add_uncommitted bound (uncommitted ⊕₃₂ v) it' else (uncommitted, it)
  | [] => (uncommitted, [])
  end.

(** Walk along the span of the current node while it is sufficiently supported. *)
Fixpoint walk_span (endSeq branch nextSeq uncommitted : Z) (it : list (Z * Z)) :
    Z * Z * list (Z * Z) :=
  if (nextSeq <? endSeq) && (uncommitted <? branch) then
    match it with
    | (s, v) :: it' =>
      if s <? endSeq
      then walk_span endSeq branch (s ⊕₃₂ 1) (uncommitted ⊕₃₂ v) it'
      else (endSeq, uncommitted, it)
    | [] => (endSeq, uncommitted, [])
    end
  else (nextSeq, uncommitted, it).

(** The comparison of [std::partial_sort]: larger branch support first, ties by
    larger start ID. *)
Definition preferred_before (a b : Node L) : bool :=
  (n_branch b <? n_branch a) ||
  ((n_branch a =? n_branch b) && (startID (n_span b) <? startID (n_span a))).

Definition preferred_le (a b : Node L) : Prop := preferred_before b a = false.
#[export] Instance preferred_le_dec : RelDecision preferred_le.
Proof. intros a b. apply bool_eq_dec. Defined.

(** [partial_sort(begin, begin + 2, end)]: the two most preferred children come
    first.  The order of the others is not specified by the standard library;
    here they are sorted too. *)
Definition partial_sort2 (cs : list (Node L)) : list (Node L) := merge_sort preferred_le cs.

(** The best child, the margin by which it leads, and the children as the
    partial sort leaves them. *)
Definition choose_best (cs : list (Node L)) : list (Node L) * Z :=
  match cs with
  | [] => ([], 0)
  | [c] => ([c], n_branch c)
  | _ =>
    let cs := partial_sort2 cs in
    match cs with
    | c0 :: c1 :: _ =>
      let margin := n_branch c0 ⊖₃₂ n_branch c1 in
      (cs, if startID (n_span c1) <? startID (n_span c0) then margin ⊕₃₂ 1 else margin)
    | _ => (cs, 0)
    end
  end.

(** The loop over nodes.  It returns the node with its children as sorted, and
    the preferred tip; the fuel bounds the depth. *)
Fixpoint preferred_loop (fuel : nat) (largestIssued : Z) (curr : Node L)
    (uncommitted : Z) (it : list (Z * Z)) : Node L * SpanTip L :=
  match fuel with
  | O => (curr, tip (n_span curr))
  | S fuel =>
    let nextSeq := start_ (n_span curr) ⊕₃₂ 1 in
    let '(uncommitted, it) := add_uncommitted (Z.max nextSeq largestIssued) uncommitted it in
    let '(nextSeq, uncommitted, it) :=
      walk_span (end_ (n_span curr)) (n_branch curr) nextSeq uncommitted it in
    if nextSeq <? end_ (n_span curr)
    then (curr, tip (default (n_span curr) (before (n_span curr) nextSeq)))
    else
      let '(cs, margin) := choose_best (n_children curr) in
      match cs with
      | best :: rest =>
        if (uncommitted <? margin) || (uncommitted =? 0)
        then
          let '(best', t) := preferred_loop fuel largestIssued best uncommitted it in
          (set_children (best' :: rest) curr, t)
        else (set_children cs curr, tip (n_span curr))
      | [] => (set_children cs curr, tip (n_span curr))
      end
  end.

Fixpoint height n : nat := S (list_max (map height (n_children n))).

Definition getPreferred t (largestIssued : Z) : LedgerTrie L * option (SpanTip L) :=
  if empty t then (t, None)
  else
    let '(root', r) :=
      preferred_loop (height (root t)) largestIssued (root t) 0 (seq_iter (seqSupport t)) in
    (mkTrie root' (seqSupport t), Some r).

(** ** [checkInvariants]

    The loop over the stack of nodes; [None] is an early [return false].  The
    flag marks the root.  [child->parent != curr] cannot fail here, since a
    node is stored in its parent. *)
Fixpoint check_loop (fuel : nat) (nodes : list (bool * Node L)) (expected : gmap Z Z) :
    option (gmap Z Z) :=
  match fuel, nodes with
  | _, [] => Some expected
  | O, _ => None
  | S fuel, (is_root, curr) :: nodes =>
    if negb is_root && (n_tip curr =? 0) && (length (n_children curr) <? 2)%nat then None
    else
      let expected :=
        if n_tip curr =? 0 then expected
        else
          let s := end_ (n_span curr) ⊖₃₂ 1 in
          <[s := default 0 (expected !! s) ⊕₃₂ n_tip curr]> expected in
      let support := n_tip curr + sumZ n_branch (n_children curr) in
      let nodes := foldl (λ st c, (false, c) :: st) nodes (n_children curr) in
      if support =? n_branch curr then check_loop fuel nodes expected else None
  end.

Fixpoint node_count n : nat := S (list_sum (map node_count (n_children n))).

Definition checkInvariants t : bool :=
  match check_loop (node_count (root t)) [(true, root t)] ∅ with
  | Some expected => bool_decide (expected = seqSupport t)
  | None => false
  end.
End trie.
End Trie.
