(* ===== verification/LedgerTrieSpec.v ===== *)
(** * Invariant and refinement of the ledger trie

    [wf_node] is the prefix-tree invariant, [wsum] the abstraction function and
    [represents] the refinement relation to a multiset of supported ledgers. *)

From stdpp Require Import prelude gmap sorting.
From Stdlib Require Import ZArith Lia.
From S2P Require Import Prelude.
From S2P Require Import LedgerTrie.
Import Trie.

Section node_ind.
  Context {L : Type} (P : Node L → Prop).
  Context (HP : ∀ sp t b cs, Forall P cs → P (mkNode sp t b cs)).

Fixpoint node_ind (n : Node L) : P n :=
  match n with
  | mkNode sp t b cs =>
    HP sp t b cs
      ((fix go cs : Forall P cs :=
          match cs with
          | [] => Forall_nil_2 P
          | c :: cs' => Forall_cons_2 P c cs' (node_ind c) (go cs')
          end) cs)
  end.
End node_ind.

Section spec.
  Context {L : Type} `{LedgerLaws L}.
  Implicit Types (n c : Node L) (l a b : L) (sp : Span L).

(** Two histories agree below a sequence number. *)
Definition agree a b (k : Z) : Prop := ∀ s, 0 ≤ s < k → at_ a s = at_ b s.

Inductive wf_node : Node L → Prop :=
  wf_node_intro sp t br cs :
    0 ≤ start_ sp < end_ sp →
    end_ sp ≤ seq (ledger_ sp) + 1 →
    0 ≤ t →
    br = t + sumZ n_branch cs →
    Forall wf_node cs →
    Forall (λ c, start_ (n_span c) = end_ sp ∧
                 agree (ledger_ (n_span c)) (ledger_ sp) (end_ sp)) cs →
    NoDup (map (λ c, startID (n_span c)) cs) →
    wf_node (mkNode sp t br cs).

(** A node other than the root carries support or branches. *)
Definition useful n : Prop := n_tip n ≠ 0 ∨ (2 ≤ length (n_children n))%nat.

Inductive shaped : Node L → Prop :=
  shaped_intro sp t br cs :
    Forall (λ c, useful c ∧ shaped c) cs → shaped (mkNode sp t br cs).

(** The support in a subtree of the tips that satisfy [f]. *)
Fixpoint wsum (f : L → Z → bool) n : Z :=
  let 'mkNode sp t _ cs := n in
  (if f (ledger_ sp) (end_ sp - 1) then t else 0) + sumZ (wsum f) cs.

(** Observations that depend on a ledger, not on how it is represented. *)
Definition observes (f : L → Z → bool) : Prop :=
  ∀ a b s, 0 ≤ s ≤ seq a → s ≤ seq b → at_ a s = at_ b s → f a s = f b s.

(** *** Histories *)
Lemma same_at_agree a b s :
  0 ≤ s ≤ seq a → s ≤ seq b → at_ a s = at_ b s → agree a b (s + 1).
Proof.
  intros Ha Hb Hs u Hu. apply mismatch_agree.
  destruct (decide (mismatch a b ≤ s)); [|lia].
  by destruct (mismatch_differ a b s); [lia|lia|].
Qed.

Lemma mismatch_pos a b : 1 ≤ mismatch a b.
Proof.
  destruct (decide (mismatch a b ≤ 0)); [|lia].
  pose proof (seq_range a). pose proof (seq_range b).
  destruct (mismatch_differ a b 0); [lia|lia|by rewrite !at_zero].
Qed.

Lemma agree_mismatch a b : agree a b (mismatch a b).
Proof. intros s Hs. by apply mismatch_agree. Qed.

Lemma agree_sym a b k : agree a b k → agree b a k.
Proof. intros Hab s Hs. symmetry. auto. Qed.

Lemma agree_le a b k k' : agree a b k → k' ≤ k → agree a b k'.
Proof. intros Hab Hk s Hs. apply Hab. lia. Qed.

Lemma agree_trans a b d k : agree a b k → agree b d k → agree a d k.
Proof. intros Hab Hbc s Hs. rewrite Hab by done. by apply Hbc. Qed.

(** Histories that differ at [k] differ from then on. *)
Lemma differ_later a b k s :
  0 ≤ k ≤ s → s ≤ seq a → s ≤ seq b → at_ a k ≠ at_ b k → at_ a s ≠ at_ b s.
Proof.
  intros Hk Ha Hb Hne Hs. apply Hne.
  apply (same_at_agree a b s); [lia|lia|done|lia].
Qed.

(** *** Spans *)
Lemma span_tip_seq sp :
  0 ≤ start_ sp < end_ sp → end_ sp ≤ seq (ledger_ sp) + 1 → st_seq (tip sp) = end_ sp - 1.
Proof. intros. pose proof (seq_range (ledger_ sp)). simpl. apply u32_small. lia. Qed.

Lemma span_tip_id sp :
  0 ≤ start_ sp < end_ sp → end_ sp ≤ seq (ledger_ sp) + 1 →
  st_id (tip sp) = at_ (ledger_ sp) (end_ sp - 1).
Proof.
  intros. pose proof (seq_range (ledger_ sp)). simpl.
  by rewrite (u32_small (end_ sp - 1)) by lia.
Qed.

Lemma span_of_end l : end_ (span_of l) = seq l + 1.
Proof. pose proof (seq_range l). simpl. apply u32_small. lia. Qed.

Lemma before_mid sp q :
  start_ sp < q ≤ end_ sp → before sp q = Some (mkSpan (start_ sp) q (ledger_ sp)).
Proof.
  intros Hq. unfold before, sub, clamp.
  replace (Z.min (Z.max (start_ sp) (start_ sp)) (end_ sp)) with (start_ sp) by lia.
  replace (Z.min (Z.max (start_ sp) q) (end_ sp)) with q by lia.
  destruct (Z.ltb_spec (start_ sp) q); [done|lia].
Qed.

Lemma span_from_mid sp q :
  start_ sp ≤ q < end_ sp → span_from sp q = Some (mkSpan q (end_ sp) (ledger_ sp)).
Proof.
  intros Hq. unfold span_from, sub, clamp.
  replace (Z.min (Z.max (start_ sp) (end_ sp)) (end_ sp)) with (end_ sp) by lia.
  replace (Z.min (Z.max (start_ sp) q) (end_ sp)) with q by lia.
  destruct (Z.ltb_spec q (end_ sp)); [done|lia].
Qed.

Lemma span_from_end sp q :
  start_ sp < end_ sp → end_ sp ≤ q → span_from sp q = None.
Proof.
  intros Hs Hq. unfold span_from, sub, clamp.
  replace (Z.min (Z.max (start_ sp) (end_ sp)) (end_ sp)) with (end_ sp) by lia.
  replace (Z.min (Z.max (start_ sp) q) (end_ sp)) with (end_ sp) by lia.
  destruct (Z.ltb_spec (end_ sp) (end_ sp)); [lia|done].
Qed.

(** *** Unfolding the searches *)
Lemma find_loop_unfold l n pos :
  find_loop l n pos =
  if pos =? end_ (n_span n) then
    match list_find (λ c, pos < diff (n_span c) l) (n_children n) with
    | Some (i, c) => let '(p, q) := find_loop l c (diff (n_span c) l) in (i :: p, q)
    | None => ([], pos)
    end
  else ([], pos).
Proof.
  destruct n as [sp t br cs]; simpl. case (pos =? end_ sp); [|done].
  match goal with |- ?scan cs O = _ =>
    enough (∀ cs k, scan cs k =
      match list_find (λ c, pos < diff (n_span c) l) cs with
      | Some (i, c) => let '(p, q) := find_loop l c (diff (n_span c) l) in ((k + i)%nat :: p, q)
      | None => ([], pos)
      end) as Hscan by apply (Hscan cs O)
  end.
  clear cs. intros cs. induction cs as [|c cs IH]; intros k; simpl; [done|].
  destruct (Z.ltb_spec pos (diff (n_span c) l)).
  - rewrite decide_True by done. by rewrite Nat.add_0_r.
  - rewrite decide_False by lia. rewrite IH.
    destruct (list_find _ cs) as [[i d]|]; simpl; [|done].
    destruct (find_loop l d _). by rewrite Nat.add_succ_r.
Qed.

(** Where [findByLedgerID] leads: a node whose tip is the ledger sought, or
    no node of the subtree is. *)
Inductive in_tree : Node L → Node L → Prop :=
  | in_tree_here n : in_tree n n
  | in_tree_child n c d : c ∈ n_children n → in_tree d c → in_tree d n.

Lemma findByLedgerID_Some l n p :
  findByLedgerID l n = Some p →
  ∃ loc, at_path p n = Some loc ∧ id l = st_id (tip (n_span loc)).
Proof.
  revert p. induction n as [sp t br cs IH] using node_ind; intros p; simpl.
  destruct (Z.eqb_spec (id l) (at_ (ledger_ sp) (end_ sp ⊖₃₂ 1))) as [He|_].
  { intros [= <-]. eexists; split; [done|]. done. }
  match goal with |- ?go cs O = _ → _ =>
    enough (∀ cs' k, cs = take k cs ++ cs' → length (take k cs) = k → go cs' k = Some p →
      ∃ loc, at_path p (mkNode sp t br cs) = Some loc ∧ id l = st_id (tip (n_span loc)))
      as Hgo by (intros Hp; apply (Hgo cs O); [by rewrite take_0|by rewrite take_0|done])
  end.
  intros cs'. induction cs' as [|c cs' IHc]; intros k Hcs Hk; [done|].
  destruct (findByLedgerID l c) as [p'|] eqn:Ef.
  - intros [= <-].
    assert (cs !! k = Some c) as Hc.
    { rewrite Hcs, lookup_app_r by lia. by rewrite Hk, Nat.sub_diag. }
    rewrite Forall_forall in IH.
    destruct (IH c (list_elem_of_lookup_2 _ _ _ Hc) p' Ef) as (loc & Hloc & Hid).
    exists loc. split; [|done]. simpl. by rewrite Hc.
  - apply IHc.
    + rewrite (take_S_r cs k c), <- (assoc_L (++)); [done|].
      rewrite Hcs, lookup_app_r by lia. by rewrite Hk, Nat.sub_diag.
    + rewrite length_take in *. apply (f_equal length) in Hcs.
      rewrite length_app, length_take in Hcs. simpl in Hcs. lia.
Qed.

Lemma findByLedgerID_None l n d :
  findByLedgerID l n = None → in_tree d n → id l ≠ st_id (tip (n_span d)).
Proof.
  induction n as [sp t br cs IH] using node_ind; simpl.
  destruct (Z.eqb_spec (id l) (at_ (ledger_ sp) (end_ sp ⊖₃₂ 1))) as [He|He]; [done|].
  intros Hgo Hd. inversion Hd as [|? c ? Hc Hdc]; subst; [done|]. simpl in Hc.
  rewrite Forall_forall in IH. apply (IH c Hc); [|done].
  revert Hgo. generalize O. clear IH Hd Hdc. induction Hc; intros k.
  - by destruct (findByLedgerID l _).
  - case_match; [done|]. apply IHHc.
Qed.

(** *** Consequences of well-formedness *)
Lemma wf_span_bounds n :
  wf_node n →
  0 ≤ start_ (n_span n) < end_ (n_span n) ∧ end_ (n_span n) ≤ seq (ledger_ (n_span n)) + 1.
Proof. by inversion 1. Qed.

Lemma wf_branch_nonneg n : wf_node n → 0 ≤ n_branch n.
Proof.
  induction n as [sp t br cs IH] using node_ind. inversion 1; subst. simpl.
  enough (0 ≤ sumZ n_branch cs) by lia.
  apply sumZ_nonneg. intros c Hc. rewrite Forall_forall in *. auto.
Qed.

Lemma wf_children_branch n c :
  wf_node n → c ∈ n_children n → n_branch c ≤ n_branch n - n_tip n.
Proof.
  inversion 1 as [sp t br cs ? ? ? -> Hcs]; subst; simpl; intros Hc.
  enough (n_branch c ≤ sumZ n_branch cs) by lia.
  apply sumZ_elem; [|done]. intros d Hd. rewrite Forall_forall in Hcs.
  by apply wf_branch_nonneg, Hcs.
Qed.

Lemma wf_child n c : wf_node n → c ∈ n_children n → wf_node c.
Proof. inversion 1 as [???????? Hcs]; subst. rewrite Forall_forall in Hcs. apply Hcs. Qed.

Lemma wf_child_link n c :
  wf_node n → c ∈ n_children n →
  start_ (n_span c) = end_ (n_span n) ∧
  agree (ledger_ (n_span c)) (ledger_ (n_span n)) (end_ (n_span n)).
Proof. inversion 1 as [????????? Hcs]; subst. rewrite Forall_forall in Hcs. apply Hcs. Qed.

Lemma wf_tip_nonneg n : wf_node n → 0 ≤ n_tip n.
Proof. by inversion 1. Qed.

(** *** Insertion at the node found *)

(** What insertion of [count] for [l] does to a subtree. *)
Record grown l (count : Z) n n' : Prop := {
  grown_wf : wf_node n';
  grown_start : start_ (n_span n') = start_ (n_span n);
  grown_end : end_ (n_span n') ≤ end_ (n_span n);
  grown_ledger : ledger_ (n_span n') = ledger_ (n_span n);
  grown_branch : n_branch n' = n_branch n + count;
  grown_wsum : ∀ f, observes f → wsum f n' = wsum f n + if f l (seq l) then count else 0;
  grown_shaped : shaped n → useful n ∨ end_ (n_span n) = start_ (n_span n) + 1 → shaped n';
  grown_useful : useful n → useful n';
}.

Lemma wf_new_leaf l q count :
  0 ≤ q ≤ seq l → 0 ≤ count → wf_node (mkNode (mkSpan q (seq l + 1) l) count count []).
Proof. intros. constructor; simpl; try constructor; lia. Qed.

Lemma insert_at_split l count n q :
  wf_node n → q = diff (n_span n) l → start_ (n_span n) < mismatch (ledger_ (n_span n)) l →
  q < end_ (n_span n) → 0 < count → n_branch n + count < 2 ^ 32 →
  grown l count n (insert_at l q count n).
Proof.
  intros Hwf -> Hst Hq Hc Hov. pose proof (seq_range l) as Hl.
  destruct n as [sp t br cs]; simpl in *.
  inversion Hwf as [? ? ? ? Hsp Hend Ht Hbr Hcs Hlink Hnd]; subst.
  assert (diff sp l = mismatch (ledger_ sp) l) as Hdq by (unfold diff, clamp in *; lia).
  rewrite Hdq in *. set (q := mismatch (ledger_ sp) l) in *.
  pose proof (wf_branch_nonneg _ Hwf) as Hb0. simpl in Hb0.
  pose proof (mismatch_le (ledger_ sp) l).
  unfold insert_at. simpl n_span.
  rewrite before_mid, (span_from_mid sp q) by lia. cbn [default].
  set (old := mkNode (mkSpan q (end_ sp) (ledger_ sp)) t (t + sumZ n_branch cs) cs).
  assert (wf_node old) as Hold by (constructor; simpl; auto; lia).
  destruct (decide (q ≤ seq l)) as [Hql|Hql].
  - rewrite (span_from_mid (span_of l) q) by (rewrite span_of_end; simpl; lia).
    rewrite span_of_end. unfold inc_branch, inc_tip, node_of_span, set_children. simpl.
    rewrite ?Z.add_0_l, !(u32_small count), (u32_small (t + _ + count)) by lia.
    split; simpl; try done; try lia.
    + constructor; simpl; try lia; [| |].
      * rewrite Forall_cons, Forall_singleton. split; [done|]. apply wf_new_leaf; lia.
      * repeat constructor; simpl. apply agree_sym, agree_mismatch.
      * repeat constructor; [|set_solver]. unfold startID; simpl.
        intros [Hne|?]%elem_of_cons; [|set_solver].
        by destruct (mismatch_differ (ledger_ sp) l q); [lia|lia|].
    + intros f Hf. replace (seq l + 1 - 1) with (seq l) by lia. repeat case_match; lia.
    + inversion 1; subst. intros [Hu|?]; [|lia].
      constructor. rewrite Forall_cons, Forall_singleton.
      split_and!; [done|by constructor|left; simpl; lia|by constructor].
    + right; simpl; lia.
  - rewrite (span_from_end (span_of l) q) by (rewrite ?span_of_end; simpl; lia).
    unfold inc_branch, inc_tip. simpl.
    rewrite ?Z.add_0_l, (u32_small count), (u32_small (t + _ + count)) by lia.
    assert (q = seq l + 1) as Hql' by lia.
    split; simpl; try done; try lia.
    + constructor; simpl; try lia; [by apply Forall_singleton| |].
      * by repeat constructor.
      * apply NoDup_singleton.
    + intros f Hf.
      rewrite (Hf (ledger_ sp) l (q - 1)); [|lia|lia|apply mismatch_agree; lia].
      replace (q - 1) with (seq l) by lia. repeat case_match; lia.
    + inversion 1; subst. intros [Hu|?]; [|lia].
      constructor. rewrite Forall_singleton. split; [done|by constructor].
    + left; simpl; lia.
Qed.

Lemma insert_at_end l count n :
  wf_node n → end_ (n_span n) ≤ mismatch (ledger_ (n_span n)) l →
  Forall (λ c, diff (n_span c) l ≤ end_ (n_span n)) (n_children n) →
  0 < count → n_branch n + count < 2 ^ 32 →
  grown l count n (insert_at l (end_ (n_span n)) count n).
Proof.
  intros Hwf Hmm Hout Hc Hov. pose proof (seq_range l) as Hl.
  destruct n as [sp t br cs]; simpl in *.
  inversion Hwf as [? ? ? ? Hsp Hend Ht Hbr Hcs Hlink Hnd]; subst.
  pose proof (wf_branch_nonneg _ Hwf) as Hb0. simpl in Hb0.
  pose proof (mismatch_le (ledger_ sp) l).
  assert (0 ≤ sumZ n_branch cs).
  { apply sumZ_nonneg. intros c Hcin. rewrite Forall_forall in Hcs. by apply wf_branch_nonneg, Hcs. }
  unfold insert_at. simpl n_span. rewrite (span_from_end sp) by lia.
  destruct (decide (end_ sp ≤ seq l)) as [Hql|Hql].
  - rewrite (span_from_mid (span_of l)) by (rewrite span_of_end; simpl; lia).
    rewrite span_of_end. unfold inc_branch, inc_tip, node_of_span, set_children. simpl.
    rewrite ?Z.add_0_l, !(u32_small count), (u32_small (t + _ + count)) by lia.
    split; simpl; try done; try lia.
    + constructor; simpl; try done.
      * rewrite sumZ_app. simpl. lia.
      * rewrite Forall_app, Forall_singleton. split; [done|]. apply wf_new_leaf; lia.
      * rewrite Forall_app, Forall_singleton. split; [done|]. simpl. split; [done|].
        apply agree_sym, (agree_le _ _ _ _ (agree_mismatch _ _)). lia.
      * rewrite map_app. apply NoDup_app. split; [done|]. split; [|apply NoDup_singleton].
        simpl. intros x (c & -> & Hcin)%list_elem_of_fmap Heq%list_elem_of_singleton.
        rewrite Forall_forall in Hlink, Hout, Hcs.
        destruct (Hlink c Hcin) as [Hst _]. specialize (Hout c Hcin).
        destruct (wf_span_bounds c (Hcs c Hcin)).
        unfold diff, clamp, startID in *. simpl in Heq. rewrite Hst in Heq.
        destruct (mismatch_differ (ledger_ (n_span c)) l (end_ sp)); [lia|lia|done].
    + intros f Hf. rewrite sumZ_app. simpl.
      replace (seq l + 1 - 1) with (seq l) by lia. repeat case_match; lia.
    + inversion 1; subst. intros _. constructor. rewrite Forall_app, Forall_singleton.
      split_and!; [done|left; simpl; lia|by constructor].
    + unfold useful. simpl. rewrite length_app. intros [?|?]; [by left|right; simpl; lia].
  - rewrite (span_from_end (span_of l)) by (rewrite ?span_of_end; simpl; lia).
    unfold inc_branch, inc_tip. simpl.
    rewrite (u32_small (t + count)), (u32_small (t + _ + count)) by lia.
    split; simpl; try done.
    + constructor; simpl; auto; lia.
    + intros f Hf. rewrite (Hf (ledger_ sp) l (end_ sp - 1)); [|lia|lia|apply mismatch_agree; lia].
      replace (end_ sp - 1) with (seq l) by lia. repeat case_match; lia.
    + inversion 1; subst. intros _. by constructor.
    + unfold useful; simpl. intros _. left. lia.
Qed.

(** Replacing a child by what it grows into. *)
Lemma grown_child l count n i c c' :
  wf_node n → n_children n !! i = Some c → grown l count c c' →
  0 < count → n_branch n + count < 2 ^ 32 →
  grown l count n (set_children (<[i := c']> (n_children n)) (inc_branch count n)).
Proof.
  intros Hwf Hi [Hwf' Hst _ Hlg Hbr Hws Hsh Hus] Hc Hov.
  pose proof (wf_branch_nonneg _ Hwf) as Hb0.
  pose proof (list_elem_of_lookup_2 _ _ _ Hi) as Hin.
  pose proof (wf_child_link _ _ Hwf Hin) as [Hcst Hcag].
  destruct n as [sp t br cs]; simpl in *.
  inversion Hwf as [? ? ? ? Hsp Hend Ht Hbr' Hcs Hlink Hnd]; subst.
  unfold set_children, inc_branch; simpl. rewrite (u32_small (t + _ + count)) by lia.
  split; simpl; try done.
  - constructor; simpl; try done.
    + rewrite (sumZ_insert _ _ _ _ _ Hi). lia.
    + by apply Forall_insert.
    + apply Forall_insert; [done|]. by rewrite Hst, Hlg.
    + rewrite list_fmap_insert, list_insert_id; [done|].
      rewrite list_lookup_fmap, Hi. simpl. unfold startID. by rewrite Hst, Hlg.
  - intros f Hf. rewrite (sumZ_insert _ _ _ _ _ Hi), (Hws f Hf). lia.
  - inversion 1 as [? ? ? ? Hall]; subst. intros _. constructor.
    pose proof (Forall_lookup_1 _ _ _ _ Hall Hi) as [Hcu Hcsh].
    apply Forall_insert; [done|]. split; [by apply Hus|]. apply Hsh; auto.
  - unfold useful; simpl. by rewrite length_insert.
Qed.

Lemma insert_grown l count n p q :
  wf_node n → start_ (n_span n) < mismatch (ledger_ (n_span n)) l →
  0 < count → n_branch n + count < 2 ^ 32 →
  find_loop l n (diff (n_span n) l) = (p, q) →
  grown l count n (update_path (inc_branch count) (insert_at l q count) p n).
Proof.
  revert p. induction n as [sp t br cs IH] using node_ind.
  intros p Hwf Hst Hc Hov. pose proof (wf_span_bounds _ Hwf) as [Hsp Hend].
  rewrite find_loop_unfold. simpl in *.
  destruct (Z.eqb_spec (diff sp l) (end_ sp)) as [Hd|Hd].
  2: { intros [= <- <-]. simpl. apply insert_at_split; try done. simpl.
       unfold diff, clamp in *. lia. }
  assert (end_ sp ≤ mismatch (ledger_ sp) l) by (unfold diff, clamp in *; lia).
  destruct (list_find _ cs) as [[i c]|] eqn:Ef.
  - apply list_find_Some in Ef as (Hi & Hlt & _).
    destruct (find_loop l c _) as [p' q'] eqn:Efc. intros [= <- <-]. simpl.
    pose proof (list_elem_of_lookup_2 _ _ _ Hi) as Hin.
    pose proof (wf_child _ _ Hwf Hin) as Hwfc.
    pose proof (wf_child_link _ _ Hwf Hin) as [Hcst _]. simpl in Hcst.
    pose proof (wf_children_branch _ _ Hwf Hin). pose proof (wf_tip_nonneg _ Hwf). simpl in *.
    rewrite (alter_as_insert _ _ _ _ Hi).
    rewrite Forall_forall in IH.
    apply (grown_child l count (mkNode sp t br cs) i c); try done.
    apply (IH c Hin p'); try done; [unfold diff, clamp in *; lia|lia].
  - intros [= <- <-]. apply list_find_None in Ef. rewrite Hd. simpl.
    apply (insert_at_end l count (mkNode sp t br cs)); try done. simpl.
    eapply Forall_impl; [exact Ef|]. simpl. intros. lia.
Qed.

(** *** Removal *)

(** What removing [count] of [l] does to a subtree, up to the compaction of the
    subtree's own root, which [done] says is not needed. *)
Record shrunk l (count : Z) n n' (done : bool) : Prop := {
  shrunk_wf : wf_node n';
  shrunk_span : n_span n' = n_span n;
  shrunk_branch : n_branch n' = n_branch n - count;
  shrunk_wsum : ∀ f, observes f → wsum f n' = wsum f n - if f l (seq l) then count else 0;
  shrunk_shaped : shaped n → shaped n';
  shrunk_useful : done = true → useful n → useful n';
}.

Lemma wf_perm sp t br cs cs' :
  cs ≡ₚ cs' → wf_node (mkNode sp t br cs) → wf_node (mkNode sp t br cs').
Proof.
  intros Hp. inversion 1; subst. constructor; try done.
  - by rewrite (sumZ_perm _ _ _ Hp).
  - by rewrite <- Hp.
  - by rewrite <- Hp.
  - by rewrite <- Hp.
Qed.

Lemma shaped_perm sp t br cs cs' :
  cs ≡ₚ cs' → shaped (mkNode sp t br cs) → shaped (mkNode sp t br cs').
Proof. intros Hp. inversion 1; subst. constructor. by rewrite <- Hp. Qed.

Lemma wf_drop_child sp t br c cs :
  wf_node (mkNode sp t br (c :: cs)) → n_branch c = 0 → wf_node (mkNode sp t br cs).
Proof.
  inversion 1 as [? ? ? ? ? ? ? Hbr Hcs Hlk Hnd]; subst. intros Hc0.
  constructor; try done.
  - simpl. lia.
  - by inversion Hcs.
  - by inversion Hlk.
  - by inversion Hnd.
Qed.

Lemma wf_swap_child sp t br c c' cs :
  wf_node (mkNode sp t br (c :: cs)) → wf_node c' → n_branch c' = n_branch c →
  start_ (n_span c') = start_ (n_span c) → startID (n_span c') = startID (n_span c) →
  agree (ledger_ (n_span c')) (ledger_ sp) (end_ sp) →
  wf_node (mkNode sp t br (c' :: cs)).
Proof.
  inversion 1 as [? ? ? ? ? ? ? Hbr Hcs Hlk Hnd]; subst. intros Hwf' Hb Hst Hid Hag.
  inversion Hcs; inversion Hlk as [|? ? [? ?]]; subst.
  constructor; try done.
  - simpl. lia.
  - by constructor.
  - constructor; [|done]. split; [congruence|done].
  - simpl in *. by rewrite Hid.
Qed.

Lemma shrunk_child l count n i c c' d :
  wf_node n → n_children n !! i = Some c → shrunk l count c c' d →
  0 < count → n_branch n < 2 ^ 32 →
  let n' := set_children (<[i := c']> (n_children n)) (dec_branch count n) in
  wf_node n' ∧ n_branch n' = n_branch n - count ∧
  (∀ f, observes f → wsum f n' = wsum f n - if f l (seq l) then count else 0) ∧
  (useful n → useful n').
Proof.
  intros Hwf Hi [Hwf' Hsp Hbr Hws Hsh Hus] Hc Hov. simpl.
  pose proof (list_elem_of_lookup_2 _ _ _ Hi) as Hin.
  pose proof (wf_child_link _ _ Hwf Hin) as [Hcst Hcag].
  pose proof (wf_children_branch _ _ Hwf Hin). pose proof (wf_tip_nonneg _ Hwf).
  pose proof (wf_branch_nonneg _ Hwf').
  destruct n as [sp t br cs]; simpl in *.
  inversion Hwf as [? ? ? ? ? Hend Ht Hbr' Hcs Hlink Hnd]; subst.
  unfold set_children, dec_branch; simpl. rewrite (u32_small (t + _ - count)) by lia.
  split_and!; simpl; try done.
  - constructor; simpl; try done.
    + rewrite (sumZ_insert _ _ _ _ _ Hi). lia.
    + by apply Forall_insert.
    + apply Forall_insert; [done|]. by rewrite Hsp.
    + rewrite list_fmap_insert, list_insert_id; [done|].
      rewrite list_lookup_fmap, Hi. simpl. by rewrite Hsp.
  - intros f Hf. rewrite (sumZ_insert _ _ _ _ _ Hi), (Hws f Hf). lia.
  - unfold useful; simpl. by rewrite length_insert.
Qed.

(** One turn of the compaction loop. *)
Record compacted i (loc parent : Node L) (r : Node L * bool) : Prop := {
  compacted_wf : wf_node r.1;
  compacted_span : n_span r.1 = n_span parent;
  compacted_branch : n_branch r.1 = n_branch parent;
  compacted_wsum : ∀ f, wsum f r.1 = wsum f parent;
  compacted_shaped :
    (∀ j c, j ≠ i → n_children parent !! j = Some c → useful c ∧ shaped c) →
    shaped loc → shaped r.1;
  compacted_useful : r.2 = false → useful parent → useful r.1;
}.

Lemma useful_not_compacted i loc parent :
  wf_node parent → n_children parent !! i = Some loc → useful loc →
  compacted i loc parent (parent, false).
Proof.
  intros Hwf Hi Hu. split; try done; simpl.
  intros Hothers Hloc. destruct parent as [sp t br cs]. constructor.
  apply Forall_lookup. intros j c Hj. simpl in *.
  destruct (decide (j = i)) as [->|]; [|by eapply Hothers].
  by simplify_eq.
Qed.

Lemma others_perm (P : Node L → Prop) cs rest loc i :
  cs !! i = Some loc → loc :: rest ≡ₚ cs →
  (∀ j c, j ≠ i → cs !! j = Some c → P c) → Forall P rest.
Proof.
  intros Hi Hp Hothers.
  assert (rest ≡ₚ delete i cs) as ->.
  { apply (Permutation_cons_inv (a:=loc)). rewrite Hp. by apply delete_Permutation. }
  apply Forall_lookup. intros j c Hj.
  destruct (decide (j < i)%nat).
  - rewrite list_lookup_delete_lt in Hj by done. apply (Hothers j); [lia|done].
  - rewrite list_lookup_delete_ge in Hj by lia. apply (Hothers (S j)); [lia|done].
Qed.

Lemma merge_link n c :
  wf_node n → c ∈ n_children n →
  merge (n_span n) (n_span c) = mkSpan (start_ (n_span n)) (end_ (n_span c)) (ledger_ (n_span c)).
Proof.
  intros Hwf Hc. pose proof (wf_span_bounds _ Hwf).
  pose proof (wf_span_bounds _ (wf_child _ _ Hwf Hc)).
  destruct (wf_child_link _ _ Hwf Hc) as [Hst _]. unfold merge.
  destruct (Z.ltb_spec (end_ (n_span n)) (end_ (n_span c))); [|lia].
  f_equal. lia.
Qed.

Lemma wf_set_span sp' n :
  wf_node n → 0 ≤ start_ sp' ≤ start_ (n_span n) → end_ sp' = end_ (n_span n) →
  ledger_ sp' = ledger_ (n_span n) → wf_node (set_span sp' n).
Proof.
  destruct n as [sp t br cs]; simpl. inversion 1; subst. intros Hs He Hl.
  unfold set_span; simpl. constructor; simpl; rewrite ?He, ?Hl; try done; lia.
Qed.

Lemma compact_step_compacted i loc parent :
  wf_node parent → n_children parent !! i = Some loc →
  compacted i loc parent (compact_step i loc parent).
Proof.
  intros Hwf Hi. pose proof (list_elem_of_lookup_2 _ _ _ Hi) as Hin.
  pose proof (wf_child _ _ Hwf Hin) as Hloc.
  pose proof (wf_child_link _ _ Hwf Hin) as [Hst Hag].
  unfold compact_step. destruct (Z.eqb_spec (n_tip loc) 0) as [Ht|Ht].
  2: { apply useful_not_compacted; try done. by left. }
  destruct (n_children loc) as [|child [|child2 more]] eqn:Ecs.
  3: { apply useful_not_compacted; try done. right. rewrite Ecs. simpl. lia. }
  - pose proof (swap_pop_perm _ _ _ Hi) as Hp.
    destruct parent as [sp t br cs], loc as [lsp lt lbr lcs]; simpl in *; subst.
    inversion Hloc; subst. simpl in *.
    split; unfold erase, set_children; simpl; try done.
    + apply (wf_drop_child _ _ _ (mkNode lsp 0 0 [])); [|done].
      by apply (wf_perm _ _ _ cs).
    + intros f. rewrite <- (sumZ_perm _ _ _ Hp). simpl. repeat case_match; lia.
    + intros Hothers _. constructor. by eapply others_perm.
  - set (child' := set_span (merge (n_span loc) (n_span child)) child).
    assert (child ∈ n_children loc) as Hchin by (rewrite Ecs; set_solver).
    pose proof (wf_child _ _ Hloc Hchin) as Hchild.
    pose proof (wf_child_link _ _ Hloc Hchin) as [Hcst Hcag].
    pose proof (wf_span_bounds _ Hloc) as [Hlb _].
    pose proof (merge_link _ _ Hloc Hchin) as Hm.
    assert (wf_node child') as Hchild'.
    { unfold child'. rewrite Hm. apply wf_set_span; simpl; try done. lia. }
    assert ((n_children parent ++ [child']) !! i = Some loc) as Hi'
      by (by apply lookup_app_l_Some).
    pose proof (swap_pop_perm _ _ _ Hi') as Hp.
    assert (∃ rest, loc :: rest ≡ₚ n_children parent) as [rest Hrest].
    { exists (delete i (n_children parent)). symmetry. by apply delete_Permutation. }
    assert (child' :: rest ≡ₚ swap_pop i (n_children parent ++ [child'])) as Hp'.
    { apply (Permutation_cons_inv (a:=loc)). rewrite Hp, <- Hrest.
      rewrite <- Permutation_cons_append. apply Permutation_swap. }
    assert (n_branch child' = n_branch loc) as Hb.
    { destruct loc as [lsp lt lbr lcs], child; simpl in *; subst.
      inversion Hloc; subst. simpl. lia. }
    destruct parent as [sp t br cs]; simpl in *.
    split; unfold erase, set_children; simpl; try done.
    + eapply wf_perm; [exact Hp'|].
      eapply wf_swap_child; [eapply wf_perm; [symmetry; exact Hrest|exact Hwf]|done|done|..].
      * unfold child'. by rewrite Hm.
      * unfold child'. rewrite Hm. unfold startID; simpl. apply Hcag. lia.
      * unfold child'. rewrite Hm. simpl. rewrite <- Hst.
        apply (agree_trans _ (ledger_ (n_span loc))); [eapply agree_le; [done|lia]|].
        by rewrite Hst.
    + intros f. rewrite <- (sumZ_perm _ _ _ Hp'), <- (sumZ_perm _ _ _ Hrest).
      simpl. f_equal. f_equal. unfold child'. rewrite Hm.
      destruct loc as [lsp lt lbr lcs], child as [csp ct cbr ccs]; simpl in *; subst. simpl.
      repeat case_match; lia.
    + intros Hothers Hls. constructor.
      rewrite <- Hp'. constructor; [|exact (others_perm _ _ _ _ _ Hi Hrest Hothers)].
      destruct loc as [lsp lt lbr lcs], child; simpl in *; subst.
      inversion Hls as [? ? ? ? Hall]; subst. apply Forall_singleton in Hall as [Hu Hsh].
      split; [exact Hu|]. by inversion Hsh; constructor.
Qed.

Lemma dec_shrunk l count n :
  wf_node n → id l = st_id (tip (n_span n)) → 0 < count ≤ n_tip n → n_branch n < 2 ^ 32 →
  shrunk l count n (dec_branch count (dec_tip count n)) false.
Proof.
  intros Hwf Hid Hc Hov. pose proof (seq_range l) as Hl.
  destruct n as [sp t br cs]; simpl in Hc.
  pose proof (wf_span_bounds _ Hwf) as [Hsp Hend]. simpl in Hsp, Hend.
  rewrite span_tip_id in Hid by done. simpl in Hid. rewrite <- at_seq in Hid.
  assert (seq l = end_ sp - 1) as Hseq by (eapply at_inj_seq; [..|exact Hid]; lia).
  inversion Hwf as [? ? ? ? ? ? Ht Hbr Hcs Hlk Hnd]; subst.
  assert (0 ≤ sumZ n_branch cs).
  { apply sumZ_nonneg. intros c Hcin. rewrite Forall_forall in Hcs. by apply wf_branch_nonneg, Hcs. }
  simpl in Hov. unfold dec_branch, dec_tip; simpl.
  rewrite (u32_small (t - count)), (u32_small (t + _ - count)) by lia.
  split; simpl; try done.
  - constructor; auto; lia.
  - intros f Hf. rewrite <- Hseq.
    rewrite (Hf (ledger_ sp) l (seq l)); [|lia|lia|by rewrite Hseq in Hid |- *].
    case_match; lia.
  - inversion 1; subst. by constructor.
Qed.

Lemma remove_shrunk l count n p loc :
  wf_node n → shaped n → at_path p n = Some loc → id l = st_id (tip (n_span loc)) →
  0 < count ≤ n_tip loc → n_branch n < 2 ^ 32 →
  let r := compact p
    (update_path (dec_branch count) (λ n, dec_branch count (dec_tip count n)) p n) in
  shrunk l count n r.1 (negb r.2).
Proof.
  revert n. induction p as [|i p IH]; intros n Hwf Hsh Hp Hid Hc Hov; simpl in *.
  { simplify_eq. by apply dec_shrunk. }
  apply bind_Some in Hp as (c & Hi & Hp).
  pose proof (list_elem_of_lookup_2 _ _ _ Hi) as Hin.
  pose proof (wf_child _ _ Hwf Hin) as Hwfc.
  assert (useful c ∧ shaped c) as [Huc Hsc].
  { inversion Hsh as [? ? ? ? Hall]; subst. by apply (Forall_lookup_1 _ _ _ _ Hall Hi). }
  pose proof (wf_children_branch _ _ Hwf Hin). pose proof (wf_tip_nonneg _ Hwf).
  specialize (IH c Hwfc Hsc Hp Hid Hc ltac:(lia)).
  rewrite (alter_as_insert _ _ _ _ Hi), list_lookup_insert_eq by (by eapply lookup_lt_Some).
  destruct (compact p _) as [c2 live]; simpl in IH.
  rewrite list_insert_insert_eq.
  pose proof (shrunk_child _ _ _ _ _ _ _ Hwf Hi IH ltac:(lia) Hov) as (Hwf' & Hbr & Hws & Hus).
  destruct IH as [Hwf2 Hsp2 Hbr2 Hws2 Hsh2 Hus2].
  set (n' := set_children (<[i:=c2]> (n_children n)) (dec_branch count n)) in *.
  change (set_children _ (set_children _ _)) with n'.
  assert (n_children n' !! i = Some c2) as Hi'
    by (apply list_lookup_insert_eq; by eapply lookup_lt_Some).
  assert (∀ j d, j ≠ i → n_children n' !! j = Some d → useful d ∧ shaped d) as Hothers.
  { intros j d Hj Hd. simpl in Hd. rewrite list_lookup_insert_ne in Hd by done.
    inversion Hsh as [? ? ? ? Hall]; subst. by apply (Forall_lookup_1 _ _ _ _ Hall Hd). }
  assert (compacted i c2 n' (if live then compact_step i c2 n' else (n', false))) as Hcomp.
  { destruct live; [by apply compact_step_compacted|]. apply useful_not_compacted; auto. }
  destruct (if live then _ else _) as [n2 live2]. destruct Hcomp; simpl in *.
  split; simpl; try done.
  - lia.
  - intros f Hf. rewrite compacted_wsum0. auto.
  - intros _. auto.
  - destruct live2; [done|]. auto.
Qed.

(** *** Locating support in the tree *)
Lemma in_tree_facts n d :
  wf_node n → in_tree d n →
  wf_node d ∧ end_ (n_span n) ≤ end_ (n_span d) ∧
  agree (ledger_ (n_span d)) (ledger_ (n_span n)) (end_ (n_span n)).
Proof.
  intros Hwf Hd. induction Hd as [n|n c d Hc Hd IH].
  { split_and!; [done|done|]. by intros s ?. }
  pose proof (wf_child_link _ _ Hwf Hc) as [Hst Hag].
  destruct (IH (wf_child _ _ Hwf Hc)) as (Hd' & Hle & Hag').
  pose proof (wf_span_bounds _ (wf_child _ _ Hwf Hc)).
  split_and!; [done|lia|].
  eapply agree_trans; [|exact Hag]. eapply agree_le; [done|lia].
Qed.

Lemma wsum_zero f n :
  wf_node n → (∀ d, in_tree d n → f (ledger_ (n_span d)) (end_ (n_span d) - 1) = false) →
  wsum f n = 0.
Proof.
  induction n as [sp t br cs IH] using node_ind. intros Hwf Hf. simpl.
  pose proof (Hf _ (in_tree_here _)) as Hhere. simpl in Hhere. rewrite Hhere.
  rewrite Forall_forall in IH. rewrite sumZ_zero; [done|].
  intros c Hc. apply (IH c Hc); [by apply (wf_child _ _ Hwf)|].
  intros d Hd. apply Hf. by eapply in_tree_child.
Qed.

Lemma wsum_true n : wf_node n → wsum (λ _ _, true) n = n_branch n.
Proof.
  induction n as [sp t br cs IH] using node_ind. intros Hwf. simpl.
  rewrite (sumZ_ext _ n_branch); [by inversion Hwf|].
  intros c Hc. rewrite Forall_forall in IH. apply (IH c Hc). by apply (wf_child _ _ Hwf).
Qed.

Lemma wsum_le_branch f n : wf_node n → wsum f n ≤ n_branch n.
Proof.
  intros Hwf. rewrite <- wsum_true by done. revert Hwf.
  induction n as [sp t br cs IH] using node_ind; intros Hwf; simpl.
  pose proof (wf_tip_nonneg _ Hwf); simpl in *.
  enough (sumZ (wsum f) cs ≤ sumZ (wsum (λ _ _, true)) cs) by (case_match; lia).
  apply sumZ_le. intros c Hc. rewrite Forall_forall in IH. apply (IH c Hc).
  by apply (wf_child _ _ Hwf).
Qed.

Lemma wsum_nonneg f n : wf_node n → 0 ≤ wsum f n.
Proof.
  induction n as [sp t br cs IH] using node_ind. intros Hwf. simpl.
  pose proof (wf_tip_nonneg _ Hwf). simpl in *.
  enough (0 ≤ sumZ (wsum f) cs) by (case_match; lia).
  apply sumZ_nonneg. intros c Hc. rewrite Forall_forall in IH. apply (IH c Hc).
  by apply (wf_child _ _ Hwf).
Qed.

(** A predicate that can hold only of what agrees with [l] up to [k]. *)
Definition above l (k : Z) (f : L → Z → bool) : Prop :=
  (∀ a s, 0 ≤ s ≤ seq a → s < k → f a s = false) ∧
  (∀ a s j, 0 ≤ j ≤ k → j ≤ s ≤ seq a → at_ a j ≠ at_ l j → f a s = false).

(** To be the ledger [l], and to build on (or be) the ancestor of [l] at [k]. *)
Definition is_ledger l : L → Z → bool := λ a s, at_ a s =? id l.
Definition descends l (k : Z) : L → Z → bool := λ a s, (k <=? s) && (at_ a k =? at_ l k).

Lemma above_is_ledger l : above l (seq l) (is_ledger l).
Proof.
  pose proof (seq_range l). unfold is_ledger. split; intros a s; intros.
  - apply Z.eqb_neq. rewrite <- at_seq. intros Heq.
    apply at_inj_seq in Heq; lia.
  - apply Z.eqb_neq. rewrite <- at_seq. intros Heq.
    assert (s = seq l) as -> by (eapply at_inj_seq; [..|exact Heq]; lia).
    revert Heq. apply (differ_later a l j); done || lia.
Qed.

Lemma above_descends l k : k ≤ seq l → above l k (descends l k).
Proof.
  intros Hk. unfold descends. split; intros a s; intros.
  - destruct (Z.leb_spec k s); [lia|done].
  - destruct (Z.leb_spec k s); [|done]. simpl. apply Z.eqb_neq.
    apply (differ_later a l j); done || lia.
Qed.

Lemma observes_is_ledger l : observes (is_ledger l).
Proof. intros a b s Ha Hb Heq. unfold is_ledger. by rewrite Heq. Qed.

Lemma observes_descends l k : 0 ≤ k → observes (descends l k).
Proof.
  intros Hk a b s Ha Hb Heq. unfold descends.
  destruct (Z.leb_spec k s); [|done]. simpl. f_equal.
  apply (same_at_agree a b s Ha Hb Heq). lia.
Qed.

Lemma wsum_differ l k f n :
  above l k f → wf_node n → start_ (n_span n) ≤ k →
  startID (n_span n) ≠ at_ l (start_ (n_span n)) → wsum f n = 0.
Proof.
  intros [_ Hab] Hwf Hle Hne. apply wsum_zero; [done|]. intros d Hd.
  destruct (in_tree_facts _ _ Hwf Hd) as (Hd' & Hend & Hag).
  pose proof (wf_span_bounds _ Hwf). pose proof (wf_span_bounds _ Hd').
  apply (Hab _ _ (start_ (n_span n))); [lia|lia|].
  rewrite Hag by lia. exact Hne.
Qed.

(** Only one child can lead to a given ledger past the end of the parent. *)
Lemma wsum_one_child l k f n i c :
  above l k f → wf_node n → n_children n !! i = Some c → end_ (n_span n) ≤ k →
  startID (n_span c) = at_ l (end_ (n_span n)) → wsum f n = wsum f c.
Proof.
  intros Hab Hwf Hi Hle Hid. destruct n as [sp t br cs]; simpl in *.
  pose proof (wf_span_bounds _ Hwf) as [Hb1 Hb2]; simpl in *.
  rewrite (proj1 Hab) by lia.
  rewrite (sumZ_perm _ _ _ (delete_Permutation _ _ _ Hi)). simpl.
  rewrite sumZ_zero; [lia|]. intros d Hd.
  inversion Hwf as [? ? ? ? ? ? ? ? Hcs Hlk Hnd]; subst.
  rewrite (delete_Permutation _ _ _ Hi) in Hnd. simpl in Hnd.
  apply NoDup_cons in Hnd as [Hnin _].
  assert (d ∈ cs) as Hdin by (rewrite (delete_Permutation _ _ _ Hi); set_solver).
  rewrite Forall_forall in Hcs, Hlk. destruct (Hlk d Hdin) as [Hdst _].
  apply (wsum_differ l k); [done|by apply Hcs|lia|].
  rewrite Hdst, <- Hid. intros Heq. apply Hnin. apply list_elem_of_fmap.
  exists d. by rewrite Heq.
Qed.

Lemma at_path_in_tree p n d : at_path p n = Some d → in_tree d n.
Proof.
  revert n. induction p as [|i p IH]; intros n; simpl; [intros [= ->]; constructor|].
  intros (c & Hi & Hp)%bind_Some.
  eapply in_tree_child; [by eapply list_elem_of_lookup_2|auto].
Qed.

Lemma wsum_path l f n p loc :
  above l (seq l) f → wf_node n → at_path p n = Some loc → id l = st_id (tip (n_span loc)) →
  wsum f n = wsum f loc.
Proof.
  intros Hab. revert n. induction p as [|i p IH]; intros n Hwf Hp Hid; simpl in *.
  { by simplify_eq. }
  apply bind_Some in Hp as (c & Hi & Hp).
  pose proof (list_elem_of_lookup_2 _ _ _ Hi) as Hin.
  pose proof (wf_child _ _ Hwf Hin) as Hwfc.
  rewrite <- (IH c Hwfc Hp Hid). pose proof (seq_range l).
  destruct (in_tree_facts _ _ Hwfc (at_path_in_tree _ _ _ Hp)) as (Hloc & Hend & Hag).
  pose proof (wf_span_bounds _ Hloc) as [? ?]. pose proof (wf_span_bounds _ Hwfc) as [? ?].
  pose proof (wf_child_link _ _ Hwf Hin) as [Hst _].
  fold (st_id (tip (n_span loc))) in Hid.
  change (id l = st_id (tip (n_span loc))) in Hid.
  rewrite span_tip_id in Hid by done. rewrite <- at_seq in Hid.
  assert (seq l = end_ (n_span loc) - 1) as Hseq by (eapply at_inj_seq; [..|exact Hid]; lia).
  eapply wsum_one_child; [done|done|done|lia|].
  unfold startID. rewrite Hst, <- Hag by lia. symmetry.
  apply (same_at_agree l (ledger_ (n_span loc)) (seq l)); [lia|lia|by rewrite Hseq in Hid |- *|lia].
Qed.

Lemma wsum_is_ledger_here l n :
  wf_node n → id l = st_id (tip (n_span n)) → wsum (is_ledger l) n = n_tip n.
Proof.
  intros Hwf Hid. pose proof (wf_span_bounds _ Hwf) as [? ?]. rewrite span_tip_id in Hid by done.
  pose proof Hid as Hid'. rewrite <- at_seq in Hid'. pose proof (seq_range l).
  assert (seq l = end_ (n_span n) - 1) as Hseq by (eapply at_inj_seq; [..|exact Hid']; lia).
  destruct n as [sp t br cs]; simpl in *. unfold is_ledger at 1. rewrite Hid, Z.eqb_refl.
  rewrite sumZ_zero; [lia|]. intros c Hc. pose proof (wf_child _ _ Hwf Hc) as Hwfc.
  apply wsum_zero; [done|]. intros d Hd.
  destruct (in_tree_facts _ _ Hwfc Hd) as (Hd' & Hend & _).
  pose proof (wf_child_link _ _ Hwf Hc) as [Hst _]. simpl in Hst.
  pose proof (wf_span_bounds _ Hwfc). pose proof (wf_span_bounds _ Hd').
  apply Z.eqb_neq. rewrite <- at_seq. intros Heq. apply at_inj_seq in Heq; lia.
Qed.

(** Inside a span, either the whole subtree builds on [l] or none of it does. *)
Lemma wsum_descends_inside l k n :
  wf_node n → 0 ≤ k < end_ (n_span n) →
  wsum (descends l k) n =
  if at_ (ledger_ (n_span n)) k =? at_ l k then n_branch n else 0.
Proof.
  intros Hwf Hk.
  assert (∀ d, in_tree d n → descends l k (ledger_ (n_span d)) (end_ (n_span d) - 1) =
    (at_ (ledger_ (n_span n)) k =? at_ l k)) as Hall.
  { intros d Hd. destruct (in_tree_facts _ _ Hwf Hd) as (? & ? & Hag).
    unfold descends. destruct (Z.leb_spec k (end_ (n_span d) - 1)); [|lia].
    simpl. by rewrite Hag by lia. }
  destruct (at_ _ _ =? _).
  - rewrite <- wsum_true by done. clear -Hall.
    induction n as [sp t br cs IH] using node_ind; simpl.
    pose proof (Hall _ (in_tree_here _)) as Hh. simpl in Hh. rewrite Hh. f_equal.
    apply sumZ_ext. intros c Hc. rewrite Forall_forall in IH. apply (IH c Hc).
    intros d Hd. apply Hall. by eapply in_tree_child.
  - by apply wsum_zero.
Qed.

Lemma find_descends l n p q :
  wf_node n → start_ (n_span n) < mismatch (ledger_ (n_span n)) l →
  find_loop l n (diff (n_span n) l) = (p, q) →
  ∃ loc, at_path p n = Some loc ∧
    wsum (descends l (seq l)) n =
    if (seq l <? q) && (seq l <? end_ (n_span loc)) then n_branch loc else 0.
Proof.
  revert p q. induction n as [sp t br cs IH] using node_ind. intros p q Hwf Hst.
  pose proof (wf_span_bounds _ Hwf) as [Hsp Hend]. pose proof (seq_range l) as Hl.
  pose proof (above_descends l (seq l) (Z.le_refl _)) as Hab. pose proof (mismatch_le (ledger_ sp) l) as Hmle.
  rewrite find_loop_unfold. simpl in Hsp, Hend, Hst |- *.
  destruct (Z.eqb_spec (diff sp l) (end_ sp)) as [Hd|Hd].
  - assert (end_ sp ≤ mismatch (ledger_ sp) l) as Hmm by (unfold diff, clamp in *; lia).
    destruct (list_find _ cs) as [[i c]|] eqn:Ef.
    + apply list_find_Some in Ef as (Hi & Hlt & _).
      destruct (find_loop l c _) as [p' q'] eqn:Efc. intros [= <- <-].
      pose proof (list_elem_of_lookup_2 _ _ _ Hi) as Hin.
      pose proof (wf_child _ _ Hwf Hin) as Hwfc.
      pose proof (wf_child_link _ _ Hwf Hin) as [Hcst _]. simpl in Hcst.
      assert (end_ sp < mismatch (ledger_ (n_span c)) l) as Hcm
        by (unfold diff, clamp in *; lia).
      pose proof (mismatch_le (ledger_ (n_span c)) l).
      rewrite Forall_forall in IH.
      destruct (IH c Hin p' q' Hwfc ltac:(lia) Efc) as (loc & Hloc & Hws).
      exists loc. simpl. rewrite Hi. split; [done|]. rewrite <- Hws.
      eapply (wsum_one_child l (seq l) _ (mkNode sp t br cs)); [done|done|done|simpl; lia|].
      unfold startID. rewrite Hcst. apply mismatch_agree. simpl. lia.
    + intros [= <- <-]. exists (mkNode sp t br cs). split; [done|]. simpl n_span. rewrite Hd.
      destruct (Z.ltb_spec (seq l) (end_ sp)) as [Hlt|Hge]; simpl.
      * change (wsum (descends l (seq l)) (mkNode sp t br cs) = br).
        rewrite wsum_descends_inside by (done || (simpl; lia)). simpl.
        by rewrite (mismatch_agree _ l), Z.eqb_refl by lia.
      * apply list_find_None in Ef. rewrite Forall_forall in Ef.
        rewrite (proj1 Hab) by lia. rewrite sumZ_zero; [done|].
        intros c Hc. pose proof (wf_child _ _ Hwf Hc) as Hwfc.
        pose proof (wf_child_link _ _ Hwf Hc) as [Hcst _]. simpl in Hcst.
        pose proof (wf_span_bounds _ Hwfc).
        apply (wsum_differ l (seq l)); [done|done|lia|]. unfold startID. rewrite Hcst.
        specialize (Ef c Hc). unfold diff, clamp in Ef. apply mismatch_differ; lia.
  - intros [= <- <-]. exists (mkNode sp t br cs). split; [done|]. simpl n_span.
    assert (diff sp l = mismatch (ledger_ sp) l) as Hdm by (unfold diff, clamp in *; lia).
    assert (mismatch (ledger_ sp) l < end_ sp) by (unfold diff, clamp in *; lia).
    rewrite Hdm. destruct (Z.ltb_spec (seq l) (mismatch (ledger_ sp) l)); simpl.
    + destruct (Z.ltb_spec (seq l) (end_ sp)); [|lia].
      change (wsum (descends l (seq l)) (mkNode sp t br cs) = br).
      rewrite wsum_descends_inside by (done || (simpl; lia)). simpl.
      by rewrite (mismatch_agree _ l), Z.eqb_refl by lia.
    + change (wsum (descends l (seq l)) (mkNode sp t br cs) = 0). apply wsum_zero; [done|].
      intros d Hdt. destruct (in_tree_facts _ _ Hwf Hdt) as (Hwd & Hed & Hag).
      pose proof (wf_span_bounds _ Hwd). simpl in Hed, Hag. destruct Hab as [_ Hab].
      apply (Hab _ _ (mismatch (ledger_ sp) l)); [lia|lia|].
      rewrite Hag by lia. apply mismatch_differ; lia.
Qed.

(** ** The trie and the multiset it represents *)

Record trie_inv (t : LedgerTrie L) : Prop := {
  inv_wf : wf_node (root t);
  inv_span : n_span (root t) = span_default;
  inv_shaped : shaped (root t);
  inv_bound : n_branch (root t) < 2 ^ 32;
  inv_seq : ∀ s, seqSupport t !! s =
    let v := wsum (λ _ k, k =? s) (root t) in if v =? 0 then None else Some v;
}.

(** A multiset of ledgers: how much support each was given, in any order. *)
Definition weight (f : L → Z → bool) (M : list (L * Z)) : Z :=
  sumZ (λ '(l, c), if f l (seq l) then c else 0) M.

Definition total (M : list (L * Z)) : Z := weight (λ _ _, true) M.

Definition represents (t : LedgerTrie L) (M : list (L * Z)) : Prop :=
  trie_inv t ∧ ∀ f, observes f → wsum f (root t) = weight f M.

Lemma observes_seq s : observes (λ _ k, k =? s).
Proof. by intros a b k _ _ _. Qed.

Lemma observes_true : observes (λ _ _, true).
Proof. done. Qed.

Lemma represents_total t M : represents t M → n_branch (root t) = total M.
Proof. intros [[] Hw]. rewrite <- wsum_true by done. apply Hw, observes_true. Qed.

Lemma root_start_mismatch t l :
  trie_inv t → start_ (n_span (root t)) < mismatch (ledger_ (n_span (root t))) l.
Proof. intros [_ Hsp _ _ _]. rewrite Hsp. simpl. pose proof (mismatch_pos genesis l). lia. Qed.

Lemma empty_represents : represents empty_trie [].
Proof.
  split; [|intros f _; simpl; by case_match].
  split; simpl; try done.
  - constructor; simpl; try done; rewrite ?seq_genesis; try lia; constructor.
  - intros s. rewrite lookup_empty. by destruct s.
Qed.

Lemma insert_represents t M l count :
  represents t M → 0 < count → total M + count < 2 ^ 32 →
  represents (insert t l count) ((l, count) :: M).
Proof.
  intros Hrep Hc Hov. pose proof (represents_total _ _ Hrep) as Htot.
  destruct Hrep as [Hinv Hw]. pose proof (root_start_mismatch t l Hinv) as Hm.
  destruct Hinv as [Hwf Hsp Hsh Hb Hseq].
  unfold insert, find. destruct (find_loop l (root t) _) as [p q] eqn:Ef.
  destruct (insert_grown l count (root t) p q Hwf Hm Hc ltac:(lia) Ef)
    as [Gwf Gst Gend Glg Gbr Gws Gsh _].
  set (r := update_path _ _ _ _) in *. clearbody r. split.
  2: { intros f Hf. simpl. rewrite (Gws f Hf), (Hw f Hf). unfold weight. simpl. lia. }
  split; simpl; try done.
  - pose proof (wf_span_bounds _ Gwf). rewrite Hsp in Gst, Gend, Glg. simpl in *.
    destruct (n_span r) as [a b g]; simpl in *. unfold span_default. f_equal; [done|lia|done].
  - apply Gsh; [done|]. right. by rewrite Hsp.
  - lia.
  - intros s. rewrite (Gws _ (observes_seq s)).
    pose proof (wsum_nonneg (λ _ k, k =? s) _ Hwf) as H0'.
    pose proof (wsum_le_branch (λ _ k, k =? s) _ Hwf) as Hle.
    destruct (Z.eqb_spec (seq l) s) as [->|Hne].
    + rewrite lookup_insert_eq, Hseq. simpl.
      destruct (Z.eqb_spec (wsum (λ _ k, k =? s) (root t)) 0) as [->|]; simpl.
      * destruct (Z.eqb_spec (0 + count) 0); [lia|]. rewrite u32_small by lia. done.
      * destruct (Z.eqb_spec (wsum (λ _ k, k =? s) (root t) + count) 0); [lia|].
        by rewrite u32_small by lia.
    + rewrite lookup_insert_ne by done. rewrite Hseq. simpl. by rewrite Z.add_0_r.
Qed.

(** *** Queries *)
Lemma tip_lookup_weight t M l :
  represents t M →
  match findByLedgerID l (root t) with
  | Some p => ∃ loc, at_path p (root t) = Some loc ∧ id l = st_id (tip (n_span loc)) ∧
      in_tree loc (root t) ∧ n_tip loc = weight (is_ledger l) M
  | None => weight (is_ledger l) M = 0
  end.
Proof.
  intros [[Hwf _ _ _ _] Hw]. rewrite <- (Hw _ (observes_is_ledger l)).
  destruct (findByLedgerID l (root t)) as [p|] eqn:Ef.
  - destruct (findByLedgerID_Some _ _ _ Ef) as (loc & Hloc & Hid).
    pose proof (at_path_in_tree _ _ _ Hloc) as Hin.
    destruct (in_tree_facts _ _ Hwf Hin) as (Hwfl & _ & _).
    exists loc. split_and!; try done.
    rewrite (wsum_path l _ _ _ _ (above_is_ledger l) Hwf Hloc Hid).
    by rewrite wsum_is_ledger_here.
  - apply wsum_zero; [done|]. intros d Hd.
    destruct (in_tree_facts _ _ Hwf Hd) as (Hwd & _ & _).
    pose proof (findByLedgerID_None _ _ _ Ef Hd) as Hne.
    destruct (wf_span_bounds _ Hwd). rewrite span_tip_id in Hne by done.
    unfold is_ledger. apply Z.eqb_neq. congruence.
Qed.

Lemma tipSupport_weight t M l : represents t M → tipSupport t l = weight (is_ledger l) M.
Proof.
  intros Hrep. pose proof (tip_lookup_weight t M l Hrep) as Hl. unfold tipSupport.
  destruct (findByLedgerID l (root t)); simpl; [|done].
  destruct Hl as (loc & Hloc & _ & _ & Ht). by rewrite Hloc.
Qed.

Lemma tipSupport_nonneg t M l : represents t M → 0 ≤ weight (is_ledger l) M.
Proof.
  intros [[Hwf _ _ _ _] Hw]. rewrite <- (Hw _ (observes_is_ledger l)).
  by apply wsum_nonneg.
Qed.

Lemma branchSupport_weight t M l :
  represents t M → branchSupport t l = weight (descends l (seq l)) M.
Proof.
  intros Hrep. pose proof (tip_lookup_weight t M l Hrep) as Hl.
  destruct Hrep as [Hinv Hw]. pose proof (seq_range l).
  rewrite <- (Hw _ (observes_descends l (seq l) (proj1 (seq_range l)))).
  unfold branchSupport. destruct (findByLedgerID l (root t)) as [p|] eqn:Ef; simpl.
  - destruct Hl as (loc & Hloc & Hid & Hin & _). rewrite Hloc.
    destruct Hinv as [Hwf _ _ _ _].
    destruct (in_tree_facts _ _ Hwf Hin) as (Hwfl & _ & _).
    rewrite (wsum_path l _ _ _ _ (above_descends l (seq l) (Z.le_refl _)) Hwf Hloc Hid).
    pose proof (wf_span_bounds _ Hwfl) as [? ?].
    rewrite span_tip_id in Hid by done. pose proof Hid as Hid'. rewrite <- at_seq in Hid'.
    assert (seq l = end_ (n_span loc) - 1) as Hseq by (eapply at_inj_seq; [..|exact Hid']; lia).
    rewrite wsum_descends_inside by (done || lia). by rewrite at_seq, Hseq, Hid, Z.eqb_refl.
  - unfold find. destruct (find_loop l (root t) _) as [p q] eqn:Efl.
    destruct (find_descends l (root t) p q (inv_wf _ Hinv) (root_start_mismatch _ _ Hinv) Efl)
      as (loc & Hloc & Hws). by rewrite Hloc, Hws.
Qed.

Lemma empty_total t M : represents t M → empty t = (total M =? 0).
Proof. intros Hrep. unfold empty. by rewrite (represents_total _ _ Hrep). Qed.

Lemma remove_represents t M l count :
  represents t M → 0 < count →
  let k := weight (is_ledger l) M in
  if k =? 0 then remove t l count = (t, false)
  else (remove t l count).2 = true ∧
       represents (remove t l count).1 ((l, - Z.min count k) :: M).
Proof.
  intros Hrep Hc. pose proof (tip_lookup_weight t M l Hrep) as Hl. simpl. unfold remove.
  destruct (findByLedgerID l (root t)) as [p|]; [|by rewrite Hl].
  destruct Hl as (loc & Hloc & Hid & Hin & Ht). rewrite Hloc, Ht.
  destruct Hrep as [[Hwf Hsp Hsh Hb Hseq] Hw].
  destruct (in_tree_facts _ _ Hwf Hin) as (Hwfl & _ & _).
  pose proof (wf_tip_nonneg _ Hwfl) as Ht0. rewrite Ht in Ht0.
  destruct (Z.eqb_spec (weight (is_ledger l) M) 0); [done|].
  set (k := Z.min count _). split; [done|].
  destruct (remove_shrunk l k (root t) p loc Hwf Hsh Hloc Hid ltac:(lia) Hb)
    as [Swf Ssp Sbr Sws Ssh _].
  set (r := (compact p _).1) in *. clearbody r. simpl. split.
  2: { intros f Hf. simpl. rewrite (Sws f Hf), (Hw f Hf). unfold weight. simpl.
       case_match; lia. }
  split; simpl; try done.
  - congruence.
  - auto.
  - lia.
  - intros s. pose proof (wsum_nonneg (λ _ k, k =? s) _ Swf) as Hs0.
    rewrite (Sws _ (observes_seq s)) in Hs0 |- *.
    pose proof (wsum_le_branch (λ _ k, k =? s) _ Hwf) as Hle.
    unfold dec_seqSupport. rewrite Hseq. cbv zeta.
    destruct (Z.eqb_spec (seq l) s) as [->|Hne].
    + destruct (Z.eqb_spec (wsum (λ _ k, k =? s) (root t)) 0) as [H0'|H0']; [lia|].
      rewrite u32_small by lia.
      destruct (Z.eqb_spec (wsum (λ _ k, k =? s) (root t) - k) 0).
      * by rewrite lookup_delete_eq.
      * by rewrite lookup_insert_eq.
    + rewrite Z.sub_0_r. destruct (if wsum (λ _ k, k =? seq l) _ =? 0 then None else _) as [z|];
        [|apply Hseq]. destruct (z ⊖₃₂ k =? 0).
      * rewrite lookup_delete_ne by done. apply Hseq.
      * rewrite lookup_insert_ne by done. apply Hseq.
Qed.

(** *** [checkInvariants] *)
Definition nz (v : Z) : option Z := if v =? 0 then None else Some v.

Definition checked (x : bool * Node L) : Prop :=
  wf_node x.2 ∧ shaped x.2 ∧ (x.1 = false → useful x.2).

Lemma push_children_perm (cs : list (Node L)) st :
  foldl (λ st c, (false, c) :: st) st cs ≡ₚ map (λ c, (false, c)) cs ++ st.
Proof.
  revert st. induction cs as [|c cs IH]; intros st; simpl; [done|].
  rewrite IH. by rewrite <- Permutation_middle.
Qed.

Lemma list_sum_perm (l k : list nat) : l ≡ₚ k → list_sum l = list_sum k.
Proof. induction 1; simpl; lia. Qed.

Lemma check_loop_ok fuel nodes (e : Z → Z) (expected : gmap Z Z) :
  Forall checked nodes → (list_sum (map (λ x, node_count x.2) nodes) ≤ fuel)%nat →
  (∀ s, 0 ≤ e s) → (∀ s, expected !! s = nz (e s)) →
  (∀ s, e s + sumZ (λ x, wsum (λ _ k, k =? s) x.2) nodes < 2 ^ 32) →
  ∃ m, check_loop fuel nodes expected = Some m ∧
    ∀ s, m !! s = nz (e s + sumZ (λ x, wsum (λ _ k, k =? s) x.2) nodes).
Proof.
  revert nodes e expected. induction fuel as [|fuel IH]; intros nodes e expected Hch Hf He Hex Hb.
  { destruct nodes as [|[? [? ? ? ?]] nodes]; simpl in Hf; [|lia].
    exists expected. split; [done|]. intros s. simpl. by rewrite Hex, Z.add_0_r. }
  destruct nodes as [|[r n] nodes]; simpl.
  { exists expected. split; [done|]. intros s. by rewrite Hex, Z.add_0_r. }
  apply Forall_cons in Hch as [(Hwf & Hsh & Hus) Hch]. simpl in *.
  destruct n as [sp t br cs]; simpl in *.
  pose proof (wf_span_bounds _ Hwf) as [Hsp Hend]. simpl in Hsp, Hend.
  pose proof (seq_range (ledger_ sp)). pose proof (wf_tip_nonneg _ Hwf) as Ht. simpl in Ht.
  assert (br = t + sumZ n_branch cs) as Hbr by by inversion Hwf.
  assert (negb r && (t =? 0) && (length cs <? 2)%nat = false) as ->.
  { destruct r; [done|]. simpl. destruct (Hus eq_refl) as [Hu|Hu]; simpl in Hu.
    - by rewrite (proj2 (Z.eqb_neq t 0) Hu).
    - destruct (Nat.ltb_spec (length cs) 2); [lia|]. by rewrite andb_false_r. }
  rewrite <- Hbr, Z.eqb_refl. rewrite (u32_small (end_ sp - 1)) by lia.
  set (st := foldl _ _ _).
  assert (st ≡ₚ map (λ c, (false, c)) cs ++ nodes) as Hst by apply push_children_perm.
  set (e' := λ s, e s + if end_ sp - 1 =? s then t else 0).
  assert (∀ s, sumZ (λ x, wsum (λ _ k, k =? s) x.2) st =
     sumZ (wsum (λ _ k, k =? s)) cs + sumZ (λ x, wsum (λ _ k, k =? s) x.2) nodes) as Hsum.
  { intros s. rewrite (sumZ_perm _ _ _ Hst), sumZ_app, sumZ_map. done. }
  assert (∀ s, 0 ≤ sumZ (λ x, wsum (λ _ k, k =? s) x.2) st) as Hst0.
  { intros s. rewrite Hsum.
    assert (0 ≤ sumZ (wsum (λ _ k, k =? s)) cs).
    { apply sumZ_nonneg. intros c Hc. by apply wsum_nonneg, (wf_child _ _ Hwf). }
    assert (0 ≤ sumZ (λ x, wsum (λ _ k, k =? s) x.2) nodes); [|lia].
    apply sumZ_nonneg. intros x Hx. rewrite Forall_forall in Hch.
    by apply wsum_nonneg, (Hch x Hx). }
  edestruct (IH st e' (if t =? 0 then expected else
    <[end_ sp - 1 := default 0 (expected !! (end_ sp - 1)) ⊕₃₂ t]> expected)) as (m & Hm & Hms).
  - rewrite Hst, Forall_app. split; [|done]. rewrite Forall_fmap.
    inversion Hsh as [? ? ? ? Hall]; subst. apply Forall_forall. intros c Hc.
    rewrite Forall_forall in Hall. destruct (Hall c Hc).
    split_and!; [by apply (wf_child _ _ Hwf)|done|done].
  - rewrite (list_sum_perm _ (map (λ x, node_count x.2) (map (λ c, (false, c)) cs ++ nodes)))
      by (by apply Permutation_map).
    rewrite map_app, list_sum_app, map_map. cbn [snd].
    change (map (λ x, node_count x) cs) with (map node_count cs). lia.
  - intros s. unfold e'. specialize (He s). case_match; lia.
  - intros s. unfold e'. specialize (Hb s). specialize (He s).
    specialize (Hst0 s). rewrite Hsum in Hst0.
    destruct (Z.eqb_spec t 0) as [->|]; [rewrite Hex; f_equal; case_match; lia|].
    destruct (Z.eqb_spec (end_ sp - 1) s) as [->|Hne].
    + rewrite lookup_insert_eq, Hex. unfold nz.
      destruct (Z.eqb_spec (e s) 0) as [->|]; simpl.
      * rewrite u32_small by lia. destruct (Z.eqb_spec (0 + t) 0); [lia|done].
      * rewrite u32_small by lia. destruct (Z.eqb_spec (e s + t) 0); [lia|done].
    + rewrite lookup_insert_ne by done. rewrite Hex. f_equal. lia.
  - intros s. rewrite Hsum. specialize (Hb s). unfold e'. lia.
  - exists m. split; [done|]. intros s. rewrite Hms, Hsum. unfold e'. f_equal. lia.
Qed.

Lemma checkInvariants_ok t : trie_inv t → checkInvariants t = true.
Proof.
  intros [Hwf Hsp Hsh Hb Hseq]. unfold checkInvariants.
  destruct (check_loop_ok (node_count (root t)) [(true, root t)] (λ _, 0) ∅)
    as (m & -> & Hm); try done.
  - constructor; [|constructor]. by split_and!.
  - simpl. lia.
  - intros s. pose proof (wsum_le_branch (λ _ k, k =? s) _ Hwf). simpl. lia.
  - apply bool_decide_eq_true. apply map_eq. intros s. rewrite Hm, Hseq. simpl.
    by rewrite Z.add_0_r.
Qed.
End spec.
