(* ===== verification/LedgerTriePreferred.v ===== *)
(** * The preferred ledger of the ledger trie

    [committed] says what makes one step of a chain safe against the support
    that is not committed yet; [getPreferred] returns the end of the unique
    maximal chain of committed steps. *)

From stdpp Require Import prelude gmap sorting.
From Stdlib Require Import ZArith Lia.
From S2P Require Import Prelude.
From S2P Require Import LedgerTrie.
From S2P Require Import LedgerTrieSpec.
Import Trie.

(** ** Choosing among the children *)
Section children.
  Context {L : Type} `{LedgerLaws L}.
  Implicit Types (c : Node L) (cs : list (Node L)).

Lemma preferred_le_spec (a b : Node L) :
  preferred_le a b ↔
  n_branch b < n_branch a ∨
  (n_branch a = n_branch b ∧ startID (n_span b) ≤ startID (n_span a)).
Proof.
  unfold preferred_le, preferred_before.
  destruct (Z.ltb_spec (n_branch a) (n_branch b)); simpl; [split; [done|lia]|].
  destruct (Z.eqb_spec (n_branch b) (n_branch a)); simpl; [|split; [lia|done]].
  destruct (Z.ltb_spec (startID (n_span a)) (startID (n_span b))); split; done || lia.
Qed.

#[local] Instance preferred_le_total : Total (preferred_le (L:=L)).
Proof. intros a b. rewrite !preferred_le_spec. lia. Qed.

#[local] Instance preferred_le_trans : Transitive (preferred_le (L:=L)).
Proof. intros a b c. rewrite !preferred_le_spec. lia. Qed.

Lemma wf_useful_pos n : wf_node n → shaped n → useful n → 0 < n_branch n.
Proof.
  induction n as [sp t br cs IH] using node_ind. intros Hwf Hsh Hu.
  inversion Hwf as [? ? ? ? ? ? Ht -> Hcs]; subst. inversion Hsh as [? ? ? ? Hall]; subst.
  rewrite Forall_forall in IH, Hcs, Hall. simpl.
  assert (∀ c, c ∈ cs → 0 < n_branch c) as Hpos.
  { intros c Hc. destruct (Hall c Hc). apply IH; auto. }
  assert (0 ≤ sumZ n_branch cs) by (apply sumZ_nonneg; intros c Hc; specialize (Hpos c Hc); lia).
  destruct Hu as [Hu|Hu]; simpl in Hu; [lia|].
  destruct cs as [|c cs]; simpl in *; [lia|].
  assert (0 < n_branch c) by (apply Hpos; set_solver).
  assert (0 ≤ sumZ n_branch cs); [|lia].
  apply sumZ_nonneg. intros d Hd. assert (0 < n_branch d) by (apply Hpos; set_solver). lia.
Qed.

(** The lead of [a] over [b], ties broken by the start ID. *)
Definition lead (a b : Node L) : Z :=
  n_branch a - n_branch b + if startID (n_span b) <? startID (n_span a) then 1 else 0.

Definition outranks (a b : Node L) : Prop :=
  n_branch b < n_branch a ∨
  (n_branch b = n_branch a ∧ startID (n_span b) < startID (n_span a)).

Lemma choose_best_ok cs bound cs' margin :
  NoDup (map (λ c, startID (n_span c)) cs) →
  (∀ c, c ∈ cs → 0 < n_branch c) → sumZ n_branch cs < bound → bound ≤ 2 ^ 32 →
  choose_best cs = (cs', margin) →
  cs' ≡ₚ cs ∧
  match cs' with
  | [] => True
  | best :: rest =>
    Forall (outranks best) rest ∧ margin ≤ n_branch best ∧
    match rest with
    | [] => margin = n_branch best
    | second :: _ => margin = lead best second ∧ Forall (λ c, margin ≤ lead best c) rest
    end
  end.
Proof.
  intros Hnd Hpos Hsum Hb.
  destruct cs as [|c [|c2 cs]]; [intros [= <- <-]; done| |].
  { intros [= <- <-]. split_and!; auto; done. }
  unfold choose_best.
  pose proof (merge_sort_Permutation preferred_le (c :: c2 :: cs)) as Hp.
  pose proof (StronglySorted_merge_sort preferred_le (c :: c2 :: cs)) as Hs.
  fold (partial_sort2 (c :: c2 :: cs)) in Hp, Hs.
  destruct (partial_sort2 (c :: c2 :: cs)) as [|c0 [|c1 rest]] eqn:Esort.
  { by apply Permutation_nil_cons in Hp. }
  { apply Permutation_length in Hp. done. }
  rewrite <- Hp in Hnd. rewrite <- (sumZ_perm _ _ _ Hp) in Hsum.
  assert (∀ d, d ∈ c0 :: c1 :: rest → 0 < n_branch d) as Hpos'
    by (intros d Hd; apply Hpos; by rewrite <- Hp).
  assert (0 < n_branch c0) by (apply Hpos'; set_solver).
  assert (0 < n_branch c1) by (apply Hpos'; set_solver).
  assert (0 ≤ sumZ n_branch rest).
  { apply sumZ_nonneg. intros d Hd. apply Z.lt_le_incl, Hpos'. set_solver. }
  inversion Hs as [|? ? Hs1 Hfst]; subst. inversion Hs1 as [|? ? _ Hsnd]; subst.
  apply Forall_cons in Hfst as [H01 Hfst]. rewrite preferred_le_spec in H01.
  simpl in Hnd, Hsum. apply NoDup_cons in Hnd as [Hn0 Hnd].
  assert (∀ d, d ∈ c1 :: rest → startID (n_span d) ≠ startID (n_span c0)) as Hdist.
  { intros d Hd Heq. apply Hn0. rewrite <- Heq.
    apply (list_elem_of_fmap_2 (λ c, startID (n_span c)) (c1 :: rest)). done. }
  assert (startID (n_span c1) ≠ startID (n_span c0)) by (apply Hdist; set_solver).
  intros [= <- <-]. split; [done|].
  rewrite (u32_small (n_branch c0 - n_branch c1)) by lia.
  rewrite (u32_small (_ + 1)) by lia.
  split_and!.
  - apply Forall_forall. intros d Hd. specialize (Hdist d Hd).
    rewrite Forall_forall in Hfst.
    assert (preferred_le c0 d) as Hle.
    { apply elem_of_cons in Hd as [->|Hd]; [|by apply Hfst]. by apply preferred_le_spec. }
    rewrite preferred_le_spec in Hle. unfold outranks. lia.
  - case_match; lia.
  - unfold lead. destruct (startID (n_span c1) <? startID (n_span c0)); lia.
  - apply Forall_forall. intros d Hd. specialize (Hdist d Hd).
    rewrite Forall_forall in Hsnd. unfold lead.
    assert (preferred_le c1 d) as Hle.
    { apply elem_of_cons in Hd as [->|Hd]; [|by apply Hsnd]. apply preferred_le_spec. lia. }
    rewrite preferred_le_spec in Hle.
    destruct (Z.ltb_spec (startID (n_span c1)) (startID (n_span c0)));
      destruct (Z.ltb_spec (startID (n_span d)) (startID (n_span c0))); lia.
Qed.
End children.

(** ** The iteration over [seqSupport] and the walk along a span *)
Section walk.
  Context (L0 : list (Z * Z)) (U : Z → Z).
  Context (HL0 : StronglySorted (λ a b : Z * Z, a.1 < b.1) L0).
  Context (HU : ∀ b, sumZ snd (filter (λ x, x.1 < b) L0) = U b).
  Context (Hpos : Forall (λ x, 0 ≤ x.1 < 2 ^ 32 - 1 ∧ 0 < x.2) L0).
  Context (Hmax : ∀ b, U b < 2 ^ 32).

(** The iterator has passed exactly the sequence numbers below [b], and the
    uncommitted support is theirs. *)
Definition passed (b unc : Z) (it : list (Z * Z)) : Prop :=
  ∃ pre, L0 = pre ++ it ∧ Forall (λ x, x.1 < b) pre ∧ Forall (λ x, b ≤ x.1) it ∧ unc = U b.

Lemma split_below b pre it :
  L0 = pre ++ it → Forall (λ x, x.1 < b) pre → Forall (λ x, b ≤ x.1) it →
  U b = sumZ snd pre.
Proof.
  intros Heq Hpre Hit. rewrite <- HU, Heq, filter_app.
  rewrite sumZ_app.
  replace (filter (λ x, x.1 < b) it) with (@nil (Z * Z)).
  - replace (filter (λ x, x.1 < b) pre) with pre; [simpl; lia|]. clear -Hpre.
    induction pre as [|x pre IH]; [done|].
    apply Forall_cons in Hpre as [Hx Hpre]. rewrite filter_cons_True by lia. by rewrite <- IH.
  - clear -Hit. symmetry. induction it as [|x it IH]; [done|].
    apply Forall_cons in Hit as [Hx Hit]. rewrite filter_cons_False by lia. auto.
Qed.

Lemma U_nonneg b : 0 ≤ U b.
Proof.
  rewrite <- HU. apply sumZ_nonneg. intros x [_ Hx]%list_elem_of_filter.
  rewrite Forall_forall in Hpos. specialize (Hpos x Hx). lia.
Qed.

Lemma passed_start : passed 0 0 L0.
Proof.
  exists []. split_and!; [done|done| |].
  - eapply Forall_impl; [exact Hpos|]. simpl. lia.
  - rewrite (split_below 0 [] L0); try done.
    eapply Forall_impl; [exact Hpos|]. simpl. lia.
Qed.

Lemma passed_raise b b' unc it :
  passed b unc it → b ≤ b' → Forall (λ x, b' ≤ x.1) it → passed b' unc it.
Proof.
  intros (pre & Heq & Hpre & Hit & ->) Hb Hit'.
  assert (Forall (λ x, x.1 < b') pre) as Hpre'
    by (eapply Forall_impl; [exact Hpre|]; simpl; lia).
  exists pre. split_and!; try done.
  by rewrite (split_below b pre it), (split_below b' pre it).
Qed.

Lemma passed_step b unc s v it :
  passed b unc ((s, v) :: it) → passed (s + 1) (unc ⊕₃₂ v) it ∧ b ≤ s.
Proof.
  intros (pre & Heq & Hpre & Hit & ->). apply Forall_cons in Hit as [Hs Hit]. simpl in Hs.
  assert (Forall (λ x, x.1 < s + 1) (pre ++ [(s, v)])) as Hpre'.
  { apply Forall_app. split; [|repeat constructor; simpl; lia].
    eapply Forall_impl; [exact Hpre|]. simpl. lia. }
  assert (Forall (λ x, s + 1 ≤ x.1) it) as Hit'.
  { rewrite Heq in HL0. clear -HL0. induction pre as [|y pre IH]; simpl in HL0.
    - inversion HL0 as [|? ? ? Hall]; subst. eapply Forall_impl; [exact Hall|]. simpl. lia.
    - inversion HL0; auto. }
  assert (L0 = (pre ++ [(s, v)]) ++ it) as Heq' by (by rewrite <- (assoc_L (++))).
  split; [|done]. exists (pre ++ [(s, v)]). split_and!; try done.
  pose proof (split_below b pre ((s, v) :: it) Heq Hpre ltac:(by constructor)) as HUb.
  pose proof (split_below (s + 1) _ it Heq' Hpre' Hit') as HUs.
  rewrite sumZ_app in HUs. simpl in HUs.
  rewrite u32_small; [lia|].
  pose proof (U_nonneg (s + 1)). pose proof (Hmax (s + 1)). lia.
Qed.

Lemma add_uncommitted_passed bound b unc it unc' it' :
  passed b unc it → add_uncommitted bound unc it = (unc', it') →
  passed (Z.max b bound) unc' it'.
Proof.
  revert b unc. induction it as [|[s v] it IH]; intros b unc Hp; simpl.
  { intros [= <- <-]. eapply passed_raise; [exact Hp|lia|constructor]. }
  destruct (Z.ltb_spec s bound).
  - intros Hadd. destruct (passed_step _ _ _ _ _ Hp) as [Hp' ?].
    specialize (IH _ _ Hp' Hadd). by replace (Z.max b bound) with (Z.max (s + 1) bound) by lia.
  - intros [= <- <-]. eapply passed_raise; [exact Hp|lia|].
    destruct (passed_step _ _ _ _ _ Hp) as [(? & ? & ? & Hit & ?) ?].
    constructor; [simpl; lia|]. eapply Forall_impl; [exact Hit|]. simpl. lia.
Qed.

Lemma U_const b unc it k :
  passed b unc it → b ≤ k → Forall (λ x, k ≤ x.1) it → U k = unc.
Proof.
  intros Hp Hk Hit. by destruct (passed_raise _ _ _ _ Hp Hk Hit) as (? & ? & ? & ? & ->).
Qed.

Lemma walk_span_passed largest e branch n unc it n' unc' it' :
  passed (Z.max n largest) unc it → n ≤ e → 0 ≤ n → e < 2 ^ 32 →
  walk_span e branch n unc it = (n', unc', it') →
  passed (Z.max n' largest) unc' it' ∧ n ≤ n' ≤ e ∧ (n' < e → branch ≤ unc') ∧
  ∀ k, n ≤ k < n' → U (Z.max k largest) < branch.
Proof.
  revert n unc. induction it as [|[s v] it IH]; intros n unc Hp Hn Hn0 He; simpl.
  - destruct (Z.ltb_spec n e); simpl; [|intros [= <- <- <-]; split_and!; done || lia].
    destruct (Z.ltb_spec unc branch); [|intros [= <- <- <-]; split_and!; done || lia].
    intros [= <- <- <-]. split_and!; try lia.
    + eapply passed_raise; [exact Hp|lia|constructor].
    + intros k Hk. erewrite U_const; [done|exact Hp|lia|constructor].
  - destruct (passed_step _ _ _ _ _ Hp) as [Hp' Hs].
    assert (Forall (λ x, s ≤ x.1) ((s, v) :: it)) as Hge.
    { destruct Hp' as (? & _ & _ & Hit & _). constructor; [done|].
      eapply Forall_impl; [exact Hit|]. simpl. lia. }
    destruct (Z.ltb_spec n e); simpl; [|intros [= <- <- <-]; split_and!; done || lia].
    destruct (Z.ltb_spec unc branch); [|intros [= <- <- <-]; split_and!; done || lia].
    destruct (Z.ltb_spec s e).
    + rewrite (u32_small (s + 1)) by lia. intros Hw.
      assert (passed (Z.max (s + 1) largest) (unc ⊕₃₂ v) it) as Hp''
        by (by replace (Z.max (s + 1) largest) with (s + 1) by lia).
      destruct (IH _ _ Hp'' ltac:(lia) ltac:(lia) He Hw) as (Hpr & Hrng & Hstop & Hall).
      split_and!; try done; try lia. intros k Hk.
      destruct (decide (k ≤ s)); [|apply Hall; lia].
      erewrite U_const; [done|exact Hp|lia|].
      eapply Forall_impl; [exact Hge|]. simpl. lia.
    + intros [= <- <- <-].
      assert (Forall (λ x, Z.max e largest ≤ x.1) ((s, v) :: it)) as Hge'.
      { eapply Forall_impl; [exact Hge|]. simpl. lia. }
      split_and!; try lia.
      * eapply passed_raise; [exact Hp|lia|done].
      * intros k Hk. erewrite U_const; [done|exact Hp|lia|].
        eapply Forall_impl; [exact Hge'|]. simpl. lia.
Qed.
End walk.

(** ** Reordering children does not change what a tree represents *)
Section reorder.
  Context {L : Type} `{LedgerLaws L}.
  Implicit Types (n c : Node L) (cs : list (Node L)).

Record same_support n n' : Prop := {
  same_span : n_span n' = n_span n;
  same_tip : n_tip n' = n_tip n;
  same_branch : n_branch n' = n_branch n;
  same_length : length (n_children n') = length (n_children n);
  same_wf : wf_node n → wf_node n';
  same_shaped : shaped n → shaped n';
  same_wsum : ∀ f, wsum f n' = wsum f n;
}.

#[export] Instance same_support_preorder : PreOrder same_support.
Proof.
  split; [by split|]. intros n1 n2 n3 [] []. split; try congruence; auto.
Qed.

Lemma same_perm n cs : cs ≡ₚ n_children n → same_support n (set_children cs n).
Proof.
  intros Hp. destruct n as [sp t br cs0]; simpl in *. split; simpl; try done.
  - by apply Permutation_length.
  - by apply wf_perm.
  - by apply shaped_perm.
  - intros f. by rewrite (sumZ_perm _ _ _ Hp).
Qed.

Lemma same_head sp t br c c' cs :
  same_support c c' → same_support (mkNode sp t br (c :: cs)) (mkNode sp t br (c' :: cs)).
Proof.
  intros [Hsp Htip Hbr Hlen Hwf Hsh Hws]. split; simpl; try done.
  - intros Hw. pose proof (wf_child _ c Hw ltac:(set_solver)) as Hwc.
    pose proof (wf_child_link _ c Hw ltac:(set_solver)) as [? ?].
    apply (wf_swap_child _ _ _ c); try done; rewrite ?Hsp; auto.
  - inversion 1 as [? ? ? ? Hall]; subst. constructor.
    apply Forall_cons in Hall as [[Hu Hs] Hall]. constructor; [|done].
    split; [|auto]. unfold useful in *. by rewrite Htip, Hlen.
  - intros f. by rewrite Hws.
Qed.
End reorder.

(** ** Committed steps and the loop of [getPreferred] *)
Section preferred.
  Context {L : Type} `{LedgerLaws L}.
  Context (n0 : Node L) (largest : Z).
  Implicit Types (n c : Node L) (lg x : L).

(** The support of the sequence numbers below [k] or below the largest sequence
    number this node has issued a validation for: it may still move. *)
Definition uncommitted_at (k : Z) : Z := wsum (λ _ s, s <? Z.max k largest) n0.

(** The support of the ledger at [k] in the history of [lg], and of all that
    builds on it. *)
Definition branch_at lg (k : Z) : Z := wsum (descends lg k) n0.

(** The step of [lg] to sequence number [k] is committed: it is supported,
    beats every sibling, and keeps doing so wherever the uncommitted support
    goes. *)
Definition committed lg (k : Z) : Prop :=
  0 < branch_at lg k ∧
  (uncommitted_at k = 0 ∨ uncommitted_at k < branch_at lg k) ∧
  ∀ x, k ≤ seq x → at_ x (k - 1) = at_ lg (k - 1) → at_ x k ≠ at_ lg k →
    (branch_at x k < branch_at lg k ∨ branch_at x k = branch_at lg k ∧ at_ x k < at_ lg k) ∧
    (uncommitted_at k = 0 ∨
     uncommitted_at k <
       branch_at lg k - branch_at x k + if at_ x k <? at_ lg k then 1 else 0).

(** Histories through the start of [n] have all their support in [n]. *)
Definition reach n : Prop :=
  ∀ lg k f, above lg k f → start_ (n_span n) ≤ k ≤ seq lg →
    at_ lg (start_ (n_span n)) = startID (n_span n) → wsum f n0 = wsum f n.

Record preferred_ok n (r : SpanTip L) : Prop := {
  pref_range : start_ (n_span n) ≤ st_seq r ≤ seq (st_ledger r);
  pref_id : st_id r = at_ (st_ledger r) (st_seq r);
  pref_through : at_ (st_ledger r) (start_ (n_span n)) = startID (n_span n);
  pref_committed : ∀ k, start_ (n_span n) < k ≤ st_seq r → committed (st_ledger r) k;
  pref_maximal : ∀ x, st_seq r < seq x → at_ x (st_seq r) = st_id r → ¬ committed x (st_seq r + 1);
}.

Lemma reach_child n c :
  wf_node n → reach n → c ∈ n_children n → reach c.
Proof.
  intros Hwf Hr Hc lg k f Hab Hk Hat.
  pose proof (wf_child_link _ _ Hwf Hc) as [Hst Hag].
  pose proof (wf_child _ _ Hwf Hc) as Hwfc.
  pose proof (wf_span_bounds _ Hwf). pose proof (wf_span_bounds _ Hwfc).
  assert (agree lg (ledger_ (n_span c)) (start_ (n_span c) + 1)) as Hag'
    by (apply same_at_agree; [lia|lia|done]).
  apply list_elem_of_lookup in Hc as [i Hi].
  rewrite <- (wsum_one_child lg k f n i c); try done; [|lia|by rewrite <- Hst].
  apply (Hr lg k); [done|lia|]. rewrite Hag' by lia. unfold startID. apply Hag. lia.
Qed.

(** Support at a position inside the span of a reached node. *)
Lemma branch_inside n lg k :
  wf_node n → reach n → start_ (n_span n) ≤ k < end_ (n_span n) → k ≤ seq lg →
  at_ lg (start_ (n_span n)) = startID (n_span n) →
  branch_at lg k = if at_ (ledger_ (n_span n)) k =? at_ lg k then n_branch n else 0.
Proof.
  intros Hwf Hr Hk Hlg Hat. unfold branch_at. pose proof (wf_span_bounds _ Hwf).
  rewrite (Hr lg k); [|by apply above_descends|lia|done].
  apply wsum_descends_inside; [done|lia].
Qed.

(** Support at the end of the span of a reached node: that of the child that
    starts there, if there is one. *)
Lemma branch_child n c lg :
  wf_node n → reach n → c ∈ n_children n → end_ (n_span n) ≤ seq lg →
  at_ lg (end_ (n_span n)) = startID (n_span c) →
  branch_at lg (end_ (n_span n)) = n_branch c.
Proof.
  intros Hwf Hr Hc Hlg Hat. pose proof (wf_child_link _ _ Hwf Hc) as [Hst _].
  pose proof (wf_child _ _ Hwf Hc) as Hwfc. pose proof (wf_span_bounds _ Hwfc).
  rewrite (branch_inside c); try done; [|exact (reach_child n c Hwf Hr Hc)|lia|by rewrite Hst].
  rewrite Hat. unfold startID. by rewrite Hst, Z.eqb_refl.
Qed.

Lemma branch_no_child n lg :
  wf_node n → reach n → end_ (n_span n) ≤ seq lg →
  at_ lg (start_ (n_span n)) = startID (n_span n) →
  (∀ c, c ∈ n_children n → startID (n_span c) ≠ at_ lg (end_ (n_span n))) →
  branch_at lg (end_ (n_span n)) = 0.
Proof.
  intros Hwf Hr Hlg Hat Hno. unfold branch_at. pose proof (wf_span_bounds _ Hwf) as [? ?].
  pose proof (above_descends lg (end_ (n_span n)) Hlg) as Hab.
  rewrite (Hr lg (end_ (n_span n))); [|done|lia|done].
  destruct n as [sp t br cs]; simpl in *. rewrite (proj1 Hab) by lia.
  rewrite sumZ_zero; [done|]. intros c Hc.
  pose proof (wf_child_link _ _ Hwf Hc) as [Hst _]. simpl in Hst.
  apply (wsum_differ lg (end_ sp)); [done|by apply (wf_child _ _ Hwf)|lia|].
  rewrite Hst. by apply Hno.
Qed.

Lemma uncommitted_nonneg k : wf_node n0 → 0 ≤ uncommitted_at k.
Proof. apply wsum_nonneg. Qed.

Lemma through_start n lg k :
  wf_node n → start_ (n_span n) ≤ k < end_ (n_span n) → k ≤ seq lg →
  at_ lg k = at_ (ledger_ (n_span n)) k →
  at_ lg (start_ (n_span n)) = startID (n_span n).
Proof.
  intros Hwf Hk Hlg Hat. pose proof (wf_span_bounds _ Hwf).
  apply (same_at_agree lg (ledger_ (n_span n)) k); [lia|lia|done|lia].
Qed.

Lemma committed_inside n lg k :
  wf_node n0 → wf_node n → reach n → start_ (n_span n) < k < end_ (n_span n) → k ≤ seq lg →
  at_ lg k = at_ (ledger_ (n_span n)) k → uncommitted_at k < n_branch n → committed lg k.
Proof.
  intros Hwf0 Hwf Hr Hk Hlg Hat Hu. pose proof (uncommitted_nonneg k Hwf0).
  pose proof (wf_span_bounds _ Hwf).
  assert (at_ lg (k - 1) = at_ (ledger_ (n_span n)) (k - 1)) as Hat1
    by (apply (same_at_agree lg (ledger_ (n_span n)) k); [lia|lia|done|lia]).
  assert (branch_at lg k = n_branch n) as HB.
  { rewrite (branch_inside n); try done; [by rewrite Hat, Z.eqb_refl|lia|].
    apply (through_start _ _ k); done || lia. }
  unfold committed. rewrite HB. split_and!; [lia|by right|].
  intros x Hx Hprev Hne.
  assert (branch_at x k = 0) as ->; [|split; [left; lia|right; case_match; lia]].
  rewrite (branch_inside n); try done; try lia.
  - rewrite (proj2 (Z.eqb_neq _ _)); [done|]. congruence.
  - apply (through_start _ _ (k - 1)); try done; try lia; congruence.
Qed.

Lemma not_committed_inside n x k :
  wf_node n → reach n → start_ (n_span n) < k < end_ (n_span n) → k ≤ seq x →
  at_ x (k - 1) = at_ (ledger_ (n_span n)) (k - 1) → n_branch n ≤ uncommitted_at k →
  ¬ committed x k.
Proof.
  intros Hwf Hr Hk Hx Hat Hu (HB & Hc & _).
  pose proof (wf_branch_nonneg _ Hwf).
  rewrite (branch_inside n) in HB, Hc; try done; try lia; [|by apply (through_start _ _ (k - 1)); done || lia..].
  destruct (_ =? _); lia.
Qed.

(** What [choose_best] found out about the children of a node. *)
Definition ranked n best rest (margin : Z) : Prop :=
  best :: rest ≡ₚ n_children n ∧ Forall (outranks best) rest ∧ margin ≤ n_branch best ∧
  match rest with
  | [] => margin = n_branch best
  | second :: _ => margin = lead best second ∧ Forall (λ c, margin ≤ lead best c) rest
  end.

Lemma ranked_lead n best rest margin c :
  ranked n best rest margin → c ∈ rest → margin ≤ lead best c.
Proof.
  intros (_ & _ & _ & Hr) Hc. destruct rest as [|d rest]; [set_solver|].
  destruct Hr as [_ Hr]. rewrite Forall_forall in Hr. auto.
Qed.

Lemma sibling_branch n best rest margin x :
  wf_node n → reach n → ranked n best rest margin → end_ (n_span n) ≤ seq x →
  at_ x (end_ (n_span n) - 1) = at_ (ledger_ (n_span n)) (end_ (n_span n) - 1) →
  at_ x (end_ (n_span n)) ≠ startID (n_span best) →
  branch_at x (end_ (n_span n)) = 0 ∨
  ∃ c, c ∈ rest ∧ at_ x (end_ (n_span n)) = startID (n_span c) ∧
       branch_at x (end_ (n_span n)) = n_branch c.
Proof.
  intros Hwf Hr [Hp _] Hx Hat Hne. pose proof (wf_span_bounds _ Hwf).
  destruct (decide (Exists (λ c, startID (n_span c) = at_ x (end_ (n_span n))) (n_children n)))
    as [(c & Hc & Hid)%Exists_exists|Hno].
  - right. exists c. split_and!; [|done|by apply branch_child].
    rewrite <- Hp in Hc. apply elem_of_cons in Hc as [->|?]; [congruence|done].
  - left. apply branch_no_child; try done.
    + apply (through_start _ _ (end_ (n_span n) - 1)); done || lia.
    + intros c Hc Heq. apply Hno, Exists_exists. eauto.
Qed.

Lemma committed_best n best rest margin lg :
  wf_node n → reach n → ranked n best rest margin → 0 < n_branch best →
  end_ (n_span n) ≤ seq lg → at_ lg (end_ (n_span n)) = startID (n_span best) →
  uncommitted_at (end_ (n_span n)) < margin ∨ uncommitted_at (end_ (n_span n)) = 0 →
  committed lg (end_ (n_span n)).
Proof.
  intros Hwf Hr Hrk Hpos Hlg Hat Hu. pose proof Hrk as (Hp & Hout & Hmb & _).
  assert (best ∈ n_children n) as Hin by (rewrite <- Hp; set_solver).
  pose proof (wf_span_bounds _ Hwf).
  assert (branch_at lg (end_ (n_span n)) = n_branch best) as HB by by apply branch_child.
  pose proof (wf_child_link _ _ Hwf Hin) as [Hbst Hbag].
  pose proof (wf_span_bounds _ (wf_child _ _ Hwf Hin)).
  assert (at_ lg (end_ (n_span n) - 1) = at_ (ledger_ (n_span n)) (end_ (n_span n) - 1)) as Hat1.
  { rewrite <- Hbag by lia.
    apply (same_at_agree lg (ledger_ (n_span best)) (end_ (n_span n))); [lia|lia| |lia].
    unfold startID in Hat. by rewrite Hbst in Hat. }
  unfold committed. rewrite HB. split_and!; [done|lia|].
  intros x Hx Hprev Hne.
  destruct (sibling_branch n best rest margin x) as [->|(c & Hc & Hid & ->)]; try done.
  { congruence. }
  { congruence. }
  { split; [left; lia|]. destruct Hu; [right; case_match; lia|by left]. }
  rewrite Hat, Hid. rewrite Forall_forall in Hout. pose proof (Hout c Hc) as Ho.
  pose proof (ranked_lead _ _ _ _ _ Hrk Hc) as Hl. unfold outranks, lead in *.
  split; [lia|]. destruct Hu; [right; lia|by left].
Qed.

Lemma not_committed_end n best rest margin x :
  wf_node n → reach n → ranked n best rest margin → end_ (n_span n) ≤ seq x →
  at_ x (end_ (n_span n) - 1) = at_ (ledger_ (n_span n)) (end_ (n_span n) - 1) →
  margin ≤ uncommitted_at (end_ (n_span n)) → uncommitted_at (end_ (n_span n)) ≠ 0 →
  ¬ committed x (end_ (n_span n)).
Proof.
  intros Hwf Hr Hrk Hx Hat Hm Hu0 (HB & Hc & Hsib).
  pose proof Hrk as (Hp & Hout & _ & Hmar). pose proof (wf_span_bounds _ Hwf).
  assert (∀ c, c ∈ n_children n → end_ (n_span n) ≤ seq (ledger_ (n_span c)) ∧
    at_ (ledger_ (n_span c)) (end_ (n_span n) - 1) = at_ x (end_ (n_span n) - 1) ∧
    at_ (ledger_ (n_span c)) (end_ (n_span n)) = startID (n_span c)) as Hch.
  { intros c Hcin. pose proof (wf_child_link _ _ Hwf Hcin) as [Hst Hag].
    pose proof (wf_span_bounds _ (wf_child _ _ Hwf Hcin)). unfold startID. rewrite Hst.
    split_and!; [lia| |done]. rewrite Hat. apply Hag. lia. }
  assert (best ∈ n_children n) as Hbin by (rewrite <- Hp; set_solver).
  destruct (decide (at_ x (end_ (n_span n)) = startID (n_span best))) as [Heq|Hne].
  - assert (branch_at x (end_ (n_span n)) = n_branch best) as HBx by by apply branch_child.
    rewrite HBx in *. destruct rest as [|second rest]; [lia|]. destruct Hmar as [-> _].
    assert (second ∈ n_children n) as Hsin by (rewrite <- Hp; set_solver).
    destruct (Hch second Hsin) as (Hs1 & Hs2 & Hs3).
    apply Forall_cons in Hout as [Ho _].
    assert (startID (n_span second) ≠ startID (n_span best)) as Hdist.
    { inversion Hwf as [? ? ? ? ? ? ? ? ? ? Hnd]; subst. simpl in Hp. rewrite <- Hp in Hnd.
      simpl in Hnd. apply NoDup_cons in Hnd as [Hnin _]. set_solver. }
    destruct (Hsib (ledger_ (n_span second))) as [_ Hlead]; try done.
    { congruence. }
    rewrite (branch_child n second) in Hlead by done.
    rewrite Hs3, Heq in Hlead. unfold lead in Hm. lia.
  - destruct (Hch best Hbin) as (Hb1 & Hb2 & Hb3).
    destruct (Hsib (ledger_ (n_span best))) as [Hlex _]; [done|done|congruence|].
    rewrite (branch_child n best) in Hlex by done.
    destruct (sibling_branch n best rest margin x) as [H0'|(c & Hcin & Hid & HBc)]; try done.
    + lia.
    + rewrite HBc, Hid, Hb3 in Hlex. rewrite Forall_forall in Hout.
      pose proof (Hout c Hcin) as Ho. unfold outranks in Ho. lia.
Qed.

Lemma height_child n c : c ∈ n_children n → (height c < height n)%nat.
Proof.
  destruct n as [sp t br cs]; simpl. intros Hc.
  enough (height c ≤ list_max (map height cs))%nat by lia.
  pose proof (proj1 (list_max_le (map height cs) _) (le_n _)) as Hall.
  rewrite Forall_forall in Hall. apply Hall. by apply (list_elem_of_fmap_2 height).
Qed.

Context (L0 : list (Z * Z)).
Context (HL0 : StronglySorted (λ a b : Z * Z, a.1 < b.1) L0).
Context (HU : ∀ b, sumZ snd (filter (λ y : Z * Z, y.1 < b) L0) = wsum (λ _ s, s <? b) n0).
Context (Hpos : Forall (λ y : Z * Z, 0 ≤ y.1 < 2 ^ 32 - 1 ∧ 0 < y.2) L0).
Context (Hwf0 : wf_node n0) (Hmax0 : n_branch n0 < 2 ^ 32).

Lemma preferred_stop_inside n k :
  wf_node n → reach n → start_ (n_span n) < k < end_ (n_span n) →
  (∀ j, start_ (n_span n) < j < k → uncommitted_at j < n_branch n) →
  n_branch n ≤ uncommitted_at k →
  preferred_ok n (tip (default (n_span n) (before (n_span n) k))).
Proof.
  intros Hwf Hr Hk Hall Hu. pose proof (wf_span_bounds _ Hwf) as [Hb1 Hb2].
  pose proof (seq_range (ledger_ (n_span n))).
  rewrite before_mid by lia. simpl. unfold tip; simpl. rewrite (u32_small (k - 1)) by lia.
  split; simpl; try done; try lia.
  - intros j Hj. apply (committed_inside n); try done; try lia. apply Hall. lia.
  - intros x Hx Hat. replace (k - 1 + 1) with k by lia.
    apply (not_committed_inside n); done || lia.
Qed.

Lemma preferred_stop_end n :
  wf_node n → reach n →
  (∀ j, start_ (n_span n) < j < end_ (n_span n) → uncommitted_at j < n_branch n) →
  (∀ x, end_ (n_span n) ≤ seq x →
     at_ x (end_ (n_span n) - 1) = at_ (ledger_ (n_span n)) (end_ (n_span n) - 1) →
     ¬ committed x (end_ (n_span n))) →
  preferred_ok n (tip (n_span n)).
Proof.
  intros Hwf Hr Hall Hstop. pose proof (wf_span_bounds _ Hwf) as [Hb1 Hb2].
  pose proof (seq_range (ledger_ (n_span n))).
  unfold tip; simpl. rewrite (u32_small (end_ (n_span n) - 1)) by lia.
  split; simpl; try done; try lia.
  - intros j Hj. apply (committed_inside n); try done; try lia. apply Hall. lia.
  - intros x Hx Hat. replace (end_ (n_span n) - 1 + 1) with (end_ (n_span n)) by lia.
    apply Hstop; done || lia.
Qed.

Lemma preferred_go_on n best rest margin r :
  wf_node n → reach n → ranked n best rest margin → 0 < n_branch best →
  (∀ j, start_ (n_span n) < j < end_ (n_span n) → uncommitted_at j < n_branch n) →
  uncommitted_at (end_ (n_span n)) < margin ∨ uncommitted_at (end_ (n_span n)) = 0 →
  preferred_ok best r → preferred_ok n r.
Proof.
  intros Hwf Hr Hrk Hpb Hall Hu [Hrng Hid Hthr Hcom Hmaxl].
  assert (best ∈ n_children n) as Hin by (rewrite <- (proj1 Hrk); set_solver).
  pose proof (wf_child_link _ _ Hwf Hin) as [Hst Hag].
  pose proof (wf_span_bounds _ Hwf) as [Hb1 Hb2].
  pose proof (wf_span_bounds _ (wf_child _ _ Hwf Hin)) as [Hb3 Hb4].
  assert (agree (st_ledger r) (ledger_ (n_span best)) (end_ (n_span n) + 1)) as Hag2.
  { apply same_at_agree; [lia|lia|]. unfold startID in Hthr. by rewrite Hst in Hthr. }
  split; try done; [lia| |].
  - unfold startID. rewrite Hag2 by lia. apply Hag. lia.
  - intros k Hk. destruct (Z.lt_total k (end_ (n_span n))) as [Hlt|[->|Hgt]].
    + apply (committed_inside n); try done; try lia; [|apply Hall; lia].
      rewrite Hag2 by lia. apply Hag. lia.
    + eapply committed_best; try done; [lia|]. by rewrite <- Hthr, Hst.
    + apply Hcom. lia.
Qed.

Lemma preferred_loop_ok fuel n b unc it n' r :
  (height n ≤ fuel)%nat → wf_node n → shaped n → n_branch n < 2 ^ 32 → reach n →
  passed L0 (λ b, wsum (λ _ s, s <? b) n0) b unc it →
  b ≤ Z.max (start_ (n_span n) + 1) largest →
  preferred_loop fuel largest n unc it = (n', r) →
  same_support n n' ∧ preferred_ok n r.
Proof.
  revert n b unc it n' r. induction fuel as [|fuel IH]; intros n b unc it n' r Hh Hwf Hsh Hbr Hr Hp Hb.
  { destruct n; simpl in Hh; lia. }
  assert (∀ b, wsum (λ _ s, s <? b) n0 < 2 ^ 32) as Hmax
    by (intros b'; pose proof (wsum_le_branch (λ _ s, s <? b') _ Hwf0); lia).
  pose proof (wf_span_bounds _ Hwf) as [Hb1 Hb2]. pose proof (seq_range (ledger_ (n_span n))).
  simpl. rewrite (u32_small (start_ (n_span n) + 1)) by lia.
  destruct (add_uncommitted _ unc it) as [unc1 it1] eqn:Eadd.
  pose proof (add_uncommitted_passed _ _ HL0 HU Hpos Hmax _ _ _ _ _ _ Hp Eadd) as Hp1.
  replace (Z.max b _) with (Z.max (start_ (n_span n) + 1) largest) in Hp1 by lia.
  destruct (walk_span _ _ _ unc1 it1) as [[k unc2] it2] eqn:Ewalk.
  destruct (walk_span_passed _ _ HL0 HU Hpos Hmax largest (end_ (n_span n)) (n_branch n)
    (start_ (n_span n) + 1) _ _ _ _ _ Hp1 ltac:(lia) ltac:(lia) ltac:(lia) Ewalk)
    as (Hp2 & Hk & Hstop & Hall).
  assert (unc2 = uncommitted_at k) as Hunc by (by destruct Hp2 as (? & ? & ? & ? & ->)).
  assert (∀ j, start_ (n_span n) < j < k → uncommitted_at j < n_branch n) as Hall'
    by (intros j Hj; apply Hall; lia).
  destruct (Z.ltb_spec k (end_ (n_span n))) as [Hlt|Hge].
  { intros [= <- <-]. split; [reflexivity|].
    apply preferred_stop_inside; done || lia. }
  assert (k = end_ (n_span n)) as -> by lia.
  destruct (choose_best (n_children n)) as [cs margin] eqn:Ebest.
  assert (∀ c, c ∈ n_children n → 0 < n_branch c) as Hcpos.
  { intros c Hc. inversion Hsh as [? ? ? ? Hsall]; subst. rewrite Forall_forall in Hsall.
    destruct (Hsall c Hc). apply wf_useful_pos; try done. by apply (wf_child _ _ Hwf). }
  assert (cs ≡ₚ n_children n ∧ match cs with [] => True | best :: rest => ranked n best rest margin end)
    as [Hperm Hrk].
  { assert (sumZ n_branch (n_children n) ≤ n_branch n) by (by inversion Hwf; simpl; lia).
    destruct (choose_best_ok (n_children n) (n_branch n + 1) cs margin) as [Hpm Hr'];
      [by inversion Hwf|done|lia|lia|done|].
    split; [done|]. destruct cs; [done|]. by split. }
  pose proof (same_perm n cs Hperm) as Hsame.
  destruct cs as [|best rest].
  { intros [= <- <-]. split; [done|]. apply preferred_stop_end; try done.
    intros x Hx Hat (HB & _).
    assert (branch_at x (end_ (n_span n)) = 0); [|lia]. apply branch_no_child; try done.
    - apply (through_start _ _ (end_ (n_span n) - 1)); done || lia.
    - intros c Hc. rewrite <- Hperm in Hc. set_solver. }
  assert (best ∈ n_children n) as Hin by (rewrite <- Hperm; set_solver).
  destruct (Z.ltb_spec unc2 margin) as [Hm|Hm]; simpl; [|destruct (Z.eqb_spec unc2 0) as [H0'|H0']].
  3: { intros [= <- <-]. split; [done|]. apply preferred_stop_end; try done.
       intros x Hx Hat. eapply not_committed_end; try done; lia. }
  all: destruct (preferred_loop fuel largest best unc2 it2) as [best' r'] eqn:Eloop;
    intros [= <- <-];
    pose proof (height_child _ _ Hin); pose proof (wf_child_link _ _ Hwf Hin) as [Hst _];
    pose proof (wf_children_branch _ _ Hwf Hin); pose proof (wf_tip_nonneg _ Hwf);
    (destruct (IH best (Z.max (end_ (n_span n)) largest) unc2 it2 best' r') as [Hs1 Hok];
     [lia|by apply (wf_child _ _ Hwf)|
      by inversion Hsh as [? ? ? ? Hsall]; subst; rewrite Forall_forall in Hsall; apply (Hsall best Hin)|
      lia|by eapply reach_child|done|lia|done|]);
    (split; [|eapply preferred_go_on; try done; [by apply Hcpos|lia]]);
    (etransitivity; [exact Hsame|]); destruct n; by apply same_head.
Qed.
End preferred.

(** ** [getPreferred] on a trie that represents a multiset *)
Section top.
  Context {L : Type} `{LedgerLaws L}.
  Implicit Types (t : LedgerTrie L).

(** Support added up sequence number by sequence number. *)
Lemma wsum_by_seq (P : Z → bool) n ks :
  NoDup ks → wf_node n →
  (∀ d, in_tree d n → n_tip d ≠ 0 → end_ (n_span d) - 1 ∈ ks) →
  wsum (λ _ s, P s) n = sumZ (λ k, if P k then wsum (λ _ s, s =? k) n else 0) ks.
Proof.
  intros Hks. induction n as [sp t br cs IH] using node_ind. intros Hwf Hin. simpl.
  rewrite (sumZ_ext _ (λ c, sumZ (λ k, if P k then wsum (λ _ s, s =? k) c else 0) ks)).
  2: { intros c Hc. rewrite Forall_forall in IH. apply (IH c Hc).
       - by apply (wf_child _ _ Hwf).
       - intros d Hd. apply Hin. by eapply in_tree_child. }
  rewrite sumZ_swap.
  assert ((if P (end_ sp - 1) then t else 0) =
    sumZ (λ k, if P k then if end_ sp - 1 =? k then t else 0 else 0) ks) as ->.
  { destruct (decide (t = 0)) as [->|Ht].
    - rewrite sumZ_zero; [by case_match|]. intros; repeat case_match; done.
    - rewrite (sumZ_single _ _ (end_ sp - 1)); [by rewrite Z.eqb_refl|done| |].
      + apply (Hin _ (in_tree_here _) Ht).
      + intros y Hy. rewrite (proj2 (Z.eqb_neq _ _)) by done. by case_match. }
  rewrite <- sumZ_add. apply sumZ_ext. intros k _. destruct (P k); [done|].
  by rewrite sumZ_zero.
Qed.

Lemma wsum_pos_node (f : L → Z → bool) n :
  wf_node n → wsum f n ≠ 0 →
  ∃ d, in_tree d n ∧ f (ledger_ (n_span d)) (end_ (n_span d) - 1) = true.
Proof.
  induction n as [sp t br cs IH] using node_ind. intros Hwf Hne. simpl in Hne.
  destruct (f (ledger_ sp) (end_ sp - 1)) eqn:Ef.
  { exists (mkNode sp t br cs). split; [constructor|done]. }
  destruct (decide (Exists (λ c, wsum f c ≠ 0) cs)) as [(c & Hc & Hw)%Exists_exists|Hno].
  - rewrite Forall_forall in IH.
    destruct (IH c Hc (wf_child _ _ Hwf Hc) Hw) as (d & Hd & Hfd).
    exists d. split; [by eapply in_tree_child|done].
  - rewrite sumZ_zero in Hne; [lia|]. intros c Hc. apply dec_stable. intros Hw.
    apply Hno, Exists_exists. eauto.
Qed.

Lemma wsum_tip_le f n d :
  wf_node n → in_tree d n → f (ledger_ (n_span d)) (end_ (n_span d) - 1) = true →
  n_tip d ≤ wsum f n.
Proof.
  intros Hwf Hd Hf. induction Hd as [n|n c d Hc Hd IH].
  - destruct n as [sp t br cs]; simpl in *. rewrite Hf.
    enough (0 ≤ sumZ (wsum f) cs) by lia. apply sumZ_nonneg. intros c Hc.
    by apply wsum_nonneg, (wf_child _ _ Hwf).
  - specialize (IH (wf_child _ _ Hwf Hc) Hf). pose proof (wf_tip_nonneg _ Hwf).
    destruct n as [sp t br cs]; simpl in *.
    assert (wsum f c ≤ sumZ (wsum f) cs); [|case_match; lia].
    apply sumZ_elem; [|done]. intros e He. by apply wsum_nonneg, (wf_child _ _ Hwf).
Qed.

#[local] Instance seq_le_total : Total seq_le.
Proof. intros a b. unfold seq_le. lia. Qed.
#[local] Instance seq_le_trans : Transitive seq_le.
Proof. intros a b c. unfold seq_le. lia. Qed.

Lemma seq_iter_perm m : seq_iter m ≡ₚ map_to_list m.
Proof. apply merge_sort_Permutation. Qed.

Lemma seq_iter_sorted m : StronglySorted (λ a b : Z * Z, a.1 < b.1) (seq_iter m).
Proof.
  pose proof (StronglySorted_merge_sort seq_le (map_to_list m)) as Hs.
  fold (seq_iter m) in Hs.
  pose proof (NoDup_fst_map_to_list m) as Hnd. rewrite <- seq_iter_perm in Hnd.
  induction Hs as [|x l Hs IH Hall]; [constructor|].
  simpl in Hnd. apply NoDup_cons in Hnd as [Hx Hnd]. constructor; [by apply IH|].
  apply Forall_forall. intros y Hy. rewrite Forall_forall in Hall.
  specialize (Hall y Hy). unfold seq_le in Hall.
  assert (x.1 ≠ y.1); [|lia]. intros Heq. apply Hx. rewrite Heq.
  by apply (list_elem_of_fmap_2 fst).
Qed.

Lemma trie_inv_seq_entry t s v :
  trie_inv t → seqSupport t !! s = Some v →
  v = wsum (λ _ k, k =? s) (root t) ∧ 0 < v ∧ 0 ≤ s < 2 ^ 32 - 1.
Proof.
  intros [Hwf _ _ _ Hseq]. rewrite Hseq. simpl.
  destruct (Z.eqb_spec (wsum (λ _ k, k =? s) (root t)) 0) as [|Hne]; [done|].
  intros [= <-]. pose proof (wsum_nonneg (λ _ k, k =? s) _ Hwf).
  destruct (wsum_pos_node _ _ Hwf Hne) as (d & Hd & Hs%Z.eqb_eq).
  destruct (in_tree_facts _ _ Hwf Hd) as (Hwd & _ & _).
  pose proof (wf_span_bounds _ Hwd). pose proof (seq_range (ledger_ (n_span d))).
  split_and!; done || lia.
Qed.

Lemma seq_iter_sum t b :
  trie_inv t →
  sumZ snd (filter (λ x, x.1 < b) (seq_iter (seqSupport t))) = wsum (λ _ s, s <? b) (root t).
Proof.
  intros Hinv. pose proof (inv_wf _ Hinv) as Hwf.
  rewrite (wsum_by_seq (λ s, s <? b) _ (map fst (seq_iter (seqSupport t)))); [| |done|].
  - rewrite sumZ_filter, sumZ_map. apply sumZ_ext. intros [s v] Hsv. simpl.
    rewrite seq_iter_perm, elem_of_map_to_list in Hsv.
    destruct (trie_inv_seq_entry _ _ _ Hinv Hsv) as (-> & _ & _).
    destruct (Z.ltb_spec s b); case_decide; done || lia.
  - rewrite seq_iter_perm. apply NoDup_fst_map_to_list.
  - intros d Hd Ht. rewrite seq_iter_perm.
    destruct (in_tree_facts _ _ Hwf Hd) as (Hwd & _ & _).
    pose proof (wf_tip_nonneg _ Hwd).
    pose proof (wsum_tip_le (λ _ k, k =? end_ (n_span d) - 1) _ _ Hwf Hd (Z.eqb_refl _)) as Hle.
    apply list_elem_of_fmap. exists (end_ (n_span d) - 1, wsum (λ _ k, k =? end_ (n_span d) - 1) (root t)).
    split; [done|]. apply elem_of_map_to_list. rewrite (inv_seq _ Hinv). simpl.
    rewrite (proj2 (Z.eqb_neq _ _)); [done|lia].
Qed.

Lemma getPreferred_represents t M largest :
  represents t M →
  represents (getPreferred t largest).1 M ∧
  match (getPreferred t largest).2 with
  | None => total M = 0
  | Some r => total M ≠ 0 ∧ preferred_ok (root t) largest (root t) r
  end.
Proof.
  intros Hrep. unfold getPreferred. rewrite (empty_total _ _ Hrep).
  destruct (Z.eqb_spec (total M) 0) as [H0'|H0']; [done|].
  pose proof Hrep as [Hinv Hw]. pose proof Hinv as [Hwf Hsp Hsh Hbd Hseq].
  destruct (preferred_loop _ _ _ _ _) as [root' r] eqn:El.
  assert (Forall (λ x, 0 ≤ x.1 < 2 ^ 32 - 1 ∧ 0 < x.2) (seq_iter (seqSupport t))) as Hpos.
  { apply Forall_forall. intros [s v] Hsv. rewrite seq_iter_perm, elem_of_map_to_list in Hsv.
    destruct (trie_inv_seq_entry _ _ _ Hinv Hsv) as (_ & ? & ?). done. }
  destruct (preferred_loop_ok (root t) largest _ (seq_iter_sorted _)
    (λ b, seq_iter_sum t b Hinv) Hpos Hwf Hbd (height (root t)) (root t) 0 0
    (seq_iter (seqSupport t)) root' r) as [[Ssp Stip Sbr Slen Swf Ssh Sws] Hok]; try done.
  - by apply (passed_start _ _ (λ b, seq_iter_sum t b Hinv)).
  - rewrite Hsp. simpl. lia.
  - simpl. split; [|done]. split; [|intros f Hf; rewrite Sws; auto].
    split; simpl; auto; try congruence; try lia. intros s. by rewrite Sws.
Qed.
End top.
