(* ===== verification/RCLValidatedLedger.v ===== *)
(** * The ledger the validators' trie is instantiated with

    [RCLValidatedLedger] of src/src/ripple/app/consensus/RCLValidations.{h,cpp}:
    a ledger hash, its sequence number and the hashes of its most recent
    ancestors, of which a ledger's skip list has at most 256.  Ledgers whose
    hashes come from a collision-free hash chain and which branch off a common
    history no more than 256 ledgers ago satisfy what the trie relies on
    ([LedgerWindow]).  Ledgers further apart do not, see [windows_apart] in
    LedgerTrieTheorems.v. *)

From stdpp Require Import prelude countable.
From Stdlib Require Import ZArith Lia.
From S2P Require Import Prelude.
From S2P Require Import LedgerTrie.

Record RCLValidatedLedger := mkRCL {
  ledgerID_ : Z;
  ledgerSeq_ : Z;
  ancestors_ : list Z;
}.

(** [RCLValidatedLedger(MakeGenesis)]. *)
Definition rcl_genesis : RCLValidatedLedger := mkRCL 0 0 [].

Definition rcl_minSeq (l : RCLValidatedLedger) : Z :=
  ledgerSeq_ l - Z.min (ledgerSeq_ l) (u32 (Z.of_nat (length (ancestors_ l)))).

(** [operator[]]; an ancestor that is not known is [ID{0}]. *)
Definition rcl_at (l : RCLValidatedLedger) (s : Z) : Z :=
  if (rcl_minSeq l <=? s) && (s <=? ledgerSeq_ l) then
    if s =? ledgerSeq_ l then ledgerID_ l
    else
      let diff := ledgerSeq_ l - s in
      nth (length (ancestors_ l) - Z.to_nat diff) (ancestors_ l) 0
  else 0.

(** The loop of [mismatch]: go down while the two ledgers differ. *)
Fixpoint rcl_mismatch_loop (fuel : nat) (a b : RCLValidatedLedger) (lower curr : Z) : Z :=
  match fuel with
  | O => curr
  | S fuel =>
    if negb (curr =? 0) && negb (rcl_at a curr =? rcl_at b curr) && (lower <=? curr)
    then rcl_mismatch_loop fuel a b lower (curr - 1)
    else curr
  end.

Definition rcl_mismatch (a b : RCLValidatedLedger) : Z :=
  let lower := Z.max (rcl_minSeq a) (rcl_minSeq b) in
  let upper := Z.min (ledgerSeq_ a) (ledgerSeq_ b) in
  let curr := rcl_mismatch_loop (Z.to_nat upper) a b lower upper in
  if curr <? lower then 1 else curr + 1.

#[export] Instance rcl_like : LedgerLike RCLValidatedLedger := {
  genesis := rcl_genesis;
  seq := ledgerSeq_;
  id := ledgerID_;
  at_ := rcl_at;
  mismatch := rcl_mismatch;
}.

(** ** Hash chains *)

(** The ledgers that branch off a common history: what each ledger after the
    genesis ledger adds, starting with [base]; the genesis ledger itself is the
    empty history.  Sequence numbers fit, and a ledger knows ancestors back to
    the last one of [base]. *)
Definition history_ok (base cs : list Z) : bool :=
  (length cs =? 0)%nat ||
  bool_decide (take (length base) cs = base) &&
  (length cs <=? Nat.max 1 (length base) + 256)%nat &&
  (Z.of_nat (length cs) <? 2 ^ 32 - 1).

Record History (base : list Z) := mkHistory {
  contents : list Z;
  contents_ok : history_ok base contents = true;
}.
Arguments mkHistory {base} _ _.
Arguments contents {base} _.
Arguments contents_ok {base} _.

Section chain.
  (** The ledger hash, from the parent's hash and the new contents. *)
  Variable hash : Z → Z → Z.

Definition chain_id (cs : list Z) : Z := foldl hash 0 cs.

(** The hashes along a chain, from the first ledger to the last. *)
Fixpoint chain_ids (p : Z) (cs : list Z) : list Z :=
  match cs with
  | [] => []
  | c :: cs => let q := hash p c in q :: chain_ids q cs
  end.

(** The validated ledger at the end of a chain, with the hashes of up to 256
    ancestors, oldest first, as [Ledger::updateSkipList] keeps them. *)
Definition chain_ledger (cs : list Z) : RCLValidatedLedger :=
  let n := length cs in
  let k := Nat.min (n - 1) 256 in
  mkRCL (chain_id cs) (Z.of_nat n)
    (take k (drop (n - 1 - k) (chain_ids 0 cs))).

  Context {base : list Z}.
  Implicit Types (a b h : History base).

#[local] Instance chain_like : LedgerLike (History base) := {
  genesis := mkHistory [] eq_refl;
  seq h := ledgerSeq_ (chain_ledger (contents h));
  id h := ledgerID_ (chain_ledger (contents h));
  at_ h s := rcl_at (chain_ledger (contents h)) s;
  mismatch a b := rcl_mismatch (chain_ledger (contents a)) (chain_ledger (contents b));
}.

  Hypothesis hash_inj : ∀ p c p' c', hash p c = hash p' c' → p = p' ∧ c = c'.
  Hypothesis hash_nonzero : ∀ p c, hash p c ≠ 0.

Lemma chain_id_inj xs ys : chain_id xs = chain_id ys → xs = ys.
Proof.
  revert ys. induction xs as [|x xs IH] using rev_ind; intros ys.
  - destruct ys as [|y ys _] using rev_ind; [done|].
    unfold chain_id. rewrite foldl_snoc. simpl. intros Heq. by destruct (hash_nonzero (foldl hash 0 ys) y).
  - destruct ys as [|y ys _] using rev_ind; unfold chain_id; rewrite ?foldl_snoc; simpl.
    + intros Heq. by destruct (hash_nonzero (foldl hash 0 xs) x).
    + intros [Heq ->]%hash_inj. by rewrite (IH ys).
Qed.

Lemma chain_ids_length p cs : length (chain_ids p cs) = length cs.
Proof. revert p. induction cs as [|c cs IH]; intros p; simpl; [done|]. by rewrite IH. Qed.

Lemma chain_ids_nth p cs i d :
  (i < length cs)%nat → nth i (chain_ids p cs) d = foldl hash p (take (S i) cs).
Proof.
  revert p i. induction cs as [|c cs IH]; intros p i Hi; simpl in Hi; [lia|].
  destruct i as [|i]; [done|]. simpl. apply IH. lia.
Qed.

Lemma chain_ledger_known cs : length (ancestors_ (chain_ledger cs)) = Nat.min (length cs - 1) 256.
Proof. simpl. rewrite length_take, length_drop, chain_ids_length. lia. Qed.

Lemma history_spec h :
  contents h = [] ∨
  (1 ≤ length (contents h))%nat ∧ take (length base) (contents h) = base ∧
  (length base ≤ length (contents h) ≤ Nat.max 1 (length base) + 256)%nat ∧
  Z.of_nat (length (contents h)) < 2 ^ 32 - 1.
Proof.
  pose proof (contents_ok h) as Hok. unfold history_ok in Hok.
  destruct (Nat.eqb_spec (length (contents h)) 0) as [Hz|Hz].
  { left. by apply nil_length_inv. }
  right. simpl in Hok. apply andb_true_iff in Hok as [Hok Hlt].
  apply andb_true_iff in Hok as [Hb%bool_decide_eq_true Hle%Nat.leb_le].
  apply Z.ltb_lt in Hlt. split_and!; try done; [lia|].
  apply (f_equal length) in Hb. rewrite length_take in Hb. lia.
Qed.

Lemma chain_minSeq cs :
  rcl_minSeq (chain_ledger cs) =
  if decide (cs = []) then 0 else Z.max 1 (Z.of_nat (length cs) - 256).
Proof.
  unfold rcl_minSeq. rewrite chain_ledger_known, u32_small by lia. cbn [chain_ledger ledgerSeq_].
  destruct (decide (cs = [])) as [->|Hne]; [done|].
  assert (length cs ≠ 0%nat) by (by destruct cs). lia.
Qed.

(** What a ledger knows: the ancestors in its window are those of its history,
    and there are none below the first ledger. *)
Lemma chain_at cs s :
  (s = 0 ∨ Z.max 1 (Z.of_nat (length cs) - 256) ≤ s) → s ≤ Z.of_nat (length cs) →
  rcl_at (chain_ledger cs) s = chain_id (take (Z.to_nat s) cs).
Proof.
  intros Hlo Hhi. unfold rcl_at. rewrite chain_minSeq, chain_ledger_known.
  cbn [chain_ledger ledgerSeq_ ledgerID_ ancestors_].
  destruct (Z.leb_spec s (Z.of_nat (length cs))); [|lia].
  destruct (decide (cs = [])) as [->|Hne]; [by replace s with 0 by (simpl in *; lia)|].
  assert (length cs ≠ 0%nat) by (by destruct cs).
  destruct (Z.leb_spec (Z.max 1 (Z.of_nat (length cs) - 256)) s); simpl;
    [|by replace s with 0 by lia].
  destruct (Z.eqb_spec s (Z.of_nat (length cs))) as [->|Hs]; [by rewrite Nat2Z.id, take_ge by lia|].
  set (k := Nat.min _ _). rewrite !nth_lookup, lookup_take_lt, lookup_drop by lia.
  rewrite <- nth_lookup, chain_ids_nth by lia. unfold chain_id. f_equal. f_equal. lia.
Qed.

(** The loop stops at the last position where the ledgers agree, or below both
    windows. *)
Lemma mismatch_loop_spec fuel x y lower curr :
  let r := rcl_mismatch_loop fuel x y lower curr in
  0 ≤ curr → (Z.to_nat curr ≤ fuel)%nat →
  0 ≤ r ≤ curr ∧
  (∀ s, r < s ≤ curr → rcl_at x s ≠ rcl_at y s) ∧
  (r = 0 ∨ r < lower ∨ rcl_at x r = rcl_at y r).
Proof.
  revert curr. induction fuel as [|fuel IH]; intros curr; cbv zeta; intros Hc Hf.
  { simpl. split_and!; lia. }
  simpl. destruct (Z.eqb_spec curr 0) as [->|Hc0]; simpl; [split_and!; lia|].
  destruct (Z.eqb_spec (rcl_at x curr) (rcl_at y curr)); simpl.
  { split_and!; try lia; auto. }
  destruct (Z.leb_spec lower curr); [|split_and!; lia].
  destruct (IH (curr - 1) ltac:(lia) ltac:(lia)) as (Hr & Hdiff & Heq).
  split_and!; [lia|lia| |done].
  intros s Hs. destruct (decide (s = curr)) as [->|]; [done|]. apply Hdiff. lia.
Qed.

Lemma take_agree {A} (xs ys : list A) i j :
  (i ≤ j)%nat → take j xs = take j ys → take i xs = take i ys.
Proof.
  intros Hij Heq. apply (f_equal (take i)) in Heq.
  by rewrite !take_take, Nat.min_l in Heq by lia.
Qed.

Lemma mismatch_genesis x y :
  ledgerSeq_ x = 0 ∨ ledgerSeq_ y = 0 → 0 ≤ ledgerSeq_ x → 0 ≤ ledgerSeq_ y →
  rcl_mismatch x y = 1.
Proof.
  intros H0 Hx Hy. unfold rcl_mismatch.
  replace (Z.min (ledgerSeq_ x) (ledgerSeq_ y)) with 0 by lia. simpl.
  destruct (Z.ltb_spec 0 (Z.max (rcl_minSeq x) (rcl_minSeq y))); done.
Qed.

(** [mismatch] of two ledgers that branch off the common history is where their
    histories differ first, and that is after the common history. *)
Lemma chain_mismatch_spec a b :
  let m := rcl_mismatch (chain_ledger (contents a)) (chain_ledger (contents b)) in
  let top := Z.min (Z.of_nat (length (contents a))) (Z.of_nat (length (contents b))) in
  1 ≤ m ≤ top + 1 ∧
  (∀ s, m ≤ s ≤ top →
     chain_id (take (Z.to_nat s) (contents a)) ≠ chain_id (take (Z.to_nat s) (contents b))) ∧
  take (Z.to_nat (m - 1)) (contents a) = take (Z.to_nat (m - 1)) (contents b) ∧
  (m ≤ Z.of_nat (length base) → contents a = [] ∨ contents b = []).
Proof.
  cbv zeta.
  destruct (history_spec a) as [->|(Ha0 & Ha1 & Ha2 & Ha3)];
    [|destruct (history_spec b) as [->|(Hb0 & Hb1 & Hb2 & Hb3)]].
  1-2: rewrite mismatch_genesis by (simpl; lia); simpl; split_and!; try lia; auto;
    intros s Hs; lia.
  set (top := Z.min _ _). set (la := contents a) in *. set (lb := contents b) in *.
  set (B := length base) in *.
  assert (∀ s, Z.max 1 (Z.of_nat B) ≤ s ≤ top →
    rcl_at (chain_ledger la) s = chain_id (take (Z.to_nat s) la) ∧
    rcl_at (chain_ledger lb) s = chain_id (take (Z.to_nat s) lb)) as Hat.
  { intros s Hs. rewrite !chain_at by lia. done. }
  unfold rcl_mismatch. rewrite !chain_minSeq.
  rewrite !decide_False by (intros E; rewrite E in *; simpl in *; lia).
  cbn [ledgerSeq_ chain_ledger]. fold top. set (lower := Z.max (Z.max 1 _) _).
  destruct (mismatch_loop_spec (Z.to_nat top) (chain_ledger la) (chain_ledger lb) lower top)
    as (Hr & Hdiff & Heq); [lia|lia|].
  set (r := rcl_mismatch_loop _ _ _ _ _) in *.
  assert (Z.of_nat B ≤ r) as HrB.
  { destruct (decide (Z.of_nat B ≤ r)) as [|Hlt]; [done|exfalso].
    apply (Hdiff (Z.of_nat B)); [lia|]. destruct (Hat (Z.of_nat B)) as [-> ->]; [lia|].
    rewrite Nat2Z.id. by rewrite Ha1, Hb1. }
  assert ((if r <? lower then 1 else r + 1) = r + 1) as -> by (destruct (Z.ltb_spec r lower); lia).
  replace (r + 1 - 1) with r by lia. split_and!; try lia.
  - intros s Hs. destruct (Hat s) as [<- <-]; [lia|]. apply Hdiff. lia.
  - destruct (decide (r = 0)) as [->|Hr0]; [done|]. apply chain_id_inj.
    destruct (Hat r) as [<- <-]; [lia|]. destruct Heq as [|[|]]; [lia..|done].
Qed.

#[local] Instance chain_window : LedgerWindow (History base).
Proof.
  refine {| anc := λ h s, chain_id (take (Z.to_nat s) (contents h));
    trunk := Z.of_nat (length base) |}.
  - split; simpl.
    + intros l. destruct (history_spec l) as [->|(? & ? & ? & ?)]; simpl; lia.
    + done.
    + intros l. by rewrite Nat2Z.id, take_ge by lia.
    + done.
    + intros a b. destruct (chain_mismatch_spec a b) as (? & _ & _ & _). lia.
    + intros a b s Hs. destruct (chain_mismatch_spec a b) as (? & _ & Heq & _).
      f_equal. eapply take_agree; [|exact Heq]. lia.
    + intros a b s Hs0 Hs. destruct (chain_mismatch_spec a b) as (? & Hd & _ & _). apply Hd. lia.
    + intros a b s t Hs Ht Heq%chain_id_inj.
      apply (f_equal length) in Heq. rewrite !length_take in Heq. lia.
  - intros l. simpl. destruct (history_spec l) as [->|(? & ? & ? & ?)]; [by left|right; lia].
  - intros a b Hm. simpl. destruct (chain_mismatch_spec a b) as (_ & _ & _ & Hb).
    destruct (Hb Hm) as [->| ->]; auto.
  - intros l s Hk Hs. simpl in *. apply chain_at; [|lia].
    destruct (history_spec l) as [E|(? & ? & ? & ?)]; [rewrite E in *; simpl in *|]; lia.
Defined.
End chain.

(** ** A concrete collision-free chain, to evaluate the models on *)
Definition code (c : Z) : Z := if 0 <=? c then 2 * c else - (2 * c + 1).
Definition pair_hash (p c : Z) : Z := (2 * p + 1) * 2 ^ code c.

Lemma code_nonneg c : 0 ≤ code c.
Proof. unfold code. destruct (Z.leb_spec 0 c); lia. Qed.

Lemma code_inj c c' : code c = code c' → c = c'.
Proof. unfold code. destruct (Z.leb_spec 0 c), (Z.leb_spec 0 c'); lia. Qed.

(** An odd number and a power of two are determined by their product. *)
Lemma odd_shift_inj p q n m :
  0 ≤ n ≤ m → (2 * p + 1) * 2 ^ n = (2 * q + 1) * 2 ^ m → n = m ∧ p = q.
Proof.
  intros Hn Heq. replace m with (n + (m - n)) in Heq by lia.
  rewrite Z.pow_add_r, Z.mul_assoc, (Z.mul_shuffle0 _ (2 ^ n)) in Heq by lia.
  apply Z.mul_reg_r in Heq; [|apply Z.pow_nonzero; lia].
  destruct (decide (n = m)) as [->|Hne]; [rewrite Z.sub_diag in Heq; lia|].
  replace (m - n) with (1 + (m - n - 1)) in Heq by lia.
  rewrite Z.pow_add_r in Heq by lia. lia.
Qed.

Lemma pair_hash_inj p c p' c' : pair_hash p c = pair_hash p' c' → p = p' ∧ c = c'.
Proof.
  unfold pair_hash. intros Heq. pose proof (code_nonneg c). pose proof (code_nonneg c').
  destruct (decide (code c ≤ code c')).
  - apply odd_shift_inj in Heq as [Hc ->]; [|lia]. split; [done|by apply code_inj].
  - symmetry in Heq. apply odd_shift_inj in Heq as [Hc ->]; [|lia]. split; [done|by apply code_inj].
Qed.

Lemma pair_hash_nonzero p c : pair_hash p c ≠ 0.
Proof.
  unfold pair_hash. pose proof (Z.pow_pos_nonneg 2 (code c) ltac:(lia) (code_nonneg c)).
  apply Z.neq_mul_0. lia.
Qed.

#[export] Instance history_like base : LedgerLike (History base) := chain_like pair_hash.
#[export] Instance history_window base : LedgerWindow (History base) :=
  chain_window pair_hash pair_hash_inj pair_hash_nonzero.
