(* ===== verification/SupportTrie.v ===== *)
(** * What the ledger trie promises to its client

    The interface between LedgerTrie.h and Validations.h: a trie is a multiset
    of supported ledgers.  [SupportTrie] has the operations [Validations] calls
    and their laws, stated on the multiset; [ledger_trie_support] is the proof
    that the trie of LedgerTrie.h keeps them. *)

From stdpp Require Import prelude gmap sorting.
From Stdlib Require Import ZArith Lia.
From S2P Require Import Prelude.
From S2P Require Import LedgerTrie.
From S2P Require Import LedgerTrieSpec.
From S2P Require Import LedgerTriePreferred.

(** ** Ledgers that know their latest ancestors *)
Section window.
  Context {L : Type} `{LedgerWindow L}.
  Implicit Types (l x : L).

(** The ledgers with their full histories: what is proved of a trie of those
    is carried over below. *)
Definition ideal : LedgerLike L := with_ancestors anc.
#[local] Existing Instance anc_laws.

Lemma window_seq l : 0 ≤ seq l < 2 ^ 32 - 1.
Proof. exact (seq_range (H:=ideal) l). Qed.

Lemma window_id l : at_ l (seq l) = id l.
Proof.
  pose proof (window_seq l). rewrite at_known; [|apply seq_trunk|lia].
  exact (at_seq (H:=ideal) l).
Qed.

(** A ledger knows the ancestor at the sequence number of any ledger. *)
Lemma window_at x l : seq l ≤ seq x → at_ x (seq l) = anc x (seq l).
Proof. intros Hle. pose proof (window_seq l). apply at_known; [apply seq_trunk|lia]. Qed.

Lemma window_at_inj x l : seq l ≤ seq x → at_ x (seq l) = id x → seq l = seq x.
Proof.
  intros Hle. pose proof (window_seq l). rewrite window_at, <- window_id, window_at by lia.
  intros Heq. apply (at_inj_seq (H:=ideal) x x) in Heq; simpl; lia.
Qed.

Lemma window_id_seq x l : id x = id l → seq x = seq l.
Proof.
  intros Heq. pose proof (window_seq l). pose proof (window_seq x).
  rewrite <- !window_id, !window_at in Heq by lia.
  apply (at_inj_seq (H:=ideal) x l) in Heq; simpl; lia.
Qed.

Lemma is_ledger_ideal l x : is_ledger (H:=ideal) l x (seq x) = is_ledger l x (seq x).
Proof. unfold is_ledger; simpl. by rewrite window_at by lia. Qed.

Lemma descends_ideal l x :
  descends (H:=ideal) l (seq l) x (seq x) = descends l (seq l) x (seq x).
Proof.
  unfold descends; simpl. destruct (Z.leb_spec (seq l) (seq x)); [|done].
  by rewrite !window_at by lia.
Qed.

Lemma weight_ext f g (M : list (L * Z)) :
  (∀ x, f x (seq x) = g x (seq x)) → weight f M = weight g M.
Proof. intros Hfg. apply sumZ_ext. intros [x c] _. by rewrite Hfg. Qed.

(** All ledgers but the genesis ledger agree up to the trunk. *)
Lemma trunk_agree l x s : seq l ≠ 0 → seq x ≠ 0 → 0 ≤ s ≤ trunk → anc l s = anc x s.
Proof.
  intros Hl Hx Hs. apply (mismatch_agree (H:=ideal)). simpl.
  destruct (decide (mismatch l x ≤ trunk)) as [Hm|]; [|lia].
  destruct (mismatch_trunk l x Hm); lia.
Qed.
End window.

(** ** Preference on multisets *)
Section mset.
  Context {L : Type} `{LedgerWindow L}.
  Implicit Types (M : list (L * Z)) (lg x : L).

(** The step of [lg] to sequence number [k] is committed in [M], when the
    largest sequence number validated so far is [largest]: it is supported,
    beats every sibling, and would even if all support for sequence numbers
    below [k] (or below [largest]) went to the sibling. *)
Definition mset_committed M (largest : Z) lg (k : Z) : Prop :=
  let unc := weight (λ _ s, s <? Z.max k largest) M in
  let branch x := weight (λ y s, (k <=? s) && (anc y k =? anc x k)) M in
  0 < branch lg ∧
  (unc = 0 ∨ unc < branch lg) ∧
  ∀ x, k ≤ seq x → anc x (k - 1) = anc lg (k - 1) → anc x k ≠ anc lg k →
    (branch x < branch lg ∨ branch x = branch lg ∧ anc x k < anc lg k) ∧
    (unc = 0 ∨ unc < branch lg - branch x + if anc x k <? anc lg k then 1 else 0).

(** [r] ends a chain of committed steps from the genesis ledger that cannot be
    continued by a committed step; it is not below the trunk, and its ID is
    that of the ledger there. *)
Record mset_preferred M (largest : Z) (r : SpanTip L) : Prop := {
  mp_range : 0 ≤ st_seq r ≤ seq (st_ledger r);
  mp_known : st_seq r = 0 ∨ trunk ≤ st_seq r;
  mp_id : st_id r = anc (st_ledger r) (st_seq r);
  mp_committed : ∀ k, 0 < k ≤ st_seq r → mset_committed M largest (st_ledger r) k;
  mp_maximal : ∀ x, st_seq r < seq x → anc x (st_seq r) = st_id r →
    ¬ mset_committed M largest x (st_seq r + 1);
}.
End mset.

(** ** The interface *)
Class SupportTrie (L T : Type) `{LedgerLike L} := {
  t_empty : T;
  t_insert : T → L → Z → T;
  t_remove : T → L → Z → T * bool;
  t_tipSupport : T → L → Z;
  t_branchSupport : T → L → Z;
  t_getPreferred : T → Z → T * option (SpanTip L);
}.

Class SupportTrieLaws (L T : Type) `{LedgerWindow L} `{!SupportTrie L T} := {
  t_represents : T → list (L * Z) → Prop;
  t_represents_empty : t_represents t_empty [];
  t_represents_ext : ∀ t M M', t_represents t M →
    (∀ f, observes (H:=ideal) f → weight f M = weight f M') → t_represents t M';
  t_insert_law : ∀ t M l c, t_represents t M → 0 < c → total M + c < 2 ^ 32 →
    t_represents (t_insert t l c) ((l, c) :: M);
  t_remove_law : ∀ t M l c, t_represents t M → 0 < c →
    let k := weight (is_ledger l) M in
    if k =? 0 then t_remove t l c = (t, false)
    else (t_remove t l c).2 = true ∧
         t_represents (t_remove t l c).1 ((l, - Z.min c k) :: M);
  t_tip_law : ∀ t M l, t_represents t M → t_tipSupport t l = weight (is_ledger l) M;
  t_branch_law : ∀ t M l, t_represents t M →
    t_branchSupport t l = weight (descends l (seq l)) M;
  t_preferred_law : ∀ t M largest, t_represents t M →
    t_represents (t_getPreferred t largest).1 M ∧
    match (t_getPreferred t largest).2 with
    | None => total M = 0
    | Some r => total M ≠ 0 ∧ mset_preferred M largest r
    end;
}.

#[export] Instance ledger_trie {L} `{LedgerLike L} : SupportTrie L (LedgerTrie L) := {
  t_empty := Trie.empty_trie;
  t_insert := Trie.insert;
  t_remove := Trie.remove;
  t_tipSupport := Trie.tipSupport;
  t_branchSupport := Trie.branchSupport;
  t_getPreferred := Trie.getPreferred;
}.

(** ** The trie on ledgers with full histories *)
Section full.
  Context {L : Type} `{LedgerWindow L}.
  Implicit Types (t : LedgerTrie L) (M : list (L * Z)) (n d : Node L).
#[local] Existing Instance anc_laws.

Lemma committed_weight t M largest lg k :
  represents (H:=ideal) t M → 0 ≤ k →
  committed (H:=ideal) (root t) largest lg k ↔ mset_committed M largest lg k.
Proof.
  intros [_ Hw] Hk. unfold committed, mset_committed, branch_at, uncommitted_at.
  assert (∀ x, wsum (descends (H:=ideal) x k) (root t) =
    weight (λ y s, (k <=? s) && (anc y k =? anc x k)) M) as Hd
    by (intros x; by apply Hw, observes_descends).
  rewrite (Hw (λ _ s, s <? Z.max k largest)) by done. rewrite Hd.
  split; intros (? & ? & Hx); split_and!; try done; intros x Hx1 Hx2 Hx3;
    specialize (Hx x Hx1 Hx2 Hx3); rewrite Hd in *; done.
Qed.

(** Below the trunk there is nothing to choose: a committed step is followed by
    a committed step. *)
Lemma committed_up M largest lg s :
  seq lg ≠ 0 → 0 < s < trunk → mset_committed M largest lg s →
  mset_committed M largest lg (s + 1).
Proof.
  intros Hlg Hs. unfold mset_committed.
  assert (weight (λ _ y, y <? Z.max s largest) M =
    weight (λ _ y, y <? Z.max (s + 1) largest) M) as ->.
  { apply weight_ext. intros x. pose proof (seq_trunk x).
    destruct (Z.ltb_spec (seq x) (Z.max s largest)), (Z.ltb_spec (seq x) (Z.max (s + 1) largest));
      done || lia. }
  assert (weight (λ y k, (s <=? k) && (anc y s =? anc lg s)) M =
    weight (λ y k, (s + 1 <=? k) && (anc y (s + 1) =? anc lg (s + 1))) M) as ->.
  { apply weight_ext. intros x. destruct (seq_trunk x) as [->|Hx].
    - destruct (Z.leb_spec s 0), (Z.leb_spec (s + 1) 0); done || lia.
    - destruct (Z.leb_spec s (seq x)), (Z.leb_spec (s + 1) (seq x)); try lia. simpl.
      rewrite (trunk_agree x lg s), (trunk_agree x lg (s + 1)) by lia. by rewrite !Z.eqb_refl. }
  intros (H1 & H2 & _). split_and!; [done|done|]. intros x Hx _ [].
  apply trunk_agree; lia.
Qed.

Lemma preferred_weight t M largest r :
  represents (H:=ideal) t M → preferred_ok (H:=ideal) (root t) largest (root t) r →
  mset_preferred M largest r.
Proof.
  intros Hrep [Hr Hid Hth Hc Hm]. pose proof Hrep as [[_ Hsp _ _ _] _]. rewrite Hsp in *.
  simpl in *.
  assert (∀ k, 0 < k ≤ st_seq r → mset_committed M largest (st_ledger r) k) as Hcom.
  { intros k Hk. apply (committed_weight t); [done|lia|]. apply Hc. lia. }
  assert (∀ x, st_seq r < seq x → anc x (st_seq r) = st_id r →
    ¬ mset_committed M largest x (st_seq r + 1)) as Hmax.
  { intros x Hx1 Hx2. rewrite <- (committed_weight t) by (done || lia). by apply Hm. }
  split; try done.
  destruct (decide (st_seq r = 0 ∨ trunk ≤ st_seq r)) as [|Hno]; [done|exfalso].
  pose proof (seq_trunk (st_ledger r)).
  apply (Hmax (st_ledger r)); [lia|done|]. apply committed_up; [lia|lia|]. apply Hcom. lia.
Qed.

(** Every tip of a trie is at a sequence number that all its ledgers know. *)
Lemma in_tree_useful d n : in_tree d n → shaped n → d = n ∨ useful d.
Proof.
  induction 1 as [|n c d Hc Hd IH]; [by left|]. intros Hsh. right.
  inversion Hsh as [? ? ? ? Hall]; subst. rewrite Forall_forall in Hall.
  destruct (Hall c Hc) as [Hu Hs]. by destruct (IH Hs) as [->|].
Qed.

Lemma weight_pos (f : L → Z → bool) M : weight f M ≠ 0 → ∃ x, f x (seq x) = true.
Proof.
  induction M as [|[x c] M IH]; [done|]. unfold weight. simpl. fold (weight f M).
  destruct (f x (seq x)) eqn:E; [by exists x|]. intros ?. apply IH. lia.
Qed.

Lemma children_known n c :
  wf_node (H:=ideal) n → (2 ≤ length (n_children n))%nat → c ∈ n_children n →
  trunk < end_ (n_span n) ∧ startID (n_span c) = startID (H:=ideal) (n_span c).
Proof.
  intros Hwf Hlen Hc. pose proof (wf_span_bounds _ Hwf).
  assert (trunk < end_ (n_span n)) as Ht.
  { inversion Hwf as [sp tp br cs ? ? ? ? ? ? Hnd]; subst. simpl in *.
    destruct cs as [|a [|b cs]]; simpl in Hlen; [lia..|].
    assert (a ∈ a :: b :: cs ∧ b ∈ a :: b :: cs) as [Ia Ib] by set_solver.
    destruct (wf_child_link _ a Hwf Ia) as [Ha _]. destruct (wf_child_link _ b Hwf Ib) as [Hb _].
    pose proof (wf_span_bounds _ (wf_child _ a Hwf Ia)).
    pose proof (wf_span_bounds _ (wf_child _ b Hwf Ib)). simpl in *.
    destruct (decide (trunk < end_ sp)) as [|Hno]; [done|exfalso].
    apply NoDup_cons in Hnd as [Hnd _]. apply Hnd. apply elem_of_cons. left.
    rewrite Ha, Hb. apply trunk_agree; lia. }
  split; [done|]. destruct (wf_child_link _ c Hwf Hc) as [Hst _].
  pose proof (wf_span_bounds _ (wf_child _ c Hwf Hc)). simpl in *.
  unfold startID; simpl. apply at_known; lia.
Qed.

Lemma tip_known t M d :
  represents (H:=ideal) t M → in_tree d (root t) →
  tip (n_span d) = tip (H:=ideal) (n_span d).
Proof.
  intros [Hinv Hw] Hd. pose proof Hinv as [Hwf Hsp Hsh _ _].
  destruct (in_tree_facts _ _ Hwf Hd) as (Hwd & _ & _).
  pose proof (wf_span_bounds _ Hwd) as [? Hend]. simpl in Hend.
  pose proof (window_seq (ledger_ (n_span d))).
  assert (end_ (n_span d) - 1 = 0 ∨ trunk ≤ end_ (n_span d) - 1) as Hk.
  { destruct (in_tree_useful _ _ Hd Hsh) as [->|[Htip|Hlen]]; [by rewrite Hsp; left| |].
    - pose proof (wf_tip_nonneg _ Hwd).
      pose proof (wsum_tip_le (λ _ k, k =? end_ (n_span d) - 1) _ _ Hwf Hd (Z.eqb_refl _)) as Hle.
      rewrite (Hw _ (observes_seq _)) in Hle.
      assert (weight (H:=ideal) (λ _ k, k =? end_ (n_span d) - 1) M ≠ 0) as Hne by lia.
      destruct (weight_pos (λ _ k, k =? end_ (n_span d) - 1) M Hne) as [x Hx%Z.eqb_eq].
      rewrite <- Hx. apply seq_trunk.
    - destruct (n_children d) as [|c cs] eqn:Ec; simpl in Hlen; [lia|].
      destruct (children_known d c) as [Ht _]; [done|rewrite Ec; simpl; lia|rewrite Ec; set_solver|]. right. lia. }
  unfold tip. f_equal. rewrite (u32_small (end_ (n_span d) - 1)) by lia.
  simpl. apply at_known; lia.
Qed.
End full.

(** ** Sorting *)
#[local] Existing Instance Trie.preferred_le_dec.
Lemma NoDup_map_inj {A B} (f : A → B) xs a b :
  NoDup (map f xs) → a ∈ xs → b ∈ xs → f a = f b → a = b.
Proof.
  induction xs as [|x xs IH]; simpl; [set_solver|].
  intros [Hx Hnd]%NoDup_cons Ha Hb Heq.
  apply elem_of_cons in Ha as [->|Ha], Hb as [->|Hb]; try done.
  - destruct Hx. rewrite Heq. by apply list_elem_of_fmap_2.
  - destruct Hx. rewrite <- Heq. by apply list_elem_of_fmap_2.
  - by apply IH.
Qed.

Lemma StronglySorted_impl_elem {A} (R S : relation A) xs :
  (∀ a b, a ∈ xs → b ∈ xs → R a b → S a b) → StronglySorted R xs → StronglySorted S xs.
Proof.
  intros HRS Hs. induction Hs as [|x xs Hs IH Hall]; [constructor|]. constructor.
  - apply IH. intros a b Ha Hb. apply HRS; set_solver.
  - rewrite Forall_forall in Hall |- *. intros y Hy. apply HRS; [set_solver..|auto].
Qed.

Lemma choose_best_elem {L} `{LedgerLike L} (cs rest : list (Node L)) best margin :
  Trie.choose_best cs = (best :: rest, margin) → best ∈ cs.
Proof.
  destruct cs as [|c [|d cs]]; simpl; [done|by intros [= -> _ _]; left|].
  pose proof (merge_sort_Permutation Trie.preferred_le (c :: d :: cs)) as Hp.
  fold (Trie.partial_sort2 (c :: d :: cs)) in Hp.
  destruct (Trie.partial_sort2 (c :: d :: cs)) as [|c0 [|c1 r]];
    intros [= <- <- <-]; rewrite <- Hp; set_solver.
Qed.

(** ** The same trie on ledgers that know their latest ancestors

    Both tries do the same, step by step: where the code asks for an ancestor,
    the ledger knows it, or the answer does not matter. *)
Section transfer.
  Context {L : Type} `{LedgerWindow L}.
  Implicit Types (t : LedgerTrie L) (M : list (L * Z)) (n : Node L).
#[local] Existing Instance anc_laws.

Lemma findByLedgerID_ideal l n :
  (∀ d, in_tree d n → tip (n_span d) = tip (H:=ideal) (n_span d)) →
  Trie.findByLedgerID l n = Trie.findByLedgerID (H:=ideal) l n.
Proof.
  induction n as [sp t br cs IH] using node_ind. intros Hn.
  pose proof (Hn _ (in_tree_here _)) as Htip.
  apply (f_equal st_id) in Htip. simpl in Htip |- *. rewrite Htip.
  destruct (_ =? _); [done|]. rewrite Forall_forall in IH.
  assert (∀ c, c ∈ cs → Trie.findByLedgerID l c = Trie.findByLedgerID (H:=ideal) l c) as Hcs.
  { intros c Hc. apply IH; [done|]. intros d Hd. apply Hn. by eapply in_tree_child. }
  clear IH Hn Htip. generalize O. induction cs as [|c cs IHc]; intros k; [done|].
  rewrite (Hcs c) by set_solver. case_match; [done|]. apply IHc. set_solver.
Qed.

Lemma find_known t M l :
  represents (H:=ideal) t M →
  Trie.findByLedgerID l (root t) = Trie.findByLedgerID (H:=ideal) l (root t).
Proof. intros Hr. apply findByLedgerID_ideal. intros d. by apply (tip_known t M). Qed.

Lemma preferred_le_ext (a b : Node L) :
  startID (n_span a) = startID (H:=ideal) (n_span a) →
  startID (n_span b) = startID (H:=ideal) (n_span b) →
  Trie.preferred_le a b ↔ Trie.preferred_le (H:=ideal) a b.
Proof. intros Ha Hb. unfold Trie.preferred_le, Trie.preferred_before. by rewrite Ha, Hb. Qed.

#[local] Existing Instances preferred_le_total preferred_le_trans.

(** The children are sorted by their support and their start IDs, which differ:
    there is one way to sort them. *)
Lemma sorted_by_start (cs : list (Node L)) :
  NoDup (map (λ c, startID (H:=ideal) (n_span c)) cs) →
  (∀ c, c ∈ cs → startID (n_span c) = startID (H:=ideal) (n_span c)) →
  Trie.partial_sort2 cs = Trie.partial_sort2 (H:=ideal) cs.
Proof.
  intros Hnd Hid. unfold Trie.partial_sort2.
  set (s1 := merge_sort Trie.preferred_le cs).
  set (s2 := merge_sort (Trie.preferred_le (H:=ideal)) cs).
  assert (s1 ≡ₚ cs) as H1 by apply merge_sort_Permutation.
  assert (s2 ≡ₚ cs) as H2 by apply merge_sort_Permutation.
  apply (StronglySorted_unique_strong (Trie.preferred_le (H:=ideal))).
  - intros a b Ha Hb Hab Hba. rewrite H1 in Ha. rewrite H2 in Hb.
    rewrite preferred_le_spec in Hab, Hba.
    apply (NoDup_map_inj (λ c, startID (H:=ideal) (n_span c)) cs); [done|done|done|lia].
  - eapply StronglySorted_impl_elem; [|apply StronglySorted_merge_sort; tc_solve].
    fold s1. intros a b Ha Hb. rewrite H1 in Ha, Hb. by apply preferred_le_ext; auto.
  - apply StronglySorted_merge_sort; tc_solve.
  - by rewrite H1, H2.
Qed.

Lemma choose_best_ideal n :
  wf_node (H:=ideal) n →
  Trie.choose_best (n_children n) = Trie.choose_best (H:=ideal) (n_children n).
Proof.
  intros Hwf. destruct (decide (2 ≤ length (n_children n))%nat) as [Hlen|Hlen].
  2: { destruct (n_children n) as [|c [|d cs]]; simpl in Hlen; [done|done|lia]. }
  assert (∀ c, c ∈ n_children n → startID (n_span c) = startID (H:=ideal) (n_span c)) as Hid
    by (intros c Hc; by apply (children_known n)).
  assert (Trie.partial_sort2 (n_children n) = Trie.partial_sort2 (H:=ideal) (n_children n)) as Heq.
  { apply (sorted_by_start (n_children n)); [|done].
    by inversion Hwf. }
  destruct (n_children n) as [|c [|d cs]]; simpl in Hlen; [lia..|].
  unfold Trie.choose_best. rewrite Heq.
  pose proof (merge_sort_Permutation (Trie.preferred_le (H:=ideal)) (c :: d :: cs)) as Hp.
  fold (Trie.partial_sort2 (H:=ideal) (c :: d :: cs)) in Hp.
  destruct (Trie.partial_sort2 (H:=ideal) (c :: d :: cs)) as [|c0 [|c1 rest]]; try done.
  rewrite (Hid c0), (Hid c1) by (rewrite <- Hp; set_solver). done.
Qed.

(** The answer read with what the ledger knows. *)
Definition retip (r : SpanTip L) : SpanTip L :=
  {| st_seq := st_seq r; st_id := at_ (st_ledger r) (st_seq r); st_ledger := st_ledger r |}.

Lemma preferred_loop_ideal fuel largest n unc it :
  wf_node (H:=ideal) n →
  Trie.preferred_loop fuel largest n unc it =
  let '(n', r) := Trie.preferred_loop (H:=ideal) fuel largest n unc it in (n', retip r).
Proof.
  revert n unc it. induction fuel as [|fuel IH]; intros n unc it Hwf; [done|]. simpl.
  destruct (Trie.add_uncommitted _ unc it) as [unc1 it1].
  destruct (Trie.walk_span _ _ _ unc1 it1) as [[k unc2] it2].
  destruct (k <? end_ (n_span n)); [done|].
  rewrite (choose_best_ideal n Hwf).
  destruct (Trie.choose_best (H:=ideal) (n_children n)) as [cs margin] eqn:Eb.
  destruct cs as [|best rest]; [done|]. destruct (_ || _); [|done].
  rewrite IH; [by destruct (Trie.preferred_loop (H:=ideal) fuel largest best unc2 it2)|].
  apply (wf_child n best Hwf). exact (choose_best_elem (H:=ideal) _ _ _ _ Eb).
Qed.

Lemma getPreferred_ideal t M largest :
  represents (H:=ideal) t M →
  Trie.getPreferred t largest =
  let '(t', r) := Trie.getPreferred (H:=ideal) t largest in (t', retip <$> r).
Proof.
  intros [Hinv _]. unfold Trie.getPreferred. destruct (Trie.empty t); [done|].
  rewrite preferred_loop_ideal by apply (inv_wf _ Hinv).
  by destruct (Trie.preferred_loop (H:=ideal) _ _ _ _ _).
Qed.

Lemma retip_known M largest r : mset_preferred M largest r → retip r = r.
Proof.
  intros [Hr Hk Hid _ _]. destruct r as [s i l]; simpl in *. unfold retip; simpl.
  rewrite at_known by done. by rewrite Hid.
Qed.

#[export] Instance ledger_trie_support : SupportTrieLaws L (LedgerTrie L).
Proof.
  refine {| t_represents := represents (H:=ideal) |}; simpl.
  - exact (empty_represents (H:=ideal)).
  - intros t M M' [Hinv Hw] Hext. split; [done|]. intros f Hf. rewrite Hw by done. by apply Hext.
  - intros t M l c. apply (insert_represents (H:=ideal)).
  - intros t M l c Hrep Hc. rewrite (weight_ext _ (is_ledger (H:=ideal) l));
      [|intros x; symmetry; apply is_ledger_ideal].
    unfold Trie.remove. rewrite (find_known t M l Hrep).
    exact (remove_represents (H:=ideal) t M l c Hrep Hc).
  - intros t M l Hrep. unfold Trie.tipSupport. rewrite (find_known t M l Hrep).
    rewrite (weight_ext _ (is_ledger (H:=ideal) l)); [|intros x; symmetry; apply is_ledger_ideal].
    exact (tipSupport_weight (H:=ideal) t M l Hrep).
  - intros t M l Hrep. unfold Trie.branchSupport. rewrite (find_known t M l Hrep).
    rewrite (weight_ext _ (descends (H:=ideal) l (seq l)));
      [|intros x; symmetry; apply descends_ideal].
    exact (branchSupport_weight (H:=ideal) t M l Hrep).
  - intros t M largest Hrep. rewrite (getPreferred_ideal t M largest Hrep).
    pose proof (getPreferred_represents (H:=ideal) t M largest Hrep) as [Hr Hp].
    destruct (Trie.getPreferred (H:=ideal) t largest) as [t' [r|]]; simpl in *; [|done].
    destruct Hp as [? Hp%(preferred_weight t M)]; [|done].
    split; [done|]. split; [done|]. by rewrite (retip_known M largest r).
Defined.
End transfer.
