(* ===== verification/LedgerTrieTheorems.v ===== *)
(** * Theorems about the ledger trie

    What the trie of LedgerTrie.h promises, stated on the abstract multiset of
    supported ledgers: any sequence of insertions and removals refines the same
    sequence on multisets, and the preferred ledger is the one the multiset
    commits to. *)

From stdpp Require Import prelude gmap.
From Stdlib Require Import ZArith Lia.
From S2P Require Import Prelude.
From S2P Require Import LedgerTrie.
From S2P Require Import LedgerTrieSpec.
From S2P Require Import LedgerTriePreferred.
From S2P Require Import RCLValidatedLedger.
From S2P Require Import SupportTrie.
Import Trie.

(** ** The abstract trie *)
Section abstract.
  Context {L : Type} `{LedgerLike L}.

(** A modification of the trie. *)
Inductive trie_op :=
  | op_insert (l : L) (count : Z)
  | op_remove (l : L) (count : Z)
  | op_getPreferred (largest : Z).

Definition run_op (t : LedgerTrie L) (o : trie_op) : LedgerTrie L :=
  match o with
  | op_insert l c => insert t l c
  | op_remove l c => (remove t l c).1
  | op_getPreferred s => (getPreferred t s).1
  end.

(** The same modification of a multiset. *)
Definition spec_op (M : list (L * Z)) (o : trie_op) : list (L * Z) :=
  match o with
  | op_insert l c => (l, c) :: M
  | op_remove l c =>
    let k := weight (is_ledger l) M in
    if k =? 0 then M else (l, - Z.min c k) :: M
  | op_getPreferred _ => M
  end.

(** Counts are positive and the total support stays a 32-bit number. *)
Definition op_ok (M : list (L * Z)) (o : trie_op) : Prop :=
  match o with
  | op_insert _ c => 0 < c ∧ total M + c < 2 ^ 32
  | op_remove _ c => 0 < c
  | op_getPreferred _ => True
  end.

Inductive trie_step : LedgerTrie L * list (L * Z) → LedgerTrie L * list (L * Z) → Prop :=
  | trie_step_op t M o : op_ok M o → trie_step (t, M) (run_op t o, spec_op M o).

Definition trie_reach : LedgerTrie L * list (L * Z) → Prop := rtc trie_step (empty_trie, []).
End abstract.
Arguments trie_op : clear implicits.

(** A sequence of calls and a bool test that it respects [op_ok]. *)
Section runs.
  Context {L : Type} `{LedgerLike L}.

Fixpoint run_ops (tM : LedgerTrie L * list (L * Z)) (os : list (trie_op L)) :
    LedgerTrie L * list (L * Z) :=
  match os with
  | [] => tM
  | o :: os => run_ops (run_op tM.1 o, spec_op tM.2 o) os
  end.

Fixpoint ops_ok (M : list (L * Z)) (os : list (trie_op L)) : Prop :=
  match os with
  | [] => True
  | o :: os => op_ok M o ∧ ops_ok (spec_op M o) os
  end.

Lemma run_ops_reach os tM : ops_ok tM.2 os → rtc trie_step tM (run_ops tM os).
Proof.
  revert tM. induction os as [|o os IH]; intros [t M]; simpl; [done|].
  intros [Ho Hos]. eapply rtc_l; [by constructor|]. by apply IH.
Qed.
End runs.

Section theorems.
  Context {L : Type} `{LedgerWindow L}.
  Implicit Types (t : LedgerTrie L) (M : list (L * Z)).

#[local] Existing Instance anc_laws.

(** The laws of the interface, at this trie. *)
Lemma insert_ok t M l c :
  t_represents t M → 0 < c → total M + c < 2 ^ 32 → t_represents (insert t l c) ((l, c) :: M).
Proof. exact (t_insert_law t M l c). Qed.

Lemma remove_ok t M l c :
  t_represents t M → 0 < c →
  let k := weight (is_ledger l) M in
  if k =? 0 then remove t l c = (t, false)
  else (remove t l c).2 = true ∧ t_represents (remove t l c).1 ((l, - Z.min c k) :: M).
Proof. exact (t_remove_law t M l c). Qed.

Lemma tipSupport_ok t M l : t_represents t M → tipSupport t l = weight (is_ledger l) M.
Proof. exact (t_tip_law t M l). Qed.

Lemma branchSupport_ok t M l :
  t_represents t M → branchSupport t l = weight (descends l (seq l)) M.
Proof. exact (t_branch_law t M l). Qed.

Lemma reach_represents t M : trie_reach (t, M) → t_represents t M.
Proof.
  intros Hr.
  apply (rtc_invariant trie_step (λ tM, t_represents tM.1 tM.2) (empty_trie, []) (t, M));
    [|exact Hr|exact (t_represents_empty (T:=LedgerTrie L))].
  intros _ _ [u N [l c|l c|s] Hok]; cbn [fst snd run_op spec_op op_ok] in *; intros Hrep.
  - destruct Hok as [Hc Hov]. by apply insert_ok.
  - pose proof (remove_ok u N l c Hrep Hok) as Hrem. cbv zeta in Hrem |- *.
    destruct (_ =? _); [by rewrite Hrem|by destruct Hrem].
  - exact (proj1 (t_preferred_law (T:=LedgerTrie L) u N s Hrep)).
Qed.

(** C1: refinement, for ledgers that know their ancestors back to a history
    they share ([LedgerWindow]; a ledger of the running system knows 256).  After
    any sequence of insertions, removals and queries from the empty trie, every
    query of the trie answers what the multiset of supported ledgers says: the
    tip support of a ledger is its own weight, its branch support the weight of
    the ledgers that are it or descend from it, and the trie is empty exactly
    when the multiset is. *)
Theorem trie_refines_multiset t M l :
  trie_reach (t, M) →
  tipSupport t l = weight (λ x s, at_ x s =? id l) M ∧
  branchSupport t l = weight (λ x s, (seq l <=? s) && (at_ x (seq l) =? id l)) M ∧
  empty t = (total M =? 0).
Proof.
  intros Hr%reach_represents. split_and!.
  - by apply tipSupport_ok.
  - rewrite (branchSupport_ok t M l Hr). unfold descends. by rewrite (window_id l).
  - by apply (empty_total (H:=ideal)).
Qed.

(** Every reachable trie passes the structural check [checkInvariants] of
    the source: no compressible node without support, branch support equal to
    the tip support plus that of the children, and sequence supports that match
    the nodes. *)
Theorem trie_invariants t M : trie_reach (t, M) → checkInvariants t = true.
Proof. intros [Hinv _]%reach_represents. exact (checkInvariants_ok (H:=ideal) t Hinv). Qed.

(** [remove] on both branches.  A ledger with no support of its own is
    reported absent and the trie is left as it is; otherwise [remove] succeeds,
    takes away the requested count or what is there, and leaves every other
    ledger's tip support unchanged. *)
Theorem remove_branches t M l c :
  trie_reach (t, M) → 0 < c →
  let k := tipSupport t l in
  if k =? 0 then remove t l c = (t, false)
  else (remove t l c).2 = true ∧
    ∀ x, tipSupport (remove t l c).1 x = tipSupport t x - if id x =? id l then Z.min c k else 0.
Proof.
  intros Hr%reach_represents Hc. cbv zeta.
  rewrite (tipSupport_ok t M l Hr).
  pose proof (remove_ok t M l c Hr Hc) as Hrem. simpl in Hrem.
  destruct (_ =? _); [done|]. destruct Hrem as [Hb Hrem]. split; [done|]. intros x.
  rewrite (tipSupport_ok _ _ x Hrem), (tipSupport_ok _ _ x Hr).
  unfold weight at 1. simpl. fold (weight (is_ledger x) M). unfold is_ledger at 1.
  rewrite window_id, (Z.eqb_sym (id l)). destruct (_ =? _); lia.
Qed.

(** Round trip.  Removing what was just inserted succeeds and restores every
    answer of the trie, though the tree may have been split and compacted. *)
Theorem insert_remove_roundtrip t M l c :
  trie_reach (t, M) → 0 < c → total M + c < 2 ^ 32 →
  let r := remove (insert t l c) l c in
  r.2 = true ∧ ∀ x, tipSupport r.1 x = tipSupport t x ∧ branchSupport r.1 x = branchSupport t x.
Proof.
  intros Hr%reach_represents Hc Hov. cbv zeta.
  pose proof (insert_ok t M l c Hr Hc Hov) as Hins.
  pose proof (remove_ok _ _ l c Hins Hc) as Hrem. simpl in Hrem.
  pose proof (tipSupport_nonneg (H:=ideal) t M l Hr) as Hnn.
  change (weight (H:=ideal) (is_ledger (H:=ideal) l) M)
    with (weight (is_ledger (H:=ideal) l) M) in Hnn.
  rewrite (weight_ext _ (is_ledger l)) in Hnn by (intros x; apply is_ledger_ideal).
  assert (weight (is_ledger l) ((l, c) :: M) = c + weight (is_ledger l) M) as Hw.
  { unfold weight at 1. simpl. unfold is_ledger at 1. by rewrite window_id, Z.eqb_refl. }
  rewrite Hw in Hrem. rewrite (proj2 (Z.eqb_neq _ _)), Z.min_l in Hrem by lia.
  destruct Hrem as [Hb Hrem]. split; [done|]. intros x.
  rewrite (tipSupport_ok _ _ x Hrem), (tipSupport_ok _ _ x Hr),
    (branchSupport_ok _ _ x Hrem), (branchSupport_ok _ _ x Hr).
  unfold weight. simpl. split; case_match; lia.
Qed.

(** C27: the preferred ledger, for ledgers that know their ancestors back to a
    history they share ([LedgerWindow]).  [getPreferred] answers nothing exactly
    when nothing is supported; otherwise its answer is not below the shared
    history and ends a chain of committed steps from the genesis ledger - each
    supported by more than any sibling could gather even with all uncommitted
    support - that no committed step continues. *)
Theorem getPreferred_committed t M largest :
  trie_reach (t, M) →
  match (getPreferred t largest).2 with
  | None => total M = 0
  | Some r => total M ≠ 0 ∧ mset_preferred M largest r
  end.
Proof.
  intros Hr%reach_represents. exact (proj2 (t_preferred_law (T:=LedgerTrie L) t M largest Hr)).
Qed.
End theorems.

(** On a collision-free hash chain, [mismatch] of two validated ledgers that
    branch off a common history within their windows is the first sequence
    number at which their histories differ, one past the shorter one when they
    do not. *)
Theorem rcl_mismatch_first (hash : Z → Z → Z) (base : list Z) (a b : History base) :
  (∀ p c p' c', hash p c = hash p' c' → p = p' ∧ c = c') → (∀ p c, hash p c ≠ 0) →
  let m := rcl_mismatch (chain_ledger hash (contents a)) (chain_ledger hash (contents b)) in
  let top := Z.min (Z.of_nat (length (contents a))) (Z.of_nat (length (contents b))) in
  1 ≤ m ≤ top + 1 ∧
  take (Z.to_nat (m - 1)) (contents a) = take (Z.to_nat (m - 1)) (contents b) ∧
  ∀ s, m ≤ s ≤ top → take (Z.to_nat s) (contents a) ≠ take (Z.to_nat s) (contents b).
Proof.
  intros Hinj Hnz. cbv zeta.
  destruct (chain_mismatch_spec hash Hinj Hnz a b) as (? & Hd & ? & _).
  split_and!; try done; [lia..|]. intros s Hs Heq. apply (Hd s Hs). by rewrite Heq.
Qed.

(** ** Witnesses

    Ledgers that branch off a history of 300 ledgers, longer than a window. *)
Definition old : list Z := replicate 300 0.
Definition hA : History old := mkHistory (base:=old) (old ++ [7]) eq_refl.
Definition hB : History old := mkHistory (base:=old) (old ++ [7; 8]) eq_refl.
Definition hC : History old := mkHistory (base:=old) (old ++ [7; 9]) eq_refl.
Definition hD : History old := mkHistory (base:=old) (old ++ [7; 8; 4]) eq_refl.

Definition sample_ops : list (trie_op (History old)) :=
  [op_insert hD 2; op_insert hC 1; op_insert hA 3; op_remove hA 2; op_getPreferred 1].

Definition sample : LedgerTrie (History old) * list (History old * Z) :=
  run_ops (empty_trie, []) sample_ops.

Lemma sample_reach : trie_reach (sample.1, sample.2).
Proof.
  rewrite <- surjective_pairing. apply run_ops_reach. simpl. split_and!; done.
Qed.

Lemma trie_refines_multiset_witness :
  tipSupport sample.1 hA = 1 ∧ branchSupport sample.1 hA = 4 ∧
  branchSupport sample.1 hB = 2 ∧ empty sample.1 = false.
Proof.
  destruct (trie_refines_multiset sample.1 sample.2 hA sample_reach) as (-> & -> & ->).
  destruct (trie_refines_multiset sample.1 sample.2 hB sample_reach) as (_ & -> & _).
  split_and!; vm_compute; reflexivity.
Defined.

Lemma trie_invariants_witness : checkInvariants sample.1 = true.
Proof. exact (trie_invariants sample.1 sample.2 sample_reach). Defined.

Lemma remove_branches_witness :
  (remove sample.1 hD 5).2 = true ∧ tipSupport (remove sample.1 hD 5).1 hD = 0 ∧
  remove sample.1 hB 1 = (sample.1, false).
Proof.
  assert (tipSupport sample.1 hD = 2) as HD by (vm_compute; reflexivity).
  assert (tipSupport sample.1 hB = 0) as HB by (vm_compute; reflexivity).
  pose proof (remove_branches sample.1 sample.2 hD 5 sample_reach eq_refl) as Hd.
  pose proof (remove_branches sample.1 sample.2 hB 1 sample_reach eq_refl) as Hb.
  cbv zeta in Hd, Hb. rewrite HD in Hd. rewrite HB in Hb. cbn [Z.eqb Pos.eqb] in Hd, Hb.
  destruct Hd as [Hd Hx]. split; [exact Hd|]. split; [|exact Hb].
  rewrite (Hx hD), HD, Z.eqb_refl. reflexivity.
Defined.

Lemma insert_remove_roundtrip_witness :
  branchSupport (remove (insert sample.1 hB 5) hB 5).1 hA = 4.
Proof.
  rewrite (proj2 (proj2 (insert_remove_roundtrip sample.1 sample.2 hB 5 sample_reach
    eq_refl eq_refl) hA)).
  vm_compute. reflexivity.
Defined.

Lemma getPreferred_committed_witness :
  ∃ r, (getPreferred sample.1 1).2 = Some r ∧ st_seq r = 301 ∧ mset_preferred sample.2 1 r.
Proof.
  pose proof (getPreferred_committed sample.1 sample.2 1 sample_reach) as Hp.
  destruct (getPreferred sample.1 1).2 as [r|] eqn:E.
  - exists r. split; [reflexivity|]. split; [|exact (proj2 Hp)].
    vm_compute in E. injection E as <-. reflexivity.
  - vm_compute in E. discriminate E.
Defined.

Lemma rcl_mismatch_first_witness :
  rcl_mismatch (chain_ledger pair_hash (contents hD)) (chain_ledger pair_hash (contents hC)) = 302 ∧
  take 302 (contents hD) ≠ take 302 (contents hC).
Proof.
  assert (rcl_mismatch (chain_ledger pair_hash (contents hD))
    (chain_ledger pair_hash (contents hC)) = 302) as Hm by (vm_compute; reflexivity).
  split; [exact Hm|].
  destruct (rcl_mismatch_first pair_hash old hD hC pair_hash_inj pair_hash_nonzero) as (_ & _ & Hd).
  rewrite Hm in Hd. apply (Hd 302). vm_compute. split; discriminate.
Defined.

(** ** Ledgers whose windows do not meet

    The ledgers of the last part of RCLValidations_test: one history, in which
    the ledger [n] knows up to 256 ancestors. *)
Definition numbered (n : nat) : RCLValidatedLedger :=
  mkRCL (Z.of_nat n) (Z.of_nat n) (map Z.of_nat (List.seq (n - Nat.min (n - 1) 256) (Nat.min (n - 1) 256))).

Definition apart : LedgerTrie RCLValidatedLedger :=
  let t := insert (insert empty_trie (numbered 2) 1) (numbered 258) 4 in
  let t := insert (remove t (numbered 258) 3).1 (numbered 259) 3 in
  (getPreferred t 1).1.

Definition together : LedgerTrie RCLValidatedLedger :=
  let t := insert (remove apart (numbered 258) 1).1 (numbered 259) 1 in
  (getPreferred t 1).1.

(** [mismatch] of ledgers whose windows do not meet is 1 although one is an
    ancestor of the other.  The trie then keeps them on separate branches, and
    the branch support of the ledgers 2 and 258 leaves out the support of the
    ledger 259 that descends from both, until nothing but 259 supports 258.
    These are the values RCLValidations_test asks for, and why the theorems
    above ask for a shared history. *)
Example windows_apart :
  rcl_mismatch (numbered 2) (numbered 258) = 3 ∧ rcl_mismatch (numbered 2) (numbered 259) = 1 ∧
  map (λ n, (tipSupport apart (numbered n), branchSupport apart (numbered n))) [2; 258; 259]%nat =
    [(1, 2); (1, 1); (3, 3)] ∧
  map (λ n, (tipSupport together (numbered n), branchSupport together (numbered n)))
    [2; 258; 259]%nat = [(1, 1); (0, 4); (4, 4)].
Proof. vm_compute. split_and!; reflexivity. Qed.
