(* ===== verification/AgedMap.v ===== *)
(** * Aged associative containers

    [beast::aged_unordered_map] (src/src/ripple/beast/container/detail/
    aged_unordered_container.h) as its chronological list: entries with the time
    they were last touched, the least recently touched first.  Keys are unique;
    the hash index of the source only makes lookups fast. *)

From stdpp Require Import prelude sorting.
From Stdlib Require Import ZArith Lia.
From S2P Require Import Prelude.

Abbreviation aged K V := (list (K * (Z * V))).

Module Aged.
Section aged.
  Context {K V : Type} `{EqDecision K}.
  Implicit Types (c : aged K V) (k : K).

Fixpoint find k c : option V :=
  match c with
  | [] => None
  | (k', (_, v)) :: c' => if decide (k = k') then Some v else find k c'
  end.

(** [c[k]], the value default-constructed when the key is new. *)
Definition index (now : Z) (dflt : V) k c : aged K V :=
  match find k c with
  | Some _ => c
  | None => c ++ [(k, (now, dflt))]
  end.

(** Assignment through a reference to the mapped value. *)
Definition modify (f : V → V) k c : aged K V :=
  map (λ '(k', (w, v)), (k', (w, if decide (k = k') then f v else v))) c.

Definition touch (now : Z) k c : aged K V :=
  match find k c with
  | Some v => filter (λ e, e.1 ≠ k) c ++ [(k, (now, v))]
  | None => c
  end.

(** [beast::expire]: erase from the front while the entry is old enough. *)
Fixpoint expire_loop (expired : Z) c : aged K V :=
  match c with
  | [] => []
  | (k, (w, v)) :: c' => if w <=? expired then expire_loop expired c' else c
  end.
Definition expire (now age : Z) c : aged K V := expire_loop (now - age) c.

(** ** Invariant: unique keys, in order of their times, none in the future *)
Record aged_inv (now : Z) c : Prop := {
  aged_keys : NoDup (map fst c);
  aged_sorted : StronglySorted (λ a b : K * (Z * V), a.2.1 ≤ b.2.1) c;
  aged_past : Forall (λ e : K * (Z * V), e.2.1 ≤ now) c;
}.

Lemma find_None k c : find k c = None ↔ k ∉ map fst c.
Proof.
  induction c as [|[k' [w v]] c IH]; simpl; [set_solver|].
  case_decide; [set_solver|]. rewrite IH. set_solver.
Qed.

Lemma aged_mono now now' c : aged_inv now c → now ≤ now' → aged_inv now' c.
Proof.
  intros [? ? Hp] Hle. split; try done. eapply Forall_impl; [exact Hp|]. simpl. lia.
Qed.

Lemma sorted_snoc now c e :
  StronglySorted (λ a b : K * (Z * V), a.2.1 ≤ b.2.1) c →
  Forall (λ e : K * (Z * V), e.2.1 ≤ now) c → e.2.1 = now →
  StronglySorted (λ a b : K * (Z * V), a.2.1 ≤ b.2.1) (c ++ [e]).
Proof.
  intros Hs Hp He. induction Hs as [|x c Hs IH Hall]; simpl.
  { repeat constructor. }
  apply Forall_cons in Hp as [Hx Hp]. constructor; [by apply IH|].
  apply Forall_app. split; [done|]. repeat constructor. lia.
Qed.

Lemma index_inv now dflt k c : aged_inv now c → aged_inv now (index now dflt k c).
Proof.
  intros [Hk Hs Hp]. unfold index. destruct (find k c) eqn:Ef; [by split|].
  apply find_None in Ef. split.
  - rewrite map_app. apply NoDup_app. split_and!; [done|set_solver|apply NoDup_singleton].
  - by apply (sorted_snoc now).
  - apply Forall_app. split; [done|]. repeat constructor. simpl. lia.
Qed.

(** [c[k]] assigned through. *)
Lemma find_modify f k c : find k (modify f k c) = f <$> find k c.
Proof.
  induction c as [|[k' [w v]] c IH]; [done|]. simpl. by repeat case_decide.
Qed.

Lemma find_snoc k c w v : find k c = None → find k (c ++ [(k, (w, v))]) = Some v.
Proof.
  induction c as [|[k' [w' v']] c IH]; simpl; [by rewrite decide_True|]. by case_decide.
Qed.

Lemma find_upsert now dflt k f c :
  find k (modify f k (index now dflt k c)) = Some (f (default dflt (find k c))).
Proof.
  rewrite find_modify. unfold index. destruct (find k c) as [v|] eqn:Ef; [by rewrite Ef|].
  by rewrite find_snoc.
Qed.

(** Changing mapped values only. *)
Lemma map_values_inv now (f : K → V → V) c :
  aged_inv now c → aged_inv now (map (λ '(k, (w, v)), (k, (w, f k v))) c).
Proof.
  intros [Hk Hs Hp]. split.
  - rewrite map_map. erewrite map_ext; [exact Hk|]. by intros [? [? ?]].
  - clear Hk Hp. induction Hs as [|[k' [w v]] c Hs IH Hall]; simpl; constructor; [done|].
    rewrite Forall_map. eapply Forall_impl; [exact Hall|]. by intros [? [? ?]].
  - rewrite Forall_map. eapply Forall_impl; [exact Hp|]. by intros [? [? ?]].
Qed.

Lemma modify_inv now f k c : aged_inv now c → aged_inv now (modify f k c).
Proof. apply (map_values_inv now (λ k' v, if decide (k = k') then f v else v)). Qed.

Lemma filter_sorted (P : K * (Z * V) → Prop) `{∀ x, Decision (P x)} c :
  StronglySorted (λ a b : K * (Z * V), a.2.1 ≤ b.2.1) c →
  StronglySorted (λ a b : K * (Z * V), a.2.1 ≤ b.2.1) (filter P c).
Proof.
  induction 1 as [|x c Hs IH Hall]; [constructor|]. rewrite filter_cons.
  case_decide; [|done]. constructor; [done|]. rewrite Forall_forall in *.
  intros y [_ Hy]%list_elem_of_filter. auto.
Qed.

Lemma filter_key_nodup (P : K * (Z * V) → Prop) `{∀ x, Decision (P x)} c :
  NoDup (map fst c) → NoDup (map fst (filter P c)).
Proof.
  induction c as [|x c IH]; [done|]. simpl. intros [Hx Hnd]%NoDup_cons.
  rewrite filter_cons. case_decide; [|auto]. simpl. apply NoDup_cons. split; [|auto].
  intros (y & Hy & [_ Hin]%list_elem_of_filter)%list_elem_of_fmap.
  apply Hx. rewrite Hy. by apply (list_elem_of_fmap_2 fst).
Qed.

Lemma touch_inv now k c : aged_inv now c → aged_inv now (touch now k c).
Proof.
  intros [Hk Hs Hp]. unfold touch. destruct (find k c) as [v|] eqn:Ef; [|by split].
  assert (Forall (λ e : K * (Z * V), e.2.1 ≤ now) (filter (λ e, e.1 ≠ k) c)) as Hp'.
  { rewrite Forall_forall in *. intros x [_ Hx]%list_elem_of_filter. auto. }
  split.
  - rewrite map_app. apply NoDup_app. split_and!; [by apply filter_key_nodup| |apply NoDup_singleton].
    intros x (y & -> & [Hne _]%list_elem_of_filter)%list_elem_of_fmap.
    simpl. set_solver.
  - apply (sorted_snoc now); [by apply filter_sorted|done|done].
  - apply Forall_app. split; [done|]. repeat constructor. simpl. lia.
Qed.

(** Expiry stops at the first entry that is young enough; in a container that
    satisfies the invariant that erases exactly the old entries. *)
Lemma expire_exact now now' age c :
  aged_inv now c → expire now' age c = filter (λ e, now' - age < e.2.1) c.
Proof.
  intros [_ Hs _]. unfold expire. generalize (now' - age). intros e.
  induction Hs as [|[k [w v]] c Hs IH Hall]; [done|]. simpl.
  rewrite filter_cons. simpl. destruct (Z.leb_spec w e); case_decide; try lia; [done|].
  f_equal. clear -Hall H0. induction c as [|x c IHc]; [done|].
  apply Forall_cons in Hall as [Hx Hall]. simpl in Hx. rewrite filter_cons_True by lia.
  f_equal. auto.
Qed.

Lemma expire_inv now now' age c : aged_inv now c → aged_inv now (expire now' age c).
Proof.
  intros Hinv. rewrite (expire_exact now) by done. destruct Hinv as [Hk Hs Hp].
  split; [by apply filter_key_nodup|by apply filter_sorted|].
  rewrite Forall_forall in *. intros x [_ Hx]%list_elem_of_filter. auto.
Qed.
End aged.
End Aged.
