(* ===== verification/Validations.v ===== *)
(** * Validations of src/src/ripple/consensus/Validations.h

    The current and recent validations of the network, and the trie of the
    ledgers the trusted validators support.  The [Adaptor] template parameter is
    the record [Adaptor] of what it answers during one call; validations it is
    handed ([onStale], [flush]) are appended to logs in the state.  The mutex of
    the source makes each operation atomic, so an operation is a function from
    state to state. *)

From stdpp Require Import prelude gmap.
From Stdlib Require Import ZArith Lia.
From S2P Require Import Prelude.
From S2P Require Import LedgerTrie.
From S2P Require Import LedgerTrieSpec.
From S2P Require Import SupportTrie.
From S2P Require Import AgedMap.

(** ** Parameters *)

(** Durations are in seconds. *)
Record ValidationParms := mkValidationParms {
  validationCURRENT_WALL : Z;
  validationCURRENT_LOCAL : Z;
  validationCURRENT_EARLY : Z;
  validationSET_EXPIRES : Z;
  validationFRESHNESS : Z;
}.

Definition default_parms : ValidationParms := mkValidationParms 300 180 180 600 20.

(** ** Sequence enforcement *)
Record SeqEnforcer := mkSeqEnforcer { seq_ : Z; when_ : Z }.

Definition new_enforcer : SeqEnforcer := mkSeqEnforcer 0 0.

(** [SeqEnforcer::operator()]: the enforcer afterwards and the verdict. *)
Definition enforce (e : SeqEnforcer) (now s : Z) (p : ValidationParms) : SeqEnforcer * bool :=
  let sq := if when_ e + validationSET_EXPIRES p <? now then 0 else seq_ e in
  if s <=? sq then (mkSeqEnforcer sq (when_ e), false)
  else (mkSeqEnforcer s now, true).

Definition largest (e : SeqEnforcer) : Z := seq_ e.

(** The arithmetic is on 64-bit counts of seconds and cannot wrap: clock values
    are 32-bit. *)
Definition isCurrent (p : ValidationParms) (now signTime seenTime : Z) : bool :=
  (now - validationCURRENT_EARLY p <? signTime) &&
  (signTime <? now + validationCURRENT_WALL p) &&
  ((seenTime =? 0) || (seenTime <? now + validationCURRENT_LOCAL p)).

Inductive ValStatus := vs_current | vs_stale | vs_badSeq.

#[export] Instance ValStatus_eq_dec : EqDecision ValStatus.
Proof. solve_decision. Defined.

(** ** Data *)
Record Validation := mkValidation {
  v_ledgerID : Z;
  v_seq : Z;
  v_signTime : Z;
  v_seenTime : Z;
  v_key : Z;
  v_trusted : bool;
  v_full : bool;
  v_loadFee : option Z;
}.

Definition set_trust (b : bool) (v : Validation) : Validation :=
  mkValidation (v_ledgerID v) (v_seq v) (v_signTime v) (v_seenTime v) (v_key v) b
    (v_full v) (v_loadFee v).

(** What the adaptor answers during a call: network time, the steady clock of
    the aged container, and which ledgers can be acquired now. *)
Record Adaptor (L : Type) := mkAdaptor {
  a_now : Z;
  a_clock : Z;
  a_acquire : Z → option L;
}.
Arguments a_now {L} _.
Arguments a_clock {L} _.
Arguments a_acquire {L} _ _.

Record Validations (L T : Type) := mkValidations {
  current_ : gmap Z Validation;
  localSeqEnforcer_ : SeqEnforcer;
  seqEnforcers_ : gmap Z SeqEnforcer;
  byLedger_ : aged Z (gmap Z Validation);
  trie_ : T;
  lastLedger_ : gmap Z L;
  acquiring_ : gmap (Z * Z) (gset Z);
  stale_log : list Validation;
  flushed_log : list (gmap Z Validation);
}.
Arguments mkValidations {L T} _ _ _ _ _ _ _ _ _.
Arguments current_ {L T} _.
Arguments localSeqEnforcer_ {L T} _.
Arguments seqEnforcers_ {L T} _.
Arguments byLedger_ {L T} _.
Arguments trie_ {L T} _.
Arguments lastLedger_ {L T} _.
Arguments acquiring_ {L T} _.
Arguments stale_log {L T} _.
Arguments flushed_log {L T} _.

(** Field updates. *)
Section setters.
  Context {L T : Type}.
  Implicit Types v : Validations L T.
Definition set_current c v := mkValidations c (localSeqEnforcer_ v) (seqEnforcers_ v)
  (byLedger_ v) (trie_ v) (lastLedger_ v) (acquiring_ v) (stale_log v) (flushed_log v).
Definition set_local e v := mkValidations (current_ v) e (seqEnforcers_ v)
  (byLedger_ v) (trie_ v) (lastLedger_ v) (acquiring_ v) (stale_log v) (flushed_log v).
Definition set_enforcers e v := mkValidations (current_ v) (localSeqEnforcer_ v) e
  (byLedger_ v) (trie_ v) (lastLedger_ v) (acquiring_ v) (stale_log v) (flushed_log v).
Definition set_byLedger b v := mkValidations (current_ v) (localSeqEnforcer_ v) (seqEnforcers_ v)
  b (trie_ v) (lastLedger_ v) (acquiring_ v) (stale_log v) (flushed_log v).
Definition set_trie (t : T) (m : gmap Z L) v :=
  mkValidations (current_ v) (localSeqEnforcer_ v) (seqEnforcers_ v)
  (byLedger_ v) t m (acquiring_ v) (stale_log v) (flushed_log v).
Definition set_acquiring a v := mkValidations (current_ v) (localSeqEnforcer_ v) (seqEnforcers_ v)
  (byLedger_ v) (trie_ v) (lastLedger_ v) a (stale_log v) (flushed_log v).
Definition onStale (x : Validation) v :=
  mkValidations (current_ v) (localSeqEnforcer_ v) (seqEnforcers_ v)
  (byLedger_ v) (trie_ v) (lastLedger_ v) (acquiring_ v) (stale_log v ++ [x]) (flushed_log v).
Definition onFlush (m : gmap Z Validation) v :=
  mkValidations (current_ v) (localSeqEnforcer_ v) (seqEnforcers_ v)
  (byLedger_ v) (trie_ v) (lastLedger_ v) (acquiring_ v) (stale_log v) (flushed_log v ++ [m]).
End setters.

Module Vals.
Section validations.
  Context {L T : Type} `{SupportTrie L T}.
  Context (parms_ : ValidationParms).
  Implicit Types (v : Validations L T) (e : Adaptor L).

Definition new_validations : Validations L T :=
  mkValidations ∅ new_enforcer ∅ [] t_empty ∅ ∅ [] [].

(** Drop a node from the set of nodes waiting for a ledger. *)
Definition drop_acquiring (key : Z * Z) (nodeID : Z) (acq : gmap (Z * Z) (gset Z)) :
    gmap (Z * Z) (gset Z) :=
  match acq !! key with
  | Some nodes =>
    let nodes := nodes ∖ {[nodeID]} in
    if decide (nodes = ∅) then delete key acq else <[key := nodes]> acq
  | None => acq
  end.

Definition removeTrie (nodeID : Z) (val : Validation) v : Validations L T :=
  let v := set_acquiring (drop_acquiring (v_seq val, v_ledgerID val) nodeID (acquiring_ v)) v in
  match lastLedger_ v !! nodeID with
  | Some l =>
    if id l =? v_ledgerID val
    then set_trie (t_remove (trie_ v) l 1).1 (delete nodeID (lastLedger_ v)) v
    else v
  | None => v
  end.

(** [updateTrie(lock, nodeID, ledger)]. *)
Definition updateTrie_ledger (nodeID : Z) (ledger : L) v : Validations L T :=
  let t :=
    match lastLedger_ v !! nodeID with
    | Some old => (t_remove (trie_ v) old 1).1
    | None => trie_ v
    end in
  set_trie (t_insert t ledger 1) (<[nodeID := ledger]> (lastLedger_ v)) v.

(** The body of the loop of [checkAcquired]: one entry of [acquiring_]. *)
Definition acquired_step e v (x : (Z * Z) * gset Z) : Validations L T :=
  let '(key, nodes) := x in
  match a_acquire e key.2 with
  | Some ledger =>
    let v := foldl (λ v nodeID, updateTrie_ledger nodeID ledger v) v (elements nodes) in
    set_acquiring (delete key (acquiring_ v)) v
  | None => v
  end.

Definition checkAcquired e v : Validations L T :=
  foldl (acquired_step e) v (map_to_list (acquiring_ v)).

(** [updateTrie(lock, nodeID, val, prior)]. *)
Definition updateTrie e (nodeID : Z) (val : Validation) (prior : option (Z * Z)) v :
    Validations L T :=
  let v :=
    match prior with
    | Some key => set_acquiring (drop_acquiring key nodeID (acquiring_ v)) v
    | None => v
    end in
  let v := checkAcquired e v in
  let valPair := (v_seq val, v_ledgerID val) in
  match acquiring_ v !! valPair with
  | Some nodes => set_acquiring (<[valPair := {[nodeID]} ∪ nodes]> (acquiring_ v)) v
  | None =>
    match a_acquire e (v_ledgerID val) with
    | Some ledger => updateTrie_ledger nodeID ledger v
    | None => set_acquiring (<[valPair := {[nodeID]}]> (acquiring_ v)) v
    end
  end.

(** The body of the loop of [current]: one entry of [current_]. *)
Definition current_step e (st : Validations L T * list (Z * Validation)) (x : Z * Validation) :
    Validations L T * list (Z * Validation) :=
  let '(v, seen) := st in
  let '(nodeID, val) := x in
  if isCurrent parms_ (a_now e) (v_signTime val) (v_seenTime val)
  then (v, seen ++ [(nodeID, val)])
  else
    let v := removeTrie nodeID val v in
    let v := onStale val v in
    (set_current (delete nodeID (current_ v)) v, seen).

(** [current(lock, pre, f)]: drop the validations that are no longer current;
    [f] is run on the entries returned, in this order. *)
Definition current e v : Validations L T * list (Z * Validation) :=
  foldl (current_step e) (v, []) (map_to_list (current_ v)).

(** [withTrie(lock, f)]: bring the trie up to date, then run [f] on it. *)
Definition withTrie {A} e (f : T → T * A) v : Validations L T * A :=
  let v := (current e v).1 in
  let v := checkAcquired e v in
  let '(t, a) := f (trie_ v) in
  (set_trie t (lastLedger_ v) v, a).

(** [byLedger(lock, ledgerID, pre, f)]: the entries [f] is run on. *)
Definition byLedger e (ledgerID : Z) v : Validations L T * list (Z * Validation) :=
  match Aged.find ledgerID (byLedger_ v) with
  | Some m =>
    (set_byLedger (Aged.touch (a_clock e) ledgerID (byLedger_ v)) v, map_to_list m)
  | None => (v, [])
  end.

Definition canValidateSeq e (s : Z) v : Validations L T * bool :=
  let '(en, ok) := enforce (localSeqEnforcer_ v) (a_clock e) s parms_ in
  (set_local en v, ok).

(** The part of [add] that files a validation whose sequence number was
    accepted. *)
Definition add_accepted e (nodeID : Z) (val : Validation) v : Validations L T * ValStatus :=
  let v := set_byLedger
    (Aged.modify (λ m, <[nodeID := val]> m) (v_ledgerID val)
       (Aged.index (a_clock e) ∅ (v_ledgerID val) (byLedger_ v))) v in
  match current_ v !! nodeID with
  | Some oldVal =>
    if v_signTime oldVal <? v_signTime val then
      let old := (v_seq oldVal, v_ledgerID oldVal) in
      let v := onStale oldVal v in
      let v := set_current (<[nodeID := val]> (current_ v)) v in
      let v := if v_trusted val then updateTrie e nodeID val (Some old) v else v in
      (v, vs_current)
    else (v, vs_stale)
  | None =>
    let v := set_current (<[nodeID := val]> (current_ v)) v in
    let v := if v_trusted val then updateTrie e nodeID val None v else v in
    (v, vs_current)
  end.

Definition add e (nodeID : Z) (val : Validation) v : Validations L T * ValStatus :=
  if negb (isCurrent parms_ (a_now e) (v_signTime val) (v_seenTime val)) then (v, vs_stale)
  else
    let now := a_clock e in
    let enforcer := default new_enforcer (seqEnforcers_ v !! nodeID) in
    let '(enforcer, ok) := enforce enforcer now (v_seq val) parms_ in
    let v := set_enforcers (<[nodeID := enforcer]> (seqEnforcers_ v)) v in
    if negb ok then (v, vs_badSeq)
    else add_accepted e nodeID val v.

Definition expire e v : Validations L T :=
  set_byLedger (Aged.expire (a_clock e) (validationSET_EXPIRES parms_) (byLedger_ v)) v.

(** The trust of one node's validation after a change of the trusted set. *)
Definition retrust (added removed : gset Z) (nodeID : Z) (val : Validation) : Validation :=
  if decide (nodeID ∈ added) then set_trust true val
  else if decide (nodeID ∈ removed) then set_trust false val
  else val.

(** The body of the first loop of [trustChanged]: one entry of [current_]. *)
Definition trust_step e (added removed : gset Z) v (x : Z * Validation) : Validations L T :=
  let '(nodeID, val) := x in
  if decide (nodeID ∈ added) then
    let val := set_trust true val in
    let v := set_current (<[nodeID := val]> (current_ v)) v in
    updateTrie e nodeID val None v
  else if decide (nodeID ∈ removed) then
    let val := set_trust false val in
    let v := set_current (<[nodeID := val]> (current_ v)) v in
    removeTrie nodeID val v
  else v.

Definition trustChanged e (added removed : gset Z) v : Validations L T :=
  let v := foldl (trust_step e added removed) v (map_to_list (current_ v)) in
  set_byLedger
    (map (λ '(k, (w, m)), (k, (w, map_imap (λ nodeID val, Some (retrust added removed nodeID val)) m)))
       (byLedger_ v)) v.

(** [std::max_element] with the comparison [lt]: the first largest element. *)
Definition max_element {A} (lt : A → A → bool) (l : list A) : option A :=
  match l with
  | [] => None
  | x :: l' => Some (foldl (λ best y, if lt best y then y else best) x l')
  end.

(** Lexicographic order of a count and an ID. *)
Definition count_id_lt (a b : Z * Z) : bool :=
  (a.1 <? b.1) || ((a.1 =? b.1) && (a.2 <? b.2)).

Definition acquiring_lt (a b : (Z * Z) * gset Z) : bool :=
  count_id_lt (Z.of_nat (size a.2), a.1.2) (Z.of_nat (size b.2), b.1.2).

Definition getPreferred e (curr : L) v : Validations L T * option (Z * Z) :=
  let '(v, preferred) :=
    withTrie e (λ t, t_getPreferred t (largest (localSeqEnforcer_ v))) v in
  (v,
   match preferred with
   | None => fst <$> max_element acquiring_lt (map_to_list (acquiring_ v))
   | Some p =>
     if (st_seq p =? seq curr ⊕₃₂ 1) && (ancestor p (seq curr) =? id curr)
     then Some (seq curr, id curr)
     else if seq curr <? st_seq p then Some (st_seq p, st_id p)
     else if negb (at_ curr (st_seq p) =? st_id p) then Some (st_seq p, st_id p)
     else Some (seq curr, id curr)
   end).

Definition getPreferred_minValid e (curr : L) (minValidSeq : Z) v : Validations L T * Z :=
  let '(v, preferred) := getPreferred e curr v in
  (v, match preferred with
      | Some (s, i) => if minValidSeq <=? s then i else id curr
      | None => id curr
      end).

Definition peer_lt (a b : Z * Z) : bool := count_id_lt (a.2, a.1) (b.2, b.1).

Definition getPreferredLCL e (lcl : L) (minSeq : Z) (peerCounts : gmap Z Z) v :
    Validations L T * Z :=
  let '(v, preferred) := getPreferred e lcl v in
  (v, match preferred with
      | Some (s, i) => if minSeq <=? s then i else id lcl
      | None =>
        match max_element peer_lt (map_to_list peerCounts) with
        | Some (i, _) => i
        | None => id lcl
        end
      end).

Definition getNodesAfter e (ledger : L) (ledgerID : Z) v : Validations L T * Z :=
  if id ledger =? ledgerID then
    withTrie e (λ t, (t, t_branchSupport t ledger ⊖₃₂ t_tipSupport t ledger)) v
  else
    (v, Z.of_nat (length (filter (λ '(_, curr),
          0 < seq curr ∧ at_ curr (seq curr - 1) = ledgerID) (map_to_list (lastLedger_ v))))).

Definition currentTrusted e v : Validations L T * list Validation :=
  let '(v, seen) := current e v in
  (v, filter (λ x, v_trusted x && v_full x) (map snd seen)).

Definition getCurrentNodeIDs e v : Validations L T * gset Z :=
  let '(v, seen) := current e v in (v, list_to_set (map fst seen)).

Definition numTrustedForLedger e (ledgerID : Z) v : Validations L T * Z :=
  let '(v, seen) := byLedger e ledgerID v in
  (v, Z.of_nat (length (filter (λ x, v_trusted x && v_full x) (map snd seen)))).

Definition getTrustedForLedger e (ledgerID : Z) v : Validations L T * list Validation :=
  let '(v, seen) := byLedger e ledgerID v in
  (v, filter (λ x, v_trusted x && v_full x) (map snd seen)).

Definition fees e (ledgerID baseFee : Z) v : Validations L T * list Z :=
  let '(v, seen) := byLedger e ledgerID v in
  (v, map (λ x, default baseFee (v_loadFee x))
        (filter (λ x, v_trusted x && v_full x) (map snd seen))).

Definition flush v : Validations L T :=
  onFlush (current_ v) (set_current ∅ v).

(** The count of laggards, and the trusted keys that were not heard of. *)
Definition laggards e (s : Z) (trustedKeys : gset Z) v : Validations L T * Z * gset Z :=
  let '(v, seen) := current e v in
  let '(n, keys) :=
    foldl (λ '(n, keys) '(_, val),
      if decide (a_now e < v_seenTime val + validationFRESHNESS parms_ ∧ v_key val ∈ keys)
      then ((if v_seq val <? s then n + 1 else n), keys ∖ {[v_key val]})
      else (n, keys)) (0, trustedKeys) seen in
  (v, n, keys).
End validations.
End Vals.
