(* ===== verification/ValidationsSpec.v ===== *)
(** * Correctness of the validations store

    The invariant [vals_inv]: the trie holds exactly one unit of support per
    validator with a last ledger.  It is proved against the interface
    [SupportTrieLaws], for every operation, and for every reachable state. *)

From stdpp Require Import prelude gmap sorting.
From Stdlib Require Import ZArith Lia.
From S2P Require Import Prelude.
From S2P Require Import LedgerTrie.
From S2P Require Import LedgerTrieSpec.
From S2P Require Import SupportTrie.
From S2P Require Import AgedMap.
From S2P Require Import Validations.
Import Vals.

Section spec.
  Context {L T : Type} `{LedgerWindow L} `{!SupportTrie L T} `{!SupportTrieLaws L T}.
  Context (p : ValidationParms).
  (** All the validators the node ever hears of; fewer than [2^32] of them. *)
  Context (validators : gset Z).
  Implicit Types (v : Validations L T) (e : Adaptor L) (n : Z).

(** One unit of support for the last ledger of each validator. *)
Definition supporters (m : gmap Z L) : list (L * Z) := map (λ x, (x.2, 1)) (map_to_list m).

Record vals_inv v : Prop := {
  vi_trie : t_represents (trie_ v) (supporters (lastLedger_ v));
  vi_last : dom (lastLedger_ v) ⊆ validators;
  vi_acq : ∀ key nodes, acquiring_ v !! key = Some nodes → nodes ⊆ validators;
  vi_cur : dom (current_ v) ⊆ validators;
  vi_few : Z.of_nat (size validators) < 2 ^ 32;
}.

Lemma weight_perm (f : L → Z → bool) M M' : M ≡ₚ M' → weight f M = weight f M'.
Proof. apply sumZ_perm. Qed.

Lemma total_supporters m : total (supporters m) = Z.of_nat (size m).
Proof.
  unfold total, weight, supporters. rewrite sumZ_map, <- length_map_to_list.
  induction (map_to_list m); simpl; lia.
Qed.

Lemma supporters_insert m n l :
  m !! n = None → supporters (<[n := l]> m) ≡ₚ (l, 1) :: supporters m.
Proof. intros Hn. unfold supporters. by rewrite map_to_list_insert. Qed.

Lemma supporters_delete m n l :
  m !! n = Some l → supporters m ≡ₚ (l, 1) :: supporters (delete n m).
Proof.
  intros Hn. rewrite <- (insert_delete_id m n l Hn) at 1.
  apply supporters_insert, lookup_delete_eq.
Qed.

Lemma represents_perm (t : T) M M' : M ≡ₚ M' → t_represents t M → t_represents t M'.
Proof. intros Hp Hr. eapply t_represents_ext; [exact Hr|]. intros f _. by apply weight_perm. Qed.

(** Removing the unit of support a validator gives. *)
Lemma remove_supporter (t : T) m n l :
  t_represents t (supporters m) → m !! n = Some l →
  (t_remove t l 1).2 = true ∧ t_represents (t_remove t l 1).1 (supporters (delete n m)).
Proof.
  intros Hr Hn. pose proof (t_remove_law t _ l 1 Hr ltac:(lia)) as Hrem. simpl in Hrem.
  assert (1 ≤ weight (is_ledger l) (supporters m)) as Hk.
  { rewrite (weight_perm _ _ _ (supporters_delete _ _ _ Hn)). unfold weight at 1. simpl.
    unfold is_ledger at 1. rewrite window_id, Z.eqb_refl.
    assert (0 ≤ sumZ (λ '(l0, c), if is_ledger l l0 (seq l0) then c else 0)
      (supporters (delete n m))); [|lia].
    apply sumZ_nonneg. unfold supporters. intros [l' c] Hin.
    apply list_elem_of_fmap in Hin as (x & [= -> ->] & _). destruct (is_ledger _ _ _); lia. }
  rewrite (proj2 (Z.eqb_neq _ _)) in Hrem by lia. destruct Hrem as [Hb Hrem].
  rewrite Z.min_l in Hrem by lia.
  split; [done|]. eapply t_represents_ext; [exact Hrem|]. intros f Hf.
  unfold weight at 1. simpl. fold (weight f (supporters m)).
  rewrite (weight_perm f _ _ (supporters_delete _ _ _ Hn)). unfold weight. simpl.
  destruct (f l (seq l)); lia.
Qed.

Lemma size_last m :
  Z.of_nat (size validators) < 2 ^ 32 → dom m ⊆ validators → Z.of_nat (size (m : gmap Z L)) < 2 ^ 32.
Proof. intros Hfew Hd. apply subseteq_size in Hd. rewrite size_dom in Hd. lia. Qed.

Lemma insert_supporter (t : T) m n l :
  Z.of_nat (size validators) < 2 ^ 32 →
  t_represents t (supporters m) → m !! n = None → dom m ⊆ validators → n ∈ validators →
  t_represents (t_insert t l 1) (supporters (<[n := l]> m)).
Proof.
  intros Hfew Hr Hn Hd Hv. eapply represents_perm; [symmetry; by apply supporters_insert|].
  apply t_insert_law; [done|lia|]. rewrite total_supporters.
  assert (dom (<[n := l]> m) ⊆ validators) as Hd' by set_solver.
  pose proof (size_last _ Hfew Hd'). rewrite map_size_insert_None in * by done. lia.
Qed.

(** ** The private operations *)
Lemma drop_acquiring_sub (key key' : Z * Z) n acq nodes :
  drop_acquiring key n acq !! key' = Some nodes →
  ∃ nodes', acq !! key' = Some nodes' ∧ nodes ⊆ nodes'.
Proof.
  unfold drop_acquiring. destruct (acq !! key) as [ns|] eqn:Ek; [|by eauto].
  case_decide.
  - intros [_ Hl]%lookup_delete_Some. eauto.
  - rewrite lookup_insert_Some. intros [[<- <-]|[_ Hl]]; [|by eauto].
    exists ns. set_solver.
Qed.

Lemma drop_acquiring_inv v key n :
  vals_inv v → vals_inv (set_acquiring (drop_acquiring key n (acquiring_ v)) v).
Proof.
  intros [Ht Hl Ha Hc Hfew]. split; simpl; try done.
  intros key' nodes (nodes' & Hk & Hsub)%drop_acquiring_sub. set_solver.
Qed.

Lemma removeTrie_inv v n val : vals_inv v → vals_inv (removeTrie n val v).
Proof.
  intros Hinv. unfold removeTrie.
  apply (drop_acquiring_inv _ (v_seq val, v_ledgerID val) n) in Hinv.
  destruct (lastLedger_ _ !! n) as [l|] eqn:El; [|done].
  case_match; [|done]. destruct Hinv as [Ht Hl Ha Hc Hfew]. split; simpl in *; try done.
  - by apply remove_supporter.
  - set_solver.
Qed.

Lemma updateTrie_ledger_inv v n l :
  vals_inv v → n ∈ validators → vals_inv (updateTrie_ledger n l v).
Proof.
  intros [Ht Hl Ha Hc Hfew] Hn. unfold updateTrie_ledger. split; simpl; try done; [|set_solver].
  destruct (lastLedger_ v !! n) as [old|] eqn:El; [|by apply insert_supporter].
  rewrite <- insert_delete_eq. apply insert_supporter; try done.
  - by apply remove_supporter.
  - by rewrite lookup_delete_eq.
  - set_solver.
Qed.

Lemma foldl_inv {A} (P : Validations L T → Prop) (f : Validations L T → A → Validations L T) l v :
  P v → (∀ v x, x ∈ l → P v → P (f v x)) → P (foldl f v l).
Proof.
  revert v. induction l as [|x l IH]; intros v Hv Hf; simpl; [done|].
  apply IH; [apply Hf; set_solver|]. intros v' y Hy. apply Hf. set_solver.
Qed.

Lemma checkAcquired_inv e v : vals_inv v → vals_inv (checkAcquired e v).
Proof.
  intros Hinv. pose proof (vi_acq _ Hinv) as Hacq.
  unfold checkAcquired. apply foldl_inv; [done|]. intros v' [key nodes] Hin Hv'.
  apply elem_of_map_to_list in Hin. specialize (Hacq _ _ Hin).
  unfold acquired_step. destruct (a_acquire e key.2) as [l|]; [|done].
  assert (vals_inv (foldl (λ v nodeID, updateTrie_ledger nodeID l v) v' (elements nodes))) as Hv''.
  { apply foldl_inv; [done|]. intros w x Hx Hw. apply updateTrie_ledger_inv; [done|]. set_solver. }
  destruct Hv'' as [Ht Hl Ha Hc Hfew]. split; simpl; try done.
  intros key' nodes' [_ Hk]%lookup_delete_Some. by eapply Ha.
Qed.

Lemma updateTrie_inv e v n val prior :
  vals_inv v → n ∈ validators → vals_inv (updateTrie e n val prior v).
Proof.
  intros Hinv Hn. unfold updateTrie.
  assert (vals_inv (match prior with
    | Some key => set_acquiring (drop_acquiring key n (acquiring_ v)) v | None => v end)) as H1.
  { destruct prior; [by apply drop_acquiring_inv|done]. }
  apply (checkAcquired_inv e) in H1. set (w := checkAcquired e _) in *. clearbody w.
  destruct (acquiring_ w !! _) as [nodes|] eqn:Ea.
  - pose proof (vi_acq _ H1 _ _ Ea). destruct H1 as [Ht Hl Ha Hc Hfew]. split; simpl; try done.
    intros key' nodes' [[<- <-]|[_ Hk]]%lookup_insert_Some; [set_solver|by eapply Ha].
  - destruct (a_acquire e _); [by apply updateTrie_ledger_inv|].
    destruct H1 as [Ht Hl Ha Hc Hfew]. split; simpl; try done.
    intros key' nodes' [[<- <-]|[_ Hk]]%lookup_insert_Some; [set_solver|by eapply Ha].
Qed.

(** [removeTrie] leaves the current validations alone. *)
Lemma removeTrie_current n val v : current_ (removeTrie n val v) = current_ v.
Proof. unfold removeTrie. repeat case_match; done. Qed.

(** What [current] leaves and reports: exactly the validations that are
    current. *)
Definition fresh e (val : Validation) : bool :=
  isCurrent p (a_now e) (v_signTime val) (v_seenTime val).

Lemma set_current_inv v c : dom c ⊆ validators → vals_inv v → vals_inv (set_current c v).
Proof. intros Hc [Ht Hl Ha _ Hfew]. by split. Qed.

Lemma onStale_inv v val : vals_inv v → vals_inv (onStale val v).
Proof. intros [Ht Hl Ha Hc Hfew]. by split. Qed.

Lemma current_loop e l v seen :
  NoDup (map fst l) → (∀ n val, (n, val) ∈ l → current_ v !! n = Some val) → vals_inv v →
  let r := foldl (current_step p e) (v, seen) l in
  vals_inv r.1 ∧
  r.2 = seen ++ filter (λ x, fresh e x.2) l ∧
  (∀ n, current_ r.1 !! n =
     if decide (n ∈ map fst l) then
       val ← current_ v !! n; if fresh e val then Some val else None
     else current_ v !! n).
Proof.
  revert v seen. induction l as [|[n0 val0] l IH]; intros v seen Hnd Hl Hinv; simpl.
  { rewrite app_nil_r. split_and!; try done. }
  simpl in Hnd. apply NoDup_cons in Hnd as [Hn0 Hnd].
  pose proof (Hl n0 val0 ltac:(set_solver)) as Hv0. rewrite filter_cons. simpl.
  fold (fresh e val0). destruct (fresh e val0) eqn:Ecur.
  - rewrite decide_True by done.
    destruct (IH v (seen ++ [(n0, val0)]) Hnd ltac:(set_solver) Hinv) as (I1 & I2 & I3).
    split_and!; [done|by rewrite I2, <- (assoc_L (++))|].
    intros n. rewrite I3.
    destruct (decide (n ∈ map fst l)), (decide (n ∈ n0 :: map fst l)); try done; [set_solver|].
    assert (n = n0) as -> by set_solver. by rewrite Hv0; simpl; rewrite Ecur.
  - rewrite decide_False by (by intros []).
    set (w := set_current _ _).
    assert (current_ w = delete n0 (current_ v)) as Hw.
    { simpl. by rewrite removeTrie_current. }
    destruct (IH w seen Hnd) as (I1 & I2 & I3).
    { intros n val Hin. rewrite Hw, lookup_delete_ne; [apply Hl; set_solver|].
      intros ->. apply Hn0. by apply (list_elem_of_fmap_2 fst l (n, val)). }
    { apply set_current_inv; [|by apply onStale_inv, removeTrie_inv].
      simpl. rewrite removeTrie_current. pose proof (vi_cur _ Hinv). set_solver. }
    split_and!; [done|done|]. intros n. rewrite I3, Hw.
    destruct (decide (n = n0)) as [->|Hne].
    + rewrite decide_False by done. rewrite decide_True by apply list_elem_of_here.
      by rewrite lookup_delete_eq, Hv0; simpl; rewrite Ecur.
    + rewrite lookup_delete_ne by done. 
      destruct (decide (n ∈ map fst l)) as [Hn|Hn].
      * by rewrite decide_True by by apply list_elem_of_further.
      * rewrite decide_False; [done|]. by intros [?|?]%elem_of_cons.
Qed.

Lemma current_exact e v :
  vals_inv v →
  let r := current p e v in
  vals_inv r.1 ∧ r.2 = filter (λ x, fresh e x.2) (map_to_list (current_ v)) ∧
  current_ r.1 = filter (λ x, fresh e x.2) (current_ v).
Proof.
  intros Hinv.
  destruct (current_loop e (map_to_list (current_ v)) v []) as (I1 & I2 & I3); try done.
  { apply NoDup_fst_map_to_list. }
  { intros n val. apply elem_of_map_to_list. }
  split_and!; [done|done|]. apply map_eq. intros n. unfold current. rewrite I3.
  rewrite map_lookup_filter. case_decide as Hn.
  - destruct (current_ v !! n) as [val|]; [simpl|done].
    case_guard as Hg; simpl in Hg; destruct (fresh e val); try done.
  - destruct (current_ v !! n) as [val|] eqn:El; [|done].
    destruct Hn. by apply (list_elem_of_fmap_2 fst _ (n, val)), elem_of_map_to_list.
Qed.

Lemma withTrie_inv {A} e (f : T → T * A) v :
  (∀ t M, t_represents t M → t_represents (f t).1 M) →
  vals_inv v → vals_inv (withTrie p e f v).1.
Proof.
  intros Hf Hinv. unfold withTrie. apply current_exact with (e := e) in Hinv as [Hinv _].
  apply (checkAcquired_inv e) in Hinv. set (w := checkAcquired e _) in *. clearbody w.
  destruct Hinv as [Ht Hl Ha Hc Hfew]. pose proof (Hf _ _ Ht). destruct (f (trie_ w)). by split.
Qed.

(** ** The public operations *)
Lemma canValidateSeq_inv e s v : vals_inv v → vals_inv (canValidateSeq p e s v).1.
Proof. intros [Ht Hl Ha Hc Hfew]. unfold canValidateSeq. destruct (enforce _ _ _ _). by split. Qed.

Lemma set_byLedger_inv b v : vals_inv v → vals_inv (set_byLedger b v).
Proof. intros [Ht Hl Ha Hc Hfew]. by split. Qed.

Lemma add_accepted_inv e n val v :
  vals_inv v → n ∈ validators → vals_inv (add_accepted e n val v).1.
Proof.
  intros Hinv Hn. unfold add_accepted. simpl.
  pose proof (set_byLedger_inv (Aged.modify (λ m, <[n:=val]> m) (v_ledgerID val)
    (Aged.index (a_clock e) ∅ (v_ledgerID val) (byLedger_ v))) v Hinv) as Hx.
  assert (dom (<[n := val]> (current_ v)) ⊆ validators) as Hd.
  { pose proof (vi_cur _ Hinv). set_solver. }
  destruct (current_ v !! n) as [old|]; simpl.
  - destruct (v_signTime old <? v_signTime val); [|done].
    apply (onStale_inv _ old), (set_current_inv _ _ Hd) in Hx. simpl.
    destruct (v_trusted val); [|done]. by apply updateTrie_inv.
  - apply (set_current_inv _ _ Hd) in Hx. destruct (v_trusted val); [|done].
    by apply updateTrie_inv.
Qed.

Lemma add_inv e n val v : vals_inv v → n ∈ validators → vals_inv (add p e n val v).1.
Proof.
  intros Hinv Hn. unfold add. destruct (isCurrent _ _ _ _); simpl; [|done].
  destruct (enforce _ _ _ _) as [en ok].
  assert (vals_inv (set_enforcers (<[n := en]> (seqEnforcers_ v)) v)) as Hw
    by (destruct Hinv; by split).
  destruct ok; [|done]. by apply add_accepted_inv.
Qed.

Lemma trust_step_inv e added removed v n val :
  vals_inv v → n ∈ validators → vals_inv (trust_step e added removed v (n, val)).
Proof.
  intros Hinv Hn. pose proof (vi_cur _ Hinv). unfold trust_step. repeat case_decide; [| |done].
  - apply updateTrie_inv; [|done]. apply set_current_inv; [set_solver|done].
  - apply removeTrie_inv, set_current_inv; [set_solver|done].
Qed.

Lemma trustChanged_inv e added removed v :
  vals_inv v → vals_inv (trustChanged e added removed v).
Proof.
  intros Hinv. apply set_byLedger_inv, foldl_inv; [done|].
  intros w [n val] Hin%elem_of_map_to_list Hw. apply trust_step_inv; [done|].
  apply (vi_cur _ Hinv). by apply elem_of_dom.
Qed.

Lemma getPreferred_inv e curr v : vals_inv v → vals_inv (getPreferred p e curr v).1.
Proof.
  intros Hinv. unfold getPreferred.
  pose proof (withTrie_inv e (λ t, t_getPreferred t (largest (localSeqEnforcer_ v))) v
    ltac:(intros t M Hr; by apply t_preferred_law) Hinv) as Hw.
  destruct (withTrie _ _ _ _) as [w pr]. done.
Qed.

Lemma getNodesAfter_inv e ledger i v : vals_inv v → vals_inv (getNodesAfter p e ledger i v).1.
Proof. intros Hinv. unfold getNodesAfter. case_match; [|done]. by apply withTrie_inv. Qed.

Lemma byLedger_call_inv e i v : vals_inv v → vals_inv (byLedger e i v).1.
Proof. intros Hinv. unfold byLedger. case_match; [|done]. by apply set_byLedger_inv. Qed.

Lemma flush_inv v : vals_inv v → vals_inv (flush v).
Proof. intros [Ht Hl Ha Hc Hfew]. by split. Qed.

Lemma new_inv : Z.of_nat (size validators) < 2 ^ 32 → vals_inv new_validations.
Proof. intros Hfew. split; simpl; [apply t_represents_empty|set_solver..|done]. Qed.

(** ** Reachable states *)

(** The calls of the public interface. *)
Inductive call :=
  | call_canValidateSeq (s : Z)
  | call_add (n : Z) (val : Validation)
  | call_expire
  | call_trustChanged (added removed : gset Z)
  | call_getPreferred (curr : L)
  | call_getPreferred_minValid (curr : L) (minValidSeq : Z)
  | call_getPreferredLCL (lcl : L) (minSeq : Z) (peerCounts : gmap Z Z)
  | call_getNodesAfter (ledger : L) (ledgerID : Z)
  | call_currentTrusted
  | call_getCurrentNodeIDs
  | call_numTrustedForLedger (ledgerID : Z)
  | call_getTrustedForLedger (ledgerID : Z)
  | call_fees (ledgerID baseFee : Z)
  | call_flush
  | call_laggards (s : Z) (trustedKeys : gset Z).

Definition run_call (c : call) e v : Validations L T :=
  match c with
  | call_canValidateSeq s => (canValidateSeq p e s v).1
  | call_add n val => (add p e n val v).1
  | call_expire => expire p e v
  | call_trustChanged added removed => trustChanged e added removed v
  | call_getPreferred curr => (getPreferred p e curr v).1
  | call_getPreferred_minValid curr s => (getPreferred_minValid p e curr s v).1
  | call_getPreferredLCL lcl s counts => (getPreferredLCL p e lcl s counts v).1
  | call_getNodesAfter ledger i => (getNodesAfter p e ledger i v).1
  | call_currentTrusted => (currentTrusted p e v).1
  | call_getCurrentNodeIDs => (getCurrentNodeIDs p e v).1
  | call_numTrustedForLedger i => (numTrustedForLedger e i v).1
  | call_getTrustedForLedger i => (getTrustedForLedger e i v).1
  | call_fees i f => (fees e i f v).1
  | call_flush => flush v
  | call_laggards s keys => (laggards p e s keys v).1.1
  end.

Definition call_ok (c : call) : Prop :=
  match c with call_add n _ => n ∈ validators | _ => True end.

(** A state and the time of the last call.  The clock is steady, network time
    and the adaptor's answers are arbitrary. *)
Inductive vstep : Z * Validations L T → Z * Validations L T → Prop :=
  | vstep_call t c e v : call_ok c → t ≤ a_clock e →
      vstep (t, v) (a_clock e, run_call c e v).

Definition vreach (tv : Z * Validations L T) : Prop := rtc vstep (0, new_validations) tv.

Lemma run_call_inv c e v : call_ok c → vals_inv v → vals_inv (run_call c e v).
Proof.
  intros Hok Hinv. pose proof (proj1 (current_exact e v Hinv)) as Hcur.
  destruct c; simpl.
  - by apply canValidateSeq_inv.
  - by apply add_inv.
  - by apply set_byLedger_inv.
  - by apply trustChanged_inv.
  - by apply getPreferred_inv.
  - unfold getPreferred_minValid. pose proof (getPreferred_inv e curr v Hinv).
    by destruct (getPreferred _ _ _ _).
  - unfold getPreferredLCL. pose proof (getPreferred_inv e lcl v Hinv).
    by destruct (getPreferred _ _ _ _).
  - by apply getNodesAfter_inv.
  - unfold currentTrusted. by destruct (current _ _ _).
  - unfold getCurrentNodeIDs. by destruct (current _ _ _).
  - unfold numTrustedForLedger. pose proof (byLedger_call_inv e ledgerID v Hinv).
    by destruct (byLedger _ _ _).
  - unfold getTrustedForLedger. pose proof (byLedger_call_inv e ledgerID v Hinv).
    by destruct (byLedger _ _ _).
  - unfold fees. pose proof (byLedger_call_inv e ledgerID v Hinv).
    by destruct (byLedger _ _ _).
  - by apply flush_inv.
  - unfold laggards. destruct (current _ _ _). by destruct (foldl _ _ _).
Qed.

(** The container of validations per ledger stays in chronological order.
    Only the operations of the container change it. *)
Lemma removeTrie_byLedger n val v : byLedger_ (removeTrie n val v) = byLedger_ v.
Proof. unfold removeTrie. repeat case_match; done. Qed.

Lemma foldl_preserves {A B} (g : Validations L T → B)
    (f : Validations L T → A → Validations L T) l v :
  (∀ v x, g (f v x) = g v) → g (foldl f v l) = g v.
Proof. intros Hf. revert v. induction l as [|x l IH]; intros v; simpl; [done|]. by rewrite IH. Qed.

Lemma checkAcquired_byLedger e v : byLedger_ (checkAcquired e v) = byLedger_ v.
Proof.
  apply (foldl_preserves byLedger_). intros w [key nodes]. unfold acquired_step. case_match; [|done]. simpl.
  by apply (foldl_preserves byLedger_).
Qed.

Lemma updateTrie_byLedger e n val prior v : byLedger_ (updateTrie e n val prior v) = byLedger_ v.
Proof.
  unfold updateTrie. repeat case_match; simpl; rewrite checkAcquired_byLedger; done.
Qed.

Lemma current_byLedger e v : byLedger_ (current p e v).1 = byLedger_ v.
Proof.
  unfold current. generalize (@nil (Z * Validation)).
  generalize (map_to_list (current_ v)). intros l. revert v.
  induction l as [|[n val] l IH]; intros v seen; simpl; [done|].
  destruct (isCurrent _ _ _ _); rewrite IH; simpl; [done|]. apply removeTrie_byLedger.
Qed.

Lemma withTrie_byLedger {A} e (f : T → T * A) v :
  byLedger_ (withTrie p e f v).1 = byLedger_ v.
Proof.
  unfold withTrie. destruct (f _). simpl. by rewrite checkAcquired_byLedger, current_byLedger.
Qed.

Lemma getPreferred_byLedger e curr v : byLedger_ (getPreferred p e curr v).1 = byLedger_ v.
Proof.
  unfold getPreferred.
  pose proof (withTrie_byLedger e (λ t, t_getPreferred t (largest (localSeqEnforcer_ v))) v).
  by destruct (withTrie _ _ _ _).
Qed.

Lemma byLedger_call_aged e t i v :
  Aged.aged_inv t (byLedger_ v) → t ≤ a_clock e →
  Aged.aged_inv (a_clock e) (byLedger_ (byLedger e i v).1).
Proof.
  intros Ha Ht. unfold byLedger. eapply Aged.aged_mono in Ha; [|exact Ht].
  case_match; [|done]. by apply Aged.touch_inv.
Qed.

Lemma add_aged e t n val v :
  Aged.aged_inv t (byLedger_ v) → t ≤ a_clock e →
  Aged.aged_inv (a_clock e) (byLedger_ (add p e n val v).1).
Proof.
  intros Ha Ht. eapply Aged.aged_mono in Ha; [|exact Ht]. unfold add.
  destruct (isCurrent _ _ _ _); simpl; [|done]. destruct (enforce _ _ _ _) as [en []]; [|done].
  unfold add_accepted. simpl.
  pose proof (Aged.modify_inv _ (λ m, <[n:=val]> m) (v_ledgerID val) _
    (Aged.index_inv (a_clock e) ∅ (v_ledgerID val) _ Ha)) as Hi.
  repeat case_match; simpl; rewrite ?updateTrie_byLedger; done.
Qed.

Lemma trustChanged_aged e t added removed v :
  Aged.aged_inv t (byLedger_ v) → Aged.aged_inv t (byLedger_ (trustChanged e added removed v)).
Proof.
  intros Ha. unfold trustChanged. simpl.
  apply (Aged.map_values_inv t (λ _ m, map_imap (λ n val, Some (retrust added removed n val)) m)).
  rewrite (foldl_preserves byLedger_); [done|]. intros w [n val]. unfold trust_step.
  repeat case_decide; [by rewrite updateTrie_byLedger|by rewrite removeTrie_byLedger|done].
Qed.

Lemma run_call_aged c e t v :
  Aged.aged_inv t (byLedger_ v) → t ≤ a_clock e →
  Aged.aged_inv (a_clock e) (byLedger_ (run_call c e v)).
Proof.
  intros Ha Ht. pose proof (Aged.aged_mono _ _ _ Ha Ht) as Ha'.
  pose proof (current_byLedger e v) as Hcur. destruct c; simpl.
  - unfold canValidateSeq. by destruct (enforce _ _ _ _).
  - by eapply add_aged.
  - by apply Aged.expire_inv.
  - by apply trustChanged_aged.
  - by rewrite getPreferred_byLedger.
  - unfold getPreferred_minValid. pose proof (getPreferred_byLedger e curr v) as Hg.
    destruct (getPreferred _ _ _ _). simpl in *. by rewrite Hg.
  - unfold getPreferredLCL. pose proof (getPreferred_byLedger e lcl v) as Hg.
    destruct (getPreferred _ _ _ _). simpl in *. by rewrite Hg.
  - unfold getNodesAfter. case_match; [|done]. by rewrite withTrie_byLedger.
  - unfold currentTrusted. destruct (current _ _ _). simpl in *. by rewrite Hcur.
  - unfold getCurrentNodeIDs. destruct (current _ _ _). simpl in *. by rewrite Hcur.
  - unfold numTrustedForLedger. pose proof (byLedger_call_aged e t ledgerID v Ha Ht).
    by destruct (byLedger _ _ _).
  - unfold getTrustedForLedger. pose proof (byLedger_call_aged e t ledgerID v Ha Ht).
    by destruct (byLedger _ _ _).
  - unfold fees. pose proof (byLedger_call_aged e t ledgerID v Ha Ht).
    by destruct (byLedger _ _ _).
  - done.
  - unfold laggards. destruct (current _ _ _). destruct (foldl _ _ _). simpl in *. by rewrite Hcur.
Qed.

Lemma reach_inv tv :
  Z.of_nat (size validators) < 2 ^ 32 → vreach tv → vals_inv tv.2 ∧ Aged.aged_inv tv.1 (byLedger_ tv.2).
Proof.
  intros Hfew Hr. apply (rtc_invariant vstep
    (λ tv, vals_inv tv.2 ∧ Aged.aged_inv tv.1 (byLedger_ tv.2)) (0, new_validations) tv);
    [|exact Hr|].
  - intros _ _ [t c e v Hok Hle] [Hinv Ha]. simpl in *.
    split; [by apply run_call_inv|by eapply run_call_aged].
  - split; simpl; [by apply new_inv|]. split; simpl; constructor.
Qed.

(** ** Counting validators *)

(** The number of validators whose last ledger satisfies [f]. *)
Definition count_last (f : L → bool) v : Z :=
  Z.of_nat (length (filter (λ x, f x.2) (map_to_list (lastLedger_ v)))).

Lemma weight_supporters (f : L → Z → bool) m :
  weight f (supporters m) =
  Z.of_nat (length (filter (λ x, f x.2 (seq x.2)) (map_to_list m))).
Proof.
  unfold weight, supporters. rewrite sumZ_map.
  induction (map_to_list m) as [|[n l] xs IH]; [done|]. simpl. rewrite filter_cons. simpl.
  rewrite IH. destruct (f l (seq l)); simpl; lia.
Qed.

Lemma support_counts v l :
  vals_inv v →
  t_tipSupport (trie_ v) l = count_last (λ x, is_ledger l x (seq x)) v ∧
  t_branchSupport (trie_ v) l = count_last (λ x, descends l (seq l) x (seq x)) v.
Proof.
  intros Hinv. pose proof (vi_trie _ Hinv) as Ht.
  split; [rewrite (t_tip_law _ _ l Ht)|rewrite (t_branch_law _ _ l Ht)]; apply weight_supporters.
Qed.

Lemma count_last_sub (f g : L → bool) v :
  (∀ x, g x → f x) →
  count_last f v - count_last g v = count_last (λ x, f x && negb (g x)) v.
Proof.
  intros Hfg. unfold count_last. induction (map_to_list (lastLedger_ v)) as [|[n l] xs IH]; [done|].
  rewrite !filter_cons. simpl. specialize (Hfg l).
  destruct (f l), (g l); simpl in *; lia || done.
Qed.

Lemma count_last_ext (f g : L → bool) v :
  (∀ x, f x = g x) → count_last f v = count_last g v.
Proof.
  intros Hfg. unfold count_last. do 2 f_equal. induction (map_to_list (lastLedger_ v)) as [|[n l] xs IH]; [done|].
  rewrite !filter_cons. simpl. rewrite Hfg, IH. done.
Qed.

(** ** Acquired ledgers *)

(** [checkAcquired] leaves no ledger waiting that the adaptor can deliver. *)
Lemma checkAcquired_waiting e v key :
  acquiring_ (checkAcquired e v) !! key =
  if a_acquire e key.2 is Some _ then None else acquiring_ v !! key.
Proof.
  unfold checkAcquired.
  assert (∀ l w, acquiring_ (foldl (acquired_step e) w l) !! key =
    if a_acquire e key.2 is Some _ then
      if decide (key ∈ map fst l) then None else acquiring_ w !! key
    else acquiring_ w !! key) as Hloop.
  { induction l as [|[key' nodes] l IH]; intros w; cbn [foldl].
    { simpl. by destruct (a_acquire e key.2). }
    rewrite IH. clear IH. unfold acquired_step. destruct (a_acquire e key'.2) as [lg|] eqn:Ea'.
    - simpl. rewrite (foldl_preserves acquiring_) by done.
      destruct (decide (key = key')) as [->|Hne].
      + rewrite Ea', lookup_delete_eq. repeat case_decide; set_solver.
      + rewrite lookup_delete_ne by done. destruct (a_acquire e key.2); [|done].
        repeat case_decide; set_solver.
    - simpl. destruct (a_acquire e key.2) eqn:Ea; [|done].
      assert (key ≠ key') by congruence. repeat case_decide; set_solver. }
  rewrite Hloop. destruct (a_acquire e key.2); [|done]. case_decide as Hk; [done|].
  destruct (acquiring_ v !! key) as [nodes|] eqn:Ek; [|done]. destruct Hk.
  apply (list_elem_of_fmap_2 fst _ (key, nodes)). by apply elem_of_map_to_list.
Qed.

(** A trusted validation of a ledger the adaptor can deliver moves the
    validator's support to that ledger. *)
Lemma updateTrie_available e n val prior v l :
  a_acquire e (v_ledgerID val) = Some l →
  lastLedger_ (updateTrie e n val prior v) !! n = Some l.
Proof.
  intros Ha. unfold updateTrie. rewrite checkAcquired_waiting. simpl. rewrite Ha. simpl.
  by rewrite lookup_insert_eq.
Qed.

Lemma checkAcquired_current e v : current_ (checkAcquired e v) = current_ v.
Proof.
  apply (foldl_preserves current_). intros w [key nodes]. unfold acquired_step. case_match; [|done]. simpl.
  by apply (foldl_preserves current_).
Qed.

Lemma checkAcquired_enforcers e v : seqEnforcers_ (checkAcquired e v) = seqEnforcers_ v.
Proof.
  apply (foldl_preserves seqEnforcers_). intros w [key nodes]. unfold acquired_step.
  case_match; [|done]. simpl. by apply (foldl_preserves seqEnforcers_).
Qed.

Lemma updateTrie_enforcers e n val prior v :
  seqEnforcers_ (updateTrie e n val prior v) = seqEnforcers_ v.
Proof. unfold updateTrie. repeat case_match; simpl; rewrite checkAcquired_enforcers; done. Qed.

Lemma updateTrie_current e n val prior v : current_ (updateTrie e n val prior v) = current_ v.
Proof. unfold updateTrie. repeat case_match; simpl; rewrite checkAcquired_current; done. Qed.

(** [add_accepted] in terms of the part of the state it reports on. *)
Lemma add_accepted_current e n val v :
  current_ (add_accepted e n val v).1 =
    (if decide ((add_accepted e n val v).2 = vs_current)
     then <[n := val]> (current_ v) else current_ v).
Proof.
  unfold add_accepted. simpl. destruct (current_ v !! n) as [old|].
  - destruct (v_signTime old <? v_signTime val); simpl; [|done].
    destruct (v_trusted val); [by rewrite updateTrie_current|done].
  - simpl. destruct (v_trusted val); [by rewrite updateTrie_current|done].
Qed.

(** ** Queries *)
Lemma removeTrie_stale n val v : stale_log (removeTrie n val v) = stale_log v.
Proof. unfold removeTrie. repeat case_match; done. Qed.

Lemma current_stale e v :
  stale_log (current p e v).1 =
  stale_log v ++ map snd (filter (λ x, negb (fresh e x.2)) (map_to_list (current_ v))).
Proof.
  unfold current. generalize (@nil (Z * Validation)).
  generalize (map_to_list (current_ v)). intros l. revert v.
  induction l as [|[n val] l IH]; intros v seen; simpl; [by rewrite app_nil_r|].
  fold (fresh e val). rewrite filter_cons. simpl.
  destruct (fresh e val); simpl; rewrite IH; simpl; [done|].
  by rewrite removeTrie_stale, <- (assoc_L (++)).
Qed.

(** What [withTrie] runs its function on. *)
Lemma withTrie_result {A} e (f : T → T * A) v :
  vals_inv v → ∃ w, vals_inv w ∧ withTrie p e f v =
    (set_trie (f (trie_ w)).1 (lastLedger_ w) w, (f (trie_ w)).2).
Proof.
  intros Hinv. apply current_exact with (e := e) in Hinv as [Hinv _].
  apply (checkAcquired_inv e) in Hinv. eexists. split; [exact Hinv|].
  unfold withTrie. by destruct (f _).
Qed.

Lemma trust_loop_current e added removed l v :
  NoDup (map fst l) → (∀ n val, (n, val) ∈ l → current_ v !! n = Some val) →
  ∀ n, current_ (foldl (trust_step e added removed) v l) !! n =
    if decide (n ∈ map fst l) then retrust added removed n <$> current_ v !! n
    else current_ v !! n.
Proof.
  intros Hnd Hl n. revert v Hnd Hl. induction l as [|[n0 val0] l IH]; intros v Hnd Hl; [done|].
  simpl in Hnd. apply NoDup_cons in Hnd as [Hn0 Hnd].
  assert (current_ (trust_step e added removed v (n0, val0)) =
    <[n0 := retrust added removed n0 val0]> (current_ v)) as Hstep.
  { pose proof (Hl n0 val0 (list_elem_of_here _ _)) as Hv0.
    unfold trust_step, retrust.
    destruct (decide (n0 ∈ added)); [by rewrite updateTrie_current|].
    destruct (decide (n0 ∈ removed)); [by rewrite removeTrie_current|by rewrite insert_id]. }
  cbn [foldl]. rewrite IH; [|done|].
  2: { intros m val Hin. assert (n0 ≠ m) as Hm.
       { intros <-. apply Hn0. by apply (list_elem_of_fmap_2 fst l (n0, val)). }
       rewrite Hstep, lookup_insert_ne by done. apply Hl. by apply list_elem_of_further. }
  rewrite Hstep. simpl. destruct (decide (n = n0)) as [->|Hne].
  - rewrite decide_False by done. rewrite decide_True by apply list_elem_of_here.
    by rewrite lookup_insert_eq, (Hl n0 val0 (list_elem_of_here _ _)).
  - rewrite lookup_insert_ne by done. repeat case_decide; try done; set_solver.
Qed.

Lemma trustChanged_current e added removed v :
  current_ (trustChanged e added removed v) =
  map_imap (λ n val, Some (retrust added removed n val)) (current_ v).
Proof.
  unfold trustChanged. simpl. apply map_eq. intros n.
  rewrite trust_loop_current; [|apply NoDup_fst_map_to_list|].
  2: { intros m val. apply elem_of_map_to_list. }
  rewrite map_lookup_imap. case_decide as Hn; [by destruct (current_ v !! n)|].
  destruct (current_ v !! n) as [val|] eqn:El; [|done]. destruct Hn.
  by apply (list_elem_of_fmap_2 fst _ (n, val)), elem_of_map_to_list.
Qed.

Lemma trustChanged_byLedger e added removed v i :
  Aged.find i (byLedger_ (trustChanged e added removed v)) =
  map_imap (λ n val, Some (retrust added removed n val)) <$> Aged.find i (byLedger_ v).
Proof.
  unfold trustChanged. simpl. rewrite (foldl_preserves byLedger_).
  - induction (byLedger_ v) as [|[k [w m]] c IH]; [done|]. simpl. by case_decide.
  - intros w [n val]. unfold trust_step.
    repeat case_decide; [by rewrite updateTrie_byLedger|by rewrite removeTrie_byLedger|done].
Qed.

Lemma tip_descends (l x : L) : is_ledger l x (seq x) → descends l (seq l) x (seq x).
Proof.
  unfold is_ledger, descends. intros Heq%Is_true_true%Z.eqb_eq.
  assert (seq x = seq l) as Hs by (apply window_id_seq; by rewrite <- Heq, window_id).
  rewrite <- Hs, Z.leb_refl, Heq. simpl. rewrite Hs, window_id, Z.eqb_refl. done.
Qed.

Lemma strict_descends (l x : L) :
  descends l (seq l) x (seq x) && negb (is_ledger l x (seq x)) =
  (seq l <? seq x) && (at_ x (seq l) =? id l).
Proof.
  unfold descends, is_ledger. rewrite (window_id l). destruct (Z.leb_spec (seq l) (seq x)), (Z.ltb_spec (seq l) (seq x));
    simpl; try lia.
  - destruct (Z.eqb_spec (at_ x (seq l)) (id l)) as [Ha|]; [|done]. simpl.
    destruct (Z.eqb_spec (at_ x (seq x)) (id l)) as [Hb|]; [|done].
    assert (seq l = seq x); [|lia]. apply window_at_inj; [lia|]. by rewrite Ha, <- Hb, window_id.
  - replace (seq l) with (seq x) by lia. by destruct (at_ x (seq x) =? id l).
Qed.

Lemma add_accepted_spec e n val v :
  let '(v', st) := add_accepted e n val v in
  let newer := match current_ v !! n with
               | Some old => v_signTime old <? v_signTime val | None => true end in
  st = (if newer then vs_current else vs_stale) ∧
  seqEnforcers_ v' = seqEnforcers_ v ∧
  (st ≠ vs_current → trie_ v' = trie_ v ∧ lastLedger_ v' = lastLedger_ v ∧
                     acquiring_ v' = acquiring_ v ∧ stale_log v' = stale_log v) ∧
  Aged.find (v_ledgerID val) (byLedger_ v') =
    Some (<[n := val]> (default ∅ (Aged.find (v_ledgerID val) (byLedger_ v)))).
Proof.
  unfold add_accepted. simpl.
  pose proof (Aged.find_upsert (a_clock e) ∅ (v_ledgerID val) (λ m, <[n := val]> m)
    (byLedger_ v)) as Hf.
  destruct (current_ v !! n) as [old|]; simpl.
  - destruct (v_signTime old <? v_signTime val); simpl; [|by split_and!].
    destruct (v_trusted val); split_and!; try done;
      by rewrite ?updateTrie_byLedger, ?updateTrie_enforcers.
  - destruct (v_trusted val); split_and!; try done;
      by rewrite ?updateTrie_byLedger, ?updateTrie_enforcers.
Qed.

Lemma max_element_spec {A} (lt : A → A → bool) l x :
  (∀ a b, lt a b = true → lt b a = false) →
  (∀ a b c, lt a b = false → lt b c = false → lt a c = false) →
  max_element lt l = Some x → x ∈ l ∧ ∀ y, y ∈ l → lt x y = false.
Proof.
  intros Hasym Htrans. destruct l as [|a l]; [done|]. intros [= <-].
  assert (∀ b, lt b b = false) as Hirr.
  { intros b. destruct (lt b b) eqn:Eb; [|done]. by rewrite (Hasym _ _ Eb) in Eb. }
  revert a. induction l as [|b l IH]; intros a; simpl.
  { split; [by apply list_elem_of_singleton|]. intros y ->%list_elem_of_singleton. done. }
  destruct (IH (if lt a b then b else a)) as [Hin Hmax]. split.
  - apply elem_of_cons in Hin as [Hin|Hin]; [|set_solver].
    rewrite Hin. destruct (lt a b); set_solver.
  - pose proof (Hmax _ (list_elem_of_here _ _)) as Hm.
    intros y [->|[->|Hy]%elem_of_cons]%elem_of_cons; [| |apply Hmax; set_solver];
      destruct (lt a b) eqn:Eab; try done; eapply Htrans; try done. by apply Hasym.
Qed.

Lemma count_id_lt_asym a b : count_id_lt a b = true → count_id_lt b a = false.
Proof. unfold count_id_lt. lia. Qed.

Lemma count_id_lt_trans a b c :
  count_id_lt a b = false → count_id_lt b c = false → count_id_lt a c = false.
Proof. unfold count_id_lt. lia. Qed.

Lemma most_waited v :
  match fst <$> max_element acquiring_lt (map_to_list (acquiring_ v)) with
  | None => acquiring_ v = ∅
  | Some key => ∃ nodes, acquiring_ v !! key = Some nodes ∧
      ∀ key' nodes', acquiring_ v !! key' = Some nodes' → (size nodes' ≤ size nodes)%nat
  end.
Proof.
  destruct (max_element _ _) as [[key nodes]|] eqn:Em; simpl.
  - apply max_element_spec in Em as [Hin Hmax].
    + exists nodes. split; [by apply elem_of_map_to_list|].
      intros key' nodes' Hk%elem_of_map_to_list. specialize (Hmax _ Hk).
      unfold acquiring_lt, count_id_lt in Hmax. simpl in Hmax. lia.
    + intros a b. apply count_id_lt_asym.
    + intros a b c. apply count_id_lt_trans.
  - destruct (map_to_list (acquiring_ v)) eqn:El; [|done]. by apply map_to_list_empty_iff.
Qed.

Lemma preferred_vs_current (curr : L) (pr : SpanTip L) :
  let r :=
    if (st_seq pr =? seq curr ⊕₃₂ 1) && (ancestor pr (seq curr) =? id curr)
    then Some (seq curr, id curr)
    else if seq curr <? st_seq pr then Some (st_seq pr, st_id pr)
    else if negb (at_ curr (st_seq pr) =? st_id pr) then Some (st_seq pr, st_id pr)
    else Some (seq curr, id curr) in
  r = Some (seq curr, id curr) ∧
    (st_seq pr ≤ seq curr ∧ at_ curr (st_seq pr) = st_id pr ∨
     st_seq pr = seq curr + 1 ∧ at_ (st_ledger pr) (seq curr) = id curr) ∨
  r = Some (st_seq pr, st_id pr) ∧
    (seq curr < st_seq pr ∨ at_ curr (st_seq pr) ≠ st_id pr).
Proof.
  pose proof (window_seq curr). cbv zeta. unfold u32, wrap. rewrite Z.mod_small by lia.
  unfold ancestor.
  destruct (Z.eqb_spec (st_seq pr) (seq curr + 1)), (Z.eqb_spec (at_ (st_ledger pr) (seq curr)) (id curr)),
    (Z.ltb_spec (seq curr) (st_seq pr)), (Z.eqb_spec (at_ curr (st_seq pr)) (st_id pr)); simpl; auto 6.
Qed.

Lemma count_last_bound f v : vals_inv v → 0 ≤ count_last f v < 2 ^ 32.
Proof.
  intros Hinv. pose proof (size_last _ (vi_few _ Hinv) (vi_last _ Hinv)) as Hs.
  rewrite <- length_map_to_list in Hs. unfold count_last.
  pose proof (length_filter (λ x : Z * L, f x.2) (map_to_list (lastLedger_ v))). lia.
Qed.
End spec.
