(* ===== verification/ValidationsTheorems.v ===== *)
(** * Theorems about the validations store

    The properties of Validations.h, for any ledger type with [LedgerWindow] and
    any trie that keeps [SupportTrieLaws]; each witness runs one on the trie of
    LedgerTrie.h over the chain of RCLValidatedLedger.v. *)

From stdpp Require Import prelude gmap sorting.
From Stdlib Require Import ZArith Lia.
From S2P Require Import Prelude.
From S2P Require Import LedgerTrie.
From S2P Require Import LedgerTrieSpec.
From S2P Require Import RCLValidatedLedger.
From S2P Require Import SupportTrie.
From S2P Require Import AgedMap.
From S2P Require Import Validations.
From S2P Require Import ValidationsSpec.
Import Vals.

(** ** A concrete network for the witnesses *)
Module Example_net.
(** Ledgers that branch off a history of 300 ledgers. *)
Definition old : list Z := replicate 300 0.
Abbreviation ledgers := (History old).
Abbreviation store := (Validations ledgers (LedgerTrie ledgers)).

Definition nodes : gset Z := {[1; 2; 3]}.
Definition lA : ledgers := mkHistory (base:=old) (old ++ [7]) eq_refl.
Definition lB : ledgers := mkHistory (base:=old) (old ++ [7; 8]) eq_refl.
Definition lC : ledgers := mkHistory (base:=old) (old ++ [7; 9]) eq_refl.

Definition acquire (have : list ledgers) (i : Z) : option ledgers :=
  snd <$> list_find (λ l : ledgers, id l = i) have.

Definition env (clock : Z) (have : list ledgers) : Adaptor ledgers :=
  mkAdaptor _ (1000 + clock) clock (acquire have).

Definition val (l : ledgers) (n sign : Z) : Validation :=
  mkValidation (id l) (seq l) sign sign n true true None.

(** Validators 1 and 2 validate [lA], then 1 validates its child [lB]. *)
Definition calls : list (Adaptor ledgers * call (L:=ledgers)) :=
  [(env 1 [lA], call_add 1 (val lA 1 1001)); (env 2 [lA], call_add 2 (val lA 2 1002));
   (env 3 [lA; lB], call_add 1 (val lB 1 1003))].

Fixpoint run_from (tv : Z * store) (cs : list (Adaptor ledgers * call (L:=ledgers))) : Z * store :=
  match cs with
  | [] => tv
  | (e, c) :: cs => run_from (a_clock e, run_call default_parms c e tv.2) cs
  end.

Fixpoint run_ok (t : Z) (cs : list (Adaptor ledgers * call (L:=ledgers))) : Prop :=
  match cs with
  | [] => True
  | (e, c) :: cs => call_ok nodes c ∧ t ≤ a_clock e ∧ run_ok (a_clock e) cs
  end.

Definition run := run_from (0, new_validations).

Lemma run_from_steps cs tv :
  run_ok tv.1 cs → rtc (vstep default_parms nodes) tv (run_from tv cs).
Proof.
  revert tv. induction cs as [|[e c] cs IH]; intros [t v]; simpl; [by intros _|].
  intros (Hc & Ht & Hok). eapply rtc_l; [by constructor|]. by apply IH.
Qed.

Lemma calls_reach : vreach default_parms nodes (run calls).
Proof. apply run_from_steps. simpl. unfold nodes. split_and!; try lia; set_solver. Qed.
End Example_net.
Import Example_net.

Section theorems.
  Context {L T : Type} `{LedgerWindow L} `{!SupportTrie L T} `{!SupportTrieLaws L T}.
  Context (p : ValidationParms) (validators : gset Z).
  Context (Hfew : Z.of_nat (size validators) < 2 ^ 32).
  Implicit Types (v : Validations L T) (e : Adaptor L).

(** C26: for ledgers that know their ancestors back to a history they share
    ([LedgerWindow]; a ledger of the running system knows 256), in every
    reachable state the trie's support is a count of validators: the tip
    support of a ledger is the number of validators whose last trusted ledger it
    is, the branch support the number whose last ledger is it or descends from
    it. *)
Theorem validations_support_counts t v l :
  vreach p validators (t, v) →
  t_tipSupport (trie_ v) l = count_last (λ x, id x =? id l) v ∧
  t_branchSupport (trie_ v) l =
    count_last (λ x, (seq l <=? seq x) && (at_ x (seq l) =? id l)) v.
Proof.
  intros Hr. apply reach_inv in Hr as [Hinv _]; [|done]. simpl in Hinv.
  destruct (support_counts validators v l Hinv) as [-> ->].
  split; apply count_last_ext; intros x.
  - unfold is_ledger. by rewrite window_id.
  - unfold descends. by rewrite (window_id l).
Qed.
(** [getNodesAfter] on a ledger and its own ID returns the number of
    validators whose last ledger is a strict descendant of the ledger; the
    unsigned subtraction it is computed with does not wrap. *)
Theorem getNodesAfter_counts t v e l :
  vreach p validators (t, v) →
  let '(v', n) := getNodesAfter p e l (id l) v in
  n = count_last (λ x, (seq l <? seq x) && (at_ x (seq l) =? id l)) v'.
Proof.
  intros Hr. apply reach_inv in Hr as [Hinv _]; [|done]. simpl in Hinv.
  unfold getNodesAfter. rewrite Z.eqb_refl.
  destruct (withTrie_result p validators e
    (λ t, (t, t_branchSupport t l ⊖₃₂ t_tipSupport t l)) v Hinv) as (w & Hw & ->). simpl.
  destruct (support_counts validators w l Hw) as [-> ->].
  unfold u32, wrap. rewrite (count_last_sub _ _ w (tip_descends l)).
  rewrite Z.mod_small by by eapply count_last_bound.
  unfold count_last at 2. simpl. fold (count_last
    (λ x, (seq l <? seq x) && (at_ x (seq l) =? id l)) w).
  apply count_last_ext, strict_descends.
Qed.

(** The queries that walk the current validations report exactly the ones
    that are still current, drop the others, and hand each dropped one to
    [onStale], once. *)
Theorem current_validations_exact t v e :
  vreach p validators (t, v) →
  let '(v', ids) := getCurrentNodeIDs p e v in
  current_ v' = filter (λ x, fresh p e x.2) (current_ v) ∧
  ids = dom (current_ v') ∧
  (∃ gone, stale_log v' = stale_log v ++ gone ∧
     gone ≡ₚ map snd (map_to_list (filter (λ x, negb (fresh p e x.2)) (current_ v)))).
Proof.
  intros Hr. apply reach_inv in Hr as [Hinv _]; [|done]. simpl in Hinv.
  unfold getCurrentNodeIDs. pose proof (current_stale p e v) as Hs.
  destruct (current_exact p validators e v Hinv) as (_ & H1 & H2).
  destruct (current p e v) as [v' seen]. simpl in *. subst seen. split_and!; [done| |].
  - rewrite H2. apply set_eq. intros n. rewrite elem_of_list_to_set, list_elem_of_fmap, elem_of_dom.
    split.
    + intros ([n' val] & -> & [Hf Hin%elem_of_map_to_list]%list_elem_of_filter).
      exists val. by apply map_lookup_filter_Some.
    + intros [val [Hv Hf]%map_lookup_filter_Some]. exists (n, val). split; [done|].
      apply list_elem_of_filter. by rewrite elem_of_map_to_list.
  - eexists. split; [exact Hs|]. apply fmap_Permutation.     apply NoDup_Permutation; [apply NoDup_filter, NoDup_map_to_list|apply NoDup_map_to_list|].
    intros [n val]. by rewrite list_elem_of_filter, !elem_of_map_to_list,
      map_lookup_filter_Some, (comm (∧)).
Qed.
(** [add] on every branch.  A validation is reported current exactly when
    it is timely, its sequence number is accepted and it is signed later than
    the validator's previous one; then, and only then, it replaces the current
    one.  A validation that is not timely changes nothing; a rejected sequence
    number changes the enforcer only; an accepted one is filed under its ledger
    whether it is stale or not. *)
Theorem add_branches e n val v :
  let '(v', st) := add p e n val v in
  let '(en, ok) := enforce (default new_enforcer (seqEnforcers_ v !! n)) (a_clock e)
                     (v_seq val) p in
  let newer := match current_ v !! n with
               | Some old => v_signTime old <? v_signTime val | None => true end in
  st = (if fresh p e val then if ok then if newer then vs_current else vs_stale
        else vs_badSeq else vs_stale) ∧
  current_ v' = (if decide (st = vs_current) then <[n := val]> (current_ v) else current_ v) ∧
  seqEnforcers_ v' = (if fresh p e val then <[n := en]> (seqEnforcers_ v)
                      else seqEnforcers_ v) ∧
  (st ≠ vs_current → trie_ v' = trie_ v ∧ lastLedger_ v' = lastLedger_ v ∧
                     acquiring_ v' = acquiring_ v ∧ stale_log v' = stale_log v) ∧
  (fresh p e val && ok → Aged.find (v_ledgerID val) (byLedger_ v') =
     Some (<[n := val]> (default ∅ (Aged.find (v_ledgerID val) (byLedger_ v))))) ∧
  (negb (fresh p e val && ok) → byLedger_ v' = byLedger_ v).
Proof.
  unfold add, fresh. destruct (isCurrent _ _ _ _); simpl; [|by destruct (enforce _ _ _ _)].
  destruct (enforce _ _ _ _) as [en []]; simpl; [|by split_and!].
  set (w := set_enforcers _ v).
  assert (current_ w = current_ v ∧ byLedger_ w = byLedger_ v) as [Hcw Hbw] by done.
  pose proof (add_accepted_spec e n val w) as Hspec.
  pose proof (add_accepted_current e n val w) as Hcur.
  destruct (add_accepted e n val w) as [v' st]. simpl in Hcur.
  destruct Hspec as (Hst & Hen & Hsame & Hfind). rewrite Hcw, ?Hbw in *.
  split_and!; try done.
Qed.

(** A trusted validation that [add] reports current, for a ledger that can
    be acquired, moves the validator's support to that ledger at once. *)
Theorem add_moves_support e n val v l :
  (add p e n val v).2 = vs_current → v_trusted val = true →
  a_acquire e (v_ledgerID val) = Some l →
  lastLedger_ (add p e n val v).1 !! n = Some l.
Proof.
  unfold add. intros Hst Htr Hacq. destruct (isCurrent _ _ _ _); [|done].
  destruct (enforce _ _ _ _) as [en []]; [|done]. simpl in *. revert Hst.
  unfold add_accepted. simpl. rewrite Htr.
  repeat case_match; simpl; intros; try done; by apply updateTrie_available.
Qed.

(** [trustChanged] sets the trust of every validation of an added or removed
    validator, current or filed under a ledger, and of no other. *)
Theorem trustChanged_everywhere e added removed v :
  let v' := trustChanged e added removed v in
  let mark := map_imap (λ n val, Some (retrust added removed n val)) in
  current_ v' = mark (current_ v) ∧
  ∀ i, Aged.find i (byLedger_ v') = mark <$> Aged.find i (byLedger_ v).
Proof. split; [apply trustChanged_current|apply trustChanged_byLedger]. Qed.
(** The ledger [getPreferred] chooses.  When validators support ledgers, the
    choice follows the ledger their support commits to: the current ledger is
    kept when that ledger is the current one, one of its ancestors or its child,
    and otherwise the choice is that ledger, which is then never an ancestor of
    the current one.  When no ledger is supported the choice is a ledger most
    validators wait for, or none when none is waited for. *)
Theorem getPreferred_choice t v e curr :
  vreach p validators (t, v) →
  let '(v', r) := getPreferred p e curr v in
  if decide (lastLedger_ v' = ∅) then
    match r with
    | None => acquiring_ v' = ∅
    | Some key => ∃ nodes, acquiring_ v' !! key = Some nodes ∧
        ∀ key' nodes', acquiring_ v' !! key' = Some nodes' → (size nodes' ≤ size nodes)%nat
    end
  else
    ∃ pr, mset_preferred (supporters (lastLedger_ v')) (largest (localSeqEnforcer_ v)) pr ∧
      (r = Some (seq curr, id curr) ∧
         (st_seq pr ≤ seq curr ∧ at_ curr (st_seq pr) = st_id pr ∨
          st_seq pr = seq curr + 1 ∧ at_ (st_ledger pr) (seq curr) = id curr) ∨
       r = Some (st_seq pr, st_id pr) ∧
         (seq curr < st_seq pr ∨ at_ curr (st_seq pr) ≠ st_id pr)).
Proof.
  intros Hr. apply reach_inv in Hr as [Hinv _]; [|done]. simpl in Hinv. unfold getPreferred.
  destruct (withTrie_result p validators e
    (λ t, t_getPreferred t (largest (localSeqEnforcer_ v))) v Hinv) as (w & Hw & ->). simpl.
  pose proof (t_preferred_law _ _ (largest (localSeqEnforcer_ v)) (vi_trie _ _ Hw)) as [_ Hp].
  rewrite total_supporters in Hp. destruct (t_getPreferred _ _).2 as [pr|].
  - destruct Hp as [Hne Hpr]. rewrite decide_False.
    2: { intros He. rewrite He, map_size_empty in Hne. lia. }
    exists pr. split; [done|]. by apply preferred_vs_current.
  - rewrite decide_True by (apply map_size_empty_iff; lia).
    by apply most_waited.
Qed.

(** [expire] drops exactly the sets of validations that were last touched at
    least [validationSET_EXPIRES] ago, although it stops at the first one that
    is younger. *)
Theorem expire_drops_old t v e :
  vreach p validators (t, v) →
  byLedger_ (expire p e v) =
  filter (λ x, a_clock e - validationSET_EXPIRES p < x.2.1) (byLedger_ v).
Proof.
  intros Hr. apply reach_inv in Hr as [_ Ha]; [|done]. by eapply Aged.expire_exact.
Qed.
End theorems.

Lemma validations_support_counts_witness :
  t_tipSupport (trie_ (run calls).2) lA = 1 ∧ t_branchSupport (trie_ (run calls).2) lA = 2 ∧
  count_last (λ x, id x =? id lA) (run calls).2 = 1 ∧
  count_last (λ x, (seq lA <=? seq x) && (at_ x (seq lA) =? id lA)) (run calls).2 = 2.
Proof.
  destruct (validations_support_counts default_parms nodes ltac:(vm_compute; done)
    (run calls).1 (run calls).2 lA calls_reach) as [H1 H2].
  rewrite H1, H2. split_and!; vm_compute; reflexivity.
Defined.

Lemma getNodesAfter_counts_witness :
  (getNodesAfter default_parms (env 4 [lA; lB]) lA (id lA) (run calls).2).2 = 1.
Proof.
  pose proof (getNodesAfter_counts default_parms nodes ltac:(vm_compute; done)
    (run calls).1 (run calls).2 (env 4 [lA; lB]) lA calls_reach) as Hn.
  destruct (getNodesAfter _ _ _ _ _) as [v' n] eqn:E. rewrite Hn. cbn [snd].
  replace v' with ((getNodesAfter default_parms (env 4 [lA; lB]) lA (id lA) (run calls).2).1)
    by (by rewrite E).
  vm_compute. reflexivity.
Defined.

(** Much later the validations of [calls] are no longer current. *)
Lemma current_validations_exact_witness :
  let r := getCurrentNodeIDs default_parms (env 182 []) (run calls).2 in
  r.2 = {[1]} ∧ current_ r.1 = filter (λ x, fresh default_parms (env 182 []) x.2)
                                 (current_ (run calls).2).
Proof.
  pose proof (current_validations_exact default_parms nodes ltac:(vm_compute; done)
    (run calls).1 (run calls).2 (env 182 []) calls_reach) as Hc.
  cbv zeta. destruct (getCurrentNodeIDs _ _ _) as [v' ids].
  destruct Hc as (Hc & Hids & _). cbn [fst snd]. split; [|exact Hc].
  rewrite Hids, Hc. vm_compute. reflexivity.
Defined.

Lemma add_moves_support_witness :
  lastLedger_ (add default_parms (env 4 [lC]) 2 (val lC 2 1004) (run calls).2).1 !! 2 = Some lC.
Proof. apply add_moves_support; vm_compute; reflexivity. Defined.

Lemma trustChanged_everywhere_witness :
  current_ (trustChanged (env 4 [lA; lB]) ∅ {[1]} (run calls).2) =
  map_imap (λ n val, Some (retrust ∅ {[1]} n val)) (current_ (run calls).2).
Proof. exact (proj1 (trustChanged_everywhere (env 4 [lA; lB]) ∅ {[1]} (run calls).2)). Defined.

Lemma getPreferred_choice_witness :
  (getPreferred default_parms (env 4 []) lC (run calls).2).2 = Some (302, id lC) ∧
  ∃ pr, mset_preferred (supporters (lastLedger_ (run calls).2))
    (largest (localSeqEnforcer_ (run calls).2)) pr.
Proof.
  pose proof (getPreferred_choice default_parms nodes ltac:(vm_compute; done)
    (run calls).1 (run calls).2 (env 4 []) lC calls_reach) as Hp.
  assert (lastLedger_ (getPreferred default_parms (env 4 []) lC (run calls).2).1 =
    lastLedger_ (run calls).2) as Hl by (vm_compute; reflexivity).
  assert ((getPreferred default_parms (env 4 []) lC (run calls).2).2 = Some (302, id lC)) as Hr
    by (vm_compute; reflexivity).
  split; [exact Hr|].
  destruct (getPreferred _ _ _ _) as [v' r]. cbn [fst] in Hl. rewrite Hl in Hp.
  destruct (decide _) as [He|_].
  - exfalso. apply (f_equal size) in He. vm_compute in He. discriminate He.
  - destruct Hp as (pr & Hpr & _). exists pr. exact Hpr.
Defined.

Lemma expire_drops_old_witness :
  length (byLedger_ (run calls).2) = 2%nat ∧
  byLedger_ (expire default_parms (env 602 []) (run calls).2) =
  filter (λ x, 602 - 600 < x.2.1) (byLedger_ (run calls).2).
Proof.
  split; [vm_compute; reflexivity|].
  exact (expire_drops_old default_parms nodes ltac:(vm_compute; done)
    (run calls).1 (run calls).2 (env 602 []) calls_reach).
Defined.

(** ** Sequence enforcement *)

(** The calls an enforcer accepts, in order: each is a time and a number. *)
Fixpoint accepted (p : ValidationParms) (e : SeqEnforcer) (cs : list (Z * Z)) : list (Z * Z) :=
  match cs with
  | [] => []
  | (now, s) :: cs =>
    let '(e', ok) := enforce e now s p in
    if ok then (now, s) :: accepted p e' cs else accepted p e' cs
  end.

(** [b] may be accepted after [a]. *)
Definition follows (p : ValidationParms) (a b : Z * Z) : Prop :=
  a.1 ≤ b.1 ∧ (a.2 < b.2 ∨ a.1 + validationSET_EXPIRES p < b.1).

(** What is accepted later follows any call that the enforcer's state accounts
    for. *)
Lemma accepted_follows p e cs a :
  a.1 ≤ when_ e → (a.2 ≤ seq_ e ∨ ∀ b, b ∈ cs → a.1 + validationSET_EXPIRES p < b.1) →
  StronglySorted (λ x y, x.1 ≤ y.1) cs → Forall (λ b, when_ e ≤ b.1) cs →
  Forall (follows p a) (accepted p e cs).
Proof.
  intros Hw Hs Hsort. revert e Hw Hs.
  induction Hsort as [|[now s] cs Hsort IH Hall]; intros e Hw Hs Hpast; simpl; [constructor|].
  apply Forall_cons in Hpast as [Hnow Hpast]. simpl in Hnow. unfold enforce.
  assert (a.2 ≤ seq_ e ∨ a.1 + validationSET_EXPIRES p < now) as Hs'.
  { destruct Hs as [?|Hs]; [by left|]. right. apply (Hs (now, s)). set_solver. }
  assert (a.1 + validationSET_EXPIRES p < now →
    ∀ b, b ∈ cs → a.1 + validationSET_EXPIRES p < b.1) as Hlater.
  { intros ? b Hb. rewrite Forall_forall in Hall. specialize (Hall b Hb). simpl in Hall. lia. }
  set (sq := if when_ e + validationSET_EXPIRES p <? now then 0 else seq_ e).
  assert (a.2 ≤ sq ∨ a.1 + validationSET_EXPIRES p < now) as Hsq.
  { unfold sq. destruct (Z.ltb_spec (when_ e + validationSET_EXPIRES p) now); lia. }
  destruct (Z.leb_spec s sq) as [Hle|Hgt].
  - apply IH; simpl; [done| |done]. destruct Hsq; auto.
  - constructor; [unfold follows; simpl; lia|]. apply IH; simpl; [lia| |].
    + destruct Hsq; [left; lia|auto].
    + eapply Forall_impl; [exact Hall|]. done.
Qed.

Lemma accepted_sorted p e cs :
  StronglySorted (λ x y, x.1 ≤ y.1) cs → Forall (λ b, when_ e ≤ b.1) cs →
  StronglySorted (follows p) (accepted p e cs).
Proof.
  intros Hsort. revert e. induction Hsort as [|[now s] cs Hsort IH Hall]; intros e Hpast;
    simpl; [constructor|].
  apply Forall_cons in Hpast as [Hnow Hpast]. unfold enforce.
  assert (Forall (λ b : Z * Z, now ≤ b.1) cs) as Hall' by (eapply Forall_impl; [exact Hall|done]).
  destruct (s <=? _); [by apply IH|].
  constructor; [by apply IH|]. apply accepted_follows; simpl; auto; lia.
Qed.

(** Of any two sequence numbers an enforcer accepts, on a steady clock, the
    later is larger, unless more than [validationSET_EXPIRES] passed between
    them. *)
Theorem enforcer_increasing p cs :
  StronglySorted (λ x y, x.1 ≤ y.1) cs → Forall (λ b, 0 ≤ b.1) cs →
  StronglySorted (follows p) (accepted p new_enforcer cs).
Proof. exact (accepted_sorted p new_enforcer cs). Qed.

Lemma enforcer_increasing_witness :
  accepted default_parms new_enforcer [(1, 5); (2, 4); (3, 6); (700, 5)] =
    [(1, 5); (3, 6); (700, 5)] ∧
  StronglySorted (follows default_parms) [(1, 5); (3, 6); (700, 5)].
Proof.
  split; [reflexivity|].
  apply (enforcer_increasing default_parms [(1, 5); (2, 4); (3, 6); (700, 5)]);
    repeat constructor; simpl; lia.
Defined.

(** ** Support left behind *)

(** Validator 1 validates [lA], then [lB], which the node does not have yet; it
    then leaves the trusted set. *)
Definition orphan_calls : list (Adaptor ledgers * call (L:=ledgers)) :=
  [(env 1 [lA], call_add 1 (val lA 1 1001)); (env 2 [lA], call_add 1 (val lB 1 1002));
   (env 3 [lA], call_trustChanged ∅ {[1]})].

(** Support can outlive trust.  In a reachable state no current validation
    is trusted and none is waited for, yet the trie still counts a validator:
    [removeTrie] withdraws the support of a validator only when its newest
    validation is for the ledger it supports in the trie. *)
Theorem untrusted_support_remains :
  ∃ t (v : store),
    vreach default_parms nodes (t, v) ∧
    (∀ n val, current_ v !! n = Some val → v_trusted val = false) ∧
    acquiring_ v = ∅ ∧ t_branchSupport (trie_ v) lA = 1.
Proof.
  exists (run orphan_calls).1, (run orphan_calls).2.
  split_and!.
  - rewrite <- surjective_pairing. apply run_from_steps. simpl. unfold nodes.
    split_and!; try lia; set_solver.
  - intros n x Hx.
    assert (map_Forall (λ _ x, v_trusted x = false) (current_ (run orphan_calls).2)) as Hall.
    { apply (bool_decide_unpack _). vm_compute. exact I. }
    exact (Hall n x Hx).
  - vm_compute. reflexivity.
  - vm_compute. reflexivity.
Qed.
