(* ===== verification/LedgerTiming.v ===== *)
(** * Close times and the decisions of a consensus round

    src/src/ripple/consensus/LedgerTiming.h, ConsensusParms.h and
    Consensus.cpp.  A network time is a 32-bit count of seconds; intervals of
    the steady clock are in milliseconds.  Arithmetic between a network time and
    [std::chrono::seconds] is done in 64 bits and wraps only where the result is
    stored in a network time again. *)

From stdpp Require Import prelude.
From Stdlib Require Import ZArith Lia.
From S2P Require Import Prelude.

(** ** Parameters *)

(** Wall-clock intervals are in seconds, steady-clock intervals in
    milliseconds. *)
Record ConsensusParms := mkConsensusParms {
  validationVALID_WALL : Z;
  validationVALID_LOCAL : Z;
  validationVALID_EARLY : Z;
  proposeFRESHNESS : Z;
  proposeINTERVAL : Z;
  minCONSENSUS_PCT : Z;
  ledgerIDLE_INTERVAL : Z;
  ledgerMIN_CONSENSUS : Z;
  ledgerMAX_CONSENSUS : Z;
  ledgerMIN_CLOSE : Z;
  ledgerGRANULARITY : Z;
  avMIN_CONSENSUS_TIME : Z;
  avINIT_CONSENSUS_PCT : Z;
  avMID_CONSENSUS_TIME : Z;
  avMID_CONSENSUS_PCT : Z;
  avLATE_CONSENSUS_TIME : Z;
  avLATE_CONSENSUS_PCT : Z;
  avSTUCK_CONSENSUS_TIME : Z;
  avSTUCK_CONSENSUS_PCT : Z;
  avCT_CONSENSUS_PCT : Z;
  useRoundedCloseTime : bool;
}.

Definition default_consensus_parms : ConsensusParms :=
  mkConsensusParms 300 180 180 20 12 80 15000 1950 10000 2000 1000 5000 50 50 65 85 70 200 95 75
    true.

(** ** Resolution of close times *)
Definition ledgerPossibleTimeResolutions : list Z := [10; 20; 30; 60; 90; 120].
Definition ledgerDefaultTimeResolution : Z := 30.
Definition increaseLedgerTimeResolutionEvery : Z := 8.
Definition decreaseLedgerTimeResolutionEvery : Z := 1.

Definition getNextLedgerTimeResolution (previousResolution : Z) (previousAgree : bool)
    (ledgerSeq : Z) : Z :=
  match list_find (λ r, r = previousResolution) ledgerPossibleTimeResolutions with
  | None => previousResolution
  | Some (iter, _) =>
    if negb previousAgree && (ledgerSeq mod decreaseLedgerTimeResolutionEvery =? 0) then
      default previousResolution (ledgerPossibleTimeResolutions !! S iter)
    else if previousAgree && (ledgerSeq mod increaseLedgerTimeResolutionEvery =? 0) then
      match iter with
      | O => previousResolution
      | S iter => default previousResolution (ledgerPossibleTimeResolutions !! iter)
      end
    else previousResolution
  end.

Definition roundCloseTime (closeTime closeResolution : Z) : Z :=
  if closeTime =? 0 then closeTime
  else
    let closeTime := closeTime ⊕₃₂ closeResolution / 2 in
    closeTime ⊖₃₂ closeTime mod closeResolution.

Definition effCloseTime (closeTime resolution priorCloseTime : Z) : Z :=
  if closeTime =? 0 then closeTime
  else Z.max (roundCloseTime closeTime resolution) (priorCloseTime ⊕₃₂ 1).

(** ** Decisions *)
Definition shouldCloseLedger (anyTransactions : bool) (prevProposers proposersClosed
    proposersValidated prevRoundTime timeSincePrevClose openTime idleInterval : Z)
    (parms : ConsensusParms) : bool :=
  if (prevRoundTime <? -1000) || (600000 <? prevRoundTime) || (600000 <? timeSincePrevClose)
  then true
  else if prevProposers / 2 <? u64 (proposersClosed + proposersValidated) then true
  else if negb anyTransactions then idleInterval <=? timeSincePrevClose
  else if openTime <? ledgerMIN_CLOSE parms then false
  else if openTime <? Z.quot prevRoundTime 2 then false
  else true.

Definition checkConsensusReached (agreeing total : Z) (count_self : bool)
    (minConsensusPct : Z) : bool :=
  if total =? 0 then true
  else
    let agreeing := if count_self then u64 (agreeing + 1) else agreeing in
    let total := if count_self then u64 (total + 1) else total in
    let currentPercentage := u64 (agreeing * 100) / total in
    minConsensusPct <=? currentPercentage.

Inductive ConsensusState := cs_No | cs_MovedOn | cs_Yes.

#[export] Instance ConsensusState_eq_dec : EqDecision ConsensusState.
Proof. solve_decision. Defined.

Definition checkConsensus (prevProposers currentProposers currentAgree currentFinished
    previousAgreeTime currentAgreeTime : Z) (parms : ConsensusParms) (proposing : bool) :
    ConsensusState :=
  if currentAgreeTime <=? ledgerMIN_CONSENSUS parms then cs_No
  else if (currentProposers <? u64 (prevProposers * 3) / 4) &&
          (currentAgreeTime <? previousAgreeTime + ledgerMIN_CONSENSUS parms)
  then cs_No
  else if checkConsensusReached currentAgree currentProposers proposing (minCONSENSUS_PCT parms)
  then cs_Yes
  else if checkConsensusReached currentFinished currentProposers false (minCONSENSUS_PCT parms)
  then cs_MovedOn
  else cs_No.

(** The percentage of participants, rounded, and at least one; [int]
    arithmetic. *)
Definition participantsNeeded (participants percent : Z) : Z :=
  let result := Z.quot (participants * percent + Z.quot percent 2) 100 in
  if result =? 0 then 1 else result.

(** ** Lemmas *)

(** Rounding: the result is a multiple of the resolution at most half of it
    away. *)
Lemma round_spec t r :
  0 < r → 0 < t → t + r / 2 < 2 ^ 32 →
  (r | roundCloseTime t r) ∧ 2 * Z.abs (roundCloseTime t r - t) ≤ r ∧
  0 ≤ roundCloseTime t r < 2 ^ 32.
Proof.
  intros Hr Ht Hov. unfold roundCloseTime. rewrite (proj2 (Z.eqb_neq _ _)) by lia.
  pose proof (Z.div_mod r 2 ltac:(lia)) as Hh. pose proof (Z.mod_pos_bound r 2 ltac:(lia)).
  rewrite (u32_small (t + r / 2)) by lia.
  pose proof (Z.mod_pos_bound (t + r / 2) r Hr) as Hm.
  pose proof (Z.mod_le (t + r / 2) r ltac:(lia) Hr).
  rewrite u32_small by lia. split_and!; try lia.
  exists ((t + r / 2) / r). pose proof (Z.div_mod (t + r / 2) r ltac:(lia)). lia.
Qed.

Lemma round_idem t r :
  0 < r → 0 < t → t + r / 2 < 2 ^ 32 → roundCloseTime t r + r / 2 < 2 ^ 32 →
  roundCloseTime (roundCloseTime t r) r = roundCloseTime t r.
Proof.
  intros Hr Ht Hov Hov'. destruct (round_spec t r Hr Ht Hov) as ([k Hk] & _ & Hb).
  unfold roundCloseTime at 1. destruct (Z.eqb_spec (roundCloseTime t r) 0); [done|].
  pose proof (Z.div_mod r 2 ltac:(lia)) as Hh. pose proof (Z.mod_pos_bound r 2 ltac:(lia)).
  set (x := roundCloseTime t r) in *. rewrite (u32_small (x + _)) by lia.
  replace ((x + r / 2) mod r) with (r / 2).
  - rewrite u32_small; lia.
  - rewrite Hk, Z.add_comm, Z_mod_plus_full, Z.mod_small; lia.
Qed.

(** Agreement of at least the percentage, counted exactly. *)
Lemma reached_spec agreeing total (self : bool) pct :
  0 ≤ agreeing < 2 ^ 50 → 0 < total < 2 ^ 50 →
  let k := if self then 1 else 0 in
  checkConsensusReached agreeing total self pct = true ↔
  pct * (total + k) ≤ (agreeing + k) * 100.
Proof.
  intros Ha Ht k. unfold checkConsensusReached. rewrite (proj2 (Z.eqb_neq _ _)) by lia.
  replace (if self then u64 (agreeing + 1) else agreeing) with (agreeing + k)
    by (unfold k; destruct self; [rewrite u64_small|]; lia).
  replace (if self then u64 (total + 1) else total) with (total + k)
    by (unfold k; destruct self; [rewrite u64_small|]; lia).
  assert (0 ≤ k ≤ 1) by (unfold k; destruct self; lia).
  rewrite u64_small by lia. rewrite Z.leb_le. split; intros Hp.
  - pose proof (Z.mul_div_le ((agreeing + k) * 100) (total + k) ltac:(lia)). nia.
  - apply Z.div_le_lower_bound; lia.
Qed.

Lemma participantsNeeded_pos n pct : 0 ≤ n → 0 ≤ pct → 1 ≤ participantsNeeded n pct.
Proof.
  intros Hn Hp. unfold participantsNeeded.
  rewrite (Z.quot_div_nonneg pct) by lia. pose proof (Z.div_pos pct 2 Hp ltac:(lia)).
  rewrite Z.quot_div_nonneg by nia.
  pose proof (Z.div_pos (n * pct + pct / 2) 100 ltac:(nia) ltac:(lia)) as Hd.
  destruct (Z.eqb_spec ((n * pct + pct / 2) / 100) 0); lia.
Qed.
