(* ===== verification/Disputes.v ===== *)
(** * Proposals, transaction sets and disputed transactions

    src/src/ripple/consensus/ConsensusProposal.h, DisputedTx.h and the
    interface of a transaction set (app/consensus/RCLCxTx.h). *)

From stdpp Require Import prelude gmap.
From Stdlib Require Import ZArith Lia.
From S2P Require Import Prelude.
From S2P Require Import LedgerTiming.

(** ** Proposals *)
Record ConsensusProposal := mkProposal {
  previousLedger : Z;
  position : Z;
  closeTime : Z;
  seenTime : Z;
  proposeSeq : Z;
  nodeID : Z;
}.

Definition seqJoin : Z := 0.
Definition seqLeave : Z := 0xffffffff.

Definition isInitial (p : ConsensusProposal) : bool := proposeSeq p =? seqJoin.
Definition isBowOut (p : ConsensusProposal) : bool := proposeSeq p =? seqLeave.
Definition isStale (p : ConsensusProposal) (cutoff : Z) : bool := seenTime p <=? cutoff.

Definition changePosition (newPosition newCloseTime now : Z) (p : ConsensusProposal) :
    ConsensusProposal :=
  mkProposal (previousLedger p) newPosition newCloseTime now
    (if proposeSeq p =? seqLeave then proposeSeq p else proposeSeq p ⊕₃₂ 1) (nodeID p).

Definition bowOut (now : Z) (p : ConsensusProposal) : ConsensusProposal :=
  mkProposal (previousLedger p) (position p) (closeTime p) now seqLeave (nodeID p).

#[export] Instance ConsensusProposal_eq_dec : EqDecision ConsensusProposal.
Proof. solve_decision. Defined.

(** ** Transaction sets

    What Consensus.h needs of [TxSet_t] and [Tx_t]; a set is immutable, and the
    mutable copy the source edits is the next value. *)
Class TxSetLike (Tx TxSet : Type) := {
  tx_id : Tx → Z;
  ts_id : TxSet → Z;
  ts_find : TxSet → Z → option Tx;
  ts_exists : TxSet → Z → bool;
  ts_compare : TxSet → TxSet → gmap Z bool;
  ts_insert : Tx → TxSet → TxSet;
  ts_erase : Z → TxSet → TxSet;
}.

(** A set is determined by its ID as far as its elements go; [compare] finds
    exactly the elements that are in one of the sets, and says in which. *)
Class TxSetLaws (Tx TxSet : Type) `{TxSetLike Tx TxSet} := {
  ts_find_id : ∀ (s : TxSet) i t, ts_find s i = Some t → tx_id t = i;
  ts_exists_find : ∀ (s : TxSet) i, ts_exists s i = bool_decide (is_Some (ts_find s i));
  ts_id_inj : ∀ (s s' : TxSet) i, ts_id s = ts_id s' → ts_exists s i = ts_exists s' i;
  ts_compare_spec : ∀ (s s' : TxSet) i,
    ts_compare s s' !! i =
    if bool_decide (ts_exists s i = ts_exists s' i) then None else Some (ts_exists s i);
  ts_exists_insert : ∀ (s : TxSet) t i,
    ts_exists (ts_insert t s) i = bool_decide (i = tx_id t) || ts_exists s i;
  ts_exists_erase : ∀ (s : TxSet) j i,
    ts_exists (ts_erase j s) i = negb (bool_decide (i = j)) && ts_exists s i;
}.

(** [RCLTxSet]: a map from transaction IDs to transactions, identified by the
    hash of its contents. *)
Module RCLTxSet.
Record RCLCxTx := mkTx { key : Z; data : Z }.

Section rcl.
  (** The root hash of a SHAMap. *)
  Variable root_hash : gmap Z Z → Z.

Definition exists_ (m : gmap Z Z) (entry : Z) : bool := bool_decide (is_Some (m !! entry)).
Definition find (m : gmap Z Z) (entry : Z) : option RCLCxTx := mkTx entry <$> m !! entry.
Definition insert (t : RCLCxTx) (m : gmap Z Z) : gmap Z Z :=
  if decide (is_Some (m !! key t)) then m else <[key t := data t]> m.
Definition erase (entry : Z) (m : gmap Z Z) : gmap Z Z := delete entry m.
Definition compare (m m' : gmap Z Z) : gmap Z bool :=
  merge (λ a b, match a, b with
                | Some _, None => Some true
                | None, Some _ => Some false
                | _, _ => None
                end) m m'.

#[local] Instance rcl_like : TxSetLike RCLCxTx (gmap Z Z) := {
  tx_id := key;
  ts_id := root_hash;
  ts_find := find;
  ts_exists := exists_;
  ts_compare := compare;
  ts_insert := insert;
  ts_erase := erase;
}.

  Hypothesis root_hash_inj : ∀ m m', root_hash m = root_hash m' → m = m'.

#[local] Instance rcl_laws : TxSetLaws RCLCxTx (gmap Z Z).
Proof.
  split; simpl.
  - intros s i t. unfold find. destruct (s !! i); simpl; intros [= <-]. done.
  - intros s i. unfold exists_, find. by destruct (s !! i).
  - intros s s' i ->%root_hash_inj. done.
  - intros s s' i. unfold compare, exists_. rewrite lookup_merge.
    by destruct (s !! i), (s' !! i).
  - intros s t i. unfold exists_, insert. destruct (decide (i = key t)) as [->|Hne].
    + rewrite (bool_decide_true (key t = key t)) by done. simpl. apply bool_decide_true.
      case_decide; [done|by rewrite lookup_insert_eq].
    + rewrite (bool_decide_false (i = key t)) by done. simpl.
      case_decide; [done|by rewrite lookup_insert_ne].
  - intros s j i. unfold exists_, erase. destruct (decide (i = j)) as [->|Hne].
    + rewrite (bool_decide_true (j = j)) by done. simpl. rewrite lookup_delete_eq.
      by apply bool_decide_false, is_Some_None.
    + rewrite (bool_decide_false (i = j)) by done. by rewrite lookup_delete_ne.
Qed.
End rcl.

(** An injective fingerprint, to evaluate the models with. *)
Definition fingerprint (m : gmap Z Z) : Z := Zpos (encode m).

Lemma fingerprint_inj m m' : fingerprint m = fingerprint m' → m = m'.
Proof. unfold fingerprint. intros [= Heq]. by apply (inj encode) in Heq. Qed.

#[export] Instance sample_like : TxSetLike RCLCxTx (gmap Z Z) := rcl_like fingerprint.
#[export] Instance sample_laws : TxSetLaws RCLCxTx (gmap Z Z) :=
  rcl_laws fingerprint fingerprint_inj.
End RCLTxSet.

(** ** Disputed transactions *)
Record DisputedTx (Tx : Type) := mkDispute {
  yays_ : Z;
  nays_ : Z;
  ourVote_ : bool;
  tx_ : Tx;
  votes_ : gmap Z bool;
}.
Arguments mkDispute {Tx} _ _ _ _ _.
Arguments yays_ {Tx} _.
Arguments nays_ {Tx} _.
Arguments ourVote_ {Tx} _.
Arguments tx_ {Tx} _.
Arguments votes_ {Tx} _.

Section disputes.
  Context {Tx : Type}.
  Implicit Types d : DisputedTx Tx.

Definition new_dispute (tx : Tx) (ourVote : bool) : DisputedTx Tx :=
  mkDispute 0 0 ourVote tx ∅.

Definition setVote (peer : Z) (votesYes : bool) d : DisputedTx Tx :=
  match votes_ d !! peer with
  | None =>
    let votes := <[peer := votesYes]> (votes_ d) in
    if votesYes then mkDispute (yays_ d + 1) (nays_ d) (ourVote_ d) (tx_ d) votes
    else mkDispute (yays_ d) (nays_ d + 1) (ourVote_ d) (tx_ d) votes
  | Some old =>
    if votesYes && negb old then
      mkDispute (yays_ d + 1) (nays_ d - 1) (ourVote_ d) (tx_ d) (<[peer := true]> (votes_ d))
    else if negb votesYes && old then
      mkDispute (yays_ d - 1) (nays_ d + 1) (ourVote_ d) (tx_ d) (<[peer := false]> (votes_ d))
    else d
  end.

Definition unVote (peer : Z) d : DisputedTx Tx :=
  match votes_ d !! peer with
  | Some true =>
    mkDispute (yays_ d - 1) (nays_ d) (ourVote_ d) (tx_ d) (delete peer (votes_ d))
  | Some false =>
    mkDispute (yays_ d) (nays_ d - 1) (ourVote_ d) (tx_ d) (delete peer (votes_ d))
  | None => d
  end.

(** The vote the thresholds ask for.  A comparison of an [int] with a [size_t]
    parameter is unsigned. *)
Definition newPosition (percentTime : Z) (proposing : bool) (p : ConsensusParms) d : bool :=
  if proposing then
    let weight :=
      Z.quot (yays_ d * 100 + if ourVote_ d then 100 else 0) (nays_ d + yays_ d + 1) in
    if u64 percentTime <? avMID_CONSENSUS_TIME p then avINIT_CONSENSUS_PCT p <? u64 weight
    else if u64 percentTime <? avLATE_CONSENSUS_TIME p then avMID_CONSENSUS_PCT p <? u64 weight
    else if u64 percentTime <? avSTUCK_CONSENSUS_TIME p then avLATE_CONSENSUS_PCT p <? u64 weight
    else avSTUCK_CONSENSUS_PCT p <? u64 weight
  else nays_ d <? yays_ d.

Definition updateVote (percentTime : Z) (proposing : bool) (p : ConsensusParms) d :
    DisputedTx Tx * bool :=
  if ourVote_ d && (nays_ d =? 0) then (d, false)
  else if negb (ourVote_ d) && (yays_ d =? 0) then (d, false)
  else
    let new := newPosition percentTime proposing p d in
    if Bool.eqb new (ourVote_ d) then (d, false)
    else (mkDispute (yays_ d) (nays_ d) new (tx_ d) (votes_ d), true).

(** ** The counts are those of the votes *)
Definition count_votes (b : bool) (m : gmap Z bool) : Z :=
  Z.of_nat (size (filter (λ x, x.2 = b) m)).

Record dispute_ok d : Prop := {
  do_yays : yays_ d = count_votes true (votes_ d);
  do_nays : nays_ d = count_votes false (votes_ d);
}.

Lemma count_votes_empty b : count_votes b ∅ = 0.
Proof. unfold count_votes. by rewrite map_filter_empty, map_size_empty. Qed.

Lemma count_votes_insert b c n m :
  m !! n = None → count_votes b (<[n := c]> m) = count_votes b m + if Bool.eqb c b then 1 else 0.
Proof.
  intros Hn. unfold count_votes. destruct (Bool.eqb_spec c b).
  - rewrite map_filter_insert_True by done.
    rewrite map_size_insert_None; [lia|]. apply map_lookup_filter_None. by left.
  - rewrite map_filter_insert_False by done. rewrite delete_id by done. lia.
Qed.

Lemma count_votes_delete b c n m :
  m !! n = Some c → count_votes b (delete n m) = count_votes b m - if Bool.eqb c b then 1 else 0.
Proof.
  intros Hn. rewrite <- (insert_delete_id m n c Hn) at 2.
  rewrite count_votes_insert by apply lookup_delete_eq. lia.
Qed.

Lemma count_votes_replace b c c' n m :
  m !! n = Some c →
  count_votes b (<[n := c']> m) =
  count_votes b m - (if Bool.eqb c b then 1 else 0) + (if Bool.eqb c' b then 1 else 0).
Proof.
  intros Hn. rewrite <- insert_delete_eq, count_votes_insert by apply lookup_delete_eq.
  by rewrite (count_votes_delete b c).
Qed.

Lemma new_dispute_ok tx b : dispute_ok (new_dispute tx b).
Proof. split; simpl; by rewrite count_votes_empty. Qed.

(** [setVote] and [unVote] on the map of votes. *)
Lemma setVote_spec n b d :
  dispute_ok d → dispute_ok (setVote n b d) ∧
  votes_ (setVote n b d) = <[n := b]> (votes_ d) ∧
  ourVote_ (setVote n b d) = ourVote_ d ∧ tx_ (setVote n b d) = tx_ d.
Proof.
  intros [Hy Hn]. unfold setVote. destruct (votes_ d !! n) as [old|] eqn:Ev.
  - destruct b, old; simpl; (split; [split; simpl; rewrite ?(count_votes_replace _ _ _ _ _ Ev);
      simpl; lia|]); split_and!; try done; by rewrite insert_id.
  - destruct b; simpl; (split; [split; simpl; rewrite ?count_votes_insert by done; simpl; lia|]);
      done.
Qed.

Lemma unVote_spec n d :
  dispute_ok d → dispute_ok (unVote n d) ∧
  votes_ (unVote n d) = delete n (votes_ d) ∧
  ourVote_ (unVote n d) = ourVote_ d ∧ tx_ (unVote n d) = tx_ d.
Proof.
  intros [Hy Hn]. unfold unVote. destruct (votes_ d !! n) as [[]|] eqn:Ev; simpl.
  - split; [split; simpl; rewrite (count_votes_delete _ _ _ _ Ev); simpl; lia|done].
  - split; [split; simpl; rewrite (count_votes_delete _ _ _ _ Ev); simpl; lia|done].
  - split; [by split|]. by rewrite delete_id.
Qed.

Lemma updateVote_ok t b p d :
  dispute_ok d → dispute_ok (updateVote t b p d).1 ∧
  votes_ (updateVote t b p d).1 = votes_ d ∧ tx_ (updateVote t b p d).1 = tx_ d ∧
  ourVote_ (updateVote t b p d).1 =
    (if (updateVote t b p d).2 then negb (ourVote_ d) else ourVote_ d).
Proof.
  intros [Hy Hn]. unfold updateVote. repeat case_match; simpl; split_and!; try done; try by split.
  destruct (newPosition t b p d), (ourVote_ d); done.
Qed.
End disputes.
