(* ===== verification/ConsensusState.v ===== *)
(** * State of the consensus state machine

    The data of src/src/ripple/consensus/Consensus.h and ConsensusTypes.h: the
    state record of [Consensus], the answers of its adaptor, what it sends to
    the adaptor, and the monad its operations are written in.

    The adaptor is a template parameter of the source.  Its answers during one
    call are the record [Env]; its notifications are appended to [events].  The
    iteration order of hash maps is left to [map_to_list]. *)

From stdpp Require Import prelude gmap.
From Stdlib Require Import ZArith Lia.
From S2P Require Import Prelude.
From S2P Require Import LedgerTiming.
From S2P Require Import Disputes.

Inductive ConsensusMode := proposing | observing | wrongLedger | switchedLedger.
Inductive ConsensusPhase := ph_open | ph_establish | ph_accepted.

#[export] Instance ConsensusMode_eq_dec : EqDecision ConsensusMode.
Proof. solve_decision. Defined.
#[export] Instance ConsensusPhase_eq_dec : EqDecision ConsensusPhase.
Proof. solve_decision. Defined.

(** [ConsensusTimer]: the start is in nanoseconds of the steady clock, the
    duration in milliseconds. *)
Record ConsensusTimer := mkTimer { tm_start : Z; tm_dur : Z }.
Definition timer_read (t : ConsensusTimer) : Z := tm_dur t.
Definition timer_tick_fixed (fixed : Z) (t : ConsensusTimer) : ConsensusTimer :=
  mkTimer (tm_start t) (tm_dur t + fixed).
Definition timer_reset (tp : Z) (t : ConsensusTimer) : ConsensusTimer := mkTimer tp 0.
Definition timer_tick (tp : Z) (t : ConsensusTimer) : ConsensusTimer :=
  mkTimer (tm_start t) (Z.quot (tp - tm_start t) 1000000).

(** What Consensus.h reads of a ledger. *)
Record Ledger := mkLedger {
  lg_id : Z;
  lg_seq : Z;
  lg_closeTime : Z;
  lg_closeAgree : bool;
  lg_closeTimeResolution : Z;
  lg_parentCloseTime : Z;
}.

Record ConsensusResult (Tx TxSet : Type) := mkResult {
  r_txns : TxSet;
  r_position : ConsensusProposal;
  r_disputes : gmap Z (DisputedTx Tx);
  r_compares : gset Z;
  r_roundTime : ConsensusTimer;
  r_state : ConsensusState;
  r_proposers : Z;
}.
Arguments mkResult {Tx TxSet} _ _ _ _ _ _ _.
Arguments r_txns {Tx TxSet} _.
Arguments r_position {Tx TxSet} _.
Arguments r_disputes {Tx TxSet} _.
Arguments r_compares {Tx TxSet} _.
Arguments r_roundTime {Tx TxSet} _.
Arguments r_state {Tx TxSet} _.
Arguments r_proposers {Tx TxSet} _.

(** What the adaptor is told: mode changes, what to send to peers, and the
    accepted result with the previous ledger, the close resolution, the close
    times of the peers and our own, and the mode. *)
Inductive event (Tx TxSet : Type) :=
  | ev_modeChange (before after : ConsensusMode)
  | ev_sharePosition (p : ConsensusProposal)
  | ev_shareTxSet (s : TxSet)
  | ev_shareTx (t : Tx)
  | ev_propose (p : ConsensusProposal)
  | ev_accept (r : ConsensusResult Tx TxSet) (prev : Ledger) (resolution : Z)
      (rawPeers : gmap Z Z) (rawSelf : Z) (mode : ConsensusMode)
  | ev_forceAccept (r : ConsensusResult Tx TxSet) (prev : Ledger) (resolution : Z)
      (rawPeers : gmap Z Z) (rawSelf : Z) (mode : ConsensusMode).
Arguments ev_modeChange {Tx TxSet} _ _.
Arguments ev_sharePosition {Tx TxSet} _.
Arguments ev_shareTxSet {Tx TxSet} _.
Arguments ev_shareTx {Tx TxSet} _.
Arguments ev_propose {Tx TxSet} _.
Arguments ev_accept {Tx TxSet} _ _ _ _ _ _.
Arguments ev_forceAccept {Tx TxSet} _ _ _ _ _ _.

Record CState (Tx TxSet : Type) := mkC {
  phase_ : ConsensusPhase;
  mode_ : ConsensusMode;
  firstRound_ : bool;
  haveCloseTimeConsensus_ : bool;
  convergePercent_ : Z;
  openTime_ : ConsensusTimer;
  closeResolution_ : Z;
  prevRoundTime_ : Z;
  now_ : Z;
  prevCloseTime_ : Z;
  prevLedgerID_ : Z;
  previousLedger_ : Ledger;
  acquired_ : gmap Z TxSet;
  result_ : option (ConsensusResult Tx TxSet);
  rawPeers_ : gmap Z Z;
  rawSelf_ : Z;
  currPeerPositions_ : gmap Z ConsensusProposal;
  recentPeerPositions_ : gmap Z (list ConsensusProposal);
  prevProposers_ : Z;
  deadNodes_ : gset Z;
  events : list (event Tx TxSet);
}.
Arguments mkC {Tx TxSet} _ _ _ _ _ _ _ _ _ _ _ _ _ _ _ _ _ _ _ _ _.
Arguments phase_ {Tx TxSet} _.
Arguments mode_ {Tx TxSet} _.
Arguments firstRound_ {Tx TxSet} _.
Arguments haveCloseTimeConsensus_ {Tx TxSet} _.
Arguments convergePercent_ {Tx TxSet} _.
Arguments openTime_ {Tx TxSet} _.
Arguments closeResolution_ {Tx TxSet} _.
Arguments prevRoundTime_ {Tx TxSet} _.
Arguments now_ {Tx TxSet} _.
Arguments prevCloseTime_ {Tx TxSet} _.
Arguments prevLedgerID_ {Tx TxSet} _.
Arguments previousLedger_ {Tx TxSet} _.
Arguments acquired_ {Tx TxSet} _.
Arguments result_ {Tx TxSet} _.
Arguments rawPeers_ {Tx TxSet} _.
Arguments rawSelf_ {Tx TxSet} _.
Arguments currPeerPositions_ {Tx TxSet} _.
Arguments recentPeerPositions_ {Tx TxSet} _.
Arguments prevProposers_ {Tx TxSet} _.
Arguments deadNodes_ {Tx TxSet} _.
Arguments events {Tx TxSet} _.

(** The adaptor's answers during a call. *)
Record Env (TxSet : Type) := mkEnv {
  e_clock : Z;
  e_parms : ConsensusParms;
  e_acquireLedger : Z → option Ledger;
  e_acquireTxSet : Z → option TxSet;
  e_hasOpenTransactions : bool;
  e_proposersValidated : Z → Z;
  e_proposersFinished : Ledger → Z → Z;
  e_getPrevLedger : Z → Ledger → ConsensusMode → Z;
  e_onClose : Ledger → Z → ConsensusMode → TxSet * ConsensusProposal;
  e_getValidLedgerIndex : Z;
  e_getQuorumKeys : Z * gset Z;
  e_laggards : Z → gset Z → Z * gset Z;
  e_validator : bool;
  e_haveValidated : bool;
}.
Arguments e_clock {TxSet} _.
Arguments e_parms {TxSet} _.
Arguments e_acquireLedger {TxSet} _.
Arguments e_acquireTxSet {TxSet} _.
Arguments e_hasOpenTransactions {TxSet} _.
Arguments e_proposersValidated {TxSet} _.
Arguments e_proposersFinished {TxSet} _.
Arguments e_getPrevLedger {TxSet} _.
Arguments e_onClose {TxSet} _.
Arguments e_getValidLedgerIndex {TxSet} _.
Arguments e_getQuorumKeys {TxSet} _.
Arguments e_laggards {TxSet} _.
Arguments e_validator {TxSet} _.
Arguments e_haveValidated {TxSet} _.

(** ** Field updates *)
Section setters.
  Context {Tx TxSet : Type}.
  Implicit Types (s : CState Tx TxSet) (r : ConsensusResult Tx TxSet).

Definition set_phase (x : ConsensusPhase) s : CState Tx TxSet :=
  mkC
    x (mode_ s) (firstRound_ s) (haveCloseTimeConsensus_ s) (convergePercent_ s) (openTime_ s)
    (closeResolution_ s) (prevRoundTime_ s) (now_ s) (prevCloseTime_ s) (prevLedgerID_ s)
    (previousLedger_ s) (acquired_ s) (result_ s) (rawPeers_ s) (rawSelf_ s)
    (currPeerPositions_ s) (recentPeerPositions_ s) (prevProposers_ s) (deadNodes_ s) (events s).
Definition set_mode (x : ConsensusMode) s : CState Tx TxSet :=
  mkC
    (phase_ s) x (firstRound_ s) (haveCloseTimeConsensus_ s) (convergePercent_ s) (openTime_ s)
    (closeResolution_ s) (prevRoundTime_ s) (now_ s) (prevCloseTime_ s) (prevLedgerID_ s)
    (previousLedger_ s) (acquired_ s) (result_ s) (rawPeers_ s) (rawSelf_ s)
    (currPeerPositions_ s) (recentPeerPositions_ s) (prevProposers_ s) (deadNodes_ s) (events s).
Definition set_firstRound (x : bool) s : CState Tx TxSet :=
  mkC
    (phase_ s) (mode_ s) x (haveCloseTimeConsensus_ s) (convergePercent_ s) (openTime_ s)
    (closeResolution_ s) (prevRoundTime_ s) (now_ s) (prevCloseTime_ s) (prevLedgerID_ s)
    (previousLedger_ s) (acquired_ s) (result_ s) (rawPeers_ s) (rawSelf_ s)
    (currPeerPositions_ s) (recentPeerPositions_ s) (prevProposers_ s) (deadNodes_ s) (events s).
Definition set_haveCloseTimeConsensus (x : bool) s : CState Tx TxSet :=
  mkC
    (phase_ s) (mode_ s) (firstRound_ s) x (convergePercent_ s) (openTime_ s)
    (closeResolution_ s) (prevRoundTime_ s) (now_ s) (prevCloseTime_ s) (prevLedgerID_ s)
    (previousLedger_ s) (acquired_ s) (result_ s) (rawPeers_ s) (rawSelf_ s)
    (currPeerPositions_ s) (recentPeerPositions_ s) (prevProposers_ s) (deadNodes_ s) (events s).
Definition set_convergePercent (x : Z) s : CState Tx TxSet :=
  mkC
    (phase_ s) (mode_ s) (firstRound_ s) (haveCloseTimeConsensus_ s) x (openTime_ s)
    (closeResolution_ s) (prevRoundTime_ s) (now_ s) (prevCloseTime_ s) (prevLedgerID_ s)
    (previousLedger_ s) (acquired_ s) (result_ s) (rawPeers_ s) (rawSelf_ s)
    (currPeerPositions_ s) (recentPeerPositions_ s) (prevProposers_ s) (deadNodes_ s) (events s).
Definition set_openTime (x : ConsensusTimer) s : CState Tx TxSet :=
  mkC
    (phase_ s) (mode_ s) (firstRound_ s) (haveCloseTimeConsensus_ s) (convergePercent_ s) x
    (closeResolution_ s) (prevRoundTime_ s) (now_ s) (prevCloseTime_ s) (prevLedgerID_ s)
    (previousLedger_ s) (acquired_ s) (result_ s) (rawPeers_ s) (rawSelf_ s)
    (currPeerPositions_ s) (recentPeerPositions_ s) (prevProposers_ s) (deadNodes_ s) (events s).
Definition set_closeResolution (x : Z) s : CState Tx TxSet :=
  mkC
    (phase_ s) (mode_ s) (firstRound_ s) (haveCloseTimeConsensus_ s) (convergePercent_ s)
    (openTime_ s) x (prevRoundTime_ s) (now_ s) (prevCloseTime_ s) (prevLedgerID_ s)
    (previousLedger_ s) (acquired_ s) (result_ s) (rawPeers_ s) (rawSelf_ s)
    (currPeerPositions_ s) (recentPeerPositions_ s) (prevProposers_ s) (deadNodes_ s) (events s).
Definition set_prevRoundTime (x : Z) s : CState Tx TxSet :=
  mkC
    (phase_ s) (mode_ s) (firstRound_ s) (haveCloseTimeConsensus_ s) (convergePercent_ s)
    (openTime_ s) (closeResolution_ s) x (now_ s) (prevCloseTime_ s) (prevLedgerID_ s)
    (previousLedger_ s) (acquired_ s) (result_ s) (rawPeers_ s) (rawSelf_ s)
    (currPeerPositions_ s) (recentPeerPositions_ s) (prevProposers_ s) (deadNodes_ s) (events s).
Definition set_now (x : Z) s : CState Tx TxSet :=
  mkC
    (phase_ s) (mode_ s) (firstRound_ s) (haveCloseTimeConsensus_ s) (convergePercent_ s)
    (openTime_ s) (closeResolution_ s) (prevRoundTime_ s) x (prevCloseTime_ s) (prevLedgerID_ s)
    (previousLedger_ s) (acquired_ s) (result_ s) (rawPeers_ s) (rawSelf_ s)
    (currPeerPositions_ s) (recentPeerPositions_ s) (prevProposers_ s) (deadNodes_ s) (events s).
Definition set_prevCloseTime (x : Z) s : CState Tx TxSet :=
  mkC
    (phase_ s) (mode_ s) (firstRound_ s) (haveCloseTimeConsensus_ s) (convergePercent_ s)
    (openTime_ s) (closeResolution_ s) (prevRoundTime_ s) (now_ s) x (prevLedgerID_ s)
    (previousLedger_ s) (acquired_ s) (result_ s) (rawPeers_ s) (rawSelf_ s)
    (currPeerPositions_ s) (recentPeerPositions_ s) (prevProposers_ s) (deadNodes_ s) (events s).
Definition set_prevLedgerID (x : Z) s : CState Tx TxSet :=
  mkC
    (phase_ s) (mode_ s) (firstRound_ s) (haveCloseTimeConsensus_ s) (convergePercent_ s)
    (openTime_ s) (closeResolution_ s) (prevRoundTime_ s) (now_ s) (prevCloseTime_ s) x
    (previousLedger_ s) (acquired_ s) (result_ s) (rawPeers_ s) (rawSelf_ s)
    (currPeerPositions_ s) (recentPeerPositions_ s) (prevProposers_ s) (deadNodes_ s) (events s).
Definition set_previousLedger (x : Ledger) s : CState Tx TxSet :=
  mkC
    (phase_ s) (mode_ s) (firstRound_ s) (haveCloseTimeConsensus_ s) (convergePercent_ s)
    (openTime_ s) (closeResolution_ s) (prevRoundTime_ s) (now_ s) (prevCloseTime_ s)
    (prevLedgerID_ s) x (acquired_ s) (result_ s) (rawPeers_ s) (rawSelf_ s)
    (currPeerPositions_ s) (recentPeerPositions_ s) (prevProposers_ s) (deadNodes_ s) (events s).
Definition set_acquired (x : gmap Z TxSet) s : CState Tx TxSet :=
  mkC
    (phase_ s) (mode_ s) (firstRound_ s) (haveCloseTimeConsensus_ s) (convergePercent_ s)
    (openTime_ s) (closeResolution_ s) (prevRoundTime_ s) (now_ s) (prevCloseTime_ s)
    (prevLedgerID_ s) (previousLedger_ s) x (result_ s) (rawPeers_ s) (rawSelf_ s)
    (currPeerPositions_ s) (recentPeerPositions_ s) (prevProposers_ s) (deadNodes_ s) (events s).
Definition set_result (x : option (ConsensusResult Tx TxSet)) s : CState Tx TxSet :=
  mkC
    (phase_ s) (mode_ s) (firstRound_ s) (haveCloseTimeConsensus_ s) (convergePercent_ s)
    (openTime_ s) (closeResolution_ s) (prevRoundTime_ s) (now_ s) (prevCloseTime_ s)
    (prevLedgerID_ s) (previousLedger_ s) (acquired_ s) x (rawPeers_ s) (rawSelf_ s)
    (currPeerPositions_ s) (recentPeerPositions_ s) (prevProposers_ s) (deadNodes_ s) (events s).
Definition set_rawPeers (x : gmap Z Z) s : CState Tx TxSet :=
  mkC
    (phase_ s) (mode_ s) (firstRound_ s) (haveCloseTimeConsensus_ s) (convergePercent_ s)
    (openTime_ s) (closeResolution_ s) (prevRoundTime_ s) (now_ s) (prevCloseTime_ s)
    (prevLedgerID_ s) (previousLedger_ s) (acquired_ s) (result_ s) x (rawSelf_ s)
    (currPeerPositions_ s) (recentPeerPositions_ s) (prevProposers_ s) (deadNodes_ s) (events s).
Definition set_rawSelf (x : Z) s : CState Tx TxSet :=
  mkC
    (phase_ s) (mode_ s) (firstRound_ s) (haveCloseTimeConsensus_ s) (convergePercent_ s)
    (openTime_ s) (closeResolution_ s) (prevRoundTime_ s) (now_ s) (prevCloseTime_ s)
    (prevLedgerID_ s) (previousLedger_ s) (acquired_ s) (result_ s) (rawPeers_ s) x
    (currPeerPositions_ s) (recentPeerPositions_ s) (prevProposers_ s) (deadNodes_ s) (events s).
Definition set_currPeerPositions (x : gmap Z ConsensusProposal) s : CState Tx TxSet :=
  mkC
    (phase_ s) (mode_ s) (firstRound_ s) (haveCloseTimeConsensus_ s) (convergePercent_ s)
    (openTime_ s) (closeResolution_ s) (prevRoundTime_ s) (now_ s) (prevCloseTime_ s)
    (prevLedgerID_ s) (previousLedger_ s) (acquired_ s) (result_ s) (rawPeers_ s) (rawSelf_ s) x
    (recentPeerPositions_ s) (prevProposers_ s) (deadNodes_ s) (events s).
Definition set_recentPeerPositions (x : gmap Z (list ConsensusProposal)) s : CState Tx TxSet :=
  mkC
    (phase_ s) (mode_ s) (firstRound_ s) (haveCloseTimeConsensus_ s) (convergePercent_ s)
    (openTime_ s) (closeResolution_ s) (prevRoundTime_ s) (now_ s) (prevCloseTime_ s)
    (prevLedgerID_ s) (previousLedger_ s) (acquired_ s) (result_ s) (rawPeers_ s) (rawSelf_ s)
    (currPeerPositions_ s) x (prevProposers_ s) (deadNodes_ s) (events s).
Definition set_prevProposers (x : Z) s : CState Tx TxSet :=
  mkC
    (phase_ s) (mode_ s) (firstRound_ s) (haveCloseTimeConsensus_ s) (convergePercent_ s)
    (openTime_ s) (closeResolution_ s) (prevRoundTime_ s) (now_ s) (prevCloseTime_ s)
    (prevLedgerID_ s) (previousLedger_ s) (acquired_ s) (result_ s) (rawPeers_ s) (rawSelf_ s)
    (currPeerPositions_ s) (recentPeerPositions_ s) x (deadNodes_ s) (events s).
Definition set_deadNodes (x : gset Z) s : CState Tx TxSet :=
  mkC
    (phase_ s) (mode_ s) (firstRound_ s) (haveCloseTimeConsensus_ s) (convergePercent_ s)
    (openTime_ s) (closeResolution_ s) (prevRoundTime_ s) (now_ s) (prevCloseTime_ s)
    (prevLedgerID_ s) (previousLedger_ s) (acquired_ s) (result_ s) (rawPeers_ s) (rawSelf_ s)
    (currPeerPositions_ s) (recentPeerPositions_ s) (prevProposers_ s) x (events s).
Definition set_events (x : list (event Tx TxSet)) s : CState Tx TxSet :=
  mkC
    (phase_ s) (mode_ s) (firstRound_ s) (haveCloseTimeConsensus_ s) (convergePercent_ s)
    (openTime_ s) (closeResolution_ s) (prevRoundTime_ s) (now_ s) (prevCloseTime_ s)
    (prevLedgerID_ s) (previousLedger_ s) (acquired_ s) (result_ s) (rawPeers_ s) (rawSelf_ s)
    (currPeerPositions_ s) (recentPeerPositions_ s) (prevProposers_ s) (deadNodes_ s) x.

Definition set_r_txns (x : TxSet) r : ConsensusResult Tx TxSet :=
  mkResult
    x (r_position r) (r_disputes r) (r_compares r) (r_roundTime r) (r_state r) (r_proposers r).
Definition set_r_position (x : ConsensusProposal) r : ConsensusResult Tx TxSet :=
  mkResult
    (r_txns r) x (r_disputes r) (r_compares r) (r_roundTime r) (r_state r) (r_proposers r).
Definition set_r_disputes (x : gmap Z (DisputedTx Tx)) r : ConsensusResult Tx TxSet :=
  mkResult
    (r_txns r) (r_position r) x (r_compares r) (r_roundTime r) (r_state r) (r_proposers r).
Definition set_r_compares (x : gset Z) r : ConsensusResult Tx TxSet :=
  mkResult
    (r_txns r) (r_position r) (r_disputes r) x (r_roundTime r) (r_state r) (r_proposers r).
Definition set_r_roundTime (x : ConsensusTimer) r : ConsensusResult Tx TxSet :=
  mkResult
    (r_txns r) (r_position r) (r_disputes r) (r_compares r) x (r_state r) (r_proposers r).
Definition set_r_state (x : ConsensusState) r : ConsensusResult Tx TxSet :=
  mkResult
    (r_txns r) (r_position r) (r_disputes r) (r_compares r) (r_roundTime r) x (r_proposers r).
Definition set_r_proposers (x : Z) r : ConsensusResult Tx TxSet :=
  mkResult
    (r_txns r) (r_position r) (r_disputes r) (r_compares r) (r_roundTime r) (r_state r) x.
End setters.

(** ** The monad of the operations

    An operation reads and changes the state.  It fails when the recursion of
    [timerEntry] runs out of fuel ([NoFuel]) and where the source would
    dereference an empty optional or a null pointer ([NoValue]). *)
Inductive outcome (A : Type) := Done (x : A) | NoFuel | NoValue.
Arguments Done {A} _.
Arguments NoFuel {A}.
Arguments NoValue {A}.

Section monad.
  Context {Tx TxSet : Type}.
  Abbreviation State := (CState Tx TxSet).

Definition M (A : Type) : Type := State → outcome (A * State).

#[export] Instance M_ret : MRet M := λ A x s, Done (x, s).
#[export] Instance M_bind : MBind M := λ A B f m s,
  match m s with
  | Done (x, s') => f x s'
  | NoFuel => NoFuel
  | NoValue => NoValue
  end.

Definition gets {A} (f : State → A) : M A := λ s, Done (f s, s).
Definition modify (f : State → State) : M unit := λ s, Done (tt, f s).
Definition emit (ev : event Tx TxSet) : M unit := modify (λ s, set_events (events s ++ [ev]) s).
Definition deref {A} (x : option A) : M A := λ s,
  match x with Some a => Done (a, s) | None => NoValue end.
(** [*result_] *)
Definition getResult : M (ConsensusResult Tx TxSet) := r ← gets result_; deref r.
(** Assignment to a member of [*result_]. *)
Definition modifyResult (f : ConsensusResult Tx TxSet → ConsensusResult Tx TxSet) : M unit :=
  r ← getResult; modify (set_result (Some (f r))).

Fixpoint fold_each {A B} (f : B → A → M B) (b : B) (l : list A) : M B :=
  match l with
  | [] => mret b
  | x :: l => b ← f b x; fold_each f b l
  end.
Definition for_each {A} (l : list A) (f : A → M unit) : M unit := fold_each (λ _ x, f x) tt l.

(** ** Total correctness

    [wp m Q s]: run from [s], [m] does not fail and ends with [Q]. *)
Definition wp {A} (m : M A) (Q : A → State → Prop) (s : State) : Prop :=
  match m s with
  | Done (x, s') => Q x s'
  | NoFuel => False
  | NoValue => False
  end.

Lemma wp_bind {A B} (m : M A) (f : A → M B) Q s :
  wp m (λ x, wp (f x) Q) s → wp (m ≫= f) Q s.
Proof. unfold wp. unfold mbind, M_bind. by destruct (m s) as [[x s']| |]. Qed.

Lemma wp_ret {A} (x : A) Q s : Q x s → wp (mret x) Q s.
Proof. done. Qed.

Lemma wp_mono {A} (m : M A) (P Q : A → State → Prop) s :
  wp m P s → (∀ x s', P x s' → Q x s') → wp m Q s.
Proof. unfold wp. destruct (m s) as [[x s']| |]; auto. Qed.

Lemma wp_modify f (Q : unit → State → Prop) s : Q tt (f s) → wp (modify f) Q s.
Proof. done. Qed.

Lemma wp_gets {A} (f : State → A) Q s : Q (f s) s → wp (gets f) Q s.
Proof. done. Qed.

Lemma wp_getResult Q s r : result_ s = Some r → Q r s → wp getResult Q s.
Proof. intros Hr HQ. unfold wp, getResult, mbind, M_bind, gets. simpl. by rewrite Hr. Qed.

Lemma wp_modifyResult f Q s r :
  result_ s = Some r → Q tt (set_result (Some (f r)) s) → wp (modifyResult f) Q s.
Proof. intros Hr HQ. apply wp_bind. by apply (wp_getResult _ _ r). Qed.

(** Loop invariants. *)
Lemma wp_fold_each {A B} (I : list A → B → State → Prop) (f : B → A → M B) b l s :
  I [] b s →
  (∀ done x todo b s, l = done ++ x :: todo → I done b s → wp (f b x) (I (done ++ [x])) s) →
  wp (fold_each f b l) (I l) s.
Proof.
  intros H0 Hstep.
  assert (∀ done todo b s, l = done ++ todo → I done b s → wp (fold_each f b todo) (I l) s)
    as Hloop; [|by apply (Hloop [])].
  intros done todo. revert done. induction todo as [|x todo IH]; intros done b' s' Hl HI; simpl.
  { rewrite app_nil_r in Hl. by subst done. }
  apply wp_bind. eapply wp_mono; [by eapply Hstep|]. intros b'' s'' HI'.
  apply (IH (done ++ [x])); [by rewrite <- (assoc_L (++))|done].
Qed.

(** The case where the invariant does not mention the progress. *)
Lemma wp_for_each {A} (I : State → Prop) (l : list A) f s :
  I s → (∀ x s, x ∈ l → I s → wp (f x) (λ _, I) s) → wp (for_each l f) (λ _, I) s.
Proof.
  intros H0 Hstep. apply (wp_fold_each (λ _ _, I)); [done|].
  intros done x todo [] s' Hl HI. apply Hstep; [|done]. rewrite Hl. set_solver.
Qed.
End monad.
Arguments M Tx TxSet A : clear implicits.
