(* ===== verification/Consensus.v ===== *)
(** * The consensus state machine of src/src/ripple/consensus/Consensus.h

    One definition per member function, in the monad of ConsensusState.v.  The
    assertions of the source are not part of the operations: they are theorems
    (ConsensusSpec.v).  Logging and JSON are left out.

    [startRoundInternal], [timerEntry], [checkLedger] and [handleWrongLedger]
    call each other; the first three are written over the call of [timerEntry]
    they make, and [timerEntry] recurses on fuel. *)

From stdpp Require Import prelude gmap sorting.
From Stdlib Require Import ZArith Lia SpecFloat.
From S2P Require Import Prelude.
From S2P Require Import LedgerTiming.
From S2P Require Import Disputes.
From S2P Require Import ConsensusState.

(** ** Single precision floats *)
Definition f32_of (n : Z) : spec_float := binary_normalize 24 128 n 0 false.
Definition f32_div (a b : spec_float) : spec_float := SFdiv 24 128 a b.
Definition f32_sub (a b : spec_float) : spec_float := SFsub 24 128 a b.
Definition f32_add (a b : spec_float) : spec_float := SFadd 24 128 a b.
Definition f32_mul (a b : spec_float) : spec_float := SFmul 24 128 a b.
Definition f32_lt := SFltb.
Arguments f32_of _ : simpl never.
Arguments f32_div _ _ : simpl never.
Arguments f32_sub _ _ : simpl never.
Arguments f32_add _ _ : simpl never.
Arguments f32_mul _ _ : simpl never.

(** [static_cast<int>] of a wider value. *)
Definition s32 (z : Z) : Z := (z + 2 ^ 31) mod 2 ^ 32 - 2 ^ 31.

(** The decision of [shouldPause], from what it reads. *)
Definition pauseDecision (ahead laggards offline totalValidators quorum : Z)
    (validator haveValidated : bool) (roundTime maxConsensus : Z) : bool :=
  if (ahead =? 0) || (laggards =? 0) || (totalValidators =? 0) || negb validator ||
     negb haveValidated || (maxConsensus <? roundTime)
  then false
  else
    let maxPausePhase := 4 in
    let phase := u32 (ahead - 1) mod (maxPausePhase + 1) in
    if phase =? 0 then u64 (totalValidators - quorum) <? u64 (laggards + offline)
    else if phase =? maxPausePhase then true
    else
      let nonLaggards := f32_of (u64 (totalValidators - u64 (laggards + offline))) in
      let quorumRatio := f32_div (f32_of quorum) (f32_of totalValidators) in
      let allowedDissent := f32_sub (f32_of 1) quorumRatio in
      let phaseFactor := f32_div (f32_of phase) (f32_of maxPausePhase) in
      f32_lt (f32_div nonLaggards (f32_of totalValidators))
             (f32_add quorumRatio (f32_mul allowedDissent phaseFactor)).

(** One step of the count of close times: a time with at least as many votes as
    the best so far takes its place. *)
Definition closeTime_step (threshConsensus : Z) (st : Z * Z * bool) (v : Z * Z) : Z * Z * bool :=
  let '(threshVote, consensusCloseTime, have) := st in
  let '(t, n) := v in
  if threshVote <=? n then (n, t, if threshConsensus <=? n then true else have)
  else st.

(** The entries of a [std::map], in the order of its keys. *)
Definition key_le (a b : Z * Z) : Prop := a.1 ≤ b.1.
#[export] Instance key_le_dec a b : Decision (key_le a b).
Proof. unfold key_le. apply _. Defined.
#[export] Instance key_le_total : Total key_le.
Proof. intros a b. unfold key_le. lia. Qed.
#[export] Instance key_le_trans : Transitive key_le.
Proof. intros a b c. unfold key_le. lia. Qed.
Definition sorted_entries (m : gmap Z Z) : list (Z * Z) := merge_sort key_le (map_to_list m).

(** [++m[k]] *)
Definition count_in (k : Z) (m : gmap Z Z) : gmap Z Z := <[k := default 0 (m !! k) + 1]> m.

(** [neededWeight] of [updateOurPositions]. *)
Definition neededWeight (p : ConsensusParms) (convergePercent : Z) : Z :=
  if u64 convergePercent <? avMID_CONSENSUS_TIME p then avINIT_CONSENSUS_PCT p
  else if u64 convergePercent <? avLATE_CONSENSUS_TIME p then avMID_CONSENSUS_PCT p
  else if u64 convergePercent <? avSTUCK_CONSENSUS_TIME p then avLATE_CONSENSUS_PCT p
  else avSTUCK_CONSENSUS_PCT p.

Section consensus.
  Context {Tx TxSet : Type} `{TxSetLike Tx TxSet}.
  Abbreviation State := (CState Tx TxSet).
  Abbreviation op := (M Tx TxSet).
  Implicit Types (e : Env TxSet) (s : State) (r : ConsensusResult Tx TxSet).

(** [Consensus::Consensus].  The members the source leaves uninitialised are
    arguments. *)
Definition new_consensus (noLedger : Ledger) (noID junkRound junkOpen : Z) : State :=
  mkC ph_accepted observing true false 0 (mkTimer 0 junkOpen) ledgerDefaultTimeResolution
    junkRound 0 0 noID noLedger ∅ None ∅ 0 ∅ ∅ 0 ∅ [].

(** [MonitoredMode::set]. *)
Definition setMode (m : ConsensusMode) : op unit :=
  old ← gets mode_; emit (ev_modeChange old m);; modify (set_mode m).

Definition asCloseTime e (raw : Z) s : Z :=
  if useRoundedCloseTime (e_parms e) then roundCloseTime raw (closeResolution_ s)
  else effCloseTime raw (closeResolution_ s) (lg_closeTime (previousLedger_ s)).

(** ** Disputes *)

(** The vote of one peer on a transaction, when its position is known. *)
Definition peer_vote (acquired : gmap Z TxSet) (txID : Z) (d : DisputedTx Tx)
    (x : Z * ConsensusProposal) : DisputedTx Tx :=
  let '(peer, prop) := x in
  match acquired !! position prop with
  | Some set => setVote peer (ts_exists set txID) d
  | None => d
  end.

Definition peer_votes (curr : gmap Z ConsensusProposal) (acquired : gmap Z TxSet) (txID : Z)
    (d : DisputedTx Tx) : DisputedTx Tx :=
  foldl (peer_vote acquired txID) d (map_to_list curr).

(** The body of the loop of [createDisputes]: one difference. *)
Definition dispute_one (o : TxSet) (x : Z * bool) : op unit :=
  let '(id, ours) := x in
  r ← getResult;
  tx ← deref (if (ours : bool) then ts_find (r_txns r) id else ts_find o id);
  let txID := tx_id tx in
  match r_disputes r !! txID with
  | Some _ => mret tt
  | None =>
    s ← gets (λ s, s);
    let dtx := peer_votes (currPeerPositions_ s) (acquired_ s) txID
                 (new_dispute tx (ts_exists (r_txns r) txID)) in
    emit (ev_shareTx tx);;
    modifyResult (λ r, set_r_disputes (<[txID := dtx]> (r_disputes r)) r)
  end.

Definition createDisputes (o : TxSet) : op unit :=
  r ← getResult;
  if decide (ts_id o ∈ r_compares r) then mret tt
  else
    modifyResult (λ r, set_r_compares ({[ts_id o]} ∪ r_compares r) r);;
    if ts_id (r_txns r) =? ts_id o then mret tt
    else for_each (map_to_list (ts_compare (r_txns r) o)) (dispute_one o).

Definition updateDisputes (node : Z) (other : TxSet) : op unit :=
  r ← getResult;
  (if decide (ts_id other ∈ r_compares r) then mret tt else createDisputes other);;
  modifyResult (λ r,
    set_r_disputes ((λ d, setVote node (ts_exists other (tx_id (tx_ d))) d) <$> r_disputes r) r).

(** Forget a peer's votes on all disputes. *)
Definition unVoteAll (peerID : Z) r : ConsensusResult Tx TxSet :=
  set_r_disputes (unVote peerID <$> r_disputes r) r.

Definition leaveConsensus : op unit :=
  s ← gets (λ s, s);
  if decide (mode_ s = proposing) then
    (match result_ s with
     | Some r =>
       if isBowOut (r_position r) then mret tt
       else
         let pos := bowOut (now_ s) (r_position r) in
         modifyResult (set_r_position pos);; emit (ev_propose pos)
     | None => mret tt
     end);;
    setMode observing
  else mret tt.

(** ** Positions of peers *)
Definition gotTxSet (now : Z) (txSet : TxSet) : op unit :=
  s ← gets (λ s, s);
  if decide (phase_ s = ph_accepted) then mret tt
  else
    modify (set_now now);;
    let id := ts_id txSet in
    match acquired_ s !! id with
    | Some _ => mret tt
    | None =>
      modify (set_acquired (<[id := txSet]> (acquired_ s)));;
      match result_ s with
      | None => mret tt
      | Some _ =>
        for_each (map_to_list (currPeerPositions_ s)) (λ '(peer, prop),
          if position prop =? id then updateDisputes peer txSet else mret tt)
      end
    end.

(** The part of [peerProposalInternal] after the position was recorded. *)
Definition newPosition_sets e (newPeerProp : ConsensusProposal) : op unit :=
  (if isInitial newPeerProp
   then modify (λ s, set_rawPeers (count_in (closeTime newPeerProp) (rawPeers_ s)) s)
   else mret tt);;
  s ← gets (λ s, s);
  match acquired_ s !! position newPeerProp with
  | None =>
    match e_acquireTxSet e (position newPeerProp) with
    | Some set => gotTxSet (now_ s) set
    | None => mret tt
    end
  | Some set =>
    match result_ s with
    | Some _ => updateDisputes (nodeID newPeerProp) set
    | None => mret tt
    end
  end.

Definition peerProposalInternal e (now : Z) (newPeerProp : ConsensusProposal) : op bool :=
  s ← gets (λ s, s);
  if decide (phase_ s = ph_accepted) then mret false
  else
    modify (set_now now);;
    let peerID := nodeID newPeerProp in
    if negb (previousLedger newPeerProp =? prevLedgerID_ s) then mret false
    else if decide (peerID ∈ deadNodes_ s) then mret false
    else if match currPeerPositions_ s !! peerID with
            | Some old => proposeSeq newPeerProp <=? proposeSeq old
            | None => false
            end
    then mret false
    else if isBowOut newPeerProp then
      (match result_ s with
       | Some _ => modifyResult (unVoteAll peerID)
       | None => mret tt
       end);;
      modify (λ s, set_currPeerPositions (delete peerID (currPeerPositions_ s)) s);;
      modify (λ s, set_deadNodes ({[peerID]} ∪ deadNodes_ s) s);;
      mret true
    else
      modify (λ s, set_currPeerPositions (<[peerID := newPeerProp]> (currPeerPositions_ s)) s);;
      newPosition_sets e newPeerProp;;
      mret true.

Definition peerProposal e (now : Z) (newPeerPos : ConsensusProposal) : op bool :=
  s ← gets (λ s, s);
  let props := default [] (recentPeerPositions_ s !! nodeID newPeerPos) in
  let props := if decide (10 ≤ length props)%nat then tail props else props in
  modify (set_recentPeerPositions
    (<[nodeID newPeerPos := props ++ [newPeerPos]]> (recentPeerPositions_ s)));;
  peerProposalInternal e now newPeerPos.

Definition playbackProposals e : op unit :=
  s ← gets (λ s, s);
  for_each (map_to_list (recentPeerPositions_ s)) (λ '(_, props),
    for_each props (λ pos,
      s ← gets (λ s, s);
      if previousLedger pos =? prevLedgerID_ s then
        shared ← peerProposalInternal e (now_ s) pos;
        if (shared : bool) then emit (ev_sharePosition pos) else mret tt
      else mret tt)).

(** ** Closing and establishing *)
Definition closeLedger e : op unit :=
  modify (set_phase ph_establish);;
  modify (λ s, set_rawSelf (now_ s) s);;
  s ← gets (λ s, s);
  let '(txns, pos) := e_onClose e (previousLedger_ s) (now_ s) (mode_ s) in
  let r := mkResult txns pos ∅ ∅ (timer_reset (e_clock e) (mkTimer 0 0)) cs_No 0 in
  modify (set_result (Some r));;
  (match acquired_ s !! ts_id txns with
   | Some _ => mret tt
   | None =>
     modify (set_acquired (<[ts_id txns := txns]> (acquired_ s)));; emit (ev_shareTxSet txns)
   end);;
  (if decide (mode_ s = proposing) then emit (ev_propose pos) else mret tt);;
  for_each (map_to_list (currPeerPositions_ s)) (λ '(_, prop),
    acq ← gets acquired_;
    match acq !! position prop with
    | Some set => createDisputes set
    | None => mret tt
    end).

Definition phaseOpen e : op unit :=
  modify (λ s, set_openTime (timer_tick (e_clock e) (openTime_ s)) s);;
  s ← gets (λ s, s);
  let prev := previousLedger_ s in
  let proposersClosed := Z.of_nat (size (currPeerPositions_ s)) in
  let previousCloseCorrect :=
    bool_decide (mode_ s ≠ wrongLedger) && lg_closeAgree prev &&
    negb (lg_closeTime prev =? lg_parentCloseTime prev + 1) in
  let lastCloseTime := if previousCloseCorrect then lg_closeTime prev else prevCloseTime_ s in
  let sinceClose := (now_ s - lastCloseTime) * 1000 in
  let idleInterval :=
    Z.max (ledgerIDLE_INTERVAL (e_parms e)) (u32 (2 * lg_closeTimeResolution prev) * 1000) in
  if shouldCloseLedger (e_hasOpenTransactions e) (prevProposers_ s) proposersClosed
       (e_proposersValidated e (prevLedgerID_ s)) (prevRoundTime_ s) sinceClose
       (timer_read (openTime_ s)) idleInterval (e_parms e)
  then closeLedger e
  else mret tt.

Definition shouldPause e : op bool :=
  s ← gets (λ s, s);
  r ← getResult;
  let seq := lg_seq (previousLedger_ s) in
  let ahead := seq ⊖₃₂ Z.min (e_getValidLedgerIndex e) seq in
  let '(quorum, trustedKeys) := e_getQuorumKeys e in
  let totalValidators := Z.of_nat (size trustedKeys) in
  let '(laggards, trustedKeys) := e_laggards e seq trustedKeys in
  let offline := Z.of_nat (size trustedKeys) in
  mret (pauseDecision ahead laggards offline totalValidators quorum (e_validator e)
          (e_haveValidated e) (timer_read (r_roundTime r)) (ledgerMAX_CONSENSUS (e_parms e))).

(** The first loop of [updateOurPositions]: drop the positions that are stale
    and count the close times of the others. *)
Definition dropStale e : op (gmap Z Z) :=
  s ← gets (λ s, s);
  let peerCutoff := u32 (now_ s - proposeFRESHNESS (e_parms e)) in
  fold_each (λ closeTimeVotes '(peer, peerProp),
    if isStale peerProp peerCutoff then
      modifyResult (unVoteAll (nodeID peerProp));;
      modify (λ s, set_currPeerPositions (delete peer (currPeerPositions_ s)) s);;
      mret closeTimeVotes
    else mret (count_in (asCloseTime e (closeTime peerProp) s) closeTimeVotes))
    ∅ (map_to_list (currPeerPositions_ s)).

(** The second loop: update our votes; the set to propose when one changed. *)
Definition updateVotes e : op (option TxSet) :=
  r ← getResult;
  fold_each (λ mutableSet '(id, d),
    s ← gets (λ s, s);
    let '(d, changed) :=
      updateVote (convergePercent_ s) (bool_decide (mode_ s = proposing)) (e_parms e) d in
    if (changed : bool) then
      modifyResult (λ r, set_r_disputes (<[id := d]> (r_disputes r)) r);;
      let set := default (r_txns r) mutableSet in
      mret (Some (if ourVote_ d then ts_insert (tx_ d) set else ts_erase id set))
    else mret mutableSet) None (map_to_list (r_disputes r)).

(** The third part: the close time most agree on. *)
Definition closeTimeConsensus e (closeTimeVotes : gmap Z Z) : op Z :=
  s ← gets (λ s, s);
  r ← getResult;
  let ours := asCloseTime e (closeTime (r_position r)) s in
  if decide (currPeerPositions_ s = ∅) then
    modify (set_haveCloseTimeConsensus true);; mret ours
  else
    let participants := Z.of_nat (size (currPeerPositions_ s)) in
    let '(closeTimeVotes, participants) :=
      if decide (mode_ s = proposing) then (count_in ours closeTimeVotes, participants + 1)
      else (closeTimeVotes, participants) in
    let threshVote :=
      participantsNeeded participants (neededWeight (e_parms e) (convergePercent_ s)) in
    let threshConsensus := participantsNeeded participants (avCT_CONSENSUS_PCT (e_parms e)) in
    let '(_, consensusCloseTime, have) :=
      foldl (closeTime_step threshConsensus) (threshVote, 0, false)
        (sorted_entries closeTimeVotes) in
    modify (set_haveCloseTimeConsensus have);; mret consensusCloseTime.

(** The last part: take the new position. *)
Definition takePosition (ourNewSet : TxSet) (consensusCloseTime : Z) : op unit :=
  s ← gets (λ s, s);
  let newID := ts_id ourNewSet in
  modifyResult (λ r,
    set_r_position (changePosition newID consensusCloseTime (now_ s) (r_position r))
      (set_r_txns ourNewSet r));;
  r ← getResult;
  (match acquired_ s !! newID with
   | Some _ => mret tt
   | None =>
     modify (set_acquired (<[newID := ourNewSet]> (acquired_ s)));;
     (if isBowOut (r_position r) then mret tt else emit (ev_shareTxSet ourNewSet));;
     for_each (map_to_list (currPeerPositions_ s)) (λ '(peer, p),
       if position p =? newID then updateDisputes peer ourNewSet else mret tt)
   end);;
  if negb (isBowOut (r_position r)) && bool_decide (mode_ s = proposing)
  then emit (ev_propose (r_position r)) else mret tt.

Definition updateOurPositions e : op unit :=
  closeTimeVotes ← dropStale e;
  ourNewSet ← updateVotes e;
  consensusCloseTime ← closeTimeConsensus e closeTimeVotes;
  s ← gets (λ s, s);
  r ← getResult;
  let ourCutoff := u32 (now_ s - proposeINTERVAL (e_parms e)) in
  let ourNewSet :=
    match ourNewSet with
    | Some set => Some set
    | None =>
      if negb (consensusCloseTime =? asCloseTime e (closeTime (r_position r)) s) ||
         isStale (r_position r) ourCutoff
      then Some (r_txns r) else None
    end in
  match ourNewSet with
  | Some set => takePosition set consensusCloseTime
  | None => mret tt
  end.

(** The number of peers that propose our position. *)
Definition agreeing (ourPosition : Z) (curr : gmap Z ConsensusProposal) : Z :=
  Z.of_nat (length (filter (λ x, position x.2 = ourPosition) (map_to_list curr))).

Definition haveConsensus e : op bool :=
  s ← gets (λ s, s);
  r ← getResult;
  let agree := agreeing (position (r_position r)) (currPeerPositions_ s) in
  let disagree := Z.of_nat (size (currPeerPositions_ s)) - agree in
  let currentFinished := e_proposersFinished e (previousLedger_ s) (prevLedgerID_ s) in
  let state :=
    checkConsensus (prevProposers_ s) (agree + disagree) agree currentFinished
      (prevRoundTime_ s) (timer_read (r_roundTime r)) (e_parms e)
      (bool_decide (mode_ s = proposing)) in
  modifyResult (set_r_state state);;
  mret (bool_decide (state ≠ cs_No)).

(** Leave the establish phase with a result. *)
Definition acceptResult : op unit :=
  s ← gets (λ s, s);
  r ← getResult;
  modify (set_prevProposers (Z.of_nat (size (currPeerPositions_ s))));;
  modify (set_prevRoundTime (timer_read (r_roundTime r)));;
  modify (set_phase ph_accepted);;
  emit (ev_accept r (previousLedger_ s) (closeResolution_ s) (rawPeers_ s) (rawSelf_ s) (mode_ s)).

Definition phaseEstablish e : op unit :=
  s ← gets (λ s, s);
  modifyResult (λ r,
    set_r_proposers (Z.of_nat (size (currPeerPositions_ s)))
      (set_r_roundTime (timer_tick (e_clock e) (r_roundTime r)) r));;
  r ← getResult;
  modify (set_convergePercent
    (s32 (Z.quot (timer_read (r_roundTime r) * 100)
            (Z.max (prevRoundTime_ s) (avMIN_CONSENSUS_TIME (e_parms e))))));;
  if timer_read (r_roundTime r) <? ledgerMIN_CONSENSUS (e_parms e) then mret tt
  else
    updateOurPositions e;;
    pause ← shouldPause e;
    if (pause : bool) then mret tt
    else
      have ← haveConsensus e;
      if negb have then mret tt
      else
        haveCT ← gets haveCloseTimeConsensus_;
        if negb haveCT then mret tt else acceptResult.

(** ** Rounds *)
Definition startRoundInternal e (timerEntry : Z → op unit) (now prevLedgerID : Z)
    (prevLedger : Ledger) (mode : ConsensusMode) : op unit :=
  modify (set_phase ph_open);;
  setMode mode;;
  modify (λ s,
    set_now now (set_prevLedgerID prevLedgerID (set_previousLedger prevLedger
    (set_result None (set_convergePercent 0 (set_haveCloseTimeConsensus false
    (set_openTime (timer_reset (e_clock e) (openTime_ s)) (set_currPeerPositions ∅
    (set_acquired ∅ (set_rawPeers ∅ (set_rawSelf 0 (set_deadNodes ∅
    (set_closeResolution
       (getNextLedgerTimeResolution (lg_closeTimeResolution prevLedger)
          (lg_closeAgree prevLedger) (lg_seq prevLedger ⊕₃₂ 1)) s)))))))))))));;
  playbackProposals e;;
  s ← gets (λ s, s);
  if prevProposers_ s / 2 <? Z.of_nat (size (currPeerPositions_ s))
  then timerEntry (now_ s) else mret tt.

Definition handleWrongLedger e (timerEntry : Z → op unit) (lgrId : Z) : op unit :=
  leaveConsensus;;
  s ← gets (λ s, s);
  (if decide (prevLedgerID_ s ≠ lgrId) then
     modify (set_prevLedgerID lgrId);;
     (match result_ s with
      | Some _ => modifyResult (λ r, set_r_compares ∅ (set_r_disputes ∅ r))
      | None => mret tt
      end);;
     modify (λ s, set_currPeerPositions ∅ (set_rawPeers ∅ (set_deadNodes ∅ s)));;
     playbackProposals e
   else mret tt);;
  s ← gets (λ s, s);
  if lg_id (previousLedger_ s) =? prevLedgerID_ s then mret tt
  else
    match e_acquireLedger e (prevLedgerID_ s) with
    | Some newLedger => startRoundInternal e timerEntry (now_ s) lgrId newLedger switchedLedger
    | None => setMode wrongLedger
    end.

Definition checkLedger e (timerEntry : Z → op unit) : op unit :=
  s ← gets (λ s, s);
  let netLgr := e_getPrevLedger e (prevLedgerID_ s) (previousLedger_ s) (mode_ s) in
  if decide (netLgr ≠ prevLedgerID_ s) then handleWrongLedger e timerEntry netLgr
  else if decide (lg_id (previousLedger_ s) ≠ prevLedgerID_ s)
  then handleWrongLedger e timerEntry netLgr
  else mret tt.

Fixpoint timerEntry (fuel : nat) e (now : Z) : op unit :=
  match fuel with
  | O => λ _, NoFuel
  | S fuel =>
    s ← gets (λ s, s);
    if decide (phase_ s = ph_accepted) then mret tt
    else
      modify (set_now now);;
      checkLedger e (timerEntry fuel e);;
      s ← gets (λ s, s);
      match phase_ s with
      | ph_open => phaseOpen e
      | ph_establish => phaseEstablish e
      | ph_accepted => mret tt
      end
  end.

Definition startRound (fuel : nat) e (now prevLedgerID : Z) (prevLedger : Ledger)
    (nowUntrusted : gset Z) (isProposing : bool) : op unit :=
  s ← gets (λ s, s);
  (if firstRound_ s then
     modify (set_prevRoundTime (ledgerIDLE_INTERVAL (e_parms e)));;
     modify (set_prevCloseTime (lg_closeTime prevLedger));;
     modify (set_firstRound false)
   else modify (set_prevCloseTime (rawSelf_ s)));;
  modify (λ s, set_recentPeerPositions
    (filter (λ x, x.1 ∉ nowUntrusted) (recentPeerPositions_ s)) s);;
  let startMode := if isProposing then proposing else observing in
  let '(prevLedger, startMode) :=
    if lg_id prevLedger =? prevLedgerID then (prevLedger, startMode)
    else
      match e_acquireLedger e prevLedgerID with
      | Some newLedger => (newLedger, startMode)
      | None => (prevLedger, wrongLedger)
      end in
  startRoundInternal e (timerEntry fuel e) now prevLedgerID prevLedger startMode.

Definition simulate e (now : Z) (consensusDelay : option Z) : op unit :=
  modify (set_now now);;
  closeLedger e;;
  s ← gets (λ s, s);
  let n := Z.of_nat (size (currPeerPositions_ s)) in
  modifyResult (λ r,
    set_r_proposers n
      (set_r_roundTime (timer_tick_fixed (default 100 consensusDelay) (r_roundTime r)) r));;
  r ← getResult;
  modify (set_prevProposers n);;
  modify (set_prevRoundTime (timer_read (r_roundTime r)));;
  modify (set_phase ph_accepted);;
  emit (ev_forceAccept r (previousLedger_ s) (closeResolution_ s) (rawPeers_ s) (rawSelf_ s)
          (mode_ s)).
End consensus.
