(* ===== verification/ConsensusSpec.v ===== *)
(** * Invariants of the consensus state machine

    [cinv] relates the disputes to the positions of the peers: a peer whose
    transaction set is known has a vote on every dispute, the right one, and
    every transaction on which such a peer disagrees with us is in dispute.
    Every operation of Consensus.v preserves [cinv] and does not fail. *)

From stdpp Require Import prelude gmap sorting.
From Stdlib Require Import ZArith Lia.
From S2P Require Import Prelude.
From S2P Require Import LedgerTiming.
From S2P Require Import Disputes.
From S2P Require Import ConsensusState.
From S2P Require Import Consensus.

Section spec.
  Context {Tx TxSet : Type} `{TxSetLaws Tx TxSet}.
  Abbreviation State := (CState Tx TxSet).
  Implicit Types (e : Env TxSet) (s : State) (r : ConsensusResult Tx TxSet).
  Implicit Types (D : gmap Z (DisputedTx Tx)) (C : gset Z) (o t ours : TxSet).
  Implicit Types (curr : gmap Z ConsensusProposal) (acq : gmap Z TxSet) (pv pc : Z → Prop).

(** ** The disputes, as a relation between the parts of the state

    [pv] is the set of peers whose votes are still to be updated, [pc] the set
    of peers whose position is still to be compared with ours, [ours] the set our
    votes describe. *)
Record disputes_ok curr acq pv pc ours D C : Prop := {
  dk_key : ∀ i d, D !! i = Some d → tx_id (tx_ d) = i;
  dk_counts : ∀ i d, D !! i = Some d → dispute_ok d;
  dk_ours : ∀ i d, D !! i = Some d → ourVote_ d = ts_exists ours i;
  dk_voters : ∀ i d n, D !! i = Some d → n ∈ dom (votes_ d) → n ∈ dom curr;
  dk_votes : ∀ i d n p t, D !! i = Some d → curr !! n = Some p → ¬ pv n →
    acq !! position p = Some t → votes_ d !! n = Some (ts_exists t i);
  dk_compared : ∀ n p, curr !! n = Some p → ¬ pc n →
    is_Some (acq !! position p) → position p ∈ C;
  dk_diff : ∀ t i, ts_id t ∈ C → ts_exists t i ≠ ts_exists ours i → is_Some (D !! i);
}.

Lemma disputes_ok_empty curr acq pv pc ours :
  (∀ n p, curr !! n = Some p → is_Some (acq !! position p) → pc n) →
  disputes_ok curr acq pv pc ours ∅ ∅.
Proof.
  intros Hp. split; try by intros ? ? ?; rewrite lookup_empty.
  - intros i d. by rewrite lookup_empty.
  - intros i d. by rewrite lookup_empty.
  - intros i d. by rewrite lookup_empty.
  - intros n p Hn Hnp Ha. by destruct Hnp; eapply Hp.
Qed.

(** A larger set of pending peers asks for less. *)
Lemma disputes_ok_weaken curr acq (pv pc pv' pc' : Z → Prop) ours D C :
  disputes_ok curr acq pv pc ours D C →
  (∀ n p, curr !! n = Some p → is_Some (acq !! position p) → pv n → pv' n) →
  (∀ n p, curr !! n = Some p → is_Some (acq !! position p) → pc n → pc' n) →
  disputes_ok curr acq pv' pc' ours D C.
Proof.
  intros [] Hv Hc. split; try done.
  - intros i d n p t Hd Hn Hnp Ht. eapply dk_votes0; try done. intros Hx. by eapply Hnp, Hv.
  - intros n p Hn Hnp Ha. eapply dk_compared0; try done. intros Hx. by eapply Hnp, Hc.
Qed.

(** The votes on a new dispute. *)
Lemma peer_votes_spec curr acq i (d : DisputedTx Tx) :
  dispute_ok d → votes_ d = ∅ →
  let d' := peer_votes curr acq i d in
  dispute_ok d' ∧ tx_ d' = tx_ d ∧ ourVote_ d' = ourVote_ d ∧
  ∀ n, votes_ d' !! n = p ← curr !! n; t ← acq !! position p; Some (ts_exists t i).
Proof.
  intros Hok Hv. unfold peer_votes.
  assert (∀ l (d : DisputedTx Tx), NoDup (map fst l) → dispute_ok d → (∀ n, n ∈ map fst l → votes_ d !! n = None) →
    let d' := foldl (peer_vote acq i) d l in
    dispute_ok d' ∧ tx_ d' = tx_ d ∧ ourVote_ d' = ourVote_ d ∧
    (∀ n p, (n, p) ∈ l → votes_ d' !! n = (t ← acq !! position p; Some (ts_exists t i))) ∧
    (∀ n, n ∉ map fst l → votes_ d' !! n = votes_ d !! n)) as Hloop.
  { clear. induction l as [|[n0 p0] l IH]; intros d Hnd Hok Hnone; simpl.
    { split_and!; try done. intros n p Hin. by apply not_elem_of_nil in Hin. }
    simpl in Hnd. apply NoDup_cons in Hnd as [Hn0 Hnd].
    change (match acq !! position p0 with Some t => setVote n0 (ts_exists t i) d | None => d end)
      with (peer_vote acq i d (n0, p0)).
    set (d1 := peer_vote acq i d (n0, p0)).
    assert (dispute_ok d1 ∧ tx_ d1 = tx_ d ∧ ourVote_ d1 = ourVote_ d ∧
      votes_ d1 !! n0 = (t ← acq !! position p0; Some (ts_exists t i)) ∧
      ∀ n, n ≠ n0 → votes_ d1 !! n = votes_ d !! n) as (Hok1 & Ht1 & Ho1 & Hv1 & Hf1).
    { unfold d1, peer_vote. destruct (acq !! position p0) as [t|]; simpl.
      - destruct (setVote_spec n0 (ts_exists t i) d Hok) as (? & -> & ? & ?).
        split_and!; try done; [by rewrite lookup_insert_eq|].
        intros n Hn. by rewrite lookup_insert_ne.
      - split_and!; try done. apply Hnone. set_solver. }
    destruct (IH d1 Hnd Hok1) as (I1 & I2 & I3 & I4 & I5).
    { intros n Hn. rewrite Hf1; [apply Hnone; set_solver|]. by intros ->. }
    split_and!; [done|congruence|congruence| |].
    - intros n p [[= -> ->]|Hin]%elem_of_cons; [|by apply I4]. by rewrite I5.
    - intros n Hn. rewrite I5 by set_solver. apply Hf1. set_solver. }
  destruct (Hloop (map_to_list curr) d (NoDup_fst_map_to_list _) Hok) as (I1 & I2 & I3 & I4 & I5).
  { intros n _. by rewrite Hv, lookup_empty. }
  split_and!; try done. intros n. destruct (curr !! n) as [p|] eqn:Ec; simpl.
  - apply I4. by apply elem_of_map_to_list.
  - rewrite I5, Hv, lookup_empty; [done|].
    intros ([n' p] & -> & Hin%elem_of_map_to_list)%list_elem_of_fmap. simpl in *. congruence.
Qed.

(** Adding a dispute. *)
Lemma disputes_ok_add curr acq pv pc ours D C i (tx : Tx) :
  tx_id tx = i → D !! i = None → disputes_ok curr acq pv pc ours D C →
  disputes_ok curr acq pv pc ours
    (<[i := peer_votes curr acq i (new_dispute tx (ts_exists ours i))]> D) C.
Proof.
  intros Hi Hn [].
  destruct (peer_votes_spec curr acq i (new_dispute tx (ts_exists ours i))) as (Hok & Ht & Ho & Hv);
    [apply new_dispute_ok|done|].
  set (d' := peer_votes _ _ _ _) in *. simpl in Ht, Ho.
  split; try done.
  - intros j d [[<- <-]|[_ Hd]]%lookup_insert_Some; [by rewrite Ht|by eapply dk_key0].
  - intros j d [[<- <-]|[_ Hd]]%lookup_insert_Some; [done|by eapply dk_counts0].
  - intros j d [[<- <-]|[_ Hd]]%lookup_insert_Some; [done|by eapply dk_ours0].
  - intros j d n [[<- <-]|[_ Hd]]%lookup_insert_Some; [|by eapply dk_voters0].
    rewrite !elem_of_dom, Hv. destruct (curr !! n); [done|]. by intros [? ?].
  - intros j d n p t [[<- <-]|[_ Hd]]%lookup_insert_Some; [|by eapply dk_votes0].
    intros Hp _ Ht'. by rewrite Hv, Hp; simpl; rewrite Ht'.
  - intros t j Ht' Hne. destruct (decide (j = i)) as [->|]; [by rewrite lookup_insert_eq|].
    rewrite lookup_insert_ne by done. by eapply dk_diff0.
Qed.

(** A peer's votes set from its transaction set. *)
Lemma disputes_ok_vote curr acq pv pc ours D C n p o :
  curr !! n = Some p → acq !! position p = Some o → ts_id o = position p → ts_id o ∈ C →
  disputes_ok curr acq pv pc ours D C →
  disputes_ok curr acq (λ m, pv m ∧ m ≠ n) (λ m, pc m ∧ m ≠ n) ours
    ((λ d, setVote n (ts_exists o (tx_id (tx_ d))) d) <$> D) C.
Proof.
  intros Hn Ho Hid HC [].
  assert (∀ i d, ((λ d, setVote n (ts_exists o (tx_id (tx_ d))) d) <$> D) !! i = Some d →
    ∃ d0, D !! i = Some d0 ∧ dispute_ok d ∧ votes_ d = <[n := ts_exists o i]> (votes_ d0) ∧
      ourVote_ d = ourVote_ d0 ∧ tx_ d = tx_ d0) as Hd.
  { intros i d Hi. rewrite lookup_fmap in Hi. destruct (D !! i) as [d0|] eqn:E; [|done].
    injection Hi as <-. rewrite (dk_key0 _ _ E).
    destruct (setVote_spec n (ts_exists o i) d0 (dk_counts0 _ _ E)) as (? & ? & ? & ?). eauto 10. }
  split.
  - intros i d (d0 & E & _ & _ & _ & ->)%Hd. by eapply dk_key0.
  - intros i d (d0 & E & ? & _)%Hd. done.
  - intros i d (d0 & E & _ & _ & -> & _)%Hd. by eapply dk_ours0.
  - intros i d m (d0 & E & _ & -> & _)%Hd. rewrite dom_insert, elem_of_union, elem_of_singleton.
    intros [->|Hm]; [by apply elem_of_dom|by eapply dk_voters0].
  - intros i d m q t (d0 & E & _ & -> & _)%Hd Hq Hpend Ht.
    destruct (decide (m = n)) as [->|Hne].
    + rewrite lookup_insert_eq. congruence.
    + rewrite lookup_insert_ne by done. eapply dk_votes0; try done. tauto.
  - intros m q Hq Hpend Ha. destruct (decide (m = n)) as [->|Hne].
    + replace q with p by congruence. by rewrite <- Hid.
    + eapply dk_compared0; try done. tauto.
  - intros t i Ht Hne. rewrite lookup_fmap. destruct (dk_diff0 t i Ht Hne) as [d0 ->]. eauto.
Qed.

(** Forgetting a peer. *)
Lemma disputes_ok_forget curr acq pv pc ours D C n :
  disputes_ok curr acq pv pc ours D C →
  disputes_ok (delete n curr) acq pv pc ours (unVote n <$> D) C.
Proof.
  intros [].
  assert (∀ i d, (unVote n <$> D) !! i = Some d →
    ∃ d0, D !! i = Some d0 ∧ dispute_ok d ∧ votes_ d = delete n (votes_ d0) ∧
      ourVote_ d = ourVote_ d0 ∧ tx_ d = tx_ d0) as Hd.
  { intros i d Hi. rewrite lookup_fmap in Hi. destruct (D !! i) as [d0|] eqn:E; [|done].
    injection Hi as <-. destruct (unVote_spec n d0 (dk_counts0 _ _ E)) as (? & ? & ? & ?).
    eauto 10. }
  split.
  - intros i d (d0 & E & _ & _ & _ & ->)%Hd. by eapply dk_key0.
  - intros i d (d0 & E & ? & _)%Hd. done.
  - intros i d (d0 & E & _ & _ & -> & _)%Hd. by eapply dk_ours0.
  - intros i d m (d0 & E & _ & -> & _)%Hd. rewrite !dom_delete, !elem_of_difference.
    intros [Hm ?]. split; [by eapply dk_voters0|done].
  - intros i d m q t (d0 & E & _ & -> & _)%Hd [Hne Hq]%lookup_delete_Some Hpend Ht.
    rewrite lookup_delete_ne by done. by eapply dk_votes0.
  - intros m q [Hne Hq]%lookup_delete_Some. by apply dk_compared0.
  - intros t i Ht Hne. rewrite lookup_fmap. destruct (dk_diff0 t i Ht Hne) as [d0 ->]. eauto.
Qed.

(** ** The operations on disputes *)

(** A state in which only the disputes and the events changed. *)
Definition upd s r (ev : list (event Tx TxSet)) D C : State :=
  set_events ev (set_result (Some (set_r_compares C (set_r_disputes D r))) s).

Lemma upd_id s r : result_ s = Some r → upd s r (events s) (r_disputes r) (r_compares r) = s.
Proof. intros Hr. destruct s, r. unfold upd. simpl in *. by rewrite Hr. Qed.

Lemma compare_find o o' i (b : bool) :
  ts_compare o o' !! i = Some b →
  ∃ tx, (if b then ts_find o i else ts_find o' i) = Some tx ∧ tx_id tx = i.
Proof.
  rewrite ts_compare_spec, !ts_exists_find. case_bool_decide as Hb; [done|]. intros [= <-].
  destruct (ts_find o i) as [tx|] eqn:E1; [|destruct (ts_find o' i) as [tx|] eqn:E2; [|done]];
    simpl; exists tx; split; try done; by eapply ts_find_id.
Qed.

Lemma createDisputes_wp o s r pv pc :
  result_ s = Some r →
  disputes_ok (currPeerPositions_ s) (acquired_ s) pv pc (r_txns r) (r_disputes r) (r_compares r) →
  wp (createDisputes o) (λ _ s', ∃ ev D',
    s' = upd s r ev D' ({[ts_id o]} ∪ r_compares r) ∧
    disputes_ok (currPeerPositions_ s) (acquired_ s) pv pc (r_txns r) D'
      ({[ts_id o]} ∪ r_compares r)) s.
Proof.
  intros Hr Hok. unfold createDisputes. apply wp_bind, (wp_getResult _ _ r Hr).
  case_decide as Hc.
  { exists (events s), (r_disputes r). replace ({[ts_id o]} ∪ r_compares r) with (r_compares r)
      by set_solver. by rewrite upd_id. }
  apply wp_bind, (wp_modifyResult _ _ _ r Hr).
  assert (∀ D', disputes_ok (currPeerPositions_ s) (acquired_ s) pv pc (r_txns r) D'
      (r_compares r) →
    (∀ i, ts_exists o i ≠ ts_exists (r_txns r) i → is_Some (D' !! i)) →
    disputes_ok (currPeerPositions_ s) (acquired_ s) pv pc (r_txns r) D'
      ({[ts_id o]} ∪ r_compares r)) as Hext.
  { intros D' [] Hi. split; try done.
    - intros n p Hn Hp Ha. apply elem_of_union_r. by eapply dk_compared0.
    - intros t i Ht Hne. apply elem_of_union in Ht as [Ht%elem_of_singleton|Ht];
        [|by eapply dk_diff0].
      apply Hi. by rewrite <- (ts_id_inj t o i Ht). }
  destruct (Z.eqb_spec (ts_id (r_txns r)) (ts_id o)) as [Heq|Hne].
  { exists (events s), (r_disputes r). split; [by destruct s, r|].
    apply Hext; [done|]. intros i Hi. destruct Hi. by rewrite (ts_id_inj _ _ i Heq). }
  eapply wp_mono.
  - apply (wp_fold_each (λ done _ s', ∃ ev D', s' = upd s r ev D' ({[ts_id o]} ∪ r_compares r) ∧
      disputes_ok (currPeerPositions_ s) (acquired_ s) pv pc (r_txns r) D' (r_compares r) ∧
      ∀ i b, (i, b) ∈ done → is_Some (D' !! i))).
    + exists (events s), (r_disputes r). split_and!; [by destruct s, r|done|].
      intros i b Hin. by apply not_elem_of_nil in Hin.
    + intros done [i b] todo [] s' Hl (ev & D' & -> & Hok' & Hdone).
      assert (ts_compare (r_txns r) o !! i = Some b) as Hib.
      { apply elem_of_map_to_list. rewrite Hl. set_solver. }
      destruct (compare_find _ _ _ _ Hib) as (tx & Hf & Hid).
      unfold dispute_one. apply wp_bind. eapply wp_getResult; [done|]. simpl.
      apply wp_bind. unfold wp, deref. rewrite Hf. rewrite Hid.
      destruct (D' !! i) as [d|] eqn:Ed.
      * exists ev, D'. split_and!; [done|done|]. intros j c [Hj|Hj]%elem_of_app; [by eapply Hdone|].
        apply list_elem_of_singleton in Hj as [= -> ->]. eauto.
      * exists (ev ++ [ev_shareTx tx]), (<[i := peer_votes (currPeerPositions_ s) (acquired_ s) i
          (new_dispute tx (ts_exists (r_txns r) i))]> D').
        split_and!; [done|by apply disputes_ok_add|].
        intros j c [Hj|Hj]%elem_of_app.
        -- destruct (decide (j = i)) as [->|]; [by rewrite lookup_insert_eq|].
           rewrite lookup_insert_ne by done. by eapply Hdone.
        -- apply list_elem_of_singleton in Hj as [= -> ->]. by rewrite lookup_insert_eq.
  - intros [] s' (ev & D' & -> & Hok' & Hall). exists ev, D'. split; [done|].
    apply Hext; [done|]. intros i Hi.
    apply (Hall i (ts_exists (r_txns r) i)), elem_of_map_to_list.
    rewrite ts_compare_spec, bool_decide_false; [done|]. by intros Heq'.
Qed.

Lemma updateDisputes_wp n p o s r pv pc :
  result_ s = Some r → currPeerPositions_ s !! n = Some p →
  acquired_ s !! position p = Some o → ts_id o = position p →
  disputes_ok (currPeerPositions_ s) (acquired_ s) pv pc (r_txns r) (r_disputes r) (r_compares r) →
  wp (updateDisputes n o) (λ _ s', ∃ ev D' C',
    s' = upd s r ev D' C' ∧
    disputes_ok (currPeerPositions_ s) (acquired_ s) (λ m, pv m ∧ m ≠ n) (λ m, pc m ∧ m ≠ n)
      (r_txns r) D' C') s.
Proof.
  intros Hr Hn Ho Hid Hok. unfold updateDisputes. apply wp_bind, (wp_getResult _ _ r Hr).
  apply wp_bind.
  assert (wp (if decide (ts_id o ∈ r_compares r) then mret tt else createDisputes o) (λ _ s',
    ∃ ev D', s' = upd s r ev D' ({[ts_id o]} ∪ r_compares r) ∧
    disputes_ok (currPeerPositions_ s) (acquired_ s) pv pc (r_txns r) D'
      ({[ts_id o]} ∪ r_compares r)) s) as Hc.
  { case_decide; [|by apply createDisputes_wp]. exists (events s), (r_disputes r).
    replace ({[ts_id o]} ∪ r_compares r) with (r_compares r) by set_solver. by rewrite upd_id. }
  eapply wp_mono; [exact Hc|]. intros [] s' (ev & D' & -> & Hok').
  eapply wp_modifyResult; [done|]. eexists _, _, _. split; [done|].
  apply (disputes_ok_vote _ _ _ _ _ _ _ _ p); try done. set_solver.
Qed.

(** ** The invariant *)
Definition nobody : Z → Prop := λ _, False.

Record result_ok s pv pc r : Prop := {
  ro_id : ts_id (r_txns r) = position (r_position r);
  ro_acq : is_Some (acquired_ s !! position (r_position r));
  ro_disputes : disputes_ok (currPeerPositions_ s) (acquired_ s) pv pc (r_txns r)
    (r_disputes r) (r_compares r);
}.

Record cinv_p pv pc s : Prop := {
  ci_acq : ∀ i t, acquired_ s !! i = Some t → ts_id t = i;
  ci_curr : ∀ n p, currPeerPositions_ s !! n = Some p →
    nodeID p = n ∧ previousLedger p = prevLedgerID_ s ∧ isBowOut p = false;
  ci_dead : ∀ n, n ∈ deadNodes_ s → currPeerPositions_ s !! n = None;
  ci_open : phase_ s = ph_open → result_ s = None;
  ci_establish : phase_ s = ph_establish → is_Some (result_ s);
  ci_result : ∀ r, result_ s = Some r → result_ok s pv pc r;
  ci_recent : ∀ n l, recentPeerPositions_ s !! n = Some l →
    (length l ≤ 10)%nat ∧ Forall (λ p, nodeID p = n) l;
}.
Abbreviation cinv := (cinv_p nobody nobody).

(** Fields the invariant does not mention can change. *)
Lemma cinv_ext pv pc s s' :
  cinv_p pv pc s → acquired_ s' = acquired_ s → currPeerPositions_ s' = currPeerPositions_ s →
  prevLedgerID_ s' = prevLedgerID_ s → deadNodes_ s' = deadNodes_ s → phase_ s' = phase_ s →
  result_ s' = result_ s → recentPeerPositions_ s' = recentPeerPositions_ s →
  cinv_p pv pc s'.
Proof.
  intros [] H1 H2 H3 H4 H5 H6 H7. split; rewrite ?H1, ?H2, ?H3, ?H4, ?H5, ?H6, ?H7; try done.
  intros r Hr. destruct (ci_result0 r Hr). split; by rewrite ?H1, ?H2.
Qed.

(** What stays the same while peers' positions are processed. *)
Record same_round s s' : Prop := {
  sr_phase : phase_ s' = phase_ s;
  sr_mode : mode_ s' = mode_ s;
  sr_prevID : prevLedgerID_ s' = prevLedgerID_ s;
  sr_prev : previousLedger_ s' = previousLedger_ s;
  sr_recent : recentPeerPositions_ s' = recentPeerPositions_ s;
  sr_proposers : prevProposers_ s' = prevProposers_ s;
  sr_roundTime : prevRoundTime_ s' = prevRoundTime_ s;
  sr_position : r_position <$> result_ s' = r_position <$> result_ s;
  sr_timer : r_roundTime <$> result_ s' = r_roundTime <$> result_ s;
}.

Lemma same_round_refl s : same_round s s.
Proof. by split. Qed.

Lemma same_round_trans s1 s2 s3 : same_round s1 s2 → same_round s2 s3 → same_round s1 s3.
Proof. intros [] []. split; congruence. Qed.

Lemma upd_same s r ev D C : result_ s = Some r → same_round s (upd s r ev D C).
Proof. intros Hr. split; simpl; rewrite ?Hr; done. Qed.

(** Changing the disputes under the invariant. *)
Lemma cinv_upd pv pc pv' pc' s r ev D C :
  cinv_p pv pc s → result_ s = Some r →
  disputes_ok (currPeerPositions_ s) (acquired_ s) pv' pc' (r_txns r) D C →
  cinv_p pv' pc' (upd s r ev D C).
Proof.
  intros [] Hr Hok. destruct (ci_result0 r Hr) as [Hid Hacq _].
  split; simpl; try done.
  - intros Ho. by rewrite (ci_open0 Ho) in Hr.
  - intros r' [= <-]. by split.
Qed.

(** A fresh transaction set is announced to the disputes of the peers that
    propose it. *)
Lemma disputes_ok_acquire curr acq ours D C t :
  acq !! ts_id t = None → disputes_ok curr acq nobody nobody ours D C →
  let pend m := ∃ p, curr !! m = Some p ∧ position p = ts_id t in
  disputes_ok curr (<[ts_id t := t]> acq) pend pend ours D C.
Proof.
  intros Ha [] pend. split; try done.
  - intros i d n p t' Hd Hn Hp [[Heq _]|[_ Ht]]%lookup_insert_Some; [|eapply dk_votes0; try done; by intros []].
    destruct Hp. by exists p.
  - intros n p Hn Hp [t' [[Heq _]|[_ Ht]]%lookup_insert_Some]; [|eapply dk_compared0; try done; by intros []].
    destruct Hp. by exists p.
Qed.

Lemma notify_wp t s r :
  result_ s = Some r → acquired_ s !! ts_id t = Some t →
  (let pend m := ∃ p, currPeerPositions_ s !! m = Some p ∧ position p = ts_id t in
   disputes_ok (currPeerPositions_ s) (acquired_ s) pend pend (r_txns r) (r_disputes r)
     (r_compares r)) →
  wp (for_each (map_to_list (currPeerPositions_ s)) (λ '(peer, prop),
        if position prop =? ts_id t then updateDisputes peer t else mret tt))
    (λ _ s', ∃ ev D C, s' = upd s r ev D C ∧
      disputes_ok (currPeerPositions_ s) (acquired_ s) nobody nobody (r_txns r) D C) s.
Proof.
  intros Hr Ha Hok. set (pend m := ∃ p, currPeerPositions_ s !! m = Some p ∧ position p = ts_id t)
    in *.
  eapply wp_mono.
  - apply (wp_fold_each (λ done _ s', ∃ ev D C, s' = upd s r ev D C ∧
      let pend' m := pend m ∧ m ∉ map fst done in
      disputes_ok (currPeerPositions_ s) (acquired_ s) pend' pend' (r_txns r) D C)).
    { exists (events s), (r_disputes r), (r_compares r). split; [by rewrite upd_id|].
      eapply disputes_ok_weaken; [exact Hok| |]; simpl; set_solver. }
    intros done [n p] todo [] s' Hl (ev & D & C & -> & Hok').
    assert (currPeerPositions_ s !! n = Some p) as Hn.
    { apply elem_of_map_to_list. rewrite Hl. set_solver. }
    destruct (Z.eqb_spec (position p) (ts_id t)) as [Heq|Hne].
    + eapply wp_mono.
      * eapply (updateDisputes_wp n p t); simpl; [done|done|by rewrite Heq|done|exact Hok'].
      * intros [] s' (ev' & D' & C' & -> & Hok''). exists ev', D', C'. split; [done|].
        simpl in Hok''. rewrite map_app.
        eapply disputes_ok_weaken; [exact Hok''| |]; simpl; set_solver.
    + exists ev, D, C. split; [done|]. rewrite map_app.
      assert (∀ m, pend m → m ≠ n) as Hm.
      { intros m (q & Hq & Hpq) ->. congruence. }
      eapply disputes_ok_weaken; [exact Hok'| |]; simpl; set_solver.
  - intros [] s' (ev & D & C & -> & Hok'). exists ev, D, C. split; [done|].
    eapply disputes_ok_weaken; [exact Hok'| |]; simpl;
      intros n p Hn _ [_ []]; apply (list_elem_of_fmap_2 fst _ (n, p)); by apply elem_of_map_to_list.
Qed.

Lemma gotTxSet_wp now t s :
  cinv s →
  wp (gotTxSet now t) (λ _ s', cinv s' ∧ same_round s s' ∧
    currPeerPositions_ s' = currPeerPositions_ s ∧ deadNodes_ s' = deadNodes_ s) s.
Proof.
  intros Hinv. unfold gotTxSet. apply wp_bind, wp_gets. case_decide as Hph.
  { apply wp_ret. by split_and!. }
  apply wp_bind, wp_modify.
  destruct (acquired_ s !! ts_id t) as [t'|] eqn:Ea.
  { apply wp_ret. split_and!; try done. by eapply cinv_ext. }
  apply wp_bind, wp_modify. destruct (result_ s) as [r|] eqn:Er.
  - set (s1 := set_acquired _ (set_now now s)).
    pose proof (ci_result _ _ _ Hinv r Er) as [Hid Hacq Hok].
    eapply wp_mono.
    + apply (notify_wp t s1 r); [done|simpl; by rewrite lookup_insert_eq|].
      by apply disputes_ok_acquire.
    + intros [] s' (ev & D & C & -> & Hok').
      assert (cinv_p nobody nobody (upd s1 r ev D C)); 
        [|split_and!; try done; split; simpl; by rewrite ?Er].
      destruct Hinv. split; simpl; try done.
      * intros i t' [[<- <-]|[_ Ht]]%lookup_insert_Some; [done|by apply ci_acq0].
      * intros Ho. by rewrite (ci_open0 Ho) in Er.
      * intros r' [= <-]. split; simpl; [done| |done].
        destruct Hacq as [t' Ht']. rewrite lookup_insert_ne; [by eauto|]. congruence.
  - apply wp_ret. destruct Hinv. split_and!; try done. split; simpl; try done.
    + intros i t' [[<- <-]|[_ Ht]]%lookup_insert_Some; [done|by apply ci_acq0].
    + intros r Hr. congruence.
Qed.

(** ** Proposals of peers *)
Lemma disputes_ok_insert curr acq ours D C n p :
  disputes_ok curr acq nobody nobody ours D C →
  disputes_ok (<[n := p]> curr) acq (eq n) (eq n) ours D C.
Proof.
  intros []. split; try done.
  - intros i d m Hd Hm. rewrite dom_insert. apply elem_of_union_r. by eapply dk_voters0.
  - intros i d m q t Hd Hq Hne Ht. rewrite lookup_insert_ne in Hq by done.
    eapply dk_votes0; try done. by intros [].
  - intros m q Hq Hne Ha. rewrite lookup_insert_ne in Hq by done.
    eapply dk_compared0; try done. by intros [].
Qed.

Lemma cinv_weaken pv pc pv' pc' s :
  cinv_p pv pc s →
  (∀ n p, currPeerPositions_ s !! n = Some p → is_Some (result_ s) →
    is_Some (acquired_ s !! position p) → (pv n → pv' n) ∧ (pc n → pc' n)) →
  cinv_p pv' pc' s.
Proof.
  intros [] Hp. split; try done. intros r Hr. destruct (ci_result0 r Hr) as [? ? Hok].
  split; try done. eapply disputes_ok_weaken; [exact Hok| |]; intros; by eapply Hp.
Qed.

Lemma newPosition_sets_wp e p s :
  cinv_p (eq (nodeID p)) (eq (nodeID p)) s → currPeerPositions_ s !! nodeID p = Some p →
  wp (newPosition_sets e p) (λ _ s', cinv s' ∧ same_round s s' ∧
    currPeerPositions_ s' = currPeerPositions_ s ∧ deadNodes_ s' = deadNodes_ s) s.
Proof.
  intros Hinv Hn. unfold newPosition_sets. apply wp_bind.
  eapply wp_mono with (P := λ _ s', cinv_p (eq (nodeID p)) (eq (nodeID p)) s' ∧ same_round s s' ∧
    currPeerPositions_ s' = currPeerPositions_ s ∧ deadNodes_ s' = deadNodes_ s).
  { destruct (isInitial p); [apply wp_modify|apply wp_ret]; split_and!; try done.
    by eapply cinv_ext. }
  intros [] s1 (Hinv1 & Hsr1 & Hc1 & Hd1). rewrite <- Hc1 in Hn. apply wp_bind, wp_gets.
  assert (∀ m, wp m (λ (_ : unit) s', cinv s' ∧ same_round s1 s' ∧
      currPeerPositions_ s' = currPeerPositions_ s1 ∧ deadNodes_ s' = deadNodes_ s1) s1 →
    wp m (λ _ s', cinv s' ∧ same_round s s' ∧
      currPeerPositions_ s' = currPeerPositions_ s ∧ deadNodes_ s' = deadNodes_ s) s1) as Hthen.
  { intros m Hm. eapply wp_mono; [exact Hm|]. intros _ s' (? & ? & -> & ->).
    split_and!; try done. by eapply same_round_trans. }
  apply Hthen. destruct (acquired_ s1 !! position p) as [t|] eqn:Ea.
  - destruct (result_ s1) as [r|] eqn:Er.
    + destruct (ci_result _ _ _ Hinv1 r Er) as [_ _ Hok]. eapply wp_mono.
      * eapply (updateDisputes_wp _ p t); try done. by eapply ci_acq.
      * intros [] s' (ev & D & C & -> & Hok'). split_and!; try done; [|by apply upd_same].
        eapply cinv_upd; [exact Hinv1|done|]. eapply disputes_ok_weaken; [exact Hok'| |];
          by intros m q _ _ [-> ?].
    + apply wp_ret. split_and!; try done. eapply cinv_weaken; [exact Hinv1|].
      rewrite Er. by intros ? ? ? [? ?].
  - assert (cinv s1) as Hinv'.
    { eapply cinv_weaken; [exact Hinv1|]. intros m q Hq _ Ha. split; intros <-;
        rewrite Hn in Hq; injection Hq as ->; rewrite Ea in Ha; by destruct Ha. }
    destruct (e_acquireTxSet e (position p)) as [t|]; [by apply gotTxSet_wp|].
    apply wp_ret. by split_and!.
Qed.

(** The proposals that are taken: of the current ledger, from a peer that has not
    bowed out, and newer than the peer's last one. *)
Definition takes s (p : ConsensusProposal) : bool :=
  bool_decide (phase_ s ≠ ph_accepted) && (previousLedger p =? prevLedgerID_ s) &&
  bool_decide (nodeID p ∉ deadNodes_ s) &&
  match currPeerPositions_ s !! nodeID p with
  | Some old => proposeSeq old <? proposeSeq p
  | None => true
  end.

Definition took s s' (p : ConsensusProposal) (b : bool) : Prop :=
  currPeerPositions_ s' =
    (if b then if isBowOut p then delete (nodeID p) (currPeerPositions_ s)
               else <[nodeID p := p]> (currPeerPositions_ s)
     else currPeerPositions_ s) ∧
  deadNodes_ s' = if b && isBowOut p then {[nodeID p]} ∪ deadNodes_ s else deadNodes_ s.

Lemma bowOut_cinv s s1 n :
  cinv s → acquired_ s1 = acquired_ s → currPeerPositions_ s1 = delete n (currPeerPositions_ s) →
  prevLedgerID_ s1 = prevLedgerID_ s → deadNodes_ s1 = {[n]} ∪ deadNodes_ s →
  phase_ s1 = phase_ s → result_ s1 = unVoteAll n <$> result_ s →
  recentPeerPositions_ s1 = recentPeerPositions_ s → cinv s1.
Proof.
  intros [] H1 H2 H3 H4 H5 H6 H7. split; rewrite ?H1, ?H2, ?H3, ?H4, ?H5, ?H6, ?H7; try done.
  - intros m q [_ Hq]%lookup_delete_Some. by apply ci_curr0.
  - intros m [->%elem_of_singleton|Hm]%elem_of_union; [by rewrite lookup_delete_eq|].
    apply lookup_delete_None. auto.
  - intros Ho. by rewrite (ci_open0 Ho).
  - intros He. by apply fmap_is_Some, ci_establish0.
  - intros r Hr. apply fmap_Some in Hr as (r0 & Hr0 & ->).
    destruct (ci_result0 r0 Hr0) as [Hid Hacq Hok]. split; simpl; rewrite ?H1, ?H2; try done.
    by apply disputes_ok_forget.
Qed.

Lemma insert_cinv s s1 p :
  cinv s → acquired_ s1 = acquired_ s →
  currPeerPositions_ s1 = <[nodeID p := p]> (currPeerPositions_ s) →
  prevLedgerID_ s1 = prevLedgerID_ s → deadNodes_ s1 = deadNodes_ s →
  phase_ s1 = phase_ s → result_ s1 = result_ s →
  recentPeerPositions_ s1 = recentPeerPositions_ s →
  previousLedger p = prevLedgerID_ s → nodeID p ∉ deadNodes_ s → isBowOut p = false →
  cinv_p (eq (nodeID p)) (eq (nodeID p)) s1.
Proof.
  intros [] H1 H2 H3 H4 H5 H6 H7 Hp Hd Hb.
  split; rewrite ?H1, ?H2, ?H3, ?H4, ?H5, ?H6, ?H7; try done.
  - intros m q [[<- <-]|[_ Hq]]%lookup_insert_Some; [done|by apply ci_curr0].
  - intros m Hm. rewrite lookup_insert_ne; [by auto|]. by intros <-.
  - intros r Hr. destruct (ci_result0 r Hr) as [Hid Hacq Hok].
    split; rewrite ?H1, ?H2; try done. by apply disputes_ok_insert.
Qed.

Lemma peerProposalInternal_wp e now p s :
  cinv s →
  wp (peerProposalInternal e now p) (λ b s', cinv s' ∧ same_round s s' ∧
    b = takes s p ∧ took s s' p b) s.
Proof.
  intros Hinv. unfold peerProposalInternal, takes, took. apply wp_bind, wp_gets.
  case_decide as Hph.
  { apply wp_ret. rewrite bool_decide_false by tauto. by split_and!. }
  rewrite bool_decide_true by done. apply wp_bind, wp_modify.
  assert (cinv (set_now now s)) as Hinv1 by by eapply cinv_ext.
  destruct (Z.eqb_spec (previousLedger p) (prevLedgerID_ s)) as [Hpl|]; simpl.
  2: { apply wp_ret. by split_and!. }
  case_decide as Hdead.
  { apply wp_ret. rewrite bool_decide_false by tauto. by split_and!. }
  rewrite (bool_decide_true (_ ∉ _)) by done. simpl.
  set (newer := match currPeerPositions_ s !! nodeID p with Some old => _ | None => true end).
  replace (match currPeerPositions_ s !! nodeID p with
    | Some old => proposeSeq p <=? proposeSeq old | None => false end) with (negb newer)
    by (unfold newer; destruct (currPeerPositions_ s !! nodeID p); [rewrite Z.ltb_antisym, negb_involutive|]; done).
  destruct newer; simpl; [|apply wp_ret; by split_and!].
  destruct (isBowOut p) eqn:Eb; simpl.
  - apply wp_bind. eapply wp_mono with (P := λ _ s', s' = set_result (unVoteAll (nodeID p) <$>
      result_ s) (set_now now s)).
    + destruct (result_ s) as [r|] eqn:Er; [by eapply wp_modifyResult|].
      apply wp_ret. destruct s; simpl in *. by rewrite Er.
    + intros [] s' ->. apply wp_bind, wp_modify, wp_bind, wp_modify, wp_ret.
      split_and!; try done; [by eapply (bowOut_cinv s)|].
      split; simpl; try done; by destruct (result_ s).
  - apply wp_bind, wp_modify, wp_bind.
    eapply wp_mono; [apply newPosition_sets_wp; [|simpl; by rewrite lookup_insert_eq]|].
    + by eapply (insert_cinv s).
    + intros [] s' (Hinv' & Hsr & Hc & Hd). apply wp_ret. split_and!; try done.
      eapply same_round_trans; [|exact Hsr]. by split.
Qed.
End spec.
