(* ===== verification/ConsensusRounds.v ===== *)
(** * Rounds of consensus keep the invariant and do not fail

    The remaining operations of Consensus.v preserve [cinv], never dereference
    an empty result, and terminate when the adaptor's view of the network is
    stable during a call. *)

From stdpp Require Import prelude gmap sorting.
From Stdlib Require Import ZArith Lia.
From S2P Require Import Prelude.
From S2P Require Import LedgerTiming.
From S2P Require Import Disputes.
From S2P Require Import ConsensusState.
From S2P Require Import Consensus.
From S2P Require Import ConsensusSpec.

Section rounds.
  Context {Tx TxSet : Type} `{TxSetLaws Tx TxSet}.
  Abbreviation State := (CState Tx TxSet).
  Abbreviation cinv := (cinv_p nobody nobody).
  Implicit Types (e : Env TxSet) (s : State) (r : ConsensusResult Tx TxSet).
  Implicit Types (D : gmap Z (DisputedTx Tx)) (C : gset Z) (o t ours : TxSet).

(** What the assertion of [ConsensusResult]'s constructor asks of [onClose]. *)
Definition onClose_ok e : Prop :=
  ∀ l now m, ts_id (e_onClose e l now m).1 = position (e_onClose e l now m).2.

(** ** Proposals *)
Lemma peerProposal_wp e now p s :
  cinv s →
  wp (peerProposal e now p) (λ b s', cinv s' ∧ b = takes s p ∧ took s s' p b ∧
    phase_ s' = phase_ s ∧ prevLedgerID_ s' = prevLedgerID_ s) s.
Proof.
  intros Hinv. unfold peerProposal. apply wp_bind, wp_gets, wp_bind, wp_modify.
  set (s1 := set_recentPeerPositions _ s).
  assert (cinv s1) as Hinv1.
  { destruct Hinv as [Ca Cc Cd Co Ce Cr Ct]. split; simpl; try done.
    - intros r Hr. destruct (Cr r Hr). by split.
    - intros n l [[<- <-]|[_ Hl]]%lookup_insert_Some; [|by apply Ct].
      assert (∃ l0, (length l0 ≤ 10)%nat ∧ Forall (λ q, nodeID q = nodeID p) l0 ∧
        default [] (recentPeerPositions_ s !! nodeID p) = l0) as (l0 & Hlen & Hall & ->).
      { destruct (recentPeerPositions_ s !! nodeID p) as [l0|] eqn:E; simpl.
        - destruct (Ct _ _ E). eauto.
        - exists []. split_and!; [simpl; lia|constructor|done]. }
      case_decide as Hd; rewrite length_app, Forall_app, Forall_singleton; simpl.
      + destruct l0 as [|q l0]; simpl in *; [lia|]. split_and!; [lia| |done].
        by apply Forall_cons in Hall as [_ Hall].
      + split_and!; [lia|done|done]. }
  eapply wp_mono; [by apply peerProposalInternal_wp|].
  intros b s' (Hinv' & [] & Hb & Ht). by split_and!.
Qed.

Lemma playbackProposals_wp e s :
  cinv s → wp (playbackProposals e) (λ _ s', cinv s' ∧ same_round s s') s.
Proof.
  intros Hinv. unfold playbackProposals. apply wp_bind, wp_gets.
  apply (wp_for_each (λ s', cinv s' ∧ same_round s s')); [by split; [|apply same_round_refl]|].
  intros [n props] s1 _ H1. apply wp_for_each; [done|]. clear s1 H1.
  intros p s1 _ [Hinv1 Hsr1]. apply wp_bind, wp_gets. case_match; [|by apply wp_ret].
  apply wp_bind. eapply wp_mono; [by apply peerProposalInternal_wp|].
  intros b s2 (Hinv2 & Hsr2 & _ & _). pose proof (same_round_trans _ _ _ Hsr1 Hsr2) as Hsr.
  destruct b; [|apply wp_ret; by split]. apply wp_modify.
  split; [by eapply cinv_ext|]. eapply same_round_trans; [exact Hsr|by split].
Qed.

(** ** Modes *)
Lemma setMode_wp m s :
  wp (setMode m) (λ _ s', s' = set_mode m (set_events (events s ++ [ev_modeChange (mode_ s) m]) s)) s.
Proof. done. Qed.

Lemma position_cinv s s1 p' :
  cinv s → acquired_ s1 = acquired_ s → currPeerPositions_ s1 = currPeerPositions_ s →
  prevLedgerID_ s1 = prevLedgerID_ s → deadNodes_ s1 = deadNodes_ s → phase_ s1 = phase_ s →
  (∃ r, result_ s = Some r ∧ position p' = position (r_position r) ∧
        result_ s1 = Some (set_r_position p' r)) →
  recentPeerPositions_ s1 = recentPeerPositions_ s → cinv s1.
Proof.
  intros [Ca Cc Cd Co Ce Cr Ct] H1 H2 H3 H4 H5 (r & Hr & Hp & H6) H7.
  split; rewrite ?H1, ?H2, ?H3, ?H4, ?H5, ?H6, ?H7; try done.
  - intros Ho. by rewrite (Co Ho) in Hr.
  - intros r' [= <-]. destruct (Cr r Hr). split; simpl; by rewrite ?H1, ?H2, ?Hp.
Qed.

(** Leaving consensus: no longer proposing, and bowed out of a position taken. *)
Lemma leaveConsensus_wp s :
  cinv s →
  wp leaveConsensus (λ _ s', cinv s' ∧ mode_ s' ≠ proposing ∧ phase_ s' = phase_ s ∧
    prevLedgerID_ s' = prevLedgerID_ s ∧ previousLedger_ s' = previousLedger_ s ∧
    (mode_ s = proposing → ∀ r, result_ s' = Some r → isBowOut (r_position r) = true)) s.
Proof.
  intros Hinv. unfold leaveConsensus. apply wp_bind, wp_gets. case_decide as Hm.
  2: { apply wp_ret. split_and!; try done; by intros ?. }
  apply wp_bind. destruct (result_ s) as [r|] eqn:Er.
  - destruct (isBowOut (r_position r)) eqn:Eb.
    + apply wp_ret. eapply wp_mono; [apply setMode_wp|]. intros [] s' ->.
      split_and!; try done; [by eapply cinv_ext|]. simpl. rewrite Er. by intros _ r' [= <-].
    + apply wp_bind. eapply wp_modifyResult; [done|]. apply wp_modify.
      eapply wp_mono; [apply setMode_wp|]. intros [] s' ->.
      split_and!; try done; [|by intros _ r' [= <-]].
      apply (position_cinv s _ (bowOut (now_ s) (r_position r))); try done. by exists r.
  - apply wp_ret. eapply wp_mono; [apply setMode_wp|]. intros [] s' ->.
    split_and!; try done; [by eapply cinv_ext|]. simpl. by rewrite Er.
Qed.

(** ** Closing *)
Lemma closeLedger_wp e s :
  cinv s → onClose_ok e →
  wp (closeLedger e) (λ _ s', cinv s' ∧ phase_ s' = ph_establish ∧ mode_ s' = mode_ s ∧
    prevLedgerID_ s' = prevLedgerID_ s ∧ previousLedger_ s' = previousLedger_ s ∧
    currPeerPositions_ s' = currPeerPositions_ s ∧
    ∃ r, result_ s' = Some r ∧ timer_read (r_roundTime r) = 0) s.
Proof.
  intros Hinv Hcl. unfold closeLedger. apply wp_bind, wp_modify, wp_bind, wp_modify, wp_bind, wp_gets.
  simpl. specialize (Hcl (previousLedger_ s) (now_ s) (mode_ s)).
  destruct (e_onClose e _ _ _) as [txns pos]. simpl in Hcl.
  set (r := mkResult txns pos ∅ ∅ _ _ _).
  apply wp_bind, wp_modify. set (s1 := set_result (Some r) _). apply wp_bind.
  eapply wp_mono with (P := λ _ s', (∀ i t, acquired_ s' !! i = Some t → ts_id t = i) ∧
    is_Some (acquired_ s' !! position pos) ∧ ∃ ev a, s' = set_events ev (set_acquired a s1)).
  { destruct (acquired_ s !! ts_id txns) as [t|] eqn:Ea.
    - apply wp_ret. split_and!; [by destruct Hinv|rewrite <- Hcl; by eexists|].
      exists (events s1), (acquired_ s1). done.
    - apply wp_bind, wp_modify, wp_modify. simpl. split_and!.
      + intros i t [[<- <-]|[_ Ht]]%lookup_insert_Some; [done|]. by eapply ci_acq.
      + rewrite Hcl, lookup_insert_eq. by eexists.
      + by eexists _, _. }
  intros [] s2 (Hacq & Hpos & ev0 & a & ->). simpl in Hacq, Hpos. apply wp_bind.
  eapply wp_mono with (P := λ _ s', ∃ ev, s' = set_events ev (set_acquired a s1)).
  { case_decide; [apply wp_modify; by eexists|apply wp_ret; by eexists]. }
  intros [] s2 (ev & ->).
  set (s2 := set_events ev (set_acquired a s1)).
  assert (∀ s', (∃ ev D C, s' = upd s2 r ev D C ∧
      disputes_ok (currPeerPositions_ s) a nobody nobody txns D C) →
    cinv s' ∧ phase_ s' = ph_establish ∧ mode_ s' = mode_ s ∧ prevLedgerID_ s' = prevLedgerID_ s ∧
    previousLedger_ s' = previousLedger_ s ∧ currPeerPositions_ s' = currPeerPositions_ s ∧
    ∃ r, result_ s' = Some r ∧ timer_read (r_roundTime r) = 0) as Hend.
  { intros s' (ev' & D & C & -> & Hok). split_and!; try done; [|by eexists].
    destruct Hinv as [Ca Cc Cd Co Ce Cr Ct]. split; simpl; try done. intros r' [= <-]. by split. }
  eapply wp_mono.
  - apply (wp_fold_each (λ done _ s', ∃ ev D C, s' = upd s2 r ev D C ∧
      disputes_ok (currPeerPositions_ s) a nobody (λ m, m ∉ map fst done) txns D C)).
    { exists ev, ∅, ∅. split; [done|]. apply disputes_ok_empty. set_solver. }
    intros done [n p] todo [] s' Hl (ev' & D & C & -> & Hok).
    assert (currPeerPositions_ s !! n = Some p) as Hn.
    { apply elem_of_map_to_list. rewrite Hl. set_solver. }
    apply wp_bind, wp_gets. simpl. rewrite map_app.
    destruct (a !! position p) as [t|] eqn:Ea.
    + eapply wp_mono; [eapply createDisputes_wp; [done|exact Hok]|].
      intros [] s' (ev'' & D' & -> & Hok'). simpl in Hok'. eexists _, _, _. split; [done|].
      destruct Hok' as [K1 K2 K3 K4 K5 K6 K7]. split; try done. intros m q Hm Hnm Ha.
      destruct (decide (m = n)) as [->|Hne].
      * assert (q = p) as -> by (simpl in *; congruence). rewrite <- (Hacq _ _ Ea). set_solver.
      * eapply K6; try done. set_solver.
    + apply wp_ret. exists ev', D, C. split; [done|].
      eapply disputes_ok_weaken; [exact Hok|done|]. simpl.
      intros m q Hm Ha Hnm. assert (m ≠ n); [|set_solver].
      intros ->. assert (q = p) as -> by congruence. rewrite Ea in Ha. by destruct Ha.
  - intros [] s' (ev' & D & C & -> & Hok). apply Hend. exists ev', D, C. split; [done|].
    eapply disputes_ok_weaken; [exact Hok|done|]. intros n p Hn _ [].
    apply (list_elem_of_fmap_2 fst _ (n, p)). by apply elem_of_map_to_list.
Qed.

(** ** Updating our position *)

(** The part of the invariant that does not concern our result. *)
Record base s : Prop := {
  ba_acq : ∀ i t, acquired_ s !! i = Some t → ts_id t = i;
  ba_curr : ∀ n p, currPeerPositions_ s !! n = Some p →
    nodeID p = n ∧ previousLedger p = prevLedgerID_ s ∧ isBowOut p = false;
  ba_dead : ∀ n, n ∈ deadNodes_ s → currPeerPositions_ s !! n = None;
  ba_open : phase_ s ≠ ph_open;
  ba_recent : ∀ n l, recentPeerPositions_ s !! n = Some l →
    (length l ≤ 10)%nat ∧ Forall (λ p, nodeID p = n) l;
}.

Lemma cinv_base s r : cinv s → result_ s = Some r → base s.
Proof.
  intros [Ca Cc Cd Co Ce Cr Ct] Hr. split; try done. intros Ho. by rewrite (Co Ho) in Hr.
Qed.

Lemma base_cinv s r : base s → result_ s = Some r → result_ok s nobody nobody r → cinv s.
Proof.
  intros [Ba Bc Bd Bo Bt] Hr Hok. split; try done; rewrite Hr. by intros r' [= <-].
Qed.

(** The votes for each close time among some positions. *)
Definition ct_count e s cutoff (l : list (Z * ConsensusProposal)) (k : Z) : Z :=
  Z.of_nat (length (filter (λ x, isStale x.2 cutoff = false ∧
    asCloseTime e (closeTime x.2) s = k) l)).

Lemma count_in_lookup k m k' :
  default 0 (count_in k m !! k') = default 0 (m !! k') + if decide (k = k') then 1 else 0.
Proof.
  unfold count_in. destruct (decide (k = k')) as [->|Hne].
  - by rewrite lookup_insert_eq.
  - rewrite lookup_insert_ne by done. lia.
Qed.

Lemma dropStale_wp e s r :
  cinv s → result_ s = Some r →
  let cutoff := u32 (now_ s - proposeFRESHNESS (e_parms e)) in
  wp (dropStale e) (λ votes s', ∃ D,
    s' = set_currPeerPositions (filter (λ x, isStale x.2 cutoff = false) (currPeerPositions_ s))
           (set_result (Some (set_r_disputes D r)) s) ∧
    disputes_ok (currPeerPositions_ s') (acquired_ s) nobody nobody (r_txns r) D (r_compares r) ∧
    ∀ k, default 0 (votes !! k) = ct_count e s cutoff (map_to_list (currPeerPositions_ s)) k) s.
Proof.
  intros Hinv Hr cutoff. destruct (ci_result _ _ _ Hinv r Hr) as [_ _ Hok].
  unfold dropStale. apply wp_bind, wp_gets. fold cutoff.
  set (keep (done : list (Z * ConsensusProposal)) := filter (λ x : Z * ConsensusProposal,
    isStale x.2 cutoff = false ∨ x.1 ∉ map fst done) (currPeerPositions_ s)).
  eapply wp_mono.
  - apply (wp_fold_each (λ (done : list (Z * ConsensusProposal)) votes s', ∃ D,
      s' = set_currPeerPositions (keep done) (set_result (Some (set_r_disputes D r)) s) ∧
      disputes_ok (keep done) (acquired_ s) nobody nobody (r_txns r) D (r_compares r) ∧
      ∀ k, default 0 (votes !! k) = ct_count e s cutoff done k)).
    + assert (keep [] = currPeerPositions_ s) as ->.
      { apply map_filter_id. intros n p Hn. right. simpl. set_solver. }
      exists (r_disputes r). split_and!; [destruct s, r; simpl in *; by rewrite Hr|done|done].
    + intros done [n p] todo votes s' Hl (D & -> & Hok' & Hv).
      assert (currPeerPositions_ s !! n = Some p) as Hn.
      { apply elem_of_map_to_list. rewrite Hl. set_solver. }
      destruct (isStale p cutoff) eqn:Es.
      * apply wp_bind. eapply wp_modifyResult; [done|]. apply wp_bind, wp_modify, wp_ret. simpl.
        rewrite (proj1 (ci_curr _ _ _ Hinv n p Hn)).
        assert (keep (done ++ [(n, p)]) = delete n (keep done)) as Hk.
        { apply map_eq. intros m. unfold keep. rewrite map_lookup_filter.
          destruct (decide (m = n)) as [->|Hne].
          - rewrite lookup_delete_eq, Hn. simpl. case_guard as Hg; [|done].
            destruct Hg as [Hg|[]]; simpl in *; [congruence|]. rewrite map_app. set_solver.
          - rewrite lookup_delete_ne, map_lookup_filter by done.
            destruct (currPeerPositions_ s !! m) as [q|]; simpl; [|done].
            rewrite map_app. repeat case_guard; simpl in *; try done; set_solver. }
        eexists. split_and!; [by rewrite Hk|rewrite Hk; by apply disputes_ok_forget|].
        intros k. rewrite Hv. unfold ct_count. rewrite filter_app, filter_cons_False, app_nil_r;
          [done|]. simpl. intros [? _]. congruence.
      * apply wp_ret. simpl. exists D.
        assert (keep (done ++ [(n, p)]) = keep done) as Hk.
        { apply map_filter_ext. intros m q Hq. rewrite map_app.
          destruct (decide (m = n)) as [->|]; [|set_solver].
          assert (q = p) as -> by congruence. simpl. rewrite Es. tauto. }
        rewrite Hk. split_and!; [done|done|]. intros k. rewrite count_in_lookup, Hv.
        unfold ct_count. rewrite filter_app, length_app, filter_cons. simpl.
        repeat case_decide; simpl; try lia; tauto.
  - intros votes s' (D & -> & Hok' & Hv). exists D.
    assert (keep (map_to_list (currPeerPositions_ s)) =
      filter (λ x, isStale x.2 cutoff = false) (currPeerPositions_ s)) as <-.
    { apply map_filter_ext. intros m q Hq. simpl. split; [|by left].
      intros [?|[]]; [done|]. apply (list_elem_of_fmap_2 fst _ (m, q)).
      by apply elem_of_map_to_list. }
    by split_and!.
Qed.

(** Our vote on a dispute changes, and our set with it. *)
Lemma disputes_ok_flip curr acq ours D C i d d' :
  D !! i = Some d → dispute_ok d' → votes_ d' = votes_ d → tx_ d' = tx_ d →
  disputes_ok curr acq nobody nobody ours D C →
  disputes_ok curr acq nobody nobody
    (if ourVote_ d' then ts_insert (tx_ d') ours else ts_erase i ours) (<[i := d']> D) C.
Proof.
  intros Hd Hok' Hv Ht [K1 K2 K3 K4 K5 K6 K7].
  set (ours' := if ourVote_ d' then _ else _).
  assert (∀ j, ts_exists ours' j = if decide (j = i) then ourVote_ d' else ts_exists ours j) as Hex.
  { intros j. unfold ours'. destruct (ourVote_ d').
    - rewrite ts_exists_insert, Ht, (K1 _ _ Hd). repeat case_bool_decide; case_decide; done.
    - rewrite ts_exists_erase. repeat case_bool_decide; case_decide; done. }
  split.
  - intros j x [[<- <-]|[_ Hx]]%lookup_insert_Some; [rewrite Ht|]; by eapply K1.
  - intros j x [[<- <-]|[_ Hx]]%lookup_insert_Some; [done|]; by eapply K2.
  - intros j x [[<- <-]|[Hne Hx]]%lookup_insert_Some; rewrite Hex.
    + by rewrite decide_True.
    + rewrite decide_False by done. by apply K3.
  - intros j x n [[<- <-]|[_ Hx]]%lookup_insert_Some; [rewrite Hv|]; by eapply K4.
  - intros j x n p t [[<- <-]|[_ Hx]]%lookup_insert_Some; [rewrite Hv|]; by eapply K5.
  - done.
  - intros t j HC. rewrite Hex. case_decide as Hj; [subst; by rewrite lookup_insert_eq|].
    rewrite lookup_insert_ne by done. by apply K7.
Qed.

Lemma updateVotes_wp e s r :
  result_ s = Some r →
  disputes_ok (currPeerPositions_ s) (acquired_ s) nobody nobody (r_txns r) (r_disputes r)
    (r_compares r) →
  wp (updateVotes e) (λ new s', ∃ D, s' = set_result (Some (set_r_disputes D r)) s ∧
    disputes_ok (currPeerPositions_ s) (acquired_ s) nobody nobody (default (r_txns r) new) D
      (r_compares r)) s.
Proof.
  intros Hr Hok. unfold updateVotes. apply wp_bind, (wp_getResult _ _ r Hr).
  eapply wp_mono.
  - apply (wp_fold_each (λ done new s', ∃ D, s' = set_result (Some (set_r_disputes D r)) s ∧
      disputes_ok (currPeerPositions_ s) (acquired_ s) nobody nobody (default (r_txns r) new) D
        (r_compares r) ∧ ∀ i, i ∉ map fst done → D !! i = r_disputes r !! i)).
    + exists (r_disputes r). split_and!; [destruct s, r; simpl in *; by rewrite Hr|done|done].
    + intros done [i d] todo new s' Hl (D & -> & Hok' & Hsame).
      assert (D !! i = Some d) as Hd.
      { rewrite Hsame; [apply elem_of_map_to_list; rewrite Hl; set_solver|].
        pose proof (NoDup_fst_map_to_list (r_disputes r)) as Hnd. rewrite Hl, map_app in Hnd.
        simpl in Hnd. apply NoDup_app in Hnd as (_ & Hnd & _). intros Hin. by apply (Hnd i Hin), list_elem_of_here. }
      apply wp_bind, wp_gets.
      pose proof (updateVote_ok (convergePercent_ s) (bool_decide (mode_ s = proposing)) (e_parms e)
        d (dk_counts _ _ _ _ _ _ _ Hok' i d Hd)) as (U1 & U2 & U3 & U4).
      simpl. destruct (updateVote _ _ _ _) as [d' ch]. simpl in *. destruct ch.
      * apply wp_bind. eapply wp_modifyResult; [done|]. apply wp_ret. simpl.
        exists (<[i := d']> D). split_and!; [done| |].
        -- by eapply disputes_ok_flip.
        -- intros j Hj. rewrite map_app in Hj. simpl in Hj.
           rewrite lookup_insert_ne by set_solver. apply Hsame. set_solver.
      * apply wp_ret. exists D. split_and!; [done|done|]. intros j Hj. apply Hsame.
        rewrite map_app in Hj. set_solver.
  - intros new s' (D & -> & Hok' & _). by exists D.
Qed.

Lemma closeTimeConsensus_wp e votes s r :
  result_ s = Some r →
  wp (closeTimeConsensus e votes) (λ _ s', ∃ b, s' = set_haveCloseTimeConsensus b s) s.
Proof.
  intros Hr. unfold closeTimeConsensus. apply wp_bind, wp_gets, wp_bind, (wp_getResult _ _ r Hr).
  case_decide.
  - apply wp_bind, wp_modify, wp_ret. by eexists.
  - destruct (if decide (mode_ s = proposing) then _ else _) as [votes' n].
    destruct (foldl _ _ _) as [[v t] have]. apply wp_bind, wp_modify, wp_ret. by eexists.
Qed.

(** What phases other than a change of ledger leave alone. *)
Record same_ledger s s' : Prop := {
  sl_phase : phase_ s' = phase_ s;
  sl_mode : mode_ s' = mode_ s;
  sl_prevID : prevLedgerID_ s' = prevLedgerID_ s;
  sl_prev : previousLedger_ s' = previousLedger_ s;
  sl_proposers : prevProposers_ s' = prevProposers_ s;
  sl_roundTime : prevRoundTime_ s' = prevRoundTime_ s;
  sl_timer : r_roundTime <$> result_ s' = r_roundTime <$> result_ s;
}.

Lemma takePosition_wp new ct s r :
  base s → result_ s = Some r →
  disputes_ok (currPeerPositions_ s) (acquired_ s) nobody nobody new (r_disputes r)
    (r_compares r) →
  wp (takePosition new ct) (λ _ s', cinv s' ∧ same_ledger s s') s.
Proof.
  intros Hb Hr Hok. unfold takePosition. apply wp_bind, wp_gets, wp_bind.
  eapply wp_modifyResult; [done|]. apply wp_bind. eapply wp_getResult; [done|].
  set (r1 := set_r_position _ _). set (s1 := set_result (Some r1) s).
  assert (ts_id (r_txns r1) = position (r_position r1)) as Hid by done.
  apply wp_bind. eapply wp_mono with (P := λ _ s', cinv s' ∧ same_ledger s s').
  - destruct (acquired_ s !! ts_id new) as [t|] eqn:Ea.
    + apply wp_ret. split; [|split; simpl; by rewrite ?Hr].
      apply (base_cinv _ r1); [by destruct Hb; split|done|].
      split; simpl; [done|rewrite Ea; by eexists|done].
    + apply wp_bind, wp_modify, wp_bind. set (s2 := set_acquired _ s1).
      eapply wp_mono with (P := λ _ s', ∃ ev, s' = set_events ev s2).
      { destruct (isBowOut _); [apply wp_ret; by exists (events s2)|apply wp_modify; by eexists]. }
      intros [] s3 (ev & ->). set (s3 := set_events ev s2).
      eapply wp_mono; [apply (notify_wp new s3 r1); [done|simpl; by rewrite lookup_insert_eq|]|].
      { by apply disputes_ok_acquire. }
      intros [] s' (ev' & D & C & -> & Hok'). split; [|split; simpl; by rewrite ?Hr].
      apply (base_cinv _ (set_r_compares C (set_r_disputes D r1))); [|done|].
      * destruct Hb as [Ba Bc Bd Bo Bt]. split; simpl; try done.
        intros i t [[<- <-]|[_ Ht]]%lookup_insert_Some; [done|by apply Ba].
      * split; simpl; [done|rewrite lookup_insert_eq; by eexists|done].
  - intros [] s' [Hinv' Hsl]. destruct (negb _ && _); [|by apply wp_ret].
    apply wp_modify. split; [by eapply cinv_ext|]. destruct Hsl. by split.
Qed.

Lemma updateOurPositions_wp e s r :
  cinv s → result_ s = Some r →
  wp (updateOurPositions e) (λ _ s', cinv s' ∧ same_ledger s s') s.
Proof.
  intros Hinv Hr. pose proof (cinv_base s r Hinv Hr) as Hb.
  destruct (ci_result _ _ _ Hinv r Hr) as [Hid Hacq _]. unfold updateOurPositions.
  apply wp_bind. eapply wp_mono; [by apply dropStale_wp|].
  intros votes s1 (D1 & -> & Hok1 & _). set (curr := filter _ _) in *.
  apply wp_bind. eapply wp_mono; [by eapply updateVotes_wp|].
  intros new s2 (D2 & -> & Hok2). simpl in Hok2.
  apply wp_bind. eapply wp_mono; [by eapply closeTimeConsensus_wp|].
  intros ct s3 (b & ->). apply wp_bind, wp_gets, wp_bind. eapply wp_getResult; [done|].
  set (s3 := set_haveCloseTimeConsensus b _).
  assert (base s3) as Hb3.
  { destruct Hb as [Ba Bc Bd Bo Bt]. split; simpl; try done.
    - intros n p [Hn _]%map_lookup_filter_Some. by apply Bc.
    - intros n Hn. apply map_lookup_filter_None. left. by apply Bd. }
  assert (same_ledger s s3) as Hsl by (split; simpl; by rewrite ?Hr).
  assert (∀ set, new = Some set ∨ new = None ∧ set = r_txns r →
    wp (takePosition set ct) (λ _ s', cinv s' ∧ same_ledger s s') s3) as Htake.
  { intros set Hset. eapply wp_mono; [eapply takePosition_wp; [done|done|]|].
    - simpl. by destruct Hset as [->|[-> ->]].
    - intros [] s' [Hinv' []]. destruct Hsl. split; [done|]. split; simpl in *; congruence. }
  destruct new as [set|]; [by apply Htake; left|]. simpl. destruct (negb _ || _).
  - by apply Htake; right.
  - apply wp_ret. split; [|done]. eapply base_cinv; [done|done|]. by split.
Qed.

Lemma shouldPause_wp e s r :
  result_ s = Some r → wp (shouldPause e) (λ _ s', s' = s) s.
Proof.
  intros Hr. unfold shouldPause. apply wp_bind, wp_gets, wp_bind, (wp_getResult _ _ r Hr).
  destruct (e_getQuorumKeys e). by destruct (e_laggards e _ _).
Qed.

(** ** Acceptance *)

(** The state in which a result was accepted: the last thing reported is the
    result, transaction consensus was reached by the count of the peers that
    propose our position, the close time is agreed, and the round lasted. *)
Definition accepted_ok e s : Prop :=
  ∃ r pos prevProposers prevRound,
    result_ s = Some r ∧ haveCloseTimeConsensus_ s = true ∧
    last (events s) = Some (ev_accept r (previousLedger_ s) (closeResolution_ s) (rawPeers_ s)
                              (rawSelf_ s) (mode_ s)) ∧
    pos = position (r_position r) ∧ pos = ts_id (r_txns r) ∧
    r_state r ≠ cs_No ∧
    r_state r = checkConsensus prevProposers (Z.of_nat (size (currPeerPositions_ s)))
      (agreeing pos (currPeerPositions_ s))
      (e_proposersFinished e (previousLedger_ s) (prevLedgerID_ s)) prevRound
      (timer_read (r_roundTime r)) (e_parms e) (bool_decide (mode_ s = proposing)) ∧
    prevProposers_ s = Z.of_nat (size (currPeerPositions_ s)) ∧
    prevRoundTime_ s = timer_read (r_roundTime r).

Definition phase_ok e s : Prop := cinv s ∧ (phase_ s = ph_accepted → accepted_ok e s).

Lemma result_cinv s s1 r r1 :
  cinv s → result_ s = Some r → result_ s1 = Some r1 → acquired_ s1 = acquired_ s →
  currPeerPositions_ s1 = currPeerPositions_ s → prevLedgerID_ s1 = prevLedgerID_ s →
  deadNodes_ s1 = deadNodes_ s → phase_ s1 ≠ ph_open →
  recentPeerPositions_ s1 = recentPeerPositions_ s →
  r_txns r1 = r_txns r → r_position r1 = r_position r → r_disputes r1 = r_disputes r →
  r_compares r1 = r_compares r → cinv s1.
Proof.
  intros Hinv Hr Hr1 H1 H2 H3 H4 H5 H6 R1 R2 R3 R4.
  destruct (ci_result _ _ _ Hinv r Hr) as [Hid Hacq Hok].
  pose proof (cinv_base s r Hinv Hr) as [Ba Bc Bd Bo Bt].
  apply (base_cinv _ r1); [|done|].
  - split; rewrite ?H1, ?H2, ?H3, ?H4, ?H6; done.
  - split; rewrite ?H1, ?H2, ?R1, ?R2, ?R3, ?R4; done.
Qed.

Lemma phaseEstablish_wp e s :
  cinv s → phase_ s = ph_establish → wp (phaseEstablish e) (λ _ s', phase_ok e s') s.
Proof.
  intros Hinv Hph. destruct (ci_establish _ _ _ Hinv Hph) as [r Hr].
  unfold phaseEstablish. apply wp_bind, wp_gets, wp_bind. eapply wp_modifyResult; [done|].
  apply wp_bind. eapply wp_getResult; [done|]. apply wp_bind, wp_modify.
  set (s1 := set_convergePercent _ _). set (r1 := set_r_proposers _ _).
  assert (cinv s1) as Hinv1.
  { apply (result_cinv s s1 r r1); try done. simpl. by rewrite Hph. }
  destruct (_ <? _).
  { apply wp_ret. split; [done|]. simpl. by rewrite Hph. }
  apply wp_bind. eapply wp_mono; [by eapply updateOurPositions_wp|].
  intros [] s2 (Hinv2 & Hsl). assert (phase_ s2 = ph_establish) as Hph2.
  { rewrite (sl_phase _ _ Hsl). done. }
  destruct (ci_establish _ _ _ Hinv2 Hph2) as [r2 Hr2].
  apply wp_bind. eapply wp_mono; [by eapply shouldPause_wp|]. intros pause s3 ->.
  destruct pause; [apply wp_ret; split; [done|]; by rewrite Hph2|].
  apply wp_bind. unfold haveConsensus. apply wp_bind, wp_gets, wp_bind, (wp_getResult _ _ r2 Hr2).
  set (state := checkConsensus _ _ _ _ _ _ _ _). apply wp_bind.
  eapply wp_modifyResult; [done|]. apply wp_ret.
  set (r3 := set_r_state state r2). set (s3 := set_result (Some r3) s2).
  assert (cinv s3) as Hinv3.
  { apply (result_cinv s2 s3 r2 r3); try done. simpl. by rewrite Hph2. }
  case_bool_decide as Hst; simpl; [|apply wp_ret; split; [done|]; simpl; by rewrite Hph2].
  apply wp_bind, wp_gets. destruct (haveCloseTimeConsensus_ s3) eqn:Ect; simpl.
  2: { apply wp_ret. split; [done|]. simpl. by rewrite Hph2. }
  unfold acceptResult. apply wp_bind, wp_gets, wp_bind. eapply wp_getResult; [done|].
  apply wp_bind, wp_modify, wp_bind, wp_modify, wp_bind, wp_modify, wp_modify. split.
  - by eapply (result_cinv s3 _ r3 r3).
  - intros _. destruct (ci_result _ _ _ Hinv3 r3 eq_refl) as [Hid _ _].
    exists r3, (position (r_position r3)), (prevProposers_ s2), (prevRoundTime_ s2). split_and!; simpl; try done.
    + by rewrite last_snoc.
    + unfold state. f_equal. lia.
Qed.

Lemma phaseOpen_wp e s :
  cinv s → phase_ s = ph_open → onClose_ok e → wp (phaseOpen e) (λ _ s', phase_ok e s') s.
Proof.
  intros Hinv Hph Hcl. unfold phaseOpen. apply wp_bind, wp_modify, wp_bind, wp_gets.
  set (s1 := set_openTime _ s). assert (cinv s1) as Hinv1 by by eapply cinv_ext.
  destruct (shouldCloseLedger _ _ _ _ _ _ _ _ _).
  - eapply wp_mono; [by apply closeLedger_wp|]. intros [] s' (Hinv' & Hph' & _).
    split; [done|]. by rewrite Hph'.
  - apply wp_ret. split; [done|]. simpl. by rewrite Hph.
Qed.

(** ** Rounds *)

(** During a call the adaptor's view of the network is stable: it delivers
    ledgers under their own ID, and once the node has moved to the ledger the
    network is on, that ledger is still the one the network is on. *)
Definition stable e : Prop :=
  ∀ i l m l', let net := e_getPrevLedger e i l m in
    e_acquireLedger e net = Some l' →
    lg_id l' = net ∧ e_getPrevLedger e net l' switchedLedger = net.

(** A state that agrees with the network. *)
Definition synced e s : Prop :=
  e_getPrevLedger e (prevLedgerID_ s) (previousLedger_ s) (mode_ s) = prevLedgerID_ s ∧
  lg_id (previousLedger_ s) = prevLedgerID_ s.

Lemma startRoundInternal_wp e tm now id l m s :
  (∀ n l, recentPeerPositions_ s !! n = Some l →
    (length l ≤ 10)%nat ∧ Forall (λ p, nodeID p = n) l) →
  (∀ s1, cinv s1 → phase_ s1 = ph_open → mode_ s1 = m → prevLedgerID_ s1 = id →
    previousLedger_ s1 = l → wp (tm (now_ s1)) (λ _, phase_ok e) s1) →
  wp (startRoundInternal e tm now id l m) (λ _, phase_ok e) s.
Proof.
  intros Hrec Htm. unfold startRoundInternal. apply wp_bind, wp_modify, wp_bind.
  eapply wp_mono; [apply setMode_wp|]. intros [] s1 ->. apply wp_bind, wp_modify.
  match goal with |- wp _ _ ?x => set (s1 := x) end.
  assert (cinv s1) as Hinv1.
  { split; simpl; try done. }
  apply wp_bind. eapply wp_mono; [by apply playbackProposals_wp|].
  intros [] s2 (Hinv2 & Hsr). apply wp_bind, wp_gets.
  assert (phase_ s2 = ph_open) as Hph by by rewrite (sr_phase _ _ Hsr).
  destruct (_ <? _).
  - apply Htm; try done; [by rewrite (sr_mode _ _ Hsr)|by rewrite (sr_prevID _ _ Hsr)|
      by rewrite (sr_prev _ _ Hsr)].
  - apply wp_ret. split; [done|]. by rewrite Hph.
Qed.

Lemma handleWrongLedger_wp e tm id s :
  cinv s → phase_ s ≠ ph_accepted →
  (∀ s1 l, cinv s1 → phase_ s1 = ph_open → e_acquireLedger e id = Some l →
    mode_ s1 = switchedLedger → prevLedgerID_ s1 = id → previousLedger_ s1 = l →
    wp (tm (now_ s1)) (λ _, phase_ok e) s1) →
  wp (handleWrongLedger e tm id) (λ _, phase_ok e) s.
Proof.
  intros Hinv Hph Htm. unfold handleWrongLedger. apply wp_bind.
  eapply wp_mono; [by apply leaveConsensus_wp|].
  intros [] s1 (Hinv1 & Hm1 & Hph1 & Hid1 & Hl1 & _). apply wp_bind, wp_gets, wp_bind.
  eapply wp_mono with (P := λ _ s', cinv s' ∧ phase_ s' = phase_ s ∧ prevLedgerID_ s' = id).
  { case_decide as Hne; [|apply wp_ret; split_and!; [done|done|lia]].
    apply wp_bind, wp_modify, wp_bind. set (s2 := set_prevLedgerID id s1).
    eapply wp_mono with (P := λ _ s', s' = set_result
      ((λ r, set_r_compares ∅ (set_r_disputes ∅ r)) <$> result_ s1) s2).
    { destruct (result_ s1) as [r|] eqn:Er; [by eapply wp_modifyResult|].
      apply wp_ret. clear -Er. unfold s2. destruct s1. simpl in Er. by subst. }
    intros [] s3 ->. apply wp_bind, wp_modify.
    match goal with |- wp _ _ ?x => set (s3 := x) end.
    assert (cinv s3) as Hinv3.
    { destruct Hinv1 as [Ca Cc Cd Co Ce Cr Ct]. split; simpl; try done.
      - intros Ho. by rewrite (Co Ho).
      - intros He. by apply fmap_is_Some, Ce.
      - intros r Hr. apply fmap_Some in Hr as (r0 & Hr0 & ->). destruct (Cr r0 Hr0).
        split; simpl; [done|done|]. by apply disputes_ok_empty. }
    eapply wp_mono; [by apply playbackProposals_wp|]. intros [] s4 (Hinv4 & Hsr).
    split_and!; [done|rewrite (sr_phase _ _ Hsr); exact Hph1|by rewrite (sr_prevID _ _ Hsr)]. }
  intros [] s2 (Hinv2 & Hph2 & Hid2). apply wp_bind, wp_gets.
  destruct (_ =? _); [apply wp_ret; split; [done|]; by rewrite Hph2|].
  rewrite Hid2. destruct (e_acquireLedger e id) as [l|] eqn:El.
  - apply startRoundInternal_wp; [by destruct Hinv2|]. intros s3 ?????. by eapply Htm.
  - eapply wp_mono; [apply setMode_wp|]. intros [] s3 ->.
    split; [by eapply cinv_ext|]. simpl. by rewrite Hph2.
Qed.

(** What [timerEntry] does after the ledger was checked. *)
Lemma timer_phases_wp e s :
  onClose_ok e → phase_ok e s →
  wp (match phase_ s with
      | ph_open => phaseOpen e
      | ph_establish => phaseEstablish e
      | ph_accepted => mret tt
      end) (λ _, phase_ok e) s.
Proof.
  intros Hcl [Hinv Hacc]. destruct (phase_ s) eqn:Hph.
  - by apply phaseOpen_wp.
  - by apply phaseEstablish_wp.
  - apply wp_ret. split; [done|]. by intros _; apply Hacc.
Qed.

Lemma timerEntry_synced_wp fuel e now s :
  onClose_ok e → cinv s → phase_ s ≠ ph_accepted → synced e s →
  wp (timerEntry (S fuel) e now) (λ _, phase_ok e) s.
Proof.
  intros Hcl Hinv Hph [Hnet Hid]. simpl. apply wp_bind, wp_gets. rewrite decide_False by done.
  apply wp_bind, wp_modify, wp_bind. unfold checkLedger. apply wp_bind, wp_gets. simpl.
  rewrite Hnet, Hid, !decide_False by tauto. apply wp_ret, wp_bind, wp_gets.
  apply timer_phases_wp; [done|]. split; [by eapply cinv_ext|done].
Qed.

Lemma timerEntry_wp fuel e now s :
  onClose_ok e → stable e → cinv s → phase_ s ≠ ph_accepted →
  wp (timerEntry (S (S fuel)) e now) (λ _, phase_ok e) s.
Proof.
  intros Hcl Hst Hinv Hph. cbn [timerEntry]. apply wp_bind, wp_gets. rewrite decide_False by done.
  apply wp_bind, wp_modify, wp_bind. set (s1 := set_now now s).
  assert (cinv s1) as Hinv1 by by eapply cinv_ext.
  eapply wp_mono with (P := λ _, phase_ok e).
  2: { intros [] s2 Hok. apply wp_bind, wp_gets. by apply timer_phases_wp. }
  unfold checkLedger. apply wp_bind, wp_gets.
  assert (wp (handleWrongLedger e (timerEntry (S fuel) e)
    (e_getPrevLedger e (prevLedgerID_ s1) (previousLedger_ s1) (mode_ s1)))
    (λ _, phase_ok e) s1) as Hwrong.
  { apply handleWrongLedger_wp; [done|done|]. intros s2 l Hinv2 Hph2 Hacq Hm Hid Hl.
    apply timerEntry_synced_wp; [done|done|by rewrite Hph2|].
    destruct (Hst _ _ _ _ Hacq) as [Hlid Hnet]. split; rewrite Hid, Hl, ?Hm; done. }
  case_decide; [done|]. case_decide; [done|]. apply wp_ret. by split.
Qed.

Lemma startRound_wp fuel e now id l untrusted b s :
  onClose_ok e → stable e → cinv s →
  wp (startRound (S (S fuel)) e now id l untrusted b) (λ _, phase_ok e) s.
Proof.
  intros Hcl Hst Hinv. unfold startRound. apply wp_bind, wp_gets, wp_bind.
  eapply wp_mono with (P := λ _ s', recentPeerPositions_ s' = recentPeerPositions_ s).
  { destruct (firstRound_ s); [apply wp_bind, wp_modify, wp_bind, wp_modify|]; by apply wp_modify. }
  intros [] s1 Hrec. apply wp_bind, wp_modify.
  destruct (if lg_id l =? id then _ else _) as [l' m].
  apply startRoundInternal_wp.
  - simpl. intros n ps [Hn _]%map_lookup_filter_Some. rewrite Hrec in Hn. by eapply ci_recent.
  - intros s2 Hinv2 Hph2 _ _ _. apply timerEntry_wp; try done. by rewrite Hph2.
Qed.

Lemma simulate_wp e now delay s :
  onClose_ok e → cinv s →
  wp (simulate e now delay) (λ _ s', cinv s' ∧ phase_ s' = ph_accepted) s.
Proof.
  intros Hcl Hinv. unfold simulate. apply wp_bind, wp_modify, wp_bind.
  set (s1 := set_now now s). assert (cinv s1) as Hinv1 by by eapply cinv_ext.
  eapply wp_mono; [by apply closeLedger_wp|].
  intros [] s2 (Hinv2 & Hph2 & _ & _ & _ & _ & r & Hr & _).
  apply wp_bind, wp_gets, wp_bind. eapply wp_modifyResult; [done|].
  apply wp_bind. eapply wp_getResult; [done|].
  apply wp_bind, wp_modify, wp_bind, wp_modify, wp_bind, wp_modify, wp_modify.
  split; [|done]. by eapply (result_cinv s2 _ r).
Qed.
End rounds.
