(* ===== verification/ConsensusTheorems.v ===== *)
(** * Theorems about consensus

    The properties of Consensus.h, Consensus.cpp, DisputedTx.h and
    LedgerTiming.h, for any transaction set that keeps [TxSetLaws]; each
    witness runs one on the sets of RCLCxTx.h. *)

From stdpp Require Import prelude gmap sorting.
From Stdlib Require Import ZArith Lia.
From S2P Require Import Prelude.
From S2P Require Import LedgerTiming.
From S2P Require Import Disputes.
From S2P Require Import ConsensusState.
From S2P Require Import Consensus.
From S2P Require Import ConsensusSpec.
From S2P Require Import ConsensusRounds.

(** ** Reachable states *)
Section reach.
  Context {Tx TxSet : Type} `{TxSetLike Tx TxSet}.
  Abbreviation State := (CState Tx TxSet).

(** The calls of the public interface. *)
Inductive ccall :=
  | call_startRound (now prevLedgerID : Z) (prevLedger : Ledger) (nowUntrusted : gset Z)
      (isProposing : bool)
  | call_peerProposal (now : Z) (p : ConsensusProposal)
  | call_timerEntry (now : Z)
  | call_gotTxSet (now : Z) (t : TxSet)
  | call_simulate (now : Z) (delay : option Z).

(** Two levels of [timerEntry] are enough: the second finds the node on the
    network's ledger. *)
Definition run_ccall (c : ccall) (e : Env TxSet) : M Tx TxSet unit :=
  match c with
  | call_startRound now i l u b => startRound 2 e now i l u b
  | call_peerProposal now p => peerProposal e now p;; mret tt
  | call_timerEntry now => timerEntry 2 e now
  | call_gotTxSet now t => gotTxSet now t
  | call_simulate now d => simulate e now d
  end.

Definition env_ok (e : Env TxSet) : Prop := onClose_ok e ∧ stable e.

Inductive cstep : State → State → Prop :=
  | cstep_call c e s s' : env_ok e → run_ccall c e s = Done (tt, s') → cstep s s'.

Definition creach (noLedger : Ledger) (noID junkRound junkOpen : Z) : State → Prop :=
  rtc cstep (new_consensus noLedger noID junkRound junkOpen).
End reach.

Section theorems.
  Context {Tx TxSet : Type} `{TxSetLaws Tx TxSet}.
  Context (l0 : Ledger) (i0 junk1 junk2 : Z).
  Abbreviation State := (CState Tx TxSet).
  Abbreviation cinv := (cinv_p nobody nobody).
  Implicit Types (e : Env TxSet) (s : State) (r : ConsensusResult Tx TxSet).

Lemma new_cinv : cinv (new_consensus (Tx:=Tx) (TxSet:=TxSet) l0 i0 junk1 junk2).
Proof. by split. Qed.

Lemma timer_accepted_wp fuel e now s :
  phase_ s = ph_accepted → wp (timerEntry (S fuel) e now) (λ _ s', s' = s) s.
Proof. intros Hph. simpl. apply wp_bind, wp_gets. by rewrite decide_True. Qed.

Lemma run_ccall_wp c e s : env_ok e → cinv s → wp (run_ccall c e) (λ _, cinv) s.
Proof.
  intros [Hcl Hst] Hinv. destruct c; cbn [run_ccall].
  - eapply wp_mono; [by apply startRound_wp|]. by intros [] s' [? _].
  - apply wp_bind. eapply wp_mono; [by apply peerProposal_wp|]. intros b s' [? _]. by apply wp_ret.
  - destruct (decide (phase_ s = ph_accepted)).
    + eapply wp_mono; [by apply timer_accepted_wp|]. by intros [] s' ->.
    + eapply wp_mono; [by apply timerEntry_wp|]. by intros [] s' [? _].
  - eapply wp_mono; [by apply gotTxSet_wp|]. by intros [] s' [? _].
  - eapply wp_mono; [by apply simulate_wp|]. by intros [] s' [? _].
Qed.

Lemma wp_Done {A} (m : M Tx TxSet A) Q s : wp m Q s → ∃ x s', m s = Done (x, s') ∧ Q x s'.
Proof. unfold wp. destruct (m s) as [[x s']| |]; [eauto|done|done]. Qed.

Lemma creach_cinv s : creach l0 i0 junk1 junk2 s → cinv s.
Proof.
  intros Hr. 
  apply (rtc_invariant cstep cinv (new_consensus l0 i0 junk1 junk2) s); [|exact Hr|apply new_cinv].
  intros _ _ [c e s1 s2 He Hrun] Hinv.
  destruct (wp_Done _ _ _ (run_ccall_wp c e s1 He Hinv)) as ([] & s' & Hd & Hinv').
  rewrite Hrun in Hd. by injection Hd as <-.
Qed.

(** C3: no operation fails.  In every reachable state every call of the public
    interface returns: the recursion between [timerEntry] and
    [startRoundInternal] ends, and the round's result is never used when there
    is none. *)
Theorem consensus_calls_return c e s :
  creach l0 i0 junk1 junk2 s → env_ok e → ∃ s', run_ccall c e s = Done (tt, s').
Proof.
  intros Hr He. apply creach_cinv in Hr.
  destruct (wp_Done _ _ _ (run_ccall_wp c e s He Hr)) as ([] & s' & Hd & _). eauto.
Qed.

(** C28: the disputes of a reachable state.  The counts of each dispute are those
    of its votes, our vote is whether our set has the transaction, only peers
    with a current position vote, and a peer whose transaction set is known
    votes what its set says, on every transaction on which its set and ours
    differ. *)
Theorem disputes_follow_positions s r :
  creach l0 i0 junk1 junk2 s → result_ s = Some r →
  (∀ i d, r_disputes r !! i = Some d →
     tx_id (tx_ d) = i ∧ ourVote_ d = ts_exists (r_txns r) i ∧
     yays_ d = count_votes true (votes_ d) ∧ nays_ d = count_votes false (votes_ d) ∧
     dom (votes_ d) ⊆ dom (currPeerPositions_ s)) ∧
  (∀ n p t i, currPeerPositions_ s !! n = Some p → acquired_ s !! position p = Some t →
     (ts_exists t i ≠ ts_exists (r_txns r) i → is_Some (r_disputes r !! i)) ∧
     ∀ d, r_disputes r !! i = Some d → votes_ d !! n = Some (ts_exists t i)).
Proof.
  intros Hr Hres. apply creach_cinv in Hr as [Ca Cc Cd Co Ce Cr Ct].
  destruct (Cr r Hres) as [Hid Hacq [K1 K2 K3 K4 K5 K6 K7]]. split.
  - intros i d Hd. destruct (K2 i d Hd). split_and!; eauto.
    intros n Hn. by eapply K4.
  - intros n p t i Hn Ht. split.
    + intros Hne. apply (K7 t i); [|done]. rewrite (Ca _ _ Ht).
      eapply K6; [done|by intros []|by eexists].
    + intros d Hd. eapply K5; try done. by intros [].
Qed.

(** C37: the assertions of the source hold in every reachable state: in the
    establish phase there is a result and in the open phase there is none, our
    position is the ID of our transaction set, which is among the acquired sets
    under its own ID, and every current peer position is for our previous
    ledger, under its sender's ID, and not a bow-out. *)
Theorem consensus_assertions s :
  creach l0 i0 junk1 junk2 s →
  (phase_ s = ph_open → result_ s = None) ∧
  (phase_ s = ph_establish → is_Some (result_ s)) ∧
  (∀ r, result_ s = Some r → ts_id (r_txns r) = position (r_position r) ∧
     is_Some (acquired_ s !! position (r_position r))) ∧
  (∀ i t, acquired_ s !! i = Some t → ts_id t = i) ∧
  (∀ n p, currPeerPositions_ s !! n = Some p →
     nodeID p = n ∧ previousLedger p = prevLedgerID_ s ∧ isBowOut p = false ∧ n ∉ deadNodes_ s) ∧
  (∀ n l, recentPeerPositions_ s !! n = Some l → (length l ≤ 10)%nat).
Proof.
  intros Hr. apply creach_cinv in Hr as [Ca Cc Cd Co Ce Cr Ct]. split_and!; try done.
  - intros r Hres. by destruct (Cr r Hres).
  - intros n p Hn. destruct (Cc n p Hn) as (? & ? & ?). split_and!; try done.
    intros Hd. rewrite (Cd n Hd) in Hn. done.
  - intros n l Hn. by destruct (Ct n l Hn).
Qed.

(** [peerProposal] takes a proposal exactly when a round is running, it is for
    our previous ledger, its sender has not bowed out and it is newer than the
    sender's last one; then it replaces that one, or removes it when the sender
    bows out, and nothing else changes among the positions. *)
Theorem peerProposal_takes e now p s :
  creach l0 i0 junk1 junk2 s →
  ∃ s', peerProposal e now p s = Done (takes s p, s') ∧
    currPeerPositions_ s' =
      (if takes s p then
         if isBowOut p then delete (nodeID p) (currPeerPositions_ s)
         else <[nodeID p := p]> (currPeerPositions_ s)
       else currPeerPositions_ s) ∧
    deadNodes_ s' =
      (if takes s p && isBowOut p then {[nodeID p]} ∪ deadNodes_ s else deadNodes_ s) ∧
    phase_ s' = phase_ s.
Proof.
  intros Hr. apply creach_cinv in Hr.
  destruct (wp_Done _ _ _ (peerProposal_wp e now p s Hr)) as (b & s' & Hd & _ & -> & [Hc Hde] & Hp & _).
  eauto 10.
Qed.

(** C32: a round ends by consensus.  When a timer tick takes the node to the
    accepted phase, the result it reports last is our position, the close time
    is agreed, and [checkConsensus] found consensus on that position among the
    current peer positions. *)
Theorem timer_accepts_by_consensus e now s s' :
  creach l0 i0 junk1 junk2 s → env_ok e → phase_ s ≠ ph_accepted →
  timerEntry 2 e now s = Done (tt, s') → phase_ s' = ph_accepted →
  ∃ r prevProposers prevRound,
    result_ s' = Some r ∧ haveCloseTimeConsensus_ s' = true ∧
    last (events s') = Some (ev_accept r (previousLedger_ s') (closeResolution_ s')
      (rawPeers_ s') (rawSelf_ s') (mode_ s')) ∧
    ts_id (r_txns r) = position (r_position r) ∧
    r_state r ≠ cs_No ∧
    r_state r = checkConsensus prevProposers (Z.of_nat (size (currPeerPositions_ s')))
      (agreeing (position (r_position r)) (currPeerPositions_ s'))
      (e_proposersFinished e (previousLedger_ s') (prevLedgerID_ s')) prevRound
      (timer_read (r_roundTime r)) (e_parms e) (bool_decide (mode_ s' = proposing)).
Proof.
  intros Hr [Hcl Hst] Hph Hrun Hph'. apply creach_cinv in Hr.
  destruct (wp_Done _ _ _ (timerEntry_wp 0 e now s Hcl Hst Hr Hph)) as ([] & s1 & Hd & _ & Hacc).
  rewrite Hrun in Hd. injection Hd as <-.
  destruct (Hacc Hph') as (r & pos & pp & pr & H1 & H2 & H3 & -> & H5 & H6 & H7 & _).
  exists r, pp, pr. by split_and!.
Qed.
End theorems.

(** ** Close times *)

(** What the count of close times finds. *)
Lemma closeTime_loop thrC l thr0 :
  StronglySorted key_le l →
  let '(v, t, have) := foldl (closeTime_step thrC) (thr0, 0, false) l in
  (have = true ↔ ∃ t' n, (t', n) ∈ l ∧ thr0 ≤ n ∧ thrC ≤ n) ∧
  (v = thr0 ∧ t = 0 ∧ (∀ t' n, (t', n) ∈ l → n < thr0) ∨
   (t, v) ∈ l ∧ thr0 ≤ v ∧ ∀ t' n, (t', n) ∈ l → n < v ∨ n = v ∧ t' ≤ t).
Proof.
  induction l as [|[t1 n1] l IH] using rev_ind; intros Hs; simpl.
  { split; [split; [done|]|left; split_and!; try done].
    - intros (? & ? & Hin & _). by apply not_elem_of_nil in Hin.
    - intros ? ? Hin. by apply not_elem_of_nil in Hin. }
  assert (StronglySorted key_le l ∧ ∀ t' n, (t', n) ∈ l → t' ≤ t1) as [Hs' Hle].
  { apply StronglySorted_app in Hs as (Hs1 & Hs2 & _). 
    split; [done|]. intros t' n Hin. by apply (Hs1 (t', n) (t1, n1) Hin), list_elem_of_here. }
  specialize (IH Hs'). rewrite foldl_app. simpl.
  destruct (foldl _ _ l) as [[v t] have]. destruct IH as [IHh IHv].
  assert (∀ t' n, (t', n) ∈ l ++ [(t1, n1)] ↔ (t', n) ∈ l ∨ (t', n) = (t1, n1)) as Hm.
  { intros t' n. by rewrite elem_of_app, list_elem_of_singleton. }
  unfold closeTime_step. destruct (v <=? n1) eqn:Hv; [apply Z.leb_le in Hv|apply Z.leb_gt in Hv]; split.
  - destruct (Z.leb_spec thrC n1) as [Hc|Hc].
    + split; [|done]. intros _. exists t1, n1. split_and!; [apply Hm; by right| |done].
      destruct IHv as [(-> & _)|(_ & ? & _)]; lia.
    + rewrite IHh. split; [intros (t' & n & ? & ?); exists t', n; rewrite Hm; tauto|].
      intros (t' & n & [Hin|[= -> ->]]%Hm & ? & ?); [eauto|lia].
  - right. split_and!; [apply Hm; by right|destruct IHv as [(-> & _)|(_ & ? & _)]; lia|].
    intros t' n [Hin|[= -> ->]]%Hm; [|right; lia]. pose proof (Hle _ _ Hin).
    destruct IHv as [(-> & _ & Hall)|(_ & _ & Hall)]; specialize (Hall _ _ Hin); lia.
  - rewrite IHh. split; [intros (t' & n & ? & ?); exists t', n; rewrite Hm; tauto|].
    intros (t' & n & [Hin|[= -> ->]]%Hm & ? & ?); [eauto|].
    destruct IHv as [(-> & _)|(Hin & Hge & _)]; [lia|]. exists t, v. split_and!; [done|done|lia].
  - destruct IHv as [(-> & -> & Hall)|(Hin & Hge & Hall)]; [left|right].
    + split_and!; try done. intros t' n [Hin|[= -> ->]]%Hm; [by eapply Hall|done].
    + split_and!; [apply Hm; by left|done|].
      intros t' n [Hin'|[= -> ->]]%Hm; [by eapply Hall|by left].
Qed.

Section close_time.
  Context {Tx TxSet : Type} `{TxSetLike Tx TxSet}.

(** The close time of a round with peers.  There is agreement exactly when
    some close time has the votes [participantsNeeded] asks for, both at this
    stage and for consensus; the time chosen then has the most votes, and is the
    latest of those that have. *)
Theorem closeTime_agreement (e : Env TxSet) (votes : gmap Z Z) (s : CState Tx TxSet)
    (r : ConsensusResult Tx TxSet) :
  result_ s = Some r → currPeerPositions_ s ≠ ∅ →
  let ours := asCloseTime e (closeTime (r_position r)) s in
  let votes' := if decide (mode_ s = proposing) then count_in ours votes else votes in
  let participants := Z.of_nat (size (currPeerPositions_ s)) +
                      if decide (mode_ s = proposing) then 1 else 0 in
  let needVote := participantsNeeded participants (neededWeight (e_parms e) (convergePercent_ s)) in
  let needConsensus := participantsNeeded participants (avCT_CONSENSUS_PCT (e_parms e)) in
  ∃ t s', closeTimeConsensus e votes s = Done (t, s') ∧
    (haveCloseTimeConsensus_ s' = true ↔
       ∃ t' n, votes' !! t' = Some n ∧ needVote ≤ n ∧ needConsensus ≤ n) ∧
    (haveCloseTimeConsensus_ s' = true → ∃ n, votes' !! t = Some n ∧ needConsensus ≤ n ∧
       ∀ t' n', votes' !! t' = Some n' → n' < n ∨ n' = n ∧ t' ≤ t).
Proof.
  intros Hr Hne. cbv zeta. apply wp_Done. unfold closeTimeConsensus.
  apply wp_bind, wp_gets, wp_bind, (wp_getResult _ _ r Hr).
  rewrite (decide_False (P := currPeerPositions_ s = ∅)) by done.
  set (ours := asCloseTime _ _ _).
  set (parts := Z.of_nat (size (currPeerPositions_ s))).
  assert ((if decide (mode_ s = proposing) then (count_in ours votes, parts + 1) else (votes, parts)) =
    (if decide (mode_ s = proposing) then count_in ours votes else votes,
     parts + if decide (mode_ s = proposing) then 1 else 0)) as ->
    by (case_decide; [done|f_equal; lia]).
  set (votes' := if decide (mode_ s = proposing) then _ else votes).
  set (n := parts + _).
  pose proof (closeTime_loop (participantsNeeded n (avCT_CONSENSUS_PCT (e_parms e)))
    (sorted_entries votes')
    (participantsNeeded n (neededWeight (e_parms e) (convergePercent_ s)))) as Hl.
  assert (∀ t k, (t, k) ∈ sorted_entries votes' ↔ votes' !! t = Some k) as Hin.
  { intros t k. unfold sorted_entries. by rewrite merge_sort_Permutation, elem_of_map_to_list. }
  destruct (foldl _ _ _) as [[v t] have]. 
  destruct Hl as [Hh Hv]; [apply (StronglySorted_merge_sort key_le)|].
  apply wp_bind, wp_modify, wp_ret. simpl.
  assert (have = true ↔ ∃ t' n', votes' !! t' = Some n' ∧
    participantsNeeded n (neededWeight (e_parms e) (convergePercent_ s)) ≤ n' ∧
    participantsNeeded n (avCT_CONSENSUS_PCT (e_parms e)) ≤ n') as Hh'.
  { rewrite Hh. split; intros (t' & k & Hk & ?); exists t', k; split; try done; by apply Hin. }
  split; [exact Hh'|]. intros Hhave. apply Hh' in Hhave as (t' & k & Hk & Hk1 & Hk2).
  destruct Hv as [(-> & _ & Hall)|(Htv & Hge & Hall)].
  - specialize (Hall t' k (proj2 (Hin _ _) Hk)). lia.
  - exists v. split_and!; [by apply Hin| |intros ? ? ?%Hin; eauto].
    destruct (Hall t' k (proj2 (Hin _ _) Hk)); lia.
Qed.
End close_time.

(** ** Witnesses: a round with two peers *)
Module Example_round.
Import RCLTxSet.

Definition genesis_ledger : Ledger := mkLedger 100 5 1000 true 30 970.
Definition mine : gmap Z Z := {[1 := 11; 2 := 22]}.
Definition theirs : gmap Z Z := {[1 := 11; 3 := 33]}.

Definition proposal (node seq : Z) (t : gmap Z Z) : ConsensusProposal :=
  mkProposal 100 (ts_id t) 1050 1040 seq node.

(** A stable network on [genesis_ledger]. *)
Definition env (clock : Z) : Env (gmap Z Z) :=
  mkEnv _ (clock * 1000000) default_consensus_parms
    (λ i, if i =? 100 then Some genesis_ledger else None)
    (λ i, if i =? ts_id theirs then Some theirs else None)
    true (λ _, 0) (λ _ _, 0) (λ _ _ _, 100)
    (λ _ now _, (mine, mkProposal 100 (ts_id mine) now now 0 0))
    5 (1, ∅) (λ _ keys, (0, keys)) true true.

Lemma env_good clock : env_ok (env clock).
Proof.
  split.
  - intros l now m. reflexivity.
  - intros i l m l'. simpl. intros [= <-]. done.
Qed.

Abbreviation state := (CState RCLCxTx (gmap Z Z)).
Definition start : state := new_consensus genesis_ledger 0 0 0.

Fixpoint run (s : state) (cs : list (Z * ccall (TxSet:=gmap Z Z))) : outcome state :=
  match cs with
  | [] => Done s
  | (clock, c) :: cs =>
    match run_ccall c (env clock) s with
    | Done (_, s) => run s cs
    | NoFuel => NoFuel
    | NoValue => NoValue
    end
  end.

Lemma run_reach cs s s' : run s cs = Done s' → rtc cstep s s'.
Proof.
  revert s. induction cs as [|[clock c] cs IH]; intros s; simpl; [intros [= <-]; done|].
  destruct (run_ccall c (env clock) s) as [[[] s1]| |] eqn:E; try done.
  intros Hr. eapply rtc_l; [|by apply IH]. econstructor; [apply (env_good clock)|exact E].
Qed.

(** One peer proposes our set, the other a different one. *)
Definition calls : list (Z * ccall (TxSet:=gmap Z Z)) :=
  [(0, call_startRound 1030 100 genesis_ledger ∅ true);
   (100, call_peerProposal 1040 (proposal 1 0 mine));
   (200, call_peerProposal 1040 (proposal 2 0 theirs));
   (3000, call_timerEntry 1045)].

Definition final : state :=
  match run start calls with Done s => s | _ => start end.

Lemma final_reach : creach genesis_ledger 0 0 0 final.
Proof. apply (run_reach calls). vm_compute. reflexivity. Qed.

(** Both peers agree, and the round goes on until it is accepted. *)
Definition agreeing_calls : list (Z * ccall (TxSet:=gmap Z Z)) :=
  [(0, call_startRound 1030 100 genesis_ledger ∅ true);
   (100, call_peerProposal 1040 (proposal 1 0 mine));
   (200, call_peerProposal 1040 (proposal 2 0 mine));
   (3000, call_timerEntry 1045)].

Definition agreed : state :=
  match run start agreeing_calls with Done s => s | _ => start end.

Lemma agreed_reach : creach genesis_ledger 0 0 0 agreed.
Proof. apply (run_reach agreeing_calls). vm_compute. reflexivity. Qed.
End Example_round.
Import RCLTxSet Example_round.

Lemma consensus_calls_return_witness :
  ∃ s', run_ccall (call_timerEntry 1050) (env 6000) final = Done (tt, s').
Proof.
  exact (consensus_calls_return genesis_ledger 0 0 0 (call_timerEntry 1050) (env 6000) final
    final_reach (env_good 6000)).
Defined.

Lemma disputes_follow_positions_witness :
  ∃ r d, result_ final = Some r ∧ r_disputes r !! 3 = Some d ∧ votes_ d !! 2 = Some true.
Proof.
  destruct (result_ final) as [r|] eqn:Er; [|vm_compute in Er; discriminate Er].
  destruct (disputes_follow_positions genesis_ledger 0 0 0 final r final_reach Er) as [_ Hp].
  assert (∃ p, currPeerPositions_ final !! 2 = Some p ∧ acquired_ final !! position p = Some theirs)
    as (p & Hn & Ht) by (eexists; split; vm_compute; reflexivity).
  destruct (Hp 2 p theirs 3 Hn Ht) as [Hd Hv].
  assert (r_txns <$> result_ final = Some mine) as Hm by (vm_compute; reflexivity).
  rewrite Er in Hm. injection Hm as Hm. rewrite Hm in Hd.
  destruct Hd as [d Hd]; [vm_compute; discriminate|].
  exists r, d. split; [reflexivity|]. split; [exact Hd|]. exact (Hv d Hd).
Defined.

Lemma consensus_assertions_witness : phase_ final = ph_establish ∧ is_Some (result_ final).
Proof.
  split; [vm_compute; reflexivity|].
  apply (proj1 (proj2 (consensus_assertions genesis_ledger 0 0 0 final final_reach))).
  vm_compute. reflexivity.
Defined.

Lemma peerProposal_takes_witness :
  ∃ s', peerProposal (env 4000) 1046 (proposal 2 1 mine) final = Done (true, s') ∧
    currPeerPositions_ s' = <[2 := proposal 2 1 mine]> (currPeerPositions_ final).
Proof.
  destruct (peerProposal_takes genesis_ledger 0 0 0 (env 4000) 1046 (proposal 2 1 mine) final
    final_reach) as (s' & Hrun & Hc & _).
  assert (takes final (proposal 2 1 mine) = true) as Ht by (vm_compute; reflexivity).
  rewrite Ht in Hrun, Hc. exists s'. split; [exact Hrun|exact Hc].
Defined.

Lemma timer_accepts_by_consensus_witness :
  ∃ s' r, timerEntry 2 (env 8000) 1050 agreed = Done (tt, s') ∧ result_ s' = Some r ∧
    r_state r ≠ cs_No.
Proof.
  destruct (timerEntry 2 (env 8000) 1050 agreed) as [[[] s']| |] eqn:E;
    [|vm_compute in E; discriminate E..].
  assert (phase_ s' = ph_accepted) as Hp.
  { assert (match timerEntry 2 (env 8000) 1050 agreed with
            | Done (_, s') => phase_ s' = ph_accepted | _ => False end) as Hx
      by (vm_compute; reflexivity).
    rewrite E in Hx. exact Hx. }
  destruct (timer_accepts_by_consensus genesis_ledger 0 0 0 (env 8000) 1050 agreed s'
    agreed_reach (env_good 8000) ltac:(vm_compute; discriminate) E Hp)
    as (r & _ & _ & Hr & _ & _ & _ & Hst & _).
  exists s', r. split; [reflexivity|]. split; [exact Hr|exact Hst].
Defined.

Lemma closeTime_agreement_witness :
  ∃ t s', closeTimeConsensus (env 4000) {[1050 := 2]} agreed = Done (t, s').
Proof.
  destruct (result_ agreed) as [r|] eqn:Er; [|vm_compute in Er; discriminate Er].
  assert (currPeerPositions_ agreed ≠ ∅) as Hne.
  { intros Heq. apply (f_equal size) in Heq. vm_compute in Heq. discriminate Heq. }
  destruct (closeTime_agreement (env 4000) {[1050 := 2]} agreed r Er Hne) as (t & s' & Hrun & _).
  exists t, s'. exact Hrun.
Defined.
