(* ===== verification/DecisionTheorems.v ===== *)
(** * Theorems about the decisions of a consensus round

    Close times and their resolution (LedgerTiming.h), when a ledger closes and
    when consensus is reached (Consensus.cpp), votes on disputed transactions
    (DisputedTx.h) and pausing for laggards (Consensus.h). *)

From stdpp Require Import prelude gmap.
From Stdlib Require Import ZArith Lia.
From S2P Require Import Prelude.
From S2P Require Import LedgerTiming.
From S2P Require Import Disputes.
From S2P Require Import Consensus.

(** ** Close times *)

(** Rounding a close time gives a multiple of the resolution at most half the
    resolution away, and rounding it again changes nothing; the effective close
    time is later than the prior one. *)
Theorem closeTime_rounding t r prior :
  0 < r → 0 < t → t + r < 2 ^ 32 → 0 ≤ prior < 2 ^ 32 - 1 →
  (r | roundCloseTime t r) ∧ 2 * Z.abs (roundCloseTime t r - t) ≤ r ∧
  roundCloseTime (roundCloseTime t r) r = roundCloseTime t r ∧
  prior < effCloseTime t r prior ∧ roundCloseTime t r ≤ effCloseTime t r prior.
Proof.
  intros Hr Ht Hov Hp. pose proof (Z.div_mod r 2 ltac:(lia)).
  pose proof (Z.mod_pos_bound r 2 ltac:(lia)).
  destruct (round_spec t r Hr Ht ltac:(lia)) as (H1 & H2 & H3).
  unfold effCloseTime. rewrite (proj2 (Z.eqb_neq t 0)), u32_small by lia.
  split_and!; try done; [|lia|lia]. destruct (decide (roundCloseTime t r + r / 2 < 2 ^ 32)).
  - by apply round_idem; try lia.
  - destruct (decide (roundCloseTime t r = 0)) as [->|Hn0]; [done|].
    exfalso. apply n. clear -H2 Hov Hr H Ht H0 H3 Hn0. lia.
Qed.

Lemma closeTime_rounding_witness :
  roundCloseTime 1000 30 = 990 ∧ (30 | roundCloseTime 1000 30) ∧
  2000 < effCloseTime 1000 30 2000.
Proof.
  destruct (closeTime_rounding 1000 30 2000 ltac:(lia) ltac:(lia) ltac:(lia) ltac:(lia))
    as (H1 & _ & _ & H2 & _).
  split; [reflexivity|]. split; [exact H1|exact H2].
Defined.

(** Settle an existential by two positions of the table. *)
Local Ltac pick i j :=
  solve [exists i, j; split; [reflexivity|split; [reflexivity|auto 6]]].

(** The next resolution is one of the possible ones, a neighbour of the
    previous one: finer only after agreement, coarser only after
    disagreement. *)
Theorem nextResolution_neighbour prev agree s :
  prev ∈ ledgerPossibleTimeResolutions →
  let next := getNextLedgerTimeResolution prev agree s in
  next ∈ ledgerPossibleTimeResolutions ∧
  ∃ i j, ledgerPossibleTimeResolutions !! i = Some prev ∧
    ledgerPossibleTimeResolutions !! j = Some next ∧
    (j = i ∨ (agree = true ∧ s mod 8 = 0 ∧ i = S j) ∨ (agree = false ∧ j = S i)).
Proof.
  assert (s mod 1 = 0) as Hs1 by apply Z.mod_1_r.
  unfold ledgerPossibleTimeResolutions. intros Hin. repeat rewrite elem_of_cons in Hin.
  unfold getNextLedgerTimeResolution, decreaseLedgerTimeResolutionEvery,
    increaseLedgerTimeResolutionEvery. rewrite Hs1.
  destruct (Z.eqb_spec (s mod 8) 0) as [H8|H8];
    destruct_or! Hin; try (by apply not_elem_of_nil in Hin); subst prev; destruct agree;
    match goal with |- context [list_find ?P ?l] =>
      let x := eval vm_compute in (list_find P l) in change (list_find P l) with x end; simpl;
    (split; [set_solver|]);
    first [pick 0%nat 0%nat|pick 1%nat 1%nat|pick 2%nat 2%nat|pick 3%nat 3%nat|pick 4%nat 4%nat|
          pick 5%nat 5%nat|pick 1%nat 0%nat|pick 2%nat 1%nat|pick 3%nat 2%nat|pick 4%nat 3%nat|
          pick 5%nat 4%nat|pick 0%nat 1%nat|pick 1%nat 2%nat|pick 2%nat 3%nat|pick 3%nat 4%nat|
          pick 4%nat 5%nat].
Qed.

Lemma nextResolution_neighbour_witness :
  getNextLedgerTimeResolution 30 false 5 ∈ ledgerPossibleTimeResolutions.
Proof.
  apply (nextResolution_neighbour 30 false 5). unfold ledgerPossibleTimeResolutions. set_solver.
Defined.

(** ** Consensus *)

(** C40: [checkConsensus] on every branch, with the counts of a network.  There is
    no answer before the minimum time, nor early with fewer than three quarters
    of the previous proposers; then the answer is yes exactly when there are no
    peers or the share of those that agree, ourselves included when proposing,
    is at least the required percentage, and otherwise that the others moved on
    when that share of them has finished. *)
Theorem checkConsensus_decides prev cur agree fin prevTime time p self :
  0 ≤ prev < 2 ^ 50 → 0 ≤ agree ≤ cur → cur < 2 ^ 50 → 0 ≤ fin < 2 ^ 50 →
  let k := if (self : bool) then 1 else 0 in
  let pct := minCONSENSUS_PCT p in
  let early := time ≤ ledgerMIN_CONSENSUS p ∨
    cur < prev * 3 / 4 ∧ time < prevTime + ledgerMIN_CONSENSUS p in
  let share x k := cur = 0 ∨ pct * (cur + k) ≤ (x + k) * 100 in
  match checkConsensus prev cur agree fin prevTime time p self with
  | cs_Yes => ¬ early ∧ share agree k
  | cs_MovedOn => ¬ early ∧ ¬ share agree k ∧ share fin 0
  | cs_No => early ∨ ¬ share agree k ∧ ¬ share fin 0
  end.
Proof.
  intros Hp Ha Hc Hf k pct early share. unfold checkConsensus.
  assert (∀ x b, 0 ≤ x < 2 ^ 50 →
    checkConsensusReached x cur b pct = true ↔ share x (if (b : bool) then 1 else 0)) as Hreach.
  { intros x b Hx. unfold share. destruct (decide (cur = 0)) as [->|Hn].
    - split; [by left|done].
    - rewrite (reached_spec x cur b pct) by lia. split; [by right|by intros [?|?]]. }
  pose proof (Hreach agree self ltac:(lia)) as Hr1. pose proof (Hreach fin false ltac:(lia)) as Hr2.
  rewrite (u64_small (prev * 3)) by lia.
  destruct (Z.leb_spec time (ledgerMIN_CONSENSUS p)); [left; by left|].
  destruct (Z.ltb_spec cur (prev * 3 / 4)), (Z.ltb_spec time (prevTime + ledgerMIN_CONSENSUS p));
    simpl; try (by left; right; auto);
    (assert (¬ early) as He by (unfold early; lia));
    fold pct k in Hr1 |- *;
    destruct (checkConsensusReached agree cur self pct), (checkConsensusReached fin cur false pct);
    intuition congruence.
Qed.

Lemma checkConsensus_decides_witness :
  checkConsensus 10 10 8 0 5000 3000 default_consensus_parms false = cs_Yes ∧
  (10 = 0 ∨ 80 * (10 + 0) ≤ (8 + 0) * 100).
Proof.
  pose proof (checkConsensus_decides 10 10 8 0 5000 3000 default_consensus_parms false
    ltac:(lia) ltac:(lia) ltac:(lia) ltac:(lia)) as H.
  split; [reflexivity|]. exact (proj2 H).
Defined.

(** ** Votes on disputed transactions *)

(** The percentage our vote needs at a stage of the round. *)
Definition stage_pct (p : ConsensusParms) (percentTime : Z) : Z := neededWeight p percentTime.

(** When proposing, our vote on a disputed transaction becomes yes exactly
    when the share of yes votes, ours included, exceeds the percentage of the
    stage, and does not change when no peer opposes it; the flag says whether it
    changed, and the counts stay. *)
Theorem updateVote_threshold {Tx} (d : DisputedTx Tx) t p :
  0 ≤ yays_ d < 2 ^ 24 → 0 ≤ nays_ d < 2 ^ 24 → 0 ≤ stage_pct p t →
  let own := if ourVote_ d then 1 else 0 in
  let '(d', changed) := updateVote t true p d in
  let opposed := if ourVote_ d then nays_ d else yays_ d in
  yays_ d' = yays_ d ∧ nays_ d' = nays_ d ∧ votes_ d' = votes_ d ∧
  changed = negb (Bool.eqb (ourVote_ d') (ourVote_ d)) ∧
  (opposed = 0 → ourVote_ d' = ourVote_ d) ∧
  (opposed ≠ 0 → ourVote_ d' = true ↔
     (stage_pct p t + 1) * (yays_ d + nays_ d + 1) ≤ (yays_ d + own) * 100).
Proof.
  intros Hy Hn Hp own.
  assert (newPosition t true p d = true ↔
    (stage_pct p t + 1) * (yays_ d + nays_ d + 1) ≤ (yays_ d + own) * 100) as Hnew.
  { unfold newPosition.
    replace (yays_ d * 100 + (if ourVote_ d then 100 else 0)) with ((yays_ d + own) * 100)
      by (unfold own; destruct (ourVote_ d); lia).
    assert (0 ≤ own ≤ 1) by (unfold own; destruct (ourVote_ d); lia).
    rewrite Z.quot_div_nonneg by lia.
    pose proof (Z.div_pos ((yays_ d + own) * 100) (nays_ d + yays_ d + 1) ltac:(lia) ltac:(lia)).
    assert ((yays_ d + own) * 100 / (nays_ d + yays_ d + 1) ≤ (yays_ d + own) * 100)
      by (apply Z.div_le_upper_bound; nia).
    rewrite (u64_small (_ / _)) by lia. unfold stage_pct, neededWeight.
    replace (yays_ d + nays_ d + 1) with (nays_ d + yays_ d + 1) by lia.
    assert (∀ c, (c <? (yays_ d + own) * 100 / (nays_ d + yays_ d + 1)) = true ↔
      (c + 1) * (nays_ d + yays_ d + 1) ≤ (yays_ d + own) * 100) as Hd.
    { intros c. rewrite Z.ltb_lt. split; intros Hc.
      - pose proof (Z.mul_div_le ((yays_ d + own) * 100) (nays_ d + yays_ d + 1) ltac:(lia)). nia.
      - assert (c + 1 ≤ (yays_ d + own) * 100 / (nays_ d + yays_ d + 1)); [|lia].
        apply Z.div_le_lower_bound; lia. }
    repeat case_match; apply Hd. }
  unfold updateVote. generalize dependent (newPosition t true p d). intros new Hnew.
  destruct (ourVote_ d) eqn:Eo; simpl.
  - destruct (Z.eqb_spec (nays_ d) 0) as [Hz|Hz]; simpl; [rewrite Eo; do 5 (split; [done|]); by intros Hx; destruct Hx|].
    destruct new; simpl; rewrite ?Eo; do 4 (split; [done|]);
      (split; [by intros ?|]); by rewrite <- Hnew.
  - destruct (Z.eqb_spec (yays_ d) 0) as [Hz|Hz]; simpl; [rewrite Eo; do 5 (split; [done|]); by intros Hx; destruct Hx|].
    destruct new; simpl; rewrite ?Eo; do 4 (split; [done|]);
      (split; [by intros ?|]); by rewrite <- Hnew.
Qed.

Lemma updateVote_threshold_witness :
  let d := mkDispute 3 1 false tt ∅ in
  let '(d', changed) := updateVote 60 true default_consensus_parms d in
  changed = negb (Bool.eqb (ourVote_ d') false) ∧ ourVote_ d' = false.
Proof.
  pose proof (updateVote_threshold (mkDispute 3 1 false tt ∅) 60 default_consensus_parms
    ltac:(simpl; lia) ltac:(simpl; lia) ltac:(vm_compute; discriminate)) as H.
  cbv zeta in *. destruct (updateVote _ _ _ _) as [d' ch] eqn:E.
  destruct H as (_ & _ & _ & Hc & _). split; [exact Hc|].
  vm_compute in E. injection E as <- <-. reflexivity.
Defined.

(** ** Pausing for laggards *)

(** The decision of [pauseDecision] in one of the phases that compare floats,
    decided by the exact fractions: the share of validators that keep up against
    the quorum plus a part of the rest. *)
Definition pause_check (t q lo phase : Z) : bool :=
  let decision := pauseDecision (phase + 1) lo 0 t q true true 0 0 in
  let gap := 4 * q + (t - q) * phase - 4 * (t - lo) in
  (negb (0 <? gap) || decision) && (negb (gap <? 0) || negb decision).

Definition pause_range (n : nat) : list Z := map (λ i, Z.of_nat (S i)) (List.seq 0 n).

Definition pause_table (n : nat) : bool :=
  forallb (λ t, forallb (λ q, forallb (λ lo, forallb (pause_check t q lo) [1; 2; 3])
    (pause_range (Z.to_nat t))) (pause_range (Z.to_nat t))) (pause_range n).

Lemma pause_table_ok : pause_table 24 = true.
Proof. vm_compute. reflexivity. Qed.

Lemma pause_range_elem n z : 1 ≤ z ≤ Z.of_nat n → In z (pause_range n).
Proof.
  intros Hz. apply in_map_iff. exists (Z.to_nat (z - 1)). split; [lia|]. apply in_seq. lia.
Qed.

Lemma pause_table_spec n :
  pause_table n = true → ∀ t q lo phase, 1 ≤ t ≤ Z.of_nat n → 1 ≤ q ≤ t → 1 ≤ lo ≤ t →
  1 ≤ phase ≤ 3 → pause_check t q lo phase = true.
Proof.
  unfold pause_table. intros Htab t q lo phase Ht Hq Hlo Hph.
  rewrite forallb_forall in Htab. specialize (Htab t (pause_range_elem n t Ht)).
  rewrite forallb_forall in Htab. specialize (Htab q (pause_range_elem (Z.to_nat t) q ltac:(lia))).
  rewrite forallb_forall in Htab.
  specialize (Htab lo (pause_range_elem (Z.to_nat t) lo ltac:(lia))).
  rewrite forallb_forall in Htab. apply Htab. simpl. lia.
Qed.

(** The decision depends on the laggards and those offline by their sum, and on
    how far ahead the node is by its phase. *)
Lemma pause_sum ahead lag off t q time maxt :
  0 < ahead < 2 ^ 32 → 0 < lag → 0 ≤ off → lag + off < 2 ^ 64 → 0 < t → time ≤ maxt →
  pauseDecision ahead lag off t q true true time maxt =
  pauseDecision ((ahead - 1) mod 5 + 1) (lag + off) 0 t q true true 0 0.
Proof.
  intros Ha Hl Ho Hs Ht Hm. pose proof (Z.mod_pos_bound (ahead - 1) 5 ltac:(lia)) as Hb.
  unfold pauseDecision. rewrite Z.add_0_r.
  rewrite (proj2 (Z.eqb_neq ahead 0)), (proj2 (Z.eqb_neq lag 0)), (proj2 (Z.eqb_neq t 0)),
    (proj2 (Z.eqb_neq ((ahead - 1) mod 5 + 1) 0)), (proj2 (Z.eqb_neq (lag + off) 0)),
    (proj2 (Z.ltb_ge maxt time)) by lia. simpl.
  replace (u32 ((ahead - 1) mod 5 + 1 - 1)) with ((ahead - 1) mod 5)
    by (rewrite u32_small; lia).
  rewrite (u32_small (ahead - 1)) by lia. by rewrite Z.mod_mod by lia.
Qed.

(** Pausing, with up to 24 validators.  Nobody pauses without laggards; one
    ledger ahead (and every fifth after) the node pauses when too few validators
    are left for the quorum, five ahead it always does, and in between exactly
    when the share of the validators that keep up is below the quorum plus the
    phase's part of the rest - whatever the rounding of the single precision
    arithmetic, unless the two are exactly equal. *)
Theorem pause_decides ahead lag off t q time maxt :
  0 < ahead < 2 ^ 32 → 0 ≤ lag → 0 ≤ off → lag + off ≤ t → 1 ≤ q ≤ t → t ≤ 24 → time ≤ maxt →
  let decision := pauseDecision ahead lag off t q true true time maxt in
  let phase := (ahead - 1) mod 5 in
  let gap := 4 * q + (t - q) * phase - 4 * (t - (lag + off)) in
  (lag = 0 → decision = false) ∧
  (0 < lag → phase = 0 → decision = (t - q <? lag + off)) ∧
  (0 < lag → phase = 4 → decision = true) ∧
  (0 < lag → 1 ≤ phase ≤ 3 → (0 < gap → decision = true) ∧ (gap < 0 → decision = false)).
Proof.
  intros Ha Hl Ho Hs Hq Ht Hm. cbv zeta.
  pose proof (Z.mod_pos_bound (ahead - 1) 5 ltac:(lia)) as Hb.
  split; [intros ->; unfold pauseDecision; by rewrite orb_true_r|].
  assert (0 < lag → pauseDecision ahead lag off t q true true time maxt =
    pauseDecision ((ahead - 1) mod 5 + 1) (lag + off) 0 t q true true 0 0) as Hsum
    by (intros; apply pause_sum; lia).
  set (phase := (ahead - 1) mod 5) in *. split_and!.
  - intros Hlag Hph. rewrite (Hsum Hlag), Hph. unfold pauseDecision.
    rewrite (proj2 (Z.eqb_neq (lag + off) 0)), (proj2 (Z.eqb_neq t 0)) by lia. simpl.
    by rewrite Z.add_0_r, !u64_small by lia.
  - intros Hlag Hph. rewrite (Hsum Hlag), Hph. unfold pauseDecision.
    by rewrite (proj2 (Z.eqb_neq (lag + off) 0)), (proj2 (Z.eqb_neq t 0)) by lia.
  - intros Hlag Hph. rewrite (Hsum Hlag).
    pose proof (pause_table_spec 24 pause_table_ok t q (lag + off) phase ltac:(lia) ltac:(lia)
      ltac:(lia) ltac:(lia)) as Htab.
    unfold pause_check in Htab. clear Hsum.
    destruct (pauseDecision (phase + 1) (lag + off) 0 t q true true 0 0); split; try done; lia.
Qed.

Lemma pause_decides_witness :
  pauseDecision 3 2 1 20 16 true true 1000 10000 = true ∧
  pauseDecision 3 1 0 20 16 true true 1000 10000 = false.
Proof.
  pose proof (pause_decides 3 2 1 20 16 1000 10000 ltac:(lia) ltac:(lia) ltac:(lia) ltac:(lia)
    ltac:(lia) ltac:(lia) ltac:(lia)) as (_ & _ & _ & H1).
  pose proof (pause_decides 3 1 0 20 16 1000 10000 ltac:(lia) ltac:(lia) ltac:(lia) ltac:(lia)
    ltac:(lia) ltac:(lia) ltac:(lia)) as (_ & _ & _ & H2).
  split.
  - apply (proj1 (H1 eq_refl ltac:(vm_compute; split; discriminate))). vm_compute. reflexivity.
  - apply (proj2 (H2 eq_refl ltac:(vm_compute; split; discriminate))). vm_compute. reflexivity.
Defined.
