(* ===== verification/Resource.v ===== *)
(** * The resource manager

    src/src/ripple/resource/: how much load each endpoint imposes, with
    impl/Logic.h (the table of entries and its lists), impl/Entry.h, impl/Key.h,
    impl/Import.h, Gossip.h, impl/Consumer.cpp, impl/Tuning.h, impl/Fees.cpp and
    basics/DecayingSample.h.

    An entry is known by its key: the pointer a [Consumer] holds is the key of
    the entry, which is in the table as long as the pointer is valid
    (ResourceTheorems.v).  Times are in nanoseconds of the steady clock.  The
    recursive mutex makes each operation atomic. *)

From stdpp Require Import prelude gmap strings.
From Stdlib Require Import ZArith Lia.
From S2P Require Import Prelude.

Definition nanoseconds (s : Z) : Z := s * 1000000000.

(** ** Tuning and fees *)
Definition warningThreshold : Z := 5000.
Definition dropThreshold : Z := 15000.
Definition decayWindowSeconds : Z := 32.
Definition minimumGossipBalance : Z := 1000.
Definition secondsUntilExpiration : Z := 300.
Definition gossipExpirationSeconds : Z := 30.

Definition feeWarning : Z := 2000.
Definition feeDrop : Z := 3000.

(** ** Samples that decay *)
Record DecayingSample := mkSample { m_value : Z; m_when : Z }.

Definition new_sample (now : Z) : DecayingSample := mkSample 0 now.

(** One second of decay; the division truncates. *)
Definition decay_second (v : Z) : Z :=
  v - Z.quot (v + decayWindowSeconds - 1) decayWindowSeconds.

Definition decay (now : Z) (s : DecayingSample) : DecayingSample :=
  if now =? m_when s then s
  else
    let v :=
      if m_value s =? 0 then m_value s
      else
        let elapsed := u64 (Z.quot (now - m_when s) 1000000000) in
        if 4 * decayWindowSeconds <? elapsed then 0
        else Nat.iter (Z.to_nat elapsed) decay_second (m_value s) in
    mkSample v now.

(** [add] and [value]: the sample afterwards and the value per second. *)
Definition sample_add (v now : Z) (s : DecayingSample) : DecayingSample * Z :=
  let s := decay now s in
  let s := mkSample (m_value s + v) (m_when s) in
  (s, Z.quot (m_value s) decayWindowSeconds).

Definition sample_value (now : Z) (s : DecayingSample) : DecayingSample * Z :=
  let s := decay now s in (s, Z.quot (m_value s) decayWindowSeconds).

(** ** Keys and entries *)
Inductive Kind := kindInbound | kindOutbound | kindUnlimited.

#[export] Instance Kind_eq_dec : EqDecision Kind.
Proof. solve_decision. Defined.

(** [beast::IP::Endpoint]: an address and a port. *)
Record Endpoint := mkEndpoint { ep_addr : Z; ep_port : Z }.

Definition at_port (p : Z) (a : Endpoint) : Endpoint := mkEndpoint (ep_addr a) p.

Record Key := mkKey { key_kind : Kind; key_address : Endpoint }.

#[export] Instance Endpoint_eq_dec : EqDecision Endpoint.
Proof. solve_decision. Defined.
(** [Key::key_equal] *)
#[export] Instance Key_eq_dec : EqDecision Key.
Proof. solve_decision. Defined.

Definition key_code (k : Key) : Z * (Z * Z) :=
  (match key_kind k with kindInbound => 0 | kindOutbound => 1 | kindUnlimited => 2 end,
   (ep_addr (key_address k), ep_port (key_address k))).
Definition key_decode (c : Z * (Z * Z)) : Key :=
  mkKey (if c.1 =? 0 then kindInbound else if c.1 =? 1 then kindOutbound else kindUnlimited)
        (mkEndpoint c.2.1 c.2.2).

#[export] Instance Key_countable : Countable Key.
Proof.
  refine (inj_countable' key_code key_decode _). by intros [[] [a p]].
Defined.

Record Entry := mkEntry {
  refcount : Z;
  local_balance : DecayingSample;
  remote_balance : Z;
  lastWarningTime : Z;
  whenExpires : Z;
}.

Definition new_entry (now : Z) : Entry := mkEntry 0 (new_sample now) 0 0 0.

Definition set_refcount n (x : Entry) : Entry :=
  mkEntry n (local_balance x) (remote_balance x) (lastWarningTime x) (whenExpires x).
Definition set_local_balance b (x : Entry) : Entry :=
  mkEntry (refcount x) b (remote_balance x) (lastWarningTime x) (whenExpires x).
Definition set_remote_balance b (x : Entry) : Entry :=
  mkEntry (refcount x) (local_balance x) b (lastWarningTime x) (whenExpires x).
Definition set_lastWarningTime t (x : Entry) : Entry :=
  mkEntry (refcount x) (local_balance x) (remote_balance x) t (whenExpires x).
Definition set_whenExpires t (x : Entry) : Entry :=
  mkEntry (refcount x) (local_balance x) (remote_balance x) (lastWarningTime x) t.

Definition isUnlimited (k : Key) : bool := bool_decide (key_kind k = kindUnlimited).

(** [int] results of 64-bit arithmetic. *)
Definition to_int (z : Z) : Z := (z + 2 ^ 31) mod 2 ^ 32 - 2 ^ 31.

Definition entry_balance (now : Z) (x : Entry) : Entry * Z :=
  let '(b, v) := sample_value now (local_balance x) in
  (set_local_balance b x, to_int (v + remote_balance x)).

Definition entry_add (cost now : Z) (x : Entry) : Entry * Z :=
  let '(b, v) := sample_add cost now (local_balance x) in
  (set_local_balance b x, to_int (v + remote_balance x)).

(** ** Gossip and imports *)
Record Item := mkItem { item_balance : Z; item_address : Endpoint }.

(** An imported item holds a consumer, that is, the key of its entry. *)
Record Import := mkImport { imp_whenExpires : Z; imp_items : list (Z * Key) }.

(** ** The manager's state *)
Record Logic := mkLogic {
  table_ : gmap Key Entry;
  inbound_ : list Key;
  outbound_ : list Key;
  admin_ : list Key;
  inactive_ : list Key;
  importTable_ : gmap string Import;
  stats_warn : Z;
  stats_drop : Z;
}.

Definition new_logic : Logic := mkLogic ∅ [] [] [] [] ∅ 0 0.

Definition set_table t (l : Logic) : Logic :=
  mkLogic t (inbound_ l) (outbound_ l) (admin_ l) (inactive_ l) (importTable_ l)
    (stats_warn l) (stats_drop l).
Definition set_inactive i (l : Logic) : Logic :=
  mkLogic (table_ l) (inbound_ l) (outbound_ l) (admin_ l) i (importTable_ l)
    (stats_warn l) (stats_drop l).
Definition set_imports i (l : Logic) : Logic :=
  mkLogic (table_ l) (inbound_ l) (outbound_ l) (admin_ l) (inactive_ l) i
    (stats_warn l) (stats_drop l).
Definition set_stats w d (l : Logic) : Logic :=
  mkLogic (table_ l) (inbound_ l) (outbound_ l) (admin_ l) (inactive_ l) (importTable_ l) w d.

(** The list of the active entries of a kind. *)
Definition active (k : Kind) (l : Logic) : list Key :=
  match k with
  | kindInbound => inbound_ l
  | kindOutbound => outbound_ l
  | kindUnlimited => admin_ l
  end.
Definition set_active (k : Kind) (xs : list Key) (l : Logic) : Logic :=
  match k with
  | kindInbound => mkLogic (table_ l) xs (outbound_ l) (admin_ l) (inactive_ l)
                     (importTable_ l) (stats_warn l) (stats_drop l)
  | kindOutbound => mkLogic (table_ l) (inbound_ l) xs (admin_ l) (inactive_ l)
                      (importTable_ l) (stats_warn l) (stats_drop l)
  | kindUnlimited => mkLogic (table_ l) (inbound_ l) (outbound_ l) xs (inactive_ l)
                       (importTable_ l) (stats_warn l) (stats_drop l)
  end.

(** Unlinking an element of an intrusive list. *)
Definition unlink (k : Key) (xs : list Key) : list Key := filter (λ x, x ≠ k) xs.

(** Change the entry of a key. *)
Definition with_entry (f : Entry → Entry) (k : Key) (l : Logic) : Logic :=
  set_table (alter f k (table_ l)) l.

(** ** Endpoints *)

(** The common body of the three [new...Endpoint]: the entry of the key is found
    or made, and becomes active when this is its first reference. *)
Definition newEndpoint (now : Z) (k : Key) (l : Logic) : Logic * Key :=
  let '(entry, inserted) :=
    match table_ l !! k with
    | Some x => (x, false)
    | None => (new_entry now, true)
    end in
  let entry := set_refcount (refcount entry + 1) entry in
  let l := set_table (<[k := entry]> (table_ l)) l in
  let l :=
    if refcount entry =? 1 then
      let l := if (inserted : bool) then l else set_inactive (unlink k (inactive_ l)) l in
      set_active (key_kind k) (active (key_kind k) l ++ [k]) l
    else l in
  (l, k).

Definition newInboundEndpoint (now : Z) (address : Endpoint) (l : Logic) : Logic * Key :=
  newEndpoint now (mkKey kindInbound (at_port 0 address)) l.
Definition newOutboundEndpoint (now : Z) (address : Endpoint) (l : Logic) : Logic * Key :=
  newEndpoint now (mkKey kindOutbound address) l.
Definition newUnlimitedEndpoint (now : Z) (address : Endpoint) (l : Logic) : Logic * Key :=
  newEndpoint now (mkKey kindUnlimited (at_port 1 address)) l.

(** ** Reference counts *)
Definition acquire (k : Key) (l : Logic) : Logic :=
  with_entry (λ x, set_refcount (refcount x + 1) x) k l.

Definition release (now : Z) (k : Key) (l : Logic) : Logic :=
  let l := with_entry (λ x, set_refcount (refcount x - 1) x) k l in
  match table_ l !! k with
  | Some x =>
    if refcount x =? 0 then
      let l := set_active (key_kind k) (unlink k (active (key_kind k) l)) l in
      let l := set_inactive (inactive_ l ++ [k]) l in
      with_entry (set_whenExpires (now + nanoseconds secondsUntilExpiration)) k l
    else l
  | None => l
  end.

(** ** Charging *)
Inductive Disposition := disp_ok | disp_warn | disp_drop.

Definition disposition (balance : Z) : Disposition :=
  if dropThreshold <=? balance then disp_drop
  else if warningThreshold <=? balance then disp_warn
  else disp_ok.

(** Run an operation of an entry. *)
Definition on_entry (f : Entry → Entry * Z) (k : Key) (l : Logic) : Logic * Z :=
  match table_ l !! k with
  | Some x => let '(x, v) := f x in (set_table (<[k := x]> (table_ l)) l, v)
  | None => (l, 0)
  end.

Definition charge (now cost : Z) (k : Key) (l : Logic) : Logic * Disposition :=
  let '(l, balance) := on_entry (entry_add cost now) k l in (l, disposition balance).

Definition balance (now : Z) (k : Key) (l : Logic) : Logic * Z := on_entry (entry_balance now) k l.

Definition warn (now : Z) (k : Key) (l : Logic) : Logic * bool :=
  if isUnlimited k then (l, false)
  else
    let '(l, b) := balance now k l in
    let last := match table_ l !! k with Some x => lastWarningTime x | None => now end in
    if (warningThreshold <=? b) && negb (now =? last) then
      let l := (charge now feeWarning k l).1 in
      let l := with_entry (set_lastWarningTime now) k l in
      (set_stats (stats_warn l + 1) (stats_drop l) l, true)
    else (l, false).

Definition disconnect (now : Z) (k : Key) (l : Logic) : Logic * bool :=
  if isUnlimited k then (l, false)
  else
    let '(l, b) := balance now k l in
    if dropThreshold <=? b then
      let l := (charge now feeDrop k l).1 in
      (set_stats (stats_warn l) (stats_drop l + 1) l, true)
    else (l, false).

(** ** Consumers

    A consumer is empty or refers to an entry. *)
Definition consumer_copy (c : option Key) (l : Logic) : Logic :=
  match c with Some k => acquire k l | None => l end.
Definition consumer_destroy (now : Z) (c : option Key) (l : Logic) : Logic :=
  match c with Some k => release now k l | None => l end.
Definition consumer_assign (now : Z) (old new : option Key) (l : Logic) : Logic :=
  consumer_copy new (consumer_destroy now old l).
Definition consumer_isUnlimited (c : option Key) : bool :=
  match c with Some k => isUnlimited k | None => false end.
Definition consumer_disposition (now : Z) (c : option Key) (l : Logic) : Logic * Disposition :=
  match c with Some k => charge now 0 k l | None => (l, disp_ok) end.
Definition consumer_charge (now cost : Z) (c : option Key) (l : Logic) : Logic * Disposition :=
  match c with
  | Some k => if isUnlimited k then (l, disp_ok) else charge now cost k l
  | None => (l, disp_ok)
  end.

(** ** Gossip *)
Definition exportConsumers (now : Z) (l : Logic) : Logic * list Item :=
  foldl (λ '(l, items) k,
    match table_ l !! k with
    | Some x =>
      let '(b, v) := sample_value now (local_balance x) in
      let l := set_table (<[k := set_local_balance b x]> (table_ l)) l in
      let v := to_int v in
      if minimumGossipBalance <=? v then (l, items ++ [mkItem v (key_address k)]) else (l, items)
    | None => (l, items)
    end) (l, []) (inbound_ l).

Definition add_remote (b : Z) (k : Key) (l : Logic) : Logic :=
  with_entry (λ x, set_remote_balance (to_int (remote_balance x + b)) x) k l.

(** One imported item: the consumer made for it is assigned to the item, the
    item is copied into the vector, and the two temporaries are destroyed. *)
Definition import_item (now : Z) (st : Logic * list (Z * Key)) (g : Item) : Logic * list (Z * Key) :=
  let '(l, items) := st in
  let '(l, k) := newInboundEndpoint now (item_address g) l in
  let l := consumer_assign now None (Some k) l in
  let l := consumer_destroy now (Some k) l in
  let l := add_remote (item_balance g) k l in
  let l := consumer_copy (Some k) l in
  let l := consumer_destroy now (Some k) l in
  (l, items ++ [(item_balance g, k)]).

(** Take back an import's balances, and destroy its consumers. *)
Definition undo_balances (items : list (Z * Key)) (l : Logic) : Logic :=
  foldl (λ l '(b, k), add_remote (- b) k l) l items.
Definition drop_consumers (now : Z) (items : list (Z * Key)) (l : Logic) : Logic :=
  foldl (λ l '(_, k), consumer_destroy now (Some k) l) l items.

Definition importConsumers (now : Z) (origin : string) (gossip : list Item) (l : Logic) : Logic :=
  let '(l, items) := foldl (import_item now) (l, []) gossip in
  let next := mkImport (now + nanoseconds gossipExpirationSeconds) items in
  let prev := importTable_ l !! origin in
  let l := match prev with Some p => undo_balances (imp_items p) l | None => l end in
  let l := set_imports (<[origin := next]> (importTable_ l)) l in
  match prev with Some p => drop_consumers now (imp_items p) l | None => l end.

(** ** Expiry *)

(** Erase an entry of the table, which is inactive. *)
Definition erase (k : Key) (l : Logic) : Logic :=
  let l := set_inactive (unlink k (inactive_ l)) l in
  set_table (delete k (table_ l)) l.

(** The loop over [inactive_]: erase entries from the front while they have
    expired. *)
Fixpoint expire_inactive (now : Z) (ks : list Key) (l : Logic) : Logic :=
  match ks with
  | [] => l
  | k :: ks =>
    match table_ l !! k with
    | Some x =>
      if whenExpires x <=? now then expire_inactive now ks (erase k l) else l
    | None => l
    end
  end.

(** One import of the loop over [importTable_]. *)
Definition expire_import (now : Z) (l : Logic) (x : string * Import) : Logic :=
  let '(origin, imp) := x in
  if imp_whenExpires imp <=? now then
    let l := undo_balances (imp_items imp) l in
    let l := set_imports (delete origin (importTable_ l)) l in
    drop_consumers now (imp_items imp) l
  else l.

Definition periodicActivity (now : Z) (l : Logic) : Logic :=
  let l := expire_inactive now (inactive_ l) l in
  foldl (expire_import now) l (map_to_list (importTable_ l)).
