(* ===== verification/ResourceSpec.v ===== *)
(** * Invariants of the resource manager

    [rinv h r now l]: with [h k] consumers alive for each key and [r k] the sum
    of the balances imported for it, the reference counts, the four lists and
    the remote balances of the table are what they should be. *)

From stdpp Require Import prelude gmap strings sorting.
From Stdlib Require Import ZArith Lia.
From S2P Require Import Prelude.
From S2P Require Import Resource.

Implicit Types (h r : Key → Z) (l : Logic) (k : Key) (x : Entry).

(** ** Arithmetic of [int] *)
Lemma to_int_add a b : to_int (to_int a + b) = to_int (a + b).
Proof.
  unfold to_int. rewrite <- (Zplus_mod_idemp_l (a + b + 2 ^ 31)) || idtac.
  replace ((a + 2 ^ 31) mod 2 ^ 32 - 2 ^ 31 + b + 2 ^ 31) with ((a + 2 ^ 31) mod 2 ^ 32 + b) by lia.
  rewrite Zplus_mod_idemp_l. do 2 f_equal. lia.
Qed.

Lemma to_int_small a : - 2 ^ 31 ≤ a < 2 ^ 31 → to_int a = a.
Proof. intros Ha. unfold to_int. rewrite Z.mod_small; lia. Qed.

(** ** The invariant *)
Definition expires l k : Z := match table_ l !! k with Some x => whenExpires x | None => 0 end.

Record rinv h r (now : Z) l : Prop := {
  ri_nonneg : ∀ k, 0 ≤ h k;
  ri_ref : ∀ k x, table_ l !! k = Some x → refcount x = h k;
  ri_none : ∀ k, table_ l !! k = None → h k = 0 ∧ r k = 0;
  ri_remote : ∀ k x, table_ l !! k = Some x → remote_balance x = to_int (r k);
  ri_active : ∀ kd k, k ∈ active kd l ↔ key_kind k = kd ∧ 0 < h k;
  ri_active_nodup : ∀ kd, NoDup (active kd l);
  ri_inactive : ∀ k, k ∈ inactive_ l ↔ is_Some (table_ l !! k) ∧ h k = 0;
  ri_inactive_nodup : NoDup (inactive_ l);
  ri_sorted : StronglySorted (λ a b, expires l a ≤ expires l b) (inactive_ l);
  ri_recent : ∀ k, k ∈ inactive_ l → expires l k ≤ now + nanoseconds secondsUntilExpiration;
}.

Lemma new_logic_inv now : rinv (λ _, 0) (λ _, 0) now new_logic.
Proof.
  split; simpl; try done; try (intros; by constructor).
  - intros [] k; simpl; split; try lia; intros Hk; by apply not_elem_of_nil in Hk.
  - intros []; constructor.
  - intros k. rewrite lookup_empty. split; [intros Hk; by apply not_elem_of_nil in Hk|].
    by intros [[? ?] _].
  - intros k Hk. by apply not_elem_of_nil in Hk.
Qed.

Lemma rinv_ext h h' r r' now now' l :
  rinv h r now l → (∀ k, h k = h' k) → (∀ k, r k = r' k) → now ≤ now' → rinv h' r' now' l.
Proof.
  intros [] Hh Hr Hn. split; try done.
  - intros k. by rewrite <- Hh.
  - intros k x Hx. rewrite <- Hh. auto.
  - intros k Hk. rewrite <- Hh, <- Hr. auto.
  - intros k x Hx. rewrite <- Hr. auto.
  - intros kd k. rewrite <- Hh. auto.
  - intros k. rewrite <- Hh. auto.
  - intros k Hk. specialize (ri_recent0 k Hk). lia.
Qed.

(** ** Changing entries *)

(** An operation of an entry that leaves its counts alone. *)
Lemma entry_inv h r now l k x x' :
  rinv h r now l → table_ l !! k = Some x → refcount x' = refcount x →
  remote_balance x' = remote_balance x → whenExpires x' = whenExpires x →
  rinv h r now (set_table (<[k := x']> (table_ l)) l).
Proof.
  intros [] Hx H1 H2 H3.
  assert (∀ a, expires (set_table (<[k := x']> (table_ l)) l) a = expires l a) as He.
  { intros a. unfold expires. simpl. destruct (decide (a = k)) as [->|].
    - by rewrite lookup_insert_eq, Hx.
    - by rewrite lookup_insert_ne. }
  split; try done; simpl.
  - intros a y [[<- <-]|[_ Hy]]%lookup_insert_Some; [rewrite H1|]; by apply ri_ref0.
  - intros a [Ha _]%lookup_insert_None. auto.
  - intros a y [[<- <-]|[_ Hy]]%lookup_insert_Some; [rewrite H2|]; by apply ri_remote0.
  - intros a. rewrite ri_inactive0. destruct (decide (a = k)) as [->|].
    + rewrite lookup_insert_eq, Hx. split; intros [_ ?]; (split; [by eexists|done]).
    + by rewrite lookup_insert_ne.
  - eapply StronglySorted_weaken; [|done]. intros a b _ _. by rewrite !He.
  - intros a Ha. rewrite He. auto.
Qed.

Lemma on_entry_inv f h r now l k :
  (∀ x, refcount (f x).1 = refcount x ∧ remote_balance (f x).1 = remote_balance x ∧
        whenExpires (f x).1 = whenExpires x) →
  rinv h r now l → rinv h r now (on_entry f k l).1.
Proof.
  intros Hf Hinv. unfold on_entry. destruct (table_ l !! k) as [x|] eqn:Ex; [|done].
  destruct (Hf x) as (H1 & H2 & H3). destruct (f x) as [x' v]. simpl in *.
  by eapply entry_inv.
Qed.

Lemma add_remote_inv h r now l k b :
  rinv h r now l → 0 < h k →
  rinv h (λ a, if decide (a = k) then r a + b else r a) now (add_remote b k l).
Proof.
  intros [] Hk. destruct (table_ l !! k) as [x|] eqn:Ex.
  2: { destruct (ri_none0 k Ex). lia. }
  assert (∀ a, expires (add_remote b k l) a = expires l a) as He.
  { intros a. unfold expires. simpl. destruct (decide (a = k)) as [->|].
    - by rewrite lookup_alter_eq, Ex.
    - by rewrite lookup_alter_ne. }
  split; try done; simpl.
  - intros a y. rewrite lookup_alter_Some. intros [(<- & z & Hz & ->)|[_ Hy]]; simpl; auto.
  - intros a Ha. apply lookup_alter_None in Ha. case_decide; [|auto]. subst. congruence.
  - intros a y. rewrite lookup_alter_Some. intros [(<- & z & Hz & ->)|[Hne Hy]]; simpl.
    + rewrite decide_True by done. rewrite (ri_remote0 k z Hz). apply to_int_add.
    + rewrite decide_False by done. auto.
  - intros a. rewrite ri_inactive0. destruct (decide (a = k)) as [->|].
    + rewrite lookup_alter_eq, Ex. split; intros [_ ?]; (split; [by eexists|done]).
    + by rewrite lookup_alter_ne.
  - eapply StronglySorted_weaken; [|done]. intros y z _ _. by rewrite !He.
  - intros a Ha. rewrite He. auto.
Qed.

(** ** Reference counts *)
Lemma active_set kd kd' xs l : active kd (set_active kd' xs l) = if decide (kd = kd') then xs else active kd l.
Proof. by destruct kd, kd'. Qed.

Lemma set_active_frame kd xs l :
  table_ (set_active kd xs l) = table_ l ∧ inactive_ (set_active kd xs l) = inactive_ l ∧
  importTable_ (set_active kd xs l) = importTable_ l.
Proof. by destruct kd. Qed.

Lemma unlink_elem k xs a : a ∈ unlink k xs ↔ a ∈ xs ∧ a ≠ k.
Proof. unfold unlink. rewrite list_elem_of_filter. tauto. Qed.

Definition plus k h : Key → Z := λ a, if decide (a = k) then h a + 1 else h a.

Lemma acquire_inv h r now l k : rinv h r now l → 0 < h k → rinv (plus k h) r now (acquire k l).
Proof.
  intros [] Hk. unfold plus. destruct (table_ l !! k) as [x|] eqn:Ex.
  2: { destruct (ri_none0 k Ex). lia. }
  assert (∀ a, expires (acquire k l) a = expires l a) as He.
  { intros a. unfold expires. simpl. destruct (decide (a = k)) as [->|].
    - by rewrite lookup_alter_eq, Ex.
    - by rewrite lookup_alter_ne. }
  split; try done; simpl.
  - intros a. specialize (ri_nonneg0 a). case_decide; lia.
  - intros a y. rewrite lookup_alter_Some. intros [(<- & z & Hz & ->)|[Hne Hy]]; simpl.
    + rewrite decide_True by done. by rewrite (ri_ref0 k z Hz).
    + rewrite decide_False by done. auto.
  - intros a Ha. apply lookup_alter_None in Ha. case_decide; [|auto]. subst. congruence.
  - intros a y. rewrite lookup_alter_Some. intros [(<- & z & Hz & ->)|[_ Hy]]; simpl; auto.
  - intros kd a. change (active kd (acquire k l)) with (active kd l). rewrite ri_active0.
    case_decide; [subst; split; intros [? ?]; split; try done; lia|done].
  - intros a. rewrite ri_inactive0. destruct (decide (a = k)) as [->|].
    + rewrite lookup_alter_eq, Ex. split; intros [_ ?]; lia.
    + by rewrite lookup_alter_ne.
  - eapply StronglySorted_weaken; [|done]. intros y z _ _. by rewrite !He.
  - intros a Ha. rewrite He. auto.
Qed.

(** What [newEndpoint] does to the table and the lists. *)
Lemma newEndpoint_shape h r now l k :
  rinv h r now l →
  let l' := (newEndpoint now k l).1 in
  table_ l' = <[k := set_refcount (h k + 1) (default (new_entry now) (table_ l !! k))]> (table_ l) ∧
  inactive_ l' = (if h k =? 0 then unlink k (inactive_ l) else inactive_ l) ∧
  importTable_ l' = importTable_ l ∧
  ∀ kd, active kd l' =
    if (h k =? 0) && bool_decide (kd = key_kind k) then active kd l ++ [k] else active kd l.
Proof.
  intros []. unfold newEndpoint. destruct (table_ l !! k) as [x|] eqn:Ex; simpl.
  - rewrite (ri_ref0 k x Ex). replace (h k + 1 =? 1) with (h k =? 0) by lia.
    destruct (h k =? 0); simpl; [|done].
    set (l1 := set_inactive _ _).
    destruct (set_active_frame (key_kind k) (active (key_kind k) l1 ++ [k]) l1) as (-> & -> & ->).
    split_and!; try done. intros kd. rewrite active_set.
    case_decide; [subst; by rewrite bool_decide_true|by rewrite bool_decide_false].
  - destruct (ri_none0 k Ex) as [-> _]. simpl. set (l1 := set_table _ _).
    destruct (set_active_frame (key_kind k) (active (key_kind k) l1 ++ [k]) l1) as (-> & -> & ->).
    split_and!; try done.
    + simpl. symmetry. unfold unlink. apply filter_keeps.
      intros a Ha ->. apply ri_inactive0 in Ha as [[? ?] _]. congruence.
    + intros kd. rewrite active_set.
      case_decide; [subst; by rewrite bool_decide_true|by rewrite bool_decide_false].
Qed.

Lemma newEndpoint_inv h r now l k :
  rinv h r now l → rinv (plus k h) r now (newEndpoint now k l).1.
Proof.
  intros Hinv. destruct (newEndpoint_shape h r now l k Hinv) as (Ht & Hi & _ & Ha).
  destruct Hinv. set (l' := (newEndpoint now k l).1) in *. clearbody l'. unfold plus.
  assert (∀ a, a ≠ k → expires l' a = expires l a) as He.
  { intros a Hne. unfold expires. by rewrite Ht, lookup_insert_ne. }
  assert (∀ a, a ∈ inactive_ l' ↔ a ∈ inactive_ l ∧ a ≠ k) as Hin.
  { intros a. rewrite Hi. destruct (Z.eqb_spec (h k) 0); [apply unlink_elem|].
    split; [|tauto]. intros Hx. split; [done|]. intros ->.
    apply ri_inactive0 in Hx as [_ ?]. lia. }
  split.
  - intros a. specialize (ri_nonneg0 a). case_decide; lia.
  - rewrite Ht. intros a y [[<- <-]|[Hne Hy]]%lookup_insert_Some; simpl.
    + by rewrite decide_True.
    + rewrite decide_False by done. auto.
  - rewrite Ht. intros a [Hn Hne]%lookup_insert_None. rewrite decide_False by done. auto.
  - rewrite Ht. intros a y [[<- <-]|[_ Hy]]%lookup_insert_Some; simpl; [|auto].
    destruct (table_ l !! k) as [x|] eqn:Ex; simpl; [auto|].
    destruct (ri_none0 k Ex) as [_ ->]. done.
  - intros kd a. rewrite Ha. destruct (Z.eqb_spec (h k) 0) as [Hz|Hz]; simpl.
    + case_bool_decide as Hk.
      * rewrite elem_of_app, ri_active0, list_elem_of_singleton. case_decide; subst; [|tauto].
        split; [intros _; split; [done|lia]|tauto].
      * rewrite ri_active0. case_decide; subst; [|done]. split; intros [? ?]; congruence.
    + rewrite ri_active0. specialize (ri_nonneg0 k). case_decide; subst; [|done].
      split; intros [? ?]; split; try done; lia.
  - intros kd. rewrite Ha. destruct (Z.eqb_spec (h k) 0) as [Hz|Hz]; simpl; [|done].
    case_bool_decide; [|done]. apply NoDup_app. split_and!; [done| |apply NoDup_singleton].
    intros a Hx%ri_active0 ->%list_elem_of_singleton. lia.
  - intros a. rewrite Hin, ri_inactive0, Ht. destruct (decide (a = k)) as [->|Hne].
    + split; [tauto|]. specialize (ri_nonneg0 k). intros [_ ?]. lia.
    + rewrite lookup_insert_ne by done. tauto.
  - rewrite Hi. destruct (_ =? _); [by apply NoDup_filter|done].
  - eapply StronglySorted_weaken with (R := λ a b, expires l a ≤ expires l b).
    + intros a b [_ Ha']%Hin [_ Hb']%Hin. by rewrite !He.
    + rewrite Hi. destruct (_ =? _); [by apply StronglySorted_filter|done].
  - intros a [Hx Hne]%Hin. rewrite He by done. auto.
Qed.

(** What [release] does. *)
Lemma release_shape h r now l k :
  rinv h r now l → 0 < h k →
  let l' := release now k l in
  (∀ a, a ≠ k → table_ l' !! a = table_ l !! a) ∧
  (∃ x x', table_ l !! k = Some x ∧ table_ l' !! k = Some x' ∧ refcount x' = h k - 1 ∧
     remote_balance x' = remote_balance x ∧
     whenExpires x' = if h k =? 1 then now + nanoseconds secondsUntilExpiration else whenExpires x) ∧
  inactive_ l' = (if h k =? 1 then inactive_ l ++ [k] else inactive_ l) ∧
  importTable_ l' = importTable_ l ∧
  ∀ kd, active kd l' =
    if (h k =? 1) && bool_decide (kd = key_kind k) then unlink k (active kd l) else active kd l.
Proof.
  intros [] Hk. unfold release. destruct (table_ l !! k) as [x|] eqn:Ex.
  2: { destruct (ri_none0 k Ex). lia. }
  simpl. rewrite lookup_alter_eq, Ex. simpl. rewrite (ri_ref0 k x Ex).
  replace (h k - 1 =? 0) with (h k =? 1) by lia. destruct (h k =? 1) eqn:E1; simpl.
  - set (l1 := with_entry _ k l).
    destruct (set_active_frame (key_kind k) (unlink k (active (key_kind k) l1)) l1)
      as (-> & -> & ->). split_and!; try done.
    + intros a Hne. simpl. by rewrite !lookup_alter_ne.
    + eexists x, _. simpl. rewrite !lookup_alter_eq, Ex. split_and!; try done. simpl.
      by rewrite (ri_ref0 k x Ex).
    + intros kd.
      change (active kd (with_entry ?f k ?m)) with (active kd m).
      transitivity (active kd (set_active (key_kind k) (unlink k (active (key_kind k) l1)) l1)).
      { by destruct kd. }
      rewrite active_set. case_decide; [subst; by rewrite bool_decide_true|by rewrite bool_decide_false].
  - split_and!; try done.
    + intros a Hne. by rewrite lookup_alter_ne.
    + eexists x, _. rewrite lookup_alter_eq, Ex. split_and!; try done. simpl.
      by rewrite (ri_ref0 k x Ex).
Qed.

Definition minus k h : Key → Z := λ a, if decide (a = k) then h a - 1 else h a.

Lemma release_inv h r now l k :
  rinv h r now l → 0 < h k → rinv (minus k h) r now (release now k l).
Proof.
  intros Hinv Hk. destruct (release_shape h r now l k Hinv Hk)
    as (Ht & (x & x' & Hx & Hx' & Hc & Hr & Hw) & Hi & _ & Ha).
  destruct Hinv. set (l' := release now k l) in *. clearbody l'. unfold minus.
  assert (k ∉ inactive_ l) as Hnk by (intros [_ ?]%ri_inactive0; lia).
  assert (∀ a, a ≠ k → expires l' a = expires l a) as He.
  { intros a Hne. unfold expires. by rewrite Ht. }
  split.
  - intros a. specialize (ri_nonneg0 a). case_decide; subst; lia.
  - intros a y Hy. destruct (decide (a = k)) as [->|Hne]; [congruence|].
    rewrite Ht in Hy by done. auto.
  - intros a Hn. destruct (decide (a = k)) as [->|Hne]; [congruence|].
    rewrite Ht in Hn by done. auto.
  - intros a y Hy. destruct (decide (a = k)) as [->|Hne].
    + rewrite Hx' in Hy. injection Hy as <-. rewrite Hr. auto.
    + rewrite Ht in Hy by done. auto.
  - intros kd a. rewrite Ha. destruct (Z.eqb_spec (h k) 1) as [H1|H1]; simpl.
    + case_bool_decide as Hkd.
      * rewrite unlink_elem, ri_active0. case_decide; subst; [|tauto].
        split; [tauto|]. intros [_ ?]. lia.
      * rewrite ri_active0. case_decide; subst; [|done]. split; intros [? ?]; congruence.
    + rewrite ri_active0. case_decide; subst; [|done].
      split; intros [? ?]; split; try done; lia.
  - intros kd. rewrite Ha. destruct (_ && _); [by apply NoDup_filter|done].
  - intros a. rewrite Hi. destruct (Z.eqb_spec (h k) 1) as [H1|H1].
    + rewrite elem_of_app, list_elem_of_singleton, ri_inactive0. case_decide as Hd.
      * subst. rewrite Hx'. split; [intros _; split; [by eexists|lia]|by right].
      * rewrite Ht by done. tauto.
    + rewrite ri_inactive0. case_decide as Hd; [|by rewrite Ht].
      subst. split; intros [_ ?]; lia.
  - rewrite Hi. destruct (_ =? _); [|done].
    apply NoDup_app. split_and!; [done| |apply NoDup_singleton]. by intros a Ha' ->%list_elem_of_singleton.
  - assert (StronglySorted (λ a b, expires l' a ≤ expires l' b) (inactive_ l)) as Hs.
    { eapply StronglySorted_weaken; [|done]. intros a b Ha' Hb'.
      rewrite !He; [done|by intros ->|by intros ->]. }
    rewrite Hi. destruct (Z.eqb_spec (h k) 1) as [H1|H1]; [|done].
    apply StronglySorted_snoc; [done|]. intros a Ha'. rewrite He by by intros ->.
    unfold expires at 2. rewrite Hx', Hw. auto.
  - intros a. rewrite Hi. destruct (Z.eqb_spec (h k) 1) as [H1|H1].
    + intros [Ha'| ->%list_elem_of_singleton]%elem_of_app.
      * rewrite He; [by auto|by intros ->].
      * unfold expires. rewrite Hx', Hw. lia.
    + intros Ha'. rewrite He; [by auto|by intros ->].
Qed.

(** ** Expiry of inactive entries *)
Lemma erase_inv h r now l k :
  rinv h r now l → k ∈ inactive_ l → r k = 0 → rinv h r now (erase k l).
Proof.
  intros [] Hk Hr. pose proof (proj1 (ri_inactive0 k) Hk) as [_ Hh].
  assert (∀ a, a ≠ k → expires (erase k l) a = expires l a) as He.
  { intros a Hne. unfold expires. simpl. by rewrite lookup_delete_ne. }
  split; simpl; try done.
  - intros a y [_ Hy]%lookup_delete_Some. auto.
  - intros a [->|Ha]%lookup_delete_None; auto.
  - intros a y [_ Hy]%lookup_delete_Some. auto.
  - intros a. rewrite unlink_elem, ri_inactive0. destruct (decide (a = k)) as [->|Hne].
    + rewrite lookup_delete_eq. split; [tauto|]. by intros [[? ?] _].
    + rewrite lookup_delete_ne by done. tauto.
  - by apply NoDup_filter.
  - eapply StronglySorted_weaken with (R := λ a b, expires l a ≤ expires l b).
    + intros a b [_ Ha]%unlink_elem [_ Hb]%unlink_elem. by rewrite !He.
    + by apply StronglySorted_filter.
  - intros a [Ha Hne]%unlink_elem. rewrite He by done. auto.
Qed.

(** The loop erases the inactive entries that have expired, all of them and no
    others. *)
Lemma expire_inactive_inv ks : ∀ h r now l,
  rinv h r now l → (∀ k, h k = 0 → r k = 0) → inactive_ l = ks →
  let l' := expire_inactive now ks l in
  rinv h r now l' ∧ importTable_ l' = importTable_ l ∧
  ∀ k, table_ l' !! k =
    match table_ l !! k with
    | Some x => if (h k =? 0) && (whenExpires x <=? now) then None else Some x
    | None => None
    end.
Proof.
  induction ks as [|k ks IH]; intros h r now l Hinv Hr Hks; simpl.
  { split_and!; try done. intros a. destruct (table_ l !! a) as [x|] eqn:Ex; [|done].
    destruct (Z.eqb_spec (h a) 0) as [H0|]; [|done].
    assert (a ∈ inactive_ l) as Ha by (apply Hinv; split; [by eexists|done]).
    rewrite Hks in Ha. by apply not_elem_of_nil in Ha. }
  assert (k ∈ inactive_ l) as Hk by (rewrite Hks; apply list_elem_of_here).
  pose proof (proj1 (ri_inactive _ _ _ _ Hinv k) Hk) as [[x Hx] Hh]. rewrite Hx.
  pose proof (ri_inactive_nodup _ _ _ _ Hinv) as Hnd. rewrite Hks in Hnd.
  apply NoDup_cons in Hnd as [Hnk Hnd].
  destruct (Z.leb_spec (whenExpires x) now) as [Hle|Hgt].
  - destruct (IH h r now (erase k l)) as (H1 & H2 & H3).
    { apply erase_inv; auto. }
    { done. }
    { simpl. rewrite Hks. unfold unlink. rewrite filter_cons_False by (intros []; done).
      apply filter_keeps. by intros a Ha ->. }
    split_and!; [done|done|]. intros a. rewrite H3. simpl. destruct (decide (a = k)) as [->|Hne].
    + rewrite lookup_delete_eq, Hx, Hh. simpl. by rewrite (proj2 (Z.leb_le _ _)).
    + by rewrite lookup_delete_ne.
  - split_and!; try done. intros a. destruct (table_ l !! a) as [y|] eqn:Ey; [|done].
    destruct (Z.eqb_spec (h a) 0) as [H0|]; [|done].
    assert (a ∈ inactive_ l) as Ha by (apply Hinv; split; [by eexists|done]).
    assert (expires l k ≤ expires l a) as Hle.
    { pose proof (ri_sorted _ _ _ _ Hinv) as Hs. rewrite Hks in Hs, Ha.
      apply elem_of_cons in Ha as [->|Ha]; [done|]. inversion Hs as [|? ? _ Hall]; subst.
      rewrite Forall_forall in Hall. auto. }
    unfold expires in Hle. rewrite Hx, Ey in Hle. simpl.
    by rewrite (proj2 (Z.leb_gt _ _)) by lia.
Qed.

(** ** Imports *)
Definition one (k a : Key) : Z := if decide (a = k) then 1 else 0.
Definition item_count (items : list (Z * Key)) k : Z := sumZ (λ i, one k i.2) items.
Definition item_sum (items : list (Z * Key)) k : Z :=
  sumZ (λ i, if decide (i.2 = k) then i.1 else 0) items.

Lemma item_count_nonneg items k : 0 ≤ item_count items k.
Proof. apply sumZ_nonneg. intros i _. unfold one. case_decide; lia. Qed.

Lemma item_count_pos items b k : (b, k) ∈ items → 0 < item_count items k.
Proof.
  intros Hi. apply Z.lt_le_trans with (one k k); [by unfold one; rewrite decide_True|].
  apply (sumZ_elem (λ i, one k i.2) items (b, k)); [|done].
  intros i _. unfold one. case_decide; lia.
Qed.

Lemma item_sum_zero items k : item_count items k = 0 → item_sum items k = 0.
Proof.
  intros H0. apply sumZ_zero. intros [b a] Hi. simpl. case_decide as Hd; [|done]. subst.
  apply item_count_pos in Hi. lia.
Qed.

Lemma newEndpoint_key now k l : (newEndpoint now k l).2 = k.
Proof. unfold newEndpoint. by destruct (table_ l !! k). Qed.

Lemma newEndpoint_imports now k l : importTable_ (newEndpoint now k l).1 = importTable_ l.
Proof.
  unfold newEndpoint. destruct (table_ l !! k) as [x|]; cbv zeta.
  - destruct (refcount (set_refcount (refcount x + 1) x) =? 1); [|done]. by destruct (key_kind k).
  - by destruct (key_kind k).
Qed.

Lemma release_imports now k l : importTable_ (release now k l) = importTable_ l.
Proof.
  unfold release. cbv zeta. destruct (table_ (with_entry _ k l) !! k) as [x|]; [|done].
  destruct (refcount x =? 0); [|done]. by destruct (key_kind k).
Qed.

(** The key an imported item gets. *)
Definition import_key (g : Item) : Key := mkKey kindInbound (at_port 0 (item_address g)).
Definition import_entry (g : Item) : Z * Key := (item_balance g, import_key g).

Lemma import_item_inv h r now l items g :
  rinv h r now l →
  let st := import_item now (l, items) g in
  rinv (λ a, h a + item_count [import_entry g] a) (λ a, r a + item_sum [import_entry g] a) now st.1 ∧
  st.2 = items ++ [import_entry g] ∧ importTable_ st.1 = importTable_ l.
Proof.
  intros Hinv. unfold import_item. cbv zeta.
  assert (0 ≤ h (import_key g)) as H0 by apply Hinv.
  pose proof (newEndpoint_inv h r now l (import_key g) Hinv) as H1.
  pose proof (newEndpoint_imports now (import_key g) l) as Hm.
  unfold newInboundEndpoint. fold (import_key g).
  pose proof (newEndpoint_key now (import_key g) l) as Hk.
  destruct (newEndpoint now (import_key g) l) as [l1 k]. simpl in H1, Hm, Hk. subst k.
  set (k := import_key g) in *.
  assert (plus k h k = h k + 1) as Hp by (unfold plus; by rewrite decide_True).
  apply (acquire_inv _ _ _ _ k) in H1; [|lia].
  apply (release_inv _ _ _ _ k) in H1; [|unfold plus at 1; rewrite decide_True by done; lia].
  assert (minus k (plus k (plus k h)) k = h k + 1) as Hp2.
  { unfold minus, plus. rewrite !decide_True by done. lia. }
  apply (add_remote_inv _ _ _ _ k (item_balance g)) in H1; [|lia].
  apply (acquire_inv _ _ _ _ k) in H1; [|lia].
  apply (release_inv _ _ _ _ k) in H1; [|unfold plus at 1; rewrite decide_True by done; lia].
  simpl. split_and!; [|done|].
  - eapply rinv_ext; [exact H1| | |lia].
    + intros a. unfold minus, plus, item_count, one. simpl.
      destruct (decide (a = k)) as [->|Hne]; repeat case_decide; subst; try done; lia.
    + intros a. unfold item_sum. simpl.
      destruct (decide (a = k)) as [->|Hne]; repeat case_decide; subst; try done; lia.
  - rewrite release_imports. simpl. by rewrite release_imports.
Qed.

Lemma import_items_inv gossip : ∀ h r now l items,
  rinv h r now l →
  let new := map import_entry gossip in
  let st := foldl (import_item now) (l, items) gossip in
  rinv (λ a, h a + item_count new a) (λ a, r a + item_sum new a) now st.1 ∧
  st.2 = items ++ new ∧ importTable_ st.1 = importTable_ l.
Proof.
  induction gossip as [|g gossip IH]; intros h r now l items Hinv; cbv zeta; cbn [foldl map].
  { simpl. rewrite app_nil_r. split_and!; try done.
    eapply rinv_ext; [done| | |lia]; intros a; unfold item_count, item_sum; simpl; lia. }
  destruct (import_item_inv h r now l items g Hinv) as (H1 & H2 & H3).
  cbv zeta in H1, H2, H3. destruct (import_item now (l, items) g) as [l1 items1].
  simpl in H1, H2, H3. subst items1.
  destruct (IH _ _ now l1 (items ++ [import_entry g]) H1) as (H4 & H5 & H6).
  split_and!.
  - eapply rinv_ext; [exact H4| | |lia]; intros a; unfold item_count, item_sum; simpl; lia.
  - rewrite H5. by rewrite <- (assoc_L (++)).
  - by rewrite H6.
Qed.

Lemma undo_balances_inv items : ∀ h r now l,
  rinv h r now l → (∀ b k, (b, k) ∈ items → 0 < h k) →
  rinv h (λ a, r a - item_sum items a) now (undo_balances items l) ∧
  importTable_ (undo_balances items l) = importTable_ l.
Proof.
  induction items as [|[b k] items IH]; intros h r now l Hinv Hpos; simpl.
  { split; [|done]. eapply rinv_ext; [done|done| |lia]. intros a. unfold item_sum. simpl. lia. }
  destruct (IH h _ now _ (add_remote_inv h r now l k (- b) Hinv
    (Hpos b k (list_elem_of_here _ _)))) as [H1 H2].
  { intros b' k' Hi. apply (Hpos b'). by apply list_elem_of_further. }
  split; [|done]. eapply rinv_ext; [exact H1|done| |lia]. intros a. unfold item_sum. simpl.
  same_key a k.
Qed.

Lemma drop_consumers_inv items : ∀ h r now l,
  rinv h r now l → (∀ k, item_count items k ≤ h k) →
  rinv (λ a, h a - item_count items a) r now (drop_consumers now items l) ∧
  importTable_ (drop_consumers now items l) = importTable_ l.
Proof.
  induction items as [|[b k] items IH]; intros h r now l Hinv Hpos; simpl.
  { split; [|done]. eapply rinv_ext; [done| |done|lia]. intros a. unfold item_count. simpl. lia. }
  assert (0 < h k) as Hk.
  { eapply Z.lt_le_trans; [apply (item_count_pos ((b, k) :: items) b k), list_elem_of_here|auto]. }
  destruct (IH _ _ now _ (release_inv h r now l k Hinv Hk)) as [H1 H2].
  { intros a. specialize (Hpos a). unfold item_count, one in *. simpl in Hpos. unfold minus.
    same_key a k. }
  split; [|by rewrite H2, release_imports].
  eapply rinv_ext; [exact H1| |done|lia]. intros a. unfold item_count, one, minus. simpl.
  same_key a k.
Qed.

(** ** Between operations

    The consumers alive are those of the callers and those of the imports; the
    balances imported are those of the imports. *)
Definition over (f : list (Z * Key) → Z) (imports : gmap string Import) : Z :=
  sumZ (λ x : string * Import, f (imp_items x.2)) (map_to_list imports).
Definition consumers_of (cs : list Key) k : Z := sumZ (one k) cs.
Definition held (cs : list Key) (imports : gmap string Import) k : Z :=
  consumers_of cs k + over (λ items, item_count items k) imports.
Definition imported (imports : gmap string Import) k : Z :=
  over (λ items, item_sum items k) imports.

Definition managed (cs : list Key) (now : Z) l : Prop :=
  rinv (held cs (importTable_ l)) (imported (importTable_ l)) now l.

Lemma over_delete f m o imp :
  m !! o = Some imp → over f m = f (imp_items imp) + over f (delete o m).
Proof.
  intros Ho. unfold over.
  by rewrite <- (sumZ_perm _ _ _ (map_to_list_delete m o imp Ho)).
Qed.

Lemma over_insert f m o imp :
  over f (<[o := imp]> m) =
  f (imp_items imp) + over f m - match m !! o with Some p => f (imp_items p) | None => 0 end.
Proof.
  destruct (m !! o) as [p|] eqn:Ho.
  - rewrite (over_delete f m o p Ho), (over_delete f _ o imp (lookup_insert_eq _ _ _)).
    rewrite delete_insert_eq. lia.
  - unfold over. rewrite (sumZ_perm _ _ _ (map_to_list_insert m o imp Ho)). simpl. lia.
Qed.

Lemma over_nonneg m k : 0 ≤ over (λ items, item_count items k) m.
Proof. apply sumZ_nonneg. intros x _. apply item_count_nonneg. Qed.

Lemma consumers_nonneg cs k : 0 ≤ consumers_of cs k.
Proof. apply sumZ_nonneg. intros x _. unfold one. case_decide; lia. Qed.

Lemma consumers_pos cs k : k ∈ cs → 0 < consumers_of cs k.
Proof.
  intros Hk. apply Z.lt_le_trans with (one k k); [by unfold one; rewrite decide_True|].
  apply sumZ_elem; [|done]. intros x _. unfold one. case_decide; lia.
Qed.

Lemma held_pos cs m k : k ∈ cs → 0 < held cs m k.
Proof. intros Hk%consumers_pos. pose proof (over_nonneg m k). unfold held. lia. Qed.

Lemma held_zero cs m k : held cs m k = 0 → imported m k = 0.
Proof.
  unfold held. pose proof (over_nonneg m k). pose proof (consumers_nonneg cs k). intros Hz.
  apply sumZ_zero. intros [o imp] Hx. apply item_sum_zero.
  assert (item_count (imp_items imp) k ≤ over (λ items, item_count items k) m).
  { apply (sumZ_elem (λ x : string * Import, item_count (imp_items x.2) k) _ (o, imp)); [|done].
    intros y _. apply item_count_nonneg. }
  pose proof (item_count_nonneg (imp_items imp) k). simpl in *. lia.
Qed.

Lemma new_logic_managed now : managed [] now new_logic.
Proof. unfold managed. eapply (rinv_ext _ _ _ _ now now); [apply new_logic_inv|done|done|lia]. Qed.

Lemma newEndpoint_managed cs now k l :
  managed cs now l → managed (k :: cs) now (newEndpoint now k l).1.
Proof.
  intros Hm. unfold managed. rewrite newEndpoint_imports.
  eapply rinv_ext; [by apply newEndpoint_inv| |done|lia]. intros a.
  unfold plus, held, consumers_of, one. simpl.
  same_key a k.
Qed.

Lemma held_cons cs m k : held (k :: cs) m k = held cs m k + 1.
Proof. unfold held, consumers_of, one. simpl. same_key k k. Qed.

Lemma acquire_held_managed cs now k l :
  managed cs now l → 0 < held cs (importTable_ l) k → managed (k :: cs) now (acquire k l).
Proof.
  intros Hm Hk. unfold managed. eapply rinv_ext; [by apply acquire_inv| |done|lia].
  intros a. unfold plus, held, consumers_of, one. simpl.
  same_key a k.
Qed.

Lemma acquire_managed cs now k l : managed cs now l → k ∈ cs → managed (k :: cs) now (acquire k l).
Proof. intros Hm Hk. apply acquire_held_managed; [done|by apply held_pos]. Qed.

Lemma release_managed cs now k l : managed (k :: cs) now l → managed cs now (release now k l).
Proof.
  intros Hm. unfold managed. rewrite release_imports.
  eapply rinv_ext; [apply release_inv; [done|apply held_pos, list_elem_of_here]| |done|lia].
  intros a. unfold minus, held, consumers_of, one. simpl.
  same_key a k.
Qed.

Lemma managed_perm cs cs' now l : cs ≡ₚ cs' → managed cs now l → managed cs' now l.
Proof.
  intros Hp Hm. eapply rinv_ext; [done| |done|lia]. intros k. unfold held, consumers_of.
  by rewrite (sumZ_perm _ _ _ Hp).
Qed.

Lemma managed_later cs now now' l : now ≤ now' → managed cs now l → managed cs now' l.
Proof. intros Hn Hm. by eapply rinv_ext. Qed.

Lemma set_imports_inv h r now l m : rinv h r now l → rinv h r now (set_imports m l).
Proof. intros []. by split. Qed.

(** Retiring an import: its balances are taken back, the import table becomes
    [m], and its consumers are destroyed. *)
Lemma retire_inv h r now l m items :
  rinv h r now l → (∀ k, item_count items k ≤ h k) →
  let l' := drop_consumers now items (set_imports m (undo_balances items l)) in
  rinv (λ a, h a - item_count items a) (λ a, r a - item_sum items a) now l' ∧ importTable_ l' = m.
Proof.
  intros Hinv Hle. destruct (undo_balances_inv items h r now l Hinv) as [H1 _].
  { intros b k Hi%item_count_pos. specialize (Hle k). lia. }
  apply (set_imports_inv _ _ _ _ m) in H1.
  by destruct (drop_consumers_inv items _ _ _ _ H1 Hle).
Qed.

Lemma held_ge cs m o p k : m !! o = Some p → item_count (imp_items p) k ≤ held cs m k.
Proof.
  intros Ho. unfold held. rewrite (over_delete _ _ _ _ Ho).
  pose proof (over_nonneg (delete o m) k). pose proof (consumers_nonneg cs k). lia.
Qed.

Lemma importConsumers_managed cs now origin gossip l :
  managed cs now l → managed cs now (importConsumers now origin gossip l).
Proof.
  intros Hm. unfold importConsumers.
  destruct (import_items_inv gossip _ _ now l [] Hm) as (H1 & H2 & H3). cbv zeta in H1, H2, H3.
  destruct (foldl (import_item now) (l, []) gossip) as [l1 items]. simpl in H1, H2, H3. subst items.
  set (new := map import_entry gossip) in *. rewrite H3.
  set (imp := mkImport _ new). destruct (importTable_ l !! origin) as [p|] eqn:Ep.
  - assert (importTable_ (undo_balances (imp_items p) l1) = importTable_ l) as ->.
    { rewrite <- H3. eapply undo_balances_inv; [exact H1|]. intros b k Hi%item_count_pos.
      pose proof (held_ge cs _ _ _ k Ep). pose proof (item_count_nonneg new k). lia. }
    destruct (retire_inv _ _ _ _ (<[origin := imp]> (importTable_ l)) (imp_items p) H1) as [H4 H5].
    { intros k. pose proof (held_ge cs _ _ _ k Ep). pose proof (item_count_nonneg new k). lia. }
    unfold managed. rewrite H5.
    eapply rinv_ext; [exact H4| | |lia]; intros k; unfold held, imported;
      rewrite over_insert, Ep; simpl; lia.
  - unfold managed. rewrite H3. cbn [set_imports importTable_].
    eapply rinv_ext; [apply set_imports_inv, H1| | |lia]; intros k; unfold held, imported;
      rewrite over_insert, Ep; simpl; lia.
Qed.

(** ** Periodic activity *)
Lemma expire_inactive_managed cs now l :
  managed cs now l → managed cs now (expire_inactive now (inactive_ l) l).
Proof.
  intros Hm. destruct (expire_inactive_inv (inactive_ l) _ _ now l Hm) as (H1 & H2 & _);
    [intros k; apply held_zero|done|]. unfold managed. by rewrite H2.
Qed.

Lemma expire_import_managed cs now l o imp :
  managed cs now l → importTable_ l !! o = Some imp →
  let l' := expire_import now l (o, imp) in
  managed cs now l' ∧
  importTable_ l' = if imp_whenExpires imp <=? now then delete o (importTable_ l) else importTable_ l.
Proof.
  intros Hm Ho. unfold expire_import. destruct (_ <=? now); [|done].
  assert (importTable_ (undo_balances (imp_items imp) l) = importTable_ l) as ->.
  { eapply undo_balances_inv; [exact Hm|]. intros b k Hi%item_count_pos.
    pose proof (held_ge cs _ _ _ k Ho). lia. }
  destruct (retire_inv _ _ _ _ (delete o (importTable_ l)) (imp_items imp) Hm) as [H1 H2].
  { intros k. by apply (held_ge cs _ o). }
  split; [|done]. unfold managed. rewrite H2.
  eapply rinv_ext; [exact H1| | |lia]; intros k; unfold held, imported;
    rewrite (over_delete _ _ _ _ Ho); lia.
Qed.

Definition live_import (now : Z) (x : string * Import) : Prop := now < imp_whenExpires x.2.

Lemma expire_imports_managed cs now xs : ∀ l,
  managed cs now l → NoDup xs.*1 → (∀ o imp, (o, imp) ∈ xs → importTable_ l !! o = Some imp) →
  let l' := foldl (expire_import now) l xs in
  managed cs now l' ∧
  ∀ o imp, importTable_ l' !! o = Some imp ↔
    importTable_ l !! o = Some imp ∧ ((o, imp) ∈ xs → now < imp_whenExpires imp).
Proof.
  induction xs as [|[o imp] xs IH]; intros l Hm Hnd Hxs; simpl.
  { split; [done|]. intros. split; [|tauto]. intros Hx. split; [done|]. intros []%not_elem_of_nil. }
  apply NoDup_cons in Hnd as [Hno Hnd].
  destruct (expire_import_managed cs now l o imp Hm) as [H1 H2]; [apply Hxs, list_elem_of_here|].
  destruct (IH (expire_import now l (o, imp)) H1 Hnd) as [H3 H4].
  { intros o' imp' Hx. rewrite H2. assert (o' ≠ o).
    { intros ->. apply Hno. apply list_elem_of_fmap. by exists (o, imp'). }
    destruct (_ <=? _); [rewrite lookup_delete_ne by done|]; apply Hxs; by apply list_elem_of_further. }
  split; [done|]. intros o' imp'. simpl in *. rewrite H4, H2.
  assert ((o', imp') ∈ (o, imp) :: xs ↔ (o' = o ∧ imp' = imp) ∨ (o', imp') ∈ xs) as ->.
  { rewrite elem_of_cons. split; (intros [?|?]; [left|by right]); naive_solver. }
  assert (importTable_ l !! o = Some imp) as Ho by apply Hxs, list_elem_of_here.
  destruct (Z.leb_spec (imp_whenExpires imp) now).
  - rewrite lookup_delete_Some. destruct (decide (o = o')) as [<-|Hne]; [|naive_solver].
    split; [tauto|]. intros [Hx Hlt]. rewrite Ho in Hx. injection Hx as <-.
    assert (now < imp_whenExpires imp) by (apply Hlt; by left). lia.
  - split; [|tauto]. intros [Hx Hlt]. split; [done|]. intros [[-> ->]|?]; [done|auto].
Qed.

Lemma periodicActivity_managed cs now l :
  managed cs now l →
  managed cs now (periodicActivity now l) ∧
  ∀ o imp, importTable_ (periodicActivity now l) !! o = Some imp ↔
    importTable_ l !! o = Some imp ∧ now < imp_whenExpires imp.
Proof.
  intros Hm. unfold periodicActivity.
  destruct (expire_inactive_inv (inactive_ l) _ _ now l Hm) as (_ & H2 & _);
    [intros k; apply held_zero|done|].
  apply expire_inactive_managed in Hm. set (l1 := expire_inactive _ _ _) in *.
  destruct (expire_imports_managed cs now (map_to_list (importTable_ l1)) l1 Hm) as [H3 H4].
  { apply NoDup_fst_map_to_list. }
  { intros o imp. by rewrite elem_of_map_to_list. }
  split; [done|]. intros o imp. rewrite H4, elem_of_map_to_list, H2. tauto.
Qed.

Lemma periodicActivity_table cs now l :
  managed cs now l → ∀ k,
  is_Some (table_ (periodicActivity now l) !! k) ↔
  ∃ x, table_ l !! k = Some x ∧ ¬ (refcount x = 0 ∧ whenExpires x ≤ now).
Proof.
  intros Hm k. unfold periodicActivity.
  destruct (expire_inactive_inv (inactive_ l) _ _ now l Hm) as (_ & _ & H3);
    [intros a; apply held_zero|done|].
  set (l1 := expire_inactive _ _ _) in *. clearbody l1.
  assert (∀ xs m, is_Some (table_ (foldl (expire_import now) m xs) !! k) ↔ is_Some (table_ m !! k)) as ->.
  { assert (∀ f a m, is_Some (table_ (with_entry f a m) !! k) ↔ is_Some (table_ m !! k)) as Hw.
    { intros f a m. simpl. by rewrite lookup_alter_is_Some. }
    assert (∀ a m, is_Some (table_ (release now a m) !! k) ↔ is_Some (table_ m !! k)) as Hrel.
    { intros a m. unfold release. cbv zeta.
      destruct (table_ (with_entry _ a m) !! a) as [y|]; [|by rewrite Hw].
      destruct (refcount y =? 0); [|by rewrite Hw]. rewrite Hw. simpl.
      rewrite (proj1 (set_active_frame _ _ _)). by rewrite Hw. }
    assert (∀ items m, is_Some (table_ (undo_balances items m) !! k) ↔ is_Some (table_ m !! k)) as Hu.
    { induction items as [|[b a] items IH]; intros m; [done|].
      unfold undo_balances in *. cbn [foldl]. rewrite IH. apply Hw. }
    assert (∀ items m, is_Some (table_ (drop_consumers now items m) !! k) ↔ is_Some (table_ m !! k)) as Hd.
    { induction items as [|[b a] items IH]; intros m; [done|].
      unfold drop_consumers in *. cbn [foldl]. rewrite IH. apply Hrel. }
    induction xs as [|[o imp] xs IH]; intros m; [done|]. cbn [foldl]. rewrite IH.
    unfold expire_import. destruct (_ <=? now); [|done]. rewrite Hd. simpl. apply Hu. }
  rewrite H3. destruct (table_ l !! k) as [x|] eqn:Ex.
  - pose proof (ri_ref _ _ _ _ Hm k x Ex) as Hrf. rewrite <- Hrf.
    destruct (Z.eqb_spec (refcount x) 0), (Z.leb_spec (whenExpires x) now); simpl;
      (split; [intros [y Hy]; simplify_eq; eexists; (split; [done|lia])|]);
      intros (y & Hy & Hn); simplify_eq; try (by eexists); tauto.
  - split; [by intros []|]. by intros (y & ? & _).
Qed.

(** ** Charging and gossip leave the counts alone *)
Lemma with_entry_managed cs now k f l :
  (∀ x, refcount (f x) = refcount x ∧ remote_balance (f x) = remote_balance x ∧
        whenExpires (f x) = whenExpires x) →
  managed cs now l → managed cs now (with_entry f k l).
Proof.
  intros Hf Hm. unfold with_entry. destruct (table_ l !! k) as [x|] eqn:Ex.
  - replace (alter f k (table_ l)) with (<[k := f x]> (table_ l)).
    + destruct (Hf x) as (H1 & H2 & H3). by eapply entry_inv.
    + apply map_eq. intros a. destruct (decide (a = k)) as [->|].
      * by rewrite lookup_insert_eq, lookup_alter_eq, Ex.
      * by rewrite lookup_insert_ne, lookup_alter_ne.
  - replace (alter f k (table_ l)) with (table_ l); [by destruct l|].
    symmetry. apply map_eq. intros a. destruct (decide (a = k)) as [->|].
    * by rewrite lookup_alter_eq, Ex.
    * by rewrite lookup_alter_ne.
Qed.

Lemma on_entry_managed cs now f k l :
  (∀ x, refcount (f x).1 = refcount x ∧ remote_balance (f x).1 = remote_balance x ∧
        whenExpires (f x).1 = whenExpires x) →
  managed cs now l → managed cs now (on_entry f k l).1.
Proof.
  intros Hf Hm. unfold managed.
  assert (importTable_ (on_entry f k l).1 = importTable_ l) as ->.
  { unfold on_entry. destruct (table_ l !! k) as [x|]; [|done]. by destruct (f x). }
  by apply on_entry_inv.
Qed.

Lemma charge_managed cs now t cost k l : managed cs now l → managed cs now (charge t cost k l).1.
Proof.
  intros Hm. unfold charge. pose proof (on_entry_managed cs now (entry_add cost t) k l) as Ho.
  destruct (on_entry _ k l) as [l' b]. simpl in *. apply Ho; [|done]. by intros x.
Qed.

Lemma balance_managed cs now t k l : managed cs now l → managed cs now (balance t k l).1.
Proof. apply on_entry_managed. by intros x. Qed.

Lemma set_stats_managed cs now w d l : managed cs now l → managed cs now (set_stats w d l).
Proof. intros []. by split. Qed.

Lemma warn_managed cs now t k l : managed cs now l → managed cs now (warn t k l).1.
Proof.
  intros Hm. unfold warn. destruct (isUnlimited k); [done|].
  pose proof (balance_managed cs now t k l Hm) as Hb. destruct (balance t k l) as [l1 b]. simpl in Hb.
  destruct (_ && _); [|done]. cbn [fst]. apply set_stats_managed, with_entry_managed; [done|].
  by apply charge_managed.
Qed.

Lemma disconnect_managed cs now t k l : managed cs now l → managed cs now (disconnect t k l).1.
Proof.
  intros Hm. unfold disconnect. destruct (isUnlimited k); [done|].
  pose proof (balance_managed cs now t k l Hm) as Hb. destruct (balance t k l) as [l1 b]. simpl in Hb.
  destruct (_ <=? _); [|done]. cbn [fst]. by apply set_stats_managed, charge_managed.
Qed.

(** One entry of the loop of [exportConsumers]. *)
Definition export_one (now : Z) (k : Key) l : Logic * list Item :=
  match table_ l !! k with
  | Some x =>
    let v := to_int (sample_value now (local_balance x)).2 in
    (set_table (<[k := set_local_balance (decay now (local_balance x)) x]> (table_ l)) l,
     if minimumGossipBalance <=? v then [mkItem v (key_address k)] else [])
  | None => (l, [])
  end.

Lemma exportConsumers_loop now ks : ∀ l items,
  foldl (λ '(l, items) k,
    match table_ l !! k with
    | Some x =>
      let '(b, v) := sample_value now (local_balance x) in
      let l := set_table (<[k := set_local_balance b x]> (table_ l)) l in
      let v := to_int v in
      if minimumGossipBalance <=? v then (l, items ++ [mkItem v (key_address k)]) else (l, items)
    | None => (l, items)
    end) (l, items) ks =
  foldl (λ '(l, items) k, ((export_one now k l).1, items ++ (export_one now k l).2)) (l, items) ks.
Proof.
  induction ks as [|k ks IH]; intros l items; [done|]. cbn [foldl]. rewrite <- IH. f_equal.
  unfold export_one. destruct (table_ l !! k) as [x|]; simpl; [|by rewrite app_nil_r].
  destruct (_ <=? _); [done|by rewrite app_nil_r].
Qed.

Lemma exportConsumers_managed cs now t l : managed cs now l → managed cs now (exportConsumers t l).1.
Proof.
  intros Hm. unfold exportConsumers. rewrite exportConsumers_loop.
  generalize (@nil Item). generalize (inbound_ l). intros ks. revert l Hm.
  induction ks as [|k ks IH]; intros l Hm items; [done|]. cbn [foldl]. apply IH.
  unfold export_one. destruct (table_ l !! k) as [x|] eqn:Ex; [|done]. by eapply entry_inv.
Qed.

#[export] Hint Resolve newEndpoint_managed acquire_managed release_managed importConsumers_managed
  charge_managed balance_managed warn_managed disconnect_managed exportConsumers_managed
  managed_later : ald.
