(* ===== verification/ResourceTheorems.v ===== *)
(** * The resource manager: theorems

    [Sys] is the manager with the consumers its callers hold and the clock, and
    [rstep] the operations the callers can make.  The claims about reference
    counts, lists, remote balances and expiry hold in every reachable state. *)

From stdpp Require Import prelude gmap strings sorting.
From Stdlib Require Import ZArith Lia.
From S2P Require Import Prelude.
From S2P Require Import Resource.
From S2P Require Import ResourceSpec.

(** ** The manager and its callers *)
Record Sys := mkSys { consumers : list Key; clock : Z; logic : Logic }.

Definition init (t : Z) : Sys := mkSys [] t new_logic.

(** The entry has one reference. *)
Definition lone (k : Key) (l : Logic) : bool :=
  match table_ l !! k with Some x => refcount x =? 1 | None => false end.

(** What callers do.  The label says whether the step assigns the only consumer
    of an entry to itself, which [Consumer::operator=] does not survive (see
    [self_assignment_dangles]). *)
Inductive rstep : bool → Sys → Sys → Prop :=
| rs_tick cs t t' l : t ≤ t' → rstep false (mkSys cs t l) (mkSys cs t' l)
| rs_inbound cs t l a l' k :
    newInboundEndpoint t a l = (l', k) → rstep false (mkSys cs t l) (mkSys (k :: cs) t l')
| rs_outbound cs t l a l' k :
    newOutboundEndpoint t a l = (l', k) → rstep false (mkSys cs t l) (mkSys (k :: cs) t l')
| rs_unlimited cs t l a l' k :
    newUnlimitedEndpoint t a l = (l', k) → rstep false (mkSys cs t l) (mkSys (k :: cs) t l')
| rs_copy cs t l k :
    k ∈ cs → rstep false (mkSys cs t l) (mkSys (k :: cs) t (consumer_copy (Some k) l))
| rs_destroy cs1 cs2 t l k :
    rstep false (mkSys (cs1 ++ k :: cs2) t l) (mkSys (cs1 ++ cs2) t (consumer_destroy t (Some k) l))
| rs_assign cs1 cs2 t l old new :
    new ∈ cs1 ++ cs2 →
    rstep false (mkSys (cs1 ++ old :: cs2) t l)
      (mkSys (cs1 ++ new :: cs2) t (consumer_assign t (Some old) (Some new) l))
| rs_self cs t l k :
    k ∈ cs → rstep (lone k l) (mkSys cs t l) (mkSys cs t (consumer_assign t (Some k) (Some k) l))
| rs_charge cs t l cost k :
    k ∈ cs → rstep false (mkSys cs t l) (mkSys cs t (consumer_charge t cost (Some k) l).1)
| rs_disposition cs t l k :
    k ∈ cs → rstep false (mkSys cs t l) (mkSys cs t (consumer_disposition t (Some k) l).1)
| rs_balance cs t l k : k ∈ cs → rstep false (mkSys cs t l) (mkSys cs t (balance t k l).1)
| rs_warn cs t l k : k ∈ cs → rstep false (mkSys cs t l) (mkSys cs t (warn t k l).1)
| rs_disconnect cs t l k : k ∈ cs → rstep false (mkSys cs t l) (mkSys cs t (disconnect t k l).1)
| rs_export cs t l : rstep false (mkSys cs t l) (mkSys cs t (exportConsumers t l).1)
| rs_import cs t l origin gossip :
    rstep false (mkSys cs t l) (mkSys cs t (importConsumers t origin gossip l))
| rs_periodic cs t l : rstep false (mkSys cs t l) (mkSys cs t (periodicActivity t l)).

(** What is reached without assigning the only consumer of an entry to itself. *)
Definition reachable (t : Z) (s : Sys) : Prop := rtc (rstep false) (init t) s.

Definition sys_managed (s : Sys) : Prop := managed (consumers s) (clock s) (logic s).

Lemma new_managed cs t k k' l l' :
  newEndpoint t k l = (l', k') → managed cs t l → managed (k' :: cs) t l'.
Proof.
  intros Hn Hm. pose proof (newEndpoint_key t k l) as Hk.
  pose proof (newEndpoint_managed cs t k l Hm) as Hl. rewrite Hn in Hk, Hl. simpl in Hk, Hl. by subst.
Qed.

(** A consumer assigned to itself, when the entry has another reference. *)
Lemma self_managed cs t k l :
  managed cs t l → k ∈ cs → lone k l = false →
  managed cs t (consumer_assign t (Some k) (Some k) l).
Proof.
  intros Hm [cs' Hp]%elem_of_Permutation Hl. apply (managed_perm _ _ _ _ Hp) in Hm.
  apply (managed_perm (k :: cs')); [by symmetry|]. simpl.
  apply acquire_held_managed; [by apply release_managed|]. rewrite release_imports.
  pose proof (held_pos (k :: cs') (importTable_ l) k (list_elem_of_here _ _)) as Hpos.
  unfold lone in Hl. destruct (table_ l !! k) as [x|] eqn:Ex.
  - pose proof (ri_ref _ _ _ _ Hm k x Ex) as Hr. apply Z.eqb_neq in Hl.
    rewrite held_cons in Hr, Hpos. lia.
  - destruct (ri_none _ _ _ _ Hm k Ex). lia.
Qed.

Lemma rstep_managed s s' : rstep false s s' → sys_managed s → sys_managed s'.
Proof.
  unfold sys_managed. intros Hs Hm. remember false as b eqn:Eb.
  destruct Hs; simpl in *; eauto using new_managed with ald.
  - apply release_managed. eapply managed_perm; [|done]. symmetry. apply Permutation_middle.
  - apply managed_perm with (new :: cs1 ++ cs2); [apply Permutation_middle|].
    apply acquire_managed; [|done]. apply release_managed.
    eapply managed_perm; [|done]. symmetry. apply Permutation_middle.
  - by apply self_managed.
  - destruct (isUnlimited k); [done|by apply charge_managed].
  - by apply periodicActivity_managed.
Qed.

Lemma reachable_managed t s : reachable t s → sys_managed s.
Proof.
  intros Hr. eapply rtc_invariant; [intros a b Hab Ha; by eapply rstep_managed|exact Hr|].
  apply new_logic_managed.
Qed.

(** The consumers of a key: those of the callers and those of the imports. *)
Definition live (s : Sys) (k : Key) : Z := held (consumers s) (importTable_ (logic s)) k.

(** A concrete run: two callers of one address, an import about it, and time. *)
Definition addr1 : Endpoint := mkEndpoint 7 51235.
Definition key1 : Key := mkKey kindInbound (mkEndpoint 7 0).
Definition run1 : Sys :=
  mkSys [key1; key1] 5
    (importConsumers 5 "a"%string [mkItem 1200 addr1]
      (acquire key1 (newInboundEndpoint 5 addr1 new_logic).1)).

Lemma run1_reachable : reachable 5 run1.
Proof.
  eapply rtc_l; [by eapply (rs_inbound [] 5 new_logic addr1 _ key1)|].
  eapply rtc_l; [eapply (rs_copy [key1] 5 _ key1); set_solver|].
  eapply rtc_l; [eapply (rs_import _ 5 _ "a"%string [mkItem 1200 addr1])|]. apply rtc_refl.
Qed.

(** C33: Reference counts.  In every state reached without assigning the only
    consumer of an entry to itself, the reference count of an entry is the number of its live consumers, held by callers or by imports;
    the entry of a live consumer is in the table (no consumer dangles); an entry
    with consumers is in the active list of its kind, once, and an entry without
    is in the inactive list, once.  The remote balance of an entry is, as a
    32-bit integer, the sum of the balances the live imports report for it. *)
Theorem references_counted t s :
  reachable t s →
  (∀ k x, table_ (logic s) !! k = Some x → refcount x = live s k) ∧
  (∀ k, k ∈ consumers s → is_Some (table_ (logic s) !! k)) ∧
  (∀ o imp b k, importTable_ (logic s) !! o = Some imp → (b, k) ∈ imp_items imp →
     is_Some (table_ (logic s) !! k)) ∧
  (∀ kd k, k ∈ active kd (logic s) ↔ key_kind k = kd ∧ 0 < live s k) ∧
  (∀ k, k ∈ inactive_ (logic s) ↔ is_Some (table_ (logic s) !! k) ∧ live s k = 0) ∧
  (∀ kd, NoDup (active kd (logic s))) ∧ NoDup (inactive_ (logic s)) ∧
  (∀ k x, table_ (logic s) !! k = Some x →
     remote_balance x = to_int (imported (importTable_ (logic s)) k)).
Proof.
  intros Hm%reachable_managed. unfold sys_managed, managed in Hm. unfold live. destruct Hm.
  split_and!; try done.
  - intros k Hk%(held_pos _ (importTable_ (logic s))).
    destruct (table_ (logic s) !! k) eqn:Ek; [by eexists|]. destruct (ri_none k Ek). lia.
  - intros o imp b k Ho Hi%item_count_pos. pose proof (held_ge (consumers s) _ _ _ k Ho).
    destruct (table_ (logic s) !! k) eqn:Ek; [by eexists|]. destruct (ri_none k Ek).
    lia.
Qed.

Lemma references_counted_witness :
  reachable 5 run1 ∧ live run1 key1 = 3 ∧
  (∀ k x, table_ (logic run1) !! k = Some x → refcount x = live run1 k).
Proof.
  split; [exact run1_reachable|]. split; [by vm_compute|].
  apply (references_counted 5 run1), run1_reachable.
Defined.

(** Expiry.  [periodicActivity] removes from the table exactly the entries
    without consumers whose time has come, never an entry a consumer refers to,
    and drops exactly the imports whose time has come. *)
Theorem periodicActivity_exact t s :
  reachable t s →
  let l' := periodicActivity (clock s) (logic s) in
  (∀ k, is_Some (table_ l' !! k) ↔
     ∃ x, table_ (logic s) !! k = Some x ∧ ¬ (live s k = 0 ∧ whenExpires x ≤ clock s)) ∧
  (∀ o imp, importTable_ l' !! o = Some imp ↔
     importTable_ (logic s) !! o = Some imp ∧ clock s < imp_whenExpires imp).
Proof.
  intros Hm%reachable_managed. split; [|by eapply periodicActivity_managed].
  intros k. rewrite (periodicActivity_table _ _ _ Hm).
  split; intros (x & Hx & Hn); exists x; (split; [done|]);
    [rewrite (ri_ref _ _ _ _ Hm k x Hx) in Hn|rewrite (ri_ref _ _ _ _ Hm k x Hx)]; done.
Qed.

(** The run above, whose callers have left and whose import has expired. *)
Definition run2 : Sys :=
  let l := release 5 key1 (release 5 key1 (logic run1)) in
  mkSys [] (5 + nanoseconds 40) l.

Lemma run2_reachable : reachable 5 run2.
Proof.
  unfold reachable. transitivity run1; [exact run1_reachable|].
  eapply rtc_l; [eapply (rs_destroy [] [key1] 5 (logic run1) key1)|].
  eapply rtc_l; [eapply (rs_destroy [] [] 5 _ key1)|].
  eapply rtc_l; [eapply (rs_tick _ 5 (5 + nanoseconds 40)); done|]. apply rtc_refl.
Qed.

Lemma periodicActivity_exact_witness :
  let l' := periodicActivity (clock run2) (logic run2) in
  is_Some (table_ l' !! key1) ∧ importTable_ l' !! "a"%string = None.
Proof.
  pose proof (periodicActivity_exact 5 run2 run2_reachable) as [Ht Hi].
  cbv zeta in *. split.
  - apply Ht. eexists (mkEntry 1 (mkSample 0 5) 1200 0 0). split; [by vm_compute|].
    intros [Hl _]. revert Hl. by vm_compute.
  - destruct (importTable_ _ !! _) as [imp|] eqn:Ei; [|done]. exfalso.
    apply Hi in Ei as [Ei Hlt].
    assert (importTable_ (logic run2) !! "a"%string =
      Some (mkImport (5 + nanoseconds 30) [(1200, key1)])) as Hr by (by vm_compute).
    rewrite Hr in Ei. injection Ei as <-. revert Hlt. by vm_compute.
Defined.

(** ** Charging *)

(** A value per second compared with a threshold. *)
Lemma quot_threshold v r T : 0 ≤ v → (T <=? Z.quot v 32 + r) = (32 * (T - r) <=? v).
Proof.
  intros Hv. rewrite Z.quot_div_nonneg by lia.
  pose proof (Z.div_mod v 32 ltac:(lia)). pose proof (Z.mod_pos_bound v 32 ltac:(lia)).
  destruct (Z.leb_spec T (v / 32 + r)), (Z.leb_spec (32 * (T - r)) v); try done; lia.
Qed.

(** The balance of an entry at time [t], in thirty-seconds of a unit. *)
Definition load (t : Z) (x : Entry) : Z := m_value (decay t (local_balance x)).

(** The 64-bit balance fits the [int] it is returned as. *)
Definition fits (v : Z) (x : Entry) : Prop :=
  0 ≤ v ∧ - 2 ^ 31 ≤ Z.quot v 32 + remote_balance x < 2 ^ 31.

Lemma fits_reaches v x T :
  fits v x → (T <=? to_int (Z.quot v 32 + remote_balance x)) = (32 * (T - remote_balance x) <=? v).
Proof. intros [Hv Hb]. rewrite to_int_small by done. by apply quot_threshold. Qed.

Lemma charge_entry t cost k l x :
  table_ l !! k = Some x →
  charge t cost k l =
  (set_table (<[k := set_local_balance (mkSample (load t x + cost) (m_when (decay t (local_balance x)))) x]>
     (table_ l)) l, disposition (to_int (Z.quot (load t x + cost) 32 + remote_balance x))).
Proof. intros Hx. unfold charge, on_entry. by rewrite Hx. Qed.

Lemma balance_entry t k l x :
  table_ l !! k = Some x →
  balance t k l =
  (set_table (<[k := set_local_balance (decay t (local_balance x)) x]> (table_ l)) l,
   to_int (Z.quot (load t x) 32 + remote_balance x)).
Proof. intros Hx. unfold balance, on_entry. by rewrite Hx. Qed.

(** Dispositions.  A charge against an entry whose balance fits an [int]
    tells the caller to drop the peer exactly when the decayed balance with the
    charge reaches the drop threshold less what other servers report, and to
    warn it exactly between that and the warning threshold; nothing else of the
    state changes. *)
Theorem charge_disposes t cost k l x :
  table_ l !! k = Some x → fits (load t x + cost) x →
  let v := load t x + cost in
  let drop_at := 32 * (dropThreshold - remote_balance x) in
  let warn_at := 32 * (warningThreshold - remote_balance x) in
  let '(l', d) := charge t cost k l in
  (d = disp_drop ↔ drop_at ≤ v) ∧ (d = disp_warn ↔ warn_at ≤ v < drop_at) ∧
  (d = disp_ok ↔ v < warn_at) ∧
  (∃ x', table_ l' = <[k := x']> (table_ l) ∧ load t x' = v ∧
     x' = set_local_balance (local_balance x') x) ∧
  (∀ kd, active kd l' = active kd l) ∧ inactive_ l' = inactive_ l ∧
  importTable_ l' = importTable_ l.
Proof.
  intros Hx Hf v da wa. rewrite (charge_entry t cost k l x Hx).
  set (x' := set_local_balance _ x).
  assert (load t x' = v) as Hl.
  { unfold load, x', decay; simpl. destruct (t =? m_when (local_balance x)) eqn:Et; simpl.
    - by rewrite Et.
    - by rewrite Z.eqb_refl. }
  unfold disposition. rewrite !(fits_reaches _ _ _ Hf). fold v. fold da wa.
  assert (wa < da) as Hlt by (subst wa da; unfold dropThreshold, warningThreshold; lia).
  split_and!; try done.
  - destruct (Z.leb_spec da v); [done|]. destruct (_ <=? _); split; (done || lia).
  - destruct (Z.leb_spec da v); [split; (done || lia)|].
    destruct (Z.leb_spec wa v); split; (done || lia).
  - destruct (Z.leb_spec da v); [split; (done || lia)|].
    destruct (Z.leb_spec wa v); split; (done || lia).
  - by exists x'.
Qed.

Definition charged : Logic :=
  set_table {[ key1 := mkEntry 1 (mkSample 300000 5) 1200 0 0 ]} new_logic.

Lemma charge_disposes_witness :
  (charge 5 200000 key1 charged).2 = disp_drop ∧
  (∀ kd, active kd (charge 5 200000 key1 charged).1 = active kd charged).
Proof.
  pose proof (charge_disposes 5 200000 key1 charged (mkEntry 1 (mkSample 300000 5) 1200 0 0)
    ltac:(by vm_compute) ltac:(split; vm_compute; intuition congruence)) as Hc.
  destruct (charge 5 200000 key1 charged) as [l' d]. destruct Hc as (H1 & _ & _ & _ & H2 & _).
  split; [|exact H2]. apply H1. by vm_compute.
Defined.

(** Warnings and disconnections.  An entry with a balance that fits is
    warned exactly when it is not unlimited, its balance has reached the warning
    threshold and it was not warned at this very time: then it pays the warning
    fee, and asking again at once does not warn it again.  It is disconnected
    exactly when it is not unlimited and its balance has reached the drop
    threshold, and then pays the drop fee. *)
Theorem warn_and_disconnect t k l x :
  table_ l !! k = Some x → fits (load t x) x →
  let reaches T := 32 * (T - remote_balance x) ≤ load t x in
  let paid fee l' := ∃ x', table_ l' !! k = Some x' ∧ load t x' = load t x + fee in
  ((warn t k l).2 = true ↔
     isUnlimited k = false ∧ reaches warningThreshold ∧ t ≠ lastWarningTime x) ∧
  ((warn t k l).2 = true → paid feeWarning (warn t k l).1 ∧ (warn t k (warn t k l).1).2 = false) ∧
  ((disconnect t k l).2 = true ↔ isUnlimited k = false ∧ reaches dropThreshold) ∧
  ((disconnect t k l).2 = true → paid feeDrop (disconnect t k l).1).
Proof.
  intros Hx Hf reaches paid.
  set (s := decay t (local_balance x)).
  assert (decay t s = s) as Hs.
  { unfold s, decay. destruct (t =? m_when (local_balance x)) eqn:Et; simpl;
      [by rewrite Et|by rewrite Z.eqb_refl]. }
  assert (∀ v, decay t (mkSample v (m_when s)) = mkSample v (m_when s)) as Hs'.
  { intros v. assert (m_when s = t) as ->; [|unfold decay; simpl; by rewrite Z.eqb_refl].
    unfold s, decay. destruct (Z.eqb_spec t (m_when (local_balance x))); by simpl. }
  unfold warn, disconnect. rewrite (balance_entry t k l x Hx). cbn [fst snd].
  rewrite !(fits_reaches _ _ _ Hf).
  set (l1 := set_table _ l). set (x1 := set_local_balance s x).
  assert (table_ l1 !! k = Some x1) as H1 by apply lookup_insert_eq. rewrite H1.
  assert (load t x1 = load t x) as Hl by (unfold load, x1; simpl; by rewrite Hs).
  rewrite !(charge_entry t _ k l1 x1 H1). cbn [fst].
  destruct (isUnlimited k); [naive_solver|]. unfold reaches.
  change (lastWarningTime x1) with (lastWarningTime x).
  split_and!.
  - destruct (Z.leb_spec (32 * (warningThreshold - remote_balance x)) (load t x)),
      (Z.eqb_spec t (lastWarningTime x)); simpl; naive_solver lia.
  - destruct (_ && _); [intros _|done]. simpl. unfold paid. simpl.
    rewrite lookup_alter_eq, lookup_insert_eq. simpl.
    split; [eexists; split; [done|]; unfold load at 1; simpl; rewrite Hs, Hs'; simpl; by rewrite Hl|].
    set (l2 := set_stats _ _ _).
    assert (∃ y, table_ l2 !! k = Some y ∧ lastWarningTime y = t) as (y & Hy & Ht).
    { eexists. simpl. rewrite lookup_alter_eq, lookup_insert_eq. simpl. by split. }
    rewrite (balance_entry t k l2 y Hy). simpl. rewrite lookup_insert_eq. simpl.
    by rewrite Ht, Z.eqb_refl, andb_false_r.
  - destruct (Z.leb_spec (32 * (dropThreshold - remote_balance x)) (load t x)); simpl; naive_solver lia.
  - destruct (_ <=? _); [intros _|done]. simpl. unfold paid. simpl. rewrite lookup_insert_eq.
    eexists; split; [done|]. unfold load at 1. simpl. rewrite Hs, Hs'. simpl. by rewrite Hl.
Qed.

Lemma warn_and_disconnect_witness :
  (warn 6 key1 charged).2 = true ∧ (warn 6 key1 (warn 6 key1 charged).1).2 = false.
Proof.
  assert ((warn 6 key1 charged).2 = true) as Hw by (by vm_compute).
  split; [exact Hw|].
  pose proof (warn_and_disconnect 6 key1 charged (mkEntry 1 (mkSample 300000 5) 1200 0 0)
    ltac:(by vm_compute) ltac:(split; vm_compute; intuition congruence)) as (_ & Hp & _).
  exact (proj2 (Hp Hw)).
Defined.

(** ** Gossip *)
Lemma export_elems t ks : ∀ l items,
  NoDup ks → ∀ i,
  i ∈ (foldl (λ '(l, items) k, ((export_one t k l).1, items ++ (export_one t k l).2)) (l, items) ks).2 ↔
  i ∈ items ∨ ∃ k, k ∈ ks ∧ i ∈ (export_one t k l).2.
Proof.
  induction ks as [|k ks IH]; intros l items Hnd i.
  { simpl. split; [by left|]. intros [?|(k & []%not_elem_of_nil & _)]. done. }
  apply NoDup_cons in Hnd as [Hk Hnd]. cbn [foldl]. rewrite IH by done. rewrite elem_of_app.
  assert (∀ a, a ∈ ks → (export_one t a (export_one t k l).1).2 = (export_one t a l).2) as He.
  { intros a Ha. assert (a ≠ k) by (by intros ->). unfold export_one at 2.
    destruct (table_ l !! k) as [x|]; [|done]. unfold export_one. simpl.
    rewrite lookup_insert_ne by done. by destruct (table_ l !! a). }
  split.
  - intros [[?|?]|(a & Ha & Hi)]; [by left|right; exists k; split; [apply list_elem_of_here|done]|].
    right. exists a. rewrite He in Hi by done. split; [by apply list_elem_of_further|done].
  - intros [?|(a & [->|Ha]%elem_of_cons & Hi)]; [by do 2 left|by left; right|].
    right. exists a. by rewrite He.
Qed.

(** Exported gossip.  In every reachable state, [exportConsumers] reports
    exactly the inbound entries with consumers whose local balance per second is
    at least the gossip minimum, each with that balance and its address. *)
Theorem exportConsumers_exact t s i :
  reachable t s →
  i ∈ (exportConsumers (clock s) (logic s)).2 ↔
  ∃ k x, key_kind k = kindInbound ∧ 0 < live s k ∧ table_ (logic s) !! k = Some x ∧
    item_address i = key_address k ∧ item_balance i = to_int (Z.quot (load (clock s) x) 32) ∧
    minimumGossipBalance ≤ item_balance i.
Proof.
  intros Hm%reachable_managed. unfold exportConsumers. rewrite exportConsumers_loop.
  assert (inbound_ (logic s) = active kindInbound (logic s)) as -> by done.
  rewrite export_elems by apply Hm. unfold live. split.
  - intros [[]%not_elem_of_nil|(k & [Hk Hl]%(ri_active _ _ _ _ Hm) & Hi)]. unfold export_one in Hi.
    destruct (table_ (logic s) !! k) as [x|] eqn:Ex; [|by apply not_elem_of_nil in Hi].
    simpl in Hi. destruct (Z.leb_spec minimumGossipBalance
      (to_int (Z.quot (m_value (decay (clock s) (local_balance x))) decayWindowSeconds)));
      [|by apply not_elem_of_nil in Hi].
    apply list_elem_of_singleton in Hi as ->. exists k, x. by split_and!.
  - intros (k & x & Hk & Hl & Hx & Ha & Hb & Hmin). right. exists k. split.
    + apply (ri_active _ _ _ _ Hm). by split.
    + unfold export_one. rewrite Hx. simpl. rewrite Hb in Hmin. unfold load in Hmin, Hb.
      destruct (Z.leb_spec minimumGossipBalance
        (to_int (Z.quot (m_value (decay (clock s) (local_balance x))) decayWindowSeconds)));
        [|unfold decayWindowSeconds in *; lia].
      apply list_elem_of_singleton. destruct i as [b a]. simpl in *. by subst.
Qed.

Definition run3 : Sys :=
  mkSys [key1] 5 (charge 5 64000 key1 (newInboundEndpoint 5 addr1 new_logic).1).1.

Lemma run3_reachable : reachable 5 run3.
Proof.
  eapply rtc_l; [by eapply (rs_inbound [] 5 new_logic addr1 _ key1)|].
  eapply rtc_l; [eapply (rs_charge [key1] 5 _ 64000 key1); set_solver|]. apply rtc_refl.
Qed.

Lemma exportConsumers_exact_witness :
  mkItem 2000 (mkEndpoint 7 0) ∈ (exportConsumers (clock run3) (logic run3)).2.
Proof.
  apply (exportConsumers_exact 5 run3 _ run3_reachable).
  exists key1, (mkEntry 1 (mkSample 64000 5) 0 0 0). by vm_compute.
Defined.

(** ** Decay *)
Lemma decay_second_bounds v :
  0 ≤ v → 0 ≤ decay_second v ∧ 32 * decay_second v ≤ 31 * v.
Proof.
  intros Hv. unfold decay_second, decayWindowSeconds. rewrite Z.quot_div_nonneg by lia.
  pose proof (Z.div_mod (v + 32 - 1) 32 ltac:(lia)).
  pose proof (Z.mod_pos_bound (v + 32 - 1) 32 ltac:(lia)). lia.
Qed.

Lemma decay_iter_bounds n v :
  0 ≤ v → 0 ≤ Nat.iter n decay_second v ∧
  32 ^ Z.of_nat n * Nat.iter n decay_second v ≤ 31 ^ Z.of_nat n * v.
Proof.
  intros Hv. induction n as [|n [IH0 IH]]; [simpl; lia|].
  replace (Nat.iter (S n) decay_second v) with (decay_second (Nat.iter n decay_second v)) by done.
  destruct (decay_second_bounds _ IH0) as [H0 H1]. split; [done|].
  rewrite Nat2Z.inj_succ, !Z.pow_succ_r by lia.
  pose proof (Z.pow_pos_nonneg 32 (Z.of_nat n) ltac:(lia) ltac:(lia)). nia.
Qed.

(** Decay.  Reading a sample [n] whole seconds after it was last touched
    leaves at most (31/32)^n of a non-negative value and never makes it negative
    nor larger, and after more than 128 seconds nothing is left. *)
Theorem decay_geometric s now :
  0 ≤ m_value s → m_when s ≤ now < m_when s + 2 ^ 63 →
  let n := (now - m_when s) / 1000000000 in
  let v := m_value (decay now s) in
  0 ≤ v ≤ m_value s ∧ 32 ^ n * v ≤ 31 ^ n * m_value s ∧ (128 < n → v = 0) ∧
  m_when (decay now s) = now.
Proof.
  intros Hv Ht n. unfold decay.
  assert (0 ≤ n) as Hn by (apply Z.div_pos; lia).
  destruct (Z.eqb_spec now (m_when s)) as [->|Hne].
  { assert (n = 0) as -> by (unfold n; by rewrite Z.sub_diag). lia. }
  simpl. replace (u64 (Z.quot (now - m_when s) 1000000000)) with n.
  2: { unfold n. rewrite Z.quot_div_nonneg by lia. symmetry. apply u64_small. split; [done|].
       apply Z.div_lt_upper_bound; lia. }
  destruct (Z.eqb_spec (m_value s) 0) as [->|]; [lia|].
  destruct (Z.ltb_spec 128 n) as [Hlt|Hle]; simpl.
  { unfold decayWindowSeconds. replace (4 * 32 <? n) with true by lia.
    pose proof (Z.pow_nonneg 31 n ltac:(lia)). nia. }
  unfold decayWindowSeconds. replace (4 * 32 <? n) with false by lia.
  destruct (decay_iter_bounds (Z.to_nat n) _ Hv) as [H0 H1]. rewrite Z2Nat.id in H1 by done.
  assert (31 ^ n ≤ 32 ^ n) by (apply Z.pow_le_mono_l; lia).
  pose proof (Z.pow_pos_nonneg 32 n ltac:(lia) ltac:(lia)).
  split_and!; try done; [nia|lia].
Qed.

Lemma decay_geometric_witness :
  let v := m_value (decay (nanoseconds 3) (mkSample 32000 0)) in
  v = 29092 ∧ 32 ^ 3 * v ≤ 31 ^ 3 * 32000.
Proof.
  destruct (decay_geometric (mkSample 32000 0) (nanoseconds 3)) as (_ & H & _);
    [by vm_compute|split; vm_compute; congruence|]. split; [by vm_compute|exact H].
Defined.

(** A busy sample does not decay.  [decay] moves the time of the sample even
    when the whole seconds elapsed are none, so a sample touched at times less
    than a second apart keeps its whole value however long this goes on. *)
Theorem busy_sample_never_decays times s :
  0 ≤ m_value s →
  (∀ i a b, (m_when s :: times) !! i = Some a → (m_when s :: times) !! S i = Some b →
     a ≤ b < a + nanoseconds 1) →
  m_value (foldl (λ s t, (sample_value t s).1) s times) = m_value s.
Proof.
  revert s. induction times as [|t times IH]; intros s Hv Hgap; [done|]. cbn [foldl sample_value fst].
  destruct (Hgap 0%nat (m_when s) t eq_refl eq_refl) as [Hle Hlt].
  assert (m_value (decay t s) = m_value s ∧ m_when (decay t s) = t) as [Hd Hw].
  { unfold decay. destruct (Z.eqb_spec t (m_when s)) as [->|]; [done|]. simpl. split; [|done].
    destruct (_ =? 0); [done|]. unfold nanoseconds in Hlt.
    rewrite Z.quot_small by lia. done. }
  rewrite IH; [done|by rewrite Hd|]. rewrite Hw. intros i. apply (Hgap (S i)).
Qed.

Lemma busy_sample_never_decays_witness :
  m_value (foldl (λ s t, (sample_value t s).1) (mkSample 32000 0)
    [900000000; 1800000000; 2700000000; 3600000000]) = 32000.
Proof.
  apply (busy_sample_never_decays [900000000; 1800000000; 2700000000; 3600000000] (mkSample 32000 0));
    [by vm_compute|].
  intros i a b Ha Hb. do 5 (destruct i as [|i]; [simplify_eq/=; unfold nanoseconds; lia|]).
  simplify_eq/=.
Defined.

(** Assigning a consumer to itself.  [Consumer::operator=] releases before
    it acquires, with no test for self-assignment: when the only consumer of an
    entry is assigned to itself, the entry keeps its one reference but stays in
    the inactive list, and [periodicActivity] later erases it from under the
    consumer. *)
Theorem self_assignment_dangles :
  let l := (newInboundEndpoint 5 addr1 new_logic).1 in
  let l := consumer_assign 5 (Some key1) (Some key1) l in
  refcount <$> table_ l !! key1 = Some 1 ∧ key1 ∈ inactive_ l ∧ inbound_ l = [] ∧
  ∃ s, rtc (λ s s', ∃ self, rstep self s s') (init 5) s ∧
    key1 ∈ consumers s ∧ table_ (logic s) !! key1 = None.
Proof.
  cbv zeta. split_and!; try by vm_compute.
  { assert (inactive_ (consumer_assign 5 (Some key1) (Some key1)
      (newInboundEndpoint 5 addr1 new_logic).1) = [key1]) as -> by (by vm_compute).
    apply list_elem_of_here. }
  eexists (mkSys [key1] (5 + nanoseconds 300) _). split_and!.
  - eapply rtc_l; [eexists; by eapply (rs_inbound [] 5 new_logic addr1 _ key1)|].
    eapply rtc_l; [eexists; eapply (rs_self [key1] 5 _ key1); set_solver|].
    eapply rtc_l; [eexists; eapply (rs_tick _ 5 (5 + nanoseconds 300)); done|].
    eapply rtc_l; [eexists; eapply rs_periodic|]. apply rtc_refl.
  - apply list_elem_of_here.
  - by vm_compute.
Qed.
