(* ===== verification/BaseUint.v ===== *)
(** * Fixed-width unsigned integers

    src/src/ripple/basics/base_uint.h, the type of every hash and account
    identifier, with basics/strHex.h and basics/impl/strHex.cpp.

    The array [data_] holds 32-bit words in big-endian byte order; a word of the
    model is [big_to_native(data_[i])], so that byte [j] of the object in memory
    is byte [j] of [bytes_of].  [W] is WIDTH, the number of words.  A C string is
    the list of its character codes, read as ended by a NUL. *)

From stdpp Require Import prelude list.
From Stdlib Require Import ZArith Lia.
From S2P Require Import Prelude.

Abbreviation base_uint := (list Z).

(** ** Construction *)
Definition base_zero (W : nat) : base_uint := replicate W 0.

(** [operator= (std::uint64_t)]: the two last words are the big-endian halves. *)
Definition of_u64 (W : nat) (b : Z) : base_uint :=
  <[(W - 1)%nat := u32 b]> (<[(W - 2)%nat := u32 (Z.shiftr b 32)]> (base_zero W)).

(** ** Bit operations *)
Definition signum (u : base_uint) : Z := if existsb (λ w, negb (w =? 0)) u then 1 else 0.
Definition compl (u : base_uint) : base_uint := map (λ w, u32 (Z.lnot w)) u.
Definition xor (u v : base_uint) : base_uint := zip_with Z.lxor u v.
Definition and (u v : base_uint) : base_uint := zip_with Z.land u v.
Definition or (u v : base_uint) : base_uint := zip_with Z.lor u v.

(** ** Arithmetic

    The loops run over the words from the last; [n] words are left. *)
Fixpoint incr_loop (n : nat) (u : base_uint) : base_uint :=
  match n with
  | O => u
  | S i =>
    let w := u32 (u !!! i + 1) in
    let u := <[i := w]> u in
    if negb (w =? 0) then u else incr_loop i u
  end.
Definition incr (u : base_uint) : base_uint := incr_loop (length u) u.

Fixpoint decr_loop (n : nat) (u : base_uint) : base_uint :=
  match n with
  | O => u
  | S i =>
    let prev := u !!! i in
    let u := <[i := u32 (u !!! i - 1)]> u in
    if negb (prev =? 0) then u else decr_loop i u
  end.
Definition decr (u : base_uint) : base_uint := decr_loop (length u) u.

Fixpoint add_loop (n : nat) (carry : Z) (u b : base_uint) : base_uint :=
  match n with
  | O => u
  | S i =>
    let s := u64 (carry + u !!! i + b !!! i) in
    add_loop i (Z.shiftr s 32) (<[i := u32 s]> u) b
  end.
Definition add (u b : base_uint) : base_uint := add_loop (length u) 0 u b.

(** ** Bytes and comparison *)
Definition word_bytes (w : Z) : list Z :=
  [Z.shiftr w 24 mod 256; Z.shiftr w 16 mod 256; Z.shiftr w 8 mod 256; w mod 256].
Definition bytes_of (u : base_uint) : list Z := concat (map word_bytes u).

Fixpoint words_of (bs : list Z) : base_uint :=
  match bs with
  | a :: b :: c :: d :: bs => a * 2 ^ 24 + b * 2 ^ 16 + c * 2 ^ 8 + d :: words_of bs
  | _ => []
  end.

(** [std::mismatch] of the two byte ranges, then the bytes there. *)
Fixpoint compare_bytes (a b : list Z) : Z :=
  match a, b with
  | x :: a, y :: b => if x =? y then compare_bytes a b else if y <? x then 1 else -1
  | _, _ => 0
  end.
Definition compare (u v : base_uint) : Z := compare_bytes (bytes_of u) (bytes_of v).

Definition lt (u v : base_uint) : bool := compare u v <? 0.
Definition le (u v : base_uint) : bool := compare u v <=? 0.
Definition eqb (u v : base_uint) : bool := compare u v =? 0.

(** ** Hexadecimal *)
Definition charHex (digit : Z) : Z := if digit <? 10 then 48 + digit else 55 + digit.

Definition charUnHex (c : Z) : Z :=
  if (48 <=? c) && (c <? 58) then c - 48
  else if (65 <=? c) && (c <? 71) then c - 55
  else if (97 <=? c) && (c <? 103) then c - 87
  else -1.

(** Reading a C string: the character at the pointer. *)
Definition peek (s : list Z) : Z := match s with c :: _ => c | [] => 0 end.

(** [SetHexExact]: [written] are the bytes written, [todo] those still to write. *)
Fixpoint setHexExact_loop (written todo : list Z) (psz : list Z) : list Z * bool :=
  match todo with
  | [] => (written, peek psz =? 0)
  | _ :: todo' =>
    let hi := charUnHex (peek psz) in
    if hi =? -1 then (written ++ todo, false)
    else
      let lo := charUnHex (peek (tail psz)) in
      if lo =? -1 then (written ++ todo, false)
      else setHexExact_loop (written ++ [Z.lor (Z.shiftl hi 4) lo]) todo' (tail (tail psz))
  end.
Definition SetHexExact (u : base_uint) (psz : list Z) : base_uint * bool :=
  let '(bs, ok) := setHexExact_loop [] (bytes_of u) psz in (words_of bs, ok).

Definition isspace (c : Z) : bool := (c =? 32) || ((9 <=? c) && (c <=? 13)).
Definition tolower (c : Z) : Z := if (65 <=? c) && (c <=? 90) then c + 32 else c.

Fixpoint skip_spaces (s : list Z) : list Z :=
  match s with c :: s' => if isspace c then skip_spaces s' else s | [] => [] end.

(** The digits from [pBegin] to [pEnd], and the string at [pEnd]. *)
Fixpoint hex_span (s : list Z) : list Z * list Z :=
  match s with
  | c :: s' =>
    if negb (charUnHex c =? -1) then let '(ds, r) := hex_span s' in (c :: ds, r) else ([], s)
  | [] => ([], [])
  end.

(** The bytes written from the digits, two by two. *)
Fixpoint pair_digits (ds : list Z) : list Z :=
  match ds with
  | h :: l :: ds => Z.lor (Z.shiftl (charUnHex h) 4) (charUnHex l) :: pair_digits ds
  | [h] => [Z.shiftl (charUnHex h) 4]
  | [] => []
  end.

(** [charUnHex] is not -1 on the characters of a span, so the loop that pairs
    them never gives up. *)
Definition SetHex (W : nat) (psz : list Z) (bStrict : bool) : base_uint * bool :=
  let size := (4 * W)%nat in
  let s := if negb bStrict then skip_spaces psz else psz in
  let s :=
    if negb bStrict && (peek s =? 48) && (tolower (peek (tail s)) =? 120) then tail (tail s) else s in
  let '(ds, rest) := hex_span s in
  let ds := if (2 * size <? length ds)%nat then drop (length ds - 2 * size) ds else ds in
  let out := if Nat.odd (length ds)
             then charUnHex (peek ds) :: pair_digits (tail ds)
             else pair_digits ds in
  (words_of (replicate (size - (length ds + 1) / 2) 0 ++ out), peek rest =? 0).

(** [boost::algorithm::hex] is not part of the repository. *)
Section hex.
Context (boost_hex : list Z → list Z).

Definition strHex (bs : list Z) : list Z := boost_hex bs.
Definition to_string (u : base_uint) : list Z := strHex (bytes_of u).
End hex.
