(* ===== verification/BaseUintTheorems.v ===== *)
(** * Fixed-width unsigned integers: theorems

    [value] reads the words as one number in base 2^32; the operations of
    BaseUint.v are the arithmetic of numbers modulo 2^(32 W). *)

From stdpp Require Import prelude list.
From Stdlib Require Import ZArith Lia.
From S2P Require Import Prelude.
From S2P Require Import BaseUint.

(** ** Numbers in a base *)
Definition in_base (B : Z) (ds : list Z) : Prop := Forall (λ d, 0 ≤ d < B) ds.

Fixpoint number (B : Z) (ds : list Z) : Z :=
  match ds with
  | [] => 0
  | d :: ds => d * B ^ Z.of_nat (length ds) + number B ds
  end.

Lemma number_app B ds es :
  0 < B → number B (ds ++ es) = number B ds * B ^ Z.of_nat (length es) + number B es.
Proof.
  intros HB. induction ds as [|d ds IH]; simpl; [lia|].
  rewrite IH, length_app, Nat2Z.inj_add, Z.pow_add_r by lia. lia.
Qed.

Lemma number_bounds B ds : 0 < B → in_base B ds → 0 ≤ number B ds < B ^ Z.of_nat (length ds).
Proof.
  intros HB. induction 1 as [|d ds Hd Hds IH]; simpl number; [simpl; lia|].
  cbn [length]. rewrite Nat2Z.inj_succ, Z.pow_succ_r by lia.
  assert (0 < B ^ Z.of_nat (length ds)) by (apply Z.pow_pos_nonneg; lia). nia.
Qed.

Lemma number_insert B ds i d d' :
  0 < B → ds !! i = Some d →
  number B (<[i := d']> ds) = number B ds + (d' - d) * B ^ Z.of_nat (length ds - S i).
Proof.
  intros HB. revert i. induction ds as [|x ds IH]; intros [|i] Hi; simplify_eq/=.
  - rewrite Nat.sub_0_r. lia.
  - rewrite (IH i Hi), length_insert. lia.
Qed.

Lemma number_take B ds i d :
  0 < B → ds !! i = Some d → number B (take (S i) ds) = number B (take i ds) * B + d.
Proof.
  intros HB Hi. rewrite (take_S_r _ _ _ Hi), number_app by done. simpl. lia.
Qed.

Lemma in_base_insert B ds i d : 0 ≤ d < B → in_base B ds → in_base B (<[i := d]> ds).
Proof. intros Hd Hds. by apply Forall_insert. Qed.

Lemma in_base_lookup B ds i d : in_base B ds → ds !! i = Some d → 0 ≤ d < B.
Proof. intros Hds Hi. by apply (Forall_lookup_1 _ _ _ _ Hds Hi). Qed.

(** ** Values *)
Definition base32 : Z := 2 ^ 32.
Definition value (u : base_uint) : Z := number base32 u.
Definition wf (W : nat) (u : base_uint) : Prop := length u = W ∧ in_base base32 u.
Definition modulus (W : nat) : Z := base32 ^ Z.of_nat W.

Lemma base32_pos : 0 < base32.
Proof. done. Qed.

Lemma modulus_pos W : 0 < modulus W.
Proof. apply Z.pow_pos_nonneg; [done|lia]. Qed.

Lemma value_mod W u : wf W u → value u mod modulus W = value u.
Proof.
  intros [Hl Hu]. apply Z.mod_small. unfold modulus. rewrite <- Hl. by apply number_bounds.
Qed.

(** The weight of the last of the first [n] words. *)
Lemma weight_S W n :
  (S n ≤ W)%nat → base32 ^ Z.of_nat (W - n) = base32 * base32 ^ Z.of_nat (W - S n).
Proof.
  intros Hn. replace (W - n)%nat with (S (W - S n)) by lia.
  by rewrite Nat2Z.inj_succ, Z.pow_succ_r by lia.
Qed.

Lemma wf_word W u i : wf W u → (i < W)%nat → ∃ w, u !! i = Some w ∧ u !!! i = w ∧ 0 ≤ w < base32.
Proof.
  intros [Hl Hu] Hi. destruct (lookup_lt_is_Some_2 u i) as [w Hw]; [lia|].
  exists w. split_and!; [done|by apply list_lookup_total_correct|by eapply in_base_lookup..].
Qed.

Lemma wf_insert W u i w : wf W u → 0 ≤ w < base32 → wf W (<[i := w]> u).
Proof. intros [Hl Hu] Hw. split; [by rewrite length_insert|by apply in_base_insert]. Qed.

Lemma incr_loop_value W n : ∀ u, wf W u → (n ≤ W)%nat →
  wf W (incr_loop n u) ∧
  value (incr_loop n u) = (value u + base32 ^ Z.of_nat (W - n)) mod modulus W.
Proof.
  induction n as [|i IH]; intros u Hu Hn; cbn [incr_loop].
  { split; [done|]. rewrite Nat.sub_0_r. fold (modulus W).
    rewrite <- Z.add_mod_idemp_r, Z.mod_same, Z.add_0_r; [by rewrite value_mod|..];
      pose proof (modulus_pos W); lia. }
  destruct (wf_word W u i Hu) as (w & Hi & -> & Hw); [lia|]. rewrite weight_S in IH by lia.
  assert (0 ≤ u32 (w + 1) < base32) as Hr by apply u32_range.
  pose proof (wf_insert W u i _ Hu Hr) as Hu'.
  assert (value (<[i := u32 (w + 1)]> u) = value u + (u32 (w + 1) - w) * base32 ^ Z.of_nat (W - S i)) as Hv.
  { unfold value. rewrite (number_insert _ _ _ _ _ base32_pos Hi). by destruct Hu as [-> _]. }
  destruct (Z.eqb_spec (u32 (w + 1)) 0) as [H0|H0]; simpl.
  - destruct (IH _ Hu') as [H1 ->]; [lia|]. split; [done|]. rewrite Hv, H0.
    assert (w + 1 = base32) as <-.
    { destruct (decide (w + 1 = base32)); [done|]. rewrite u32_small in H0 by (unfold base32 in *; lia). lia. }
    f_equal. lia.
  - split; [done|]. rewrite <- (value_mod W) by done. f_equal. rewrite Hv.
    assert (u32 (w + 1) = w + 1) as ->; [|lia].
    apply u32_small. destruct (decide (w + 1 = 2 ^ 32)) as [E|]; [by rewrite E in H0|unfold base32 in *; lia].
Qed.

Lemma decr_loop_value W n : ∀ u, wf W u → (n ≤ W)%nat →
  wf W (decr_loop n u) ∧
  value (decr_loop n u) = (value u - base32 ^ Z.of_nat (W - n)) mod modulus W.
Proof.
  induction n as [|i IH]; intros u Hu Hn; cbn [decr_loop].
  { split; [done|]. rewrite Nat.sub_0_r. fold (modulus W).
    rewrite Zminus_mod, Z.mod_same, Z.sub_0_r, Z.mod_mod; [by rewrite value_mod|..];
      pose proof (modulus_pos W); lia. }
  destruct (wf_word W u i Hu) as (w & Hi & -> & Hw); [lia|]. rewrite weight_S in IH by lia.
  assert (0 ≤ u32 (w - 1) < base32) as Hr by apply u32_range.
  pose proof (wf_insert W u i _ Hu Hr) as Hu'.
  assert (value (<[i := u32 (w - 1)]> u) = value u + (u32 (w - 1) - w) * base32 ^ Z.of_nat (W - S i)) as Hv.
  { unfold value. rewrite (number_insert _ _ _ _ _ base32_pos Hi). by destruct Hu as [-> _]. }
  destruct (Z.eqb_spec w 0) as [->|H0]; simpl.
  - destruct (IH _ Hu') as [H1 ->]; [lia|]. split; [done|]. rewrite Hv.
    assert (u32 (0 - 1) = base32 - 1) as -> by done. f_equal. lia.
  - split; [done|]. rewrite <- (value_mod W) by done. f_equal. rewrite Hv.
    rewrite u32_small by (unfold base32 in *; lia). lia.
Qed.

Lemma add_loop_value W n : ∀ u b c, wf W u → wf W b → 0 ≤ c ≤ 1 → (n ≤ W)%nat →
  wf W (add_loop n c u b) ∧
  value (add_loop n c u b) =
  (value u + (c + value (take n b)) * base32 ^ Z.of_nat (W - n)) mod modulus W.
Proof.
  induction n as [|i IH]; intros u b c Hu Hb Hc Hn; cbn [add_loop].
  { split; [done|]. rewrite Nat.sub_0_r. fold (modulus W). simpl.
    rewrite Z.add_0_r, Z.mod_add; [by rewrite value_mod|]. pose proof (modulus_pos W); lia. }
  destruct (wf_word W u i Hu) as (w & Hi & -> & Hw); [lia|].
  destruct (wf_word W b i Hb) as (x & Hx & -> & Hxr); [lia|]. rewrite weight_S in IH by lia.
  set (s := u64 (c + w + x)).
  assert (s = c + w + x) as Hs by (apply u64_small; unfold base32 in *; lia).
  assert (0 ≤ u32 s < base32) as Hr by apply u32_range.
  pose proof (wf_insert W u i _ Hu Hr) as Hu'.
  assert (Z.shiftr s 32 = s / base32) as Hsh by (rewrite Z.shiftr_div_pow2; [done|lia]).
  assert (s = base32 * (s / base32) + u32 s) as Hdm by (apply Z.div_mod; done).
  destruct (IH _ b (Z.shiftr s 32) Hu' Hb) as [H1 H2]; [|lia|].
  { rewrite Hsh. split; [apply Z.div_pos; unfold base32 in *; lia|].
    apply Z.lt_succ_r, Z.div_lt_upper_bound; unfold base32 in *; lia. }
  split; [done|]. rewrite H2. f_equal. rewrite Hsh. unfold value.
  rewrite (number_insert _ _ _ _ _ base32_pos Hi), (number_take _ _ _ _ base32_pos Hx).
  replace (length u) with W by (by destruct Hu). fold (value u).
  set (k := base32 ^ Z.of_nat (W - S i)). nia.
Qed.

(** ** Words and bytes *)
Lemma number_inj B ds es :
  0 < B → in_base B ds → in_base B es → length ds = length es →
  number B ds = number B es → ds = es.
Proof.
  intros HB Hds. revert es. induction Hds as [|d ds Hd Hds IH]; intros [|e es] Hes Hl Hn;
    simplify_eq/=; [done|]. apply Forall_cons in Hes as [He Hes].
  pose proof (number_bounds B ds HB Hds). pose proof (number_bounds B es HB Hes).
  rewrite Hl in *. set (k := B ^ Z.of_nat (length es)) in *.
  assert (d = e) as -> by nia. f_equal. apply IH; [done|done|lia].
Qed.

Lemma value_inj W u v : wf W u → wf W v → value u = value v → u = v.
Proof.
  intros [Hl Hu] [Hl' Hv]. apply number_inj; try done. congruence.
Qed.

Lemma word_bytes_spec w :
  0 ≤ w < base32 → in_base 256 (word_bytes w) ∧ number 256 (word_bytes w) = w.
Proof.
  intros Hw. unfold word_bytes. rewrite !Z.shiftr_div_pow2 by lia. split.
  { repeat constructor; apply Z.mod_pos_bound; lia. }
  cbn [number length]. change (Z.of_nat 3) with 3. change (Z.of_nat 2) with 2.
  change (Z.of_nat 1) with 1. change (Z.of_nat 0) with 0.
  change (2 ^ 24) with (256 * 256 * 256). change (2 ^ 16) with (256 * 256).
  rewrite <- !Z.div_div by lia.
  change (2 ^ 8) with 256.
  pose proof (Z.div_mod w 256 ltac:(lia)). pose proof (Z.div_mod (w / 256) 256 ltac:(lia)).
  pose proof (Z.div_mod (w / 256 / 256) 256 ltac:(lia)).
  assert (w / 256 / 256 / 256 mod 256 = w / 256 / 256 / 256) as ->.
  { apply Z.mod_small. rewrite !Z.div_div by lia. split; [apply Z.div_pos; lia|].
    apply Z.div_lt_upper_bound; [lia|]. unfold base32 in Hw. lia. }
  lia.
Qed.

Lemma bytes_of_spec W u :
  wf W u → length (bytes_of u) = (4 * W)%nat ∧ in_base 256 (bytes_of u) ∧
  number 256 (bytes_of u) = value u.
Proof.
  unfold bytes_of, value. intros [<- Hu]. induction Hu as [|w u Hw Hu (IH1 & IH2 & IH3)];
    [split_and!; [done|constructor|done]|].
  destruct (word_bytes_spec w Hw) as [Hb Hn]. cbn [map concat].
  change (concat (word_bytes w :: map word_bytes u)) with (word_bytes w ++ concat (map word_bytes u)).
  rewrite length_app, IH1, number_app, IH1, IH3, Hn by done.
  split_and!; [simpl; lia|by apply Forall_app|]. cbn [number]. f_equal.
  rewrite Nat2Z.inj_mul, Z.pow_mul_r by lia. done.
Qed.

Lemma words_of_app w bs : 0 ≤ w < base32 → words_of (word_bytes w ++ bs) = w :: words_of bs.
Proof.
  intros Hw. destruct (word_bytes_spec w Hw) as [_ Hn]. cbn [word_bytes app words_of].
  f_equal. rewrite <- Hn at 5. cbn [word_bytes number length].
  change (Z.of_nat 3) with 3. change (Z.of_nat 2) with 2. change (Z.of_nat 1) with 1.
  change (Z.of_nat 0) with 0. lia.
Qed.

Lemma words_of_bytes_of W u : wf W u → words_of (bytes_of u) = u.
Proof.
  intros [_ Hu]. unfold bytes_of. induction Hu as [|w u Hw Hu IH]; [done|]. cbn [map].
  change (concat (word_bytes w :: map word_bytes u)) with (word_bytes w ++ concat (map word_bytes u)).
  rewrite words_of_app by done. by rewrite IH.
Qed.

Lemma words_of_spec W : ∀ bs,
  length bs = (4 * W)%nat → in_base 256 bs →
  wf W (words_of bs) ∧ value (words_of bs) = number 256 bs.
Proof.
  unfold value. induction W as [|W IH]; intros bs Hl Hb.
  { destruct bs; [|done]. split; [split; [done|constructor]|done]. }
  destruct bs as [|a [|b [|c [|d bs]]]]; try (simpl in Hl; lia).
  apply Forall_cons in Hb as [Ha Hb]. apply Forall_cons in Hb as [Hb' Hb].
  apply Forall_cons in Hb as [Hc Hb]. apply Forall_cons in Hb as [Hd Hb].
  destruct (IH bs) as [[IH1 IH2] IH3]; [simpl in Hl; lia|done|]. cbn [words_of].
  assert (length bs = (4 * W)%nat) as Hlb by (simpl in Hl; lia). split.
  - split; [simpl; by rewrite IH1|]. constructor; [unfold base32; lia|done].
  - cbn [number length]. rewrite IH1, IH3, Hlb.
    rewrite !Nat2Z.inj_succ, !Z.pow_succ_r by lia.
    replace (256 ^ Z.of_nat (4 * W)) with (base32 ^ Z.of_nat W); [unfold base32; lia|].
    rewrite Nat2Z.inj_mul, Z.pow_mul_r by lia. done.
Qed.

(** ** Arithmetic *)
Lemma compl_value W u : wf W u → wf W (compl u) ∧ value (compl u) = modulus W - 1 - value u.
Proof.
  unfold value, modulus. intros [<- Hu]. induction Hu as [|w u Hw Hu [[IH1 IH2] IH]];
    [split; [split; [done|constructor]|done]|].
  change (compl (w :: u)) with (u32 (Z.lnot w) :: compl u). assert (u32 (Z.lnot w) = base32 - 1 - w) as ->.
  { unfold u32, wrap, Z.lnot. symmetry. apply Zmod_unique with (-1); unfold base32 in *; lia. }
  split.
  - split; [simpl; by rewrite IH1|]. constructor; [lia|done].
  - cbn [number length]. rewrite IH, IH1, Nat2Z.inj_succ, Z.pow_succ_r by lia. lia.
Qed.

Lemma zero_value W : wf W (base_zero W) ∧ value (base_zero W) = 0.
Proof.
  unfold base_zero, value. induction W as [|W [[IH1 IH2] IH]]; [split; [split; [done|constructor]|done]|].
  cbn [replicate]. split.
  - split; [simpl; by rewrite IH1|by constructor].
  - cbn [number]. by rewrite IH.
Qed.

Lemma of_u64_value W b :
  (2 ≤ W)%nat → 0 ≤ b < 2 ^ 64 → wf W (of_u64 W b) ∧ value (of_u64 W b) = b.
Proof.
  intros HW Hb. destruct (zero_value W) as [Hz Hv]. unfold of_u64.
  set (hi := u32 (Z.shiftr b 32)). set (lo := u32 b).
  assert (0 ≤ hi < base32) as Hhi by apply u32_range.
  assert (0 ≤ lo < base32) as Hlo by apply u32_range.
  assert (wf W (<[(W - 2)%nat := hi]> (base_zero W))) as H1 by (by apply wf_insert).
  split; [by apply wf_insert|]. unfold value.
  rewrite (number_insert _ _ _ 0); [|done|].
  2: { rewrite list_lookup_insert_ne by lia. apply lookup_replicate. split; [done|lia]. }
  rewrite (number_insert _ _ _ 0); [|done|apply lookup_replicate; split; [done|lia]].
  fold (value (base_zero W)). rewrite Hv, length_insert.
  replace (length (base_zero W)) with W by (by destruct Hz).
  replace (W - S (W - 2))%nat with 1%nat by lia. replace (W - S (W - 1))%nat with 0%nat by lia.
  change (Z.of_nat 1) with 1. change (Z.of_nat 0) with 0.
  assert (hi = b / base32) as ->.
  { unfold hi. rewrite Z.shiftr_div_pow2 by lia. unfold base32. apply u32_small.
    split; [apply Z.div_pos; lia|apply Z.div_lt_upper_bound; lia]. }
  pose proof (Z.div_mod b base32 ltac:(done)). unfold lo, u32, wrap. fold base32. lia.
Qed.

(** Arithmetic of identifiers.  On [W]-word integers, [operator++],
    [operator--], [operator+=] and [operator~] are addition of one, subtraction
    of one, addition and subtraction from the largest number, modulo 2^(32 W),
    and a decrement undoes an increment. *)
Theorem base_uint_arithmetic W u b :
  wf W u → wf W b →
  wf W (incr u) ∧ value (incr u) = (value u + 1) mod modulus W ∧
  wf W (decr u) ∧ value (decr u) = (value u - 1) mod modulus W ∧
  wf W (add u b) ∧ value (add u b) = (value u + value b) mod modulus W ∧
  wf W (compl u) ∧ value (compl u) = modulus W - 1 - value u ∧
  decr (incr u) = u.
Proof.
  intros Hu Hb.
  assert (∀ v, wf W v → wf W (incr v) ∧ value (incr v) = (value v + 1) mod modulus W) as Hi.
  { intros v Hv. destruct (incr_loop_value W W v Hv) as [H1 H2]; [lia|]. unfold incr.
    rewrite Nat.sub_diag in H2. by destruct Hv as [-> _]. }
  assert (∀ v, wf W v → wf W (decr v) ∧ value (decr v) = (value v - 1) mod modulus W) as Hd.
  { intros v Hv. destruct (decr_loop_value W W v Hv) as [H1 H2]; [lia|]. unfold decr.
    rewrite Nat.sub_diag in H2. by destruct Hv as [-> _]. }
  destruct (add_loop_value W W u b 0 Hu Hb) as [Ha1 Ha2]; [lia|lia|].
  rewrite Nat.sub_diag, Z.mul_1_r, Z.add_0_l, take_ge in Ha2 by (destruct Hb; lia).
  destruct (compl_value W u Hu) as [Hc1 Hc2]. destruct (Hi u Hu) as [Hi1 Hi2].
  destruct (Hd u Hu) as [Hd1 Hd2]. destruct (Hd _ Hi1) as [Hdi1 Hdi2].
  unfold add. destruct Hu as [<- Hu]. split_and!; try done.
  apply (value_inj (length u)); [done|by split|].
  rewrite Hdi2, Hi2, Zminus_mod_idemp_l, Z.add_simpl_r. by apply value_mod.
Qed.

Lemma base_uint_arithmetic_witness :
  incr [1; 2 ^ 32 - 1] = [2; 0] ∧ decr (incr [1; 2 ^ 32 - 1]) = [1; 2 ^ 32 - 1].
Proof.
  assert (wf 2 [1; 2 ^ 32 - 1]) as Hw by (split; [done|repeat constructor; vm_compute; congruence]).
  destruct (base_uint_arithmetic 2 [1; 2 ^ 32 - 1] [1; 2 ^ 32 - 1] Hw Hw)
    as (_ & _ & _ & _ & _ & _ & _ & _ & H). split; [by vm_compute|exact H].
Defined.

(** ** Order *)
Lemma compare_bytes_spec B a b :
  0 < B → in_base B a → in_base B b → length a = length b →
  compare_bytes a b = match number B a ?= number B b with Lt => -1 | Eq => 0 | Gt => 1 end.
Proof.
  intros HB Ha. revert b. induction Ha as [|x a Hx Ha IH]; intros [|y b] Hb Hl; simplify_eq/=; [done|].
  apply Forall_cons in Hb as [Hy Hb].
  pose proof (number_bounds B a HB Ha). pose proof (number_bounds B b HB Hb).
  destruct (Z.eqb_spec x y) as [->|Hne].
  - rewrite (IH b Hb Hl), Hl. by rewrite Z.add_compare_mono_l.
  - rewrite Hl in *. set (k := B ^ Z.of_nat (length b)) in *.
    destruct (Z.ltb_spec y x).
    + destruct (Z.compare_spec (x * k + number B a) (y * k + number B b)); [nia|nia|done].
    + destruct (Z.compare_spec (x * k + number B a) (y * k + number B b)); [nia|done|nia].
Qed.

(** Order of identifiers.  Comparing two integers byte by byte is comparing
    the numbers they stand for: [operator<] is less-than on numbers, and
    [operator==] is equality. *)
Theorem compare_orders W u v :
  wf W u → wf W v →
  compare u v = match value u ?= value v with Lt => -1 | Eq => 0 | Gt => 1 end ∧
  lt u v = (value u <? value v) ∧ le u v = (value u <=? value v) ∧ (eqb u v = true ↔ u = v).
Proof.
  intros Hu Hv. destruct (bytes_of_spec W u Hu) as (Hl & Hb & Hn).
  destruct (bytes_of_spec W v Hv) as (Hl' & Hb' & Hn').
  unfold lt, le, eqb, compare. rewrite (compare_bytes_spec 256) by (try done; congruence).
  rewrite Hn, Hn'. unfold Z.ltb, Z.leb.
  destruct (Z.compare_spec (value u) (value v)) as [E|E|E]; simpl; split_and!; try done;
    (split; [try done; intros _; by eapply value_inj|intros ->; try done; lia]).
Qed.

Lemma compare_orders_witness : lt [1; 5] [1; 7] = true.
Proof.
  assert (wf 2 [1; 5]) as H1 by (split; [done|repeat constructor; vm_compute; congruence]).
  assert (wf 2 [1; 7]) as H2 by (split; [done|repeat constructor; vm_compute; congruence]).
  rewrite (proj1 (proj2 (compare_orders 2 [1; 5] [1; 7] H1 H2))). by vm_compute.
Defined.

(** ** Hexadecimal *)
Lemma charUnHex_charHex d : 0 ≤ d < 16 → charUnHex (charHex d) = d ∧ charHex d ≠ 0.
Proof.
  intros Hd.
  assert (d = 0 ∨ d = 1 ∨ d = 2 ∨ d = 3 ∨ d = 4 ∨ d = 5 ∨ d = 6 ∨ d = 7 ∨ d = 8 ∨ d = 9 ∨
    d = 10 ∨ d = 11 ∨ d = 12 ∨ d = 13 ∨ d = 14 ∨ d = 15) as Hc by lia.
  by repeat destruct Hc as [->|Hc]; [..|subst].
Qed.

Lemma charUnHex_range c : charUnHex c = -1 ∨ 0 ≤ charUnHex c < 16.
Proof.
  unfold charUnHex. zcases; simpl; first [by left|right; lia].
Qed.

Lemma hexchar_plain d : 0 ≤ d < 16 → isspace (charHex d) = false ∧ tolower (charHex d) ≠ 120.
Proof.
  intros Hd. unfold charHex, isspace, tolower. destruct (Z.ltb_spec d 10).
  - replace (65 <=? 48 + d) with false by lia. simpl. lia.
  - replace (65 <=? 55 + d) with true by lia. replace (55 + d <=? 90) with true by lia. simpl. lia.
Qed.

Lemma lor_nibbles h l : 0 ≤ l < 16 → Z.lor (Z.shiftl h 4) l = 16 * h + l.
Proof.
  intros Hl. assert (Z.land (Z.shiftl h 4) l = 0) as H0.
  { apply Z.bits_inj'. intros i Hi. rewrite Z.land_spec, Z.bits_0.
    destruct (decide (i < 4)).
    - by rewrite Z.shiftl_spec_low.
    - rewrite andb_comm. replace (Z.testbit l i) with false; [done|]. symmetry.
      apply Z.testbit_false; [done|]. rewrite Z.div_small; [done|].
      assert (2 ^ 4 ≤ 2 ^ i) by (apply Z.pow_le_mono_r; lia). lia. }
  pose proof (Z.add_lor_land (Z.shiftl h 4) l). rewrite H0 in H.
  rewrite Z.shiftl_mul_pow2 in * by lia. lia.
Qed.

(** The two digits of a byte, and the string of a list of bytes. *)
Definition byte_hex (b : Z) : list Z := [charHex (b / 16); charHex (b mod 16)].
Definition bytes_hex (bs : list Z) : list Z := concat (map byte_hex bs).

Lemma byte_digits b :
  0 ≤ b < 256 → 0 ≤ b / 16 < 16 ∧ 0 ≤ b mod 16 < 16 ∧
  Z.lor (Z.shiftl (b / 16) 4) (b mod 16) = b.
Proof.
  intros Hb. pose proof (Z.div_mod b 16 ltac:(lia)). pose proof (Z.mod_pos_bound b 16 ltac:(lia)).
  split_and!; try lia. rewrite lor_nibbles by done. lia.
Qed.

Lemma setHexExact_hex bs rest : ∀ written todo,
  in_base 256 bs → length todo = length bs →
  setHexExact_loop written todo (bytes_hex bs ++ rest) = (written ++ bs, peek rest =? 0).
Proof.
  induction bs as [|b bs IH]; intros written [|x todo] Hb Hl; simplify_eq/=.
  { by rewrite app_nil_r. }
  apply Forall_cons in Hb as [Hb Hbs]. destruct (byte_digits b Hb) as (H1 & H2 & H3).
  rewrite (proj1 (charUnHex_charHex _ H1)), (proj1 (charUnHex_charHex _ H2)).
  replace (b / 16 =? -1) with false by lia. replace (b mod 16 =? -1) with false by lia.
  rewrite H3. unfold bytes_hex in IH. rewrite IH by done. by rewrite <- (assoc_L (++)).
Qed.

Lemma hex_span_hex bs : in_base 256 bs → hex_span (bytes_hex bs) = (bytes_hex bs, []).
Proof.
  induction 1 as [|b bs Hb Hbs IH]; [done|]. unfold bytes_hex in *. cbn [map concat byte_hex app].
  destruct (byte_digits b Hb) as (H1 & H2 & _).
  change (concat (byte_hex b :: map byte_hex bs))
    with (charHex (b / 16) :: charHex (b mod 16) :: concat (map byte_hex bs)). cbn [hex_span].
  rewrite (proj1 (charUnHex_charHex _ H1)), (proj1 (charUnHex_charHex _ H2)).
  replace (b / 16 =? -1) with false by lia. replace (b mod 16 =? -1) with false by lia. simpl.
  by rewrite IH.
Qed.

Lemma pair_digits_hex bs : in_base 256 bs → pair_digits (bytes_hex bs) = bs.
Proof.
  induction 1 as [|b bs Hb Hbs IH]; [done|]. unfold bytes_hex in *.
  destruct (byte_digits b Hb) as (H1 & H2 & H3).
  change (concat (map byte_hex (b :: bs)))
    with (charHex (b / 16) :: charHex (b mod 16) :: concat (map byte_hex bs)). cbn [pair_digits].
  rewrite (proj1 (charUnHex_charHex _ H1)), (proj1 (charUnHex_charHex _ H2)), H3. by rewrite IH.
Qed.

Lemma bytes_hex_length bs : length (bytes_hex bs) = (2 * length bs)%nat.
Proof. induction bs as [|b bs IH]; [done|]. unfold bytes_hex in *. simpl in *. lia. Qed.

(** [boost::algorithm::hex] writes each byte as two upper-case digits. *)
Definition hex_documented (boost_hex : list Z → list Z) : Prop :=
  ∀ bs, in_base 256 bs → boost_hex bs = bytes_hex bs.

(** Hexadecimal round trip.  Given that [boost::algorithm::hex] writes two
    upper-case digits a byte, both [SetHexExact] (whatever the object held) and
    [SetHex], strict or not, read back from [to_string] the integer that was
    written, and accept the whole string. *)
Theorem hex_roundtrip boost_hex W u v strict :
  hex_documented boost_hex → (0 < W)%nat → wf W u → wf W v →
  SetHexExact v (to_string boost_hex u) = (u, true) ∧
  SetHex W (to_string boost_hex u) strict = (u, true).
Proof.
  intros Hhex HW Hu Hv. destruct (bytes_of_spec W u Hu) as (Hl & Hb & _).
  destruct (bytes_of_spec W v Hv) as (Hl' & _ & _).
  unfold to_string, strHex. rewrite (Hhex _ Hb). split.
  - unfold SetHexExact. rewrite <- (app_nil_r (bytes_hex (bytes_of u))).
    rewrite setHexExact_hex by (try done; lia). simpl. by rewrite (words_of_bytes_of W).
  - unfold SetHex. set (s := bytes_hex (bytes_of u)).
    assert (∃ h l s', s = h :: l :: s' ∧ isspace h = false ∧ tolower l ≠ 120) as (h & l & s' & Es & Hh & Hx).
    { destruct (bytes_of u) as [|b bs] eqn:Eb; [simpl in Hl; lia|].
      apply Forall_cons in Hb as [Hb _]. destruct (byte_digits b Hb) as (H1 & H2 & _).
      exists (charHex (b / 16)), (charHex (b mod 16)), (bytes_hex bs).
      split_and!; [done|by apply hexchar_plain|by apply hexchar_plain]. }
    assert ((if negb strict then skip_spaces s else s) = s) as ->.
    { destruct strict; [done|]. rewrite Es. simpl. by rewrite Hh. }
    assert (negb strict && (peek s =? 48) && (tolower (peek (tail s)) =? 120) = false) as ->.
    { rewrite Es. simpl. destruct (Z.eqb_spec (tolower l) 120); [done|]. by rewrite andb_false_r. }
    unfold s. rewrite hex_span_hex by done. rewrite bytes_hex_length, Hl.
    rewrite (proj2 (Nat.ltb_ge _ _)) by lia. rewrite bytes_hex_length, Hl.
    assert (Nat.odd (2 * (4 * W)) = false) as ->.
    { rewrite Nat.odd_mul. done. }
    rewrite pair_digits_hex by done.
    replace (4 * W - (2 * (4 * W) + 1) / 2)%nat with 0%nat.
    2: { rewrite (Nat.mul_comm 2), Nat.div_add_l by lia. simpl. lia. }
    cbn [replicate app]. by rewrite (words_of_bytes_of W).
Qed.

Lemma hex_roundtrip_witness :
  SetHexExact [0; 0] (to_string bytes_hex [3735928559; 7]) = ([3735928559; 7], true).
Proof.
  apply (hex_roundtrip bytes_hex 2 [3735928559; 7] [0; 0] true);
    [by intros bs _|lia|split; [done|repeat constructor; vm_compute; congruence]..].
Defined.

(** The digits two by two. *)
Lemma pair_digits_spec n : ∀ ds,
  length ds = (2 * n)%nat → Forall (λ c, charUnHex c ≠ -1) ds →
  length (pair_digits ds) = n ∧ in_base 256 (pair_digits ds) ∧
  number 256 (pair_digits ds) = number 16 (map charUnHex ds).
Proof.
  induction n as [|n IH]; intros ds Hl Hd.
  { destruct ds; [|done]. split_and!; [done|constructor|done]. }
  destruct ds as [|h [|l ds]]; try (simpl in Hl; lia).
  apply Forall_cons in Hd as [Hh Hd]. apply Forall_cons in Hd as [Hl' Hd].
  destruct (charUnHex_range h) as [?|Rh]; [done|]. destruct (charUnHex_range l) as [?|Rl]; [done|].
  destruct (IH ds) as (IH1 & IH2 & IH3); [simpl in Hl; lia|done|].
  cbn [pair_digits map]. rewrite lor_nibbles by done.
  split_and!; [simpl; by rewrite IH1|constructor; [lia|done]|].
  cbn [number length]. rewrite IH1, IH3, length_map.
  replace (length ds) with (2 * n)%nat by (simpl in Hl; lia).
  rewrite Nat2Z.inj_succ, Z.pow_succ_r by lia.
  replace (16 ^ Z.of_nat (2 * n)) with (256 ^ Z.of_nat n); [lia|].
  rewrite Nat2Z.inj_mul, Z.pow_mul_r by lia. done.
Qed.

Lemma hex_span_digits s : Forall (λ c, charUnHex c ≠ -1) (hex_span s).1.
Proof.
  induction s as [|c s IH]; [constructor|]. cbn [hex_span].
  destruct (Z.eqb_spec (charUnHex c) (-1)); simpl; [constructor|].
  destruct (hex_span s). simpl in *. by constructor.
Qed.

Lemma number_replicate B n ds : number B (replicate n 0 ++ ds) = number B ds.
Proof. induction n as [|n IH]; [done|]. cbn [replicate app number]. by rewrite IH. Qed.

Definition hex_digits (ds : list Z) : Prop := Forall (λ c, charUnHex c ≠ -1) ds.

Lemma hex_digits_base ds : hex_digits ds → in_base 16 (map charUnHex ds).
Proof.
  intros Hds. apply Forall_map. eapply Forall_impl; [done|]. intros c Hc. simpl.
  by destruct (charUnHex_range c).
Qed.

(** Keeping the last [8 W] digits is reducing modulo 2^(32 W). *)
Lemma clamp_digits W ds :
  hex_digits ds →
  let es := if (2 * (4 * W) <? length ds)%nat then drop (length ds - 2 * (4 * W)) ds else ds in
  hex_digits es ∧ (length es ≤ 8 * W)%nat ∧
  number 16 (map charUnHex es) = number 16 (map charUnHex ds) mod modulus W.
Proof.
  intros Hd. assert (modulus W = 16 ^ Z.of_nat (8 * W)) as ->.
  { unfold modulus. rewrite Nat2Z.inj_mul, Z.pow_mul_r by lia. done. }
  destruct (Nat.ltb_spec (2 * (4 * W)) (length ds)) as [Hlt|Hge]; cbv zeta.
  - set (k := (length ds - 2 * (4 * W))%nat).
    assert (hex_digits (drop k ds)) as Hk' by (by apply Forall_drop).
    assert (length (map charUnHex (drop k ds)) = (8 * W)%nat) as Hk.
    { rewrite length_map, length_drop. subst k. lia. }
    split_and!; [done|rewrite length_map in Hk; lia|].
    rewrite <- (take_drop k ds) at 2. rewrite map_app, number_app by lia.
    rewrite Hk, Z.add_comm, Z.mod_add by (apply Z.pow_nonzero; lia). symmetry. apply Z.mod_small.
    rewrite <- Hk. apply number_bounds; [lia|]. by apply hex_digits_base.
  - split_and!; [done|lia|]. symmetry. apply Z.mod_small.
    pose proof (number_bounds 16 _ ltac:(lia) (hex_digits_base ds Hd)) as Hb. rewrite length_map in Hb.
    assert (16 ^ Z.of_nat (length ds) ≤ 16 ^ Z.of_nat (8 * W)) by (apply Z.pow_le_mono_r; lia). lia.
Qed.

(** The bytes written spell the digits, an odd first digit by itself. *)
Lemma out_bytes es :
  hex_digits es →
  let out := if Nat.odd (length es) then charUnHex (peek es) :: pair_digits (tail es)
             else pair_digits es in
  length out = ((length es + 1) / 2)%nat ∧ in_base 256 out ∧
  number 256 out = number 16 (map charUnHex es).
Proof.
  intros He. destruct (Nat.odd (length es)) eqn:Eo; cbv zeta.
  - apply Nat.odd_spec in Eo as [n Hodd]. destruct es as [|c es]; [simpl in Hodd; lia|].
    apply Forall_cons in He as [Hc He]. destruct (charUnHex_range c) as [?|Hr]; [done|].
    destruct (pair_digits_spec n es) as (H1 & H2 & H3); [simpl in Hodd; lia|done|].
    simpl peek. simpl tail. split_and!; [|constructor; [lia|done]|].
    + cbn [length]. rewrite H1. replace (S (length es) + 1)%nat with (S n * 2)%nat by (simpl in Hodd; lia).
      by rewrite Nat.div_mul.
    + cbn [number map length]. rewrite H1, H3, length_map.
      replace (length es) with (2 * n)%nat by (simpl in Hodd; lia).
      f_equal. f_equal. rewrite Nat2Z.inj_mul, Z.pow_mul_r by lia. done.
  - assert (Nat.even (length es) = true) as Ev by (by rewrite <- Nat.negb_odd, Eo).
    apply Nat.even_spec in Ev as [n Hev]. destruct (pair_digits_spec n es Hev He) as (H1 & H2 & H3).
    split_and!; [|done|done]. rewrite H1, Hev.
    rewrite (Nat.mul_comm 2), Nat.div_add_l by lia. simpl. lia.
Qed.

(** Reading hexadecimal.  Strict [SetHex] reads the longest prefix of
    hexadecimal digits; the integer is the number they spell, modulo 2^(32 W)
    (excess leading digits are ignored), and the result is whether the string
    ends there. *)
Theorem SetHex_reads W psz :
  let '(ds, rest) := hex_span psz in
  let '(u, ok) := SetHex W psz true in
  wf W u ∧ value u = number 16 (map charUnHex ds) mod modulus W ∧ (ok = true ↔ peek rest = 0).
Proof.
  pose proof (hex_span_digits psz) as Hd. unfold SetHex. simpl negb. cbv iota.
  cbn [andb]. destruct (hex_span psz) as [ds rest]. simpl in Hd.
  destruct (clamp_digits W ds Hd) as (He & Hlen & Hn). set (es := if (_ <? _)%nat then _ else ds) in *.
  clearbody es. rewrite <- Hn. destruct (out_bytes es He) as (Ho1 & Ho2 & Ho3).
  set (out := if Nat.odd _ then _ else _) in *. clearbody out.
  destruct (words_of_spec W (replicate (4 * W - (length es + 1) / 2) 0 ++ out)) as [H1 H2].
  - rewrite length_app, length_replicate, Ho1.
    assert ((length es + 1) / 2 < 4 * W + 1)%nat; [|lia].
    apply Nat.Div0.div_lt_upper_bound. lia.
  - apply Forall_app. split; [|done]. by apply Forall_replicate.
  - split_and!; [done|by rewrite H2, number_replicate, Ho3|]. by rewrite Z.eqb_eq.
Qed.
