(* ===== verification/Serializer.v ===== *)
(** * Serialization of ledger data

    src/src/ripple/protocol/Serializer.h and impl/Serializer.cpp: [Serializer]
    appends integers, identifiers, variable-length blobs and field codes to a
    buffer, [SerialIter] reads them back.

    A [Serializer] is the list of its bytes [mData]; its [add] functions give the
    offset at which they wrote and the new bytes.  The offset is an [int] in the
    source; here it is not reduced, so that it stands for buffers of less than
    2 GiB.  A [SerialIter] is the buffer it
    points into with the counts [used_] and [remain_]; [p_] is [used_] bytes into
    the buffer.  An exception is a left value.  Comparisons of an [int] with a
    [std::size_t] convert the former to 64 bits without sign, as in the source. *)

From stdpp Require Import prelude list.
From Stdlib Require Import ZArith Lia.
From S2P Require Import Prelude.
From S2P Require Import BaseUint.
From S2P Require Import BaseUintTheorems.

Inductive sexn := runtime_error | serial_overflow.

#[export] Instance sexn_eq_dec : EqDecision sexn.
Proof. solve_decision. Defined.

(** ** Serializer *)
Abbreviation Blob := (list Z).

Definition byte (z : Z) : Z := z mod 256.
Definition size (s : Blob) : Z := Z.of_nat (length s).
(** [mData.push_back] and [mData.insert (mData.end (), ...)] *)
Definition append (s bs : Blob) : Z * Blob := (size s, s ++ bs).

Definition addZeros (s : Blob) (uBytes : nat) : Z * Blob := append s (replicate uBytes 0).
Definition add8 (s : Blob) (b : Z) : Z * Blob := append s [byte b].
Definition add16 (s : Blob) (i : Z) : Z * Blob :=
  append s [byte (Z.shiftr i 8); byte (Z.land i 0xff)].
Definition add32 (s : Blob) (i : Z) : Z * Blob :=
  append s [byte (Z.shiftr i 24); byte (Z.land (Z.shiftr i 16) 0xff);
            byte (Z.land (Z.shiftr i 8) 0xff); byte (Z.land i 0xff)].
Definition add64 (s : Blob) (i : Z) : Z * Blob :=
  append s [byte (Z.shiftr i 56); byte (Z.land (Z.shiftr i 48) 0xff);
            byte (Z.land (Z.shiftr i 40) 0xff); byte (Z.land (Z.shiftr i 32) 0xff);
            byte (Z.land (Z.shiftr i 24) 0xff); byte (Z.land (Z.shiftr i 16) 0xff);
            byte (Z.land (Z.shiftr i 8) 0xff); byte (Z.land i 0xff)].
(** [addBitString], [add128], [add160] and [add256] of the bytes of the integer. *)
Definition addBitString (s v : Blob) : Z * Blob := append s v.
Definition addRaw (s vector : Blob) : Z * Blob := append s vector.

Definition encodeLengthLength (length : Z) : sexn + Z :=
  if length <? 0 then inl serial_overflow
  else if length <=? 192 then inr 1
  else if length <=? 12480 then inr 2
  else if length <=? 918744 then inr 3
  else inl serial_overflow.

(** The bytes [addEncoded] writes. *)
Definition encoded (length : Z) : sexn + Blob :=
  if length <=? 192 then inr [byte length]
  else if length <=? 12480
  then let l := length - 193 in
       inr [byte (193 + byte (Z.shiftr l 8)); byte (Z.land l 0xff)]
  else if length <=? 918744
  then let l := length - 12481 in
       inr [byte (241 + byte (Z.shiftr l 16)); byte (Z.land (Z.shiftr l 8) 0xff);
            byte (Z.land l 0xff)]
  else inl serial_overflow.
Definition addEncoded (s : Blob) (length : Z) : sexn + (Z * Blob) :=
  match encoded length with
  | inl e => inl e
  | inr bytes => inr (addRaw s bytes)
  end.

Definition addVL (s vector : Blob) : sexn + (Z * Blob) :=
  match addEncoded s (size vector) with
  | inl e => inl e
  | inr (ret, s) => inr (ret, (addRaw s vector).2)
  end.

(** The assertion on the arguments is a hypothesis of the theorems. *)
Definition addFieldID (s : Blob) (type name : Z) : Z * Blob :=
  append s
    (if type <? 16
     then if name <? 16 then [byte (Z.lor (Z.shiftl type 4) name)]
          else [byte (Z.shiftl type 4); byte name]
     else if name <? 16 then [byte name; byte type]
     else [0; byte type; byte name]).

Definition chop (s : Blob) (bytes : Z) : option Blob :=
  if size s <? u64 bytes then None else Some (take (length s - Z.to_nat bytes) s).

Definition get8_at (s : Blob) (offset : Z) : option Z :=
  if size s <=? u64 offset then None else Some (s !!! Z.to_nat offset).
Definition getRaw_at (s : Blob) (offset len : Z) : option Blob :=
  if size s <? u64 (offset + len) then None
  else Some (take (Z.to_nat len) (drop (Z.to_nat offset) s)).
(** [getBitString], [get160], [get256] for an integer of [n] bytes. *)
Definition getBits_at (n : Z) (s : Blob) (offset : Z) : option Blob := getRaw_at s offset n.

Fixpoint getInteger_loop (bs : Blob) (number : Z) : Z :=
  match bs with
  | [] => number
  | b :: bs => getInteger_loop bs (Z.lor (Z.shiftl number 8) b)
  end.
(** [getInteger<Integer>] for an integer of [bytes] bytes. *)
Definition getInteger (bytes : Z) (s : Blob) (offset : Z) : option Z :=
  if size s <? u64 (offset + bytes) then None
  else Some (getInteger_loop (take (Z.to_nat bytes) (drop (Z.to_nat offset) s)) 0).

Definition decodeLengthLength (b1 : Z) : sexn + Z :=
  if b1 <? 0 then inl serial_overflow
  else if b1 <=? 192 then inr 1
  else if b1 <=? 240 then inr 2
  else if b1 <=? 254 then inr 3
  else inl serial_overflow.
Definition decodeVLLength1 (b1 : Z) : sexn + Z :=
  if b1 <? 0 then inl serial_overflow else if 254 <? b1 then inl serial_overflow else inr b1.
Definition decodeVLLength2 (b1 b2 : Z) : sexn + Z :=
  if b1 <? 193 then inl serial_overflow else if 240 <? b1 then inl serial_overflow
  else inr (193 + (b1 - 193) * 256 + b2).
Definition decodeVLLength3 (b1 b2 b3 : Z) : sexn + Z :=
  if b1 <? 241 then inl serial_overflow else if 254 <? b1 then inl serial_overflow
  else inr (12481 + (b1 - 241) * 65536 + b2 * 256 + b3).

(** [catch (std::exception const&) { return false; }] *)
Definition caught {A} (r : sexn + A) : option A :=
  match r with inl _ => None | inr a => Some a end.

(** [getVLLength], up to the length and the offset after it: the answer [false]
    is [None].  [decodeLengthLength] is called outside the [try]. *)
Definition getVLLength (s : Blob) (offset : Z) : sexn + option (Z * Z) :=
  match get8_at s offset with
  | None => inr None
  | Some b1 =>
      let offset := offset + 1 in
      match decodeLengthLength b1 with
      | inl e => inl e
      | inr lenLen =>
          inr (if lenLen =? 1 then (λ l, (l, offset)) <$> caught (decodeVLLength1 b1)
               else if lenLen =? 2
               then match get8_at s offset with
                    | None => None
                    | Some b2 => (λ l, (l, offset + 1)) <$> caught (decodeVLLength2 b1 b2)
                    end
               else if lenLen =? 3
               then match get8_at s offset, get8_at s (offset + 1) with
                    | Some b2, Some b3 =>
                        (λ l, (l, offset + 2)) <$> caught (decodeVLLength3 b1 b2 b3)
                    | _, _ => None
                    end
               else None)
      end
  end.
(** The object and [length], the bytes it takes with its length. *)
Definition getVL_at (s : Blob) (offset : Z) : sexn + option (Blob * Z) :=
  match getVLLength s offset with
  | inl e => inl e
  | inr None => inr None
  | inr (Some (datLen, offset')) =>
      inr ((λ o, (o, offset' - offset + datLen)) <$> getRaw_at s offset' datLen)
  end.

(** ** SerialIter *)
Record SerialIter := mkIter { buffer : Blob; used_ : Z; remain_ : Z }.

Definition serial_iter (data : Blob) : SerialIter := mkIter data 0 (size data).
(** The bytes from [p_] on. *)
Definition p_ (it : SerialIter) : Blob := drop (Z.to_nat (used_ it)) (buffer it).
Definition empty (it : SerialIter) : bool := remain_ it =? 0.
Definition getBytesLeft (it : SerialIter) : Z := remain_ it.
Definition reset (it : SerialIter) : SerialIter :=
  mkIter (buffer it) 0 (remain_ it + used_ it).
(** [p_ += n; used_ += n; remain_ -= n;] *)
Definition advance (n : Z) (it : SerialIter) : SerialIter :=
  mkIter (buffer it) (used_ it + n) (remain_ it - n).

Definition Reader (A : Type) : Type := SerialIter → sexn + (A * SerialIter).
#[export] Instance reader_ret : MRet Reader := λ A a it, inr (a, it).
#[export] Instance reader_bind : MBind Reader := λ A B f m it,
  match m it with inl e => inl e | inr (a, it) => f a it end.
Definition throw {A} (e : sexn) : Reader A := λ _, inl e.
Definition lift {A} (r : sexn + A) : Reader A := λ it,
  match r with inl e => inl e | inr a => inr (a, it) end.

(** [n] bytes, or the exception. *)
Definition bytes_of_size (n : Z) : Reader Blob := λ it,
  if remain_ it <? u64 n then inl runtime_error
  else inr (take (Z.to_nat n) (p_ it), advance n it).

Definition skip (len : Z) : Reader () := _ ← bytes_of_size len; mret ().
Definition get8 : Reader Z := t ← bytes_of_size 1; mret (t !!! 0%nat).
Definition get16 : Reader Z :=
  t ← bytes_of_size 2; mret (Z.shiftl (t !!! 0%nat) 8 + t !!! 1%nat).
Definition get32 : Reader Z :=
  t ← bytes_of_size 4;
  mret (Z.shiftl (t !!! 0%nat) 24 + Z.shiftl (t !!! 1%nat) 16 + Z.shiftl (t !!! 2%nat) 8 +
        t !!! 3%nat).
Definition get64 : Reader Z :=
  t ← bytes_of_size 8;
  mret (Z.shiftl (t !!! 0%nat) 56 + Z.shiftl (t !!! 1%nat) 48 + Z.shiftl (t !!! 2%nat) 40 +
        Z.shiftl (t !!! 3%nat) 32 + Z.shiftl (t !!! 4%nat) 24 + Z.shiftl (t !!! 5%nat) 16 +
        Z.shiftl (t !!! 6%nat) 8 + t !!! 7%nat).
Definition getBitString (n : Z) : Reader Blob := bytes_of_size n.
Definition getSlice (n : Z) : Reader Blob := bytes_of_size n.
Definition getRaw (n : Z) : Reader Blob := bytes_of_size n.

Definition getFieldID : Reader (Z * Z) :=
  b ← get8;
  let name := Z.land b 15 in
  let type := Z.shiftr b 4 in
  type ← (if type =? 0
          then type ← get8;
               if (type =? 0) || (type <? 16) then throw runtime_error else mret type
          else mret type);
  name ← (if name =? 0
          then name ← get8;
               if (name =? 0) || (name <? 16) then throw runtime_error else mret name
          else mret name);
  mret (type, name).

Definition getVLDataLength : Reader Z :=
  b1 ← get8;
  lenLen ← lift (decodeLengthLength b1);
  if lenLen =? 1 then lift (decodeVLLength1 b1)
  else if lenLen =? 2 then b2 ← get8; lift (decodeVLLength2 b1 b2)
  else b2 ← get8; b3 ← get8; lift (decodeVLLength3 b1 b2 b3).

(** [getVL] and [getVLBuffer] *)
Definition getVL : Reader Blob := n ← getVLDataLength; getRaw n.
