(* ===== verification/SerializerTheorems.v ===== *)
(** * Serialization: round trips and errors

    [reads m bs a]: the reader [m] takes the bytes [bs] off the front of any
    iterator and gives [a].  Each [add] function is matched with its reader this
    way; sequences of writes and reads follow by composition. *)

From stdpp Require Import prelude list.
From Stdlib Require Import ZArith Lia.
From S2P Require Import Prelude.
From S2P Require Import BaseUint.
From S2P Require Import BaseUintTheorems.
From S2P Require Import Serializer.

(** ** Iterators *)
Record iter_ok (it : SerialIter) : Prop := {
  io_used : 0 ≤ used_ it;
  io_remain : 0 ≤ remain_ it;
  io_size : used_ it + remain_ it = size (buffer it);
  io_small : size (buffer it) < 2 ^ 63;
}.

Lemma p_length it : iter_ok it → Z.of_nat (length (p_ it)) = remain_ it.
Proof. intros []. unfold p_, size in *. rewrite length_drop. lia. Qed.

Lemma p_advance n it : 0 ≤ used_ it → 0 ≤ n → p_ (advance n it) = drop (Z.to_nat n) (p_ it).
Proof. intros Hu Hn. unfold p_. simpl. rewrite drop_drop. f_equal. lia. Qed.

Lemma advance_ok n it : iter_ok it → 0 ≤ n ≤ remain_ it → iter_ok (advance n it).
Proof. intros [] Hn. split; simpl; lia. Qed.

Lemma advance_advance m n it : advance n (advance m it) = advance (m + n) it.
Proof. unfold advance. simpl. f_equal; lia. Qed.

Lemma bytes_of_size_spec n it :
  iter_ok it → 0 ≤ n < 2 ^ 64 →
  bytes_of_size n it =
    if remain_ it <? n then inl runtime_error
    else inr (take (Z.to_nat n) (p_ it), advance n it).
Proof. intros Hit Hn. unfold bytes_of_size. by rewrite u64_small. Qed.

Lemma bytes_of_size_negative n it :
  iter_ok it → - 2 ^ 31 ≤ n < 0 → bytes_of_size n it = inl runtime_error.
Proof.
  intros [] Hn. unfold bytes_of_size, u64, wrap.
  rewrite <- (Z.mod_add n 1), Z.mod_small by lia. zcases; [done|lia].
Qed.

Definition reads {A} (m : Reader A) (bs : Blob) (a : A) : Prop :=
  ∀ it rest, iter_ok it → p_ it = bs ++ rest → m it = inr (a, advance (size bs) it).

Lemma reads_ok it bs rest : iter_ok it → p_ it = bs ++ rest → size bs ≤ remain_ it.
Proof. intros Hit Hp. rewrite <- (p_length it Hit), Hp, length_app. unfold size. lia. Qed.

Lemma reads_rest it bs rest :
  iter_ok it → p_ it = bs ++ rest → p_ (advance (size bs) it) = rest.
Proof.
  intros [] Hp. unfold size. rewrite p_advance, Hp, Nat2Z.id, drop_app_length by lia. done.
Qed.

Lemma reads_ret {A} (a : A) : reads (mret a) [] a.
Proof. intros it rest Hit Hp. unfold mret, reader_ret, advance, size. simpl. do 2 f_equal. destruct it; simpl; f_equal; lia. Qed.

Lemma reads_bind {A B} (m : Reader A) (f : A → Reader B) bs bs' a b :
  reads m bs a → reads (f a) bs' b → reads (m ≫= f) (bs ++ bs') b.
Proof.
  intros Hm Hf it rest Hit Hp. rewrite <- (assoc_L (++)) in Hp.
  unfold mbind, reader_bind. rewrite (Hm it _ Hit Hp).
  rewrite (Hf _ rest); [|by eapply advance_ok; [|split; [unfold size; lia|by eapply reads_ok]]|by eapply reads_rest].
  rewrite advance_advance. unfold size. rewrite length_app. do 3 f_equal. lia.
Qed.

(** A reader followed by a pure step. *)
Lemma reads_bind_nil {A B} (m : Reader A) (f : A → Reader B) bs a b :
  reads m bs a → reads (f a) [] b → reads (m ≫= f) bs b.
Proof. intros Hm Hf. rewrite <- (app_nil_r bs). by eapply reads_bind. Qed.

Lemma reads_lift {A} (a : A) : reads (lift (inr a)) [] a.
Proof. exact (reads_ret a). Qed.

Lemma reads_bytes bs : reads (bytes_of_size (size bs)) bs bs.
Proof.
  intros it rest Hit Hp. pose proof (reads_ok _ _ _ Hit Hp).
  rewrite bytes_of_size_spec by (done || (destruct Hit; unfold size in *; lia)). destruct (Z.ltb_spec (remain_ it) (size bs)); [lia|].
  rewrite Hp. unfold size. rewrite Nat2Z.id, take_app_length. done.
Qed.

Lemma reads_get8 b : reads get8 [b] b.
Proof. eapply reads_bind_nil; [apply (reads_bytes [b])|]. apply (reads_ret b). Qed.

(** ** Integers

    The bytes written are the digits of the number in base 256. *)
Lemma byte_shift_div i k : 0 ≤ k → byte (Z.land (Z.shiftr i k) 0xff) = (i / 2 ^ k) mod 256.
Proof.
  intros Hk. unfold byte. change 255 with (Z.ones 8). rewrite Z.land_ones, Z.shiftr_div_pow2 by lia.
  change (2 ^ 8) with 256. by rewrite Z.mod_mod.
Qed.
Lemma byte_shift_top i k : 0 ≤ k → byte (Z.shiftr i k) = (i / 2 ^ k) mod 256.
Proof. intros Hk. unfold byte. by rewrite Z.shiftr_div_pow2. Qed.
Lemma byte_low_div i : byte (Z.land i 0xff) = i mod 256.
Proof. pose proof (byte_shift_div i 0 ltac:(lia)) as H. by rewrite Z.shiftr_0_r, Z.div_1_r in H. Qed.

Ltac written_bytes :=
  rewrite ?byte_shift_div, ?byte_low_div, ?byte_shift_top by lia.

Lemma reads_get16 s i : 0 ≤ i < 2 ^ 16 → ∃ bs, add16 s i = append s bs ∧ size bs = 2 ∧ reads get16 bs i.
Proof.
  intros Hi. eexists. split; [reflexivity|]. split; [done|].
  eapply reads_bind_nil; [apply (reads_bytes [_; _])|]. simpl. written_bytes.
  rewrite Z.shiftl_mul_pow2 by lia. eapply eq_ind; [apply reads_ret|].
  change (2 ^ 8) with 256. Z.to_euclidean_division_equations. lia.
Qed.

Lemma reads_get32 s i : 0 ≤ i < 2 ^ 32 → ∃ bs, add32 s i = append s bs ∧ size bs = 4 ∧ reads get32 bs i.
Proof.
  intros Hi. eexists. split; [reflexivity|]. split; [done|].
  eapply reads_bind_nil; [apply (reads_bytes [_; _; _; _])|]. simpl. written_bytes.
  rewrite !Z.shiftl_mul_pow2 by lia. eapply eq_ind; [apply reads_ret|].
  change (2 ^ 8) with 256. change (2 ^ 16) with 65536. change (2 ^ 24) with 16777216.
  Z.to_euclidean_division_equations. lia.
Qed.

(** Digits add up from the top. *)
Lemma digit_step i a b :
  0 ≤ a → b = a + 8 → (i / 2 ^ b) * 2 ^ b + (i / 2 ^ a) mod 256 * 2 ^ a = (i / 2 ^ a) * 2 ^ a.
Proof.
  intros Ha ->. rewrite Z.pow_add_r, <- Z.div_div by lia. change (2 ^ 8) with 256.
  rewrite (Z.div_mod (i / 2 ^ a) 256) at 3 by lia. lia.
Qed.

Lemma reads_get64 s i : 0 ≤ i < 2 ^ 64 → ∃ bs, add64 s i = append s bs ∧ size bs = 8 ∧ reads get64 bs i.
Proof.
  intros Hi. eexists. split; [reflexivity|]. split; [done|].
  eapply reads_bind_nil; [apply (reads_bytes [_; _; _; _; _; _; _; _])|]. cbn [lookup_total list_lookup_total].
  written_bytes. rewrite !Z.shiftl_mul_pow2 by lia. eapply eq_ind; [apply reads_ret|].
  rewrite (Z.mod_small (i / 2 ^ 56) 256)
    by (split; [apply Z.div_pos; lia|apply Z.div_lt_upper_bound; [lia|change (2 ^ 56 * 256) with (2 ^ 64); lia]]).
  rewrite (digit_step i 48 56), (digit_step i 40 48), (digit_step i 32 40), (digit_step i 24 32),
    (digit_step i 16 24), (digit_step i 8 16) by lia.
  pose proof (digit_step i 0 8 ltac:(lia) ltac:(lia)) as H. rewrite Z.pow_0_r, Z.div_1_r, !Z.mul_1_r in H. lia.
Qed.

Lemma getInteger_loop_number bs n :
  in_base 256 bs → 0 ≤ n → getInteger_loop bs n = n * 256 ^ Z.of_nat (length bs) + number 256 bs.
Proof.
  intros Hb. revert n. induction Hb as [|b bs Hb _ IH]; intros n Hn; simpl; [lia|].
  assert (Z.lor (Z.shiftl n 8) b = n * 256 + b) as ->.
  { pose proof (Z.add_lor_land (Z.shiftl n 8) b) as Hlor. rewrite !Z.shiftl_mul_pow2 in * by lia.
    replace (Z.land (n * 2 ^ 8) b) with 0 in Hlor; [lia|]. symmetry. apply Z.bits_inj'. intros m Hm.
    rewrite Z.land_spec, Z.bits_0, Z.mul_pow2_bits by lia.
    destruct (decide (m < 8)).
    - rewrite (Z.testbit_neg_r n) by lia. done.
    - rewrite (Z.bits_above_log2 b), andb_false_r; [done|lia|].
      destruct (decide (b = 0)) as [->|]; [simpl; lia|].
      apply Z.log2_lt_pow2; [lia|]. apply Z.lt_le_trans with 256; [lia|].
      change 256 with (2 ^ 8). apply Z.pow_le_mono_r; lia. }
  rewrite IH by lia. rewrite Nat2Z.inj_succ, Z.pow_succ_r by lia. lia.
Qed.

(** ** Reading one byte *)
Lemma get8_spec it :
  iter_ok it →
  get8 it = match p_ it with [] => inl runtime_error | b :: _ => inr (b, advance 1 it) end.
Proof.
  intros Hit. unfold get8, mbind, reader_bind. rewrite bytes_of_size_spec by (done || lia).
  pose proof (p_length it Hit) as Hl. destruct (p_ it) as [|b rest]; simpl in Hl.
  - by rewrite (proj2 (Z.ltb_lt _ _)) by lia.
  - rewrite (proj2 (Z.ltb_ge _ _)) by lia. done.
Qed.

Lemma get8_inv it b it' :
  iter_ok it → get8 it = inr (b, it') →
  ∃ rest, p_ it = b :: rest ∧ it' = advance 1 it ∧ iter_ok it' ∧ p_ it' = rest.
Proof.
  intros Hit. rewrite get8_spec by done. destruct (p_ it) as [|b' rest] eqn:Hp; [done|].
  intros [= <- <-]. exists rest. split; [done|]. split; [done|].
  pose proof (reads_ok it [b'] rest Hit Hp) as Hr. unfold size in Hr. simpl in Hr.
  split; [apply advance_ok; [done|lia]|]. by apply (reads_rest it [b']).
Qed.

(** ** Lengths of blobs *)
Lemma byte_small z : 0 ≤ z < 256 → byte z = z.
Proof. apply Z.mod_small. Qed.

Lemma encoded_digits n bs :
  0 ≤ n → encoded n = inr bs →
  (n ≤ 192 ∧ bs = [n]) ∨
  (193 ≤ n ≤ 12480 ∧ bs = [193 + (n - 193) / 256; (n - 193) mod 256]) ∨
  (12481 ≤ n ≤ 918744 ∧
   bs = [241 + (n - 12481) / 65536; (n - 12481) / 256 mod 256; (n - 12481) mod 256]).
Proof.
  intros Hn. unfold encoded. zcases; intros [= <-].
  - left. by rewrite byte_small by lia.
  - right. left. split; [lia|]. written_bytes. change (2 ^ 8) with 256.
    rewrite (Z.mod_small (_ / 256)) by (Z.to_euclidean_division_equations; lia).
    rewrite byte_small by (Z.to_euclidean_division_equations; lia). done.
  - right. right. split; [lia|]. written_bytes. change (2 ^ 8) with 256. change (2 ^ 16) with 65536.
    rewrite (Z.mod_small (_ / 65536)) by (Z.to_euclidean_division_equations; lia).
    rewrite byte_small by (Z.to_euclidean_division_equations; lia). done.
Qed.

Lemma encoded_some n : 0 ≤ n ≤ 918744 → ∃ bs, encoded n = inr bs ∧ 1 ≤ size bs ≤ 3.
Proof. intros Hn. unfold encoded. zcases; try lia; eexists; (split; [reflexivity|unfold size; cbn [length]; lia]). Qed.

Lemma reads_length n bs : 0 ≤ n → encoded n = inr bs → reads getVLDataLength bs n.
Proof.
  intros Hn Hb. destruct (encoded_digits n bs Hn Hb) as [[H ->]|[[H ->]|[H ->]]]; unfold getVLDataLength.
  - eapply reads_bind_nil; [apply reads_get8|]. unfold decodeLengthLength. zcases; try lia.
    eapply reads_bind_nil; [apply reads_lift|]. simpl. unfold decodeVLLength1. zcases; try lia.
    apply reads_lift.
  - eapply (reads_bind _ _ [_] [_]); [apply reads_get8|].
    assert (0 ≤ (n - 193) / 256 ≤ 47) by (Z.to_euclidean_division_equations; lia).
    unfold decodeLengthLength. zcases; try lia.
    eapply (reads_bind _ _ [] [_]); [apply reads_lift|]. simpl.
    eapply reads_bind_nil; [apply reads_get8|]. unfold decodeVLLength2. zcases; try lia.
    eapply eq_ind; [apply reads_lift|]. Z.to_euclidean_division_equations. lia.
  - eapply (reads_bind _ _ [_] [_; _]); [apply reads_get8|].
    assert (0 ≤ (n - 12481) / 65536 ≤ 13) by (Z.to_euclidean_division_equations; lia).
    unfold decodeLengthLength. zcases; try lia.
    eapply (reads_bind _ _ [] [_; _]); [apply reads_lift|]. simpl.
    eapply (reads_bind _ _ [_] [_]); [apply reads_get8|].
    eapply reads_bind_nil; [apply reads_get8|]. unfold decodeVLLength3. zcases; try lia.
    eapply eq_ind; [apply reads_lift|]. Z.to_euclidean_division_equations. lia.
Qed.

(** What the length decoder accepts: the encodings of the lengths up to 918744,
    and the three-byte codes above them. *)
Definition length_code (n : Z) (bs : Blob) : Prop :=
  if n <=? 918744 then encoded n = inr bs
  else n ≤ 929984 ∧
       bs = [241 + (n - 12481) / 65536; (n - 12481) / 256 mod 256; (n - 12481) mod 256].

Lemma length_code_digits n b1 b2 b3 :
  241 ≤ b1 ≤ 254 → 0 ≤ b2 < 256 → 0 ≤ b3 < 256 →
  n = 12481 + (b1 - 241) * 65536 + b2 * 256 + b3 → length_code n [b1; b2; b3].
Proof.
  intros H1 H2 H3 Hn.
  assert ((n - 12481) / 65536 = b1 - 241 ∧ (n - 12481) / 256 mod 256 = b2 ∧ (n - 12481) mod 256 = b3)
    as (D1 & D2 & D3) by (Z.to_euclidean_division_equations; lia).
  unfold length_code. destruct (Z.leb_spec n 918744) as [Hs|Hs].
  - destruct (encoded_some n ltac:(lia)) as (bs & He & _). rewrite He. f_equal.
    destruct (encoded_digits n bs ltac:(lia) He) as [[? ->]|[[? ->]|[? ->]]]; [lia..|].
    rewrite D1, D2, D3. f_equal. lia.
  - split; [lia|]. rewrite D1, D2, D3. f_equal. lia.
Qed.

Lemma getVLDataLength_inv it n it' :
  iter_ok it → in_base 256 (buffer it) → getVLDataLength it = inr (n, it') →
  ∃ bs rest, p_ it = bs ++ rest ∧ it' = advance (size bs) it ∧ 0 ≤ n ∧ length_code n bs.
Proof.
  intros Hit Hb. assert (in_base 256 (p_ it)) as Hp by by apply Forall_drop.
  unfold getVLDataLength, mbind, reader_bind.
  destruct (get8 it) as [|[b1 it1]] eqn:E1; [done|].
  destruct (get8_inv _ _ _ Hit E1) as (r1 & Hp1 & -> & Hit1 & Hr1).
  rewrite Hp1 in Hp. apply Forall_cons in Hp as [Hb1 Hp].
  unfold lift at 1, decodeLengthLength. zcases; try done; cbn [Z.eqb Pos.eqb].
  - unfold lift, decodeVLLength1. zcases; try done. intros [= <- <-].
    exists [b1], r1. split_and!; try done; try lia. unfold length_code, encoded. zcases; try lia.
    by rewrite byte_small.
  - destruct (get8 (advance 1 it)) as [|[b2 it2]] eqn:E2; [done|].
    destruct (get8_inv _ _ _ Hit1 E2) as (r2 & Hp2 & -> & Hit2 & Hr2). rewrite Hr1 in Hp2. rewrite Hp2 in Hp, Hp1.
    apply Forall_cons in Hp as [Hb2 Hp].
    unfold lift, decodeVLLength2. zcases; try done. intros [= <- <-].
    exists [b1; b2], r2. rewrite advance_advance. split_and!; try done; try lia.
    destruct (encoded_some (193 + (b1 - 193) * 256 + b2) ltac:(lia)) as (bs & He & _).
    unfold length_code. rewrite (proj2 (Z.leb_le _ _)), He by lia. f_equal.
    apply encoded_digits in He as [[? ->]|[[? ->]|[? ->]]]; [lia| |lia|lia].
    f_equal; [|f_equal]; Z.to_euclidean_division_equations; lia.
  - destruct (get8 (advance 1 it)) as [|[b2 it2]] eqn:E2; [done|].
    destruct (get8_inv _ _ _ Hit1 E2) as (r2 & Hp2 & -> & Hit2 & Hr2). rewrite Hr1 in Hp2. rewrite Hp2 in Hp, Hp1.
    destruct (get8 (advance 1 (advance 1 it))) as [|[b3 it3]] eqn:E3; [done|].
    destruct (get8_inv _ _ _ Hit2 E3) as (r3 & Hp3 & -> & Hit3 & Hr3). rewrite Hr2 in Hp3. rewrite Hp3 in Hp, Hp1.
    apply Forall_cons in Hp as [Hb2 Hp]. apply Forall_cons in Hp as [Hb3 Hp].
    unfold lift, decodeVLLength3. zcases; try done. intros [= <- <-].
    exists [b1; b2; b3], r3. rewrite !advance_advance. split_and!; try done; try lia.
    by apply length_code_digits.
Qed.

(** ** Field codes *)
Definition field_code (type name : Z) : Blob := (addFieldID [] type name).2.

Lemma addFieldID_code s type name : addFieldID s type name = append s (field_code type name).
Proof. done. Qed.

Lemma nibble_low b : Z.land b 15 = b mod 16.
Proof. change 15 with (Z.ones 4). by rewrite Z.land_ones. Qed.
Lemma nibble_high b : Z.shiftr b 4 = b / 16.
Proof. by rewrite Z.shiftr_div_pow2. Qed.
Lemma nibbles type name : 0 ≤ name < 16 → Z.lor (Z.shiftl type 4) name = 16 * type + name.
Proof.
  intros Hn. rewrite Z.shiftl_mul_pow2 by lia. change (2 ^ 4) with 16.
  pose proof (Z.add_lor_land (type * 16) name) as H.
  replace (Z.land (type * 16) name) with 0 in H; [lia|]. symmetry. apply Z.bits_inj'. intros m Hm.
  rewrite Z.land_spec, Z.bits_0. change 16 with (2 ^ 4). rewrite Z.mul_pow2_bits by lia.
  destruct (decide (m < 4)); [by rewrite (Z.testbit_neg_r type) by lia|].
  rewrite (Z.bits_above_log2 name), andb_false_r; [done|lia|].
  destruct (decide (name = 0)) as [->|]; [simpl; lia|].
  apply Z.log2_lt_pow2; [lia|]. apply Z.lt_le_trans with (2 ^ 4); [lia|]. apply Z.pow_le_mono_r; lia.
Qed.

Lemma field_code_digits type name :
  0 < type < 256 → 0 < name < 256 →
  field_code type name =
    (if type <? 16 then if name <? 16 then [16 * type + name] else [16 * type; name]
     else if name <? 16 then [name; type] else [0; type; name]).
Proof.
  intros Ht Hn. unfold field_code, addFieldID, append. simpl. zcases;
    rewrite ?nibbles, ?Z.shiftl_mul_pow2, ?byte_small by lia; try done.
  f_equal. lia.
Qed.

Ltac nibble_cases := rewrite ?nibble_low, ?nibble_high.

Lemma reads_field type name :
  0 < type < 256 → 0 < name < 256 → reads getFieldID (field_code type name) (type, name).
Proof.
  intros Ht Hn. rewrite field_code_digits by done. unfold getFieldID.
  destruct (Z.ltb_spec type 16), (Z.ltb_spec name 16).
  - eapply reads_bind_nil; [apply reads_get8|]. nibble_cases.
    replace ((16 * type + name) / 16) with type by (Z.to_euclidean_division_equations; lia).
    replace ((16 * type + name) mod 16) with name by (Z.to_euclidean_division_equations; lia).
    rewrite (proj2 (Z.eqb_neq type 0)), (proj2 (Z.eqb_neq name 0)) by lia.
    eapply reads_bind_nil; [apply reads_ret|]. eapply reads_bind_nil; apply reads_ret.
  - eapply (reads_bind _ _ [_] [_]); [apply reads_get8|]. nibble_cases.
    replace ((16 * type) / 16) with type by (Z.to_euclidean_division_equations; lia).
    replace ((16 * type) mod 16) with 0 by (Z.to_euclidean_division_equations; lia).
    rewrite (proj2 (Z.eqb_neq type 0)) by lia. simpl.
    eapply (reads_bind _ _ [] [_]); [apply reads_ret|]. eapply reads_bind_nil; [|apply reads_ret].
    eapply reads_bind_nil; [apply reads_get8|]. zcases; try lia. apply reads_ret.
  - eapply (reads_bind _ _ [_] [_]); [apply reads_get8|]. nibble_cases.
    rewrite (Z.div_small name), (Z.mod_small name) by lia. rewrite (proj2 (Z.eqb_neq name 0)) by lia. simpl.
    eapply reads_bind_nil; [|eapply reads_bind_nil; apply reads_ret].
    eapply reads_bind_nil; [apply reads_get8|]. zcases; try lia. apply reads_ret.
  - eapply (reads_bind _ _ [_] [_; _]); [apply reads_get8|]. nibble_cases. simpl.
    eapply (reads_bind _ _ [_] [_]).
    { eapply reads_bind_nil; [apply reads_get8|]. zcases; try lia. apply reads_ret. }
    eapply reads_bind_nil; [|apply reads_ret].
    eapply reads_bind_nil; [apply reads_get8|]. zcases; try lia. apply reads_ret.
Qed.

Lemma getFieldID_inv it type name it' :
  iter_ok it → in_base 256 (buffer it) → getFieldID it = inr ((type, name), it') →
  0 < type < 256 ∧ 0 < name < 256 ∧
  ∃ rest, p_ it = field_code type name ++ rest ∧ it' = advance (size (field_code type name)) it.
Proof.
  intros Hit Hb. assert (in_base 256 (p_ it)) as Hp by by apply Forall_drop.
  unfold getFieldID, mbind, reader_bind, mret, reader_ret, throw.
  destruct (get8 it) as [|[b it1]] eqn:E1; [done|].
  destruct (get8_inv _ _ _ Hit E1) as (r1 & Hp1 & -> & Hit1 & Hr1).
  rewrite Hp1 in Hp |- *. apply Forall_cons in Hp as [Hb1 Hp]. nibble_cases.
  assert (b = 16 * (b / 16) + b mod 16) as Hbd by (Z.to_euclidean_division_equations; lia).
  assert (0 ≤ b / 16 < 16 ∧ 0 ≤ b mod 16 < 16) as [Hbh Hbl] by (Z.to_euclidean_division_equations; lia).
  revert Hbd Hbh Hbl. generalize (b / 16), (b mod 16). intros h l -> Hh Hl.
  destruct (Z.eqb_spec h 0) as [->|Hh0].
  - destruct (get8 (advance 1 it)) as [|[t it2]] eqn:E2; [done|].
    destruct (get8_inv _ _ _ Hit1 E2) as (r2 & Hp2 & -> & Hit2 & Hr2). rewrite Hr1 in Hp2.
    rewrite Hp2 in Hp |- *. apply Forall_cons in Hp as [Hb2 Hp].
    destruct ((t =? 0) || (t <? 16)) eqn:Et; [done|].
    destruct (Z.eqb_spec l 0) as [->|Hl0].
    + destruct (get8 (advance 1 (advance 1 it))) as [|[n it3]] eqn:E3; [done|].
      destruct (get8_inv _ _ _ Hit2 E3) as (r3 & Hp3 & -> & Hit3 & Hr3). rewrite Hr2 in Hp3.
      rewrite Hp3 in Hp |- *. apply Forall_cons in Hp as [Hb3 Hp].
      destruct ((n =? 0) || (n <? 16)) eqn:En; [done|]. intros [= <- <- <-].
      rewrite field_code_digits by lia. rewrite !(proj2 (Z.ltb_ge _ _)) by lia.
      split_and!; [lia..|]. exists r3. by rewrite !advance_advance.
    + intros [= <- <- <-]. rewrite field_code_digits by lia.
      rewrite (proj2 (Z.ltb_ge t 16)), (proj2 (Z.ltb_lt l 16)) by lia.
      split_and!; [lia..|]. exists r2. rewrite advance_advance. by simpl.
  - destruct (Z.eqb_spec l 0) as [->|Hl0].
    + destruct (get8 (advance 1 it)) as [|[n it2]] eqn:E2; [done|].
      destruct (get8_inv _ _ _ Hit1 E2) as (r2 & Hp2 & -> & Hit2 & Hr2). rewrite Hr1 in Hp2.
      rewrite Hp2 in Hp |- *. apply Forall_cons in Hp as [Hb2 Hp].
      destruct ((n =? 0) || (n <? 16)) eqn:En; [done|]. intros [= <- <- <-].
      rewrite field_code_digits by lia.
      rewrite (proj2 (Z.ltb_lt h 16)), (proj2 (Z.ltb_ge n 16)) by lia.
      split_and!; [lia..|]. exists r2. rewrite advance_advance, Z.add_0_r. by simpl.
    + intros [= <- <- <-]. rewrite field_code_digits by lia.
      rewrite !(proj2 (Z.ltb_lt _ 16)) by lia.
      split_and!; [lia..|]. by exists r1.
Qed.

(** ** Sequences of fields

    A value with the pair of functions that writes and reads it. *)
Inductive Field :=
  | F8 (b : Z) | F16 (i : Z) | F32 (i : Z) | F64 (i : Z)
  | FBits (v : Blob) | FRaw (v : Blob) | FVL (v : Blob) | FCode (type name : Z).

#[export] Instance Field_eq_dec : EqDecision Field.
Proof. solve_decision. Defined.

Definition field_ok (f : Field) : Prop :=
  match f with
  | F8 b => 0 ≤ b < 2 ^ 8
  | F16 i => 0 ≤ i < 2 ^ 16
  | F32 i => 0 ≤ i < 2 ^ 32
  | F64 i => 0 ≤ i < 2 ^ 64
  | FBits v | FRaw v => True
  | FVL v => size v ≤ 918744
  | FCode type name => 0 < type < 256 ∧ 0 < name < 256
  end.

Definition write (s : Blob) (f : Field) : sexn + (Z * Blob) :=
  match f with
  | F8 b => inr (add8 s b)
  | F16 i => inr (add16 s i)
  | F32 i => inr (add32 s i)
  | F64 i => inr (add64 s i)
  | FBits v => inr (addBitString s v)
  | FRaw v => inr (addRaw s v)
  | FVL v => addVL s v
  | FCode type name => inr (addFieldID s type name)
  end.

(** The reader for fields like [f]; lengths that are not written come from it. *)
Definition read (f : Field) : Reader Field :=
  match f with
  | F8 _ => b ← get8; mret (F8 b)
  | F16 _ => i ← get16; mret (F16 i)
  | F32 _ => i ← get32; mret (F32 i)
  | F64 _ => i ← get64; mret (F64 i)
  | FBits v => v ← getBitString (size v); mret (FBits v)
  | FRaw v => v ← getRaw (size v); mret (FRaw v)
  | FVL _ => v ← getVL; mret (FVL v)
  | FCode _ _ => '(type, name) ← getFieldID; mret (FCode type name)
  end.

Fixpoint write_all (s : Blob) (fs : list Field) : sexn + (list Z * Blob) :=
  match fs with
  | [] => inr ([], s)
  | f :: fs =>
      match write s f with
      | inl e => inl e
      | inr (offset, s) =>
          match write_all s fs with
          | inl e => inl e
          | inr (offsets, s) => inr (offset :: offsets, s)
          end
      end
  end.
Fixpoint read_all (fs : list Field) : Reader (list Field) :=
  match fs with
  | [] => mret []
  | f :: fs => f ← read f; fs ← read_all fs; mret (f :: fs)
  end.

Lemma reads_map {A B} (m : Reader A) (g : A → B) bs a :
  reads m bs a → reads (x ← m; mret (g x)) bs (g a).
Proof. intros Hm. eapply reads_bind_nil; [exact Hm|]. apply reads_ret. Qed.

Lemma write_read s f :
  field_ok f → ∃ bs, write s f = inr (append s bs) ∧ reads (read f) bs f.
Proof.
  intros Hf. destruct f as [b|i|i|i|v|v|v|type name]; simpl in Hf.
  - exists [b]. unfold write, add8. rewrite byte_small by lia. split; [done|]. apply reads_map, reads_get8.
  - destruct (reads_get16 s i Hf) as (bs & E & _ & Hr). exists bs. simpl. rewrite E. split; [done|by apply reads_map].
  - destruct (reads_get32 s i Hf) as (bs & E & _ & Hr). exists bs. simpl. rewrite E. split; [done|by apply reads_map].
  - destruct (reads_get64 s i Hf) as (bs & E & _ & Hr). exists bs. simpl. rewrite E. split; [done|by apply reads_map].
  - exists v. split; [done|]. apply reads_map, reads_bytes.
  - exists v. split; [done|]. apply reads_map, reads_bytes.
  - destruct (encoded_some (size v)) as (bs & He & _); [unfold size in *; lia|]. exists (bs ++ v).
    unfold write, addVL, addEncoded. rewrite He. unfold addRaw, append. simpl. rewrite (assoc_L (++)).
    split; [done|]. apply reads_map. eapply reads_bind; [|apply reads_bytes].
    apply reads_length; [unfold size; lia|exact He].
  - exists (field_code type name). split; [done|]. eapply reads_bind_nil; [by apply reads_field; destruct Hf|]. apply reads_ret.
Qed.

Lemma write_all_reads fs : Forall field_ok fs → ∀ s,
  ∃ offsets bs, write_all s fs = inr (offsets, s ++ bs) ∧ length offsets = length fs ∧
    reads (read_all fs) bs fs ∧
    ∀ i f o, fs !! i = Some f → offsets !! i = Some o →
      size s ≤ o ≤ size (s ++ bs) ∧ ∃ b rest, drop (Z.to_nat o) (s ++ bs) = b ++ rest ∧ reads (read f) b f.
Proof.
  induction 1 as [|f fs Hf Hfs IH]; intros s.
  - exists [], []. rewrite app_nil_r. split; [done|]. split; [done|]. split; [apply reads_ret|done].
  - destruct (write_read s f Hf) as (b & E & Hr).
    destruct (IH (s ++ b)) as (offsets & bs & E' & Hl & Hr' & Hat).
    exists (size s :: offsets), (b ++ bs). simpl. rewrite E. simpl. rewrite E'. rewrite (assoc_L (++)).
    split; [done|]. split; [by rewrite Hl|]. split.
    { eapply reads_bind; [exact Hr|]. eapply reads_bind_nil; [exact Hr'|]. apply reads_ret. }
    intros [|i] g o Hi Ho; simplify_eq/=.
    + unfold size. rewrite !length_app. split; [lia|]. exists b, bs.
      by rewrite Nat2Z.id, <- (assoc_L (++)), drop_app_length.
    + destruct (Hat i g o Hi Ho) as (Hs & Hd). split; [|done].
      unfold size in *. rewrite !length_app in *. lia.
Qed.

(** ** Reads on arbitrary bytes *)
Inductive ReadOp :=
  | Get8 | Get16 | Get32 | Get64 | GetBits (n : Z) | GetSlice (n : Z) | GetRaw (n : Z)
  | Skip (n : Z) | GetFieldID | GetVLLength | GetVL.

Definition void {A} (m : Reader A) : Reader () := _ ← m; mret ().
Definition run_read (op : ReadOp) : Reader () :=
  match op with
  | Get8 => void get8 | Get16 => void get16 | Get32 => void get32 | Get64 => void get64
  | GetBits n => void (getBitString n)
  | GetSlice n => void (getSlice n)
  | GetRaw n => void (getRaw n)
  | Skip n => skip n
  | GetFieldID => void getFieldID
  | GetVLLength => void getVLDataLength
  | GetVL => void getVL
  end.

(** The size of a read of fixed size. *)
Definition fixed_size (op : ReadOp) : option Z :=
  match op with
  | Get8 => Some 1 | Get16 => Some 2 | Get32 => Some 4 | Get64 => Some 8
  | GetBits n | GetSlice n | GetRaw n | Skip n => Some n
  | _ => None
  end.
(** The codes a read of variable size accepts at the front of the bytes. *)
Definition accepts (op : ReadOp) (bs : Blob) : Prop :=
  match op with
  | GetFieldID => ∃ type name, 0 < type < 256 ∧ 0 < name < 256 ∧ bs = field_code type name
  | GetVLLength => ∃ n, 0 ≤ n ∧ length_code n bs
  | GetVL => ∃ n code v, 0 ≤ n ∧ length_code n code ∧ bs = code ++ v ∧ size v = n
  | _ => ∃ n, fixed_size op = Some n ∧ 0 ≤ n ∧ size bs = n
  end.

Lemma void_inr {A} (m : Reader A) it u it' :
  void m it = inr (u, it') ↔ ∃ a, m it = inr (a, it').
Proof.
  unfold void, mbind, reader_bind, mret, reader_ret. destruct u, (m it) as [e|[a it1]]; split.
  - done.
  - by intros [? ?].
  - intros [= ->]. eauto.
  - by intros [? [= -> ->]].
Qed.

Lemma length_code_reads n bs : 0 ≤ n → in_base 256 bs → length_code n bs → reads getVLDataLength bs n.
Proof.
  intros Hn Hb. unfold length_code. destruct (Z.leb_spec n 918744); [by apply reads_length|].
  intros [Hm ->]. unfold getVLDataLength.
  eapply (reads_bind _ _ [_] [_; _]); [apply reads_get8|].
  assert (0 ≤ (n - 12481) / 65536 ≤ 13) by (Z.to_euclidean_division_equations; lia).
  unfold decodeLengthLength. zcases; try lia.
  eapply (reads_bind _ _ [] [_; _]); [apply reads_lift|]. simpl.
  eapply (reads_bind _ _ [_] [_]); [apply reads_get8|].
  eapply reads_bind_nil; [apply reads_get8|]. unfold decodeVLLength3. zcases; try lia.
  eapply eq_ind; [apply reads_lift|]. Z.to_euclidean_division_equations. lia.
Qed.

Lemma bytes_of_size_inv n it v it' :
  iter_ok it → - 2 ^ 31 ≤ n < 2 ^ 63 → bytes_of_size n it = inr (v, it') →
  0 ≤ n ∧ ∃ rest, p_ it = v ++ rest ∧ size v = n ∧ it' = advance n it.
Proof.
  intros Hit Hn. destruct (decide (n < 0)); [by rewrite bytes_of_size_negative by (done || lia)|].
  rewrite bytes_of_size_spec by (done || lia). destruct (Z.ltb_spec (remain_ it) n); [done|].
  intros [= <- <-]. split; [lia|]. exists (drop (Z.to_nat n) (p_ it)). rewrite take_drop.
  pose proof (p_length it Hit). unfold size. rewrite length_take. split_and!; [done|lia|done].
Qed.

Lemma accepted_read op it bs rest :
  iter_ok it → in_base 256 (buffer it) → accepts op bs → p_ it = bs ++ rest →
  run_read op it = inr ((), advance (size bs) it).
Proof.
  intros Hit Hb Ha Hp.
  assert (∀ A (m : Reader A) a, reads m bs a → void m it = inr ((), advance (size bs) it)) as Hv.
  { intros A m a Hm. apply void_inr. exists a. by eapply Hm. }
  assert (∀ n, size bs = n → bytes_of_size n it = inr (bs, advance (size bs) it)) as Hn.
  { intros n <-. by eapply reads_bytes. }
  assert (in_base 256 bs) as Hbs.
  { assert (in_base 256 (p_ it)) as Hx by by apply Forall_drop. rewrite Hp in Hx. by apply Forall_app in Hx as [? _]. }
  destruct op; simpl in *;
    try (destruct Ha as (n' & [= <-] & _ & Hsz);
         unfold get8, get16, get32, get64, getBitString, getSlice, getRaw, skip, void, mbind, reader_bind;
         by rewrite (Hn _ Hsz)).
  - destruct Ha as (t & n & Ht & Hn' & ->). eapply Hv. by apply reads_field.
  - destruct Ha as (n & Hn' & Hc). eapply Hv. by apply length_code_reads.
  - destruct Ha as (n & code & v & Hn' & Hc & -> & <-). eapply Hv.
    eapply reads_bind; [|apply reads_bytes]. apply Forall_app in Hbs as [? _]. by apply length_code_reads.
Qed.

Lemma read_accepted op it it' :
  iter_ok it → in_base 256 (buffer it) →
  (∀ n, fixed_size op = Some n → - 2 ^ 31 ≤ n < 2 ^ 63) →
  run_read op it = inr ((), it') →
  ∃ bs rest, p_ it = bs ++ rest ∧ accepts op bs ∧ it' = advance (size bs) it.
Proof.
  intros Hit Hb Hf Hr.
  assert (∀ n, fixed_size op = Some n → (∃ v, bytes_of_size n it = inr (v, it')) →
    (∀ bs, (∃ m, fixed_size op = Some m ∧ 0 ≤ m ∧ size bs = m) → accepts op bs) →
    ∃ bs rest, p_ it = bs ++ rest ∧ accepts op bs ∧ it' = advance (size bs) it) as Hfix.
  { intros n Hn (v & Hv) Hacc.
    destruct (bytes_of_size_inv n it v it' Hit (Hf n Hn) Hv) as (Hpos & rest & Hp & Hs & ->).
    exists v, rest. split; [done|]. split; [apply Hacc; by exists n|by rewrite Hs]. }
  assert (∀ n A (f : Blob → A), void (b ← bytes_of_size n; mret (f b)) it = inr ((), it') →
    ∃ v, bytes_of_size n it = inr (v, it')) as Hget.
  { intros n A f (a & Ha)%void_inr. unfold mbind, reader_bind, mret, reader_ret in Ha.
    destruct (bytes_of_size n it) as [|[v it1]]; simplify_eq. by exists v. }
  destruct op; simpl in Hr; try (eapply Hfix; [done| |done]).
  all: try (eapply Hget; exact Hr).
  all: try (by apply void_inr in Hr).
  - apply void_inr in Hr as ([t n] & Hr). destruct (getFieldID_inv it t n it' Hit Hb Hr) as (? & ? & rest & ? & ->).
    exists (field_code t n), rest. split; [done|]. split; [by exists t, n|done].
  - apply void_inr in Hr as (n & Hr). destruct (getVLDataLength_inv it n it' Hit Hb Hr) as (bs & rest & ? & -> & ? & ?).
    exists bs, rest. split; [done|]. split; [by exists n|done].
  - apply void_inr in Hr as (v & Hr). unfold getVL, mbind, reader_bind in Hr.
    destruct (getVLDataLength it) as [|[n it1]] eqn:En; [done|].
    destruct (getVLDataLength_inv it n it1 Hit Hb En) as (bs & rest & Hp & -> & Hn & Hc).
    assert (iter_ok (advance (size bs) it)) as Hit1.
    { apply advance_ok; [done|]. split; [unfold size; lia|by eapply reads_ok]. }
    assert (n < 2 ^ 63) as Hn'.
    { unfold length_code in Hc. destruct (Z.leb_spec n 918744); [lia|]. destruct Hc. lia. }
    destruct (bytes_of_size_inv n _ v it' Hit1 ltac:(lia) Hr) as (_ & rest' & Hp' & Hs & ->).
    rewrite (reads_rest it bs rest Hit Hp) in Hp'. subst rest.
    exists (bs ++ v), rest'. rewrite <- (assoc_L (++)). split; [done|]. split; [by exists n, bs, v|].
    rewrite advance_advance. unfold size in *. rewrite length_app. f_equal. lia.
Qed.

(** ** Reading at an offset

    The [get] functions of [Serializer] read what an iterator placed at the offset
    reads. *)
Definition iter_at (s : Blob) (offset : Z) : SerialIter := mkIter s offset (size s - offset).

Lemma iter_at_ok s o : 0 ≤ o ≤ size s → size s < 2 ^ 63 → iter_ok (iter_at s o).
Proof. intros Ho Hs. split; simpl; lia. Qed.

Lemma iter_at_advance s o n : advance n (iter_at s o) = iter_at s (o + n).
Proof. unfold advance, iter_at. simpl. f_equal. lia. Qed.

Lemma serial_iter_ok s : size s < 2 ^ 63 → iter_ok (serial_iter s).
Proof. intros Hs. split; simpl; unfold size in *; lia. Qed.

Section at_offset.
Context (s : Blob) (Hs : size s < 2 ^ 63).

Lemma get8_at_iter o :
  0 ≤ o ≤ size s →
  get8 (iter_at s o) =
    match get8_at s o with None => inl runtime_error | Some b => inr (b, iter_at s (o + 1)) end.
Proof.
  intros Ho. rewrite get8_spec by by apply iter_at_ok. unfold get8_at, p_. simpl.
  rewrite u64_small by lia. rewrite iter_at_advance. unfold size in *. zcases.
  - rewrite drop_ge by lia. done.
  - destruct (drop (Z.to_nat o) s) as [|b rest] eqn:Hd.
    { apply (f_equal length) in Hd. rewrite length_drop in Hd. simpl in Hd. lia. }
    f_equal. f_equal. symmetry. apply list_lookup_total_correct.
    rewrite <- (Nat.add_0_r (Z.to_nat o)), <- lookup_drop, Hd. done.
Qed.

Lemma getRaw_at_iter o n :
  0 ≤ o ≤ size s → 0 ≤ n < 2 ^ 62 →
  getRaw n (iter_at s o) =
    match getRaw_at s o n with None => inl runtime_error | Some v => inr (v, iter_at s (o + n)) end.
Proof.
  intros Ho Hn. unfold getRaw, getRaw_at. rewrite bytes_of_size_spec by (lia || by apply iter_at_ok).
  simpl. rewrite u64_small by lia. rewrite iter_at_advance. unfold p_. simpl.
  destruct (Z.ltb_spec (size s - o) n), (Z.ltb_spec (size s) (o + n)); (done || lia).
Qed.

Lemma get8_at_byte o b : in_base 256 s → get8_at s o = Some b → 0 ≤ b < 256.
Proof.
  intros Hb. unfold get8_at, u64, wrap, size. zcases; intros [= <-].
  pose proof (Z.mod_pos_bound o (2 ^ 64) ltac:(lia)) as Hr.
  destruct (decide (0 ≤ o < 2 ^ 64)) as [Ho|Ho].
  - rewrite Z.mod_small in * by lia. destruct (lookup_lt_is_Some_2 s (Z.to_nat o)) as [x Hx]; [lia|].
    rewrite (list_lookup_total_correct _ _ _ Hx). by eapply in_base_lookup.
  - destruct (s !! Z.to_nat o) as [x|] eqn:Hx.
    + rewrite (list_lookup_total_correct _ _ _ Hx). by eapply in_base_lookup.
    + rewrite list_lookup_total_alt, Hx. simpl. done.
Qed.
End at_offset.

Lemma getVL_at_iter s o :
  size s < 2 ^ 63 → in_base 256 s → 0 ≤ o ≤ size s →
  match getVL_at s o with
  | inr (Some (v, n)) => getVL (iter_at s o) = inr (v, iter_at s (o + n))
  | inr None => getVL (iter_at s o) = inl runtime_error
  | inl e => getVL (iter_at s o) = inl e ∧ get8_at s o = Some 255
  end.
Proof.
  intros Hs Hb Ho.
  assert (∀ o' b, 0 ≤ o' ≤ size s → get8_at s o' = Some b → o' + 1 ≤ size s) as Hnext.
  { intros o' b Ho'. unfold get8_at. rewrite u64_small by lia. zcases; [done|lia]. }
  assert (∀ o' n k, 0 ≤ o' ≤ size s → 0 ≤ n < 2 ^ 62 → o' = o + k →
    match (λ v, (v, o' - o + n)) <$> getRaw_at s o' n with
    | Some (v, m) => getRaw n (iter_at s o') = inr (v, iter_at s (o + m))
    | None => getRaw n (iter_at s o') = inl runtime_error
    end) as Hraw.
  { intros o' n k Ho' Hn ->. rewrite getRaw_at_iter by done. destruct (getRaw_at s (o + k) n); simpl; [|done].
    do 3 f_equal. lia. }
  unfold getVL_at, getVLLength, getVL, getVLDataLength, mbind, reader_bind.
  rewrite (get8_at_iter s Hs o Ho). destruct (get8_at s o) as [b1|] eqn:E1; [|done].
  pose proof (get8_at_byte s o b1 Hb E1) as Hb1. pose proof (Hnext _ _ Ho E1) as Ho1.
  unfold lift, decodeLengthLength. zcases; try lia; cbv beta iota zeta delta [Z.eqb Pos.eqb].
  - unfold decodeVLLength1. zcases; try lia. simpl. apply (Hraw _ _ 1); lia.
  - rewrite (get8_at_iter s Hs (o + 1)) by lia. destruct (get8_at s (o + 1)) as [b2|] eqn:E2; [|done].
    pose proof (get8_at_byte s _ b2 Hb E2) as Hb2. pose proof (Hnext (o + 1) _ ltac:(lia) E2) as Ho2.
    unfold decodeVLLength2. zcases; try lia. simpl. apply (Hraw _ _ 2); lia.
  - rewrite (get8_at_iter s Hs (o + 1)) by lia. destruct (get8_at s (o + 1)) as [b2|] eqn:E2; [|done].
    pose proof (get8_at_byte s _ b2 Hb E2) as Hb2. pose proof (Hnext (o + 1) _ ltac:(lia) E2) as Ho2.
    rewrite (get8_at_iter s Hs (o + 1 + 1)) by lia. destruct (get8_at s (o + 1 + 1)) as [b3|] eqn:E3; [|done].
    pose proof (get8_at_byte s _ b3 Hb E3) as Hb3. pose proof (Hnext (o + 1 + 1) _ ltac:(lia) E3) as Ho3.
    unfold decodeVLLength3. zcases; try lia. simpl.
    replace (o + 1 + 1 + 1) with (o + 1 + 2) by lia. apply (Hraw _ _ 3); lia.
  - split; [done|]. f_equal. lia.
Qed.

(** ** Claims *)

(** C38: What is written is read back.  A sequence of integers, identifiers, raw and
    variable-length blobs and field codes, written one after the other, is read
    back by the matching readers, which end at the end of the buffer; resetting
    the iterator puts it back at the start; and each value is read back at the
    offset its [add] function returned. *)
Theorem serializer_roundtrip fs :
  Forall field_ok fs →
  ∃ offsets s, write_all [] fs = inr (offsets, s) ∧ length offsets = length fs ∧
    (size s < 2 ^ 63 →
     (∃ it, read_all fs (serial_iter s) = inr (fs, it) ∧ empty it = true ∧
        reset it = serial_iter s) ∧
     ∀ i f o, fs !! i = Some f → offsets !! i = Some o →
       ∃ it, read f (iter_at s o) = inr (f, it)).
Proof.
  intros Hfs. destruct (write_all_reads fs Hfs []) as (offsets & s & E & Hl & Hr & Hat).
  simpl in *. exists offsets, s. split; [done|]. split; [done|]. intros Hs. split.
  - exists (advance (size s) (serial_iter s)). split; [|split].
    + apply (Hr _ []); [by apply serial_iter_ok|by rewrite app_nil_r].
    + unfold empty. simpl. apply Z.eqb_eq. lia.
    + unfold reset, serial_iter. simpl. f_equal. lia.
  - intros i f o Hi Ho. destruct (Hat i f o Hi Ho) as (Hb & b & rest & Hd & Hf).
    eexists. eapply Hf; [apply iter_at_ok; [exact Hb|done]|exact Hd].
Qed.

(** C39: Reading is exact and stays inside.  On any bytes, a read succeeds exactly
    when the unread bytes start with a code it accepts - enough bytes, a field
    code [addFieldID] writes, a length code and as many bytes - and then advances
    by exactly that code; otherwise it throws. *)
Theorem serialiter_reads_exact op it :
  iter_ok it → in_base 256 (buffer it) →
  (∀ n, fixed_size op = Some n → - 2 ^ 31 ≤ n < 2 ^ 63) →
  match run_read op it with
  | inr (_, it') => ∃ bs rest, p_ it = bs ++ rest ∧ accepts op bs ∧
      it' = advance (size bs) it ∧ iter_ok it' ∧ p_ it' = rest
  | inl _ => ∀ bs rest, p_ it = bs ++ rest → ¬ accepts op bs
  end.
Proof.
  intros Hit Hb Hf. destruct (run_read op it) as [e|[[] it']] eqn:Hr.
  - intros bs rest Hp Ha. by rewrite (accepted_read op it bs rest Hit Hb Ha Hp) in Hr.
  - destruct (read_accepted op it it' Hit Hb Hf Hr) as (bs & rest & Hp & Ha & ->).
    exists bs, rest. split_and!; try done; [|by apply reads_rest].
    apply advance_ok; [done|]. split; [unfold size; lia|by eapply reads_ok].
Qed.

(** [getVL] of [Serializer] answers false where the reading fails, except on a first
    byte of 255: [decodeLengthLength] throws before the [try]. *)
Theorem getVL_at_throws : getVL_at [255; 1; 2] 0 = inl serial_overflow.
Proof. reflexivity. Qed.

Definition sample_fields : list Field :=
  [FCode 1 2; F16 0x1234; FCode 20 5; F64 0xFEDCBA9876543210; FCode 7 200; FVL (replicate 300 7);
   FCode 17 19; FBits [1; 2; 3; 4]; F8 255; F32 0xDEADBEEF; FRaw []].

Lemma serializer_roundtrip_witness :
  ∃ offsets s, write_all [] sample_fields = inr (offsets, s) ∧ offsets !! 5%nat = Some 15 ∧
    ∃ it, read (FVL []) (iter_at s 15) = inr (FVL (replicate 300 7), it).
Proof.
  destruct (serializer_roundtrip sample_fields) as (offsets & s & E & _ & H).
  { repeat constructor; by vm_compute. }
  exists offsets, s. split; [done|]. vm_compute in E. injection E as <- <-.
  split; [reflexivity|]. exact (proj2 (H eq_refl) 5%nat (FVL (replicate 300 7)) 15 eq_refl eq_refl).
Defined.

Lemma serialiter_reads_exact_witness :
  (∀ bs rest, [0x10; 3] = bs ++ rest → ¬ accepts GetFieldID bs) ∧
  run_read GetFieldID (serial_iter [0x10; 3]) = inl runtime_error.
Proof.
  split; [|reflexivity].
  apply (serialiter_reads_exact GetFieldID (serial_iter [0x10; 3])).
  - by apply serial_iter_ok.
  - repeat constructor; lia.
  - done.
Defined.
