(* ===== verification/Varint.v ===== *)
(** * Variable-length integers of the node store

    src/src/ripple/nodestore/impl/varint.h: numbers in base 127, least
    significant digit first, the high bit of a byte saying that another follows.

    A buffer is the list of its bytes; reading past its end is [None].  The
    loops of the source divide a 64-bit number by 127 until it is zero, so that
    64 rounds are more than they take. *)

From stdpp Require Import prelude list.
From Stdlib Require Import ZArith Lia.
From S2P Require Import Prelude.

(** [varint_traits<std::size_t>::max] *)
Definition varint_max : Z := (8 * 8 + 6) / 7.

(** The scan for the last byte: [Some None] is [return 0] at the end of the
    buffer, [Some (Some n)] the index of the first byte without the high bit. *)
Fixpoint scan (p : list Z) (n : nat) : option (option nat) :=
  match p with
  | [] => None
  | b :: p' =>
    if negb (Z.land b 128 =? 0) then
      match p' with [] => Some None | _ => scan p' (S n) end
    else Some (Some n)
  end.

(** The digits from the most significant; [false] when the check for overflow
    fails. *)
Fixpoint decode (ds : list Z) (t : Z) : bool * Z :=
  match ds with
  | [] => (true, t)
  | d :: ds =>
    let t0 := t in
    let t := u64 (u64 (t * 127) + Z.land d 127) in
    if t <=? t0 then (false, t) else decode ds t
  end.

(** The number of bytes used, 0 for an error, and the value. *)
Definition read_varint (buf : list Z) : option (Z * Z) :=
  match scan buf 0 with
  | None => None
  | Some None => Some (0, 0)
  | Some (Some i) =>
    let n := S i in
    if (length buf <? n)%nat then Some (0, 0)
    else if (n =? 1)%nat && (buf !!! 0%nat =? 0) then Some (1, 0)
    else
      let '(ok, t) := decode (reverse (take n buf)) 0 in
      Some (if ok then Z.of_nat n else 0, t)
  end.

Fixpoint size_loop (fuel : nat) (v n : Z) : Z :=
  match fuel with
  | O => n
  | S fuel =>
    let v := v / 127 in
    let n := n + 1 in
    if negb (v =? 0) then size_loop fuel v n else n
  end.
Definition size_varint (v : Z) : Z := size_loop 64 v 0.

Fixpoint write_loop (fuel : nat) (v : Z) : list Z :=
  match fuel with
  | O => []
  | S fuel =>
    let d := v mod 127 in
    let v := v / 127 in
    if negb (v =? 0) then Z.lor d 128 :: write_loop fuel v else [d]
  end.
Definition write_varint (v : Z) : list Z := write_loop 64 v.

(** ** Theorems *)

Lemma land_digit d : 0 ≤ d < 128 → Z.land d 127 = d ∧ Z.land d 128 = 0.
Proof.
  intros Hd. split.
  - change 127 with (Z.ones 7). rewrite Z.land_ones by lia. by apply Z.mod_small.
  - apply Z.bits_inj'. intros i Hi. rewrite Z.land_spec, Z.bits_0. change 128 with (2 ^ 7).
    rewrite Z.pow2_bits_eqb by lia. destruct (Z.eqb_spec 7 i) as [<-|]; [|apply andb_false_r].
    replace (Z.testbit d 7) with false; [done|]. symmetry.
    apply Z.testbit_false; [lia|]. by rewrite Z.div_small.
Qed.

Lemma land_marked d : 0 ≤ d < 128 → Z.land (Z.lor d 128) 127 = d ∧ Z.land (Z.lor d 128) 128 = 128.
Proof.
  intros Hd. destruct (land_digit d Hd) as [H1 H2].
  split; rewrite Z.land_lor_distr_l; [rewrite H1|rewrite H2]; [|done].
  change (Z.land 128 127) with 0. apply Z.lor_0_r.
Qed.

Lemma foldl_reverse (f : Z → Z → Z) a ds : foldl f a (reverse ds) = foldr (λ x t, f t x) a ds.
Proof. induction ds as [|d ds IH]; [done|]. rewrite reverse_cons, foldl_app. simpl. by rewrite IH. Qed.

(** What the bytes written by [write_loop] look like. *)
Lemma write_loop_shape fuel : ∀ v,
  0 ≤ v < 2 ^ Z.of_nat fuel → (0 < fuel)%nat →
  ∃ ds d, write_loop fuel v = map (λ x, Z.lor x 128) ds ++ [d] ∧
    Forall (λ x, 0 ≤ x < 127) ds ∧ 0 ≤ d < 127 ∧ (d = 0 → ds = [] ∧ v = 0) ∧
    foldr (λ x t, t * 127 + x) 0 (ds ++ [d]) = v ∧
    127 ^ Z.of_nat (length ds) ≤ Z.max v 1 ∧
    ∀ n, size_loop fuel v n = n + Z.of_nat (length ds) + 1.
Proof.
  induction fuel as [|fuel IH]; intros v Hv Hf; [lia|].
  pose proof (Z.div_mod v 127 ltac:(lia)) as Hdm. pose proof (Z.mod_pos_bound v 127 ltac:(lia)) as Hb.
  cbn [write_loop size_loop]. destruct (Z.eqb_spec (v / 127) 0) as [H0|H0]; simpl negb; cbv iota.
  - exists [], (v mod 127). split_and!; [done|constructor|lia|lia|intros ?; split; [done|lia]|simpl; lia| |].
    + simpl. lia.
    + intros n. simpl. lia.
  - assert (0 ≤ v / 127) by (apply Z.div_pos; lia).
    rewrite Nat2Z.inj_succ, Z.pow_succ_r in Hv by lia.
    assert (fuel ≠ 0%nat) by (intros ->; simpl in Hv; lia).
    destruct (IH (v / 127)) as (ds & d & E & Hds & Hd & Hz & Hn & Hp & Hs); [|lia|].
    { split; [done|]. apply Z.div_lt_upper_bound; lia. }
    exists (v mod 127 :: ds), d. rewrite E. split_and!; [done|by constructor|lia|lia| | | |].
    + intros Hd0. destruct (Hz Hd0). lia.
    + cbn [app foldr]. rewrite Hn. lia.
    + cbn [length]. rewrite Nat2Z.inj_succ, Z.pow_succ_r by lia. lia.
    + intros n. rewrite Hs. cbn [length]. lia.
Qed.

Lemma scan_marked ds d rest : ∀ n,
  Forall (λ x, 0 ≤ x < 127) ds → 0 ≤ d < 127 →
  scan (map (λ x, Z.lor x 128) ds ++ d :: rest) n = Some (Some (n + length ds)%nat).
Proof.
  induction ds as [|x ds IH]; intros n Hds Hd; simpl.
  - rewrite (proj2 (land_digit d ltac:(lia))). simpl. by rewrite Nat.add_0_r.
  - apply Forall_cons in Hds as [Hx Hds]. rewrite (proj2 (land_marked x ltac:(lia))). simpl.
    rewrite IH by done. destruct (map _ ds ++ d :: rest) eqn:E; [by destruct ds|]. f_equal. f_equal. lia.
Qed.

(** Decoding the digits [es], from the most significant, of a number that fits. *)
Lemma decode_marked es : ∀ t,
  Forall (λ x, 0 ≤ x < 127) es → 0 < t → foldl (λ t x, t * 127 + x) t es < 2 ^ 64 →
  decode (map (λ x, Z.lor x 128) es) t = (true, foldl (λ t x, t * 127 + x) t es).
Proof.
  induction es as [|x es IH]; intros t Hes Ht Hlt; [done|]. cbn [map decode foldl] in *.
  apply Forall_cons in Hes as [Hx Hes]. rewrite (proj1 (land_marked x ltac:(lia))).
  assert (t * 127 + x ≤ foldl (λ t x, t * 127 + x) (t * 127 + x) es) as Hle.
  { assert (0 ≤ t * 127 + x) as H0 by lia. clear - Hes H0. revert H0. generalize (t * 127 + x).
    induction Hes as [|y es Hy Hes IH]; intros a Ha; simpl; [lia|]. specialize (IH (a * 127 + y)). lia. }
  rewrite (u64_small (t * 127)), u64_small by lia.
  destruct (Z.leb_spec (t * 127 + x) t); [lia|]. apply IH; [done|lia|done].
Qed.

Lemma read_written v rest :
  0 ≤ v < 2 ^ 64 →
  read_varint (write_varint v ++ rest) = Some (size_varint v, v) ∧
  Z.of_nat (length (write_varint v)) = size_varint v ∧ 1 ≤ size_varint v ≤ varint_max.
Proof.
  intros Hv. destruct (write_loop_shape 64 v Hv) as (ds & d & E & Hds & Hd & Hz & Hn & Hp & Hs); [lia|].
  unfold write_varint, size_varint. rewrite E, (Hs 0). split_and!.
  - unfold read_varint. rewrite <- (assoc_L (++)). cbn [app].
    rewrite scan_marked by done. cbn [Nat.add].
    rewrite length_app, length_map. cbn [length].
    rewrite (proj2 (Nat.ltb_ge _ _)) by lia.
    destruct ds as [|x ds].
    + cbn [map app length Nat.eqb andb]. cbn [foldr app] in Hn.
      change ((d :: rest) !!! 0%nat) with d. destruct (Z.eqb_spec d 0) as [->|Hd0].
      * destruct (Hz eq_refl) as [_ ->]. done.
      * replace (reverse (take 1 (d :: rest))) with [d] by done. cbn [decode]. rewrite (proj1 (land_digit d ltac:(lia))).
        rewrite (u64_small (0 * 127)), u64_small by lia. destruct (Z.leb_spec (0 * 127 + d) 0); [lia|].
        simpl. do 2 f_equal. lia.
    + replace (S (length (x :: ds)) =? 1)%nat with false by done. cbn [andb].
      replace (take (S (length (x :: ds))) (map (λ x, Z.lor x 128) (x :: ds) ++ d :: rest))
        with (map (λ x, Z.lor x 128) (x :: ds) ++ [d]).
      2: { rewrite take_app, length_map. rewrite firstn_all2 by (rewrite length_map; lia).
           replace (S (length (x :: ds)) - length (x :: ds))%nat with 1%nat by lia. done. }
      rewrite reverse_snoc. cbn [decode]. rewrite (proj1 (land_digit d ltac:(lia))).
      rewrite (u64_small (0 * 127)), u64_small by lia.
      destruct (Z.leb_spec (0 * 127 + d) 0) as [Hle|Hgt].
      { destruct (Hz ltac:(lia)) as [? _]. done. }
      rewrite <- fmap_reverse.
      assert (foldl (λ t x, t * 127 + x) (0 * 127 + d) (reverse (x :: ds)) = v) as Hf.
      { rewrite <- Hn, foldr_app. cbn [foldr]. apply foldl_reverse. }
      rewrite decode_marked; [|by apply Forall_reverse|lia|rewrite Hf; lia]. rewrite Hf. do 2 f_equal. lia.
  - rewrite length_app, length_map. simpl. lia.
  - lia.
  - change varint_max with 10.
    assert (Z.of_nat (length ds) < 10); [|lia].
    apply Z.nle_gt. intros Hge.
    assert (127 ^ 10 ≤ 127 ^ Z.of_nat (length ds)) by (apply Z.pow_le_mono_r; lia). lia.
Qed.

Lemma scan_all_marked ds : ∀ n, Forall (λ x, 0 ≤ x < 127) ds → ds ≠ [] →
  scan (map (λ x, Z.lor x 128) ds) n = Some None.
Proof.
  induction ds as [|x ds IH]; intros n Hds Hne; [done|]. apply Forall_cons in Hds as [Hx Hds].
  simpl. rewrite (proj2 (land_marked x ltac:(lia))). simpl. destruct ds as [|y ds]; [done|].
  cbn [map] in *. by apply IH.
Qed.

Lemma read_truncated v n :
  0 ≤ v < 2 ^ 64 → (0 < n)%nat → Z.of_nat n < size_varint v →
  read_varint (take n (write_varint v)) = Some (0, 0).
Proof.
  intros Hv Hn Hlt. destruct (write_loop_shape 64 v Hv) as (ds & d & E & Hds & _ & _ & _ & _ & Hs); [lia|].
  unfold write_varint, size_varint in *. rewrite E. rewrite (Hs 0) in Hlt.
  rewrite take_app_le by (rewrite length_map; lia). rewrite <- fmap_take.
  unfold read_varint. rewrite scan_all_marked; [done|by apply Forall_take|].
  destruct ds as [|x ds]; [simpl in Hlt; lia|]. by destruct n; [lia|].
Qed.

(** Variable-length integers.  For every 64-bit number, [write_varint]
    writes as many bytes as [size_varint] says, between 1 and the maximum of
    [varint_traits]; [read_varint] reads the number back from them whatever
    follows in the buffer, telling how many bytes it used; and it rejects, with 0
    bytes used and without reading past the end, every non-empty buffer that
    holds only the beginning of them. *)
Theorem varint_roundtrip v rest n :
  0 ≤ v < 2 ^ 64 →
  read_varint (write_varint v ++ rest) = Some (size_varint v, v) ∧
  Z.of_nat (length (write_varint v)) = size_varint v ∧ 1 ≤ size_varint v ≤ varint_max ∧
  ((0 < n)%nat → Z.of_nat n < size_varint v → read_varint (take n (write_varint v)) = Some (0, 0)).
Proof.
  intros Hv. destruct (read_written v rest Hv) as (H1 & H2 & H3).
  split_and!; [done|done|apply H3|apply H3|]. intros. by apply read_truncated.
Qed.

Lemma varint_roundtrip_witness :
  read_varint (write_varint 1000000 ++ [9]) = Some (3, 1000000) ∧
  read_varint (take 2 (write_varint 1000000)) = Some (0, 0).
Proof.
  destruct (varint_roundtrip 1000000 [9] 2 ltac:(lia)) as (H1 & _ & _ & H2). split.
  - rewrite H1. by vm_compute.
  - apply H2; [lia|by vm_compute].
Defined.

(** Overflow of variable-length integers.  [read_varint] takes a value that
    does not grow for an overflow, which a 64-bit product that wraps around need
    not show: it accepts all ten bytes of an encoding of a number above 2^65 and
    returns the number less 2^65. *)
Theorem varint_overflow_accepted :
  let n := 127 * 300000000000000000 in
  2 ^ 65 < n ∧ read_varint (write_loop 64 n) = Some (10, n - 2 ^ 65).
Proof. cbv zeta. split; [lia|by vm_compute]. Qed.
