(* ===== verification/IOUAmount.v ===== *)
(** * Amounts of issued currencies

    src/src/ripple/protocol/IOUAmount.h and protocol/impl/IOUAmount.cpp: decimal
    floating-point numbers with a 16-digit mantissa.

    An exception is a value of [result].  The mantissa is a [std::int64_t]; the
    only operation of this file that can leave its range is the negation of the
    least 64-bit integer, which the theorems exclude.  The loops of [normalize]
    multiply or divide a 64-bit mantissa by ten: 20 rounds are more than they
    take. *)

From stdpp Require Import prelude.
From Stdlib Require Import ZArith Lia.
From S2P Require Import Prelude.

Inductive exn := overflow_error | division_by_zero.

Inductive result (A : Type) :=
| Ok (a : A)
| Throw (e : exn).
Arguments Ok {A} a.
Arguments Throw {A} e.

Record IOUAmount := mkIOU { mantissa_ : Z; exponent_ : Z }.

#[export] Instance IOUAmount_eq_dec : EqDecision IOUAmount.
Proof. solve_decision. Defined.

Definition minMantissa : Z := 1000000000000000.
Definition maxMantissa : Z := 9999999999999999.
Definition minExponent : Z := -96.
Definition maxExponent : Z := 80.

(** [operator= (beast::Zero)] *)
Definition iou_zero : IOUAmount := mkIOU 0 (-100).

(** [operator==] *)
Definition iou_eqb (x y : IOUAmount) : bool :=
  (exponent_ x =? exponent_ y) && (mantissa_ x =? mantissa_ y).

Definition nonzero (x : IOUAmount) : bool := negb (mantissa_ x =? 0).
Definition iou_signum (x : IOUAmount) : Z :=
  if mantissa_ x <? 0 then -1 else if nonzero x then 1 else 0.

(** ** Normalization *)

(** [while ((mantissa_ < minMantissa) && (exponent_ > minExponent))] *)
Fixpoint scale_up (fuel : nat) (m e : Z) : Z * Z :=
  match fuel with
  | O => (m, e)
  | S fuel =>
    if (m <? minMantissa) && (minExponent <? e) then scale_up fuel (m * 10) (e - 1) else (m, e)
  end.

(** [while (mantissa_ > maxMantissa)] *)
Fixpoint scale_down (fuel : nat) (m e : Z) : result (Z * Z) :=
  match fuel with
  | O => Ok (m, e)
  | S fuel =>
    if maxMantissa <? m then
      if maxExponent <=? e then Throw overflow_error
      else scale_down fuel (Z.quot m 10) (e + 1)
    else Ok (m, e)
  end.

Definition normalize (x : IOUAmount) : result IOUAmount :=
  if mantissa_ x =? 0 then Ok iou_zero
  else
    let negative := mantissa_ x <? 0 in
    let m := if negative then - mantissa_ x else mantissa_ x in
    let '(m, e) := scale_up 20 m (exponent_ x) in
    match scale_down 20 m e with
    | Throw err => Throw err
    | Ok (m, e) =>
      if (e <? minExponent) || (m <? minMantissa) then Ok iou_zero
      else if maxExponent <? e then Throw overflow_error
      else Ok (mkIOU (if negative then - m else m) e)
    end.

(** [IOUAmount (mantissa, exponent)] *)
Definition iou (m e : Z) : result IOUAmount := normalize (mkIOU m e).

(** ** Arithmetic *)

(** [n] rounds of [m /= 10]. *)
Definition shift_right (n : Z) (m : Z) : Z := Nat.iter (Z.to_nat n) (λ m, Z.quot m 10) m.

Definition iou_add (x y : IOUAmount) : result IOUAmount :=
  if iou_eqb y iou_zero then Ok x
  else if iou_eqb x iou_zero then Ok y
  else
    let mx := shift_right (exponent_ y - exponent_ x) (mantissa_ x) in
    let ex := Z.max (exponent_ x) (exponent_ y) in
    let my := shift_right (ex - exponent_ y) (mantissa_ y) in
    let m := mx + my in
    if (-10 <=? m) && (m <=? 10) then Ok iou_zero
    else normalize (mkIOU m ex).

Definition iou_neg (x : IOUAmount) : result IOUAmount := iou (- mantissa_ x) (exponent_ x).

Definition iou_sub (x y : IOUAmount) : result IOUAmount :=
  match iou_neg y with Throw e => Throw e | Ok y => iou_add x y end.

Definition iou_lt (x y : IOUAmount) : bool :=
  let lneg := mantissa_ x <? 0 in
  let rneg := mantissa_ y <? 0 in
  if negb (eqb lneg rneg) then lneg
  else if mantissa_ x =? 0 then 0 <? mantissa_ y
  else if mantissa_ y =? 0 then false
  else if exponent_ y <? exponent_ x then lneg
  else if exponent_ x <? exponent_ y then negb lneg
  else mantissa_ x <? mantissa_ y.

(** ** Ratios

    [boost::multiprecision::uint128_t] is a 128-bit unsigned integer. *)
Definition u128 (z : Z) : Z := wrap 128 z.

(** The powers of ten below 10^30. *)
Definition powerTable : list Z := map (λ i : nat, 10 ^ Z.of_nat i) (seq 0 30).

(** [std::lower_bound]: the index of the first power that is not less. *)
Fixpoint lower_bound (t : list Z) (v : Z) : Z :=
  match t with
  | p :: t => if p <? v then 1 + lower_bound t v else 0
  | [] => 0
  end.

Definition log10Floor (v : Z) : Z :=
  let index := lower_bound powerTable v in
  if negb (powerTable !!! Z.to_nat index =? v) then index - 1 else index.
Definition log10Ceil (v : Z) : Z := lower_bound powerTable v.
Definition fl64 : Z := log10Floor (2 ^ 63 - 1).

Definition mulRatio (amt : IOUAmount) (num den : Z) (roundUp : bool) : result IOUAmount :=
  if den =? 0 then Throw division_by_zero
  else
    let neg := mantissa_ amt <? 0 in
    let mul := u128 ((if neg then - mantissa_ amt else mantissa_ amt) * num) in
    let low := mul / den in
    let rem := u128 (mul - low * den) in
    let exponent := exponent_ amt in
    let '(exponent, low, rem) :=
      if negb (rem =? 0) then
        let roomToGrow := fl64 - log10Ceil low in
        let '(exponent, low, rem) :=
          if 0 <? roomToGrow then
            (exponent - roomToGrow, u128 (low * (powerTable !!! Z.to_nat roomToGrow)),
             u128 (rem * (powerTable !!! Z.to_nat roomToGrow)))
          else (exponent, low, rem) in
        let addRem := rem / den in
        (exponent, u128 (low + addRem), u128 (rem - addRem * den))
      else (exponent, low, rem) in
    let hasRem := negb (rem =? 0) in
    let mustShrink := log10Ceil low - fl64 in
    let '(exponent, low, hasRem) :=
      if 0 <? mustShrink then
        let sav := low in
        let low := low / (powerTable !!! Z.to_nat mustShrink) in
        (exponent + mustShrink, low,
         if negb hasRem then negb (u128 (sav - low * (powerTable !!! Z.to_nat mustShrink)) =? 0)
         else hasRem)
      else (exponent, low, hasRem) in
    let mantissa := if neg then low * -1 else low in
    match iou mantissa exponent with
    | Throw e => Throw e
    | Ok res =>
      if (hasRem : bool) then
        if roundUp && negb neg then
          if negb (nonzero res) then iou minMantissa minExponent
          else iou (mantissa_ res + 1) (exponent_ res)
        else if negb roundUp && neg then
          if negb (nonzero res) then iou (- minMantissa) minExponent
          else iou (mantissa_ res - 1) (exponent_ res)
        else Ok res
      else Ok res
    end.
