(* ===== verification/IOUTheorems.v ===== *)
(** * Amounts of issued currencies: theorems

    An amount is canonical when it is zero or has a 16-digit mantissa and an
    exponent in range.  [scaled] is its value times 10^100, an integer. *)

From stdpp Require Import prelude.
From Stdlib Require Import ZArith Lia.
From S2P Require Import Prelude.
From S2P Require Import IOUAmount.

Definition canonical (x : IOUAmount) : Prop :=
  x = iou_zero ∨
  (minMantissa ≤ Z.abs (mantissa_ x) ≤ maxMantissa ∧ minExponent ≤ exponent_ x ≤ maxExponent).

Definition scaled (x : IOUAmount) : Z := mantissa_ x * 10 ^ (exponent_ x + 100).

(** [m] has [q + 1] digits. *)
Definition digits (q m : Z) : Prop := 0 ≤ q ∧ 10 ^ q ≤ m < 10 ^ (q + 1).

Lemma pow10_pos k : 0 ≤ k → 0 < 10 ^ k.
Proof. intros. apply Z.pow_pos_nonneg; lia. Qed.

Lemma pow10_le a b : a ≤ b → 10 ^ a ≤ 10 ^ b.
Proof. intros. apply Z.pow_le_mono_r; lia. Qed.

Lemma pow10_S k : 0 ≤ k → 10 ^ (k + 1) = 10 * 10 ^ k.
Proof. intros. rewrite Z.pow_add_r by lia. lia. Qed.

Lemma digits_lt q m n : digits q m → 0 ≤ n → (m < 10 ^ n ↔ q < n).
Proof.
  intros (Hq & Hm1 & Hm2) Hn. split; intros H.
  - apply Z.nle_gt. intros Hle. pose proof (pow10_le n q Hle). lia.
  - pose proof (pow10_le (q + 1) n ltac:(lia)). lia.
Qed.

Lemma digits_mul q m k : digits q m → 0 ≤ k → digits (q + k) (m * 10 ^ k).
Proof.
  intros (Hq & Hm1 & Hm2) Hk. pose proof (pow10_pos k Hk).
  unfold digits. replace (q + k + 1) with ((q + 1) + k) by lia.
  split; [lia|]. rewrite (Z.pow_add_r 10 q k), (Z.pow_add_r 10 (q + 1) k) by lia. nia.
Qed.

Lemma digits_div q m k : digits q m → 0 ≤ k ≤ q → digits (q - k) (m / 10 ^ k).
Proof.
  intros (Hq & Hm1 & Hm2) Hk. pose proof (pow10_pos k ltac:(lia)). split; [lia|]. split.
  - apply Z.div_le_lower_bound; [done|]. rewrite <- Z.pow_add_r by lia.
    by replace (k + (q - k)) with q by lia.
  - apply Z.div_lt_upper_bound; [done|]. rewrite <- Z.pow_add_r by lia.
    by replace (k + (q - k + 1)) with (q + 1) by lia.
Qed.

(** Every positive number has a number of digits. *)
Lemma digits_exist m : 0 < m → ∃ q, digits q m.
Proof.
  intros Hm. assert (∀ n : nat, m < 10 ^ Z.of_nat n → ∃ q, digits q m) as H.
  { induction n as [|n IH]; intros Hn; [simpl in Hn; lia|].
    destruct (Z.lt_ge_cases m (10 ^ Z.of_nat n)); [auto|]. exists (Z.of_nat n).
    split; [lia|]. replace (Z.of_nat n + 1) with (Z.of_nat (S n)) by lia. lia. }
  apply (H (Z.to_nat m)). rewrite Z2Nat.id by lia. apply Z.pow_gt_lin_r; lia.
Qed.

(** ** Normalization *)
Lemma minMantissa_digits q m : digits q m → (m <? minMantissa) = (q <? 15).
Proof.
  intros Hd. pose proof (digits_lt q m 15 Hd ltac:(lia)). change (10 ^ 15) with minMantissa in *.
  destruct (Z.ltb_spec m minMantissa), (Z.ltb_spec q 15); try done; lia.
Qed.

Lemma maxMantissa_digits q m : digits q m → (maxMantissa <? m) = (15 <? q).
Proof.
  intros Hd. pose proof (digits_lt q m 16 Hd ltac:(lia)). change (10 ^ 16) with (maxMantissa + 1) in *.
  destruct (Z.ltb_spec maxMantissa m), (Z.ltb_spec 15 q); try done; lia.
Qed.

Lemma scale_up_spec fuel : ∀ m e q,
  digits q m → 15 - q < Z.of_nat fuel →
  let k := Z.max 0 (Z.min (15 - q) (e + 96)) in
  scale_up fuel m e = (m * 10 ^ k, e - k).
Proof.
  induction fuel as [|fuel IH]; intros m e q Hd Hf k; cbn [scale_up].
  { replace k with 0 by lia. f_equal; [simpl|]; lia. }
  rewrite (minMantissa_digits q m Hd). unfold minExponent.
  destruct (Z.ltb_spec q 15), (Z.ltb_spec (-96) e); cbn [andb];
    try (replace k with 0 by lia; f_equal; simpl; lia).
  pose proof (digits_mul q m 1 Hd ltac:(lia)) as Hd'. change (10 ^ 1) with 10 in Hd'.
  rewrite (IH _ _ _ Hd') by lia.
  replace (Z.max 0 (Z.min (15 - (q + 1)) (e - 1 + 96))) with (k - 1) by lia.
  replace (10 ^ k) with (10 * 10 ^ (k - 1)); [f_equal; lia|].
  rewrite <- pow10_S by lia. f_equal. lia.
Qed.

Lemma scale_down_spec fuel : ∀ m e q,
  digits q m → q - 15 < Z.of_nat fuel →
  let k := Z.max 0 (q - 15) in
  scale_down fuel m e =
  if (0 <? k) && (80 <? e + k) then Throw overflow_error else Ok (m / 10 ^ k, e + k).
Proof.
  induction fuel as [|fuel IH]; intros m e q Hd Hf k; cbn [scale_down].
  { replace k with 0 by lia. simpl. rewrite Z.div_1_r. do 2 f_equal. lia. }
  rewrite (maxMantissa_digits q m Hd). unfold maxExponent.
  destruct (Z.ltb_spec 15 q).
  2: { replace k with 0 by lia. simpl. rewrite Z.div_1_r. do 2 f_equal. lia. }
  replace (0 <? k) with true by lia. cbn [andb].
  destruct (Z.leb_spec 80 e); [by replace (80 <? e + k) with true by lia|].
  pose proof (digits_div q m 1 Hd ltac:(lia)) as Hd'. change (10 ^ 1) with 10 in Hd'.
  assert (0 < m) by (destruct Hd as (? & ? & _); pose proof (pow10_pos q ltac:(lia)); lia).
  rewrite Z.quot_div_nonneg by lia. rewrite (IH _ _ _ Hd') by lia.
  replace (Z.max 0 (q - 1 - 15)) with (k - 1) by lia.
  replace (e + 1 + (k - 1)) with (e + k) by lia.
  replace (m / 10 / 10 ^ (k - 1)) with (m / 10 ^ k).
  2: { rewrite Z.div_div by (try lia; apply pow10_pos; lia). f_equal.
       rewrite <- pow10_S by lia. f_equal. lia. }
  destruct (Z.ltb_spec 80 (e + k)), (Z.ltb_spec 0 (k - 1)); cbn [andb]; try done; lia.
Qed.

(** The magnitude that [normalize] leaves, for a mantissa of [q + 1] digits. *)
Definition norm_mantissa (q a : Z) : Z := if q <=? 15 then a * 10 ^ (15 - q) else a / 10 ^ (q - 15).

Lemma norm_mantissa_digits q a : digits q a → digits 15 (norm_mantissa q a).
Proof.
  intros Hd. unfold norm_mantissa. destruct (Z.leb_spec q 15).
  - replace 15 with (q + (15 - q)) at 1 by lia. apply digits_mul; [done|lia].
  - replace 15 with (q - (q - 15)) at 1 by lia. apply digits_div; [done|]. lia.
Qed.

Lemma normalize_digits m e q :
  digits q (Z.abs m) → Z.abs m < 2 ^ 64 →
  normalize (mkIOU m e) =
  if q + e <? -81 then Ok iou_zero
  else if 95 <? q + e then Throw overflow_error
  else Ok (mkIOU (Z.sgn m * norm_mantissa q (Z.abs m)) (q + e - 15)).
Proof.
  intros Hd Hb. unfold normalize. cbn [mantissa_ exponent_].
  assert (q < 20) as Hq.
  { pose proof (digits_lt q (Z.abs m) 20 Hd ltac:(lia)). lia. }
  assert (0 < Z.abs m) as Hpos.
  { destruct Hd as (? & ? & _). pose proof (pow10_pos q ltac:(lia)). lia. }
  destruct (Z.eqb_spec m 0) as [|Hne]; [lia|].
  replace (if m <? 0 then - m else m) with (Z.abs m) by (destruct (Z.ltb_spec m 0); lia).
  pose proof (proj1 Hd) as Hq0.
  rewrite (scale_up_spec 20 (Z.abs m) e q Hd) by lia.
  set (k := Z.max 0 (Z.min (15 - q) (e + 96))).
  pose proof (digits_mul q (Z.abs m) k Hd ltac:(lia)) as Hd1.
  rewrite (scale_down_spec 20 _ _ _ Hd1) by lia. set (j := Z.max 0 (q + k - 15)).
  assert (∀ r, (if m <? 0 then - r else r) = Z.sgn m * r) as Hs.
  { intros r. destruct (Z.ltb_spec m 0); [rewrite Z.sgn_neg|rewrite Z.sgn_pos]; lia. }
  pose proof (digits_div (q + k) _ j Hd1 ltac:(lia)) as Hd2.
  destruct ((0 <? j) && (80 <? e - k + j)) eqn:Eo.
  { replace (q + e <? -81) with false by lia. by replace (95 <? q + e) with true by lia. }
  rewrite (minMantissa_digits _ _ Hd2). unfold minExponent, maxExponent.
  destruct (Z.ltb_spec (q + e) (-81)).
  { by replace ((e - k + j <? -96) || (q + k - j <? 15)) with true by lia. }
  replace ((e - k + j <? -96) || (q + k - j <? 15)) with false by lia.
  destruct (Z.ltb_spec 95 (q + e)).
  { by replace (80 <? e - k + j) with true by lia. }
  replace (80 <? e - k + j) with false by lia. rewrite Hs. do 2 f_equal; [|lia].
  f_equal. unfold norm_mantissa. destruct (Z.leb_spec q 15).
  - replace j with 0 by lia. replace k with (15 - q) by lia. apply Z.div_1_r.
  - replace k with 0 by lia. replace j with (q - 15) by lia. by rewrite Z.mul_1_r.
Qed.

(** C34: Normalization.  For a 64-bit mantissa of [q + 1] digits, [normalize]
    throws exactly when the value is at least 10^96, gives zero exactly when its
    magnitude is below 10^-81, and otherwise gives the canonical amount with the
    sign and the first 16 digits of the mantissa. *)
Theorem normalize_exact m e q :
  digits q (Z.abs m) → Z.abs m < 2 ^ 63 →
  (95 < q + e → iou m e = Throw overflow_error) ∧
  (q + e < -81 → iou m e = Ok iou_zero) ∧
  (-81 ≤ q + e ≤ 95 → ∃ x,
     iou m e = Ok x ∧ canonical x ∧ exponent_ x = q + e - 15 ∧
     mantissa_ x = Z.sgn m * (if q <=? 15 then Z.abs m * 10 ^ (15 - q) else Z.abs m / 10 ^ (q - 15))).
Proof.
  intros Hd Hb. unfold iou. rewrite (normalize_digits m e q Hd ltac:(lia)). split_and!; intros H.
  - replace (q + e <? -81) with false by lia. by replace (95 <? q + e) with true by lia.
  - by replace (q + e <? -81) with true by lia.
  - replace (q + e <? -81) with false by lia. replace (95 <? q + e) with false by lia.
    eexists. split_and!; [done| |done|done]. right. unfold minMantissa, maxMantissa, minExponent, maxExponent.
    cbn [mantissa_ exponent_]. destruct (norm_mantissa_digits q (Z.abs m) Hd) as (_ & H1 & H2).
    assert (m ≠ 0). { intros ->. destruct Hd as (? & ? & _). pose proof (pow10_pos q). simpl in *. lia. }
    change (10 ^ 15) with 1000000000000000 in H1. change (10 ^ (15 + 1)) with 10000000000000000 in H2.
    destruct (Z.lt_ge_cases m 0); [rewrite (Z.sgn_neg m) by lia|rewrite (Z.sgn_pos m) by lia]; lia.
Qed.

Lemma normalize_exact_witness :
  iou (-123456789012345678) (-90) = Ok (mkIOU (-1234567890123456) (-88)) ∧
  iou 5 96 = Throw overflow_error ∧ iou 5 (-82) = Ok iou_zero.
Proof.
  destruct (normalize_exact (-123456789012345678) (-90) 17) as (_ & _ & H);
    [split; [lia|by vm_compute]|lia|].
  destruct (normalize_exact 5 96 0) as (H96 & _ & _); [split; [lia|by vm_compute]|lia|].
  destruct (normalize_exact 5 (-82) 0) as (_ & H82 & _); [split; [lia|by vm_compute]|lia|].
  split; [|split; [apply H96; lia|apply H82; lia]].
  destruct H as ([m e] & -> & _ & He & Hm); [lia|]. simpl in He, Hm. by rewrite He, Hm.
Defined.

(** ** Consequences *)
Lemma canonical_digits x :
  canonical x → x ≠ iou_zero → digits 15 (Z.abs (mantissa_ x)) ∧ Z.abs (mantissa_ x) < 2 ^ 63.
Proof.
  unfold minMantissa, maxMantissa. intros [?|[Hm _]] Hne; [done|].
  split; [|unfold maxMantissa in *; lia]. split; [lia|].
  change (10 ^ 15) with minMantissa. change (10 ^ (15 + 1)) with (maxMantissa + 1). lia.
Qed.

(** A canonical amount is its own normal form. *)
Lemma normalize_canonical x : canonical x → normalize x = Ok x.
Proof.
  intros Hc. destruct (decide (x = iou_zero)) as [->|Hne]; [done|].
  destruct (canonical_digits x Hc Hne) as [Hd Hb]. destruct Hc as [?|[Hm He]]; [done|].
  destruct x as [m e]. simpl in *. unfold minExponent, maxExponent, minMantissa in *.
  rewrite (normalize_digits m e 15 Hd ltac:(lia)).
  replace (15 + e <? -81) with false by lia. replace (95 <? 15 + e) with false by lia.
  do 2 f_equal; [|lia]. unfold norm_mantissa. simpl. rewrite Z.mul_1_r, Z.mul_comm. apply Z.abs_sgn.
Qed.

Lemma normalize_makes_canonical m e x :
  Z.abs m < 2 ^ 63 → normalize (mkIOU m e) = Ok x → canonical x.
Proof.
  intros Hb Hx. destruct (Z.eq_dec m 0) as [->|Hne].
  { unfold normalize in Hx. simpl in Hx. injection Hx as <-. by left. }
  destruct (digits_exist (Z.abs m)) as [q Hd]; [lia|].
  destruct (normalize_exact m e q Hd Hb) as (H1 & H2 & H3). unfold iou in *.
  destruct (Z.lt_ge_cases 95 (q + e)); [rewrite H1 in Hx by done; done|].
  destruct (Z.lt_ge_cases (q + e) (-81)); [rewrite H2 in Hx by done; injection Hx as <-; by left|].
  destruct H3 as (y & Hy & Hc & _); [lia|]. rewrite Hy in Hx. by injection Hx as <-.
Qed.

(** ** Order *)
Lemma scaled_sign x : canonical x → (0 < scaled x ↔ 0 < mantissa_ x) ∧ (scaled x < 0 ↔ mantissa_ x < 0).
Proof.
  intros Hc. assert (0 ≤ exponent_ x + 100) as He.
  { destruct Hc as [->|[_ ?]]; simpl; [lia|]. unfold minExponent in *. lia. }
  pose proof (pow10_pos _ He). unfold scaled. nia.
Qed.

(** More digits to the left weigh more than any mantissa. *)
Lemma exponent_dominates m e n f :
  minMantissa ≤ m ≤ maxMantissa → minMantissa ≤ n ≤ maxMantissa → -100 ≤ e → e < f →
  m * 10 ^ (e + 100) < n * 10 ^ (f + 100).
Proof.
  unfold minMantissa, maxMantissa. intros Hm Hn He Hef.
  pose proof (pow10_pos (e + 100) ltac:(lia)).
  assert (10 * 10 ^ (e + 100) ≤ 10 ^ (f + 100)).
  { rewrite <- pow10_S by lia. apply pow10_le. lia. }
  nia.
Qed.

(** Two canonical amounts with mantissas of the same sign, by exponent. *)
Lemma exponent_order x y :
  canonical x → canonical y → 0 < mantissa_ x * mantissa_ y →
  exponent_ x < exponent_ y → (scaled x < scaled y ↔ 0 < mantissa_ x) ∧ scaled x ≠ scaled y.
Proof.
  unfold scaled. intros [->|[Hx Ex]] [->|[Hy Ey]] Hs He; try (simpl in *; lia).
  unfold minExponent in *.
  pose proof (exponent_dominates (Z.abs (mantissa_ x)) (exponent_ x) (Z.abs (mantissa_ y)) (exponent_ y)
    Hx Hy ltac:(lia) He) as Hd.
  destruct (Z.lt_ge_cases 0 (mantissa_ x)) as [Hp|Hp].
  - assert (0 < mantissa_ y) by nia. rewrite !Z.abs_eq in Hd by lia. lia.
  - assert (mantissa_ y < 0) by nia. rewrite !Z.abs_neq in Hd by lia. lia.
Qed.

Lemma mantissa_order x y :
  canonical x → exponent_ x = exponent_ y →
  (scaled x < scaled y ↔ mantissa_ x < mantissa_ y) ∧ (scaled x = scaled y ↔ mantissa_ x = mantissa_ y).
Proof.
  intros Hx He. unfold scaled. rewrite <- He.
  assert (0 < 10 ^ (exponent_ x + 100)) by
    (apply pow10_pos; destruct Hx as [->|[_ ?]]; unfold minExponent in *; simpl; lia). nia.
Qed.

(** Order of amounts.  On canonical amounts [operator<] is less-than on the
    values, and [operator==] holds exactly when the values are equal. *)
Theorem iou_order x y :
  canonical x → canonical y →
  iou_lt x y = (scaled x <? scaled y) ∧ iou_eqb x y = (scaled x =? scaled y).
Proof.
  intros Hx Hy. destruct (scaled_sign x Hx) as [Sx1 Sx2]. destruct (scaled_sign y Hy) as [Sy1 Sy2].
  assert (∀ z, canonical z → mantissa_ z = 0 → exponent_ z = -100) as Hz.
  { intros z [->|[Hm _]] H0; [done|]. unfold minMantissa in Hm. lia. }
  pose proof (Hz x Hx) as Zx. pose proof (Hz y Hy) as Zy. clear Hz. unfold iou_lt, iou_eqb.
  destruct (Z.lt_trichotomy (exponent_ x) (exponent_ y)) as [He|[He|He]].
  - replace (exponent_ y <? exponent_ x) with false by lia.
    replace (exponent_ x <? exponent_ y) with true by lia.
    replace (exponent_ x =? exponent_ y) with false by lia. cbn [andb].
    pose proof (exponent_order x y Hx Hy) as Ho.
    zcases; cbn [eqb negb]; lia || nia.
  - destruct (mantissa_order x y Hx He) as [M1 M2]. rewrite He, Z.eqb_refl, Z.ltb_irrefl. cbn [andb].
    zcases; cbn [eqb negb]; lia || nia.
  - replace (exponent_ y <? exponent_ x) with true by lia.
    replace (exponent_ x =? exponent_ y) with false by lia. cbn [andb].
    pose proof (exponent_order y x Hy Hx) as Ho.
    zcases; cbn [eqb negb]; lia || nia.
Qed.

Lemma iou_order_witness :
  iou_lt (mkIOU (-2000000000000000) 3) (mkIOU 1000000000000000 (-7)) = true.
Proof.
  rewrite (proj1 (iou_order (mkIOU (-2000000000000000) 3) (mkIOU 1000000000000000 (-7))
    ltac:(right; vm_compute; intuition congruence) ltac:(right; vm_compute; intuition congruence))).
  by vm_compute.
Defined.

(** ** Addition *)
Lemma shift_right_quot n m : 0 ≤ n → shift_right n m = Z.quot m (10 ^ n).
Proof.
  intros Hn. unfold shift_right. rewrite <- (Z2Nat.id n) at 2 by done.
  induction (Z.to_nat n) as [|k IH]; [simpl; by rewrite Z.quot_1_r|].
  change (Nat.iter (S k) (λ m, Z.quot m 10) m) with (Z.quot (Nat.iter k (λ m, Z.quot m 10) m) 10).
  rewrite IH, Nat2Z.inj_succ, Z.pow_succ_r by lia.
  rewrite Z.quot_quot by (try lia; pose proof (pow10_pos (Z.of_nat k)); lia). f_equal. lia.
Qed.

Lemma shift_right_neg n m : n ≤ 0 → shift_right n m = m.
Proof. intros Hn. unfold shift_right. by replace (Z.to_nat n) with 0%nat by lia. Qed.

(** Bringing an amount to a larger exponent loses less than a unit there. *)
Lemma align_error m e E :
  -100 ≤ e ≤ E →
  Z.abs (shift_right (E - e) m * 10 ^ (E + 100) - m * 10 ^ (e + 100)) < 10 ^ (E + 100) ∧
  Z.abs (shift_right (E - e) m) ≤ Z.abs m.
Proof.
  intros He. rewrite shift_right_quot by lia. set (d := 10 ^ (E - e)).
  assert (0 < d) as Hd by (apply pow10_pos; lia). set (k := 10 ^ (e + 100)).
  assert (0 < k) as Hk by (apply pow10_pos; lia).
  assert (10 ^ (E + 100) = d * k) as ->.
  { unfold d, k. rewrite <- Z.pow_add_r by lia. f_equal. lia. }
  pose proof (Z.quot_rem' m d) as Hq. pose proof (Z.rem_bound_abs m d ltac:(lia)) as Hr.
  rewrite (Z.abs_eq d) in Hr by lia. split.
  - replace (Z.quot m d * (d * k) - m * k) with (- Z.rem m d * k) by nia.
    rewrite Z.abs_mul, Z.abs_opp, (Z.abs_eq k) by lia. nia.
  - rewrite <- Z.quot_abs by lia. rewrite (Z.abs_eq d) by lia.
    apply Z.quot_le_upper_bound; [done|]. nia.
Qed.

Lemma normalize_error m e q r :
  digits q (Z.abs m) → q ≤ 16 → -100 ≤ e → normalize (mkIOU m e) = Ok r →
  Z.abs (scaled r - m * 10 ^ (e + 100)) < 10 * 10 ^ (e + 100) + 10 ^ 19.
Proof.
  intros Hd Hq He Hr. pose proof (pow10_pos (e + 100) ltac:(lia)) as Hk.
  assert (Z.abs m < 2 ^ 63) as Hb by (pose proof (digits_lt q (Z.abs m) 17 Hd); lia).
  rewrite (normalize_digits m e q Hd ltac:(lia)) in Hr. pose proof (proj1 Hd) as Hq0.
  destruct (Z.ltb_spec (q + e) (-81)).
  { injection Hr as <-. unfold scaled, iou_zero; cbn [mantissa_ exponent_].
    rewrite Z.mul_0_l, Z.sub_0_l, Z.abs_opp, Z.abs_mul, (Z.abs_eq (10 ^ _)) by lia.
    assert (Z.abs m * 10 ^ (e + 100) < 10 ^ (q + 1) * 10 ^ (e + 100)) by (destruct Hd as (_ & _ & ?); nia).
    rewrite <- Z.pow_add_r in * by lia.
    pose proof (pow10_le (q + 1 + (e + 100)) 19 ltac:(lia)). lia. }
  destruct (Z.ltb_spec 95 (q + e)); [done|]. injection Hr as <-. unfold scaled, norm_mantissa.
  cbn [mantissa_ exponent_]. destruct (Z.leb_spec q 15).
  - replace (Z.sgn m * (Z.abs m * 10 ^ (15 - q)) * 10 ^ (q + e - 15 + 100))
      with (m * 10 ^ (e + 100)); [rewrite Z.sub_diag; simpl; lia|].
    rewrite (Z.mul_assoc (Z.sgn m)), (Z.mul_comm (Z.sgn m)), Z.abs_sgn, <- Z.mul_assoc, <- Z.pow_add_r by lia.
    do 2 f_equal. lia.
  - assert (q = 16) as -> by lia. change (10 ^ (16 - 15)) with 10.
    replace (10 ^ (16 + e - 15 + 100)) with (10 * 10 ^ (e + 100)).
    2: { rewrite <- pow10_S by lia. f_equal. lia. }
    pose proof (Z.div_mod (Z.abs m) 10 ltac:(lia)). pose proof (Z.mod_pos_bound (Z.abs m) 10 ltac:(lia)).
    pose proof (Z.abs_sgn m) as Hs.
    replace (Z.sgn m * (Z.abs m / 10) * (10 * 10 ^ (e + 100)) - m * 10 ^ (e + 100))
      with (- (Z.sgn m * (Z.abs m mod 10)) * 10 ^ (e + 100)) by nia.
    rewrite Z.abs_mul, Z.abs_opp, (Z.abs_eq (10 ^ _)) by lia.
    assert (Z.abs (Z.sgn m * (Z.abs m mod 10)) < 10); [|nia].
    destruct (Z.lt_trichotomy m 0) as [?|[?|?]];
      [rewrite Z.sgn_neg by done|subst; simpl|rewrite Z.sgn_pos by done]; lia.
Qed.

Lemma iou_eqb_spec x y : reflect (x = y) (iou_eqb x y).
Proof.
  apply iff_reflect. destruct x as [m e], y as [n f]. unfold iou_eqb. simpl.
  rewrite andb_true_iff, !Z.eqb_eq. split; [by intros [= -> ->]|]. by intros [-> ->].
Qed.

(** The aligned sum of two non-zero amounts. *)
Definition top (x y : IOUAmount) : Z := Z.max (exponent_ x) (exponent_ y).
Definition aligned (x y : IOUAmount) : Z :=
  shift_right (top x y - exponent_ x) (mantissa_ x) + shift_right (top x y - exponent_ y) (mantissa_ y).

Lemma iou_add_aligned x y :
  x ≠ iou_zero → y ≠ iou_zero →
  iou_add x y = if (-10 <=? aligned x y) && (aligned x y <=? 10) then Ok iou_zero
                else normalize (mkIOU (aligned x y) (top x y)).
Proof.
  intros Hx Hy. unfold iou_add. destruct (iou_eqb_spec y iou_zero); [done|].
  destruct (iou_eqb_spec x iou_zero); [done|].
  replace (shift_right (exponent_ y - exponent_ x) (mantissa_ x))
    with (shift_right (top x y - exponent_ x) (mantissa_ x)); [done|].
  unfold shift_right, top. f_equal. lia.
Qed.

Lemma canonical_exponent x : canonical x → -100 ≤ exponent_ x ≤ 80.
Proof. intros [->|[_ ?]]; unfold minExponent, maxExponent in *; simpl; lia. Qed.

Lemma aligned_error x y :
  canonical x → canonical y →
  Z.abs (aligned x y * 10 ^ (top x y + 100) - (scaled x + scaled y)) < 2 * 10 ^ (top x y + 100) ∧
  Z.abs (aligned x y) < 2 * 10 ^ 16.
Proof.
  intros Hx Hy. pose proof (canonical_exponent x Hx). pose proof (canonical_exponent y Hy).
  destruct (align_error (mantissa_ x) (exponent_ x) (top x y)) as [H1 H2]; [unfold top; lia|].
  destruct (align_error (mantissa_ y) (exponent_ y) (top x y)) as [H3 H4]; [unfold top; lia|].
  assert (∀ z, canonical z → Z.abs (mantissa_ z) < 10 ^ 16) as Hb.
  { intros z [->|[? _]]; [done|]. unfold maxMantissa in *. lia. }
  pose proof (Hb x Hx). pose proof (Hb y Hy). unfold aligned, scaled. split; [|lia].
  rewrite Z.mul_add_distr_r. lia.
Qed.

Lemma aligned_comm x y : aligned x y = aligned y x ∧ top x y = top y x.
Proof. unfold aligned. assert (top x y = top y x) as -> by (unfold top; lia). split; [lia|done]. Qed.

Lemma iou_sub_self x : canonical x → iou_sub x x = Ok iou_zero.
Proof.
  intros Hx. destruct (decide (x = iou_zero)) as [->|Hne]; [done|]. unfold iou_sub, iou_neg, iou.
  assert (canonical (mkIOU (- mantissa_ x) (exponent_ x))) as Hc.
  { destruct Hx as [?|[? ?]]; [done|]. right. cbn [mantissa_ exponent_]. by rewrite Z.abs_opp. }
  assert (mkIOU (- mantissa_ x) (exponent_ x) ≠ iou_zero) as Hn.
  { intros [=]. apply Hne. destruct x as [m e]. simpl in *. unfold iou_zero. f_equal; lia. }
  rewrite normalize_canonical by done. rewrite iou_add_aligned by done. unfold aligned, top.
  cbn [mantissa_ exponent_]. rewrite Z.max_id, Z.sub_diag. unfold shift_right. simpl.
  by rewrite Z.add_opp_diag_r.
Qed.

(** Addition of amounts.  On canonical amounts, [operator+=] commutes and
    gives a canonical amount within twelve units in the last place of the larger
    operand, and the smallest positive amount, of the exact sum; it throws only
    when the sum is, within two such units, at least 10^96; and adding the
    negation of an amount gives zero. *)
Theorem iou_add_accurate x y :
  canonical x → canonical y →
  iou_add x y = iou_add y x ∧
  (∀ r, iou_add x y = Ok r →
     canonical r ∧
     Z.abs (scaled r - (scaled x + scaled y)) < 12 * 10 ^ (top x y + 100) + 10 ^ 19) ∧
  (∀ e, iou_add x y = Throw e → e = overflow_error ∧ 10 ^ 196 - 2 * 10 ^ 180 < Z.abs (scaled x + scaled y)) ∧
  iou_sub x x = Ok iou_zero.
Proof.
  intros Hx Hy. pose proof (pow10_pos (top x y + 100)) as Hk.
  pose proof (canonical_exponent x Hx) as Ex. pose proof (canonical_exponent y Hy) as Ey.
  assert (-100 ≤ top x y ≤ 80) as Et by (unfold top; lia). specialize (Hk ltac:(lia)).
  pose proof (iou_sub_self x Hx) as Hsub.
  destruct (decide (y = iou_zero)) as [->|Hny]; [|destruct (decide (x = iou_zero)) as [->|Hnx]].
  - assert (iou_add x iou_zero = Ok x) as -> by done. split_and!; try done.
    + unfold iou_add. destruct (iou_eqb_spec x iou_zero) as [->|]; done.
    + intros r [= <-]. split; [done|]. unfold scaled at 3. simpl. rewrite Z.add_0_r, Z.sub_diag. simpl. lia.
  - assert (iou_add iou_zero y = Ok y) as ->.
    { unfold iou_add. by destruct (iou_eqb_spec y iou_zero). }
    split_and!; try done. intros r [= <-]. split; [done|]. unfold scaled at 2. simpl. rewrite Z.sub_diag. simpl. lia.
  - destruct (aligned_error x y Hx Hy) as [Herr Hb]. rewrite !iou_add_aligned by done.
    destruct (aligned_comm y x) as [-> ->]. set (s := aligned x y) in *. set (t := top x y) in *.
    destruct (Z.leb_spec (-10) s), (Z.leb_spec s 10); cbn [andb].
    { split_and!; try done. intros r [= <-]. split; [by left|]. unfold scaled at 1. simpl. nia. }
    all: destruct (digits_exist (Z.abs s)) as [q Hd]; [lia|].
    all: pose proof (digits_lt q (Z.abs s) 17 Hd ltac:(lia)) as Hq.
    all: split_and!; try done.
    all: intros r Hr; try (split; [eapply normalize_makes_canonical; [|done]; lia|];
      pose proof (normalize_error s t q r Hd ltac:(lia) ltac:(lia) Hr); lia).
    all: rewrite (normalize_digits s t q Hd ltac:(lia)) in Hr.
    all: destruct (Z.ltb_spec (q + t) (-81)); [done|]; destruct (Z.ltb_spec 95 (q + t)); [|done].
    all: injection Hr as <-; split; [done|].
    all: destruct Hd as (Hq0 & Hd & _).
    all: assert (10 ^ q * 10 ^ (t + 100) ≤ Z.abs (s * 10 ^ (t + 100))) by
      (rewrite Z.abs_mul, (Z.abs_eq (10 ^ _)) by lia; nia).
    all: rewrite <- Z.pow_add_r in * by lia.
    all: pose proof (pow10_le 196 (q + (t + 100)) ltac:(lia)).
    all: pose proof (pow10_le (t + 100) 180 ltac:(lia)); lia.
Qed.

Lemma iou_add_accurate_witness :
  ∃ r, iou_add (mkIOU 9999999999999999 3) (mkIOU 9999999999999999 1) = Ok r ∧ canonical r.
Proof.
  assert (canonical (mkIOU 9999999999999999 3)) as Hx by (right; vm_compute; intuition congruence).
  assert (canonical (mkIOU 9999999999999999 1)) as Hy by (right; vm_compute; intuition congruence).
  exists (mkIOU 1009999999999999 4).
  assert (iou_add (mkIOU 9999999999999999 3) (mkIOU 9999999999999999 1) = Ok (mkIOU 1009999999999999 4))
    as E by (by vm_compute).
  split; [exact E|]. exact (proj1 (proj1 (proj2 (iou_add_accurate _ _ Hx Hy)) _ E)).
Defined.

(** ** Ratios *)
Lemma lower_bound_le t v i p : t !! i = Some p → v ≤ p → lower_bound t v ≤ Z.of_nat i.
Proof.
  revert i. induction t as [|a t IH]; intros [|i] Hi Hv; simplify_eq/=.
  - by rewrite (proj2 (Z.ltb_ge _ _)).
  - destruct (a <? v); [|lia]. specialize (IH i Hi Hv). lia.
Qed.

(** Ratio of one.  [mulRatio] throws on a zero denominator, and multiplying
    a canonical amount by a number and dividing by the same gives the amount
    back, whatever the rounding. *)
Theorem mulRatio_one amt n roundUp :
  canonical amt → 0 < n < 2 ^ 32 →
  mulRatio amt n n roundUp = Ok amt ∧ mulRatio amt n 0 roundUp = Throw division_by_zero.
Proof.
  intros Hc Hn. split; [|done]. unfold mulRatio. replace (n =? 0) with false by lia.
  set (a := if mantissa_ amt <? 0 then - mantissa_ amt else mantissa_ amt).
  assert (0 ≤ a < 10 ^ 16 ∧ (if mantissa_ amt <? 0 then a * -1 else a) = mantissa_ amt) as [Ha Hs].
  { subst a. destruct Hc as [->|[Hm _]]; [done|]. unfold maxMantissa in Hm.
    destruct (Z.ltb_spec (mantissa_ amt) 0); lia. }
  clearbody a. assert (u128 (a * n) = a * n) as -> by (apply wrap_small; nia).
  rewrite Z.div_mul, Z.sub_diag by lia. change (u128 0 =? 0) with true. cbn [negb].
  assert ((0 <? log10Ceil a - fl64) = false) as ->.
  { assert (log10Ceil a ≤ Z.of_nat 16) by (apply (lower_bound_le _ _ 16 (10 ^ 16)); [done|lia]).
    change fl64 with 18. lia. }
  rewrite Hs. change (u128 0 =? 0) with true. cbn [negb]. unfold iou.
  replace (mkIOU (mantissa_ amt) (exponent_ amt)) with amt by (by destruct amt).
  by rewrite normalize_canonical.
Qed.

Lemma mulRatio_one_witness :
  mulRatio (mkIOU 1234567890123456 7) 1000000000 1000000000 true = Ok (mkIOU 1234567890123456 7).
Proof.
  apply (mulRatio_one (mkIOU 1234567890123456 7) 1000000000 true);
    [right; vm_compute; intuition congruence|lia].
Defined.

(** Rounding up an exact product.  [mulRatio] looks at the remainder of the
    division only: when the division is exact and the product has more than 16
    digits, normalization drops the excess digits and the result is below the
    exact value although rounding up was asked for. *)
Theorem mulRatio_roundUp_below :
  let amt := mkIOU 9999999999999999 0 in
  ∃ r, mulRatio amt 3 1 true = Ok r ∧ scaled r < 3 * scaled amt.
Proof. exists (mkIOU 2999999999999999 1). split; by vm_compute. Qed.
