(* ===== verification/STAmount.v ===== *)
(** * Amounts

    src/src/ripple/protocol/STAmount.h and impl/STAmount.cpp: an amount is a number
    of drops of the native currency or a decimal floating-point number of an issued
    one.  impl/Issue.cpp and UintTypes.h have the currency and the issuer.

    An amount's field name is not part of the record: no operation depends on it.
    Identifiers of 160 bits are their 20 bytes.  A [std::uint64_t] is a [Z] below
    2^64 and every product that can leave that range is wrapped; an [std::int64_t]
    is wrapped with [i64].  The multiprecision products have 128 bits.  An
    exception is a left value.  The thread-local switches [stAmountCalcSwitchover]
    and [stAmountCalcSwitchover2] are arguments of the operations that read them.

    Loops with a known number of rounds are iterations.  The loops that scale a
    mantissa of 64 bits to 16 digits take fewer than 20 rounds. *)

From stdpp Require Import prelude list.
From Stdlib Require Import ZArith Lia.
From S2P Require Import Prelude.
From S2P Require Import Serializer.
From S2P Require Import IOUAmount.

Inductive aexn := a_runtime_error | a_overflow_error | a_logic_error.
#[export] Instance aexn_eq_dec : EqDecision aexn.
Proof. solve_decision. Defined.

Definition fallible (A : Type) : Type := aexn + A.
#[export] Instance fallible_ret : MRet fallible := λ A a, inr a.
#[export] Instance fallible_bind : MBind fallible := λ A B f m,
  match m with inl e => inl e | inr a => f a end.
Definition raise {A} (e : aexn) : fallible A := inl e.

(** The value of 64 bits read as a signed integer. *)
Definition i64 (z : Z) : Z := (z + 2 ^ 63) mod 2 ^ 64 - 2 ^ 63.

(** ** Issues *)
Record Issue := mkIssue { currency : Blob; account : Blob }.
#[export] Instance Issue_eq_dec : EqDecision Issue.
Proof. solve_decision. Defined.

Definition isXRP (c : Blob) : bool := forallb (Z.eqb 0) c.
Definition bytes160 (n : Z) : Blob := replicate 19 0 ++ [n].
Definition xrpIssue : Issue := mkIssue (bytes160 0) (bytes160 0).
Definition noIssue : Issue := mkIssue (bytes160 1) (bytes160 1).

(** ** The amount *)
Record STAmount := mkAmount {
  mIssue : Issue;
  mValue : Z;
  mOffset : Z;
  mIsNative : bool;
  mIsNegative : bool;
}.
#[export] Instance STAmount_eq_dec : EqDecision STAmount.
Proof. solve_decision. Defined.

Definition cMinOffset : Z := -96.
Definition cMaxOffset : Z := 80.
Definition cMinValue : Z := 1000000000000000.
Definition cMaxValue : Z := 9999999999999999.
Definition cMaxNativeN : Z := 100000000000000000.
Definition cNotNative : Z := 0x8000000000000000.
Definition cPosNative : Z := 0x4000000000000000.

Definition amount_isXRP (a : STAmount) : bool := isXRP (currency (mIssue a)).
Definition amount_signum (a : STAmount) : Z :=
  if negb (mValue a =? 0) then if mIsNegative a then -1 else 1 else 0.
(** Comparisons with [beast::zero] *)
Definition is_zero (a : STAmount) : bool := amount_signum a =? 0.

Definition set_number (v o : Z) (native negative : bool) (a : STAmount) : STAmount :=
  mkAmount (mIssue a) v o native negative.

(** [while ((mValue < cMinValue) && (mOffset > cMinOffset))] *)
Fixpoint grow (fuel : nat) (v o : Z) : Z * Z :=
  match fuel with
  | O => (v, o)
  | S fuel => if (v <? cMinValue) && (cMinOffset <? o) then grow fuel (u64 (v * 10)) (o - 1) else (v, o)
  end.
(** [while (mValue > cMaxValue)] *)
Fixpoint shrink (fuel : nat) (v o : Z) : fallible (Z * Z) :=
  match fuel with
  | O => mret (v, o)
  | S fuel =>
      if cMaxValue <? v
      then if cMaxOffset <=? o then raise a_runtime_error else shrink fuel (v / 10) (o + 1)
      else mret (v, o)
  end.

(** [n] rounds of [mValue /= 10] and of [mValue *= 10]. *)
Definition div10 (n : Z) (v : Z) : Z := Nat.iter (Z.to_nat n) (λ v, v / 10) v.
Definition mul10 (n : Z) (v : Z) : Z := Nat.iter (Z.to_nat n) (λ v, u64 (v * 10)) v.

Definition canonicalize (a : STAmount) : fallible STAmount :=
  if amount_isXRP a then
    if mValue a =? 0 then mret (set_number 0 0 true false a)
    else
      let v := div10 (- mOffset a) (mValue a) in
      let v := mul10 (mOffset a) v in
      if cMaxNativeN <? v then raise a_runtime_error
      else mret (set_number v 0 true (mIsNegative a) a)
  else if mValue a =? 0 then mret (set_number 0 (-100) false false a)
  else
    let '(v, o) := grow 20 (mValue a) (mOffset a) in
    '(v, o) ← shrink 20 v o;
    if (o <? cMinOffset) || (v <? cMinValue) then mret (set_number 0 (-100) false false a)
    else if cMaxOffset <? o then raise a_runtime_error
    else mret (set_number v o false (mIsNegative a) a).

(** *** Constructors *)

(** [STAmount (issue, mantissa, exponent, negative)] *)
Definition amount (issue : Issue) (mantissa exponent : Z) (negative : bool) : fallible STAmount :=
  canonicalize (mkAmount issue mantissa exponent false negative).
(** [STAmount (issue)] *)
Definition amount0 (issue : Issue) : fallible STAmount := amount issue 0 0 false.
(** [STAmount (name, std::int64_t)], with [set]. *)
Definition native_amount (v : Z) : STAmount :=
  if v <? 0 then mkAmount xrpIssue (u64 (- v)) 0 true true else mkAmount xrpIssue (u64 v) 0 true false.
(** [STAmount (issue, std::int64_t, exponent)] *)
Definition signed_amount (issue : Issue) (v exponent : Z) : fallible STAmount :=
  canonicalize (mkAmount issue (u64 (if v <? 0 then - v else v)) exponent false (v <? 0)).
(** [STAmount (name, std::uint64_t)] *)
Definition drops (v : Z) : STAmount := mkAmount xrpIssue v 0 true false.
(** [STAmount (XRPAmount)] and [STAmount (IOUAmount, issue)] *)
Definition of_xrp (v : Z) : fallible STAmount := canonicalize (native_amount v).
Definition of_iou (x : IOUAmount) (issue : Issue) : fallible STAmount :=
  let negative := iou_signum x <? 0 in
  canonicalize (mkAmount issue (u64 (if negative then - mantissa_ x else mantissa_ x))
                  (exponent_ x) false negative).

(** *** Accessors *)
Definition xrp (a : STAmount) : fallible Z :=
  if negb (mIsNative a) then raise a_logic_error
  else mret (if mIsNegative a then - i64 (mValue a) else i64 (mValue a)).
(** The exception of [IOUAmount] is an [std::overflow_error]. *)
Definition of_result {A} (r : result A) : fallible A :=
  match r with Ok a => mret a | IOUAmount.Throw _ => raise a_overflow_error end.
Definition to_iou (a : STAmount) : fallible IOUAmount :=
  if mIsNative a then raise a_logic_error
  else of_result (iou (if mIsNegative a then - i64 (mValue a) else i64 (mValue a)) (mOffset a)).
Definition isDefault_amount (a : STAmount) : bool := (mValue a =? 0) && mIsNative a.
Definition isLegalNet (a : STAmount) : bool := negb (mIsNative a) || (mValue a <=? cMaxNativeN).

(** *** Changes in place *)
Definition negate (a : STAmount) : STAmount :=
  if is_zero a then a else set_number (mValue a) (mOffset a) (mIsNative a) (negb (mIsNegative a)) a.
Definition clear (a : STAmount) : STAmount :=
  set_number 0 (if mIsNative a then 0 else -100) (mIsNative a) false a.
Definition setIssue (issue : Issue) (a : STAmount) : STAmount :=
  mkAmount issue (mValue a) (mOffset a) (isXRP (currency issue)) (mIsNegative a).
Definition setIssuer (uIssuer : Blob) (a : STAmount) : STAmount :=
  setIssue (mkIssue (currency (mIssue a)) uIssuer) a.
Definition clear_issue (issue : Issue) (a : STAmount) : STAmount := clear (setIssue issue a).

(** ** Comparison *)
Definition areComparable (v1 v2 : STAmount) : bool :=
  eqb (mIsNative v1) (mIsNative v2) && bool_decide (currency (mIssue v1) = currency (mIssue v2)).
(** [operator==] and [operator<] *)
Definition st_eqb (l r : STAmount) : bool :=
  areComparable l r && eqb (mIsNegative l) (mIsNegative r) &&
  (mOffset l =? mOffset r) && (mValue l =? mValue r).
Definition st_ltb (l r : STAmount) : fallible bool :=
  if negb (areComparable l r) then raise a_runtime_error
  else mret
    (if negb (eqb (mIsNegative l) (mIsNegative r)) then mIsNegative l
     else if mValue l =? 0 then if mIsNegative r then false else negb (mValue r =? 0)
     else if mValue r =? 0 then false
     else if mOffset r <? mOffset l then mIsNegative l
     else if mOffset l <? mOffset r then negb (mIsNegative l)
     else if mValue r <? mValue l then mIsNegative l
     else if mValue l <? mValue r then negb (mIsNegative l)
     else false).

(** ** Sums *)
Definition getSNValue (a : STAmount) : fallible Z :=
  if negb (mIsNative a) then raise a_runtime_error
  else mret (if mIsNegative a then - i64 (mValue a) else i64 (mValue a)).

Definition signed_value (a : STAmount) : Z :=
  if mIsNegative a then - i64 (mValue a) else i64 (mValue a).

(** [operator+] *)
Definition st_plus (v1 v2 : STAmount) : fallible STAmount :=
  if negb (areComparable v1 v2) then raise a_runtime_error
  else if is_zero v2 then mret v1
  else if is_zero v1 then amount (mIssue v1) (mValue v2) (mOffset v2) (mIsNegative v2)
  else if mIsNative v1 then
    n1 ← getSNValue v1; n2 ← getSNValue v2; mret (native_amount (i64 (n1 + n2)))
  else
    let ov1 := mOffset v1 in
    let ov2 := mOffset v2 in
    let vv1 := shift_right (ov2 - ov1) (signed_value v1) in
    let ov1 := Z.max ov1 ov2 in
    let vv2 := shift_right (ov1 - ov2) (signed_value v2) in
    let fv := i64 (vv1 + vv2) in
    if (-10 <=? fv) && (fv <=? 10) then amount0 (mIssue v1)
    else if 0 <=? fv then amount (mIssue v1) (u64 fv) ov1 false
    else amount (mIssue v1) (u64 (- fv)) ov1 true.

(** Unary and binary [operator-] *)
Definition st_neg (a : STAmount) : STAmount :=
  if mValue a =? 0 then a
  else mkAmount (mIssue a) (mValue a) (mOffset a) (mIsNative a) (negb (mIsNegative a)).
Definition st_minus (v1 v2 : STAmount) : fallible STAmount := st_plus v1 (st_neg v2).

(** ** Products and quotients *)
Definition tenTo14 : Z := 100000000000000.
Definition tenTo14m1 : Z := tenTo14 - 1.
Definition tenTo17 : Z := tenTo14 * 1000.

Definition muldiv_round (multiplier multiplicand divisor rounding : Z) : fallible Z :=
  let ret := u128 (multiplier * multiplicand) in
  let ret := u128 (ret + rounding) in
  let ret := ret / divisor in
  if 2 ^ 64 - 1 <? ret then raise a_overflow_error else mret ret.
Definition muldiv (multiplier multiplicand divisor : Z) : fallible Z :=
  let ret := u128 (multiplier * multiplicand) in
  let ret := ret / divisor in
  if 2 ^ 64 - 1 <? ret then raise a_overflow_error else mret ret.

(** [while (value < STAmount::cMinValue)] *)
Fixpoint to_min (fuel : nat) (value offset : Z) : Z * Z :=
  match fuel with
  | O => (value, offset)
  | S fuel => if value <? cMinValue then to_min fuel (u64 (value * 10)) (offset - 1) else (value, offset)
  end.
(** The mantissa and exponent of an operand: [if (v.native()) while ...]. *)
Definition operand (a : STAmount) : Z * Z :=
  if mIsNative a then to_min 20 (mValue a) (mOffset a) else (mValue a, mOffset a).

Definition divide (num den : STAmount) (issue : Issue) : fallible STAmount :=
  if is_zero den then raise a_runtime_error
  else if is_zero num then amount0 issue
  else
    let '(numVal, numOffset) := operand num in
    let '(denVal, denOffset) := operand den in
    q ← muldiv numVal tenTo17 denVal;
    amount issue (u64 (q + 5)) (numOffset - denOffset - 17)
      (negb (eqb (mIsNegative num) (mIsNegative den))).

(** The branch of [multiply] and [mulRound] for native amounts. *)
Definition native_product (v1 v2 : STAmount) : fallible STAmount :=
  n1 ← getSNValue v1; n2 ← getSNValue v2;
  let minV := u64 (if n1 <? n2 then n1 else n2) in
  let maxV := u64 (if n1 <? n2 then n2 else n1) in
  if 3000000000 <? minV then raise a_runtime_error
  else if 2095475792 <? u64 (Z.shiftr maxV 32 * minV) then raise a_runtime_error
  else mret (drops (u64 (minV * maxV))).

Definition multiply (v1 v2 : STAmount) (issue : Issue) : fallible STAmount :=
  if is_zero v1 || is_zero v2 then amount0 issue
  else if mIsNative v1 && mIsNative v2 && isXRP (currency issue) then native_product v1 v2
  else
    let '(value1, offset1) := operand v1 in
    let '(value2, offset2) := operand v2 in
    q ← muldiv value1 value2 tenTo14;
    amount issue (u64 (q + 7)) (offset1 + offset2 + 14)
      (negb (eqb (mIsNegative v1) (mIsNegative v2))).

(** [while (value > (10 * STAmount::cMaxValue))] *)
Fixpoint round_loop (fuel : nat) (value offset : Z) : Z * Z :=
  match fuel with
  | O => (value, offset)
  | S fuel => if 10 * cMaxValue <? value then round_loop fuel (value / 10) (offset + 1) else (value, offset)
  end.
Definition canonicalizeRound (native : bool) (value offset : Z) : Z * Z :=
  if native then
    if offset <? 0 then
      let loops := Z.max 0 (-1 - offset) in
      let value := div10 loops value in
      let offset := offset + loops in
      let value := u64 (value + (if 2 <=? loops then 9 else 10)) in
      (value / 10, offset + 1)
    else (value, offset)
  else if cMaxValue <? value then
    let '(value, offset) := round_loop 20 value offset in
    (u64 (value + 9) / 10, offset + 1)
  else (value, offset).

(** The end of [mulRound] and [divRound]. *)
Definition finish_round (switchover switchover2 : bool) (issue : Issue) (amt offset : Z)
    (resultNegative roundUp : bool) : fallible STAmount :=
  let '(amt, offset) :=
    if negb (eqb resultNegative roundUp)
    then canonicalizeRound (isXRP (currency issue)) amt offset else (amt, offset) in
  result ← amount issue amt offset resultNegative;
  if roundUp && negb resultNegative && is_zero result && switchover then
    if isXRP (currency issue) && switchover2
    then amount issue 1 0 resultNegative
    else amount issue cMinValue cMinOffset resultNegative
  else mret result.

Definition mulRound (switchover switchover2 : bool) (v1 v2 : STAmount) (issue : Issue)
    (roundUp : bool) : fallible STAmount :=
  if is_zero v1 || is_zero v2 then amount0 issue
  else if mIsNative v1 && mIsNative v2 && isXRP (currency issue) then native_product v1 v2
  else
    let '(value1, offset1) := operand v1 in
    let '(value2, offset2) := operand v2 in
    let resultNegative := negb (eqb (mIsNegative v1) (mIsNegative v2)) in
    amt ← muldiv_round value1 value2 tenTo14
            (if negb (eqb resultNegative roundUp) then tenTo14m1 else 0);
    finish_round switchover switchover2 issue amt (offset1 + offset2 + 14) resultNegative roundUp.

Definition divRound (switchover switchover2 : bool) (num den : STAmount) (issue : Issue)
    (roundUp : bool) : fallible STAmount :=
  if is_zero den then raise a_runtime_error
  else if is_zero num then amount0 issue
  else
    let '(numVal, numOffset) := operand num in
    let '(denVal, denOffset) := operand den in
    let resultNegative := negb (eqb (mIsNegative num) (mIsNegative den)) in
    amt ← muldiv_round numVal tenTo17 denVal
            (if negb (eqb resultNegative roundUp) then denVal - 1 else 0);
    finish_round switchover switchover2 issue amt (numOffset - denOffset - 17) resultNegative roundUp.

(** ** Rates *)
Definition getRate (offerOut offerIn : STAmount) : Z :=
  if is_zero offerOut then 0
  else match divide offerIn offerOut noIssue with
       | inl _ => 0
       | inr r => if is_zero r then 0
                  else Z.lor (u64 (Z.shiftl (u64 (mOffset r + 100)) (64 - 8))) (mValue r)
       end.
Definition amountFromQuality (rate : Z) : fallible STAmount :=
  if rate =? 0 then amount0 noIssue
  else
    let mantissa := Z.land rate (Z.lnot (Z.shiftl 255 (64 - 8))) in
    let exponent := Z.shiftr rate (64 - 8) - 100 in
    amount noIssue mantissa exponent false.

(** ** Serialization *)

(** [add] *)
Definition amount_bytes (a : STAmount) (s : Blob) : Blob :=
  if mIsNative a then
    if negb (mIsNegative a) then (add64 s (Z.lor (mValue a) cPosNative)).2
    else (add64 s (mValue a)).2
  else
    let s :=
      if is_zero a then (add64 s cNotNative).2
      else if mIsNegative a
      then (add64 s (Z.lor (mValue a) (u64 (Z.shiftl (u64 (mOffset a + 512 + 97)) (64 - 10))))).2
      else (add64 s (Z.lor (mValue a) (u64 (Z.shiftl (u64 (mOffset a + 512 + 256 + 97)) (64 - 10))))).2 in
    let s := (addBitString s (currency (mIssue a))).2 in
    (addBitString s (account (mIssue a))).2.

(** [canonicalize] throws an [std::runtime_error] only. *)
Definition checked {A} (r : fallible A) : Reader A :=
  match r with inl _ => throw runtime_error | inr a => mret a end.

(** [STAmount (SerialIter&, SField const&)] *)
Definition parse_amount : Reader STAmount :=
  value ← get64;
  if Z.land value cNotNative =? 0 then
    if negb (Z.land value cPosNative =? 0)
    then mret (mkAmount xrpIssue (Z.land value (Z.lnot cPosNative)) 0 true false)
    else if value =? 0 then throw runtime_error
    else mret (mkAmount xrpIssue value 0 true true)
  else
    cur ← getBitString 20;
    if isXRP cur then throw runtime_error else
    acc ← getBitString 20;
    if isXRP acc then throw runtime_error else
    let issue := mkIssue cur acc in
    let offset := Z.shiftr value (64 - 10) in
    let value := Z.land value (Z.lnot (Z.shiftl 1023 (64 - 10))) in
    if negb (value =? 0) then
      let isNegative := Z.land offset 256 =? 0 in
      let offset := Z.land offset 255 - 97 in
      if (value <? cMinValue) || (cMaxValue <? value) || (offset <? cMinOffset) || (cMaxOffset <? offset)
      then throw runtime_error
      else checked (canonicalize (mkAmount issue value offset false isNegative))
    else if negb (offset =? 512) then throw runtime_error
    else checked (canonicalize (mkAmount issue 0 0 false false)).
