(* ===== verification/STAmountSpec.v ===== *)
(** * Amounts: canonical form, comparison and sums

    [canonicalize] and the operators of [STAmount] on issued amounts compute what
    [IOUAmount] computes; on native amounts they are integer arithmetic. *)

From stdpp Require Import prelude list.
From Stdlib Require Import ZArith Lia.
From S2P Require Import Prelude.
From S2P Require Import Serializer.
From S2P Require Import IOUAmount.
From S2P Require Import IOUTheorems.
From S2P Require Import STAmount.
From S2P Require Import BaseUint.
From S2P Require Import BaseUintTheorems.
From S2P Require Import SerializerTheorems.

(** The number of an amount and the amount of a number. *)
Definition signed (negative : bool) (v : Z) : Z := if negative then - v else v.
Definition num (a : STAmount) : IOUAmount := mkIOU (signed (mIsNegative a) (mValue a)) (mOffset a).
Definition of_num (issue : Issue) (x : IOUAmount) : STAmount :=
  mkAmount issue (Z.abs (mantissa_ x)) (exponent_ x) false (mantissa_ x <? 0).
(** The value times 10^100. *)
Definition worth (a : STAmount) : Z := scaled (num a).

(** An amount as the operations leave it. *)
Definition issued_ok (a : STAmount) : Prop :=
  mIsNative a = false ∧ amount_isXRP a = false ∧
  ((mValue a = 0 ∧ mOffset a = -100 ∧ mIsNegative a = false) ∨
   (cMinValue ≤ mValue a ≤ cMaxValue ∧ cMinOffset ≤ mOffset a ≤ cMaxOffset)).
Definition native_ok (a : STAmount) : Prop :=
  mIsNative a = true ∧ amount_isXRP a = true ∧ mOffset a = 0 ∧ 0 ≤ mValue a < 2 ^ 62 ∧
  (mValue a = 0 → mIsNegative a = false).
Definition amount_ok (a : STAmount) : Prop := issued_ok a ∨ native_ok a.

Ltac amount_consts :=
  unfold cMinValue, cMaxValue, cMinOffset, cMaxOffset, cMaxNativeN,
    minMantissa, maxMantissa, minExponent, maxExponent in *.

Lemma i64_small z : - 2 ^ 63 ≤ z < 2 ^ 63 → i64 z = z.
Proof. intros Hz. unfold i64. rewrite Z.mod_small by lia. lia. Qed.

Lemma is_zero_spec a : is_zero a = (mValue a =? 0).
Proof. unfold is_zero, amount_signum. destruct (mValue a =? 0); simpl; [done|]. by destruct (mIsNegative a). Qed.

(** ** Canonical form *)
Lemma grow_iou fuel : ∀ v o, 0 ≤ v → grow fuel v o = scale_up fuel v o.
Proof.
  induction fuel as [|fuel IH]; intros v o Hv; simpl; [done|].
  change cMinValue with minMantissa. change cMinOffset with minExponent.
  destruct (Z.ltb_spec v minMantissa); simpl; [|done]. destruct (minExponent <? o); [|done].
  rewrite u64_small by (unfold minMantissa in *; lia). apply IH. lia.
Qed.

Definition thrown {A} (r : result A) : fallible A :=
  match r with Ok a => inr a | IOUAmount.Throw _ => raise a_runtime_error end.

Lemma shrink_iou fuel : ∀ v o, 0 ≤ v → shrink fuel v o = thrown (scale_down fuel v o).
Proof.
  induction fuel as [|fuel IH]; intros v o Hv; simpl; [done|].
  change cMaxValue with maxMantissa. change cMaxOffset with maxExponent.
  destruct (Z.ltb_spec maxMantissa v); [|done]. destruct (maxExponent <=? o); [done|].
  rewrite Z.quot_div_nonneg by lia. apply IH. apply Z.div_pos; lia.
Qed.

Lemma scale_up_nonneg fuel : ∀ v o, 0 ≤ v → 0 ≤ (scale_up fuel v o).1.
Proof.
  induction fuel as [|fuel IH]; intros v o Hv; simpl; [done|].
  destruct ((v <? minMantissa) && (minExponent <? o)); [|done]. apply IH. lia.
Qed.

(** [STAmount::canonicalize] of an issued amount is [IOUAmount::normalize] of its number. *)
Lemma canonicalize_issued a :
  amount_isXRP a = false → 0 ≤ mValue a →
  canonicalize a = thrown (match normalize (num a) with
                           | Ok x => Ok (of_num (mIssue a) x)
                           | IOUAmount.Throw e => IOUAmount.Throw e
                           end).
Proof.
  intros Hx Hv. unfold canonicalize, normalize, num. rewrite Hx. cbn [mantissa_ exponent_].
  destruct (Z.eqb_spec (mValue a) 0) as [H0|H0].
  { replace (signed (mIsNegative a) (mValue a) =? 0) with true; [done|]. unfold signed. destruct (mIsNegative a); lia. }
  replace (signed (mIsNegative a) (mValue a) =? 0) with false by (unfold signed; destruct (mIsNegative a); lia).
  replace (signed (mIsNegative a) (mValue a) <? 0) with (mIsNegative a) by (unfold signed; destruct (mIsNegative a); lia).
  replace (if mIsNegative a then - signed (mIsNegative a) (mValue a) else signed (mIsNegative a) (mValue a))
    with (mValue a) by (unfold signed; destruct (mIsNegative a); lia).
  rewrite grow_iou by done. pose proof (scale_up_nonneg 20 (mValue a) (mOffset a) Hv) as Hn.
  destruct (scale_up 20 (mValue a) (mOffset a)) as [v o]. simpl in Hn.
  rewrite shrink_iou by done. destruct (scale_down 20 v o) as [[v' o']|e]; simpl; [|done].
  change cMinValue with minMantissa. change cMaxOffset with maxExponent. change cMinOffset with minExponent.
  destruct ((o' <? minExponent) || (v' <? minMantissa)) eqn:Em; [done|].
  destruct (maxExponent <? o'); [done|]. unfold mret, fallible_ret, set_number, of_num. simpl.
  apply orb_false_iff in Em as [_ Em]. amount_consts. destruct (mIsNegative a); do 2 f_equal; lia.
Qed.

Lemma num_canonical a : issued_ok a → canonical (num a).
Proof.
  intros (_ & _ & [(Hv & Ho & Hn)|[Hv Ho]]).
  - left. unfold num, iou_zero, signed. by rewrite Hv, Ho, Hn.
  - right. simpl. amount_consts. split; [|lia]. unfold signed. destruct (mIsNegative a); lia.
Qed.

Lemma of_num_num a : issued_ok a → of_num (mIssue a) (num a) = a.
Proof.
  intros (Hnat & _ & H). destruct a as [i v o nat neg]. simpl in *. subst nat. unfold of_num, num, signed. simpl.
  amount_consts. destruct neg; f_equal; lia.
Qed.

Lemma of_num_ok issue x : isXRP (currency issue) = false → canonical x → issued_ok (of_num issue x).
Proof.
  intros Hi Hc. split; [done|]. split; [done|]. destruct Hc as [->|[Hm He]]; [by left|].
  right. simpl. amount_consts. lia.
Qed.

Lemma num_of_num issue x : num (of_num issue x) = x.
Proof. destruct x as [m e]. unfold num, of_num, signed. simpl. destruct (Z.ltb_spec m 0); f_equal; lia. Qed.

Lemma canonicalize_ok_issued a : issued_ok a → canonicalize a = inr a.
Proof.
  intros Ha. pose proof Ha as (_ & Hx & Hv). rewrite canonicalize_issued; [|done|amount_consts; lia].
  rewrite normalize_canonical by (by apply num_canonical). simpl. by rewrite of_num_num.
Qed.

(** What [canonicalize] leaves is in canonical form, for any 64-bit mantissa. *)
Lemma signed_abs n v : 0 ≤ v → Z.abs (signed n v) = v.
Proof. unfold signed. destruct n; lia. Qed.

Lemma amount_issued_ok issue v o n a :
  isXRP (currency issue) = false → 0 ≤ v < 2 ^ 63 → amount issue v o n = inr a → issued_ok a.
Proof.
  intros Hi Hv. unfold amount. rewrite canonicalize_issued by (done || simpl; lia).
  destruct (normalize _) as [x|] eqn:Ex; simpl; intros [= <-].
  apply of_num_ok; [done|]. unfold num in Ex. eapply normalize_makes_canonical; [|done]. simpl.
  rewrite signed_abs by lia. lia.
Qed.

(** ** Order *)
Lemma st_ltb_iou l r :
  (mValue l = 0 → mIsNegative l = false) → (mValue r = 0 → mIsNegative r = false) →
  0 ≤ mValue l → 0 ≤ mValue r → areComparable l r = true →
  st_ltb l r = inr (iou_lt (num l) (num r)).
Proof.
  intros Zl Zr Hl Hr Hc. unfold st_ltb, iou_lt. rewrite Hc. simpl. unfold mret, fallible_ret. f_equal.
  assert (∀ a, (mValue a = 0 → mIsNegative a = false) → 0 ≤ mValue a →
    (signed (mIsNegative a) (mValue a) <? 0) = mIsNegative a ∧
    (signed (mIsNegative a) (mValue a) =? 0) = (mValue a =? 0)) as H.
  { intros a Za Ha. unfold signed. destruct (mIsNegative a), (Z.eqb_spec (mValue a) 0); try (specialize (Za e)); try done; lia. }
  destruct (H l Zl Hl) as [-> ->], (H r Zr Hr) as [-> ->].
  destruct (mIsNegative l) eqn:Nl, (mIsNegative r) eqn:Nr; simpl; try done;
    unfold signed; repeat case_match; try done; try lia.
Qed.

Lemma worth_native a : native_ok a → worth a = signed (mIsNegative a) (mValue a) * 10 ^ 100.
Proof. intros (_ & _ & Ho & _). unfold worth, scaled, num. cbn [mantissa_ exponent_]. by rewrite Ho. Qed.

Lemma amount_ok_sign a : amount_ok a → (mValue a = 0 → mIsNegative a = false) ∧ 0 ≤ mValue a < 2 ^ 62.
Proof. intros [(_ & _ & H)|(_ & _ & _ & H & Hs)]; amount_consts; intuition lia. Qed.

Lemma comparable_kind l r :
  amount_ok l → amount_ok r → areComparable l r = true →
  (issued_ok l ∧ issued_ok r) ∨ (native_ok l ∧ native_ok r).
Proof.
  intros [Hl|Hl] [Hr|Hr] Hc; [by left| | |by right]; exfalso; destruct Hl as [Nl _], Hr as [Nr _];
    unfold areComparable in Hc; rewrite Nl, Nr in Hc; done.
Qed.

Lemma st_eqb_iou l r : areComparable l r = true →
  (mValue l = 0 → mIsNegative l = false) → (mValue r = 0 → mIsNegative r = false) →
  0 ≤ mValue l → 0 ≤ mValue r →
  st_eqb l r = iou_eqb (num l) (num r).
Proof.
  intros Hc Zl Zr Hl Hr. unfold st_eqb, iou_eqb. rewrite Hc. simpl.
  unfold signed. destruct (mIsNegative l), (mIsNegative r); simpl; repeat case_match; try done;
    destruct (Z.eqb_spec (mOffset l) (mOffset r)); simpl; try done; try lia.
Qed.

Lemma native_order l r :
  native_ok l → native_ok r →
  iou_lt (num l) (num r) = (worth l <? worth r) ∧ iou_eqb (num l) (num r) = (worth l =? worth r).
Proof.
  intros Hl Hr. rewrite !worth_native by done. destruct Hl as (_ & _ & Ol & Vl & Sl), Hr as (_ & _ & Or & Vr & Sr).
  pose proof (pow10_pos 100 ltac:(lia)) as Hp. generalize dependent (10 ^ 100). intros k Hp.
  unfold iou_lt, iou_eqb, num. cbn [mantissa_ exponent_]. rewrite Ol, Or.
  set (x := signed (mIsNegative l) (mValue l)) in *. set (y := signed (mIsNegative r) (mValue r)) in *.
  assert ((x * k <? y * k) = (x <? y)) as -> by (destruct (Z.ltb_spec x y); nia).
  assert ((x * k =? y * k) = (x =? y)) as -> by (destruct (Z.eqb_spec x y); nia).
  split; [|done]. change (0 <? 0) with false. repeat case_match; try done; lia.
Qed.

(** ** Sums *)
Lemma signed_value_num a : 0 ≤ mValue a < 2 ^ 62 → signed_value a = mantissa_ (num a).
Proof. intros Hv. unfold signed_value, num, signed. simpl. by rewrite i64_small by lia. Qed.

Lemma num_zero a : issued_ok a → iou_eqb (num a) iou_zero = is_zero a.
Proof.
  intros Ha. rewrite is_zero_spec. destruct Ha as (_ & _ & [(Hv & Ho & Hn)|[Hv Ho]]).
  - unfold num, iou_eqb, signed. by rewrite Hv, Ho, Hn.
  - amount_consts. unfold iou_eqb, num. simpl. replace (mOffset a =? -100) with false by lia. simpl. lia.
Qed.

Lemma abs_bound z n : Z.abs z < n → - n < z < n.
Proof. lia. Qed.

Lemma issued_plus_iou v1 v2 :
  issued_ok v1 → issued_ok v2 → areComparable v1 v2 = true →
  st_plus v1 v2 = thrown (match iou_add (num v1) (num v2) with
                          | Ok x => Ok (of_num (mIssue v1) x)
                          | IOUAmount.Throw e => IOUAmount.Throw e
                          end).
Proof.
  intros H1 H2 Hc. unfold st_plus, iou_add. rewrite Hc. cbn [negb]. rewrite !num_zero by done.
  destruct (is_zero v2) eqn:Z2; [by rewrite of_num_num|]. destruct (is_zero v1) eqn:Z1.
  { unfold amount. pose proof H1 as (_ & X1 & _). pose proof H2 as (_ & _ & V2).
    rewrite canonicalize_issued by (done || (simpl; amount_consts; lia)).
    unfold num at 1. simpl. fold (num v2). by rewrite normalize_canonical by (by apply num_canonical). }
  pose proof H1 as (N1 & X1 & _). rewrite N1.
  destruct (amount_ok_sign v1 (or_introl H1)) as [_ B1]. destruct (amount_ok_sign v2 (or_introl H2)) as [_ B2].
  rewrite !signed_value_num by done. change (mOffset v1) with (exponent_ (num v1)). change (mOffset v2) with (exponent_ (num v2)).
  pose proof (aligned_error (num v1) (num v2) (num_canonical _ H1) (num_canonical _ H2)) as [_ Hb].
  set (x := num v1) in *. set (y := num v2) in *.
  assert (shift_right (exponent_ y - exponent_ x) (mantissa_ x) = shift_right (top x y - exponent_ x) (mantissa_ x)) as ->.
  { unfold shift_right, top. f_equal. lia. }
  fold (top x y). fold (aligned x y). apply abs_bound in Hb. rewrite i64_small by lia.
  destruct ((-10 <=? aligned x y) && (aligned x y <=? 10)) eqn:E10.
  { unfold amount0, amount. rewrite canonicalize_issued by (done || simpl; lia). done. }
  destruct (Z.leb_spec 0 (aligned x y)); unfold amount; rewrite u64_small by lia;
    rewrite canonicalize_issued by (done || (simpl; lia)); unfold num; simpl; try done.
  by rewrite Z.opp_involutive.
Qed.

Lemma native_plus v1 v2 :
  native_ok v1 → native_ok v2 → areComparable v1 v2 = true →
  v1 = mkAmount xrpIssue (mValue v1) 0 true (mIsNegative v1) →
  st_plus v1 v2 = if is_zero v1 && negb (is_zero v2) && (cMaxNativeN <? mValue v2) then raise a_runtime_error
                  else inr (native_amount (mantissa_ (num v1) + mantissa_ (num v2))).
Proof.
  intros H1 H2 Hc Hi. unfold st_plus. rewrite Hc. cbn [negb]. rewrite !is_zero_spec.
  destruct H1 as (N1 & X1 & O1 & V1 & S1), H2 as (N2 & X2 & O2 & V2 & S2).
  assert (∀ n v, 0 ≤ v < 2 ^ 62 → (v = 0 → n = false) →
    native_amount (signed n v) = mkAmount xrpIssue v 0 true n) as Hna.
  { intros n v Hv Hn. unfold native_amount, signed. destruct n.
    - assert (v ≠ 0) by (intros ->; by specialize (Hn eq_refl)). replace (- v <? 0) with true by lia.
      by rewrite Z.opp_involutive, u64_small by lia.
    - replace (v <? 0) with false by lia. by rewrite u64_small by lia. }
  destruct (Z.eqb_spec (mValue v2) 0) as [Z2|Z2].
  { rewrite andb_false_r. simpl. unfold num. simpl. replace (signed (mIsNegative v2) (mValue v2)) with 0 by (rewrite Z2; by destruct (mIsNegative v2)).
    rewrite Z.add_0_r, Hna by done. by rewrite Hi at 1. }
  destruct (Z.eqb_spec (mValue v1) 0) as [Z1|Z1]; cbn [andb negb].
  { unfold amount, canonicalize. change (amount_isXRP _) with (amount_isXRP v1). rewrite X1.
    cbn [mValue mOffset mIsNegative]. rewrite O2. replace (mValue v2 =? 0) with false by lia.
    change (mul10 0 (div10 (- 0) (mValue v2))) with (mValue v2).
    destruct (cMaxNativeN <? mValue v2); [done|]. unfold num. cbn [mantissa_].
    replace (signed (mIsNegative v1) (mValue v1)) with 0 by (rewrite Z1; by destruct (mIsNegative v1)).
    rewrite Z.add_0_l, Hna by done. rewrite Hi. done. }
  rewrite N1. unfold getSNValue. rewrite N1, N2. cbn. rewrite (i64_small (mValue v1)), (i64_small (mValue v2)) by lia. unfold mret, fallible_ret. f_equal. f_equal.
  unfold signed. apply i64_small. destruct (mIsNegative v1), (mIsNegative v2); lia.
Qed.

(** * Amounts on the wire

    The word of a serialized amount packs a flag, a sign, an exponent and a mantissa.
    [parse_amount] reads back what [amount_bytes] writes, and reads nothing else. *)

(** ** Packed words *)
Lemma testbit_high v k i : 0 ≤ v < 2 ^ k → k ≤ i → Z.testbit v i = false.
Proof.
  intros Hv Hi. destruct (decide (0 ≤ k)).
  - rewrite <- (Z.mod_small v (2 ^ k)) by done. by apply Z.mod_pow2_bits_high.
  - rewrite Z.pow_neg_r in Hv by lia. lia.
Qed.

Lemma lor_pack v n k : 0 ≤ k → 0 ≤ v < 2 ^ k → Z.lor v (n * 2 ^ k) = n * 2 ^ k + v.
Proof.
  intros Hk Hv. pose proof (Z.add_lor_land v (n * 2 ^ k)) as H.
  replace (Z.land v (n * 2 ^ k)) with 0 in H; [lia|]. symmetry. apply Z.bits_inj'. intros m Hm.
  rewrite Z.land_spec, Z.bits_0, Z.mul_pow2_bits by lia. destruct (decide (m < k)).
  - by rewrite (Z.testbit_neg_r n), andb_false_r by lia.
  - by rewrite (testbit_high v k) by (done || lia).
Qed.

Lemma land_clear v n k : 0 ≤ k → 0 ≤ n → 0 ≤ v < 2 ^ (k + n) →
  Z.land v (Z.lnot (Z.shiftl (Z.ones n) k)) = v mod 2 ^ k.
Proof.
  intros Hk Hn Hv. apply Z.bits_inj'. intros m Hm.
  rewrite Z.land_spec, Z.lnot_spec, Z.shiftl_spec by lia. destruct (decide (m < k)).
  - by rewrite Z.mod_pow2_bits_low, (Z.testbit_neg_r (Z.ones n)), andb_true_r by lia.
  - rewrite Z.mod_pow2_bits_high by lia. destruct (decide (m < k + n)).
    + by rewrite Z.ones_spec_low, andb_false_r by lia.
    + by rewrite (testbit_high v (k + n)) by (done || lia).
Qed.

Lemma land_pow2 v k : 0 ≤ k → Z.land v (2 ^ k) = if Z.testbit v k then 2 ^ k else 0.
Proof.
  intros Hk. rewrite Z.land_comm. apply Z.bits_inj'. intros m Hm. rewrite Z.land_spec, Z.pow2_bits_eqb by lia.
  destruct (Z.eqb_spec k m) as [<-|]; simpl.
  - destruct (Z.testbit v k); [by rewrite Z.pow2_bits_true by lia|by rewrite Z.bits_0].
  - destruct (Z.testbit v k); [by rewrite Z.pow2_bits_false by lia|by rewrite Z.bits_0].
Qed.

Lemma land_pow2_zero v k : 0 ≤ k → (Z.land v (2 ^ k) =? 0) = ((v / 2 ^ k) mod 2 =? 0).
Proof.
  intros Hk. rewrite land_pow2, Z.testbit_eqb by lia. assert (0 < 2 ^ k) by (apply Z.pow_pos_nonneg; lia).
  pose proof (Z.mod_pos_bound (v / 2 ^ k) 2 ltac:(lia)). destruct (Z.eqb_spec ((v / 2 ^ k) mod 2) 1); lia.
Qed.

(** A flag is the top bit of what is below the next power of two. *)
Lemma land_flag v k : 0 ≤ k → 0 ≤ v < 2 ^ (k + 1) → (Z.land v (2 ^ k) =? 0) = (v <? 2 ^ k).
Proof.
  intros Hk Hv. rewrite land_pow2_zero by done.
  assert (0 < 2 ^ k) by (apply Z.pow_pos_nonneg; lia). rewrite Z.pow_add_r in Hv by lia.
  destruct (Z.ltb_spec v (2 ^ k)).
  - by rewrite Z.div_small by lia.
  - assert (v / 2 ^ k = 1) as -> by (symmetry; apply (Z.div_unique _ _ 1 (v - 2 ^ k)); lia). done.
Qed.

Lemma land_flag_word v : 0 ≤ v < 2 ^ 64 → (Z.land v cNotNative =? 0) = (v <? 2 ^ 63).
Proof. apply (land_flag v 63). lia. Qed.
Lemma land_flag_pos v : 0 ≤ v < 2 ^ 63 → (Z.land v cPosNative =? 0) = (v <? 2 ^ 62).
Proof. apply (land_flag v 62). lia. Qed.
Lemma land_flag_sign v : (Z.land v 256 =? 0) = (v / 256 mod 2 =? 0).
Proof. apply (land_pow2_zero v 8). lia. Qed.
Lemma land_byte v : Z.land v 255 = v mod 256.
Proof. apply (Z.land_ones v 8). lia. Qed.
Lemma clear_pos v : 0 ≤ v < 2 ^ 63 → Z.land v (Z.lnot cPosNative) = v mod 2 ^ 62.
Proof. intros Hv. apply (land_clear v 1 62); lia. Qed.
Lemma clear_top v : 0 ≤ v < 2 ^ 64 → Z.land v (Z.lnot (Z.shiftl 1023 (64 - 10))) = v mod 2 ^ 54.
Proof. intros Hv. apply (land_clear v 10 54); lia. Qed.

(** ** The word of an amount *)
Definition word (a : STAmount) : Z :=
  if mIsNative a then if mIsNegative a then mValue a else 2 ^ 62 + mValue a
  else if mValue a =? 0 then 2 ^ 63
  else (mOffset a + 97 + 512 + (if mIsNegative a then 0 else 256)) * 2 ^ 54 + mValue a.
Definition word_bytes (v : Z) : Blob := (add64 [] v).2.
Definition wire (a : STAmount) : Blob :=
  word_bytes (word a) ++
  (if mIsNative a then [] else currency (mIssue a) ++ account (mIssue a)).

(** The amounts that can be sent. *)
Definition wire_ok (a : STAmount) : Prop :=
  (native_ok a ∧ mIssue a = xrpIssue) ∨
  (issued_ok a ∧ isXRP (account (mIssue a)) = false ∧
   size (currency (mIssue a)) = 20 ∧ size (account (mIssue a)) = 20).

Lemma word_range a : wire_ok a → 0 ≤ word a < 2 ^ 64.
Proof.
  intros [[(Hn & _ & _ & Hv & _) _]|[(Hn & _ & H) _]]; unfold word; rewrite Hn.
  - destruct (mIsNegative a); lia.
  - amount_consts. destruct (Z.eqb_spec (mValue a) 0); [lia|]. destruct (mIsNegative a); lia.
Qed.

Lemma add64_word s v : (add64 s v).2 = s ++ word_bytes v.
Proof. done. Qed.
Lemma addBits_app s v : (addBitString s v).2 = s ++ v.
Proof. done. Qed.

Lemma amount_bytes_wire a s : wire_ok a → amount_bytes a s = s ++ wire a.
Proof.
  intros Ha. pose proof (word_range a Ha) as Hw. unfold amount_bytes, wire.
  destruct Ha as [[(Hn & _ & _ & Hv & _) _]|[(Hn & _ & H) _]]; unfold word in *; rewrite Hn in *; rewrite !add64_word.
  - rewrite app_nil_r. destruct (mIsNegative a); simpl; [done|].
    change cPosNative with (1 * 2 ^ 62). by rewrite lor_pack, Z.mul_1_l by lia.
  - rewrite is_zero_spec, !addBits_app.
    destruct (Z.eqb_spec (mValue a) 0); [by rewrite <- !(assoc_L (++))|]. amount_consts. destruct H as [H|[Hv Ho]]; [lia|].
    destruct (mIsNegative a); change (64 - 10) with 54;
      rewrite (u64_small (mOffset a + _ + _)) || rewrite (u64_small (mOffset a + _ + _ + _)); try lia;
      rewrite Z.shiftl_mul_pow2, u64_small, lor_pack by lia; rewrite <- !(assoc_L (++)); do 3 f_equal; lia.
Qed.

Lemma reads_word v : 0 ≤ v < 2 ^ 64 → reads get64 (word_bytes v) v.
Proof. intros Hv. destruct (reads_get64 [] v Hv) as (bs & Hb & _ & Hr). unfold word_bytes. by rewrite Hb. Qed.

Lemma reads_bits n v : size v = n → reads (getBitString n) v v.
Proof. intros <-. apply reads_bytes. Qed.

(** The top ten bits and the rest. *)
Lemma unpack t v : 0 ≤ v < 2 ^ 54 → (t * 2 ^ 54 + v) mod 2 ^ 54 = v ∧ Z.shiftr (t * 2 ^ 54 + v) (64 - 10) = t.
Proof.
  intros Hv. rewrite Z.shiftr_div_pow2 by lia. change (64 - 10) with 54.
  rewrite Z.add_comm, Z.mod_add, Z.div_add, Z.mod_small, Z.div_small by lia. lia.
Qed.

Lemma reads_amount a : wire_ok a → reads parse_amount (wire a) a.
Proof.
  intros Ha. pose proof (word_range a Ha) as Hw. unfold wire, parse_amount.
  eapply reads_bind; [by apply reads_word|]. rewrite land_flag_word by done.
  destruct Ha as [[(Hn & Hx & Ho & Hv & Hz) Hi]|[(Hn & Hx & H) (Hxa & Hsc & Hsa)]];
    destruct a as [i v o nat neg]; unfold word in *; cbn [mIsNative mIsNegative mValue mOffset mIssue] in *; subst nat.
  - subst o i. destruct neg.
    + replace (v <? 2 ^ 63) with true by lia. rewrite land_flag_pos by lia.
      replace (v <? 2 ^ 62) with true by lia. simpl.
      destruct (Z.eqb_spec v 0) as [->|]; [by specialize (Hz eq_refl)|]. apply reads_ret.
    + replace (2 ^ 62 + v <? 2 ^ 63) with true by lia. rewrite land_flag_pos, clear_pos by lia.
      replace (2 ^ 62 + v <? 2 ^ 62) with false by lia. cbn [negb].
      replace ((2 ^ 62 + v) mod 2 ^ 62) with v by (rewrite Z.add_comm, <- (Z.mul_1_l (2 ^ 62)) at 1; rewrite Z.mod_add, Z.mod_small by lia; done).
      apply reads_ret.
  - unfold amount_isXRP in Hx. cbn [mIssue] in Hx.
    assert (((if v =? 0 then 2 ^ 63 else (o + 97 + 512 + (if neg then 0 else 256)) * 2 ^ 54 + v) <? 2 ^ 63) = false) as ->.
    { amount_consts. destruct (Z.eqb_spec v 0); [done|]. destruct neg; lia. }
    eapply reads_bind; [by apply reads_bits|]. rewrite Hx.
    eapply reads_bind_nil; [by apply reads_bits|]. rewrite Hxa. rewrite clear_top by done.
    destruct i as [cur acc]. cbn [currency account] in *.
    destruct (Z.eqb_spec v 0) as [->|Hv0].
    + change (2 ^ 63 mod 2 ^ 54) with 0. change (Z.shiftr (2 ^ 63) (64 - 10)) with 512. cbn [negb Z.eqb Pos.eqb].
      destruct H as [(_ & -> & ->)|H]; [|amount_consts; lia].
      unfold canonicalize, amount_isXRP. simpl. rewrite Hx. apply reads_ret.
    + destruct H as [H|[Hv Hoff]]; [lia|]. amount_consts.
      set (t := o + 97 + 512 + (if neg then 0 else 256)) in *.
      destruct (unpack t v ltac:(lia)) as [-> ->]. rewrite (proj2 (Z.eqb_neq v 0)) by done. cbn [negb].
      rewrite land_byte, land_flag_sign.
      assert (t mod 256 - 97 = o ∧ (t / 256 mod 2 =? 0) = neg) as [-> ->].
      { unfold t. destruct neg; Z.to_euclidean_division_equations; lia. }
      replace ((v <? 1000000000000000) || (9999999999999999 <? v) || (o <? -96) || (80 <? o)) with false by lia.
      rewrite canonicalize_ok_issued; [apply reads_ret|].
      split; [done|]. split; [done|]. right. simpl. amount_consts. lia.
Qed.

(** ** Only canonical encodings are read *)
Lemma bytes_inv n it bs it' :
  iter_ok it → 0 ≤ n < 2 ^ 64 → bytes_of_size n it = inr (bs, it') →
  size bs = n ∧ p_ it = bs ++ p_ it' ∧ it' = advance n it ∧ iter_ok it'.
Proof.
  intros Hit Hn. rewrite bytes_of_size_spec by done. destruct (Z.ltb_spec (remain_ it) n); [done|].
  intros [= <- <-]. pose proof (p_length it Hit). split.
  - unfold size. rewrite length_take_le; lia.
  - rewrite p_advance by (lia || apply Hit). rewrite take_drop. split; [done|]. split; [done|]. apply advance_ok; [done|lia].
Qed.

Lemma digit_of hi b lo k : 0 ≤ k → 0 ≤ b < 256 → 0 ≤ lo < 2 ^ k → ((hi * 256 + b) * 2 ^ k + lo) / 2 ^ k mod 256 = b.
Proof.
  intros Hk Hb Hlo. rewrite Z.add_comm, Z.div_add, (Z.div_small lo) by lia.
  by rewrite Z.add_0_l, Z.add_comm, Z.mod_add, Z.mod_small by lia.
Qed.

Lemma word_bytes_of b0 b1 b2 b3 b4 b5 b6 b7 v :
  in_base 256 [b0; b1; b2; b3; b4; b5; b6; b7] →
  v = b0 * 2 ^ 56 + b1 * 2 ^ 48 + b2 * 2 ^ 40 + b3 * 2 ^ 32 + b4 * 2 ^ 24 + b5 * 2 ^ 16 + b6 * 2 ^ 8 + b7 →
  0 ≤ v < 2 ^ 64 ∧ word_bytes v = [b0; b1; b2; b3; b4; b5; b6; b7].
Proof.
  unfold in_base. rewrite !Forall_cons. intros (B0 & B1 & B2 & B3 & B4 & B5 & B6 & B7 & _) Hv.
  split; [lia|]. unfold word_bytes, add64, append. cbn [snd app]. written_bytes.
  assert (∀ k b hi lo, 0 ≤ k → 0 ≤ b < 256 → v = (hi * 256 + b) * 2 ^ k + lo → 0 ≤ lo < 2 ^ k → (v / 2 ^ k) mod 256 = b) as D.
  { intros k b hi lo Hk Hb -> Hlo. by apply digit_of. }
  rewrite (D 56 b0 0 (v - b0 * 2 ^ 56)), (D 48 b1 b0 (v - (b0 * 256 + b1) * 2 ^ 48)),
    (D 40 b2 (b0 * 2 ^ 8 + b1) (v - ((b0 * 2 ^ 8 + b1) * 256 + b2) * 2 ^ 40)),
    (D 32 b3 ((b0 * 2 ^ 8 + b1) * 2 ^ 8 + b2) (v - (((b0 * 2 ^ 8 + b1) * 2 ^ 8 + b2) * 256 + b3) * 2 ^ 32)),
    (D 24 b4 (v / 2 ^ 32) (v mod 2 ^ 24)), (D 16 b5 (v / 2 ^ 24) (v mod 2 ^ 16)), (D 8 b6 (v / 2 ^ 16) (v mod 2 ^ 8))
    by (Z.to_euclidean_division_equations; lia).
  replace (v mod 256) with b7 by (Z.to_euclidean_division_equations; lia). done.
Qed.

Lemma get64_inv it v it' :
  iter_ok it → in_base 256 (buffer it) → get64 it = inr (v, it') →
  0 ≤ v < 2 ^ 64 ∧ p_ it = word_bytes v ++ p_ it' ∧ it' = advance 8 it ∧ iter_ok it'.
Proof.
  intros Hit Hb. assert (in_base 256 (p_ it)) as Hp by by apply Forall_drop.
  unfold get64, mbind, reader_bind. destruct (bytes_of_size 8 it) as [|[bs it1]] eqn:E; [done|].
  apply bytes_inv in E as (Hs & Hpe & -> & Hit1); [|done|lia].
  assert (length bs = 8%nat) as Hl by (unfold size in Hs; lia).
  do 8 (destruct bs as [|? bs]; [done|]). destruct bs; [|done].
  rewrite Hpe in Hp. apply Forall_app in Hp as [Hp _].
  intros [= <- <-]. rewrite !Z.shiftl_mul_pow2 by lia.
  edestruct word_bytes_of as [Hr Hw]; [exact Hp|reflexivity|]. split; [exact Hr|]. rewrite Hpe, Hw. done.
Qed.

Lemma word_split v : 2 ^ 63 ≤ v < 2 ^ 64 →
  let t := Z.shiftr v (64 - 10) in let m := v mod 2 ^ 54 in
  v = t * 2 ^ 54 + m ∧ 512 ≤ t < 1024 ∧ 0 ≤ m < 2 ^ 54.
Proof. intros Hv. cbv zeta. rewrite Z.shiftr_div_pow2 by lia. change (64 - 10) with 54. Z.to_euclidean_division_equations. lia. Qed.

Lemma parse_amount_inv it a it' :
  iter_ok it → in_base 256 (buffer it) → parse_amount it = inr (a, it') →
  wire_ok a ∧ p_ it = wire a ++ p_ it' ∧ it' = advance (size (wire a)) it.
Proof.
  intros Hit Hb. unfold parse_amount. unfold mbind at 1, reader_bind at 1.
  destruct (get64 it) as [|[v it1]] eqn:E1; [done|].
  destruct (get64_inv _ _ _ Hit Hb E1) as (Hv & Hp & -> & Hit1). rewrite land_flag_word by done.
  destruct (Z.ltb_spec v (2 ^ 63)) as [Hn|Hn].
  { rewrite land_flag_pos, clear_pos by lia. unfold wire, wire_ok, native_ok, word, amount_isXRP.
    destruct (Z.ltb_spec v (2 ^ 62)) as [Hp2|Hp2]; cbn [negb].
    - destruct (Z.eqb_spec v 0); [done|]. intros [= <- <-]. cbn [mIsNative mIsNegative mValue mOffset mIssue]. rewrite app_nil_r.
      split; [left; split_and!; try done; lia|done].
    - intros [= <- <-]. cbn [mIsNative mIsNegative mValue mOffset mIssue]. rewrite app_nil_r.
      assert (v mod 2 ^ 62 = v - 2 ^ 62) as -> by (symmetry; apply (Z.mod_unique _ _ 1); lia).
      replace (2 ^ 62 + (v - 2 ^ 62)) with v by lia. split; [left; split_and!; try done; lia|done]. }
  unfold mbind at 1, reader_bind at 1.
  destruct (getBitString 20 (advance 8 it)) as [|[cur it2]] eqn:E2; [done|].
  apply bytes_inv in E2 as (Sc & Hp2 & -> & Hit2); [|done|lia].
  destruct (isXRP cur) eqn:Xc; [done|]. unfold mbind at 1, reader_bind at 1.
  destruct (getBitString 20 _) as [|[acc it3]] eqn:E3; [done|].
  apply bytes_inv in E3 as (Sa & Hp3 & -> & Hit3); [|done|lia].
  destruct (isXRP acc) eqn:Xa; [done|]. rewrite clear_top by done.
  destruct (word_split v ltac:(lia)) as (Ev & Ht & Hm).
  revert Ev Ht Hm. generalize (Z.shiftr v (64 - 10)), (v mod 2 ^ 54). intros t m Ev Ht Hm.
  assert (∀ b, mIssue b = mkIssue cur acc → issued_ok b → word b = v →
    wire_ok b ∧ p_ it = wire b ++ p_ (advance 20 (advance 20 (advance 8 it))) ∧
    advance 20 (advance 20 (advance 8 it)) = advance (size (wire b)) it) as Hfin.
  { intros b Hi Hok Hw. split; [right; rewrite Hi; done|]. unfold wire. rewrite Hw, Hi, (proj1 Hok). cbn [currency account].
    rewrite <- !(assoc_L (++)), <- Hp3, <- Hp2, <- Hp. split; [done|]. rewrite !advance_advance. f_equal.
    unfold size in *. rewrite !length_app. unfold word_bytes. simpl. lia. }
  destruct (Z.eqb_spec m 0) as [Hm0|Hm0]; cbn [negb].
  - destruct (Z.eqb_spec t 512) as [Ht0|]; [|done]. unfold canonicalize, amount_isXRP. cbn [mIssue currency]. rewrite Xc.
    intros [= <- <-]. apply Hfin; [done| |unfold word; cbn; lia]. split; [done|]. split; [done|]. by left.
  - rewrite land_byte, land_flag_sign. amount_consts.
    destruct (_ || (80 <? t mod 256 - 97)) eqn:Er; [done|]. rewrite !orb_false_iff in Er. destruct Er as [[[Er1 Er2] Er3] Er4].
    rewrite canonicalize_ok_issued.
    2: { split; [done|]. split; [done|]. right. cbn [mValue mOffset]. amount_consts. lia. }
    intros [= <- <-]. apply Hfin; [done| |].
    + split; [done|]. split; [done|]. right. cbn [mValue mOffset]. amount_consts. lia.
    + unfold word. cbn [mIsNative mIsNegative mValue mOffset]. rewrite (proj2 (Z.eqb_neq m 0)) by done. rewrite Ev.
      f_equal. f_equal. destruct (Z.eqb_spec (t / 256 mod 2) 0); Z.to_euclidean_division_equations; lia.
Qed.
