(* ===== verification/STAmountArith.v ===== *)
(** * Amounts: products, quotients and rates

    How far products and quotients of amounts are from the exact ones, in units of
    the last place of the result, and in which direction they round. *)

From stdpp Require Import prelude list.
From Stdlib Require Import ZArith Lia.
From S2P Require Import Prelude.
From S2P Require Import Serializer.
From S2P Require Import IOUAmount.
From S2P Require Import IOUTheorems.
From S2P Require Import STAmount.
From S2P Require Import STAmountSpec.

(** ** Canonical form, by the number of digits *)
Lemma digits_pos q v : digits q v → 0 < v.
Proof. intros (? & ? & _). pose proof (pow10_pos q ltac:(lia)). lia. Qed.

Lemma amount_digits issue v o n q :
  isXRP (currency issue) = false → digits q v → v < 2 ^ 64 →
  amount issue v o n =
  if q + o <? -81 then inr (mkAmount issue 0 (-100) false false)
  else if 95 <? q + o then raise a_runtime_error
  else inr (mkAmount issue (norm_mantissa q v) (q + o - 15) false n).
Proof.
  intros Hi Hd Hv. pose proof (digits_pos q v Hd) as Hp. unfold amount.
  rewrite canonicalize_issued by (done || (simpl; lia)). unfold num. cbn [mIsNegative mValue mOffset mIssue].
  rewrite (normalize_digits _ o q) by (rewrite signed_abs by lia; done || lia).
  rewrite signed_abs by lia. destruct (q + o <? -81); [done|]. destruct (95 <? q + o); [done|].
  cbn [thrown]. unfold of_num. cbn [mantissa_ exponent_].
  pose proof (digits_pos _ _ (norm_mantissa_digits q v Hd)). unfold signed.
  destruct n; [rewrite Z.sgn_neg by lia|rewrite Z.sgn_pos by lia]; do 2 f_equal; lia.
Qed.

(** Of a mantissa with more than 16 digits the last [k] are cut off. *)
Lemma amount_cut issue v o n r :
  isXRP (currency issue) = false → 10 ^ 16 ≤ v < 2 ^ 64 → amount issue v o n = inr r → is_zero r = false →
  ∃ k, 1 ≤ k ∧ mOffset r = o + k ∧ mIsNegative r = n ∧ mIssue r = issue ∧
       mValue r * 10 ^ k ≤ v < (mValue r + 1) * 10 ^ k.
Proof.
  intros Hi Hv Hr Hz. destruct (digits_exist v ltac:(lia)) as [q Hd].
  pose proof (digits_lt q v 16 Hd ltac:(lia)) as Hq. rewrite (amount_digits _ _ _ _ q) in Hr by (done || lia).
  destruct (q + o <? -81); [injection Hr as <-; done|]. destruct (95 <? q + o); [done|].
  injection Hr as <-. exists (q - 15). cbn [mOffset mIsNegative mIssue mValue]. unfold norm_mantissa.
  replace (q <=? 15) with false by lia. split_and!; try done; try lia.
  - rewrite Z.mul_comm. apply Z.mul_div_le, pow10_pos. lia.
  - rewrite Z.mul_comm. apply Z.mul_succ_div_gt, pow10_pos. lia.
Qed.

(** A 16-digit mantissa is left alone. *)
Lemma amount_kept issue v o n r :
  isXRP (currency issue) = false → cMinValue ≤ v ≤ cMaxValue → amount issue v o n = inr r → is_zero r = false →
  mOffset r = o ∧ mIsNegative r = n ∧ mIssue r = issue ∧ mValue r = v.
Proof.
  amount_consts. intros Hi Hv Hr Hz. rewrite (amount_digits _ _ _ _ 15) in Hr by (done || (split; lia) || lia).
  destruct (15 + o <? -81); [injection Hr as <-; done|]. destruct (95 <? 15 + o); [done|].
  injection Hr as <-. cbn. split_and!; try done; lia.
Qed.

(** ** Operands *)
Lemma to_min_spec fuel : ∀ v o q,
  digits q v → 15 - q < Z.of_nat fuel → to_min fuel v o = (v * 10 ^ Z.max 0 (15 - q), o - Z.max 0 (15 - q)).
Proof.
  induction fuel as [|fuel IH]; intros v o q Hd Hf; cbn [to_min].
  { replace (Z.max 0 (15 - q)) with 0 by lia. f_equal; lia. }
  change cMinValue with minMantissa. rewrite (minMantissa_digits q v Hd). destruct (Z.ltb_spec q 15).
  2: { replace (Z.max 0 (15 - q)) with 0 by lia. f_equal; lia. }
  pose proof (digits_mul q v 1 Hd ltac:(lia)) as Hd'. change (10 ^ 1) with 10 in Hd'.
  pose proof (digits_lt q v 15 Hd ltac:(lia)). pose proof (digits_pos _ _ Hd).
  rewrite u64_small, (IH _ _ (q + 1)) by (done || lia).
  replace (Z.max 0 (15 - q)) with (15 - (q + 1) + 1) by lia. rewrite pow10_S by lia.
  replace (Z.max 0 (15 - (q + 1))) with (15 - (q + 1)) by lia. f_equal; lia.
Qed.

(** The operand's number: a mantissa of at least 16 digits. *)
Lemma operand_spec a v o :
  amount_ok a → is_zero a = false → operand a = (v, o) →
  cMinValue ≤ v ∧ v ≤ Z.max cMaxValue (mValue a) ∧ -100 ≤ o ≤ 80 ∧
  Z.abs (worth a) = v * 10 ^ (o + 100) ∧ (mIsNegative a = (worth a <? 0)).
Proof.
  intros Ha Hz. rewrite is_zero_spec in Hz. apply Z.eqb_neq in Hz.
  destruct (amount_ok_sign a Ha) as [_ Hv]. unfold worth, scaled, num. cbn [mantissa_ exponent_].
  destruct Ha as [(Hn & _ & H)|(Hn & _ & Ho & _)]; unfold operand; rewrite Hn.
  - intros [= <- <-]. amount_consts. pose proof (pow10_pos (mOffset a + 100) ltac:(lia)).
    split_and!; try lia; [rewrite Z.abs_mul, signed_abs by lia; nia|]. unfold signed. destruct (mIsNegative a); nia.
  - destruct (digits_exist (mValue a) ltac:(lia)) as [q Hd]. pose proof (digits_lt q (mValue a) 20 Hd ltac:(lia)).
    pose proof (proj1 Hd). rewrite (to_min_spec 20 _ _ q) by (done || lia). rewrite Ho. intros [= <- <-].
    set (k := Z.max 0 (15 - q)). assert (0 < 10 ^ k) by (apply pow10_pos; lia).
    pose proof (digits_mul q (mValue a) k Hd ltac:(lia)) as (_ & Hlo & Hhi). amount_consts.
    assert (10 ^ 15 ≤ 10 ^ (q + k)) by (apply pow10_le; lia).
    split_and!; [lia| |lia|lia| |].
    + destruct (decide (q ≤ 15)).
      * replace (q + k + 1) with 16 in Hhi by lia. lia.
      * replace k with 0 in * by lia. lia.
    + rewrite Z.abs_mul, signed_abs, Z.abs_eq by (lia || (apply Z.lt_le_incl, pow10_pos; lia)).
      replace (0 + 100) with (k + (0 - k + 100)) by lia. rewrite Z.pow_add_r by lia. lia.
    + pose proof (pow10_pos (0 + 100) ltac:(lia)). unfold signed. destruct (mIsNegative a); nia.
Qed.

(** The sign of a product. *)
Lemma sign_product a b x y :
  x ≠ 0 → y ≠ 0 → a = (x <? 0) → b = (y <? 0) → negb (eqb a b) = (x * y <? 0).
Proof.
  intros Hx Hy -> ->. destruct (Z.ltb_spec x 0), (Z.ltb_spec y 0), (Z.ltb_spec (x * y) 0); simpl; try done; nia.
Qed.

Lemma muldiv_spec x y d :
  0 ≤ x < 2 ^ 64 → 0 ≤ y < 2 ^ 64 → 0 < d →
  muldiv x y d = if 2 ^ 64 - 1 <? x * y / d then raise a_overflow_error else inr (x * y / d).
Proof. intros Hx Hy Hd. unfold muldiv, u128. rewrite wrap_small by nia. done. Qed.

Lemma muldiv_round_spec x y d r :
  0 ≤ x < 2 ^ 63 → 0 ≤ y < 2 ^ 63 → 0 < d → 0 ≤ r < 2 ^ 64 →
  muldiv_round x y d r = if 2 ^ 64 - 1 <? (x * y + r) / d then raise a_overflow_error else inr ((x * y + r) / d).
Proof. intros Hx Hy Hd Hr. unfold muldiv_round, u128. rewrite (wrap_small 128 (x * y)) by nia. by rewrite wrap_small by nia. Qed.

(** ** Results

    A result within bounds given by mantissas is within the same bounds by value. *)
Definition magnitude (a : STAmount) : Z := Z.abs (worth a).

Lemma magnitude_mantissa r : 0 ≤ mValue r → magnitude r = mValue r * 10 ^ (mOffset r + 100) ∨ mOffset r < -100.
Proof.
  intros Hv. destruct (decide (mOffset r < -100)); [by right|left]. unfold magnitude, worth, scaled, num.
  cbn [mantissa_ exponent_]. rewrite Z.abs_mul, signed_abs by done.
  rewrite (Z.abs_eq (10 ^ _)); [done|]. apply Z.lt_le_incl, pow10_pos. lia.
Qed.

Lemma result_mantissa r : 0 ≤ mValue r → -100 ≤ mOffset r → magnitude r = mValue r * 10 ^ (mOffset r + 100).
Proof. intros Hv Ho. destruct (magnitude_mantissa r Hv); [done|lia]. Qed.

Lemma product_units m x1 e1 x2 e2 d o :
  -100 ≤ e1 → -100 ≤ e2 → 0 ≤ d → -100 ≤ o → o = e1 + e2 + d →
  m * 10 ^ (o + 100) * 10 ^ 100 = m * 10 ^ d * 10 ^ (e1 + e2 + 200) ∧
  10 ^ (o + 200) = 10 ^ d * 10 ^ (e1 + e2 + 200) ∧
  (x1 * 10 ^ (e1 + 100)) * (x2 * 10 ^ (e2 + 100)) = x1 * x2 * 10 ^ (e1 + e2 + 200) ∧
  0 < 10 ^ (e1 + e2 + 200).
Proof.
  intros H1 H2 Hd Ho ->. split_and!.
  - rewrite <- !Z.mul_assoc, <- !Z.pow_add_r by lia. do 2 f_equal. lia.
  - rewrite <- Z.pow_add_r by lia. f_equal. lia.
  - replace (e1 + e2 + 200) with ((e1 + 100) + (e2 + 100)) by lia. rewrite (Z.pow_add_r 10 (e1 + 100)) by lia. ring.
  - apply pow10_pos. lia.
Qed.

Lemma quotient_units m x1 e1 x2 e2 d o :
  -100 ≤ e1 → -100 ≤ e2 → 0 ≤ d → -100 ≤ o → o = e1 - e2 - 17 + d → 0 ≤ e1 + 183 →
  m * 10 ^ (o + 100) * (x2 * 10 ^ (e2 + 100)) = m * 10 ^ d * x2 * 10 ^ (e1 + 183) ∧
  10 ^ (o + 100) * (x2 * 10 ^ (e2 + 100)) = 10 ^ d * x2 * 10 ^ (e1 + 183) ∧
  (x1 * 10 ^ (e1 + 100)) * 10 ^ 100 = x1 * 10 ^ 17 * 10 ^ (e1 + 183) ∧
  0 < 10 ^ (e1 + 183).
Proof.
  intros H1 H2 Hd Ho Eo He.
  assert (10 ^ (o + 100) * 10 ^ (e2 + 100) = 10 ^ d * 10 ^ (e1 + 183)) as E.
  { rewrite <- !Z.pow_add_r by lia. f_equal. lia. }
  split_and!; [| | |apply pow10_pos; lia].
  { transitivity (m * x2 * (10 ^ (o + 100) * 10 ^ (e2 + 100))); [ring|rewrite E; ring]. }
  { transitivity (x2 * (10 ^ (o + 100) * 10 ^ (e2 + 100))); [ring|rewrite E; ring]. }
  rewrite <- !Z.mul_assoc, <- !Z.pow_add_r by lia. do 2 f_equal. lia.
Qed.

Lemma isLegalNet_bound a : amount_ok a → isLegalNet a = true → mValue a ≤ cMaxNativeN.
Proof.
  unfold isLegalNet. intros [(Hn & _ & H)|(Hn & _)]; rewrite Hn; simpl; [|lia]. intros _. amount_consts. lia.
Qed.

(** The hypotheses on the operands of a product: not two native ones. *)
Record factors (v1 v2 : STAmount) (issue : Issue) : Prop := {
  fa_1 : amount_ok v1; fa_2 : amount_ok v2;
  fa_l1 : isLegalNet v1 = true; fa_l2 : isLegalNet v2 = true;
  fa_n : mIsNative v1 && mIsNative v2 = false;
  fa_z1 : is_zero v1 = false; fa_z2 : is_zero v2 = false;
  fa_i : isXRP (currency issue) = false;
}.

Lemma factors_mantissas v1 v2 issue x1 e1 x2 e2 :
  factors v1 v2 issue → operand v1 = (x1, e1) → operand v2 = (x2, e2) →
  10 ^ 30 ≤ x1 * x2 ≤ 10 ^ 33 ∧ 0 ≤ x1 < 2 ^ 63 ∧ 0 ≤ x2 < 2 ^ 63 ∧ -100 ≤ e1 ∧ -100 ≤ e2 ∧
  magnitude v1 = x1 * 10 ^ (e1 + 100) ∧ magnitude v2 = x2 * 10 ^ (e2 + 100) ∧
  negb (eqb (mIsNegative v1) (mIsNegative v2)) = (worth v1 * worth v2 <? 0).
Proof.
  intros [A1 A2 L1 L2 Hn Z1 Z2 Hi] E1 E2.
  destruct (operand_spec v1 x1 e1 A1 Z1 E1) as (M1 & B1 & O1 & W1 & S1).
  destruct (operand_spec v2 x2 e2 A2 Z2 E2) as (M2 & B2 & O2 & W2 & S2).
  apply isLegalNet_bound in L1, L2; [|done..].
  assert (x1 ≤ 10 ^ 17 ∧ x2 ≤ 10 ^ 17 ∧ (x1 < 10 ^ 16 ∨ x2 < 10 ^ 16)) as (X1 & X2 & X12).
  { amount_consts. split; [lia|]. split; [lia|].
    destruct A1 as [(N1 & _ & H1)|(N1 & _)]; [left; amount_consts; lia|]. destruct A2 as [(N2 & _ & H2)|(N2 & _)]; [right; amount_consts; lia|].
    by rewrite N1, N2 in Hn. }
  amount_consts. split_and!; try done; try lia; try nia.
  apply sign_product; [..|done|done].
  - intros Hw. rewrite Hw in W1. pose proof (pow10_pos (e1 + 100) ltac:(lia)). nia.
  - intros Hw. rewrite Hw in W2. pose proof (pow10_pos (e2 + 100) ltac:(lia)). nia.
Qed.

(** An amount with a nonzero number has an exponent in range. *)
Lemma amount_exponent issue v o n r :
  isXRP (currency issue) = false → 0 ≤ v < 2 ^ 64 → amount issue v o n = inr r → -100 ≤ mOffset r ∧ 0 ≤ mValue r.
Proof.
  intros Hi Hv Hr. destruct (decide (v = 0)) as [->|Hv0].
  { unfold amount in Hr. rewrite canonicalize_issued in Hr by (done || (simpl; lia)).
    destruct n; cbv in Hr; injection Hr as <-; simpl; lia. }
  destruct (digits_exist v ltac:(lia)) as [q Hd]. rewrite (amount_digits _ _ _ _ q) in Hr by (done || lia).
  destruct (Z.ltb_spec (q + o) (-81)); [injection Hr as <-; simpl; lia|]. destruct (95 <? q + o); [done|].
  injection Hr as <-. simpl. pose proof (digits_pos _ _ (norm_mantissa_digits q v Hd)). lia.
Qed.

Lemma multiply_bound v1 v2 issue r :
  factors v1 v2 issue → multiply v1 v2 issue = inr r → is_zero r = false →
  mIsNegative r = (worth v1 * worth v2 <? 0) ∧
  Z.abs (magnitude r * 10 ^ 100 - magnitude v1 * magnitude v2) < 10 ^ (mOffset r + 200).
Proof.
  intros Hf Hr Hz. pose proof Hf as [_ _ _ _ Hn Z1 Z2 Hi]. unfold multiply in Hr. rewrite Z1, Z2, Hn in Hr. cbn [orb andb] in Hr.
  destruct (operand v1) as [x1 e1] eqn:E1, (operand v2) as [x2 e2] eqn:E2.
  destruct (factors_mantissas _ _ _ _ _ _ _ Hf E1 E2) as (Hx & Hx1 & Hx2 & He1 & He2 & W1 & W2 & Hs).
  unfold tenTo14 in Hr. rewrite muldiv_spec in Hr by lia. set (y := x1 * x2 / 100000000000000) in *.
  assert (10 ^ 16 ≤ y ≤ 10 ^ 19 ∧ y * 10 ^ 14 ≤ x1 * x2 < (y + 1) * 10 ^ 14) as [Hy Hy'].
  { unfold y. clear -Hx. revert Hx. generalize (x1 * x2). intros X HX. Z.to_euclidean_division_equations. lia. }
  replace (2 ^ 64 - 1 <? y) with false in Hr by lia. cbn [mbind fallible_bind] in Hr. rewrite u64_small in Hr by lia.
  destruct (amount_exponent issue (y + 7) _ _ r Hi ltac:(lia) Hr) as [Hro Hrv].
  destruct (amount_cut issue (y + 7) _ _ r Hi ltac:(lia) Hr Hz) as (k & Hk & Ho & Hneg & _ & Hm). split; [by rewrite Hneg|].
  destruct (product_units (mValue r) x1 e1 x2 e2 (k + 14) (mOffset r)) as (U1 & U2 & U3 & Hu); [lia..|].
  rewrite (result_mantissa r), W1, W2, U1, U2, U3 by lia. rewrite (Z.pow_add_r 10 k 14) by lia.
  pose proof (pow10_le 1 k Hk). change (10 ^ 1) with 10 in *. set (p := 10 ^ k) in *. set (u := 10 ^ (e1 + e2 + 200)) in *.
  rewrite <- Z.mul_sub_distr_r, Z.abs_mul, (Z.abs_eq u) by lia.
  apply Z.mul_lt_mono_pos_r; [done|]. lia.
Qed.

(** The hypotheses on a quotient: the divisor has at most 16 digits. *)
Record ratio (v1 v2 : STAmount) (issue : Issue) : Prop := {
  ra_1 : amount_ok v1; ra_2 : amount_ok v2;
  ra_l1 : isLegalNet v1 = true; ra_l2 : mValue v2 ≤ cMaxValue;
  ra_z1 : is_zero v1 = false; ra_z2 : is_zero v2 = false;
  ra_i : isXRP (currency issue) = false;
}.

Lemma ratio_mantissas v1 v2 issue x1 e1 x2 e2 :
  ratio v1 v2 issue → operand v1 = (x1, e1) → operand v2 = (x2, e2) →
  10 ^ 15 ≤ x1 ≤ 10 ^ 17 ∧ 10 ^ 15 ≤ x2 < 10 ^ 16 ∧ -100 ≤ e1 ∧ -100 ≤ e2 ∧
  magnitude v1 = x1 * 10 ^ (e1 + 100) ∧ magnitude v2 = x2 * 10 ^ (e2 + 100) ∧
  negb (eqb (mIsNegative v1) (mIsNegative v2)) = (worth v1 * worth v2 <? 0).
Proof.
  intros [A1 A2 L1 L2 Z1 Z2 Hi] E1 E2.
  destruct (operand_spec v1 x1 e1 A1 Z1 E1) as (M1 & B1 & O1 & W1 & S1).
  destruct (operand_spec v2 x2 e2 A2 Z2 E2) as (M2 & B2 & O2 & W2 & S2).
  apply isLegalNet_bound in L1; [|done]. amount_consts. split_and!; try done; try lia.
  apply sign_product; [..|done|done].
  - intros Hw. rewrite Hw in W1. pose proof (pow10_pos (e1 + 100) ltac:(lia)). nia.
  - intros Hw. rewrite Hw in W2. pose proof (pow10_pos (e2 + 100) ltac:(lia)). nia.
Qed.

Lemma quotient_digits x1 x2 c :
  10 ^ 15 ≤ x1 ≤ 10 ^ 17 → 10 ^ 15 ≤ x2 < 10 ^ 16 → 0 ≤ c < x2 →
  let y := (x1 * 10 ^ 17 + c) / x2 in
  10 ^ 16 ≤ y ≤ 10 ^ 19 ∧ y * x2 ≤ x1 * 10 ^ 17 + c < (y + 1) * x2.
Proof.
  intros H1 H2 Hc y. assert (y * x2 ≤ x1 * 10 ^ 17 + c < (y + 1) * x2) as Hy.
  { unfold y. rewrite (Z.mul_comm _ x2). split; [apply Z.mul_div_le; lia|].
    rewrite (Z.mul_comm _ x2). apply Z.mul_succ_div_gt. lia. }
  split; [|done]. split.
  - apply Z.div_le_lower_bound; lia.
  - apply Z.lt_succ_r. apply Z.div_lt_upper_bound; lia.
Qed.

Lemma divide_bound v1 v2 issue r :
  ratio v1 v2 issue → divide v1 v2 issue = inr r → is_zero r = false →
  mIsNegative r = (worth v1 * worth v2 <? 0) ∧
  Z.abs (magnitude r * magnitude v2 - magnitude v1 * 10 ^ 100) < 10 ^ (mOffset r + 100) * magnitude v2.
Proof.
  intros Hf Hr Hz. pose proof Hf as [_ _ _ _ Z1 Z2 Hi]. unfold divide in Hr. rewrite Z1, Z2 in Hr.
  destruct (operand v1) as [x1 e1] eqn:E1, (operand v2) as [x2 e2] eqn:E2.
  destruct (ratio_mantissas _ _ _ _ _ _ _ Hf E1 E2) as (Hx1 & Hx2 & He1 & He2 & W1 & W2 & Hs).
  change tenTo17 with (10 ^ 17) in Hr. rewrite muldiv_spec in Hr by lia.
  destruct (quotient_digits x1 x2 0 Hx1 Hx2 ltac:(lia)) as [Hy Hy']. rewrite Z.add_0_r in Hy, Hy'.
  set (y := x1 * 10 ^ 17 / x2) in *.
  replace (2 ^ 64 - 1 <? y) with false in Hr by lia. cbn [mbind fallible_bind] in Hr. rewrite u64_small in Hr by lia.
  destruct (amount_exponent issue (y + 5) _ _ r Hi ltac:(lia) Hr) as [Hro Hrv].
  destruct (amount_cut issue (y + 5) _ _ r Hi ltac:(lia) Hr Hz) as (k & Hk & Ho & Hneg & _ & Hm). split; [by rewrite Hneg|].
  destruct (quotient_units (mValue r) x1 e1 x2 e2 k (mOffset r)) as (U1 & U2 & U3 & Hu); [lia..|].
  rewrite (result_mantissa r), W1, W2, U1, U2, U3 by lia.
  pose proof (pow10_le 1 k Hk). change (10 ^ 1) with 10 in *. set (p := 10 ^ k) in *. set (u := 10 ^ (e1 + 183)) in *.
  rewrite <- Z.mul_sub_distr_r, Z.abs_mul, (Z.abs_eq u) by lia.
  apply Z.mul_lt_mono_pos_r; [done|]. clearbody y p u. nia.
Qed.

(** ** Directed rounding *)
Lemma round_loop_spec fuel : ∀ v o, 0 ≤ v < 10 ^ (16 + Z.of_nat fuel) → 10 ^ 16 ≤ v →
  ∃ j, 0 ≤ j ∧ round_loop fuel v o = (v / 10 ^ j, o + j) ∧ cMaxValue ≤ v / 10 ^ j ≤ 10 * cMaxValue.
Proof.
  induction fuel as [|fuel IH]; intros v o Hv Hlo; cbn [round_loop]; amount_consts.
  { change (16 + Z.of_nat 0) with 16 in Hv. lia. }
  destruct (Z.ltb_spec (10 * 9999999999999999) v) as [Hb|Hb].
  2: { exists 0. rewrite Z.pow_0_r, Z.div_1_r, Z.add_0_r. split; [lia|]. split; [done|lia]. }
  destruct (decide (v / 10 < 10 ^ 16)) as [Hs|Hs].
  - exists 1. change (10 ^ 1) with 10. assert (v / 10 = 9999999999999999) as E.
    { change (10 ^ 16) with 10000000000000000 in *. Z.to_euclidean_division_equations. lia. }
    split; [lia|]. split; [|rewrite E; lia]. destruct fuel; cbn [round_loop]; [done|].
    rewrite E. done.
  - destruct (IH (v / 10) (o + 1)) as (j & Hj & -> & Hr).
    { split; [apply Z.div_pos; lia|]. apply Z.div_lt_upper_bound; [lia|].
      rewrite <- pow10_S by lia. replace (16 + Z.of_nat fuel + 1) with (16 + Z.of_nat (S fuel)) by lia. apply Hv. }
    { lia. }
    exists (j + 1). rewrite pow10_S by lia. rewrite <- Z.div_div by (try lia; apply pow10_pos; lia).
    split; [lia|]. split; [f_equal; lia|done].
Qed.

(** Away from zero: the mantissa is the least that is not less, but for what the loop dropped. *)
Lemma canonicalizeRound_issued v o :
  10 ^ 16 ≤ v < 2 ^ 64 →
  ∃ m k, canonicalizeRound false v o = (m, o + k) ∧ 1 ≤ k ∧ cMinValue ≤ m ≤ cMaxValue ∧
         (m - 1) * 10 ^ k < v < m * 10 ^ k + 10 ^ (k - 1).
Proof.
  intros Hv. unfold canonicalizeRound. replace (cMaxValue <? v) with true by (amount_consts; lia).
  destruct (round_loop_spec 20 v o) as (j & Hj & -> & Hb); [|lia|].
  { split; [lia|]. apply Z.lt_le_trans with (2 ^ 64); [lia|]. by vm_compute. }
  pose proof (pow10_pos j Hj) as Hp.
  pose proof (Z.mul_div_le v (10 ^ j) Hp). pose proof (Z.mul_succ_div_gt v (10 ^ j) Hp).
  set (w := v / 10 ^ j) in *. amount_consts. rewrite u64_small by lia.
  exists ((w + 9) / 10), (j + 1). rewrite pow10_S by lia. replace (j + 1 - 1) with j by lia.
  set (p := 10 ^ j) in *. assert (10 * ((w + 9) / 10) - 9 ≤ w ≤ 10 * ((w + 9) / 10) ∧ 1000000000000000 ≤ (w + 9) / 10 ≤ 9999999999999999) as [Hw Hm].
  { Z.to_euclidean_division_equations. lia. }
  set (m := (w + 9) / 10) in *. clearbody w p m. split_and!; [f_equal; lia|lia|lia|lia|nia|nia].
Qed.

(** The least positive amount stands for every positive result too small for an exponent. *)
Definition least (r : STAmount) : bool := (mValue r =? cMinValue) && (mOffset r =? cMinOffset).

(** [r], in units of [ulp], is the exact number rounded toward zero, or away from it up to
    a tenth of a unit. *)
Definition rounded (away : bool) (exact r ulp : Z) : Prop :=
  if away then r - ulp < exact ∧ 10 * exact < 10 * r + ulp else r ≤ exact < r + ulp.

Lemma rounded_scale away exact r ulp u : 0 < u → rounded away exact r ulp → rounded away (exact * u) (r * u) (ulp * u).
Proof. unfold rounded. destruct away; nia. Qed.

Lemma finish_rounds sw sw2 issue amt o neg up r :
  isXRP (currency issue) = false → 10 ^ 16 ≤ amt < 2 ^ 64 →
  finish_round sw sw2 issue amt o neg up = inr r → is_zero r = false → least r = false →
  ∃ k, 1 ≤ k ∧ mOffset r = o + k ∧ mIsNegative r = neg ∧ 0 ≤ mValue r ∧ -100 ≤ mOffset r ∧
       rounded (negb (eqb neg up)) amt (mValue r * 10 ^ k) (10 ^ k).
Proof.
  intros Hi Ha Hr Hz Hl. unfold finish_round in Hr. rewrite Hi in Hr.
  assert (∀ v o' r', amount issue v o' neg = inr r' →
    (if up && negb neg && is_zero r' && sw then amount issue cMinValue cMinOffset neg else inr r') = inr r → r = r') as Hm.
  { intros v o' r' Hr'. destruct (up && negb neg && is_zero r' && sw) eqn:Eb; [|by intros [= ->]].
    intros Hr''. exfalso. destruct (amount_kept issue cMinValue cMinOffset neg r Hi ltac:(amount_consts; lia) Hr'' Hz) as (Ho & _ & _ & Hv).
    unfold least in Hl. rewrite Ho, Hv in Hl. done. }
  destruct (negb (eqb neg up)); unfold rounded.
  - destruct (canonicalizeRound_issued amt o Ha) as (m & k & Ec & Hk & Hmb & Hb). rewrite Ec in Hr.
    destruct (amount issue m (o + k) neg) as [|r'] eqn:Er; [done|]. apply (Hm _ _ _ Er) in Hr as <-.
    destruct (amount_exponent issue m _ _ r Hi ltac:(amount_consts; lia) Er) as [Hro Hrv].
    destruct (amount_kept issue _ _ _ r Hi Hmb Er Hz) as (Ho & Hneg & _ & ->).
    exists k. split_and!; try done; [amount_consts; lia| |].
    + replace k with (k - 1 + 1) in * by lia. rewrite pow10_S in * by lia. lia.
    + replace k with (k - 1 + 1) in * by lia. rewrite pow10_S in * by lia. replace (k - 1 + 1 - 1) with (k - 1) in Hb by lia. lia.
  - destruct (amount issue amt o neg) as [|r'] eqn:Er; [done|]. apply (Hm _ _ _ Er) in Hr as <-.
    destruct (amount_exponent issue amt _ _ r Hi ltac:(lia) Er) as [Hro Hrv].
    destruct (amount_cut issue amt _ _ r Hi Ha Er Hz) as (k & Hk & Ho & Hneg & _ & Hb).
    exists k. split_and!; try done; lia.
Qed.

Lemma mulRound_bound sw sw2 v1 v2 issue up r :
  factors v1 v2 issue → mulRound sw sw2 v1 v2 issue up = inr r → is_zero r = false → least r = false →
  mIsNegative r = (worth v1 * worth v2 <? 0) ∧
  rounded (negb (eqb (mIsNegative r) up))
    (magnitude v1 * magnitude v2) (magnitude r * 10 ^ 100) (10 ^ (mOffset r + 200)).
Proof.
  intros Hf Hr Hz Hl. pose proof Hf as [_ _ _ _ Hn Z1 Z2 Hi]. unfold mulRound in Hr. rewrite Z1, Z2, Hn in Hr. cbn [orb andb] in Hr.
  destruct (operand v1) as [x1 e1] eqn:E1, (operand v2) as [x2 e2] eqn:E2.
  destruct (factors_mantissas _ _ _ _ _ _ _ Hf E1 E2) as (Hx & Hx1 & Hx2 & He1 & He2 & W1 & W2 & Hs). rewrite Hs in Hr.
  set (neg := worth v1 * worth v2 <? 0) in *. set (c := if negb (eqb neg up) then tenTo14m1 else 0) in *.
  assert (c = 0 ∨ c = 10 ^ 14 - 1) as Hc by (unfold c; destruct (negb _); [right|left]; done).
  unfold tenTo14 in Hr. rewrite muldiv_round_spec in Hr by lia. set (y := (x1 * x2 + c) / 100000000000000) in *.
  assert (10 ^ 16 ≤ y ≤ 10 ^ 19 + 1 ∧ y * 10 ^ 14 ≤ x1 * x2 + c < (y + 1) * 10 ^ 14) as [Hy Hy'].
  { unfold y. clear -Hx Hc. revert Hx. generalize (x1 * x2). intros X HX. Z.to_euclidean_division_equations. lia. }
  replace (2 ^ 64 - 1 <? y) with false in Hr by lia. cbn [mbind fallible_bind] in Hr.
  destruct (finish_rounds sw sw2 issue y _ neg up r Hi ltac:(lia) Hr Hz Hl) as (k & Hk & Ho & Hneg & Hrv & Hro & Hb).
  split; [done|]. rewrite Hneg.
  destruct (product_units (mValue r) x1 e1 x2 e2 (k + 14) (mOffset r)) as (U1 & U2 & U3 & Hu); [lia..|].
  rewrite (result_mantissa r), W1, W2, U1, U2, U3 by lia. apply rounded_scale; [done|].
  rewrite (Z.pow_add_r 10 k 14) by lia. clearbody y. clear Hr. unfold c in *. clear c. unfold rounded in *.
  pose proof (pow10_le 1 k Hk). destruct (negb (eqb neg up)); unfold tenTo14m1, tenTo14 in *; lia.
Qed.

Lemma divRound_bound sw sw2 v1 v2 issue up r :
  ratio v1 v2 issue → divRound sw sw2 v1 v2 issue up = inr r → is_zero r = false → least r = false →
  mIsNegative r = (worth v1 * worth v2 <? 0) ∧
  rounded (negb (eqb (mIsNegative r) up))
    (magnitude v1 * 10 ^ 100) (magnitude r * magnitude v2) (10 ^ (mOffset r + 100) * magnitude v2).
Proof.
  intros Hf Hr Hz Hl. pose proof Hf as [_ _ _ _ Z1 Z2 Hi]. unfold divRound in Hr. rewrite Z1, Z2 in Hr.
  destruct (operand v1) as [x1 e1] eqn:E1, (operand v2) as [x2 e2] eqn:E2.
  destruct (ratio_mantissas _ _ _ _ _ _ _ Hf E1 E2) as (Hx1 & Hx2 & He1 & He2 & W1 & W2 & Hs). rewrite Hs in Hr.
  set (neg := worth v1 * worth v2 <? 0) in *. set (c := if negb (eqb neg up) then x2 - 1 else 0) in *.
  assert (0 ≤ c < x2) as Hc by (unfold c; destruct (negb _); lia).
  change tenTo17 with (10 ^ 17) in Hr. rewrite muldiv_round_spec in Hr by lia.
  destruct (quotient_digits x1 x2 c Hx1 Hx2 Hc) as [Hy Hy']. set (y := (x1 * 10 ^ 17 + c) / x2) in *.
  replace (2 ^ 64 - 1 <? y) with false in Hr by lia. cbn [mbind fallible_bind] in Hr.
  destruct (finish_rounds sw sw2 issue y _ neg up r Hi ltac:(lia) Hr Hz Hl) as (k & Hk & Ho & Hneg & Hrv & Hro & Hb).
  split; [done|]. rewrite Hneg.
  destruct (quotient_units (mValue r) x1 e1 x2 e2 k (mOffset r)) as (U1 & U2 & U3 & Hu); [lia..|].
  rewrite (result_mantissa r), W1, W2, U1, U2, U3 by lia. apply rounded_scale; [done|].
  clearbody y. clear Hr. unfold c in *. clear c. unfold rounded in *.
  pose proof (pow10_le 1 k Hk). set (p := 10 ^ k) in *. clearbody p. destruct (negb (eqb neg up)); nia.
Qed.

(** ** Rates *)
Lemma amount_made issue v o n r :
  isXRP (currency issue) = false → 0 ≤ v < 2 ^ 64 → amount issue v o n = inr r → issued_ok r ∧ mIssue r = issue.
Proof.
  intros Hi Hv Hr. destruct (decide (v = 0)) as [->|Hv0].
  { unfold amount, canonicalize, amount_isXRP in Hr. simpl in Hr. rewrite Hi in Hr. injection Hr as <-.
    split; [|done]. split; [done|]. split; [done|]. by left. }
  destruct (digits_exist v ltac:(lia)) as [q Hd]. rewrite (amount_digits _ _ _ _ q) in Hr by (done || lia).
  destruct (Z.ltb_spec (q + o) (-81)).
  { injection Hr as <-. split; [|done]. split; [done|]. split; [done|]. by left. }
  destruct (Z.ltb_spec 95 (q + o)); [done|]. injection Hr as <-. split; [|done]. split; [done|]. split; [done|].
  right. cbn [mValue mOffset]. pose proof (norm_mantissa_digits q v Hd) as (_ & Hm). amount_consts.
  change (10 ^ 15) with 1000000000000000 in Hm. change (10 ^ (15 + 1)) with 10000000000000000 in Hm. lia.
Qed.

Lemma u64_range z : 0 ≤ u64 z < 2 ^ 64.
Proof. apply Z.mod_pos_bound. lia. Qed.

Lemma divide_made num den issue r :
  isXRP (currency issue) = false → divide num den issue = inr r → issued_ok r ∧ mIssue r = issue.
Proof.
  intros Hi. unfold divide. destruct (is_zero den); [done|]. destruct (is_zero num).
  { apply (amount_made issue 0 0 false); [done|lia]. }
  destruct (operand num) as [x1 e1], (operand den) as [x2 e2]. destruct (muldiv x1 tenTo17 x2); [done|].
  apply amount_made; [done|]. apply u64_range.
Qed.

(** The word of a rate. *)
Definition rate_word (r : STAmount) : Z := if is_zero r then 0 else (mOffset r + 100) * 2 ^ 56 + mValue r.

Lemma getRate_word offerOut offerIn r :
  is_zero offerOut = false → divide offerIn offerOut noIssue = inr r → getRate offerOut offerIn = rate_word r.
Proof.
  intros Hz Hd. unfold getRate, rate_word. rewrite Hz, Hd. destruct (is_zero r) eqn:Zr; [done|].
  destruct (divide_made _ _ noIssue _ eq_refl Hd) as [(_ & _ & H) _]. rewrite is_zero_spec in Zr. amount_consts.
  change (64 - 8) with 56. rewrite (u64_small (mOffset r + 100)), Z.shiftl_mul_pow2, u64_small by lia.
  rewrite Z.lor_comm, lor_pack by lia. done.
Qed.

Lemma rate_word_unpack r :
  issued_ok r → is_zero r = false →
  Z.land (rate_word r) (Z.lnot (Z.shiftl 255 (64 - 8))) = mValue r ∧
  Z.shiftr (rate_word r) (64 - 8) - 100 = mOffset r ∧ 0 < rate_word r < 2 ^ 64.
Proof.
  intros (_ & _ & H) Zr. unfold rate_word. rewrite Zr. rewrite is_zero_spec in Zr. amount_consts.
  change (64 - 8) with 56. rewrite (land_clear _ 8 56), Z.shiftr_div_pow2 by lia.
  rewrite Z.add_comm, Z.mod_add, Z.div_add, Z.mod_small, Z.div_small by lia. lia.
Qed.

Definition unsigned (r : STAmount) : STAmount := set_number (mValue r) (mOffset r) (mIsNative r) false r.

Lemma amountFromQuality_word r :
  issued_ok r → mIssue r = noIssue → amountFromQuality (rate_word r) = inr (unsigned r).
Proof.
  intros Hr Hi. destruct (is_zero r) eqn:Zr.
  - unfold amountFromQuality, rate_word. rewrite Zr. rewrite is_zero_spec in Zr. amount_consts.
    destruct Hr as (Hn & _ & [(Hv & Ho & _)|H]); [|amount_consts; lia].
    unfold unsigned, set_number. by rewrite Hi, Hv, Ho, Hn.
  - destruct (rate_word_unpack r Hr Zr) as (E1 & E2 & Hw). unfold amountFromQuality.
    rewrite (proj2 (Z.eqb_neq _ 0)), E1, E2 by lia. unfold amount. pose proof Hr as (Hn & Hx & H).
    rewrite canonicalize_ok_issued; [unfold unsigned, set_number; by rewrite Hi, Hn|].
    split; [done|]. split; [done|]. right. cbn [mValue mOffset]. rewrite is_zero_spec in Zr. lia.
Qed.

Lemma rate_word_order r s :
  issued_ok r → issued_ok s → (rate_word r <? rate_word s) = (magnitude r <? magnitude s).
Proof.
  intros Hr Hs.
  assert (∀ a, issued_ok a → magnitude a = mValue a * 10 ^ (mOffset a + 100) ∧ -100 ≤ mOffset a ∧
    (is_zero a = true → mValue a = 0) ∧ (is_zero a = false → 10 ^ 15 ≤ mValue a < 10 ^ 16 ∧ -96 ≤ mOffset a ≤ 80)) as Hm.
  { intros a (_ & _ & H). rewrite is_zero_spec. amount_consts.
    split; [apply result_mantissa; lia|]. split; [lia|]. split; lia. }
  destruct (Hm r Hr) as (-> & Or & Zr & Nr), (Hm s Hs) as (-> & Os & Zs & Ns). clear Hm. unfold rate_word.
  pose proof (pow10_pos (mOffset r + 100) ltac:(lia)). pose proof (pow10_pos (mOffset s + 100) ltac:(lia)).
  destruct (is_zero r), (is_zero s).
  - rewrite (Zr eq_refl), (Zs eq_refl). done.
  - rewrite (Zr eq_refl). destruct (Ns eq_refl). rewrite !(proj2 (Z.ltb_lt _ _)) by nia. done.
  - rewrite (Zs eq_refl). destruct (Nr eq_refl). rewrite !(proj2 (Z.ltb_ge _ _)) by nia. done.
  - destruct (Nr eq_refl) as [Mr Or']. destruct (Ns eq_refl) as [Ms Os'].
    destruct (Z.lt_trichotomy (mOffset r) (mOffset s)) as [Ho|[Ho|Ho]].
    + rewrite (proj2 (Z.ltb_lt ((mOffset r + 100) * _ + _) _)) by lia. symmetry. apply Z.ltb_lt.
      apply exponent_dominates; amount_consts; lia.
    + rewrite Ho. destruct (Z.ltb_spec (mValue r) (mValue s)).
      * rewrite !(proj2 (Z.ltb_lt _ _)) by nia. done.
      * rewrite !(proj2 (Z.ltb_ge _ _)) by nia. done.
    + rewrite (proj2 (Z.ltb_ge ((mOffset r + 100) * _ + _) _)) by lia. symmetry. apply Z.ltb_ge.
      apply Z.lt_le_incl. apply exponent_dominates; amount_consts; lia.
Qed.

(** ** Results exist

    A product or quotient between 10^-81 and 9 * 10^94 has a nonzero result. *)
Lemma window q amt o D M :
  digits q amt → 16 ≤ q → 0 ≤ o + 200 → 0 < D →
  (amt - 7) * 10 ^ (o + 200) * D ≤ M < (amt + 1) * 10 ^ (o + 200) * D →
  10 ^ 119 * D ≤ M < 9 * 10 ^ 294 * D → -81 ≤ q + o ≤ 94.
Proof.
  intros (_ & Hlo & Hhi) Hq Ho HD HM HW. pose proof (pow10_pos (o + 200) Ho) as Hp. split.
  - apply Z.nlt_ge. intros H. pose proof (pow10_le (q + 1 + (o + 200)) 119 ltac:(lia)) as Hle.
    rewrite Z.pow_add_r in Hle by lia. set (p := 10 ^ (o + 200)) in *. set (t := 10 ^ (q + 1)) in *.
    assert ((amt + 1) * p ≤ 10 ^ 119) by nia. nia.
  - apply Z.nlt_ge. intros H. pose proof (pow10_le 294 (q - 1 + (o + 200)) ltac:(lia)) as Hle.
    rewrite Z.pow_add_r in Hle by lia. replace q with (q - 1 + 1) in Hlo by lia. rewrite pow10_S in Hlo by lia.
    pose proof (pow10_le 15 (q - 1) ltac:(lia)). set (p := 10 ^ (o + 200)) in *. set (t := 10 ^ (q - 1)) in *.
    assert (9 * t ≤ amt - 7) by lia. assert (9 * 10 ^ 294 ≤ (amt - 7) * p) by nia. nia.
Qed.

Lemma amount_in_window issue v o n q :
  isXRP (currency issue) = false → digits q v → v < 2 ^ 64 → -81 ≤ q + o ≤ 95 →
  ∃ r, amount issue v o n = inr r ∧ is_zero r = false.
Proof.
  intros Hi Hd Hv Hw. rewrite (amount_digits _ _ _ _ q) by done.
  replace (q + o <? -81) with false by lia. replace (95 <? q + o) with false by lia. eexists. split; [done|].
  rewrite is_zero_spec. cbn [mValue]. pose proof (digits_pos _ _ (norm_mantissa_digits q v Hd)). lia.
Qed.

Lemma finish_in_window sw sw2 issue amt o neg up q :
  isXRP (currency issue) = false → digits q amt → 10 ^ 16 ≤ amt < 2 ^ 64 → -81 ≤ q + o ≤ 94 →
  ∃ r, finish_round sw sw2 issue amt o neg up = inr r ∧ is_zero r = false.
Proof.
  intros Hi Hd Ha Hw. unfold finish_round. rewrite Hi. destruct (negb (eqb neg up)).
  - destruct (canonicalizeRound_issued amt o Ha) as (m & k & -> & Hk & Hm & Hb).
    destruct Hd as (Hq0 & Hlo & Hhi). amount_consts.
    assert (k + 14 < q + 1).
    { apply (Z.pow_lt_mono_r_iff 10); [lia..|]. rewrite Z.pow_add_r by lia. pose proof (pow10_pos k ltac:(lia)). change (10 ^ 14) with 100000000000000. set (p := 10 ^ k) in *.
      clearbody p. nia. }
    assert (q < 16 + k).
    { apply (Z.pow_lt_mono_r_iff 10); [lia..|]. rewrite Z.pow_add_r by lia. replace k with (k - 1 + 1) in * by lia.
      rewrite pow10_S in * by lia. replace (k - 1 + 1 - 1) with (k - 1) in * by lia. pose proof (pow10_pos (k - 1) ltac:(lia)). change (10 ^ 16) with 10000000000000000. set (p := 10 ^ (k - 1)) in *.
      clearbody p. nia. }
    destruct (amount_in_window issue m (o + k) neg 15) as (r & -> & Hz); [done|split; [lia|]; change (10 ^ 15) with 1000000000000000; change (10 ^ (15 + 1)) with 10000000000000000; lia|lia|lia|].
    cbn [mbind fallible_bind]. rewrite Hz, andb_false_r. by exists r.
  - destruct (amount_in_window issue amt o neg q) as (r & -> & Hz); [done..|lia|lia|].
    cbn [mbind fallible_bind]. rewrite Hz, andb_false_r. by exists r.
Qed.

Lemma digits_17 v : 10 ^ 16 ≤ v → ∃ q, digits q v ∧ 16 ≤ q.
Proof. intros Hv. destruct (digits_exist v ltac:(lia)) as [q Hd]. exists q. split; [done|]. pose proof (digits_lt q v 16 Hd ltac:(lia)). lia. Qed.

Lemma product_answers sw sw2 v1 v2 issue up :
  factors v1 v2 issue → 10 ^ 119 ≤ magnitude v1 * magnitude v2 < 9 * 10 ^ 294 →
  (∃ r, multiply v1 v2 issue = inr r ∧ is_zero r = false) ∧
  (∃ r, mulRound sw sw2 v1 v2 issue up = inr r ∧ is_zero r = false).
Proof.
  intros Hf HW. pose proof Hf as [_ _ _ _ Hn Z1 Z2 Hi]. unfold multiply, mulRound. rewrite Z1, Z2, Hn. cbn [orb andb].
  destruct (operand v1) as [x1 e1] eqn:E1, (operand v2) as [x2 e2] eqn:E2.
  destruct (factors_mantissas _ _ _ _ _ _ _ Hf E1 E2) as (Hx & Hx1 & Hx2 & He1 & He2 & W1 & W2 & _).
  destruct (product_units 0 x1 e1 x2 e2 100 (e1 + e2 + 100)) as (_ & _ & U3 & Hu); [lia..|]. rewrite W1, W2, U3 in HW.
  assert (∀ amt, 10 ^ 16 ≤ amt → (amt - 7) * 10 ^ 14 ≤ x1 * x2 < (amt + 1) * 10 ^ 14 →
    ∃ q, digits q amt ∧ -81 ≤ q + (e1 + e2 + 14) ≤ 94) as Hwin.
  { intros amt Ha HX. destruct (digits_17 amt Ha) as (q & Hd & Hq). exists q. split; [done|].
    apply (window q amt (e1 + e2 + 14) 1 (x1 * x2 * 10 ^ (e1 + e2 + 200))); [done|done|lia|lia| |lia].
    replace (e1 + e2 + 14 + 200) with (14 + (e1 + e2 + 200)) by lia. rewrite Z.pow_add_r by lia.
    set (u := 10 ^ (e1 + e2 + 200)) in *. clear -HX Hu. nia. }
  unfold tenTo14. rewrite muldiv_spec, muldiv_round_spec by (try (destruct (negb _); unfold tenTo14m1, tenTo14); lia).
  set (c := if _ : bool then tenTo14m1 else 0). assert (0 ≤ c ≤ 10 ^ 14 - 1) as Hc by (unfold c; destruct (negb _); done).
  set (y := x1 * x2 / _). set (z := (x1 * x2 + c) / _).
  assert (10 ^ 16 ≤ y ≤ 10 ^ 19 ∧ 10 ^ 16 ≤ z ≤ 10 ^ 19 + 1 ∧ y * 10 ^ 14 ≤ x1 * x2 < (y + 1) * 10 ^ 14 ∧
          z * 10 ^ 14 ≤ x1 * x2 + c < (z + 1) * 10 ^ 14) as (Hy & Hz & Hy' & Hz').
  { unfold y, z. clear -Hx Hc. revert Hx. generalize (x1 * x2). intros X HX. Z.to_euclidean_division_equations. lia. }
  clearbody y z c. replace (2 ^ 64 - 1 <? y) with false by lia. replace (2 ^ 64 - 1 <? z) with false by lia. cbn [mbind fallible_bind].
  split.
  - rewrite u64_small by lia. destruct (Hwin (y + 7)) as (q & Hd & Hq); [lia..|]. by apply (amount_in_window _ _ _ _ q); [..|lia|lia].
  - destruct (Hwin z) as (q & Hd & Hq); [lia..|]. apply (finish_in_window _ _ _ _ _ _ _ q); done || lia.
Qed.

Lemma quotient_answers sw sw2 v1 v2 issue up :
  ratio v1 v2 issue → 10 ^ 119 * magnitude v2 ≤ magnitude v1 * 10 ^ 200 < 9 * 10 ^ 294 * magnitude v2 →
  (∃ r, divide v1 v2 issue = inr r ∧ is_zero r = false) ∧
  (∃ r, divRound sw sw2 v1 v2 issue up = inr r ∧ is_zero r = false).
Proof.
  intros Hf HW. pose proof Hf as [A1 A2 _ _ Z1 Z2 Hi]. unfold divide, divRound. rewrite Z1, Z2.
  destruct (operand v1) as [x1 e1] eqn:E1, (operand v2) as [x2 e2] eqn:E2.
  destruct (ratio_mantissas _ _ _ _ _ _ _ Hf E1 E2) as (Hx1 & Hx2 & He1 & He2 & W1 & W2 & _).
  destruct (operand_spec v2 x2 e2 A2 Z2 E2) as (_ & _ & He2' & _). rewrite W1, W2 in HW.
  assert (∀ amt, 10 ^ 16 ≤ amt → (amt - 7) * x2 ≤ x1 * 10 ^ 17 < (amt + 1) * x2 →
    ∃ q, digits q amt ∧ -81 ≤ q + (e1 - e2 - 17) ≤ 94) as Hwin.
  { intros amt Ha HX. destruct (digits_17 amt Ha) as (q & Hd & Hq). exists q. split; [done|].
    pose proof (pow10_pos (e2 + 100) ltac:(lia)).
    apply (window q amt (e1 - e2 - 17) (x2 * 10 ^ (e2 + 100)) (x1 * 10 ^ (e1 + 100) * 10 ^ 200)); [done|done|lia|nia| |lia].
    assert (x1 * 10 ^ (e1 + 100) * 10 ^ 200 = x1 * 10 ^ 17 * 10 ^ (e1 + 283) ∧
            10 ^ (e1 - e2 - 17 + 200) * 10 ^ (e2 + 100) = 10 ^ (e1 + 283)) as [-> E].
    { rewrite <- !Z.mul_assoc, <- !Z.pow_add_r by lia. split; [do 2 f_equal|f_equal]; lia. }
    rewrite <- E. assert (0 < 10 ^ (e1 - e2 - 17 + 200)) by (apply pow10_pos; lia).
    set (p := 10 ^ (e1 - e2 - 17 + 200)) in *. set (w := 10 ^ (e2 + 100)) in *. clearbody p w. assert (0 < p * w) by nia.
    set (X := x1 * 10 ^ 17) in *. clearbody X. clear -HX H1. replace ((amt - 7) * p * (x2 * w)) with ((amt - 7) * x2 * (p * w)) by ring.
    replace ((amt + 1) * p * (x2 * w)) with ((amt + 1) * x2 * (p * w)) by ring.
    split; [apply Z.mul_le_mono_nonneg_r|apply Z.mul_lt_mono_pos_r]; lia. }
  change tenTo17 with (10 ^ 17). set (c := if _ : bool then x2 - 1 else 0).
  assert (0 ≤ c < x2) as Hc by (unfold c; destruct (negb _); lia). rewrite muldiv_spec, muldiv_round_spec by lia.
  destruct (quotient_digits x1 x2 0 Hx1 Hx2 ltac:(lia)) as [Hy Hy'], (quotient_digits x1 x2 c Hx1 Hx2 Hc) as [Hz Hz'].
  rewrite Z.add_0_r in Hy, Hy'. set (y := x1 * 10 ^ 17 / x2) in *. set (z := (x1 * 10 ^ 17 + c) / x2) in *. clearbody y z c.
  replace (2 ^ 64 - 1 <? y) with false by lia. replace (2 ^ 64 - 1 <? z) with false by lia. cbn [mbind fallible_bind].
  split.
  - rewrite u64_small by lia. destruct (Hwin (y + 5)) as (q & Hd & Hq); [lia|nia|]. by apply (amount_in_window _ _ _ _ q); [..|lia|lia].
  - destruct (Hwin z) as (q & Hd & Hq); [lia|nia|]. apply (finish_in_window _ _ _ _ _ _ _ q); done || lia.
Qed.

(** * Qualities and transfer rates

    src/src/ripple/protocol/Quality.h and impl/Quality.cpp: the quality of an offer is
    its rate, packed in 64 bits so that better qualities are smaller numbers.
    Rate.h and impl/Rate2.cpp: transfer rates, in billionths.

    An offer is the pair of amounts [in] and [out]; the switches of [mulRound] and
    [divRound] are arguments. *)

(** ** Qualities *)
Definition Quality : Type := Z.
Record Amounts := mkAmounts { in_ : STAmount; out_ : STAmount }.

(** [Quality (Amounts)] *)
Definition quality_of (a : Amounts) : Quality := getRate (out_ a) (in_ a).
(** [operator++] and [operator--] *)
Definition quality_next (q : Quality) : Quality := u64 (q - 1).
Definition quality_prev (q : Quality) : Quality := u64 (q + 1).
Definition quality_ltb (l r : Quality) : bool := r <? l.
Definition quality_rate (q : Quality) : fallible STAmount := amountFromQuality q.

Section Switches.
Context (sw sw2 : bool).

Definition ceil_in (q : Quality) (a : Amounts) (limit : STAmount) : fallible Amounts :=
  over ← st_ltb limit (in_ a);
  if over : bool then
    rate ← quality_rate q;
    out ← divRound sw sw2 limit rate (mIssue (out_ a)) true;
    more ← st_ltb (out_ a) out;
    mret (mkAmounts limit (if more : bool then out_ a else out))
  else mret a.

Definition ceil_out (q : Quality) (a : Amounts) (limit : STAmount) : fallible Amounts :=
  over ← st_ltb limit (out_ a);
  if over : bool then
    rate ← quality_rate q;
    in' ← mulRound sw sw2 limit rate (mIssue (in_ a)) true;
    more ← st_ltb (in_ a) in';
    mret (mkAmounts (if more : bool then in_ a else in') limit)
  else mret a.

Definition composed_quality (l r : Quality) : fallible Quality :=
  lhs_rate ← quality_rate l;
  rhs_rate ← quality_rate r;
  rate ← mulRound sw sw2 lhs_rate rhs_rate (mIssue lhs_rate) true;
  let stored_exponent := u64 (mOffset rate + 100) in
  mret (Z.lor (u64 (Z.shiftl stored_exponent (64 - 8))) (mValue rate)).

(** ** Transfer rates *)
Definition parityRate : Z := 1000000000.
Definition as_amount (rate : Z) : fallible STAmount := amount noIssue rate (-9) false.

Definition rate_multiply (a : STAmount) (rate : Z) : fallible STAmount :=
  if rate =? parityRate then mret a
  else r ← as_amount rate; multiply a r (mIssue a).
Definition multiplyRound (a : STAmount) (rate : Z) (issue : Issue) (roundUp : bool) : fallible STAmount :=
  if rate =? parityRate then mret a
  else r ← as_amount rate; mulRound sw sw2 a r issue roundUp.
Definition rate_divide (a : STAmount) (rate : Z) : fallible STAmount :=
  if rate =? parityRate then mret a
  else r ← as_amount rate; divide a r (mIssue a).
Definition divideRound (a : STAmount) (rate : Z) (issue : Issue) (roundUp : bool) : fallible STAmount :=
  if rate =? parityRate then mret a
  else r ← as_amount rate; divRound sw sw2 a r issue roundUp.
End Switches.

(** [Quality::round]: the table has an entry for each number of digits up to 16. *)
Definition round_mod : list Z := map (λ i : nat, 10 ^ Z.of_nat (16 - i)) (seq 0 17).
Definition quality_round (digits : nat) (q : Quality) : option Quality :=
  m ← round_mod !! digits;
  let exponent := Z.shiftr q (64 - 8) in
  let mantissa := Z.land q 0x00ffffffffffffff in
  let mantissa := u64 (mantissa + (m - 1)) in
  let mantissa := mantissa - mantissa mod m in
  Some (Z.lor (u64 (Z.shiftl exponent (64 - 8))) mantissa).
