(* ===== verification/STAmountTheorems.v ===== *)
(** * Amounts: theorems

    The round trip through bytes, the order, sums, products and rates of amounts, and
    the offers cut to a limit. *)

From stdpp Require Import prelude list.
From Stdlib Require Import ZArith Lia.
From S2P Require Import Prelude.
From S2P Require Import BaseUint.
From S2P Require Import BaseUintTheorems.
From S2P Require Import Serializer.
From S2P Require Import SerializerTheorems.
From S2P Require Import IOUAmount.
From S2P Require Import IOUTheorems.
From S2P Require Import STAmount.
From S2P Require Import STAmountSpec.
From S2P Require Import STAmountArith.

Definition usd : Issue := mkIssue (bytes160 7) (bytes160 9).
Definition usd_amount (v o : Z) (n : bool) : STAmount := mkAmount usd v o false n.

(** C11: Amounts on the wire.  [add] writes a canonical amount as bytes from which the
    constructor reads the same amount; and what the constructor accepts from any bytes is a
    canonical amount, whose bytes are the ones it read. *)
Theorem amount_roundtrip a it a' it' :
  iter_ok it → in_base 256 (buffer it) →
  (wire_ok a → ∀ s, ∃ bs, amount_bytes a s = s ++ bs ∧ reads parse_amount bs a) ∧
  (parse_amount it = inr (a', it') →
   wire_ok a' ∧ ∃ bs, amount_bytes a' [] = bs ∧ p_ it = bs ++ p_ it' ∧ it' = advance (size bs) it).
Proof.
  intros Hit Hb. split.
  - intros Ha s. exists (wire a). split; [by apply amount_bytes_wire|by apply reads_amount].
  - intros Hp. destruct (parse_amount_inv _ _ _ Hit Hb Hp) as (Hw & Hpe & Hi). split; [done|].
    exists (wire a'). by rewrite amount_bytes_wire.
Qed.

Definition sample_wire : Blob := amount_bytes (usd_amount 1234567890123456 (-15) true) [].

Lemma amount_roundtrip_witness :
  wire_ok (usd_amount 1234567890123456 (-15) true) ∧
  parse_amount (serial_iter sample_wire) =
    inr (usd_amount 1234567890123456 (-15) true, mkIter sample_wire 48 0).
Proof.
  assert (iter_ok (serial_iter sample_wire)) as Hit by (split; vm_compute; intuition congruence).
  assert (in_base 256 (buffer (serial_iter sample_wire))) as Hb
    by (apply (bool_decide_unpack _); vm_compute; exact I).
  destruct (amount_roundtrip (usd_amount 1234567890123456 (-15) true) (serial_iter sample_wire)
    (usd_amount 1234567890123456 (-15) true) (mkIter sample_wire 48 0) Hit Hb) as [_ H].
  assert (parse_amount (serial_iter sample_wire) =
    inr (usd_amount 1234567890123456 (-15) true, mkIter sample_wire 48 0)) as E by (vm_compute; reflexivity).
  split; [exact (proj1 (H E))|exact E].
Defined.

(** The order of amounts.  Amounts of one currency compare by their values: [operator<] is
    less-than on them and [operator==] equality, for issued amounts and for native ones; others
    are not compared. *)
Theorem amount_order l r :
  amount_ok l → amount_ok r →
  (areComparable l r = false → st_ltb l r = raise a_runtime_error ∧ st_eqb l r = false) ∧
  (areComparable l r = true →
   st_ltb l r = inr (worth l <? worth r) ∧ st_eqb l r = (worth l =? worth r)).
Proof.
  intros Hl Hr. split; intros Hc; [unfold st_ltb, st_eqb; by rewrite Hc|].
  destruct (amount_ok_sign l Hl) as [Sl Vl], (amount_ok_sign r Hr) as [Sr Vr].
  rewrite st_ltb_iou, st_eqb_iou by (done || lia).
  destruct (comparable_kind l r Hl Hr Hc) as [[Il Ir]|[Nl Nr]].
  - destruct (iou_order (num l) (num r)) as [-> ->]; [by apply num_canonical..|]. done.
  - by destruct (native_order l r Nl Nr) as [-> ->].
Qed.

Lemma amount_order_witness :
  st_ltb (usd_amount 9000000000000000 (-3) true) (usd_amount 1000000000000000 5 false) = inr true.
Proof.
  destruct (amount_order (usd_amount 9000000000000000 (-3) true) (usd_amount 1000000000000000 5 false)) as [_ H].
  - left. split; [reflexivity|]. split; [reflexivity|]. right. vm_compute. intuition congruence.
  - left. split; [reflexivity|]. split; [reflexivity|]. right. vm_compute. intuition congruence.
  - destruct (H eq_refl) as [-> _]. vm_compute. reflexivity.
Defined.

(** C13: Sums of amounts.  The sum of two issued amounts is the one [IOUAmount] computes of their
    numbers, in the currency and with the issuer of the first, and fails where that overflows;
    the sum of two native amounts is exact, but for a first operand of zero, which fails where
    the other is beyond the native maximum. *)
Theorem amount_sum v1 v2 :
  areComparable v1 v2 = true →
  (issued_ok v1 → issued_ok v2 →
   st_plus v1 v2 = match iou_add (num v1) (num v2) with
                   | Ok x => inr (of_num (mIssue v1) x)
                   | IOUAmount.Throw _ => raise a_runtime_error
                   end) ∧
  (native_ok v1 → native_ok v2 → mIssue v1 = xrpIssue →
   st_plus v1 v2 = if is_zero v1 && negb (is_zero v2) && (cMaxNativeN <? mValue v2)
                   then raise a_runtime_error
                   else inr (native_amount (mantissa_ (num v1) + mantissa_ (num v2)))).
Proof.
  intros Hc. split.
  - intros H1 H2. rewrite issued_plus_iou by done. by destruct (iou_add _ _).
  - intros H1 H2 Hi. apply native_plus; [done..|]. destruct H1 as (N & _ & O & _), v1 as [i v o n s]; simpl in *.
    by subst.
Qed.

Lemma amount_sum_witness :
  st_plus (usd_amount 1000000000000000 0 false) (usd_amount 2500000000000000 (-1) true)
    = inr (usd_amount 7500000000000000 (-1) false) ∧
  st_plus (native_amount 30) (native_amount (-50)) = inr (native_amount (-20)).
Proof.
  split.
  - destruct (amount_sum (usd_amount 1000000000000000 0 false) (usd_amount 2500000000000000 (-1) true) eq_refl) as [H _].
    rewrite H; [vm_compute; reflexivity| |]; (split; [reflexivity|]; split; [reflexivity|]; right; vm_compute; intuition congruence).
  - destruct (amount_sum (native_amount 30) (native_amount (-50)) eq_refl) as [_ H].
    rewrite H; [vm_compute; reflexivity| | |reflexivity];
      (split; [reflexivity|]; split; [reflexivity|]; split; [reflexivity|]; split; [vm_compute; intuition congruence|intros E; vm_compute in E; discriminate E]).
Defined.

(** C12: Products to an issued currency of two legal amounts, neither zero and not both XRP
    ([factors]).  [multiply] is within one unit in the last place of the exact product.  [mulRound]
    gives, where it rounds toward zero, the exact product cut to 16 digits, and where it rounds away
    from zero, unless it gives the least amount there is, less than one unit above it and never more
    than a tenth of a unit below.  The sign is that of the product; both return a nonzero result when
    the product is between 10^-81 and 9 * 10^94.  The values are scaled by 10^100 and their products
    by 10^200.  Products of two XRP amounts and roundings to XRP are not covered:
    [native_product_overflows], [native_round_up_exact]. *)
Theorem product_rounding sw sw2 v1 v2 issue roundUp r r' :
  factors v1 v2 issue →
  (multiply v1 v2 issue = inr r → is_zero r = false →
   mIsNegative r = (worth v1 * worth v2 <? 0) ∧
   Z.abs (magnitude r * 10 ^ 100 - magnitude v1 * magnitude v2) < 10 ^ (mOffset r + 200)) ∧
  (mulRound sw sw2 v1 v2 issue roundUp = inr r' → is_zero r' = false → least r' = false →
   mIsNegative r' = (worth v1 * worth v2 <? 0) ∧
   rounded (negb (Bool.eqb (mIsNegative r') roundUp))
     (magnitude v1 * magnitude v2) (magnitude r' * 10 ^ 100) (10 ^ (mOffset r' + 200))) ∧
  (10 ^ 119 ≤ magnitude v1 * magnitude v2 < 9 * 10 ^ 294 →
   (∃ s, multiply v1 v2 issue = inr s ∧ is_zero s = false) ∧
   (∃ s, mulRound sw sw2 v1 v2 issue roundUp = inr s ∧ is_zero s = false)).
Proof. intros Hf. split; [by apply multiply_bound|]. split; [by apply mulRound_bound|by apply product_answers]. Qed.

Lemma usd_ok v o n : cMinValue ≤ v ≤ cMaxValue → cMinOffset ≤ o ≤ cMaxOffset → amount_ok (usd_amount v o n).
Proof. intros Hv Ho. left. split; [done|]. split; [done|]. by right. Qed.

Lemma product_rounding_witness :
  multiply (usd_amount 2000000000000000 (-15) false) (usd_amount 3333333333333333 (-15) true) usd
    = inr (usd_amount 6666666666666666 (-15) true) ∧
  rounded false
    (magnitude (usd_amount 2000000000000000 (-15) false) * magnitude (usd_amount 3333333333333333 (-15) true))
    (magnitude (usd_amount 6666666666666666 (-15) true) * 10 ^ 100) (10 ^ 185).
Proof.
  assert (factors (usd_amount 2000000000000000 (-15) false) (usd_amount 3333333333333333 (-15) true) usd) as Hf.
  { split; try reflexivity; apply usd_ok; vm_compute; intuition congruence. }
  destruct (product_rounding true true _ _ usd true (usd_amount 6666666666666666 (-15) true)
    (usd_amount 6666666666666666 (-15) true) Hf) as (_ & H & _).
  split; [vm_compute; reflexivity|].
  apply (proj2 (H ltac:(vm_compute; reflexivity) eq_refl eq_refl)).
Defined.

(** Quotients of amounts, to an issued currency, by a divisor of at most 16 digits.  [divide] is
    within one unit in the last place of the exact quotient, and [divRound] rounds it like
    [mulRound] the product; both return a nonzero result when the quotient is between 10^-81 and
    9 * 10^94.  The comparison is of the result times the divisor with the dividend. *)
Theorem quotient_rounding sw sw2 num den issue roundUp r r' :
  ratio num den issue →
  (divide num den issue = inr r → is_zero r = false →
   mIsNegative r = (worth num * worth den <? 0) ∧
   Z.abs (magnitude r * magnitude den - magnitude num * 10 ^ 100) < 10 ^ (mOffset r + 100) * magnitude den) ∧
  (divRound sw sw2 num den issue roundUp = inr r' → is_zero r' = false → least r' = false →
   mIsNegative r' = (worth num * worth den <? 0) ∧
   rounded (negb (Bool.eqb (mIsNegative r') roundUp))
     (magnitude num * 10 ^ 100) (magnitude r' * magnitude den) (10 ^ (mOffset r' + 100) * magnitude den)) ∧
  (10 ^ 119 * magnitude den ≤ magnitude num * 10 ^ 200 < 9 * 10 ^ 294 * magnitude den →
   (∃ s, divide num den issue = inr s ∧ is_zero s = false) ∧
   (∃ s, divRound sw sw2 num den issue roundUp = inr s ∧ is_zero s = false)).
Proof. intros Hf. split; [by apply divide_bound|]. split; [by apply divRound_bound|by apply quotient_answers]. Qed.

Lemma quotient_rounding_witness :
  divRound true true (usd_amount 2000000000000000 (-15) false) (usd_amount 3000000000000000 (-15) false) usd true
    = inr (usd_amount 6666666666666667 (-16) false) ∧
  rounded true
    (magnitude (usd_amount 2000000000000000 (-15) false) * 10 ^ 100)
    (magnitude (usd_amount 6666666666666667 (-16) false) * magnitude (usd_amount 3000000000000000 (-15) false))
    (10 ^ 84 * magnitude (usd_amount 3000000000000000 (-15) false)).
Proof.
  assert (ratio (usd_amount 2000000000000000 (-15) false) (usd_amount 3000000000000000 (-15) false) usd) as Hf.
  { split; try reflexivity; try (apply usd_ok); vm_compute; intuition congruence. }
  destruct (quotient_rounding true true _ _ usd true (usd_amount 6666666666666667 (-16) false)
    (usd_amount 6666666666666667 (-16) false) Hf) as (_ & H & _).
  split; [vm_compute; reflexivity|].
  apply (proj2 (H ltac:(vm_compute; reflexivity) eq_refl eq_refl)).
Defined.

(** C15: Rates.  The word [getRate] packs for an offer unpacks to the quotient of its amounts, and
    words compare as the quotients do: sorting offers by the word sorts them by price. *)
Theorem rates_order out1 in1 out2 in2 r1 r2 :
  is_zero out1 = false → is_zero out2 = false →
  divide in1 out1 noIssue = inr r1 → divide in2 out2 noIssue = inr r2 →
  amountFromQuality (getRate out1 in1) = inr (unsigned r1) ∧
  (getRate out1 in1 <? getRate out2 in2) = (magnitude r1 <? magnitude r2).
Proof.
  intros Z1 Z2 D1 D2. rewrite (getRate_word _ _ r1 Z1 D1), (getRate_word _ _ r2 Z2 D2).
  destruct (divide_made _ _ noIssue _ eq_refl D1) as [Ok1 I1].
  destruct (divide_made _ _ noIssue _ eq_refl D2) as [Ok2 I2].
  split; [by apply amountFromQuality_word|by apply rate_word_order].
Qed.

Lemma rates_order_witness :
  amountFromQuality (getRate (drops 4) (usd_amount 1000000000000000 (-15) false))
    = inr (mkAmount noIssue 2500000000000000 (-16) false false) ∧
  (getRate (drops 4) (usd_amount 1000000000000000 (-15) false) <?
   getRate (drops 3) (usd_amount 1000000000000000 (-15) false)) = true.
Proof.
  destruct (rates_order (drops 4) (usd_amount 1000000000000000 (-15) false)
    (drops 3) (usd_amount 1000000000000000 (-15) false)
    (mkAmount noIssue 2500000000000000 (-16) false false) (mkAmount noIssue 3333333333333333 (-16) false false)
    eq_refl eq_refl ltac:(vm_compute; reflexivity) ltac:(vm_compute; reflexivity)) as [-> ->].
  split; vm_compute; reflexivity.
Defined.

(** ** Offers *)
Lemma st_ltb_irrefl a : st_ltb a a = inr false ∨ st_ltb a a = raise a_runtime_error.
Proof.
  unfold st_ltb. destruct (areComparable a a); [left|by right]. simpl. unfold mret, fallible_ret. f_equal.
  rewrite eqb_reflx. simpl. destruct (mValue a =? 0) eqn:E; [by destruct (mIsNegative a)|].
  by rewrite !Z.ltb_irrefl.
Qed.

Lemma st_ltb_irrefl_ok a : st_ltb a a = inr false.
Proof.
  destruct (st_ltb_irrefl a) as [|H]; [done|]. unfold st_ltb, areComparable in H.
  rewrite eqb_reflx, bool_decide_true in H by done. done.
Qed.

(** Offers cut to a limit: neither side grows, the limited side is the limit where it was above it. *)
Theorem offer_limits sw sw2 q a limit r r' :
  (ceil_in sw sw2 q a limit = inr r →
   st_ltb (out_ a) (out_ r) = inr false ∧
   (st_ltb limit (in_ a) = inr true ∧ in_ r = limit ∨ st_ltb limit (in_ a) = inr false ∧ r = a)) ∧
  (ceil_out sw sw2 q a limit = inr r' →
   st_ltb (in_ a) (in_ r') = inr false ∧
   (st_ltb limit (out_ a) = inr true ∧ out_ r' = limit ∨ st_ltb limit (out_ a) = inr false ∧ r' = a)).
Proof.
  split.
  - unfold ceil_in. destruct (st_ltb limit (in_ a)) as [|[]]; cbn [mbind fallible_bind]; [done| |].
    2: { intros [= <-]. split; [apply st_ltb_irrefl_ok|by right]. }
    destruct (quality_rate q) as [|rate]; [done|]. cbn [mbind fallible_bind].
    destruct (divRound _ _ _ _ _ _) as [|o]; [done|]. cbn [mbind fallible_bind].
    destruct (st_ltb (out_ a) o) as [|[]] eqn:E; [done|..]; intros [= <-]; simpl; (split; [|by left]);
      [apply st_ltb_irrefl_ok|done].
  - unfold ceil_out. destruct (st_ltb limit (out_ a)) as [|[]]; cbn [mbind fallible_bind]; [done| |].
    2: { intros [= <-]. split; [apply st_ltb_irrefl_ok|by right]. }
    destruct (quality_rate q) as [|rate]; [done|]. cbn [mbind fallible_bind].
    destruct (mulRound _ _ _ _ _ _) as [|o]; [done|]. cbn [mbind fallible_bind].
    destruct (st_ltb (in_ a) o) as [|[]] eqn:E; [done|..]; intros [= <-]; simpl; (split; [|by left]);
      [apply st_ltb_irrefl_ok|done].
Qed.

(** Rounding a quality to [d] significant digits takes its mantissa up to the next multiple. *)
Lemma quality_round_up d q :
  (d ≤ 16)%nat → 0 ≤ q < 2 ^ 64 → q mod 2 ^ 56 ≤ 10 ^ 16 →
  let m := 10 ^ Z.of_nat (16 - d) in
  ∃ k, quality_round d q = Some (q / 2 ^ 56 * 2 ^ 56 + k * m) ∧ q mod 2 ^ 56 ≤ k * m < q mod 2 ^ 56 + m.
Proof.
  intros Hd Hq Hm m. unfold quality_round.
  assert (round_mod !! d = Some m) as ->.
  { unfold round_mod. rewrite list_lookup_fmap, lookup_seq_lt by lia. done. }
  cbn [mbind option_bind]. change (64 - 8) with 56. change 0x00ffffffffffffff with (Z.ones 56).
  rewrite Z.land_ones, Z.shiftr_div_pow2 by lia.
  assert (1 ≤ m ≤ 10 ^ 16) as Hmm.
  { unfold m. split; [pose proof (pow10_pos (Z.of_nat (16 - d))); lia|]. apply pow10_le. lia. }
  pose proof (Z.mod_pos_bound q (2 ^ 56) ltac:(lia)) as Hr. set (r := q mod 2 ^ 56) in *. rewrite (u64_small (r + _)) by lia.
  exists ((r + (m - 1)) / m). pose proof (Z.div_mod (r + (m - 1)) m ltac:(lia)) as E.
  pose proof (Z.mod_pos_bound (r + (m - 1)) m ltac:(lia)).
  set (k := (r + (m - 1)) / m) in *. replace (r + (m - 1) - (r + (m - 1)) mod m) with (k * m) by lia.
  assert (0 ≤ q / 2 ^ 56 < 256) by (Z.to_euclidean_division_equations; lia).
  rewrite Z.shiftl_mul_pow2, u64_small, Z.lor_comm, lor_pack by lia. split; [done|lia].
Qed.

(** ** Where the arithmetic falls short *)

(** A product rounded up that is below the exact one: 4.000000000000005 times 2.499999999999997. *)
Theorem round_up_below :
  let v1 := usd_amount 4000000000000005 (-15) false in
  let v2 := usd_amount 2499999999999997 (-15) false in
  ∃ r, mulRound true true v1 v2 usd true = inr r ∧ magnitude r * 10 ^ 100 < magnitude v1 * magnitude v2.
Proof. cbv zeta. eexists. split; [vm_compute; reflexivity|]. vm_compute. reflexivity. Qed.

(** The product of two large XRP amounts, to an issued currency: the mantissas are not brought down
    to 16 digits, and the product overflows although it is in range. *)
Theorem native_product_overflows :
  multiply (native_amount (10 ^ 17)) (native_amount (10 ^ 17)) usd = inl a_overflow_error ∧
  magnitude (native_amount (10 ^ 17)) * magnitude (native_amount (10 ^ 17)) < 9 * 10 ^ 294.
Proof. split; vm_compute; reflexivity. Qed.

(** Rounding up to XRP adds a drop to an amount that is exact. *)
Theorem native_round_up_exact : canonicalizeRound true 1000 (-2) = (11, 0).
Proof. vm_compute. reflexivity. Qed.

(** A native amount beyond 64 bits is reduced modulo 2^64 before the check of the native maximum. *)
Theorem native_wraps :
  amount xrpIssue 1844674407370955162 1 false = inr (drops 4) ∧ amount xrpIssue 1 64 false = inr (drops 0).
Proof. split; vm_compute; reflexivity. Qed.
