(* ===== verification/Conditions.v ===== *)
(** * Crypto-conditions

    src/src/ripple/conditions/: conditions and fulfillments in the binary form of DER,
    and the check of an escrow (app/tx/impl/Escrow.cpp, [checkCondition]).

    A [Slice] is the list of the bytes it covers; [ec], which is clear on entry, is a left
    value.  [None] stands for a byte read outside the slice and for the exception of
    [Slice::operator+=]; the theorems show neither happens.  The hash SHA-256 is a parameter.
    [parseInteger] is used for unsigned integers only, and so is the model. *)

From stdpp Require Import prelude list.
From Stdlib Require Import ZArith Lia.
From S2P Require Import Prelude.
From S2P Require Import BaseUint.
From S2P Require Import BaseUintTheorems.
From S2P Require Import Serializer.
From S2P Require Import STAmountSpec.

(** ** Errors *)
Inductive cerror :=
  | generic | unsupported_type | unsupported_subtype | unknown_type | unknown_subtype
  | fingerprint_size | incorrect_encoding | trailing_garbage | buffer_empty | buffer_overfull
  | buffer_underfull | malformed_encoding | short_preamble | unexpected_tag | long_tag
  | large_size | preimage_too_long.
#[export] Instance cerror_eq_dec : EqDecision cerror.
Proof. solve_decision. Defined.

Definition Der (A : Type) : Type := Blob → option (cerror + A * Blob).
#[export] Instance der_ret : MRet Der := λ A a s, Some (inr (a, s)).
#[export] Instance der_bind : MBind Der := λ A B f m s,
  match m s with
  | None => None
  | Some (inl e) => Some (inl e)
  | Some (inr (a, s)) => f a s
  end.
Definition error {A} (e : cerror) : Der A := λ _, Some (inl e).

(** ** Slices *)
Definition slice_size : Der Z := λ s, Some (inr (size s, s)).
Definition slice_at (i : nat) : Der Z := λ s, (λ b, inr (b, s)) <$> s !! i.
Definition slice_skip (n : Z) : Der unit := λ s,
  if size s <? n then None else Some (inr (tt, drop (Z.to_nat n) s)).
(** The first [n] bytes, [Slice (s.data (), n)] and [Buffer (s.data (), n)] *)
Definition slice_data (n : Z) : Der Blob := λ s,
  if size s <? n then None else Some (inr (take (Z.to_nat n) s, s)).

(** ** Preambles *)
Record Preamble := mkPreamble { p_type : Z; p_tag : Z; p_length : Z }.

Definition isPrimitive (p : Preamble) : bool := Z.land (p_type p) 0x20 =? 0.
Definition isConstructed (p : Preamble) : bool := negb (isPrimitive p).
Definition isUniversal (p : Preamble) : bool := Z.land (p_type p) 0xC0 =? 0.
Definition isApplication (p : Preamble) : bool := Z.land (p_type p) 0xC0 =? 0x40.
Definition isContextSpecific (p : Preamble) : bool := Z.land (p_type p) 0xC0 =? 0x80.
Definition isPrivate (p : Preamble) : bool := Z.land (p_type p) 0xC0 =? 0xC0.

(** [for (i = 0; i != cnt; ++i) p.length = (p.length << 8) + s[i]] *)
Fixpoint length_loop (cnt i : nat) (v : Z) : Der Z :=
  match cnt with
  | O => mret v
  | S cnt => b ← slice_at i; length_loop cnt (S i) (u64 (u64 (Z.shiftl v 8) + b))
  end.

Definition parsePreamble : Der Preamble :=
  n ← slice_size;
  if n <? 2 then error short_preamble
  else
    b ← slice_at 0;
    let type := Z.land b 0xE0 in
    let tag := Z.land b 0x1F in
    _ ← slice_skip 1;
    if tag =? 0x1F then error long_tag
    else
      len ← slice_at 0;
      _ ← slice_skip 1;
      if negb (Z.land len 0x80 =? 0) then
        let cnt := Z.land len 0x7F in
        if cnt =? 0 then error malformed_encoding
        else if 8 <? cnt then error large_size
        else
          n ← slice_size;
          if n <? cnt then error short_preamble
          else
            len ← length_loop (Z.to_nat cnt) 0 0;
            _ ← slice_skip cnt;
            if len =? 0 then error malformed_encoding else mret (mkPreamble type tag len)
      else mret (mkPreamble type tag len).

Definition parseOctetString (count : Z) : Der Blob :=
  let count := u32 count in
  n ← slice_size;
  if n <? count then error buffer_underfull
  else if 65535 <? count then error large_size
  else b ← slice_data count; _ ← slice_skip count; mret b.

(** [v = (v << 8) | (s[i] & 0xff)] for the bytes of an integer of [w] bytes. *)
Fixpoint integer_loop (w : Z) (cnt i : nat) (v : Z) : Der Z :=
  match cnt with
  | O => mret v
  | S cnt => b ← slice_at i; integer_loop w cnt (S i) (Z.lor (wrap (8 * w) (Z.shiftl v 8)) (Z.land b 0xff))
  end.

Definition parseInteger (w : Z) (count : Z) : Der Z :=
  n ← slice_size;
  if n =? 0 then error malformed_encoding
  else if n <? count then error buffer_underfull
  else if w + 1 <? count then error large_size
  else
    b ← slice_at 0;
    if negb (Z.land b (Z.shiftl 1 7) =? 0) then error malformed_encoding
    else if (count =? w + 1) && negb (b =? 0) then error malformed_encoding
    else
      v ← integer_loop w (Z.to_nat count) 0 0;
      _ ← slice_skip count;
      mret v.

(** ** Conditions *)
Inductive CType := preimageSha256 | prefixSha256 | thresholdSha256 | rsaSha256 | ed25519Sha256.
#[export] Instance CType_eq_dec : EqDecision CType.
Proof. solve_decision. Defined.

Record Condition := mkCondition { c_type : CType; c_cost : Z; c_fingerprint : Blob; c_subtypes : list CType }.
#[export] Instance Condition_eq_dec : EqDecision Condition.
Proof. solve_decision. Defined.

Definition maxSerializedCondition : Z := 128.
Definition maxSerializedFulfillment : Z := 256.
Definition maxPreimageLength : Z := 128.
Definition fingerprintSize : Z := 32.

(** The codes of the types. *)
Definition type_of_tag (tag : Z) : option CType :=
  if tag =? 0 then Some preimageSha256
  else if tag =? 1 then Some prefixSha256
  else if tag =? 2 then Some thresholdSha256
  else if tag =? 3 then Some rsaSha256
  else if tag =? 4 then Some ed25519Sha256
  else None.

Definition loadSimpleSha256 (type : CType) : Der Condition :=
  p ← parsePreamble;
  if negb (isPrimitive p) || negb (isContextSpecific p) then error incorrect_encoding
  else if negb (p_tag p =? 0) then error unexpected_tag
  else if negb (p_length p =? fingerprintSize) then error fingerprint_size
  else
    b ← parseOctetString (p_length p);
    p ← parsePreamble;
    if negb (isPrimitive p) || negb (isContextSpecific p) then error malformed_encoding
    else if negb (p_tag p =? 1) then error unexpected_tag
    else
      cost ← parseInteger 4 (p_length p);
      n ← slice_size;
      if negb (n =? 0) then error trailing_garbage
      else if bool_decide (type = preimageSha256) && (maxPreimageLength <? cost)
      then error preimage_too_long
      else mret (mkCondition type cost b []).

(** A function on a part of the slice, which the slice does not follow: the answer, with its
    error if it has one. *)
Definition on_part {A} (n : Z) (f : Der A) : Der (cerror + A) :=
  b ← slice_data n;
  (λ s, match f b with
        | None => None
        | Some (inl e) => Some (inr (inl e, s))
        | Some (inr (a, _)) => Some (inr (inr a, s))
        end) : Der (cerror + A).

Definition condition_deserialize : Der Condition :=
  n ← slice_size;
  if n =? 0 then error buffer_empty
  else
    p ← parsePreamble;
    if negb (isConstructed p) || negb (isContextSpecific p) then error malformed_encoding
    else
      n ← slice_size;
      if n <? p_length p then error buffer_underfull
      else if maxSerializedCondition <? n then error large_size
      else match type_of_tag (p_tag p) with
           | None => error unknown_type
           | Some preimageSha256 =>
               c ← on_part (p_length p) (loadSimpleSha256 preimageSha256);
               _ ← (match c with inr _ => slice_skip (p_length p) | inl _ => mret tt end);
               n ← slice_size;
               if negb (n =? 0) then error trailing_garbage
               else match c with inl e => error e | inr c => mret c end
           | Some _ => error unsupported_type
           end.

(** ** Fulfillments: [PreimageSha256] has the payload. *)
Definition Fulfillment : Type := Blob.

Definition preimage_deserialize : Der Fulfillment :=
  p ← parsePreamble;
  if negb (isPrimitive p) || negb (isContextSpecific p) then error incorrect_encoding
  else if negb (p_tag p =? 0) then error unexpected_tag
  else
    n ← slice_size;
    if negb (n =? p_length p) then error trailing_garbage
    else if maxPreimageLength <? n then error preimage_too_long
    else parseOctetString (p_length p).

Definition fulfillment_deserialize : Der Fulfillment :=
  n ← slice_size;
  if n =? 0 then error buffer_empty
  else
    p ← parsePreamble;
    if negb (isConstructed p) || negb (isContextSpecific p) then error malformed_encoding
    else
      n ← slice_size;
      if n <? p_length p then error buffer_underfull
      else if p_length p <? n then error buffer_overfull
      else if maxSerializedFulfillment <? p_length p then error large_size
      else match type_of_tag (p_tag p) with
           | None => error unknown_type
           | Some preimageSha256 =>
               f ← on_part (p_length p) preimage_deserialize;
               match f with
               | inl e => error e
               | inr f =>
                   _ ← slice_skip (p_length p);
                   n ← slice_size;
                   if negb (n =? 0) then error trailing_garbage else mret f
               end
           | Some _ => error unsupported_type
           end.

Section Hash.
Context (sha256 : Blob → Blob).

(** [PreimageSha256::condition], with [type], [cost] and [fingerprint]. *)
Definition condition (f : Fulfillment) : Condition :=
  mkCondition preimageSha256 (u32 (size f)) (sha256 f) [].

(** [operator==] of conditions *)
Definition condition_eqb (l r : Condition) : bool :=
  bool_decide (c_type l = c_type r) && (c_cost l =? c_cost r) &&
  bool_decide (c_subtypes l = c_subtypes r) && bool_decide (c_fingerprint l = c_fingerprint r).

Definition match_ (f : Fulfillment) (c : Condition) : bool :=
  if negb (bool_decide (preimageSha256 = c_type c)) then false else condition_eqb c (condition f).
(** [PreimageSha256::validate] is true of every message. *)
Definition validate (f : Fulfillment) (c : Condition) : bool := match_ f c && true.

(** [checkCondition (f, c)] *)
Definition checkCondition (f c : Blob) : option bool :=
  match condition_deserialize c with
  | None => None
  | Some (inl _) => Some false
  | Some (inr (c, _)) =>
      match fulfillment_deserialize f with
      | None => None
      | Some (inl _) => Some false
      | Some (inr (f, _)) => Some (validate f c)
      end
  end.
End Hash.

(** ** What the decoders accept

    [der_len n l]: the bytes [l] are a length of [n], in the short form or in the long form with up
    to eight bytes, leading zeros included. *)
Definition der_len (n : Z) (l : Blob) : Prop :=
  (l = [n] ∧ 0 ≤ n < 128) ∨
  (∃ bs, l = 128 + size bs :: bs ∧ 1 ≤ size bs ≤ 8 ∧ number 256 bs = n ∧ n ≠ 0).

Definition preamble_form (p : Preamble) (s r : Blob) : Prop :=
  ∃ b l, s = b :: l ++ r ∧ p_type p = Z.land b 0xE0 ∧ p_tag p = Z.land b 0x1F ∧ p_tag p ≠ 0x1F ∧
         der_len (p_length p) l.

(** A parser that answers on any bytes, and whose results are the ones of a relation. *)
Definition exactly {A} (f : Der A) (R : A → Blob → Blob → Prop) : Prop :=
  ∀ s, in_base 256 s → f s ≠ None ∧ ∀ a r, f s = Some (inr (a, r)) ↔ R a s r.

Lemma size_cons x (s : Blob) : size (x :: s) = size s + 1.
Proof. unfold size. cbn [length]. lia. Qed.
Lemma size_app (s t : Blob) : size (s ++ t) = size s + size t.
Proof. unfold size. rewrite length_app. lia. Qed.
Lemma size_pos (s : Blob) : 0 ≤ size s.
Proof. unfold size. lia. Qed.

Lemma length_loop_number cnt : ∀ i v s,
  in_base 256 s → (i + cnt ≤ length s)%nat → 0 ≤ v → (v + 1) * 256 ^ Z.of_nat cnt ≤ 2 ^ 64 →
  length_loop cnt i v s = Some (inr (v * 256 ^ Z.of_nat cnt + number 256 (take cnt (drop i s)), s)).
Proof.
  induction cnt as [|cnt IH]; intros i v s Hs Hl Hv Hb; cbn [length_loop].
  { rewrite take_0. simpl. unfold mret, der_ret. do 3 f_equal. lia. }
  destruct (lookup_lt_is_Some_2 s i ltac:(lia)) as [b Eb]. pose proof (in_base_lookup _ _ _ _ Hs Eb) as Hbb.
  unfold mbind, der_bind, slice_at. rewrite Eb. cbn [fmap option_fmap option_map].
  rewrite Nat2Z.inj_succ, Z.pow_succ_r in Hb by lia. pose proof (Z.pow_pos_nonneg 256 (Z.of_nat cnt) ltac:(lia) ltac:(lia)) as Hp.
  set (p := 256 ^ Z.of_nat cnt) in *. assert ((v + 1) * 256 ≤ 2 ^ 64) by nia.
  rewrite Z.shiftl_mul_pow2, (u64_small (v * 2 ^ 8)), u64_small by lia.
  rewrite IH by (done || lia || (fold p; nia)). fold p. rewrite (drop_S s b i Eb). cbn [take number].
  rewrite length_take, length_drop, Nat.min_l by lia. fold p.
  rewrite Nat2Z.inj_succ, Z.pow_succ_r by lia. fold p. do 3 f_equal. lia.
Qed.

Lemma integer_loop_number w cnt : ∀ i v s,
  0 < w → in_base 256 s → (i + cnt ≤ length s)%nat → 0 ≤ v →
  v * 256 ^ Z.of_nat cnt + number 256 (take cnt (drop i s)) < 2 ^ (8 * w) →
  integer_loop w cnt i v s = Some (inr (v * 256 ^ Z.of_nat cnt + number 256 (take cnt (drop i s)), s)).
Proof.
  intros i v s Hw Hs. revert i v. induction cnt as [|cnt IH]; intros i v Hl Hv Hb; cbn [integer_loop].
  { rewrite take_0. simpl. unfold mret, der_ret. do 3 f_equal. lia. }
  destruct (lookup_lt_is_Some_2 s i ltac:(lia)) as [b Eb]. pose proof (in_base_lookup _ _ _ _ Hs Eb) as Hbb.
  unfold mbind, der_bind, slice_at. rewrite Eb. cbn [fmap option_fmap option_map].
  rewrite (drop_S s b i Eb) in *. cbn [take number] in *. rewrite length_take, length_drop, Nat.min_l in * by lia.
  assert (in_base 256 (take cnt (drop (S i) s))) as Ht by (by apply Forall_take, Forall_drop).
  pose proof (number_bounds 256 _ ltac:(lia) Ht) as [Hn _].
  rewrite Nat2Z.inj_succ, Z.pow_succ_r in * by lia. pose proof (Z.pow_pos_nonneg 256 (Z.of_nat cnt) ltac:(lia) ltac:(lia)) as Hp.
  set (p := 256 ^ Z.of_nat cnt) in *. change 0xff with (Z.ones 8). rewrite Z.land_ones, (Z.mod_small b) by lia.
  rewrite Z.shiftl_mul_pow2, wrap_small, Z.lor_comm, lor_pack by (try lia; nia). change (2 ^ 8) with 256 in *.
  rewrite IH by (try lia; fold p; nia). fold p. do 3 f_equal. lia.
Qed.

(** The equation of [parsePreamble] on two bytes and more. *)
Lemma parsePreamble_cons b len t :
  in_base 256 (b :: len :: t) →
  parsePreamble (b :: len :: t) =
  Some (if Z.land b 0x1F =? 0x1F then inl long_tag
        else if negb (Z.land len 0x80 =? 0) then
          let cnt := Z.land len 0x7F in
          if cnt =? 0 then inl malformed_encoding
          else if 8 <? cnt then inl large_size
          else if size t <? cnt then inl short_preamble
          else let v := number 256 (take (Z.to_nat cnt) t) in
               if v =? 0 then inl malformed_encoding
               else inr (mkPreamble (Z.land b 0xE0) (Z.land b 0x1F) v, drop (Z.to_nat cnt) t)
        else inr (mkPreamble (Z.land b 0xE0) (Z.land b 0x1F) len, t)).
Proof.
  intros [Hb [Hlen Ht]%Forall_cons]%Forall_cons. pose proof (size_pos t).
  unfold parsePreamble, mbind, der_bind, slice_size, slice_at, slice_skip. rewrite !size_cons.
  replace (size t + 1 + 1 <? 2) with false by lia. cbn [lookup list_lookup fmap option_fmap option_map].
  rewrite !size_cons. replace (size t + 1 + 1 <? 1) with false by lia. change (Z.to_nat 1) with 1%nat. cbn [drop].
  destruct (Z.land b 31 =? 31); [done|]. cbn [lookup list_lookup fmap option_fmap option_map].
  rewrite size_cons. replace (size t + 1 <? 1) with false by lia. cbn [drop].
  destruct (negb (Z.land len 128 =? 0)); [|done]. cbv zeta. destruct (Z.eqb_spec (Z.land len 127) 0); [done|].
  destruct (Z.ltb_spec 8 (Z.land len 127)); [done|]. rewrite ?drop_0. destruct (Z.ltb_spec (size t) (Z.land len 127)); [done|].
  assert (0 ≤ Z.land len 127) by (apply Z.land_nonneg; lia). set (c := Z.land len 127) in *.
  rewrite length_loop_number; [|done|unfold size in *; lia|lia|].
  2: { rewrite Z2Nat.id by lia. rewrite Z.mul_1_l. change (2 ^ 64) with (256 ^ 8). apply Z.pow_le_mono_r; lia. }
  rewrite drop_0. replace (0 * 256 ^ Z.of_nat (Z.to_nat c) + number 256 (take (Z.to_nat c) t)) with (number 256 (take (Z.to_nat c) t)) by lia.
  rewrite (proj2 (Z.ltb_ge (size t) c)) by lia. by destruct (_ =? 0).
Qed.

(** Facts on bytes, by computation. *)
Lemma byte_facts (P : Z → bool) : forallb P (map Z.of_nat (seq 0 256)) = true → ∀ b, 0 ≤ b < 256 → P b = true.
Proof.
  intros H b Hb. rewrite forallb_forall in H. apply H. apply in_map_iff. exists (Z.to_nat b).
  split; [lia|]. apply in_seq. lia.
Qed.

Lemma length_byte len : 0 ≤ len < 256 →
  (Z.land len 0x80 =? 0) = (len <? 128) ∧ (128 ≤ len → Z.land len 0x7F = len - 128).
Proof.
  intros Hl. assert (Bool.eqb (Z.land len 0x80 =? 0) (len <? 128) && ((len <? 128) || (Z.land len 0x7F =? len - 128)) = true) as H.
  { by apply (byte_facts (λ len, Bool.eqb (Z.land len 0x80 =? 0) (len <? 128) && ((len <? 128) || (Z.land len 0x7F =? len - 128)))). }
  apply andb_true_iff in H as [H1 H2]. apply eqb_prop in H1. split; [done|]. intros Hg.
  rewrite (proj2 (Z.ltb_ge _ _)) in H2 by lia. apply Z.eqb_eq in H2. done.
Qed.

Lemma parsePreamble_exact : exactly parsePreamble preamble_form.
Proof.
  intros s Hs. destruct s as [|b [|len t]].
  1,2: split; [done|]; intros p r; split; [done|]; intros (b' & l & E & _ & _ & _ & [[-> _]|(bs & -> & _)]); by apply (f_equal length) in E; rewrite ?length_cons, ?length_app in E; simpl in E; lia.
  rewrite parsePreamble_cons by done. split; [done|].
  apply Forall_cons in Hs as [Hb Hs]. apply Forall_cons in Hs as [Hlen Ht]. destruct (length_byte len Hlen) as [E1 E2].
  intros p r. rewrite E1. split.
  - destruct (Z.eqb_spec (Z.land b 31) 31); [done|]. destruct (Z.ltb_spec len 128); cbn [negb].
    { intros [= <- <-]. exists b, [len]. cbn [p_type p_tag p_length]. split_and!; try done. left. split; [done|lia]. }
    cbv zeta. rewrite E2 by lia. destruct (Z.eqb_spec (len - 128) 0); [done|]. destruct (Z.ltb_spec 8 (len - 128)); [done|].
    destruct (Z.ltb_spec (size t) (len - 128)); [done|]. destruct (Z.eqb_spec (number 256 (take (Z.to_nat (len - 128)) t)) 0); [done|].
    intros [= <- <-]. exists b, (len :: take (Z.to_nat (len - 128)) t). cbn [p_type p_tag p_length]. split_and!; try done.
    { simpl. by rewrite take_drop. }
    right. exists (take (Z.to_nat (len - 128)) t).
    assert (size (take (Z.to_nat (len - 128)) t) = len - 128) as -> by (unfold size in *; rewrite length_take; lia).
    split_and!; try done; try lia. f_equal. lia.
  - intros (b' & l & E & Et & Eg & Hg & Hl). destruct p as [ty tg le]. cbn [p_type p_tag p_length] in *. subst ty tg.
    destruct Hl as [[-> Hn]|(bs & -> & Hbs & Hnum & Hn)].
    + injection E as <- -> ->. rewrite (proj2 (Z.eqb_neq _ _) Hg), (proj2 (Z.ltb_lt _ _)) by lia. done.
    + injection E as <- -> ->. rewrite (proj2 (Z.eqb_neq _ _) Hg), (proj2 (Z.ltb_ge _ _)) by lia. cbn [negb]. cbv zeta.
      rewrite E2 by lia. replace (128 + size bs - 128) with (size bs) by lia. rewrite size_app. pose proof (size_pos r).
      rewrite (proj2 (Z.eqb_neq _ 0)), (proj2 (Z.ltb_ge 8 _)), (proj2 (Z.ltb_ge (_ + _) _)) by lia.
      replace (Z.to_nat (size bs)) with (length bs) by (unfold size; lia). rewrite take_app_length, drop_app_length, Hnum.
      by rewrite (proj2 (Z.eqb_neq _ _) Hn).
Qed.

Lemma bind_answers {A B} (m : Der A) (k : A → Der B) s b r :
  (x ← m; k x) s = Some (inr (b, r)) ↔ ∃ a s', m s = Some (inr (a, s')) ∧ k a s' = Some (inr (b, r)).
Proof.
  unfold mbind, der_bind. destruct (m s) as [[e|[a s']]|]; split; try done; try (intros (? & ? & ? & ?); simplify_eq; done).
  intros H. by exists a, s'.
Qed.
Lemma bind_defined {A B} (m : Der A) (k : A → Der B) s :
  m s ≠ None → (∀ a s', m s = Some (inr (a, s')) → k a s' ≠ None) → (x ← m; k x) s ≠ None.
Proof. unfold mbind, der_bind. destruct (m s) as [[e|[a s']]|]; [done| |done]. intros _ H. by apply H. Qed.

Lemma preamble_bytes p s r : preamble_form p s r → in_base 256 s → in_base 256 r.
Proof. intros (b & l & -> & _) [_ H]%Forall_cons. by apply Forall_app in H as [_ H]. Qed.

(** The one byte of a class and a tag. *)
Lemma preamble_primitive k p s r :
  0 ≤ k < 0x1F → in_base 256 s →
  (preamble_form p s r ∧ isPrimitive p = true ∧ isContextSpecific p = true ∧ p_tag p = k) ↔
  (∃ l, s = 0x80 + k :: l ++ r ∧ der_len (p_length p) l ∧ p = mkPreamble 0x80 k (p_length p)).
Proof.
  intros Hk Hs. unfold isPrimitive, isContextSpecific. split.
  - intros ((b & l & -> & Et & Eg & _ & Hl) & H1 & H2 & H3). apply Forall_cons in Hs as [Hb _]. exists l.
    rewrite Et in *. rewrite Eg in *.
    assert (implb ((Z.land (Z.land b 0xE0) 0x20 =? 0) && (Z.land (Z.land b 0xE0) 0xC0 =? 0x80))
      ((b =? 0x80 + Z.land b 0x1F) && (Z.land b 0xE0 =? 0x80)) = true) as H.
    { by apply (byte_facts (λ b, implb ((Z.land (Z.land b 0xE0) 0x20 =? 0) && (Z.land (Z.land b 0xE0) 0xC0 =? 0x80))
        ((b =? 0x80 + Z.land b 0x1F) && (Z.land b 0xE0 =? 0x80)))). }
    rewrite H1, H2 in H. cbn [implb andb] in H. apply andb_true_iff in H as [Eb%Z.eqb_eq Ha%Z.eqb_eq].
    split; [f_equal; lia|]. split; [done|]. destruct p as [ty tg n]. cbn [p_type p_tag p_length] in *. by rewrite Et, Eg, Ha, H3.
  - intros (l & -> & Hl & ->). cbn [p_type p_tag p_length] in *. split_and!; try done.
    exists (0x80 + k), l. split; [done|]. cbn [p_type p_tag p_length].
    assert ((Z.land (0x80 + k) 0xE0 =? 0x80) && (Z.land (0x80 + k) 0x1F =? k) = true) as H.
    { assert (implb (k <? 31) ((Z.land (0x80 + k) 0xE0 =? 0x80) && (Z.land (0x80 + k) 0x1F =? k)) = true) as H.
      { apply (byte_facts (λ k, implb (k <? 31) ((Z.land (0x80 + k) 0xE0 =? 0x80) && (Z.land (0x80 + k) 0x1F =? k)))); [done|lia]. }
      by rewrite (proj2 (Z.ltb_lt _ _)) in H by lia. }
    apply andb_true_iff in H as [H1%Z.eqb_eq H2%Z.eqb_eq]. split_and!; [done|done|lia|done].
Qed.

Lemma preamble_constructed p s r :
  in_base 256 s →
  (preamble_form p s r ∧ isConstructed p = true ∧ isContextSpecific p = true ∧ p_tag p = 0) ↔
  (∃ l, s = 0xA0 :: l ++ r ∧ der_len (p_length p) l ∧ p = mkPreamble 0xA0 0 (p_length p)).
Proof.
  intros Hs. unfold isConstructed, isPrimitive, isContextSpecific. split.
  - intros ((b & l & -> & Et & Eg & _ & Hl) & H1 & H2 & H3). apply Forall_cons in Hs as [Hb _]. exists l.
    rewrite Et in *. rewrite Eg in *.
    assert (implb (negb (Z.land (Z.land b 0xE0) 0x20 =? 0) && (Z.land (Z.land b 0xE0) 0xC0 =? 0x80) && (Z.land b 0x1F =? 0))
      ((b =? 0xA0) && (Z.land b 0xE0 =? 0xA0)) = true) as H.
    { by apply (byte_facts (λ b, implb (negb (Z.land (Z.land b 0xE0) 0x20 =? 0) && (Z.land (Z.land b 0xE0) 0xC0 =? 0x80) && (Z.land b 0x1F =? 0))
        ((b =? 0xA0) && (Z.land b 0xE0 =? 0xA0)))). }
    rewrite H1, H2, H3 in H. cbn in H. apply andb_true_iff in H as [->%Z.eqb_eq _].
    split; [done|]. split; [done|]. destruct p as [ty tg n]. cbn in *. by subst.
  - intros (l & -> & Hl & ->). cbn [p_type p_tag p_length] in *. split_and!; try done. by exists 0xA0, l.
Qed.

Lemma parseOctetString_exact n :
  0 ≤ n < 2 ^ 32 → exactly (parseOctetString n) (λ b s r, s = b ++ r ∧ size b = n ∧ n ≤ 65535).
Proof.
  intros Hn s Hs. unfold parseOctetString, mbind, der_bind, slice_size, slice_data, slice_skip. rewrite u32_small by lia.
  destruct (Z.ltb_spec (size s) n) as [H|H].
  { split; [done|]. intros b r. split; [done|]. intros (-> & Hb & _). rewrite size_app in H. pose proof (size_pos r). lia. }
  destruct (Z.ltb_spec 65535 n) as [H'|H']; [split; [done|]; intros b r; split; [done|lia]|].
  rewrite (proj2 (Z.ltb_ge _ _)) by lia. rewrite (proj2 (Z.ltb_ge _ _)) by lia.
  split; [done|]. intros b r. unfold mret, der_ret. split.
  - intros [= <- <-]. rewrite take_drop. split_and!; [done| |lia]. unfold size in *. rewrite length_take. lia.
  - intros (-> & Hb & _). replace (Z.to_nat n) with (length b) by (unfold size in Hb; lia). by rewrite take_app_length, drop_app_length.
Qed.

(** An unsigned integer of at most [w] bytes and a leading zero, whose first bit is clear. *)
Definition der_int (w v : Z) (bs : Blob) : Prop :=
  1 ≤ size bs ≤ w + 1 ∧ (∃ h t, bs = h :: t ∧ h < 128 ∧ (size bs = w + 1 → h = 0)) ∧ number 256 bs = v.

Lemma der_int_bound w v bs : 0 < w → in_base 256 bs → der_int w v bs → 0 ≤ v < 2 ^ (8 * w).
Proof.
  intros Hw Hb (Hs & (h & t & -> & Hh & H0) & <-). apply Forall_cons in Hb as [Hh' Ht].
  pose proof (number_bounds 256 t ltac:(lia) Ht) as Hn. rewrite size_cons in *. cbn [number].
  rewrite Z.pow_mul_r by lia. change (2 ^ 8) with 256. unfold size in *. destruct (decide (Z.of_nat (length t) = w)) as [E|E].
  - rewrite H0, <- E in * by lia. lia.
  - pose proof (Z.pow_pos_nonneg 256 (Z.of_nat (length t)) ltac:(lia) ltac:(lia)).
    assert (256 ^ (Z.of_nat (length t) + 1) ≤ 256 ^ w) as Hle by (apply Z.pow_le_mono_r; lia).
    rewrite Z.pow_add_r in Hle by lia. nia.
Qed.

(** Where the whole of the slice is the integer. *)
Lemma parseInteger_all w count s :
  0 < w → in_base 256 s →
  parseInteger w count s ≠ None ∧
  (0 ≤ count → ∀ v, parseInteger w count s = Some (inr (v, [])) ↔ size s = count ∧ der_int w v s).
Proof.
  intros Hw Hs. unfold parseInteger, mbind, der_bind, slice_size. destruct s as [|b t].
  { split; [done|]. intros _ v. split; [done|]. intros [_ [[Hs' _] _]]. done. }
  rewrite size_cons. pose proof (size_pos t). rewrite (proj2 (Z.eqb_neq _ 0)) by lia.
  destruct (Z.ltb_spec (size t + 1) count); [split; [done|]; intros _ v; split; [done|lia]|].
  destruct (Z.ltb_spec (w + 1) count).
  { split; [done|]. intros _ v. split; [done|]. intros [<- [Hsz _]]. rewrite size_cons in Hsz. lia. }
  cbn [slice_at lookup list_lookup fmap option_fmap option_map]. pose proof Hs as [Hb Ht]%Forall_cons.
  change (Z.shiftl 1 7) with 0x80. rewrite (proj1 (length_byte b Hb)).
  destruct (Z.ltb_spec b 128); cbn [negb].
  2: { split; [done|]. intros _ v. split; [done|]. intros [_ (_ & (h & t' & [= <- <-] & Hh & _) & _)]. lia. }
  destruct (Z.eqb_spec count (w + 1)) as [Ec|Ec]; [destruct (Z.eqb_spec b 0) as [Eb|Eb]|]; cbn [negb andb].
  2: { split; [done|]. intros _ v. split; [done|]. intros [E (_ & (h & t' & [= <- <-] & _ & Hz) & _)]. rewrite size_cons in Hz. lia. }
  all: assert (number 256 (take (Z.to_nat count) (b :: t)) < 2 ^ (8 * w)) as Hnum.
  1,3: destruct (decide (count ≤ 0)) as [Hc|Hc];
    [replace (Z.to_nat count) with 0%nat by lia; rewrite take_0; simpl; apply Z.pow_pos_nonneg; lia|];
    assert (in_base 256 (take (Z.to_nat count) (b :: t))) as Hin by (by apply Forall_take);
    eapply (der_int_bound w _ (take (Z.to_nat count) (b :: t))); [lia|done|];
    unfold der_int; assert (size (take (Z.to_nat count) (b :: t)) = count) as -> by (unfold size in *; rewrite length_take; cbn [length]; lia);
    split; [lia|]; split; [|done]; replace (Z.to_nat count) with (S (Z.to_nat (count - 1))) by lia; cbn [take];
    eexists _, _; (split; [done|]); (split; [lia|lia]).
  all: rewrite integer_loop_number by (first [done | lia | (unfold size in *; cbn [length]; lia) | (rewrite drop_0; lia)]);
    rewrite drop_0; unfold slice_skip; rewrite size_cons, (proj2 (Z.ltb_ge _ _)) by lia; unfold mret, der_ret;
    (split; [done|]); intros Hc v; rewrite Z.mul_0_l, Z.add_0_l; split.
  1,3: intros [= <- E]; apply (f_equal length) in E; rewrite length_drop in E; cbn [length] in E;
    (assert (size t + 1 = count) by (unfold size in *; lia)); (split; [done|]);
    rewrite firstn_all2 by (unfold size in *; cbn [length]; lia); split; [rewrite size_cons; lia|]; (split; [|done]);
    exists b, t; (split; [done|]); (split; [lia|]); rewrite size_cons; lia.
  all: intros [E (_ & _ & <-)]; rewrite firstn_all2, skipn_all2 by (unfold size in *; cbn [length]; lia); done.
Qed.

(** A test that must fail for the answer to be a result. *)
Lemma guard_answers {A} (c : bool) e (k : Der A) s b r :
  (if c then error e else k) s = Some (inr (b, r)) ↔ c = false ∧ k s = Some (inr (b, r)).
Proof. destruct c; split; [done|by intros [? _]|done|by intros [_ ?]]. Qed.
Lemma guard_defined {A} (c : bool) e (k : Der A) s :
  (c = false → k s ≠ None) → (if c then error e else k) s ≠ None.
Proof. destruct c; [done|auto]. Qed.
Lemma size_answers {A} (k : Z → Der A) s : (n ← slice_size; k n) s = k (size s) s.
Proof. done. Qed.

Lemma class_false p k :
  negb (isPrimitive p) || negb (isContextSpecific p) = false → negb (p_tag p =? k) = false →
  isPrimitive p = true ∧ isContextSpecific p = true ∧ p_tag p = k.
Proof. intros [H1 H2]%orb_false_iff H3. apply negb_false_iff in H1, H2, H3. by apply Z.eqb_eq in H3. Qed.

Lemma preimage_exact :
  exactly preimage_deserialize
    (λ f s r, r = [] ∧ size f ≤ maxPreimageLength ∧ ∃ l, s = 0x80 :: l ++ f ∧ der_len (size f) l).
Proof.
  intros s Hs. destruct (parsePreamble_exact s Hs) as [Hd Ha]. unfold preimage_deserialize, maxPreimageLength. split.
  - apply bind_defined; [done|]. intros p s' E. apply Ha in E. pose proof (preamble_bytes _ _ _ E Hs) as Hs'.
    apply guard_defined. intros _. apply guard_defined. intros _. rewrite size_answers. apply guard_defined.
    intros Hn%negb_false_iff%Z.eqb_eq. apply guard_defined. intros Hm%Z.ltb_ge. pose proof (size_pos s').
    apply (parseOctetString_exact (p_length p)); [lia|done].
  - intros f r. rewrite bind_answers. split.
    + intros (p & s' & E & H). apply Ha in E. pose proof (preamble_bytes _ _ _ E Hs) as Hs'.
      apply guard_answers in H as [H1 H]. apply guard_answers in H as [H2 H]. destruct (class_false p 0 H1 H2) as (C1 & C2 & C3).
      rewrite size_answers in H. apply guard_answers in H as [Hn%negb_false_iff%Z.eqb_eq H]. apply guard_answers in H as [Hm%Z.ltb_ge H].
      pose proof (size_pos s'). apply parseOctetString_exact in H as (-> & Hf & _); [|lia|done].
      rewrite size_app in Hn. assert (r = []) as -> by (destruct r; [done|rewrite size_cons in Hn; pose proof (size_pos r); lia]).
      rewrite app_nil_r in *. split_and!; [done|lia|].
      destruct (proj1 (preamble_primitive 0 p s f ltac:(lia) Hs)) as (l & -> & Hl & _); [done|]. exists l. by rewrite Hf.
    + intros (-> & Hf & l & -> & Hl). exists (mkPreamble 0x80 0 (size f)), f. split.
      { apply Ha. apply (preamble_primitive 0 (mkPreamble 0x80 0 (size f))); [lia|done|]. by exists l. }
      pose proof (size_pos f). cbn [p_length]. apply guard_answers. split; [done|]. apply guard_answers. split; [done|]. rewrite size_answers.
      rewrite Z.eqb_refl. apply guard_answers. split; [done|]. apply guard_answers. split; [apply Z.ltb_ge; lia|].
      apply parseOctetString_exact; [lia| |]; [apply Forall_cons in Hs as [_ Hs]; by apply Forall_app in Hs as [_ Hs]|].
      rewrite app_nil_r. split_and!; [done|done|lia].
Qed.

Lemma part_answers {A B} n (f : Der A) (k : (cerror + A) → Der B) s :
  n ≤ size s →
  (x ← on_part n f; k x) s =
  match f (take (Z.to_nat n) s) with
  | None => None
  | Some (inl e) => k (inl e) s
  | Some (inr (a, _)) => k (inr a) s
  end.
Proof.
  intros Hn. unfold on_part, mbind, der_bind, slice_data. rewrite (proj2 (Z.ltb_ge _ _)) by lia.
  by destruct (f _) as [[e|[a r]]|].
Qed.

Lemma tag_type p : type_of_tag (p_tag p) = Some preimageSha256 → p_tag p = 0.
Proof.
  unfold type_of_tag. destruct (Z.eqb_spec (p_tag p) 0); [done|]. repeat (destruct (_ =? _); [done|]). done.
Qed.

Lemma constructed_false p :
  negb (isConstructed p) || negb (isContextSpecific p) = false → isConstructed p = true ∧ isContextSpecific p = true.
Proof. intros [H1 H2]%orb_false_iff. by apply negb_false_iff in H1, H2. Qed.

Lemma skip_all s : slice_skip (size s) s = Some (inr (tt, [])).
Proof. unfold slice_skip. rewrite (proj2 (Z.ltb_ge _ _)) by lia. unfold size. by rewrite Nat2Z.id, drop_all. Qed.

Lemma der_len_size n l : der_len n l → 1 ≤ size l ≤ 9.
Proof. intros [[-> _]|(bs & -> & H & _)]; [by vm_compute|rewrite size_cons; lia]. Qed.

(** The fulfillments that are accepted. *)
Definition fulfillment_form (f : Fulfillment) (s r : Blob) : Prop :=
  r = [] ∧ size f ≤ maxPreimageLength ∧
  ∃ l l', s = 0xA0 :: l ++ 0x80 :: l' ++ f ∧ der_len (1 + size l' + size f) l ∧ der_len (size f) l'.

Lemma fulfillment_exact : exactly fulfillment_deserialize fulfillment_form.
Proof.
  intros s Hs. destruct (parsePreamble_exact s Hs) as [Hd Ha].
  unfold fulfillment_deserialize, fulfillment_form, maxSerializedFulfillment. rewrite size_answers. split.
  - apply guard_defined. intros _. apply bind_defined; [done|]. intros p s' E. apply Ha in E.
    pose proof (preamble_bytes _ _ _ E Hs) as Hs'. apply guard_defined. intros _. rewrite size_answers.
    apply guard_defined. intros H1%Z.ltb_ge. apply guard_defined. intros H2%Z.ltb_ge. apply guard_defined. intros _.
    destruct (type_of_tag (p_tag p)) as [[]|]; try done. rewrite part_answers by lia.
    replace (p_length p) with (size s') by lia. rewrite firstn_all2 by (unfold size; lia).
    destruct (preimage_exact s' Hs') as [Hp _]. destruct (preimage_deserialize s') as [[e|[f r]]|]; [done| |done].
    apply bind_defined; [by rewrite skip_all|]. intros [] t Et. rewrite skip_all in Et. injection Et as <-. done.
  - intros f r. split.
    + intros H. apply guard_answers in H as [_ H]. apply bind_answers in H as (p & s' & E & H). apply Ha in E.
      pose proof (preamble_bytes _ _ _ E Hs) as Hs'. apply guard_answers in H as [[C1 C2]%constructed_false H]. rewrite size_answers in H.
      apply guard_answers in H as [H1%Z.ltb_ge H]. apply guard_answers in H as [H2%Z.ltb_ge H]. apply guard_answers in H as [_ H].
      destruct (type_of_tag (p_tag p)) as [[]|] eqn:Et; try done. apply tag_type in Et. rewrite part_answers in H by lia.
      replace (p_length p) with (size s') in H by lia. rewrite firstn_all2 in H by (unfold size; lia).
      destruct (preimage_exact s' Hs') as [_ Hp]. destruct (preimage_deserialize s') as [[e|[f' r']]|]; try done.
      destruct (Hp f' r') as [Hp' _]. destruct (Hp' eq_refl) as (_ & Hf & l' & -> & Hl').
      apply bind_answers in H as ([] & t & E1 & H). rewrite skip_all in E1. injection E1 as <-. injection H as <- <-.
      destruct (proj1 (preamble_constructed p s (128 :: l' ++ f') Hs)) as (l & -> & Hl & _); [done|].
      split; [done|]. split; [done|]. exists l, l'. split; [done|]. split; [|done].
      rewrite size_cons, size_app in H1, H2. by replace (1 + size l' + size f') with (p_length p) by lia.
    + intros (-> & Hf & l & l' & -> & Hl & Hl'). pose proof (der_len_size _ _ Hl'). pose proof (der_len_size _ _ Hl). pose proof (size_pos f).
      apply guard_answers. split; [rewrite size_cons; apply Z.eqb_neq; pose proof (size_pos (l ++ 128 :: l' ++ f)); lia|].
      set (p := mkPreamble 0xA0 0 (1 + size l' + size f)). apply bind_answers. exists p, (0x80 :: l' ++ f). split.
      { apply Ha. apply (preamble_constructed p); [done|]. by exists l. }
      assert (size (0x80 :: l' ++ f) = p_length p) as Es by (rewrite size_cons, size_app; simpl; lia).
      apply guard_answers. split; [done|]. rewrite size_answers, Es. apply guard_answers. split; [apply Z.ltb_irrefl|].
      apply guard_answers. split; [apply Z.ltb_irrefl|]. unfold maxPreimageLength in *. apply guard_answers. split; [apply Z.ltb_ge; simpl; lia|].
      change (type_of_tag (p_tag p)) with (Some preimageSha256). cbv iota. rewrite part_answers by lia.
      rewrite <- Es. rewrite firstn_all2 by (unfold size; lia).
      assert (in_base 256 (0x80 :: l' ++ f)) as Hs'.
      { apply Forall_cons in Hs as [_ Hs]. by apply Forall_app in Hs as [_ Hs]. }
      destruct (preimage_exact _ Hs') as [_ Hp]. rewrite (proj2 (Hp f [])) by (split_and!; [done|done|by exists l']).
      apply bind_answers. exists tt, []. split; [apply skip_all|done].
Qed.

(** The conditions that are accepted: a fingerprint and a cost. *)
Definition condition_body (c : Condition) (b : Blob) : Prop :=
  c_type c = preimageSha256 ∧ c_subtypes c = [] ∧ size (c_fingerprint c) = fingerprintSize ∧ c_cost c ≤ maxPreimageLength ∧
  ∃ l l' i, b = 0x80 :: l ++ c_fingerprint c ++ 0x81 :: l' ++ i ∧
    der_len fingerprintSize l ∧ der_len (size i) l' ∧ der_int 4 (c_cost c) i.
Definition condition_form (c : Condition) (s r : Blob) : Prop :=
  r = [] ∧ ∃ l b, s = 0xA0 :: l ++ b ∧ der_len (size b) l ∧ size b ≤ maxSerializedCondition ∧ condition_body c b.

Lemma no_bytes (r : Blob) : size r = 0 → r = [].
Proof. destruct r; [done|]. rewrite size_cons. pose proof (size_pos r). lia. Qed.

Lemma der_len_nonneg n b l r : in_base 256 (b :: l ++ r) → der_len n l → 0 ≤ n.
Proof.
  intros [_ [Hl _]%Forall_app]%Forall_cons [[_ ?]|(bs & -> & _ & <- & _)]; [lia|].
  apply Forall_cons in Hl as [_ Hl]. by apply number_bounds.
Qed.

Lemma simple_exact :
  exactly (loadSimpleSha256 preimageSha256) (λ c b r, r = [] ∧ condition_body c b).
Proof.
  intros s Hs. destruct (parsePreamble_exact s Hs) as [Hd Ha]. unfold loadSimpleSha256, condition_body, fingerprintSize, maxPreimageLength. split.
  - apply bind_defined; [done|]. intros p s' E. apply Ha in E. pose proof (preamble_bytes _ _ _ E Hs) as Hs'.
    apply guard_defined. intros _. apply guard_defined. intros _. apply guard_defined. intros Hn%negb_false_iff%Z.eqb_eq.
    destruct (parseOctetString_exact (p_length p) ltac:(lia) s' Hs') as [Hod Hoa].
    apply bind_defined; [done|]. intros b t Eb. apply Hoa in Eb as (-> & Hb & _). apply Forall_app in Hs' as [_ Ht].
    destruct (parsePreamble_exact t Ht) as [Hd' Ha']. apply bind_defined; [done|]. intros p' t' E'. apply Ha' in E'.
    pose proof (preamble_bytes _ _ _ E' Ht) as Ht'. apply guard_defined. intros _. apply guard_defined. intros _.
    apply bind_defined; [by apply parseInteger_all|]. intros v t'' _. rewrite size_answers. do 2 (apply guard_defined; intros _). done.
  - intros c r. rewrite bind_answers. split.
    + intros (p & s' & E & H). apply Ha in E. pose proof (preamble_bytes _ _ _ E Hs) as Hs'.
      apply guard_answers in H as [H1 H]. apply guard_answers in H as [H2 H]. destruct (class_false p 0 H1 H2) as (C1 & C2 & C3).
      apply guard_answers in H as [Hn%negb_false_iff%Z.eqb_eq H].
      apply bind_answers in H as (b & t & Eb & H). apply parseOctetString_exact in Eb as (-> & Hb & _); [|lia|done].
      destruct (proj1 (preamble_primitive 0 p s (b ++ t) ltac:(lia) Hs)) as (l & -> & Hl & _); [done|].
      apply Forall_app in Hs' as [_ Ht]. apply bind_answers in H as (p' & t' & E' & H). apply parsePreamble_exact in E'; [|done].
      pose proof (preamble_bytes _ _ _ E' Ht) as Ht'. apply guard_answers in H as [H3 H]. apply guard_answers in H as [H4 H].
      destruct (class_false p' 1 H3 H4) as (C1' & C2' & C3').
      destruct (proj1 (preamble_primitive 1 p' t t' ltac:(lia) Ht)) as (l' & -> & Hl' & _); [done|].
      apply bind_answers in H as (v & t'' & Ev & H). rewrite size_answers in H.
      apply guard_answers in H as [Hz%negb_false_iff%Z.eqb_eq H]. apply no_bytes in Hz as ->.
      apply guard_answers in H as [Hm H]. injection H as <- <-. rewrite bool_decide_true in Hm by done. apply Z.ltb_ge in Hm.
      pose proof (der_len_nonneg _ _ _ _ Ht Hl').
      apply (parseInteger_all 4) in Ev as [Es Hi]; [|lia|done|done].
      split; [done|]. cbn [c_type c_subtypes c_fingerprint c_cost]. split_and!; try done; [lia|].
      exists l, l', t'. rewrite Hn in Hl. rewrite <- Es in Hl'. done.
    + intros (-> & Et & Esub & Hf & Hc & l & l' & i & -> & Hl & Hl' & Hi). destruct c as [ty co fp su]; cbn [c_type c_subtypes c_fingerprint c_cost] in *.
      subst ty su. pose proof Hs as [_ Hs1]%Forall_cons. apply Forall_app in Hs1 as [_ Hs1]. pose proof Hs1 as [_ Hs2]%Forall_app.
      pose proof Hs2 as [_ Hs3]%Forall_cons. apply Forall_app in Hs3 as [_ Hs3].
      exists (mkPreamble 0x80 0 32), (fp ++ 0x81 :: l' ++ i). split.
      { apply Ha. apply (preamble_primitive 0 (mkPreamble 0x80 0 32)); [lia|done|]. by exists l. }
      apply guard_answers. split; [done|]. apply guard_answers. split; [done|]. apply guard_answers. split; [done|].
      apply bind_answers. exists fp, (0x81 :: l' ++ i). split.
      { apply parseOctetString_exact; [cbn; lia|done|]. cbn [p_length]. split_and!; [done|done|lia]. }
      apply bind_answers. exists (mkPreamble 0x80 1 (size i)), i. split.
      { apply parsePreamble_exact; [done|]. apply (preamble_primitive 1 (mkPreamble 0x80 1 (size i))); [lia|done|]. by exists l'. }
      apply guard_answers. split; [done|]. apply guard_answers. split; [done|]. apply bind_answers. exists co, []. split.
      { apply (parseInteger_all 4); [lia|done|cbn; apply size_pos|done]. }
      rewrite size_answers. apply guard_answers. split; [done|]. apply guard_answers. split; [|done].
      rewrite bool_decide_true by done. by apply Z.ltb_ge.
Qed.

Lemma condition_exact : exactly condition_deserialize condition_form.
Proof.
  intros s Hs. destruct (parsePreamble_exact s Hs) as [Hd Ha].
  unfold condition_deserialize, condition_form, maxSerializedCondition. rewrite size_answers. split.
  - apply guard_defined. intros _. apply bind_defined; [done|]. intros p s' E. apply Ha in E.
    pose proof (preamble_bytes _ _ _ E Hs) as Hs'. apply guard_defined. intros _. rewrite size_answers.
    apply guard_defined. intros H1%Z.ltb_ge. apply guard_defined. intros _.
    destruct (type_of_tag (p_tag p)) as [[]|]; try done. rewrite part_answers by lia.
    assert (in_base 256 (take (Z.to_nat (p_length p)) s')) as Hp by (by apply Forall_take).
    destruct (simple_exact _ Hp) as [Hsd _]. destruct (loadSimpleSha256 _ _) as [[e|[c r]]|]; [| |done].
    + unfold mbind, der_bind, slice_size, mret, der_ret. by destruct (negb _).
    + unfold mbind, der_bind, slice_size, slice_skip, mret, der_ret. rewrite (proj2 (Z.ltb_ge _ _)) by lia. by destruct (negb _).
  - intros c r. split.
    + intros H. apply guard_answers in H as [_ H]. apply bind_answers in H as (p & s' & E & H). apply Ha in E.
      pose proof (preamble_bytes _ _ _ E Hs) as Hs'. apply guard_answers in H as [[C1 C2]%constructed_false H]. rewrite size_answers in H.
      apply guard_answers in H as [H1%Z.ltb_ge H]. apply guard_answers in H as [H2%Z.ltb_ge H].
      destruct (type_of_tag (p_tag p)) as [[]|] eqn:Et; try done. apply tag_type in Et. rewrite part_answers in H by lia.
      assert (in_base 256 (take (Z.to_nat (p_length p)) s')) as Hp by (by apply Forall_take).
      destruct (simple_exact _ Hp) as [_ Hsa]. destruct (loadSimpleSha256 _ _) as [[e|[c' r']]|]; [| |done].
      { apply bind_answers in H as (? & t & _ & H). rewrite size_answers in H. by apply guard_answers in H as [_ H]. }
      destruct (Hsa c' r') as [Hsa' _]. destruct (Hsa' eq_refl) as (_ & Hbody).
      apply bind_answers in H as ([] & t & E1 & H). rewrite size_answers in H.
      apply guard_answers in H as [Hz%negb_false_iff%Z.eqb_eq H]. apply no_bytes in Hz as ->. injection H as <- <-.
      unfold slice_skip in E1. destruct (size s' <? p_length p); [done|]. injection E1 as E1.
      assert (s' = take (Z.to_nat (p_length p)) s') as Etake by (rewrite <- (take_drop (Z.to_nat (p_length p)) s') at 1; by rewrite E1, app_nil_r).
      rewrite <- Etake in Hbody. split; [done|].
      destruct (proj1 (preamble_constructed p s s' Hs)) as (l & -> & Hl & _); [done|]. exists l, s'. split_and!; try done.
      assert (p_length p = size s') as <-; [|done]. apply (f_equal length) in E1. rewrite length_drop in E1. cbn [length] in E1.
      pose proof (der_len_nonneg _ _ _ _ Hs Hl). unfold size in *. lia.
    + intros (-> & l & b & -> & Hl & Hb & Hbody). pose proof (der_len_size _ _ Hl). pose proof (size_pos b).
      apply guard_answers. split; [rewrite size_cons, size_app; apply Z.eqb_neq; lia|].
      set (p := mkPreamble 0xA0 0 (size b)). apply bind_answers. exists p, b. split.
      { apply Ha. apply (preamble_constructed p); [done|]. by exists l. }
      apply guard_answers. split; [done|]. rewrite size_answers. cbn [p_length p]. apply guard_answers. split; [apply Z.ltb_irrefl|].
      apply guard_answers. split; [apply Z.ltb_ge; lia|]. change (type_of_tag (p_tag p)) with (Some preimageSha256). cbv iota.
      rewrite part_answers by lia. rewrite firstn_all2 by (unfold size; lia).
      assert (in_base 256 b) as Hb' by (apply Forall_cons in Hs as [_ Hs]; by apply Forall_app in Hs as [_ Hs]).
      destruct (simple_exact b Hb') as [_ Hsa]. rewrite (proj2 (Hsa c [])) by done.
      apply bind_answers. exists tt, []. split; [apply skip_all|done].
Qed.

(** ** Claims *)

(** C16: Crypto-conditions.  On any bytes the decoders of conditions and fulfillments answer without
    reading outside their slice, and they accept exactly the conditions and fulfillments of preimages
    of at most 128 bytes: nested tags with lengths in short or long form, a fingerprint of 32 bytes
    and a cost.  So the check of an escrow succeeds exactly when its condition holds the hash and the
    length of the preimage its fulfillment holds. *)
Theorem conditions_checked sha256 f c :
  in_base 256 f → in_base 256 c →
  (∀ x r, condition_deserialize c = Some (inr (x, r)) ↔ condition_form x c r) ∧
  (∀ x r, fulfillment_deserialize f = Some (inr (x, r)) ↔ fulfillment_form x f r) ∧
  checkCondition sha256 f c ≠ None ∧
  (checkCondition sha256 f c = Some true ↔
   ∃ preimage, fulfillment_form preimage f [] ∧
     condition_form (mkCondition preimageSha256 (size preimage) (sha256 preimage) []) c []).
Proof.
  intros Hf Hc. destruct (condition_exact c Hc) as [Dc Ac], (fulfillment_exact f Hf) as [Df Af].
  split; [done|]. split; [done|]. unfold checkCondition.
  destruct (condition_deserialize c) as [[e|[x r]]|] eqn:Ec; [| |done].
  { split; [done|]. split; [done|]. intros (p & _ & H). by apply Ac in H. }
  destruct (fulfillment_deserialize f) as [[e|[p r']]|] eqn:Ef; [| |done].
  { split; [done|]. split; [done|]. intros (p & H & _). by apply Af in H. }
  split; [done|]. destruct (proj1 (Ac x r) eq_refl) as (-> & Hx), (proj1 (Af p r') eq_refl) as (-> & Hp).
  assert (u32 (size p) = size p) as Hu by (apply u32_small; pose proof (size_pos p); unfold maxPreimageLength in Hp; lia).
  unfold validate, match_, condition_eqb, condition. rewrite Hu, andb_true_r. cbn [c_type c_cost c_fingerprint c_subtypes]. split.
  - intros [= H]. case_bool_decide as E1; [|done]. cbn [negb] in H.
    rewrite !andb_true_iff, !bool_decide_eq_true, Z.eqb_eq in H. destruct H as (((E2 & E3) & E4) & E5).
    exists p. split; [by split|]. destruct x as [ty co fp su]. cbn in *. subst. by split.
  - intros (p' & H1 & H2). apply Af in H1. apply Ac in H2. injection H1 as <-. injection H2 as ->. cbn. f_equal.
    by rewrite !bool_decide_true, Z.eqb_refl by done.
Qed.

(** The three bytes "aaa", with a constant for their hash. *)
Definition sample_fulfillment : Blob := [0xA0; 5; 0x80; 3; 0x61; 0x61; 0x61].
Definition sample_condition : Blob := [0xA0; 37; 0x80; 32] ++ replicate 32 7 ++ [0x81; 1; 3].

Lemma conditions_checked_witness :
  checkCondition (λ _, replicate 32 7) sample_fulfillment sample_condition = Some true ∧
  ∃ preimage, fulfillment_form preimage sample_fulfillment [].
Proof.
  assert (in_base 256 sample_fulfillment) as Hf by (apply (bool_decide_unpack _); vm_compute; exact I).
  assert (in_base 256 sample_condition) as Hc by (apply (bool_decide_unpack _); vm_compute; exact I).
  destruct (conditions_checked (λ _, replicate 32 7) sample_fulfillment sample_condition Hf Hc) as (_ & _ & _ & H).
  assert (checkCondition (λ _, replicate 32 7) sample_fulfillment sample_condition = Some true) as E by (vm_compute; reflexivity).
  split; [exact E|]. destruct (proj1 H E) as (p & Hp & _). exists p. exact Hp.
Defined.

(** ** Where conditions fall short *)

(** An error inside a condition is reported as trailing bytes: the slice has not moved. *)
Theorem inner_error_lost :
  loadSimpleSha256 preimageSha256 [0x80; 1; 7] = Some (inl fingerprint_size) ∧
  condition_deserialize [0xA0; 3; 0x80; 1; 7] = Some (inl trailing_garbage).
Proof. split; vm_compute; reflexivity. Qed.

(** Lengths and costs need not be in the shortest form: one condition has several encodings. *)
Theorem encoding_not_unique :
  let long := [0xA0; 0x81; 39; 0x80; 32] ++ replicate 32 7 ++ [0x81; 3; 0; 0; 3] in
  long ≠ sample_condition ∧ condition_deserialize long = condition_deserialize sample_condition.
Proof. cbv zeta. split; [discriminate|vm_compute; reflexivity]. Qed.
