(* ===== verification/SField.v ===== *)
(** * Fields of serialized objects

    src/src/ripple/protocol/SField.h and SField.cpp: a field has a type and a number,
    packed in its code; the table of the fields that are known.  [InnerObjectFormats.cpp]
    has the templates of objects inside others. *)

From stdpp Require Import prelude strings sorting.
From Stdlib Require Import ZArith Lia.
From S2P Require Import Prelude.

#[local] Open Scope string_scope.
#[local] Open Scope Z_scope.

(** [SerializedTypeID] *)
Definition STI_UNKNOWN : Z := -2.
Definition STI_NOTPRESENT : Z := 0.
Definition STI_UINT16 : Z := 1.
Definition STI_UINT32 : Z := 2.
Definition STI_UINT64 : Z := 3.
Definition STI_HASH128 : Z := 4.
Definition STI_HASH256 : Z := 5.
Definition STI_AMOUNT : Z := 6.
Definition STI_VL : Z := 7.
Definition STI_ACCOUNT : Z := 8.
Definition STI_OBJECT : Z := 14.
Definition STI_ARRAY : Z := 15.
Definition STI_UINT8 : Z := 16.
Definition STI_HASH160 : Z := 17.
Definition STI_PATHSET : Z := 18.
Definition STI_VECTOR256 : Z := 19.
Definition STI_TRANSACTION : Z := 10001.
Definition STI_LEDGERENTRY : Z := 10002.
Definition STI_VALIDATION : Z := 10003.
Definition STI_METADATA : Z := 10004.

(** [field_code] *)
Definition code_of (id index : Z) : Z := Z.lor (Z.shiftl id 16) index.

Definition sMD_Never : Z := 0x00.
Definition sMD_ChangeOrig : Z := 0x01.
Definition sMD_ChangeNew : Z := 0x02.
Definition sMD_DeleteFinal : Z := 0x04.
Definition sMD_Create : Z := 0x08.
Definition sMD_Always : Z := 0x10.
Definition sMD_Default : Z := Z.lor (Z.lor sMD_ChangeOrig sMD_ChangeNew) (Z.lor sMD_DeleteFinal sMD_Create).

Record SField := mkSField {
  fieldCode : Z;
  fieldType : Z;
  fieldValue : Z;
  fieldName : string;
  fieldMeta : Z;
  signingField : bool;
}.
#[export] Instance SField_eq_dec : EqDecision SField.
Proof. solve_decision. Defined.

Definition mkField (tid fv : Z) (fn : string) (meta : Z) (signing : bool) : SField :=
  mkSField (code_of tid fv) tid fv fn meta signing.
Definition field (tid fv : Z) (fn : string) : SField := mkField tid fv fn sMD_Default true.
Definition codeField (fc : Z) : SField := mkSField fc STI_UNKNOWN 0 "" sMD_Never true.
Definition sfInvalid : SField := codeField (-1).
Definition sfGeneric : SField := codeField 0.

(** ** The known fields *)
Definition knownFields : list SField :=
  [ sfInvalid; sfGeneric;
    field STI_LEDGERENTRY 257 "LedgerEntry";
    field STI_TRANSACTION 257 "Transaction";
    field STI_VALIDATION 257 "Validation";
    field STI_METADATA 257 "Metadata";
    field STI_HASH256 257 "hash";
    field STI_HASH256 258 "index";
    field STI_UINT8 1 "CloseResolution";
    field STI_UINT8 2 "Method";
    field STI_UINT8 3 "TransactionResult";
    field STI_UINT8 16 "TickSize";
    mkField STI_UINT16 1 "LedgerEntryType" sMD_Never true;
    field STI_UINT16 2 "TransactionType";
    field STI_UINT16 3 "SignerWeight";
    field STI_UINT16 16 "Version";
    field STI_UINT32 2 "Flags";
    field STI_UINT32 3 "SourceTag";
    field STI_UINT32 4 "Sequence";
    mkField STI_UINT32 5 "PreviousTxnLgrSeq" sMD_DeleteFinal true;
    field STI_UINT32 6 "LedgerSequence";
    field STI_UINT32 7 "CloseTime";
    field STI_UINT32 8 "ParentCloseTime";
    field STI_UINT32 9 "SigningTime";
    field STI_UINT32 10 "Expiration";
    field STI_UINT32 11 "TransferRate";
    field STI_UINT32 12 "WalletSize";
    field STI_UINT32 13 "OwnerCount";
    field STI_UINT32 14 "DestinationTag";
    field STI_UINT32 16 "HighQualityIn";
    field STI_UINT32 17 "HighQualityOut";
    field STI_UINT32 18 "LowQualityIn";
    field STI_UINT32 19 "LowQualityOut";
    field STI_UINT32 20 "QualityIn";
    field STI_UINT32 21 "QualityOut";
    field STI_UINT32 22 "StampEscrow";
    field STI_UINT32 23 "BondAmount";
    field STI_UINT32 24 "LoadFee";
    field STI_UINT32 25 "OfferSequence";
    field STI_UINT32 26 "FirstLedgerSequence";
    field STI_UINT32 27 "LastLedgerSequence";
    field STI_UINT32 28 "TransactionIndex";
    field STI_UINT32 29 "OperationLimit";
    field STI_UINT32 30 "ReferenceFeeUnits";
    field STI_UINT32 31 "ReserveBase";
    field STI_UINT32 32 "ReserveIncrement";
    field STI_UINT32 33 "SetFlag";
    field STI_UINT32 34 "ClearFlag";
    field STI_UINT32 35 "SignerQuorum";
    field STI_UINT32 36 "CancelAfter";
    field STI_UINT32 37 "FinishAfter";
    field STI_UINT32 38 "SignerListID";
    field STI_UINT32 39 "SettleDelay";
    field STI_UINT64 1 "IndexNext";
    field STI_UINT64 2 "IndexPrevious";
    field STI_UINT64 3 "BookNode";
    field STI_UINT64 4 "OwnerNode";
    field STI_UINT64 5 "BaseFee";
    field STI_UINT64 6 "ExchangeRate";
    field STI_UINT64 7 "LowNode";
    field STI_UINT64 8 "HighNode";
    field STI_UINT64 9 "DestinationNode";
    field STI_UINT64 10 "Cookie";
    field STI_HASH128 1 "EmailHash";
    field STI_HASH160 1 "TakerPaysCurrency";
    field STI_HASH160 2 "TakerPaysIssuer";
    field STI_HASH160 3 "TakerGetsCurrency";
    field STI_HASH160 4 "TakerGetsIssuer";
    field STI_HASH256 1 "LedgerHash";
    field STI_HASH256 2 "ParentHash";
    field STI_HASH256 3 "TransactionHash";
    field STI_HASH256 4 "AccountHash";
    mkField STI_HASH256 5 "PreviousTxnID" sMD_DeleteFinal true;
    field STI_HASH256 6 "LedgerIndex";
    field STI_HASH256 7 "WalletLocator";
    mkField STI_HASH256 8 "RootIndex" sMD_Always true;
    field STI_HASH256 9 "AccountTxnID";
    field STI_HASH256 16 "BookDirectory";
    field STI_HASH256 17 "InvoiceID";
    field STI_HASH256 18 "Nickname";
    field STI_HASH256 19 "Amendment";
    field STI_HASH256 20 "TicketID";
    field STI_HASH256 21 "Digest";
    field STI_HASH256 22 "Channel";
    field STI_HASH256 23 "ConsensusHash";
    field STI_HASH256 24 "CheckID";
    field STI_AMOUNT 1 "Amount";
    field STI_AMOUNT 2 "Balance";
    field STI_AMOUNT 3 "LimitAmount";
    field STI_AMOUNT 4 "TakerPays";
    field STI_AMOUNT 5 "TakerGets";
    field STI_AMOUNT 6 "LowLimit";
    field STI_AMOUNT 7 "HighLimit";
    field STI_AMOUNT 8 "Fee";
    field STI_AMOUNT 9 "SendMax";
    field STI_AMOUNT 10 "DeliverMin";
    field STI_AMOUNT 16 "MinimumOffer";
    field STI_AMOUNT 17 "RippleEscrow";
    field STI_AMOUNT 18 "DeliveredAmount";
    field STI_VL 1 "PublicKey";
    field STI_VL 2 "MessageKey";
    field STI_VL 3 "SigningPubKey";
    mkField STI_VL 4 "TxnSignature" sMD_Default false;
    mkField STI_VL 6 "Signature" sMD_Default false;
    field STI_VL 7 "Domain";
    field STI_VL 8 "FundCode";
    field STI_VL 9 "RemoveCode";
    field STI_VL 10 "ExpireCode";
    field STI_VL 11 "CreateCode";
    field STI_VL 12 "MemoType";
    field STI_VL 13 "MemoData";
    field STI_VL 14 "MemoFormat";
    field STI_VL 16 "Fulfillment";
    field STI_VL 17 "Condition";
    mkField STI_VL 18 "MasterSignature" sMD_Default false;
    field STI_ACCOUNT 1 "Account";
    field STI_ACCOUNT 2 "Owner";
    field STI_ACCOUNT 3 "Destination";
    field STI_ACCOUNT 4 "Issuer";
    field STI_ACCOUNT 5 "Authorize";
    field STI_ACCOUNT 6 "Unauthorize";
    field STI_ACCOUNT 7 "Target";
    field STI_ACCOUNT 8 "RegularKey";
    field STI_PATHSET 1 "Paths";
    mkField STI_VECTOR256 1 "Indexes" sMD_Never true;
    field STI_VECTOR256 2 "Hashes";
    field STI_VECTOR256 3 "Amendments";
    field STI_OBJECT 2 "TransactionMetaData";
    field STI_OBJECT 3 "CreatedNode";
    field STI_OBJECT 4 "DeletedNode";
    field STI_OBJECT 5 "ModifiedNode";
    field STI_OBJECT 6 "PreviousFields";
    field STI_OBJECT 7 "FinalFields";
    field STI_OBJECT 8 "NewFields";
    field STI_OBJECT 9 "TemplateEntry";
    field STI_OBJECT 10 "Memo";
    field STI_OBJECT 11 "SignerEntry";
    field STI_OBJECT 16 "Signer";
    field STI_OBJECT 18 "Majority";
    mkField STI_ARRAY 3 "Signers" sMD_Default false;
    field STI_ARRAY 4 "SignerEntries";
    field STI_ARRAY 5 "Template";
    field STI_ARRAY 6 "Necessary";
    field STI_ARRAY 7 "Sufficient";
    field STI_ARRAY 8 "AffectedNodes";
    field STI_ARRAY 9 "Memos";
    field STI_ARRAY 16 "Majorities" ].

Fixpoint find_code (code : Z) (l : list SField) : option SField :=
  match l with
  | [] => None
  | f :: l => if fieldCode f =? code then Some f else find_code code l
  end.
(** [SField::getField] of a code and of a type and a number. *)
Definition getField (code : Z) : SField := default sfInvalid (find_code code knownFields).
Definition getField2 (type value : Z) : SField := getField (code_of type value).
Fixpoint getFieldName (name : string) (l : list SField) : SField :=
  match l with
  | [] => sfInvalid
  | f :: l => if String.eqb (fieldName f) name then f else getFieldName name l
  end.

Definition isInvalid (f : SField) : bool := fieldCode f =? -1.
Definition isUseful (f : SField) : bool := 0 <? fieldCode f.
Definition isBinary (f : SField) : bool := fieldValue f <? 256.
Definition isDiscardable (f : SField) : bool := 256 <? fieldValue f.
Definition shouldMeta (f : SField) (c : Z) : bool := negb (Z.land (fieldMeta f) c =? 0).
Definition shouldInclude (withSigningField : bool) (f : SField) : bool :=
  (fieldValue f <? 256) && (withSigningField || signingField f).
Definition same_field (f g : SField) : bool := fieldCode f =? fieldCode g.
(** [SField::compare] *)
Definition compare_fields (f1 f2 : SField) : Z :=
  if (fieldCode f1 <=? 0) || (fieldCode f2 <=? 0) then 0
  else if fieldCode f1 <? fieldCode f2 then -1
  else if fieldCode f2 <? fieldCode f1 then 1
  else 0.

(** ** Templates *)
Inductive SOEStyle := soeREQUIRED | soeOPTIONAL | soeDEFAULT.
#[export] Instance SOEStyle_eq_dec : EqDecision SOEStyle.
Proof. solve_decision. Defined.
Abbreviation SOTemplate := (list (SField * SOEStyle)).

Definition sfAccount : SField := field STI_ACCOUNT 1 "Account".
Definition sfSignerWeight : SField := field STI_UINT16 3 "SignerWeight".
Definition sfSigningPubKey : SField := field STI_VL 3 "SigningPubKey".
Definition sfTxnSignature : SField := mkField STI_VL 4 "TxnSignature" sMD_Default false.
Definition sfSignerEntry : SField := field STI_OBJECT 11 "SignerEntry".
Definition sfSigner : SField := field STI_OBJECT 16 "Signer".

Definition innerFormats : list (SField * SOTemplate) :=
  [ (sfSignerEntry, [(sfAccount, soeREQUIRED); (sfSignerWeight, soeREQUIRED)]);
    (sfSigner, [(sfAccount, soeREQUIRED); (sfSigningPubKey, soeREQUIRED); (sfTxnSignature, soeREQUIRED)]) ].
(** [findSOTemplateBySField] *)
Fixpoint find_template (f : SField) (l : list (SField * SOTemplate)) : option SOTemplate :=
  match l with
  | [] => None
  | (g, t) :: l => if same_field g f then Some t else find_template f l
  end.
Definition findSOTemplateBySField (f : SField) : option SOTemplate := find_template f innerFormats.

(** ** The table *)

(** Codes identify fields; the known binary fields have codes of two bytes. *)
Definition field_known (f : SField) : Prop := getField (fieldCode f) = f ∧ isInvalid f = false.

Lemma codes_distinct : NoDup (fieldCode <$> knownFields).
Proof. apply (bool_decide_unpack _). vm_compute. exact I. Qed.

Lemma find_code_spec code l f : find_code code l = Some f → f ∈ l ∧ fieldCode f = code.
Proof.
  induction l as [|g l IH]; simpl; [done|]. destruct (Z.eqb_spec (fieldCode g) code).
  - intros [= <-]. split; [apply list_elem_of_here|done].
  - intros H. destruct (IH H). split; [by apply list_elem_of_further|done].
Qed.

Lemma known_eq f g : field_known f → field_known g → fieldCode f = fieldCode g → f = g.
Proof. intros [Hf _] [Hg _] E. rewrite <- Hf, <- Hg. by rewrite E. Qed.

Lemma known_elem f : field_known f → f ∈ knownFields.
Proof.
  intros [E Hi]. unfold getField in E. destruct (find_code (fieldCode f) knownFields) as [g|] eqn:Eg; simpl in E.
  - subst g. by apply find_code_spec in Eg as [? _].
  - subst f. done.
Qed.

(** A property of every known field, checked on the table. *)
Lemma known_ind (P : SField → bool) f : forallb P knownFields = true → field_known f → P f = true.
Proof. intros Hall Hf. apply known_elem, list_elem_of_In in Hf. by eapply forallb_forall in Hall. Qed.

Lemma known_binary f : field_known f → isBinary f = true → fieldCode f ≠ 0 →
  0 < fieldType f < 256 ∧ 0 < fieldValue f < 256 ∧ fieldCode f = code_of (fieldType f) (fieldValue f).
Proof.
  intros Hk Hb H0.
  pose (P := λ f, negb (isBinary f) || (fieldCode f =? 0) || (fieldCode f =? -1) ||
    ((0 <? fieldType f) && (fieldType f <? 256) && (0 <? fieldValue f) && (fieldValue f <? 256) &&
     (fieldCode f =? code_of (fieldType f) (fieldValue f)))).
  assert (P f = true) as H by (apply known_ind; [vm_compute; reflexivity|done]).
  destruct Hk as [_ Hi]. unfold isInvalid in Hi. unfold P in H. rewrite Hb, Hi in H. apply Z.eqb_neq in H0. rewrite H0 in H. simpl in H.
  repeat (apply andb_prop in H as [H ?]). rewrite ?Z.ltb_lt, ?Z.eqb_eq in *. lia.
Qed.
