(* ===== verification/STPathSet.v ===== *)
(** * Payment paths on the wire

    src/src/ripple/protocol/STPathSet.h and impl/STPathSet.cpp: a path is a sequence of
    elements, each with an account, a currency and an issuer, or some of them; a path set
    is a sequence of paths.

    The hash of an element is a function of its identifiers, used to compare elements
    faster, and is left out.  The loop of the constructor reads at least one byte each
    round: the bytes left bound its rounds. *)

From stdpp Require Import prelude list.
From Stdlib Require Import ZArith Lia.
From S2P Require Import Prelude.
From S2P Require Import BaseUint.
From S2P Require Import BaseUintTheorems.
From S2P Require Import Serializer.
From S2P Require Import SerializerTheorems.
From S2P Require Import IOUAmount.
From S2P Require Import STAmount.
From S2P Require Import STAmountSpec.

Definition typeNone : Z := 0x00.
Definition typeAccount : Z := 0x01.
Definition typeCurrency : Z := 0x10.
Definition typeIssuer : Z := 0x20.
Definition typeBoundary : Z := 0xFF.
Definition typeAll : Z := Z.lor typeAccount (Z.lor typeCurrency typeIssuer).

Record STPathElement := mkElement {
  elType : Z;
  mAccountID : Blob;
  mCurrencyID : Blob;
  mIssuerID : Blob;
  is_offer_ : bool;
}.
#[export] Instance STPathElement_eq_dec : EqDecision STPathElement.
Proof. solve_decision. Defined.
Abbreviation STPath := (list STPathElement).

(** A flag of a type, as a condition. *)
Definition has (type flag : Z) : bool := negb (Z.land type flag =? 0).

(** [STPathElement (account, currency, issuer, forceCurrency)] *)
Definition path_element (acc cur iss : Blob) (forceCurrency : bool) : STPathElement :=
  let offer := isXRP acc in
  let t := typeNone in
  let t := if negb offer then Z.lor t typeAccount else t in
  let t := if forceCurrency || negb (isXRP cur) then Z.lor t typeCurrency else t in
  let t := if negb (isXRP iss) then Z.lor t typeIssuer else t in
  mkElement t acc cur iss offer.
(** The constructor from optional parts. *)
Definition path_element_opt (acc cur iss : option Blob) : STPathElement :=
  let t := typeNone in
  let t := if bool_decide (is_Some acc) then Z.lor t typeAccount else t in
  let t := if bool_decide (is_Some cur) then Z.lor t typeCurrency else t in
  let t := if bool_decide (is_Some iss) then Z.lor t typeIssuer else t in
  mkElement t (default (bytes160 0) acc) (default (bytes160 0) cur) (default (bytes160 0) iss)
    (negb (bool_decide (is_Some acc))).

(** [operator==] *)
Definition element_eqb (x y : STPathElement) : bool :=
  (Z.land (elType x) typeAccount =? Z.land (elType y) typeAccount) &&
  bool_decide (mAccountID x = mAccountID y) && bool_decide (mCurrencyID x = mCurrencyID y) &&
  bool_decide (mIssuerID x = mIssuerID y).
Fixpoint path_eqb (p q : STPath) : bool :=
  match p, q with
  | [], [] => true
  | x :: p, y :: q => element_eqb x y && path_eqb p q
  | _, _ => false
  end.
Definition hasSeen (p : STPath) (acc cur iss : Blob) : bool :=
  existsb (λ e, bool_decide (mAccountID e = acc) && bool_decide (mCurrencyID e = cur) &&
                bool_decide (mIssuerID e = iss)) p.
(** [assembleAdd]: the answer and the paths. *)
Definition assembleAdd (value : list STPath) (base : STPath) (tail : STPathElement) : bool * list STPath :=
  let newPath := base ++ [tail] in
  if existsb (λ p, path_eqb p newPath) value then (false, value) else (true, value ++ [newPath]).

(** ** Reading *)
Definition read_id (b : bool) : Reader Blob := if b then getBitString 20 else mret (bytes160 0).
Definition read_element (iType : Z) : Reader STPathElement :=
  acc ← read_id (has iType typeAccount);
  cur ← read_id (has iType typeCurrency);
  iss ← read_id (has iType typeIssuer);
  mret (path_element acc cur iss (has iType typeCurrency)).

(** The rounds of [for(;;)], with the paths and the path read so far; [None] without rounds. *)
Fixpoint read_paths (fuel : nat) (value : list STPath) (path : STPath) (it : SerialIter) :
    option (sexn + (list STPath * SerialIter)) :=
  match fuel with
  | O => None
  | S fuel =>
      match get8 it with
      | inl e => Some (inl e)
      | inr (iType, it) =>
          if (iType =? typeNone) || (iType =? typeBoundary) then
            match path with
            | [] => Some (inl runtime_error)
            | _ :: _ =>
                let value := value ++ [path] in
                if iType =? typeNone then Some (inr (value, it)) else read_paths fuel value [] it
            end
          else if has iType (Z.lnot typeAll) then Some (inl runtime_error)
          else match read_element iType it with
               | inl e => Some (inl e)
               | inr (e, it) => read_paths fuel value (path ++ [e]) it
               end
      end
  end.
(** [STPathSet (SerialIter&, SField const&)] *)
Definition parse_pathset (it : SerialIter) : option (sexn + (list STPath * SerialIter)) :=
  read_paths (S (Z.to_nat (remain_ it))) [] [] it.

(** ** Writing *)
Definition element_bytes (e : STPathElement) : Blob :=
  let iType := elType e in
  [byte iType] ++
  (if has iType typeAccount then mAccountID e else []) ++
  (if has iType typeCurrency then mCurrencyID e else []) ++
  (if has iType typeIssuer then mIssuerID e else []).
Fixpoint paths_bytes (first : bool) (value : list STPath) : Blob :=
  match value with
  | [] => [typeNone]
  | p :: value => (if first then [] else [typeBoundary]) ++ concat (map element_bytes p) ++ paths_bytes false value
  end.
(** [add] *)
Definition pathset_bytes (value : list STPath) : Blob := paths_bytes true value.

(** ** Reading back *)
Definition elem_ok (e : STPathElement) : Prop :=
  size (mAccountID e) = 20 ∧ size (mCurrencyID e) = 20 ∧ size (mIssuerID e) = 20 ∧
  elType e ≠ typeNone ∧
  ∃ force, e = path_element (mAccountID e) (mCurrencyID e) (mIssuerID e) force.
Definition paths_ok (ps : list STPath) : Prop := ps ≠ [] ∧ Forall (λ p, p ≠ [] ∧ Forall elem_ok p) ps.

Lemma isXRP_zero b : size b = 20 → isXRP b = true → b = bytes160 0.
Proof.
  intros Hs Hx. change (bytes160 0) with (replicate 20 0).
  assert (length b = 20%nat) as Hl by (unfold size in Hs; lia). revert Hl Hx. clear Hs. generalize 20%nat.
  unfold isXRP. induction b as [|x b IH]; intros n Hl Hx; destruct n; cbn [length forallb replicate] in *; try done.
  apply andb_prop in Hx as [Hx Hb]. apply Z.eqb_eq in Hx. f_equal; [done|]. apply IH; [lia|done].
Qed.

(** The types of elements that are written. *)
Lemma elem_types acc cur iss force :
  let t := elType (path_element acc cur iss force) in
  has t typeAccount = negb (isXRP acc) ∧ has t typeCurrency = force || negb (isXRP cur) ∧
  has t typeIssuer = negb (isXRP iss) ∧ has t (Z.lnot typeAll) = false ∧ 0 ≤ t < 64.
Proof.
  unfold path_element. cbv zeta. cbn [elType]. destruct (isXRP acc), (force || negb (isXRP cur)), (isXRP iss);
    (split_and!; [reflexivity..|vm_compute; congruence|vm_compute; reflexivity]).
Qed.

Lemma reads_id b v : size v = 20 → (b = false → v = bytes160 0) → reads (read_id b) (if b then v else []) v.
Proof.
  intros Hs Hb. destruct b; simpl; [by apply reads_bits|]. rewrite Hb by done. apply reads_ret.
Qed.

Lemma reads_element e :
  elem_ok e → ∃ t bs, element_bytes e = t :: bs ∧ t ≠ typeNone ∧ t ≠ typeBoundary ∧
    has t (Z.lnot typeAll) = false ∧ reads (read_element t) bs e.
Proof.
  intros (Sa & Sc & Si & Ht & force & He). set (acc := mAccountID e) in *. set (cur := mCurrencyID e) in *.
  set (iss := mIssuerID e) in *.
  pose proof (elem_types acc cur iss force) as (Ha & Hc & Hi & Hall & Hr). rewrite <- He in Ha, Hc, Hi, Hall, Hr.
  unfold element_bytes. exists (elType e). fold acc cur iss.
  eexists. split; [rewrite byte_small by lia; reflexivity|]. split; [done|].
  split; [unfold typeBoundary; lia|]. split; [done|].
  unfold read_element. eapply reads_bind; [apply reads_id; [done|]|eapply reads_bind; [apply reads_id; [done|]|eapply reads_bind_nil; [apply reads_id; [done|]|]]].
  - rewrite Ha. intros Hx. apply isXRP_zero; [done|]. by destruct (isXRP acc).
  - rewrite Hc. intros Hx. apply isXRP_zero; [done|]. apply orb_false_iff in Hx as [_ Hx]. by destruct (isXRP cur).
  - rewrite Hi. intros Hx. apply isXRP_zero; [done|]. by destruct (isXRP iss).
  - eapply eq_ind; [apply reads_ret|]. rewrite He at 2. unfold path_element. rewrite Hc.
    destruct force; [done|]. simpl. by rewrite orb_diag.
Qed.

Lemma get8_cons it b rest : iter_ok it → p_ it = b :: rest →
  get8 it = inr (b, advance 1 it) ∧ iter_ok (advance 1 it) ∧ p_ (advance 1 it) = rest ∧ remain_ (advance 1 it) = remain_ it - 1.
Proof.
  intros Hit Hp. assert (get8 it = inr (b, advance 1 it)) as E by (rewrite get8_spec by done; by rewrite Hp).
  split; [done|]. apply get8_inv in E as (r & Hp' & _ & Hit' & Hr); [|done].
  rewrite Hp in Hp'. injection Hp' as <-. done.
Qed.

Lemma reads_step {A} (m : Reader A) bs a it rest :
  reads m bs a → iter_ok it → p_ it = bs ++ rest →
  m it = inr (a, advance (size bs) it) ∧ iter_ok (advance (size bs) it) ∧ p_ (advance (size bs) it) = rest ∧
  remain_ (advance (size bs) it) = remain_ it - size bs.
Proof.
  intros Hm Hit Hp. split; [by eapply Hm|]. split; [|split; [by eapply reads_rest|done]].
  apply advance_ok; [done|]. split; [unfold size; lia|]. by eapply reads_ok.
Qed.

Lemma read_paths_elements p : ∀ fuel value path it rest,
  iter_ok it → Forall elem_ok p → remain_ it < Z.of_nat fuel →
  p_ it = concat (map element_bytes p) ++ rest →
  let it' := advance (size (concat (map element_bytes p))) it in
  ∃ fuel', remain_ it' < Z.of_nat fuel' ∧ iter_ok it' ∧ p_ it' = rest ∧
    read_paths fuel value path it = read_paths fuel' value (path ++ p) it'.
Proof.
  induction p as [|e p IH]; intros fuel value path it rest Hit Hok Hf Hp.
  { exists fuel. unfold advance, size. simpl. destruct it as [b u r]. simpl in *.
    rewrite Z.add_0_r, Z.sub_0_r, app_nil_r. done. }
  apply Forall_cons in Hok as [He Hok]. cbn [map concat] in Hp |- *.
  destruct (reads_element e He) as (t & bs & Eb & Hn & Hb & Hall & Hr). rewrite Eb in Hp |- *. simpl in Hp.
  destruct (get8_cons it t _ Hit Hp) as (E8 & Hit1 & Hp1 & Hr1). rewrite <- (assoc_L (++)) in Hp1.
  destruct (reads_step _ _ _ _ _ Hr Hit1 Hp1) as (Er & Hit2 & Hp2 & Hr2).
  destruct fuel as [|fuel]; [destruct Hit; lia|].
  destruct (IH fuel value (path ++ [e]) (advance (size bs) (advance 1 it)) rest Hit2 Hok) as (fuel' & Hf' & Hit' & Hp' & Hrd);
    [rewrite Hr2, Hr1; unfold size; lia|done|].
  rewrite !advance_advance in *.
  replace (size ((t :: bs) ++ concat (map element_bytes p))) with (1 + (size bs + size (concat (map element_bytes p))))
    by (unfold size; rewrite length_app; simpl; lia).
  exists fuel'. split; [done|]. split; [done|]. split; [done|]. cbn [read_paths]. rewrite E8.
  rewrite (proj2 (Z.eqb_neq t typeNone)), (proj2 (Z.eqb_neq t typeBoundary)) by done. cbn [orb].
  rewrite Hall, Er, Hrd. by rewrite <- (assoc_L (++)), Z.add_assoc.
Qed.

Lemma read_paths_all ps : ∀ fuel value it rest,
  iter_ok it → paths_ok ps → remain_ it < Z.of_nat fuel → p_ it = pathset_bytes ps ++ rest →
  read_paths fuel value [] it = Some (inr (value ++ ps, advance (size (pathset_bytes ps)) it)).
Proof.
  unfold pathset_bytes.
  induction ps as [|p ps IH]; intros fuel value it rest Hit [Hne Hok] Hf Hp; [done|].
  apply Forall_cons in Hok as [[Hpne Hpok] Hok]. cbn [paths_bytes] in Hp |- *. simpl in Hp. rewrite <- (assoc_L (++)) in Hp.
  destruct (read_paths_elements p fuel value [] it _ Hit Hpok Hf Hp) as (fuel1 & Hf1 & Hit1 & Hp1 & ->).
  destruct fuel1 as [|fuel1]; [destruct Hit1; lia|]. cbn [app].
  destruct ps as [|q ps]; simpl in Hp1.
  - destruct (get8_cons _ _ _ Hit1 Hp1) as (E8 & _). cbn [read_paths]. rewrite E8. simpl.
    destruct p; [done|]. rewrite advance_advance. unfold size. rewrite length_app. do 4 f_equal. simpl. lia.
  - destruct (get8_cons _ _ _ Hit1 Hp1) as (E8 & Hit2 & Hp2 & Hr2). cbn [read_paths]. rewrite E8. simpl ((_ =? _) || _).
    destruct p as [|e p]; [done|]. simpl (typeBoundary =? typeNone). cbv iota.
    rewrite (IH fuel1 (value ++ [e :: p]) _ rest); [|done|done|lia|].
    + rewrite <- (assoc_L (++)), !advance_advance. do 4 f_equal. unfold size. rewrite !length_app. simpl. lia.
    + exact Hp2.
Qed.

Lemma parse_pathset_reads ps it rest :
  iter_ok it → paths_ok ps → p_ it = pathset_bytes ps ++ rest →
  parse_pathset it = Some (inr (ps, advance (size (pathset_bytes ps)) it)).
Proof. intros Hit Hok Hp. unfold parse_pathset. erewrite read_paths_all; [done|done|done| |done]. destruct Hit. lia. Qed.
