(* ===== verification/STObject.v ===== *)
(** * Serialized objects

    src/src/ripple/protocol/STObject.h and impl/STObject.cpp, with STVar.cpp, STArray.cpp,
    STInteger.h, STBitString.h, STBlob.h, STAccount.cpp and STVector256.cpp: an object is
    a sequence of named values, some of which are objects and arrays of objects.

    A value is a constructor of [STVal] for each class; an element of [v_] is a field with
    its value.  The elements of an array are objects.  The template an object follows is
    [mType].  Reading is a function of the bytes left, with the rounds it may take as a bound:
    an answer of [None] says there were too few, and the theorems show there never are.
    [FieldErr] is an [std::runtime_error].  The assertions are hypotheses of the theorems. *)

From stdpp Require Import prelude list strings sorting.
From Stdlib Require Import ZArith Lia.
From S2P Require Import Prelude.
From S2P Require Import Serializer.
From S2P Require Import STAmount.
From S2P Require Import SField.
From S2P Require Import STPathSet.

#[local] Open Scope Z_scope.

Inductive STVal : Type :=
  | VNotPresent
  | VUInt8 (v : Z) | VUInt16 (v : Z) | VUInt32 (v : Z) | VUInt64 (v : Z)
  | VHash128 (v : Blob) | VHash160 (v : Blob) | VHash256 (v : Blob)
  | VAmount (a : STAmount)
  | VBlob (b : Blob)
  | VAccount (v : Blob) (default_ : bool)
  | VPathSet (ps : list STPath)
  | VVector256 (l : list Blob)
  | VObject (mType : option SOTemplate) (v_ : list (SField * STVal))
  | VArray (v_ : list (SField * STVal)).

Abbreviation Fields := (list (SField * STVal)).

(** [getSType] *)
Definition getSType (v : STVal) : Z :=
  match v with
  | VNotPresent => STI_NOTPRESENT
  | VUInt8 _ => STI_UINT8 | VUInt16 _ => STI_UINT16 | VUInt32 _ => STI_UINT32 | VUInt64 _ => STI_UINT64
  | VHash128 _ => STI_HASH128 | VHash160 _ => STI_HASH160 | VHash256 _ => STI_HASH256
  | VAmount _ => STI_AMOUNT | VBlob _ => STI_VL | VAccount _ _ => STI_ACCOUNT
  | VPathSet _ => STI_PATHSET | VVector256 _ => STI_VECTOR256
  | VObject _ _ => STI_OBJECT | VArray _ => STI_ARRAY
  end.
Definition present (v : STVal) : bool := negb (getSType v =? STI_NOTPRESENT).

Definition is_empty {A} (l : list A) : bool := match l with [] => true | _ => false end.

(** [isDefault] *)
Definition isDefault (v : STVal) : bool :=
  match v with
  | VNotPresent => true
  | VUInt8 v | VUInt16 v | VUInt32 v | VUInt64 v => v =? 0
  | VHash128 b | VHash160 b | VHash256 b => isXRP b
  | VAmount a => isDefault_amount a
  | VBlob b => is_empty b
  | VAccount _ d => d
  | VPathSet ps => is_empty ps
  | VVector256 l => is_empty l
  | VObject _ fs => is_empty fs
  | VArray es => is_empty es
  end.

(** [STVar (defaultObject, name)] *)
Definition default_value (name : SField) : option STVal :=
  let t := fieldType name in
  if t =? STI_NOTPRESENT then Some VNotPresent
  else if t =? STI_UINT8 then Some (VUInt8 0)
  else if t =? STI_UINT16 then Some (VUInt16 0)
  else if t =? STI_UINT32 then Some (VUInt32 0)
  else if t =? STI_UINT64 then Some (VUInt64 0)
  else if t =? STI_AMOUNT then Some (VAmount (drops 0))
  else if t =? STI_HASH128 then Some (VHash128 (replicate 16 0))
  else if t =? STI_HASH160 then Some (VHash160 (replicate 20 0))
  else if t =? STI_HASH256 then Some (VHash256 (replicate 32 0))
  else if t =? STI_VECTOR256 then Some (VVector256 [])
  else if t =? STI_VL then Some (VBlob [])
  else if t =? STI_ACCOUNT then Some (VAccount (bytes160 0) true)
  else if t =? STI_PATHSET then Some (VPathSet [])
  else if t =? STI_OBJECT then Some (VObject None [])
  else if t =? STI_ARRAY then Some (VArray [])
  else None.

(** ** Writing *)
Definition written (s : Z * Blob) : sexn + Blob := inr s.2.
(** [addVL] of some bytes *)
Definition vl_bytes (b : Blob) : sexn + Blob :=
  match addVL [] b with inl e => inl e | inr (_, s) => inr s end.

(** Fields by code *)
Definition code_le {A} (x y : SField * A) : Prop := fieldCode x.1 ≤ fieldCode y.1.
#[export] Instance code_le_dec {A} : RelDecision (@code_le A).
Proof. intros x y. unfold code_le. apply _. Defined.

(** [getSortedFields]: what is present and included, by code. *)
Definition getSortedFields {A} (here : A → bool) (withAll : bool) (v_ : list (SField * A)) : list (SField * A) :=
  merge_sort code_le (filter (λ f, here f.2 && shouldInclude withAll f.1 = true) v_).

(** The bytes of one field: its code, its value and the end marker of an object or array. *)
Definition field_bytes (f : SField) (sType : Z) (body : Blob) : Blob :=
  (addFieldID [] (fieldType f) (fieldValue f)).2 ++ body ++
  (if (sType =? STI_ARRAY) || (sType =? STI_OBJECT) then (addFieldID [] sType 1).2 else []).

Fixpoint join_bytes (l : list (SField * (Z * (sexn + Blob)))) : sexn + Blob :=
  match l with
  | [] => inr []
  | (f, (t, body)) :: l =>
      match body with
      | inl e => inl e
      | inr body => match join_bytes l with
                    | inl e => inl e
                    | inr rest => inr (field_bytes f t body ++ rest)
                    end
      end
  end.

(** [add] of every class; an object writes its fields in the order of their codes. *)
Fixpoint value_bytes (v : STVal) : sexn + Blob :=
  match v with
  | VNotPresent => inr []
  | VUInt8 v => written (add8 [] v)
  | VUInt16 v => written (add16 [] v)
  | VUInt32 v => written (add32 [] v)
  | VUInt64 v => written (add64 [] v)
  | VHash128 b | VHash160 b | VHash256 b => written (addBitString [] b)
  | VAmount a => inr (amount_bytes a [])
  | VBlob b => vl_bytes b
  | VAccount b d => vl_bytes (if d then [] else b)
  | VPathSet ps => inr (pathset_bytes ps)
  | VVector256 l => vl_bytes (concat l)
  | VObject _ fs =>
      join_bytes (getSortedFields (λ x, negb (x.1 =? STI_NOTPRESENT)) true
                    (map (λ f, (f.1, (getSType f.2, value_bytes f.2))) fs))
  | VArray es => join_bytes (map (λ f, (f.1, (STI_OBJECT, value_bytes f.2))) es)
  end.

(** [STObject::add (s, whichFields)] *)
Definition object_bytes (withAll : bool) (fs : Fields) : sexn + Blob :=
  join_bytes (getSortedFields (λ x, negb (x.1 =? STI_NOTPRESENT)) withAll
                (map (λ f, (f.1, (getSType f.2, value_bytes f.2))) fs)).

(** ** Templates *)

(** The first field with a name, and the others. *)
Fixpoint take_field (f : SField) (v_ : Fields) : option ((SField * STVal) * Fields) :=
  match v_ with
  | [] => None
  | x :: v_ =>
      if same_field x.1 f then Some (x, v_)
      else match take_field f v_ with
           | None => None
           | Some (y, rest) => Some (y, x :: rest)
           end
  end.

Fixpoint template_loop (type : SOTemplate) (v_ : Fields) : sexn + (Fields * Fields) :=
  match type with
  | [] => inr ([], v_)
  | (f, style) :: type =>
      match take_field f v_ with
      | Some (x, rest) =>
          if bool_decide (style = soeDEFAULT) && isDefault x.2 then inl runtime_error
          else match template_loop type rest with
               | inl e => inl e
               | inr (out, rest) => inr (x :: out, rest)
               end
      | None =>
          if bool_decide (style = soeREQUIRED) then inl runtime_error
          else match template_loop type v_ with
               | inl e => inl e
               | inr (out, rest) => inr ((f, VNotPresent) :: out, rest)
               end
      end
  end.
(** [STObject::applyTemplate]: the fields it leaves. *)
Definition applyTemplate (type : SOTemplate) (v_ : Fields) : sexn + Fields :=
  match template_loop type v_ with
  | inl e => inl e
  | inr (out, rest) => if forallb (λ f, isDiscardable f.1) rest then inr out else inl runtime_error
  end.
(** [applyTemplateFromSField], on an object. *)
Definition applyTemplateFromSField (f : SField) (v : STVal) : sexn + STVal :=
  match v, findSOTemplateBySField f with
  | VObject _ fs, Some type =>
      match applyTemplate type fs with inl e => inl e | inr fs => inr (VObject (Some type) fs) end
  | _, _ => inr v
  end.

(** [set (SOTemplate const&)]; [STVar] throws on a field of no type. *)
Fixpoint set_template (type : SOTemplate) : sexn + Fields :=
  match type with
  | [] => inr []
  | (f, style) :: type =>
      match (if bool_decide (style = soeREQUIRED) then default_value f else Some VNotPresent), set_template type with
      | Some v, inr fs => inr ((f, v) :: fs)
      | _, _ => inl runtime_error
      end
  end.

(** ** Reading *)
Definition Parser (A : Type) : Type := SerialIter → option (sexn + (A * SerialIter)).
#[export] Instance parser_ret : MRet Parser := λ A a it, Some (inr (a, it)).
#[export] Instance parser_bind : MBind Parser := λ A B f m it,
  match m it with
  | None => None
  | Some (inl e) => Some (inl e)
  | Some (inr (a, it)) => f a it
  end.
Definition fails {A} : Parser A := λ _, Some (inl runtime_error).
Definition no_rounds {A} : Parser A := λ _, None.
Definition reading {A} (m : Reader A) : Parser A := λ it, Some (m it).
Definition pure_step {A} (r : sexn + A) : Parser A := λ it,
  Some (match r with inl e => inl e | inr a => inr (a, it) end).

(** The words of 32 bytes in some bytes: [size / 32] of them. *)
Fixpoint split32 (n : nat) (b : Blob) : list Blob :=
  match n with O => [] | S n => take 32 b :: split32 n (drop 32 b) end.

(** [STAccount (name, Buffer)] *)
Definition account_value (b : Blob) : sexn + STVal :=
  if is_empty b then inr (VAccount (bytes160 0) true)
  else if negb (size b =? 20) then inl runtime_error
  else inr (VAccount b false).

(** Two fields of one name among those that are sorted. *)
Fixpoint adjacent_dup {A} (l : list (SField * A)) : bool :=
  match l with
  | x :: ((y :: _) as l') => same_field x.1 y.1 || adjacent_dup l'
  | _ => false
  end.
Definition has_dup (fs : Fields) : bool := adjacent_dup (getSortedFields present true fs).

(** The values that are not objects or arrays; [None] for those. *)
Definition parse_leaf (name : SField) : option (Parser STVal) :=
  let t := fieldType name in
  if t =? STI_NOTPRESENT then Some (mret VNotPresent)
  else if t =? STI_UINT8 then Some (reading (v ← get8; mret (VUInt8 v)))
  else if t =? STI_UINT16 then Some (reading (v ← get16; mret (VUInt16 v)))
  else if t =? STI_UINT32 then Some (reading (v ← get32; mret (VUInt32 v)))
  else if t =? STI_UINT64 then Some (reading (v ← get64; mret (VUInt64 v)))
  else if t =? STI_AMOUNT then Some (reading (a ← parse_amount; mret (VAmount a)))
  else if t =? STI_HASH128 then Some (reading (b ← getBitString 16; mret (VHash128 b)))
  else if t =? STI_HASH160 then Some (reading (b ← getBitString 20; mret (VHash160 b)))
  else if t =? STI_HASH256 then Some (reading (b ← getBitString 32; mret (VHash256 b)))
  else if t =? STI_VECTOR256 then
    Some (reading (b ← getVL; mret (VVector256 (split32 (length b / 32) b))))
  else if t =? STI_VL then Some (reading (b ← getVL; mret (VBlob b)))
  else if t =? STI_ACCOUNT then Some (reading (b ← getVL; lift (account_value b)))
  else if t =? STI_PATHSET then Some (λ it, match parse_pathset it with
                                            | None => None
                                            | Some (inl e) => Some (inl e)
                                            | Some (inr (ps, it)) => Some (inr (VPathSet ps, it))
                                            end)
  else if (t =? STI_OBJECT) || (t =? STI_ARRAY) then None
  else Some fails.

(** [STVar (SerialIter&, name, depth)], the loop of [STObject::set], whose answer is
    [reachedEndOfObject] with the fields, and the loop of [STArray (SerialIter&, f, depth)]. *)
Fixpoint parse_var (fuel : nat) (depth : Z) (name : SField) : Parser STVal :=
  match fuel with
  | O => no_rounds
  | S fuel =>
      if 10 <? depth then fails
      else match parse_leaf name with
           | Some p => p
           | None =>
               if fieldType name =? STI_OBJECT
               then '(_, fs) ← parse_fields fuel depth;
                    if has_dup fs then fails else mret (VObject None fs)
               else es ← parse_elements fuel depth; mret (VArray es)
           end
  end
with parse_fields (fuel : nat) (depth : Z) : Parser (bool * Fields) := λ it,
  match fuel with
  | O => None
  | S fuel =>
      if empty it then Some (inr ((false, []), it))
      else ('(type, field) ← reading getFieldID;
            if (type =? STI_OBJECT) && (field =? 1) then mret (true, [])
            else if (type =? STI_ARRAY) && (field =? 1) then fails
            else
              let fn := getField2 type field in
              if isInvalid fn then fails
              else v ← parse_var fuel (depth + 1) fn;
                   v ← pure_step (applyTemplateFromSField fn v);
                   '(e, fs) ← parse_fields fuel depth;
                   mret (e, (fn, v) :: fs)) it
  end
with parse_elements (fuel : nat) (depth : Z) : Parser Fields := λ it,
  match fuel with
  | O => None
  | S fuel =>
      if empty it then Some (inr ([], it))
      else ('(type, field) ← reading getFieldID;
            if (type =? STI_ARRAY) && (field =? 1) then mret []
            else if (type =? STI_OBJECT) && (field =? 1) then fails
            else
              let fn := getField2 type field in
              if isInvalid fn then fails
              else if negb (fieldType fn =? STI_OBJECT) then fails
              else if 10 <? depth + 1 then fails
              else '(_, fs) ← parse_fields fuel (depth + 1);
                   if has_dup fs then fails
                   else v ← pure_step (applyTemplateFromSField fn (VObject None fs));
                        es ← parse_elements fuel depth;
                        mret ((fn, v) :: es)) it
  end.

(** [STObject::set (SerialIter&)] and the constructors without and with a template. *)
Definition rounds (it : SerialIter) : nat := Z.to_nat (2 * remain_ it + 4).
Definition set_object : Parser (bool * Fields) := λ it,
  ('(e, fs) ← parse_fields (rounds it) 0; if has_dup fs then fails else mret (e, fs)) it.
Definition parse_object : Parser Fields := '(_, fs) ← set_object; mret fs.
Definition parse_templated (type : SOTemplate) : Parser Fields :=
  '(_, fs) ← set_object; pure_step (applyTemplate type fs).
