(* ===== verification/STObjectSpec.v ===== *)
(** * Serialized objects: well-formed values, templates and sorted fields *)

From stdpp Require Import prelude list strings sorting.
From Stdlib Require Import ZArith Lia.
From S2P Require Import Prelude.
From S2P Require Import BaseUint.
From S2P Require Import BaseUintTheorems.
From S2P Require Import Serializer.
From S2P Require Import SerializerTheorems.
From S2P Require Import STAmount.
From S2P Require Import STAmountSpec.
From S2P Require Import SField.
From S2P Require Import STPathSet.
From S2P Require Import STObject.

#[local] Open Scope Z_scope.

(** A predicate on every element, as a function so that recursion goes through it. *)
Fixpoint allP {A} (P : A → Prop) (l : list A) : Prop :=
  match l with [] => True | x :: l => P x ∧ allP P l end.
Lemma allP_Forall {A} (P : A → Prop) l : allP P l ↔ Forall P l.
Proof. induction l as [|x l IH]; simpl; [done|]. by rewrite Forall_cons, IH. Qed.

(** Induction on values: an object or an array after what it holds. *)
Definition is_leaf (v : STVal) : bool := match v with VObject _ _ | VArray _ => false | _ => true end.

Section STValInd.
Context (P : STVal → Prop).
Context (Hleaf : ∀ v, is_leaf v = true → P v).
Context (Hobject : ∀ mt fs, Forall (λ f, P f.2) fs → P (VObject mt fs)).
Context (Harray : ∀ es, Forall (λ f, P f.2) es → P (VArray es)).

Fixpoint value_ind (v : STVal) : P v.
Proof.
  destruct v as [| | | | | | | | | | | | |mt fs|es]; try (by apply Hleaf).
  - apply Hobject. induction fs as [|[f w] fs IH]; constructor; [apply value_ind|exact IH].
  - apply Harray. induction es as [|[f w] es IH]; constructor; [apply value_ind|exact IH].
Defined.
End STValInd.

(** ** Well-formed values *)

(** A field that can be written and read. *)
Definition field_wire (f : SField) : Prop := field_known f ∧ isBinary f = true ∧ fieldCode f ≠ 0.

Definition code_lt (x y : SField * STVal) : Prop := fieldCode x.1 < fieldCode y.1.
Abbreviation codes fs := ((λ x : SField * STVal, fieldCode x.1) <$> fs).

(** A field as the template has it. *)
Definition fits (e : SField * SOEStyle) (x : SField * STVal) : Prop :=
  x.1 = e.1 ∧
  if present x.2 then bool_decide (e.2 = soeDEFAULT) && isDefault x.2 = false else e.2 ≠ soeREQUIRED.

(** The fields of an object without a template are in the order of their codes, those of one
    with a template in its order. *)
Definition shape (mt : option SOTemplate) (fs : Fields) : Prop :=
  match mt with
  | None => StronglySorted code_lt fs ∧ Forall (λ x, present x.2 = true) fs
  | Some type => Forall2 fits type fs ∧ NoDup (codes fs)
  end.

Definition vl_ok (b : Blob) : Prop := size b ≤ 918744.

(** Values that are written and read back in a field, [d] being the depth of the reader. *)
Fixpoint val_ok (d : Z) (name : SField) (v : STVal) : Prop :=
  getSType v = fieldType name ∧ d ≤ 10 ∧
  match v with
  | VNotPresent => False
  | VUInt8 v => 0 ≤ v < 2 ^ 8
  | VUInt16 v => 0 ≤ v < 2 ^ 16
  | VUInt32 v => 0 ≤ v < 2 ^ 32
  | VUInt64 v => 0 ≤ v < 2 ^ 64
  | VHash128 b => size b = 16
  | VHash160 b => size b = 20
  | VHash256 b => size b = 32
  | VAmount a => wire_ok a
  | VBlob b => vl_ok b
  | VAccount b dflt => if dflt then b = bytes160 0 else size b = 20
  | VPathSet ps => paths_ok ps
  | VVector256 l => Forall (λ b, size b = 32) l ∧ vl_ok (concat l)
  | VObject mt fs =>
      mt = findSOTemplateBySField name ∧ shape mt fs ∧
      allP (λ f, present f.2 = true → field_wire f.1 ∧ val_ok (d + 1) f.1 f.2) fs
  | VArray es =>
      allP (λ e, field_wire e.1 ∧ getSType e.2 = STI_OBJECT ∧ val_ok (d + 1) e.1 e.2) es
  end.
(** The fields of a whole object. *)
Definition object_ok (mt : option SOTemplate) (fs : Fields) : Prop :=
  shape mt fs ∧ Forall (λ f, present f.2 = true → field_wire f.1 ∧ val_ok 1 f.1 f.2) fs.

Lemma shape_codes mt fs : shape mt fs → NoDup (codes fs).
Proof.
  destruct mt as [t|]; [by intros [_ ?]|]. intros [Hs _]. induction Hs as [|x fs Hs IH Hx]; [constructor|].
  rewrite fmap_cons. constructor; [|done]. intros (y & Ey & Hy)%list_elem_of_fmap.
  rewrite Forall_forall in Hx. specialize (Hx y Hy). unfold code_lt in Hx. lia.
Qed.

Lemma absent_value v : present v = false → v = VNotPresent.
Proof. destruct v; [done|by vm_compute..]. Qed.

(** ** Known fields *)
Lemma wire_code f : field_wire f →
  0 < fieldType f < 256 ∧ 0 < fieldValue f < 256 ∧ getField2 (fieldType f) (fieldValue f) = f ∧
  isInvalid f = false ∧ shouldInclude true f = true ∧
  (fieldType f =? STI_OBJECT) && (fieldValue f =? 1) = false ∧
  (fieldType f =? STI_ARRAY) && (fieldValue f =? 1) = false.
Proof.
  intros (Hk & Hb & H0). destruct (known_binary f Hk Hb H0) as (Ht & Hv & Hc).
  pose proof Hk as [Hg Hi]. unfold getField2. rewrite <- Hc. unfold shouldInclude. unfold isBinary in Hb. rewrite Hb.
  split_and!; try done; try lia.
  - pose (P := λ f, negb ((fieldType f =? STI_OBJECT) && (fieldValue f =? 1))).
    apply negb_true_iff. apply (known_ind P); [by vm_compute|done].
  - pose (P := λ f, negb ((fieldType f =? STI_ARRAY) && (fieldValue f =? 1))).
    apply negb_true_iff. apply (known_ind P); [by vm_compute|done].
Qed.

(** ** Templates *)
Lemma take_field_none f l : (∀ x, x ∈ l → fieldCode x.1 ≠ fieldCode f) → take_field f l = None.
Proof.
  induction l as [|[g v] l IH]; intros H; simpl; [done|]. unfold same_field.
  rewrite (proj2 (Z.eqb_neq _ _)) by (apply (H (g, v)); apply list_elem_of_here).
  rewrite IH; [done|]. intros x Hx. apply H. by apply list_elem_of_further.
Qed.

Lemma take_field_some f v l :
  (f, v) ∈ l → NoDup (codes l) → ∃ rest, take_field f l = Some ((f, v), rest) ∧ l ≡ₚ (f, v) :: rest.
Proof.
  induction l as [|[g w] l IH]; intros Hin Hnd; [by apply not_elem_of_nil in Hin|].
  rewrite fmap_cons in Hnd. apply NoDup_cons in Hnd as [Hg Hnd]. simpl. unfold same_field.
  apply elem_of_cons in Hin as [[= <- <-]|Hin].
  - rewrite Z.eqb_refl. by exists l.
  - rewrite (proj2 (Z.eqb_neq _ _)).
    2: { intros E. apply Hg. simpl. rewrite E. by apply (list_elem_of_fmap_2 (λ x : SField * STVal, fieldCode x.1) l (f, v)). }
    destruct (IH Hin Hnd) as (rest & -> & Hp). exists ((g, w) :: rest). split; [done|]. rewrite Hp. apply Permutation_swap.
Qed.

Lemma template_loop_restores type : ∀ fs l,
  Forall2 fits type fs → NoDup (codes fs) → l ≡ₚ filter (λ x, present x.2 = true) fs →
  template_loop type l = inr (fs, []).
Proof.
  induction type as [|[f style] type IH]; intros fs l Hf Hnd Hl.
  { apply Forall2_nil_inv_l in Hf as ->. apply Permutation_nil_r in Hl as ->. done. }
  apply Forall2_cons_inv_l in Hf as ([g v] & fs' & [Hg Hv] & Hf & ->). simpl in Hg, Hv. subst g.
  rewrite fmap_cons in Hnd. apply NoDup_cons in Hnd as [Hn Hnd]. simpl in Hn. simpl.
  rewrite filter_cons in Hl. simpl in Hl. destruct (present v) eqn:Ep.
  - rewrite decide_True in Hl by done.
    destruct (take_field_some f v l) as (rest & -> & Hp).
    { rewrite Hl. apply list_elem_of_here. }
    { apply (NoDup_Permutation_proper _ _ (fmap_Permutation _ _ _ Hl)). rewrite fmap_cons. constructor.
      - intros (y & Ey & Hy)%list_elem_of_fmap. apply Hn. cbn [fst] in Ey. rewrite Ey.
        apply (list_elem_of_fmap_2 (λ x : SField * STVal, fieldCode x.1)).
        by apply list_elem_of_filter in Hy as [_ ?].
      - eapply sublist_NoDup; [exact Hnd|]. apply fmap_sublist, sublist_filter. }
    cbn [snd]. rewrite Hv. rewrite (IH fs' rest); [done|done|done|]. rewrite Hp in Hl. by apply Permutation_cons_inv in Hl.
  - rewrite decide_False in Hl by done. rewrite take_field_none.
    2: { intros x Hx E. apply Hn. rewrite <- E. apply (list_elem_of_fmap_2 (λ x : SField * STVal, fieldCode x.1)).
         rewrite Hl in Hx. by apply list_elem_of_filter in Hx as [_ ?]. }
    rewrite bool_decide_eq_false_2 by done. rewrite (IH fs' l) by done. by rewrite (absent_value v Ep).
Qed.

Lemma applyTemplate_restores type fs l :
  Forall2 fits type fs → NoDup (codes fs) → l ≡ₚ filter (λ x, present x.2 = true) fs →
  applyTemplate type l = inr fs.
Proof. intros Hf Hnd Hl. unfold applyTemplate. by rewrite (template_loop_restores type fs l). Qed.

(** ** Sorted fields *)
#[export] Instance code_le_trans {A} : Transitive (@code_le A).
Proof. unfold code_le. intros x y z. lia. Qed.
#[export] Instance code_le_total {A} : Total (@code_le A).
Proof. unfold code_le. intros x y. lia. Qed.

Definition included {A} (here : A → bool) (fs : list (SField * A)) : list (SField * A) :=
  filter (λ f, here f.2 && shouldInclude true f.1 = true) fs.

Lemma sorted_perm {A} (here : A → bool) fs : getSortedFields here true fs ≡ₚ included here fs.
Proof. apply merge_sort_Permutation. Qed.

Lemma sorted_sorted {A} (here : A → bool) fs : StronglySorted code_le (getSortedFields here true fs).
Proof. apply StronglySorted_merge_sort; apply _. Qed.

(** The sorted fields are the only sequence of the included ones in order. *)
Lemma fields_unique {A} (here : A → bool) fs l :
  NoDup ((λ x, fieldCode x.1) <$> l) → StronglySorted code_le l → l ≡ₚ included here fs →
  getSortedFields here true fs = l.
Proof.
  intros Hnd Hs Hp. apply (StronglySorted_unique_strong code_le); [|apply sorted_sorted|done|by rewrite sorted_perm].
  intros x y Hx Hy H1 H2. rewrite sorted_perm, <- Hp in Hx. unfold code_le in *.
  apply list_elem_of_lookup in Hx as [i Hx], Hy as [j Hy].
  assert (i = j) as ->; [|congruence].
  eapply (NoDup_lookup ((λ x : SField * A, fieldCode x.1) <$> l)); [done| |];
    rewrite list_lookup_fmap, ?Hx, ?Hy; simpl; [done|]. f_equal. lia.
Qed.

(** Sorting fields with other values. *)
Lemma sorted_map {A B} (g : A → B) (ha : A → bool) (hb : B → bool) fs :
  (∀ x, x ∈ fs → hb (g x.2) = ha x.2) → NoDup ((λ x, fieldCode x.1) <$> included ha fs) →
  getSortedFields hb true (map (λ f, (f.1, g f.2)) fs) = map (λ f, (f.1, g f.2)) (getSortedFields ha true fs).
Proof.
  intros Hh Hnd. apply fields_unique.
  - rewrite <- list_fmap_compose. apply (NoDup_Permutation_proper _ _ (fmap_Permutation _ _ _ (sorted_perm ha fs))). done.
  - pose proof (sorted_sorted ha fs) as Hs. induction Hs as [|x l Hs IH Hx]; simpl; constructor; [done|].
    rewrite Forall_map. eapply Forall_impl; [exact Hx|]. done.
  - etrans; [apply (fmap_Permutation _ _ _ (sorted_perm ha fs))|]. unfold included. clear Hnd.
    induction fs as [|x fs IH]; [done|]. rewrite filter_cons. cbn [map]. rewrite filter_cons. cbn [fst snd].
    rewrite (Hh x) by apply list_elem_of_here.
    assert (∀ y, y ∈ fs → hb (g y.2) = ha y.2) as Hh' by (intros y Hy; apply Hh; by apply list_elem_of_further).
    destruct (decide (ha x.2 && shouldInclude true x.1 = true)); [rewrite fmap_cons; by rewrite IH|by apply IH].
Qed.

Lemma adjacent_dup_sorted (l : Fields) : NoDup (codes l) → adjacent_dup l = false.
Proof.
  induction l as [|x [|y l] IH]; intros Hnd; [done|done|]. cbn [adjacent_dup].
  rewrite !fmap_cons in Hnd. apply NoDup_cons in Hnd as [Hx Hnd]. apply orb_false_iff. split; [|by apply IH].
  unfold same_field. apply Z.eqb_neq. intros E. apply Hx. rewrite E. apply list_elem_of_here.
Qed.

(** Strictly sorted, included fields are their own sorted sequence, without duplicates. *)
Lemma has_dup_sorted l :
  StronglySorted code_lt l → Forall (λ x, present x.2 && shouldInclude true x.1 = true) l →
  getSortedFields present true l = l ∧ has_dup l = false.
Proof.
  intros Hs Hi. assert (NoDup (codes l)) as Hnd.
  { apply (shape_codes None). split; [done|]. eapply Forall_impl; [exact Hi|]. intros x Hx. by apply andb_prop in Hx as [? _]. }
  assert (getSortedFields present true l = l) as E.
  { apply fields_unique; [done| |].
    - clear -Hs. induction Hs as [|x l Hs IH Hx]; constructor; [done|]. eapply Forall_impl; [exact Hx|].
      intros y. unfold code_lt, code_le. lia.
    - unfold included. by rewrite filter_keeps by (by rewrite <- Forall_forall). }
  split; [done|]. unfold has_dup. rewrite E. by apply adjacent_dup_sorted.
Qed.

(** The fields of an object in the order they are written. *)
Definition in_order (fs : Fields) : Fields := getSortedFields present true fs.

Lemma included_present fs :
  Forall (λ x, present x.2 = true → field_wire x.1) fs → included present fs = filter (λ x, present x.2 = true) fs.
Proof.
  intros Hw. unfold included. induction fs as [|x fs IH]; [done|]. apply Forall_cons in Hw as [Hx Hw].
  rewrite !filter_cons, IH by done. destruct (present x.2) eqn:E; cbn [andb].
  - destruct (wire_code x.1 (Hx eq_refl)) as (_ & _ & _ & _ & -> & _). by rewrite !decide_True by done.
  - by rewrite !decide_False by done.
Qed.

Lemma in_order_spec mt fs :
  shape mt fs → Forall (λ x, present x.2 = true → field_wire x.1) fs →
  in_order fs ≡ₚ filter (λ x, present x.2 = true) fs ∧ StronglySorted code_lt (in_order fs) ∧
  Forall (λ x, present x.2 && shouldInclude true x.1 = true) (in_order fs) ∧
  match mt with None => in_order fs = fs | Some type => applyTemplate type (in_order fs) = inr fs end.
Proof.
  intros Hs Hw. pose proof (shape_codes mt fs Hs) as Hnd. pose proof (included_present fs Hw) as Hi.
  assert (in_order fs ≡ₚ filter (λ x, present x.2 = true) fs) as Hp by (unfold in_order; by rewrite sorted_perm, Hi).
  assert (NoDup (codes (in_order fs))) as Hnd'.
  { apply (NoDup_Permutation_proper _ _ (fmap_Permutation _ _ _ Hp)). eapply sublist_NoDup; [exact Hnd|].
    apply fmap_sublist, sublist_filter. }
  split; [done|]. split.
  { pose proof (sorted_sorted present fs) as Hss. fold (in_order fs) in Hss.
    clear -Hss Hnd'. induction Hss as [|x l Hss IH Hx]; constructor; rewrite fmap_cons in Hnd'; apply NoDup_cons in Hnd' as [Hn Hnd'].
    - by apply IH.
    - rewrite Forall_forall in Hx |- *. intros y Hy. specialize (Hx y Hy). unfold code_le, code_lt in *.
      destruct (decide (fieldCode x.1 = fieldCode y.1)) as [E|]; [|lia]. exfalso. apply Hn. rewrite E.
      by apply (list_elem_of_fmap_2 (λ x : SField * STVal, fieldCode x.1)). }
  split.
  { rewrite Forall_forall. intros x Hx. unfold in_order in Hx. rewrite sorted_perm in Hx.
    by apply list_elem_of_filter in Hx as [? _]. }
  destruct mt as [type|].
  - destruct Hs as [Hf _]. by apply applyTemplate_restores.
  - destruct Hs as [Hsf Hpr]. apply has_dup_sorted; [done|]. rewrite Forall_forall in *. intros x Hx.
    rewrite (Hpr x Hx). simpl. destruct (wire_code x.1 (Hw x Hx (Hpr x Hx))) as (_ & _ & _ & _ & -> & _). done.
Qed.

(** * Serialized objects: reading back what is written *)

#[local] Open Scope Z_scope.

(** ** Simple values *)

Lemma vl_bytes_reads b : vl_ok b → ∃ s, vl_bytes b = inr s ∧ reads getVL s b.
Proof.
  intros Hb. unfold vl_ok in Hb. destruct (encoded_some (size b)) as (e & He & _); [unfold size in *; lia|].
  exists (e ++ b). split.
  - unfold vl_bytes, addVL, addEncoded. rewrite He. done.
  - unfold getVL. eapply reads_bind; [apply (reads_length (size b)); [unfold size; lia|done]|]. apply reads_bytes.
Qed.

Lemma split32_concat l : Forall (λ b, size b = 32) l → split32 (length (concat l) / 32) (concat l) = l.
Proof.
  intros Hl. assert (length (concat l) = (length l * 32)%nat) as E.
  { induction Hl as [|b l Hb _ IH]; [done|]. simpl. rewrite length_app, IH. unfold size in Hb. lia. }
  rewrite E, Nat.div_mul by lia. clear E. induction Hl as [|b l Hb _ IH]; [done|]. simpl.
  assert (length b = 32%nat) as Eb by (unfold size in Hb; lia).
  by rewrite take_app_length', drop_app_length', IH by done.
Qed.

(** What a reader of a value does: it takes the bytes, whatever follows. *)
Definition takes {A} (p : Parser A) (bs : Blob) (a : A) : Prop :=
  ∀ it rest, iter_ok it → p_ it = bs ++ rest → p it = Some (inr (a, advance (size bs) it)).

Lemma takes_reading {A B} (m : Reader A) (f : A → B) bs a :
  reads m bs a → takes (reading (x ← m; mret (f x))) bs (f a).
Proof.
  intros Hm it rest Hit Hp. unfold reading. f_equal.
  eapply (reads_bind_nil m (λ x, mret (f x))); [exact Hm|apply reads_ret|done|done].
Qed.

Lemma reads_int8 v : 0 ≤ v < 2 ^ 8 → reads get8 (add8 [] v).2 v.
Proof. intros Hv. unfold add8, append. simpl. rewrite byte_small by lia. apply reads_get8. Qed.

Lemma parse_leaf_takes d name v :
  is_leaf v = true → val_ok d name v →
  ∃ bs p, value_bytes v = inr bs ∧ parse_leaf name = Some p ∧ takes p bs v.
Proof.
  intros Hl Hok. unfold parse_leaf. destruct v; try done; simpl in Hok;
    destruct Hok as (Et & _ & Hv); rewrite <- Et; cbn -[get8 get16 get32 get64 getVL parse_amount getBitString parse_pathset Z.pow].
  - done.
  - do 2 eexists. split_and!; [reflexivity|reflexivity|]. by apply takes_reading, reads_int8.
  - destruct (reads_get16 [] v Hv) as (bs & E & _ & Hr). exists bs. eexists.
    split_and!; [rewrite E; reflexivity|reflexivity|]. by apply takes_reading.
  - destruct (reads_get32 [] v Hv) as (bs & E & _ & Hr). exists bs. eexists.
    split_and!; [rewrite E; reflexivity|reflexivity|]. by apply takes_reading.
  - destruct (reads_get64 [] v Hv) as (bs & E & _ & Hr). exists bs. eexists.
    split_and!; [rewrite E; reflexivity|reflexivity|]. by apply takes_reading.
  - do 2 eexists. split_and!; [reflexivity|reflexivity|]. by apply takes_reading, reads_bits.
  - do 2 eexists. split_and!; [reflexivity|reflexivity|]. by apply takes_reading, reads_bits.
  - do 2 eexists. split_and!; [reflexivity|reflexivity|]. by apply takes_reading, reads_bits.
  - exists (wire a). eexists. split_and!; [by rewrite amount_bytes_wire|reflexivity|]. by apply takes_reading, reads_amount.
  - destruct (vl_bytes_reads b Hv) as (s & E & Hr). exists s. eexists.
    split_and!; [exact E|reflexivity|]. by apply takes_reading.
  - destruct (vl_bytes_reads (if default_ then [] else v)) as (s & E & Hr).
    { unfold vl_ok, size in *. destruct default_; simpl; lia. }
    exists s. eexists. split_and!; [exact E|reflexivity|]. intros it rest Hit Hp. unfold reading. f_equal.
    eapply reads_bind_nil; [exact Hr| |done|done]. destruct default_; [rewrite Hv; apply reads_lift|].
    unfold account_value. destruct v as [|x v]; [done|]. cbn [is_empty]. rewrite Hv. simpl. apply reads_lift.
  - do 2 eexists. split_and!; [reflexivity|reflexivity|]. intros it rest Hit Hp. by rewrite (parse_pathset_reads ps it rest).
  - destruct Hv as [Hs Hv]. destruct (vl_bytes_reads (concat l) Hv) as (s & E & Hr). exists s. eexists.
    split_and!; [exact E|reflexivity|].
    pose proof (takes_reading getVL (λ b, VVector256 (split32 (length b / 32) b)) s (concat l) Hr) as Ht.
    cbv beta in Ht. by rewrite split32_concat in Ht.
Qed.

(** ** Objects and arrays *)
Definition ending (v : STVal) : Blob :=
  if (getSType v =? STI_ARRAY) || (getSType v =? STI_OBJECT) then field_code (getSType v) 1 else [].

(** A value is read back in a field: what [STVar] gives becomes it with the template of the field. *)
Definition back (v : STVal) (d : Z) (name : SField) (bs : Blob) : Prop :=
  ∀ fuel it rest, iter_ok it → 2 * remain_ it + 1 < Z.of_nat fuel → p_ it = bs ++ ending v ++ rest →
  ∃ w, parse_var fuel d name it = Some (inr (w, advance (size (bs ++ ending v)) it)) ∧
       applyTemplateFromSField name w = inr v.
Definition reads_back (v : STVal) : Prop :=
  ∀ d name, val_ok d name v → ∃ bs, value_bytes v = inr bs ∧ back v d name bs.

Lemma leaf_back v : is_leaf v = true → reads_back v.
Proof.
  intros Hl d name Hok. destruct (parse_leaf_takes d name v Hl Hok) as (bs & p & Eb & Ep & Ht).
  exists bs. split; [done|]. intros fuel it rest Hit Hf Hp. exists v.
  assert (ending v = []) as Ee by (by destruct v). rewrite Ee in *. rewrite app_nil_r.
  destruct fuel as [|fuel]; [destruct Hit; lia|]. split.
  - cbn [parse_var]. assert (d ≤ 10) by (destruct v; simpl in Hok; tauto).
    rewrite (proj2 (Z.ltb_ge 10 d)) by done. rewrite Ep. by apply (Ht it rest).
  - unfold applyTemplateFromSField. by destruct v.
Qed.

(** A field and the bytes it takes. *)
Definition part (x : SField * STVal) : SField * (Z * (sexn + Blob)) := (x.1, (getSType x.2, value_bytes x.2)).
Definition field_back (d : Z) (x : SField * STVal) : Prop :=
  field_wire x.1 ∧ ∃ bs, value_bytes x.2 = inr bs ∧ back x.2 d x.1 bs.

Lemma field_bytes_code f v b :
  field_bytes f (getSType v) b = field_code (fieldType f) (fieldValue f) ++ b ++ ending v.
Proof. reflexivity. Qed.

Lemma empty_false it bs rest : iter_ok it → p_ it = bs ++ rest → bs ≠ [] → empty it = false.
Proof.
  intros Hit Hp Hb. unfold empty. apply Z.eqb_neq. pose proof (p_length it Hit) as Hl. rewrite Hp, length_app in Hl.
  destruct bs; [done|]. simpl in Hl. lia.
Qed.

Lemma field_code_nonempty t n : 0 < t < 256 → 0 < n < 256 → field_code t n ≠ [] ∧ 1 ≤ size (field_code t n).
Proof. intros Ht Hn. rewrite field_code_digits by done. unfold size. zcases; simpl; split; (done || lia). Qed.

(** The marker that ends an object or an array. *)
Lemma marker_read t it rest :
  t = STI_OBJECT ∨ t = STI_ARRAY → iter_ok it → p_ it = field_code t 1 ++ rest →
  empty it = false ∧ reading getFieldID it = Some (inr ((t, 1), advance 1 it)).
Proof.
  intros Ht Hit Hp. assert (0 < t < 256) as Hr by (unfold STI_OBJECT, STI_ARRAY in Ht; lia).
  destruct (field_code_nonempty t 1 Hr ltac:(lia)) as [Hne _]. split; [by eapply empty_false|].
  unfold reading. rewrite (reads_field t 1 Hr ltac:(lia) it rest Hit Hp). by destruct Ht as [->| ->].
Qed.

(** The code of a field, and where it leaves the reader. *)
Lemma code_read f it rest :
  field_wire f → iter_ok it → p_ it = field_code (fieldType f) (fieldValue f) ++ rest →
  let it1 := advance (size (field_code (fieldType f) (fieldValue f))) it in
  empty it = false ∧ reading getFieldID it = Some (inr ((fieldType f, fieldValue f), it1)) ∧
  iter_ok it1 ∧ p_ it1 = rest ∧ remain_ it1 < remain_ it.
Proof.
  intros Hf Hit Hp. destruct (wire_code f Hf) as (Ht & Hv & _).
  destruct (field_code_nonempty _ _ Ht Hv) as [Hne Hs].
  destruct (reads_step _ _ _ _ _ (reads_field _ _ Ht Hv) Hit Hp) as (E & Hit1 & Hp1 & Hr1).
  split; [by eapply empty_false|]. unfold reading. rewrite E. split_and!; try done. rewrite Hr1. lia.
Qed.

Lemma advance_size bs bs' it : advance (size bs') (advance (size bs) it) = advance (size (bs ++ bs')) it.
Proof. rewrite advance_advance. unfold size. rewrite length_app. f_equal. lia. Qed.

Lemma advance_size_bound bs rest it :
  iter_ok it → p_ it = bs ++ rest →
  iter_ok (advance (size bs) it) ∧ p_ (advance (size bs) it) = rest ∧ remain_ (advance (size bs) it) ≤ remain_ it.
Proof.
  intros Hit Hp. pose proof (reads_ok it bs rest Hit Hp). split; [|split].
  - apply advance_ok; [done|]. unfold size in *. lia.
  - by eapply reads_rest.
  - simpl. unfold size. lia.
Qed.

(** The rounds of [STVar] on an object and on an array. *)
Lemma parse_var_object fuel d name :
  fieldType name = STI_OBJECT → d ≤ 10 →
  parse_var (S fuel) d name =
  ('(_, fs) ← parse_fields fuel d; if has_dup fs then fails else mret (VObject None fs)).
Proof. intros E Hd. cbn [parse_var]. unfold parse_leaf. rewrite (proj2 (Z.ltb_ge 10 d)), E by done. done. Qed.
Lemma parse_var_array fuel d name :
  fieldType name = STI_ARRAY → d ≤ 10 →
  parse_var (S fuel) d name = (es ← parse_elements fuel d; mret (VArray es)).
Proof. intros E Hd. cbn [parse_var]. unfold parse_leaf. rewrite (proj2 (Z.ltb_ge 10 d)), E by done. done. Qed.

(** What follows the fields: the marker, or the end of the bytes. *)
Definition closing (fin : bool) (rest : Blob) : Blob := if fin then field_code STI_OBJECT 1 ++ rest else [].

Lemma parse_fields_back d l : Forall (field_back (d + 1)) l →
  ∃ bs, join_bytes (map part l) = inr bs ∧ ∀ fuel fin it rest,
    iter_ok it → 2 * remain_ it < Z.of_nat fuel → p_ it = bs ++ closing fin rest →
    parse_fields fuel d it = Some (inr ((fin, l), advance (size bs + (if fin then 1 else 0)) it)).
Proof.
  induction l as [|[f v] l IH]; intros Hl.
  { exists []. split; [done|]. intros fuel fin it rest Hit Hf Hp. destruct fuel as [|fuel]; [destruct Hit; lia|].
    cbn [parse_fields]. destruct fin; simpl in Hp.
    - destruct (marker_read STI_OBJECT it rest) as [-> E]; [by left|done|done|].
      unfold mbind at 1, parser_bind at 1. rewrite E. done.
    - pose proof (p_length it Hit) as Hr. rewrite Hp in Hr. simpl in Hr. unfold empty. rewrite <- Hr. simpl.
      unfold advance, size. destruct it as [b u r]. simpl in *. do 4 f_equal; lia. }
  apply Forall_cons in Hl as [(Hw & b & Eb & Hb) Hl]. simpl in Hw, Eb, Hb. destruct (IH Hl) as (bs & Ej & Hp). clear IH.
  exists (field_bytes f (getSType v) b ++ bs). split; [unfold part; simpl; rewrite Eb; fold part; by rewrite Ej|].
  intros fuel fin it rest Hit Hf Hpi. destruct fuel as [|fuel]; [destruct Hit; lia|]. cbn [parse_fields].
  rewrite field_bytes_code in *. rewrite <- !(assoc_L (++)) in Hpi.
  destruct (code_read f it _ Hw Hit Hpi) as (-> & Ec & Hit1 & Hp1 & Hr1).
  unfold mbind at 1, parser_bind at 1. rewrite Ec.
  destruct (wire_code f Hw) as (_ & _ & Eg & Ei & _ & -> & ->). rewrite Eg, Ei.
  destruct (Hb fuel _ (bs ++ closing fin rest) Hit1) as (w & Ew & Et); [lia|done|].
  unfold mbind at 1, parser_bind at 1. rewrite Ew.
  unfold mbind at 1, parser_bind at 1. unfold pure_step at 1. rewrite Et.
  rewrite (assoc_L (++)) in Hp1. destruct (advance_size_bound _ _ _ Hit1 Hp1) as (Hit2 & Hp2 & Hr2).
  unfold mbind at 1, parser_bind at 1. rewrite (Hp fuel fin _ rest Hit2) by (done || lia).
  unfold mret, parser_ret. rewrite !advance_size, advance_advance. do 4 f_equal. unfold size. rewrite !length_app. lia.
Qed.

(** An element of an array is read like the value of a field of its name. *)
Lemma parse_elements_back d l : Forall (λ x, field_back (d + 1) x ∧ fieldType x.1 = STI_OBJECT ∧ d + 1 ≤ 10) l →
  ∃ bs, join_bytes (map (λ x, (x.1, (STI_OBJECT, value_bytes x.2))) l) = inr bs ∧ ∀ fuel it rest,
    Forall (λ x, getSType x.2 = STI_OBJECT) l →
    iter_ok it → 2 * remain_ it < Z.of_nat fuel → p_ it = bs ++ field_code STI_ARRAY 1 ++ rest →
    parse_elements fuel d it = Some (inr (l, advance (size bs + 1) it)).
Proof.
  induction l as [|[f v] l IH]; intros Hl.
  { exists []. split; [done|]. intros fuel it rest _ Hit Hf Hp. destruct fuel as [|fuel]; [destruct Hit; lia|].
    cbn [parse_elements]. destruct (marker_read STI_ARRAY it rest) as [-> E]; [by right|done|done|].
    unfold mbind at 1, parser_bind at 1. rewrite E. done. }
  apply Forall_cons in Hl as [[(Hw & b & Eb & Hb) [Eo Hd]] Hl]. simpl in Hw, Eb, Hb, Eo.
  destruct (IH Hl) as (bs & Ej & Hp). clear IH.
  exists (field_bytes f STI_OBJECT b ++ bs). split; [simpl; rewrite Eb; by rewrite Ej|].
  intros fuel it rest Hty Hit Hf Hpi. apply Forall_cons in Hty as [Ht Hty]. simpl in Ht.
  destruct fuel as [|fuel]; [destruct Hit; lia|]. cbn [parse_elements].
  assert (field_bytes f STI_OBJECT b = field_code (fieldType f) (fieldValue f) ++ b ++ ending v) as Efb
    by (unfold ending; by rewrite Ht).
  rewrite Efb in *. rewrite <- !(assoc_L (++)) in Hpi.
  destruct (code_read f it _ Hw Hit Hpi) as (-> & Ec & Hit1 & Hp1 & Hr1).
  unfold mbind at 1, parser_bind at 1. rewrite Ec.
  destruct (wire_code f Hw) as (_ & _ & Eg & Ei & _ & E1 & E2). rewrite E1, E2, Eg, Ei, Eo. change (negb (STI_OBJECT =? STI_OBJECT)) with false. cbv iota.
  rewrite (proj2 (Z.ltb_ge 10 (d + 1))) by done.
  destruct (Hb (S fuel) _ (bs ++ field_code STI_ARRAY 1 ++ rest) Hit1) as (w & Ew & Et); [lia|done|].
  rewrite parse_var_object in Ew by done. unfold mbind, parser_bind in Ew. unfold mbind at 1, parser_bind at 1.
  rewrite Eo in *. destruct (parse_fields fuel (d + 1) _) as [[|[[e fs] it2]]|]; [done| |done].
  destruct (has_dup fs); [done|]. injection Ew as <- ->.
  unfold mbind at 1, parser_bind at 1. unfold pure_step at 1. rewrite Et.
  rewrite (assoc_L (++)) in Hp1. destruct (advance_size_bound _ _ _ Hit1 Hp1) as (Hit2 & Hp2 & Hr2).
  unfold mbind at 1, parser_bind at 1. rewrite (Hp fuel _ rest Hty Hit2) by (done || lia).
  unfold mret, parser_ret. rewrite !advance_size, advance_advance. do 4 f_equal. unfold size. rewrite !length_app. lia.
Qed.

(** The fields of an object are written in order. *)
Lemma object_bytes_order withAll mt fs :
  shape mt fs → Forall (λ x, present x.2 = true → field_wire x.1) fs → withAll = true →
  object_bytes withAll fs = join_bytes (map part (in_order fs)).
Proof.
  intros Hs Hw ->. unfold object_bytes. f_equal. apply (sorted_map (λ v, (getSType v, value_bytes v)) present); [done|].
  rewrite included_present by done. eapply sublist_NoDup; [exact (shape_codes mt fs Hs)|].
  apply fmap_sublist, sublist_filter.
Qed.

Lemma in_order_back d mt fs :
  shape mt fs → Forall (λ x, present x.2 = true → field_wire x.1 ∧ val_ok (d + 1) x.1 x.2) fs →
  Forall (λ x, reads_back x.2) fs → Forall (field_back (d + 1)) (in_order fs).
Proof.
  intros Hs Hok Hb.
  destruct (in_order_spec mt fs Hs) as (Hp & _); [eapply Forall_impl; [exact Hok|]; intros x Hx Hpr; by apply Hx|].
  rewrite Forall_forall in *. intros x Hx. rewrite Hp in Hx. apply list_elem_of_filter in Hx as [Hpr Hx].
  destruct (Hok x Hx Hpr) as [Hw Hv]. split; [done|]. by apply (Hb x Hx).
Qed.

Lemma object_back mt fs : Forall (λ x, reads_back x.2) fs → reads_back (VObject mt fs).
Proof.
  intros Hb d name (Et & Hd & Em & Hs & Hok). rewrite allP_Forall in Hok. simpl in Et.
  assert (Forall (λ x, present x.2 = true → field_wire x.1) fs) as Hw
    by (eapply Forall_impl; [exact Hok|]; intros x Hx Hpr; by apply Hx).
  destruct (in_order_spec mt fs Hs Hw) as (_ & Hso & Hin & Hmt).
  destruct (parse_fields_back d (in_order fs) (in_order_back d mt fs Hs Hok Hb)) as (bs & Ej & Hpf).
  exists bs. split; [change (object_bytes true fs = inr bs); by rewrite (object_bytes_order true mt)|].
  intros fuel it rest Hit Hf Hp. change (ending (VObject mt fs)) with (field_code STI_OBJECT 1) in *.
  destruct fuel as [|fuel]; [destruct Hit; lia|]. rewrite parse_var_object by done.
  exists (VObject None (in_order fs)). split.
  - unfold mbind, parser_bind. rewrite (Hpf fuel true it rest Hit) by (done || lia).
    destruct (has_dup_sorted _ Hso Hin) as [_ ->]. unfold mret, parser_ret. do 4 f_equal.
    unfold size. rewrite length_app. change (length (field_code STI_OBJECT 1)) with 1%nat. lia.
  - unfold applyTemplateFromSField. rewrite <- Em. destruct mt as [type|]; [by rewrite Hmt|by rewrite Hmt].
Qed.

Lemma array_back es : Forall (λ x, reads_back x.2) es → reads_back (VArray es).
Proof.
  intros Hb d name (Et & Hd & Hok). rewrite allP_Forall in Hok. simpl in Et.
  assert (Forall (λ x, field_back (d + 1) x ∧ fieldType x.1 = STI_OBJECT ∧ d + 1 ≤ 10) es) as Hfb.
  { rewrite Forall_forall in *. intros x Hx. destruct (Hok x Hx) as (Hw & Ho & Hv).
    split; [split; [done|by apply (Hb x Hx)]|]. destruct x as [f v]. simpl in *. destruct v; try done. destruct Hv as (E & ? & _). by rewrite <- E. }
  destruct (parse_elements_back d es Hfb) as (bs & Ej & Hpe). exists bs. split; [exact Ej|].
  intros fuel it rest Hit Hf Hp. change (ending (VArray es)) with (field_code STI_ARRAY 1) in *.
  destruct fuel as [|fuel]; [destruct Hit; lia|]. rewrite parse_var_array by done.
  exists (VArray es). split; [|done]. unfold mbind, parser_bind. rewrite (Hpe fuel it rest); try done; [| |lia].
  - unfold mret, parser_ret. do 4 f_equal. unfold size. rewrite length_app. change (length (field_code STI_ARRAY 1)) with 1%nat. lia.
  - eapply Forall_impl; [exact Hok|]. by intros x (_ & ? & _).
Qed.

(** Every well-formed value is read back. *)
Lemma value_back v : reads_back v.
Proof. apply value_ind; [exact leaf_back|exact object_back|exact array_back]. Qed.

(** The whole object: no marker ends it, the end of the bytes does. *)
Lemma object_back_top mt fs :
  object_ok mt fs →
  ∃ bs, object_bytes true fs = inr bs ∧ ∀ it, iter_ok it → p_ it = bs →
    set_object it = Some (inr ((false, in_order fs), advance (size bs) it)).
Proof.
  intros [Hs Hok].
  assert (Forall (λ x, present x.2 = true → field_wire x.1) fs) as Hw
    by (eapply Forall_impl; [exact Hok|]; intros x Hx Hpr; by apply Hx).
  destruct (in_order_spec mt fs Hs Hw) as (_ & Hso & Hin & Hmt).
  assert (Forall (λ x, reads_back x.2) fs) as Hb by (apply Forall_forall; intros; apply value_back).
  destruct (parse_fields_back 0 (in_order fs) (in_order_back 0 mt fs Hs Hok Hb)) as (bs & Ej & Hpf).
  exists bs. split; [by rewrite (object_bytes_order true mt)|]. intros it Hit Hp.
  unfold set_object, mbind, parser_bind. rewrite (Hpf (rounds it) false it [] Hit).
  - destruct (has_dup_sorted _ Hso Hin) as [_ ->]. by rewrite Z.add_0_r.
  - unfold rounds. destruct Hit. lia.
  - by rewrite Hp, app_nil_r.
Qed.
