(* ===== verification/STObjectTotal.v ===== *)
(** * Serialized objects: reading ends

    On any bytes the reader of objects gives fields or an exception, within the rounds it is
    allowed, and never reads past the end. *)

From stdpp Require Import prelude list strings sorting.
From Stdlib Require Import ZArith Lia.
From S2P Require Import Prelude.
From S2P Require Import BaseUint.
From S2P Require Import BaseUintTheorems.
From S2P Require Import Serializer.
From S2P Require Import SerializerTheorems.
From S2P Require Import STAmount.
From S2P Require Import STAmountSpec.
From S2P Require Import SField.
From S2P Require Import STPathSet.
From S2P Require Import STObject.
From S2P Require Import STObjectSpec.

#[local] Open Scope Z_scope.

Definition good (it : SerialIter) : Prop := iter_ok it ∧ in_base 256 (buffer it).
(** The reader moved on, within the bytes. *)
Definition moved (it it' : SerialIter) : Prop := good it' ∧ remain_ it' ≤ remain_ it.

(** Readers that only move on. *)
Definition sane {A} (m : Reader A) : Prop :=
  ∀ it a it', good it → m it = inr (a, it') → moved it it'.
Definition answers {A} (p : Parser A) (it : SerialIter) : Prop :=
  match p it with None => False | Some (inl _) => True | Some (inr (_, it')) => moved it it' end.

Lemma moved_refl it : good it → moved it it.
Proof. intros H. split; [done|lia]. Qed.
Lemma moved_trans it1 it2 it3 : moved it1 it2 → moved it2 it3 → moved it1 it3.
Proof. intros [_ H1] [H2 H3]. split; [done|lia]. Qed.

Lemma sane_ret {A} (a : A) : sane (mret a).
Proof. intros it b it' Hg [= <- <-]. by apply moved_refl. Qed.
Lemma sane_throw {A} e : sane (throw e : Reader A).
Proof. by intros it b it' Hg H. Qed.
Lemma sane_lift {A} (r : sexn + A) : sane (lift r).
Proof. intros it b it' Hg. unfold lift. destruct r; [done|]. intros [= <- <-]. by apply moved_refl. Qed.
Lemma sane_bind {A B} (m : Reader A) (f : A → Reader B) : sane m → (∀ a, sane (f a)) → sane (m ≫= f).
Proof.
  intros Hm Hf it b it' Hg. unfold mbind, reader_bind. destruct (m it) as [|[a it1]] eqn:E; [done|]. intros H.
  pose proof (Hm it a it1 Hg E) as H1. eapply moved_trans; [exact H1|]. by eapply Hf; [apply H1|].
Qed.
Lemma sane_bytes n : 0 ≤ n < 2 ^ 64 → sane (bytes_of_size n).
Proof.
  intros Hn it b it' [Hit Hb] H. apply bytes_inv in H as (_ & _ & -> & Hit'); [|done|done].
  split; [done|]. simpl. lia.
Qed.
Lemma sane_if {A} (b : bool) (m n : Reader A) : sane m → sane n → sane (if b then m else n).
Proof. by destruct b. Qed.

Create HintDb sane.
#[export] Hint Resolve sane_ret sane_throw sane_lift sane_if : sane.
#[export] Hint Extern 2 (sane (_ ≫= _)) => apply sane_bind; [|intros ?] : sane.
#[export] Hint Extern 2 (sane (bytes_of_size _)) => apply sane_bytes; lia : sane.
#[export] Hint Extern 3 (sane (getBitString _)) => apply sane_bytes; lia : sane.

Lemma sane_ints : sane get8 ∧ sane get16 ∧ sane get32 ∧ sane get64.
Proof. split_and!; unfold get8, get16, get32, get64; auto with sane. Qed.

Lemma sane_getVL : sane getVL.
Proof.
  intros it b it' [Hit Hb] H. unfold getVL, mbind, reader_bind in H.
  destruct (getVLDataLength it) as [|[n it1]] eqn:E; [done|].
  apply getVLDataLength_inv in E as (bs & rest & Hp & -> & Hn & Hc); [|done|done].
  destruct (advance_size_bound _ _ _ Hit Hp) as (Hit1 & _ & Hr).
  assert (n < 2 ^ 64) as Hn'.
  { unfold length_code in Hc. destruct (Z.leb_spec n 918744); lia. }
  destruct (sane_bytes n ltac:(lia) (advance (size bs) it) b it' (conj Hit1 Hb) H) as [Hg Hr'].
  split; [done|lia].
Qed.

Lemma sane_checked {A} (r : fallible A) : sane (checked r).
Proof. destruct r; simpl; auto with sane. Qed.

Lemma sane_amount : sane parse_amount.
Proof.
  pose proof sane_ints as (_ & _ & _ & H64). unfold parse_amount.
  apply sane_bind; [done|]. intros v. pose proof @sane_checked. auto 20 with sane.
Qed.

Lemma sane_element t : sane (read_element t).
Proof.
  assert (∀ b, sane (read_id b)) as H by (intros []; unfold read_id; auto with sane).
  unfold read_element. auto 10 with sane.
Qed.

(** ** Path sets *)
Lemma get8_moves it b it' : good it → get8 it = inr (b, it') → good it' ∧ remain_ it' = remain_ it - 1.
Proof. intros [Hit Hb] H. apply get8_inv in H as (rest & _ & -> & Hit' & _); [|done]. split; [done|]. simpl. lia. Qed.

Lemma read_paths_answers fuel : ∀ value path it,
  good it → remain_ it < Z.of_nat fuel → answers (read_paths fuel value path) it.
Proof.
  unfold answers. induction fuel as [|fuel IH]; intros value path it Hg Hf; [destruct Hg as [[] _]; lia|].
  cbn [read_paths]. destruct (get8 it) as [|[t it1]] eqn:E8; [done|].
  destruct (get8_moves it t it1 Hg E8) as [Hg1 Hr1].
  assert (∀ v p it2, moved it1 it2 → match read_paths fuel v p it2 with
    | None => False | Some (inl _) => True | Some (inr (_, it')) => moved it it' end) as Hrec.
  { intros v p it2 [Hg2 Hr2]. specialize (IH v p it2 Hg2 ltac:(lia)).
    destruct (read_paths fuel v p it2) as [[|[? it']]|]; [done| |done]. destruct IH. split; [done|lia]. }
  destruct ((t =? typeNone) || (t =? typeBoundary)).
  - destruct path; [done|]. destruct (t =? typeNone); [split; [done|lia]|]. apply Hrec. by apply moved_refl.
  - destruct (has t (Z.lnot typeAll)); [done|]. destruct (read_element t it1) as [|[e it2]] eqn:Ee; [done|].
    apply Hrec. by apply (sane_element t it1 e it2).
Qed.

Lemma pathset_answers it : good it → answers parse_pathset it.
Proof. intros Hg. apply (read_paths_answers _ [] []); [done|]. destruct Hg as [[] _]. lia. Qed.

(** ** Values *)
Lemma answers_ret {A} (a : A) it : good it → answers (mret a) it.
Proof. intros Hg. by apply moved_refl. Qed.
Lemma answers_reading {A} (m : Reader A) it : sane m → good it → answers (reading m) it.
Proof. intros Hm Hg. unfold answers, reading. destruct (m it) as [|[a it']] eqn:E; [done|]. by apply (Hm it a it'). Qed.

Lemma leaf_answers name p it : parse_leaf name = Some p → good it → answers p it.
Proof.
  intros Hp Hg. pose proof sane_ints as (H8 & H16 & H32 & H64). pose proof sane_getVL. pose proof sane_amount.
  unfold parse_leaf in Hp.
  repeat match type of Hp with (if ?b then _ else _) = _ => destruct b end;
    injection Hp as <- || done; try (apply answers_reading; [solve [auto with sane]|done]).
  - by apply answers_ret.
  - pose proof (pathset_answers it Hg) as Ha. unfold answers in *. by destruct (parse_pathset it) as [[|[? ?]]|].
  - done.
Qed.

Lemma getFieldID_moves it x it' : good it → getFieldID it = inr (x, it') → good it' ∧ remain_ it' < remain_ it.
Proof.
  intros [Hit Hb] H. destruct x as [t n]. apply getFieldID_inv in H as (Ht & Hn & rest & Hp & ->); [|done|done].
  destruct (advance_size_bound _ _ _ Hit Hp) as (Hit' & _ & _). destruct (field_code_nonempty t n Ht Hn) as [_ Hs].
  split; [done|]. simpl. lia.
Qed.

(** A step after an answer. *)
Lemma answers_bind {A B} (p : Parser A) (f : A → Parser B) it :
  answers p it → (∀ a it', p it = Some (inr (a, it')) → moved it it' → answers (f a) it') → answers (p ≫= f) it.
Proof.
  intros Hp Hf. unfold answers, mbind, parser_bind in *. destruct (p it) as [[|[a it1]]|] eqn:E; [done| |done].
  specialize (Hf a it1 eq_refl Hp). destruct (f a it1) as [[|[b it2]]|]; [done| |done]. by eapply moved_trans.
Qed.
Lemma answers_fails {A} it : answers (fails : Parser A) it.
Proof. done. Qed.
Lemma answers_pure {A} (r : sexn + A) it : good it → answers (pure_step r) it.
Proof. intros Hg. unfold answers, pure_step. destruct r; [done|]. by apply moved_refl. Qed.

#[export] Hint Resolve answers_ret answers_fails answers_pure : sane.

(** After the code of a field fewer bytes are left. *)
Lemma answers_code {B} (f : Z * Z → Parser B) it :
  good it → (∀ x it', good it' → remain_ it' < remain_ it → answers (f x) it') →
  answers (reading getFieldID ≫= f) it.
Proof.
  intros Hg Hf. unfold answers, mbind, parser_bind, reading in *. destruct (getFieldID it) as [|[x it1]] eqn:E; [done|].
  destruct (getFieldID_moves it x it1 Hg E) as [Hg1 Hr1]. specialize (Hf x it1 Hg1 Hr1).
  destruct (f x it1) as [[|[b it2]]|]; [done| |done]. destruct Hf. split; [done|lia].
Qed.

Lemma parse_answers fuel :
  (∀ d name it, good it → 2 * remain_ it + 1 < Z.of_nat fuel → answers (parse_var fuel d name) it) ∧
  (∀ d it, good it → 2 * remain_ it < Z.of_nat fuel → answers (parse_fields fuel d) it) ∧
  (∀ d it, good it → 2 * remain_ it < Z.of_nat fuel → answers (parse_elements fuel d) it).
Proof.
  induction fuel as [|fuel (IHv & IHf & IHe)]; [split_and!; intros; destruct H as [[] _]; lia|].
  split_and!.
  - intros d name it Hg Hf. cbn [parse_var]. destruct (10 <? d); [done|].
    destruct (parse_leaf name) as [p|] eqn:Ep; [by eapply leaf_answers|].
    destruct (fieldType name =? STI_OBJECT); apply answers_bind;
      [apply IHf; [done|lia]| |apply IHe; [done|lia]|].
    + intros [e fs] it' _ [Hg' _]. destruct (has_dup fs); auto with sane.
    + intros es it' _ [Hg' _]. auto with sane.
  - intros d it Hg Hf. unfold answers. cbn [parse_fields]. destruct (empty it); [by apply moved_refl|].
    apply answers_code; [done|]. intros [t n] it1 Hg1 Hr1.
    destruct ((t =? STI_OBJECT) && (n =? 1)); [auto with sane|].
    destruct ((t =? STI_ARRAY) && (n =? 1)); [auto with sane|].
    destruct (isInvalid (getField2 t n)); [auto with sane|].
    apply answers_bind; [apply IHv; [done|lia]|]. intros v it2 _ [Hg2 Hr2].
    apply answers_bind; [auto with sane|]. intros w it3 _ [Hg3 Hr3].
    apply answers_bind; [apply IHf; [done|lia]|]. intros [e fs] it4 _ [Hg4 _]. auto with sane.
  - intros d it Hg Hf. unfold answers. cbn [parse_elements]. destruct (empty it); [by apply moved_refl|].
    apply answers_code; [done|]. intros [t n] it1 Hg1 Hr1.
    destruct ((t =? STI_ARRAY) && (n =? 1)); [auto with sane|].
    destruct ((t =? STI_OBJECT) && (n =? 1)); [auto with sane|].
    destruct (isInvalid (getField2 t n)); [auto with sane|].
    destruct (negb _); [auto with sane|]. destruct (10 <? d + 1); [auto with sane|].
    apply answers_bind; [apply IHf; [done|lia]|]. intros [e fs] it2 _ [Hg2 Hr2].
    destruct (has_dup fs); [auto with sane|]. apply answers_bind; [auto with sane|]. intros w it3 _ [Hg3 Hr3].
    apply answers_bind; [apply IHe; [done|lia]|]. intros es it4 _ [Hg4 _]. auto with sane.
Qed.

Lemma set_object_answers it : good it → answers set_object it.
Proof.
  intros Hg. unfold set_object, answers. destruct (parse_answers (rounds it)) as (_ & Hf & _).
  apply (answers_bind (parse_fields (rounds it) 0)).
  - apply Hf; [done|]. unfold rounds. destruct Hg as [[] _]. lia.
  - intros [e fs] it' _ [Hg' _]. destruct (has_dup fs); auto with sane.
Qed.

(** * Serialized objects: what is read is well typed

    Whatever the bytes, the fields that are read are known, hold values of their types, occur
    once, follow the templates of their names and are nested at most ten deep. *)

#[local] Open Scope Z_scope.

Abbreviation here fs := (filter (λ x : SField * STVal, present x.2 = true) fs).
(** An object in a field follows the template of the field, if it has one: it has the fields of the
    template and no others, in its order, those required are present, and those with a default
    value do not hold it. *)
Definition templated (f : SField) (v : STVal) : Prop :=
  match v with
  | VObject mt fs => mt = findSOTemplateBySField f ∧ match mt with Some type => Forall2 fits type fs | None => True end
  | _ => True
  end.
Fixpoint typed (d : Z) (name : SField) (v : STVal) : Prop :=
  getSType v = fieldType name ∧ d ≤ 10 ∧
  match v with
  | VObject _ fs =>
      NoDup (codes (here fs)) ∧
      allP (λ f, present f.2 = true → field_wire f.1 ∧ templated f.1 f.2 ∧ typed (d + 1) f.1 f.2) fs
  | VArray es =>
      allP (λ f, field_wire f.1 ∧ getSType f.2 = STI_OBJECT ∧ templated f.1 f.2 ∧ typed (d + 1) f.1 f.2) es
  | _ => True
  end.
Definition fields_typed (d : Z) (fs : Fields) : Prop :=
  NoDup (codes (here fs)) ∧
  Forall (λ f, present f.2 = true → field_wire f.1 ∧ templated f.1 f.2 ∧ typed (d + 1) f.1 f.2) fs.

(** Fields as the loop gathers them: all present. *)
Definition gathered (d : Z) (fs : Fields) : Prop :=
  Forall (λ f, present f.2 = true ∧ field_wire f.1 ∧ templated f.1 f.2 ∧ typed (d + 1) f.1 f.2) fs.

(** ** Fields read *)
Lemma code_of_add t n : 0 ≤ n < 2 ^ 16 → code_of t n = t * 2 ^ 16 + n.
Proof. intros Hn. unfold code_of. rewrite Z.shiftl_mul_pow2, Z.lor_comm by lia. by apply STAmountSpec.lor_pack. Qed.

Lemma read_field_wire t n :
  0 < t < 256 → 0 < n < 256 → isInvalid (getField2 t n) = false → field_wire (getField2 t n).
Proof.
  intros Ht Hn Hi. unfold getField2, getField in *. rewrite code_of_add in * by lia.
  destruct (find_code (t * 2 ^ 16 + n) knownFields) as [f|] eqn:E; cbn [default from_option id] in *; [|done].
  pose proof (find_code_spec _ _ _ E) as [Hin Hc].
  assert (field_known f) as Hk by (split; [unfold getField; by rewrite Hc, E|done]).
  split; [done|]. split; [|lia].
  pose (P := λ f, negb ((0 <? fieldCode f) && (fieldCode f mod 65536 <? 256)) || isBinary f).
  assert (P f = true) as HP by (apply known_ind; [by vm_compute|done]). unfold P in HP.
  rewrite Hc in HP. change 65536 with (2 ^ 16) in HP.
  replace ((t * 2 ^ 16 + n) mod 2 ^ 16) with n in HP by (rewrite Z.add_comm, Z.mod_add, Z.mod_small by lia; done).
  replace (0 <? t * 2 ^ 16 + n) with true in HP by lia. replace (n <? 256) with true in HP by lia. exact HP.
Qed.

Lemma wire_type_nonzero f : field_wire f → fieldType f ≠ STI_NOTPRESENT.
Proof. intros Hf. destruct (wire_code f Hf) as ((? & _) & _). unfold STI_NOTPRESENT. lia. Qed.

Lemma typed_leaf d name v :
  is_leaf v = true → fieldType name = getSType v → d ≤ 10 → typed d name v ∧ is_leaf v = true.
Proof. intros Hl E Hd. split; [|done]. destruct v; try done; simpl in *; by rewrite E. Qed.

Lemma leaf_typed d name p it v it' :
  parse_leaf name = Some p → p it = Some (inr (v, it')) → d ≤ 10 → typed d name v ∧ is_leaf v = true.
Proof.
  intros Hp Hv Hd. unfold parse_leaf in Hp.
  repeat match type of Hp with
    (if ?b then _ else _) = _ => let E := fresh "E" in destruct b eqn:E; [try apply Z.eqb_eq in E|]
  end; try done; injection Hp as <-;
  try (unfold reading, mbind, reader_bind in Hv;
       match type of Hv with context [match ?m with inl _ => _ | inr _ => _ end] => destruct m as [|[? ?]]; [done|] end;
       injection Hv as <- <-; by apply typed_leaf).
  - injection Hv as <- <-. by apply typed_leaf.
  - unfold reading, mbind, reader_bind in Hv. destruct (getVL it) as [|[b it1]]; [done|]. unfold lift, account_value in Hv.
    destruct (is_empty b); [injection Hv as <- <-; by apply typed_leaf|].
    destruct (negb _); [done|]. injection Hv as <- <-. by apply typed_leaf.
  - destruct (parse_pathset it) as [[|[ps it1]]|]; [done| |done]. injection Hv as <- <-. by apply typed_leaf.
  - done.
Qed.

(** ** Duplicates *)
Lemma codes_nodup l : StronglySorted (@code_le STVal) l → adjacent_dup l = false → NoDup (codes l).
Proof.
  induction l as [|x [|y l] IH]; intros Hs Ha; [constructor|apply NoDup_singleton|].
  apply StronglySorted_inv in Hs as [Hs Hx]. cbn [adjacent_dup] in Ha. apply orb_false_iff in Ha as [Hxy Ha].
  specialize (IH Hs Ha). rewrite !fmap_cons in *. constructor; [|done].
  unfold same_field in Hxy. apply Z.eqb_neq in Hxy. apply StronglySorted_inv in Hs as [_ Hy].
  apply Forall_cons in Hx as [Hxy' Hx]. unfold code_le in *.
  intros [E|(z & E & Hz)%list_elem_of_fmap]%elem_of_cons; [lia|].
  rewrite Forall_forall in Hy. specialize (Hy z Hz). lia.
Qed.

Lemma gathered_nodup d fs : gathered d fs → has_dup fs = false → fields_typed d fs.
Proof.
  intros Hg Hd. split.
  - assert (included present fs = fs ∧ here fs = fs) as [Hi Hh].
    { unfold included. split; apply filter_keeps; intros x Hx; unfold gathered in Hg; rewrite Forall_forall in Hg; destruct (Hg x Hx) as (Hp & Hw & _).
      - rewrite Hp. simpl. by destruct (wire_code x.1 Hw) as (_ & _ & _ & _ & -> & _).
      - done. }
    rewrite Hh. pose proof (codes_nodup _ (sorted_sorted present fs) Hd) as Hn.
    apply (NoDup_Permutation_proper _ _ (fmap_Permutation _ _ _ (sorted_perm present fs))) in Hn. by rewrite Hi in Hn.
  - eapply Forall_impl; [exact Hg|]. by intros x (_ & ?).
Qed.

(** ** Templates *)
Lemma take_field_perm f l x rest : take_field f l = Some (x, rest) → l ≡ₚ x :: rest.
Proof.
  revert rest. induction l as [|y l IH]; intros rest; simpl; [done|]. destruct (same_field y.1 f); [by intros [= -> ->]|].
  destruct (take_field f l) as [[z r]|]; [|done]. intros [= -> <-]. rewrite (IH r eq_refl). apply Permutation_swap.
Qed.

Lemma template_loop_perm type : ∀ fs out rest,
  Forall (λ x, present x.2 = true) fs → template_loop type fs = inr (out, rest) → here out ++ rest ≡ₚ fs.
Proof.
  induction type as [|[f style] type IH]; intros fs out rest Hp H; simpl in H; [by injection H as <- <-|].
  destruct (take_field f fs) as [[x r]|] eqn:E.
  - apply take_field_perm in E. destruct (bool_decide _ && _); [done|].
    rewrite E in Hp. apply Forall_cons in Hp as [Hx Hp].
    destruct (template_loop type r) as [|[o r']] eqn:El; [done|]. injection H as <- <-.
    rewrite filter_cons, decide_True by done. simpl. by rewrite (IH r o r' Hp El), E.
  - destruct (bool_decide _); [done|]. destruct (template_loop type fs) as [|[o r']] eqn:El; [done|].
    injection H as <- <-. rewrite filter_cons, decide_False by done. by apply IH.
Qed.

Lemma applyTemplate_typed d type fs out :
  gathered d fs → fields_typed d fs → applyTemplate type fs = inr out → fields_typed d out.
Proof.
  intros Hg [Hn Hf] H. unfold applyTemplate in H. destruct (template_loop type fs) as [|[o r]] eqn:El; [done|].
  destruct (forallb _ r); [|done]. injection H as <-.
  assert (Forall (λ x, present x.2 = true) fs) as Hp by (eapply Forall_impl; [exact Hg|]; by intros x (? & _)).
  pose proof (template_loop_perm type fs o r Hp El) as Hperm. split.
  - rewrite (filter_keeps (λ x : SField * STVal, present x.2 = true) fs) in Hn by (by rewrite <- Forall_forall).
    apply (NoDup_Permutation_proper _ _ (fmap_Permutation _ _ _ Hperm)) in Hn.
    rewrite fmap_app in Hn. by apply NoDup_app in Hn as [? _].
  - rewrite Forall_forall in Hf |- *. intros x Hx Hpr. apply Hf; [|done].
    rewrite <- Hperm. apply elem_of_app. left. by apply list_elem_of_filter.
Qed.

Lemma take_field_code f l x rest : take_field f l = Some (x, rest) → fieldCode x.1 = fieldCode f.
Proof.
  revert rest. induction l as [|y l IH]; intros rest; simpl; [done|]. unfold same_field.
  destruct (Z.eqb_spec (fieldCode y.1) (fieldCode f)); [by intros [= <- <-]|].
  destruct (take_field f l) as [[z r]|]; [|done]. intros [= <- <-]. by eapply IH.
Qed.

(** What a template leaves fits it. *)
Lemma template_loop_fits type : ∀ l out rest,
  Forall (λ e : SField * SOEStyle, field_known e.1) type →
  Forall (λ x : SField * STVal, present x.2 = true ∧ field_known x.1) l →
  template_loop type l = inr (out, rest) → Forall2 fits type out.
Proof.
  induction type as [|[f style] type IH]; intros l out rest Ht Hl H; simpl in H; [injection H as <- _; constructor|].
  apply Forall_cons in Ht as [Hf Ht]. destruct (take_field f l) as [[x r]|] eqn:E.
  - destruct (bool_decide (style = soeDEFAULT) && isDefault x.2) eqn:Ed; [done|].
    pose proof (take_field_perm _ _ _ _ E) as Hp. pose proof (take_field_code _ _ _ _ E) as Hc.
    rewrite Hp in Hl. apply Forall_cons in Hl as [[Hx Hk] Hl].
    destruct (template_loop type r) as [|[o r']] eqn:El; [done|]. injection H as <- <-.
    constructor; [|by eapply IH]. split; [by apply known_eq|]. by rewrite Hx.
  - destruct (bool_decide (style = soeREQUIRED)) eqn:Er; [done|].
    destruct (template_loop type l) as [|[o r']] eqn:El; [done|]. injection H as <- <-.
    constructor; [|by eapply IH]. split; [done|]. simpl. by apply bool_decide_eq_false in Er.
Qed.

Lemma inner_templates_known name type :
  findSOTemplateBySField name = Some type → Forall (λ e : SField * SOEStyle, field_known e.1) type.
Proof.
  assert (Forall (λ e : SField * SOTemplate, Forall (λ x : SField * SOEStyle, field_known x.1) e.2) innerFormats) as H.
  { repeat (apply Forall_cons; split); try (by apply Forall_nil); split; vm_compute; reflexivity. }
  unfold findSOTemplateBySField. revert H. generalize innerFormats.
  induction l as [|[g t] l IH]; simpl; [done|]. intros [Hg Hl]%Forall_cons. destruct (same_field _ _); [by intros [= <-]|auto].
Qed.

Lemma applyTemplate_fits d name type fs out :
  gathered d fs → findSOTemplateBySField name = Some type → applyTemplate type fs = inr out → Forall2 fits type out.
Proof.
  intros Hg Ef H. unfold applyTemplate in H. destruct (template_loop type fs) as [|[o r]] eqn:El; [done|].
  destruct (forallb _ r); [|done]. injection H as <-. eapply template_loop_fits; [by eapply inner_templates_known| |exact El].
  eapply Forall_impl; [exact Hg|]. intros x (? & (? & _) & _). done.
Qed.

Lemma object_typed d name fs v :
  fieldType name = STI_OBJECT → d ≤ 10 → gathered d fs → has_dup fs = false →
  applyTemplateFromSField name (VObject None fs) = inr v →
  typed d name v ∧ templated name v ∧ getSType v = STI_OBJECT.
Proof.
  intros Et Hd Hg Hdup H. pose proof (gathered_nodup d fs Hg Hdup) as Ht. unfold applyTemplateFromSField in H.
  destruct (findSOTemplateBySField name) as [type|] eqn:Ef.
  - destruct (applyTemplate type fs) as [|out] eqn:Ea; [done|]. injection H as <-.
    destruct (applyTemplate_typed d type fs out Hg Ht Ea) as [Hn Hf]. simpl. rewrite allP_Forall.
    pose proof (applyTemplate_fits d name type fs out Hg Ef Ea). by rewrite Ef.
  - injection H as <-. destruct Ht as [Hn Hf]. simpl. rewrite allP_Forall. rewrite Ef. done.
Qed.

(** ** Reading *)
Lemma parser_inv {A B} (p : Parser A) (f : A → Parser B) it r :
  (p ≫= f) it = Some (inr r) → ∃ a it1, p it = Some (inr (a, it1)) ∧ f a it1 = Some (inr r).
Proof.
  unfold mbind, parser_bind. destruct (p it) as [[|[a it1]]|]; [done| |done]. intros H. by exists a, it1.
Qed.
Lemma pure_inv {A} (r : sexn + A) it a it' : pure_step r it = Some (inr (a, it')) → r = inr a ∧ it' = it.
Proof. unfold pure_step. destruct r; [done|]. by intros [= -> ->]. Qed.

Lemma code_inv it t n it1 :
  good it → reading getFieldID it = Some (inr ((t, n), it1)) → 0 < t < 256 ∧ 0 < n < 256 ∧ good it1.
Proof.
  intros [Hit Hb] H. unfold reading in H. injection H as H. pose proof H as H'.
  apply getFieldID_inv in H as (Ht & Hn & _); [|done|done]. split; [done|]. split; [done|].
  by destruct (getFieldID_moves it (t, n) it1 (conj Hit Hb) H').
Qed.

(** The value of a field, after its template. *)
Lemma template_typed d fn w v :
  field_wire fn → (is_leaf w = true ∧ typed d fn w) ∨
    (getSType w = STI_ARRAY ∧ typed d fn w) ∨
    (∃ fs, w = VObject None fs ∧ fieldType fn = STI_OBJECT ∧ d ≤ 10 ∧ gathered d fs ∧ has_dup fs = false) →
  applyTemplateFromSField fn w = inr v → present v = true ∧ templated fn v ∧ typed d fn v.
Proof.
  intros Hw H Ha. pose proof (wire_type_nonzero fn Hw) as Hz.
  assert (∀ v, typed d fn v → present v = true) as Hpr.
  { intros u Hu. unfold present. apply negb_true_iff, Z.eqb_neq. assert (getSType u = fieldType fn) as -> by (destruct u; apply Hu). done. }
  destruct H as [[Hl Ht]|[[Hl Ht]|(fs & -> & Et & Hd & Hg & Hdup)]].
  - assert (v = w) as -> by (destruct w; try done; simpl in Ha; congruence).
    split; [by apply Hpr|]. split; [by destruct w|done].
  - assert (v = w) as -> by (destruct w; try done; simpl in Ha; congruence).
    split; [by apply Hpr|]. split; [by destruct w|done].
  - destruct (object_typed d fn fs v Et Hd Hg Hdup Ha) as (Ht & Htm & _). split; [by apply Hpr|done].
Qed.

Lemma parse_typed fuel :
  (∀ d name it w it', good it → 2 * remain_ it + 1 < Z.of_nat fuel → parse_var fuel d name it = Some (inr (w, it')) →
     (is_leaf w = true ∧ typed d name w) ∨ (getSType w = STI_ARRAY ∧ typed d name w) ∨
     (∃ fs, w = VObject None fs ∧ fieldType name = STI_OBJECT ∧ d ≤ 10 ∧ gathered d fs ∧ has_dup fs = false)) ∧
  (∀ d it e fs it', good it → 2 * remain_ it < Z.of_nat fuel → parse_fields fuel d it = Some (inr ((e, fs), it')) → gathered d fs) ∧
  (∀ d it es it', good it → 2 * remain_ it < Z.of_nat fuel → parse_elements fuel d it = Some (inr (es, it')) →
     Forall (λ f, field_wire f.1 ∧ getSType f.2 = STI_OBJECT ∧ templated f.1 f.2 ∧ typed (d + 1) f.1 f.2) es).
Proof.
  induction fuel as [|fuel (IHv & IHf & IHe)]; [split_and!; intros; done|].
  destruct (parse_answers fuel) as (Av & Af & _). split_and!.
  - intros d name it w it' Hg Hf H. cbn [parse_var] in H. destruct (Z.ltb_spec 10 d); [done|].
    destruct (parse_leaf name) as [p|] eqn:Ep.
    { left. destruct (leaf_typed d name p it w it' Ep H) as [? ?]; [lia|done]. }
    destruct (Z.eqb_spec (fieldType name) STI_OBJECT) as [Et|Et].
    + apply parser_inv in H as ([e fs] & it1 & Hp & H). right. right. exists fs.
      destruct (has_dup fs) eqn:Ed; [done|]. injection H as <- <-. split_and!; try done.
      eapply (IHf d it e fs it1); [done|lia|done].
    + apply parser_inv in H as (es & it1 & Hp & H). injection H as <- <-. right. left. split; [done|].
      assert (fieldType name = STI_ARRAY) as Ea.
      { unfold parse_leaf in Ep. repeat case_match; try done. lia. }
      split; [done|]. split; [done|]. rewrite allP_Forall. eapply (IHe d it es it1); [done|lia|done].
  - intros d it e fs it' Hg Hf H. cbn [parse_fields] in H. destruct (empty it); [injection H as <- <- <-; constructor|].
    apply parser_inv in H as ([t n] & it1 & Hc & H).
    destruct (code_inv it t n it1 Hg Hc) as (Ht & Hn & Hg1).
    assert (remain_ it1 < remain_ it) as Hr1 by (injection Hc as Hc; by destruct (getFieldID_moves it (t, n) it1 Hg Hc)).
    destruct ((t =? STI_OBJECT) && (n =? 1)); [injection H as <- <- <-; constructor|].
    destruct ((t =? STI_ARRAY) && (n =? 1)); [done|].
    destruct (isInvalid (getField2 t n)) eqn:Ei; [done|].
    pose proof (read_field_wire t n Ht Hn Ei) as Hw. set (fn := getField2 t n) in *.
    apply parser_inv in H as (w & it2 & Hv & H). apply parser_inv in H as (v & it3 & Ha & H). apply pure_inv in Ha as [Ha ->].
    apply parser_inv in H as ([e' fs'] & it4 & Hp & H). injection H as <- <- <-.
    pose proof (Av (d + 1) fn it1 Hg1 ltac:(lia)) as Hm. unfold answers in Hm. rewrite Hv in Hm. destruct Hm as [Hg2 Hr2].
    constructor.
    + simpl. destruct (template_typed (d + 1) fn w v Hw) as (? & ? & ?); [|done|done].
      eapply (IHv (d + 1) fn it1 w it2); [done|lia|done].
    + eapply (IHf d it2 e' fs' it4); [done|lia|done].
  - intros d it es it' Hg Hf H. cbn [parse_elements] in H. destruct (empty it); [injection H as <- <-; constructor|].
    apply parser_inv in H as ([t n] & it1 & Hc & H).
    destruct (code_inv it t n it1 Hg Hc) as (Ht & Hn & Hg1).
    assert (remain_ it1 < remain_ it) as Hr1 by (injection Hc as Hc; by destruct (getFieldID_moves it (t, n) it1 Hg Hc)).
    destruct ((t =? STI_ARRAY) && (n =? 1)); [injection H as <- <-; constructor|].
    destruct ((t =? STI_OBJECT) && (n =? 1)); [done|].
    destruct (isInvalid (getField2 t n)) eqn:Ei; [done|].
    pose proof (read_field_wire t n Ht Hn Ei) as Hw. set (fn := getField2 t n) in *.
    destruct (Z.eqb_spec (fieldType fn) STI_OBJECT) as [Et|]; [|done]. cbn [negb] in H.
    destruct (Z.ltb_spec 10 (d + 1)); [done|].
    apply parser_inv in H as ([e fs] & it2 & Hp & H). destruct (has_dup fs) eqn:Ed; [done|].
    apply parser_inv in H as (v & it3 & Ha & H). apply pure_inv in Ha as [Ha ->].
    apply parser_inv in H as (es' & it4 & He & H). injection H as <- <-.
    pose proof (Af (d + 1) it1 Hg1 ltac:(lia)) as Hm. unfold answers in Hm. rewrite Hp in Hm. destruct Hm as [Hg2 Hr2].
    constructor.
    + simpl. destruct (object_typed (d + 1) fn fs v Et) as (? & ? & ?); try done.
      eapply (IHf (d + 1) it1 e fs it2); [done|lia|done].
    + eapply (IHe d it2 es' it4); [done|lia|done].
Qed.

Lemma set_object_gathered it e fs it' :
  good it → set_object it = Some (inr ((e, fs), it')) → gathered 0 fs ∧ has_dup fs = false.
Proof.
  intros Hg H. unfold set_object in H. apply parser_inv in H as ([e' fs'] & it1 & Hp & H).
  destruct (has_dup fs') eqn:Ed; [done|]. injection H as <- <- <-. split; [|done].
  destruct (parse_typed (rounds it)) as (_ & Hf & _). eapply Hf; [done| |done]. unfold rounds. destruct Hg as [[] _]. lia.
Qed.

Lemma set_object_typed it e fs it' :
  good it → set_object it = Some (inr ((e, fs), it')) → fields_typed 0 fs.
Proof. intros Hg H. destruct (set_object_gathered _ _ _ _ Hg H). by apply gathered_nodup. Qed.
