(* ===== verification/STObjectFields.v ===== *)
(** * Fields of serialized objects

    src/src/ripple/protocol/STObject.h and impl/STObject.cpp: looking up, setting and removing
    the fields of an object, free or with a template.

    A pointer into [v_] is an index.  [SOTemplate::getIndex] finds an element by its field; the
    range check on the number of the field concerns fields that are not known.  A class cast
    succeeds on values of the same class.  An object is shown to behave as the map from field
    codes to the values that are present. *)

From stdpp Require Import prelude list gmap strings sorting.
From Stdlib Require Import ZArith Lia.
From S2P Require Import Prelude.
From S2P Require Import Serializer.
From S2P Require Import STAmount.
From S2P Require Import SField.
From S2P Require Import STPathSet.
From S2P Require Import STObject.

#[local] Open Scope Z_scope.

Record STObj := mkObj { obType : option SOTemplate; obFields : Fields }.

(** The first element of a list for a field. *)
Fixpoint index_of {A} (f : SField) (l : list (SField * A)) : option nat :=
  match l with
  | [] => None
  | x :: l => if same_field x.1 f then Some O else S <$> index_of f l
  end.
(** [getFieldIndex]: -1 is [None]. *)
Definition getFieldIndex (o : STObj) (f : SField) : option nat :=
  match obType o with Some t => index_of f t | None => index_of f (obFields o) end.
Definition isFree (o : STObj) : bool := match obType o with None => true | Some _ => false end.
Definition value_at (o : STObj) (i : nat) : option STVal := snd <$> obFields o !! i.
(** [peekAtPField]: [nullptr] is [None]. *)
Definition peekAtPField (o : STObj) (f : SField) : option STVal :=
  match getFieldIndex o f with None => None | Some i => value_at o i end.
Definition isFieldPresent (o : STObj) (f : SField) : bool :=
  match peekAtPField o f with None => false | Some v => present v end.

Definition put (i : nat) (v : STVal) (o : STObj) : STObj :=
  mkObj (obType o) (alter (λ x, (x.1, v)) i (obFields o)).
Definition emplace_back (f : SField) (v : STVal) (o : STObj) : STObj := mkObj (obType o) (obFields o ++ [(f, v)]).

(** [getPField (field, createOkay)]: the index and the object. *)
Definition getPField (o : STObj) (f : SField) (createOkay : bool) : sexn + (option nat * STObj) :=
  match getFieldIndex o f with
  | Some i => inr (Some i, o)
  | None =>
      if createOkay && isFree o then
        match default_value f with
        | Some v => inr (Some (length (obFields o)), emplace_back f v o)
        | None => inl runtime_error
        end
      else inr (None, o)
  end.

(** [makeFieldPresent] *)
Definition makeFieldPresent (o : STObj) (f : SField) : sexn + (nat * STObj) :=
  match getFieldIndex o f with
  | None => if negb (isFree o) then inl runtime_error
            else inr (length (obFields o), emplace_back f VNotPresent o)
  | Some i =>
      match obFields o !! i with
      | None => inl runtime_error
      | Some (g, v) => if present v then inr (i, o)
                       else match default_value g with
                            | None => inl runtime_error
                            | Some w => inr (i, put i w o)
                            end
      end
  end.
Definition makeFieldAbsent (o : STObj) (f : SField) : sexn + STObj :=
  match getFieldIndex o f with
  | None => inl runtime_error
  | Some i => inr (match value_at o i with
                   | Some v => if present v then put i VNotPresent o else o
                   | None => o
                   end)
  end.
Definition delField (o : STObj) (f : SField) : bool * STObj :=
  match getFieldIndex o f with
  | None => (false, o)
  | Some i => (true, mkObj (obType o) (delete i (obFields o)))
  end.
(** [set (std::unique_ptr<STBase>)] of a value with its field *)
Definition set_var (o : STObj) (f : SField) (v : STVal) : sexn + STObj :=
  match getFieldIndex o f with
  | Some i => inr (mkObj (obType o) (<[i := (f, v)]> (obFields o)))
  | None => if negb (isFree o) then inl runtime_error else inr (emplace_back f v o)
  end.

(** [setFieldUsingSetValue] and [setFieldUsingAssignment]: [v] is the value of the class of the
    setter. *)
Definition set_field (o : STObj) (f : SField) (v : STVal) : sexn + STObj :=
  match getPField o f true with
  | inl e => inl e
  | inr (None, _) => inl runtime_error
  | inr (Some i, o) =>
      match value_at o i with
      | None => inl runtime_error
      | Some w =>
          match (if present w then inr (i, o) else makeFieldPresent o f) with
          | inl e => inl e
          | inr (i, o) =>
              match value_at o i with
              | Some w => if getSType w =? getSType v then inr (put i v o) else inl runtime_error
              | None => inl runtime_error
              end
          end
      end
  end.
(** [getFieldByValue] and [getFieldByConstRef]: [cast] is the class of the getter and [empty] what
    it gives for an absent field. *)
Definition get_field {A} (cast : STVal → option A) (empty : A) (o : STObj) (f : SField) : sexn + A :=
  match peekAtPField o f with
  | None => inl runtime_error
  | Some v => if negb (present v) then inr empty
              else match cast v with Some a => inr a | None => inl runtime_error end
  end.

(** ** Flags *)
Definition sfFlags : SField := field STI_UINT32 2 "Flags".
Definition as_u32 (v : STVal) : option Z := match v with VUInt32 v => Some v | _ => None end.
Definition setFlag (o : STObj) (fl : Z) : sexn + (bool * STObj) :=
  match getPField o sfFlags true with
  | inl e => inl e
  | inr (i, o) =>
      match i ≫= value_at o with
      | Some (VUInt32 v) => inr (true, put (default O i) (VUInt32 (Z.lor v fl)) o)
      | _ => inr (false, o)
      end
  end.
Definition clearFlag (o : STObj) (fl : Z) : bool * STObj :=
  match getFieldIndex o sfFlags with
  | None => (false, o)
  | Some i => match value_at o i with
              | Some (VUInt32 v) => (true, put i (VUInt32 (Z.land v (u32 (Z.lnot fl)))) o)
              | _ => (false, o)
              end
  end.
Definition getFlags (o : STObj) : Z :=
  match peekAtPField o sfFlags with Some (VUInt32 v) => v | _ => 0 end.
Definition isFlag (o : STObj) (fl : Z) : bool := Z.land (getFlags o) fl =? fl.

(** ** The map of an object *)
Definition entries (fs : Fields) : list (Z * STVal) :=
  (λ x, (fieldCode x.1, x.2)) <$> filter (λ x, present x.2 = true) fs.
Definition contents (o : STObj) : gmap Z STVal := list_to_map (entries (obFields o)).

Record obj_wf (o : STObj) : Prop := {
  ow_codes : NoDup ((λ x, fieldCode x.1) <$> obFields o);
  ow_type : ∀ t, obType o = Some t → (λ x : SField * STVal, fieldCode x.1) <$> obFields o = (λ x : SField * SOEStyle, fieldCode x.1) <$> t;
  ow_values : Forall (λ x, present x.2 = true → getSType x.2 = fieldType x.1) (obFields o);
  ow_known : Forall (λ x, field_known x.1) (obFields o);
}.

Lemma index_of_codes {A B} f (l : list (SField * A)) (k : list (SField * B)) :
  (λ x, fieldCode x.1) <$> l = (λ x, fieldCode x.1) <$> k → index_of f l = index_of f k.
Proof.
  revert k. induction l as [|x l IH]; intros [|y k] H; try done. rewrite !fmap_cons in H. injection H as Hx H. simpl.
  unfold same_field. rewrite Hx. destruct (_ =? _); [done|]. by rewrite (IH k).
Qed.

Lemma getFieldIndex_fields o f : obj_wf o → getFieldIndex o f = index_of f (obFields o).
Proof.
  intros Hw. unfold getFieldIndex. destruct (obType o) as [t|] eqn:E; [|done].
  symmetry. apply index_of_codes. by apply (ow_type o Hw).
Qed.

Lemma index_of_some f (fs : Fields) i :
  index_of f fs = Some i → ∃ x, fs !! i = Some x ∧ fieldCode x.1 = fieldCode f.
Proof.
  revert i. induction fs as [|x fs IH]; intros i; simpl; [done|]. unfold same_field.
  destruct (Z.eqb_spec (fieldCode x.1) (fieldCode f)); [intros [= <-]; by exists x|].
  destruct (index_of f fs) as [j|]; [|done]. intros [= <-]. by apply IH.
Qed.
Lemma index_of_none f (fs : Fields) :
  index_of f fs = None ↔ ∀ x, x ∈ fs → fieldCode x.1 ≠ fieldCode f.
Proof.
  induction fs as [|x fs IH]; simpl; [split; [intros _ x Hx; by apply not_elem_of_nil in Hx|done]|]. unfold same_field.
  destruct (Z.eqb_spec (fieldCode x.1) (fieldCode f)) as [E|E].
  - split; [done|]. intros H. exfalso. apply (H x); [apply list_elem_of_here|done].
  - rewrite fmap_None, IH. split.
    + intros H y [->|Hy]%elem_of_cons; [done|by apply H].
    + intros H y Hy. apply H. by apply list_elem_of_further.
Qed.

Lemma contents_lookup o c v :
  obj_wf o → contents o !! c = Some v ↔ ∃ f, (f, v) ∈ obFields o ∧ present v = true ∧ fieldCode f = c.
Proof.
  intros [Hn _ _ _]. unfold contents, entries. rewrite <- elem_of_list_to_map.
  - rewrite list_elem_of_fmap. split.
    + intros ([f w] & [= -> ->] & [Hp Hx]%list_elem_of_filter). by exists f.
    + intros (f & Hin & Hp & <-). exists (f, v). split; [done|]. by apply list_elem_of_filter.
  - rewrite <- list_fmap_compose. eapply sublist_NoDup; [exact Hn|]. apply fmap_sublist, sublist_filter.
Qed.

(** The value of the field at an index. *)
Lemma contents_at o i f v :
  obj_wf o → obFields o !! i = Some (f, v) →
  contents o !! fieldCode f = if present v then Some v else None.
Proof.
  intros Hw Hi. destruct (present v) eqn:Ep.
  - apply contents_lookup; [done|]. exists f. split; [by eapply list_elem_of_lookup_2|done].
  - apply eq_None_not_Some. intros [w (g & Hin & Hp & Hc)%contents_lookup]; [|done].
    apply list_elem_of_lookup in Hin as [j Hj].
    assert (i = j) as <-; [|rewrite Hi in Hj; injection Hj as -> ->; by rewrite Ep in Hp].
    eapply NoDup_lookup; [exact (ow_codes o Hw)|rewrite list_lookup_fmap, Hi; reflexivity|].
    rewrite list_lookup_fmap, Hj. simpl. by rewrite Hc.
Qed.

Lemma put_fields i v o f w :
  obFields o !! i = Some (f, w) → obFields (put i v o) = <[i := (f, v)]> (obFields o).
Proof. intros Hi. unfold put. simpl. by rewrite (alter_as_insert (λ x : SField * STVal, (x.1, v)) _ i (f, w)). Qed.

Lemma put_wf i v o f w :
  obj_wf o → obFields o !! i = Some (f, w) → (present v = true → getSType v = fieldType f) → obj_wf (put i v o).
Proof.
  intros Hw Hi Hv. pose proof (put_fields i v o f w Hi) as E.
  assert ((λ x, fieldCode x.1) <$> obFields (put i v o) = (λ x, fieldCode x.1) <$> obFields o) as Ec.
  { rewrite E, list_fmap_insert. apply list_insert_id. by rewrite list_lookup_fmap, Hi. }
  split.
  - rewrite Ec. apply Hw.
  - intros t Ht. rewrite Ec. by apply (ow_type o Hw).
  - rewrite E. apply Forall_insert; [apply Hw|done].
  - rewrite E. apply Forall_insert; [apply Hw|]. pose proof (ow_known o Hw) as Hk. rewrite Forall_forall in Hk.
    apply (Hk (f, w)). by eapply list_elem_of_lookup_2.
Qed.

Lemma put_contents i v o f w :
  obj_wf o → obFields o !! i = Some (f, w) → (present v = true → getSType v = fieldType f) →
  contents (put i v o) = if present v then <[fieldCode f := v]> (contents o) else delete (fieldCode f) (contents o).
Proof.
  intros Hw Hi Hv. pose proof (put_wf i v o f w Hw Hi Hv) as Hw'.
  assert (i < length (obFields o))%nat as Hlt by (by eapply lookup_lt_Some).
  assert (obFields (put i v o) !! i = Some (f, v)) as Hi' by (by rewrite (put_fields i v o f w Hi), list_lookup_insert_eq).
  assert (∀ c, c ≠ fieldCode f → contents (put i v o) !! c = contents o !! c) as Ho.
  { intros c Hc. apply option_eq. intros u. rewrite !contents_lookup by done. rewrite (put_fields i v o f w Hi).
    split; intros (g & Hin & Hp & Hg); exists g; (split; [|done]); apply list_elem_of_lookup in Hin as [j Hj].
    - destruct (decide (i = j)) as [<-|Hne]; [rewrite list_lookup_insert_eq in Hj by done; injection Hj as -> ->; congruence|].
      rewrite list_lookup_insert_ne in Hj by done. by eapply list_elem_of_lookup_2.
    - assert (i ≠ j) as Hne by (intros ->; rewrite Hi in Hj; injection Hj as -> ->; congruence).
      apply (list_elem_of_lookup_2 _ j). by rewrite list_lookup_insert_ne. }
  pose proof (contents_at _ i f v Hw' Hi') as Hf. apply map_eq. intros c. destruct (decide (c = fieldCode f)) as [->|Hc].
  - rewrite Hf. destruct (present v); [by rewrite lookup_insert_eq|by rewrite lookup_delete_eq].
  - rewrite Ho by done. destruct (present v); [by rewrite lookup_insert_ne|by rewrite lookup_delete_ne].
Qed.

Lemma emplace_wf f v o :
  obj_wf o → isFree o = true → index_of f (obFields o) = None → field_known f →
  (present v = true → getSType v = fieldType f) → obj_wf (emplace_back f v o).
Proof.
  intros Hw Hfr Hi Hk Hv. rewrite index_of_none in Hi. destruct Hw as [Hn Ht Hvs Hks]. split; simpl.
  - rewrite fmap_app. apply NoDup_app. split; [done|]. split; [|apply NoDup_singleton].
    intros c (x & -> & Hx)%list_elem_of_fmap Hc%list_elem_of_singleton. by apply (Hi x Hx).
  - intros t E. unfold isFree in Hfr. by rewrite E in Hfr.
  - apply Forall_app. split; [done|by apply Forall_singleton].
  - apply Forall_app. split; [done|by apply Forall_singleton].
Qed.

Lemma emplace_contents f v o :
  obj_wf o → isFree o = true → index_of f (obFields o) = None → field_known f →
  present v = true → getSType v = fieldType f →
  contents (emplace_back f v o) = <[fieldCode f := v]> (contents o).
Proof.
  intros Hw Hfr Hi Hk Hp Hv. pose proof (emplace_wf f v o Hw Hfr Hi Hk (λ _, Hv)) as Hw'.
  apply map_eq. intros c. apply option_eq. intros u. rewrite contents_lookup by done. simpl.
  rewrite index_of_none in Hi. destruct (decide (c = fieldCode f)) as [->|Hc].
  - rewrite lookup_insert_eq. split.
    + intros (g & [Hin|Hin]%elem_of_app & Hpu & Hg); [by destruct (Hi _ Hin)|].
      apply list_elem_of_singleton in Hin. by injection Hin as -> ->.
    + intros [= <-]. exists f. split; [|done]. apply elem_of_app. right. by apply list_elem_of_singleton.
  - rewrite lookup_insert_ne by done. rewrite contents_lookup by done. split.
    + intros (g & [Hin|Hin]%elem_of_app & Hpu & Hg); [by exists g|].
      apply list_elem_of_singleton in Hin. injection Hin as -> ->. congruence.
    + intros (g & Hin & Hpu & Hg). exists g. split; [|done]. apply elem_of_app. by left.
Qed.

Lemma default_type f v : default_value f = Some v → getSType v = fieldType f.
Proof.
  unfold default_value. intros H.
  repeat match type of H with (if ?b then _ else _) = _ => let E := fresh "E" in destruct b eqn:E; [apply Z.eqb_eq in E|clear E] end;
    try done; injection H as <-; by rewrite E.
Qed.

Lemma present_type v : present v = true ↔ getSType v ≠ STI_NOTPRESENT.
Proof. unfold present. rewrite negb_true_iff, Z.eqb_neq. done. Qed.

(** The fields a setter may touch: those of the template, or any in a free object. *)
Definition settable (o : STObj) (f : SField) : bool :=
  isFree o || match index_of f (obFields o) with Some _ => true | None => false end.

Lemma put_put i v w o : (i < length (obFields o))%nat → put i v (put i w o) = put i v o.
Proof.
  intros Hi. destruct (lookup_lt_is_Some_2 (obFields o) i Hi) as [[g u] Hg].
  change (mkObj (obType o) (obFields (put i v (put i w o))) = mkObj (obType o) (obFields (put i v o))). f_equal.
  rewrite (put_fields i v o g u Hg), (put_fields i v (put i w o) g w), (put_fields i w o g u Hg).
  - apply list_insert_insert_eq.
  - by rewrite (put_fields i w o g u Hg), list_lookup_insert_eq.
Qed.

(** Setting a field: the outcome, by where the field is. *)
Lemma set_field_at o f v i g w :
  obj_wf o → field_known f → index_of f (obFields o) = Some i → obFields o !! i = Some (g, w) →
  fieldType f ≠ STI_NOTPRESENT → default_value f ≠ None → getSType v = fieldType f →
  set_field o f v = inr (put i v o) ∧ g = f.
Proof.
  intros Hw Hk Hi Hg Hnz Hd Hv.
  assert (g = f) as ->.
  { destruct (index_of_some f _ i Hi) as ([g' w'] & Hg' & Hc). rewrite Hg in Hg'. injection Hg' as <- <-.
    apply known_eq; [|done|done]. pose proof (ow_known o Hw) as Hks. rewrite Forall_forall in Hks.
    apply (Hks (g, w)). by eapply list_elem_of_lookup_2. }
  split; [|done]. unfold set_field, getPField. rewrite (getFieldIndex_fields o f Hw), Hi.
  unfold value_at at 1. rewrite Hg. cbn [fmap option_fmap option_map snd].
  destruct (present w) eqn:Ep.
  - unfold value_at. rewrite Hg. cbn [fmap option_fmap option_map snd].
    assert (getSType w = fieldType f) as ->.
    { pose proof (ow_values o Hw) as Hvs. rewrite Forall_forall in Hvs. apply (Hvs (f, w)); [by eapply list_elem_of_lookup_2|done]. }
    by rewrite Hv, Z.eqb_refl.
  - unfold makeFieldPresent. rewrite (getFieldIndex_fields o f Hw), Hi, Hg, Ep.
    destruct (default_value f) as [u|] eqn:Eu; [|done].
    assert (i < length (obFields o))%nat as Hlt by (by eapply lookup_lt_Some).
    unfold value_at. rewrite (put_fields i u o f w Hg), list_lookup_insert_eq by done. cbn [fmap option_fmap option_map snd].
    rewrite (default_type f u Eu), Hv, Z.eqb_refl. by rewrite put_put.
Qed.

Lemma set_field_new o f v u :
  obj_wf o → field_known f → isFree o = true → index_of f (obFields o) = None →
  default_value f = Some u → fieldType f ≠ STI_NOTPRESENT → getSType v = fieldType f →
  set_field o f v = inr (emplace_back f v o).
Proof.
  intros Hw Hk Hfr Hi Hd Hnz Hv. unfold set_field, getPField. rewrite (getFieldIndex_fields o f Hw), Hi, Hfr, Hd. cbn [andb].
  unfold value_at at 1. simpl. rewrite list_lookup_middle by done. simpl.
  pose proof (default_type f u Hd) as Hu. assert (present u = true) as -> by (apply present_type; by rewrite Hu).
  unfold value_at. simpl. rewrite list_lookup_middle by done. simpl. rewrite Hu, Hv, Z.eqb_refl.
  f_equal. unfold emplace_back. change (mkObj (obType o) (obFields (put (length (obFields o)) v (emplace_back f u o))) = mkObj (obType o) (obFields o ++ [(f, v)])).
  f_equal. rewrite (put_fields _ _ _ f u) by (simpl; by apply list_lookup_middle). simpl.
  by rewrite insert_app_r_alt, Nat.sub_diag by done.
Qed.

Lemma set_field_contents o f v :
  obj_wf o → field_known f → fieldType f ≠ STI_NOTPRESENT → default_value f ≠ None → getSType v = fieldType f →
  if settable o f
  then ∃ o', set_field o f v = inr o' ∧ obj_wf o' ∧ contents o' = <[fieldCode f := v]> (contents o) ∧ obType o' = obType o
  else set_field o f v = inl runtime_error.
Proof.
  intros Hw Hk Hnz Hd Hv. assert (present v = true) as Hp by (apply present_type; by rewrite Hv). unfold settable.
  destruct (index_of f (obFields o)) as [i|] eqn:Ei.
  - rewrite orb_true_r. destruct (index_of_some f _ i Ei) as ([g w] & Hg & _).
    destruct (set_field_at o f v i g w Hw Hk Ei Hg Hnz Hd Hv) as [-> ->].
    exists (put i v o). split; [done|]. split; [by eapply put_wf|]. split; [|done].
    by rewrite (put_contents i v o f w), Hp.
  - rewrite orb_false_r. destruct (isFree o) eqn:Ef.
    + destruct (default_value f) as [u|] eqn:Eu; [|done]. rewrite (set_field_new o f v u) by done.
      exists (emplace_back f v o). split; [done|]. split; [by apply emplace_wf|]. split; [by apply emplace_contents|done].
    + unfold set_field, getPField. by rewrite (getFieldIndex_fields o f Hw), Ei, Ef.
Qed.

Lemma get_field_contents {A} (cast : STVal → option A) (empty : A) o f :
  obj_wf o → field_known f →
  get_field cast empty o f =
  match contents o !! fieldCode f with
  | Some v => match cast v with Some a => inr a | None => inl runtime_error end
  | None => match index_of f (obFields o) with Some _ => inr empty | None => inl runtime_error end
  end.
Proof.
  intros Hw Hk. unfold get_field, peekAtPField. rewrite (getFieldIndex_fields o f Hw).
  destruct (index_of f (obFields o)) as [i|] eqn:Ei.
  - destruct (index_of_some f _ i Ei) as ([g v] & Hg & Hc). simpl in Hc. unfold value_at. rewrite Hg. simpl.
    pose proof (contents_at o i g v Hw Hg) as E. rewrite Hc in E. rewrite E. by destruct (present v).
  - replace (contents o !! fieldCode f) with (None : option STVal); [done|]. symmetry. apply eq_None_not_Some.
    intros [v (g & Hin & _ & Hc)%contents_lookup]; [|done]. rewrite index_of_none in Ei. by apply (Ei _ Hin).
Qed.

Lemma makeFieldAbsent_contents o f :
  obj_wf o →
  match index_of f (obFields o) with
  | None => makeFieldAbsent o f = inl runtime_error
  | Some _ => ∃ o', makeFieldAbsent o f = inr o' ∧ obj_wf o' ∧ contents o' = delete (fieldCode f) (contents o)
  end.
Proof.
  intros Hw. unfold makeFieldAbsent. rewrite (getFieldIndex_fields o f Hw). destruct (index_of f (obFields o)) as [i|] eqn:Ei; [|done].
  destruct (index_of_some f _ i Ei) as ([g v] & Hg & Hc). simpl in Hc. unfold value_at. rewrite Hg. simpl.
  pose proof (contents_at o i g v Hw Hg) as E. rewrite Hc in E. destruct (present v) eqn:Ep.
  - eexists. split; [done|]. split; [by eapply (put_wf i VNotPresent o g v)|].
    rewrite (put_contents i VNotPresent o g v) by done. simpl. by rewrite Hc.
  - exists o. split; [done|]. split; [done|]. by rewrite delete_id.
Qed.

Lemma isFieldPresent_contents o f : obj_wf o → isFieldPresent o f = bool_decide (is_Some (contents o !! fieldCode f)).
Proof.
  intros Hw. unfold isFieldPresent, peekAtPField. rewrite (getFieldIndex_fields o f Hw).
  destruct (index_of f (obFields o)) as [i|] eqn:Ei.
  - destruct (index_of_some f _ i Ei) as ([g v] & Hg & Hc). simpl in Hc. unfold value_at. rewrite Hg. simpl.
    pose proof (contents_at o i g v Hw Hg) as E. rewrite Hc in E. rewrite E. destruct (present v); symmetry.
    + by apply bool_decide_eq_true_2.
    + apply bool_decide_eq_false_2. by intros [? ?].
  - symmetry. apply bool_decide_eq_false_2. intros [v (g & Hin & _ & Hc)%contents_lookup]; [|done].
    rewrite index_of_none in Ei. by apply (Ei _ Hin).
Qed.
