(* ===== verification/STObjectTheorems.v ===== *)
(** * Serialized objects: theorems *)

From stdpp Require Import prelude list gmap strings sorting.
From Stdlib Require Import ZArith Lia.
From S2P Require Import Prelude.
From S2P Require Import BaseUint.
From S2P Require Import BaseUintTheorems.
From S2P Require Import Serializer.
From S2P Require Import SerializerTheorems.
From S2P Require Import STAmount.
From S2P Require Import STAmountSpec.
From S2P Require Import SField.
From S2P Require Import STPathSet.
From S2P Require Import STObject.
From S2P Require Import STObjectSpec.
From S2P Require Import STObjectTotal.
From S2P Require Import STObjectFields.

#[local] Open Scope string_scope.
#[local] Open Scope Z_scope.

(** What is read from all the bytes. *)
Definition read_all {A} (p : Parser A) (bs : Blob) (a : A) : Prop :=
  p (serial_iter bs) = Some (inr (a, advance (size bs) (serial_iter bs))).

(** C9: Objects on the wire.  A well-formed object, with objects and arrays of objects inside it to
    the depth the reader allows, is written - its fields in the order of their codes - as bytes
    from which the same object is read: free ones by the constructor without a template, others
    by that of their template. *)
Theorem object_roundtrip mt fs :
  object_ok mt fs →
  ∃ bs, object_bytes true fs = inr bs ∧
    (size bs < 2 ^ 63 →
     match mt with
     | None => read_all parse_object bs fs
     | Some type => read_all (parse_templated type) bs fs
     end).
Proof.
  intros Hok. destruct (object_back_top mt fs Hok) as (bs & Eb & Hs). exists bs. split; [done|]. intros Hsz.
  pose proof (Hs (serial_iter bs) (serial_iter_ok bs Hsz) eq_refl) as E.
  destruct Hok as [Hsh Hok]. destruct (in_order_spec mt fs Hsh) as (_ & _ & _ & Hmt).
  { eapply Forall_impl; [exact Hok|]. intros x Hx Hp. by apply Hx. }
  destruct mt as [type|].
  - unfold read_all, parse_templated, mbind, parser_bind. rewrite E. unfold pure_step. by rewrite Hmt.
  - unfold read_all, parse_object, mbind, parser_bind. rewrite E. by rewrite Hmt.
Qed.

(** A payment to several signers, with a memo and a path. *)
Definition sfTransactionType := field STI_UINT16 2 "TransactionType".
Definition sfAmount := field STI_AMOUNT 1 "Amount".
Definition sfPaths := field STI_PATHSET 1 "Paths".
Definition sfSignerEntries := field STI_ARRAY 4 "SignerEntries".
Definition sfMemos := field STI_ARRAY 9 "Memos".
Definition sfMemo := field STI_OBJECT 10 "Memo".
Definition sfMemoData := field STI_VL 13 "MemoData".
Definition sample_object : Fields :=
  [ (sfTransactionType, VUInt16 12); (sfFlags, VUInt32 2147483648);
    (sfAmount, VAmount (drops 1000000)); (sfSigningPubKey, VBlob [1; 2; 3]);
    (sfAccount, VAccount (bytes160 5) false);
    (sfSignerEntries, VArray
       [(sfSignerEntry, VObject (findSOTemplateBySField sfSignerEntry)
                          [(sfAccount, VAccount (bytes160 6) false); (sfSignerWeight, VUInt16 1)])]);
    (sfMemos, VArray [(sfMemo, VObject None [(sfMemoData, VBlob [7])])]);
    (sfPaths, VPathSet [[path_element (bytes160 9) (bytes160 0) (bytes160 0) false]]) ].

Lemma sample_shape : shape None sample_object.
Proof.
  split; [|repeat constructor]. repeat (apply SSorted_cons; [|repeat (apply Forall_cons; split; [vm_compute; reflexivity|]); apply Forall_nil; exact I]).
  apply SSorted_nil.
Qed.

Ltac wire_field := split; [split; [vm_compute; reflexivity|vm_compute; reflexivity]|split; [vm_compute; reflexivity|vm_compute; discriminate]].

Lemma object_roundtrip_witness :
  object_ok None sample_object ∧
  ∃ bs, object_bytes true sample_object = inr bs ∧ (size bs < 2 ^ 63 → read_all parse_object bs sample_object).
Proof.
  assert (object_ok None sample_object) as Hok.
  { split; [exact sample_shape|].
    repeat (apply Forall_cons; split; [intros _; split; [wire_field|]|]); [..|apply Forall_nil; exact I];
      (split; [reflexivity|split; [vm_compute; discriminate|]]).
    - vm_compute; intuition discriminate.
    - vm_compute; intuition discriminate.
    - left. split; [|reflexivity]. split; [reflexivity|]. split; [reflexivity|]. split; [reflexivity|].
      split; [vm_compute; intuition discriminate|]. intros E. vm_compute in E. discriminate E.
    - vm_compute. discriminate.
    - reflexivity.
    - simpl. split; [|exact I]. split; [wire_field|]. split; [reflexivity|].
      split; [reflexivity|]. split; [vm_compute; discriminate|]. split; [reflexivity|]. split.
      + split; [repeat (apply Forall2_cons; split; [split; [reflexivity|reflexivity]|]); apply Forall2_nil; exact I|].
        apply (bool_decide_unpack _). vm_compute. exact I.
      + split; [|split; [|exact I]]; (intros _; split; [wire_field|]; split; [reflexivity|]; split; [vm_compute; discriminate|]).
        * reflexivity.
        * vm_compute; intuition discriminate.
    - simpl. split; [|exact I]. split; [wire_field|]. split; [reflexivity|].
      split; [reflexivity|]. split; [vm_compute; discriminate|]. split; [reflexivity|]. split.
      + split; [apply SSorted_cons; [apply SSorted_nil|apply Forall_nil; exact I]|repeat constructor].
      + split; [|exact I]. intros _. split; [wire_field|]. split; [reflexivity|]. split; [vm_compute; discriminate|]. vm_compute. discriminate.
    - split; [discriminate|]. apply Forall_cons. split; [|apply Forall_nil; exact I].
      split; [discriminate|]. apply Forall_cons. split; [|apply Forall_nil; exact I].
      split; [reflexivity|]. split; [reflexivity|]. split; [reflexivity|]. split; [vm_compute; discriminate|]. exists false. reflexivity. }
  split; [exact Hok|]. exact (object_roundtrip None sample_object Hok).
Defined.

(** C10: Reading objects.  On any bytes [STObject::set] ends, with an exception or within the bytes; the
    fields it gives are known ones, no two of one name, each with a value of its type; an object in a
    field whose name has a template has exactly the fields of the template, in its order, the required ones
    present and none at its default; and nothing is nested more than ten deep - in the object and in
    all it holds. *)
Theorem object_reading bs :
  size bs < 2 ^ 63 → in_base 256 bs →
  (∃ e, set_object (serial_iter bs) = Some (inl e)) ∨
  (∃ reachedEnd fs it, set_object (serial_iter bs) = Some (inr ((reachedEnd, fs), it)) ∧
     iter_ok it ∧ 0 ≤ remain_ it ≤ size bs ∧ fields_typed 0 fs).
Proof.
  intros Hs Hb. assert (good (serial_iter bs)) as Hg by (split; [by apply serial_iter_ok|done]).
  pose proof (set_object_answers _ Hg) as Ha. unfold answers in Ha.
  destruct (set_object (serial_iter bs)) as [[e|[[e fs] it]]|] eqn:E; [left; by exists e| |done].
  right. exists e, fs, it. destruct Ha as [[Hit _] Hr]. split; [done|]. split; [done|].
  split; [simpl in Hr; destruct Hit; lia|by eapply set_object_typed].
Qed.

Lemma object_reading_witness :
  ∃ fs it, set_object (serial_iter [34; 128; 0; 0; 0]) = Some (inr ((false, fs), it)) ∧ fields_typed 0 fs.
Proof.
  destruct (object_reading [34; 128; 0; 0; 0]) as [[e H]|(b & fs & it & H & _ & _ & Ht)].
  - vm_compute. reflexivity.
  - apply (bool_decide_unpack _). vm_compute. exact I.
  - exfalso. vm_compute in H. discriminate H.
  - exists fs, it. split; [|exact Ht]. rewrite H. vm_compute in H. injection H as <- _ _. reflexivity.
Defined.

(** C14: An object is a map.  For a well-formed object and a known field: the field is present when the
    map from codes to present values has it; a getter gives the value in the map, the empty value for
    an absent field of the template, and fails for others; a setter of the field's class adds the value
    to the map, and fails for a field outside the template; [makeFieldAbsent] removes it.  The object
    stays well formed. *)
Theorem object_is_map {A} (cast : STVal → option A) (empty : A) o f v :
  obj_wf o → field_known f → fieldType f ≠ STI_NOTPRESENT → default_value f ≠ None → getSType v = fieldType f →
  isFieldPresent o f = bool_decide (is_Some (contents o !! fieldCode f)) ∧
  get_field cast empty o f =
    match contents o !! fieldCode f with
    | Some v => match cast v with Some a => inr a | None => inl runtime_error end
    | None => match index_of f (obFields o) with Some _ => inr empty | None => inl runtime_error end
    end ∧
  (if settable o f
   then ∃ o', set_field o f v = inr o' ∧ obj_wf o' ∧ contents o' = <[fieldCode f := v]> (contents o) ∧ obType o' = obType o
   else set_field o f v = inl runtime_error) ∧
  match index_of f (obFields o) with
  | None => makeFieldAbsent o f = inl runtime_error
  | Some _ => ∃ o', makeFieldAbsent o f = inr o' ∧ obj_wf o' ∧ contents o' = delete (fieldCode f) (contents o)
  end.
Proof.
  intros Hw Hk Hz Hd Hv. split; [by apply isFieldPresent_contents|]. split; [by apply get_field_contents|].
  split; [by apply set_field_contents|by apply makeFieldAbsent_contents].
Qed.

Lemma object_is_map_witness :
  obj_wf (mkObj None []) ∧
  ∃ o', set_field (mkObj None []) sfFlags (VUInt32 7) = inr o' ∧
        contents o' = <[fieldCode sfFlags := VUInt32 7]> (contents (mkObj None [])).
Proof.
  assert (obj_wf (mkObj None [])) as Hw by (split; [apply NoDup_nil_2|discriminate|apply Forall_nil; exact I|apply Forall_nil; exact I]).
  split; [exact Hw|].
  destruct (object_is_map as_u32 0 (mkObj None []) sfFlags (VUInt32 7) Hw) as (_ & _ & H & _).
  - split; vm_compute; reflexivity.
  - vm_compute. discriminate.
  - vm_compute. discriminate.
  - reflexivity.
  - destruct H as (o' & H1 & _ & H2 & _). exists o'. split; assumption.
Defined.

(** ** Where objects fall short *)

(** A path element of account type with the zero account is read, and written as the end of the set;
    what is written is not read. *)
Theorem zero_account_path :
  let bs := (1 :: bytes160 0 ++ [0])%list in
  ∃ ps it, parse_pathset (serial_iter bs) = Some (inr (ps, it)) ∧ remain_ it = 0 ∧
    pathset_bytes ps = [0; 0] ∧ parse_pathset (serial_iter [0; 0]) = Some (inl runtime_error).
Proof. cbv zeta. do 2 eexists. split; [vm_compute; reflexivity|]. split_and!; vm_compute; reflexivity. Qed.

(** An object inside another that is not closed by its marker is read like one that is. *)
Theorem unclosed_object :
  let closed := [234; 125; 1; 7; 225] in
  let unclosed := [234; 125; 1; 7] in
  ∃ fs it it', set_object (serial_iter closed) = Some (inr ((false, fs), it)) ∧
    set_object (serial_iter unclosed) = Some (inr ((false, fs), it')) ∧ object_bytes true fs = inr closed.
Proof.
  cbv zeta. exists [(sfMemo, VObject None [(sfMemoData, VBlob [7])])], (mkIter [234; 125; 1; 7; 225] 5 0), (mkIter [234; 125; 1; 7] 4 0).
  split_and!; vm_compute; reflexivity.
Qed.

(** The bytes of a vector of hashes beyond the last whole hash are dropped. *)
Theorem vector_drops_bytes :
  ∃ it, parse_var 1 0 (mkField STI_VECTOR256 2 "Hashes" sMD_Default true) (serial_iter (1 :: [5])) = Some (inr (VVector256 [], it)) ∧
    remain_ it = 0 ∧ value_bytes (VVector256 []) = inr [0].
Proof. exists (mkIter [1; 5] 2 0). split_and!; vm_compute; reflexivity. Qed.

(** [makeFieldPresent] of a field a free object does not have adds the field, absent. *)
Theorem make_present_absent :
  ∃ i o, makeFieldPresent (mkObj None []) sfFlags = inr (i, o) ∧ value_at o i = Some VNotPresent ∧
         isFieldPresent o sfFlags = false.
Proof. exists 0%nat, (mkObj None [(sfFlags, VNotPresent)]). split_and!; vm_compute; reflexivity. Qed.
