(* ===== verification/STTx.v ===== *)
(** * Transactions and ledger entries

    src/src/ripple/protocol/STTx.h, impl/STTx.cpp, impl/Sign.cpp and impl/STLedgerEntry.cpp:
    objects that follow the format of their type, their identifiers and signatures; with the
    formats (KnownFormats.h, TxFormats.cpp, LedgerFormats.cpp).

    The hash and the signature scheme are parameters: [verify] takes the key, the data, the
    signature and whether it must be fully canonical, [publicKeyType] says whether bytes are a key.
    An [std::exception] is a left value; [LogicError], which ends the program, is [None].  The
    texts of [checkSign] are the constructors of [SignCheck]. *)

From stdpp Require Import prelude list gmap strings sorting.
From Stdlib Require Import ZArith Lia.
From S2P Require Import Prelude.
From S2P Require Import BaseUint.
From S2P Require Import BaseUintTheorems.
From S2P Require Import Serializer.
From S2P Require Import SerializerTheorems.
From S2P Require Import STAmount.
From S2P Require Import SField.
From S2P Require Import STPathSet.
From S2P Require Import STObject.
From S2P Require Import STObjectSpec.
From S2P Require Import STObjectTotal.
From S2P Require Import STObjectFields.

(** * Formats of transactions and ledger entries

    src/src/ripple/protocol/KnownFormats.h, impl/SOTemplate.cpp, impl/TxFormats.cpp and
    impl/LedgerFormats.cpp: for each type of transaction and of ledger entry the fields it has,
    which of them it must have and which it must not have with their default value.

    A format is made of its own fields and of those common to all; making its template checks that
    the fields are useful and that none occurs twice.  The elements of a template are in the
    order of the lists, which is the order the fields of an object have. *)

#[local] Open Scope Z_scope.

(** A field by its name. *)
Definition fld (name : string) : SField := getFieldName name knownFields.
Arguments fld : simpl never.

Record Format := mkFormat {
  fm_name : string;
  fm_type : Z;
  fm_unique : list (SField * SOEStyle);
  fm_common : list (SField * SOEStyle);
}.

(** [SOTemplate (uniqueFields, commonFields)]: the check of the elements, then of the numbers of their
    fields against those of the elements before. *)
Fixpoint distinct_fields (seen l : list (SField * SOEStyle)) : bool :=
  match l with
  | [] => true
  | x :: l => negb (existsb (λ y, same_field y.1 x.1) seen) && distinct_fields (x :: seen) l
  end.
Definition new_template (uniqueFields commonFields : list (SField * SOEStyle)) : sexn + SOTemplate :=
  let elements := (uniqueFields ++ commonFields)%list in
  if negb (forallb (λ e, isUseful e.1) elements) then inl runtime_error
  else if negb (distinct_fields [] elements) then inl runtime_error
  else inr elements.

(** [findByType] and [findByName]: formats added later replace earlier ones. *)
Fixpoint findByType (type : Z) (formats : list Format) : option Format :=
  match formats with
  | [] => None
  | f :: formats => match findByType type formats with
                    | Some g => Some g
                    | None => if fm_type f =? type then Some f else None
                    end
  end.
Fixpoint findByName (name : string) (formats : list Format) : option Format :=
  match formats with
  | [] => None
  | f :: formats => match findByName name formats with
                    | Some g => Some g
                    | None => if String.eqb (fm_name f) name then Some f else None
                    end
  end.
Definition findTypeByName (name : string) (formats : list Format) : sexn + Z :=
  match findByName name formats with Some f => inr (fm_type f) | None => inl runtime_error end.
(** [getSOTemplate] of a format that was found. *)
Definition getSOTemplate (f : Format) : sexn + SOTemplate := new_template (fm_unique f) (fm_common f).

(** ** Transactions *)
Definition txCommonFields : list (SField * SOEStyle) :=
  [ (fld "TransactionType", soeREQUIRED);
    (fld "Flags", soeOPTIONAL);
    (fld "SourceTag", soeOPTIONAL);
    (fld "Account", soeREQUIRED);
    (fld "Sequence", soeREQUIRED);
    (fld "PreviousTxnID", soeOPTIONAL);
    (fld "LastLedgerSequence", soeOPTIONAL);
    (fld "AccountTxnID", soeOPTIONAL);
    (fld "Fee", soeREQUIRED);
    (fld "OperationLimit", soeOPTIONAL);
    (fld "Memos", soeOPTIONAL);
    (fld "SigningPubKey", soeREQUIRED);
    (fld "TxnSignature", soeOPTIONAL);
    (fld "Signers", soeOPTIONAL) ].

Definition ttACCOUNT_SET : Z := 3.
Definition ttTRUST_SET : Z := 20.
Definition ttOFFER_CREATE : Z := 7.
Definition ttOFFER_CANCEL : Z := 8.
Definition ttREGULAR_KEY_SET : Z := 5.
Definition ttPAYMENT : Z := 0.
Definition ttESCROW_CREATE : Z := 1.
Definition ttESCROW_FINISH : Z := 2.
Definition ttESCROW_CANCEL : Z := 4.
Definition ttAMENDMENT : Z := 100.
Definition ttFEE : Z := 101.
Definition ttTICKET_CREATE : Z := 10.
Definition ttTICKET_CANCEL : Z := 11.
Definition ttSIGNER_LIST_SET : Z := 12.
Definition ttPAYCHAN_CREATE : Z := 13.
Definition ttPAYCHAN_FUND : Z := 14.
Definition ttPAYCHAN_CLAIM : Z := 15.
Definition ttCHECK_CREATE : Z := 16.
Definition ttCHECK_CASH : Z := 17.
Definition ttCHECK_CANCEL : Z := 18.
Definition ttDEPOSIT_PREAUTH : Z := 19.

Definition txFormats : list Format :=
  [ mkFormat "AccountSet" ttACCOUNT_SET
      [ (fld "EmailHash", soeOPTIONAL);
        (fld "WalletLocator", soeOPTIONAL);
        (fld "WalletSize", soeOPTIONAL);
        (fld "MessageKey", soeOPTIONAL);
        (fld "Domain", soeOPTIONAL);
        (fld "TransferRate", soeOPTIONAL);
        (fld "SetFlag", soeOPTIONAL);
        (fld "ClearFlag", soeOPTIONAL);
        (fld "TickSize", soeOPTIONAL) ] txCommonFields;
    mkFormat "TrustSet" ttTRUST_SET
      [ (fld "LimitAmount", soeOPTIONAL);
        (fld "QualityIn", soeOPTIONAL);
        (fld "QualityOut", soeOPTIONAL) ] txCommonFields;
    mkFormat "OfferCreate" ttOFFER_CREATE
      [ (fld "TakerPays", soeREQUIRED);
        (fld "TakerGets", soeREQUIRED);
        (fld "Expiration", soeOPTIONAL);
        (fld "OfferSequence", soeOPTIONAL) ] txCommonFields;
    mkFormat "OfferCancel" ttOFFER_CANCEL
      [ (fld "OfferSequence", soeREQUIRED) ] txCommonFields;
    mkFormat "SetRegularKey" ttREGULAR_KEY_SET
      [ (fld "RegularKey", soeOPTIONAL) ] txCommonFields;
    mkFormat "Payment" ttPAYMENT
      [ (fld "Destination", soeREQUIRED);
        (fld "Amount", soeREQUIRED);
        (fld "SendMax", soeOPTIONAL);
        (fld "Paths", soeDEFAULT);
        (fld "InvoiceID", soeOPTIONAL);
        (fld "DestinationTag", soeOPTIONAL);
        (fld "DeliverMin", soeOPTIONAL) ] txCommonFields;
    mkFormat "EscrowCreate" ttESCROW_CREATE
      [ (fld "Destination", soeREQUIRED);
        (fld "Amount", soeREQUIRED);
        (fld "Condition", soeOPTIONAL);
        (fld "CancelAfter", soeOPTIONAL);
        (fld "FinishAfter", soeOPTIONAL);
        (fld "DestinationTag", soeOPTIONAL) ] txCommonFields;
    mkFormat "EscrowFinish" ttESCROW_FINISH
      [ (fld "Owner", soeREQUIRED);
        (fld "OfferSequence", soeREQUIRED);
        (fld "Fulfillment", soeOPTIONAL);
        (fld "Condition", soeOPTIONAL) ] txCommonFields;
    mkFormat "EscrowCancel" ttESCROW_CANCEL
      [ (fld "Owner", soeREQUIRED);
        (fld "OfferSequence", soeREQUIRED) ] txCommonFields;
    mkFormat "EnableAmendment" ttAMENDMENT
      [ (fld "LedgerSequence", soeREQUIRED);
        (fld "Amendment", soeREQUIRED) ] txCommonFields;
    mkFormat "SetFee" ttFEE
      [ (fld "LedgerSequence", soeOPTIONAL);
        (fld "BaseFee", soeREQUIRED);
        (fld "ReferenceFeeUnits", soeREQUIRED);
        (fld "ReserveBase", soeREQUIRED);
        (fld "ReserveIncrement", soeREQUIRED) ] txCommonFields;
    mkFormat "TicketCreate" ttTICKET_CREATE
      [ (fld "Target", soeOPTIONAL);
        (fld "Expiration", soeOPTIONAL) ] txCommonFields;
    mkFormat "TicketCancel" ttTICKET_CANCEL
      [ (fld "TicketID", soeREQUIRED) ] txCommonFields;
    mkFormat "SignerListSet" ttSIGNER_LIST_SET
      [ (fld "SignerQuorum", soeREQUIRED);
        (fld "SignerEntries", soeOPTIONAL) ] txCommonFields;
    mkFormat "PaymentChannelCreate" ttPAYCHAN_CREATE
      [ (fld "Destination", soeREQUIRED);
        (fld "Amount", soeREQUIRED);
        (fld "SettleDelay", soeREQUIRED);
        (fld "PublicKey", soeREQUIRED);
        (fld "CancelAfter", soeOPTIONAL);
        (fld "DestinationTag", soeOPTIONAL) ] txCommonFields;
    mkFormat "PaymentChannelFund" ttPAYCHAN_FUND
      [ (fld "Channel", soeREQUIRED);
        (fld "Amount", soeREQUIRED);
        (fld "Expiration", soeOPTIONAL) ] txCommonFields;
    mkFormat "PaymentChannelClaim" ttPAYCHAN_CLAIM
      [ (fld "Channel", soeREQUIRED);
        (fld "Amount", soeOPTIONAL);
        (fld "Balance", soeOPTIONAL);
        (fld "Signature", soeOPTIONAL);
        (fld "PublicKey", soeOPTIONAL) ] txCommonFields;
    mkFormat "CheckCreate" ttCHECK_CREATE
      [ (fld "Destination", soeREQUIRED);
        (fld "SendMax", soeREQUIRED);
        (fld "Expiration", soeOPTIONAL);
        (fld "DestinationTag", soeOPTIONAL);
        (fld "InvoiceID", soeOPTIONAL) ] txCommonFields;
    mkFormat "CheckCash" ttCHECK_CASH
      [ (fld "CheckID", soeREQUIRED);
        (fld "Amount", soeOPTIONAL);
        (fld "DeliverMin", soeOPTIONAL) ] txCommonFields;
    mkFormat "CheckCancel" ttCHECK_CANCEL
      [ (fld "CheckID", soeREQUIRED) ] txCommonFields;
    mkFormat "DepositPreauth" ttDEPOSIT_PREAUTH
      [ (fld "Authorize", soeOPTIONAL);
        (fld "Unauthorize", soeOPTIONAL) ] txCommonFields ].

(** ** Ledger entries *)
Definition ledgerCommonFields : list (SField * SOEStyle) :=
  [ (fld "LedgerIndex", soeOPTIONAL);
    (fld "LedgerEntryType", soeREQUIRED);
    (fld "Flags", soeREQUIRED) ].

Definition ltACCOUNT_ROOT : Z := 97.
Definition ltDIR_NODE : Z := 100.
Definition ltOFFER : Z := 111.
Definition ltRIPPLE_STATE : Z := 114.
Definition ltESCROW : Z := 117.
Definition ltLEDGER_HASHES : Z := 104.
Definition ltAMENDMENTS : Z := 102.
Definition ltFEE_SETTINGS : Z := 115.
Definition ltTICKET : Z := 84.
Definition ltSIGNER_LIST : Z := 83.
Definition ltPAYCHAN : Z := 120.
Definition ltCHECK : Z := 67.
Definition ltDEPOSIT_PREAUTH : Z := 112.

Definition ledgerFormats : list Format :=
  [ mkFormat "AccountRoot" ltACCOUNT_ROOT
      [ (fld "Account", soeREQUIRED);
        (fld "Sequence", soeREQUIRED);
        (fld "Balance", soeREQUIRED);
        (fld "OwnerCount", soeREQUIRED);
        (fld "PreviousTxnID", soeREQUIRED);
        (fld "PreviousTxnLgrSeq", soeREQUIRED);
        (fld "AccountTxnID", soeOPTIONAL);
        (fld "RegularKey", soeOPTIONAL);
        (fld "EmailHash", soeOPTIONAL);
        (fld "WalletLocator", soeOPTIONAL);
        (fld "WalletSize", soeOPTIONAL);
        (fld "MessageKey", soeOPTIONAL);
        (fld "TransferRate", soeOPTIONAL);
        (fld "Domain", soeOPTIONAL);
        (fld "TickSize", soeOPTIONAL) ] ledgerCommonFields;
    mkFormat "DirectoryNode" ltDIR_NODE
      [ (fld "Owner", soeOPTIONAL);
        (fld "TakerPaysCurrency", soeOPTIONAL);
        (fld "TakerPaysIssuer", soeOPTIONAL);
        (fld "TakerGetsCurrency", soeOPTIONAL);
        (fld "TakerGetsIssuer", soeOPTIONAL);
        (fld "ExchangeRate", soeOPTIONAL);
        (fld "Indexes", soeREQUIRED);
        (fld "RootIndex", soeREQUIRED);
        (fld "IndexNext", soeOPTIONAL);
        (fld "IndexPrevious", soeOPTIONAL) ] ledgerCommonFields;
    mkFormat "Offer" ltOFFER
      [ (fld "Account", soeREQUIRED);
        (fld "Sequence", soeREQUIRED);
        (fld "TakerPays", soeREQUIRED);
        (fld "TakerGets", soeREQUIRED);
        (fld "BookDirectory", soeREQUIRED);
        (fld "BookNode", soeREQUIRED);
        (fld "OwnerNode", soeREQUIRED);
        (fld "PreviousTxnID", soeREQUIRED);
        (fld "PreviousTxnLgrSeq", soeREQUIRED);
        (fld "Expiration", soeOPTIONAL) ] ledgerCommonFields;
    mkFormat "RippleState" ltRIPPLE_STATE
      [ (fld "Balance", soeREQUIRED);
        (fld "LowLimit", soeREQUIRED);
        (fld "HighLimit", soeREQUIRED);
        (fld "PreviousTxnID", soeREQUIRED);
        (fld "PreviousTxnLgrSeq", soeREQUIRED);
        (fld "LowNode", soeOPTIONAL);
        (fld "LowQualityIn", soeOPTIONAL);
        (fld "LowQualityOut", soeOPTIONAL);
        (fld "HighNode", soeOPTIONAL);
        (fld "HighQualityIn", soeOPTIONAL);
        (fld "HighQualityOut", soeOPTIONAL) ] ledgerCommonFields;
    mkFormat "Escrow" ltESCROW
      [ (fld "Account", soeREQUIRED);
        (fld "Destination", soeREQUIRED);
        (fld "Amount", soeREQUIRED);
        (fld "Condition", soeOPTIONAL);
        (fld "CancelAfter", soeOPTIONAL);
        (fld "FinishAfter", soeOPTIONAL);
        (fld "SourceTag", soeOPTIONAL);
        (fld "DestinationTag", soeOPTIONAL);
        (fld "OwnerNode", soeREQUIRED);
        (fld "PreviousTxnID", soeREQUIRED);
        (fld "PreviousTxnLgrSeq", soeREQUIRED);
        (fld "DestinationNode", soeOPTIONAL) ] ledgerCommonFields;
    mkFormat "LedgerHashes" ltLEDGER_HASHES
      [ (fld "FirstLedgerSequence", soeOPTIONAL);
        (fld "LastLedgerSequence", soeOPTIONAL);
        (fld "Hashes", soeREQUIRED) ] ledgerCommonFields;
    mkFormat "Amendments" ltAMENDMENTS
      [ (fld "Amendments", soeOPTIONAL);
        (fld "Majorities", soeOPTIONAL) ] ledgerCommonFields;
    mkFormat "FeeSettings" ltFEE_SETTINGS
      [ (fld "BaseFee", soeREQUIRED);
        (fld "ReferenceFeeUnits", soeREQUIRED);
        (fld "ReserveBase", soeREQUIRED);
        (fld "ReserveIncrement", soeREQUIRED) ] ledgerCommonFields;
    mkFormat "Ticket" ltTICKET
      [ (fld "Account", soeREQUIRED);
        (fld "Sequence", soeREQUIRED);
        (fld "OwnerNode", soeREQUIRED);
        (fld "Target", soeOPTIONAL);
        (fld "Expiration", soeOPTIONAL) ] ledgerCommonFields;
    mkFormat "SignerList" ltSIGNER_LIST
      [ (fld "OwnerNode", soeREQUIRED);
        (fld "SignerQuorum", soeREQUIRED);
        (fld "SignerEntries", soeREQUIRED);
        (fld "SignerListID", soeREQUIRED);
        (fld "PreviousTxnID", soeREQUIRED);
        (fld "PreviousTxnLgrSeq", soeREQUIRED) ] ledgerCommonFields;
    mkFormat "PayChannel" ltPAYCHAN
      [ (fld "Account", soeREQUIRED);
        (fld "Destination", soeREQUIRED);
        (fld "Amount", soeREQUIRED);
        (fld "Balance", soeREQUIRED);
        (fld "PublicKey", soeREQUIRED);
        (fld "SettleDelay", soeREQUIRED);
        (fld "Expiration", soeOPTIONAL);
        (fld "CancelAfter", soeOPTIONAL);
        (fld "SourceTag", soeOPTIONAL);
        (fld "DestinationTag", soeOPTIONAL);
        (fld "OwnerNode", soeREQUIRED);
        (fld "PreviousTxnID", soeREQUIRED);
        (fld "PreviousTxnLgrSeq", soeREQUIRED) ] ledgerCommonFields;
    mkFormat "Check" ltCHECK
      [ (fld "Account", soeREQUIRED);
        (fld "Destination", soeREQUIRED);
        (fld "SendMax", soeREQUIRED);
        (fld "Sequence", soeREQUIRED);
        (fld "OwnerNode", soeREQUIRED);
        (fld "DestinationNode", soeREQUIRED);
        (fld "Expiration", soeOPTIONAL);
        (fld "InvoiceID", soeOPTIONAL);
        (fld "SourceTag", soeOPTIONAL);
        (fld "DestinationTag", soeOPTIONAL);
        (fld "PreviousTxnID", soeREQUIRED);
        (fld "PreviousTxnLgrSeq", soeREQUIRED) ] ledgerCommonFields;
    mkFormat "DepositPreauth" ltDEPOSIT_PREAUTH
      [ (fld "Account", soeREQUIRED);
        (fld "Authorize", soeREQUIRED);
        (fld "OwnerNode", soeREQUIRED);
        (fld "PreviousTxnID", soeREQUIRED);
        (fld "PreviousTxnLgrSeq", soeREQUIRED) ] ledgerCommonFields ].

(** ** Every format is well formed

    Its template is made; its fields are known, binary fields of the table; it has the field that
    tells its type, which the object must have; and no two formats have one type. *)
Definition format_ok (typeField : SField) (f : Format) : bool :=
  match getSOTemplate f with
  | inl _ => false
  | inr t =>
      bool_decide (t = fm_unique f ++ fm_common f) && bool_decide (NoDup ((λ e, fieldCode e.1) <$> t)) &&
      forallb (λ e, bool_decide (getField (fieldCode e.1) = e.1) && isUseful e.1 && isBinary e.1) t &&
      bool_decide ((typeField, soeREQUIRED) ∈ t)
  end.

Lemma tx_formats_ok : forallb (format_ok (fld "TransactionType")) txFormats = true.
Proof. vm_compute. reflexivity. Qed.
Lemma ledger_formats_ok : forallb (format_ok (fld "LedgerEntryType")) ledgerFormats = true.
Proof. vm_compute. reflexivity. Qed.
Lemma format_types_distinct : NoDup (fm_type <$> txFormats) ∧ NoDup (fm_type <$> ledgerFormats).
Proof. split; apply (bool_decide_unpack _); vm_compute; exact I. Qed.

Lemma findByType_in type l f : findByType type l = Some f → f ∈ l ∧ fm_type f = type.
Proof.
  induction l as [|g l IH]; simpl; [done|]. destruct (findByType type l) as [h|].
  - intros [= <-]. destruct (IH eq_refl). split; [by apply list_elem_of_further|done].
  - destruct (Z.eqb_spec (fm_type g) type); [|done]. intros [= <-]. split; [apply list_elem_of_here|done].
Qed.

(** Templates that are well formed. *)
Record template_ok (typeField : SField) (t : SOTemplate) : Prop := {
  to_codes : NoDup ((λ e : SField * SOEStyle, fieldCode e.1) <$> t);
  to_known : Forall (λ e : SField * SOEStyle, field_known e.1 ∧ isBinary e.1 = true ∧ fieldCode e.1 ≠ 0) t;
  to_type : (typeField, soeREQUIRED) ∈ t;
}.

Lemma format_template tf l type f :
  forallb (format_ok tf) l = true → findByType type l = Some f →
  ∃ t, getSOTemplate f = inr t ∧ template_ok tf t ∧ fm_type f = type.
Proof.
  intros Hall Hf. apply findByType_in in Hf as [Hin Ht]. rewrite forallb_forall in Hall.
  apply list_elem_of_In in Hin. specialize (Hall f Hin). unfold format_ok in Hall.
  destruct (getSOTemplate f) as [|t]; [done|]. exists t. split; [done|]. split; [|done].
  rewrite !andb_true_iff, !bool_decide_eq_true in Hall. destruct Hall as (((_ & Hn) & Hk) & Htf).
  split; [done| |done]. rewrite forallb_forall in Hk. apply Forall_forall. intros e He.
  apply list_elem_of_In in He. specialize (Hk e He). rewrite !andb_true_iff, bool_decide_eq_true in Hk. destruct Hk as ((Hg & Hu) & Hb).
  unfold isUseful in Hu. apply Z.ltb_lt in Hu. split_and!; [split; [done|unfold isInvalid; apply Z.eqb_neq; lia]|done|lia].
Qed.

(** * Transactions *)

#[local] Open Scope Z_scope.

Definition Res (A : Type) : Type := sexn + A.
#[export] Instance res_ret : MRet Res := λ A a, inr a.
#[export] Instance res_bind : MBind Res := λ A B f m, match m with inl e => inl e | inr a => f a end.
Definition fail {A} : Res A := inl runtime_error.

Definition txMinSizeBytes : Z := 32.
Definition txMaxSizeBytes : Z := 1048576.
Definition minMultiSigners : Z := 1.
Definition maxMultiSigners : Z := 8.
Definition tfFullyCanonicalSig : Z := 0x80000000.

(** [HashPrefix] *)
Definition hash_prefix (a b c : Z) : Z := Z.shiftl (Z.shiftl (Z.shiftl a 8 + b) 8 + c) 8.
Definition transactionID : Z := hash_prefix 84 88 78.
Definition txSign : Z := hash_prefix 83 84 88.
Definition txMultiSign : Z := hash_prefix 83 77 84.

Definition sfTransactionType : SField := fld "TransactionType".
Definition sfLedgerEntryType : SField := fld "LedgerEntryType".
Definition sfSigners : SField := fld "Signers".
Definition sfMemos : SField := fld "Memos".
Definition sfMemo : SField := fld "Memo".
Definition sfMemoType : SField := fld "MemoType".
Definition sfMemoData : SField := fld "MemoData".
Definition sfMemoFormat : SField := fld "MemoFormat".
Definition sfPreviousTxnID : SField := fld "PreviousTxnID".
Definition sfPreviousTxnLgrSeq : SField := fld "PreviousTxnLgrSeq".

(** The casts of the getters. *)
Definition as_u16 (v : STVal) : option Z := match v with VUInt16 v => Some v | _ => None end.
Definition as_h256 (v : STVal) : option Blob := match v with VHash256 b => Some b | _ => None end.
Definition as_blob (v : STVal) : option Blob := match v with VBlob b => Some b | _ => None end.
Definition as_account (v : STVal) : option Blob := match v with VAccount b _ => Some b | _ => None end.
Definition as_array (v : STVal) : option Fields := match v with VArray es => Some es | _ => None end.
Definition getFieldU16 (o : STObj) (f : SField) : Res Z := get_field as_u16 0 o f.
Definition getFieldU32 (o : STObj) (f : SField) : Res Z := get_field as_u32 0 o f.
Definition getFieldH256 (o : STObj) (f : SField) : Res Blob := get_field as_h256 (replicate 32 0) o f.
Definition getFieldVL (o : STObj) (f : SField) : Res Blob := get_field as_blob [] o f.
Definition getAccountID (o : STObj) (f : SField) : Res Blob := get_field as_account (bytes160 0) o f.
Definition getFieldArray (o : STObj) (f : SField) : Res Fields := get_field as_array [] o f.

(** [getTxFormat], with the template of the format. *)
Definition getTxFormat (type : Z) : Res SOTemplate :=
  match findByType type txFormats with None => fail | Some f => getSOTemplate f end.

Record STTx := mkTx { tx_type_ : Z; tx_object : STObj; tid_ : Blob }.

(** Why a signature is refused. *)
Inductive SignCheck :=
  | sign_ok
  | both_single_and_multi | invalid_signature | empty_SigningPubKey | invalid_signers_size
  | invalid_multisigner | duplicate_signers | unsorted_signers | invalid_signature_on (account : Blob)
  | internal_failure.

Section Crypto.
Context (sha512Half : Blob → Blob).
Context (verify : Blob → Blob → Blob → bool → bool) (publicKeyType : Blob → bool).
Context (sign_data : Blob → Blob → Blob → Blob).

(** [STObject::getHash] and [getSigningHash] *)
Definition getHash (prefix : Z) (o : STObj) : Res Blob :=
  b ← (object_bytes true (obFields o) : Res Blob); mret (sha512Half ((add32 [] prefix).2 ++ b)).
Definition getSigningHash (prefix : Z) (o : STObj) : Res Blob :=
  b ← (object_bytes false (obFields o) : Res Blob); mret (sha512Half ((add32 [] prefix).2 ++ b)).

(** *** Construction *)

(** [STTx (STObject&&)] and the end of [STTx (SerialIter&)] *)
Definition tx_of_object (o : STObj) : Res STTx :=
  ty ← getFieldU16 o sfTransactionType;
  t ← getTxFormat ty;
  fs ← (applyTemplate t (obFields o) : Res Fields);
  id ← getHash transactionID (mkObj (Some t) fs);
  mret (mkTx ty (mkObj (Some t) fs) id).

(** The length is an [int], compared with sizes. *)
Definition int_length (n : Z) : Z := ((n + 2 ^ 31) mod 2 ^ 32 - 2 ^ 31) mod 2 ^ 64.
Definition tx_read (it : SerialIter) : option (Res STTx) :=
  let length := int_length (remain_ it) in
  if (length <? txMinSizeBytes) || (txMaxSizeBytes <? length) then Some fail
  else match set_object it with
       | None => None
       | Some (inl e) => Some (inl e)
       | Some (inr ((true, _), _)) => Some fail
       | Some (inr ((false, fs), _)) => Some (tx_of_object (mkObj None fs))
       end.

(** [STTx (type, assembler)] *)
Definition tx_assemble (type : Z) (assembler : STObj → Res STObj) : Res (option STTx) :=
  t ← getTxFormat type;
  fs ← (set_template t : Res Fields);
  o ← (set_field (mkObj (Some t) fs) sfTransactionType (VUInt16 type) : Res STObj);
  o ← assembler o;
  ty ← getFieldU16 o sfTransactionType;
  if negb (ty =? type) then mret None
  else id ← getHash transactionID o; mret (Some (mkTx ty o id)).

(** *** Signatures *)
Definition getSigningData (o : STObj) : Res Blob :=
  b ← (object_bytes false (obFields o) : Res Blob); mret ((add32 [] txSign).2 ++ b).
Definition getSignature (t : STTx) : Blob :=
  match getFieldVL (tx_object t) sfTxnSignature with inl _ => [] | inr b => b end.

Definition tx_sign (publicKey secretKey : Blob) (t : STTx) : Res STTx :=
  data ← getSigningData (tx_object t);
  let sig := sign_data publicKey secretKey data in
  o ← (set_field (tx_object t) sfTxnSignature (VBlob sig) : Res STObj);
  id ← getHash transactionID o;
  mret (mkTx (tx_type_ t) o id).

Definition startMultiSigningData (o : STObj) : Res Blob :=
  b ← (object_bytes false (obFields o) : Res Blob); mret ((add32 [] txMultiSign).2 ++ b).
Definition finishMultiSigningData (signingID s : Blob) : Blob := (addBitString s signingID).2.
Definition buildMultiSigningData (o : STObj) (signingID : Blob) : Res Blob :=
  s ← startMultiSigningData o; mret (finishMultiSigningData signingID s).

Definition fullyCanonical (o : STObj) : bool := negb (Z.land (getFlags o) tfFullyCanonicalSig =? 0).

(** The [try] of a signature: an exception makes it invalid. *)
Definition checkSingleSign (o : STObj) : SignCheck :=
  if isFieldPresent o sfSigners then both_single_and_multi
  else
    let validSig : Res bool :=
      spk ← getFieldVL o sfSigningPubKey;
      if publicKeyType spk then
        signature ← getFieldVL o sfTxnSignature;
        data ← getSigningData o;
        mret (verify spk data signature (fullyCanonical o))
      else mret false in
    match validSig with inr true => sign_ok | _ => invalid_signature end.

(** The signer as an object. *)
Definition as_object (v : STVal) : STObj :=
  match v with VObject mt fs => mkObj mt fs | _ => mkObj None [] end.
Definition signer_valid (canonical : bool) (dataStart accountID : Blob) (signer : STObj) : bool :=
  let validSig : Res bool :=
    let s := finishMultiSigningData accountID dataStart in
    spk ← getFieldVL signer sfSigningPubKey;
    if publicKeyType spk then
      signature ← getFieldVL signer sfTxnSignature;
      mret (verify spk s signature canonical)
    else mret false in
  match validSig with inr b => b | inl _ => false end.

Fixpoint check_signers (canonical : bool) (dataStart txnAccountID lastAccountID : Blob) (signers : Fields) : Res SignCheck :=
  match signers with
  | [] => mret sign_ok
  | (_, v) :: signers =>
      let signer := as_object v in
      accountID ← getAccountID signer sfAccount;
      if bool_decide (accountID = txnAccountID) then mret invalid_multisigner
      else if bool_decide (lastAccountID = accountID) then mret duplicate_signers
      else if number 256 accountID <? number 256 lastAccountID then mret unsorted_signers
      else if negb (signer_valid canonical dataStart accountID signer) then mret (invalid_signature_on accountID)
      else check_signers canonical dataStart txnAccountID accountID signers
  end.

Definition checkMultiSign (o : STObj) : Res SignCheck :=
  if negb (isFieldPresent o sfSigners) then mret empty_SigningPubKey
  else if isFieldPresent o sfTxnSignature then mret both_single_and_multi
  else
    signers ← getFieldArray o sfSigners;
    let n := Z.of_nat (length signers) in
    if (n <? minMultiSigners) || (maxMultiSigners <? n) then mret invalid_signers_size
    else
      dataStart ← startMultiSigningData o;
      txnAccountID ← getAccountID o sfAccount;
      check_signers (fullyCanonical o) dataStart txnAccountID (bytes160 0) signers.

Definition checkSign (t : STTx) (allowMultiSign : bool) : SignCheck :=
  let o := tx_object t in
  let ret : Res SignCheck :=
    if allowMultiSign then
      signingPubKey ← getFieldVL o sfSigningPubKey;
      if is_empty signingPubKey then checkMultiSign o else mret (checkSingleSign o)
    else mret (checkSingleSign o) in
  match ret with inl _ => internal_failure | inr r => r end.

(** *** Local checks *)
Definition allowedSymbols (c : Z) : bool :=
  ((48 <=? c) && (c <=? 57)) || ((65 <=? c) && (c <=? 90)) || ((97 <=? c) && (c <=? 122)) ||
  existsb (Z.eqb c) [45; 46; 95; 126; 58; 47; 63; 35; 91; 93; 64; 33; 36; 38; 39; 40; 41; 42; 43; 44; 59; 61; 37].

(** A memo's element: the text of a blob is the hexadecimal form of its bytes, which [strUnHex] reads back. *)
Definition memo_element_ok (x : SField * STVal) : bool :=
  if negb (same_field x.1 sfMemoType) && negb (same_field x.1 sfMemoData) && negb (same_field x.1 sfMemoFormat)
  then false
  else if same_field x.1 sfMemoData then true
  else forallb allowedSymbols (default [] (as_blob x.2)).
Definition memo_ok (x : SField * STVal) : bool :=
  if negb (same_field x.1 sfMemo) then false else forallb memo_element_ok (obFields (as_object x.2)).
Definition isMemoOkay (o : STObj) : Res bool :=
  if negb (isFieldPresent o sfMemos) then mret true
  else
    memos ← getFieldArray o sfMemos;
    s ← (value_bytes (VArray memos) : Res Blob);
    if 1024 <? size s then mret false else mret (forallb memo_ok memos).

Definition isAccountFieldOkay (o : STObj) : bool :=
  forallb (λ x, match x.2 with VAccount _ true => false | _ => true end) (obFields o).
(** [isPseudoTx] *)
Definition isPseudoTx (o : STObj) : bool :=
  match peekAtPField o sfTransactionType with
  | Some (VUInt16 ty) => (ty =? ttAMENDMENT) || (ty =? ttFEE)
  | _ => false
  end.
Definition passesLocalChecks (o : STObj) : Res bool :=
  memo ← isMemoOkay o;
  mret (if negb memo then false else if negb (isAccountFieldOkay o) then false else negb (isPseudoTx o)).

(** [sterilize] *)
Definition sterilize (t : STTx) : option (Res STTx) :=
  match object_bytes true (obFields (tx_object t)) with
  | inl e => Some (inl e)
  | inr b => tx_read (serial_iter b)
  end.
End Crypto.

(** ** Ledger entries *)
Record STLedgerEntry := mkEntry { le_key : Blob; le_type : Z; le_object : STObj }.

(** [STLedgerEntry (Keylet)] *)
Definition entry_new (key : Blob) (type : Z) : Res STLedgerEntry :=
  if negb ((0 <=? type) && (type <=? 65535)) then fail
  else match findByType type ledgerFormats with
       | None => fail
       | Some f =>
           t ← (getSOTemplate f : Res SOTemplate);
           fs ← (set_template t : Res Fields);
           o ← (set_field (mkObj (Some t) fs) sfLedgerEntryType (VUInt16 type) : Res STObj);
           mret (mkEntry key type o)
       end.
(** [setSLEType], on the fields of an object *)
Definition setSLEType (key : Blob) (o : STObj) : Res STLedgerEntry :=
  ty ← getFieldU16 o sfLedgerEntryType;
  match findByType ty ledgerFormats with
  | None => fail
  | Some f =>
      t ← (getSOTemplate f : Res SOTemplate);
      fs ← (applyTemplate t (obFields o) : Res Fields);
      mret (mkEntry key (fm_type f) (mkObj (Some t) fs))
  end.
(** [STLedgerEntry (SerialIter&, index)] *)
Definition entry_read (key : Blob) (it : SerialIter) : option (Res STLedgerEntry) :=
  match set_object it with
  | None => None
  | Some (inl e) => Some (inl e)
  | Some (inr ((_, fs), _)) => Some (setSLEType key (mkObj None fs))
  end.

Definition isThreadedType (e : STLedgerEntry) : bool := bool_decide (is_Some (getFieldIndex (le_object e) sfPreviousTxnID)).
(** [thread]: the answer, the previous transaction and the entry; [None] when the transaction is there with
    another sequence number, which fails an assertion. *)
Definition thread_new (txID : Blob) (ledgerSeq : Z) (oldPrevTxID : Blob) (e : STLedgerEntry) :
    Res (bool * option (Blob * Z) * STLedgerEntry) :=
  prevLedgerID ← getFieldU32 (le_object e) sfPreviousTxnLgrSeq;
  o ← (set_field (le_object e) sfPreviousTxnID (VHash256 txID) : Res STObj);
  o ← (set_field o sfPreviousTxnLgrSeq (VUInt32 ledgerSeq) : Res STObj);
  mret (true, Some (oldPrevTxID, prevLedgerID), mkEntry (le_key e) (le_type e) o).
Definition thread (txID : Blob) (ledgerSeq : Z) (e : STLedgerEntry) : option (Res (bool * option (Blob * Z) * STLedgerEntry)) :=
  match getFieldH256 (le_object e) sfPreviousTxnID with
  | inl x => Some (inl x)
  | inr oldPrevTxID =>
      if bool_decide (oldPrevTxID = txID)
      then match getFieldU32 (le_object e) sfPreviousTxnLgrSeq with
           | inl x => Some (inl x)
           | inr seq => if seq =? ledgerSeq then Some (inr (false, None, e)) else None
           end
      else Some (thread_new txID ledgerSeq oldPrevTxID e)
  end.
