(* ===== verification/STTxTheorems.v ===== *)
(** * Transactions and ledger entries: theorems

    Transactions and entries that are read follow the formats of their types and are read back
    from what is written; signing, and what a checked signature means; threads of entries. *)

From stdpp Require Import prelude list gmap strings sorting.
From Stdlib Require Import ZArith Lia.
From S2P Require Import Prelude.
From S2P Require Import BaseUint.
From S2P Require Import BaseUintTheorems.
From S2P Require Import Serializer.
From S2P Require Import SerializerTheorems.
From S2P Require Import STAmount.
From S2P Require Import SField.
From S2P Require Import STPathSet.
From S2P Require Import STObject.
From S2P Require Import STObjectSpec.
From S2P Require Import STObjectTotal.
From S2P Require Import STObjectFields.
From S2P Require Import STTx.

#[local] Open Scope Z_scope.

(** ** Objects that follow a template *)

Lemma fits_codes type fs : Forall2 fits type fs → codes fs = (λ e, fieldCode e.1) <$> type.
Proof. induction 1 as [|e x type fs [Hx _] _ IH]; [done|]. rewrite !fmap_cons, IH. by rewrite Hx. Qed.

(** An object that fits a well-formed template, its values of their types. *)
Lemma fits_wf tf type fs :
  template_ok tf type → Forall2 fits type fs → Forall (λ x, present x.2 = true → getSType x.2 = fieldType x.1) fs →
  obj_wf (mkObj (Some type) fs).
Proof.
  intros [Hn Hk _] Hf Hv. pose proof (fits_codes _ _ Hf) as Hc. split; simpl.
  - by rewrite Hc.
  - by intros t [= <-].
  - done.
  - clear -Hk Hf. induction Hf as [|e x type fs [Hx _] _ IH]; constructor; apply Forall_cons in Hk as [[He _] Hk]; [by rewrite Hx|by apply IH].
Qed.

Lemma typed_type d name v : typed d name v → getSType v = fieldType name.
Proof. destruct v; by intros [? _]. Qed.
Lemma val_ok_type d name v : val_ok d name v → getSType v = fieldType name.
Proof. destruct v; by intros [? _]. Qed.

Lemma free_wf fs :
  NoDup (codes fs) → Forall (λ x, getSType x.2 = fieldType x.1 ∧ field_known x.1) fs → obj_wf (mkObj None fs).
Proof.
  intros Hn Hf. split; simpl; [done|done| |]; eapply Forall_impl; [exact Hf| |exact Hf|]; intros x [? ?]; done.
Qed.

(** Objects with the same present fields have the same contents. *)
Lemma contents_perm o o' :
  NoDup (codes (here (obFields o))) → here (obFields o) ≡ₚ here (obFields o') → contents o = contents o'.
Proof.
  intros Hn Hp. unfold contents, entries. apply list_to_map_proper; [|by apply fmap_Permutation].
  rewrite <- list_fmap_compose. exact Hn.
Qed.

(** A template keeps what an object of binary fields has. *)
Lemma template_keeps d t fs out :
  gathered d fs → applyTemplate t fs = inr out → here out ≡ₚ fs.
Proof.
  intros Hg H. unfold applyTemplate in H. destruct (template_loop t fs) as [|[o r]] eqn:El; [done|].
  destruct (forallb (λ f, isDiscardable f.1) r) eqn:Er; [|done]. injection H as <-.
  assert (Forall (λ x, present x.2 = true) fs) as Hp by (eapply Forall_impl; [exact Hg|]; by intros x (? & _)).
  pose proof (template_loop_perm t fs o r Hp El) as Hperm. destruct r as [|x r]; [by rewrite app_nil_r in Hperm|].
  exfalso. simpl in Er. apply andb_prop in Er as [Ed _]. unfold gathered in Hg. rewrite Forall_forall in Hg.
  destruct (Hg x) as (_ & (_ & Hb & _) & _); [rewrite <- Hperm; apply elem_of_app; right; apply list_elem_of_here|].
  unfold isDiscardable, isBinary in *. lia.
Qed.

Lemma gathered_here d fs : gathered d fs → here fs = fs.
Proof. intros Hg. apply filter_keeps. intros x Hx. unfold gathered in Hg. rewrite Forall_forall in Hg. by apply Hg. Qed.

(** The type field of an object is that of the object after its template. *)
Lemma required_index tf t fs :
  Forall2 fits t fs → (tf, soeREQUIRED) ∈ t → NoDup (codes fs) → ∃ v, (tf, v) ∈ fs ∧ present v = true.
Proof.
  intros Hf Hin _. apply list_elem_of_lookup in Hin as [i Hi]. destruct (Forall2_lookup_l _ _ _ _ _ Hf Hi) as ([g v] & Hg & Hx & Hv).
  simpl in *. subst g. exists v. split; [by eapply list_elem_of_lookup_2|]. by destruct (present v).
Qed.

Lemma getter_contents {A} (cast : STVal → option A) e o o' f a :
  obj_wf o → obj_wf o' → field_known f → contents o = contents o' → is_Some (contents o' !! fieldCode f) →
  get_field cast e o f = inr a ↔ get_field cast e o' f = inr a.
Proof. intros Hw Hw' Hk E [v Hv]. rewrite !get_field_contents, E, Hv by done. done. Qed.

Lemma field_known_type : field_known sfTransactionType ∧ field_known sfLedgerEntryType.
Proof. split; (split; [by vm_compute|by vm_compute]). Qed.

Lemma getTxFormat_ok ty t : getTxFormat ty = inr t → template_ok sfTransactionType t.
Proof.
  unfold getTxFormat. destruct (findByType ty txFormats) as [f|] eqn:E; [|done]. intros H.
  destruct (format_template _ _ _ _ tx_formats_ok E) as (t' & Et & Hok & _). rewrite H in Et. by injection Et as <-.
Qed.

(** An object that was read and given its template. *)
Lemma follows_template tf t fs out :
  gathered 0 fs → has_dup fs = false → template_ok tf t → applyTemplate t fs = inr out →
  obj_wf (mkObj None fs) ∧ obj_wf (mkObj (Some t) out) ∧ Forall2 fits t out ∧
  contents (mkObj None fs) = contents (mkObj (Some t) out) ∧ is_Some (contents (mkObj (Some t) out) !! fieldCode tf).
Proof.
  intros Hg Hd Hok Ha. pose proof (gathered_nodup 0 fs Hg Hd) as Ht. pose proof Ht as [Hn _].
  pose proof (applyTemplate_typed 0 t fs out Hg Ht Ha) as [_ Hto].
  pose proof (template_keeps 0 t fs out Hg Ha) as Hkeep. pose proof (gathered_here 0 fs Hg) as Hh.
  assert (obj_wf (mkObj None fs)) as Hw.
  { apply free_wf; [by rewrite Hh in Hn|]. eapply Forall_impl; [exact Hg|]. intros x (_ & (Hk & _) & _ & Hty). split; [by eapply typed_type|done]. }
  assert (Forall2 fits t out) as Hf.
  { unfold applyTemplate in Ha. destruct (template_loop t fs) as [|[o r]] eqn:El; [done|]. destruct (forallb _ r); [|done].
    injection Ha as <-. eapply (template_loop_fits t fs o r); [| |done].
    - eapply Forall_impl; [exact (to_known _ _ Hok)|]. by intros e [? _].
    - eapply Forall_impl; [exact Hg|]. intros x (? & (? & _) & _). done. }
  assert (obj_wf (mkObj (Some t) out)) as Hw'.
  { eapply fits_wf; [done|done|]. eapply Forall_impl; [exact Hto|]. intros x Hx Hp. destruct (Hx Hp) as (_ & _ & Hty). by eapply typed_type. }
  split; [done|]. split; [done|]. split; [done|]. split.
  - apply contents_perm; simpl; [by rewrite Hh in Hn |- *|by rewrite Hh, Hkeep].
  - destruct (required_index tf t out Hf (to_type _ _ Hok) (ow_codes _ Hw')) as (v & Hin & Hp).
    exists v. apply contents_lookup; [done|]. by exists tf.
Qed.

Section Transactions.
Context (sha512Half : Blob → Blob).

(** A transaction that is what it should be: it follows the format of its type, which its field for
    the type tells, and has the identifier of its bytes. *)
Record tx_wf (t : STTx) (type : SOTemplate) : Prop := {
  tw_format : getTxFormat (tx_type_ t) = inr type;
  tw_type : obType (tx_object t) = Some type;
  tw_obj : obj_wf (tx_object t);
  tw_fits : Forall2 fits type (obFields (tx_object t));
  tw_field : getFieldU16 (tx_object t) sfTransactionType = inr (tx_type_ t);
  tw_id : getHash sha512Half transactionID (tx_object t) = inr (tid_ t);
}.

Lemma tx_of_object_wf fs t :
  gathered 0 fs → has_dup fs = false → tx_of_object sha512Half (mkObj None fs) = inr t →
  ∃ type, tx_wf t type ∧ contents (tx_object t) = contents (mkObj None fs).
Proof.
  intros Hg Hd H. unfold tx_of_object, mbind, res_bind in H.
  destruct (getFieldU16 (mkObj None fs) sfTransactionType) as [|ty] eqn:Ety; [done|].
  destruct (getTxFormat ty) as [|type] eqn:Ef; [done|]. simpl obFields in H.
  destruct (applyTemplate type fs) as [|out] eqn:Ea; [done|].
  destruct (getHash sha512Half transactionID (mkObj (Some type) out)) as [|id] eqn:Eh; [done|]. injection H as <-.
  destruct (follows_template _ _ _ _ Hg Hd (getTxFormat_ok _ _ Ef) Ea) as (Hw & Hw' & Hf & Hc & Hs).
  exists type. split; [|done]. split; simpl; try done.
  unfold getFieldU16 in *. apply (getter_contents as_u16 0 (mkObj None fs)); done.
Qed.

(** ** The round trip *)
Lemma tx_of_object_back t type l :
  tx_wf t type → object_ok (Some type) (obFields (tx_object t)) → l = in_order (obFields (tx_object t)) →
  tx_of_object sha512Half (mkObj None l) = inr t.
Proof.
  intros [Hfmt Hty Hw Hf Hfield Hid] [Hsh Hok] ->. destruct t as [ty [mt fs] id]. simpl in *. subst mt.
  assert (Forall (λ x, present x.2 = true → field_wire x.1) fs) as Hwire by (eapply Forall_impl; [exact Hok|]; intros x Hx Hp; by apply Hx).
  destruct (in_order_spec (Some type) fs Hsh Hwire) as (Hp & Hss & Hpr & Ht).
  pose proof (proj2 Hsh) as Hn.
  assert (NoDup (codes (here fs))) as Hnh by (eapply sublist_NoDup; [exact Hn|]; apply fmap_sublist, sublist_filter).
  assert (here (in_order fs) = in_order fs) as Hhi.
  { apply filter_keeps. rewrite Forall_forall in Hpr. intros x Hx. by apply Hpr in Hx as [? _]%andb_prop. }
  assert (obj_wf (mkObj None (in_order fs))) as Hw0.
  { apply free_wf.
    - by apply (NoDup_Permutation_proper _ _ (fmap_Permutation _ _ _ Hp)).
    - rewrite Forall_forall in Hok |- *. intros x Hx. rewrite Hp in Hx. apply list_elem_of_filter in Hx as [Hpx Hx].
      destruct (Hok x Hx Hpx) as [(Hk & _) Hv]. split; [by eapply val_ok_type|done]. }
  assert (contents (mkObj None (in_order fs)) = contents (mkObj (Some type) fs)) as Hc.
  { symmetry. apply contents_perm; simpl; [done|by rewrite Hhi, Hp]. }
  destruct (required_index _ _ _ Hf (to_type _ _ (getTxFormat_ok _ _ Hfmt)) Hn) as (v & Hin & Hpv).
  assert (is_Some (contents (mkObj (Some type) fs) !! fieldCode sfTransactionType)) as Hs.
  { exists v. apply contents_lookup; [done|]. by exists sfTransactionType. }
  unfold tx_of_object. assert (getFieldU16 (mkObj None (in_order fs)) sfTransactionType = inr ty) as ->.
  { unfold getFieldU16 in *. apply (getter_contents as_u16 0 _ (mkObj (Some type) fs)); done. }
  unfold mbind, res_bind. rewrite Hfmt. simpl obFields. rewrite Ht, Hid. done.
Qed.
End Transactions.

(** ** Bytes *)
Lemma join_bytes_inr l : Forall (λ x, ∃ b, x.2.2 = inr b) l → ∃ b, join_bytes l = inr b.
Proof.
  induction 1 as [|[f [t r]] l [b Hb] _ [bs IH]]; [by exists []|]. simpl in *. subst r. rewrite IH. by eexists.
Qed.

Lemma object_bytes_inr withAll fs :
  Forall (λ x, present x.2 = true → ∃ b, value_bytes x.2 = inr b) fs → ∃ b, object_bytes withAll fs = inr b.
Proof.
  intros H. apply join_bytes_inr, Forall_forall. intros x Hx. rewrite Forall_forall in H.
  unfold getSortedFields in Hx. rewrite merge_sort_Permutation in Hx. apply list_elem_of_filter in Hx as [Hp Hx].
  apply list_elem_of_In, in_map_iff in Hx as (y & <- & Hy). apply list_elem_of_In in Hy. simpl in *. apply andb_prop in Hp as [Hp _].
  apply (H y Hy), present_type. intros E. rewrite E in Hp. done.
Qed.

(** What is left out is left out, whatever its value. *)
Lemma signing_field_free fs i f v w :
  fs !! i = Some (f, w) → signingField f = false → object_bytes false (<[i := (f, v)]> fs) = object_bytes false fs.
Proof.
  intros Hi Hs. unfold object_bytes, getSortedFields. do 2 f_equal. revert i Hi.
  induction fs as [|x fs IH]; intros [|i] Hi; simplify_eq/=.
  - rewrite !filter_cons. simpl. unfold shouldInclude. rewrite Hs, orb_false_r, !andb_false_r. done.
  - rewrite !filter_cons. by rewrite IH.
Qed.

(** ** What the formats share *)
Definition has_entry (e : SField * SOEStyle) (f : Format) : bool :=
  match getSOTemplate f with inl _ => false | inr t => bool_decide (e ∈ t) end.
Lemma signature_in_formats : forallb (has_entry (sfTxnSignature, soeOPTIONAL)) txFormats = true.
Proof. by vm_compute. Qed.

Lemma getTxFormat_signature ty t : getTxFormat ty = inr t → (sfTxnSignature, soeOPTIONAL) ∈ t.
Proof.
  unfold getTxFormat. destruct (findByType ty txFormats) as [f|] eqn:E; [|done]. intros H.
  apply findByType_in in E as [Hin _]. pose proof signature_in_formats as Hall. rewrite forallb_forall in Hall.
  apply list_elem_of_In in Hin. specialize (Hall f Hin). unfold has_entry in Hall. rewrite H in Hall.
  by apply bool_decide_eq_true in Hall.
Qed.

Lemma index_at f w (fs : Fields) i : NoDup (codes fs) → fs !! i = Some (f, w) → index_of f fs = Some i.
Proof.
  intros Hn Hi. destruct (index_of f fs) as [j|] eqn:E.
  - destruct (index_of_some _ _ _ E) as (x & Hj & Hc). f_equal.
    eapply NoDup_lookup; [exact Hn|rewrite list_lookup_fmap, Hj; reflexivity|]. rewrite list_lookup_fmap, Hi. simpl. by rewrite Hc.
  - exfalso. rewrite index_of_none in E. by apply (E (f, w)); [eapply list_elem_of_lookup_2|].
Qed.

(** Where the signature of a transaction is. *)
Lemma signature_index t fs :
  Forall2 fits t fs → (sfTxnSignature, soeOPTIONAL) ∈ t → NoDup (codes fs) →
  ∃ i w, t !! i = Some (sfTxnSignature, soeOPTIONAL) ∧ fs !! i = Some (sfTxnSignature, w) ∧ index_of sfTxnSignature fs = Some i.
Proof.
  intros Hf Hin Hn. apply list_elem_of_lookup in Hin as [i Hi]. destruct (Forall2_lookup_l _ _ _ _ _ Hf Hi) as ([g w] & Hg & Hx & _).
  simpl in Hx. subst g. exists i, w. split; [done|]. split; [done|]. by eapply index_at.
Qed.

Lemma signature_fits t fs i v :
  Forall2 fits t fs → t !! i = Some (sfTxnSignature, soeOPTIONAL) → present v = true → Forall2 fits t (<[i := (sfTxnSignature, v)]> fs).
Proof.
  intros Hf Hi Hp. rewrite <- (list_insert_id t i _ Hi). apply Forall2_insert; [done|]. split; [done|]. simpl. by rewrite Hp.
Qed.

Lemma sfTxnSignature_facts :
  field_known sfTxnSignature ∧ fieldType sfTxnSignature ≠ STI_NOTPRESENT ∧ default_value sfTxnSignature ≠ None ∧
  signingField sfTxnSignature = false ∧ field_wire sfTxnSignature.
Proof. by split_and!. Qed.

Section Transactions2.
Context (sha512Half : Blob → Blob).

(** *** Reading and writing *)
Lemma object_hash mt fs : object_ok mt fs → ∃ h, getHash sha512Half transactionID (mkObj mt fs) = inr h.
Proof.
  intros Hok. destruct (object_back_top mt fs Hok) as (bs & Eb & _). unfold getHash. simpl obFields. rewrite Eb. by eexists.
Qed.

Lemma int_length_small n : 0 ≤ n < 2 ^ 31 → int_length n = n.
Proof. intros H. unfold int_length. rewrite (Z.mod_small (n + 2 ^ 31)) by lia. rewrite Z.mod_small; lia. Qed.

Lemma tx_read_wf bs :
  size bs < 2 ^ 63 → in_base 256 bs →
  match tx_read sha512Half (serial_iter bs) with
  | None => False
  | Some (inl _) => True
  | Some (inr t) => ∃ type, tx_wf sha512Half t type
  end.
Proof.
  intros Hs Hb. assert (good (serial_iter bs)) as Hg by (split; [by apply serial_iter_ok|done]).
  pose proof (set_object_answers _ Hg) as Ha. unfold answers in Ha. unfold tx_read. destruct (_ || _); [done|].
  destruct (set_object (serial_iter bs)) as [[e|[[[] fs] it]]|] eqn:E; try done.
  destruct (set_object_gathered _ _ _ _ Hg E) as [Hgf Hd].
  destruct (tx_of_object sha512Half (mkObj None fs)) as [|t] eqn:Et; [done|].
  destruct (tx_of_object_wf _ _ _ Hgf Hd Et) as (type & Hw & _). by exists type.
Qed.

Lemma sterilize_back t type :
  tx_wf sha512Half t type → object_ok (Some type) (obFields (tx_object t)) →
  ∃ bs, object_bytes true (obFields (tx_object t)) = inr bs ∧
    (size bs < 2 ^ 31 →
     sterilize sha512Half t = Some (if (txMinSizeBytes <=? size bs) && (size bs <=? txMaxSizeBytes) then inr t else fail)).
Proof.
  intros Hw Hok. destruct (object_back_top _ _ Hok) as (bs & Eb & Hs). exists bs. split; [done|]. intros Hsz.
  unfold sterilize. rewrite Eb. unfold tx_read. assert (size bs < 2 ^ 63) as Hb by lia.
  rewrite (Hs (serial_iter bs) (serial_iter_ok bs Hb) eq_refl). change (remain_ (serial_iter bs)) with (size bs).
  rewrite int_length_small by (unfold size in *; lia).
  rewrite (tx_of_object_back _ _ _ _ Hw Hok eq_refl).
  destruct (Z.ltb_spec (size bs) txMinSizeBytes), (Z.ltb_spec txMaxSizeBytes (size bs)), (Z.leb_spec txMinSizeBytes (size bs)),
    (Z.leb_spec (size bs) txMaxSizeBytes); try lia; done.
Qed.
End Transactions2.

(** ** Signatures *)
Section Signatures.
Context (sha512Half : Blob → Blob).
Context (verify : Blob → Blob → Blob → bool → bool) (publicKeyType : Blob → bool).
Context (sign_data : Blob → Blob → Blob → Blob).

(** The signature is put in its place and nothing that is signed changes. *)
Lemma tx_sign_spec pk sk t type :
  tx_wf sha512Half t type → object_ok (Some type) (obFields (tx_object t)) →
  ∃ data, getSigningData (tx_object t) = inr data ∧
    (vl_ok (sign_data pk sk data) →
     ∃ t', tx_sign sha512Half sign_data pk sk t = inr t' ∧ tx_wf sha512Half t' type ∧ object_ok (Some type) (obFields (tx_object t')) ∧
       getSigningData (tx_object t') = inr data ∧
       contents (tx_object t') = <[fieldCode sfTxnSignature := VBlob (sign_data pk sk data)]> (contents (tx_object t))).
Proof.
  intros [Hfmt Hty Hw Hf Hfield Hid] [[_ Hn] Hok]. destruct t as [ty [mt fs] id]. cbn [tx_object tx_type_ obType obFields tid_] in *. subst mt.
  destruct (object_bytes_inr false fs) as [b Eb].
  { eapply Forall_impl; [exact Hok|]. intros x Hx Hp. destruct (Hx Hp) as [_ Hv].
    destruct (value_back x.2 1 x.1 Hv) as (bs & Hbs & _). by exists bs. }
  exists ((add32 [] txSign).2 ++ b). split; [unfold getSigningData; simpl obFields; by rewrite Eb|]. intros Hsig.
  set (data := (add32 [] txSign).2 ++ b) in *. set (v := VBlob (sign_data pk sk data)).
  destruct sfTxnSignature_facts as (Hk & Hnz & Hd & Hs & Hwire).
  destruct (signature_index type fs Hf (getTxFormat_signature _ _ Hfmt) Hn) as (i & w & Hti & Hi & Hix).
  destruct (set_field_at (mkObj (Some type) fs) sfTxnSignature v i sfTxnSignature w Hw Hk Hix Hi Hnz Hd eq_refl) as [Eset _].
  assert (object_ok (Some type) (<[i := (sfTxnSignature, v)]> fs)) as Hok'.
  { split; [split; [by apply signature_fits|]|].
    - rewrite list_fmap_insert, list_insert_id; [done|]. by rewrite list_lookup_fmap, Hi.
    - apply Forall_insert; [done|]. intros _. split; [done|]. split; [done|]. split; [lia|done]. }
  pose proof (put_fields i v (mkObj (Some type) fs) sfTxnSignature w Hi) as Ep.
  destruct (object_hash sha512Half _ _ Hok') as [h Eh].
  pose proof (put_wf i v (mkObj (Some type) fs) sfTxnSignature w Hw Hi (λ _, eq_refl)) as Hw'.
  pose proof (put_contents i v (mkObj (Some type) fs) sfTxnSignature w Hw Hi (λ _, eq_refl)) as Hc. change (present v) with true in Hc.
  assert (put i v (mkObj (Some type) fs) = mkObj (Some type) (<[i := (sfTxnSignature, v)]> fs)) as Eo by (unfold put in *; simpl in *; by rewrite Ep).
  exists (mkTx ty (mkObj (Some type) (<[i := (sfTxnSignature, v)]> fs)) h).
  assert (getSigningData (mkObj (Some type) fs) = inr data) as Edata by (unfold getSigningData; simpl obFields; by rewrite Eb).
  split.
  { unfold tx_sign. cbn [tx_object tx_type_]. rewrite Edata. unfold mbind, res_bind. fold v. rewrite Eset, Eo, Eh. done. }
  rewrite Eo in *. cbn [tx_object obFields]. split; [|split; [done|split; [|done]]].
  - split; cbn [tx_object tx_type_ obType obFields tid_]; try done; [by apply signature_fits|].
    unfold getFieldU16 in *. rewrite get_field_contents, Hc, lookup_insert_ne by done.
    destruct (required_index _ _ _ Hf (to_type _ _ (getTxFormat_ok _ _ Hfmt)) Hn) as (u & Hin & Hpu).
    assert (contents (mkObj (Some type) fs) !! fieldCode sfTransactionType = Some u) as Eu
      by (apply contents_lookup; [done|]; by exists sfTransactionType).
    rewrite get_field_contents, Eu in Hfield by done. by rewrite Eu.
  - unfold getSigningData. simpl obFields. by rewrite (signing_field_free fs i sfTxnSignature v w), Eb.
Qed.
End Signatures.

Section Checks.
Context (verify : Blob → Blob → Blob → bool → bool) (publicKeyType : Blob → bool).

(** A signature of one key over the data. *)
Definition signs (o : STObj) (data : Blob) (canonical : bool) : Prop :=
  ∃ key sig, getFieldVL o sfSigningPubKey = inr key ∧ publicKeyType key = true ∧
    getFieldVL o sfTxnSignature = inr sig ∧ verify key data sig canonical = true.

(** Signed by one key. *)
Definition signed_once (o : STObj) : Prop :=
  isFieldPresent o sfSigners = false ∧
  ∃ data, getSigningData o = inr data ∧ signs o data (fullyCanonical o).

(** Signed by several accounts: one to eight, in order, none the account of the transaction, each
    with a signature over the transaction followed by its account. *)
Definition account_lt (a b : Blob) : Prop := number 256 a < number 256 b.
Definition signed_by_many (o : STObj) : Prop :=
  isFieldPresent o sfSigners = true ∧ isFieldPresent o sfTxnSignature = false ∧
  ∃ signers accounts data txn,
    getFieldArray o sfSigners = inr signers ∧ (1 ≤ length signers ≤ 8)%nat ∧
    startMultiSigningData o = inr data ∧ getAccountID o sfAccount = inr txn ∧
    Forall2 (λ x a, getAccountID (as_object x.2) sfAccount = inr a ∧ signs (as_object x.2) (data ++ a) (fullyCanonical o)) signers accounts ∧
    StronglySorted account_lt accounts ∧ Forall (λ a, 0 < number 256 a ∧ a ≠ txn) accounts.

(** Accounts of signers are accounts. *)
Definition account_ok (a : Blob) : Prop := size a = 20 ∧ in_base 256 a.
Definition signer_accounts_ok (signers : Fields) : Prop :=
  Forall (λ x, ∀ a, getAccountID (as_object x.2) sfAccount = inr a → account_ok a) signers.

Lemma signer_valid_spec canonical data a signer :
  signer_valid verify publicKeyType canonical data a signer = true ↔ signs signer (data ++ a) canonical.
Proof.
  unfold signer_valid, signs, finishMultiSigningData, addBitString, mbind, res_bind. cbn [snd].
  destruct (getFieldVL signer sfSigningPubKey) as [|key]; [split; [done|by intros (? & ? & ? & _)]|].
  destruct (publicKeyType key) eqn:Ek.
  - destruct (getFieldVL signer sfTxnSignature) as [|sig]; [split; [done|by intros (? & ? & _ & _ & ? & _)]|]. split.
    + intros H. by exists key, sig.
    + by intros (k & s & [= <-] & _ & [= <-] & H).
  - split; [done|]. intros (k & s & [= <-] & Hk & _). congruence.
Qed.

Lemma account_lt_spec a b : account_ok a → account_ok b → account_lt a b ↔ a ≠ b ∧ ¬ number 256 b < number 256 a.
Proof.
  intros [Ha Ba] [Hb Bb]. unfold account_lt. split; [intros H; split; [|lia]; intros ->; lia|].
  intros [Hne Hle]. destruct (decide (number 256 a = number 256 b)) as [E|]; [|lia]. exfalso. apply Hne.
  apply (number_inj 256); try done; try lia. unfold size in *. lia.
Qed.

Lemma check_signers_spec canonical data txn signers : ∀ last,
  account_ok last → signer_accounts_ok signers →
  check_signers verify publicKeyType canonical data txn last signers = inr sign_ok ↔
  ∃ accounts,
    Forall2 (λ x a, getAccountID (as_object x.2) sfAccount = inr a ∧ signs (as_object x.2) (data ++ a) canonical) signers accounts ∧
    StronglySorted account_lt (last :: accounts) ∧ Forall (λ a, a ≠ txn) accounts.
Proof.
  induction signers as [|[f v] signers IH]; intros last Hl Hok.
  { simpl. split; [|done]. intros _. exists []. split; [constructor|]. split; [repeat constructor|constructor]. }
  apply Forall_cons in Hok as [Ha Hok]. cbn [snd] in Ha. cbn [check_signers]. unfold mbind at 1, res_bind at 1.
  destruct (getAccountID (as_object v) sfAccount) as [e|a] eqn:Ea.
  { split; [done|]. intros (accounts & Hf & _). inversion Hf as [|x a ? ? [Hx _]]. cbn [snd] in Hx. congruence. }
  specialize (Ha a eq_refl). pose proof (account_lt_spec last a Hl Ha) as Hlt.
  assert (∀ P : Prop, (account_lt last a ∧ a ≠ txn ∧ signs (as_object v) (data ++ a) canonical → P) →
     (∃ accounts, Forall2 (λ x a, getAccountID (as_object x.2) sfAccount = inr a ∧ signs (as_object x.2) (data ++ a) canonical) ((f, v) :: signers) accounts ∧
        StronglySorted account_lt (last :: accounts) ∧ Forall (λ a, a ≠ txn) accounts) → P) as Hhead.
  { intros P HP (accounts & Hf & Hs & Ht). apply Forall2_cons_inv_l in Hf as (b & l & [Hb Hsig] & _ & ->). cbn [snd] in *.
    rewrite Ea in Hb. injection Hb as <-. apply HP. inversion_clear Hs as [|? ? _ Hlast]. inversion_clear Hlast. by inversion_clear Ht. }
  case_bool_decide as E1; [split; [done|]; apply Hhead; naive_solver|].
  case_bool_decide as E2; [split; [done|]; apply Hhead; naive_solver|].
  destruct (Z.ltb_spec (number 256 a) (number 256 last)) as [E3|E3]; [split; [done|]; apply Hhead; intros [H%Hlt _]; lia|].
  destruct (signer_valid verify publicKeyType canonical data a (as_object v)) eqn:Ev; cbn [negb].
  2: { split; [done|]. apply Hhead. intros (_ & _ & H%signer_valid_spec). congruence. }
  apply signer_valid_spec in Ev. assert (account_lt last a) as Hla by (apply Hlt; split; [done|lia]).
  rewrite (IH a Ha Hok). split.
  - intros (accounts & Hf & Hs & Ht). exists (a :: accounts). split; [by constructor|]. split; [|by constructor].
    constructor; [done|]. constructor; [done|]. apply StronglySorted_inv in Hs as [_ Hs]. eapply Forall_impl; [exact Hs|].
    intros b. unfold account_lt in *. lia.
  - intros (accounts & Hf & Hs & Ht). apply Forall2_cons_inv_l in Hf as (b & l & [Hb _] & Hf & ->). cbn [snd] in Hb.
    rewrite Ea in Hb. injection Hb as <-. exists l. split; [done|]. split; [by apply StronglySorted_inv in Hs as [? _]|by apply Forall_cons in Ht as [_ ?]].
Qed.
End Checks.

Section Checks2.
Context (verify : Blob → Blob → Blob → bool → bool) (publicKeyType : Blob → bool).

Lemma checkSingleSign_spec o : checkSingleSign verify publicKeyType o = sign_ok ↔ signed_once verify publicKeyType o.
Proof.
  unfold checkSingleSign, signed_once, signs. destruct (isFieldPresent o sfSigners); [split; [done|by intros [? _]]|].
  unfold mbind, res_bind. destruct (getFieldVL o sfSigningPubKey) as [|key]; [split; [done|by intros (_ & ? & _ & ? & ? & ? & _)]|].
  destruct (publicKeyType key) eqn:Ek; [|split; [done|intros (_ & ? & _ & ? & ? & [= <-] & ? & _); congruence]].
  destruct (getFieldVL o sfTxnSignature) as [|sig]; [split; [done|by intros (_ & ? & _ & ? & ? & _ & _ & ? & _)]|].
  destruct (getSigningData o) as [|data]; [split; [done|by intros (_ & ? & ? & _)]|]. unfold mret, res_ret. split.
  - intros H. split; [done|]. exists data. split; [done|]. exists key, sig. by destruct (verify key data sig (fullyCanonical o)).
  - intros (_ & d & [= <-] & k & s & [= <-] & _ & [= <-] & ->). done.
Qed.

Lemma checkMultiSign_spec o :
  (∀ signers, getFieldArray o sfSigners = inr signers → signer_accounts_ok signers) →
  checkMultiSign verify publicKeyType o = inr sign_ok ↔ signed_by_many verify publicKeyType o.
Proof.
  intros Hacc. unfold checkMultiSign, signed_by_many.
  destruct (isFieldPresent o sfSigners); cbn [negb]; [|split; [done|by intros [? _]]].
  destruct (isFieldPresent o sfTxnSignature); [split; [done|by intros (_ & ? & _)]|]. unfold mbind, res_bind.
  destruct (getFieldArray o sfSigners) as [|signers] eqn:Es; [split; [done|by intros (_ & _ & ? & ? & ? & ? & ? & _)]|].
  specialize (Hacc signers eq_refl). unfold minMultiSigners, maxMultiSigners.
  destruct (Z.ltb_spec (Z.of_nat (length signers)) 1), (Z.ltb_spec 8 (Z.of_nat (length signers))); cbn [orb];
    [lia|split; [done|intros (_ & _ & ? & ? & ? & ? & [= <-] & ? & _); lia]..|].
  destruct (startMultiSigningData o) as [|data]; [split; [done|by intros (_ & _ & ? & ? & ? & ? & _ & _ & ? & _)]|].
  destruct (getAccountID o sfAccount) as [|txn]; [split; [done|by intros (_ & _ & ? & ? & ? & ? & _ & _ & _ & ? & _)]|].
  assert (account_ok (bytes160 0)) as Hzero by (split; [done|]; by apply (bool_decide_unpack _)).
  rewrite (check_signers_spec verify publicKeyType (fullyCanonical o) data txn signers (bytes160 0) Hzero Hacc). split.
  - intros (accounts & Hf & Hs & Ht). split; [done|]. split; [done|]. exists signers, accounts, data, txn.
    split; [done|]. split; [lia|]. split; [done|]. split; [done|]. split; [done|]. apply StronglySorted_inv in Hs as [Hs Hpos].
    split; [done|]. rewrite Forall_forall in *. intros a Ha. split; [by apply (Hpos a Ha)|by apply Ht].
  - intros (_ & _ & l & accounts & d & x & [= <-] & _ & [= <-] & [= <-] & Hf & Hs & Ht). exists accounts. split; [done|].
    split; [constructor; [done|]|]; (eapply Forall_impl; [exact Ht|]); intros a [Ha ?]; done.
Qed.
End Checks2.

(** ** Ledger entries *)

(** Setting a field that the template requires or allows. *)
Lemma set_fitting t o f style v :
  obType o = Some t → obj_wf o → Forall2 fits t (obFields o) → (f, style) ∈ t → style ≠ soeDEFAULT →
  field_known f → fieldType f ≠ STI_NOTPRESENT → default_value f ≠ None → getSType v = fieldType f →
  ∃ o', set_field o f v = inr o' ∧ obType o' = Some t ∧ obj_wf o' ∧ Forall2 fits t (obFields o') ∧
    contents o' = <[fieldCode f := v]> (contents o).
Proof.
  intros Ht Hw Hf Hin Hst Hk Hnz Hd Hv. apply list_elem_of_lookup in Hin as [i Hi].
  destruct (Forall2_lookup_l _ _ _ _ _ Hf Hi) as ([g w] & Hg & Hx & _). simpl in Hx. subst g.
  pose proof (index_at f w _ i (ow_codes o Hw) Hg) as Hix.
  destruct (set_field_at o f v i f w Hw Hk Hix Hg Hnz Hd Hv) as [E _]. exists (put i v o).
  assert (present v = true) as Hp by (apply present_type; by rewrite Hv).
  split; [done|]. split; [done|]. split; [by eapply put_wf|]. split.
  - rewrite (put_fields i v o f w Hg). rewrite <- (list_insert_id t i _ Hi). apply Forall2_insert; [done|]. split; [done|]. cbn [snd].
    rewrite Hp, bool_decide_eq_false_2; done.
  - by rewrite (put_contents i v o f w), Hp.
Qed.

Lemma set_template_fits t : Forall (λ e : SField * SOEStyle, field_known e.1 ∧ isBinary e.1 = true ∧ fieldCode e.1 ≠ 0) t →
  match set_template t with
  | inl _ => ∃ f style, (f, style) ∈ t ∧ default_value f = None
  | inr fs => Forall2 fits t fs ∧ Forall (λ x, present x.2 = true → getSType x.2 = fieldType x.1) fs
  end.
Proof.
  induction t as [|[f style] t IH]; intros Hall; cbn [set_template]; [split; constructor|].
  apply Forall_cons in Hall as [Hf Hall]. specialize (IH Hall). pose proof (wire_type_nonzero f Hf) as Hnz.
  case_bool_decide as Es.
  - destruct (default_value f) as [v|] eqn:Ed; [|exists f, style; split; [apply list_elem_of_here|done]].
    destruct (set_template t) as [|fs]; [destruct IH as (g & st & Hin & Hg); exists g, st; split; [by apply list_elem_of_further|done]|].
    destruct IH as [IHf IHv]. pose proof (default_type f v Ed) as Hv. assert (present v = true) as Hp by (apply present_type; by rewrite Hv).
    split; constructor; try done. split; [done|]. cbn [snd]. rewrite Hp. subst style. done.
  - destruct (set_template t) as [|fs]; [destruct IH as (g & st & Hin & Hg); exists g, st; split; [by apply list_elem_of_further|done]|].
    destruct IH as [IHf IHv]. split; constructor; try done.
Qed.

(** An entry that follows the format of its type. *)
Record entry_wf (e : STLedgerEntry) (f : Format) (t : SOTemplate) : Prop := {
  ew_format : findByType (le_type e) ledgerFormats = Some f;
  ew_template : getSOTemplate f = inr t;
  ew_type : obType (le_object e) = Some t;
  ew_obj : obj_wf (le_object e);
  ew_fits : Forall2 fits t (obFields (le_object e));
  ew_field : getFieldU16 (le_object e) sfLedgerEntryType = inr (le_type e);
}.

(** The default values and the thread of every format. *)
Definition defaults_ok (f : Format) : bool :=
  match getSOTemplate f with inl _ => false | inr t => forallb (λ e, bool_decide (default_value e.1 ≠ None)) t end.
Definition threads_ok (f : Format) : bool :=
  match getSOTemplate f with
  | inl _ => false
  | inr t => if existsb (λ e, same_field e.1 sfPreviousTxnID) t
             then bool_decide ((sfPreviousTxnID, soeREQUIRED) ∈ t) && bool_decide ((sfPreviousTxnLgrSeq, soeREQUIRED) ∈ t) else true
  end.
Lemma ledger_defaults : forallb defaults_ok ledgerFormats = true.
Proof. by vm_compute. Qed.
Lemma ledger_threads : forallb threads_ok ledgerFormats = true.
Proof. by vm_compute. Qed.

Lemma entry_new_wf key type f :
  0 ≤ type ≤ 65535 → findByType type ledgerFormats = Some f →
  ∃ t e, entry_new key type = inr e ∧ entry_wf e f t ∧ le_key e = key ∧ le_type e = type.
Proof.
  intros Hr Hf. destruct (format_template _ _ _ _ ledger_formats_ok Hf) as (t & Et & Hok & _). exists t.
  unfold entry_new. replace ((0 <=? type) && (type <=? 65535)) with true by (symmetry; apply andb_true_iff; lia). cbn [negb].
  rewrite Hf, Et. unfold mbind, res_bind. pose proof (set_template_fits t (to_known _ _ Hok)) as Hs.
  destruct (set_template t) as [|fs].
  - exfalso. destruct Hs as (g & st & Hin & Hg). pose proof ledger_defaults as Hall. rewrite forallb_forall in Hall.
    apply findByType_in in Hf as [Hff _]. apply list_elem_of_In in Hff. specialize (Hall f Hff). unfold defaults_ok in Hall. rewrite Et in Hall.
    rewrite forallb_forall in Hall. apply list_elem_of_In in Hin. specialize (Hall _ Hin). by apply bool_decide_eq_true in Hall.
  - destruct Hs as [Hfi Hv]. assert (obj_wf (mkObj (Some t) fs)) as Hw by (by eapply fits_wf).
    destruct (set_fitting t (mkObj (Some t) fs) sfLedgerEntryType soeREQUIRED (VUInt16 type)) as (o & Eo & Hty & Hwo & Hfo & Hc);
      try done; [exact (to_type _ _ Hok)|].
    rewrite Eo. eexists. split; [done|]. split; [|done]. split; cbn [le_type le_object]; try done.
    unfold getFieldU16. rewrite get_field_contents, Hc, lookup_insert_eq by done. done.
Qed.

Lemma setSLEType_wf key fs e :
  gathered 0 fs → has_dup fs = false → setSLEType key (mkObj None fs) = inr e →
  ∃ f t, entry_wf e f t ∧ le_key e = key ∧ contents (le_object e) = contents (mkObj None fs).
Proof.
  intros Hg Hd H. unfold setSLEType, mbind, res_bind in H.
  destruct (getFieldU16 (mkObj None fs) sfLedgerEntryType) as [|ty] eqn:Ety; [done|].
  destruct (findByType ty ledgerFormats) as [f|] eqn:Ef; [|done].
  destruct (format_template _ _ _ _ ledger_formats_ok Ef) as (t & Et & Hok & Hft). rewrite Et in H. simpl obFields in H.
  destruct (applyTemplate t fs) as [|out] eqn:Ea; [done|]. injection H as <-.
  destruct (follows_template _ _ _ _ Hg Hd Hok Ea) as (Hw & Hw' & Hf & Hc & Hs).
  exists f, t. split; [|done]. split; cbn [le_type le_object]; rewrite ?Hft; try done.
  unfold getFieldU16 in *. by apply (getter_contents as_u16 0 (mkObj None fs)).
Qed.

(** Threading: an entry whose format has the fields of the thread. *)
Lemma index_of_template f (t : SOTemplate) : is_Some (index_of f t) ↔ existsb (λ e, same_field e.1 f) t = true.
Proof.
  induction t as [|e t IH]; simpl; [split; [by intros [? ?]|done]|]. destruct (same_field e.1 f); [split; [done|by eexists]|].
  by rewrite <- IH, fmap_is_Some.
Qed.

Lemma required_value {A} t o f (cast : STVal → option A) empty :
  obType o = Some t → obj_wf o → Forall2 fits t (obFields o) → (f, soeREQUIRED) ∈ t → field_known f →
  (∀ v, getSType v = fieldType f → is_Some (cast v)) →
  ∃ v a, contents o !! fieldCode f = Some v ∧ cast v = Some a ∧ get_field cast empty o f = inr a.
Proof.
  intros Ht Hw Hf Hin Hk Hc. destruct (required_index _ _ _ Hf Hin (ow_codes o Hw)) as (v & Hv & Hp).
  assert (contents o !! fieldCode f = Some v) as E by (apply contents_lookup; [done|]; by exists f).
  destruct (Hc v) as [a Ha].
  { pose proof (ow_values o Hw) as H. rewrite Forall_forall in H. by apply (H (f, v)). }
  exists v, a. split; [done|]. split; [done|]. by rewrite get_field_contents, E, Ha.
Qed.

Lemma cast_h256 v : getSType v = STI_HASH256 → is_Some (as_h256 v).
Proof. by destruct v. Qed.
Lemma cast_u32 v : getSType v = STI_UINT32 → is_Some (as_u32 v).
Proof. by destruct v. Qed.

Lemma thread_plain e f t txID seq :
  entry_wf e f t → isThreadedType e = false → thread txID seq e = Some fail.
Proof.
  intros [Hf Et Hty Hw Hfi Hfield]. unfold isThreadedType, thread, getFieldH256, get_field, peekAtPField. intros H.
  apply bool_decide_eq_false in H. destruct (getFieldIndex (le_object e) sfPreviousTxnID); [|done]. exfalso. apply H. by eexists.
Qed.

Lemma thread_fields e f t :
  entry_wf e f t → isThreadedType e = true → (sfPreviousTxnID, soeREQUIRED) ∈ t ∧ (sfPreviousTxnLgrSeq, soeREQUIRED) ∈ t.
Proof.
  intros [Hf Et Hty Hw Hfi Hfield] Hth. unfold isThreadedType in Hth. apply bool_decide_eq_true in Hth.
  pose proof ledger_threads as Hall. rewrite forallb_forall in Hall. pose proof Hf as Hin. apply findByType_in in Hin as [Hin _].
  apply list_elem_of_In in Hin. specialize (Hall f Hin). unfold threads_ok in Hall. rewrite Et in Hall.
  unfold getFieldIndex in Hth. rewrite Hty in Hth. apply index_of_template in Hth. rewrite Hth in Hall.
  by apply andb_true_iff in Hall as [?%bool_decide_eq_true ?%bool_decide_eq_true].
Qed.

Lemma thread_spec e f t txID seq :
  entry_wf e f t → isThreadedType e = true →
  ∃ prev prevSeq, getFieldH256 (le_object e) sfPreviousTxnID = inr prev ∧ getFieldU32 (le_object e) sfPreviousTxnLgrSeq = inr prevSeq ∧
    if bool_decide (prev = txID) then thread txID seq e = if prevSeq =? seq then Some (inr (false, None, e)) else None
    else ∃ e', thread txID seq e = Some (inr (true, Some (prev, prevSeq), e')) ∧ entry_wf e' f t ∧ le_key e' = le_key e ∧
      contents (le_object e') = <[fieldCode sfPreviousTxnLgrSeq := VUInt32 seq]> (<[fieldCode sfPreviousTxnID := VHash256 txID]> (contents (le_object e))).
Proof.
  intros Hwf Hth. destruct (thread_fields e f t Hwf Hth) as [Hp Hs]. destruct Hwf as [Hf Et Hty Hw Hfi Hfield].
  destruct (required_value t (le_object e) sfPreviousTxnID as_h256 (replicate 32 0)) as (v & prev & _ & _ & Eg); try done; [exact cast_h256|].
  destruct (required_value t (le_object e) sfPreviousTxnLgrSeq as_u32 0) as (v' & prevSeq & _ & _ & Eg'); try done; [exact cast_u32|].
  exists prev, prevSeq. split; [done|]. split; [done|]. unfold thread, thread_new, getFieldH256, getFieldU32. rewrite Eg, Eg'. unfold mbind, res_bind.
  case_bool_decide; [done|].
  destruct (set_fitting t (le_object e) sfPreviousTxnID soeREQUIRED (VHash256 txID)) as (o & -> & Ht1 & Hw1 & Hf1 & Hc1); try done.
  destruct (set_fitting t o sfPreviousTxnLgrSeq soeREQUIRED (VUInt32 seq)) as (o' & -> & Ht2 & Hw2 & Hf2 & Hc2); try done.
  eexists. split; [done|]. split; [|split; [done|by rewrite <- Hc1]]. split; cbn [le_type le_object]; try done.
  unfold getFieldU16 in *. rewrite get_field_contents, Hc2, Hc1, !lookup_insert_ne by done.
  destruct (format_template _ _ _ _ ledger_formats_ok Hf) as (t' & Et' & Hok & _). rewrite Et in Et'. injection Et' as <-.
  destruct (required_index _ _ _ Hfi (to_type _ _ Hok) (ow_codes _ Hw)) as (u & Hin & Hpu).
  assert (contents (le_object e) !! fieldCode sfLedgerEntryType = Some u) as Eu by (apply contents_lookup; [done|]; by exists sfLedgerEntryType).
  rewrite get_field_contents, Eu in Hfield by done. by rewrite Eu.
Qed.

(** Threading once and again. *)
Lemma thread_twice e f t txID seq :
  entry_wf e f t → isThreadedType e = true →
  ∃ prev prevSeq e', getFieldH256 (le_object e) sfPreviousTxnID = inr prev ∧ getFieldU32 (le_object e) sfPreviousTxnLgrSeq = inr prevSeq ∧
    thread txID seq e = (if bool_decide (prev = txID) then if prevSeq =? seq then Some (inr (false, None, e)) else None
                         else Some (inr (true, Some (prev, prevSeq), e'))) ∧
    entry_wf e' f t ∧ le_key e' = le_key e ∧
    contents (le_object e') = <[fieldCode sfPreviousTxnLgrSeq := VUInt32 (if bool_decide (prev = txID) then prevSeq else seq)]>
                                (<[fieldCode sfPreviousTxnID := VHash256 txID]> (contents (le_object e))) ∧
    (prev ≠ txID ∨ prevSeq = seq → thread txID seq e' = Some (inr (false, None, e'))).
Proof.
  intros Hw Ht. destruct (thread_spec e f t txID seq Hw Ht) as (prev & prevSeq & Ep & Es & H). exists prev, prevSeq.
  pose proof (ew_obj _ _ _ Hw) as Ho. case_bool_decide as E.
  - exists e. split_and!; try done. subst prev. unfold getFieldH256, getFieldU32 in *.
    destruct (thread_fields e f t Hw Ht) as [Hp Hs].
    destruct (required_value t (le_object e) sfPreviousTxnID as_h256 (replicate 32 0)) as (v & a & Hv & Ha & Eg); try done;
      [exact (ew_type _ _ _ Hw)|exact (ew_fits _ _ _ Hw)|exact cast_h256|].
    destruct (required_value t (le_object e) sfPreviousTxnLgrSeq as_u32 0) as (v' & a' & Hv' & Ha' & Eg'); try done;
      [exact (ew_type _ _ _ Hw)|exact (ew_fits _ _ _ Hw)|exact cast_u32|].
    rewrite Eg in Ep. rewrite Eg' in Es. injection Ep as ->. injection Es as ->.
    destruct v; try done. injection Ha as ->. destruct v'; try done. injection Ha' as ->.
    + rewrite (insert_id (contents _) _ _ Hv). by rewrite insert_id.
    + intros [Hne| ->]; [done|]. rewrite H. by rewrite Z.eqb_refl.
  - destruct H as (e' & Eth & Hw' & Hk & Hc). exists e'. split_and!; try done.
    intros _. unfold thread, getFieldH256, getFieldU32. rewrite !get_field_contents, Hc, lookup_insert_ne, !lookup_insert_eq by (done || apply Hw').
    simpl. by rewrite bool_decide_eq_true_2, Z.eqb_refl.
Qed.

(** ** Theorems *)

(** A transaction built from fields as they are on the wire is one that can be written. *)
Lemma tx_of_object_ok sha512Half fs t type :
  gathered 0 fs → Forall (λ x, field_wire x.1 ∧ val_ok 1 x.1 x.2) fs →
  tx_of_object sha512Half (mkObj None fs) = inr t → tx_wf sha512Half t type → object_ok (Some type) (obFields (tx_object t)).
Proof.
  intros Hg Hv H Hw. unfold tx_of_object, mbind, res_bind in H.
  destruct (getFieldU16 (mkObj None fs) sfTransactionType) as [|ty]; [done|].
  destruct (getTxFormat ty) as [|type']; [done|]. simpl obFields in H. destruct (applyTemplate type' fs) as [|out] eqn:Ea; [done|].
  destruct (getHash sha512Half transactionID (mkObj (Some type') out)) as [|id]; [done|]. injection H as <-.
  pose proof (template_keeps 0 type' fs out Hg Ea) as Hk.
  split; [split; [exact (tw_fits _ _ _ Hw)|exact (ow_codes _ (tw_obj _ _ _ Hw))]|]. cbn [tx_object obFields].
  apply Forall_forall. intros x Hx Hp. rewrite Forall_forall in Hv. apply Hv. rewrite <- Hk. by apply list_elem_of_filter.
Qed.

(** C20: Transactions on the wire.  On any bytes the reader of transactions ends, with an exception or
    with a transaction that follows the format of its type and has the identifier of its bytes; and a
    well-formed transaction of 32 bytes to one megabyte is written as bytes from which the same
    transaction is read, of another size as bytes that are refused. *)
Theorem tx_wire sha512Half :
  (∀ bs, size bs < 2 ^ 63 → in_base 256 bs →
     (∃ e, tx_read sha512Half (serial_iter bs) = Some (inl e)) ∨
     (∃ t type, tx_read sha512Half (serial_iter bs) = Some (inr t) ∧ tx_wf sha512Half t type)) ∧
  (∀ t type, tx_wf sha512Half t type → object_ok (Some type) (obFields (tx_object t)) →
     ∃ bs, object_bytes true (obFields (tx_object t)) = inr bs ∧
       (size bs < 2 ^ 31 →
        sterilize sha512Half t = Some (if (txMinSizeBytes <=? size bs) && (size bs <=? txMaxSizeBytes) then inr t else fail))).
Proof.
  split; [|by apply sterilize_back]. intros bs Hs Hb. pose proof (tx_read_wf sha512Half bs Hs Hb) as H.
  destruct (tx_read sha512Half (serial_iter bs)) as [[e|t]|]; [left; by exists e| |done]. right. destruct H as [type H]. by exists t, type.
Qed.

(** An account's settings, signed. *)
Definition toy_hash (b : Blob) : Blob := take 32 (reverse b ++ replicate 32 7).
Definition toy_key : Blob := 2 :: replicate 32 9.
Definition sample_fields : Fields :=
  [ (fld "TransactionType", VUInt16 3); (fld "Sequence", VUInt32 7); (fld "Fee", VAmount (drops 10));
    (fld "SigningPubKey", VBlob toy_key); (fld "Account", VAccount (replicate 20 5) false) ].
Definition sample_tx : STTx :=
  match tx_of_object toy_hash (mkObj None sample_fields) with inr t => t | inl _ => mkTx 0 (mkObj None []) [] end.

Lemma sample_gathered :
  gathered 0 sample_fields ∧ has_dup sample_fields = false ∧ Forall (λ x, field_wire x.1 ∧ val_ok 1 x.1 x.2) sample_fields.
Proof.
  split; [|split; [by vm_compute|]]; repeat (apply Forall_cons; split); try (by apply Forall_nil); repeat split; try done.
  left. by repeat split.
Qed.
Lemma sample_built : tx_of_object toy_hash (mkObj None sample_fields) = inr sample_tx.
Proof. by vm_compute. Qed.
Lemma sample_wf : ∃ type, tx_wf toy_hash sample_tx type ∧ object_ok (Some type) (obFields (tx_object sample_tx)).
Proof.
  destruct sample_gathered as (Hg & Hd & Hv). destruct (tx_of_object_wf _ _ _ Hg Hd sample_built) as (type & Hw & _).
  exists type. split; [done|]. exact (tx_of_object_ok _ _ _ _ Hg Hv sample_built Hw).
Qed.

Lemma tx_wire_witness :
  sterilize toy_hash sample_tx = Some (inr sample_tx) ∧
  ∃ t type, tx_read toy_hash (serial_iter [18; 0; 3; 36; 0; 0; 0; 7; 104; 64; 0; 0; 0; 0; 0; 0; 10; 115; 0; 129; 20; 5; 5; 5; 5; 5; 5; 5; 5; 5; 5; 5; 5; 5; 5; 5; 5; 5; 5; 5; 5])
    = Some (inr t) ∧ tx_wf toy_hash t type.
Proof.
  destruct (tx_wire toy_hash) as [Hread Hback]. split.
  - destruct sample_wf as (type & Hw & Hok). destruct (Hback _ _ Hw Hok) as (bs & Eb & Hs).
    vm_compute in Eb. injection Eb as <-. exact (Hs eq_refl).
  - destruct (Hread [18; 0; 3; 36; 0; 0; 0; 7; 104; 64; 0; 0; 0; 0; 0; 0; 10; 115; 0; 129; 20; 5; 5; 5; 5; 5; 5; 5; 5; 5; 5; 5; 5; 5; 5; 5; 5; 5; 5; 5; 5]) as [[e H]|H].
    + vm_compute. reflexivity.
    + apply (bool_decide_unpack _). vm_compute. exact I.
    + exfalso. vm_compute in H. discriminate H.
    + exact H.
Defined.

(** C21: Signing.  Signing a well-formed transaction puts the signature of its signing data in it and
    changes nothing else but the identifier, which is that of the new bytes; the signing data is
    the same, and where the scheme accepts its own signatures a transaction with the signer's key
    and no signers passes the check. *)
Theorem tx_signing sha512Half verify publicKeyType sign_data pk sk t type :
  (∀ data canonical, verify pk data (sign_data pk sk data) canonical = true) →
  (∀ data, vl_ok (sign_data pk sk data)) →
  tx_wf sha512Half t type → object_ok (Some type) (obFields (tx_object t)) →
  ∃ data t', getSigningData (tx_object t) = inr data ∧ tx_sign sha512Half sign_data pk sk t = inr t' ∧
    tx_wf sha512Half t' type ∧ object_ok (Some type) (obFields (tx_object t')) ∧
    getSigningData (tx_object t') = inr data ∧ getSignature t' = sign_data pk sk data ∧
    contents (tx_object t') = <[fieldCode sfTxnSignature := VBlob (sign_data pk sk data)]> (contents (tx_object t)) ∧
    (publicKeyType pk = true → pk ≠ [] → getFieldVL (tx_object t) sfSigningPubKey = inr pk → isFieldPresent (tx_object t) sfSigners = false →
     ∀ allowMultiSign, checkSign verify publicKeyType t' allowMultiSign = sign_ok).
Proof.
  intros Hver Hvl Hw Hok. destruct (tx_sign_spec sha512Half sign_data pk sk t type Hw Hok) as (data & Ed & H).
  destruct (H (Hvl data)) as (t' & Es & Hw' & Hok' & Ed' & Hc). exists data, t'. do 5 (split; [done|]).
  pose proof (tw_obj _ _ _ Hw) as Ho. pose proof (tw_obj _ _ _ Hw') as Ho'.
  assert (getFieldVL (tx_object t') sfTxnSignature = inr (sign_data pk sk data)) as Hsig.
  { unfold getFieldVL. by rewrite get_field_contents, Hc, lookup_insert_eq. }
  split; [unfold getSignature; by rewrite Hsig|]. split; [done|]. intros Hpk Hne Hkey Hsg allow.
  assert (getFieldVL (tx_object t') sfSigningPubKey = inr pk) as Hkey'.
  { unfold getFieldVL in *. rewrite get_field_contents in Hkey |- * by done. rewrite Hc, lookup_insert_ne by done.
    destruct (contents (tx_object t) !! fieldCode sfSigningPubKey) as [v|]; [done|].
    by destruct (index_of sfSigningPubKey (obFields (tx_object t))); [injection Hkey as <-|]. }
  assert (checkSingleSign verify publicKeyType (tx_object t') = sign_ok) as Hsingle.
  { apply checkSingleSign_spec. split; [|by exists data; split; [|by exists pk, (sign_data pk sk data)]].
    rewrite isFieldPresent_contents in Hsg |- * by done. by rewrite Hc, lookup_insert_ne. }
  unfold checkSign, mbind, res_bind. rewrite Hkey', Hsingle. by destruct allow, pk.
Qed.

Definition toy_sign (pk sk data : Blob) : Blob := sk ++ take 8 data.
Definition toy_verify (pk data sig : Blob) (canonical : bool) : bool := bool_decide (sig = toy_sign pk pk data).
Definition toy_keyType (key : Blob) : bool := bool_decide (length key = 33%nat).

Lemma tx_signing_witness :
  ∃ t', tx_sign toy_hash toy_sign toy_key toy_key sample_tx = inr t' ∧ checkSign toy_verify toy_keyType t' true = sign_ok ∧
    tid_ t' ≠ tid_ sample_tx.
Proof.
  destruct sample_wf as (type & Hw & Hok).
  destruct (tx_signing toy_hash toy_verify toy_keyType toy_sign toy_key toy_key sample_tx type) as (data & t' & _ & Es & _ & _ & _ & _ & _ & Hc).
  - intros data canonical. unfold toy_verify. apply bool_decide_eq_true_2. reflexivity.
  - intros data. unfold vl_ok, size, toy_sign. rewrite length_app, length_take. change (length toy_key) with 33%nat. lia.
  - exact Hw.
  - exact Hok.
  - exists t'. split; [exact Es|]. split.
    + apply Hc; [reflexivity|discriminate|reflexivity|reflexivity].
    + vm_compute in Es. injection Es as <-. vm_compute. discriminate.
Defined.

(** C22: Signatures.  A transaction passes the check exactly when it is signed once - no signers, and
    a signature by its key of what is signed - or, where several signers are allowed and its key
    is empty, by one to eight accounts in strict order, none zero and none that of the transaction,
    each with a signature by its key of the transaction followed by its account. *)
Theorem signatures_checked verify publicKeyType t :
  let o := tx_object t in
  (∀ signers, getFieldArray o sfSigners = inr signers → signer_accounts_ok signers) →
  (checkSign verify publicKeyType t false = sign_ok ↔ signed_once verify publicKeyType o) ∧
  (checkSign verify publicKeyType t true = sign_ok ↔
   ∃ key, getFieldVL o sfSigningPubKey = inr key ∧
     if is_empty key then signed_by_many verify publicKeyType o else signed_once verify publicKeyType o).
Proof.
  intros o Hacc. unfold checkSign. fold o. split; [apply checkSingleSign_spec|]. unfold mbind, res_bind.
  destruct (getFieldVL o sfSigningPubKey) as [|key]; [split; [done|by intros (? & ? & _)]|].
  transitivity (if is_empty key then signed_by_many verify publicKeyType o else signed_once verify publicKeyType o).
  - destruct (is_empty key); [|apply checkSingleSign_spec]. rewrite <- checkMultiSign_spec by done.
    destruct (checkMultiSign verify publicKeyType o); split; try done; by intros [= ->].
  - split; [intros H; by exists key|by intros (? & [= <-] & ?)].
Qed.

(** The settings, signed by two accounts. *)
Definition many_data (key : Blob) (o : STObj) (a : Blob) : Blob :=
  match startMultiSigningData o with inr d => toy_sign key key (d ++ a) | inl _ => [] end.
Definition many_fields : Fields :=
  [ (fld "TransactionType", VUInt16 3); (fld "Sequence", VUInt32 7); (fld "Fee", VAmount (drops 10));
    (fld "SigningPubKey", VBlob []); (fld "Account", VAccount (replicate 20 5) false) ].
Definition signer (a : Z) : SField * STVal :=
  (sfSigner, VObject (findSOTemplateBySField sfSigner)
    [ (sfAccount, VAccount (replicate 20 a) false); (sfSigningPubKey, VBlob toy_key);
      (sfTxnSignature, VBlob (many_data toy_key (mkObj None many_fields) (replicate 20 a))) ]).
Definition many_tx (accounts : list Z) : STTx :=
  mkTx 3 (mkObj None (many_fields ++ [(sfSigners, VArray (signer <$> accounts))])) [].

Lemma signatures_checked_witness :
  (checkSign toy_verify toy_keyType (many_tx [3; 4]) true = sign_ok ∧ signed_by_many toy_verify toy_keyType (tx_object (many_tx [3; 4]))) ∧
  ¬ signed_by_many toy_verify toy_keyType (tx_object (many_tx [4; 3])).
Proof.
  split.
  - assert (checkSign toy_verify toy_keyType (many_tx [3; 4]) true = sign_ok) as E by (vm_compute; reflexivity).
    split; [exact E|]. destruct (signatures_checked toy_verify toy_keyType (many_tx [3; 4])) as [_ [H _]].
    + intros signers Es. vm_compute in Es. injection Es as <-. repeat (apply Forall_cons; split); try (apply Forall_nil; exact I);
        intros a Ea; vm_compute in Ea; injection Ea as <-; (split; [reflexivity|apply (bool_decide_unpack _); vm_compute; exact I]).
    + destruct (H E) as (key & Hk & Hm). vm_compute in Hk. injection Hk as <-. exact Hm.
  - intros Hm. destruct (signatures_checked toy_verify toy_keyType (many_tx [4; 3])) as [_ [_ H]].
    + intros signers Es. vm_compute in Es. injection Es as <-. repeat (apply Forall_cons; split); try (apply Forall_nil; exact I);
        intros a Ea; vm_compute in Ea; injection Ea as <-; (split; [reflexivity|apply (bool_decide_unpack _); vm_compute; exact I]).
    + assert (checkSign toy_verify toy_keyType (many_tx [4; 3]) true = sign_ok) as E.
      { apply H. exists []. split; [reflexivity|exact Hm]. }
      vm_compute in E. discriminate E.
Defined.

(** C23: Ledger entries.  A new entry of a type that has a format follows it, and on any bytes the
    reader of entries ends, with an exception or with one that follows the format of its type.  Threading
    an entry whose format has a thread gives the previous transaction and leaves the new one in the
    entry and nothing else changed, and again with the same transaction and ledger changes nothing; a
    transaction that is there already with another ledger fails the assertion; an entry
    of another format cannot be threaded. *)
Theorem ledger_entries key :
  (∀ type f, 0 ≤ type ≤ 65535 → findByType type ledgerFormats = Some f →
     ∃ t e, entry_new key type = inr e ∧ entry_wf e f t ∧ le_key e = key ∧ le_type e = type) ∧
  (∀ bs, size bs < 2 ^ 63 → in_base 256 bs →
     (∃ x, entry_read key (serial_iter bs) = Some (inl x)) ∨
     (∃ e f t, entry_read key (serial_iter bs) = Some (inr e) ∧ entry_wf e f t ∧ le_key e = key)) ∧
  (∀ e f t txID seq, entry_wf e f t →
     if isThreadedType e
     then ∃ prev prevSeq e', getFieldH256 (le_object e) sfPreviousTxnID = inr prev ∧ getFieldU32 (le_object e) sfPreviousTxnLgrSeq = inr prevSeq ∧
       thread txID seq e = (if bool_decide (prev = txID) then if prevSeq =? seq then Some (inr (false, None, e)) else None
                            else Some (inr (true, Some (prev, prevSeq), e'))) ∧
       entry_wf e' f t ∧ le_key e' = le_key e ∧
       contents (le_object e') = <[fieldCode sfPreviousTxnLgrSeq := VUInt32 (if bool_decide (prev = txID) then prevSeq else seq)]>
                                   (<[fieldCode sfPreviousTxnID := VHash256 txID]> (contents (le_object e))) ∧
       (prev ≠ txID ∨ prevSeq = seq → thread txID seq e' = Some (inr (false, None, e')))
     else thread txID seq e = Some fail).
Proof.
  split_and!.
  - intros type f Hr Hf. by apply entry_new_wf.
  - intros bs Hs Hb. assert (good (serial_iter bs)) as Hg by (split; [by apply serial_iter_ok|done]).
    pose proof (set_object_answers _ Hg) as Ha. unfold answers in Ha. unfold entry_read.
    destruct (set_object (serial_iter bs)) as [[x|[[b fs] it]]|] eqn:E; [left; by exists x| |done].
    destruct (setSLEType key (mkObj None fs)) as [x|e] eqn:Ee; [left; by exists x|right].
    destruct (set_object_gathered _ _ _ _ Hg E) as [Hgf Hd]. destruct (setSLEType_wf key fs e Hgf Hd Ee) as (f & t & Hw & Hk & _).
    by exists e, f, t.
  - intros e f t txID seq Hw. destruct (isThreadedType e) eqn:Et; [|by eapply thread_plain]. by apply thread_twice.
Qed.

(** A new account root, threaded twice. *)
Lemma ledger_entries_witness :
  ∃ f t e prevSeq e', entry_new (replicate 32 1) ltACCOUNT_ROOT = inr e ∧ entry_wf e f t ∧
    thread (replicate 32 8) 5 e = Some (inr (true, Some (replicate 32 0, prevSeq), e')) ∧
    thread (replicate 32 8) 5 e' = Some (inr (false, None, e')).
Proof.
  destruct (ledger_entries (replicate 32 1)) as (Hnew & _ & Hthread).
  destruct (findByType ltACCOUNT_ROOT ledgerFormats) as [f|] eqn:Ef; [|vm_compute in Ef; discriminate Ef].
  destruct (Hnew ltACCOUNT_ROOT f) as (t & e & Ee & Hw & _); [unfold ltACCOUNT_ROOT; lia|exact Ef|].
  pose proof (Hthread e f t (replicate 32 8) 5 Hw) as H.
  assert (isThreadedType e = true ∧ getFieldH256 (le_object e) sfPreviousTxnID = inr (replicate 32 0)) as [Et Ep].
  { vm_compute in Ee. injection Ee as <-. split; vm_compute; reflexivity. }
  rewrite Et in H. destruct H as (prev & prevSeq & e' & Hp & _ & H1 & _ & _ & _ & H2). rewrite Ep in Hp. injection Hp as <-.
  exists f, t, e, prevSeq, e'. split; [exact Ee|]. split; [exact Hw|]. split; [exact H1|]. apply H2. left. discriminate.
Defined.
