(* ===== verification/Fees.v ===== *)
(** * Fees

    src/src/ripple/app/misc/impl/LoadFeeTrack.cpp: the fees a server asks for under load, and
    [TxQ::FeeMetrics] of src/src/ripple/app/misc/impl/TxQ.cpp: the expected size of a ledger and
    the level of fee that puts a transaction into the open one.

    An exception is the fault [thrown]; a failed assertion, a division by zero or a read
    through an invalid iterator is the fault [misuse]. *)

From stdpp Require Import prelude list sorting.
From Stdlib Require Import ZArith Lia.
From S2P Require Import Prelude.

#[local] Open Scope Z_scope.

Inductive fault := thrown | misuse.
Definition Outcome (A : Type) : Type := fault + A.
#[export] Instance outcome_ret : MRet Outcome := λ A a, inr a.
#[export] Instance outcome_bind : MBind Outcome := λ A B f m, match m with inl e => inl e | inr a => f a end.
Definition throws {A} : Outcome A := inl thrown.
Definition misused {A} : Outcome A := inl misuse.
Definition assert_ (b : bool) : Outcome () := if b then mret () else misused.

Definition max64 : Z := 2 ^ 64 - 1.

(** [mulDiv]: a division by zero throws. *)
Definition mulDiv (value mul div : Z) : Outcome (bool * Z) :=
  if div =? 0 then throws
  else let result := value * mul / div in
       mret (if max64 <? result then (false, max64) else (true, result)).

(** ** Load *)
Record LoadFeeTrack := mkTrack {
  localTxnLoadFee_ : Z; remoteTxnLoadFee_ : Z; clusterTxnLoadFee_ : Z; raiseCount_ : Z
}.
Definition lftNormalFee : Z := 256.
Definition lftFeeIncFraction : Z := 4.
Definition lftFeeMax : Z := 256 * 1000000.

Definition new_track : LoadFeeTrack := mkTrack lftNormalFee lftNormalFee lftNormalFee 0.
Definition setRemoteFee (f : Z) (t : LoadFeeTrack) : LoadFeeTrack :=
  mkTrack (localTxnLoadFee_ t) f (clusterTxnLoadFee_ t) (raiseCount_ t).
Definition getLoadFactor (t : LoadFeeTrack) : Z :=
  Z.max (Z.max (clusterTxnLoadFee_ t) (localTxnLoadFee_ t)) (remoteTxnLoadFee_ t).
Definition getScalingFactors (t : LoadFeeTrack) : Z * Z :=
  (Z.max (localTxnLoadFee_ t) (remoteTxnLoadFee_ t), Z.max (remoteTxnLoadFee_ t) (clusterTxnLoadFee_ t)).
Definition isLoadedLocal (t : LoadFeeTrack) : bool :=
  negb (raiseCount_ t =? 0) || negb (localTxnLoadFee_ t =? lftNormalFee).
Definition isLoadedCluster (t : LoadFeeTrack) : bool :=
  negb (raiseCount_ t =? 0) || negb (localTxnLoadFee_ t =? lftNormalFee) || negb (clusterTxnLoadFee_ t =? lftNormalFee).

Definition raiseLocalFee (t : LoadFeeTrack) : bool * LoadFeeTrack :=
  let count := u32 (raiseCount_ t + 1) in
  if count <? 2 then (false, mkTrack (localTxnLoadFee_ t) (remoteTxnLoadFee_ t) (clusterTxnLoadFee_ t) count)
  else
    let origFee := localTxnLoadFee_ t in
    let local := if origFee <? remoteTxnLoadFee_ t then remoteTxnLoadFee_ t else origFee in
    let local := u32 (local + local / lftFeeIncFraction) in
    let local := if lftFeeMax <? local then lftFeeMax else local in
    (negb (origFee =? local), mkTrack local (remoteTxnLoadFee_ t) (clusterTxnLoadFee_ t) count).

(** [lowestTerms]: the loop of Euclid; two rounds halve the divisor. *)
Fixpoint euclid (fuel : nat) (x y : Z) : Z :=
  match fuel with
  | O => x
  | S fuel => if y =? 0 then x else euclid fuel y (x mod y)
  end.
Definition lowestTerms (a b : Z) : Z * Z :=
  if (a =? 0) && (b =? 0) then (a, b)
  else let x := euclid 129 a b in (a / x, b / x).

(** [Fees], of a ledger *)
Record Fees := mkFees { base : Z; units : Z }.
Definition swap_up (fee baseFee : Z) : Z * Z := if fee <? baseFee then (baseFee, fee) else (fee, baseFee).
Definition div64 (a b : Z) : Outcome Z := if b =? 0 then misused else mret (a / b).

Definition scaleFeeLoad (fee : Z) (feeTrack : LoadFeeTrack) (fees : Fees) (bUnlimited : bool) : Outcome Z :=
  if fee =? 0 then mret fee
  else
    let '(feeFactor, uRemFee) := getScalingFactors feeTrack in
    let feeFactor := if bUnlimited && (uRemFee <? feeFactor) && (feeFactor <? u32 (4 * uRemFee)) then uRemFee else feeFactor in
    let den := u64 (units fees * lftNormalFee) in
    let '(fee, den) := lowestTerms fee den in
    let '(baseFee, den) := lowestTerms (base fees) den in
    let '(feeFactor, den) := lowestTerms feeFactor den in
    let '(fee, baseFee) := swap_up fee baseFee in
    limit ← div64 max64 feeFactor;
    if limit <? baseFee then throws
    else
      let baseFee := u64 (baseFee * feeFactor) in
      let '(fee, baseFee) := swap_up fee baseFee in
      limit ← div64 max64 baseFee;
      if limit <? fee then
        fee ← div64 fee den;
        if limit <? fee then throws else mret (u64 (fee * baseFee))
      else div64 (u64 (fee * baseFee)) den.




















(** ** Fee metrics *)
Definition baseLevel : Z := 256.
Record Setup := mkSetup {
  ledgersInQueue : Z; queueSizeMin : Z; retrySequencePercent : Z; multiTxnPercent : Z;
  minimumEscalationMultiplier : Z; minimumTxnInLedger : Z; minimumTxnInLedgerSA : Z; targetTxnInLedger : Z;
  maximumTxnInLedger : option Z; normalConsensusIncreasePercent : Z; slowConsensusDecreasePercent : Z;
  maximumTxnPerAccount : Z; minimumLastLedgerBuffer : Z; zeroBaseFeeTransactionFeeLevel : Z; standAlone : bool
}.
Record FeeMetrics := mkMetrics {
  minimumTxnCount_ : Z; targetTxnCount_ : Z; maximumTxnCount_ : option Z;
  txnsExpected_ : Z; recentTxnCounts_ : list Z; escalationMultiplier_ : Z
}.
Definition new_metrics (setup : Setup) : FeeMetrics :=
  let minimum := if standAlone setup then minimumTxnInLedgerSA setup else minimumTxnInLedger setup in
  let target := if targetTxnInLedger setup <? minimum then minimum else targetTxnInLedger setup in
  mkMetrics minimum target ((λ m, if m <? target then target else m) <$> maximumTxnInLedger setup)
    minimum [] (minimumEscalationMultiplier setup).

(** [getFeeLevelPaid], of the fee in drops *)
Definition getFeeLevelPaid (fee baseRefLevel refTxnCostDrops : Z) (setup : Setup) : Outcome Z :=
  if refTxnCostDrops =? 0 then mret (zeroBaseFeeTransactionFeeLevel setup)
  else r ← mulDiv (u64 fee) baseRefLevel refTxnCostDrops; mret r.2.
Definition increase (level increasePercent : Z) : Outcome Z :=
  r ← mulDiv level (u32 (100 + increasePercent)) 100; mret r.2.

(** [push_back] of a circular buffer *)
Definition push_recent (capacity : Z) (v : Z) (l : list Z) : list Z :=
  if capacity =? 0 then l
  else if Z.of_nat (length l) =? capacity then (tail l ++ [v])%list else (l ++ [v])%list.
Definition max_element (l : list Z) : Outcome Z :=
  match l with [] => misused | x :: l => mret (foldl Z.max x l) end.
Definition clamp64 (v lo hi : Z) : Z := if v <? lo then lo else if hi <? v then hi else v.

(** The expected number of transactions, and the counts it is based on. *)
Definition update_expected (size : Z) (timeLeap : bool) (setup : Setup) (m : FeeMetrics) : Outcome (Z * list Z) :=
  if timeLeap then
    let cutPct := u32 (100 - slowConsensusDecreasePercent setup) in
    e ← mulDiv (txnsExpected_ m) cutPct 100;
    let upperLimit := Z.max e.2 (minimumTxnCount_ m) in
    n ← mulDiv size cutPct 100;
    mret (clamp64 n.2 (minimumTxnCount_ m) upperLimit, [])
  else if (txnsExpected_ m <? size) || (targetTxnCount_ m <? size) then
    n ← mulDiv size (u32 (100 + normalConsensusIncreasePercent setup)) 100;
    let recent := push_recent (ledgersInQueue setup) n.2 (recentTxnCounts_ m) in
    largest ← max_element recent;
    let next := if txnsExpected_ m <=? largest then largest else u64 (txnsExpected_ m * 9 + largest) / 10 in
    mret (Z.min next (default next (maximumTxnCount_ m)), recent)
  else mret (txnsExpected_ m, recentTxnCounts_ m).

(** The multiplier: the median of the levels paid. *)
Definition update_multiplier (feeLevels : list Z) (setup : Setup) : Z :=
  match feeLevels with
  | [] => minimumEscalationMultiplier setup
  | _ => let sorted := merge_sort Z.le feeLevels in
         let size := length feeLevels in
         let median := u64 (default 0 (sorted !! (size / 2)%nat) + default 0 (sorted !! ((size - 1) / 2)%nat) + 1) / 2 in
         Z.max median (minimumEscalationMultiplier setup)
  end.

(** [update], on the levels of the fees paid in the closed ledger *)
Definition metrics_update (feeLevels : list Z) (timeLeap : bool) (setup : Setup) (m : FeeMetrics) : Outcome FeeMetrics :=
  '(expected, recent) ← update_expected (Z.of_nat (length feeLevels)) timeLeap setup m;
  mret (mkMetrics (minimumTxnCount_ m) (targetTxnCount_ m) (maximumTxnCount_ m) expected recent (update_multiplier feeLevels setup)).

(** [scaleFeeLevel] *)
Definition scaleFeeLevel (m : FeeMetrics) (txCount : Z) : Outcome Z :=
  let target := txnsExpected_ m in
  if target <? txCount then
    r ← mulDiv (escalationMultiplier_ m) (u64 (txCount * txCount)) (u64 (target * target)); mret r.2
  else mret baseLevel.

Definition sumOfFirstSquares (x : Z) : bool * Z :=
  if 2 ^ 21 <=? x then (false, max64) else (true, u64 (u64 (x * u64 (x + 1)) * u64 (2 * x + 1)) / 6).
Definition escalatedSeriesFeeLevel (m : FeeMetrics) (txCount extraCount seriesSize : Z) : Outcome (bool * Z) :=
  let current := u64 (txCount + extraCount) in
  let last := u64 (current + seriesSize - 1) in
  let target := txnsExpected_ m in
  _ ← assert_ (target <? current);
  let sumNlast := sumOfFirstSquares last in
  let sumNcurrent := sumOfFirstSquares (u64 (current - 1)) in
  if negb sumNlast.1 then mret sumNlast
  else mulDiv (escalationMultiplier_ m) (u64 (sumNlast.2 - sumNcurrent.2)) (u64 (target * target)).

(** *** The metrics stay within their bounds *)
Record setup_ok (s : Setup) : Prop := {
  so_queue : 1 ≤ ledgersInQueue s;
  so_min : 1 ≤ minimumTxnInLedger s < 2 ^ 32 ∧ 1 ≤ minimumTxnInLedgerSA s < 2 ^ 32;
  so_target : 0 ≤ targetTxnInLedger s < 2 ^ 32;
  so_max : ∀ x, maximumTxnInLedger s = Some x → 0 ≤ x < 2 ^ 32;
  so_percent : 0 ≤ normalConsensusIncreasePercent s ≤ 1000 ∧ 0 ≤ slowConsensusDecreasePercent s ≤ 100;
  so_mult : 0 ≤ minimumEscalationMultiplier s < 2 ^ 64;
}.
Record metrics_ok (s : Setup) (m : FeeMetrics) : Prop := {
  mo_min : 1 ≤ minimumTxnCount_ m ≤ targetTxnCount_ m;
  mo_expected : minimumTxnCount_ m ≤ txnsExpected_ m < 2 ^ 32;
  mo_max : ∀ x, maximumTxnCount_ m = Some x → targetTxnCount_ m ≤ x ∧ txnsExpected_ m ≤ x;
  mo_recent : Forall (λ v, 0 ≤ v < 2 ^ 32) (recentTxnCounts_ m);
  mo_mult : minimumEscalationMultiplier s ≤ escalationMultiplier_ m < 2 ^ 64;
}.

Lemma new_metrics_ok s : setup_ok s → metrics_ok s (new_metrics s).
Proof.
  intros [_ [H1 H2] Ht Hm _ Hs]. unfold new_metrics.
  set (mn := if standAlone s then minimumTxnInLedgerSA s else minimumTxnInLedger s).
  assert (1 ≤ mn < 2 ^ 32) by (unfold mn; destruct (standAlone s); lia).
  set (tg := if targetTxnInLedger s <? mn then mn else targetTxnInLedger s). assert (mn ≤ tg) by (unfold tg; zcases; lia).
  split; cbn; [lia|lia| |constructor|lia]. intros x. destruct (maximumTxnInLedger s) as [y|]; [|done]. simpl. intros [= <-]. zcases; lia.
Qed.

Lemma mulDiv_small v mul div : 0 < div → v * mul / div ≤ max64 → mulDiv v mul div = inr (true, v * mul / div).
Proof. intros Hd Hv. unfold mulDiv. destruct (Z.eqb_spec div 0); [lia|]. by destruct (Z.ltb_spec max64 (v * mul / div)); [lia|]. Qed.

Lemma foldl_max l : ∀ x, x ≤ foldl Z.max x l ∧ (∀ y, y ∈ l → y ≤ foldl Z.max x l) ∧ (foldl Z.max x l = x ∨ foldl Z.max x l ∈ l).
Proof.
  induction l as [|z l IH]; intros x; simpl; [split; [lia|]; split; [by intros y ?%not_elem_of_nil|by left]|].
  destruct (IH (Z.max x z)) as (H1 & H2 & H3). split; [lia|]. split.
  - intros y [->|Hy]%elem_of_cons; [lia|by apply H2].
  - destruct H3 as [H3|H3]; [|right; by apply list_elem_of_further].
    destruct (Z.max_spec x z) as [[_ E]|[_ E]]; rewrite E in *; [right; rewrite H3; apply list_elem_of_here|by left].
Qed.
Lemma largest_spec l v : v ∈ l → ∃ w, max_element l = inr w ∧ w ∈ l ∧ ∀ y, y ∈ l → y ≤ w.
Proof.
  destruct l as [|x l]; [by intros ?%not_elem_of_nil|]. intros _. destruct (foldl_max l x) as (H1 & H2 & H3). exists (foldl Z.max x l).
  split; [done|]. split; [destruct H3 as [->|H3]; [apply list_elem_of_here|by apply list_elem_of_further]|].
  intros y [->|Hy]%elem_of_cons; [done|by apply H2].
Qed.
Lemma push_recent_in c v l : 1 ≤ c → v ∈ push_recent c v l ∧ (∀ y, y ∈ push_recent c v l → y = v ∨ y ∈ l).
Proof.
  intros Hc. unfold push_recent. destruct (Z.eqb_spec c 0); [lia|].
  destruct (_ =? c); (split; [apply elem_of_app; right; apply list_elem_of_here|]); intros y [Hy|Hy]%elem_of_app.
  - right. destruct l; [done|]. by apply list_elem_of_further.
  - apply list_elem_of_singleton in Hy. by left.
  - by right.
  - apply list_elem_of_singleton in Hy. by left.
Qed.

Lemma percent_bounds n p : 0 ≤ n → 0 ≤ p ≤ 1000 → n ≤ n * (100 + p) / 100 ≤ 11 * n.
Proof. intros Hn Hp. split; [apply Z.div_le_lower_bound; nia|apply Z.div_le_upper_bound; nia]. Qed.
Lemma cut_bounds n p : 0 ≤ n → 0 ≤ p ≤ 100 → 0 ≤ n * (100 - p) / 100 ≤ n.
Proof. intros Hn Hp. split; [apply Z.div_pos; nia|apply Z.div_le_upper_bound; nia]. Qed.

Lemma update_expected_ok s m size leap :
  setup_ok s → metrics_ok s m → 0 ≤ size < 2 ^ 28 →
  ∃ e recent, update_expected size leap s m = inr (e, recent) ∧ minimumTxnCount_ m ≤ e < 2 ^ 32 ∧
    (∀ x, maximumTxnCount_ m = Some x → e ≤ x) ∧ Forall (λ v, 0 ≤ v < 2 ^ 32) recent.
Proof.
  intros [Hq _ _ _ [Hi Hd] _] [Hmin He Hmax Hr _] Hs. unfold update_expected, mbind, outcome_bind. destruct leap.
  - assert (u32 (100 - slowConsensusDecreasePercent s) = 100 - slowConsensusDecreasePercent s) as -> by (apply Z.mod_small; lia).
    pose proof (cut_bounds (txnsExpected_ m) _ ltac:(lia) Hd) as C1. pose proof (cut_bounds size _ ltac:(lia) Hd) as C2.
    rewrite !mulDiv_small by (unfold max64; lia). cbn [snd]. eexists _, []. split; [done|].
    set (a := _ / 100) in C1. set (b := _ / 100) in C2. unfold clamp64. fold a b. destruct (Z.ltb_spec b (minimumTxnCount_ m)).
    { split; [lia|]. split; [|constructor]. intros x Hx. destruct (Hmax x Hx). lia. }
    destruct (Z.ltb_spec (Z.max a (minimumTxnCount_ m)) b); (split; [lia|]; split; [|constructor]); intros x Hx; destruct (Hmax x Hx); lia.
  - destruct ((txnsExpected_ m <? size) || (targetTxnCount_ m <? size)) eqn:Eb.
    2: { eexists _, _. split; [done|]. split; [lia|]. split; [|done]. intros x Hx. by apply Hmax. }
    assert (u32 (100 + normalConsensusIncreasePercent s) = 100 + normalConsensusIncreasePercent s) as -> by (apply Z.mod_small; lia).
    pose proof (percent_bounds size _ ltac:(lia) Hi) as C. rewrite mulDiv_small by (unfold max64; lia). cbn [snd]. set (n := _ / 100) in *.
    destruct (push_recent_in (ledgersInQueue s) n (recentTxnCounts_ m) Hq) as [Hin Hsub].
    destruct (largest_spec _ _ Hin) as (w & -> & Hw & Hle). set (recent := push_recent _ _ _) in *.
    assert (Forall (λ v, 0 ≤ v < 2 ^ 32) recent) as Hrec.
    { apply Forall_forall. intros y Hy. destruct (Hsub y Hy) as [->|Hy']; [lia|]. rewrite Forall_forall in Hr. by apply Hr. }
    assert (0 ≤ w < 2 ^ 32) as Hwr by (rewrite Forall_forall in Hrec; by apply Hrec). specialize (Hle n Hin).
    eexists _, recent. split; [done|].
    set (next := if txnsExpected_ m <=? w then w else u64 (txnsExpected_ m * 9 + w) / 10).
    assert (minimumTxnCount_ m ≤ next < 2 ^ 32) as Hnext.
    { unfold next. destruct (Z.leb_spec (txnsExpected_ m) w); [lia|].
      assert (u64 (txnsExpected_ m * 9 + w) = txnsExpected_ m * 9 + w) as -> by (apply Z.mod_small; lia).
      apply orb_true_iff in Eb as [?%Z.ltb_lt|?%Z.ltb_lt]; [lia|].
      split; [apply Z.div_le_lower_bound; lia|apply Z.div_lt_upper_bound; lia]. }
    split; [|split; [|done]].
    + destruct (maximumTxnCount_ m) as [x|] eqn:Ex; cbn [from_option id]; [|lia]. destruct (Hmax x eq_refl). lia.
    + intros x ->. cbn [from_option id]. lia.
Qed.

Lemma update_multiplier_ok s levels : setup_ok s → minimumEscalationMultiplier s ≤ update_multiplier levels s < 2 ^ 64.
Proof.
  intros Hs. pose proof (so_mult _ Hs). unfold update_multiplier. destruct levels; [lia|]. set (x := u64 _).
  assert (0 ≤ x < 2 ^ 64) by (apply Z.mod_pos_bound; lia). split; [lia|]. apply Z.max_lub_lt; [|lia]. apply Z.div_lt_upper_bound; lia.
Qed.

Lemma metrics_update_ok s m levels leap :
  setup_ok s → metrics_ok s m → Z.of_nat (length levels) < 2 ^ 28 →
  ∃ m', metrics_update levels leap s m = inr m' ∧ metrics_ok s m'.
Proof.
  intros Hs Hm Hl. destruct (update_expected_ok s m (Z.of_nat (length levels)) leap Hs Hm ltac:(lia)) as (e & recent & Ee & He & Hx & Hr).
  unfold metrics_update, mbind, outcome_bind. rewrite Ee. eexists. split; [done|]. destruct Hm as [H1 H2 H3 H4 H5].
  split; cbn; [done|lia| |done|by apply update_multiplier_ok]. intros x Hxx. split; [by apply H3|by apply Hx].
Qed.

(** *** The levels of fees *)
Fixpoint sum_squares (from : Z) (n : nat) : Z :=
  match n with O => 0 | S n => from * from + sum_squares (from + 1) n end.

Lemma sum_squares_formula n : ∀ from,
  6 * sum_squares from n = (from + Z.of_nat n - 1) * (from + Z.of_nat n) * (2 * (from + Z.of_nat n - 1) + 1) - (from - 1) * from * (2 * (from - 1) + 1).
Proof. induction n as [|n IH]; intros from; [cbn; ring|]. cbn [sum_squares]. rewrite Z.mul_add_distr_l, IH, Nat2Z.inj_succ. ring. Qed.

Lemma sumOfFirstSquares_spec x : 0 ≤ x < 2 ^ 21 → sumOfFirstSquares x = (true, x * (x + 1) * (2 * x + 1) / 6).
Proof.
  intros Hx. unfold sumOfFirstSquares. destruct (Z.leb_spec (2 ^ 21) x); [lia|]. f_equal. f_equal.
  unfold u64, wrap. rewrite (Z.mod_small (x + 1)), (Z.mod_small (x * (x + 1))), (Z.mod_small (2 * x + 1)), Z.mod_small; nia.
Qed.
Lemma squares_div x : 0 ≤ x → x * (x + 1) * (2 * x + 1) / 6 = sum_squares 1 (Z.to_nat x).
Proof.
  intros Hx. pose proof (sum_squares_formula (Z.to_nat x) 1) as H. rewrite Z2Nat.id in H by done.
  symmetry. apply Z.div_unique_exact; [lia|]. rewrite H. ring.
Qed.
Lemma sum_squares_app n m : ∀ from, sum_squares from (n + m) = sum_squares from n + sum_squares (from + Z.of_nat n) m.
Proof.
  induction n as [|n IH]; intros from; [simpl; by rewrite Z.add_0_r|].
  cbn [Nat.add sum_squares]. rewrite IH, Nat2Z.inj_succ. replace (from + 1 + Z.of_nat n) with (from + Z.succ (Z.of_nat n)) by lia. lia.
Qed.
Lemma sum_squares_nonneg n : ∀ from, 0 ≤ sum_squares from n.
Proof. induction n as [|n IH]; intros from; simpl; [lia|]. specialize (IH (from + 1)). nia. Qed.

Lemma mulDiv_spec v mul div : 0 < div → mulDiv v mul div = inr (bool_decide (v * mul / div ≤ max64), Z.min max64 (v * mul / div)).
Proof.
  intros Hd. unfold mulDiv. destruct (Z.eqb_spec div 0); [lia|]. destruct (Z.ltb_spec max64 (v * mul / div)).
  - rewrite bool_decide_eq_false_2, Z.min_l by lia. done.
  - rewrite bool_decide_eq_true_2, Z.min_r by lia. done.
Qed.

Lemma scaleFeeLevel_spec s m c :
  metrics_ok s m → 0 ≤ c < 2 ^ 32 →
  scaleFeeLevel m c = inr (if c <=? txnsExpected_ m then baseLevel
                           else Z.min max64 (escalationMultiplier_ m * (c * c) / (txnsExpected_ m * txnsExpected_ m))).
Proof.
  intros [H1 H2 _ _ _] Hc. unfold scaleFeeLevel, mbind, outcome_bind. destruct (Z.ltb_spec (txnsExpected_ m) c), (Z.leb_spec c (txnsExpected_ m)); try lia; [|done].
  assert (u64 (c * c) = c * c) as -> by (apply Z.mod_small; nia).
  assert (u64 (txnsExpected_ m * txnsExpected_ m) = txnsExpected_ m * txnsExpected_ m) as -> by (apply Z.mod_small; nia).
  by rewrite mulDiv_spec by nia.
Qed.

Lemma series_spec s m c extra n :
  metrics_ok s m → 0 ≤ c → 0 ≤ extra → txnsExpected_ m < c + extra → (1 ≤ n)%nat → c + extra + Z.of_nat n < 2 ^ 64 →
  escalatedSeriesFeeLevel m c extra (Z.of_nat n) =
  inr (if c + extra + Z.of_nat n - 1 <? 2 ^ 21 then
         let total := escalationMultiplier_ m * sum_squares (c + extra) n / (txnsExpected_ m * txnsExpected_ m) in
         (bool_decide (total ≤ max64), Z.min max64 total)
       else (false, max64)).
Proof.
  intros [H1 H2 _ _ _] Hc He Ht Hn Hb. unfold escalatedSeriesFeeLevel, mbind, outcome_bind.
  assert (u64 (c + extra) = c + extra) as -> by (apply Z.mod_small; lia). set (cur := c + extra) in *.
  assert (u64 (cur + Z.of_nat n - 1) = cur + Z.of_nat n - 1) as -> by (apply Z.mod_small; lia).
  assert (u64 (cur - 1) = cur - 1) as -> by (apply Z.mod_small; lia).
  destruct (Z.ltb_spec (txnsExpected_ m) cur); [|lia]. cbn [assert_ mret outcome_ret].
  destruct (Z.ltb_spec (cur + Z.of_nat n - 1) (2 ^ 21)) as [Hs|Hs].
  - rewrite !sumOfFirstSquares_spec by lia. cbn [fst snd negb]. rewrite !squares_div by lia.
    replace (Z.to_nat (cur + Z.of_nat n - 1)) with (Z.to_nat (cur - 1) + n)%nat by lia. rewrite sum_squares_app.
    replace (1 + Z.of_nat (Z.to_nat (cur - 1))) with cur by lia.
    replace (sum_squares 1 (Z.to_nat (cur - 1)) + sum_squares cur n - sum_squares 1 (Z.to_nat (cur - 1))) with (sum_squares cur n) by lia.
    assert (u64 (sum_squares cur n) = sum_squares cur n) as ->.
    { apply Z.mod_small. split; [apply sum_squares_nonneg|]. pose proof (sum_squares_formula n cur). nia. }
    assert (u64 (txnsExpected_ m * txnsExpected_ m) = txnsExpected_ m * txnsExpected_ m) as -> by (apply Z.mod_small; nia).
    by rewrite mulDiv_spec by nia.
  - unfold sumOfFirstSquares at 1. destruct (Z.leb_spec (2 ^ 21) (cur + Z.of_nat n - 1)); [|lia]. cbn [fst negb].
    unfold sumOfFirstSquares. destruct (Z.leb_spec (2 ^ 21) (cur + Z.of_nat n - 1)); [done|lia].
Qed.


(** A fee reported by others that is high enough makes the raised local fee wrap to nothing, and a report of
    nothing after it makes scaling divide by zero. *)
Theorem raise_wraps :
  let t := (raiseLocalFee (raiseLocalFee (setRemoteFee 3435973837 new_track)).2).2 in
  localTxnLoadFee_ t = 0 ∧ scaleFeeLoad 10 (setRemoteFee 0 t) (mkFees 10 10) false = misused.
Proof. by vm_compute. Qed.

(** What is made of the setup and the closed ledgers. *)
Inductive metrics_reach (s : Setup) : FeeMetrics → Prop :=
  | metrics_new : metrics_reach s (new_metrics s)
  | metrics_step m levels leap m' :
      metrics_reach s m → Z.of_nat (length levels) < 2 ^ 28 → metrics_update levels leap s m = inr m' → metrics_reach s m'.

Lemma metrics_reach_ok s m : setup_ok s → metrics_reach s m → metrics_ok s m.
Proof.
  intros Hs. induction 1 as [|m levels leap m' _ IH Hl E]; [by apply new_metrics_ok|].
  destruct (metrics_update_ok s m levels leap Hs IH Hl) as (m'' & E' & Hm). rewrite E in E'. by injection E' as ->.
Qed.

(** C18: Escalation.  Whatever ledgers close, the metrics can be brought up to date, the expected number of
    transactions is between its minimum and maximum and the multiplier at least its minimum.  The
    level of fee for the open ledger is the base level up to the expected number and then the
    multiplier times the square of the ratio, saturated at 64 bits; that of a series of
    transactions is the multiplier times the sum of the squares over the square. *)
Theorem fee_escalation s m :
  setup_ok s → metrics_reach s m →
  minimumTxnCount_ m ≤ txnsExpected_ m ∧ (∀ x, maximumTxnCount_ m = Some x → txnsExpected_ m ≤ x) ∧
  minimumEscalationMultiplier s ≤ escalationMultiplier_ m ∧
  (∀ levels leap, Z.of_nat (length levels) < 2 ^ 28 → ∃ m', metrics_update levels leap s m = inr m') ∧
  (∀ c, 0 ≤ c < 2 ^ 32 →
     scaleFeeLevel m c = inr (if c <=? txnsExpected_ m then baseLevel
                              else Z.min max64 (escalationMultiplier_ m * (c * c) / (txnsExpected_ m * txnsExpected_ m)))) ∧
  (∀ c extra n, 0 ≤ c → 0 ≤ extra → txnsExpected_ m < c + extra → (1 ≤ n)%nat → c + extra + Z.of_nat n < 2 ^ 64 →
     escalatedSeriesFeeLevel m c extra (Z.of_nat n) =
     inr (if c + extra + Z.of_nat n - 1 <? 2 ^ 21 then
            let total := escalationMultiplier_ m * sum_squares (c + extra) n / (txnsExpected_ m * txnsExpected_ m) in
            (bool_decide (total ≤ max64), Z.min max64 total)
          else (false, max64))).
Proof.
  intros Hs Hr. pose proof (metrics_reach_ok s m Hs Hr) as Hm. split; [apply Hm|]. split; [apply Hm|]. split; [apply Hm|].
  split; [|split].
  - intros levels leap Hl. destruct (metrics_update_ok s m levels leap Hs Hm Hl) as (m' & E & _). by exists m'.
  - intros c Hc. by eapply scaleFeeLevel_spec.
  - intros c extra n. by eapply series_spec.
Qed.

Definition default_setup : Setup := mkSetup 20 2000 25 (-90) 128000 5 1000 50 None 20 50 10 2 256000 false.
Lemma default_setup_ok : setup_ok default_setup.
Proof. by split. Qed.
Lemma fee_escalation_witness :
  ∃ m, metrics_update (replicate 60 256) false default_setup (new_metrics default_setup) = inr m ∧ txnsExpected_ m = 72 ∧
    scaleFeeLevel m 80 = inr 158024 ∧ escalatedSeriesFeeLevel m 80 0 2 = inr (true, 320024).
Proof.
  destruct (metrics_update (replicate 60 256) false default_setup (new_metrics default_setup)) as [|m] eqn:E; [vm_compute in E; discriminate E|].
  exists m. split; [reflexivity|]. destruct (fee_escalation default_setup m) as (_ & _ & _ & _ & H1 & H2).
  - exact default_setup_ok.
  - eapply metrics_step; [apply metrics_new| |exact E]. vm_compute. reflexivity.
  - vm_compute in E. injection E as <-. split; [reflexivity|]. split; [rewrite H1; [reflexivity|lia]|].
    change 2 with (Z.of_nat 2). rewrite (H2 80 0 2%nat); [reflexivity|lia|lia|cbn; lia|lia|lia].
Defined.
