(* ===== verification/TxQ.v ===== *)
(** * The transaction queue

    src/src/ripple/app/misc/TxQ.h and impl/TxQ.cpp: transactions that pay too little for the open
    ledger wait, by account and sequence, for one they can go into.

    The elements are owned by the maps of the accounts ([byAccount_]); the set ordered by fee
    ([byFee_]) is intrusive and holds the same objects, which a [Handle] - account and
    sequence they are kept under - identifies.  An iterator is a handle, or [None] at the end.

    The engine that applies transactions is a parameter: preflight, preclaim, doApply, the fees
    and consequences of transactions and the views.  Results ([TER]) are their codes.  Sums of
    drops are not wrapped: they are far below 2^63. *)

From stdpp Require Import prelude list gmap sorting.
From Stdlib Require Import ZArith Lia.
From S2P Require Import Prelude.
From S2P Require Import BaseUint.
From S2P Require Import Serializer.
From S2P Require Import Fees.

#[local] Open Scope Z_scope.

(** ** Results *)
Definition tesSUCCESS : Z := 0.
Definition telINSUF_FEE_P : Z := -394.
Definition telCAN_NOT_QUEUE : Z := -392.
Definition telCAN_NOT_QUEUE_BALANCE : Z := -391.
Definition telCAN_NOT_QUEUE_BLOCKS : Z := -390.
Definition telCAN_NOT_QUEUE_BLOCKED : Z := -389.
Definition telCAN_NOT_QUEUE_FEE : Z := -388.
Definition telCAN_NOT_QUEUE_FULL : Z := -387.
Definition temMALFORMED : Z := -299.
Definition tefFAILURE : Z := -199.
Definition terRETRY : Z := -99.
Definition terQUEUED : Z := -89.
Definition isTemMalformed (x : Z) : bool := (temMALFORMED <=? x) && (x <? tefFAILURE).
Definition isTefFailure (x : Z) : bool := (tefFAILURE <=? x) && (x <? terRETRY).

Definition tapRETRY : Z := 0x20.
Definition tapPREFER_QUEUE : Z := 0x40.

(** ** Data *)

(** What the queue reads of a transaction. *)
Record QTx := mkQTx {
  q_account : Blob; q_sequence : Z; q_fee : Z; q_id : Blob;
  q_lastLedgerSequence : option Z; q_hasPreviousTxnID : bool; q_accountTxnID : option Blob
}.
Record TxConsequences := mkConsequences { is_blocker : bool; cons_fee : Z; potentialSpend : Z }.

(** The engine: what the queue asks of the code that applies transactions. *)
Record Engine (View Pf Pc : Type) := mkEngine {
  preflight : View → QTx → Z → Pf;
  pf_ter : Pf → Z;
  pf_current : Pf → View → Z → bool;
  preclaim : Pf → View → Pc;
  pc_ter : Pc → Z;
  likelyToClaimFee : Pc → bool;
  doApply : Pc → View → (Z * bool) * View;
  calculateConsequences : Pf → TxConsequences;
  calculateBaseFee : View → QTx → Z;
  txCount : View → Z;
  view_seq : View → Z;
  read_account : View → Blob → option (Z * Z);
  accountReserve : View → Z;
  bump : View → Z → Blob → Z → Z → View;
  open_sandbox : View → View;
  sandbox_apply : View → View → View;
}.
Arguments preflight {_ _ _}.
Arguments pf_ter {_ _ _}.
Arguments pf_current {_ _ _}.
Arguments preclaim {_ _ _}.
Arguments pc_ter {_ _ _}.
Arguments likelyToClaimFee {_ _ _}.
Arguments doApply {_ _ _}.
Arguments calculateConsequences {_ _ _}.
Arguments calculateBaseFee {_ _ _}.
Arguments txCount {_ _ _}.
Arguments view_seq {_ _ _}.
Arguments read_account {_ _ _}.
Arguments accountReserve {_ _ _}.
Arguments bump {_ _ _}.
Arguments open_sandbox {_ _ _}.
Arguments sandbox_apply {_ _ _}.

Definition Handle : Type := Blob * Z.
Definition retriesAllowed : Z := 10.

Section Queue.
Context {View Pf Pc : Type} (E : Engine View Pf Pc) (setup_ : Setup).

(** The identifier, which is that of [txn], and [priorTxID], which is never read, are left out. *)
Record MaybeTx := mkMaybe {
  txn : QTx; consequences : option TxConsequences; feeLevel : Z; m_account : Blob; lastValid : option Z;
  sequence : Z; retriesRemaining : Z; flags : Z; lastResult : option Z; pfresult : Pf
}.
Definition new_maybe (tx : QTx) (level fl : Z) (pf : Pf) : MaybeTx :=
  mkMaybe tx None level (q_account tx) (q_lastLedgerSequence tx) (q_sequence tx) retriesAllowed fl None pf.
Definition set_consequences (c : TxConsequences) (m : MaybeTx) : MaybeTx :=
  mkMaybe (txn m) (Some c) (feeLevel m) (m_account m) (lastValid m) (sequence m) (retriesRemaining m) (flags m) (lastResult m) (pfresult m).
Definition set_pfresult (p : Pf) (m : MaybeTx) : MaybeTx :=
  mkMaybe (txn m) (consequences m) (feeLevel m) (m_account m) (lastValid m) (sequence m) (retriesRemaining m) (flags m) (lastResult m) p.
Definition set_result (retries ter : Z) (m : MaybeTx) : MaybeTx :=
  mkMaybe (txn m) (consequences m) (feeLevel m) (m_account m) (lastValid m) (sequence m) retries (flags m) (Some ter) (pfresult m).

(** [MaybeTx::apply] *)
Definition maybe_apply (m : MaybeTx) (view : View) : MaybeTx * (Z * bool) * View :=
  let pf := if pf_current E (pfresult m) view (flags m) then pfresult m else preflight E view (txn m) (flags m) in
  let '(r, view) := doApply E (preclaim E pf view) view in
  (set_pfresult pf m, r, view).
(** The consequences of an element, which are computed once. *)
Definition with_consequences (m : MaybeTx) : MaybeTx * TxConsequences :=
  match consequences m with
  | Some c => (m, c)
  | None => let c := calculateConsequences E (pfresult m) in (set_consequences c m, c)
  end.

(** [std::map <TxSeq, MaybeTx>], in the order of the keys *)
Definition TxMap : Type := list (Z * MaybeTx).
Fixpoint split_seq (s : Z) (l : TxMap) : TxMap * TxMap :=
  match l with
  | [] => ([], [])
  | x :: l' => if x.1 =? s then ([], l) else let '(before, from) := split_seq s l' in (x :: before, from)
  end.
Definition find_tx (s : Z) (l : TxMap) : option MaybeTx := match (split_seq s l).2 with [] => None | x :: _ => Some x.2 end.
Definition remove_seq (s : Z) (l : list (Z * MaybeTx)) : TxMap := filter (λ x, x.1 ≠ s) l.
Fixpoint emplace_tx (s : Z) (m : MaybeTx) (l : TxMap) : bool * TxMap :=
  match l with
  | [] => (true, [(s, m)])
  | x :: l' => if s <? x.1 then (true, (s, m) :: l) else if s =? x.1 then (false, l)
               else let '(b, r) := emplace_tx s m l' in (b, x :: r)
  end.
Definition alter_tx (f : MaybeTx → MaybeTx) (s : Z) (l : list (Z * MaybeTx)) : TxMap :=
  (λ x, if x.1 =? s then (x.1, f x.2) else x) <$> l.

Record TxQAccount := mkAccount { a_account : Blob; transactions : TxMap; retryPenalty : bool; dropPenalty : bool }.
Definition set_transactions (l : TxMap) (A : TxQAccount) : TxQAccount := mkAccount (a_account A) l (retryPenalty A) (dropPenalty A).
Definition new_account (a : Blob) : TxQAccount := mkAccount a [] false false.

Record TxQ := mkQueue {
  feeMetrics_ : FeeMetrics; byFee_ : list Handle; byAccount_ : gmap Blob TxQAccount; maxSize_ : option Z
}.
Definition new_queue : TxQ := mkQueue (new_metrics setup_) [] ∅ None.
Definition set_byFee (l : list Handle) (q : TxQ) : TxQ := mkQueue (feeMetrics_ q) l (byAccount_ q) (maxSize_ q).
Definition set_account (a : Blob) (A : TxQAccount) (q : TxQ) : TxQ :=
  mkQueue (feeMetrics_ q) (byFee_ q) (<[a := A]> (byAccount_ q)) (maxSize_ q).

(** [byAccount_.at] and the element behind an iterator *)
Definition account_at (q : TxQ) (a : Blob) : Outcome TxQAccount :=
  match byAccount_ q !! a with Some A => mret A | None => throws end.
Definition get_tx (q : TxQ) (h : Handle) : option MaybeTx := byAccount_ q !! h.1 ≫= λ A, find_tx h.2 (transactions A).
Definition deref (q : TxQ) (h : Handle) : Outcome MaybeTx := match get_tx q h with Some m => mret m | None => misused end.
Definition update_tx (f : MaybeTx → MaybeTx) (h : Handle) (q : TxQ) : TxQ :=
  mkQueue (feeMetrics_ q) (byFee_ q) (alter (λ A, set_transactions (alter_tx f h.2 (transactions A)) A) h.1 (byAccount_ q)) (maxSize_ q).
(** The rest of the set from an element, and the next one. *)
Fixpoint from_handle (h : Handle) (l : list Handle) : list Handle :=
  match l with [] => [] | x :: l' => if bool_decide (x = h) then l else from_handle h l' end.
Definition next_of (h : Handle) (l : list Handle) : option Handle := head (tail (from_handle h l)).
Definition remove_handle (h : Handle) (l : list Handle) : list Handle := filter (λ x, x ≠ h) l.
(** [byFee_.iterator_to] *)
Definition iterator_to (q : TxQ) (h : Handle) : Outcome Handle := if bool_decide (h ∈ byFee_ q) then mret h else misused.

(** [byFee_.insert]: after the elements that pay as much *)
Fixpoint insert_fee (q : TxQ) (h : Handle) (level : Z) (l : list Handle) : Outcome (list Handle) :=
  match l with
  | [] => mret [h]
  | x :: l' => m ← deref q x; if feeLevel m <? level then mret (h :: l) else r ← insert_fee q h level l'; mret (x :: r)
  end.

Definition isFull (fillPercentage : Z) (q : TxQ) : bool :=
  match maxSize_ q with
  | None => false
  | Some n => u64 (n * fillPercentage) / 100 <=? Z.of_nat (length (byFee_ q))
  end.

Definition canBeHeld (tx : QTx) (view : View) (A : option TxQAccount) (replacement : option Handle) : Outcome bool :=
  if q_hasPreviousTxnID tx || bool_decide (is_Some (q_accountTxnID tx)) then mret false
  else if match q_lastLedgerSequence tx with
          | None => false
          | Some last => last <? u32 (view_seq E view + minimumLastLedgerBuffer setup_)
          end then mret false
  else match A, replacement with
       | None, _ => mret true
       | Some _, Some _ => mret true
       | Some A, None =>
           if Z.of_nat (length (transactions A)) <? maximumTxnPerAccount setup_ then mret true
           else match last (transactions A) with
                | None => misused
                | Some x => mret (q_sequence tx <? x.1)
                end
       end.

(** ** Erasing *)
Definition erase (h : Handle) (q : TxQ) : Outcome TxQ :=
  m ← deref q h;
  A ← account_at q (m_account m);
  let q := set_byFee (remove_handle h (byFee_ q)) q in
  _ ← assert_ (bool_decide (is_Some (find_tx (sequence m) (transactions A))));
  mret (set_account (m_account m) (set_transactions (remove_seq (sequence m) (transactions A)) A) q).

Definition eraseAndAdvance (h : Handle) (q : TxQ) : Outcome (option Handle * TxQ) :=
  m ← deref q h;
  A ← account_at q (m_account m);
  match split_seq (sequence m) (transactions A) with
  | (_, []) => misused
  | (before, first :: rest) =>
      _ ← assert_ (bool_decide (before = []));
      _ ← assert_ (bool_decide ((m_account m, first.1) = h));
      let accountNext := head rest in
      let feeNext := next_of h (byFee_ q) in
      useAccountNext ← match accountNext with
                       | None => mret false
                       | Some x =>
                           if negb (x.1 =? u32 (sequence m + 1)) then mret false
                           else match feeNext with
                                | None => mret true
                                | Some n => n ← deref q n; mret (feeLevel n <? feeLevel x.2)
                                end
                       end;
      let q := set_byFee (remove_handle h (byFee_ q)) q in
      let q := set_account (m_account m) (set_transactions (remove_seq first.1 (transactions A)) A) q in
      mret (if useAccountNext : bool then (λ x : Z * MaybeTx, (m_account m, x.1)) <$> accountNext else feeNext, q)
  end.

(** [erase (txQAccount, begin, end)], of the elements in the range *)
Definition erase_range (a : Blob) (A : TxQAccount) (range : TxMap) (q : TxQ) : TxQ :=
  let q := set_byFee (foldl (λ l x, remove_handle (a, x.1) l) (byFee_ q) range) q in
  set_account a (set_transactions (foldl (λ l x, remove_seq x.1 l) (transactions A) range) A) q.

(** ** Applying a transaction *)

(** A queued transaction with the same sequence: refuse the new one or mark the old one for
    replacement. *)
Definition check_existing (tx : QTx) (pf : Pf) (feeLevelPaid requiredFeeLevel : Z) (q : TxQ)
    : Outcome (TxQ * (Z + option Handle * option TxConsequences)) :=
  let account := q_account tx in
  let tSeq := q_sequence tx in
  match byAccount_ q !! account with
  | None => mret (q, inr (None, None))
  | Some A =>
      match split_seq tSeq (transactions A) with
      | (_, []) => mret (q, inr (None, None))
      | (before, existing :: rest) =>
          requiredRetryLevel ← increase (feeLevel existing.2) (retrySequencePercent setup_);
          if (requiredRetryLevel <? feeLevelPaid) ||
             ((feeLevel existing.2 <? requiredFeeLevel) && (requiredFeeLevel <=? feeLevelPaid) && bool_decide (before = []))
          then
            let h := (account, tSeq) in
            let '(q, r) :=
              match rest with
              | [] => (q, inr None)
              | _ =>
                  let '(m, c) := with_consequences existing.2 in
                  let q := update_tx (λ _, m) h q in
                  if negb (is_blocker c) then
                    let c' := calculateConsequences E pf in
                    if is_blocker c' then (q, inl telCAN_NOT_QUEUE_BLOCKS) else (q, inr (Some c'))
                  else (q, inr None)
              end in
            match r with
            | inl ter => mret (q, inl ter)
            | inr c =>
                deleteIter ← iterator_to q h;
                _ ← assert_ (sequence existing.2 =? tSeq);
                _ ← assert_ (bool_decide (m_account existing.2 = a_account A));
                mret (q, inr (Some deleteIter, c))
            end
          else mret (q, inl telCAN_NOT_QUEUE_FEE)
      end
  end.

(** The queued transactions of the account before and after the new one: [fee] and
    [potentialSpend] add up, [includeCurrentFee] says whether one comes after. *)
Record MultiTxn := mkMulti { fee : Z; spend : Z; includeCurrentFee : bool }.
Fixpoint multi_loop (tSeq feeLevelPaid : Z) (replaced : option Handle) (l : TxMap) (workingSeq : Z) (multi : MultiTxn)
    : Outcome (TxMap * (Z + option MultiTxn * Z)) :=
  match l with
  | [] => mret ([], inr (Some multi, workingSeq))
  | (s, m) :: rest =>
      if (workingSeq <? tSeq) && negb (s =? workingSeq) then mret (l, inr (None, workingSeq))
      else
        enough ← (if s =? u32 (tSeq - 1) then
                    requiredMultiLevel ← increase (feeLevel m) (multiTxnPercent setup_); mret (requiredMultiLevel <? feeLevelPaid)
                  else mret true);
        if negb enough then mret (l, inl telINSUF_FEE_P)
        else if s =? tSeq then
          _ ← assert_ (bool_decide (is_Some replaced));
          let multi := mkMulti (fee multi) (spend multi) (match rest with [] => false | _ => true end) in
          '(rest, r) ← multi_loop tSeq feeLevelPaid replaced rest (u32 (workingSeq + 1)) multi;
          mret ((s, m) :: rest, r)
        else
          let '(m, c) := with_consequences m in
          if (s <? tSeq) && is_blocker c then mret ((s, m) :: rest, inl telCAN_NOT_QUEUE_BLOCKED)
          else
            let multi := mkMulti (fee multi + cons_fee c) (spend multi + potentialSpend c) (includeCurrentFee multi) in
            '(rest, r) ← multi_loop tSeq feeLevelPaid replaced rest (u32 (workingSeq + 1)) multi;
            mret ((s, m) :: rest, r)
  end.

(** Whether the new transaction comes after queued ones, and the view in which it would. *)
Definition plan_multi (tx : QTx) (view : View) (feeLevelPaid fl : Z) (replaced : option Handle) (q : TxQ)
    : Outcome (TxQ * (Z + option (Z * View))) :=
  let account := q_account tx in
  let tSeq := q_sequence tx in
  match byAccount_ q !! account, read_account E view account with
  | Some A, Some (aSeq, balance) =>
      if negb (aSeq <? tSeq) then mret (q, inr None)
      else
        held ← canBeHeld tx view (Some A) replaced;
        if negb held then mret (q, inr None)
        else
          let '(before, from) := split_seq aSeq (transactions A) in
          '(from, r) ← multi_loop tSeq feeLevelPaid replaced from aSeq (mkMulti 0 0 false);
          let q := set_account account (set_transactions (before ++ from)%list A) q in
          match r with
          | inl ter => mret (q, inl ter)
          | inr (multi, workingSeq) =>
              match (if workingSeq <? tSeq then None else multi) with
              | None => mret (q, inr None)
              | Some multi =>
                  let reserve := accountReserve E view in
                  let totalFee := if includeCurrentFee multi then fee multi + q_fee tx else fee multi in
                  if (balance <=? totalFee) || (reserve <=? totalFee) then mret (q, inl telCAN_NOT_QUEUE_BALANCE)
                  else
                    let potentialTotalSpend := fee multi + Z.min (balance - Z.min balance reserve) (spend multi) in
                    _ ← assert_ (0 <? potentialTotalSpend);
                    mret (q, inr (Some (aSeq, bump E view fl account (balance - potentialTotalSpend) tSeq)))
              end
          end
  | _, _ => mret (q, inr None)
  end.

(** The loop that applies the queued transactions before the new one. *)
Fixpoint clear_loop (range : TxMap) (view : View) : TxMap * View * option Z :=
  match range with
  | [] => ([], view, None)
  | (s, m) :: rest =>
      let '(m, (ter, did), view) := maybe_apply m view in
      let m := set_result (retriesRemaining m - 1) ter m in
      if negb did then ((s, m) :: rest, view, Some ter)
      else let '(rest, view, r) := clear_loop rest view in ((s, m) :: rest, view, r)
  end.
Fixpoint below_seq (s : Z) (l : TxMap) : TxMap * TxMap :=
  match l with
  | [] => ([], [])
  | x :: l' => if x.1 <? s then let '(a, b) := below_seq s l' in (x :: a, b) else ([], l)
  end.
Definition tryClearAccountQueue (tx : QTx) (view : View) (pf : Pf) (aSeq0 feeLevelPaid txExtraCount : Z) (q : TxQ)
    : Outcome ((Z * bool) * View * TxQ) :=
  let account := q_account tx in
  let tSeq := q_sequence tx in
  A ← account_at q account;
  let '(before, from) := split_seq aSeq0 (transactions A) in
  match from with
  | [] => misused
  | (aSeq, _) :: _ =>
      required ← escalatedSeriesFeeLevel (feeMetrics_ q) (txCount E view) txExtraCount (u32 (tSeq - aSeq + 1));
      if negb required.1 then mret ((telINSUF_FEE_P, false), view, q)
      else
        let '(range, after) := below_seq tSeq from in
        let totalFeeLevelPaid := foldl (λ total x, u64 (total + feeLevel x.2)) feeLevelPaid range in
        if totalFeeLevelPaid <? required.2 then mret ((telINSUF_FEE_P, false), view, q)
        else
          let '(range, view, failed) := clear_loop range view in
          let A := set_transactions (before ++ range ++ after)%list A in
          let q := set_account account A q in
          match failed with
          | Some ter => mret ((ter, false), view, q)
          | None =>
              let '(r, view) := doApply E (preclaim E pf view) view in
              if r.2 then
                let q := erase_range account A range q in
                A ← account_at q account;
                mret (r, view, match after with
                               | x :: _ => if x.1 =? tSeq then erase_range account A [x] q else q
                               | [] => q
                               end)
              else mret (r, view, q)
          end
  end.

(** The average level of the account that pays least. *)
Definition endEffectiveFeeLevel (lowest feeLevelPaid : Z) (txs : TxMap) : Outcome Z :=
  if (feeLevelPaid <? lowest) || (Z.of_nat (length txs) =? 1) then mret lowest
  else
    let size := Z.of_nat (length txs) in
    _ ← assert_ (negb (size =? 0));
    let endTotal := foldl (λ total x,
      let next := feeLevel x.2 / size in
      let mod_ := feeLevel x.2 mod size in
      if (max64 - next <=? total.1) || (max64 - mod_ <=? total.2) then (max64, 0)
      else (total.1 + next, total.2 + mod_)) (0, 0) txs in
    mret (u64 (endTotal.1 + endTotal.2 / size)).
(** Making room in a full queue: refused, or the queue without the last transaction of the account
    that pays least. *)
Definition make_room (account : Blob) (feeLevelPaid : Z) (q : TxQ) : Outcome (option TxQ) :=
  match last (byFee_ q) with
  | None => misused
  | Some lastH =>
      lastM ← deref q lastH;
      if bool_decide (m_account lastM = account) then mret None
      else
        endAccount ← account_at q (m_account lastM);
        level ← endEffectiveFeeLevel (feeLevel lastM) feeLevelPaid (transactions endAccount);
        if level <? feeLevelPaid then
          match last (transactions endAccount) with
          | None => misused
          | Some x =>
              _ ← assert_ (bool_decide (m_account x.2 = m_account lastM));
              h ← iterator_to q (m_account lastM, x.1);
              q ← erase h q; mret (Some q)
          end
        else mret None
  end.

(** [add] and the insertion in the set by fee *)
Definition add_candidate (tx : QTx) (level fl : Z) (pf : Pf) (c : option TxConsequences) (q : TxQ) : Outcome TxQ :=
  let account := q_account tx in
  let A := default (new_account account) (byAccount_ q !! account) in
  let m := new_maybe tx level (Z.land (Z.land fl (Z.lnot tapRETRY)) (Z.lnot tapPREFER_QUEUE)) pf in
  let m := match c with Some c => set_consequences c m | None => m end in
  let '(added, l) := emplace_tx (q_sequence tx) m (transactions A) in
  _ ← assert_ added;
  let q := set_account account (set_transactions l A) q in
  l ← insert_fee q (account, q_sequence tx) level (byFee_ q);
  mret (set_byFee l q).

(** The last part of [apply]: to the open ledger, into the queue, or refused. *)
Definition apply_or_queue (tx : QTx) (view : View) (fl : Z) (pf : Pf) (pc : Pc) (feeLevelPaid requiredFeeLevel : Z)
    (replaced : option Handle) (c : option TxConsequences) (multi : bool) (q : TxQ) : Outcome ((Z * bool) * View * TxQ) :=
  if negb multi && (requiredFeeLevel <=? feeLevelPaid) then
    let '(r, view) := doApply E pc view in
    q ← match replaced with Some h => if r.2 then erase h q else mret q | None => mret q end;
    mret (r, view, q)
  else
    held ← (if multi then mret true else canBeHeld tx view (byAccount_ q !! q_account tx) replaced);
    if negb held then mret ((telCAN_NOT_QUEUE, false), view, q)
    else
      room ← (if negb (bool_decide (is_Some replaced)) && isFull 100 q then make_room (q_account tx) feeLevelPaid q else mret (Some q));
      match room with
      | None => mret ((telCAN_NOT_QUEUE_FULL, false), view, q)
      | Some q =>
          q ← match replaced with Some h => erase h q | None => mret q end;
          q ← add_candidate tx feeLevelPaid fl pf c q;
          mret ((terQUEUED, false), view, q)
      end.

(** [apply] *)
Definition txq_apply (view : View) (tx : QTx) (fl : Z) (q : TxQ) : Outcome ((Z * bool) * View * TxQ) :=
  let pf := preflight E view tx fl in
  if negb (pf_ter E pf =? tesSUCCESS) then mret ((pf_ter E pf, false), view, q)
  else
    let baseFee := calculateBaseFee E view tx in
    feeLevelPaid ← getFeeLevelPaid (q_fee tx) baseLevel baseFee setup_;
    level ← scaleFeeLevel (feeMetrics_ q) (txCount E view);
    requiredFeeLevel ← match byFee_ q with
                       | h :: _ => if negb (Z.land fl tapPREFER_QUEUE =? 0) then m ← deref q h; mret (Z.max level (feeLevel m)) else mret level
                       | [] => mret level
                       end;
    '(q, r) ← check_existing tx pf feeLevelPaid requiredFeeLevel q;
    match r with
    | inl ter => mret ((ter, false), view, q)
    | inr (replaced, c) =>
        '(q, r) ← plan_multi tx view feeLevelPaid fl replaced q;
        match r with
        | inl ter => mret ((ter, false), view, q)
        | inr multi =>
            let pc := preclaim E pf (match multi with Some (_, v) => v | None => view end) in
            if negb (likelyToClaimFee E pc) then mret ((pc_ter E pc, false), view, q)
            else
              _ ← assert_ (baseLevel <=? feeLevelPaid);
              cleared ← match multi with
                        | None => mret (None, q)
                        | Some (aSeq, _) =>
                            m ← deref q (q_account tx, aSeq);
                            if (Z.land fl tapPREFER_QUEUE =? 0) && (retriesRemaining m =? retriesAllowed) && (requiredFeeLevel <? feeLevelPaid) &&
                               (baseLevel <? requiredFeeLevel) && negb (baseFee =? 0)
                            then
                              '(res, sandbox, q) ← tryClearAccountQueue tx (open_sandbox E view) pf aSeq feeLevelPaid (txCount E view) q;
                              mret (if res.2 : bool then Some (res, sandbox_apply E sandbox view) else None, q)
                            else mret (None, q)
                        end;
              match cleared with
              | (Some (res, view), q) => mret (res, view, q)
              | (None, q) => apply_or_queue tx view fl pf pc feeLevelPaid requiredFeeLevel replaced c (bool_decide (is_Some multi)) q
              end
        end
    end.

(** ** Accepting queued transactions into the open ledger *)
Definition set_penalty (a : Blob) (retry drop : bool) (q : TxQ) : TxQ :=
  mkQueue (feeMetrics_ q) (byFee_ q)
    (alter (λ A, mkAccount (a_account A) (transactions A) (retry || retryPenalty A) (drop || dropPenalty A)) a (byAccount_ q)) (maxSize_ q).

(** An element that stays: fewer retries, and in a queue that is nearly full the last transaction
    of an account with a penalty goes. *)
Definition leave_in_queue (h : Handle) (ter : Z) (q : TxQ) : Outcome TxQ :=
  m ← deref q h;
  A ← account_at q (m_account m);
  let retries := if retryPenalty A && (2 <? retriesRemaining m) then 1 else retriesRemaining m - 1 in
  let q := update_tx (set_result retries ter) h q in
  if dropPenalty A && (1 <? Z.of_nat (length (transactions A))) && isFull 95 q then
    match last (transactions A) with
    | None => misused
    | Some x =>
        _ ← assert_ (bool_decide (m_account x.2 = m_account m));
        endIter ← iterator_to q (m_account m, x.1);
        _ ← assert_ (bool_decide (endIter ≠ h));
        erase endIter q
    end
  else mret q.

Fixpoint accept_loop (fuel : nat) (candidate : option Handle) (view : View) (changed : bool) (q : TxQ) : Outcome (bool * View * TxQ) :=
  match candidate with
  | None => mret (changed, view, q)
  | Some h =>
      match fuel with
      | O => misused
      | S fuel =>
          m ← deref q h;
          A ← account_at q (m_account m);
          match transactions A with
          | [] => misused
          | first :: _ =>
              if first.1 <? sequence m then accept_loop fuel (next_of h (byFee_ q)) view changed q
              else
                requiredFeeLevel ← scaleFeeLevel (feeMetrics_ q) (txCount E view);
                if requiredFeeLevel <=? feeLevel m then
                  let '(m', (ter, did), view) := maybe_apply m view in
                  let q := update_tx (λ _, m') h q in
                  if did : bool then
                    '(next, q) ← eraseAndAdvance h q; accept_loop fuel next view true q
                  else if isTefFailure ter || isTemMalformed ter || (retriesRemaining m' <=? 0) then
                    let q := set_penalty (m_account m) (retriesRemaining m' <=? 0) (negb (retriesRemaining m' <=? 0)) q in
                    '(next, q) ← eraseAndAdvance h q; accept_loop fuel next view changed q
                  else
                    q ← leave_in_queue h ter q;
                    accept_loop fuel (next_of h (byFee_ q)) view changed q
                else mret (changed, view, q)
          end
      end
  end.
(** [accept]: an element can be met again only after another was erased. *)
Definition txq_accept (view : View) (q : TxQ) : Outcome (bool * View * TxQ) :=
  let n := length (byFee_ q) in
  accept_loop ((n + 1) * (n + 1)) (head (byFee_ q)) view false q.

(** ** A closed ledger *)
Fixpoint expire_queue (ledgerSeq : Z) (l : list Handle) (q : TxQ) : Outcome TxQ :=
  match l with
  | [] => mret q
  | h :: l =>
      m ← deref q h;
      if match lastValid m with Some last => last <=? ledgerSeq | None => false end
      then q ← erase h (set_penalty (m_account m) false true q); expire_queue ledgerSeq l q
      else expire_queue ledgerSeq l q
  end.
Definition drop_empty (q : TxQ) : TxQ :=
  mkQueue (feeMetrics_ q) (byFee_ q) (filter (λ kv, transactions kv.2 ≠ []) (byAccount_ q)) (maxSize_ q).
Fixpoint fee_levels (txs : list (Z * Z)) : Outcome (list Z) :=
  match txs with
  | [] => mret []
  | (paid, baseFee) :: txs => l ← getFeeLevelPaid paid baseLevel baseFee setup_; r ← fee_levels txs; mret (l :: r)
  end.
(** [processClosedLedger]: the fees and base fees of the transactions in the ledger, its sequence *)
Definition processClosedLedger (txs : list (Z * Z)) (ledgerSeq : Z) (timeLeap : bool) (q : TxQ) : Outcome TxQ :=
  levels ← fee_levels txs;
  m ← metrics_update levels timeLeap setup_ (feeMetrics_ q);
  let maxSize := if timeLeap then maxSize_ q else Some (Z.max (u64 (txnsExpected_ m * ledgersInQueue setup_)) (queueSizeMin setup_)) in
  let q := mkQueue m (byFee_ q) (byAccount_ q) maxSize in
  q ← expire_queue ledgerSeq (byFee_ q) q;
  mret (drop_empty q).
End Queue.
