(* ===== verification/TxQTheorems.v ===== *)
(** * The transaction queue: theorems

    In every state that the operations reach, whatever the engine answers, the set by fee and the
    maps of the accounts hold the same transactions.  The operations return, except where one of two
    assertions on what the engine says of fees fails. *)

From stdpp Require Import prelude list gmap sorting.
From Stdlib Require Import ZArith Lia.
From S2P Require Import Prelude.
From S2P Require Import BaseUint.
From S2P Require Import Serializer.
From S2P Require Import Fees.
From S2P Require Import TxQ.

#[local] Open Scope Z_scope.

(** ** Outcomes that are values *)
Definition yields {A} (P : A → Prop) (o : Outcome A) : Prop := match o with inl _ => False | inr a => P a end.
Lemma yields_ret {A} (P : A → Prop) a : P a → yields P (mret a).
Proof. done. Qed.
Lemma yields_bind {A B} (P : A → Prop) (Q : B → Prop) (o : Outcome A) (f : A → Outcome B) :
  yields P o → (∀ a, P a → yields Q (f a)) → yields Q (o ≫= f).
Proof. destruct o; [done|]. intros H Hf. by apply Hf. Qed.
Lemma yields_mono {A} (P Q : A → Prop) o : yields P o → (∀ a, P a → Q a) → yields Q o.
Proof. destruct o; [done|]. intros H Hi. by apply Hi. Qed.
Lemma yields_assert b (P : () → Prop) : b = true → P () → yields P (assert_ b).
Proof. by intros ->. Qed.
(** An assertion that holds. *)
Ltac asserted := eapply (yields_bind (λ _, True)); [apply yields_assert; [|done]|intros _ _].
Lemma yields_eq {A} (P : A → Prop) o : yields P o → ∃ a, o = inr a ∧ P a.
Proof. destruct o as [|a]; [done|]. intros H. by exists a. Qed.
(** Outcomes that are values unless [F] holds. *)
Definition ends (F : Prop) {A} (P : A → Prop) (o : Outcome A) : Prop :=
  match o with inl e => e = misuse ∧ F | inr a => P a end.
Lemma ends_of F {A} (P : A → Prop) o : yields P o → ends F P o.
Proof. by destruct o. Qed.
Lemma ends_bind F {A B} (P : A → Prop) (Q : B → Prop) (o : Outcome A) (f : A → Outcome B) :
  ends F P o → (∀ a, P a → ends F Q (f a)) → ends F Q (o ≫= f).
Proof. destruct o; [done|]. intros H Hf. by apply Hf. Qed.
Lemma ends_mono (F G : Prop) {A} (P : A → Prop) o : ends F P o → (F → G) → ends G P o.
Proof. destruct o; [|done]. intros [? HF] HG. split; auto. Qed.
Lemma ends_assert (F : Prop) b : (b = false → F) → ends F (λ _, b = true) (assert_ b).
Proof. destruct b; [done|]. intros HF. split; auto. Qed.
Lemma increase_yields level p : yields (λ _, True) (increase level p).
Proof. done. Qed.
Lemma getFeeLevelPaid_yields f b r s : yields (λ _, True) (getFeeLevelPaid f b r s).
Proof.
  unfold getFeeLevelPaid. destruct (Z.eqb_spec r 0); [done|]. unfold mulDiv, mbind, outcome_bind. by destruct (Z.eqb_spec r 0).
Qed.

Section Maps.
Context {Pf : Type}.
Implicit Types (l : TxMap (Pf := Pf)) (m : MaybeTx (Pf := Pf)).

(** ** The map of an account *)
Abbreviation key_sorted l := (StronglySorted (λ x y : Z * MaybeTx (Pf := Pf), x.1 < y.1) l).

Lemma split_seq_spec s l :
  l = ((split_seq s l).1 ++ (split_seq s l).2)%list ∧
  Forall (λ x, x.1 ≠ s) (split_seq s l).1 ∧
  match (split_seq s l).2 with [] => True | x :: _ => x.1 = s end.
Proof.
  induction l as [|x l (IH1 & IH2 & IH3)]; [done|]. cbn [split_seq]. destruct (Z.eqb_spec x.1 s) as [E|E]; [by split_and!|].
  destruct (split_seq s l) as [b f]. cbn [fst snd] in *. split; [simpl; by rewrite <- IH1|]. split; [by constructor|done].
Qed.

Lemma find_tx_map s l : find_tx s l = (list_to_map l : gmap Z (MaybeTx (Pf := Pf))) !! s.
Proof.
  unfold find_tx. induction l as [|x l IH]; [done|]. cbn [split_seq]. destruct x as [k m]. cbn [fst]. simpl list_to_map.
  destruct (Z.eqb_spec k s) as [->|Hne]; [by rewrite lookup_insert_eq|]. rewrite lookup_insert_ne by done.
  destruct (split_seq s l). exact IH.
Qed.

Lemma sorted_keys l : key_sorted l → NoDup l.*1.
Proof.
  induction 1 as [|x l Hs IH Hx]; [constructor|]. rewrite fmap_cons. constructor; [|done].
  intros (y & E & Hy)%list_elem_of_fmap. rewrite Forall_forall in Hx. specialize (Hx y Hy). lia.
Qed.
Lemma find_tx_elem s m l : key_sorted l → find_tx s l = Some m ↔ (s, m) ∈ l.
Proof. intros Hs. rewrite find_tx_map. symmetry. apply elem_of_list_to_map. by apply sorted_keys. Qed.

Lemma find_remove s s' l : find_tx s (remove_seq s' l) = if bool_decide (s = s') then None else find_tx s l.
Proof.
  rewrite !find_tx_map. unfold remove_seq. induction l as [|[k m] l IH]; [by case_bool_decide|].
  rewrite filter_cons. cbn [fst]. case_bool_decide as E1.
  - subst s'. destruct (decide (k ≠ s)); simpl; [rewrite lookup_insert_ne by done|]; done.
  - destruct (decide (k ≠ s')) as [Hk|Hk]; simpl.
    + destruct (decide (k = s)) as [->|]; [by rewrite !lookup_insert_eq|]. by rewrite !lookup_insert_ne.
    + assert (k = s') as -> by (destruct (decide (k = s')); [done|]; by exfalso; apply Hk). rewrite lookup_insert_ne by done. done.
Qed.
Lemma remove_sorted s l : key_sorted l → key_sorted (remove_seq s l).
Proof. intros H. by apply StronglySorted_filter. Qed.

Lemma find_emplace s m l :
  key_sorted l → find_tx s l = None →
  (emplace_tx s m l).1 = true ∧ key_sorted (emplace_tx s m l).2 ∧
  (∀ k, find_tx k (emplace_tx s m l).2 = if bool_decide (k = s) then Some m else find_tx k l) ∧
  (∀ x, x ∈ (emplace_tx s m l).2 → x = (s, m) ∨ x ∈ l).
Proof.
  intros Hs. setoid_rewrite find_tx_map. induction Hs as [|[k n] l Hs IH Hx]; intros Hn.
  { cbn. split; [done|]. split; [repeat constructor|]. split.
    - intros k. case_bool_decide; [subst; by rewrite lookup_insert_eq|by rewrite lookup_insert_ne].
    - intros x Hx. apply list_elem_of_singleton in Hx. by left. }
  cbn [emplace_tx fst]. simpl in Hn. assert (k ≠ s) as Hks by (intros ->; by rewrite lookup_insert_eq in Hn).
  rewrite lookup_insert_ne in Hn by done. destruct (Z.ltb_spec s k).
  - cbn [fst snd]. split; [done|]. split; [constructor; [by constructor|]|split].
    + constructor; [done|]. eapply Forall_impl; [exact Hx|]. cbn. lia.
    + intros k'. simpl. case_bool_decide; [subst; by rewrite lookup_insert_eq|by rewrite lookup_insert_ne].
    + intros x [->|Hin]%elem_of_cons; [by left|by right].
  - destruct (Z.eqb_spec s k); [lia|]. destruct (IH Hn) as (IH1 & IH2 & IH3 & IH4). destruct (emplace_tx s m l) as [b r]. cbn [fst snd] in *.
    split; [done|]. split; [|split].
    + constructor; [done|]. rewrite Forall_forall in Hx |- *. intros x Hin. destruct (IH4 x Hin) as [->|Hin']; [cbn; lia|by apply Hx].
    + intros k'. simpl. destruct (decide (k' = k)) as [->|]; [rewrite !lookup_insert_eq; case_bool_decide; done|].
      rewrite !lookup_insert_ne by done. apply IH3.
    + intros x [->|Hin]%elem_of_cons; [right; apply list_elem_of_here|]. destruct (IH4 x Hin) as [->|?]; [by left|right; by apply list_elem_of_further].
Qed.

(** Elements that differ in what may change only. *)
Definition same_tx m m' : Prop := feeLevel m = feeLevel m' ∧ m_account m = m_account m' ∧ sequence m = sequence m'.
Definition same_txs l l' : Prop := Forall2 (λ x y, x.1 = y.1 ∧ same_tx x.2 y.2) l l'.
#[export] Instance same_tx_refl : Reflexive same_tx.
Proof. by intros m. Qed.
#[export] Instance same_txs_refl : Reflexive same_txs.
Proof. intros l. induction l; by constructor. Qed.

Lemma find_same s l l' : same_txs l l' →
  match find_tx s l, find_tx s l' with Some m, Some m' => same_tx m m' | None, None => True | _, _ => False end.
Proof.
  rewrite !find_tx_map. induction 1 as [|[k m] [k' m'] l l' [Hk Hm] H IH]; [done|]. cbn [fst snd] in *. subst k'. simpl.
  destruct (decide (k = s)) as [->|]; [by rewrite !lookup_insert_eq|]. by rewrite !lookup_insert_ne.
Qed.
Lemma same_sorted l l' : same_txs l l' → key_sorted l → key_sorted l'.
Proof.
  induction 1 as [|x y l l' [Hk _] H IH]; intros Hs; [constructor|]. inversion_clear Hs as [|? ? Hs' Hx]. constructor; [by apply IH|].
  rewrite Forall_forall in Hx |- *. intros z Hz. destruct (proj1 (list_elem_of_lookup _ _) Hz) as [i Hi].
  destruct (Forall2_lookup_r _ _ _ _ _ H Hi) as (w & Hw & Ew & _). rewrite <- Hk, <- Ew. apply Hx. by eapply list_elem_of_lookup_2.
Qed.
Lemma alter_same f s l : (∀ m, find_tx s l = Some m → same_tx m (f m)) → key_sorted l → same_txs l (alter_tx f s l).
Proof.
  intros Hf Hs. unfold alter_tx, same_txs. apply Forall2_fmap_r, Forall_Forall2_diag, Forall_forall. intros [k m] Hin. unfold compose. cbn [fst snd].
  destruct (Z.eqb_spec k s) as [->|]; [|split; [done|reflexivity]]. split; [done|]. apply Hf. by apply find_tx_elem.
Qed.
End Maps.

Section Invariant.
Context {View Pf Pc : Type} (E : Engine View Pf Pc) (s : Setup).
Implicit Types (q : TxQ (Pf := Pf)) (h k : Handle) (l : TxMap (Pf := Pf)) (m : MaybeTx (Pf := Pf)).

(** ** The invariant *)
Record queue_setup_ok : Prop := {
  qs_setup : setup_ok s;
  qs_ledgers : ledgersInQueue s < 2 ^ 24;
  qs_size : 1 ≤ queueSizeMin s < 2 ^ 56;
  qs_account : 1 ≤ maximumTxnPerAccount s;
}.

Definition tx_ok (a : Blob) (x : Z * MaybeTx (Pf := Pf)) : Prop :=
  sequence x.2 = x.1 ∧ m_account x.2 = a.
Record account_ok (a : Blob) (A : TxQAccount (Pf := Pf)) : Prop := {
  ao_account : a_account A = a;
  ao_sorted : StronglySorted (λ x y : Z * MaybeTx (Pf := Pf), x.1 < y.1) (transactions A);
  ao_txs : Forall (tx_ok a) (transactions A);
}.

Definition level q h : Z := default 0 (feeLevel <$> get_tx q h).
Record queue_ok q : Prop := {
  qo_metrics : metrics_ok s (feeMetrics_ q);
  qo_size : ∀ n, maxSize_ q = Some n → 1 ≤ n < 2 ^ 57;
  qo_nodup : NoDup (byFee_ q);
  qo_handles : ∀ h, h ∈ byFee_ q ↔ is_Some (get_tx q h);
  qo_sorted : StronglySorted (λ h k, level q k ≤ level q h) (byFee_ q);
  qo_accounts : map_Forall account_ok (byAccount_ q);
}.

Lemma get_set_account q a A k :
  get_tx (set_account a A q) k = if bool_decide (k.1 = a) then find_tx k.2 (transactions A) else get_tx q k.
Proof.
  unfold get_tx, set_account. cbn [byAccount_]. case_bool_decide as Ek; [rewrite Ek, lookup_insert_eq|rewrite lookup_insert_ne by done]; done.
Qed.
Lemma get_set_byFee q (hs : list Handle) k : get_tx (set_byFee hs q) k = get_tx q k.
Proof. done. Qed.

Lemma queue_ok_new : queue_setup_ok → queue_ok (new_queue s).
Proof.
  intros [Hs _ _ _]. split; cbn; [by apply new_metrics_ok|done|constructor| |constructor|apply map_Forall_empty].
  intros h. unfold get_tx. simpl. rewrite lookup_empty. split; [by intros ?%not_elem_of_nil|by intros [? ?]].
Qed.

(** The element behind a handle of the set. *)
Lemma queue_get q h : queue_ok q → h ∈ byFee_ q →
  ∃ A m, byAccount_ q !! h.1 = Some A ∧ account_ok h.1 A ∧ find_tx h.2 (transactions A) = Some m ∧ get_tx q h = Some m ∧
    m_account m = h.1 ∧ sequence m = h.2.
Proof.
  intros Hq [m Hm]%(qo_handles q Hq). unfold get_tx in Hm. destruct (byAccount_ q !! h.1) as [A|] eqn:EA; [|done]. simpl in Hm.
  pose proof (qo_accounts q Hq h.1 A EA) as HA. exists A, m. do 3 (split; [done|]). split; [unfold get_tx; by rewrite EA|].
  apply find_tx_elem in Hm; [|apply HA]. pose proof (ao_txs _ _ HA) as Ht. rewrite Forall_forall in Ht. by destruct (Ht _ Hm) as (? & ?).
Qed.
Lemma account_get q a A x : queue_ok q → byAccount_ q !! a = Some A → x ∈ transactions A →
  get_tx q (a, x.1) = Some x.2 ∧ (a, x.1) ∈ byFee_ q ∧ tx_ok a x.
Proof.
  intros Hq HA Hx. pose proof (qo_accounts q Hq a A HA) as Ha. destruct x as [k m]. cbn [fst snd].
  assert (get_tx q (a, k) = Some m) as Hg. { unfold get_tx. cbn [fst snd]. rewrite HA. simpl. apply find_tx_elem; [apply Ha|done]. }
  split; [done|]. split; [apply (qo_handles q Hq); by eexists|]. pose proof (ao_txs _ _ Ha) as Ht. rewrite Forall_forall in Ht. by apply Ht.
Qed.
Lemma deref_yields q h : queue_ok q → h ∈ byFee_ q →
  yields (λ m, get_tx q h = Some m ∧ m_account m = h.1 ∧ sequence m = h.2) (deref q h).
Proof. intros Hq Hh. destruct (queue_get q h Hq Hh) as (A & m & _ & _ & _ & Hg & Hrest). unfold deref. by rewrite Hg. Qed.
Lemma account_at_yields q h : queue_ok q → h ∈ byFee_ q → yields (λ A, byAccount_ q !! h.1 = Some A ∧ account_ok h.1 A) (account_at q h.1).
Proof. intros Hq Hh. destruct (queue_get q h Hq Hh) as (A & m & HA & Ha & _). unfold account_at. by rewrite HA. Qed.

(** ** Changes that keep the elements *)
Lemma same_txs_ok q a A l :
  queue_ok q → byAccount_ q !! a = Some A → same_txs (transactions A) l → Forall (tx_ok a) l →
  queue_ok (set_account a (set_transactions l A) q).
Proof.
  intros Hq HA Hs Hl. pose proof (qo_accounts q Hq a A HA) as Ha.
  assert (∀ k, match get_tx q k, get_tx (set_account a (set_transactions l A) q) k with
               | Some m, Some m' => feeLevel m = feeLevel m' | None, None => True | _, _ => False end) as Hget.
  { intros k. rewrite get_set_account. case_bool_decide as Ek; [|by destruct (get_tx q k)].
    unfold get_tx. rewrite Ek, HA. simpl. pose proof (find_same k.2 _ _ Hs) as Hf.
    destruct (find_tx k.2 (transactions A)), (find_tx k.2 l); try done. apply Hf. }
  assert (∀ k, level (set_account a (set_transactions l A) q) k = level q k) as Hlev.
  { intros k. unfold level. specialize (Hget k). destruct (get_tx q k), (get_tx (set_account a (set_transactions l A) q) k); done. }
  destruct Hq as [H1 H2 H3 H4 H5 H6]. split; cbn; [done|done|done| | |].
  - intros k. rewrite H4. specialize (Hget k). destruct (get_tx q k), (get_tx (set_account a (set_transactions l A) q) k); done.
  - eapply StronglySorted_weaken; [|exact H5]. intros h k _ _ Hh. by rewrite !Hlev.
  - apply map_Forall_insert_2; [|done]. split; cbn; [apply Ha|eapply same_sorted; [done|apply Ha]|done].
Qed.

Lemma update_as_set f h q A : byAccount_ q !! h.1 = Some A →
  update_tx f h q = set_account h.1 (set_transactions (alter_tx f h.2 (transactions A)) A) q.
Proof. intros HA. unfold update_tx, set_account. f_equal. apply map_eq. intros i. destruct (decide (i = h.1)) as [->|].
  - by rewrite lookup_alter_eq, HA, lookup_insert_eq.
  - by rewrite lookup_alter_ne, lookup_insert_ne.
Qed.
End Invariant.

Section Operations.
Context {View Pf Pc : Type} (E : Engine View Pf Pc) (s : Setup).
Implicit Types (q : TxQ (Pf := Pf)) (h k : Handle) (l : TxMap (Pf := Pf)) (m : MaybeTx (Pf := Pf)).
Abbreviation queue_ok := (queue_ok s).

Lemma tx_ok_alter a f n l :
  Forall (tx_ok a) l → (∀ x, x ∈ l → x.1 = n → tx_ok a (n, f x.2)) → Forall (tx_ok a) (alter_tx f n l).
Proof.
  intros Hl Hf. unfold alter_tx. apply Forall_fmap, Forall_forall. intros x Hx. unfold compose. rewrite Forall_forall in Hl.
  destruct (Z.eqb_spec x.1 n) as [En|]; [rewrite En; by apply Hf|by apply Hl].
Qed.

Lemma update_ok f h q m :
  queue_ok q → get_tx q h = Some m → same_tx m (f m) →
  queue_ok (update_tx f h q) ∧ get_tx (update_tx f h q) h = Some (f m).
Proof.
  intros Hq Hm Hs. assert (h ∈ byFee_ q) as Hh by (apply (qo_handles s q Hq); by eexists).
  destruct (queue_get s q h Hq Hh) as (A & m' & HA & Ha & Hfind & Hg & Hacc & Hseq). rewrite Hm in Hg. injection Hg as <-.
  rewrite (update_as_set f h q A HA). split.
  - apply same_txs_ok; try done.
    + apply alter_same; [|apply Ha]. intros m' Hm'. rewrite Hfind in Hm'. by injection Hm' as <-.
    + apply tx_ok_alter; [apply Ha|]. intros [n m'] Hin En. cbn [fst snd] in *. subst n. apply (find_tx_elem h.2 m') in Hin; [|apply Ha].
      rewrite Hfind in Hin. injection Hin as <-. destruct Hs as (_ & H1 & H2). split; cbn; congruence.
  - rewrite get_set_account, bool_decide_eq_true_2 by done. cbn [transactions set_transactions]. rewrite find_tx_map in *.
    clear -Hfind. unfold alter_tx. induction (transactions A) as [|[n x] l IH]; [done|]. simpl in *.
    destruct (Z.eqb_spec n h.2) as [->|].
    + rewrite lookup_insert_eq in Hfind |- *. by injection Hfind as ->.
    + rewrite lookup_insert_ne in Hfind |- * by done. by apply IH.
Qed.

Lemma set_penalty_ok a r d q : queue_ok q → queue_ok (set_penalty a r d q) ∧ ∀ k, get_tx (set_penalty a r d q) k = get_tx q k.
Proof.
  intros Hq. assert (∀ k, get_tx (set_penalty a r d q) k = get_tx q k) as Hg.
  { intros k. unfold get_tx, set_penalty. cbn [byAccount_]. destruct (decide (k.1 = a)) as [->|].
    - rewrite lookup_alter_eq. by destruct (byAccount_ q !! a).
    - by rewrite lookup_alter_ne. }
  split; [|done]. destruct Hq as [H1 H2 H3 H4 H5 H6]. split; cbn; try done.
  - intros k. by rewrite Hg.
  - eapply StronglySorted_weaken; [|exact H5]. intros h k _ _. unfold level. by rewrite !Hg.
  - intros b B. destruct (decide (b = a)) as [->|].
    + rewrite lookup_alter_eq. destruct (byAccount_ q !! a) as [A|] eqn:EA; [|done]. intros [= <-]. destruct (H6 a A EA). by split.
    + rewrite lookup_alter_ne by done. apply H6.
Qed.

(** ** Erasing *)
Lemma elem_of_remove h k (hs : list Handle) : k ∈ remove_handle h hs ↔ k ≠ h ∧ k ∈ hs.
Proof. unfold remove_handle. by rewrite list_elem_of_filter. Qed.

Lemma remove_handle_length h (hs : list Handle) : h ∈ hs → (length (remove_handle h hs) < length hs)%nat.
Proof.
  unfold remove_handle. induction hs as [|x hs IH]; [by intros ?%not_elem_of_nil|]. intros Hh. rewrite filter_cons. destruct (decide (x ≠ h)) as [Hx|Hx].
  - apply elem_of_cons in Hh as [->|Hh]; [done|]. specialize (IH Hh). simpl. lia.
  - pose proof (length_filter (λ x, x ≠ h) hs). simpl. lia.
Qed.
Definition removed h q A : TxQ (Pf := Pf) :=
  set_account h.1 (set_transactions (remove_seq h.2 (transactions A)) A) (set_byFee (remove_handle h (byFee_ q)) q).
Lemma get_removed h q A k : byAccount_ q !! h.1 = Some A →
  get_tx (removed h q A) k = if bool_decide (k = h) then None else get_tx q k.
Proof.
  intros HA. unfold removed. rewrite get_set_account, get_set_byFee. cbn [transactions set_transactions]. rewrite find_remove.
  destruct (decide (k.1 = h.1)) as [E1|E1]; [rewrite bool_decide_eq_true_2 by done|rewrite bool_decide_eq_false_2 by done].
  - unfold get_tx. rewrite E1, HA. simpl. destruct k as [a n], h as [b n']. cbn [fst snd] in *. subst b.
    destruct (decide (n = n')) as [->|]; [by rewrite !bool_decide_eq_true_2|]. rewrite !bool_decide_eq_false_2; [done|congruence|done].
  - rewrite bool_decide_eq_false_2; [done|]. by intros ->.
Qed.
Lemma removed_ok h q A : queue_ok q → byAccount_ q !! h.1 = Some A → queue_ok (removed h q A).
Proof.
  intros Hq HA. pose proof (qo_accounts s q Hq h.1 A HA) as Ha. destruct Hq as [H1 H2 H3 H4 H5 H6]. split; cbn; try done.
  - by apply NoDup_filter.
  - intros k. rewrite elem_of_remove, (get_removed h q A k HA), H4. case_bool_decide; [split; [by intros [? _]|by intros [? ?]]|].
    split; [by intros [_ ?]|done].
  - eapply StronglySorted_weaken; [|by apply StronglySorted_filter, H5]. intros a b [Ha' _]%elem_of_remove [Hb' _]%elem_of_remove.
    unfold level. by rewrite !(get_removed h q A _ HA), !bool_decide_eq_false_2.
  - apply map_Forall_insert_2; [|done]. split; cbn; [apply Ha|by apply remove_sorted, Ha|]. unfold remove_seq. apply Forall_forall. intros x [_ Hx]%list_elem_of_filter.
    pose proof (ao_txs _ _ Ha) as Ht. rewrite Forall_forall in Ht. by apply Ht.
Qed.

(** What erasing an element leaves. *)
Definition erased h q q' : Prop :=
  queue_ok q' ∧ byFee_ q' = remove_handle h (byFee_ q) ∧ (∀ k, get_tx q' k = if bool_decide (k = h) then None else get_tx q k) ∧
  (∀ a, is_Some (byAccount_ q !! a) ↔ is_Some (byAccount_ q' !! a)) ∧ maxSize_ q' = maxSize_ q.
Lemma removed_erased h q A : queue_ok q → byAccount_ q !! h.1 = Some A → erased h q (removed h q A).
Proof.
  intros Hq HA. split; [by apply removed_ok|]. split; [done|]. split; [intros k; by apply get_removed|]. split; [|done].
  intros a. unfold removed. cbn. destruct (decide (a = h.1)) as [->|]; [|by rewrite lookup_insert_ne].
  rewrite lookup_insert_eq, HA. split; intros _; by eexists.
Qed.
Lemma erase_ok h q : queue_ok q → h ∈ byFee_ q → yields (erased h q) (erase h q).
Proof.
  intros Hq Hh. destruct (queue_get s q h Hq Hh) as (A & m & HA & Ha & Hf & Hg & Hacc & Hseq).
  unfold erase, deref, account_at, mbind, outcome_bind. rewrite Hg. cbn [mret outcome_ret]. rewrite Hacc, HA, Hseq. cbn [mret outcome_ret].
  rewrite Hf, bool_decide_eq_true_2 by (by eexists). cbn [assert_ mret outcome_ret]. apply yields_ret. by apply removed_erased.
Qed.

Lemma from_handle_split h (hs : list Handle) : h ∈ hs → ∃ before, hs = (before ++ from_handle h hs)%list ∧ from_handle h hs = h :: tail (from_handle h hs).
Proof.
  induction hs as [|x hs IH]; [by intros ?%not_elem_of_nil|]. intros Hx. cbn [from_handle]. case_bool_decide as Ex; [subst; by exists []|].
  apply elem_of_cons in Hx as [->|Hx]; [done|]. destruct (IH Hx) as (before & H1 & H2). exists (x :: before). split; [simpl; by rewrite <- H1|done].
Qed.
Lemma next_of_elem h k (hs : list Handle) : h ∈ hs → NoDup hs → next_of h hs = Some k → k ∈ hs ∧ k ≠ h.
Proof.
  intros Hh Hn Hk. destruct (from_handle_split h hs Hh) as (before & Es & Ef). unfold next_of in Hk. rewrite Es, Ef in Hn |- *.
  destruct (tail (from_handle h hs)) as [|y r]; [done|]. simpl in Hk. injection Hk as ->. apply NoDup_app in Hn as (_ & _ & Hn).
  split; [apply elem_of_app; right; apply list_elem_of_further, list_elem_of_here|]. intros ->. inversion_clear Hn as [|? ? Hnot _]. apply Hnot, list_elem_of_here.
Qed.

Lemma eraseAndAdvance_ok h q A x rest :
  queue_ok q → h ∈ byFee_ q → byAccount_ q !! h.1 = Some A → transactions A = x :: rest → x.1 = h.2 →
  yields (λ r, erased h q r.2 ∧ (∀ k, r.1 = Some k → k ∈ byFee_ r.2)) (eraseAndAdvance h q).
Proof.
  intros Hq Hh HA Ht Hx. destruct (queue_get s q h Hq Hh) as (A' & m & HA' & Ha & Hf & Hg & Hacc & Hseq). rewrite HA in HA'. injection HA' as <-.
  unfold eraseAndAdvance, deref, account_at. rewrite Hg. cbn [mbind outcome_bind mret outcome_ret]. rewrite Hacc, HA, Hseq. cbn [mbind outcome_bind mret outcome_ret].
  rewrite Ht. cbn [split_seq]. rewrite Hx, Z.eqb_refl. asserted; [by apply bool_decide_eq_true_2|].
  asserted; [apply bool_decide_eq_true_2; rewrite Hx; by destruct h|]. rewrite Hx.
  pose proof (removed_erased h q A Hq HA) as He. rewrite <- Ht. fold (removed h q A).
  assert (∀ k, next_of h (byFee_ q) = Some k → k ∈ byFee_ q ∧ k ≠ h) as Hnext by (intros k; apply next_of_elem; [done|apply Hq]).
  eapply yields_bind with (P := λ _, True).
  { destruct (head rest) as [y|]; [|done]. destruct (negb _); [done|]. destruct (next_of h (byFee_ q)) as [n|]; [|done].
    destruct (Hnext n eq_refl) as [Hn _]. by destruct (queue_get s q n Hq Hn) as (? & ? & _ & _ & _ & -> & _). }
  intros use _. apply yields_ret. cbn [fst snd]. split; [done|]. intros k Hk. destruct He as (_ & -> & _). apply elem_of_remove. destruct use.
  - destruct rest as [|y rest]; [done|]. simpl in Hk. injection Hk as <-.
    assert (y ∈ transactions A) as Hy by (rewrite Ht; apply list_elem_of_further, list_elem_of_here).
    destruct (account_get s q h.1 A y Hq HA Hy) as (_ & Hin & _). split; [|done]. intros Eq%(f_equal snd). cbn [snd] in Eq.
    pose proof (ao_sorted _ _ Ha) as Hs. rewrite Ht in Hs. inversion_clear Hs as [|? ? _ Hall]. inversion_clear Hall. lia.
  - destruct (Hnext k Hk). done.
Qed.
End Operations.

Section Insertion.
Context {View Pf Pc : Type} (E : Engine View Pf Pc) (s : Setup).
Implicit Types (q : TxQ (Pf := Pf)) (h k : Handle) (l : TxMap (Pf := Pf)) (m : MaybeTx (Pf := Pf)).
Abbreviation queue_ok := (queue_ok s).

(** ** Inserting *)
Lemma insert_fee_ok q h n hs :
  level q h = n → Forall (λ k, is_Some (get_tx q k)) hs → StronglySorted (λ h k, level q k ≤ level q h) hs →
  yields (λ r, r ≡ₚ h :: hs ∧ StronglySorted (λ h k, level q k ≤ level q h) r) (insert_fee q h n hs).
Proof.
  intros Hn Hall Hs. induction Hs as [|x hs Hs IH Hx]; [apply yields_ret; split; [done|repeat constructor]|].
  apply Forall_cons in Hall as [[m Hm] Hall]. cbn [insert_fee]. unfold deref. rewrite Hm. cbn [mbind outcome_bind mret outcome_ret].
  assert (level q x = feeLevel m) as El by (unfold level; by rewrite Hm). destruct (Z.ltb_spec (feeLevel m) n).
  - apply yields_ret. split; [done|]. constructor; [by constructor|]. constructor; [lia|]. eapply Forall_impl; [exact Hx|]. cbn. intros k Hk. lia.
  - eapply yields_bind; [by apply IH|]. intros r [Hp Hr]. apply yields_ret. split; [rewrite Hp; apply perm_swap|]. constructor; [done|].
    rewrite Hp. constructor; [lia|done].
Qed.

Lemma add_candidate_ok tx n fl pf c q :
  queue_ok q → get_tx q (q_account tx, q_sequence tx) = None →
  yields (λ q', queue_ok q' ∧ byFee_ q' ≡ₚ (q_account tx, q_sequence tx) :: byFee_ q ∧ maxSize_ q' = maxSize_ q) (add_candidate tx n fl pf c q).
Proof.
  intros Hq Hnone. unfold add_candidate. set (A := default _ _). set (m0 := new_maybe tx n _ pf).
  set (m := match c with Some c => set_consequences c m0 | None => m0 end). set (h := (q_account tx, q_sequence tx)) in *.
  assert (account_ok (q_account tx) A ∧ ∀ j, find_tx j (transactions A) = get_tx q (q_account tx, j)) as [HA Hget].
  { unfold A, get_tx. cbn [fst snd]. destruct (byAccount_ q !! q_account tx) as [B|] eqn:EB; [split; [by apply (qo_accounts s q Hq)|done]|].
    split; [|done]. split; cbn; [done|constructor|constructor]. }
  destruct (find_emplace (q_sequence tx) m (transactions A) (ao_sorted _ _ HA) ltac:(by rewrite Hget)) as (E1 & E2 & E3 & E4).
  destruct (emplace_tx (q_sequence tx) m (transactions A)) as [b l]. cbn [fst snd] in *. subst b. asserted; [done|].
  set (q1 := set_account (q_account tx) (set_transactions l A) q).
  assert (feeLevel m = n ∧ sequence m = q_sequence tx ∧ m_account m = q_account tx) as (Hm1 & Hm2 & Hm3) by (unfold m; by destruct c).
  assert (∀ k, get_tx q1 k = if bool_decide (k = h) then Some m else get_tx q k) as Hg.
  { intros k. unfold q1. rewrite get_set_account. cbn [transactions set_transactions]. rewrite E3, Hget. destruct k as [a j]. cbn [fst snd].
    destruct (decide (a = q_account tx)) as [->|]; [rewrite (bool_decide_eq_true_2 (q_account tx = q_account tx)) by done|].
    - destruct (decide (j = q_sequence tx)) as [->|]; [by rewrite !bool_decide_eq_true_2|]. rewrite !bool_decide_eq_false_2; [done|unfold h; congruence|done].
    - rewrite !bool_decide_eq_false_2; [done|unfold h; congruence|done]. }
  assert (h ∉ byFee_ q) as Hnot by (intros [m' Hm']%(qo_handles s q Hq); congruence).
  assert (∀ k, k ∈ byFee_ q → level q1 k = level q k) as Hlev.
  { intros k Hk. unfold level. rewrite Hg, bool_decide_eq_false_2; [done|]. by intros ->. }
  destruct Hq as [H1 H2 H3 H4 H5 H6]. eapply yields_bind; [apply insert_fee_ok|].
  - unfold level. by rewrite Hg, bool_decide_eq_true_2.
  - apply Forall_forall. intros k Hk. rewrite Hg. case_bool_decide; [by eexists|by apply H4].
  - eapply StronglySorted_weaken; [|exact H5]. intros a b Ha Hb Hab. cbn. by rewrite !Hlev.
  - intros hs [Hp Hs]. change (byFee_ q1) with (byFee_ q) in Hp. apply yields_ret. split; [|done]. split; cbn; try done.
    + rewrite Hp. by constructor.
    + intros k. rewrite get_set_byFee, Hg, Hp, elem_of_cons, H4. case_bool_decide; [split; [by eexists|by left]|]. naive_solver.
    + apply map_Forall_insert_2; [|done]. split; cbn; [apply HA|done|]. apply Forall_forall. intros x Hx. destruct (E4 x Hx) as [->|Hx'].
      * by split.
      * pose proof (ao_txs _ _ HA) as Ht. rewrite Forall_forall in Ht. by apply Ht.
Qed.

(** ** Making room *)
Lemma endEffective_yields n p (txs : TxMap (Pf := Pf)) : txs ≠ [] → yields (λ _, True) (endEffectiveFeeLevel n p txs).
Proof.
  intros Hne. unfold endEffectiveFeeLevel. destruct (_ || _); [done|]. asserted; [|done]. destruct txs; [done|]. simpl length.
  destruct (Z.eqb_spec (Z.of_nat (S (length txs))) 0); [lia|done].
Qed.
Lemma make_room_ok a p q :
  queue_ok q → byFee_ q ≠ [] →
  yields (λ r, match r with None => True | Some q' => ∃ h, h ∈ byFee_ q ∧ h.1 ≠ a ∧ erased s h q q' end) (make_room a p q).
Proof.
  intros Hq Hne. unfold make_room. destruct (last (byFee_ q)) as [h|] eqn:El; [|by apply last_None in El].
  assert (h ∈ byFee_ q) as Hh by (apply last_Some in El as [l' ->]; apply elem_of_app; right; apply list_elem_of_here).
  eapply yields_bind; [by apply (deref_yields s)|]. intros m (Hm & Hacc & Hseq). case_bool_decide as Ea; [done|]. rewrite Hacc in *.
  eapply yields_bind; [by apply (account_at_yields s)|]. intros A [HA Ha].
  destruct (queue_get s q h Hq Hh) as (A' & m' & HA' & _ & Hf & _). rewrite HA in HA'. injection HA' as <-. apply find_tx_elem in Hf; [|apply Ha].
  eapply yields_bind; [apply endEffective_yields; intros E0; rewrite E0 in Hf; by apply not_elem_of_nil in Hf|]. intros n _. destruct (n <? p); [|done].
  destruct (last (transactions A)) as [x|] eqn:Ex; [|apply last_None in Ex; rewrite Ex in Hf; by apply not_elem_of_nil in Hf].
  assert (x ∈ transactions A) as Hx by (apply last_Some in Ex as [l' ->]; apply elem_of_app; right; apply list_elem_of_here).
  destruct (account_get s q h.1 A x Hq HA Hx) as (_ & Hin & (_ & Hxa)). asserted; [by apply bool_decide_eq_true_2|].
  unfold iterator_to. rewrite bool_decide_eq_true_2 by done. cbn [mbind outcome_bind mret outcome_ret].
  eapply yields_bind; [by apply (erase_ok s)|]. intros q' He. apply yields_ret. exists (h.1, x.1). done.
Qed.

(** ** A closed ledger *)
Lemma expire_queue_ok n hs : ∀ q, queue_ok q → NoDup hs → (∀ h, h ∈ hs → h ∈ byFee_ q) → yields queue_ok (expire_queue n hs q).
Proof.
  induction hs as [|h hs IH]; intros q Hq Hn Hsub; [done|]. cbn [expire_queue]. inversion_clear Hn as [|? ? Hnot Hn'].
  assert (h ∈ byFee_ q) as Hh by (apply Hsub, list_elem_of_here). eapply yields_bind; [by apply (deref_yields s)|]. intros m (Hm & Hacc & _).
  destruct (match lastValid m with Some last => last <=? n | None => false end).
  - destruct (set_penalty_ok s (m_account m) false true q Hq) as [Hq' _].
    eapply yields_bind; [apply (erase_ok s); [exact Hq'|done]|]. intros q' (Hq'' & Hb & _). apply IH; [done|done|].
    intros k Hk. rewrite Hb. apply elem_of_remove. split; [by intros ->|]. apply Hsub. by apply list_elem_of_further.
  - apply IH; [done|done|]. intros k Hk. apply Hsub. by apply list_elem_of_further.
Qed.

Lemma drop_empty_ok q : queue_ok q → queue_ok (drop_empty q).
Proof.
  intros Hq. assert (∀ k, get_tx (drop_empty q) k = get_tx q k) as Hg.
  { intros k. unfold get_tx, drop_empty. cbn [byAccount_]. destruct (byAccount_ q !! k.1) as [A|] eqn:EA.
    - destruct (decide (transactions A = [])) as [E0|E0].
      + rewrite map_lookup_filter_None_2; [simpl; by rewrite E0|]. right. intros A' HA'. rewrite EA in HA'. injection HA' as <-. naive_solver.
      + by rewrite (map_lookup_filter_Some_2 _ _ _ A).
    - rewrite map_lookup_filter_None_2; [done|by left]. }
  destruct Hq as [H1 H2 H3 H4 H5 H6]. split; cbn; try done.
  - intros k. by rewrite Hg.
  - eapply StronglySorted_weaken; [|exact H5]. intros h k _ _. unfold level. by rewrite !Hg.
  - intros a A HA. apply map_lookup_filter_Some in HA as [HA _]. by apply H6.
Qed.

Lemma fee_levels_yields txs : yields (λ levels, length levels = length txs) (fee_levels s txs).
Proof.
  induction txs as [|[p b] txs IH]; [done|]. cbn [fee_levels]. eapply yields_bind; [apply getFeeLevelPaid_yields|]. intros x _.
  eapply yields_bind; [exact IH|]. intros l Hl. apply yields_ret. simpl. by rewrite Hl.
Qed.

Lemma processClosedLedger_ok txs n leap q :
  queue_setup_ok s → queue_ok q → Z.of_nat (length txs) < 2 ^ 28 → yields queue_ok (processClosedLedger s txs n leap q).
Proof.
  intros [Hs Hl Hm _] Hq Hlen. unfold processClosedLedger. eapply yields_bind; [apply fee_levels_yields|]. intros levels El.
  destruct (metrics_update_ok s (feeMetrics_ q) levels leap Hs (qo_metrics s q Hq) ltac:(by rewrite El)) as (m' & -> & Hm').
  cbn [mbind outcome_bind mret outcome_ret]. pose proof (mo_expected _ _ Hm') as He. pose proof (mo_min _ _ Hm') as Hmin. pose proof (so_queue _ Hs) as Hsq.
  set (q1 := mkQueue m' _ _ _). assert (queue_ok q1) as Hq1.
  { destruct Hq as [H1 H2 H3 H4 H5 H6]. split; cbn; try done. intros k. destruct leap; [by apply H2|]. intros [= <-].
    unfold u64, wrap. rewrite Z.mod_small by nia. nia. }
  eapply yields_bind; [apply expire_queue_ok; [done|apply Hq|done]|]. intros q' Hq'. apply yields_ret. by apply drop_empty_ok.
Qed.
End Insertion.

Section Accept.
Context {View Pf Pc : Type} (E : Engine View Pf Pc) (s : Setup).
Implicit Types (q : TxQ (Pf := Pf)) (h k : Handle) (l : TxMap (Pf := Pf)) (m : MaybeTx (Pf := Pf)).
Abbreviation queue_ok := (queue_ok s).

(** What the queue relies on: the number of transactions in a view. *)
Definition counts_ok : Prop := ∀ v, 0 ≤ txCount E v < 2 ^ 31.

(** The engine would take a transaction that pays less than the base fee, in the view or in one in
    which the account has spent more: [assert (feeLevelPaid >= baseLevel)] fails. *)
Definition underpaid (v : View) (tx : QTx) (fl : Z) : Prop :=
  ∃ w n, (w = v ∨ ∃ f a b x, w = bump E v f a b x) ∧
    likelyToClaimFee E (preclaim E (preflight E v tx fl) w) = true ∧
    getFeeLevelPaid (q_fee tx) baseLevel (calculateBaseFee E v tx) s = inr n ∧ n < baseLevel.

(** A transaction that spends something: what a transaction in the queue is taken for. *)
Definition pays (c : TxConsequences) : Prop := 0 ≤ cons_fee c ∧ 0 ≤ potentialSpend c ∧ (is_blocker c = false → 0 < cons_fee c).
#[export] Instance pays_dec c : Decision (pays c).
Proof. unfold pays. apply _. Defined.

(** The engine lets a transaction of the account wait that pays nothing:
    [assert (potentialTotalSpend > 0)] may fail. *)
Definition unpaid q (a : Blob) : Prop :=
  ∃ A x, byAccount_ q !! a = Some A ∧ x ∈ transactions A ∧ ¬ pays (with_consequences E x.2).2.

Lemma scale_yields q v : counts_ok → queue_ok q → yields (λ _, True) (scaleFeeLevel (feeMetrics_ q) (txCount E v)).
Proof. intros He Hq. rewrite (scaleFeeLevel_spec s) by (try apply Hq; pose proof (He v); lia). done. Qed.

Lemma maybe_apply_same m v : same_tx m (maybe_apply E m v).1.1.
Proof. unfold maybe_apply. destruct (doApply E _ v). done. Qed.

(** The first transaction of its account. *)
Definition first_of q h : Prop := ∃ A x rest, byAccount_ q !! h.1 = Some A ∧ transactions A = x :: rest ∧ x.1 = h.2.
Lemma first_update f h q : first_of q h → first_of (update_tx f h q) h.
Proof.
  intros (A & x & rest & HA & Ht & Hx). rewrite (update_as_set f h q A HA). unfold first_of, set_account. cbn [byAccount_]. rewrite lookup_insert_eq.
  eexists _, _, _. split; [done|]. cbn [transactions set_transactions]. unfold alter_tx. rewrite Ht, fmap_cons. split; [done|]. by destruct (x.1 =? h.2).
Qed.
Lemma first_penalty a r d h q : first_of q h → first_of (set_penalty a r d q) h.
Proof.
  intros (A & x & rest & HA & Ht & Hx). unfold first_of, set_penalty. cbn [byAccount_]. destruct (decide (a = h.1)) as [->|].
  - rewrite lookup_alter_eq, HA. by eexists _, x, rest.
  - rewrite lookup_alter_ne by done. by exists A, x, rest.
Qed.

(** ** Staying in the queue *)
Lemma leave_ok h ter q :
  queue_ok q → h ∈ byFee_ q → first_of q h →
  yields (λ q', queue_ok q' ∧ h ∈ byFee_ q' ∧ (byFee_ q' = byFee_ q ∨ (length (byFee_ q') < length (byFee_ q))%nat)) (leave_in_queue h ter q).
Proof.
  intros Hq Hh (B & y & rest & HB & Ht & Hy). unfold leave_in_queue. eapply yields_bind; [by apply (deref_yields s)|]. intros m (Hm & Hacc & Hseq). rewrite Hacc.
  eapply yields_bind; [by apply (account_at_yields s)|]. intros A [HA Ha]. rewrite HA in HB. injection HB as <-. set (f := set_result _ ter).
  destruct (update_ok s f h q m Hq Hm ltac:(done)) as [Hq' Hg']. set (q1 := update_tx f h q) in *.
  destruct (dropPenalty A && _ && _) eqn:Ed; [|apply yields_ret; split; [done|]; split; [done|by left]].
  apply andb_prop in Ed as [[_ Hlen%Z.ltb_lt]%andb_prop _].
  destruct (last (transactions A)) as [x|] eqn:Ex; [|apply last_None in Ex; rewrite Ex in Hlen; simpl in Hlen; lia].
  assert (x ∈ transactions A) as Hx by (apply last_Some in Ex as [l' ->]; apply elem_of_app; right; apply list_elem_of_here).
  destruct (account_get s q h.1 A x Hq HA Hx) as (_ & Hin & (_ & Hxa)). asserted; [by apply bool_decide_eq_true_2|].
  unfold iterator_to. change (byFee_ q1) with (byFee_ q). rewrite (bool_decide_eq_true_2 _ Hin). cbn [mbind outcome_bind mret outcome_ret].
  assert ((h.1, x.1) ≠ h) as Hne.
  { intros Eq%(f_equal snd). cbn [snd] in Eq. pose proof (ao_sorted _ _ Ha) as Hs. rewrite Ht in Hs, Ex, Hlen. destruct rest as [|z rest]; [simpl in Hlen; lia|].
    rewrite last_cons_cons in Ex. inversion_clear Hs as [|? ? _ Hall]. rewrite Forall_forall in Hall.
    assert (x ∈ z :: rest) as Hxr by (apply last_Some in Ex as [l' ->]; apply elem_of_app; right; apply list_elem_of_here). specialize (Hall x Hxr). lia. }
  asserted; [by apply bool_decide_eq_true_2|]. eapply yields_mono; [apply (erase_ok s); [exact Hq'|exact Hin]|].
  intros q' (Hq2 & Hb & _). split; [done|]. rewrite Hb. change (byFee_ q1) with (byFee_ q). split; [by apply elem_of_remove|]. right.
  by apply remove_handle_length.
Qed.

(** ** The loop *)
Lemma from_handle_length h (hs : list Handle) : (length (from_handle h hs) ≤ length hs)%nat.
Proof. induction hs as [|x hs IH]; [done|]. cbn [from_handle]. case_bool_decide; simpl; lia. Qed.
Lemma from_next h k (hs : list Handle) : NoDup hs → next_of h hs = Some k → from_handle k hs = tail (from_handle h hs).
Proof.
  unfold next_of. induction hs as [|x hs IH]; [done|]. intros Hn. inversion_clear Hn as [|? ? Hnot Hn']. cbn [from_handle].
  case_bool_decide as Ex; simpl.
  - destruct hs as [|y hs]; [done|]. simpl. intros [= ->]. rewrite bool_decide_eq_false_2 by (intros ->; apply Hnot, list_elem_of_here).
    by rewrite bool_decide_eq_true_2.
  - intros Hk. destruct (decide (h ∈ hs)) as [Hh|Hh].
    + destruct (next_of_elem h k hs Hh Hn' Hk) as [Hk' _]. rewrite bool_decide_eq_false_2 by (intros ->; done). by apply IH.
    + exfalso. assert (from_handle h hs = []) as E0; [|by rewrite E0 in Hk]. clear -Hh. induction hs as [|y hs IH]; [done|]. cbn [from_handle].
      rewrite bool_decide_eq_false_2 by (intros ->; apply Hh, list_elem_of_here). apply IH. intros H. apply Hh. by apply list_elem_of_further.
Qed.

(** How many rounds are left at most. *)
Definition rounds_left (candidate : option Handle) q : nat :=
  let n := length (byFee_ q) in
  n * (n + 1) + match candidate with None => 0 | Some h => length (from_handle h (byFee_ q)) end.
Lemma rounds_erase c c' q q' : (length (byFee_ q') < length (byFee_ q))%nat → (rounds_left c' q' < rounds_left c q)%nat.
Proof.
  intros H. unfold rounds_left. assert (match c' with None => 0 | Some h => length (from_handle h (byFee_ q')) end ≤ length (byFee_ q'))%nat
    by (destruct c'; [apply from_handle_length|lia]). nia.
Qed.
Lemma rounds_next h q q' : h ∈ byFee_ q → NoDup (byFee_ q) → byFee_ q' = byFee_ q → (rounds_left (next_of h (byFee_ q)) q' < rounds_left (Some h) q)%nat.
Proof.
  intros Hh Hn Eq. unfold rounds_left. rewrite Eq. destruct (from_handle_split h (byFee_ q) Hh) as (_ & _ & Ef).
  assert (length (from_handle h (byFee_ q)) = S (length (tail (from_handle h (byFee_ q))))) as -> by (rewrite Ef at 1; done).
  destruct (next_of h (byFee_ q)) as [k|] eqn:Ek; [rewrite (from_next h k) by done|]; lia.
Qed.

Lemma accept_loop_ok fuel : counts_ok → ∀ c v changed q,
  queue_ok q → (∀ h, c = Some h → h ∈ byFee_ q) → (rounds_left c q ≤ fuel)%nat →
  yields (λ r, queue_ok r.2 ∧ (length (byFee_ r.2) ≤ length (byFee_ q))%nat) (accept_loop E fuel c v changed q).
Proof.
  intros He. induction fuel as [|fuel IH]; intros c v changed q Hq Hc Hf; (destruct c as [h|]; [|by split; [|cbn; lia]]).
  { exfalso. specialize (Hc h eq_refl). destruct (from_handle_split h (byFee_ q) Hc) as (_ & _ & Ef). unfold rounds_left in Hf. rewrite Ef in Hf. simpl in Hf. lia. }
  specialize (Hc h eq_refl). pose proof (qo_nodup s q Hq) as Hn. cbn [accept_loop].
  eapply yields_bind; [by apply (deref_yields s)|]. intros m (Hm & Hacc & Hseq). rewrite Hacc, Hseq.
  eapply yields_bind; [by apply (account_at_yields s)|]. intros A [HA Ha].
  destruct (queue_get s q h Hq Hc) as (A' & m' & HA' & _ & Hfind & _). rewrite HA in HA'. injection HA' as <-. apply find_tx_elem in Hfind; [|apply Ha].
  destruct (transactions A) as [|first rest] eqn:Et; [by apply not_elem_of_nil in Hfind|].
  assert (∀ q', queue_ok q' → h ∈ byFee_ q' → byFee_ q' = byFee_ q ∨ (length (byFee_ q') < length (byFee_ q))%nat → ∀ v changed,
    yields (λ r, queue_ok r.2 ∧ (length (byFee_ r.2) ≤ length (byFee_ q))%nat) (accept_loop E fuel (next_of h (byFee_ q')) v changed q')) as Hnext.
  { intros q' Hq' Hh' Hb v' ch'. eapply yields_mono; [apply IH; [done| |]|].
    - intros k Hk. by apply (next_of_elem h k _ Hh' (qo_nodup s q' Hq') Hk).
    - destruct Hb as [Hb|Hb]; [pose proof (rounds_next h q q' Hc Hn Hb); rewrite Hb; lia|pose proof (rounds_erase (Some h) (next_of h (byFee_ q')) q q' Hb); lia].
    - intros r [Hr1 Hr2]. split; [done|]. destruct Hb as [Hb|Hb]; [rewrite Hb in Hr2|]; lia. }
  destruct (Z.ltb_spec first.1 h.2) as [Hlt|Hge]; [apply Hnext; [done|done|by left]|].
  assert (first_of q h) as Hfirst.
  { exists A, first, rest. split; [done|]. split; [done|]. apply elem_of_cons in Hfind as [<-|Hfind]; [done|].
    pose proof (ao_sorted _ _ Ha) as Hs. rewrite Et in Hs. inversion_clear Hs as [|? ? _ Hall]. rewrite Forall_forall in Hall. specialize (Hall _ Hfind). cbn in Hall. lia. }
  eapply yields_bind; [by apply scale_yields|]. intros n _. destruct (n <=? feeLevel m); [|apply yields_ret; cbn; split; [done|lia]].
  pose proof (maybe_apply_same m v) as Hsame. destruct (maybe_apply E m v) as [[m1 [ter did]] v1]. cbn [fst snd] in Hsame.
  destruct (update_ok s (λ _, m1) h q m Hq Hm Hsame) as [Hq1 Hg1]. set (q1 := update_tx _ h q) in *.
  pose proof (first_update (λ _, m1) h q Hfirst) as Hf1. fold q1 in Hf1.
  assert (∀ q', queue_ok q' → byFee_ q' = byFee_ q → first_of q' h → ∀ v changed,
    yields (λ r, queue_ok r.2 ∧ (length (byFee_ r.2) ≤ length (byFee_ q))%nat) (eraseAndAdvance h q' ≫= λ '(next, q), accept_loop E fuel next v changed q)) as Herase.
  { intros q' Hq' Hb (B & x & rest' & HB & Ht & Hx) v' ch'. eapply yields_bind; [eapply (eraseAndAdvance_ok s); [done|by rewrite Hb|done|done|done]|].
    intros [next q2] [(Hq2 & Hb2 & _) Hnx]. cbn [fst snd] in *. assert (length (byFee_ q2) < length (byFee_ q))%nat as Hlt by (rewrite Hb2, Hb; by apply remove_handle_length).
    eapply yields_mono; [apply IH; [done|done|pose proof (rounds_erase (Some h) next q q2 Hlt); lia]|]. intros r [Hr1 Hr2]. split; [done|lia]. }
  destruct did; [by apply Herase|]. destruct (_ || _).
  - set (q2 := set_penalty _ _ _ q1). destruct (set_penalty_ok s h.1 (retriesRemaining m1 <=? 0) (negb (retriesRemaining m1 <=? 0)) q1 Hq1) as [Hq2 _].
    apply Herase; [done|done|by apply first_penalty].
  - eapply yields_bind; [by apply leave_ok|]. intros q2 (Hq2 & Hh2 & Hb2). by apply Hnext.
Qed.

Lemma txq_accept_ok v q : counts_ok → queue_ok q →
  yields (λ r, queue_ok r.2 ∧ (length (byFee_ r.2) ≤ length (byFee_ q))%nat) (txq_accept E v q).
Proof.
  intros He Hq. unfold txq_accept. apply accept_loop_ok; [done|done| |].
  - intros h Hh. destruct (byFee_ q); [done|]. injection Hh as ->. apply list_elem_of_here.
  - unfold rounds_left. assert (match head (byFee_ q) with None => 0 | Some h => length (from_handle h (byFee_ q)) end ≤ length (byFee_ q))%nat
      by (destruct (head (byFee_ q)); [apply from_handle_length|lia]). nia.
Qed.
End Accept.

Section Apply.
Context {View Pf Pc : Type} (E : Engine View Pf Pc) (s : Setup).
Context (He : counts_ok E) (Hset : queue_setup_ok s).
Implicit Types (q : TxQ (Pf := Pf)) (h k : Handle) (l : TxMap (Pf := Pf)) (m : MaybeTx (Pf := Pf)).
Abbreviation queue_ok := (queue_ok s).

Lemma with_consequences_same m :
  same_tx m (with_consequences E m).1 ∧
  (with_consequences E (with_consequences E m).1).2 = (with_consequences E m).2.
Proof. unfold with_consequences. destruct (consequences m) as [c|] eqn:Em; cbn; [by rewrite Em|done]. Qed.

(** Computing the consequences of an element does not change whether it pays. *)
Lemma unpaid_update h q m a :
  get_tx q h = Some m → unpaid E (update_tx (λ _, (with_consequences E m).1) h q) a → unpaid E q a.
Proof.
  intros Hm (A & x & HA & Hx & Hn). unfold get_tx in Hm. unfold update_tx in HA. cbn [byAccount_] in HA.
  destruct (decide (a = h.1)) as [->|]; [|rewrite lookup_alter_ne in HA by done; by exists A, x].
  rewrite lookup_alter_eq in HA. destruct (byAccount_ q !! h.1) as [B|] eqn:EB; [|done]. injection HA as <-. simpl in Hm.
  cbn [transactions set_transactions] in Hx. unfold alter_tx in Hx. apply list_elem_of_fmap in Hx as (y & Ey & Hy).
  destruct (y.1 =? h.2); [|subst; by exists B, y].
  assert (∃ n : Z, (n, m) ∈ transactions B) as [n Hk].
  { unfold find_tx in Hm. destruct (split_seq_spec h.2 (transactions B)) as (Hs & _). destruct (split_seq h.2 (transactions B)) as [b [|z f]]; [done|].
    injection Hm as <-. exists z.1. rewrite Hs. cbn [fst snd]. apply elem_of_app. right. destruct z. apply list_elem_of_here. }
  exists B, (n, m). split; [done|]. split; [done|]. subst x. cbn [snd] in *. by rewrite (proj2 (with_consequences_same m)) in Hn.
Qed.

(** Queues with the same elements. *)
Definition same_queue q q' : Prop :=
  byFee_ q' = byFee_ q ∧ maxSize_ q' = maxSize_ q ∧ feeMetrics_ q' = feeMetrics_ q.
Lemma same_queue_refl q : same_queue q q.
Proof. done. Qed.

Definition handle (tx : QTx) : Handle := (q_account tx, q_sequence tx).
(** What is known of the transaction that is replaced. *)
Definition replaces (tx : QTx) (r : option Handle) q : Prop :=
  match r with None => handle tx ∉ byFee_ q | Some h => h = handle tx ∧ handle tx ∈ byFee_ q end.
Lemma replaces_same tx r q q' : same_queue q q' → replaces tx r q → replaces tx r q'.
Proof. intros (Hb & _). unfold replaces. by rewrite Hb. Qed.

Lemma check_existing_ok tx pf p n q :
  queue_ok q →
  yields (λ r, queue_ok r.1 ∧ same_queue q r.1 ∧
     match r.2 with
     | inl _ => True
     | inr (replaced, c) => replaces tx replaced r.1
     end ∧ (unpaid E r.1 (q_account tx) → unpaid E q (q_account tx))) (check_existing E s tx pf p n q).
Proof.
  intros Hq. unfold check_existing. destruct (byAccount_ q !! q_account tx) as [A|] eqn:EA.
  2: { apply yields_ret. cbn. split; [done|]. split; [done|]. split; [|done]. intros [m Hm]%(qo_handles s q Hq). unfold get_tx, handle in Hm. cbn in Hm. by rewrite EA in Hm. }
  destruct (split_seq_spec (q_sequence tx) (transactions A)) as (Hsplit & Hbefore & Hfrom).
  destruct (split_seq (q_sequence tx) (transactions A)) as [before [|x rest]] eqn:Es; cbn [fst snd] in *.
  { apply yields_ret. cbn. split; [done|]. split; [done|]. split; [|done]. intros [m Hm]%(qo_handles s q Hq). unfold get_tx, handle, find_tx in Hm. cbn in Hm. rewrite EA in Hm. simpl in Hm. by rewrite Es in Hm. }
  assert (x ∈ transactions A) as Hx by (rewrite Hsplit; apply elem_of_app; right; apply list_elem_of_here).
  destruct (account_get s q _ A x Hq EA Hx) as (Hget & Hin & (Hseq & Hacc)). rewrite Hfrom in Hget, Hin, Hseq. fold (handle tx) in Hget, Hin.
  eapply yields_bind; [apply increase_yields|]. intros lv _. destruct (_ || _); [|by apply yields_ret].
  assert (∀ q' r, queue_ok q' → same_queue q q' → (unpaid E q' (q_account tx) → unpaid E q (q_account tx)) →
    yields (λ r : TxQ * (Z + option Handle * option TxConsequences), queue_ok r.1 ∧ same_queue q r.1 ∧
     match r.2 with inl _ => True | inr (replaced, c) => replaces tx replaced r.1 end ∧ (unpaid E r.1 (q_account tx) → unpaid E q (q_account tx)))
    match r with
    | inl ter => mret (q', inl ter)
    | inr c => deleteIter ← iterator_to q' (handle tx); _ ← assert_ (sequence x.2 =? q_sequence tx);
               _ ← assert_ (bool_decide (m_account x.2 = a_account A)); mret (q', inr (Some deleteIter, c))
    end) as Hend.
  { intros q' [ter|c] Hq' Hsame Hc; [by apply yields_ret|]. unfold iterator_to.
    assert (handle tx ∈ byFee_ q') as Hin' by (destruct Hsame as [-> _]; done). rewrite (bool_decide_eq_true_2 _ Hin'). cbn [mbind outcome_bind mret outcome_ret].
    asserted; [by apply Z.eqb_eq|]. asserted; [apply bool_decide_eq_true_2; by rewrite (ao_account _ _ (qo_accounts s q Hq _ _ EA))|].
    apply yields_ret. cbn. by split_and!. }
  destruct rest as [|y rest]; [refine (Hend q (inr None) Hq (same_queue_refl q) _); done|].
  destruct (with_consequences_same x.2) as [Hs1 _].
  destruct (update_ok s (λ _, (with_consequences E x.2).1) (handle tx) q x.2 Hq Hget Hs1) as [Hq' _].
  pose proof (unpaid_update (handle tx) q x.2 (q_account tx) Hget) as Hup.
  destruct (with_consequences E x.2) as [m c]. cbn [fst snd] in *. fold (handle tx).
  destruct (is_blocker c); cbn [negb]; [refine (Hend _ (inr None) Hq' _ _); done|].
  destruct (is_blocker (calculateConsequences E pf)); [refine (Hend _ (inl _) Hq' _ _); done|].
  refine (Hend _ (inr (Some _)) Hq' _ _); done.
Qed.

(** The fees of the transactions before the new one add up, when they pay. *)
Definition adds_up (tSeq : Z) l (mt mt' : MultiTxn) : Prop :=
  Forall (λ x, pays (with_consequences E x.2).2) l → 0 ≤ spend mt →
  fee mt ≤ fee mt' ∧ 0 ≤ spend mt' ∧ match l with [] => True | x :: _ => x.1 < tSeq → fee mt < fee mt' end.

Lemma multi_loop_ok tSeq p replaced a l : ∀ ws mt,
  Forall (tx_ok a) l → (∀ x, x ∈ l → x.1 = tSeq → is_Some replaced) →
  yields (λ r, same_txs l r.1 ∧ Forall (tx_ok a) r.1 ∧
     match r.2 with
     | inr (Some mt', ws') => adds_up tSeq l mt mt' ∧ (l = [] → ws' = ws)
     | _ => True
     end) (multi_loop E s tSeq p replaced l ws mt).
Proof.
  induction l as [|[n m] l IH]; intros ws mt Hl Hr; cbn [multi_loop].
  { apply yields_ret; cbn. split; [constructor|]. split; [done|]. split; [|done]. intros _ ?. lia. }
  pose proof Hl as Hl0. apply Forall_cons in Hl as [(Hseq & Hacc) Hl]. cbn [fst snd] in *.
  assert (∀ x, x ∈ l → x.1 = tSeq → is_Some replaced) as Hr' by (intros x Hx; apply Hr; by apply list_elem_of_further).
  destruct (_ && _); [apply yields_ret; cbn; split; [reflexivity|done]|].
  eapply yields_bind with (P := λ _, True); [destruct (_ =? _); [|done]; eapply yields_bind; [apply increase_yields|done]|].
  intros enough _. destruct (negb enough); [apply yields_ret; cbn; split; [reflexivity|done]|].
  destruct (Z.eqb_spec n tSeq) as [->|Hne].
  - asserted; [apply bool_decide_eq_true_2, (Hr (tSeq, m)); [apply list_elem_of_here|done]|].
    eapply yields_bind; [by apply IH|]. intros [rest r] (H1 & H2 & H3). apply yields_ret. cbn [fst snd] in *.
    split; [by constructor|]. split; [by constructor|]. destruct r as [|[[mt'|] ws']]; [done| |done]. split; [|done].
    intros [_ Hp]%Forall_cons Hsp. destruct H3 as [H3 _]. destruct (H3 Hp Hsp) as (Hfee & Hspend & _). cbn [fee spend fst] in *. lia.
  - destruct (with_consequences_same m) as [Hs1 _]. destruct (with_consequences E m) as [m' c] eqn:Ec. cbn [fst snd] in *.
    assert (tx_ok a (n, m')) as Hok by (destruct Hs1 as (_ & E1 & E2); split; cbn; congruence).
    destruct (Z.ltb_spec n tSeq); cbn [andb].
    + destruct (is_blocker c) eqn:Eb; [apply yields_ret; cbn; split; [constructor; [done|reflexivity]|by split; [constructor|]]|].
      eapply yields_bind; [by apply IH|]. intros [rest r] (H1 & H2 & H3). apply yields_ret. cbn [fst snd] in *.
      split; [by constructor|]. split; [by constructor|]. destruct r as [|[[mt'|] ws']]; [done| |done]. split; [|done].
      intros [Hc Hp]%Forall_cons Hsp. cbn [snd] in Hc. rewrite Ec in Hc. destruct Hc as (Hf0 & Hsp0 & Hf1). specialize (Hf1 Eb).
      destruct H3 as [H3 _]. destruct (H3 Hp) as (Hfee & Hspend & _); cbn [fee spend fst snd] in *; lia.
    + eapply yields_bind; [by apply IH|]. intros [rest r] (H1 & H2 & H3). apply yields_ret. cbn [fst snd] in *.
      split; [by constructor|]. split; [by constructor|]. destruct r as [|[[mt'|] ws']]; [done| |done]. split; [|done].
      intros [Hc Hp]%Forall_cons Hsp. cbn [snd] in Hc. rewrite Ec in Hc. destruct Hc as (Hf0 & Hsp0 & _).
      destruct H3 as [H3 _]. destruct (H3 Hp) as (Hfee & Hspend & _); cbn [fee spend fst snd] in *; lia.
Qed.

Lemma canBeHeld_yields tx v A r : yields (λ _, True) (canBeHeld E s tx v A r).
Proof.
  unfold canBeHeld. destruct (_ || _); [done|]. match goal with |- context [if ?b then mret false else _] => destruct b; [done|] end. destruct A as [A|]; [|done]. destruct r; [done|].
  destruct (Z.ltb_spec (Z.of_nat (length (transactions A))) (maximumTxnPerAccount s)); [done|]. destruct (last (transactions A)) eqn:El; [done|].
  apply last_None in El. rewrite El in *. simpl in *. pose proof (qs_account s Hset). lia.
Qed.

Lemma split_same n l from : same_txs (split_seq n l).2 from → same_txs l ((split_seq n l).1 ++ from).
Proof. intros H. destruct (split_seq_spec n l) as (Hs & _). rewrite Hs at 1. apply Forall2_app; [reflexivity|done]. Qed.

Lemma plan_multi_ok tx v p fl replaced q :
  queue_ok q → replaces tx replaced q →
  ends (unpaid E q (q_account tx)) (λ r, queue_ok r.1 ∧ same_queue q r.1 ∧
     match r.2 with
     | inr (Some (aSeq, w)) => (q_account tx, aSeq) ∈ byFee_ r.1 ∧ (∃ f a b n, w = bump E v f a b n)
     | _ => True
     end) (plan_multi E s tx v p fl replaced q).
Proof.
  intros Hq Hrep. unfold plan_multi. destruct (byAccount_ q !! q_account tx) as [A|] eqn:EA; [|by apply ends_of, yields_ret].
  destruct (read_account E v (q_account tx)) as [[aSeq balance]|]; [|by apply ends_of, yields_ret].
  destruct (Z.ltb_spec aSeq (q_sequence tx)) as [Hlt|]; cbn [negb]; [|by apply ends_of, yields_ret].
  eapply ends_bind; [apply ends_of, canBeHeld_yields|]. intros held _. destruct (negb held); [by apply ends_of, yields_ret|].
  pose proof (qo_accounts s q Hq _ _ EA) as HA. destruct (split_seq_spec aSeq (transactions A)) as (Hsplit & _ & Hfrom).
  pose proof (split_same aSeq (transactions A)) as Hss. destruct (split_seq aSeq (transactions A)) as [before from]. cbn [fst snd] in *.
  assert (Forall (tx_ok (q_account tx)) before ∧ Forall (tx_ok (q_account tx)) from) as [Hb Hf] by (apply Forall_app; rewrite <- Hsplit; apply HA).
  eapply ends_bind; [apply ends_of, (multi_loop_ok _ _ _ (q_account tx)); [done|]|].
  { intros x Hx Ex. destruct replaced; [by eexists|]. exfalso. apply Hrep. unfold handle. rewrite <- Ex.
    apply (account_get s q _ A x Hq EA). rewrite Hsplit. apply elem_of_app. by right. }
  intros [from' r] (H1 & H2 & H3). cbn [fst snd] in *. set (q1 := set_account _ _ q).
  assert (queue_ok q1) as Hq1 by (apply same_txs_ok; [done|done|by apply Hss|by apply Forall_app]).
  destruct r as [ter|[mt ws]]; [by apply ends_of, yields_ret|]. destruct (Z.ltb_spec ws (q_sequence tx)); [by apply ends_of, yields_ret|].
  destruct mt as [mt|]; [|by apply ends_of, yields_ret].
  destruct (_ || _); [by apply ends_of, yields_ret|]. destruct H3 as [H3 Hws]. destruct from as [|x from]; [specialize (Hws eq_refl); lia|].
  eapply ends_bind; [apply ends_assert|].
  - intros Hno%Z.ltb_ge. destruct (decide (Forall (λ y, pays (with_consequences E y.2).2) (x :: from))) as [Hall|Hsome].
    + exfalso. destruct (H3 Hall ltac:(done)) as (_ & Hsp & Hfee). specialize (Hfee ltac:(lia)). cbn [fee] in Hfee. lia.
    + apply not_Forall_Exists in Hsome; [|apply _]. apply Exists_exists in Hsome as (y & Hy & Hn).
      exists A, y. split; [done|]. split; [rewrite Hsplit; apply elem_of_app; by right|done].
  - intros _ _. apply ends_of, yields_ret. cbn [fst snd]. split; [done|]. split; [done|]. split; [|by eexists _, _, _, _].
    change (byFee_ q1) with (byFee_ q). rewrite <- Hfrom. apply (account_get s q _ A x Hq EA). rewrite Hsplit. apply elem_of_app. right. apply list_elem_of_here.
Qed.
End Apply.

Section ApplyAll.
Context {View Pf Pc : Type} (E : Engine View Pf Pc) (s : Setup).
Context (He : counts_ok E) (Hset : queue_setup_ok s).
Implicit Types (q : TxQ (Pf := Pf)) (h k : Handle) (l : TxMap (Pf := Pf)) (m : MaybeTx (Pf := Pf)).
Abbreviation queue_ok := (queue_ok s).

(** ** Clearing the queue of an account *)
Lemma erase_range_cons a A x range q :
  erase_range a A (x :: range) q = erase_range a (set_transactions (remove_seq x.1 (transactions A)) A) range (removed (a, x.1) q A).
Proof.
  unfold erase_range, removed, set_account, set_byFee, set_transactions. cbn. f_equal. symmetry. apply insert_insert_eq.
Qed.
Lemma erase_range_ok a range : ∀ A q, queue_ok q → byAccount_ q !! a = Some A →
  queue_ok (erase_range a A range q) ∧ (length (byFee_ (erase_range a A range q)) ≤ length (byFee_ q))%nat ∧
  maxSize_ (erase_range a A range q) = maxSize_ q ∧ is_Some (byAccount_ (erase_range a A range q) !! a).
Proof.
  induction range as [|x range IH]; intros A q Hq HA.
  - assert (erase_range a A [] q = q) as ->.
    { unfold erase_range, set_account, set_byFee, set_transactions. cbn. destruct q, A. cbn in *. f_equal. by apply insert_id. }
    split; [done|]. split; [lia|]. split; [done|by eexists].
  - rewrite erase_range_cons. assert (queue_ok (removed (a, x.1) q A)) as Hq' by (by apply removed_ok).
    destruct (IH (set_transactions (remove_seq x.1 (transactions A)) A) (removed (a, x.1) q A) Hq') as (H1 & H2 & H3 & H4).
    { unfold removed, set_account. cbn. by rewrite lookup_insert_eq. }
    split; [done|]. split; [|done]. etransitivity; [exact H2|]. unfold removed, remove_handle. cbn. apply length_filter.
Qed.

Lemma clear_loop_ok a range : Forall (tx_ok a) range → ∀ v,
  same_txs range (clear_loop E range v).1.1 ∧ Forall (tx_ok a) (clear_loop E range v).1.1.
Proof.
  induction 1 as [|[n m] range (Hseq & Hacc) Hr IH]; intros v; [split; constructor|]. cbn [clear_loop fst snd] in *.
  pose proof (maybe_apply_same E m v) as Hs. destruct (maybe_apply E m v) as [[m1 [ter did]] v1]. cbn [fst snd] in *.
  assert (same_tx m (set_result (retriesRemaining m1 - 1) ter m1)) as Hs' by done.
  assert (tx_ok a (n, set_result (retriesRemaining m1 - 1) ter m1)) as Hok.
  { destruct Hs as (_ & E1 & E2). split; cbn; congruence. }
  destruct did; cbn [negb].
  - specialize (IH v1). destruct (clear_loop E range v1) as [[r v2] o]. cbn [fst snd] in *. destruct IH. split; by constructor.
  - cbn. by split; constructor.
Qed.
Lemma below_seq_app n l : l = ((below_seq n l).1 ++ (below_seq n l).2)%list.
Proof. induction l as [|x l IH]; [done|]. cbn [below_seq]. destruct (x.1 <? n); [|done]. destruct (below_seq n l). cbn in *. by rewrite <- IH. Qed.

Lemma tryClear_ok tx v pf aSeq p extra q :
  queue_ok q → (q_account tx, aSeq) ∈ byFee_ q → txnsExpected_ (feeMetrics_ q) < txCount E v + extra → 0 ≤ extra < 2 ^ 31 →
  yields (λ r, queue_ok r.2 ∧ maxSize_ r.2 = maxSize_ q ∧ (length (byFee_ r.2) ≤ length (byFee_ q))%nat ∧ (r.1.1.2 = false → same_queue q r.2))
    (tryClearAccountQueue E tx v pf aSeq p extra q).
Proof.
  intros Hq Hin Hc Hx. unfold tryClearAccountQueue. destruct (queue_get s q _ Hq Hin) as (A & m & HA & Ha & Hfind & _). cbn [fst snd] in *.
  assert (account_at q (q_account tx) = inr A) as -> by (unfold account_at; by rewrite HA). cbn [mbind outcome_bind].
  destruct (split_seq_spec aSeq (transactions A)) as (Hsplit & _ & Hfrom). pose proof (split_same aSeq (transactions A)) as Hss.
  unfold find_tx in Hfind. destruct (split_seq aSeq (transactions A)) as [before from]. cbn [fst snd] in *.
  destruct from as [|[n m0] from0] eqn:Ef; [done|]. rewrite <- Ef in *.
  eapply yields_bind with (P := λ _, True).
  { pose proof (He v). pose proof (qo_metrics s q Hq) as [H1 H2 _ _ _]. unfold escalatedSeriesFeeLevel.
    assert (u64 (txCount E v + extra) = txCount E v + extra) as -> by (apply Z.mod_small; lia).
    asserted; [by apply Z.ltb_lt|]. destruct (negb _); [done|]. rewrite mulDiv_spec; [done|].
    assert (u64 (txnsExpected_ (feeMetrics_ q) * txnsExpected_ (feeMetrics_ q)) = txnsExpected_ (feeMetrics_ q) * txnsExpected_ (feeMetrics_ q)) as -> by (apply Z.mod_small; nia). nia. }
  intros required _. destruct (negb required.1); [by apply yields_ret|].
  pose proof (below_seq_app (q_sequence tx) from) as Hbelow. destruct (below_seq (q_sequence tx) from) as [range after]. cbn [fst snd] in Hbelow.
  destruct (_ <? _); [by apply yields_ret|].
  assert (Forall (tx_ok (q_account tx)) before ∧ Forall (tx_ok (q_account tx)) range ∧ Forall (tx_ok (q_account tx)) after) as (Hb & Hr & Haf).
  { rewrite <- !Forall_app, <- Hbelow, <- Hsplit. apply Ha. }
  destruct (clear_loop_ok (q_account tx) range Hr v) as [Hsame Hok]. destruct (clear_loop E range v) as [[range' v'] failed]. cbn [fst snd] in *.
  set (A' := set_transactions (before ++ range' ++ after)%list A). set (q1 := set_account (q_account tx) A' q).
  assert (queue_ok q1) as Hq1.
  { apply same_txs_ok; [done|done| |by rewrite !Forall_app]. apply Hss. rewrite Hbelow. apply Forall2_app; [done|reflexivity]. }
  assert (byAccount_ q1 !! q_account tx = Some A') as HA' by (unfold q1, set_account; cbn; by rewrite lookup_insert_eq).
  destruct failed; [by apply yields_ret|]. destruct (doApply E (preclaim E pf v') v') as [[ter did] v2]. destruct did; cbn [fst snd]; [|by apply yields_ret].
  destruct (erase_range_ok (q_account tx) range' A' q1 Hq1 HA') as (H1 & H2 & H3 & [B HB]).
  set (q2 := erase_range (q_account tx) A' range' q1) in *. assert (account_at q2 (q_account tx) = inr B) as -> by (unfold account_at; by rewrite HB). cbn [mbind outcome_bind].
  assert (queue_ok q2 ∧ maxSize_ q2 = maxSize_ q ∧ (length (byFee_ q2) ≤ length (byFee_ q))%nat) as Hq2 by done.
  destruct after as [|x after]; [apply yields_ret; cbn; naive_solver|]. destruct (x.1 =? q_sequence tx); [|apply yields_ret; cbn; naive_solver].
  destruct (erase_range_ok (q_account tx) [x] B q2 H1 HB) as (H4 & H5 & H6 & _). apply yields_ret. cbn [fst snd].
  split; [done|]. split; [by rewrite H6|]. split; [destruct Hq2; lia|done].
Qed.

(** ** To the ledger or into the queue *)
Definition bounded q q' : Prop :=
  ∀ n, maxSize_ q = Some n → Z.of_nat (length (byFee_ q')) ≤ Z.max n (Z.of_nat (length (byFee_ q))).
Lemma isFull_spec q n : queue_ok q → maxSize_ q = Some n → isFull 100 q = (n <=? Z.of_nat (length (byFee_ q))).
Proof.
  intros Hq Hn. pose proof (qo_size s q Hq n Hn). unfold isFull. rewrite Hn. unfold u64, wrap. rewrite Z.mod_small by lia. by rewrite Z.div_mul by lia.
Qed.

Lemma apply_or_queue_ok tx v fl pf pc p n replaced c multi q :
  queue_ok q → replaces tx replaced q →
  yields (λ r, queue_ok r.2 ∧ bounded q r.2) (apply_or_queue E s tx v fl pf pc p n replaced c multi q).
Proof.
  intros Hq Hrep. unfold apply_or_queue. assert (bounded q q) as Hb0 by (intros k _; lia).
  assert (∀ h q', erased s h q q' → bounded q q') as Hb1.
  { intros h q' (_ & Hb & _) k _. rewrite Hb. unfold remove_handle. pose proof (length_filter (λ x, x ≠ h) (byFee_ q)). lia. }
  destruct (_ && _).
  { destruct (doApply E pc v) as [[ter did] v']. destruct replaced as [h|]; [|by apply yields_ret]. destruct Hrep as [-> Hin].
    destruct did; cbn [snd]; [|by apply yields_ret]. eapply yields_bind; [by apply (erase_ok s)|]. intros q' Her. apply yields_ret. cbn. split; [apply Her|by eapply Hb1]. }
  eapply yields_bind with (P := λ _, True); [destruct multi; [done|by apply canBeHeld_yields]|]. intros held _. destruct (negb held); [by apply yields_ret|].
  destruct replaced as [h|].
  - destruct Hrep as [-> Hin]. cbn. eapply yields_bind; [by apply (erase_ok s)|]. intros q' (Hq' & Hb & Hg & _ & Hm).
    eapply yields_bind; [apply (add_candidate_ok s); [done|]|].
    + fold (handle tx). by rewrite Hg, bool_decide_eq_true_2.
    + intros q2 (Hq2 & Hp2 & _). apply yields_ret. cbn. split; [done|]. intros k _. rewrite (Permutation_length Hp2), Hb. simpl.
      pose proof (remove_handle_length (handle tx) (byFee_ q) Hin). lia.
  - cbn [bool_decide negb andb]. rewrite bool_decide_eq_false_2 by (by intros [? ?]). cbn [negb andb].
    assert (∀ q', queue_ok q' → handle tx ∉ byFee_ q' → (∀ z, maxSize_ q = Some z → Z.of_nat (length (byFee_ q')) < Z.max z (Z.of_nat (length (byFee_ q)))) → ∀ v',
      yields (λ r : Z * bool * View * TxQ, queue_ok r.2 ∧ bounded q r.2) (q ← add_candidate tx p fl pf c q'; mret ((terQUEUED, false), v', q))) as Hadd.
    { intros q' Hq' Hnot Hlen v'. eapply yields_bind; [apply (add_candidate_ok s); [done|]|].
      - fold (handle tx). destruct (get_tx q' (handle tx)) as [m|] eqn:Eg; [|done]. exfalso. apply Hnot, (qo_handles s q' Hq'). by eexists.
      - intros q2 (Hq2 & Hp2 & _). apply yields_ret. cbn. split; [done|]. intros k Hk. rewrite (Permutation_length Hp2). simpl. specialize (Hlen k Hk). lia. }
    destruct (isFull 100 q) eqn:Efull.
    + assert (byFee_ q ≠ []) as Hne.
      { intros E0. unfold isFull in Efull. destruct (maxSize_ q) as [k|] eqn:Ek; [|done]. pose proof (isFull_spec q k Hq Ek) as Hs. unfold isFull in Hs. rewrite Ek in Hs.
        rewrite Hs, E0 in Efull. apply Z.leb_le in Efull. simpl in Efull. pose proof (qo_size s q Hq k Ek). lia. }
      eapply yields_bind; [by apply (make_room_ok s)|]. intros [q'|] Hroom; [|by apply yields_ret].
      destruct Hroom as (h & Hh & Hha & (Hq' & Hb & _)). apply Hadd; [done| |].
      * rewrite Hb. intros [_ Hin]%elem_of_remove. by apply Hrep.
      * intros k Hk. rewrite Hb. pose proof (remove_handle_length h (byFee_ q) Hh). lia.
    + cbn [mbind outcome_bind mret outcome_ret]. apply Hadd; [done|done|]. intros k Hk. rewrite (isFull_spec q k Hq Hk) in Efull. apply Z.leb_gt in Efull. lia.
Qed.

(** ** Applying *)
Lemma txq_apply_ok v tx fl q : queue_ok q →
  ends (underpaid E s v tx fl ∨ unpaid E q (q_account tx)) (λ r, queue_ok r.2 ∧ bounded q r.2) (txq_apply E s v tx fl q).
Proof.
  intros Hq. unfold txq_apply. assert (∀ q', same_queue q q' → bounded q q') as Hb0 by (intros q' (Hb & _) k _; rewrite Hb; lia).
  destruct (negb _); [apply ends_of, yields_ret; split; [done|by apply Hb0]|]. set (pf := preflight E v tx fl).
  pose proof (getFeeLevelPaid_yields (q_fee tx) baseLevel (calculateBaseFee E v tx) s) as Hp. apply yields_eq in Hp as (p & Ep & _). rewrite Ep.
  pose proof (He v) as Hcount. cbn [mbind outcome_bind]. rewrite (scaleFeeLevel_spec s) by (try apply Hq; lia). cbn [mbind outcome_bind].
  set (lev := if _ <=? _ then baseLevel else _).
  eapply ends_bind with (P := λ r, (Z.land fl tapPREFER_QUEUE =? 0) = true → r = lev); [apply ends_of|].
  { destruct (byFee_ q) as [|h hs] eqn:Eb; [by apply yields_ret|]. destruct (Z.land fl tapPREFER_QUEUE =? 0); cbn [negb]; [by apply yields_ret|].
    eapply yields_bind; [apply (deref_yields s); [done|rewrite Eb; apply list_elem_of_here]|]. intros m _. by apply yields_ret. }
  intros required Hreq. eapply ends_bind; [by apply ends_of, check_existing_ok|]. intros [q1 r1] (Hq1 & Hs1 & H1 & Hup). cbn [fst snd] in *.
  destruct r1 as [ter|[replaced c]]; [apply ends_of, yields_ret; split; [done|by apply Hb0]|]. rename H1 into Hrep.
  eapply ends_bind; [eapply ends_mono; [by apply plan_multi_ok|auto]|]. intros [q2 r2] (Hq2 & Hs2 & H2). cbn [fst snd] in *.
  assert (same_queue q q2) as Hs12 by (destruct Hs1 as (? & ? & ?), Hs2 as (? & ? & ?); split; [congruence|split; congruence]).
  destruct r2 as [ter|multi]; [apply ends_of, yields_ret; split; [done|by apply Hb0]|].
  destruct (likelyToClaimFee E _) eqn:El; cbn [negb]; [|apply ends_of, yields_ret; split; [done|by apply Hb0]].
  eapply ends_bind; [apply ends_assert|intros _ _; apply ends_of].
  { intros Hno%Z.leb_gt. left. eexists _, p. split; [|by split]. destruct multi as [[aSeq w]|]; [|by left]. right. apply H2. }
  apply (yields_bind (λ r : option (Z * bool * View) * TxQ, queue_ok r.2 ∧ bounded q r.2 ∧ (r.1 = None → same_queue q r.2))).
  { destruct multi as [[aSeq w]|]; [|apply yields_ret; cbn; split; [done|]; split; [by apply Hb0|done]]. destruct H2 as [Hin _].
    eapply yields_bind; [by apply (deref_yields s)|]. intros m _.
    destruct (_ && _) eqn:Econd; [|apply yields_ret; cbn; split; [done|]; split; [by apply Hb0|done]].
    repeat (apply andb_prop in Econd as [Econd ?]). apply Z.ltb_lt in H0. specialize (Hreq Econd). subst required.
    eapply yields_bind; [apply tryClear_ok; [done|done| |lia]|].
    - destruct Hs12 as (_ & _ & ->). pose proof (He (open_sandbox E v)). unfold lev in H0. destruct (Z.leb_spec (txCount E v) (txnsExpected_ (feeMetrics_ q))); [lia|lia].
    - intros [[[ter did] sb] q3] (Hq3 & Hm3 & Hl3 & Hs3). cbn [fst snd] in *. apply yields_ret. cbn [fst snd]. split; [done|]. destruct Hs12 as (Hb2 & Hm2 & Hf2).
      split; [intros k Hk; rewrite <- Hb2; lia|]. destruct did; [done|]. intros _. destruct (Hs3 eq_refl) as (? & ? & ?). split; [congruence|split; congruence]. }
  intros [[[[ter did] v']|] q3] (Hq3 & Hb3 & Hs3); [by apply yields_ret|]. cbn [fst snd] in *. specialize (Hs3 eq_refl).
  eapply yields_mono; [apply apply_or_queue_ok; [done|]|].
  - eapply replaces_same; [|exact Hrep]. destruct Hs1 as (? & ? & ?), Hs3 as (? & ? & ?). split; [congruence|split; congruence].
  - intros r [Hr1 Hr2]. split; [done|]. intros k Hk. destruct Hs3 as (Hb & Hm & _). rewrite <- Hb. apply Hr2. congruence.
Qed.
End ApplyAll.

(** ** Theorems *)
Section Claims.
Context {View Pf Pc : Type} (E : Engine View Pf Pc) (s : Setup).

(** The states that the operations reach. *)
Inductive txq_reach : TxQ (Pf := Pf) → Prop :=
  | reach_new : txq_reach (new_queue s)
  | reach_apply q v tx fl r v' q' : txq_reach q → txq_apply E s v tx fl q = inr (r, v', q') → txq_reach q'
  | reach_accept q v b v' q' : txq_reach q → txq_accept E v q = inr (b, v', q') → txq_reach q'
  | reach_close q txs seq leap q' :
      txq_reach q → Z.of_nat (length txs) < 2 ^ 28 → processClosedLedger s txs seq leap q = inr q' → txq_reach q'.

Lemma reach_ok q : counts_ok E → queue_setup_ok s → txq_reach q → queue_ok s q.
Proof.
  intros He Hs. induction 1 as [|q v tx fl r v' q' _ IH Eq|q v b v' q' _ IH Eq|q txs seq leap q' _ IH Hl Eq].
  - by apply queue_ok_new.
  - pose proof (txq_apply_ok E s He Hs v tx fl q IH) as H. rewrite Eq in H. apply H.
  - pose proof (txq_accept_ok E s v q He IH) as H. rewrite Eq in H. apply H.
  - pose proof (processClosedLedger_ok s txs seq leap q Hs IH Hl) as H. by rewrite Eq in H.
Qed.
End Claims.

(** C17: The transaction queue.  Whatever the engine answers (it counts fewer than 2^31 transactions
    in a view), in every state the operations reach the set by fee is in the order of the fee levels
    and holds every transaction of the maps of the accounts once and nothing else, each under its
    account and sequence.  Accepting returns and does not add to the queue, and closing a ledger of
    fewer than 2^28 transactions returns: no assertion fails, no iterator is invalid, the loop of
    [accept] ends.  Applying a transaction returns and does not
    make the queue grow beyond its size, unless one of two assertions on the engine fails: that a
    transaction it would take pays the base fee, and that those of the account in the queue pay at
    all. *)
Theorem txq_consistent {View Pf Pc} (E : Engine View Pf Pc) s q :
  counts_ok E → queue_setup_ok s → txq_reach E s q →
  NoDup (byFee_ q) ∧ (∀ h, h ∈ byFee_ q ↔ is_Some (get_tx q h)) ∧
  StronglySorted (λ h k, level q k ≤ level q h) (byFee_ q) ∧
  map_Forall (λ a A, account_ok a A) (byAccount_ q) ∧
  (∀ v tx fl, match txq_apply E s v tx fl q with
     | inr (_, _, q') => ∀ n, maxSize_ q = Some n → Z.of_nat (length (byFee_ q')) ≤ Z.max n (Z.of_nat (length (byFee_ q)))
     | inl e => e = misuse ∧ (underpaid E s v tx fl ∨ unpaid E q (q_account tx))
     end) ∧
  (∀ v, ∃ b v' q', txq_accept E v q = inr (b, v', q') ∧ (length (byFee_ q') ≤ length (byFee_ q))%nat) ∧
  (∀ txs seq leap, Z.of_nat (length txs) < 2 ^ 28 → ∃ q', processClosedLedger s txs seq leap q = inr q').
Proof.
  intros He Hs Hr. pose proof (reach_ok E s q He Hs Hr) as Hq. do 3 (split; [apply Hq|]). split; [apply Hq|]. split_and!.
  - intros v tx fl. pose proof (txq_apply_ok E s He Hs v tx fl q Hq) as Hok.
    destruct (txq_apply E s v tx fl q) as [e|[[r v'] q']]; [exact Hok|apply Hok].
  - intros v. destruct (yields_eq _ _ (txq_accept_ok E s v q He Hq)) as ([[b v'] q'] & Eq & _ & Hb). by exists b, v', q'.
  - intros txs seq leap Hl. destruct (yields_eq _ _ (processClosedLedger_ok s txs seq leap q Hs Hq Hl)) as (q' & Eq & _). by exists q'.
Qed.

(** An engine that counts transactions. *)
Definition toy_engine : Engine Z QTx QTx := {|
  preflight := λ _ tx _, tx; pf_ter := λ _, 0; pf_current := λ _ _ _, true;
  preclaim := λ tx _, tx; pc_ter := λ _, 0; likelyToClaimFee := λ tx, (10 <=? q_fee tx) && (q_fee tx <? 1000);
  doApply := λ _ v, ((0, true), v + 1);
  calculateConsequences := λ tx, mkConsequences false (Z.max 1 (q_fee tx)) 0;
  calculateBaseFee := λ _ _, 10; txCount := λ v, Z.max 0 (Z.min v 1000); view_seq := λ _, 5;
  read_account := λ _ _, Some (1, 1000000); accountReserve := λ _, 200;
  bump := λ v _ _ _ _, v; open_sandbox := λ _, 0; sandbox_apply := λ sb v, v + sb |}.
Lemma toy_engine_ok : counts_ok toy_engine.
Proof. intros v. cbn. lia. Qed.
Lemma default_queue_ok : queue_setup_ok default_setup.
Proof. split; [exact default_setup_ok|done|done|done]. Qed.

Definition toy_tx (n fee : Z) : QTx := mkQTx (replicate 20 1) n fee (replicate 32 n) None false None.
Definition toy_queue : TxQ (Pf := QTx) :=
  match txq_apply toy_engine default_setup 10 (toy_tx 1 20) 0 (new_queue default_setup) with inr (_, _, q) => q | inl _ => new_queue default_setup end.

Lemma txq_consistent_witness :
  byFee_ toy_queue = [(replicate 20 1, 1)] ∧
  (∃ r v' q', txq_apply toy_engine default_setup 10 (toy_tx 2 30) 0 toy_queue = inr (r, v', q') ∧ byFee_ q' = [(replicate 20 1, 2); (replicate 20 1, 1)]) ∧
  ∃ v' q', txq_accept toy_engine 0 toy_queue = inr (true, v', q') ∧ byFee_ q' = [].
Proof.
  destruct (txq_consistent toy_engine default_setup toy_queue) as (_ & _ & _ & _ & Happly & Haccept & _).
  - exact toy_engine_ok.
  - exact default_queue_ok.
  - eapply (reach_apply _ _ (new_queue default_setup) 10 (toy_tx 1 20) 0); [apply reach_new|]. vm_compute. reflexivity.
  - split; [vm_compute; reflexivity|]. split.
    + specialize (Happly 10 (toy_tx 2 30) 0).
      destruct (txq_apply toy_engine default_setup 10 (toy_tx 2 30) 0 toy_queue) as [e|[[r v'] q']] eqn:Eq; [vm_compute in Eq; discriminate Eq|].
      exists r, v', q'. split; [reflexivity|]. vm_compute in Eq. injection Eq as <- <- <-. reflexivity.
    + destruct (Haccept 0) as (b & v' & q' & Eq & _). assert (b = true) as -> by (vm_compute in Eq; injection Eq as <- _ _; reflexivity).
      exists v', q'. split; [exact Eq|]. vm_compute in Eq. injection Eq as _ <-. reflexivity.
Defined.
