(* ===== verification/SHAMapNodeID.v ===== *)
(** * Keys and node identifiers of a SHAMap

    src/src/ripple/shamap/SHAMapNodeID.h and impl/SHAMapNodeID.cpp: a node of a
    SHAMap is named by its depth and by the first [mDepth] nibbles of the keys
    below it, the rest of [mNodeID] being zero.

    A [uint256] is the list of its 32 bytes, in the order of [begin()].  The
    proofs look at a key as its list of 64 nibbles ([nibs]) and at a node
    identifier as the packed bytes of a path ([pack], [path_id]). *)

From stdpp Require Import prelude list.
From Stdlib Require Import ZArith Lia.
From S2P Require Import Prelude.
From S2P Require Import BaseUint.
From S2P Require Import BaseUintTheorems.

Abbreviation uint256 := (list Z).

Definition is_u256 (k : uint256) : Prop := length k = 32%nat ∧ in_base 256 k.
Definition zero256 : uint256 := replicate 32 0.
Definition byte_at (k : uint256) (i : Z) : Z := k !!! Z.to_nat i.
Definition key_lt (a b : uint256) : bool := compare_bytes a b <? 0.

Record SHAMapNodeID := mkNodeID { mDepth : Z; mNodeID : uint256 }.

#[export] Instance SHAMapNodeID_eq_dec : EqDecision SHAMapNodeID.
Proof. solve_decision. Defined.

(** [SHAMapNodeID ()] *)
Definition root_id : SHAMapNodeID := mkNodeID 0 zero256.

(** The constructor of [masks_t]: two entries per round, [selector] growing by a
    nibble each time. *)
Fixpoint masks_loop (n : nat) (i : Z) (selector : uint256) : list uint256 :=
  match n with
  | O => [selector]
  | S n =>
      let half := <[Z.to_nat (i / 2) := 0xF0]> selector in
      let full := <[Z.to_nat (i / 2) := 0xFF]> half in
      selector :: half :: masks_loop n (i + 2) full
  end.
Definition Masks (depth : Z) : uint256 := masks_loop 32 0 zero256 !!! Z.to_nat depth.

(** [operator&] of two 256-bit values. *)
Definition and256 (a b : uint256) : uint256 := zip_with Z.land a b.

(** The assertions of [SHAMapNodeID (int, uint256 const&)]. *)
Definition nodeid_ok (n : SHAMapNodeID) : bool :=
  (0 <=? mDepth n) && (mDepth n <? 65) &&
  bool_decide (mNodeID n = and256 (mNodeID n) (Masks (mDepth n))).

Definition isValid (n : SHAMapNodeID) : bool := (0 <=? mDepth n) && (mDepth n <=? 64).
Definition isRoot (n : SHAMapNodeID) : bool := mDepth n =? 0.

Definition getParentNodeID (n : SHAMapNodeID) : SHAMapNodeID :=
  mkNodeID (mDepth n - 1) (and256 (mNodeID n) (Masks (mDepth n - 1))).

Definition getChildNodeID (n : SHAMapNodeID) (m : Z) : SHAMapNodeID :=
  let i := mDepth n / 2 in
  let bits := if Z.odd (mDepth n) then m else Z.shiftl m 4 in
  mkNodeID (mDepth n + 1)
    (<[Z.to_nat i := Z.lor (byte_at (mNodeID n) i) bits]> (mNodeID n)).

Definition selectBranch (n : SHAMapNodeID) (hash : uint256) : Z :=
  let branch := byte_at hash (mDepth n / 2) in
  if Z.odd (mDepth n) then Z.land branch 0xf else Z.shiftr branch 4.

(** The loop over [depth / 2] whole bytes and the test of the half byte left,
    shared by [SHAMapNodeID::has_common_prefix] and
    [SHAMapInnerNodeV2::has_common_prefix]. *)
Definition common_prefix (depth : Z) (x y : uint256) : bool :=
  bool_decide (take (Z.to_nat (depth / 2)) x = take (Z.to_nat (depth / 2)) y) &&
  (if Z.odd depth
   then Z.land (byte_at x (depth / 2)) 0xF0 =? Z.land (byte_at y (depth / 2)) 0xF0
   else true).

Definition has_common_prefix (n other : SHAMapNodeID) : bool :=
  common_prefix (mDepth n) (mNodeID n) (mNodeID other).

Definition nodeid_lt (a b : SHAMapNodeID) : bool :=
  (mDepth a <? mDepth b) || ((mDepth a =? mDepth b) && key_lt (mNodeID a) (mNodeID b)).

(** [addIDRaw], and the constructor from [len] bytes at [ptr]. *)
Definition addIDRaw (n : SHAMapNodeID) (s : list Z) : list Z :=
  s ++ mNodeID n ++ [mDepth n mod 256].
Definition nodeid_from_raw (ptr : list Z) (len : Z) : SHAMapNodeID :=
  if len <? 33 then mkNodeID (-1) zero256
  else mkNodeID (byte_at ptr 32) (take 32 ptr).

(** SHAMap.cpp: the first [depth] nibbles of a key. *)
Definition prefix (depth : Z) (key : uint256) : uint256 :=
  let i := Z.to_nat (depth / 2) in
  let r := take i key ++ drop i zero256 in
  if Z.odd depth then <[i := Z.land (byte_at key (depth / 2)) 0xF0]> r else r.

(** ** Keys as paths of nibbles *)
Definition nibs (k : list Z) : list Z := concat (map (λ b, [b / 16; b mod 16]) k).

Lemma nibs_cons b k : nibs (b :: k) = b / 16 :: b mod 16 :: nibs k.
Proof. done. Qed.
Arguments nibs : simpl never.

Fixpoint pack (n : nat) (p : list Z) : list Z :=
  match n, p with
  | O, _ => []
  | S n, h :: l :: p => 16 * h + l :: pack n p
  | S n, [h] => 16 * h :: pack n []
  | S n, [] => 0 :: pack n []
  end.

Definition path_id (p : list Z) : SHAMapNodeID :=
  mkNodeID (Z.of_nat (length p)) (pack 32 p).

Lemma nibs_length k : length (nibs k) = (2 * length k)%nat.
Proof. induction k as [|b k IH]; [done|]. rewrite nibs_cons. simpl. rewrite IH. lia. Qed.

Lemma nibs_base k : in_base 256 k → in_base 16 (nibs k).
Proof.
  induction 1 as [|b k Hb Hk IH]; [constructor|]. rewrite nibs_cons.
  repeat (constructor; [Z.to_euclidean_division_equations; lia|]). exact IH.
Qed.

Lemma nibs_inj a b : nibs a = nibs b → a = b.
Proof.
  revert b. induction a as [|x a IH]; intros [|y b]; rewrite ?nibs_cons; try done.
  intros [= H1 H2 H3]. f_equal; [|by apply IH].
  rewrite (Z.div_mod x 16), (Z.div_mod y 16) by lia. lia.
Qed.

Lemma number_nibs k : number 16 (nibs k) = number 256 k.
Proof.
  induction k as [|b k IH]; [done|]. rewrite nibs_cons. cbn [number].
  rewrite IH. cbn [length]. rewrite nibs_length, !Nat2Z.inj_succ, Nat2Z.inj_mul, Z.pow_succ_r by lia.
  rewrite Z.pow_mul_r by lia. change (16 ^ Z.of_nat 2) with 256.
  rewrite (Z.div_mod b 16) at 3 by lia. lia.
Qed.

Lemma nibs_pack n p :
  in_base 16 p → (length p ≤ 2 * n)%nat →
  nibs (pack n p) = p ++ replicate (2 * n - length p) 0.
Proof.
  revert p. induction n as [|n IH]; intros p Hp Hl; simpl.
  - by destruct p; simpl in *; [|lia].
  - destruct p as [|h [|l p]]; simpl in *.
    + rewrite nibs_cons, IH by (first [by constructor | simpl; lia]). simpl. rewrite Nat.sub_0_r.
      replace (n + S (n + 0))%nat with (S (n + (n + 0)))%nat by lia. done.
    + apply Forall_cons in Hp as [Hh _].
      rewrite nibs_cons, IH by (first [by constructor | simpl; lia]). simpl. rewrite Nat.sub_0_r.
      replace ((16 * h) / 16) with h by (rewrite Z.mul_comm, Z.div_mul; lia).
      replace ((16 * h) mod 16) with 0 by (rewrite Z.mul_comm, Z.mod_mul; lia).
      replace (n + S (n + 0))%nat with (S (n + (n + 0)))%nat by lia. done.
    + apply Forall_cons in Hp as [Hh Hp]. apply Forall_cons in Hp as [Hl' Hp].
      rewrite nibs_cons, IH by (done || lia).
      replace ((16 * h + l) / 16) with h by (Z.to_euclidean_division_equations; lia).
      replace ((16 * h + l) mod 16) with l by (Z.to_euclidean_division_equations; lia).
      do 4 f_equal. lia.
Qed.

Lemma pack_spec n p :
  in_base 16 p → length (pack n p) = n ∧ in_base 256 (pack n p).
Proof.
  revert p. induction n as [|n IH]; intros p Hp; simpl; [by split; [|constructor]|].
  assert (in_base 16 ([] : list Z)) as Hnil by constructor.
  destruct p as [|h [|l p]]; simpl.
  - destruct (IH [] Hnil). split; [lia|]. by constructor; [lia|].
  - apply Forall_cons in Hp as [Hh _].
    destruct (IH [] Hnil). split; [lia|]. by constructor; [lia|].
  - apply Forall_cons in Hp as [Hh Hp]. apply Forall_cons in Hp as [Hl Hp].
    destruct (IH p Hp). split; [lia|]. by constructor; [lia|].
Qed.

(** A property of bytes is checked on the 256 of them. *)
Lemma byte_forall (P : Z → bool) :
  forallb P (map Z.of_nat (seq 0 256)) = true → ∀ b, 0 ≤ b < 256 → P b = true.
Proof.
  rewrite forallb_forall. intros HP b Hb. apply HP, in_map_iff.
  exists (Z.to_nat b). rewrite in_seq. lia.
Qed.

Lemma byte_low b : 0 ≤ b < 256 → Z.land b 0xf = b mod 16.
Proof. intros Hb. apply Z.eqb_eq. revert b Hb. by apply byte_forall. Qed.
Lemma byte_high b : 0 ≤ b < 256 → Z.land b 0xF0 = 16 * (b / 16).
Proof. intros Hb. apply Z.eqb_eq. revert b Hb. by apply byte_forall. Qed.
Lemma byte_all b : 0 ≤ b < 256 → Z.land b 0xFF = b.
Proof. intros Hb. apply Z.eqb_eq. revert b Hb. by apply byte_forall. Qed.
Lemma byte_shift b : Z.shiftr b 4 = b / 16.
Proof. by rewrite Z.shiftr_div_pow2. Qed.

Lemma two_step_ind (P : nat → Prop) :
  P 0%nat → P 1%nat → (∀ n, P n → P (S (S n))) → ∀ n, P n.
Proof. intros H0 H1 HS n. enough (P n ∧ P (S n)) by tauto. induction n; naive_solver. Qed.

Lemma nibs_lookup k n :
  nibs k !! n = (λ b, if Nat.odd n then b mod 16 else b / 16) <$> k !! (n / 2)%nat.
Proof.
  revert k. induction n as [| |n IH] using two_step_ind; intros [|b k]; try done.
  rewrite nibs_cons. replace (S (S n) / 2)%nat with (S (n / 2)); [exact (IH k)|].
  symmetry. change (S (S n)) with (2 + n)%nat. rewrite Nat.add_comm.
  replace (n + 2)%nat with (n + 1 * 2)%nat by lia. rewrite Nat.div_add; lia.
Qed.

Lemma nibs_app a b : nibs (a ++ b) = nibs a ++ nibs b.
Proof. induction a as [|x a IH]; [done|]. simpl. rewrite !nibs_cons, IH. done. Qed.

Lemma nibs_take n k : nibs (take n k) = take (2 * n) (nibs k).
Proof.
  revert k. induction n as [|n IH]; intros [|b k]; [done..| |].
  - by rewrite take_nil.
  - replace (2 * S n)%nat with (S (S (2 * n))) by lia. cbn [take].
    rewrite !nibs_cons, IH. done.
Qed.

Lemma nibs_zero n : nibs (replicate n 0) = replicate (2 * n) 0.
Proof.
  induction n as [|n IH]; [done|]. replace (2 * S n)%nat with (S (S (2 * n))) by lia.
  cbn [replicate]. by rewrite nibs_cons, IH.
Qed.

Lemma odd_of_nat n : Z.odd (Z.of_nat n) = Nat.odd n.
Proof.
  induction n as [| |n IH] using two_step_ind; [done..|].
  rewrite !Nat2Z.inj_succ, Z.odd_succ, Z.even_succ, IH. done.
Qed.

Lemma half_nat n : Z.to_nat (Z.of_nat n / 2) = (n / 2)%nat.
Proof. change 2 with (Z.of_nat 2). rewrite <- Nat2Z.inj_div. apply Nat2Z.id. Qed.

Section keys.
Context (k : uint256) (Hk : is_u256 k).

Lemma u256_nibs_length : length (nibs k) = 64%nat.
Proof. rewrite nibs_length. destruct Hk as [-> _]. done. Qed.

Lemma u256_nibs_base : in_base 16 (nibs k).
Proof. by apply nibs_base, Hk. Qed.

Lemma u256_byte n : (n < 32)%nat → ∃ b, k !! n = Some b ∧ k !!! n = b ∧ 0 ≤ b < 256.
Proof.
  intros Hn. destruct (lookup_lt_is_Some_2 k n) as [b Hb]; [destruct Hk; lia|].
  exists b. split; [done|]. split; [by apply list_lookup_total_correct|].
  by eapply in_base_lookup; [apply Hk|].
Qed.

Lemma selectBranch_nib n :
  (n < 64)%nat →
  nibs k !! n = Some (selectBranch (mkNodeID (Z.of_nat n) zero256) k).
Proof.
  intros Hn. destruct (u256_byte (n / 2)) as (b & Hb & Ht & Hr).
  { apply Nat.Div0.div_lt_upper_bound. lia. }
  rewrite nibs_lookup, Hb. unfold selectBranch, byte_at. simpl mDepth.
  rewrite half_nat, Ht, odd_of_nat. simpl. f_equal.
  destruct (Nat.odd n); [by rewrite byte_low|by rewrite byte_shift].
Qed.

Lemma pack_nibs : pack 32 (nibs k) = k.
Proof.
  apply nibs_inj. rewrite nibs_pack.
  - rewrite u256_nibs_length. simpl. by rewrite app_nil_r.
  - apply u256_nibs_base.
  - rewrite u256_nibs_length. lia.
Qed.

End keys.

Lemma div2_SS n : (S (S n) / 2 = S (n / 2))%nat.
Proof. replace (S (S n)) with (n + 1 * 2)%nat by lia. rewrite Nat.div_add; lia. Qed.

(** The first [n] nibbles of a list of bytes, the rest zero, as [prefix] builds
    them. *)
Lemma prefix_pack_list n : ∀ k, in_base 256 k → (n ≤ 2 * length k)%nat →
  (let r := take (n / 2) k ++ drop (n / 2) (replicate (length k) 0) in
   if Nat.odd n then <[(n / 2)%nat := Z.land (k !!! (n / 2)%nat) 0xF0]> r else r) =
  pack (length k) (take n (nibs k)).
Proof.
  assert (∀ m, pack m [] = replicate m 0) as Hp0 by (by induction m as [|m IH]; simpl; f_equal).
  induction n as [| |n IH] using two_step_ind; intros k Hk Hn.
  - by rewrite Hp0.
  - destruct Hk as [|b k Hb Hk]; [simpl in Hn; lia|]. rewrite nibs_cons. simpl.
    by rewrite byte_high, Hp0.
  - destruct Hk as [|b k Hb Hk]; [simpl in Hn; lia|]. rewrite nibs_cons, div2_SS.
    specialize (IH k Hk ltac:(simpl in Hn; lia)). simpl in IH |- *.
    rewrite <- IH. change (Nat.odd (S (S n))) with (Nat.odd n).
    replace (16 * (b / 16) + b mod 16) with b by (pose proof (Z.div_mod b 16); lia).
    by destruct (Nat.odd n).
Qed.

Lemma prefix_pack k n :
  is_u256 k → (n ≤ 64)%nat → prefix (Z.of_nat n) k = pack 32 (take n (nibs k)).
Proof.
  intros [Hl Hk] Hn. pose proof (prefix_pack_list n k Hk ltac:(lia)) as HP. rewrite Hl in HP.
  rewrite <- HP. unfold prefix, byte_at. by rewrite half_nat, odd_of_nat.
Qed.

(** [getChildNodeID] appends a nibble to a path. *)
Lemma pack_snoc n : ∀ p m, 0 ≤ m < 16 → in_base 16 p → (length p < 2 * n)%nat →
  (let i := (length p / 2)%nat in
   let bits := if Nat.odd (length p) then m else Z.shiftl m 4 in
   <[i := Z.lor (pack n p !!! i) bits]> (pack n p)) = pack n (p ++ [m]).
Proof.
  induction n as [|n IH]; intros p m Hm Hp Hl; [lia|].
  destruct p as [|h [|l p]].
  - change (Z.lor 0 (Z.shiftl m 4) :: pack n [] = 16 * m :: pack n []).
    rewrite Z.lor_0_l, Z.shiftl_mul_pow2 by lia. f_equal. lia.
  - change (Z.lor (16 * h) m :: pack n [] = 16 * h + m :: pack n []). f_equal.
    rewrite <- (lor_nibbles h m) by lia. by rewrite Z.shiftl_mul_pow2, Z.mul_comm by lia.
  - apply Forall_cons in Hp as [_ Hp]. apply Forall_cons in Hp as [_ Hp].
    cbn [length]. rewrite div2_SS. specialize (IH p m Hm Hp ltac:(simpl in Hl; lia)).
    change (Nat.odd (S (S (length p)))) with (Nat.odd (length p)).
    simpl in IH |- *. by rewrite IH.
Qed.

Lemma getChildNodeID_path p m :
  0 ≤ m < 16 → in_base 16 p → (length p < 64)%nat →
  getChildNodeID (path_id p) m = path_id (p ++ [m]).
Proof.
  intros Hm Hp Hl. unfold getChildNodeID, path_id, byte_at. simpl mDepth. simpl mNodeID.
  rewrite half_nat, odd_of_nat. f_equal; [rewrite length_app; simpl; lia|].
  apply (pack_snoc 32 p m); done || lia.
Qed.

(** Masking with [Masks d] keeps the first [d] nibbles. *)
Lemma Masks_path n : (n ≤ 64)%nat → Masks (Z.of_nat n) = pack 32 (replicate n 15).
Proof.
  intros Hn.
  assert (forallb (λ n, bool_decide (Masks (Z.of_nat n) = pack 32 (replicate n 15)))
            (seq 0 65) = true) as H by by vm_compute.
  rewrite forallb_forall in H. specialize (H n). rewrite in_seq in H.
  apply bool_decide_eq_true_1 in H; [done|lia].
Qed.

Lemma and_pack n : ∀ k d, in_base 256 k → length k = n →
  zip_with Z.land k (pack n (replicate d 15)) = pack n (take d (nibs k)).
Proof.
  induction n as [|n IH]; intros k d Hk Hl.
  - by destruct k.
  - destruct Hk as [|b k Hb Hk]; [done|]. simpl in Hl. injection Hl as Hl.
    rewrite nibs_cons. destruct d as [|[|d]]; simpl.
    + rewrite Z.land_0_r. f_equal. exact (IH k 0%nat Hk Hl).
    + rewrite byte_high by done. f_equal. exact (IH k 0%nat Hk Hl).
    + rewrite byte_all by done. rewrite IH by done. f_equal.
      pose proof (Z.div_mod b 16). lia.
Qed.

Lemma and_Masks k n :
  is_u256 k → (n ≤ 64)%nat → and256 k (Masks (Z.of_nat n)) = pack 32 (take n (nibs k)).
Proof. intros [Hl Hk] Hn. rewrite Masks_path by done. by apply and_pack. Qed.

(** [common_prefix] compares the first nibbles. *)
Lemma common_prefix_list n : ∀ a b, in_base 256 a → in_base 256 b →
  (n ≤ 2 * length a)%nat → (n ≤ 2 * length b)%nat →
  (take (n / 2) a = take (n / 2) b ∧
   (Nat.odd n = true → Z.land (a !!! (n / 2)%nat) 0xF0 = Z.land (b !!! (n / 2)%nat) 0xF0)) ↔
  take n (nibs a) = take n (nibs b).
Proof.
  induction n as [| |n IH] using two_step_ind; intros a b Ha Hb Hna Hnb.
  - simpl. by split.
  - destruct Ha as [|x a Hx Ha], Hb as [|y b Hy Hb]; [simpl in *; lia..|].
    rewrite !nibs_cons. simpl. rewrite !byte_high by done.
    split; [intros [_ H]; specialize (H eq_refl); f_equal; lia|]. intros [= ->]. done.
  - destruct Ha as [|x a Hx Ha], Hb as [|y b Hy Hb]; [simpl in *; lia..|].
    rewrite !nibs_cons, div2_SS. change (Nat.odd (S (S n))) with (Nat.odd n).
    specialize (IH a b Ha Hb ltac:(simpl in *; lia) ltac:(simpl in *; lia)).
    simpl in IH |- *. split.
    + intros [[= -> Heq] Ho]. by rewrite (proj1 IH (conj Heq Ho)).
    + intros [= H1 H2 H3]. destruct (proj2 IH H3) as [Heq Ho]. split; [|done].
      f_equal; [|done]. rewrite (Z.div_mod x 16), (Z.div_mod y 16) by lia. lia.
Qed.

Lemma common_prefix_spec n a b :
  is_u256 a → is_u256 b → (n ≤ 64)%nat →
  common_prefix (Z.of_nat n) a b = true ↔ take n (nibs a) = take n (nibs b).
Proof.
  intros [La Ha] [Lb Hb] Hn. rewrite <- common_prefix_list by (done || lia).
  unfold common_prefix, byte_at. rewrite half_nat, odd_of_nat.
  rewrite andb_true_iff, bool_decide_eq_true. destruct (Nat.odd n); [|naive_solver].
  rewrite Z.eqb_eq. naive_solver.
Qed.

Arguments pack : simpl never.
Arguments zero256 : simpl never.

(** ** Branches *)
Definition nib (k : uint256) (n : nat) : Z := nibs k !!! n.

Lemma nib_lookup k n : is_u256 k → (n < 64)%nat → nibs k !! n = Some (nib k n).
Proof. intros Hk Hn. apply list_lookup_lookup_total_lt. by rewrite u256_nibs_length. Qed.

Lemma nib_range k n : is_u256 k → (n < 64)%nat → 0 ≤ nib k n < 16.
Proof. intros Hk Hn. eapply in_base_lookup; [by apply u256_nibs_base|by apply nib_lookup]. Qed.

Lemma selectBranch_eq k id n :
  is_u256 k → mDepth id = Z.of_nat n → (n < 64)%nat → selectBranch id k = nib k n.
Proof.
  intros Hk Hid Hn. pose proof (selectBranch_nib k Hk n Hn) as H.
  rewrite nib_lookup in H by done. injection H as ->. unfold selectBranch. by rewrite Hid.
Qed.

Lemma nib_even k j : is_u256 k → (j < 32)%nat → nib k (2 * j) = (k !!! j) / 16.
Proof.
  intros Hk Hj. rewrite <- (selectBranch_eq k (mkNodeID (Z.of_nat (2 * j)) zero256)) by (done || lia).
  unfold selectBranch, byte_at. cbn [mDepth]. rewrite half_nat, odd_of_nat.
  rewrite Nat.mul_comm, Nat.div_mul by lia.
  assert (Nat.odd (j * 2) = false) as ->.
  { rewrite <- Nat.negb_even, Nat.even_mul. simpl. by rewrite orb_true_r. }
  apply byte_shift.
Qed.

Lemma nib_odd k j : is_u256 k → (j < 32)%nat → nib k (2 * j + 1) = (k !!! j) mod 16.
Proof.
  intros Hk Hj. rewrite <- (selectBranch_eq k (mkNodeID (Z.of_nat (2 * j + 1)) zero256)) by (done || lia).
  unfold selectBranch, byte_at. cbn [mDepth]. rewrite half_nat, odd_of_nat.
  replace ((2 * j + 1) / 2)%nat with j
    by (rewrite Nat.mul_comm, Nat.add_comm, Nat.div_add by lia; done).
  assert (Nat.odd (2 * j + 1) = true) as -> by (rewrite Nat.odd_add, Nat.odd_mul; done).
  destruct (u256_byte k Hk j Hj) as (b & _ & -> & Hb). by apply byte_low.
Qed.

Lemma nib_take k n : is_u256 k → (n < 64)%nat → take (S n) (nibs k) = take n (nibs k) ++ [nib k n].
Proof. intros Hk Hn. by apply take_S_r, nib_lookup. Qed.

Lemma u256_eq a b : is_u256 a → is_u256 b → take 64 (nibs a) = take 64 (nibs b) → a = b.
Proof.
  intros Ha Hb. rewrite !take_ge by (rewrite u256_nibs_length; done || lia). apply nibs_inj.
Qed.

Lemma take_shorter {A} (m n : nat) (a b : list A) :
  (m ≤ n)%nat → take n a = take n b → take m a = take m b.
Proof.
  intros Hmn H. replace m with (min m n) by lia. rewrite <- !take_take. by rewrite H.
Qed.

(** ** Order of keys *)
Lemma key_lt_number a b :
  is_u256 a → is_u256 b → key_lt a b = true ↔ number 16 (nibs a) < number 16 (nibs b).
Proof.
  intros [La Ha] [Lb Hb]. rewrite !number_nibs. unfold key_lt.
  rewrite (compare_bytes_spec 256) by (done || lia || congruence).
  destruct (Z.compare_spec (number 256 a) (number 256 b)); simpl; split; done || lia.
Qed.

Lemma number_diverge B p x y s t :
  0 < B → in_base B s → in_base B t → length s = length t → x < y →
  number B (p ++ x :: s) < number B (p ++ y :: t).
Proof.
  intros HB Hs Ht Hl Hxy. rewrite !number_app by done. simpl. rewrite Hl.
  pose proof (number_bounds B s HB Hs) as H1. pose proof (number_bounds B t HB Ht) as H2.
  rewrite Hl in H1. nia.
Qed.

Lemma key_lt_diverge a b n :
  is_u256 a → is_u256 b → (n < 64)%nat →
  take n (nibs a) = take n (nibs b) → nib a n < nib b n → key_lt a b = true.
Proof.
  intros Ha Hb Hn Hp Hlt. apply key_lt_number; [done..|].
  rewrite <- (take_drop_middle (nibs a) n (nib a n)) by by apply nib_lookup.
  rewrite <- (take_drop_middle (nibs b) n (nib b n)) by by apply nib_lookup.
  rewrite Hp. apply number_diverge; [lia| | |by rewrite !length_drop, !u256_nibs_length|done].
  - by apply Forall_drop, u256_nibs_base.
  - by apply Forall_drop, u256_nibs_base.
Qed.

Lemma key_lt_irrefl a : key_lt a a = false.
Proof.
  unfold key_lt. replace (compare_bytes a a) with 0; [done|].
  induction a as [|x a IH]; simpl; [done|]. by rewrite Z.eqb_refl.
Qed.

Lemma key_lt_trans a b c :
  is_u256 a → is_u256 b → is_u256 c → key_lt a b = true → key_lt b c = true → key_lt a c = true.
Proof. intros Ha Hb Hc. rewrite !key_lt_number by done. lia. Qed.

Lemma key_lt_total a b :
  is_u256 a → is_u256 b → a = b ∨ key_lt a b = true ∨ key_lt b a = true.
Proof.
  intros Ha Hb. rewrite !key_lt_number by done.
  destruct (Z.lt_trichotomy (number 16 (nibs a)) (number 16 (nibs b))) as [H|[H|H]]; auto.
  left. apply nibs_inj. eapply (number_inj 16); [lia|by apply u256_nibs_base..| |done].
  by rewrite !u256_nibs_length.
Qed.

Lemma key_lt_ge a b : is_u256 a → is_u256 b → key_lt a b = false → a = b ∨ key_lt b a = true.
Proof. intros Ha Hb H. destruct (key_lt_total a b Ha Hb) as [?|[?|?]]; auto. congruence. Qed.

(** ** The identifiers of nodes *)
Lemma path_take p q : in_base 16 p → (length p ≤ 64)%nat → (q ≤ length p)%nat →
  pack 32 (take q (nibs (pack 32 p))) = pack 32 (take q p).
Proof. intros Hp Hl Hq. rewrite nibs_pack by done. by rewrite take_app_le. Qed.

Lemma pack_u256 p : in_base 16 p → is_u256 (pack 32 p).
Proof. intros Hp. by apply pack_spec. Qed.

(** Names of nodes.  The name of the node at a path of nibbles is the depth
    and the path, zero-padded: the child [m] of the node at [p] is the node at
    [p] followed by [m], its parent is the node at [p], its name satisfies the
    assertions of the constructor, is read back from its 33 raw bytes, and a key
    passes through it exactly when it has the node's path as a prefix. *)
Theorem nodeid_names_paths p m k :
  in_base 16 p → (length p < 64)%nat → 0 ≤ m < 16 → is_u256 k →
  let child := getChildNodeID (path_id p) m in
  child = path_id (p ++ [m]) ∧
  getParentNodeID child = path_id p ∧
  nodeid_ok child = true ∧ isValid child = true ∧
  nodeid_from_raw (addIDRaw child []) 33 = child ∧
  (has_common_prefix child (mkNodeID 64 k) = true ↔
   has_common_prefix (path_id p) (mkNodeID 64 k) = true ∧ selectBranch (path_id p) k = m).
Proof.
  intros Hp Hl Hm Hk child.
  assert (child = path_id (p ++ [m])) as Hc by by apply getChildNodeID_path.
  assert (in_base 16 (p ++ [m])) as Hpm by (apply Forall_app; split; [done|by constructor]).
  assert (length (p ++ [m]) = S (length p)) as Hlen by (rewrite length_app; simpl; lia).
  clearbody child. subst child. split; [done|]. unfold path_id. rewrite Hlen. simpl.
  split; [|split; [|split; [|split]]].
  - unfold getParentNodeID. simpl mDepth. simpl mNodeID.
    replace (Z.of_nat (S (length p)) - 1) with (Z.of_nat (length p)) by lia. f_equal.
    rewrite and_Masks by (by apply pack_u256 || lia).
    rewrite path_take by (done || rewrite Hlen; lia). by rewrite take_app_length.
  - unfold nodeid_ok. simpl mDepth. simpl mNodeID. rewrite and_Masks by (by apply pack_u256 || lia).
    rewrite path_take by (done || rewrite Hlen; lia). rewrite take_ge by lia.
    rewrite bool_decide_true by done. zcases; done || lia.
  - unfold isValid. simpl mDepth. zcases; done || lia.
  - destruct (pack_spec 32 (p ++ [m]) Hpm) as [Hpl _].
    unfold nodeid_from_raw, addIDRaw, byte_at. simpl mDepth. simpl mNodeID.
    rewrite app_nil_l, take_app_le by lia. rewrite take_ge by lia.
    rewrite lookup_total_app_r by lia. rewrite Hpl. simpl. rewrite Z.mod_small by lia. done.
  - unfold has_common_prefix. simpl mDepth. simpl mNodeID.
    rewrite !common_prefix_spec by (done || lia || by apply pack_u256).
    rewrite !nibs_pack by (done || lia). rewrite Hlen.
    rewrite (take_app_le _ _ (S (length p))), (take_ge (p ++ [m])) by lia.
    rewrite (take_app_le _ _ (length p)), (take_ge p) by lia.
    rewrite (selectBranch_eq k _ (length p)), nib_take by done || lia.
    split; [intros [? ?]%app_inj_tail; auto|]. intros [Hpe Hme]. by rewrite <- Hpe, Hme.
Qed.

Lemma nodeid_names_paths_witness :
  getChildNodeID (path_id [10; 11]) 12 = path_id [10; 11; 12].
Proof.
  refine (proj1 (nodeid_names_paths [10; 11] 12 zero256 _ _ _ _)).
  - repeat constructor; lia.
  - simpl. lia.
  - lia.
  - split; [done|]. repeat constructor; lia.
Defined.
