(* ===== verification/SHAMap.v ===== *)
(** * SHAMap: the authenticated map of the ledger

    src/src/ripple/shamap/SHAMap.h, SHAMapTreeNode.h, SHAMapItem.h and
    impl/SHAMap.cpp, impl/SHAMapTreeNode.cpp, in both versions of the tree: in
    version 1 an inner node has the depth of its path, in version 2 it carries
    its own depth and common prefix and skips the depths where keys agree.

    A node is a value: the model is of a map all of whose nodes are resident, so
    that [descendThrow] returns the child and throws nothing, and copy-on-write
    ([unshareNode]) gives the next value.  [mHash], [mHashes] and [mIsBranch] are
    functions of the children.  A stack of the source is a list, top first.  The
    loops take fuel 65, the number of nodes on a path; running out of it and the
    exceptions and failed assertions of the source are [None]. *)

From stdpp Require Import prelude list.
From Stdlib Require Import ZArith Lia.
From S2P Require Import Prelude.
From S2P Require Import BaseUint.
From S2P Require Import BaseUintTheorems.
From S2P Require Import SHAMapNodeID.

Inductive TNType := tnERROR | tnINNER | tnTRANSACTION_NM | tnTRANSACTION_MD | tnACCOUNT_STATE.

#[export] Instance TNType_eq_dec : EqDecision TNType.
Proof. solve_decision. Defined.

Record SHAMapItem := mkItem { item_key : uint256; item_data : list Z }.

#[export] Instance SHAMapItem_eq_dec : EqDecision SHAMapItem.
Proof. solve_decision. Defined.

(** [Inner (Some (depth_, common_))] is a [SHAMapInnerNodeV2], [Inner None] a
    [SHAMapInnerNode] of version 1, [Leaf] a [SHAMapTreeNode]. *)
Inductive Node :=
  | Leaf (mItem : SHAMapItem) (mType : TNType)
  | Inner (v2 : option (Z * uint256)) (mChildren : list (option Node)).

Abbreviation Stack := (list (Node * SHAMapNodeID)).

Definition isLeaf (n : Node) : bool := match n with Leaf _ _ => true | Inner _ _ => false end.
Definition is_v2 (root : Node) : bool :=
  match root with Inner (Some _) _ => true | _ => false end.

(** ** Inner nodes *)
Definition no_children : list (option Node) := replicate 16 None.
Definition getChild (cs : list (option Node)) (branch : Z) : option Node :=
  mjoin (cs !! Z.to_nat branch).
Definition isEmptyBranch (cs : list (option Node)) (m : Z) : bool :=
  match getChild cs m with Some _ => false | None => true end.
Definition setChild (m : Z) (child : option Node) (cs : list (option Node)) : list (option Node) :=
  <[Z.to_nat m := child]> cs.

Fixpoint getBranchCount (cs : list (option Node)) : Z :=
  match cs with
  | [] => 0
  | Some _ :: cs => 1 + getBranchCount cs
  | None :: cs => getBranchCount cs
  end.

(** The first non-empty branch: [for (i = 0; i < 16; ++i) if (!isEmptyBranch (i))]. *)
Fixpoint first_child (cs : list (option Node)) : option Node :=
  match cs with
  | [] => None
  | Some c :: _ => Some c
  | None :: cs => first_child cs
  end.

(** [SHAMapInnerNodeV2::has_common_prefix]; a node of version 1 is not asked. *)
Definition node_has_common_prefix (v : option (Z * uint256)) (key : uint256) : bool :=
  match v with Some (depth, common) => common_prefix depth common key | None => true end.

(** [SHAMapInnerNodeV2::get_common_prefix]: the loop over the whole bytes, which
    returns from inside at the first difference. *)
Fixpoint get_common_prefix_loop (n : nat) (x y : list Z) (r : Z) : Z + Z :=
  match n, x, y with
  | S n, a :: x, b :: y =>
      if a =? b then get_common_prefix_loop n x y (r + 2)
      else inl (if Z.land a 0xF0 =? Z.land b 0xF0 then r + 1 else r)
  | _, _, _ => inr r
  end.
Definition get_common_prefix (depth : Z) (common key : uint256) : Z :=
  match get_common_prefix_loop (Z.to_nat (depth / 2)) common key 0 with
  | inl r => r
  | inr r =>
      if Z.odd depth &&
         (Z.land (byte_at common (depth / 2)) 0xF0 =? Z.land (byte_at key (depth / 2)) 0xF0)
      then r + 1 else r
  end.

(** [SHAMapInnerNodeV2::setChildren] on a new node: the bytes the keys share, the
    nibble they may share after them, and the two children. *)
Fixpoint same_bytes (k1 k2 : list Z) : nat :=
  match k1, k2 with
  | a :: k1, b :: k2 => if a =? b then S (same_bytes k1 k2) else 0%nat
  | _, _ => 0%nat
  end.
Definition setChildren (k1 k2 : uint256) (child1 child2 : Node) : Node :=
  let j := same_bytes k1 k2 in
  let a := k1 !!! j in
  let b := k2 !!! j in
  let shared := take j k1 ++ drop j zero256 in
  if Z.land a 0xF0 =? Z.land b 0xF0
  then Inner (Some (2 * Z.of_nat j + 1, <[j := Z.land a 0xF0]> shared))
         (setChild (Z.land b 0x0F) (Some child2)
            (setChild (Z.land a 0x0F) (Some child1) no_children))
  else Inner (Some (2 * Z.of_nat j, shared))
         (setChild (Z.shiftr b 4) (Some child2)
            (setChild (Z.shiftr a 4) (Some child1) no_children)).

(** ** Walking down and up *)
Definition path_fuel : nat := 65.
Arguments path_fuel : simpl never.

(** The identifier of the child a walk goes to; none for a node of version 1 in a
    map of version 2. *)
Definition step_id (isv2 : bool) (nodeID : SHAMapNodeID) (branch : Z) (c : Node) :
    option SHAMapNodeID :=
  if isv2
  then match c with
       | Inner (Some (depth, common)) _ => Some (mkNodeID depth common)
       | Inner None _ => None
       | Leaf item _ => Some (mkNodeID 64 (item_key item))
       end
  else Some (getChildNodeID nodeID branch).

Fixpoint walk_loop (fuel : nat) (isv2 : bool) (id : uint256) (inNode : Node)
    (nodeID : SHAMapNodeID) (stack : Stack) : option (option Node * Stack) :=
  match fuel with
  | O => None
  | S fuel =>
      let stack := (inNode, nodeID) :: stack in
      match inNode with
      | Leaf _ _ => Some (Some inNode, stack)
      | Inner v cs =>
          if isv2 && negb (node_has_common_prefix v id) then Some (None, stack)
          else
            let branch := selectBranch nodeID id in
            match getChild cs branch with
            | None => Some (None, stack)
            | Some c =>
                match step_id isv2 nodeID branch c with
                | None => Some (None, stack)
                | Some childID => walk_loop fuel isv2 id c childID stack
                end
            end
      end
  end.
Definition walkTowardsKey (root : Node) (id : uint256) : option (option Node * Stack) :=
  walk_loop path_fuel (is_v2 root) id root root_id [].

Definition findKey (root : Node) (id : uint256) : option (option Node) :=
  match walkTowardsKey root id with
  | None => None
  | Some (Some (Leaf item ty), _) =>
      Some (if bool_decide (item_key item = id) then Some (Leaf item ty) else None)
  | Some _ => Some None
  end.

Definition hasItem (root : Node) (id : uint256) : option bool :=
  (λ leaf, match leaf with Some _ => true | None => false end) <$> findKey root id.
Definition peekItem (root : Node) (id : uint256) : option (option (SHAMapItem * TNType)) :=
  (λ leaf, match leaf with Some (Leaf item ty) => Some (item, ty) | _ => None end)
  <$> findKey root id.

(** Replaces the child towards [target] in each node of the stack; the last node
    written is the root. *)
Fixpoint dirtyUp (stack : Stack) (target : uint256) (child : Node) : option Node :=
  match stack with
  | [] => Some child
  | (Inner v cs, nodeID) :: stack =>
      dirtyUp stack target (Inner v (setChild (selectBranch nodeID target) (Some child) cs))
  | (Leaf _ _, _) :: _ => None
  end.

(** ** Adding, updating and deleting *)
Definition leaf_type (isTransaction hasMeta : bool) : TNType :=
  if negb isTransaction then tnACCOUNT_STATE
  else if hasMeta then tnTRANSACTION_MD else tnTRANSACTION_NM.

(** Version 1: inner nodes down to the depth where the two keys part. *)
Fixpoint split_loop (fuel : nat) (tag other : uint256) (nodeID : SHAMapNodeID) (stack : Stack) :
    option (Stack * Z * Z) :=
  match fuel with
  | O => None
  | S fuel =>
      let b1 := selectBranch nodeID tag in
      let b2 := selectBranch nodeID other in
      if b1 =? b2
      then split_loop fuel tag other (getChildNodeID nodeID b1)
             ((Inner None no_children, nodeID) :: stack)
      else Some (stack, b1, b2)
  end.

(** The constructors of [SHAMapTreeNode] assert that the item has twelve bytes or more. *)
Definition large_enough (item : SHAMapItem) : bool := 12 <=? Z.of_nat (length (item_data item)).
Definition new_leaf (item : SHAMapItem) (type : TNType) : option Node :=
  if large_enough item then Some (Leaf item type) else None.

(** The node that takes the place of [node], where the walk ended, and the stack
    above it. *)
Definition add_v1 (item : SHAMapItem) (type : TNType) (node : Node) (nodeID : SHAMapNodeID)
    (stack : Stack) : option (Node * Stack) :=
  let tag := item_key item in
  match node with
  | Inner v cs =>
      newNode ← new_leaf item type;
      Some (Inner v (setChild (selectBranch nodeID tag) (Some newNode) cs), stack)
  | Leaf otherItem _ =>
      '(stack, b1, b2) ← split_loop path_fuel tag (item_key otherItem) nodeID stack;
      newNode ← new_leaf item type;
      otherNode ← new_leaf otherItem type;
      Some (Inner None (setChild b2 (Some otherNode) (setChild b1 (Some newNode) no_children)), stack)
  end.

Definition add_v2 (item : SHAMapItem) (type : TNType) (node : Node) (nodeID : SHAMapNodeID)
    (stack : Stack) : option (Node * Stack) :=
  let tag := item_key item in
  match node with
  | Inner (Some (idepth, icommon)) cs =>
      if common_prefix idepth icommon tag
      then newNode ← new_leaf item type;
           Some (Inner (Some (idepth, icommon))
                   (setChild (selectBranch nodeID tag) (Some newNode) cs), stack)
      else
        match stack with
        | (Inner (Some (parent_depth, parent_common)) pcs, parentID) :: stack' =>
            let depth := get_common_prefix idepth icommon tag in
            let b1 := selectBranch (mkNodeID depth (prefix depth icommon)) icommon in
            let b2 := selectBranch (mkNodeID depth (prefix depth tag)) tag in
            newNode ← new_leaf item type;
            let new_inner := Inner (Some (depth, prefix depth tag))
              (setChild b2 (Some newNode) (setChild b1 (Some node) no_children)) in
            let b := selectBranch (mkNodeID parent_depth (prefix parent_depth tag)) tag in
            let parent := Inner (Some (parent_depth, parent_common))
              (setChild b (Some new_inner) pcs) in
            Some (new_inner, (parent, parentID) :: stack')
        | _ => None
        end
  | Inner None _ => None
  | Leaf otherItem _ =>
      newNode ← new_leaf item type;
      match stack with
      | [] => None
      | _ => Some (setChildren (item_key otherItem) tag node newNode, stack)
      end
  end.

(** The answer and the new root. *)
Definition addGiveItem (root : Node) (item : SHAMapItem) (isTransaction hasMeta : bool) :
    option (bool * Node) :=
  let tag := item_key item in
  let type := leaf_type isTransaction hasMeta in
  match walkTowardsKey root tag with
  | Some (_, (node, nodeID) :: stack) =>
      if match node with
         | Leaf other _ => bool_decide (item_key other = tag)
         | Inner _ _ => false
         end
      then Some (false, root)
      else
        match (if is_v2 root then add_v2 else add_v1) item type node nodeID stack with
        | None => None
        | Some (node, stack) => (λ r, (true, r)) <$> dirtyUp stack tag node
        end
  | _ => None
  end.

(** [onlyBelow]: the item of the only leaf below a node, if there is one.  The
    scan of a node returns [None] when it has two children. *)
Fixpoint only_scan (cs : list (option Node)) (nextNode : option Node) : option (option Node) :=
  match cs with
  | [] => Some nextNode
  | None :: cs => only_scan cs nextNode
  | Some c :: cs => match nextNode with Some _ => None | None => only_scan cs (Some c) end
  end.
Fixpoint onlyBelow (fuel : nat) (node : Node) : option (option SHAMapItem) :=
  match fuel with
  | O => None
  | S fuel =>
      match node with
      | Leaf item _ => Some (Some item)
      | Inner _ cs =>
          match only_scan cs None with
          | Some (Some next) => onlyBelow fuel next
          | _ => Some None
          end
      end
  end.

(** What the parent gets in place of the node [Inner v cs] after the deletion. *)
Definition del_collapse (isv2 : bool) (type : TNType) (v : option (Z * uint256))
    (cs : list (option Node)) : option (option Node) :=
  let bc := getBranchCount cs in
  if isv2
  then if bc =? 0 then None
       else if bc =? 1 then Some (first_child cs)
       else Some (Some (Inner v cs))
  else if bc =? 0 then Some None
       else if bc =? 1
       then match onlyBelow path_fuel (Inner v cs) with
            | None => None
            | Some (Some item) => Some <$> new_leaf item type
            | Some None => Some (Some (Inner v cs))
            end
       else Some (Some (Inner v cs)).

Fixpoint del_loop (isv2 : bool) (id : uint256) (type : TNType) (stack : Stack)
    (prevNode : option Node) (root : Node) : option Node :=
  match stack with
  | [] => Some root
  | (Leaf _ _, _) :: _ => None
  | (Inner v cs, nodeID) :: stack =>
      let cs := setChild (selectBranch nodeID id) prevNode cs in
      if isRoot nodeID then del_loop isv2 id type stack prevNode (Inner v cs)
      else
        match del_collapse isv2 type v cs with
        | None => None
        | Some prevNode => del_loop isv2 id type stack prevNode root
        end
  end.

Definition delItem (root : Node) (id : uint256) : option (bool * Node) :=
  match walkTowardsKey root id with
  | Some (_, (Leaf item type, _) :: stack) =>
      if bool_decide (item_key item = id)
      then (λ r, (true, r)) <$> del_loop (is_v2 root) id type stack None root
      else Some (false, root)
  | Some (_, (Inner _ _, _) :: _) => Some (false, root)
  | _ => None
  end.

(** ** Iteration *)

(** The identifier pushed for an inner node under the top of the stack: the
    branch is the argument of [firstBelow], not the branch descended into. *)
Definition below_id (isv2 : bool) (v : option (Z * uint256)) (stack : Stack) (branch : Z) :
    option SHAMapNodeID :=
  if isv2
  then match v with Some (depth, common) => Some (mkNodeID depth common) | None => None end
  else match stack with
       | (_, top) :: _ => Some (getChildNodeID top branch)
       | [] => None
       end.

(** The loop of [firstBelow]: [inner] is on top of the stack. *)
Fixpoint firstBelow_loop (fuel : nat) (isv2 : bool) (cs : list (option Node)) (stack : Stack)
    (branch : Z) : option (option Node * Stack) :=
  match fuel with
  | O => None
  | S fuel =>
      match first_child cs with
      | None => Some (None, stack)
      | Some (Leaf item ty) =>
          Some (Some (Leaf item ty), (Leaf item ty, mkNodeID 64 (item_key item)) :: stack)
      | Some (Inner v cs') =>
          match below_id isv2 v stack branch with
          | None => None
          | Some id => firstBelow_loop fuel isv2 cs' ((Inner v cs', id) :: stack) branch
          end
      end
  end.
Definition firstBelow (isv2 : bool) (node : Node) (stack : Stack) (branch : Z) :
    option (option Node * Stack) :=
  match node with
  | Leaf item ty => Some (Some node, (node, mkNodeID 64 (item_key item)) :: stack)
  | Inner v cs =>
      match stack with
      | [] => firstBelow_loop path_fuel isv2 cs [(node, root_id)] branch
      | _ =>
          match below_id isv2 v stack branch with
          | None => None
          | Some id => firstBelow_loop path_fuel isv2 cs ((node, id) :: stack) branch
          end
      end
  end.

Definition peekFirstItem (root : Node) : option (option Node * Stack) :=
  match firstBelow (is_v2 root) root [] 0 with
  | Some (None, _) => Some (None, [])
  | r => r
  end.

(** The next non-empty branch from [i] on, with its number. *)
Fixpoint next_branch (cs : list (option Node)) (i : Z) : option (Node * Z) :=
  match cs with
  | [] => None
  | Some c :: _ => Some (c, i)
  | None :: cs => next_branch cs (i + 1)
  end.
Definition branch_from (cs : list (option Node)) (i : Z) : option (Node * Z) :=
  next_branch (drop (Z.to_nat i) cs) i.

(** The loop of [peekNextItem] over the stack, the leaf popped. *)
Fixpoint next_loop (isv2 : bool) (id : uint256) (stack : Stack) : option (option Node * Stack) :=
  match stack with
  | [] => Some (None, [])
  | (Leaf _ _, _) :: _ => None
  | (Inner v cs, nodeID) :: stack' =>
      match branch_from cs (selectBranch nodeID id + 1) with
      | None => next_loop isv2 id stack'
      | Some (node, i) =>
          match firstBelow isv2 node stack i with
          | Some (Some leaf, s) => Some (Some leaf, s)
          | _ => None
          end
      end
  end.
Definition peekNextItem (isv2 : bool) (id : uint256) (stack : Stack) :
    option (option Node * Stack) :=
  match stack with
  | (Leaf _ _, _) :: stack => next_loop isv2 id stack
  | _ => None
  end.

(** Where [upper_bound] starts looking in an inner node. *)
Definition upper_branch (isv2 : bool) (v : option (Z * uint256)) (nodeID : SHAMapNodeID)
    (id : uint256) : Z :=
  if isv2
  then match v with
       | Some (depth, common) =>
           if common_prefix depth common id then selectBranch nodeID id + 1
           else if key_lt id common then 0 else 16
       | None => selectBranch nodeID id + 1
       end
  else selectBranch nodeID id + 1.

Fixpoint upper_loop (isv2 : bool) (id : uint256) (stack : Stack) : option (option Node * Stack) :=
  match stack with
  | [] => Some (None, [])
  | (Leaf item ty, _) :: stack' =>
      if key_lt id (item_key item) then Some (Some (Leaf item ty), stack)
      else upper_loop isv2 id stack'
  | (Inner v cs, nodeID) :: stack' =>
      match branch_from cs (upper_branch isv2 v nodeID id) with
      | None => upper_loop isv2 id stack'
      | Some (node, i) =>
          match firstBelow isv2 node stack i with
          | Some (Some leaf, s) => Some (Some leaf, s)
          | _ => None
          end
      end
  end.
Definition upper_bound (root : Node) (id : uint256) : option (option Node * Stack) :=
  match walkTowardsKey root id with
  | None => None
  | Some (_, stack) => upper_loop (is_v2 root) id stack
  end.

(** [for (it = first; it != end(); ++it)]: the leaves an iterator goes through,
    from the position ([leaf], [stack]) on. *)
Fixpoint iterate (fuel : nat) (isv2 : bool) (leaf : option Node) (stack : Stack) :
    option (list (SHAMapItem * TNType)) :=
  match fuel, leaf with
  | _, None => Some []
  | S fuel, Some (Leaf item ty) =>
      match peekNextItem isv2 (item_key item) stack with
      | None => None
      | Some (leaf, stack) => ((item, ty) ::.) <$> iterate fuel isv2 leaf stack
      end
  | _, _ => None
  end.

(** The number of leaves: enough fuel for an iteration. *)
Fixpoint leaf_count (n : Node) : nat :=
  match n with
  | Leaf _ _ => 1
  | Inner _ cs => sum_list (map (λ o, match o with Some c => leaf_count c | None => O end) cs)
  end.

Definition contents (root : Node) : option (list (SHAMapItem * TNType)) :=
  match peekFirstItem root with
  | None => None
  | Some (leaf, stack) => iterate (leaf_count root) (is_v2 root) leaf stack
  end.

(** [make_v1] and [make_v2]: the leaves added, in order, to a new map.  The
    caller gives the arguments [addGiveItem] is called with. *)
Definition new_root (v2 : bool) : Node :=
  Inner (if v2 then Some (0, zero256) else None) no_children.
Fixpoint give_items (root : Node) (items : list (SHAMapItem * TNType)) : option Node :=
  match items with
  | [] => Some root
  | (item, ty) :: items =>
      match addGiveItem root item (negb (bool_decide (ty = tnACCOUNT_STATE)))
              (bool_decide (ty = tnTRANSACTION_MD)) with
      | None => None
      | Some (_, root) => give_items root items
      end
  end.
Definition make_version (v2 : bool) (root : Node) : option Node :=
  match contents root with
  | None => None
  | Some items => give_items (new_root v2) items
  end.
Definition make_v1 (root : Node) : option Node := make_version false root.
Definition make_v2 (root : Node) : option Node := make_version true root.
