(* ===== verification/SHAMapSpec.v ===== *)
(** * SHAMap: invariant and refinement to a finite map

    The items of a tree are the leaves in order ([items]).  [wf v2 T p n] is the
    invariant of a node [n] reached by the path [p]: leaves hold keys that
    continue the path and have the type [T] of the map; an inner node of version
    1 sits at its path, one of version 2 at an extension of it that is written in
    the node; a subtree that is not the root holds at least two items, in version
    2 in at least two branches.  A walk towards a key is described by [zip], the
    tree with a hole below the stack; every operation fills the hole. *)

From stdpp Require Import prelude list gmap.
From Stdlib Require Import ZArith Lia.
From S2P Require Import Prelude.
From S2P Require Import BaseUint.
From S2P Require Import BaseUintTheorems.
From S2P Require Import SHAMapNodeID.
From S2P Require Import SHAMap.

(** ** Items *)
Fixpoint items (n : Node) : list SHAMapItem :=
  match n with
  | Leaf item _ => [item]
  | Inner _ cs => concat (map (λ o, match o with Some c => items c | None => [] end) cs)
  end.
Definition oitems (o : option Node) : list SHAMapItem :=
  match o with Some c => items c | None => [] end.
Definition citems (cs : list (option Node)) : list SHAMapItem := concat (map oitems cs).

Lemma items_leaf item ty : items (Leaf item ty) = [item].
Proof. done. Qed.
Lemma items_inner v cs : items (Inner v cs) = citems cs.
Proof. done. Qed.
Arguments items : simpl never.
Arguments citems : simpl never.

Lemma citems_cons o cs : citems (o :: cs) = oitems o ++ citems cs.
Proof. done. Qed.

Lemma citems_app cs ds : citems (cs ++ ds) = citems cs ++ citems ds.
Proof. unfold citems. by rewrite map_app, concat_app. Qed.

Lemma citems_split cs i o :
  cs !! i = Some o → citems cs = citems (take i cs) ++ oitems o ++ citems (drop (S i) cs).
Proof.
  intros Hi. rewrite <- (take_drop_middle cs i o Hi) at 1. by rewrite citems_app, citems_cons.
Qed.

Lemma citems_insert cs i o :
  (i < length cs)%nat →
  citems (<[i := o]> cs) = citems (take i cs) ++ oitems o ++ citems (drop (S i) cs).
Proof. intros Hi. by rewrite insert_take_drop, citems_app, citems_cons by done. Qed.

Lemma citems_elem cs x :
  x ∈ citems cs ↔ ∃ i c, cs !! i = Some (Some c) ∧ x ∈ items c.
Proof.
  unfold citems. rewrite list_elem_of_In, in_concat. split.
  - intros (l & (o & <- & Ho)%in_map_iff & Hx). apply list_elem_of_In, list_elem_of_lookup in Ho as [i Hi].
    destruct o as [c|]; simpl in Hx; [|done]. rewrite <- list_elem_of_In in Hx. eauto.
  - intros (i & c & Hi & Hx). exists (items c). rewrite <- !list_elem_of_In. split; [|done].
    apply list_elem_of_In, in_map_iff. exists (Some c). split; [done|].
    apply list_elem_of_In. by eapply list_elem_of_lookup_2.
Qed.

Lemma large_enough_length item : large_enough item = true ↔ (12 ≤ length (item_data item))%nat.
Proof. unfold large_enough. rewrite Z.leb_le. lia. Qed.

(** ** The invariant *)
Definition at_path (v2 : bool) (p q : list Z) (v : option (Z * uint256)) : Prop :=
  if v2 then p `prefix_of` q ∧ v = Some (Z.of_nat (length q), pack 32 q) else q = p ∧ v = None.

Definition big (v2 : bool) (cs : list (option Node)) : Prop :=
  if v2 then 2 ≤ getBranchCount cs else (2 ≤ length (citems cs))%nat.

Inductive wf (v2 : bool) (T : TNType) : list Z → Node → Prop :=
  | wf_leaf p item :
      is_u256 (item_key item) → p `prefix_of` nibs (item_key item) → large_enough item = true →
      wf v2 T p (Leaf item T)
  | wf_inner p q v cs :
      at_path v2 p q v → in_base 16 q → (length q < 64)%nat → length cs = 16%nat →
      (∀ i c, cs !! i = Some (Some c) → wf v2 T (q ++ [Z.of_nat i]) c) → big v2 cs →
      wf v2 T p (Inner v cs).

(** An inner node at [q] whose children are well formed. *)
Definition body (v2 : bool) (T : TNType) (q : list Z) (cs : list (option Node)) : Prop :=
  in_base 16 q ∧ (length q < 64)%nat ∧ length cs = 16%nat ∧
  ∀ i c, cs !! i = Some (Some c) → wf v2 T (q ++ [Z.of_nat i]) c.

Definition wf_root (v2 : bool) (T : TNType) (n : Node) : Prop :=
  match n with
  | Inner v cs => at_path v2 [] [] v ∧ body v2 T [] cs
  | Leaf _ _ => False
  end.

Definition wf_opt (v2 : bool) (T : TNType) (p : list Z) (o : option Node) : Prop :=
  match o with Some c => wf v2 T p c | None => True end.

(** ** Prefixes of keys *)
Lemma prefix_snoc_iff (p l : list Z) i :
  p ++ [i] `prefix_of` l ↔ p `prefix_of` l ∧ l !! length p = Some i.
Proof.
  split.
  - intros [s ->]. split; [rewrite <- (assoc_L (++)); by apply prefix_app_r|].
    rewrite <- (assoc_L (++)), lookup_app_r, Nat.sub_diag by done. done.
  - intros [[s ->] Hl]. rewrite lookup_app_r, Nat.sub_diag in Hl by done.
    destruct s as [|x s]; simplify_eq/=. exists s. by rewrite <- (assoc_L (++)).
Qed.

Lemma prefix_take (p l : list Z) : p `prefix_of` l ↔ take (length p) l = p.
Proof.
  split.
  - intros [s ->]. by rewrite take_app_length.
  - intros H. exists (drop (length p) l). rewrite <- H at 1. by rewrite take_drop.
Qed.

Lemma prefix_key_base p k : is_u256 k → p `prefix_of` nibs k → in_base 16 p.
Proof.
  intros Hk [s Hs]. pose proof (u256_nibs_base k Hk) as Hb. rewrite Hs in Hb.
  by apply Forall_app in Hb as [? _].
Qed.

Lemma prefix_key_snoc p k :
  is_u256 k → p `prefix_of` nibs k → (length p < 64)%nat → p ++ [nib k (length p)] `prefix_of` nibs k.
Proof. intros Hk Hp Hl. apply prefix_snoc_iff. split; [done|]. by apply nib_lookup. Qed.

Lemma prefix_key_nib p k i :
  is_u256 k → p ++ [i] `prefix_of` nibs k → (length p < 64)%nat → nib k (length p) = i.
Proof. intros Hk [_ Hi]%prefix_snoc_iff Hl. rewrite nib_lookup in Hi by done. congruence. Qed.

Lemma at_path_prefix v2 p q v : at_path v2 p q v → p `prefix_of` q.
Proof. destruct v2; [by intros [? _]|by intros [-> _]]. Qed.

Lemma at_path_length v2 p q v : at_path v2 p q v → (length p ≤ length q)%nat.
Proof. intros H. by eapply prefix_length, at_path_prefix. Qed.

(** ** Consequences of the invariant *)
Section wf.
Context (v2 : bool) (T : TNType).

Lemma wf_body p v cs :
  wf v2 T p (Inner v cs) ↔ ∃ q, at_path v2 p q v ∧ body v2 T q cs ∧ big v2 cs.
Proof.
  split.
  - intros H. inversion H; subst. eexists. unfold body. eauto 10.
  - intros (q & ? & (? & ? & ? & ?) & ?). by eapply wf_inner.
Qed.

(** Items below a node continue its path. *)
Lemma wf_items p n :
  wf v2 T p n → ∀ x, x ∈ items n → is_u256 (item_key x) ∧ p `prefix_of` nibs (item_key x).
Proof.
  induction 1 as [p item Hk Hp|p q v cs Hat Hq Hl Hcs Hwf IH Hbig]; intros x Hx.
  - apply list_elem_of_singleton in Hx as ->. done.
  - rewrite items_inner, citems_elem in Hx. destruct Hx as (i & c & Hi & Hx).
    destruct (IH i c Hi x Hx) as [? Hp]. split; [done|].
    etrans; [by eapply at_path_prefix|]. etrans; [|exact Hp]. by apply prefix_app_r.
Qed.

Lemma wf_large p n : wf v2 T p n → ∀ x, x ∈ items n → large_enough x = true.
Proof.
  induction 1 as [p item Hk Hp Hlg|p q v cs Hat Hq Hl Hcs Hwf IH Hbig]; intros x Hx.
  - by apply list_elem_of_singleton in Hx as ->.
  - rewrite items_inner, citems_elem in Hx. destruct Hx as (i & c & Hi & Hx). by apply (IH i c).
Qed.

Lemma body_large q cs i x o : body v2 T q cs → cs !! i = Some o → x ∈ oitems o → large_enough x = true.
Proof.
  intros (_ & _ & _ & Hwf) Hi Hx. destruct o as [c|]; [|by apply elem_of_nil in Hx].
  by eapply wf_large; [apply Hwf|].
Qed.

Lemma body_items q cs i x o :
  body v2 T q cs → cs !! i = Some o → x ∈ oitems o →
  is_u256 (item_key x) ∧ q ++ [Z.of_nat i] `prefix_of` nibs (item_key x).
Proof.
  intros (_ & _ & _ & Hwf) Hi Hx. destruct o as [c|]; [|by apply elem_of_nil in Hx].
  by eapply wf_items; [apply Hwf|].
Qed.

Lemma wf_nonempty p n : wf v2 T p n → items n ≠ [].
Proof.
  induction 1 as [p item Hk Hp|p q v cs Hat Hq Hl Hcs Hwf IH Hbig]; [done|].
  rewrite items_inner. unfold big in Hbig. destruct v2.
  - assert (∃ i c, cs !! i = Some (Some c)) as (i & c & Hi).
    { clear -Hbig. induction cs as [|[c|] cs IH]; simpl in *; [lia|by exists 0%nat, c|].
      destruct IH as (i & c & Hi); [done|]. by exists (S i), c. }
    specialize (IH i c Hi). rewrite (citems_split _ _ _ Hi). simpl.
    by destruct (citems (take i cs)), (items c).
  - intros He. rewrite He in Hbig. simpl in Hbig. lia.
Qed.
Lemma body_nonempty q cs c : body v2 T q cs → Some c ∈ cs → items c ≠ [].
Proof.
  intros (_ & _ & _ & Hwf) [i Hi]%list_elem_of_lookup. by eapply wf_nonempty, Hwf.
Qed.

Lemma count_items cs :
  (∀ c, Some c ∈ cs → items c ≠ []) → 0 ≤ getBranchCount cs ≤ Z.of_nat (length (citems cs)).
Proof.
  induction cs as [|[c|] cs IH]; intros Hne; simpl getBranchCount; [unfold citems; simpl; lia|..];
    rewrite citems_cons, length_app; simpl;
    (assert (0 ≤ getBranchCount cs ≤ Z.of_nat (length (citems cs))) by (apply IH; set_solver)); [|lia].
  assert (items c ≠ []) by set_solver. destruct (items c); simpl; [done|lia].
Qed.

Lemma wf_two p v cs : wf v2 T p (Inner v cs) → (2 ≤ length (citems cs))%nat.
Proof.
  rewrite wf_body. intros (q & _ & Hb & Hbig).
  pose proof (count_items cs (λ c Hc, body_nonempty q cs c Hb Hc)).
  unfold big in Hbig. destruct v2; [lia|done].
Qed.
End wf.

Lemma wf_weaken T p q n : wf true T q n → p `prefix_of` q → wf true T p n.
Proof.
  intros H Hp. inversion H as [? item Hk Hq|? r v cs [Hr Hv]]; subst.
  - constructor; [done|by etrans|done].
  - econstructor; eauto. split; [by etrans|done].
Qed.

Definition one (o : option Node) : Z := match o with Some _ => 1 | None => 0 end.

Lemma count_insert cs i o o' :
  cs !! i = Some o → getBranchCount (<[i := o']> cs) = getBranchCount cs - one o + one o'.
Proof.
  revert i. induction cs as [|[c|] cs IH]; intros [|i] Hi; simplify_eq/=.
  - destruct o'; simpl; lia.
  - rewrite (IH i Hi). lia.
  - destruct o'; simpl; lia.
  - by rewrite (IH i Hi).
Qed.

Lemma big_fill v2 cs i o c :
  cs !! i = Some o → (length (oitems o) ≤ length (items c))%nat → big v2 cs →
  big v2 (<[i := Some c]> cs).
Proof.
  intros Hi Hle. unfold big. destruct v2.
  - rewrite (count_insert _ _ _ _ Hi). destruct o; simpl; lia.
  - rewrite (citems_split _ _ _ Hi), citems_insert by by eapply lookup_lt_Some.
    rewrite !length_app. simpl. lia.
Qed.

Lemma body_fill v2 T q cs i o :
  body v2 T q cs → wf_opt v2 T (q ++ [Z.of_nat i]) o → body v2 T q (<[i := o]> cs).
Proof.
  intros (Hq & Hl & Hcs & Hwf) Ho. split; [done|]. split; [done|].
  split; [by rewrite length_insert|]. intros j c Hj.
  destruct (decide (i = j)) as [<-|Hne].
  - apply list_lookup_insert_Some in Hj as [(_ & -> & _)|[? _]]; done.
  - rewrite list_lookup_insert_ne in Hj by done. auto.
Qed.

(** ** The tree around a hole

    [zip k st p o root]: [root] is the tree whose nodes on the way of the key [k]
    are the stack [st] and which has [o] at the path [p] below them. *)
Inductive zip (v2 : bool) (T : TNType) (k : uint256) (root : Node) :
    Stack → list Z → option Node → Prop :=
  | zip_nil : zip v2 T k root [] [] (Some root)
  | zip_cons st p q v cs id o :
      zip v2 T k root st p (Some (Inner v cs)) →
      at_path v2 p q v → body v2 T q cs → (st = [] → q = []) → (st ≠ [] → big v2 cs) →
      q `prefix_of` nibs k → mDepth id = Z.of_nat (length q) →
      cs !! Z.to_nat (nib k (length q)) = Some o →
      zip v2 T k root ((Inner v cs, id) :: st) (q ++ [nib k (length q)]) o.

(** What fits the hole: a root when there is no stack. *)
Definition fits (v2 : bool) (T : TNType) (st : Stack) (p : list Z) (n : Node) : Prop :=
  match st with [] => wf_root v2 T n | _ => wf v2 T p n end.

Definition off_path (p : list Z) (l : list SHAMapItem) : Prop :=
  ∀ x, x ∈ l → ¬ p `prefix_of` nibs (item_key x).

Section zip.
Context (v2 : bool) (T : TNType) (k : uint256) (Hk : is_u256 k).

Lemma zip_path root st p o : zip v2 T k root st p o → p `prefix_of` nibs k.
Proof.
  destruct 1 as [|st p q v cs id o Hz Hat (Hq & Hl & Hb) Hnil Hbig Hp Hid Ho].
  - apply prefix_nil.
  - by apply prefix_key_snoc.
Qed.

Lemma zip_depth root st p o : zip v2 T k root st p o → st = [] ∨ (0 < length p ≤ 64)%nat.
Proof.
  destruct 1 as [|st p q v cs id o Hz Hat (Hq & Hl & Hb)]; [by left|right].
  rewrite length_app. simpl. lia.
Qed.

Lemma nib_index (q : list Z) : (length q < 64)%nat → Z.of_nat (Z.to_nat (nib k (length q))) = nib k (length q).
Proof. intros Hl. apply Z2Nat.id. by apply nib_range. Qed.

Lemma selectBranch_path q : (length q < 64)%nat → selectBranch (path_id q) k = nib k (length q).
Proof. intros Hl. by apply selectBranch_eq. Qed.

(** Siblings of the branch of [k] hold no key of its path. *)
Lemma siblings_off q cs i x :
  body v2 T q cs → q `prefix_of` nibs k → i = Z.to_nat (nib k (length q)) →
  x ∈ citems (take i cs) ++ citems (drop (S i) cs) →
  ¬ q ++ [nib k (length q)] `prefix_of` nibs (item_key x).
Proof.
  intros Hb Hq -> Hx Hp. pose proof Hb as (_ & Hl & _).
  rewrite elem_of_app, !citems_elem in Hx.
  assert (∃ j c, j ≠ Z.to_nat (nib k (length q)) ∧ cs !! j = Some (Some c) ∧ x ∈ items c)
    as (j & c & Hj & Hc & Hx').
  { destruct Hx as [(j & c & Hc & Hx)|(j & c & Hc & Hx)].
    - exists j, c. pose proof Hc as Hlt%lookup_lt_Some. rewrite length_take in Hlt.
      rewrite lookup_take_lt in Hc by lia. split; [lia|done].
    - rewrite lookup_drop in Hc. eexists _, c. split; [|done]. lia. }
  destruct (body_items v2 T q cs j x (Some c) Hb Hc Hx') as [Hxk Hpj].
  apply prefix_snoc_iff in Hp as [_ Hp]. apply prefix_snoc_iff in Hpj as [_ Hpj].
  rewrite Hp in Hpj. simplify_eq. lia.
Qed.

Lemma off_path_extend p q r l :
  p `prefix_of` q → q `prefix_of` r → off_path p l → off_path r l.
Proof. intros Hpq Hqr Hoff x Hx Hr. apply (Hoff x Hx). etrans; [exact Hpq|]. by etrans. Qed.

(** A node with the child of [k] replaced fits where the node was. *)
Lemma fits_set st p q v cs i o c :
  at_path v2 p q v → body v2 T q cs → (st = [] → q = []) → (st ≠ [] → big v2 cs) →
  cs !! i = Some o → wf v2 T (q ++ [Z.of_nat i]) c → (length (oitems o) ≤ length (items c))%nat →
  fits v2 T st p (Inner v (<[i := Some c]> cs)).
Proof.
  intros Hat Hb Hnil Hbig Hi Hc Hle.
  assert (body v2 T q (<[i := Some c]> cs)) by by apply body_fill.
  destruct st as [|e st]; simpl.
  - rewrite Hnil in * by done. apply at_path_prefix in Hat as Hp. apply prefix_nil_inv in Hp as ->.
    done.
  - apply wf_body. exists q. split; [done|]. split; [done|]. eapply big_fill; eauto.
Qed.

Lemma zip_fill root st p o :
  zip v2 T k root st p o →
  ∃ L R, items root = L ++ oitems o ++ R ∧ off_path p (L ++ R) ∧
    ∀ c, ∃ r, dirtyUp st k c = Some r ∧ items r = L ++ items c ++ R ∧
      (fits v2 T st p c → (length (oitems o) ≤ length (items c))%nat → wf_root v2 T r).
Proof.
  induction 1 as [|st p q v cs id o Hz IH Hat Hb Hnil Hbig Hp Hid Ho].
  - exists [], []. split; [by rewrite app_nil_r|]. split; [by intros x Hx%elem_of_nil|].
    intros c. exists c. split; [done|]. split; [by rewrite app_nil_r|done].
  - destruct IH as (L & R & HLR & Hoff & Hfill). pose proof Hb as (_ & Hl & Hcs & _).
    set (i := Z.to_nat (nib k (length q))) in *.
    exists (L ++ citems (take i cs)), (citems (drop (S i) cs) ++ R). split; [|split].
    + rewrite HLR. simpl oitems at 1. rewrite items_inner, (citems_split _ _ _ Ho), !(assoc_L (++)). done.
    + assert (off_path (q ++ [nib k (length q)]) (L ++ R)) as Hoff'.
      { eapply off_path_extend; [by eapply at_path_prefix|by apply prefix_app_r|done]. }
      intros x Hx. rewrite !elem_of_app in Hx.
      destruct Hx as [[Hx|Hx]|[Hx|Hx]];
        [apply Hoff'; set_solver| | |apply Hoff'; set_solver];
        apply (siblings_off q cs i x Hb Hp eq_refl); set_solver.
    + intros c. destruct (Hfill (Inner v (<[i := Some c]> cs))) as (r & Hr & Hir & Hwr).
      exists r. simpl. rewrite (selectBranch_eq k id (length q)) by done. split; [done|].
      assert (i < length cs)%nat by by eapply lookup_lt_Some.
      rewrite Hir, items_inner, citems_insert, !(assoc_L (++)) by done. split; [done|].
      intros Hc Hle. apply Hwr.
      * eapply fits_set; eauto. subst i. by rewrite nib_index.
      * simpl. rewrite !items_inner, (citems_split _ _ _ Ho), citems_insert, !length_app by done.
        simpl. lia.
Qed.
End zip.

(** ** Walking towards a key *)
Definition id_at (v2 : bool) (p : list Z) (n : Node) (id : SHAMapNodeID) : Prop :=
  match n with
  | Leaf item _ => id = if v2 then mkNodeID 64 (item_key item) else path_id p
  | Inner v _ => ∀ q, at_path v2 p q v → id = path_id q
  end.

(** Where a walk ends: at a leaf, or at an inner node that leaves the key's path
    or has no branch for it. *)
Definition stops (v2 : bool) (k : uint256) (p : list Z) (n : Node) (res : option Node) : Prop :=
  match n with
  | Leaf _ _ => res = Some n
  | Inner v cs =>
      res = None ∧
      ∃ q, at_path v2 p q v ∧ in_base 16 q ∧ (length q < 64)%nat ∧
        (q `prefix_of` nibs k → cs !! Z.to_nat (nib k (length q)) = Some None)
  end.

Lemma at_path_unique v2 p q q' v :
  in_base 16 q → in_base 16 q' → (length q < 64)%nat → (length q' < 64)%nat →
  at_path v2 p q v → at_path v2 p q' v → q = q'.
Proof.
  intros Hq Hq' Hl Hl'. destruct v2; [|by intros [-> _] [-> _]].
  intros [_ ->] [_ [= Hlen Hpack%(f_equal nibs)]].
  rewrite !nibs_pack in Hpack by (done || lia). apply Nat2Z.inj in Hlen.
  by apply app_inj_1 in Hpack as [? _].
Qed.

Lemma common_prefix_path q k :
  in_base 16 q → (length q < 64)%nat → is_u256 k →
  common_prefix (Z.of_nat (length q)) (pack 32 q) k = true ↔ q `prefix_of` nibs k.
Proof.
  intros Hq Hl Hk. rewrite common_prefix_spec by (by apply pack_u256 || done || lia).
  rewrite nibs_pack, take_app_length, prefix_take by (done || lia). by split.
Qed.

Section walk.
Context (v2 : bool) (T : TNType) (k : uint256) (Hk : is_u256 k) (root : Node).

Lemma fits_inner st p v cs :
  zip v2 T k root st p (Some (Inner v cs)) → fits v2 T st p (Inner v cs) →
  ∃ q, at_path v2 p q v ∧ body v2 T q cs ∧ (st = [] → q = []) ∧ (st ≠ [] → big v2 cs).
Proof.
  intros Hz Hf. destruct st as [|e st].
  - inversion Hz; subst. destruct Hf as [Hat Hb]. exists []. done.
  - simpl in Hf. apply wf_body in Hf as (q & ? & ? & ?). exists q. done.
Qed.

Lemma node_prefix_true q p v :
  in_base 16 q → (length q < 64)%nat → at_path v2 p q v → p `prefix_of` nibs k →
  v2 && negb (node_has_common_prefix v k) = false ↔ q `prefix_of` nibs k.
Proof.
  intros Hq Hl Hat Hp. destruct v2; simpl in Hat.
  - destruct Hat as [_ ->]. simpl. rewrite negb_false_iff. by apply common_prefix_path.
  - destruct Hat as [-> ->]. simpl. done.
Qed.

Lemma body_lookup q cs :
  body v2 T q cs → ∃ o, cs !! Z.to_nat (nib k (length q)) = Some o ∧
    getChild cs (nib k (length q)) = o ∧ wf_opt v2 T (q ++ [nib k (length q)]) o.
Proof.
  intros (Hq & Hl & Hcs & Hwf). pose proof (nib_range k (length q) Hk Hl).
  destruct (lookup_lt_is_Some_2 cs (Z.to_nat (nib k (length q)))) as [o Ho]; [lia|].
  exists o. split; [done|]. unfold getChild. rewrite Ho. split; [by destruct o|].
  destruct o as [c|]; [|done]. simpl. rewrite <- (nib_index k Hk) by done. by apply Hwf.
Qed.

Lemma step_id_at q p v cs c :
  at_path v2 p q v → body v2 T q cs → wf v2 T (q ++ [nib k (length q)]) c →
  ∃ id, step_id v2 (path_id q) (nib k (length q)) c = Some id ∧
        id_at v2 (q ++ [nib k (length q)]) c id.
Proof.
  intros Hat (Hq & Hl & _) Hc. pose proof (nib_range k (length q) Hk Hl).
  assert (in_base 16 (q ++ [nib k (length q)])) by (apply Forall_app; split; [done|by constructor]).
  inversion Hc as [? item Hi Hpi Hp Hn|? r w ds Hr Hrb Hrl Hds Hwf Hbig Hp Hn]; subst; unfold step_id.
  - destruct v2; eexists; (split; [done|]); simpl; [done|]. by apply getChildNodeID_path.
  - destruct v2; simpl in Hr.
    + destruct Hr as [Hpr ->]. eexists. split; [done|]. simpl. intros q' [_ [= Hq' Hpk]].
      by unfold path_id; rewrite Hq', Hpk.
    + destruct Hr as [-> ->]. eexists. split; [done|]. simpl. intros q' [-> _].
      by apply getChildNodeID_path.
Qed.

Lemma walk_loop_spec fuel : ∀ st p node id,
  zip v2 T k root st p (Some node) → fits v2 T st p node → id_at v2 p node id →
  (65 ≤ fuel + length p)%nat →
  ∃ res node' id' st' p',
    walk_loop fuel v2 k node id st = Some (res, (node', id') :: st') ∧
    zip v2 T k root st' p' (Some node') ∧ fits v2 T st' p' node' ∧
    id_at v2 p' node' id' ∧ stops v2 k p' node' res.
Proof.
  induction fuel as [|fuel IH]; intros st p node id Hz Hf Hid Hfuel.
  { pose proof (zip_depth v2 T k root st p _ Hz) as [->|?]; [|lia].
    inversion Hz; subst. simpl in Hfuel. lia. }
  simpl. destruct node as [item ty|v cs]; [by eexists _, _, _, _, p|].
  destruct (fits_inner st p v cs Hz Hf) as (q & Hat & Hb & Hnil & Hbig).
  pose proof Hb as (Hq & Hl & _). pose proof (zip_path v2 T k Hk root st p _ Hz) as Hpk.
  rewrite (Hid q Hat). pose proof (node_prefix_true q p v Hq Hl Hat Hpk) as Hpre.
  destruct (v2 && negb (node_has_common_prefix v k)) eqn:Hc.
  - eexists _, _, _, _, p. split; [done|]. split; [done|]. split; [done|].
    split; [by rewrite <- (Hid q Hat)|]. split; [done|]. exists q. split; [done|].
    split; [done|]. split; [done|]. intros Hqk. apply Hpre in Hqk. done.
  - assert (q `prefix_of` nibs k) as Hqk by by apply Hpre. rewrite selectBranch_path by done.
    destruct (body_lookup q cs Hb) as (o & Ho & -> & Hwo). destruct o as [c|].
    + destruct (step_id_at q p v cs c Hat Hb Hwo) as (id' & -> & Hid').
      apply (IH _ (q ++ [nib k (length q)])); [|done|done|].
      * by eapply zip_cons.
      * apply at_path_length in Hat. rewrite length_app. simpl. lia.
    + eexists _, _, _, _, p. split; [done|]. split; [done|]. split; [done|].
      split; [by rewrite <- (Hid q Hat)|]. split; [done|]. by exists q.
Qed.

Lemma is_v2_root : wf_root v2 T root → is_v2 root = v2.
Proof.
  destruct root as [|v cs]; [done|]. intros [Hat _]. simpl in Hat |- *.
  destruct v2; [by destruct Hat as [_ ->]|by destruct Hat as [_ ->]].
Qed.

Lemma walkTowardsKey_spec :
  wf_root v2 T root →
  ∃ res node id st p,
    walkTowardsKey root k = Some (res, (node, id) :: st) ∧
    zip v2 T k root st p (Some node) ∧ fits v2 T st p node ∧
    id_at v2 p node id ∧ stops v2 k p node res.
Proof.
  intros Hwf. unfold walkTowardsKey. rewrite is_v2_root by done.
  apply (walk_loop_spec _ _ []); [constructor|done| |simpl; unfold path_fuel; lia].
  destruct root as [|v cs]; [done|]. destruct Hwf as [Hat _]. intros q Hq.
  destruct v2; simpl in *.
  - destruct Hat as [_ ->], Hq as [_ [= Hlen _]]. by destruct q.
  - by destruct Hq as [-> _].
Qed.
End walk.
