(* ===== verification/SHAMapRefine.v ===== *)
(** * SHAMap: the operations refine a finite map

    The items of a well-formed tree are strictly sorted by key, so that it stands
    for a finite map from keys to data ([abs]).  Lookup, addition and deletion,
    in both versions of the tree, are those of the map and keep the invariant. *)

From stdpp Require Import prelude list gmap sorting.
From Stdlib Require Import ZArith Lia.
From S2P Require Import Prelude.
From S2P Require Import BaseUint.
From S2P Require Import BaseUintTheorems.
From S2P Require Import SHAMapNodeID.
From S2P Require Import SHAMap.
From S2P Require Import SHAMapSpec.

(** ** Order and abstraction *)
Definition item_lt (x y : SHAMapItem) : Prop := key_lt (item_key x) (item_key y) = true.
Definition pair_of (x : SHAMapItem) : uint256 * list Z := (item_key x, item_data x).
Definition abs_items (l : list SHAMapItem) : gmap uint256 (list Z) := list_to_map (pair_of <$> l).
Definition abs (root : Node) : gmap uint256 (list Z) := abs_items (items root).

Lemma citems_sorted cs :
  (∀ i c, cs !! i = Some (Some c) → StronglySorted item_lt (items c)) →
  (∀ i j c d x y, (i < j)%nat → cs !! i = Some (Some c) → cs !! j = Some (Some d) →
     x ∈ items c → y ∈ items d → item_lt x y) →
  StronglySorted item_lt (citems cs).
Proof.
  induction cs as [|o cs IH]; intros Hs Hx; [constructor|]. rewrite citems_cons.
  apply StronglySorted_app_2.
  - intros x y Hxo Hy. destruct o as [c|]; [|by apply elem_of_nil in Hxo].
    apply citems_elem in Hy as (j & d & Hj & Hy).
    apply (Hx 0%nat (S j) c d); done || lia.
  - destruct o as [c|]; [by apply (Hs 0%nat)|constructor].
  - apply IH; [intros i c; apply (Hs (S i))|].
    intros i j c d x y Hij. apply (Hx (S i) (S j)). lia.
Qed.

Lemma body_order v2 T q cs i j c d x y :
  body v2 T q cs → (i < j)%nat → cs !! i = Some (Some c) → cs !! j = Some (Some d) →
  x ∈ items c → y ∈ items d → item_lt x y.
Proof.
  intros Hb Hij Hi Hj Hx Hy. pose proof Hb as (_ & Hl & _).
  destruct (body_items v2 T q cs i x _ Hb Hi Hx) as [Hxk Hxp].
  destruct (body_items v2 T q cs j y _ Hb Hj Hy) as [Hyk Hyp].
  apply prefix_key_nib in Hxp as Hxn; [|done..]. apply prefix_key_nib in Hyp as Hyn; [|done..].
  apply prefix_snoc_iff in Hxp as [Hxp%prefix_take _], Hyp as [Hyp%prefix_take _].
  apply (key_lt_diverge _ _ (length q)); [done..|congruence|lia].
Qed.

Lemma wf_sorted v2 T p n : wf v2 T p n → StronglySorted item_lt (items n).
Proof.
  induction 1 as [p item Hk Hp|p q v cs Hat Hq Hl Hcs Hwf IH Hbig]; [by repeat constructor|].
  apply citems_sorted; [done|]. intros. eapply (body_order v2 T q cs i j c d); done.
Qed.

Lemma body_sorted v2 T q cs : body v2 T q cs → StronglySorted item_lt (citems cs).
Proof.
  intros Hb. apply citems_sorted.
  - intros i c Hi. by eapply wf_sorted, Hb.
  - intros. eapply (body_order v2 T q cs i j c d); done.
Qed.

Lemma sorted_nodup l : StronglySorted item_lt l → NoDup (pair_of <$> l).*1.
Proof.
  induction 1 as [|x l Hs IH Hall]; simpl; [constructor|]. constructor; [|done].
  intros (p & Hp & (y & -> & Hy)%list_elem_of_fmap)%list_elem_of_fmap. simpl in Hp.
  rewrite Forall_forall in Hall. specialize (Hall y Hy). unfold item_lt in Hall.
  by rewrite Hp, key_lt_irrefl in Hall.
Qed.

Section root.
Context (v2 : bool) (T : TNType) (root : Node) (Hroot : wf_root v2 T root).

Lemma root_sorted : StronglySorted item_lt (items root).
Proof. destruct root as [|v cs]; [done|]. destruct Hroot as [_ Hb]. by eapply body_sorted. Qed.

Lemma root_nodup : NoDup (pair_of <$> items root).*1.
Proof. apply sorted_nodup, root_sorted. Qed.

Lemma root_keys x : x ∈ items root → is_u256 (item_key x).
Proof.
  destruct root as [|v cs]; [done|]. destruct Hroot as [_ Hb].
  rewrite items_inner, citems_elem. intros (i & c & Hi & Hx).
  by destruct (body_items v2 T [] cs i x _ Hb Hi Hx).
Qed.

Lemma root_large x : x ∈ items root → large_enough x = true.
Proof.
  destruct root as [|v cs]; [done|]. destruct Hroot as [_ Hb].
  rewrite items_inner, citems_elem. intros (i & c & Hi & Hx). by apply (body_large v2 T [] cs i x (Some c)).
Qed.

Lemma abs_lookup k d : abs root !! k = Some d ↔ mkItem k d ∈ items root.
Proof.
  unfold abs, abs_items. rewrite <- elem_of_list_to_map by apply root_nodup.
  rewrite list_elem_of_fmap. split.
  - intros ([k' d'] & [= -> ->] & Hx). done.
  - intros Hx. by exists (mkItem k d).
Qed.

Lemma abs_none k : abs root !! k = None ↔ ∀ x, x ∈ items root → item_key x ≠ k.
Proof.
  split.
  - intros Hn [k' d] Hx ?. simpl in *. subst. apply abs_lookup in Hx. congruence.
  - intros Hn. destruct (abs root !! k) as [d|] eqn:Hd; [|done].
    apply abs_lookup in Hd. by apply Hn in Hd.
Qed.
End root.

(** The key is where the walk ends or nowhere. *)
Lemma off_path_key p k l : p `prefix_of` nibs k → off_path p l → ∀ x, x ∈ l → item_key x ≠ k.
Proof. intros Hp Hoff x Hx <-. by apply (Hoff x Hx). Qed.

Lemma stops_absent v2 T k root st p v cs :
  is_u256 k → wf_root v2 T root → zip v2 T k root st p (Some (Inner v cs)) →
  fits v2 T st p (Inner v cs) → stops v2 k p (Inner v cs) None → abs root !! k = None.
Proof.
  intros Hk Hwf Hz Hf [_ (q & Hat & Hq & Hl & Hstop)]. apply (abs_none v2 T); [done|]. intros x Hx Hxk.
  destruct (zip_fill v2 T k Hk root st p _ Hz) as (L & R & HLR & Hoff & _).
  pose proof (zip_path v2 T k Hk root st p _ Hz) as Hp.
  rewrite HLR in Hx. rewrite !elem_of_app in Hx.
  assert (x ∈ citems cs) as Hxc.
  { destruct Hx as [Hx|[Hx|Hx]]; [|done|]; destruct (off_path_key p k _ Hp Hoff x); set_solver. }
  destruct (fits_inner v2 T k root st p v cs Hz Hf) as (q' & Hat' & Hb & _).
  pose proof Hb as (Hq' & Hl' & _).
  apply citems_elem in Hxc as (i & c & Hi & Hxc).
  destruct (body_items v2 T q' cs i x _ Hb Hi Hxc) as [_ Hpi]. rewrite Hxk in Hpi.
  apply prefix_key_nib in Hpi as Hn; [|done..].
  assert (q = q') as -> by by eapply at_path_unique.
  apply prefix_snoc_iff in Hpi as [Hpq _]. specialize (Hstop Hpq).
  rewrite Hn, Nat2Z.id in Hstop. congruence.
Qed.

Lemma stops_leaf v2 T k root st p item ty :
  is_u256 k → wf_root v2 T root → zip v2 T k root st p (Some (Leaf item ty)) →
  fits v2 T st p (Leaf item ty) →
  ty = T ∧ st ≠ [] ∧ wf v2 T p (Leaf item T) ∧
  (∀ x, x ∈ items root → item_key x = k → x = item) ∧ item ∈ items root.
Proof.
  intros Hk Hwf Hz Hf. destruct st as [|e st]; [done|]. simpl in Hf.
  assert (ty = T) as -> by (by inversion Hf). split; [done|]. split; [done|]. split; [done|].
  destruct (zip_fill v2 T k Hk root (e :: st) p _ Hz) as (L & R & HLR & Hoff & _).
  pose proof (zip_path v2 T k Hk root _ p _ Hz) as Hp. rewrite HLR.
  change (oitems (Some (Leaf item T))) with [item].
  split; [|set_solver].
  intros x Hx Hxk. rewrite !elem_of_app, list_elem_of_singleton in Hx.
  destruct Hx as [Hx|[Hx|Hx]]; [|done|]; destruct (off_path_key p k _ Hp Hoff x); set_solver.
Qed.

(** ** Lookup *)
Lemma findKey_spec v2 T root k :
  is_u256 k → wf_root v2 T root →
  findKey root k = Some ((λ d, Leaf (mkItem k d) T) <$> abs root !! k).
Proof.
  intros Hk Hwf.
  destruct (walkTowardsKey_spec v2 T k Hk root Hwf) as (res & node & id & st & p & Hw & Hz & Hf & _ & Hs).
  unfold findKey. rewrite Hw. destruct node as [item ty|v cs].
  - simpl in Hs. subst res.
    destruct (stops_leaf v2 T k root st p item ty Hk Hwf Hz Hf) as (-> & _ & _ & Huniq & Hin).
    case_bool_decide as Hkey.
    + destruct item as [k' d]. simpl in Hkey. subst k'.
      apply (abs_lookup v2 T) in Hin; [|done]. by rewrite Hin.
    + assert (abs root !! k = None) as ->; [|done].
      apply (abs_none v2 T); [done|]. intros x Hx Hxk. apply Hkey. by rewrite <- (Huniq x Hx Hxk).
  - assert (res = None) as -> by by destruct Hs.
    by rewrite (stops_absent v2 T k root st p v cs Hk Hwf Hz Hf Hs).
Qed.

(** ** Addition *)
Lemma citems_insert_perm cs i o o' :
  cs !! i = Some o → citems (<[i := o']> cs) ++ oitems o ≡ₚ oitems o' ++ citems cs.
Proof.
  intros Hi. rewrite (citems_split _ _ _ Hi), citems_insert by by eapply lookup_lt_Some.
  solve_Permutation.
Qed.

Lemma body_empty v2 T q : in_base 16 q → (length q < 64)%nat → body v2 T q no_children.
Proof.
  intros Hq Hl. split; [done|]. split; [done|]. split; [done|].
  intros i c Hi. by apply lookup_replicate in Hi as [? _].
Qed.

Lemma no_children_lookup i : 0 ≤ i < 16 → no_children !! Z.to_nat i = Some None.
Proof. intros Hi. apply lookup_replicate_2. lia. Qed.

Lemma citems_none : citems no_children = [].
Proof. done. Qed.

(** A new node with two children. *)
Definition pair_node (i j : Z) (a b : Node) : list (option Node) :=
  setChild j (Some b) (setChild i (Some a) no_children).

Lemma pair_node_spec v2 T q i j a b :
  in_base 16 q → (length q < 64)%nat → 0 ≤ i < 16 → 0 ≤ j < 16 → i ≠ j →
  wf v2 T (q ++ [i]) a → wf v2 T (q ++ [j]) b →
  body v2 T q (pair_node i j a b) ∧ getBranchCount (pair_node i j a b) = 2 ∧
  citems (pair_node i j a b) ≡ₚ items a ++ items b.
Proof.
  intros Hq Hl Hi Hj Hij Ha Hb. unfold pair_node, setChild.
  assert (no_children !! Z.to_nat i = Some None) as Hni by by apply no_children_lookup.
  assert (<[Z.to_nat i := Some a]> no_children !! Z.to_nat j = Some None) as Hnj.
  { rewrite list_lookup_insert_ne by lia. by apply no_children_lookup. }
  split; [|split].
  - apply body_fill; [apply body_fill; [by apply body_empty|]|]; simpl; by rewrite Z2Nat.id by lia.
  - by rewrite (count_insert _ _ _ _ Hnj), (count_insert _ _ _ _ Hni).
  - pose proof (citems_insert_perm _ _ _ (Some b) Hnj) as H1.
    pose proof (citems_insert_perm _ _ _ (Some a) Hni) as H2.
    simpl in H1, H2. rewrite app_nil_r in H1, H2. rewrite H1, H2, citems_none, app_nil_r.
    apply Permutation_app_comm.
Qed.

Lemma pair_node_wf v2 T p q v i j a b :
  at_path v2 p q v → in_base 16 q → (length q < 64)%nat → 0 ≤ i < 16 → 0 ≤ j < 16 → i ≠ j →
  wf v2 T (q ++ [i]) a → wf v2 T (q ++ [j]) b →
  wf v2 T p (Inner v (pair_node i j a b)) ∧ items (Inner v (pair_node i j a b)) ≡ₚ items a ++ items b.
Proof.
  intros Hat Hq Hl Hi Hj Hij Ha Hb.
  destruct (pair_node_spec v2 T q i j a b Hq Hl Hi Hj Hij Ha Hb) as (Hbody & Hcount & Hperm).
  split; [|done]. apply wf_body. exists q. split; [done|]. split; [done|]. unfold big.
  destruct v2; [lia|]. rewrite Hperm, length_app.
  apply wf_nonempty in Ha, Hb. destruct (items a), (items b); simpl; done || lia.
Qed.

(** Where two keys part, as [setChildren] finds it. *)
Lemma same_bytes_spec a b :
  a ≠ b → length a = length b →
  let j := same_bytes a b in
  (j < length a)%nat ∧ take j a = take j b ∧ a !!! j ≠ b !!! j.
Proof.
  revert b. induction a as [|x a IH]; intros [|y b] Hne Hlen; simplify_eq/=.
  destruct (Z.eqb_spec x y) as [->|Hxy]; [|by split; [lia|]].
  destruct (IH b) as (H1 & H2 & H3); [congruence|done|]. simpl.
  split; [lia|]. split; [by rewrite H2|done].
Qed.

Lemma setChildren_spec a b x y :
  is_u256 a → is_u256 b → a ≠ b →
  ∃ d, (d < 64)%nat ∧ take d (nibs a) = take d (nibs b) ∧ nib a d ≠ nib b d ∧
    setChildren a b x y =
    Inner (Some (Z.of_nat d, pack 32 (take d (nibs a)))) (pair_node (nib a d) (nib b d) x y).
Proof.
  intros Ha Hb Hne. pose proof Ha as [La _]. pose proof Hb as [Lb _].
  destruct (same_bytes_spec a b Hne ltac:(congruence)) as (Hj & Htake & Hd).
  unfold setChildren. set (j := same_bytes a b) in *. rewrite La in Hj.
  destruct (u256_byte a Ha j Hj) as (u & _ & Hu & Hur). destruct (u256_byte b Hb j Hj) as (w & _ & Hw & Hwr).
  rewrite !Hu, !Hw in *. rewrite !byte_high, !byte_low, !byte_shift by done.
  assert (take (2 * j) (nibs a) = take (2 * j) (nibs b)) as Hpre by (by rewrite <- !nibs_take, Htake).
  destruct (Z.eqb_spec (16 * (u / 16)) (16 * (w / 16))) as [Heq|Hdiff].
  - exists (2 * j + 1)%nat. rewrite !nib_odd, Hu, Hw by done. split; [lia|]. split; [|split].
    + rewrite Nat.add_1_r, !nib_take, Hpre, !nib_even, Hu, Hw by (done || lia). do 2 f_equal. lia.
    + intros Hm. apply Hd. rewrite (Z.div_mod u 16), (Z.div_mod w 16) by lia. lia.
    + rewrite <- prefix_pack by (done || lia). unfold prefix, byte_at. rewrite half_nat, odd_of_nat.
      replace ((2 * j + 1) / 2)%nat with j
        by (rewrite Nat.mul_comm, Nat.add_comm, Nat.div_add by lia; done).
      assert (Nat.odd (2 * j + 1) = true) as -> by (rewrite Nat.odd_add, Nat.odd_mul; done).
      rewrite Hu, byte_high by done. do 3 f_equal. lia.
  - exists (2 * j)%nat. rewrite !nib_even, Hu, Hw by done. split; [lia|]. split; [done|]. split; [lia|].
    rewrite <- prefix_pack by (done || lia). unfold prefix, byte_at. rewrite half_nat, odd_of_nat.
    replace (2 * j / 2)%nat with j by (rewrite Nat.mul_comm, Nat.div_mul; lia).
    assert (Nat.odd (2 * j) = false) as ->.
    { rewrite <- Nat.negb_even, Nat.even_mul. done. }
    do 3 f_equal. lia.
Qed.

(** Where a key leaves the path of a node, as [get_common_prefix] finds it. *)
Lemma get_common_prefix_loop_spec m : ∀ x y r,
  in_base 256 x → in_base 256 y → (m ≤ length x)%nat → (m ≤ length y)%nat →
  match get_common_prefix_loop m x y r with
  | inl d => ∃ e, d = r + Z.of_nat e ∧ (e < 2 * m)%nat ∧
      take e (nibs x) = take e (nibs y) ∧ nibs x !! e ≠ nibs y !! e
  | inr d => d = r + Z.of_nat (2 * m) ∧ take (2 * m) (nibs x) = take (2 * m) (nibs y)
  end.
Proof.
  induction m as [|m IH]; intros x y r Hx Hy Lx Ly; [simpl; split; [lia|done]|].
  destruct Hx as [|a x Ha Hx]; [simpl in Lx; lia|]. destruct Hy as [|b y Hb Hy]; [simpl in Ly; lia|].
  simpl in Lx, Ly. cbn [get_common_prefix_loop]. rewrite !nibs_cons.
  destruct (Z.eqb_spec a b) as [->|Hab].
  - specialize (IH x y (r + 2) Hx Hy ltac:(lia) ltac:(lia)).
    destruct (get_common_prefix_loop m x y (r + 2)) as [d|d].
    + destruct IH as (e & -> & He & Ht & Hn). exists (S (S e)). split; [lia|]. split; [lia|].
      split; [simpl; by rewrite Ht|done].
    + destruct IH as [-> Ht]. replace (2 * S m)%nat with (S (S (2 * m))) by lia.
      split; [lia|]. cbn [take]. by rewrite Ht.
  - rewrite !byte_high by done. destruct (Z.eqb_spec (16 * (a / 16)) (16 * (b / 16))) as [Heq|Hd].
    + exists 1%nat. split; [lia|]. split; [lia|]. split; [simpl; f_equal; lia|].
      simpl. intros [= Hm]. apply Hab. rewrite (Z.div_mod a 16), (Z.div_mod b 16) by lia. lia.
    + exists 0%nat. split; [lia|]. split; [lia|]. split; [done|]. simpl. intros [= Hm]. lia.
Qed.

Lemma get_common_prefix_spec q k :
  in_base 16 q → (length q < 64)%nat → is_u256 k → ¬ q `prefix_of` nibs k →
  ∃ d, get_common_prefix (Z.of_nat (length q)) (pack 32 q) k = Z.of_nat d ∧ (d < length q)%nat ∧
    take d q = take d (nibs k) ∧ nib (pack 32 q) d ≠ nib k d.
Proof.
  intros Hq Hl Hk Hnp. pose proof (pack_u256 q Hq) as Hpk.
  pose proof Hpk as [Lp Bp]. pose proof Hk as [Lk Bk].
  assert (∀ e, (e ≤ length q)%nat → take e (nibs (pack 32 q)) = take e q) as Htk.
  { intros e He. rewrite nibs_pack by (done || lia). by rewrite take_app_le. }
  assert (∀ e, (e < 64)%nat → nibs (pack 32 q) !! e ≠ nibs k !! e → nib (pack 32 q) e ≠ nib k e) as Hnb.
  { intros e He Hn Heq. apply Hn. by rewrite !nib_lookup, Heq. }
  unfold get_common_prefix, byte_at. rewrite half_nat, odd_of_nat.
  pose proof (Nat.div_mod_eq (length q) 2) as Hdm.
  pose proof (Nat.mod_upper_bound (length q) 2 ltac:(lia)) as Hmb.
  assert (Nat.odd (length q) = (length q mod 2 =? 1)%nat) as Hodd
    by (by rewrite <- Nat.bit0_odd, Nat.bit0_eqb).
  pose proof (get_common_prefix_loop_spec (length q / 2) (pack 32 q) k 0 Bp Bk ltac:(lia) ltac:(lia)) as H.
  destruct (get_common_prefix_loop (length q / 2) (pack 32 q) k 0) as [d|d].
  - destruct H as (e & -> & He & Ht & Hn). exists e. split; [lia|]. split; [lia|].
    split; [by rewrite <- Htk by lia|]. apply Hnb; [lia|done].
  - destruct H as [-> Ht]. set (m := (length q / 2)%nat) in *.
    destruct (u256_byte _ Hpk m ltac:(lia)) as (u & _ & Hu & Hur).
    destruct (u256_byte k Hk m ltac:(lia)) as (w & _ & Hw & Hwr).
    rewrite Hu, Hw, !byte_high by done. rewrite Hodd.
    destruct (Nat.eqb_spec (length q mod 2) 1) as [Hm|Hm]; simpl.
    + assert (nib (pack 32 q) (2 * m) = u / 16) as E1 by (by rewrite nib_even, Hu by (done || lia)).
      assert (nib k (2 * m) = w / 16) as E2 by (by rewrite nib_even, Hw by (done || lia)).
      destruct (Z.eqb_spec (16 * (u / 16)) (16 * (w / 16))) as [Heq|Hd].
      * destruct Hnp. apply prefix_take.
        trans (take (length q) (nibs (pack 32 q))); [|by rewrite Htk, take_ge by lia].
        replace (length q) with (S (2 * m)) by lia.
        rewrite !nib_take, Ht, E1, E2 by (done || lia). do 2 f_equal. lia.
      * exists (2 * m)%nat. split; [lia|]. split; [lia|]. split; [by rewrite <- Htk by lia|].
        rewrite E1, E2. lia.
    + destruct Hnp. apply prefix_take.
      trans (take (length q) (nibs (pack 32 q))); [|by rewrite Htk, take_ge by lia].
      replace (length q) with (2 * m)%nat by lia. done.
Qed.

(** What an addition puts in the hole below [st] where [node] was. *)
Definition added (v2 : bool) (T : TNType) (item : SHAMapItem) (st : Stack) (p : list Z) (node : Node)
    (r : option (Node * Stack)) : Prop :=
  ∃ node' st' c, r = Some (node', st') ∧
    dirtyUp st' (item_key item) node' = dirtyUp st (item_key item) c ∧
    fits v2 T st p c ∧ items c ≡ₚ item :: items node.

Section add.
Context (v2 : bool) (T : TNType) (root : Node) (item : SHAMapItem).
Context (Hk : is_u256 (item_key item)) (Hlg : large_enough item = true).
#[local] Abbreviation tag := (item_key item).

Lemma leaf_at p : p `prefix_of` nibs tag → wf v2 T p (Leaf item T).
Proof. by constructor. Qed.

(** Into an empty branch of an inner node on the key's path. *)
Lemma add_branch st p q v cs :
  zip v2 T tag root st p (Some (Inner v cs)) → fits v2 T st p (Inner v cs) →
  at_path v2 p q v → in_base 16 q → (length q < 64)%nat → q `prefix_of` nibs tag →
  cs !! Z.to_nat (nib tag (length q)) = Some None →
  fits v2 T st p (Inner v (setChild (nib tag (length q)) (Some (Leaf item T)) cs)) ∧
  items (Inner v (setChild (nib tag (length q)) (Some (Leaf item T)) cs)) ≡ₚ item :: citems cs.
Proof.
  intros Hz Hf Hat Hq Hl Hqk Hnone.
  destruct (fits_inner v2 T tag root st p v cs Hz Hf) as (q' & Hat' & Hb & Hnil & Hbig).
  pose proof Hb as (Hq' & Hl' & _). assert (q' = q) as -> by by eapply at_path_unique.
  split.
  - eapply fits_set; [done..| |simpl; lia]. rewrite nib_index by done.
    by apply leaf_at, prefix_key_snoc.
  - pose proof (citems_insert_perm _ _ _ (Some (Leaf item T)) Hnone) as H.
    simpl in H. rewrite app_nil_r in H. by rewrite items_inner.
Qed.

(** Two different keys on the same path part below it. *)
Lemma path_short p (k k' : uint256) :
  is_u256 k → is_u256 k' → k ≠ k' → p `prefix_of` nibs k → p `prefix_of` nibs k' → (length p < 64)%nat.
Proof.
  intros Hk1 Hk' Hne Hp Hp'. pose proof (prefix_length _ _ Hp) as Hlen.
  rewrite u256_nibs_length in Hlen by done. destruct (decide (length p = 64%nat)) as [Hl|]; [|lia].
  destruct Hne. apply u256_eq; [done..|]. rewrite <- Hl.
  apply prefix_take in Hp, Hp'. congruence.
Qed.

Section add_leaf.
Context (other : SHAMapItem) (Hok : is_u256 (item_key other)) (Hlo : large_enough other = true) (Hne : item_key other ≠ tag).

Lemma split_loop_spec fuel : ∀ st p,
  (65 ≤ fuel + length p)%nat → p `prefix_of` nibs tag → p `prefix_of` nibs (item_key other) →
  ∃ st' b1 b2 c,
    split_loop fuel tag (item_key other) (path_id p) st = Some (st', b1, b2) ∧
    dirtyUp st' tag (Inner None (pair_node b1 b2 (Leaf item T) (Leaf other T))) = dirtyUp st tag c ∧
    wf false T p c ∧ items c ≡ₚ [item; other].
Proof.
  induction fuel as [|fuel IH]; intros st p Hfuel Hp Hpo;
    pose proof (path_short p _ _ Hok Hk Hne Hpo Hp) as Hl; [lia|]. simpl.
  rewrite !selectBranch_path by done.
  assert (in_base 16 p) as Hb by by apply (prefix_key_base p tag).
  pose proof (nib_range tag (length p) Hk Hl) as Hr1.
  pose proof (nib_range (item_key other) (length p) Hok Hl) as Hr2.
  pose proof (prefix_key_snoc p tag Hk Hp Hl) as Hp1.
  pose proof (prefix_key_snoc p (item_key other) Hok Hpo Hl) as Hp2.
  destruct (Z.eqb_spec (nib tag (length p)) (nib (item_key other) (length p))) as [Heq|Hd].
  - rewrite getChildNodeID_path by done. rewrite <- Heq in Hp2.
    destruct (IH ((Inner None no_children, path_id p) :: st) (p ++ [nib tag (length p)]))
      as (st' & b1 & b2 & c & Hloop & Hup & Hwf & Hit); [rewrite length_app; simpl; lia|done..|].
    eexists st', b1, b2, _. split; [exact Hloop|]. simpl in Hup. split; [exact Hup|].
    rewrite selectBranch_path by done. unfold setChild.
    pose proof (no_children_lookup _ Hr1) as Hnone.
    pose proof (citems_insert_perm _ _ _ (Some c) Hnone) as Hperm.
    simpl in Hperm. rewrite app_nil_r, citems_none, app_nil_r in Hperm.
    split; [|rewrite items_inner; by rewrite Hperm].
    apply wf_body. exists p. split; [done|]. split.
    + apply body_fill; [by apply body_empty|]. simpl. by rewrite nib_index.
    + simpl. rewrite Hperm, Hit. simpl. lia.
  - eexists st, _, _, _. split; [done|]. split; [done|].
    apply (pair_node_wf false T p p None); try done; by constructor.
Qed.
End add_leaf.
End add.

Lemma part_below (p : list Z) a b d :
  is_u256 a → is_u256 b → (d < 64)%nat → p `prefix_of` nibs a → p `prefix_of` nibs b →
  nib a d ≠ nib b d → (length p ≤ d)%nat ∧ p `prefix_of` take d (nibs a).
Proof.
  intros Ha Hb Hd Hpa Hpb Hn. destruct (decide (d < length p)%nat) as [Hlt|Hge].
  - destruct Hn. destruct (lookup_lt_is_Some_2 p d Hlt) as [x Hx].
    pose proof (prefix_lookup_Some _ _ _ _ Hx Hpa) as H1.
    pose proof (prefix_lookup_Some _ _ _ _ Hx Hpb) as H2.
    rewrite nib_lookup in H1, H2 by done. congruence.
  - split; [lia|]. apply prefix_take. rewrite take_take, Nat.min_l by lia. by apply prefix_take.
Qed.

Section add_step.
Context (T : TNType) (root : Node) (item : SHAMapItem) (Hk : is_u256 (item_key item)) (Hlg : large_enough item = true).
#[local] Abbreviation tag := (item_key item).

Lemma add_v1_spec st p node id res :
  wf_root false T root → zip false T tag root st p (Some node) → fits false T st p node →
  id_at false p node id → stops false tag p node res →
  (∀ other ty, node = Leaf other ty → item_key other ≠ tag) →
  added false T item st p node (add_v1 item T node id st).
Proof.
  intros Hwf Hz Hf Hid Hs Hne. pose proof (zip_path false T tag Hk root st p _ Hz) as Hp.
  destruct node as [other ty|v cs]; cbn [add_v1]; unfold new_leaf; rewrite ?Hlg.
  - destruct (stops_leaf false T tag root st p other ty Hk Hwf Hz Hf) as (-> & Hst & Hleaf & _).
    inversion Hleaf as [? ? Hok Hpo Hlo|]; subst. simpl in Hid. subst id.
    destruct (split_loop_spec T item Hk Hlg other Hok Hlo (Hne _ _ eq_refl) path_fuel st p)
      as (st' & b1 & b2 & c & -> & Hup & Hc & Hit); [unfold path_fuel; lia|done..|].
    cbn [mbind option_bind]. rewrite Hlo. eexists _, st', c. split; [done|]. split; [exact Hup|]. split; [by destruct st|done].
  - destruct Hs as [_ (q & Hat & Hq & Hl & Hnone)]. pose proof Hat as [-> _].
    rewrite (Hid p Hat), selectBranch_path by done.
    destruct (add_branch false T root item Hk Hlg st p p v cs) as [Hfit Hit]; auto.
    eexists _, st, _. split; [done|]. split; [done|]. by split.
Qed.

(** Version 2: two leaves under a new node at the depth where they part. *)
Lemma add_v2_leaf st p other :
  zip true T tag root st p (Some (Leaf other T)) → wf true T p (Leaf other T) →
  item_key other ≠ tag →
  wf true T p (setChildren (item_key other) tag (Leaf other T) (Leaf item T)) ∧
  items (setChildren (item_key other) tag (Leaf other T) (Leaf item T)) ≡ₚ [item; other].
Proof.
  intros Hz Hleaf Hne. pose proof (zip_path true T tag Hk root st p _ Hz) as Hp.
  inversion Hleaf as [? ? Hok Hpo Hlo|]; subst.
  destruct (setChildren_spec (item_key other) tag (Leaf other T) (Leaf item T) Hok Hk Hne)
    as (d & Hd & Ht & Hn & ->).
  destruct (part_below p _ _ d Hok Hk Hd Hpo Hp Hn) as [Hpd Hpq].
  set (q := take d (nibs (item_key other))) in *.
  assert (length q = d) as Hq by (subst q; rewrite length_take, u256_nibs_length by done; lia).
  assert (q `prefix_of` nibs (item_key other)) as Hqo by (subst q; apply prefix_take; by rewrite Hq).
  assert (q `prefix_of` nibs tag) as Hqt by (apply prefix_take; by rewrite Hq, <- Ht).
  destruct (pair_node_wf true T p q (Some (Z.of_nat d, pack 32 q)) (nib (item_key other) d) (nib tag d)
    (Leaf other T) (Leaf item T)) as [Hw Hi].
  - split; [done|by rewrite Hq].
  - by eapply (prefix_key_base q (item_key other)).
  - lia.
  - by apply nib_range.
  - by apply nib_range.
  - done.
  - constructor; [done| |done]. rewrite <- Hq. apply prefix_key_snoc; [done..|lia].
  - constructor; [done| |done]. rewrite <- Hq. apply prefix_key_snoc; [done..|lia].
  - split; [done|]. rewrite Hi. apply Permutation_swap.
Qed.

(** Version 2: a new node on the edge above an inner node. *)
Lemma add_v2_edge p q v cs :
  wf true T p (Inner v cs) → at_path true p q v → in_base 16 q → (length q < 64)%nat →
  p `prefix_of` nibs tag → ¬ q `prefix_of` nibs tag →
  let depth := get_common_prefix (Z.of_nat (length q)) (pack 32 q) tag in
  let n := Inner (Some (depth, prefix depth tag))
    (pair_node (selectBranch (mkNodeID depth (prefix depth (pack 32 q))) (pack 32 q))
       (selectBranch (mkNodeID depth (prefix depth tag)) tag) (Inner v cs) (Leaf item T)) in
  wf true T p n ∧ items n ≡ₚ item :: citems cs.
Proof.
  intros Hw Hat Hq Hl Hp Hnp. destruct (get_common_prefix_spec q tag Hq Hl Hk Hnp) as (d & -> & Hd & Ht & Hn).
  cbv zeta. rewrite prefix_pack by (done || lia). pose proof (pack_u256 q Hq) as Hpk.
  rewrite (selectBranch_eq (pack 32 q) _ d), (selectBranch_eq tag _ d) by (done || lia).
  pose proof Hat as [Hpq Hv].
  assert (q `prefix_of` nibs (pack 32 q)) as Hqq by (rewrite nibs_pack by (done || lia); by apply prefix_app_r).
  destruct (part_below p _ _ d Hpk Hk ltac:(lia) ltac:(by etrans) Hp Hn) as [Hpd _].
  set (r := take d (nibs tag)) in *.
  assert (length r = d) as Hr by (subst r; rewrite length_take, u256_nibs_length by done; lia).
  assert (r `prefix_of` nibs tag) as Hrt by (subst r; apply prefix_take; by rewrite Hr).
  assert (r `prefix_of` q) as Hrq by (apply prefix_take; by rewrite Hr).
  destruct (pair_node_wf true T p r (Some (Z.of_nat d, pack 32 r)) (nib (pack 32 q) d) (nib tag d)
    (Inner v cs) (Leaf item T)) as [Hw' Hi].
  - split; [|by rewrite Hr]. apply prefix_take. subst r. rewrite take_take, Nat.min_l by lia.
    by apply prefix_take.
  - by eapply (prefix_key_base r tag).
  - lia.
  - apply nib_range; [done|lia].
  - apply nib_range; [done|lia].
  - done.
  - apply wf_body in Hw as (q' & Hat' & Hb & Hbig). pose proof Hb as (? & ? & _).
    assert (q' = q) as -> by by eapply at_path_unique. apply wf_body. exists q.
    split; [|done]. split; [|done]. apply prefix_snoc_iff. split; [done|]. rewrite Hr.
    destruct (lookup_lt_is_Some_2 q d Hd) as [x Hx]. rewrite Hx.
    pose proof (prefix_lookup_Some _ _ _ _ Hx Hqq) as Hx'. rewrite nib_lookup in Hx' by (done || lia).
    congruence.
  - constructor; [done| |done]. rewrite <- Hr. apply prefix_key_snoc; [done..|lia].
  - split; [done|]. rewrite Hi, items_inner, items_leaf. solve_Permutation.
Qed.

Lemma add_v2_spec st p node id res :
  wf_root true T root → zip true T tag root st p (Some node) → fits true T st p node →
  id_at true p node id → stops true tag p node res →
  (∀ other ty, node = Leaf other ty → item_key other ≠ tag) →
  added true T item st p node (add_v2 item T node id st).
Proof.
  intros Hwf Hz Hf Hid Hs Hne. pose proof (zip_path true T tag Hk root st p _ Hz) as Hp.
  destruct node as [other ty|v cs]; cbn [add_v2]; unfold new_leaf; rewrite ?Hlg.
  - destruct (stops_leaf true T tag root st p other ty Hk Hwf Hz Hf) as (-> & Hst & Hleaf & _).
    destruct (add_v2_leaf st p other Hz Hleaf (Hne _ _ eq_refl)) as [Hw Hi].
    destruct st as [|e st]; [done|]. eexists _, _, _. split; [done|]. split; [done|]. by split.
  - destruct Hs as [_ (q & Hat & Hq & Hl & Hnone)]. pose proof Hat as [_ Hv]. rewrite Hv.
    pose proof (common_prefix_path q tag Hq Hl Hk) as Hcp.
    destruct (common_prefix (Z.of_nat (length q)) (pack 32 q) tag) eqn:Hc.
    + assert (q `prefix_of` nibs tag) as Hqt by by apply Hcp. specialize (Hnone Hqt).
      rewrite (Hid q Hat), selectBranch_path by done.
      destruct (add_branch true T root item Hk Hlg st p q v cs) as [Hfit Hit]; [done..|].
      rewrite Hv in Hfit, Hit. eexists _, st, _. split; [done|]. split; [done|]. by split.
    + assert (¬ q `prefix_of` nibs tag) as Hnq by (intros Hx; apply Hcp in Hx; done).
      inversion Hz as [|st0 p0 q0 v0 cs0 id0 o0 Hz0 Hat0 Hb0 Hnil0 Hbig0 Hp0 Hid0 Ho0]; subst.
      { destruct Hwf as [[_ [= Hlen _]] _]. destruct q; [|done]. destruct Hnq. apply prefix_nil. }
      pose proof Hat0 as [_ ->]. pose proof Hb0 as (_ & Hl0 & _).
      destruct (add_v2_edge _ q _ cs Hf Hat Hq Hl Hp Hnq) as [Hw Hi].
      eexists _, _, _. split; [done|]. split; [|split; [exact Hw|exact Hi]].
      simpl. rewrite (selectBranch_eq tag id0 (length q0)) by done.
      rewrite (selectBranch_eq tag (mkNodeID (Z.of_nat (length q0)) _) (length q0)) by done.
      unfold setChild at 1. unfold setChild at 3. rewrite list_insert_insert_eq. done.
Qed.
End add_step.

Lemma abs_perm v2 T r l :
  wf_root v2 T r → items r ≡ₚ l → abs r = abs_items l.
Proof.
  intros Hwf Hp. unfold abs, abs_items. apply list_to_map_proper; [by eapply root_nodup|].
  by apply fmap_Permutation.
Qed.

(** Where the walk to a key ends, and whether it is there. *)
Lemma walk_present v2 T root k :
  wf_root v2 T root → is_u256 k →
  ∃ res node id st p, walkTowardsKey root k = Some (res, (node, id) :: st) ∧
    zip v2 T k root st p (Some node) ∧ fits v2 T st p node ∧ id_at v2 p node id ∧ stops v2 k p node res ∧
    match node with Leaf other _ => bool_decide (item_key other = k) | Inner _ _ => false end =
    match abs root !! k with Some _ => true | None => false end.
Proof.
  intros Hwf Hk.
  destruct (walkTowardsKey_spec v2 T _ Hk root Hwf) as (res & node & id & st & p & Hw & Hz & Hf & Hid & Hs).
  exists res, node, id, st, p. do 5 (split; [done|]). destruct node as [other ty|v cs].
  - destruct (stops_leaf v2 T _ root st p other ty Hk Hwf Hz Hf) as (_ & _ & _ & Hu & Hin).
    destruct other as [k' d']. case_bool_decide as Hkk; simpl in Hkk.
    + subst k'. apply (abs_lookup v2 T) in Hin; [|done]. by rewrite Hin.
    + destruct (abs root !! k) as [d|] eqn:Hd; [|done].
      apply (abs_lookup v2 T) in Hd; [|done]. apply Hu in Hd; [|done]. by injection Hd as <- _.
  - destruct Hs as [-> Hq].
    by rewrite (stops_absent v2 T _ root st p v cs Hk Hwf Hz Hf (conj eq_refl Hq)).
Qed.

Lemma addGiveItem_spec v2 T root item tx meta :
  wf_root v2 T root → is_u256 (item_key item) → large_enough item = true → leaf_type tx meta = T →
  match abs root !! item_key item with
  | Some _ => addGiveItem root item tx meta = Some (false, root)
  | None => ∃ r, addGiveItem root item tx meta = Some (true, r) ∧ wf_root v2 T r ∧
      items r ≡ₚ item :: items root
  end.
Proof.
  intros Hwf Hk Hlg HT.
  destruct (walk_present v2 T root _ Hwf Hk) as (res & node & id & st & p & Hw & Hz & Hf & Hid & Hs & Hsame).
  unfold addGiveItem. rewrite Hw, HT, (is_v2_root v2 T root Hwf), Hsame.
  destruct (abs root !! item_key item) as [d|] eqn:Hd; [done|].
  assert (∀ other ty, node = Leaf other ty → item_key other ≠ item_key item) as Hne.
  { intros other ty ->. by apply bool_decide_eq_false in Hsame. }
  assert (added v2 T item st p node ((if v2 then add_v2 else add_v1) item T node id st))
    as (node' & st' & c & -> & Hup & Hfit & Hit).
  { destruct v2; [by eapply add_v2_spec|by eapply add_v1_spec]. }
  destruct (zip_fill v2 T _ Hk root st p _ Hz) as (L & R & HLR & _ & Hfill).
  destruct (Hfill c) as (r & Hr & Hir & Hwr). rewrite Hup, Hr. exists r. split; [done|]. split.
  - apply Hwr; [done|]. simpl. rewrite Hit. simpl. lia.
  - rewrite Hir, HLR, Hit. simpl. solve_Permutation.
Qed.

(** An item that is too small fails the assertion of the leaf that would hold it. *)
Lemma add_small item T node id st :
  large_enough item = false → add_v1 item T node id st = None ∧ add_v2 item T node id st = None.
Proof.
  intros Hs. unfold add_v1, add_v2, new_leaf. rewrite Hs.
  destruct node as [other ty|[[d c]|] cs]; cbn [mbind option_bind].
  - by destruct (split_loop _ _ _ _ _) as [[[? ?] ?]|].
  - split; [done|]. destruct (common_prefix d c (item_key item)); [done|]. by destruct st as [|[[|[[? ?]|] ?] ?] ?].
  - done.
Qed.

Lemma addGiveItem_small v2 T root item tx meta :
  wf_root v2 T root → is_u256 (item_key item) → large_enough item = false → leaf_type tx meta = T →
  addGiveItem root item tx meta = match abs root !! item_key item with Some _ => Some (false, root) | None => None end.
Proof.
  intros Hwf Hk Hs HT.
  destruct (walk_present v2 T root _ Hwf Hk) as (res & node & id & st & p & Hw & _ & _ & _ & _ & Hsame).
  unfold addGiveItem. rewrite Hw, Hsame. destruct (abs root !! item_key item); [done|].
  destruct (add_small item (leaf_type tx meta) node id st Hs) as [E1 E2]. destruct (is_v2 root); [by rewrite E2|by rewrite E1].
Qed.

(** ** Deletion *)
Lemma only_scan_spec cs next :
  only_scan cs next =
  match next with
  | Some n => if getBranchCount cs =? 0 then Some (Some n) else None
  | None => if getBranchCount cs =? 0 then Some None
            else if getBranchCount cs =? 1 then Some (first_child cs) else None
  end.
Proof.
  assert (∀ cs, 0 ≤ getBranchCount cs) as Hpos.
  { intros ds. induction ds as [|[?|] ds IH]; simpl; lia. }
  revert next. induction cs as [|[c|] cs IH]; intros next; simpl; [by destruct next|..].
  - specialize (Hpos cs). destruct next; rewrite ?IH; zcases; done || lia.
  - rewrite IH. done.
Qed.

Lemma first_child_lookup cs c : first_child cs = Some c → ∃ i, cs !! i = Some (Some c).
Proof.
  induction cs as [|[d|] cs IH]; simpl; [done|intros [= ->]; by exists 0%nat|].
  intros [i Hi]%IH. by exists (S i).
Qed.

Lemma count_one_items cs c :
  getBranchCount cs = 1 → first_child cs = Some c → citems cs = items c.
Proof.
  assert (∀ cs, 0 ≤ getBranchCount cs ∧ (getBranchCount cs = 0 → citems cs = [])) as Hzero.
  { intros ds. induction ds as [|[?|] ds [IH1 IH2]]; simpl; [done|split; [lia|intros; exfalso; lia]|done]. }
  induction cs as [|[d|] cs IH]; simpl; [done| |intros; by rewrite citems_cons, IH].
  intros H1 [= ->]. change (1 + getBranchCount cs = 1) in H1. rewrite citems_cons.
  destruct (Hzero cs) as [_ Hz]. rewrite Hz by lia. apply app_nil_r.
Qed.

Lemma count_first cs : getBranchCount cs ≠ 0 → ∃ c, first_child cs = Some c.
Proof. induction cs as [|[d|] cs IH]; simpl; [done|by exists d|done]. Qed.

(** [onlyBelow] finds the item of a subtree that holds just one. *)
Lemma onlyBelow_spec v2 T fuel : ∀ p n, wf v2 T p n → (65 ≤ fuel + length p)%nat →
  onlyBelow fuel n = Some (match items n with [x] => Some x | _ => None end).
Proof.
  induction fuel as [|fuel IH]; intros p n Hn Hfuel.
  { inversion Hn as [? item Hi Hp|? q v cs Hat Hq Hl]; subst.
    - apply prefix_length in Hp. rewrite u256_nibs_length in Hp by done. lia.
    - apply at_path_length in Hat. lia. }
  destruct n as [item ty|v cs]; [done|]. cbn [onlyBelow]. rewrite only_scan_spec.
  pose proof (wf_two v2 T p v cs Hn) as Htwo. rewrite items_inner.
  assert (match citems cs with [x] => Some x | _ => None end = None) as ->.
  { destruct (citems cs) as [|? [|? ?]]; simpl in Htwo; lia || done. }
  apply wf_body in Hn as (q & Hat & Hb & Hbig). pose proof Hb as (_ & _ & _ & Hwf).
  zcases; [done| |done]. destruct (count_first cs) as [c Hc]; [done|]. rewrite Hc.
  apply first_child_lookup in Hc as Hi. destruct Hi as [i Hi].
  rewrite (IH (q ++ [Z.of_nat i])); [|by apply Hwf|].
  - rewrite <- (count_one_items cs c) by done.
    destruct (citems cs) as [|? [|? ?]]; simpl in Htwo; lia || done.
  - apply at_path_length in Hat. rewrite length_app. simpl. lia.
Qed.

Lemma count_zero cs : getBranchCount cs = 0 → citems cs = [].
Proof.
  assert (∀ cs, 0 ≤ getBranchCount cs) as Hpos.
  { intros ds. induction ds as [|[?|] ds IH]; simpl; lia. }
  induction cs as [|[c|] cs IH]; simpl; [done| |by intros; rewrite citems_cons, IH].
  specialize (Hpos cs). lia.
Qed.

Lemma onlyBelow_one fuel v cs c :
  getBranchCount cs = 1 → first_child cs = Some c →
  onlyBelow (S fuel) (Inner v cs) = onlyBelow fuel c.
Proof. intros H1 Hc. cbn [onlyBelow]. by rewrite only_scan_spec, H1, Hc. Qed.

(** What is left of a node after a deletion below it keeps its items and fits. *)
Lemma del_collapse_spec v2 T p q v cs :
  at_path v2 p q v → body v2 T q cs → citems cs ≠ [] →
  ∃ c, del_collapse v2 T v cs = Some (Some c) ∧ wf v2 T p c ∧ items c = citems cs.
Proof.
  intros Hat Hb Hne. pose proof Hb as (Hq & Hl & Hlen & Hwf).
  pose proof (count_items cs (λ c Hc, body_nonempty v2 T q cs c Hb Hc)) as Hcount.
  assert (getBranchCount cs ≠ 0) as Hc0 by (intros H0; by apply Hne, count_zero).
  assert (big v2 cs → wf v2 T p (Inner v cs)) as Hbig by (intros; apply wf_body; eauto).
  assert (∀ c, getBranchCount cs = 1 → first_child cs = Some c →
    items c = citems cs ∧ ∃ i, cs !! i = Some (Some c)) as Hone.
  { intros c H1 Hc. split; [by rewrite (count_one_items cs c)|by apply first_child_lookup]. }
  unfold del_collapse. destruct (Z.eqb_spec (getBranchCount cs) 0) as [|_]; [done|].
  destruct (Z.eqb_spec (getBranchCount cs) 1) as [H1|H1].
  - destruct (count_first cs Hc0) as [c Hc]. destruct (Hone c H1 Hc) as [Hit [i Hi]].
    destruct v2.
    + exists c. split; [by rewrite Hc|]. split; [|done]. eapply wf_weaken; [by apply Hwf|].
      etrans; [by eapply at_path_prefix|]. by apply prefix_app_r.
    + destruct Hat as [-> ->]. change path_fuel with (S 64).
      rewrite (onlyBelow_one 64 None cs c) by done.
      rewrite (onlyBelow_spec false T 64 (p ++ [Z.of_nat i])) by
        (by apply Hwf || (rewrite length_app; simpl; lia)).
      rewrite Hit. destruct (citems cs) as [|x [|y l]] eqn:Hcs; [done|..].
      * assert (x ∈ oitems (Some c)) as Hx by (simpl; rewrite Hit; set_solver).
        pose proof (body_large false T p cs i x (Some c) Hb Hi Hx) as Hlg.
        exists (Leaf x T). split; [unfold new_leaf; by rewrite Hlg|]. split; [|done].
        destruct (body_items false T p cs i x (Some c) Hb Hi Hx) as [? Hp].
        constructor; [done| |done]. etrans; [|exact Hp]. by apply prefix_app_r.
      * exists (Inner None cs). split; [done|]. split; [|by rewrite items_inner].
        apply Hbig. simpl. rewrite Hcs. simpl. lia.
  - exists (Inner v cs). split; [by destruct v2|]. split; [|done]. apply Hbig.
    unfold big. destruct v2; lia.
Qed.

Lemma del_loop_spec v2 T k root st p o :
  is_u256 k → zip v2 T k root st p o → st ≠ [] → ∀ prev root0,
  wf_opt v2 T p prev → (length (oitems o) ≤ length (oitems prev) + 1)%nat →
  ∃ L R r, items root = L ++ oitems o ++ R ∧ del_loop v2 k T st prev root0 = Some r ∧
    wf_root v2 T r ∧ items r = L ++ oitems prev ++ R.
Proof.
  intros Hk. induction 1 as [|st p q v cs id o Hz IH Hat Hb Hnil Hbig Hp Hid Ho]; intros Hst prev root0 Hw Hle.
  { done. }
  pose proof Hb as (Hq & Hl & Hlen & _). set (i := Z.to_nat (nib k (length q))) in *.
  assert (i < length cs)%nat as Hi by by eapply lookup_lt_Some.
  assert (body v2 T q (<[i := prev]> cs)) as Hb'.
  { apply body_fill; [done|]. subst i. by rewrite nib_index. }
  simpl. rewrite (selectBranch_eq k id (length q)) by done. unfold setChild. fold i.
  unfold isRoot. rewrite Hid.
  pose proof (zip_depth v2 T k root st p _ Hz) as Hdepth.
  destruct (decide (st = [])) as [->|Hne].
  - rewrite Hnil in * by done. apply at_path_prefix in Hat as Hp'. apply prefix_nil_inv in Hp' as ->.
    inversion Hz; subst. eexists _, _, _. split; [by rewrite items_inner, (citems_split _ _ _ Ho)|].
    split; [done|]. split; [done|]. by rewrite items_inner, citems_insert.
  - destruct Hdepth as [?|Hdepth]; [done|]. pose proof (at_path_length _ _ _ _ Hat).
    assert ((Z.of_nat (length q) =? 0) = false) as -> by (apply Z.eqb_neq; lia).
    assert (2 ≤ length (citems cs))%nat as Htwo.
    { eapply (wf_two v2 T p v). apply wf_body. eauto. }
    pose proof (citems_insert_perm cs i o prev Ho) as Hperm%Permutation_length.
    rewrite !length_app in Hperm.
    destruct (del_collapse_spec v2 T p q v (<[i := prev]> cs) Hat Hb') as (c & -> & Hc & Hit).
    { intros He. rewrite He in Hperm. simpl in Hperm. lia. }
    destruct (IH Hne (Some c) root0) as (L & R & r & HLR & Hr & Hwr & Hir); [done|..].
    { simpl. rewrite Hit, items_inner. lia. }
    exists (L ++ citems (take i cs)), (citems (drop (S i) cs) ++ R), r. split.
    + rewrite HLR. simpl. rewrite items_inner, (citems_split _ _ _ Ho), <- !(assoc_L (++)). done.
    + split; [done|]. split; [done|]. rewrite Hir. simpl.
      by rewrite Hit, citems_insert, <- !(assoc_L (++)).
Qed.

Lemma delItem_spec v2 T root k :
  wf_root v2 T root → is_u256 k →
  match abs root !! k with
  | Some d => ∃ r, delItem root k = Some (true, r) ∧ wf_root v2 T r ∧
      items root ≡ₚ mkItem k d :: items r
  | None => delItem root k = Some (false, root)
  end.
Proof.
  intros Hwf Hk.
  destruct (walkTowardsKey_spec v2 T _ Hk root Hwf) as (res & node & id & st & p & Hw & Hz & Hf & Hid & Hs).
  unfold delItem. rewrite Hw, (is_v2_root v2 T root Hwf). destruct node as [item ty|v cs].
  - destruct (stops_leaf v2 T _ root st p item ty Hk Hwf Hz Hf) as (-> & Hst & Hleaf & Hu & Hin).
    destruct item as [k' d]. simpl item_key in *. case_bool_decide as Hkk.
    + subst k'. rewrite (proj2 (abs_lookup v2 T root Hwf k d) Hin).
      destruct (del_loop_spec v2 T k root st p _ Hk Hz Hst None root) as (L & R & r & HLR & -> & Hwr & Hir);
        [done|simpl; lia|].
      exists r. split; [done|]. split; [done|]. rewrite HLR, Hir.
      change (oitems (Some (Leaf (mkItem k d) T))) with [mkItem k d]. simpl. solve_Permutation.
    + destruct (abs root !! k) as [d'|] eqn:Hd; [|done].
      apply (abs_lookup v2 T) in Hd; [|done]. apply Hu in Hd; [|done]. by injection Hd as <- _.
  - destruct Hs as [-> Hq].
    by rewrite (stops_absent v2 T _ root st p v cs Hk Hwf Hz Hf (conj eq_refl Hq)).
Qed.

(** * SHAMap: the tree is a function of the contents

    Two well-formed trees of the same version that hold the same items are the
    same tree: the shape depends neither on the order of the operations nor on
    what was deleted in between. *)

Section canon.
Context (v2 : bool) (T : TNType).

(** The items below a branch are those with its nibble. *)
Lemma branch_items q cs i o :
  body v2 T q cs → cs !! i = Some o →
  filter (λ x, nib (item_key x) (length q) = Z.of_nat i) (citems cs) = oitems o.
Proof.
  intros Hb Hi. pose proof Hb as (_ & Hl & _).
  assert (∀ j o' x, cs !! j = Some o' → x ∈ oitems o' → nib (item_key x) (length q) = Z.of_nat j) as Hn.
  { intros j o' x Hj Hx. destruct (body_items v2 T q cs j x o' Hb Hj Hx) as [? Hp].
    by apply prefix_key_nib in Hp. }
  rewrite (citems_split _ _ _ Hi), !filter_app.
  rewrite (filter_keeps _ (oitems o)) by (intros x Hx; by eapply Hn).
  rewrite !filter_drops; [by rewrite app_nil_r|..]; intros x Hx.
  - apply citems_elem in Hx as (j & c & Hj & Hx). rewrite lookup_drop in Hj.
    rewrite (Hn _ _ x Hj Hx). lia.
  - apply citems_elem in Hx as (j & c & Hj & Hx). pose proof Hj as Hlt%lookup_lt_Some.
    rewrite length_take in Hlt. rewrite lookup_take_lt in Hj by lia.
    rewrite (Hn _ _ x Hj Hx). lia.
Qed.

(** Two nodes at the same path with the same items have the same children. *)
Lemma children_unique q cs ds :
  body v2 T q cs → body v2 T q ds → citems cs = citems ds →
  (∀ i c m, cs !! i = Some (Some c) → wf v2 T (q ++ [Z.of_nat i]) m → items c = items m → c = m) →
  cs = ds.
Proof.
  intros Hc Hd Heq Hu. apply list_eq. intros i.
  pose proof Hc as (_ & _ & Lc & Wc). pose proof Hd as (_ & _ & Ld & Wd).
  destruct (decide (i < 16)%nat) as [Hi|Hi]; [|rewrite !lookup_ge_None_2 by lia; done].
  destruct (lookup_lt_is_Some_2 cs i) as [o Ho]; [lia|].
  destruct (lookup_lt_is_Some_2 ds i) as [o' Ho']; [lia|]. rewrite Ho, Ho'. f_equal.
  assert (oitems o = oitems o') as Hoo.
  { by rewrite <- (branch_items q cs i o Hc Ho), Heq, (branch_items q ds i o' Hd Ho'). }
  destruct o as [c|], o' as [c'|]; simpl in Hoo; [|exfalso..|done].
  - f_equal. apply (Hu i c); auto.
  - by eapply (wf_nonempty v2 T), Hoo; apply Wc.
  - by eapply (wf_nonempty v2 T), eq_sym, Hoo; apply Wd.
Qed.
End canon.

Lemma two_branches cs :
  2 ≤ getBranchCount cs →
  ∃ i j c d, i ≠ j ∧ cs !! i = Some (Some c) ∧ cs !! j = Some (Some d).
Proof.
  assert (∀ cs, 1 ≤ getBranchCount cs → ∃ i c, cs !! i = Some (Some c)) as Hone.
  { intros ds Hd. destruct (count_first ds) as [c Hc]; [lia|].
    apply first_child_lookup in Hc as [i Hi]. eauto. }
  induction cs as [|[c|] cs IH]; [simpl; lia|..]; intros H.
  - change (2 ≤ 1 + getBranchCount cs) in H. destruct (Hone cs) as (j & d & Hj); [lia|].
    by exists 0%nat, (S j), c, d.
  - destruct (IH H) as (i & j & c & d & Hij & Hi & Hj). exists (S i), (S j), c, d. auto.
Qed.

(** A version 2 node is where its items part: no longer path fits them. *)
Lemma v2_longest T q r cs :
  body true T q cs → 2 ≤ getBranchCount cs →
  (∀ x, x ∈ citems cs → r `prefix_of` nibs (item_key x)) → (length r ≤ length q)%nat.
Proof.
  intros Hb Hc Hr. pose proof Hb as (_ & Hl & _ & Hwf).
  destruct (two_branches cs Hc) as (i & j & c & d & Hij & Hi & Hj).
  destruct (decide (length q < length r)%nat) as [Hlt|]; [|lia].
  destruct (lookup_lt_is_Some_2 r (length q) Hlt) as [a Ha].
  assert (∀ i c, cs !! i = Some (Some c) → a = Z.of_nat i) as Hnib.
  { intros i' c' Hi'. pose proof (wf_nonempty true T _ _ (Hwf i' c' Hi')) as Hne.
    destruct (items c') as [|x l] eqn:Hx; [done|].
    assert (x ∈ items c') as Hxc by (rewrite Hx; set_solver).
    destruct (body_items true T q cs i' x (Some c') Hb Hi' Hxc) as [Hk Hp].
    apply prefix_snoc_iff in Hp as [_ Hp].
    assert (r `prefix_of` nibs (item_key x)) as Hrx by (apply Hr, citems_elem; eauto).
    pose proof (prefix_lookup_Some _ _ _ _ Ha Hrx). congruence. }
  pose proof (Hnib i c Hi). pose proof (Hnib j d Hj). lia.
Qed.

Lemma body_path v2 T q cs x :
  body v2 T q cs → x ∈ citems cs → q `prefix_of` nibs (item_key x).
Proof.
  intros Hb (i & c & Hi & Hx)%citems_elem.
  destruct (body_items v2 T q cs i x (Some c) Hb Hi Hx) as [_ Hp].
  etrans; [|exact Hp]. by apply prefix_app_r.
Qed.

(** Nodes of the same items sit at the same path. *)
Lemma same_path v2 T p q r v w cs ds :
  at_path v2 p q v → at_path v2 p r w → body v2 T q cs → body v2 T r ds →
  big v2 cs → big v2 ds → citems cs = citems ds → q = r ∧ v = w.
Proof.
  intros Hv Hw Hb Hd Bc Bd Heq. destruct v2; [|by destruct Hv as [-> ->], Hw as [-> ->]].
  assert (q = r) as ->; [|by destruct Hv as [_ ->], Hw as [_ ->]].
  pose proof (v2_longest T q r cs Hb Bc) as H1. pose proof (v2_longest T r q ds Hd Bd) as H2.
  assert (length r ≤ length q)%nat by (apply H1; intros x Hx; rewrite Heq in Hx; by eapply body_path).
  assert (length q ≤ length r)%nat by (apply H2; intros x Hx; rewrite <- Heq in Hx; by eapply body_path).
  assert (∃ x, x ∈ citems cs) as [x Hx].
  { destruct (two_branches cs Bc) as (i & _ & c & _ & _ & Hi & _).
    pose proof Hb as (_ & _ & _ & Hwf). pose proof (wf_nonempty true T _ _ (Hwf i c Hi)) as Hne.
    destruct (items c) as [|x l] eqn:Hx; [done|]. exists x. apply citems_elem. exists i, c.
    split; [done|]. rewrite Hx. set_solver. }
  assert (q `prefix_of` nibs (item_key x)) as Hq%prefix_take by by eapply body_path.
  rewrite Heq in Hx. assert (r `prefix_of` nibs (item_key x)) as Hr%prefix_take by by eapply body_path.
  replace (length r) with (length q) in Hr by lia. congruence.
Qed.

Lemma wf_unique v2 T p n m : wf v2 T p n → wf v2 T p m → items n = items m → n = m.
Proof.
  intros Hn. revert m. induction Hn as [p item Hk Hp|p q v cs Hat Hq Hl Hlen Hwf IH Hbig]; intros m Hm Heq.
  - destruct m as [x ty|w ds].
    + inversion Hm; subst. by injection Heq as ->.
    + apply wf_two in Hm. rewrite items_leaf, items_inner in Heq. rewrite <- Heq in Hm. simpl in Hm. lia.
  - assert (wf v2 T p (Inner v cs)) as Hn by by eapply wf_inner.
    rewrite items_inner in Heq. destruct m as [x ty|w ds].
    + apply wf_two in Hn. rewrite Heq, items_leaf in Hn. simpl in Hn. lia.
    + rewrite items_inner in Heq. apply wf_body in Hm as (r & Hatr & Hd & Hbigd).
      assert (body v2 T q cs) as Hb by done.
      destruct (same_path v2 T p q r v w cs ds) as [<- <-]; [done..|].
      f_equal. eapply (children_unique v2 T q); [done..|]. intros i c m Hi. by apply IH.
Qed.

Lemma item_lt_antisym x y : item_lt x y → item_lt y x → x = y.
Proof.
  unfold item_lt, key_lt. intros Hxy Hyx. exfalso. revert Hxy Hyx. generalize (item_key x), (item_key y).
  intros a. induction a as [|u a IH]; intros [|w b]; simpl; try done.
  rewrite (Z.eqb_sym w u). destruct (Z.eqb_spec u w) as [->|Hne]; [apply IH|].
  destruct (Z.ltb_spec w u), (Z.ltb_spec u w); done || lia.
Qed.

(** The items are the contents in order, so that the map determines them. *)
Lemma abs_items_inj v2 T v2' T' r s :
  wf_root v2 T r → wf_root v2' T' s → abs r = abs s → items r = items s.
Proof.
  intros Hr Hs Habs.
  apply list_to_map_inj in Habs; [|by eapply root_nodup|by eapply root_nodup].
  assert (items r ≡ₚ items s) as Hp.
  { apply (fmap_Permutation (λ p : uint256 * list Z, mkItem p.1 p.2)) in Habs.
    rewrite <- !list_fmap_compose in Habs.
    rewrite <- (list_fmap_id (items r)), <- (list_fmap_id (items s)).
    erewrite (list_fmap_ext _ _ (items r)), (list_fmap_ext _ _ (items s)); [exact Habs|..];
      by intros _ [] _. }
  apply (StronglySorted_unique_strong item_lt); [|by eapply root_sorted|by eapply root_sorted|done].
  intros x y _ _. apply item_lt_antisym.
Qed.

Lemma root_unique v2 T r s : wf_root v2 T r → wf_root v2 T s → abs r = abs s → r = s.
Proof.
  intros Hr Hs Habs. pose proof (abs_items_inj v2 T v2 T r s Hr Hs Habs) as Heq.
  destruct r as [|v cs], s as [|w ds]; try done. destruct Hr as [Hv Hb], Hs as [Hw Hd].
  assert (v = w) as -> by (destruct v2; by destruct Hv as [_ ->], Hw as [_ ->]).
  f_equal. rewrite !items_inner in Heq. eapply (children_unique v2 T []); [done..|].
  intros i c m Hi. apply wf_unique. by apply Hb.
Qed.
