(* ===== verification/SHAMapIter.v ===== *)
(** * SHAMap: iteration and ordered search

    An iterator of the source is the leaf it is at and the stack above it.
    [rest k st] are the items to the right of the path of [k] through the stack
    [st]: stepping takes the first of them, so that iterating from the first leaf
    goes through the items in order, and [upper_bound] ends at the first item
    whose key is greater. *)

From stdpp Require Import prelude list gmap sorting.
From Stdlib Require Import ZArith Lia.
From S2P Require Import Prelude.
From S2P Require Import BaseUint.
From S2P Require Import BaseUintTheorems.
From S2P Require Import SHAMapNodeID.
From S2P Require Import SHAMap.
From S2P Require Import SHAMapSpec.
From S2P Require Import SHAMapRefine.

Fixpoint rest (k : uint256) (st : Stack) : list SHAMapItem :=
  match st with
  | [] => []
  | (Inner _ cs, id) :: st => citems (drop (S (Z.to_nat (selectBranch id k))) cs) ++ rest k st
  | (Leaf _ _, _) :: st => rest k st
  end.

Lemma first_child_split cs :
  match first_child cs with
  | None => citems cs = []
  | Some c => ∃ i, cs !! i = Some (Some c) ∧ citems cs = items c ++ citems (drop (S i) cs)
  end.
Proof.
  induction cs as [|[c|] cs IH]; simpl; [done|by exists 0%nat|].
  destruct (first_child cs) as [c|]; [|done].
  destruct IH as (i & Hi & Heq). by exists (S i).
Qed.

Lemma next_branch_split cs j :
  match next_branch cs j with
  | None => citems cs = []
  | Some (c, k) => ∃ i, k = j + Z.of_nat i ∧ cs !! i = Some (Some c) ∧
      citems cs = items c ++ citems (drop (S i) cs)
  end.
Proof.
  revert j. induction cs as [|[c|] cs IH]; intros j; simpl; [done|exists 0%nat; split; [lia|done]|].
  specialize (IH (j + 1)). destruct (next_branch cs (j + 1)) as [[c k]|]; [|done].
  destruct IH as (i & -> & Hi & Heq). exists (S i). split; [lia|done].
Qed.

Lemma branch_from_split cs j :
  0 ≤ j →
  match branch_from cs j with
  | None => citems (drop (Z.to_nat j) cs) = []
  | Some (c, k) => ∃ i, k = Z.of_nat i ∧ j ≤ k ∧ cs !! i = Some (Some c) ∧
      citems (drop (Z.to_nat j) cs) = items c ++ citems (drop (S i) cs)
  end.
Proof.
  intros Hj. unfold branch_from. pose proof (next_branch_split (drop (Z.to_nat j) cs) j) as H.
  destruct (next_branch (drop (Z.to_nat j) cs) j) as [[c k]|]; [|done].
  destruct H as (i & -> & Hi & Heq). rewrite lookup_drop in Hi. rewrite drop_drop in Heq.
  exists (Z.to_nat j + i)%nat. split; [lia|]. split; [lia|]. split; [done|].
  rewrite Heq. do 3 f_equal. lia.
Qed.

Section iter.
Context (v2 : bool) (T : TNType) (root : Node).

(** The stack of a path is one for every key of the path. *)
Lemma zip_change_key k k' st p o :
  is_u256 k → is_u256 k' → zip v2 T k root st p o → p `prefix_of` nibs k' →
  zip v2 T k' root st p o ∧ rest k st = rest k' st.
Proof.
  intros Hk Hk'. induction 1 as [|st p q v cs id o Hz IH Hat Hb Hnil Hbig Hp Hid Ho]; intros Hpk.
  - split; [constructor|done].
  - pose proof Hb as (_ & Hl & _). pose proof (prefix_key_nib q k' _ Hk' Hpk Hl) as Hn.
    assert (q `prefix_of` nibs k') as Hqk by (by apply prefix_snoc_iff in Hpk as [? _]).
    destruct IH as [Hz' Hr]; [etrans; [by eapply at_path_prefix|done]|].
    rewrite <- Hn. split; [eapply zip_cons; rewrite ?Hn; done|].
    simpl. rewrite !(selectBranch_eq _ id (length q)) by done. by rewrite Hn, Hr.
Qed.

(** A cursor: the stack above the leaf of [x], with [l] to its right. *)
Definition cursor (x : SHAMapItem) (st : Stack) (l : list SHAMapItem) : Prop :=
  is_u256 (item_key x) ∧
  (∃ p, zip v2 T (item_key x) root st p (Some (Leaf x T))) ∧ rest (item_key x) st = l.

(** What the search for the next leaf answers, when [l] is to the right. *)
Definition arrives (l : list SHAMapItem) (r : option (option Node * Stack)) : Prop :=
  match l with
  | [] => r = Some (None, [])
  | x :: l => ∃ st id, r = Some (Some (Leaf x T), (Leaf x T, id) :: st) ∧ cursor x st l
  end.

(** Descending into the branch [i] of the node on top of the stack. *)
Lemma zip_descend k k' st p q v cs id i o :
  is_u256 k → is_u256 k' → zip v2 T k root st p (Some (Inner v cs)) →
  at_path v2 p q v → body v2 T q cs → (st = [] → q = []) → (st ≠ [] → big v2 cs) →
  mDepth id = Z.of_nat (length q) → cs !! i = Some o → q ++ [Z.of_nat i] `prefix_of` nibs k' →
  zip v2 T k' root ((Inner v cs, id) :: st) (q ++ [Z.of_nat i]) o ∧
  rest k' ((Inner v cs, id) :: st) = citems (drop (S i) cs) ++ rest k st.
Proof.
  intros Hk Hk' Hz Hat Hb Hnil Hbig Hid Hi Hp. pose proof Hb as (_ & Hl & _).
  pose proof (prefix_key_nib q k' _ Hk' Hp Hl) as Hn.
  apply prefix_snoc_iff in Hp as [Hqk _].
  destruct (zip_change_key k k' st p _ Hk Hk' Hz) as [Hz' Hr].
  { etrans; [by eapply at_path_prefix|done]. }
  split.
  - rewrite <- Hn. eapply zip_cons; try done. by rewrite Hn, Nat2Z.id.
  - simpl. by rewrite (selectBranch_eq k' id (length q)), Hn, Nat2Z.id, Hr by done.
Qed.

Lemma below_id_depth w p q n id st branch :
  at_path v2 (p ++ [n]) q w → mDepth id = Z.of_nat (length p) →
  ∃ id', below_id v2 w ((root, id) :: st) branch = Some id' ∧ mDepth id' = Z.of_nat (length q).
Proof.
  intros Hat Hid. unfold below_id. destruct v2.
  - destruct Hat as [_ ->]. by eexists.
  - destruct Hat as [-> _]. eexists. split; [done|]. simpl. rewrite Hid, length_app. simpl. lia.
Qed.

Lemma firstBelow_loop_spec fuel branch : ∀ k st p q v cs id x l,
  is_u256 k → zip v2 T k root st p (Some (Inner v cs)) →
  at_path v2 p q v → body v2 T q cs → (st = [] → q = []) → (st ≠ [] → big v2 cs) →
  mDepth id = Z.of_nat (length q) → (64 ≤ fuel + length q)%nat → citems cs = x :: l →
  ∃ st', firstBelow_loop fuel v2 cs ((Inner v cs, id) :: st) branch =
      Some (Some (Leaf x T), (Leaf x T, mkNodeID 64 (item_key x)) :: st') ∧
    cursor x st' (l ++ rest k st).
Proof.
  induction fuel as [|fuel IH]; intros k st p q v cs id x l Hk Hz Hat Hb Hnil Hbig Hid Hfuel Hcs;
    pose proof Hb as (Hq & Hl & Hlen & Hwf); [lia|]. cbn [firstBelow_loop].
  pose proof (first_child_split cs) as Hfc. destruct (first_child cs) as [c|]; [|congruence].
  destruct Hfc as (i & Hi & Heq). pose proof (Hwf i c Hi) as Hc.
  pose proof (wf_nonempty v2 T _ _ Hc) as Hne.
  destruct (items c) as [|x' l1] eqn:Hic; [done|]. rewrite Hcs in Heq. injection Heq as <- Hl1.
  destruct (body_items v2 T q cs i x (Some c) Hb Hi) as [Hxk Hxp]; [simpl; rewrite Hic; set_solver|].
  destruct (zip_descend k (item_key x) st p q v cs id i (Some c)) as [Hz' Hr']; [done..|].
  destruct c as [y ty|w ds].
  - rewrite items_leaf in Hic. injection Hic as <- <-. assert (ty = T) as -> by by inversion Hc.
    eexists. split; [done|]. split; [done|]. split; [by eexists|]. rewrite Hr', Hl1. done.
  - rewrite items_inner in Hic. apply wf_body in Hc as (r & Hatr & Hbr & Hbigr).
    assert (∃ id', below_id v2 w ((Inner v cs, id) :: st) branch = Some id' ∧
      mDepth id' = Z.of_nat (length r)) as (id' & -> & Hid').
    { destruct (below_id_depth w q r _ id st branch Hatr Hid) as (id' & ? & ?). by exists id'. }
    destruct (IH (item_key x) ((Inner v cs, id) :: st) (q ++ [Z.of_nat i]) r w ds id' x l1)
      as (st' & Hst' & Hcur); [done..| |done|].
    + apply at_path_length in Hatr. rewrite length_app in Hatr. simpl in Hatr. lia.
    + exists st'. split; [done|]. rewrite Hr', (assoc_L (++)), <- Hl1 in Hcur. done.
Qed.

(** [firstBelow] of a branch of the node on top of the stack. *)
Lemma firstBelow_spec k st p q v cs id i c branch :
  is_u256 k → zip v2 T k root st p (Some (Inner v cs)) →
  at_path v2 p q v → body v2 T q cs → (st = [] → q = []) → (st ≠ [] → big v2 cs) →
  mDepth id = Z.of_nat (length q) → cs !! i = Some (Some c) →
  ∃ x l, items c = x :: l ∧
    arrives (x :: l ++ citems (drop (S i) cs) ++ rest k st)
      (firstBelow v2 c ((Inner v cs, id) :: st) branch).
Proof.
  intros Hk Hz Hat Hb Hnil Hbig Hid Hi. pose proof Hb as (Hq & Hl & Hlen & Hwf).
  pose proof (Hwf i c Hi) as Hc. pose proof (wf_nonempty v2 T _ _ Hc) as Hne.
  destruct (items c) as [|x l] eqn:Hic; [done|]. exists x, l. split; [done|].
  destruct (body_items v2 T q cs i x (Some c) Hb Hi) as [Hxk Hxp]; [simpl; rewrite Hic; set_solver|].
  destruct (zip_descend k (item_key x) st p q v cs id i (Some c)) as [Hz' Hr']; [done..|].
  destruct c as [y ty|w ds]; cbn [firstBelow].
  - rewrite items_leaf in Hic. injection Hic as <- <-. assert (ty = T) as -> by by inversion Hc.
    eexists _, _. split; [done|]. split; [done|]. split; [by eexists|]. by rewrite Hr'.
  - rewrite items_inner in Hic. apply wf_body in Hc as (r & Hatr & Hbr & Hbigr).
    assert (∃ id', below_id v2 w ((Inner v cs, id) :: st) branch = Some id' ∧
      mDepth id' = Z.of_nat (length r)) as (id' & -> & Hid').
    { destruct (below_id_depth w q r _ id st branch Hatr Hid) as (id' & ? & ?). by exists id'. }
    destruct (firstBelow_loop_spec path_fuel branch (item_key x) ((Inner v cs, id) :: st)
      (q ++ [Z.of_nat i]) r w ds id' x l) as (st' & Hst' & Hcur); [done..|unfold path_fuel; lia|done|].
    eexists st', _. split; [done|]. by rewrite Hr' in Hcur.
Qed.

(** The search to the right in a node on top of the stack, from the branch [j] on:
    the items there, or what [next] finds further up. *)
Lemma search_right k st p q v cs id j next :
  is_u256 k → zip v2 T k root st p (Some (Inner v cs)) →
  at_path v2 p q v → body v2 T q cs → (st = [] → q = []) → (st ≠ [] → big v2 cs) →
  mDepth id = Z.of_nat (length q) → 0 ≤ j → arrives (rest k st) next →
  arrives (citems (drop (Z.to_nat j) cs) ++ rest k st)
    (match branch_from cs j with
     | None => next
     | Some (node, i) =>
         match firstBelow v2 node ((Inner v cs, id) :: st) i with
         | Some (Some leaf, s) => Some (Some leaf, s)
         | _ => None
         end
     end).
Proof.
  intros Hk Hz Hat Hb Hnil Hbig Hid Hj Hnext.
  pose proof (branch_from_split cs j Hj) as Hbf. destruct (branch_from cs j) as [[c m]|].
  - destruct Hbf as (i & -> & Hji & Hi & Heq).
    destruct (firstBelow_spec k st p q v cs id i c (Z.of_nat i)) as (x & l & Hic & st' & id' & -> & Hcur); [done..|].
    rewrite Heq, Hic, <- !(assoc_L (++)). simpl. by exists st', id'.
  - by rewrite Hbf.
Qed.

Lemma next_loop_spec k st p o :
  is_u256 k → zip v2 T k root st p o → arrives (rest k st) (next_loop v2 k st).
Proof.
  intros Hk. induction 1 as [|st p q v cs id o Hz IH Hat Hb Hnil Hbig Hp Hid Ho]; [done|].
  pose proof Hb as (_ & Hl & _). pose proof (nib_range k (length q) Hk Hl).
  cbn [next_loop rest]. rewrite (selectBranch_eq k id (length q)) by done.
  replace (S (Z.to_nat (nib k (length q)))) with (Z.to_nat (nib k (length q) + 1)) by lia.
  eapply search_right; eauto. lia.
Qed.

Lemma iterate_spec fuel : ∀ x st l id,
  cursor x st l → (length l < fuel)%nat →
  iterate fuel v2 (Some (Leaf x T)) ((Leaf x T, id) :: st) = Some (map (λ y, (y, T)) (x :: l)).
Proof.
  induction fuel as [|fuel IH]; intros x st l id (Hk & (p & Hz) & Hr) Hf; [lia|].
  cbn [iterate peekNextItem]. pose proof (next_loop_spec _ st p _ Hk Hz) as Ha. rewrite Hr in Ha.
  destruct l as [|y l].
  - rewrite Ha. by destruct fuel.
  - destruct Ha as (st' & id' & -> & Hcur). simpl in Hf.
    rewrite (IH y st' l _ Hcur) by lia. done.
Qed.
End iter.

Lemma leaf_count_items n : leaf_count n = length (items n).
Proof.
  revert n. fix IH 1. intros [item ty|v cs]; [done|]. rewrite items_inner. simpl.
  induction cs as [|[c|] cs IHcs]; [done| |]; simpl; rewrite citems_cons, length_app.
  - by rewrite IHcs, IH.
  - by rewrite IHcs.
Qed.

Section contents.
Context (v2 : bool) (T : TNType) (root : Node) (Hroot : wf_root v2 T root).

Lemma peekFirstItem_spec :
  match items root with
  | [] => peekFirstItem root = Some (None, [])
  | x :: l => ∃ st id, peekFirstItem root = Some (Some (Leaf x T), (Leaf x T, id) :: st) ∧
      cursor v2 T root x st l
  end.
Proof.
  unfold peekFirstItem. rewrite (is_v2_root v2 T root Hroot).
  destruct root as [|v cs] eqn:Hr; [done|]. destruct Hroot as [Hat Hb].
  rewrite items_inner. cbn [firstBelow]. destruct (citems cs) as [|x l] eqn:Hcs.
  - change path_fuel with (S 64). cbn [firstBelow_loop]. pose proof (first_child_split cs) as Hf.
    destruct (first_child cs) as [c|]; [|done]. destruct Hf as (i & Hi & Heq).
    rewrite Hcs in Heq. symmetry in Heq. apply app_eq_nil in Heq as [Hc _].
    pose proof Hb as (_ & _ & _ & Hwf). by destruct (wf_nonempty v2 T _ _ (Hwf i c Hi)).
  - assert (is_u256 (item_key x)) as Hxk.
    { assert (x ∈ citems cs) as (i & c & Hi & Hx)%citems_elem by (rewrite Hcs; set_solver).
      by destruct (body_items v2 T [] cs i x (Some c) Hb Hi Hx). }
    destruct (firstBelow_loop_spec v2 T (Inner v cs) path_fuel 0 (item_key x) [] [] [] v cs root_id x l)
      as (st & Hst & Hcur); [done|constructor|done..|unfold path_fuel; simpl; lia|done|].
    rewrite Hst. rewrite app_nil_r in Hcur. eauto.
Qed.

Lemma contents_spec : contents root = Some (map (λ y, (y, T)) (items root)).
Proof.
  unfold contents. pose proof peekFirstItem_spec as Hp. rewrite leaf_count_items.
  rewrite (is_v2_root v2 T root Hroot). destruct (items root) as [|x l].
  - by rewrite Hp.
  - destruct Hp as (st & id & -> & Hcur). apply (iterate_spec v2 T root); [done|]. simpl. lia.
Qed.
End contents.

(** ** Ordered search *)
Lemma key_lt_asym a b : is_u256 a → is_u256 b → key_lt a b = true → key_lt b a = false.
Proof.
  intros Ha Hb Hab. destruct (key_lt b a) eqn:Hba; [|done].
  rewrite <- (key_lt_irrefl a). symmetry. by apply (key_lt_trans a b a).
Qed.

(** A key that leaves the path of a version 2 node is on one side of all its
    items, the side [common_] is on. *)
Lemma off_path_side q k x :
  in_base 16 q → (length q < 64)%nat → is_u256 k → ¬ q `prefix_of` nibs k →
  is_u256 x → q `prefix_of` nibs x → key_lt k x = key_lt k (pack 32 q).
Proof.
  intros Hq Hl Hk Hnp Hx Hqx. pose proof (pack_u256 q Hq) as Hpk.
  destruct (get_common_prefix_spec q k Hq Hl Hk Hnp) as (d & _ & Hd & Ht & Hn).
  assert (∀ y, is_u256 y → q `prefix_of` nibs y →
    take d (nibs y) = take d (nibs k) ∧ Some (nib y d) = q !! d) as Hy.
  { intros y Hyk Hqy. split.
    - rewrite <- Ht. destruct Hqy as [s ->]. by rewrite take_app_le by lia.
    - rewrite <- nib_lookup by (done || lia). destruct Hqy as [s ->]. by rewrite lookup_app_l. }
  assert (q `prefix_of` nibs (pack 32 q)) as Hqq
    by (rewrite nibs_pack by (done || lia); by apply prefix_app_r).
  destruct (Hy x Hx Hqx) as [Tx Nx], (Hy _ Hpk Hqq) as [Tp Np].
  assert (nib x d = nib (pack 32 q) d) as He by congruence.
  destruct (Z.lt_total (nib k d) (nib (pack 32 q) d)) as [Hlt|[Heq|Hgt]]; [|congruence|].
  - rewrite !(key_lt_diverge k _ d) by (done || lia || congruence). done.
  - rewrite !key_lt_asym; [done|done..| |done|done|];
      apply (key_lt_diverge _ _ d); done || lia || congruence.
Qed.

Section search.
Context (v2 : bool) (T : TNType) (k : uint256) (Hk : is_u256 k) (root : Node).

Lemma branch_side q cs i j x o :
  body v2 T q cs → q `prefix_of` nibs k → i = Z.to_nat (nib k (length q)) →
  cs !! j = Some o → x ∈ oitems o →
  ((j < i)%nat → key_lt (item_key x) k = true) ∧ ((i < j)%nat → key_lt k (item_key x) = true).
Proof.
  intros Hb Hq -> Hj Hx. pose proof Hb as (_ & Hl & _).
  pose proof (nib_range k (length q) Hk Hl).
  destruct (body_items v2 T q cs j x o Hb Hj Hx) as [Hxk Hp].
  apply prefix_key_nib in Hp as Hn; [|done..]. apply prefix_snoc_iff in Hp as [Hp%prefix_take _].
  apply prefix_take in Hq.
  split; intros; apply (key_lt_diverge _ _ (length q)); done || lia || congruence.
Qed.

Lemma zip_order st p o :
  zip v2 T k root st p o →
  ∃ L, items root = L ++ oitems o ++ rest k st ∧
    (∀ x, x ∈ L → key_lt (item_key x) k = true) ∧
    (∀ x, x ∈ rest k st → key_lt k (item_key x) = true).
Proof.
  induction 1 as [|st p q v cs id o Hz IH Hat Hb Hnil Hbig Hp Hid Ho].
  - exists []. split; [by rewrite app_nil_r|]. by split; intros x Hx%elem_of_nil.
  - destruct IH as (L & HL & Hlow & Hhigh). pose proof Hb as (_ & Hl & _).
    cbn [rest]. rewrite (selectBranch_eq k id (length q)) by done.
    set (i := Z.to_nat (nib k (length q))) in *. exists (L ++ citems (take i cs)). split; [|split].
    + rewrite HL. simpl oitems at 1. rewrite items_inner, (citems_split _ _ _ Ho), <- !(assoc_L (++)). done.
    + intros x [Hx|Hx]%elem_of_app; [auto|]. apply citems_elem in Hx as (j & c & Hj & Hx).
      pose proof Hj as Hlt%lookup_lt_Some. rewrite length_take in Hlt. rewrite lookup_take_lt in Hj by lia.
      destruct (branch_side q cs i j x (Some c) Hb Hp eq_refl Hj Hx) as [H _]. apply H. lia.
    + intros x [Hx|Hx]%elem_of_app; [|auto]. apply citems_elem in Hx as (j & c & Hj & Hx).
      rewrite lookup_drop in Hj.
      destruct (branch_side q cs i _ x (Some c) Hb Hp eq_refl Hj Hx) as [_ H]. apply H. lia.
Qed.

Lemma upper_branch_path q p v id :
  at_path v2 p q v → in_base 16 q → (length q < 64)%nat → q `prefix_of` nibs k →
  mDepth id = Z.of_nat (length q) → upper_branch v2 v id k = nib k (length q) + 1.
Proof.
  intros Hat Hq Hl Hp Hid. unfold upper_branch. rewrite (selectBranch_eq k id (length q)) by done.
  destruct v2; [|done]. destruct Hat as [_ ->].
  by rewrite (proj2 (common_prefix_path q k Hq Hl Hk) Hp).
Qed.

Lemma upper_loop_spec st p o :
  zip v2 T k root st p o → arrives v2 T root (rest k st) (upper_loop v2 k st).
Proof.
  induction 1 as [|st p q v cs id o Hz IH Hat Hb Hnil Hbig Hp Hid Ho]; [done|].
  pose proof Hb as (Hq & Hl & _). pose proof (nib_range k (length q) Hk Hl).
  cbn [upper_loop rest]. rewrite (upper_branch_path q p) by done.
  rewrite (selectBranch_eq k id (length q)) by done.
  replace (S (Z.to_nat (nib k (length q)))) with (Z.to_nat (nib k (length q) + 1)) by lia.
  eapply search_right; eauto. lia.
Qed.

#[local] Abbreviation above := (filter (λ x, key_lt k (item_key x) = true)).

(** The items above [k] of the node where the walk ends. *)
Lemma upper_branch_above st p v cs id :
  wf_root v2 T root → zip v2 T k root st p (Some (Inner v cs)) → fits v2 T st p (Inner v cs) →
  id_at v2 p (Inner v cs) id → stops v2 k p (Inner v cs) None →
  0 ≤ upper_branch v2 v id k ∧
  above (citems cs) = citems (drop (Z.to_nat (upper_branch v2 v id k)) cs).
Proof.
  intros Hwf Hz Hf Hid [_ (q & Hat & Hq & Hl & Hstop)].
  destruct (fits_inner v2 T k root st p v cs Hz Hf) as (q' & Hat' & Hb & _ & _).
  pose proof Hb as (Hq' & Hl' & Hlen & _). assert (q' = q) as -> by by eapply at_path_unique.
  pose proof (Hid q Hat) as Hidq. destruct (decide (q `prefix_of` nibs k)) as [Hp|Hnp].
  - rewrite (upper_branch_path q p) by (done || by rewrite Hidq). specialize (Hstop Hp).
    pose proof (nib_range k (length q) Hk Hl). split; [lia|].
    replace (Z.to_nat (nib k (length q) + 1)) with (S (Z.to_nat (nib k (length q)))) by lia.
    rewrite (citems_split _ _ _ Hstop), !filter_app.
    rewrite filter_drops, (filter_keeps _ (citems (drop _ cs))); [done|..]; intros x Hx;
      apply citems_elem in Hx as (j & c & Hj & Hx).
    + rewrite lookup_drop in Hj.
      destruct (branch_side q cs _ _ x (Some c) Hb Hp eq_refl Hj Hx) as [_ Hup]. apply Hup. lia.
    + pose proof Hj as Hlt%lookup_lt_Some. rewrite length_take in Hlt. rewrite lookup_take_lt in Hj by lia.
      destruct (branch_side q cs _ j x (Some c) Hb Hp eq_refl Hj Hx) as [Hlow _].
      rewrite key_lt_asym; [done| |done|apply Hlow; lia].
      by destruct (body_items v2 T q cs j x (Some c) Hb Hj Hx).
  - destruct v2; [|destruct Hnp; destruct Hat as [-> _]; by eapply zip_path].
    destruct Hat as [_ ->]. unfold upper_branch.
    rewrite (proj1 (not_true_iff_false _) (λ H, Hnp (proj1 (common_prefix_path q k Hq Hl Hk) H))).
    assert (∀ x, x ∈ citems cs → key_lt k (item_key x) = key_lt k (pack 32 q)) as Hside.
    { intros x (i & c & Hi & Hx)%citems_elem.
      destruct (body_items true T q cs i x (Some c) Hb Hi Hx) as [Hxk Hxp].
      apply off_path_side; try done. by apply prefix_snoc_iff in Hxp as [? _]. }
    destruct (key_lt k (pack 32 q)); (split; [lia|]).
    + by apply filter_keeps.
    + rewrite drop_ge by lia. apply filter_drops. intros x Hx. by rewrite Hside.
Qed.

Lemma upper_bound_spec :
  wf_root v2 T root → arrives v2 T root (above (items root)) (upper_bound root k).
Proof.
  intros Hwf.
  destruct (walkTowardsKey_spec v2 T k Hk root Hwf) as (res & node & id & st & p & Hw & Hz & Hf & Hid & Hs).
  unfold upper_bound. rewrite Hw, (is_v2_root v2 T root Hwf).
  destruct (zip_order st p _ Hz) as (L & HL & Hlow & Hhigh).
  assert (∀ x, x ∈ L → is_u256 (item_key x)) as HLk.
  { intros x Hx. apply (root_keys v2 T root Hwf). rewrite HL. set_solver. }
  rewrite HL. clear HL.
  rewrite !filter_app, (filter_keeps _ (rest k st)) by done.
  rewrite filter_drops; [|intros x Hx; rewrite key_lt_asym; [done|by apply HLk|done|by apply Hlow]].
  rewrite app_nil_l. pose proof (upper_loop_spec st p _ Hz) as Hup. destruct node as [x ty|v cs]; cbn [upper_loop].
  - destruct (stops_leaf v2 T k root st p x ty Hk Hwf Hz Hf) as (-> & _ & Hleaf & _).
      change (oitems (Some (Leaf x T))) with [x].
      rewrite filter_cons. destruct (key_lt k (item_key x)) eqn:Hlt.
      * rewrite decide_True by done. eexists st, id. split; [done|].
        inversion Hleaf as [? ? Hxk Hxp|]; subst.
        destruct (zip_change_key v2 T root k (item_key x) st p _ Hk Hxk Hz Hxp) as [Hz' Hr].
        split; [done|]. split; [by exists p|]. by rewrite <- Hr.
      * by rewrite decide_False.
  - destruct Hs as [-> Hs]. change (oitems (Some (Inner v cs))) with (citems cs).
      destruct (upper_branch_above st p v cs id Hwf Hz Hf Hid (conj eq_refl Hs)) as [Hj ->].
      destruct (fits_inner v2 T k root st p v cs Hz Hf) as (q & Hat & Hb & Hnil & Hbig).
      eapply search_right; try done. by rewrite (Hid q Hat).
Qed.
End search.
