(* ===== verification/SHAMapHash.v ===== *)
(** * SHAMap: hashes of nodes

    src/src/ripple/shamap/impl/SHAMapTreeNode.cpp, [updateHash], and
    protocol/HashPrefix.h.  [sha512Half] is a parameter: a function from bytes to
    32 bytes.  No such function is injective; what the map relies on is that none
    of the byte strings it has hashed collide, and that none hashes to zero, the
    mark of an empty branch ([collision_free]).  A map of transactions without
    metadata hashes an item without its key, and relies on its callers to use the
    transaction's hash as key ([keyed]). *)

From stdpp Require Import prelude list gmap sorting.
From Stdlib Require Import ZArith Lia.
From S2P Require Import Prelude.
From S2P Require Import BaseUint.
From S2P Require Import BaseUintTheorems.
From S2P Require Import SHAMapNodeID.
From S2P Require Import SHAMap.
From S2P Require Import SHAMapSpec.
From S2P Require Import SHAMapRefine.

(** ** HashPrefix *)
Module HashPrefix.
Definition make (a b c : Z) : list Z := [a; b; c; 0].
Definition transactionID : list Z := make 84 88 78.
Definition txNode : list Z := make 83 78 68.
Definition leafNode : list Z := make 77 76 78.
Definition innerNode : list Z := make 77 73 78.
Definition innerNodeV2 : list Z := make 73 78 82.
End HashPrefix.

(** What [updateHash] feeds to the hasher. *)
Definition leaf_preimage (item : SHAMapItem) (type : TNType) : list Z :=
  match type with
  | tnTRANSACTION_NM => HashPrefix.transactionID ++ item_data item
  | tnACCOUNT_STATE => HashPrefix.leafNode ++ item_data item ++ item_key item
  | tnTRANSACTION_MD => HashPrefix.txNode ++ item_data item ++ item_key item
  | _ => []
  end.
Definition inner_preimage (v : option (Z * uint256)) (mHashes : list uint256) : list Z :=
  match v with
  | None => HashPrefix.innerNode ++ concat mHashes
  | Some (depth, common) =>
      HashPrefix.innerNodeV2 ++ concat mHashes ++ [depth mod 256] ++
      take (Z.to_nat ((depth + 1) / 2)) common
  end.

Lemma concat_fixed_inj (l l' : list uint256) :
  (∀ x, x ∈ l → length x = 32%nat) → (∀ x, x ∈ l' → length x = 32%nat) →
  length l = length l' → concat l = concat l' → l = l'.
Proof.
  revert l'. induction l as [|x l IH]; intros [|y l'] Hl Hl' Hlen Heq; simplify_eq/=; [done|].
  apply app_inj_1 in Heq as [-> Heq]; [|rewrite Hl, Hl'; set_solver].
  f_equal. apply IH; [set_solver..|done|done].
Qed.

Section hash.
  Variable sha512Half : list Z → uint256.

Fixpoint getNodeHash (n : Node) : uint256 :=
  match n with
  | Leaf item type => sha512Half (leaf_preimage item type)
  | Inner v cs =>
      let mHashes := map (λ o, match o with Some c => getNodeHash c | None => zero256 end) cs in
      if getBranchCount cs =? 0 then zero256 else sha512Half (inner_preimage v mHashes)
  end.
Definition getChildHash (o : option Node) : uint256 :=
  match o with Some c => getNodeHash c | None => zero256 end.

(** [SHAMapTreeNode::setItem] answers whether the hash of the leaf changes. *)
Definition setItem_changes (old : Node) (item : SHAMapItem) (type : TNType) : bool :=
  negb (bool_decide (getNodeHash old = sha512Half (leaf_preimage item type))).

(** A key that is not in the map fails the assertion. *)
Definition updateGiveItem (root : Node) (item : SHAMapItem) (isTransaction hasMeta : bool) :
    option (bool * Node) :=
  let tag := item_key item in
  let type := leaf_type isTransaction hasMeta in
  match walkTowardsKey root tag with
  | Some (_, (Leaf old ty, _) :: stack) =>
      if bool_decide (item_key old = tag)
      then if setItem_changes (Leaf old ty) item type
           then (λ r, (true, r)) <$> dirtyUp stack tag (Leaf item type)
           else Some (true, root)
      else None
  | _ => None
  end.

(** [SHAMap::invariants] on the nodes.  [key()] of a node of version 2. *)
Definition node_key (n : Node) : uint256 :=
  match n with
  | Leaf item _ => item_key item
  | Inner (Some (_, common)) _ => common
  | Inner None _ => zero256
  end.
Definition isNonZero (h : uint256) : bool := negb (bool_decide (h = zero256)).
Fixpoint count_hashes (cs : list (option Node)) : Z :=
  match cs with
  | [] => 0
  | o :: cs => (if isNonZero (getChildHash o) then 1 else 0) + count_hashes cs
  end.

Fixpoint node_invariants (isv2 is_root : bool) (n : Node) : bool :=
  match n with
  | Leaf item type =>
      match type with tnERROR | tnINNER => false | _ => true end && isNonZero (getNodeHash n)
  | Inner v cs =>
      let count := count_hashes cs in
      let branches :=
        (fix go (i : Z) (os : list (option Node)) : bool :=
           match os with
           | [] => true
           | None :: os => go (i + 1) os
           | Some c :: os =>
               isNonZero (getNodeHash c) &&
               match v with
               | Some (depth, common) =>
                   (i =? selectBranch (mkNodeID depth common) (node_key c)) &&
                   common_prefix depth common (node_key c)
               | None => true
               end &&
               node_invariants isv2 false c && go (i + 1) os
           end) 0 cs in
      match v with
      | None =>
          negb isv2 && branches &&
          (is_root || (isNonZero (getNodeHash n) && (1 <=? count))) &&
          Bool.eqb (negb (count =? 0)) (isNonZero (getNodeHash n))
      | Some (depth, _) =>
          isv2 && branches &&
          (if is_root then depth =? 0
           else isNonZero (getNodeHash n) && (2 <=? count) && (0 <? depth)) &&
          Bool.eqb (negb (count =? 0)) (isNonZero (getNodeHash n))
      end
  end.
Definition invariants (root : Node) : bool :=
  negb (isLeaf root) && node_invariants (is_v2 root) true root.

(** The byte strings hashed for a tree. *)
Fixpoint hashed (n : Node) : list (list Z) :=
  match n with
  | Leaf item type => [leaf_preimage item type]
  | Inner v cs =>
      (if getBranchCount cs =? 0 then [] else [inner_preimage v (map getChildHash cs)]) ++
      concat (map (λ o, match o with Some c => hashed c | None => [] end) cs)
  end.

Definition collision_free (l : list (list Z)) : Prop :=
  (∀ x y, x ∈ l → y ∈ l → sha512Half x = sha512Half y → x = y) ∧
  (∀ x, x ∈ l → sha512Half x ≠ zero256).

Definition keyed (T : TNType) (l : list SHAMapItem) : Prop :=
  T = tnTRANSACTION_NM → ∀ x, x ∈ l → item_key x = sha512Half (leaf_preimage x T).

  Hypothesis sha512Half_length : ∀ x, length (sha512Half x) = 32%nat.

Lemma collision_free_sub l l' :
  (∀ x, x ∈ l' → x ∈ l) → collision_free l → collision_free l'.
Proof. intros Hs [H1 H2]. split; [intros x y Hx Hy; apply H1; auto|auto]. Qed.

Lemma hashed_inner v cs :
  getBranchCount cs ≠ 0 → inner_preimage v (map getChildHash cs) ∈ hashed (Inner v cs).
Proof. intros Hc. simpl. destruct (Z.eqb_spec (getBranchCount cs) 0); [done|]. set_solver. Qed.

Lemma hashed_child v cs i c x :
  cs !! i = Some (Some c) → x ∈ hashed c → x ∈ hashed (Inner v cs).
Proof.
  intros Hi Hx. simpl. apply elem_of_app. right. rewrite list_elem_of_In, in_concat.
  exists (hashed c). rewrite <- !list_elem_of_In. split; [|done].
  apply list_elem_of_In, in_map_iff. exists (Some c). split; [done|].
  apply list_elem_of_In. by eapply list_elem_of_lookup_2.
Qed.

Lemma getNodeHash_inner v cs :
  getBranchCount cs ≠ 0 →
  getNodeHash (Inner v cs) = sha512Half (inner_preimage v (map getChildHash cs)).
Proof. intros Hc. simpl. by destruct (Z.eqb_spec (getBranchCount cs) 0). Qed.

Lemma getChildHash_length o : length (getChildHash o) = 32%nat.
Proof.
  destruct o as [[item ty|v cs]|]; simpl; [done| |done]. by destruct (getBranchCount cs =? 0).
Qed.

Lemma child_hashes_length cs x : x ∈ map getChildHash cs → length x = 32%nat.
Proof. intros (o & -> & _)%list_elem_of_fmap. apply getChildHash_length. Qed.

Definition is_leaf_type (T : TNType) : Prop := T ≠ tnERROR ∧ T ≠ tnINNER.

Section inj.
Context (v2 : bool) (T : TNType) (HT : is_leaf_type T).

Lemma wf_count p v cs : wf v2 T p (Inner v cs) → getBranchCount cs ≠ 0.
Proof. intros Hw Hc%count_zero. apply wf_two in Hw. rewrite Hc in Hw. simpl in Hw. lia. Qed.

(** The preimage of the hash of a well-formed node. *)
Definition preimage (n : Node) : list Z :=
  match n with
  | Leaf item type => leaf_preimage item type
  | Inner v cs => inner_preimage v (map getChildHash cs)
  end.

Lemma hash_preimage p n :
  wf v2 T p n → getNodeHash n = sha512Half (preimage n) ∧ preimage n ∈ hashed n.
Proof.
  intros Hw. destruct n as [item ty|v cs]; [split; [done|simpl; set_solver]|].
  apply wf_count in Hw. split; [by apply getNodeHash_inner|by apply hashed_inner].
Qed.

Lemma hash_nonzero p n :
  wf v2 T p n → collision_free (hashed n) → getNodeHash n ≠ zero256.
Proof. intros Hw [_ Hz]. destruct (hash_preimage p n Hw) as [-> Hin]. auto. Qed.

Lemma leaf_preimage_inj x y :
  is_u256 (item_key x) → is_u256 (item_key y) → keyed T [x] → keyed T [y] →
  leaf_preimage x T = leaf_preimage y T → x = y.
Proof.
  intros [Lx _] [Ly _] Kx Ky Heq. destruct HT as [H1 H2]. destruct x as [kx dx], y as [ky dy].
  assert (T = tnTRANSACTION_NM → kx = ky) as Hk.
  { intros E. specialize (Kx E (mkItem kx dx) ltac:(set_solver)).
    specialize (Ky E (mkItem ky dy) ltac:(set_solver)). simpl in Kx, Ky. congruence. }
  destruct T; try done; simpl in *.
  - rewrite Hk by done. by injection Heq as ->.
  - injection Heq as Heq. by destruct (app_inj_2 dx dy kx ky ltac:(congruence) Heq) as [-> ->].
  - injection Heq as Heq. by destruct (app_inj_2 dx dy kx ky ltac:(congruence) Heq) as [-> ->].
Qed.

Lemma prefix_bytes_inj q r :
  in_base 16 q → in_base 16 r → (length q < 64)%nat → length q = length r →
  take (Z.to_nat ((Z.of_nat (length q) + 1) / 2)) (pack 32 q) =
  take (Z.to_nat ((Z.of_nat (length r) + 1) / 2)) (pack 32 r) → q = r.
Proof.
  intros Hq Hr Hl Hlen Heq. rewrite <- Hlen in Heq.
  set (m := Z.to_nat ((Z.of_nat (length q) + 1) / 2)) in *.
  assert (length q ≤ 2 * m)%nat as Hm by (subst m; Z.to_euclidean_division_equations; lia).
  apply (f_equal nibs) in Heq. rewrite !nibs_take, !nibs_pack in Heq by (done || lia).
  apply (take_shorter (length q) (2 * m)) in Heq; [|done].
  rewrite take_app_length in Heq. by rewrite Hlen, take_app_length in Heq.
Qed.

Lemma inner_preimage_inj p p' q r v w cs ds :
  at_path v2 p q v → at_path v2 p' r w → body v2 T q cs → body v2 T r ds →
  inner_preimage v (map getChildHash cs) = inner_preimage w (map getChildHash ds) →
  v = w ∧ map getChildHash cs = map getChildHash ds.
Proof.
  intros Hv Hw (Hq & Hl & Lc & _) (Hr & Hl' & Ld & _) Heq.
  assert (∀ cs, length cs = 16%nat → length (concat (map getChildHash cs)) = 512%nat) as Hlen.
  { intros es Le. assert (∀ fs, length (concat (map getChildHash fs)) = (32 * length fs)%nat) as ->.
    { intros fs. induction fs as [|f fs IH]; simpl; [done|]. rewrite length_app, IH, getChildHash_length. lia. }
    by rewrite Le. }
  assert (concat (map getChildHash cs) = concat (map getChildHash ds) →
    map getChildHash cs = map getChildHash ds) as Hinj.
  { apply concat_fixed_inj; [apply child_hashes_length..|by rewrite !length_map, Lc, Ld]. }
  unfold at_path in Hv, Hw. destruct v2.
  - destruct Hv as [_ ->], Hw as [_ ->]. simpl in Heq. injection Heq as Heq.
    apply app_inj_1 in Heq as [Hc Heq]; [|by rewrite !Hlen].
    injection Heq as Hd Hb. rewrite !Z.mod_small in Hd by lia. apply Nat2Z.inj in Hd.
    rewrite (prefix_bytes_inj q r Hq Hr Hl Hd Hb). auto.
  - destruct Hv as [_ ->], Hw as [_ ->]. simpl in Heq. injection Heq as Heq. auto.
Qed.

(** The first bytes tell leaves from inner nodes. *)
Lemma leaf_inner_preimage x v hs : leaf_preimage x T ≠ inner_preimage v hs.
Proof. destruct HT as [H1 H2]. by destruct T, v as [[]|]. Qed.

Lemma wf_leaf_inv p y ty :
  wf v2 T p (Leaf y ty) → ty = T ∧ is_u256 (item_key y) ∧ p `prefix_of` nibs (item_key y).
Proof. by inversion 1. Qed.

(** Equal hashes of the branches mean equal branches, if that is so below. *)
Lemma children_hash_inj q r v w cs ds :
  body v2 T q cs → body v2 T r ds → keyed T (citems cs) → keyed T (citems ds) →
  collision_free (hashed (Inner v cs) ++ hashed (Inner w ds)) →
  (∀ i c p' m, cs !! i = Some (Some c) → wf v2 T p' m →
     keyed T (items c) → keyed T (items m) → collision_free (hashed c ++ hashed m) →
     getNodeHash c = getNodeHash m → c = m) →
  map getChildHash cs = map getChildHash ds → cs = ds.
Proof.
  intros (_ & _ & _ & Hwf) (_ & _ & _ & Hwd) Kn Km Hcf IH Hmap.
  apply list_eq. intros i. apply (f_equal (.!! i)) in Hmap. rewrite !list_lookup_fmap in Hmap.
  destruct (cs !! i) as [o|] eqn:Ho, (ds !! i) as [o'|] eqn:Ho'; simplify_eq/=; [|done]. f_equal.
  assert (∀ c d, o = Some c → o' = Some d → collision_free (hashed c ++ hashed d)) as Hcd.
  { intros c d -> ->. eapply collision_free_sub, Hcf. intros y [Hy|Hy]%elem_of_app; apply elem_of_app;
      [left|right]; by eapply hashed_child. }
  assert (∀ c, o = Some c → collision_free (hashed c)) as Hco.
  { intros c ->. eapply collision_free_sub, Hcf. intros y Hy. apply elem_of_app. left.
    by eapply hashed_child. }
  assert (∀ d, o' = Some d → collision_free (hashed d)) as Hdo.
  { intros d ->. eapply collision_free_sub, Hcf. intros y Hy. apply elem_of_app. right.
    by eapply hashed_child. }
  destruct o as [c|], o' as [d|]; simpl in Hmap; [|exfalso..|done].
  - f_equal. eapply (IH i c); [done|by apply (Hwd i)| | |by apply Hcd|done];
      intros E x Hx; [apply (Kn E)|apply (Km E)]; apply citems_elem; eauto.
  - by eapply hash_nonzero, Hmap; [apply (Hwf i)|apply Hco].
  - by eapply hash_nonzero, eq_sym, Hmap; [apply (Hwd i)|apply Hdo].
Qed.

Lemma node_hash_inj p n : wf v2 T p n → ∀ p' m, wf v2 T p' m →
  keyed T (items n) → keyed T (items m) → collision_free (hashed n ++ hashed m) →
  getNodeHash n = getNodeHash m → n = m.
Proof.
  induction 1 as [p x Hk Hp|p q v cs Hat Hq Hl Hlen Hwf IH Hbig]; intros p' m Hm Kn Km Hcf Heq.
  - assert (wf v2 T p (Leaf x T)) as Hn by by constructor.
    destruct (hash_preimage _ _ Hn) as [E1 I1], (hash_preimage _ _ Hm) as [E2 I2].
    rewrite E1, E2 in Heq. apply Hcf in Heq; [|set_solver..].
    destruct m as [y ty|w ds]; [|by apply leaf_inner_preimage in Heq].
    destruct (wf_leaf_inv p' y ty Hm) as (-> & Hky & Hpy). f_equal. by apply leaf_preimage_inj.
  - assert (wf v2 T p (Inner v cs)) as Hn by by eapply wf_inner.
    destruct (hash_preimage _ _ Hn) as [E1 I1], (hash_preimage _ _ Hm) as [E2 I2].
    rewrite E1, E2 in Heq. apply Hcf in Heq; [|set_solver..].
    destruct m as [y ty|w ds].
    { destruct (wf_leaf_inv p' y ty Hm) as (-> & _). by symmetry in Heq; apply leaf_inner_preimage in Heq. }
    apply wf_body in Hm as (r & Hatr & Hbr & Hbigr).
    assert (body v2 T q cs) as Hb by done.
    destruct (inner_preimage_inj p p' q r v w cs ds Hat Hatr Hb Hbr Heq) as [-> Hmap]. f_equal.
    eapply (children_hash_inj q r w w); eauto.
Qed.

(** The hash of a map determines its contents. *)
Lemma root_hash_inj r s :
  wf_root v2 T r → wf_root v2 T s → keyed T (items r) → keyed T (items s) →
  collision_free (hashed r ++ hashed s) →
  getNodeHash r = getNodeHash s → r = s.
Proof.
  intros Hr Hs Kr Ks Hcf Heq. destruct r as [|v cs], s as [|w ds]; try done.
  destruct Hr as [Hv Hb], Hs as [Hw Hd].
  assert (v = w) as -> by (destruct v2; by destruct Hv as [_ ->], Hw as [_ ->]).
  assert (∀ es, getBranchCount es ≠ 0 → (∀ x, x ∈ hashed (Inner w es) → x ∈ hashed (Inner w cs) ++ hashed (Inner w ds)) →
    getNodeHash (Inner w es) ≠ zero256) as Hnz.
  { intros es He Hsub. rewrite getNodeHash_inner by done. by apply Hcf, Hsub, hashed_inner. }
  assert (∀ es, getBranchCount es = 0 → getNodeHash (Inner w es) = zero256) as Hz0.
  { intros es He. simpl. by rewrite He. }
  destruct (decide (getBranchCount cs = 0)) as [Hc|Hc], (decide (getBranchCount ds = 0)) as [Hd0|Hd0].
  - apply (root_unique v2 T); [done..|]. unfold abs. by rewrite !items_inner, !count_zero.
  - destruct (Hnz ds Hd0); [set_solver|]. by rewrite <- Heq, Hz0.
  - destruct (Hnz cs Hc); [set_solver|]. by rewrite Heq, Hz0.
  - rewrite !getNodeHash_inner in Heq by done. apply Hcf in Heq;
      [|apply elem_of_app; left; by apply hashed_inner|apply elem_of_app; right; by apply hashed_inner].
    destruct (inner_preimage_inj [] [] [] [] w w cs ds Hv Hw Hb Hd Heq) as [_ Hmap]. f_equal.
    eapply (children_hash_inj [] [] w w); [done..| |done].
    intros i c p' m Hi. eapply node_hash_inj. by apply Hb.
Qed.

(** ** The source's own check *)
Lemma nonzero_true h : h ≠ zero256 → isNonZero h = true.
Proof. intros Hh. unfold isNonZero. by rewrite bool_decide_false. Qed.

Lemma child_collision_free v cs i c :
  cs !! i = Some (Some c) → collision_free (hashed (Inner v cs)) → collision_free (hashed c).
Proof. intros Hi. apply collision_free_sub. intros x. by eapply hashed_child. Qed.

Lemma count_hashes_branches cs :
  (∀ c, Some c ∈ cs → getNodeHash c ≠ zero256) → count_hashes cs = getBranchCount cs.
Proof.
  induction cs as [|[c|] cs IH]; intros Hc; [done|..]; cbn [count_hashes getBranchCount getChildHash].
  - rewrite nonzero_true by set_solver. rewrite IH by set_solver. done.
  - change (isNonZero zero256) with false. rewrite IH by set_solver. lia.
Qed.

(** The key of a well-formed node of version 2 continues its path. *)
Lemma node_key_path p n :
  v2 = true → wf v2 T p n → is_u256 (node_key n) ∧ p `prefix_of` nibs (node_key n).
Proof.
  intros E Hw. inversion Hw as [? x Hk Hp|? q v cs Hat Hq Hl]; [done|]. subst. simpl.
  destruct Hat as [Hpq ->]. split; [by apply pack_u256|].
  rewrite nibs_pack by (done || lia). etrans; [exact Hpq|]. by apply prefix_app_r.
Qed.

Definition branch_checks (v : option (Z * uint256)) (isv2 : bool) (i : Z) (c : Node) : bool :=
  isNonZero (getNodeHash c) &&
  match v with
  | Some (depth, common) =>
      (i =? selectBranch (mkNodeID depth common) (node_key c)) && common_prefix depth common (node_key c)
  | None => true
  end && node_invariants isv2 false c.

Lemma branch_checks_true p q v cs i c :
  at_path v2 p q v → body v2 T q cs → cs !! i = Some (Some c) →
  collision_free (hashed (Inner v cs)) → node_invariants v2 false c = true →
  branch_checks v v2 (Z.of_nat i) c = true.
Proof.
  intros Hat (Hq & Hl & _ & Hwf) Hi Hcf Hinv. pose proof (Hwf i c Hi) as Hc. unfold branch_checks.
  rewrite nonzero_true by (eapply hash_nonzero; [done|by eapply (child_collision_free v cs i)]).
  rewrite Hinv, andb_true_r. simpl. pose proof (node_key_path (q ++ [Z.of_nat i]) c) as Hkey.
  destruct v2; [|by destruct Hat as [_ ->]]. destruct Hat as [_ ->].
  destruct (Hkey eq_refl Hc) as [Hk Hp]. apply prefix_key_nib in Hp as Hn; [|done..].
  apply prefix_snoc_iff in Hp as [Hp _].
  rewrite (selectBranch_eq _ _ (length q)), Hn, Z.eqb_refl by done.
  by apply common_prefix_path.
Qed.

Lemma node_invariants_inner p q v cs is_root :
  at_path v2 p q v → body v2 T q cs → collision_free (hashed (Inner v cs)) →
  (∀ i c, cs !! i = Some (Some c) → node_invariants v2 false c = true) →
  (is_root = false → big v2 cs ∧ q ≠ []) → (is_root = true → q = []) →
  node_invariants v2 is_root (Inner v cs) = true.
Proof.
  intros Hat Hb Hcf IH Hbig Hroot. pose proof Hb as (_ & _ & _ & Hwf).
  assert (count_hashes cs = getBranchCount cs) as Hcount.
  { apply count_hashes_branches. intros c [i Hi]%list_elem_of_lookup.
    eapply hash_nonzero; [by apply (Hwf i)|by eapply (child_collision_free v cs i)]. }
  assert (isNonZero (getNodeHash (Inner v cs)) = negb (getBranchCount cs =? 0)) as Hnz.
  { destruct (Z.eqb_spec (getBranchCount cs) 0) as [Hz|Hz]; [simpl; by rewrite Hz|].
    apply nonzero_true. rewrite getNodeHash_inner by done. by apply Hcf, hashed_inner. }
  pose proof (count_items cs (λ c Hc, body_nonempty v2 T q cs c Hb Hc)) as Hle.
  assert (big v2 cs → (if v2 then 2 else 1) ≤ getBranchCount cs) as Hmin.
  { unfold big. destruct v2; [done|]. intros Hc.
    destruct (decide (getBranchCount cs = 0)) as [Hz%count_zero|Hz]; [|lia].
    rewrite Hz in Hc. simpl in Hc. lia. }
  cbn [node_invariants]. rewrite Hcount, Hnz.
  match goal with |- context [?f 0 cs] => set (go := f) end.
  assert (go 0 cs = true) as ->.
  { change 0 with (Z.of_nat 0). assert (∀ j c, cs !! j = Some (Some c) →
      branch_checks v v2 (Z.of_nat (0 + j)) c = true) as Hall.
    { intros j c Hj. eapply (branch_checks_true p q v cs j); eauto. }
    revert Hall. generalize 0%nat. clear -go.
    induction cs as [|[c|] cs IH]; intros i Hall; [done|..]; simpl.
    - pose proof (Hall 0%nat c eq_refl) as H0. unfold branch_checks in H0. rewrite Nat.add_0_r in H0.
      rewrite H0. simpl. replace (Z.of_nat i + 1) with (Z.of_nat (S i)) by lia. apply IH.
      intros j d Hj. replace (S i + j)%nat with (i + S j)%nat by lia. by apply (Hall (S j)).
    - replace (Z.of_nat i + 1) with (Z.of_nat (S i)) by lia. apply IH.
      intros j d Hj. replace (S i + j)%nat with (i + S j)%nat by lia. by apply (Hall (S j)). }
  clear go. rewrite Bool.eqb_reflx, !andb_true_r.
  unfold at_path in Hat. destruct v2; destruct Hat as [_ ->]; simpl; destruct is_root; simpl.
  - by rewrite Hroot.
  - destruct (Hbig eq_refl) as [Hc Hq]. specialize (Hmin Hc).
    assert (length q ≠ 0%nat) by by destruct q. zcases; simpl; done || lia.
  - done.
  - destruct (Hbig eq_refl) as [Hc Hq]. specialize (Hmin Hc). zcases; simpl; done || lia.
Qed.

Lemma node_invariants_wf p n :
  wf v2 T p n → p ≠ [] → collision_free (hashed n) → node_invariants v2 false n = true.
Proof.
  induction 1 as [p x Hk Hp|p q v cs Hat Hq Hl Hlen Hwf IH Hbig]; intros Hne Hcf.
  - cbn [node_invariants]. rewrite nonzero_true by (apply Hcf; simpl; set_solver).
    destruct HT as [H1 H2]. by destruct T.
  - eapply node_invariants_inner; [done|done|done| | |done].
    + intros i c Hi. eapply IH; [done| |by eapply (child_collision_free v cs i)]. by destruct q.
    + intros _. split; [done|]. apply at_path_length in Hat. destruct p, q; simpl in *; done || lia.
Qed.

Lemma invariants_wf r : wf_root v2 T r → collision_free (hashed r) → invariants r = true.
Proof.
  intros Hr Hcf. unfold invariants. rewrite (is_v2_root v2 T r Hr).
  destruct r as [|v cs]; [done|]. destruct Hr as [Hat Hb]. simpl.
  apply (node_invariants_inner [] [] v cs true); [done..| |done|done].
  intros i c Hi. pose proof Hb as (_ & _ & _ & Hwf).
  eapply node_invariants_wf; [by apply (Hwf i)|done|by eapply (child_collision_free v cs i)].
Qed.

(** ** Updating an item *)
Lemma updateGiveItem_spec root item tx meta :
  wf_root v2 T root → is_u256 (item_key item) → large_enough item = true → leaf_type tx meta = T →
  (∀ x, x ∈ items root → item_key x = item_key item →
     sha512Half (leaf_preimage x T) = sha512Half (leaf_preimage item T) → x = item) →
  match abs root !! item_key item with
  | None => updateGiveItem root item tx meta = None
  | Some _ => ∃ r, updateGiveItem root item tx meta = Some (true, r) ∧ wf_root v2 T r ∧
      abs r = <[item_key item := item_data item]> (abs root)
  end.
Proof.
  intros Hwf Hk Hlg Hty Hcf.
  destruct (walkTowardsKey_spec v2 T _ Hk root Hwf) as (res & node & id & st & p & Hw & Hz & Hf & _ & Hs).
  unfold updateGiveItem. rewrite Hw, Hty. destruct node as [[k d] ty|v cs].
  - destruct (stops_leaf v2 T _ root st p _ ty Hk Hwf Hz Hf) as (-> & Hst & Hleaf & Hu & Hin).
    simpl item_key. case_bool_decide as Hkk.
    + subst k. rewrite (proj2 (abs_lookup v2 T root Hwf _ d) Hin).
      destruct (zip_fill v2 T _ Hk root st p _ Hz) as (L & R & HLR & _ & Hfill).
      unfold setItem_changes. case_bool_decide as Hh; simpl.
      * exists root. split; [done|]. split; [done|]. symmetry. apply insert_id.
        apply (abs_lookup v2 T); [done|]. simpl in Hh.
        rewrite <- (Hcf (mkItem (item_key item) d) Hin eq_refl Hh). by destruct item.
      * destruct (Hfill (Leaf item T)) as (r & -> & Hir & Hwr). exists r. split; [done|].
        assert (wf_root v2 T r) as Hr.
        { apply Hwr; [|done]. destruct st as [|e st]; [done|]. simpl.
          inversion Hleaf; subst. by constructor. }
        split; [done|]. rewrite (abs_perm v2 T r (item :: L ++ R)) by (done || rewrite Hir; solve_Permutation).
        rewrite (abs_perm v2 T root (mkItem (item_key item) d :: L ++ R)) by (done || rewrite HLR; solve_Permutation).
        unfold abs_items. simpl. by rewrite insert_insert_eq.
    + destruct (abs root !! item_key item) as [d'|] eqn:Hd; [|done].
      apply (abs_lookup v2 T) in Hd; [|done]. apply Hu in Hd; [|done]. by injection Hd as <- _.
  - destruct Hs as [-> Hq].
    by rewrite (stops_absent v2 T _ root st p v cs Hk Hwf Hz Hf (conj eq_refl Hq)).
Qed.
End inj.
End hash.
