(* ===== verification/SHAMapDelta.v ===== *)
(** * SHAMap: the differences of two maps

    src/src/ripple/shamap/impl/SHAMapDelta.cpp.  [compare] walks two trees
    together, skips branches whose hashes agree and stops when [maxCount]
    differences are found.  The stacks of the source are lists, top first; fuel
    is the number of nodes, each of which is visited once. *)

From stdpp Require Import prelude list gmap sorting.
From Stdlib Require Import ZArith Lia.
From S2P Require Import Prelude.
From S2P Require Import BaseUint.
From S2P Require Import BaseUintTheorems.
From S2P Require Import SHAMapNodeID.
From S2P Require Import SHAMap.
From S2P Require Import SHAMapSpec.
From S2P Require Import SHAMapRefine.
From S2P Require Import SHAMapHash.

Abbreviation DeltaItem := (option SHAMapItem * option SHAMapItem)%type.
Abbreviation Delta := (gmap uint256 DeltaItem).

(** [std::map::insert] keeps an entry that is there. *)
Definition delta_insert (k : uint256) (v : DeltaItem) (differences : Delta) : Delta :=
  match differences !! k with Some _ => differences | None => <[k := v]> differences end.

(** [differences.insert (...); if (--maxCount <= 0) return false;]: whether to go
    on, and the new state. *)
Definition emit (k : uint256) (v : DeltaItem) (s : Delta * Z) : bool * (Delta * Z) :=
  (negb (s.2 - 1 <=? 0), (delta_insert k v s.1, s.2 - 1)).

Definition side (isFirstMap : bool) (mine other : option SHAMapItem) : DeltaItem :=
  if isFirstMap then (mine, other) else (other, mine).

Fixpoint node_count (n : Node) : nat :=
  match n with
  | Leaf _ _ => 1
  | Inner _ cs => S (sum_list (map (λ o, match o with Some c => node_count c | None => O end) cs))
  end.

Fixpoint push_children (cs : list (option Node)) (nodeStack : list Node) : list Node :=
  match cs with
  | [] => nodeStack
  | Some c :: cs => push_children cs (c :: nodeStack)
  | None :: cs => push_children cs nodeStack
  end.

(** The loop of [walkBranch]: whether it ran to its end, [emptyBranch] and the
    differences. *)
Fixpoint walkBranch_loop (fuel : nat) (nodeStack : list Node) (otherMapItem : option SHAMapItem)
    (isFirstMap emptyBranch : bool) (s : Delta * Z) : option (bool * bool * (Delta * Z)) :=
  match fuel with
  | O => None
  | S fuel =>
      match nodeStack with
      | [] => Some (true, emptyBranch, s)
      | Inner _ cs :: nodeStack =>
          walkBranch_loop fuel (push_children cs nodeStack) otherMapItem isFirstMap emptyBranch s
      | Leaf item _ :: nodeStack =>
          let only :=
            let '(go, s) := emit (item_key item) (side isFirstMap (Some item) None) s in
            if go then walkBranch_loop fuel nodeStack otherMapItem isFirstMap emptyBranch s
            else Some (false, emptyBranch, s) in
          match emptyBranch, otherMapItem with
          | false, Some other =>
              if bool_decide (item_key item = item_key other)
              then if bool_decide (item_data item = item_data other)
                   then walkBranch_loop fuel nodeStack otherMapItem isFirstMap true s
                   else
                     let '(go, s) := emit (item_key item) (side isFirstMap (Some item) (Some other)) s in
                     if go then walkBranch_loop fuel nodeStack otherMapItem isFirstMap true s
                     else Some (false, emptyBranch, s)
              else only
          | _, _ => only
          end
      end
  end.

Definition walkBranch_finish (otherMapItem : option SHAMapItem) (isFirstMap : bool)
    (r : option (bool * bool * (Delta * Z))) : option (bool * (Delta * Z)) :=
  match r with
  | None => None
  | Some (false, _, s) => Some (false, s)
  | Some (true, emptyBranch, s) =>
      match emptyBranch, otherMapItem with
      | false, Some other => Some (emit (item_key other) (side isFirstMap None (Some other)) s)
      | _, _ => Some (true, s)
      end
  end.

Definition walkBranch (node : Node) (otherMapItem : option SHAMapItem) (isFirstMap : bool)
    (s : Delta * Z) : option (bool * (Delta * Z)) :=
  walkBranch_finish otherMapItem isFirstMap
    (walkBranch_loop (S (node_count node)) [node] otherMapItem isFirstMap
       (match otherMapItem with Some _ => false | None => true end) s).

Section compare.
  Variable sha512Half : list Z → uint256.

(** The loop over the sixteen branches of two inner nodes: whether it ran to its
    end, the stack and the differences. *)
Fixpoint compare_branches (branches : list (option Node * option Node))
    (nodeStack : list (Node * Node)) (s : Delta * Z) :
    option (bool * list (Node * Node) * (Delta * Z)) :=
  match branches with
  | [] => Some (true, nodeStack, s)
  | (ours, other) :: branches =>
      if bool_decide (getChildHash sha512Half ours = getChildHash sha512Half other)
      then compare_branches branches nodeStack s
      else
        match ours, other with
        | Some iNode, None =>
            match walkBranch iNode None true s with
            | Some (true, s) => compare_branches branches nodeStack s
            | Some (false, s) => Some (false, nodeStack, s)
            | None => None
            end
        | None, Some iNode =>
            match walkBranch iNode None false s with
            | Some (true, s) => compare_branches branches nodeStack s
            | Some (false, s) => Some (false, nodeStack, s)
            | None => None
            end
        | Some c, Some d => compare_branches branches ((c, d) :: nodeStack) s
        | None, None => None
        end
  end.

Fixpoint compare_loop (fuel : nat) (nodeStack : list (Node * Node)) (s : Delta * Z) :
    option (bool * (Delta * Z)) :=
  match fuel with
  | O => None
  | S fuel =>
      match nodeStack with
      | [] => Some (true, s)
      | (Leaf ours _, Leaf other _) :: nodeStack =>
          if bool_decide (item_key ours = item_key other)
          then if bool_decide (item_data ours = item_data other)
               then compare_loop fuel nodeStack s
               else
                 let '(go, s) := emit (item_key ours) (Some ours, Some other) s in
                 if go then compare_loop fuel nodeStack s else Some (false, s)
          else
            let '(go, s) := emit (item_key ours) (Some ours, None) s in
            if go
            then
              let '(go, s) := emit (item_key other) (None, Some other) s in
              if go then compare_loop fuel nodeStack s else Some (false, s)
            else Some (false, s)
      | (Inner v cs, Leaf other _) :: nodeStack =>
          match walkBranch (Inner v cs) (Some other) true s with
          | Some (true, s) => compare_loop fuel nodeStack s
          | r => r
          end
      | (Leaf ours _, Inner w ds) :: nodeStack =>
          match walkBranch (Inner w ds) (Some ours) false s with
          | Some (true, s) => compare_loop fuel nodeStack s
          | r => r
          end
      | (Inner _ cs, Inner _ ds) :: nodeStack =>
          match compare_branches (zip_with pair cs ds) nodeStack s with
          | Some (true, nodeStack, s) => compare_loop fuel nodeStack s
          | Some (false, _, s) => Some (false, s)
          | None => None
          end
      end
  end.

(** The answer and the differences found. *)
Definition compare (root otherRoot : Node) (differences : Delta) (maxCount : Z) :
    option (bool * Delta) :=
  if bool_decide (getNodeHash sha512Half root = getNodeHash sha512Half otherRoot)
  then Some (true, differences)
  else (λ r, (r.1, r.2.1)) <$>
       compare_loop (S (node_count root)) [(root, otherRoot)] (differences, maxCount).
End compare.

(** * SHAMap: [compare] finds the differences

    The differences of two finite maps are [delta].  The walks of
    SHAMapDelta.v emit entries one after the other and stop when the count is
    used up: [feed].  The entries they emit are those of [delta], each once
    ([reps]), for trees of version 1. *)

Abbreviation entry := (uint256 * DeltaItem)%type.

(** ** The differences of two maps *)
Definition delta (m m' : gmap uint256 (list Z)) : Delta :=
  map_imap (λ k p, Some (mkItem k <$> p.1, mkItem k <$> p.2))
    (merge (λ a b, if decide (a = b) then None else Some (a, b)) m m').

Lemma delta_lookup m m' k v :
  delta m m' !! k = Some v ↔ m !! k ≠ m' !! k ∧ v = (mkItem k <$> m !! k, mkItem k <$> m' !! k).
Proof.
  unfold delta. rewrite map_lookup_imap, lookup_merge.
  destruct (m !! k) as [a|], (m' !! k) as [b|]; simpl; try case_decide; simpl; naive_solver.
Qed.

(** ** Emitting entries until the count is used up *)
Fixpoint feed (l : list entry) (s : Delta * Z) : bool * (Delta * Z) :=
  match l with
  | [] => (true, s)
  | (k, v) :: l => let '(go, s) := emit k v s in if go then feed l s else (false, s)
  end.

Lemma feed_app l l' s :
  feed (l ++ l') s = let '(go, s') := feed l s in if go then feed l' s' else (false, s').
Proof.
  revert s. induction l as [|[k v] l IH]; intros s; [done|]. simpl.
  destruct (negb _); [apply IH|done].
Qed.

(** The entries of a list of differences, each once. *)
Definition reps (E : list entry) (l l' : list SHAMapItem) : Prop :=
  NoDup E.*1 ∧ ∀ k v, (k, v) ∈ E ↔ delta (abs_items l) (abs_items l') !! k = Some v.

Definition disj (l l' : list SHAMapItem) : Prop :=
  ∀ x y, x ∈ l → y ∈ l' → item_key x ≠ item_key y.

Definition uniq (l : list SHAMapItem) : Prop := NoDup (item_key <$> l).

Lemma uniq_pairs l : uniq l ↔ NoDup (pair_of <$> l).*1.
Proof.
  unfold uniq. rewrite <- list_fmap_compose. done.
Qed.

Lemma abs_items_perm l l' : uniq l → l ≡ₚ l' → abs_items l = abs_items l'.
Proof.
  intros Hu Hp. apply list_to_map_proper; [by apply uniq_pairs|by apply fmap_Permutation].
Qed.

Lemma abs_items_none l k : (∀ x, x ∈ l → item_key x ≠ k) → abs_items l !! k = None.
Proof.
  intros Hl. apply not_elem_of_list_to_map_1.
  intros (p & -> & (x & -> & Hx)%list_elem_of_fmap)%list_elem_of_fmap. by apply (Hl x).
Qed.

Lemma abs_items_some l k d : abs_items l !! k = Some d → mkItem k d ∈ l.
Proof.
  intros H%elem_of_list_to_map_2. apply list_elem_of_fmap in H as ([k' d'] & [= -> ->] & Hx). done.
Qed.

Lemma abs_items_app l l' k :
  abs_items (l ++ l') !! k = match abs_items l !! k with Some d => Some d | None => abs_items l' !! k end.
Proof.
  unfold abs_items. rewrite fmap_app, list_to_map_app, lookup_union.
  destruct (_ !! k), (_ !! k); done.
Qed.

Lemma reps_perm E l l' m m' :
  uniq l → uniq l' → l ≡ₚ m → l' ≡ₚ m' → reps E m m' → reps E l l'.
Proof.
  intros Hl Hl' Hm Hm' HE. unfold reps. by rewrite (abs_items_perm l m), (abs_items_perm l' m').
Qed.

Lemma reps_key E l l' k v : reps E l l' → (k, v) ∈ E → ∃ x, x ∈ l ++ l' ∧ item_key x = k.
Proof.
  intros [_ HE] Hkv%HE. apply delta_lookup in Hkv as [Hne _].
  destruct (abs_items l !! k) as [d|] eqn:Hd.
  - exists (mkItem k d). apply abs_items_some in Hd. set_solver.
  - destruct (abs_items l' !! k) as [d|] eqn:Hd'; [|done].
    exists (mkItem k d). apply abs_items_some in Hd'. set_solver.
Qed.

(** Differences of parts with different keys add up. *)
Lemma reps_app E E' l l' m m' :
  disj (l ++ m) (l' ++ m') → reps E l m → reps E' l' m' → reps (E ++ E') (l ++ l') (m ++ m').
Proof.
  intros Hd HE HE'. pose proof HE as [Hn He]. pose proof HE' as [Hn' He']. split.
  - rewrite fmap_app. apply NoDup_app. split; [done|]. split; [|done].
    intros k ([k1 v] & -> & Hv)%list_elem_of_fmap ([k2 v'] & Hk & Hv')%list_elem_of_fmap. simpl in Hk. subst k2.
    destruct (reps_key _ _ _ _ _ HE Hv) as (x & Hx & Hxk).
    destruct (reps_key _ _ _ _ _ HE' Hv') as (y & Hy & Hyk).
    apply (Hd x y Hx Hy). simpl in *. congruence.
  - intros k v. rewrite elem_of_app, He, He', !delta_lookup, !abs_items_app.
    assert (∀ d, (abs_items l !! k = Some d ∨ abs_items m !! k = Some d) →
      abs_items l' !! k = None ∧ abs_items m' !! k = None) as Hside.
    { intros d Hdk. assert (∃ x, x ∈ l ++ m ∧ item_key x = k) as (x & Hx & Hxk).
      { exists (mkItem k d). split; [|done].
        destruct Hdk as [Hdk|Hdk]; apply abs_items_some in Hdk; set_solver. }
      split; apply abs_items_none; intros y Hy Hyk; apply (Hd x y); set_solver. }
    destruct (abs_items l !! k) as [a|] eqn:Ha.
    + destruct (Hside a) as [-> ->]; [auto|]. destruct (abs_items m !! k); simpl; naive_solver.
    + destruct (abs_items m !! k) as [b|] eqn:Hb.
      * destruct (Hside b) as [-> ->]; [auto|]. simpl. naive_solver.
      * naive_solver.
Qed.

Lemma abs_items_one x k : abs_items [x] !! k = if decide (item_key x = k) then Some (item_data x) else None.
Proof.
  unfold abs_items. simpl. case_decide as Hk; [subst; by rewrite lookup_insert_eq|].
  by rewrite lookup_insert_ne.
Qed.

Lemma reps_refl l : reps [] l l.
Proof.
  split; [constructor|]. intros k v. rewrite delta_lookup.
  split; [by intros ?%elem_of_nil|by intros [? _]].
Qed.

(** One item on one side, or one on each with the same key. *)
Lemma reps_one o o' k :
  (∀ x, o = Some x ∨ o' = Some x → item_key x = k) →
  reps (if decide (item_data <$> o = item_data <$> o') then [] else [(k, (o, o'))])
    (option_list o) (option_list o').
Proof.
  intros Hk.
  assert (∀ o j, (∀ x, o = Some x → item_key x = k) →
    abs_items (option_list o) !! j = if decide (k = j) then item_data <$> o else None) as Hone.
  { intros [x|] j Hx; simpl; [|by case_decide]. rewrite abs_items_one. by rewrite (Hx x eq_refl). }
  assert (∀ o, (∀ x, o = Some x → item_key x = k) → mkItem k <$> (item_data <$> o) = o) as Hmk.
  { intros [[kx dx]|] Hx; [|done]. simpl. by rewrite <- (Hx _ eq_refl). }
  split; [case_decide; simpl; [constructor|apply NoDup_singleton]|].
  intros j v. rewrite delta_lookup, !Hone by auto.
  destruct (decide (k = j)) as [<-|Hkj].
  - rewrite !Hmk by auto. case_decide as Hd.
    + split; [by intros ?%elem_of_nil|by intros [? _]].
    + rewrite list_elem_of_singleton. naive_solver.
  - split; [|by intros [? _]]. case_decide; [by intros ?%elem_of_nil|].
    rewrite list_elem_of_singleton. naive_solver.
Qed.

(** Differences seen from one of the two maps. *)
Definition reps_from (isFirstMap : bool) (E : list entry) (mine other : list SHAMapItem) : Prop :=
  if isFirstMap then reps E mine other else reps E other mine.

Lemma reps_from_app b E E' l l' m m' :
  disj (l ++ m) (l' ++ m') → reps_from b E l m → reps_from b E' l' m' →
  reps_from b (E ++ E') (l ++ l') (m ++ m').
Proof.
  intros Hd. destruct b; simpl; [by apply reps_app|]. apply reps_app.
  intros x y Hx Hy. apply Hd; set_solver.
Qed.

Lemma reps_from_one b o o' k :
  (∀ x, o = Some x ∨ o' = Some x → item_key x = k) →
  reps_from b (if decide (item_data <$> o = item_data <$> o') then [] else [(k, side b o o')])
    (option_list o) (option_list o').
Proof.
  intros Hk. destruct b; simpl; [by apply reps_one|].
  assert (reps (if decide (item_data <$> o' = item_data <$> o) then [] else [(k, (o', o))])
    (option_list o') (option_list o)) as H by (apply reps_one; naive_solver).
  destruct (decide (item_data <$> o' = item_data <$> o)), (decide (item_data <$> o = item_data <$> o'));
    done || congruence.
Qed.

(** ** Walking a branch *)
Fixpoint branch_entries (l : list SHAMapItem) (other : option SHAMapItem) (b : bool) : list entry :=
  match l with
  | [] => match other with Some o => [(item_key o, side b None (Some o))] | None => [] end
  | x :: l =>
      match other with
      | Some o =>
          if decide (item_key x = item_key o)
          then (if decide (item_data x = item_data o) then [] else [(item_key x, side b (Some x) (Some o))]) ++
               branch_entries l None b
          else (item_key x, side b (Some x) None) :: branch_entries l other b
      | None => (item_key x, side b (Some x) None) :: branch_entries l None b
      end
  end.

Lemma branch_entries_reps l b : ∀ other,
  uniq l → reps_from b (branch_entries l other b) l (option_list other).
Proof.
  induction l as [|x l IH]; intros other Hu; simpl.
  - destruct other as [o|]; [|destruct b; apply reps_refl].
    pose proof (reps_from_one b None (Some o) (item_key o)) as H. simpl in H. apply H. naive_solver.
  - apply NoDup_cons in Hu as [Hx Hu].
    assert (∀ y, y ∈ l → item_key x ≠ item_key y) as Hxl.
    { intros y Hy Heq. apply Hx. rewrite Heq. by apply list_elem_of_fmap_2. }
    assert (reps_from b [(item_key x, side b (Some x) None)] [x] []) as Hone.
    { pose proof (reps_from_one b (Some x) None (item_key x)) as H. simpl in H. apply H. naive_solver. }
    destruct other as [o|].
    + destruct (decide (item_key x = item_key o)) as [Hk|Hk].
      * apply (reps_from_app b _ _ [x] l [o] []).
        -- intros y z Hy Hz. rewrite app_nil_r in Hz.
           apply elem_of_app in Hy as [->%list_elem_of_singleton| ->%list_elem_of_singleton];
             rewrite <- ?Hk; by apply Hxl.
        -- assert (∀ y, Some x = Some y ∨ Some o = Some y → item_key y = item_key x) as Hxo by naive_solver.
           pose proof (reps_from_one b (Some x) (Some o) (item_key x) Hxo) as H. simpl in H.
           destruct (decide (Some (item_data x) = Some (item_data o))), (decide (item_data x = item_data o));
             done || congruence.
        -- exact (IH None Hu).
      * apply (reps_from_app b [_] _ [x] l [] [o]); [|done|exact (IH (Some o) Hu)].
        intros y z Hy Hz. rewrite app_nil_r in Hy. apply list_elem_of_singleton in Hy as ->.
        apply elem_of_app in Hz as [Hz| ->%list_elem_of_singleton]; auto.
    + apply (reps_from_app b [_] _ [x] l [] []); [|done|exact (IH None Hu)].
      intros y z Hy Hz. rewrite app_nil_r in Hy, Hz. apply list_elem_of_singleton in Hy as ->. auto.
Qed.

Definition stack_items (st : list Node) : list SHAMapItem := concat (map items st).
Definition stack_count (st : list Node) : nat := sum_list (map node_count st).

Lemma push_children_spec cs : ∀ st,
  stack_items (push_children cs st) ≡ₚ citems cs ++ stack_items st ∧
  stack_count (push_children cs st) =
    (sum_list (map (λ o, match o with Some c => node_count c | None => O end) cs) + stack_count st)%nat.
Proof.
  induction cs as [|[c|] cs IH]; intros st; simpl; [done|..].
  - destruct (IH (c :: st)) as [H1 H2]. split.
    + rewrite H1, citems_cons. unfold stack_items. simpl. solve_Permutation.
    + rewrite H2. unfold stack_count. simpl. lia.
  - by destruct (IH st).
Qed.

(** Once the other item is met, or when there is none, [emptyBranch] is set. *)
Lemma walkBranch_loop_spec other b fuel : ∀ st empty s,
  (stack_count st < fuel)%nat → (other = None → empty = true) →
  ∃ l, l ≡ₚ stack_items st ∧
    walkBranch_finish other b (walkBranch_loop fuel st other b empty s) =
    Some (feed (branch_entries l (if empty then None else other) b) s).
Proof.
  induction fuel as [|fuel IH]; intros st empty s Hf He; [lia|].
  destruct st as [|[x ty|v cs] st].
  - exists []. split; [done|]. destruct empty; [done|]. destruct other as [o|]; [|by specialize (He eq_refl)].
    cbn [walkBranch_finish walkBranch_loop branch_entries feed]. by destruct (emit _ _ s) as [[] ?].
  - assert (stack_count st < fuel)%nat as Hf' by (unfold stack_count in *; simpl in Hf; lia).
    assert (∀ e s, (other = None → e = true) → ∃ l, x :: l ≡ₚ stack_items (Leaf x ty :: st) ∧
      walkBranch_finish other b (walkBranch_loop fuel st other b e s) =
      Some (feed (branch_entries l (if e then None else other) b) s)) as HIH.
    { intros e s' He'. destruct (IH st e s' Hf' He') as (l & Hl & Hr). exists l. split; [|done].
      unfold stack_items. simpl. by rewrite Hl. }
    cbn [walkBranch_loop]. destruct empty.
    + destruct (emit (item_key x) (side b (Some x) None) s) as [go s'] eqn:Hem.
      destruct (HIH true s') as (l & Hl & Hr); [done|]. exists (x :: l). split; [done|].
      cbn [branch_entries feed]. rewrite Hem. by destruct go.
    + destruct other as [o|]; [|by specialize (He eq_refl)]. case_bool_decide as Hk; [case_bool_decide as Hd|].
      * destruct (HIH true s) as (l & Hl & Hr); [done|]. exists (x :: l). split; [done|].
        rewrite Hr. simpl. rewrite !decide_True by done. done.
      * destruct (emit (item_key x) (side b (Some x) (Some o)) s) as [go s'] eqn:Hem.
        destruct (HIH true s') as (l & Hl & Hr); [done|]. exists (x :: l). split; [done|].
        cbn [branch_entries]. rewrite decide_True, decide_False by done. cbn [app feed]. rewrite Hem. by destruct go.
      * destruct (emit (item_key x) (side b (Some x) None) s) as [go s'] eqn:Hem.
        destruct (HIH false s') as (l & Hl & Hr); [done|]. exists (x :: l). split; [done|].
        cbn [branch_entries]. rewrite decide_False by done. cbn [app feed]. rewrite Hem. by destruct go.
  - cbn [walkBranch_loop]. destruct (push_children_spec cs st) as [H1 H2].
    destruct (IH (push_children cs st) empty s) as (l & Hl & Hr); [|done|].
    + rewrite H2. unfold stack_count in *. simpl in Hf. lia.
    + exists l. split; [|done]. by rewrite Hl, H1.
Qed.

Lemma walkBranch_spec node other b s :
  uniq (items node) →
  ∃ E, walkBranch node other b s = Some (feed E s) ∧ reps_from b E (items node) (option_list other).
Proof.
  intros Hu. unfold walkBranch.
  destruct (walkBranch_loop_spec other b (S (node_count node)) [node]
    (match other with Some _ => false | None => true end) s) as (l & Hl & Hr).
  { unfold stack_count. simpl. lia. }
  { by intros ->. }
  rewrite Hr. eexists. split; [done|].
  assert ((if match other with Some _ => false | None => true end then None else other) = other) as ->
    by by destruct other.
  unfold stack_items in Hl. simpl in Hl. rewrite app_nil_r in Hl.
  assert (uniq l) as Hul by (unfold uniq in *; by rewrite Hl).
  pose proof (branch_entries_reps l b other Hul) as HE.
  destruct b; simpl in *; eapply reps_perm; try exact HE; try done; destruct other; simpl;
    repeat constructor; set_solver.
Qed.

(** ** Walking two trees *)
Definition fst_items (P : list (Node * Node)) : list SHAMapItem := concat (map (λ pr, items pr.1) P).
Definition snd_items (P : list (Node * Node)) : list SHAMapItem := concat (map (λ pr, items pr.2) P).
Definition fst_count (P : list (Node * Node)) : nat := sum_list (map (λ pr, node_count pr.1) P).

Lemma fst_items_app P Q : fst_items (P ++ Q) = fst_items P ++ fst_items Q.
Proof. unfold fst_items. by rewrite map_app, concat_app. Qed.
Lemma snd_items_app P Q : snd_items (P ++ Q) = snd_items P ++ snd_items Q.
Proof. unfold snd_items. by rewrite map_app, concat_app. Qed.
Lemma fst_count_app P Q : fst_count (P ++ Q) = (fst_count P + fst_count Q)%nat.
Proof. unfold fst_count. by rewrite map_app, sum_list_with_app || rewrite map_app, sum_list_app. Qed.

Lemma disj_sub l l' m m' :
  disj l l' → (∀ x, x ∈ m → x ∈ l) → (∀ x, x ∈ m' → x ∈ l') → disj m m'.
Proof. intros Hd Hm Hm' x y Hx Hy. auto. Qed.

Section walks.
Context (sha512Half : list Z → uint256) (T : TNType).
Context (Hlen : ∀ x, length (sha512Half x) = 32%nat) (HT : is_leaf_type T).
#[local] Abbreviation ok_hashes l := (collision_free sha512Half l).
#[local] Abbreviation keyed l := (keyed sha512Half T l).

Definition pnode (p : list Z) (n : Node) : Prop :=
  match n with Leaf _ _ => wf false T p n | Inner _ cs => body false T p cs end.

Lemma pnode_uniq p n : pnode p n → uniq (items n).
Proof.
  intros Hn. apply uniq_pairs, sorted_nodup.
  destruct n as [x ty|v cs]; [by eapply wf_sorted|by eapply body_sorted].
Qed.

Definition pair_ok (n m : Node) : Prop :=
  (∃ p, pnode p n ∧ pnode p m) ∧ keyed (items n) ∧ keyed (items m) ∧
  ok_hashes (hashed sha512Half n ++ hashed sha512Half m).

Fixpoint pairs_ok (P : list (Node * Node)) : Prop :=
  match P with
  | [] => True
  | (n, m) :: P =>
      pair_ok n m ∧ disj (items n ++ items m) (fst_items P ++ snd_items P) ∧ pairs_ok P
  end.

Lemma pairs_ok_app P Q :
  pairs_ok P → pairs_ok Q → disj (fst_items P ++ snd_items P) (fst_items Q ++ snd_items Q) →
  pairs_ok (P ++ Q).
Proof.
  intros HP HQ Hd. induction P as [|[n m] P IH]; [done|]. destruct HP as (Hok & Hnm & HP).
  split; [done|]. split.
  - intros x y Hx Hy. rewrite fst_items_app, snd_items_app, !elem_of_app in Hy.
    destruct (decide (y ∈ fst_items P ++ snd_items P)) as [Hyp|Hyp]; [by apply Hnm|].
    apply Hd; [|set_solver]. unfold fst_items, snd_items. simpl. set_solver.
  - apply IH; [done|]. eapply disj_sub; [exact Hd| |done]. unfold fst_items, snd_items. simpl. set_solver.
Qed.

Lemma pairs_ok_uniq P : pairs_ok P → uniq (fst_items P) ∧ uniq (snd_items P).
Proof.
  induction P as [|[n m] P IH]; [by repeat constructor|]. intros (((p & Hn & Hm) & _) & Hd & HP).
  destruct (IH HP) as [H1 H2]. apply pnode_uniq in Hn, Hm.
  unfold uniq, fst_items, snd_items in *. simpl. rewrite !fmap_app.
  split; apply NoDup_app; (split; [done|]; split; [|done]);
    intros k (x & -> & Hx)%list_elem_of_fmap (y & Hk & Hy)%list_elem_of_fmap; apply (Hd x y); set_solver.
Qed.

(** Two lists of branches. *)
Fixpoint branches_ok (ps : list (option Node * option Node)) : Prop :=
  match ps with
  | [] => True
  | (o, o') :: ps =>
      (∃ p, wf_opt false T p o ∧ wf_opt false T p o') ∧
      keyed (oitems o) ∧ keyed (oitems o') ∧
      ok_hashes (from_option (hashed sha512Half) [] o ++ from_option (hashed sha512Half) [] o') ∧
      disj (oitems o ++ oitems o') (citems ps.*1 ++ citems ps.*2) ∧ branches_ok ps
  end.

Definition onodes (os : list (option Node)) : nat :=
  sum_list (map (λ o, match o with Some c => node_count c | None => O end) os).

Lemma onodes_cons o os :
  onodes (o :: os) = (match o with Some c => node_count c | None => O end + onodes os)%nat.
Proof. done. Qed.

(** What the loop over the branches does: entries [E] for the parts [A] and [A'],
    and the pairs [P] left on the stack. *)
Definition branches_split (ps : list (option Node * option Node)) (E : list entry)
    (P : list (Node * Node)) : Prop :=
  ∃ A A', citems ps.*1 ≡ₚ A ++ fst_items P ∧ citems ps.*2 ≡ₚ A' ++ snd_items P ∧ reps E A A' ∧
    pairs_ok P ∧ disj (A ++ A') (fst_items P ++ snd_items P) ∧ (fst_count P ≤ onodes ps.*1)%nat.

Lemma branches_split_emit ps o o' E1 E P :
  disj (oitems o ++ oitems o') (citems ps.*1 ++ citems ps.*2) → reps E1 (oitems o) (oitems o') →
  branches_split ps E P → branches_split ((o, o') :: ps) (E1 ++ E) P.
Proof.
  intros Hd HE1 (A & A' & HA & HA' & HE & HP & HdP & Hc).
  exists (oitems o ++ A), (oitems o' ++ A'). rewrite !fmap_cons. cbn [fst snd]. rewrite !citems_cons, HA, HA', !(assoc_L (++)).
  split; [done|]. split; [done|]. split; [|split; [done|split]].
  - apply reps_app; [|done|done]. eapply disj_sub; [exact Hd|done|].
    intros x. rewrite HA, HA'. set_solver.
  - intros x y Hx Hy. destruct (decide (x ∈ A ++ A')) as [?|Hn]; [by apply HdP|].
    apply Hd; [set_solver|]. rewrite HA, HA'. set_solver.
  - rewrite onodes_cons. lia.
Qed.

Lemma branches_split_push ps c d E P p :
  disj (items c ++ items d) (citems ps.*1 ++ citems ps.*2) →
  wf false T p c → wf false T p d → keyed (items c) → keyed (items d) →
  ok_hashes (hashed sha512Half c ++ hashed sha512Half d) →
  branches_split ps E P → branches_split ((Some c, Some d) :: ps) E (P ++ [(c, d)]).
Proof.
  intros Hd Hc Hd' Kc Kd Hcf (A & A' & HA & HA' & HE & HP & HdP & Hcnt).
  assert (∀ n, wf false T p n → pnode p n) as Hpn.
  { intros [x ty|v cs] Hw; [done|]. apply wf_body in Hw as (q & [-> _] & Hb & _). done. }
  exists A, A'. rewrite !fmap_cons. cbn [fst snd]. rewrite !citems_cons, HA, HA', fst_items_app, snd_items_app.
  assert (fst_items [(c, d)] = items c ∧ snd_items [(c, d)] = items d) as [-> ->].
  { unfold fst_items, snd_items. simpl. by rewrite !app_nil_r. }
  split; [simpl; solve_Permutation|]. split; [simpl; solve_Permutation|]. split; [done|].
  assert (∀ x, x ∈ A ++ A' ++ fst_items P ++ snd_items P → x ∈ citems ps.*1 ++ citems ps.*2) as Hsub.
  { intros x Hx. rewrite HA, HA'. set_solver. }
  split; [|split].
  - apply pairs_ok_app; [done| |].
    + split; [split; [by exists p; auto|done]|]. split; [by intros x y _ Hy%elem_of_nil|done].
    + unfold fst_items at 2, snd_items at 2. simpl. rewrite !app_nil_r.
      intros x y Hx Hy Heq. apply (Hd y x); [done|apply Hsub; set_solver|done].
  - intros x y Hx Hy. rewrite !elem_of_app in Hy.
    destruct (decide (y ∈ items c ++ items d)) as [Hcd|Hcd].
    + intros Heq. apply (Hd y x Hcd); [apply Hsub; set_solver|done].
    + apply HdP; [done|]. set_solver.
  - rewrite fst_count_app, onodes_cons. unfold fst_count at 2. simpl. lia.
Qed.

(** Equal hashes of two branches at the same path: equal branches. *)
Lemma same_hash_same p o o' :
  wf_opt false T p o → wf_opt false T p o' → keyed (oitems o) → keyed (oitems o') →
  ok_hashes (from_option (hashed sha512Half) [] o ++ from_option (hashed sha512Half) [] o') →
  getChildHash sha512Half o = getChildHash sha512Half o' → o = o'.
Proof.
  intros Ho Ho' Ko Ko' Hcf Heq. destruct o as [c|], o' as [d|]; simpl in *; [|exfalso..|done].
  - f_equal. by eapply (node_hash_inj sha512Half Hlen false T HT).
  - rewrite app_nil_r in Hcf. by eapply hash_nonzero, Heq.
  - by eapply hash_nonzero, eq_sym, Heq.
Qed.

Lemma wf_opt_uniq p o : wf_opt false T p o → uniq (oitems o).
Proof.
  destruct o as [c|]; [|by intros; apply NoDup_nil_2]. intros Hw.
  by eapply uniq_pairs, sorted_nodup, wf_sorted.
Qed.

Lemma compare_branches_spec ps : branches_ok ps → ∀ S s,
  ∃ E P S', branches_split ps E P ∧
    compare_branches sha512Half ps S s =
    let '(go, s') := feed E s in Some (go, (if go then P ++ S else S'), s').
Proof.
  induction ps as [|[o o'] ps IH]; intros Hok S s.
  { exists [], [], S. split; [|done]. exists [], [].
    split; [done|]. split; [done|]. split; [apply reps_refl|]. split; [done|].
    split; [by intros x y Hx%elem_of_nil|unfold fst_count; simpl; lia]. }
  destruct Hok as ((p & Ho & Ho') & Ko & Ko' & Hcf & Hd & Hok). specialize (IH Hok).
  simpl. case_bool_decide as Hh.
  - destruct (IH S s) as (E & P & S' & Hsplit & Hrun). exists E, P, S'. split; [|done].
    apply (branches_split_emit ps o o' [] E P); [done| |done].
    rewrite (same_hash_same p o o') by done. apply reps_refl.
  - destruct o as [c|], o' as [d|]; [| | |done].
    + destruct (IH ((c, d) :: S) s) as (E & P & S' & Hsplit & Hrun).
      exists E, (P ++ [(c, d)]), S'. split; [by eapply branches_split_push|].
      rewrite Hrun. destruct (feed E s) as [[] s']; [|done]. by rewrite <- (assoc_L (++)).
    + destruct (walkBranch_spec c None true s) as (E1 & -> & HE1); [by eapply (wf_opt_uniq p (Some c))|].
      destruct (IH S (feed E1 s).2) as (E & P & S' & Hsplit & Hrun).
      exists (E1 ++ E), P, (if (feed E1 s).1 then S' else S). split; [by apply branches_split_emit|].
      rewrite feed_app. destruct (feed E1 s) as [[] s1]; [exact Hrun|done].
    + destruct (walkBranch_spec d None false s) as (E1 & -> & HE1); [by eapply (wf_opt_uniq p (Some d))|].
      destruct (IH S (feed E1 s).2) as (E & P & S' & Hsplit & Hrun).
      exists (E1 ++ E), P, (if (feed E1 s).1 then S' else S). split; [by apply branches_split_emit|].
      rewrite feed_app. destruct (feed E1 s) as [[] s1]; [exact Hrun|done].
Qed.

(** Branches from number [off] on of a node at [p]. *)
Definition branches_from (p : list Z) (X : list (list Z)) (off : nat) (os : list (option Node)) : Prop :=
  ∀ i c, os !! i = Some (Some c) → wf false T (p ++ [Z.of_nat (off + i)]) c ∧
    keyed (items c) ∧ ∀ x, x ∈ hashed sha512Half c → x ∈ X.

Lemma branches_from_tail p X off o os :
  branches_from p X off (o :: os) → branches_from p X (S off) os.
Proof.
  intros H i c Hi. replace (S off + i)%nat with (off + S i)%nat by lia. by apply (H (S i)).
Qed.

Lemma branches_from_nib p X off os x :
  (length p < 64)%nat → branches_from p X off os → x ∈ citems os →
  Z.of_nat off ≤ nib (item_key x) (length p).
Proof.
  intros Hl H (i & c & Hi & Hx)%citems_elem. destruct (H i c Hi) as (Hw & _).
  destruct (wf_items false T _ _ Hw x Hx) as [Hk Hp]. apply prefix_key_nib in Hp; [lia|done..].
Qed.

Lemma branches_from_head p X off o os :
  (length p < 64)%nat → branches_from p X off (o :: os) →
  wf_opt false T (p ++ [Z.of_nat off]) o ∧ keyed (oitems o) ∧
  (∀ x, x ∈ from_option (hashed sha512Half) [] o → x ∈ X) ∧
  (∀ x, x ∈ oitems o → nib (item_key x) (length p) = Z.of_nat off).
Proof.
  intros Hl H. destruct o as [c|]; simpl.
  - destruct (H 0%nat c eq_refl) as (Hw & Hkey & Hx). rewrite Nat.add_0_r in Hw.
    split; [done|]. split; [done|]. split; [done|]. intros x Hxc.
    destruct (wf_items false T _ _ Hw x Hxc) as [Hk Hp]. by apply prefix_key_nib in Hp.
  - split; [done|]. split; [by intros _ x Hx%elem_of_nil|]. by split; intros x Hx%elem_of_nil.
Qed.

(** The branches of two nodes at the same path. *)
Lemma branches_ok_zip p X cs : (length p < 64)%nat → ok_hashes X → ∀ off ds,
  branches_from p X off cs → branches_from p X off ds →
  length cs = length ds → branches_ok (zip_with pair cs ds).
Proof.
  intros Hl HX. induction cs as [|o cs IH]; intros off [|o' ds] Hc Hd Hlen'; try done.
  simpl in Hlen'. apply branches_from_tail in Hc as Hc', Hd as Hd'.
  destruct (branches_from_head p X off o cs Hl Hc) as (W & K & H & N).
  destruct (branches_from_head p X off o' ds Hl Hd) as (W' & K' & H' & N').
  simpl. split; [by eexists|]. split; [done|]. split; [done|].
  split; [eapply collision_free_sub, HX; intros x [?|?]%elem_of_app; auto|].
  split; [|apply (IH (S off)); done || lia].
  change (list_fmap _ _ fst (zip_with pair cs ds)) with (zip_with pair cs ds).*1.
  change (list_fmap _ _ snd (zip_with pair cs ds)) with (zip_with pair cs ds).*2.
  rewrite fst_zip, snd_zip by lia. intros x y Hx Hy Heq.
  assert (nib (item_key x) (length p) = Z.of_nat off) by (apply elem_of_app in Hx as [?|?]; auto).
  assert (Z.of_nat (S off) ≤ nib (item_key y) (length p))
    by (apply elem_of_app in Hy as [?|?]; eauto using branches_from_nib).
  rewrite Heq in *. lia.
Qed.

Lemma bodies_branches p v w cs ds :
  body false T p cs → body false T p ds → keyed (citems cs) → keyed (citems ds) →
  ok_hashes (hashed sha512Half (Inner v cs) ++ hashed sha512Half (Inner w ds)) →
  branches_ok (zip_with pair cs ds) ∧ (zip_with pair cs ds).*1 = cs ∧ (zip_with pair cs ds).*2 = ds.
Proof.
  intros (_ & Hl & Lc & Hc) (_ & _ & Ld & Hd) Kc Kd Hcf. split.
  - eapply (branches_ok_zip p _ cs Hl Hcf 0); [| |congruence]; intros i c Hi; simpl;
      (split; [auto|split]).
    + intros E x Hx. apply (Kc E), citems_elem. eauto.
    + intros x Hx. apply elem_of_app. left. by eapply hashed_child.
    + intros E x Hx. apply (Kd E), citems_elem. eauto.
    + intros x Hx. apply elem_of_app. right. by eapply hashed_child.
  - by rewrite fst_zip, snd_zip by lia.
Qed.

Lemma leaf_pair_reps x y :
  ∃ E, reps E [x] [y] ∧ ∀ (next : Delta * Z → option (bool * (Delta * Z))) s,
    (if bool_decide (item_key x = item_key y)
     then if bool_decide (item_data x = item_data y) then next s
          else let '(go, s) := emit (item_key x) (Some x, Some y) s in
               if go then next s else Some (false, s)
     else let '(go, s) := emit (item_key x) (Some x, None) s in
          if go then let '(go, s) := emit (item_key y) (None, Some y) s in
                     if go then next s else Some (false, s)
          else Some (false, s)) =
    let '(go, s) := feed E s in if go then next s else Some (false, s).
Proof.
  case_bool_decide as Hk; [case_bool_decide as Hd|].
  - exists []. split; [|done]. destruct x, y. simpl in *. subst. apply reps_refl.
  - exists [(item_key x, (Some x, Some y))]. split.
    + pose proof (reps_one (Some x) (Some y) (item_key x)) as H. rewrite decide_False in H by naive_solver.
      apply H. naive_solver.
    + intros next s. cbn [feed]. by destruct (emit _ _ s) as [[] ?].
  - exists ([(item_key x, (Some x, None))] ++ [(item_key y, (None, Some y))]). split.
    + apply (reps_app _ _ [x] [] [] [y]).
      * intros a b Ha Hb. simpl in Ha, Hb. apply list_elem_of_singleton in Ha as ->, Hb as ->. done.
      * pose proof (reps_one (Some x) None (item_key x)) as H. simpl in H. apply H. naive_solver.
      * pose proof (reps_one None (Some y) (item_key y)) as H. simpl in H. apply H. naive_solver.
    + intros next s. cbn [app feed]. destruct (emit (item_key x) _ s) as [[] s']; [|done].
      by destruct (emit _ _ s') as [[] ?].
Qed.

(** A pair whose entries are [E1] is dealt with and the rest of the stack follows. *)
Lemma feed_next E1 S n m next :
  pairs_ok ((n, m) :: S) → reps E1 (items n) (items m) →
  (∀ s, ∃ E, next s = Some (feed E s) ∧ reps E (fst_items S) (snd_items S)) →
  ∀ s, ∃ E, (let '(go, s) := feed E1 s in if go then next s else Some (false, s)) = Some (feed E s) ∧
    reps E (fst_items ((n, m) :: S)) (snd_items ((n, m) :: S)).
Proof.
  intros (_ & Hd & _) HE1 Hnext s. destruct (Hnext (feed E1 s).2) as (E & Hrun & HE).
  exists (E1 ++ E). rewrite feed_app. split; [|by apply reps_app].
  destruct (feed E1 s) as [[] s']; [exact Hrun|done].
Qed.

Lemma compare_loop_spec fuel : ∀ S s,
  (fst_count S < fuel)%nat → pairs_ok S →
  ∃ E, compare_loop sha512Half fuel S s = Some (feed E s) ∧ reps E (fst_items S) (snd_items S).
Proof.
  induction fuel as [|fuel IH]; intros S s Hf Hok; [lia|]. destruct S as [|[n m] S].
  { exists []. split; [done|]. apply reps_refl. }
  pose proof Hok as (((p & Hn & Hm) & Kn & Km & Hcf) & Hd & HS).
  assert (∀ s, ∃ E, compare_loop sha512Half fuel S s = Some (feed E s) ∧
    reps E (fst_items S) (snd_items S)) as Hnext.
  { intros s'. apply IH; [|done]. unfold fst_count in *. simpl in Hf. destruct n; simpl in Hf; lia. }
  cbn [compare_loop]. destruct n as [x tx|v cs], m as [y ty|w ds].
  - destruct (leaf_pair_reps x y) as (E1 & HE1 & ->). by eapply feed_next.
  - destruct (walkBranch_spec (Inner w ds) (Some x) false s) as (E1 & -> & HE1); [by eapply pnode_uniq|].
    destruct (feed_next E1 S _ _ _ Hok HE1 Hnext s) as (E & Hrun & HE). exists E. split; [|done].
    rewrite <- Hrun. by destruct (feed E1 s) as [[] ?].
  - destruct (walkBranch_spec (Inner v cs) (Some y) true s) as (E1 & -> & HE1); [by eapply pnode_uniq|].
    destruct (feed_next E1 S _ _ _ Hok HE1 Hnext s) as (E & Hrun & HE). exists E. split; [|done].
    rewrite <- Hrun. by destruct (feed E1 s) as [[] ?].
  - destruct (bodies_branches p v w cs ds) as (Hb & H1 & H2); [done..|].
    destruct (compare_branches_spec _ Hb S s) as (E1 & P & S' & (A & A' & HA & HA' & HE1 & HP & HdP & Hcnt) & ->).
    rewrite H1 in HA, Hcnt. rewrite H2 in HA'.
    assert (disj (citems cs ++ citems ds) (fst_items S ++ snd_items S)) as Hd' by exact Hd.
    assert (∀ x, x ∈ A ++ A' ++ fst_items P ++ snd_items P → x ∈ citems cs ++ citems ds) as Hsub.
    { intros x Hx. rewrite HA, HA'. set_solver. }
    assert (pairs_ok (P ++ S)) as HPS.
    { apply pairs_ok_app; [done..|]. eapply disj_sub; [exact Hd'| |done]. intros x Hx. apply Hsub. set_solver. }
    destruct (IH (P ++ S) (feed E1 s).2) as (E & Hrun & HE).
    { rewrite fst_count_app. unfold fst_count in *. simpl in Hf. unfold onodes in Hcnt. lia. }
    { done. }
    exists (E1 ++ E). rewrite feed_app. split; [by destruct (feed E1 s) as [[] s1]|].
    destruct (pairs_ok_uniq _ Hok) as [U1 U2].
    eapply reps_perm; [exact U1|exact U2| | |apply (reps_app E1 E A (fst_items (P ++ S)) A' (snd_items (P ++ S))); [|exact HE1|exact HE]].
    + unfold fst_items at 1. simpl. rewrite items_inner, HA, fst_items_app. unfold fst_items. solve_Permutation.
    + unfold snd_items at 1. simpl. rewrite items_inner, HA', snd_items_app. unfold snd_items. solve_Permutation.
    + rewrite fst_items_app, snd_items_app. intros x y Hx Hy.
      destruct (decide (y ∈ fst_items P ++ snd_items P)) as [?|Hy']; [by apply HdP|].
      apply Hd'; [apply Hsub; set_solver|]. set_solver.
Qed.
End walks.

(** ** What is found *)
Lemma feed_spec E : ∀ d m,
  NoDup E.*1 → (∀ k, k ∈ E.*1 → d !! k = None) →
  let n := Z.to_nat (Z.max 1 m) in
  let '(go, (d', _)) := feed E (d, m) in
  go = bool_decide (E = [] ∨ (length E < n)%nat) ∧
  d' = list_to_map (if go then E else take n E) ∪ d.
Proof.
  induction E as [|[k v] E IH]; intros d m Hnd Hd.
  { split; [symmetry; apply bool_decide_true; by left|]. simpl. by rewrite (left_id_L ∅ (∪)). }
  cbn zeta. apply NoDup_cons in Hnd as [Hk Hnd]. change ((k, v).1) with k in Hk.
  change (k ∉ E.*1) in Hk. change (NoDup E.*1) in Hnd.
  cbn [feed emit fst snd]. unfold delta_insert. rewrite Hd by (simpl; set_solver).
  assert (∀ l, (∀ j, j ∈ l.*1 → j ∈ E.*1) →
    list_to_map l ∪ <[k := v]> d = (list_to_map ((k, v) :: l) ∪ d : Delta)) as Hmove.
  { intros l Hl. simpl. rewrite <- insert_union_l. symmetry. apply insert_union_r.
    apply not_elem_of_list_to_map_1. intros Hj. by apply Hk, Hl. }
  destruct (Z.leb_spec (m - 1) 0) as [Hm|Hm]; simpl negb; cbv iota.
  - replace (Z.to_nat (Z.max 1 m)) with 1%nat by lia. split.
    + symmetry. apply bool_decide_false. intros [?|Hl]; [done|]. simpl in Hl. lia.
    + simpl. by rewrite <- insert_union_l, (left_id_L ∅ (∪)).
  - specialize (IH (<[k := v]> d) (m - 1) Hnd). simpl in IH.
    destruct (feed E (<[k := v]> d, m - 1)) as [go [d' m']].
    destruct IH as [Hgo ->].
    { intros j Hj. rewrite lookup_insert_ne by (intros ->; done). apply Hd. simpl. set_solver. }
    replace (Z.to_nat (Z.max 1 m)) with (S (Z.to_nat (Z.max 1 (m - 1)))) by lia.
    subst go. split.
    + apply bool_decide_ext. split.
      * intros [->|Hlt]; right; simpl; lia.
      * intros [?|Hlt]; [done|]. right. simpl in Hlt. lia.
    + rewrite Hmove; [by destruct (bool_decide _)|].
      destruct (bool_decide _); [done|]. intros j (e & -> & He)%list_elem_of_fmap.
      apply list_elem_of_fmap. exists e. split; [done|]. by eapply subseteq_take.
Qed.

Lemma reps_map E l l' :
  reps E l l' → list_to_map E = delta (abs_items l) (abs_items l') ∧
  length E = size (delta (abs_items l) (abs_items l')).
Proof.
  intros [Hnd HE].
  assert (list_to_map E = delta (abs_items l) (abs_items l')) as Hm.
  { apply map_eq. intros k. apply option_eq. intros v. rewrite <- HE.
    symmetry. by apply elem_of_list_to_map. }
  split; [done|]. rewrite <- Hm.
  rewrite <- length_map_to_list. symmetry. by apply Permutation_length, map_to_list_to_map.
Qed.

Lemma take_submap (E : list entry) n :
  NoDup E.*1 → (list_to_map (take n E) : Delta) ⊆ list_to_map E ∧
  size (list_to_map (take n E) : Delta) = Nat.min n (length E).
Proof.
  intros Hnd. assert (NoDup (take n E).*1) as Ht.
  { rewrite fmap_take. rewrite <- (take_drop n E.*1) in Hnd. by apply NoDup_app in Hnd as [? _]. }
  split.
  - apply map_subseteq_spec. intros k v. rewrite <- !elem_of_list_to_map by done. apply subseteq_take.
  - by rewrite <- length_map_to_list, (Permutation_length (map_to_list_to_map _ Ht)), length_take.
Qed.

Section compare_spec.
Context (sha512Half : list Z → uint256) (T : TNType).
Context (Hlen : ∀ x, length (sha512Half x) = 32%nat) (HT : is_leaf_type T).

Lemma compare_spec r s maxCount :
  wf_root false T r → wf_root false T s →
  keyed sha512Half T (items r) → keyed sha512Half T (items s) →
  collision_free sha512Half (hashed sha512Half r ++ hashed sha512Half s) →
  let D := delta (abs r) (abs s) in
  ∃ d, compare sha512Half r s ∅ maxCount = Some (bool_decide (D = ∅ ∨ Z.of_nat (size D) < maxCount), d) ∧
    (if bool_decide (D = ∅ ∨ Z.of_nat (size D) < maxCount) then d = D
     else d ⊆ D ∧ Z.of_nat (size d) = Z.max 1 maxCount).
Proof.
  intros Hr Hs Kr Ks Hcf D. unfold compare. case_bool_decide as Hh.
  - assert (r = s) as <- by by eapply (root_hash_inj sha512Half Hlen false T HT).
    assert (D = ∅) as HD.
    { apply map_eq. intros k. rewrite lookup_empty. apply eq_None_not_Some. intros [v Hv].
      by apply delta_lookup in Hv as [? _]. }
    rewrite bool_decide_true by by left. eauto.
  - assert (pairs_ok sha512Half T [(r, s)]) as Hok.
    { split; [|split; [by intros x y _ Hy%elem_of_nil|done]]. split; [|done]. exists [].
      destruct r as [|v cs], s as [|w ds]; try done. split; [apply Hr|apply Hs]. }
    destruct (compare_loop_spec sha512Half T Hlen HT (S (node_count r)) [(r, s)] (∅, maxCount))
      as (E & -> & HE); [unfold fst_count; simpl; lia|done|].
    assert (fst_items [(r, s)] = items r ∧ snd_items [(r, s)] = items s) as [E1 E2].
    { unfold fst_items, snd_items. simpl. by rewrite !app_nil_r. }
    rewrite E1, E2 in HE. destruct (reps_map _ _ _ HE) as [Hmap Hsize].
    change (list_to_map E = D) in Hmap. change (length E = size D) in Hsize.
    pose proof (feed_spec E ∅ maxCount (proj1 HE) (λ k _, lookup_empty k)) as Hfeed. cbn zeta in Hfeed.
    destruct (feed E (∅, maxCount)) as [go [d m]]. destruct Hfeed as [Hgo Hd].
    rewrite (right_id_L ∅ (∪)) in Hd. exists d. cbn [fmap option_fmap option_map fst snd].
    assert (E = [] ↔ D = ∅) as Hnil.
    { rewrite <- (map_size_empty_iff D), <- Hsize. by destruct E. }
    assert (bool_decide (D = ∅ ∨ Z.of_nat (size D) < maxCount) = go) as ->.
    { rewrite Hgo. apply bool_decide_ext. rewrite <- Hnil, Hsize.
      split; intros [?|?]; auto; destruct (decide (E = [])); auto; right; [lia|].
      assert (length E ≠ 0%nat) by by destruct E. lia. }
    split; [done|]. destruct go; [by rewrite Hd|].
    symmetry in Hgo. apply bool_decide_eq_false in Hgo.
    destruct (take_submap E (Z.to_nat (Z.max 1 maxCount)) (proj1 HE)) as [Hsub Hsz].
    rewrite Hd. split; [by rewrite <- Hmap|]. rewrite Hsz.
    assert (¬ (length E < Z.to_nat (Z.max 1 maxCount))%nat) by naive_solver. lia.
Qed.
End compare_spec.
