(* ===== verification/SHAMapTheorems.v ===== *)
(** * SHAMap: theorems

    Runs of operations on a map of either version, its hash, its order, its
    conversion between versions and the source's own check of its structure. *)

From stdpp Require Import prelude list gmap sorting.
From Stdlib Require Import ZArith Lia.
From S2P Require Import Prelude.
From S2P Require Import BaseUint.
From S2P Require Import BaseUintTheorems.
From S2P Require Import SHAMapNodeID.
From S2P Require Import SHAMap.
From S2P Require Import SHAMapSpec.
From S2P Require Import SHAMapRefine.
From S2P Require Import SHAMapIter.
From S2P Require Import SHAMapHash.
From S2P Require Import SHAMapDelta.

(** ** Runs of operations *)
Inductive MapOp :=
  | AddItem (item : SHAMapItem)
  | UpdateItem (item : SHAMapItem)
  | DelItem (k : uint256).

Definition op_key (op : MapOp) : uint256 :=
  match op with AddItem i | UpdateItem i => item_key i | DelItem k => k end.
Definition op_items (op : MapOp) : list SHAMapItem :=
  match op with AddItem i | UpdateItem i => [i] | DelItem _ => [] end.

Lemma abs_delete v2 T root r k d :
  wf_root v2 T root → items root ≡ₚ mkItem k d :: items r → abs r = delete k (abs root).
Proof.
  intros Hwf Hp. rewrite (abs_perm v2 T root _ Hwf Hp). unfold abs_items. simpl.
  rewrite delete_insert_id; [done|]. apply (abs_items_none (items r)). intros x Hx Hxk.
  pose proof (root_nodup v2 T root Hwf) as Hnd. rewrite Hp in Hnd. simpl in Hnd.
  apply NoDup_cons in Hnd as [Hni _]. apply Hni. simpl. rewrite <- Hxk.
  apply list_elem_of_fmap. exists (pair_of x). split; [done|]. by apply list_elem_of_fmap_2.
Qed.

Section runs.
Context (sha512Half : list Z → uint256) (isTransaction hasMeta : bool).

Definition apply_op (root : Node) (op : MapOp) : option (bool * Node) :=
  match op with
  | AddItem item => addGiveItem root item isTransaction hasMeta
  | UpdateItem item => updateGiveItem sha512Half root item isTransaction hasMeta
  | DelItem k => delItem root k
  end.
Fixpoint run (root : Node) (ops : list MapOp) : option (list bool * Node) :=
  match ops with
  | [] => Some ([], root)
  | op :: ops =>
      match apply_op root op with
      | None => None
      | Some (b, root) => (λ r, (b :: r.1, r.2)) <$> run root ops
      end
  end.

(** The same operations on a finite map: adding an item of less than twelve bytes under a new key
    and updating a key that is not there are not allowed. *)
Definition map_op (m : gmap uint256 (list Z)) (op : MapOp) : option (bool * gmap uint256 (list Z)) :=
  match op with
  | AddItem i =>
      match m !! item_key i with
      | Some _ => Some (false, m)
      | None => if large_enough i then Some (true, <[item_key i := item_data i]> m) else None
      end
  | UpdateItem i => match m !! item_key i with Some _ => Some (true, <[item_key i := item_data i]> m) | None => None end
  | DelItem k => Some (match m !! k with Some _ => (true, delete k m) | None => (false, m) end)
  end.
Fixpoint map_run (m : gmap uint256 (list Z)) (ops : list MapOp) : option (list bool * gmap uint256 (list Z)) :=
  match ops with
  | [] => Some ([], m)
  | op :: ops => '(b, m) ← map_op m op; '(bs, m) ← map_run m ops; Some (b :: bs, m)
  end.

(** Keys of 32 bytes, and no update to less than twelve bytes, which no assertion stops. *)
Definition op_wf (op : MapOp) : Prop :=
  is_u256 (op_key op) ∧ match op with UpdateItem i => (12 ≤ length (item_data i))%nat | _ => True end.

#[local] Abbreviation T := (leaf_type isTransaction hasMeta).

(** Items with the same key and different data have different hashes. *)
Definition leaves_distinct (l : list SHAMapItem) : Prop :=
  ∀ x y, x ∈ l → y ∈ l → item_key x = item_key y →
    sha512Half (leaf_preimage x T) = sha512Half (leaf_preimage y T) → x = y.

Lemma leaf_type_ok : is_leaf_type T.
Proof. by destruct isTransaction, hasMeta. Qed.

Lemma abs_cons v2 r x l :
  wf_root v2 T r → items r ≡ₚ x :: l → abs r = <[item_key x := item_data x]> (abs_items l).
Proof. intros Hr Hp. by rewrite (abs_perm v2 T r _ Hr Hp). Qed.

Lemma apply_op_spec v2 root op :
  wf_root v2 T root → op_wf op → leaves_distinct (op_items op ++ items root) →
  match map_op (abs root) op with
  | None => apply_op root op = None
  | Some (b, m) => ∃ r, apply_op root op = Some (b, r) ∧ wf_root v2 T r ∧ abs r = m ∧
      ∀ x, x ∈ items r → x ∈ op_items op ++ items root
  end.
Proof.
  intros Hwf [Hk Hup] Hd.
  assert (∀ r, wf_root v2 T r → (∀ k d, abs r !! k = Some d → abs root !! k = Some d ∨ mkItem k d ∈ op_items op) →
    ∀ x, x ∈ items r → x ∈ op_items op ++ items root) as Hsub.
  { intros r Hr Hlk [k d] Hx. apply (abs_lookup v2 T r Hr), Hlk in Hx as [Hx|Hx]; [|set_solver].
    apply (abs_lookup v2 T) in Hx; [set_solver|done]. }
  destruct op as [i|i|k]; simpl in *.
  - pose proof (addGiveItem_spec v2 T root i isTransaction hasMeta Hwf Hk) as Ha.
    pose proof (addGiveItem_small v2 T root i isTransaction hasMeta Hwf Hk) as Hs.
    destruct (abs root !! item_key i) as [d|] eqn:Hl.
    { exists root. split; [|set_solver]. by destruct (large_enough i); [apply Ha|apply Hs]. }
    destruct (large_enough i); [|by apply Hs].
    destruct (Ha eq_refl eq_refl) as (r & -> & Hr & Hp). exists r. split; [done|]. split; [done|].
    split; [by eapply abs_cons|]. intros x. rewrite Hp. set_solver.
  - pose proof (updateGiveItem_spec sha512Half v2 T leaf_type_ok root i isTransaction hasMeta Hwf Hk (proj2 (large_enough_length i) Hup) eq_refl) as Hu.
    destruct (abs root !! item_key i) as [d|] eqn:Hl.
    + destruct Hu as (r & -> & Hr & Ha); [intros x Hx; apply Hd; set_solver|].
      exists r. split; [done|]. split; [done|]. split; [done|]. apply Hsub; [done|].
      intros k d'. rewrite Ha. destruct (decide (k = item_key i)) as [->|Hne].
      * rewrite lookup_insert_eq. intros [= <-]. right. destruct i. set_solver.
      * rewrite lookup_insert_ne by done. auto.
    + apply Hu. intros x Hx. apply Hd; set_solver.
  - pose proof (delItem_spec v2 T root k Hwf Hk) as Hx.
    destruct (abs root !! k) as [d|] eqn:Hl; [|exists root; set_solver].
    destruct Hx as (r & -> & Hr & Hp). exists r. split; [done|]. split; [done|]. split.
    + by eapply (abs_delete v2 T root).
    + intros x Hx'. rewrite Hp. set_solver.
Qed.

Lemma run_spec v2 ops : ∀ root,
  wf_root v2 T root → Forall op_wf ops →
  leaves_distinct (concat (map op_items ops) ++ items root) →
  match map_run (abs root) ops with
  | None => run root ops = None
  | Some (answers, m) => ∃ r, run root ops = Some (answers, r) ∧ wf_root v2 T r ∧ abs r = m
  end.
Proof.
  induction ops as [|op ops IH]; intros root Hwf Hk Hd; [by exists root|].
  apply Forall_cons in Hk as [Hk Hks]. simpl.
  assert (leaves_distinct (op_items op ++ items root)) as Hd1.
  { intros x y Hx Hy. apply Hd; simpl; set_solver. }
  pose proof (apply_op_spec v2 root op Hwf Hk Hd1) as Hop.
  destruct (map_op (abs root) op) as [[b m]|]; [|by simpl; rewrite Hop].
  destruct Hop as (r & -> & Hr & <- & Hsub). cbn [mbind option_bind].
  assert (leaves_distinct (concat (map op_items ops) ++ items r)) as Hd2.
  { intros x y Hx Hy. apply Hd; simpl; rewrite !elem_of_app in *;
      [destruct Hx as [?|Hx%Hsub]|destruct Hy as [?|Hy%Hsub]]; set_solver. }
  specialize (IH r Hr Hks Hd2). destruct (map_run (abs r) ops) as [[bs m']|]; cbn [mbind option_bind]; [|by rewrite IH].
  destruct IH as (r' & -> & Hr' & Ha). by exists r'.
Qed.

Lemma new_root_wf v2 : wf_root v2 T (new_root v2) ∧ abs (new_root v2) = ∅.
Proof.
  split; [|done]. split; [by destruct v2|]. apply body_empty; [constructor|simpl; lia].
Qed.

(** The maps that operations make of an empty one. *)
Definition reach (v2 : bool) (r : Node) : Prop :=
  ∃ ops answers, Forall op_wf ops ∧ leaves_distinct (concat (map op_items ops)) ∧
    run (new_root v2) ops = Some (answers, r).

Lemma reach_wf v2 r : reach v2 r → wf_root v2 T r.
Proof.
  intros (ops & answers & Hk & Hd & Hrun). destruct (new_root_wf v2) as [Hw Ha].
  assert (leaves_distinct (concat (map op_items ops) ++ items (new_root v2))) as Hd' by (by rewrite app_nil_r).
  pose proof (run_spec v2 ops (new_root v2) Hw Hk Hd') as Hs.
  destruct (map_run (abs (new_root v2)) ops) as [[bs m]|]; [|congruence].
  destruct Hs as (r' & Hrun' & Hr' & _). rewrite Hrun in Hrun'. by injection Hrun' as _ <-.
Qed.
End runs.

Lemma shamap_run_defined sha512Half isTransaction hasMeta v2 ops :
  Forall op_wf ops → leaves_distinct sha512Half isTransaction hasMeta (concat (map op_items ops)) →
  match map_run ∅ ops with
  | None => run sha512Half isTransaction hasMeta (new_root v2) ops = None
  | Some (answers, m) => ∃ r, run sha512Half isTransaction hasMeta (new_root v2) ops = Some (answers, r) ∧
      wf_root v2 (leaf_type isTransaction hasMeta) r ∧ abs r = m
  end.
Proof.
  intros Hk Hd. destruct (new_root_wf isTransaction hasMeta v2) as [Hw Ha].
  assert (leaves_distinct sha512Half isTransaction hasMeta (concat (map op_items ops) ++ items (new_root v2))) as Hd'
    by (by rewrite app_nil_r).
  pose proof (run_spec sha512Half isTransaction hasMeta v2 ops (new_root v2) Hw Hk Hd') as Hs. by rewrite Ha in Hs.
Qed.

(** C2: A SHAMap is a finite map.  A sequence of additions, updates and deletions
    of well-formed keys on a new map, of either version, fails an assertion exactly when it updates a
    key that is not in the map or adds an item of less than twelve bytes under a new key; otherwise it
    gives the answers and the contents the same operations give on a finite
    map, and every lookup in the result is a lookup in that map.  Updates are to twelve bytes or more,
    and items with the same key and different data have different hashes. *)
Theorem shamap_refines_map sha512Half isTransaction hasMeta v2 ops :
  Forall op_wf ops →
  leaves_distinct sha512Half isTransaction hasMeta (concat (map op_items ops)) →
  match map_run ∅ ops with
  | None => run sha512Half isTransaction hasMeta (new_root v2) ops = None
  | Some (answers, m) =>
      ∃ r, run sha512Half isTransaction hasMeta (new_root v2) ops = Some (answers, r) ∧
        abs r = m ∧ is_v2 r = v2 ∧
        ∀ k, is_u256 k →
          hasItem r k = Some (bool_decide (is_Some (m !! k))) ∧
          peekItem r k = Some ((λ d, (mkItem k d, leaf_type isTransaction hasMeta)) <$> m !! k)
  end.
Proof.
  intros Hk Hd. pose proof (shamap_run_defined sha512Half isTransaction hasMeta v2 ops Hk Hd) as Hs.
  destruct (map_run ∅ ops) as [[answers m]|]; [|done]. destruct Hs as (r & Hrun & Hr & <-).
  exists r. split; [exact Hrun|]. split; [done|]. split; [by eapply is_v2_root|].
  intros k Hk'. unfold hasItem, peekItem. rewrite (findKey_spec v2 _ r k Hk' Hr).
  destruct (abs r !! k) as [d|]; split; done.
Qed.

(** ** Witnesses

    A hash function to evaluate the models with. *)
Definition sample_hash (x : list Z) : uint256 :=
  let p := 2 ^ 256 - 189 in
  let z := (fold_left (λ a b, (a * 257 + b + 1) mod p) x 1 *
            0x9E3779B97F4A7C15F39CC0605CEDC8341082276BF3A27251F86C6A11D0C18E95) mod p + 1 in
  map (λ i, z / 256 ^ (31 - Z.of_nat i) mod 256) (seq 0 32).
Definition sample_key (l : list Z) : uint256 := l ++ replicate (32 - length l) 0.
Definition sample_data (l : list Z) : list Z := l ++ replicate 12 0.
Definition sample_item (l : list Z) : SHAMapItem := mkItem (sample_key l) (sample_data l).

Lemma sample_hash_length x : length (sample_hash x) = 32%nat.
Proof. unfold sample_hash. by rewrite length_map, length_seq. Qed.

Lemma sample_key_ok l : (length l ≤ 32)%nat → forallb (λ b, (0 <=? b) && (b <? 256)) l = true → is_u256 (sample_key l).
Proof.
  intros Hl Hb. unfold sample_key. split; [rewrite length_app, length_replicate; lia|].
  apply Forall_app. split; [|apply Forall_replicate; lia].
  rewrite forallb_forall in Hb. apply Forall_forall. intros b Hx%list_elem_of_In%Hb. lia.
Qed.

Definition collides (h : list Z → uint256) (l : list (list Z)) : bool :=
  let hs := map (λ x, (h x, x)) l in
  existsb (λ p, bool_decide (p.1 = zero256) ||
    existsb (λ q, bool_decide (p.1 = q.1) && negb (bool_decide (p.2 = q.2))) hs) hs.

Lemma collides_free h l : collides h l = false → collision_free h l.
Proof.
  intros Hc. assert (∀ x, x ∈ l → bool_decide (h x = zero256) = false ∧
    ∀ y, y ∈ l → bool_decide (h x = h y) && negb (bool_decide (x = y)) = false) as H.
  { assert (∀ x, x ∈ l → In (h x, x) (map (λ x, (h x, x)) l)) as Hin.
    { intros x Hx. apply in_map_iff. exists x. split; [done|]. by apply list_elem_of_In. }
    intros x Hx. unfold collides in Hc. rewrite <- not_true_iff_false, existsb_exists in Hc.
    destruct (bool_decide (h x = zero256)) eqn:Hz; [destruct Hc; exists (h x, x); simpl; rewrite Hz; auto|].
    split; [done|]. intros y Hy. apply not_true_iff_false. intros Hxy. apply Hc.
    exists (h x, x). split; [auto|]. simpl. rewrite Hz. simpl. apply existsb_exists. exists (h y, y). auto. }
  split.
  - intros x y Hx Hy Heq. destruct (H x Hx) as [_ Hn]. specialize (Hn y Hy).
    rewrite bool_decide_true in Hn by done. simpl in Hn. apply negb_false_iff, bool_decide_eq_true in Hn. done.
  - intros x Hx Hz. destruct (H x Hx) as [Hn _]. by rewrite bool_decide_true in Hn.
Qed.

Definition sample_ops : list MapOp :=
  [AddItem (sample_item [0x12; 0x34]); AddItem (sample_item [0x12; 0x35]); AddItem (sample_item [0x12; 0x34]);
   UpdateItem (mkItem (sample_key [0x12; 0x34]) (sample_data [7; 7])); AddItem (sample_item [0x20]);
   DelItem (sample_key [0x12; 0x35]); DelItem (sample_key [0x99])].

(** The same contents by another way. *)
Definition sample_ops' : list MapOp :=
  [AddItem (sample_item [0x20]); AddItem (mkItem (sample_key [0x12; 0x34]) (sample_data [7; 7]))].

Lemma leaves_distinct_check h l :
  collides h (map (λ x, leaf_preimage x tnACCOUNT_STATE) l) = false → leaves_distinct h false false l.
Proof.
  intros [Hc _]%collides_free x y Hx Hy Hk Hh.
  apply Hc in Hh; [|apply list_elem_of_fmap; by exists x|apply list_elem_of_fmap; by exists y].
  destruct x, y. simpl in *. subst. injection Hh as Hh. by apply app_inv_tail in Hh as ->.
Qed.

Definition sample_ok (ops : list MapOp) : Prop :=
  Forall op_wf ops ∧ is_Some (map_run ∅ ops) ∧
  leaves_distinct sample_hash false false (concat (map op_items ops)).

Ltac sample_wf := repeat (apply Forall_cons; split; [split; [apply sample_key_ok; [simpl; lia|done]|simpl; lia || done]|]); by apply Forall_nil.

Lemma sample_ops_ok : sample_ok sample_ops ∧ sample_ok sample_ops'.
Proof.
  split; (split; [sample_wf|]);
    (split; [vm_compute; by eauto|]); apply leaves_distinct_check; by vm_compute.
Qed.

Lemma shamap_refines_map_witness :
  ∃ r, run sample_hash false false (new_root true) sample_ops = Some ([true; true; false; true; true; true; false], r) ∧
    run sample_hash false false r [UpdateItem (sample_item [0x99])] = None.
Proof.
  destruct sample_ops_ok as [[Hk [_ Hd]] _].
  pose proof (shamap_refines_map sample_hash false false true sample_ops Hk Hd) as H.
  assert (fst <$> map_run ∅ sample_ops = Some [true; true; false; true; true; true; false]) as Hm by (by vm_compute).
  destruct (map_run ∅ sample_ops) as [[answers m]|]; [|done]. injection Hm as ->.
  destruct H as (r & Hrun & _). exists r. split; [exact Hrun|].
  vm_compute in Hrun. injection Hrun as <-. by vm_compute.
Defined.

Definition sample_map (v2 : bool) (ops : list MapOp) : Node :=
  match run sample_hash false false (new_root v2) ops with Some (_, r) => r | None => new_root v2 end.

Lemma sample_map_reach v2 ops : sample_ok ops → reach sample_hash false false v2 (sample_map v2 ops).
Proof.
  intros [Hk [[[bs m] Hm] Hd]]. pose proof (shamap_run_defined sample_hash false false v2 ops Hk Hd) as Hs.
  rewrite Hm in Hs. destruct Hs as (r & Hrun & _).
  exists ops, bs. split; [done|]. split; [done|]. unfold sample_map. by rewrite Hrun.
Qed.

(** ** Order *)

(** A SHAMap is ordered.  Iterating from [begin()] to [end()] goes through the
    contents once each, by increasing key; iterating from [upper_bound(k)] goes
    through exactly those with a key greater than [k], whether or not [k] is in
    the map. *)
Theorem shamap_iterates_in_order sha512Half isTransaction hasMeta v2 r k :
  reach sha512Half isTransaction hasMeta v2 r → is_u256 k →
  ∃ l, contents r = Some (map (λ x, (x, leaf_type isTransaction hasMeta)) l) ∧
    StronglySorted item_lt l ∧ abs r = abs_items l ∧
    ∃ leaf st, upper_bound r k = Some (leaf, st) ∧
      iterate (leaf_count r) v2 leaf st =
      Some (map (λ x, (x, leaf_type isTransaction hasMeta))
              (filter (λ x, key_lt k (item_key x) = true) l)).
Proof.
  intros Hr%reach_wf Hk. exists (items r). split; [by eapply contents_spec|].
  split; [by eapply root_sorted|]. split; [done|].
  pose proof (upper_bound_spec v2 _ k Hk r Hr) as Hu.
  destruct (filter (λ x, key_lt k (item_key x) = true) (items r)) as [|x l] eqn:Hf; simpl in Hu.
  - rewrite Hu. eexists None, []. split; [done|]. by destruct (leaf_count r).
  - destruct Hu as (st & id & -> & Hcur). eexists _, _. split; [done|].
    eapply iterate_spec; [exact Hcur|]. rewrite leaf_count_items.
    assert (length (x :: l) ≤ length (items r))%nat as Hle by (rewrite <- Hf; apply length_filter).
    simpl in Hle. lia.
Qed.

Lemma shamap_iterates_in_order_witness :
  ∃ l, contents (sample_map true sample_ops) = Some (map (λ x, (x, tnACCOUNT_STATE)) l) ∧
    map item_data l = [sample_data [7; 7]; sample_data [0x20]].
Proof.
  destruct (shamap_iterates_in_order sample_hash false false true (sample_map true sample_ops) zero256
    (sample_map_reach true sample_ops (proj1 sample_ops_ok))) as (l & Hl & _).
  { by apply (sample_key_ok []); [simpl; lia|]. }
  exists l. split; [exact Hl|]. vm_compute in Hl. injection Hl as Hl.
  destruct l as [|a [|b [|? ?]]]; try done. simpl in Hl. by simplify_eq.
Defined.

(** ** Shape and hash *)

(** C4: The hash of a map stands for its contents.  Two maps of the same version
    that operations made, in whatever order, are the same tree when they hold the
    same items; and they have the same root hash exactly when they do, as long as
    no two of the byte strings hashed for them collide and, for transactions
    without metadata, keys are transaction hashes. *)
Theorem shamap_hash_identifies sha512Half isTransaction hasMeta v2 r s :
  (∀ x, length (sha512Half x) = 32%nat) →
  reach sha512Half isTransaction hasMeta v2 r → reach sha512Half isTransaction hasMeta v2 s →
  keyed sha512Half (leaf_type isTransaction hasMeta) (items r ++ items s) →
  collision_free sha512Half (hashed sha512Half r ++ hashed sha512Half s) →
  (abs r = abs s → r = s) ∧
  (getNodeHash sha512Half r = getNodeHash sha512Half s ↔ abs r = abs s).
Proof.
  intros Hlen Hr%reach_wf Hs%reach_wf Hkey Hcf.
  assert (abs r = abs s → r = s) as Heq by by eapply root_unique.
  split; [done|]. split; [|by intros ->%Heq]. intros Hh.
  f_equal. eapply (root_hash_inj sha512Half Hlen v2 _ (leaf_type_ok isTransaction hasMeta)); try done.
  - intros E x Hx. apply (Hkey E). set_solver.
  - intros E x Hx. apply (Hkey E). set_solver.
Qed.

Lemma shamap_hash_identifies_witness :
  getNodeHash sample_hash (sample_map true sample_ops) = getNodeHash sample_hash (sample_map true sample_ops').
Proof.
  refine (proj2 (proj2 (shamap_hash_identifies sample_hash false false true (sample_map true sample_ops)
    (sample_map true sample_ops') sample_hash_length _ _ _ _)) _).
  - apply sample_map_reach, sample_ops_ok.
  - apply sample_map_reach, sample_ops_ok.
  - done.
  - apply collides_free. by vm_compute.
  - by vm_compute.
Defined.

(** The source's check passes.  Every map that operations make passes
    [SHAMap::invariants]: hashes and branches agree, an inner node below the root
    has one branch or more, in version 2 two or more, each on the node's path. *)
Theorem shamap_invariants_hold sha512Half isTransaction hasMeta v2 r :
  (∀ x, length (sha512Half x) = 32%nat) →
  reach sha512Half isTransaction hasMeta v2 r →
  collision_free sha512Half (hashed sha512Half r) → invariants sha512Half r = true.
Proof.
  intros Hlen Hr%reach_wf Hcf.
  by eapply (invariants_wf sha512Half Hlen v2 _ (leaf_type_ok isTransaction hasMeta)).
Qed.

Lemma shamap_invariants_hold_witness : invariants sample_hash (sample_map true sample_ops') = true.
Proof.
  apply (shamap_invariants_hold sample_hash false false true).
  - apply sample_hash_length.
  - apply sample_map_reach, sample_ops_ok.
  - apply collides_free. by vm_compute.
Defined.

(** Deletion undoes addition.  Adding an item that is not in the map answers
    true; deleting its key then answers true and gives back the map as it was,
    the same tree with the same hash; adding it again answers false and changes
    nothing. *)
Theorem shamap_delete_undoes_add sha512Half isTransaction hasMeta v2 r item :
  reach sha512Half isTransaction hasMeta v2 r → is_u256 (item_key item) → large_enough item = true →
  abs r !! item_key item = None →
  ∃ s, addGiveItem r item isTransaction hasMeta = Some (true, s) ∧
    delItem s (item_key item) = Some (true, r) ∧
    addGiveItem s item isTransaction hasMeta = Some (false, s).
Proof.
  intros Hr%reach_wf Hk Hlg Hn.
  pose proof (addGiveItem_spec v2 _ r item isTransaction hasMeta Hr Hk Hlg eq_refl) as Ha.
  rewrite Hn in Ha. destruct Ha as (s & Hadd & Hs & Hp). exists s. split; [done|].
  assert (abs s = <[item_key item := item_data item]> (abs r)) as Habs by by eapply abs_cons.
  pose proof (delItem_spec v2 _ s (item_key item) Hs Hk) as Hd.
  pose proof (addGiveItem_spec v2 _ s item isTransaction hasMeta Hs Hk Hlg eq_refl) as Ha'.
  rewrite Habs, lookup_insert_eq in Hd, Ha'. split; [|done].
  destruct Hd as (r' & -> & Hr' & Hp'). do 2 f_equal. eapply root_unique; [done..|].
  assert (items r' ≡ₚ items r) as Hpp.
  { destruct item as [k d]. simpl in *. rewrite Hp' in Hp. by apply (inj (cons _)) in Hp. }
  unfold abs at 2. by eapply abs_perm.
Qed.

Lemma shamap_delete_undoes_add_witness :
  ∃ s, addGiveItem (sample_map false sample_ops') (sample_item [0x21]) false false = Some (true, s) ∧
    delItem s (sample_key [0x21]) = Some (true, sample_map false sample_ops').
Proof.
  destruct (shamap_delete_undoes_add sample_hash false false false (sample_map false sample_ops')
    (sample_item [0x21])) as (s & Hadd & Hdel & _).
  - apply sample_map_reach, sample_ops_ok.
  - by apply sample_key_ok; [simpl; lia|].
  - done.
  - by vm_compute.
  - exists s. split; [exact Hadd|exact Hdel].
Defined.

(** ** Versions *)
Lemma give_items_spec v2 T l : is_leaf_type T → ∀ root,
  wf_root v2 T root → uniq l → (∀ x, x ∈ l → (is_u256 (item_key x) ∧ large_enough x = true) ∧ abs root !! item_key x = None) →
  ∃ r, give_items root (map (λ x, (x, T)) l) = Some r ∧ wf_root v2 T r ∧ items r ≡ₚ l ++ items root.
Proof.
  intros [H1 H2]. induction l as [|x l IH]; intros root Hwf Hu Hl; [by exists root|].
  apply NoDup_cons in Hu as [Hx Hu]. destruct (Hl x) as [[Hk Hlg] Hn]; [set_solver|]. simpl.
  assert (leaf_type (negb (bool_decide (T = tnACCOUNT_STATE))) (bool_decide (T = tnTRANSACTION_MD)) = T) as HT
    by by destruct T.
  pose proof (addGiveItem_spec v2 T root x _ _ Hwf Hk Hlg HT) as Ha. rewrite Hn in Ha.
  destruct Ha as (s & -> & Hs & Hp). destruct (IH s Hs Hu) as (r & -> & Hr & Hpr).
  - intros y Hy. destruct (Hl y) as [Hyk Hyn]; [set_solver|]. split; [done|].
    rewrite (abs_perm v2 T s _ Hs Hp). unfold abs_items. simpl. rewrite lookup_insert_ne; [done|].
    intros Heq. apply Hx. rewrite Heq. by apply list_elem_of_fmap_2.
  - exists r. split; [done|]. split; [done|]. rewrite Hpr, Hp. solve_Permutation.
Qed.

Lemma make_version_spec v2 w2 T r :
  is_leaf_type T → wf_root v2 T r →
  ∃ s, make_version w2 r = Some s ∧ wf_root w2 T s ∧ abs s = abs r.
Proof.
  intros HT Hr. unfold make_version. rewrite (contents_spec v2 T r Hr).
  assert (wf_root w2 T (new_root w2)) as Hnew.
  { split; [by destruct w2|]. apply body_empty; [constructor|simpl; lia]. }
  destruct (give_items_spec w2 T (items r) HT (new_root w2) Hnew) as (s & -> & Hs & Hp).
  - by eapply uniq_pairs, root_nodup.
  - intros x Hx. split; [|done]. split; [by apply (root_keys v2 T r Hr)|by apply (root_large v2 T r Hr)].
  - exists s. split; [done|]. split; [done|]. rewrite app_nil_r in Hp.
    unfold abs at 2. by eapply abs_perm.
Qed.

(** Conversion between versions.  [make_v2] and [make_v1] give a map of the other
    version with the same contents, and converting back gives the map one
    started from. *)
Theorem shamap_versions_roundtrip sha512Half isTransaction hasMeta v2 r :
  reach sha512Half isTransaction hasMeta v2 r →
  ∃ s, (if v2 then make_v1 r else make_v2 r) = Some s ∧ is_v2 s = negb v2 ∧ abs s = abs r ∧
    (if v2 then make_v2 s else make_v1 s) = Some r.
Proof.
  intros Hr%reach_wf. pose proof (leaf_type_ok isTransaction hasMeta) as HT.
  destruct (make_version_spec v2 (negb v2) _ r HT Hr) as (s & Hs & Hws & Habs).
  destruct (make_version_spec (negb v2) v2 _ s HT Hws) as (t & Ht & Hwt & Habs').
  assert (t = r) as -> by (eapply root_unique; [done..|]; congruence).
  pose proof (is_v2_root _ _ s Hws) as Hv. exists s. by destruct v2.
Qed.

Lemma shamap_versions_roundtrip_witness :
  ∃ s, make_v2 (sample_map false sample_ops) = Some s ∧ make_v1 s = Some (sample_map false sample_ops).
Proof.
  destruct (shamap_versions_roundtrip sample_hash false false false (sample_map false sample_ops))
    as (s & H1 & _ & _ & H2); [apply sample_map_reach, sample_ops_ok|].
  exists s. split; [exact H1|exact H2].
Defined.

(** ** Differences *)

(** C30: [compare] finds the differences.  For two maps of version 1 it answers
    whether they have fewer than [maxCount] differences, or none.  If so it
    delivers exactly the keys whose data differ, with the item of each side; if
    not, [maxCount] of them (at least one), each correct. *)
Theorem shamap_compare_exact sha512Half isTransaction hasMeta r s maxCount :
  (∀ x, length (sha512Half x) = 32%nat) →
  reach sha512Half isTransaction hasMeta false r → reach sha512Half isTransaction hasMeta false s →
  keyed sha512Half (leaf_type isTransaction hasMeta) (items r ++ items s) →
  collision_free sha512Half (hashed sha512Half r ++ hashed sha512Half s) →
  let D := delta (abs r) (abs s) in
  let all := bool_decide (D = ∅ ∨ Z.of_nat (size D) < maxCount) in
  ∃ d, compare sha512Half r s ∅ maxCount = Some (all, d) ∧
    if all then d = D else d ⊆ D ∧ Z.of_nat (size d) = Z.max 1 maxCount.
Proof.
  intros Hlen Hr%reach_wf Hs%reach_wf Hkey Hcf.
  eapply (compare_spec sha512Half _ Hlen (leaf_type_ok isTransaction hasMeta)); try done;
    intros E x Hx; apply (Hkey E); set_solver.
Qed.

Lemma shamap_compare_exact_witness :
  ∃ d, compare sample_hash (sample_map false sample_ops) (sample_map false [AddItem (sample_item [0x20])]) ∅ 10 =
    Some (true, d) ∧
    map_to_list d = [(sample_key [0x12; 0x34], (Some (mkItem (sample_key [0x12; 0x34]) (sample_data [7; 7])), None))].
Proof.
  destruct (shamap_compare_exact sample_hash false false (sample_map false sample_ops)
    (sample_map false [AddItem (sample_item [0x20])]) 10 sample_hash_length) as (d & Hd & Hall).
  - apply sample_map_reach, sample_ops_ok.
  - apply sample_map_reach. split; [sample_wf|]. split; [vm_compute; by eauto|].
    apply leaves_distinct_check. by vm_compute.
  - done.
  - apply collides_free. by vm_compute.
  - rewrite bool_decide_true in Hd, Hall by (right; by vm_compute).
    exists d. split; [exact Hd|]. rewrite Hall. by vm_compute.
Defined.

(** In version 2 two nodes under the same branch may sit at different depths, and
    [compare] matches their branches by number: here the item at [0xABC5] is in
    both maps with the same data, and is reported as missing from the first. *)
Definition v2_left : Node := sample_map true [AddItem (sample_item [0xAB; 0xC5]); AddItem (sample_item [0xAB; 0xD0])].
Definition v2_right : Node := sample_map true [AddItem (sample_item [0xAB; 0xC5]); AddItem (sample_item [0xAB; 0xC6])].

Theorem compare_v2_mismatch :
  abs v2_left !! sample_key [0xAB; 0xC5] = abs v2_right !! sample_key [0xAB; 0xC5] ∧
  (λ r, r.2 !! sample_key [0xAB; 0xC5]) <$> compare sample_hash v2_left v2_right ∅ 100 =
  Some (Some (None, Some (sample_item [0xAB; 0xC5]))).
Proof. split; by vm_compute. Qed.
