(* ===== verification/TxSetMap.v ===== *)
(** * Transaction sets in SHAMaps

    src/src/ripple/app/consensus/RCLCxTx.h: [RCLTxSet], the transaction set of a
    consensus round, is a SHAMap of version 1 of transactions without metadata.
    The engine's theorems are proved for any transaction sets that keep the laws
    of [TxSetLaws]; here the SHAMap is shown to keep them.

    A hash of 32 bytes cannot be collision-free on everything, so the sets are
    those over a given list [universe] of transactions, the ones met in a run:
    each is keyed by its hash, no two of the byte strings hashed for sets of them
    collide, and there are fewer than 65536, the bound [compare] is called with. *)

From stdpp Require Import prelude list gmap sorting.
From Stdlib Require Import ZArith Lia.
From S2P Require Import Prelude.
From S2P Require Import BaseUint.
From S2P Require Import BaseUintTheorems.
From S2P Require Import LedgerTiming.
From S2P Require Import Disputes.
From S2P Require Import SHAMapNodeID.
From S2P Require Import SHAMap.
From S2P Require Import SHAMapSpec.
From S2P Require Import SHAMapRefine.
From S2P Require Import SHAMapHash.
From S2P Require Import SHAMapDelta.
From S2P Require Import SHAMapTheorems.

(** ** Identifiers

    The interface names transactions by numbers. *)
Fixpoint be_bytes (n : nat) (z : Z) : list Z :=
  match n with O => [] | S n => be_bytes n (z / 256) ++ [z mod 256] end.

Lemma be_bytes_spec n z :
  0 ≤ z < 256 ^ Z.of_nat n →
  length (be_bytes n z) = n ∧ in_base 256 (be_bytes n z) ∧ number 256 (be_bytes n z) = z.
Proof.
  revert z. induction n as [|n IH]; intros z Hz; [split; [done|]; split; [constructor|simpl in *; lia]|].
  rewrite Nat2Z.inj_succ, Z.pow_succ_r in Hz by lia.
  destruct (IH (z / 256)) as (Hl & Hb & Hn); [Z.to_euclidean_division_equations; lia|].
  simpl. split; [rewrite length_app; simpl; lia|]. split.
  - apply Forall_app. split; [done|]. constructor; [Z.to_euclidean_division_equations; lia|constructor].
  - rewrite number_app, Hn by lia. simpl. Z.to_euclidean_division_equations. lia.
Qed.

Definition key_of (i : Z) : uint256 := be_bytes 32 i.
Definition id_of (k : uint256) : Z := number 256 k.
Definition is_id (i : Z) : bool := (0 <=? i) && (i <? 2 ^ 256).

Lemma is_id_spec i : is_id i = true ↔ 0 ≤ i < 256 ^ Z.of_nat 32.
Proof. unfold is_id. change (256 ^ Z.of_nat 32) with (2 ^ 256). lia. Qed.

Lemma key_of_spec i : is_id i = true → is_u256 (key_of i) ∧ id_of (key_of i) = i.
Proof. rewrite is_id_spec. intros Hi. by destruct (be_bytes_spec 32 i Hi) as (? & ? & ?). Qed.

Lemma id_of_spec k : is_u256 k → is_id (id_of k) = true ∧ key_of (id_of k) = k.
Proof.
  intros [Hl Hb]. pose proof (number_bounds 256 k ltac:(lia) Hb) as Hr. rewrite Hl in Hr.
  assert (is_id (id_of k) = true) as Hi by by apply is_id_spec. split; [done|].
  destruct (be_bytes_spec 32 (id_of k) Hr) as (Hl' & Hb' & Hn).
  eapply (number_inj 256); [lia|exact Hb'|exact Hb| |exact Hn]. unfold key_of. congruence.
Qed.

(** ** The universe *)
Fixpoint sublists {A} (l : list A) : list (list A) :=
  match l with
  | [] => [[]]
  | x :: l => map (cons x) (sublists l) ++ sublists l
  end.

Lemma filter_sublist {A} (P : A → Prop) `{∀ x, Decision (P x)} (l : list A) : filter P l ∈ sublists l.
Proof.
  induction l as [|x l IH]; [simpl; set_solver|]. rewrite filter_cons. simpl. apply elem_of_app.
  case_decide; [left|by right]. apply list_elem_of_fmap. eauto.
Qed.

(** The maps of the sets over a list of transactions. *)
Definition subset_maps (universe : list SHAMapItem) : list Node :=
  omap (λ l, give_items (new_root false) (map (λ x, (x, tnTRANSACTION_NM)) l)) (sublists universe).

Record universe_ok (sha512Half : list Z → uint256) (universe : list SHAMapItem) : Prop := {
  u_u256 : ∀ x, is_u256 (sha512Half x);
  u_keys : ∀ x, x ∈ universe → is_u256 (item_key x);
  u_large : ∀ x, x ∈ universe → large_enough x = true;
  u_uniq : uniq universe;
  u_keyed : keyed sha512Half tnTRANSACTION_NM universe;
  u_free : collision_free sha512Half (concat (map (hashed sha512Half) (subset_maps universe)));
  u_small : Z.of_nat (length universe) < 65536;
}.

Section txset.
Context (sha512Half : list Z → uint256) (universe : list SHAMapItem).
Context (Hu : universe_ok sha512Half universe).
#[local] Abbreviation T := tnTRANSACTION_NM.

Lemma u_length x : length (sha512Half x) = 32%nat.
Proof. apply (u_u256 _ _ Hu). Qed.

Definition set_ok (r : Node) : Prop := wf_root false T r ∧ ∀ x, x ∈ items r → x ∈ universe.

Definition RCLTx : Type := { x : SHAMapItem | x ∈ universe }.
Definition RCLTxSet : Type := { r : Node | set_ok r }.

Lemma uniq_universe x y : x ∈ universe → y ∈ universe → item_key x = item_key y → x = y.
Proof.
  intros Hx Hy Hk. pose proof (u_uniq _ _ Hu) as Hn. unfold uniq in Hn.
  apply list_elem_of_lookup in Hx as [i Hi], Hy as [j Hj].
  assert (i = j) as ->; [|congruence].
  eapply NoDup_lookup; [exact Hn|rewrite list_lookup_fmap, Hi; done|].
  rewrite list_lookup_fmap, Hj. simpl. by rewrite Hk.
Qed.

Lemma set_data (r s : RCLTxSet) k d d' : abs (`r) !! k = Some d → abs (`s) !! k = Some d' → d = d'.
Proof.
  destruct r as [r [Hr Hru]], s as [s [Hs Hsu]]. simpl.
  intros Hd%(abs_lookup false T r Hr) Hd'%(abs_lookup false T s Hs).
  assert (mkItem k d = mkItem k d') as [= ->]; [|done]. apply uniq_universe; auto.
Qed.

Lemma set_in_maps r : set_ok r → r ∈ subset_maps universe.
Proof.
  intros [Hr Hsub]. set (l := filter (.∈ items r) universe).
  assert (wf_root false T (new_root false)) as Hnew.
  { split; [done|]. apply body_empty; [constructor|simpl; lia]. }
  assert (uniq l) as Hl.
  { apply NoDup_fmap_2_strong.
    - intros x y [_ Hx]%list_elem_of_filter [_ Hy]%list_elem_of_filter. by apply uniq_universe.
    - by apply NoDup_filter, (NoDup_fmap_1 item_key), (u_uniq _ _ Hu). }
  destruct (give_items_spec false T l ltac:(done) (new_root false) Hnew Hl) as (s & Hgive & Hs & Hp).
  { intros x [_ Hx]%list_elem_of_filter. split; [|done]. split; [by apply (u_keys _ _ Hu)|by apply (u_large _ _ Hu)]. }
  apply list_elem_of_omap. exists l. split; [apply filter_sublist|]. rewrite Hgive. f_equal.
  eapply root_unique; [done..|]. rewrite app_nil_r in Hp.
  apply map_eq. intros k. apply option_eq. intros d.
  rewrite (abs_lookup false T s Hs), (abs_lookup false T r Hr), Hp.
  unfold l. rewrite list_elem_of_filter. naive_solver.
Qed.

Lemma sets_free r s :
  set_ok r → set_ok s → collision_free sha512Half (hashed sha512Half r ++ hashed sha512Half s).
Proof.
  intros Hr%set_in_maps Hs%set_in_maps. eapply collision_free_sub, (u_free _ _ Hu).
  intros x Hx. rewrite list_elem_of_In, in_concat.
  apply elem_of_app in Hx as [Hx|Hx]; [exists (hashed sha512Half r)|exists (hashed sha512Half s)];
    rewrite <- !list_elem_of_In; (split; [|done]); apply list_elem_of_fmap; eauto.
Qed.

Lemma set_keyed r : set_ok r → keyed sha512Half T (items r).
Proof. intros [_ Hsub] E x Hx. apply (u_keyed _ _ Hu); auto. Qed.

(** ** The operations of [RCLTxSet] *)
Definition exists_ (s : RCLTxSet) (entry : Z) : bool :=
  is_id entry && default false (hasItem (`s) (key_of entry)).

Definition find_item (s : RCLTxSet) (entry : Z) : option SHAMapItem :=
  if is_id entry then fst <$> mjoin (peekItem (`s) (key_of entry)) else None.

Definition insert_map (t : SHAMapItem) (r : Node) : Node :=
  match addGiveItem r (mkItem (item_key t) (item_data t)) true false with
  | Some (_, r) => r
  | None => r
  end.
Definition erase_map (entry : Z) (r : Node) : Node :=
  if is_id entry
  then match delItem r (key_of entry) with Some (_, r) => r | None => r end
  else r.

(** [static_cast<bool>(item.second.first)] *)
Definition in_first (v : DeltaItem) : bool := bool_decide (is_Some v.1).
Definition set_compare (s s' : RCLTxSet) : gmap Z bool :=
  match compare sha512Half (`s) (`s') ∅ 65536 with
  | Some (_, delta) =>
      list_to_map (map (λ p : uint256 * DeltaItem, (id_of p.1, in_first p.2)) (map_to_list delta))
  | None => ∅
  end.

Definition set_id (s : RCLTxSet) : Z := id_of (getNodeHash sha512Half (`s)).

Lemma find_item_spec s i :
  find_item s i = if is_id i then mkItem (key_of i) <$> abs (`s) !! key_of i else None.
Proof.
  unfold find_item, peekItem. destruct (is_id i) eqn:Hi; [|done]. destruct (key_of_spec i Hi) as [Hk _].
  destruct s as [r [Hr Hsub]]. simpl. rewrite (findKey_spec false T r _ Hk Hr).
  by destruct (abs r !! key_of i).
Qed.

Lemma exists_spec s i :
  exists_ s i = is_id i && bool_decide (is_Some (abs (`s) !! key_of i)).
Proof.
  unfold exists_, hasItem. destruct (is_id i) eqn:Hi; [|done]. destruct (key_of_spec i Hi) as [Hk _].
  destruct s as [r [Hr Hsub]]. simpl. rewrite (findKey_spec false T r _ Hk Hr).
  by destruct (abs r !! key_of i).
Qed.

Lemma insert_map_spec t r :
  set_ok r → t ∈ universe → set_ok (insert_map t r) ∧
  abs (insert_map t r) = match abs r !! item_key t with
                         | Some _ => abs r
                         | None => <[item_key t := item_data t]> (abs r)
                         end.
Proof.
  intros [Hr Hsub] Ht. unfold insert_map. pose proof (u_keys _ _ Hu t Ht) as Hk. pose proof (u_large _ _ Hu t Ht) as Hlg.
  destruct t as [k d]. simpl in *.
  pose proof (addGiveItem_spec false T r (mkItem k d) true false Hr Hk Hlg eq_refl) as Ha. simpl in Ha.
  destruct (abs r !! k); [by rewrite Ha|]. destruct Ha as (s & -> & Hs & Hp).
  split; [|by rewrite (abs_perm false T s _ Hs Hp)].
  split; [done|]. intros x. rewrite Hp. set_solver.
Qed.

Lemma erase_map_spec i r :
  set_ok r → set_ok (erase_map i r) ∧
  abs (erase_map i r) = if is_id i then delete (key_of i) (abs r) else abs r.
Proof.
  intros [Hr Hsub]. unfold erase_map. destruct (is_id i) eqn:Hi; [|done].
  destruct (key_of_spec i Hi) as [Hk _]. pose proof (delItem_spec false T r _ Hr Hk) as Hd.
  destruct (abs r !! key_of i) as [d|] eqn:Hl.
  - destruct Hd as (s & -> & Hs & Hp). split.
    + split; [done|]. intros x Hx. apply Hsub. rewrite Hp. set_solver.
    + by eapply (abs_delete false T r).
  - rewrite Hd. split; [done|]. by rewrite delete_id.
Qed.

(** [compare] stays below its bound, and its keys are keys of transactions. *)
Lemma delta_key (s s' : RCLTxSet) k v :
  delta (abs (`s)) (abs (`s')) !! k = Some v → k ∈ item_key <$> universe.
Proof.
  intros [Hne _]%delta_lookup.
  assert (∀ (r : RCLTxSet) d, abs (`r) !! k = Some d → k ∈ item_key <$> universe) as Hin.
  { intros [r [Hr Hsub]] d Hd%(abs_lookup false T r Hr)%Hsub.
    apply list_elem_of_fmap. by exists (mkItem k d). }
  destruct (abs (`s) !! k) as [d|] eqn:Hd; [by eapply Hin|].
  destruct (abs (`s') !! k) as [d|] eqn:Hd'; [by eapply (Hin s')|done].
Qed.

Lemma delta_small (s s' : RCLTxSet) : Z.of_nat (size (delta (abs (`s)) (abs (`s')))) < 65536.
Proof.
  eapply Z.le_lt_trans, (u_small _ _ Hu). apply inj_le.
  rewrite <- (size_dom (D := gset uint256)). trans (size (list_to_set (C := gset uint256) (item_key <$> universe))).
  - apply subseteq_size. intros k [v Hv]%elem_of_dom. apply elem_of_list_to_set. by eapply delta_key.
  - rewrite size_list_to_set by exact (u_uniq _ _ Hu). by rewrite length_fmap.
Qed.

Lemma set_compare_run (s s' : RCLTxSet) :
  set_compare s s' =
  list_to_map (map (λ p : uint256 * DeltaItem, (id_of p.1, in_first p.2))
    (map_to_list (delta (abs (`s)) (abs (`s'))))).
Proof.
  unfold set_compare. pose proof (delta_small s s') as Hsmall. destruct s as [r Hr], s' as [r' Hr']. simpl in *.
  destruct (compare_spec sha512Half T u_length ltac:(done) r r' 65536 (proj1 Hr) (proj1 Hr')
    (set_keyed r Hr) (set_keyed r' Hr') (sets_free r r' Hr Hr')) as (d & -> & Hd).
  rewrite bool_decide_true in Hd by by right. by rewrite Hd.
Qed.

Lemma rekey_lookup (D : Delta) (g : DeltaItem → bool) i :
  (∀ k v, D !! k = Some v → is_u256 k) →
  (list_to_map (map (λ p : uint256 * DeltaItem, (id_of p.1, g p.2)) (map_to_list D)) : gmap Z bool) !! i =
  if is_id i then g <$> D !! key_of i else None.
Proof.
  intros Hk. apply option_eq. intros b.
  assert (NoDup (map (λ p : uint256 * DeltaItem, (id_of p.1, g p.2)) (map_to_list D)).*1) as Hnd.
  { change (map ?f ?l) with (f <$> l). rewrite <- list_fmap_compose. apply NoDup_fmap_2_strong; [|apply NoDup_map_to_list].
    intros [k v] [k' v'] H H' Heq. apply elem_of_map_to_list in H, H'. simpl in Heq.
    assert (k = k') as <-; [|congruence].
    by rewrite <- (proj2 (id_of_spec k (Hk _ _ H))), Heq, (proj2 (id_of_spec k' (Hk _ _ H'))). }
  rewrite <- elem_of_list_to_map by done. rewrite list_elem_of_fmap. split.
  - intros ([k v] & [= -> ->] & Hv%elem_of_map_to_list). simpl.
    destruct (id_of_spec k (Hk _ _ Hv)) as [-> ->]. by rewrite Hv.
  - destruct (is_id i) eqn:Hi; [|done]. intros (v & Hv & ->)%fmap_Some.
    exists (key_of i, v). split; [|by apply elem_of_map_to_list].
    cbn [fst snd]. by rewrite (proj2 (key_of_spec i Hi)).
Qed.

Lemma set_compare_lookup (s s' : RCLTxSet) i :
  set_compare s s' !! i =
  if is_id i then in_first <$> delta (abs (`s)) (abs (`s')) !! key_of i else None.
Proof.
  rewrite set_compare_run. apply (rekey_lookup _ in_first).
  intros k v Hv%delta_key. apply list_elem_of_fmap in Hv as (x & -> & Hx). by apply (u_keys _ _ Hu).
Qed.

Definition find (s : RCLTxSet) (entry : Z) : option RCLTx :=
  match find_item s entry with
  | Some x => match decide (x ∈ universe) with left H => Some (x ↾ H) | right _ => None end
  | None => None
  end.
Definition insert (t : RCLTx) (s : RCLTxSet) : RCLTxSet :=
  insert_map (`t) (`s) ↾ proj1 (insert_map_spec (`t) (`s) (proj2_sig s) (proj2_sig t)).
Definition erase (entry : Z) (s : RCLTxSet) : RCLTxSet :=
  erase_map entry (`s) ↾ proj1 (erase_map_spec entry (`s) (proj2_sig s)).

#[local] Instance txset_like : TxSetLike RCLTx RCLTxSet := {
  tx_id := λ t, id_of (item_key (`t));
  ts_id := set_id;
  ts_find := find;
  ts_exists := exists_;
  ts_compare := set_compare;
  ts_insert := insert;
  ts_erase := erase;
}.

Lemma hash_u256 r : is_u256 (getNodeHash sha512Half r).
Proof.
  destruct r as [x ty|v cs]; simpl; [apply (u_u256 _ _ Hu)|].
  destruct (getBranchCount cs =? 0); [|apply (u_u256 _ _ Hu)].
  split; [done|]. by apply Forall_replicate.
Qed.

Lemma find_spec s i :
  is_Some (find s i) ↔ is_id i = true ∧ is_Some (abs (`s) !! key_of i).
Proof.
  unfold find. rewrite find_item_spec. destruct (is_id i) eqn:Hi; [|split; [by intros []|by intros []]].
  destruct s as [r [Hr Hsub]]. simpl. destruct (abs r !! key_of i) as [d|] eqn:Hd; simpl.
  - apply (abs_lookup false T r Hr) in Hd. case_decide as Hx; [split; eauto|]. destruct Hx. auto.
  - split; [by intros []|by intros [_ []]].
Qed.

(** C29: Transaction sets in SHAMaps.  [RCLTxSet] keeps the laws the consensus
    engine is proved against: [exists], [find], [insert], [erase] and [compare]
    are those of sets, and a set is determined by its root hash. *)
Theorem shamap_txset_laws : TxSetLaws RCLTx RCLTxSet.
Proof.
  split; simpl.
  - intros s i [x Hx]. unfold find. rewrite find_item_spec. destruct (is_id i) eqn:Hi; [|done].
    destruct (abs (`s) !! key_of i) as [d|]; [|done]. simpl. case_decide; [|done]. intros [= <-].
    by destruct (key_of_spec i Hi).
  - intros s i. rewrite exists_spec.
    destruct (bool_decide (is_Some (find s i))) eqn:Hf.
    + apply bool_decide_eq_true, find_spec in Hf as [-> Hs]. by rewrite bool_decide_true.
    + apply bool_decide_eq_false in Hf. rewrite find_spec in Hf.
      destruct (is_id i); [|done]. simpl. apply bool_decide_false. naive_solver.
  - intros [r Hr] [s Hs] i Hid. rewrite !exists_spec. simpl. unfold set_id in Hid. simpl in Hid.
    assert (getNodeHash sha512Half r = getNodeHash sha512Half s) as Hh.
    { by rewrite <- (proj2 (id_of_spec _ (hash_u256 r))), Hid, (proj2 (id_of_spec _ (hash_u256 s))). }
    assert (r = s) as ->; [|done].
    eapply (root_hash_inj sha512Half u_length false T ltac:(done)); [apply Hr|apply Hs|..|done].
    + by apply set_keyed.
    + by apply set_keyed.
    + by apply sets_free.
  - intros s s' i. rewrite set_compare_lookup, !exists_spec. destruct (is_id i) eqn:Hi; [|done]. simpl.
    destruct (delta (abs (`s)) (abs (`s')) !! key_of i) as [v|] eqn:Hv; simpl.
      * apply delta_lookup in Hv as [Hne ->]. unfold in_first. simpl.
        destruct (abs (`s) !! key_of i) as [d|] eqn:E1, (abs (`s') !! key_of i) as [d'|] eqn:E2; simpl; try done.
        destruct Hne. f_equal. by eapply set_data.
      * assert (abs (`s) !! key_of i = abs (`s') !! key_of i) as ->.
        { destruct (decide (abs (`s) !! key_of i = abs (`s') !! key_of i)) as [|Hne]; [done|].
          assert (delta (abs (`s)) (abs (`s')) !! key_of i ≠ None) as []; [|done].
          intros HN. rewrite eq_None_not_Some in HN. apply HN. eexists. by apply delta_lookup. }
        by rewrite bool_decide_true.
  - intros [r Hr] [t Ht] i. rewrite !exists_spec. simpl.
    destruct (insert_map_spec t r Hr Ht) as [_ ->]. pose proof (u_keys _ _ Hu t Ht) as Hk.
    destruct (id_of_spec _ Hk) as [Hid Hko].
    destruct (decide (i = id_of (item_key t))) as [->|Hne].
    + rewrite Hid, Hko, (bool_decide_true (_ = _)) by done. simpl. apply bool_decide_true.
      destruct (abs r !! item_key t) eqn:E; [by rewrite E|by rewrite lookup_insert_eq].
    + rewrite (bool_decide_false (i = _)) by done. simpl. destruct (is_id i) eqn:Hi; [|done].
      destruct (abs r !! item_key t); [done|]. rewrite lookup_insert_ne; [done|].
      intros Heq. apply Hne. by rewrite Heq, (proj2 (key_of_spec i Hi)).
  - intros [r Hr] j i. rewrite !exists_spec. simpl. destruct (erase_map_spec j r Hr) as [_ ->].
    destruct (is_id i) eqn:Hi; [|by rewrite andb_false_r]. simpl.
    destruct (decide (i = j)) as [->|Hne].
    + rewrite Hi, lookup_delete_eq, (bool_decide_true (_ = _)) by done. done.
    + rewrite (bool_decide_false (i = j)) by done. destruct (is_id j) eqn:Hj; [|done].
      rewrite lookup_delete_ne; [done|]. intros Heq. apply Hne.
      by rewrite <- (proj2 (key_of_spec i Hi)), <- (proj2 (key_of_spec j Hj)), Heq.
Qed.
End txset.

(** ** A universe of two transactions *)
Definition sample_tx (d : list Z) : SHAMapItem :=
  mkItem (sample_hash (leaf_preimage (mkItem zero256 d) tnTRANSACTION_NM)) d.
Definition sample_universe : list SHAMapItem := [sample_tx (sample_data [1; 2; 3]); sample_tx (sample_data [4; 5; 6])].

Lemma sample_hash_u256 x : is_u256 (sample_hash x).
Proof.
  split; [apply sample_hash_length|]. apply Forall_map, Forall_forall. intros i _.
  simpl. apply Z.mod_pos_bound. lia.
Qed.

Lemma sample_universe_ok : universe_ok sample_hash sample_universe.
Proof.
  split.
  - apply sample_hash_u256.
  - intros x Hx. unfold sample_universe in Hx. rewrite !elem_of_cons in Hx.
    destruct Hx as [->|[->|[]%elem_of_nil]]; apply sample_hash_u256.
  - intros x Hx. unfold sample_universe in Hx. rewrite !elem_of_cons in Hx.
    by destruct Hx as [->|[->|[]%elem_of_nil]].
  - apply NoDup_cons. split; [|apply NoDup_singleton]. rewrite list_elem_of_singleton. by vm_compute.
  - intros _ x Hx. unfold sample_universe in Hx. rewrite !elem_of_cons in Hx.
    by destruct Hx as [->|[->|[]%elem_of_nil]].
  - apply collides_free. by vm_compute.
  - done.
Qed.

Lemma shamap_txset_laws_witness :
  ∃ Hu : universe_ok sample_hash sample_universe,
    @TxSetLaws (RCLTx sample_universe) (RCLTxSet sample_universe)
      (txset_like sample_hash sample_universe Hu).
Proof.
  exists sample_universe_ok. exact (shamap_txset_laws sample_hash sample_universe sample_universe_ok).
Defined.
