(* ===== verification/SHAMapRaw.v ===== *)
(** * SHAMap: nodes as bytes

    src/src/ripple/shamap/impl/SHAMapTreeNode.cpp, [addRaw] and
    [SHAMapAbstractNode::make]: how nodes go to the node store ([snfPREFIX], the
    form that is hashed) and to other servers ([snfWIRE]).

    A node that was read from bytes knows the hashes of its children and not the
    children: [SInner] keeps [mHashes], [mIsBranch] and [mChildren] apart, as the
    source does, and both kinds of node keep the hash they were made with.  The
    outcome of [make] is [None] where the source writes outside an object or fails an assertion, a left
    value for an exception and [inr None] for the null pointer. *)

From stdpp Require Import prelude list gmap.
From Stdlib Require Import ZArith Lia.
From S2P Require Import Prelude.
From S2P Require Import BaseUint.
From S2P Require Import BaseUintTheorems.
From S2P Require Import Serializer.
From S2P Require Import SHAMapNodeID.
From S2P Require Import SHAMap.
From S2P Require Import SHAMapSpec.
From S2P Require Import SHAMapRefine.
From S2P Require Import SHAMapHash.

Inductive SHANodeFormat := snfPREFIX | snfWIRE | snfHASH.

Inductive SNode :=
  | SLeaf (mItem : SHAMapItem) (mType : TNType) (mHash : uint256)
  | SInner (v2 : option (Z * uint256)) (mHashes : list uint256) (mIsBranch : list bool)
      (mChildren : list (option SNode)) (mFullBelowGen : Z) (mHash : uint256).

Definition s_hash (n : SNode) : uint256 :=
  match n with SLeaf _ _ h => h | SInner _ _ _ _ _ h => h end.

Definition s_branch_count (isb : list bool) : Z := sumZ (λ b : bool, if b then 1 else 0) isb.

(** ** addRaw *)

(** Version 1, and the wire form shared by both versions, before the type. *)
Fixpoint compressed (i : Z) (hashes : list uint256) (isb : list bool) : list Z :=
  match hashes, isb with
  | h :: hashes, b :: isb => (if b : bool then h ++ [byte i] else []) ++ compressed (i + 1) hashes isb
  | _, _ => []
  end.
Definition inner_wire (hashes : list uint256) (isb : list bool) : list Z :=
  if s_branch_count isb <? 12 then compressed 0 hashes isb ++ [3] else concat hashes ++ [2].

(** [data.back() += 3] *)
Definition bump (data : list Z) : list Z :=
  match last data with
  | Some b => removelast data ++ [byte (b + 3)]
  | None => data
  end.

Definition node_raw (n : SNode) (format : SHANodeFormat) : list Z :=
  match format, n with
  | snfHASH, _ => s_hash n
  | snfPREFIX, SInner v hashes _ _ _ _ => inner_preimage v hashes
  | snfWIRE, SInner None hashes isb _ _ _ => inner_wire hashes isb
  | snfWIRE, SInner (Some _) hashes isb _ _ _ => bump (inner_wire hashes isb)
  | snfPREFIX, SLeaf item type _ => leaf_preimage item type
  | snfWIRE, SLeaf item type _ =>
      match type with
      | tnACCOUNT_STATE => item_data item ++ item_key item ++ [1]
      | tnTRANSACTION_NM => item_data item ++ [0]
      | tnTRANSACTION_MD => item_data item ++ item_key item ++ [4]
      | _ => []
      end
  end.

(** ** make *)
Section make.
  Variable sha512Half : list Z → uint256.

Definition inner_hash (v : option (Z * uint256)) (hashes : list uint256) (isb : list bool) : uint256 :=
  if s_branch_count isb =? 0 then zero256 else sha512Half (inner_preimage v hashes).

(** [hv] is the hash given with [hashValid]. *)
Definition make_leaf (item : SHAMapItem) (type : TNType) (hv : option uint256) : SNode :=
  SLeaf item type (default (sha512Half (leaf_preimage item type)) hv).
Definition make_inner (v : option (Z * uint256)) (hashes : list uint256) (isb : list bool)
    (hv : option uint256) : SNode :=
  SInner v hashes isb (replicate 16 None) 0 (default (inner_hash v hashes isb) hv).

(** [s.get256 (mHashes[i], offset)] with its result ignored. *)
Definition get256 (s : list Z) (offset : Z) : uint256 := default zero256 (getBits_at 32 s offset).

(** The sixteen hashes of a full inner node. *)
Definition full_hashes (s : list Z) : list uint256 :=
  map (λ i, get256 s (Z.of_nat i * 32)) (seq 0 16).
Definition nonzero_branches (hashes : list uint256) : list bool := map isNonZero hashes.

(** The loop over the entries of a compressed inner node, from entry [i] on. *)
Fixpoint entries_loop (n : nat) (i : Z) (s : list Z) (hashes : list uint256) (isb : list bool) :
    sexn + (list uint256 * list bool) :=
  match n with
  | O => inr (hashes, isb)
  | S n =>
      match get8_at s (32 + i * 33) with
      | None => inl runtime_error
      | Some pos =>
          if (pos <? 0) || (16 <=? pos) then inl runtime_error
          else
            let h := get256 s (i * 33) in
            let isb := if isNonZero h then <[Z.to_nat pos := true]> isb else isb in
            entries_loop n (i + 1) s (<[Z.to_nat pos := h]> hashes) isb
      end
  end.
Definition entries (s : list Z) : sexn + (list uint256 * list bool) :=
  entries_loop (Z.to_nat (size s / 33)) 0 s (replicate 16 zero256) (replicate 16 false).

(** A leaf with its key after its data. *)
Definition keyed_leaf (s : list Z) (type : TNType) (zero_ok : bool) (hv : option uint256) :
    sexn + option SNode :=
  if size s <? 32 then inl runtime_error
  else
    let u := get256 s (size s - 32) in
    let data := default s (chop s 32) in
    if negb zero_ok && negb (isNonZero u) then inl runtime_error
    else inr (Some (make_leaf (mkItem u data) type hv)).

Definition make_wire (raw : list Z) (hv : option uint256) (id : SHAMapNodeID) : sexn + option SNode :=
  match last raw with
  | None => inr None
  | Some type =>
      let s := removelast raw in
      let v2 := Some (mDepth id, mNodeID id) in
      let full v :=
        if negb (size s =? 512) then inl runtime_error
        else inr (Some (make_inner v (full_hashes s) (nonzero_branches (full_hashes s)) hv)) in
      let short v :=
        match entries s with
        | inl e => inl e
        | inr (hashes, isb) => inr (Some (make_inner v hashes isb hv))
        end in
      if (type <? 0) || (6 <? type) then inr None
      else if type =? 0
      then inr (Some (make_leaf (mkItem (sha512Half (HashPrefix.transactionID ++ s)) s)
                        tnTRANSACTION_NM hv))
      else if type =? 1 then keyed_leaf s tnACCOUNT_STATE false hv
      else if type =? 2 then full None
      else if type =? 3 then short None
      else if type =? 4 then keyed_leaf s tnTRANSACTION_MD false hv
      else if type =? 5 then full v2
      else short v2
  end.

(** The inner nodes of the prefix form: [None] for a write past [common_]. *)
Definition make_prefix_inner (isV2 : bool) (s : list Z) (hv : option uint256) :
    option (sexn + option SNode) :=
  let len := size s in
  if (len <? 512) || (negb isV2 && negb (len =? 512)) || (isV2 && (len =? 512))
  then Some (inl runtime_error)
  else
    let hashes := full_hashes s in
    let isb := nonzero_branches hashes in
    if isV2
    then
      let depth := default 64 (get8_at s 512) in
      let n := (depth + 1) / 2 in
      if negb (len =? 512 + 1 + n) then Some (inl runtime_error)
      else if 32 <? n then None
      else
        let common := take (Z.to_nat n) (drop 513 s) ++ drop (Z.to_nat n) zero256 in
        Some (inr (Some (make_inner (Some (depth, common)) hashes isb hv)))
    else Some (inr (Some (make_inner None hashes isb hv))).

Definition make_prefix (raw : list Z) (hv : option uint256) : option (sexn + option SNode) :=
  if size raw <? 4 then Some (inl runtime_error)
  else
    let prefix := take 4 raw in
    let s := drop 4 raw in
    if bool_decide (prefix = HashPrefix.transactionID)
    then Some (inr (Some (make_leaf (mkItem (sha512Half raw) s) tnTRANSACTION_NM hv)))
    else if bool_decide (prefix = HashPrefix.leafNode) then Some (keyed_leaf s tnACCOUNT_STATE false hv)
    else if bool_decide (prefix = HashPrefix.innerNode) then make_prefix_inner false s hv
    else if bool_decide (prefix = HashPrefix.innerNodeV2) then make_prefix_inner true s hv
    else if bool_decide (prefix = HashPrefix.txNode) then Some (keyed_leaf s tnTRANSACTION_MD true hv)
    else Some (inl runtime_error).

(** The constructors of a leaf assert that its item has twelve bytes or more; [None] where they fail. *)
Definition leaf_asserted (r : sexn + option SNode) : option (sexn + option SNode) :=
  match r with
  | inr (Some (SLeaf item _ _)) => if large_enough item then Some r else None
  | _ => Some r
  end.

Definition make (raw : list Z) (format : SHANodeFormat) (hv : option uint256) (id : SHAMapNodeID) :
    option (sexn + option SNode) :=
  match format with
  | snfWIRE => leaf_asserted (make_wire raw hv id)
  | snfPREFIX => make_prefix raw hv ≫= leaf_asserted
  | snfHASH => Some (inl runtime_error)
  end.

(** A node of a resident tree, as it is kept: its hashes and, for the tree below
    it, [mChildren]. *)
Fixpoint stored (n : Node) : SNode :=
  match n with
  | Leaf item type => SLeaf item type (sha512Half (leaf_preimage item type))
  | Inner v cs =>
      SInner v (map (getChildHash sha512Half) cs) (map (λ o, bool_decide (is_Some o)) cs)
        (map (λ o, match o with Some c => Some (stored c) | None => None end) cs) 0
        (getNodeHash sha512Half n)
  end.
(** The node alone. *)
Definition shallow (n : SNode) : SNode :=
  match n with
  | SLeaf _ _ _ => n
  | SInner v hashes isb _ g h => SInner v hashes isb (replicate 16 None) g h
  end.
End make.

Arguments full_hashes : simpl never.
Arguments nonzero_branches : simpl never.
Arguments get256 : simpl never.
