(* ===== verification/SHAMapRawTheorems.v ===== *)
(** * SHAMap: round trips of node formats

    Reading a node back from the bytes it was written to gives the node; the
    prefix form is canonical, so that the hash of the bytes is the hash of the
    node that is read from them. *)

From stdpp Require Import prelude list gmap.
From Stdlib Require Import ZArith Lia.
From S2P Require Import Prelude.
From S2P Require Import BaseUint.
From S2P Require Import BaseUintTheorems.
From S2P Require Import Serializer.
From S2P Require Import SHAMapNodeID.
From S2P Require Import SHAMap.
From S2P Require Import SHAMapSpec.
From S2P Require Import SHAMapRefine.
From S2P Require Import SHAMapHash.
From S2P Require Import SHAMapDelta.
From S2P Require Import SHAMapTheorems.
From S2P Require Import SHAMapRaw.

(** ** Pieces of a buffer *)
Lemma get256_slice s o :
  0 ≤ o → o + 32 ≤ size s → size s < 2 ^ 63 →
  get256 s o = take 32 (drop (Z.to_nat o) s) ∧ length (get256 s o) = 32%nat.
Proof.
  intros Ho Hs Hm. unfold get256, getBits_at, getRaw_at, size in *. rewrite u64_small by lia.
  destruct (Z.ltb_spec (Z.of_nat (length s)) (o + 32)); [lia|]. simpl. split; [done|].
  rewrite length_take, length_drop. lia.
Qed.

Lemma get256_app a h b :
  length h = 32%nat → size (a ++ h ++ b) < 2 ^ 63 → get256 (a ++ h ++ b) (size a) = h.
Proof.
  intros Hh Hm. destruct (get256_slice (a ++ h ++ b) (size a)) as [-> _]; [unfold size; lia| |done|].
  - unfold size. rewrite !length_app. lia.
  - unfold size. rewrite Nat2Z.id, drop_app_length. by rewrite <- Hh, take_app_length.
Qed.

Lemma full_hashes_from n : ∀ s,
  (32 * n ≤ length s)%nat → size s < 2 ^ 63 → ∀ k, (32 * k + 32 * n ≤ length s)%nat →
  concat (map (λ i, get256 s (Z.of_nat i * 32)) (seq k n)) = take (32 * n) (drop (32 * k) s).
Proof.
  induction n as [|n IH]; intros s Hs Hm k Hk; [by rewrite Nat.mul_0_r|].
  cbn [seq map concat].
  destruct (get256_slice s (Z.of_nat k * 32)) as [-> _]; [lia|unfold size; lia|done|].
  rewrite IH by lia. replace (Z.to_nat (Z.of_nat k * 32)) with (32 * k)%nat by lia.
  replace (32 * S n)%nat with (32 + 32 * n)%nat by lia.
  replace (32 * S k)%nat with (32 * k + 32)%nat by lia. rewrite <- drop_drop.
  generalize (drop (32 * k) s). intros l. rewrite <- (take_drop 32 l) at 3.
  destruct (decide (32 ≤ length l)%nat).
  - rewrite take_app_ge; rewrite length_take, Nat.min_l by lia; [|lia]. do 2 f_equal. lia.
  - rewrite (drop_ge l) by lia. rewrite take_nil, !app_nil_r, take_take. f_equal. lia.
Qed.

Lemma full_hashes_spec s :
  512 ≤ size s → size s < 2 ^ 63 →
  concat (full_hashes s) = take 512 s ∧ length (full_hashes s) = 16%nat ∧
  ∀ h, h ∈ full_hashes s → length h = 32%nat.
Proof.
  intros Hs Hm. unfold full_hashes. split; [|split].
  - rewrite (full_hashes_from 16 s) by (unfold size in *; lia). done.
  - done.
  - intros h (i & -> & Hi)%list_elem_of_fmap. apply elem_of_seq in Hi. apply get256_slice; unfold size in *; lia.
Qed.

Lemma concat_hashes_length (hashes : list uint256) :
  (∀ h, h ∈ hashes → length h = 32%nat) → length (concat hashes) = (32 * length hashes)%nat.
Proof.
  intros Hh. induction hashes as [|h hs IH]; [done|]. cbn [concat length].
  rewrite length_app, Hh, IH by set_solver. lia.
Qed.

Lemma full_hashes_concat hashes rest :
  length hashes = 16%nat → (∀ h, h ∈ hashes → length h = 32%nat) → size (concat hashes ++ rest) < 2 ^ 63 →
  full_hashes (concat hashes ++ rest) = hashes ∧ length (concat hashes) = 512%nat.
Proof.
  intros Hl Hh Hm.
  pose proof (concat_hashes_length hashes Hh) as Hc. rewrite Hl in Hc. split; [|done].
  destruct (full_hashes_spec (concat hashes ++ rest)) as (Ec & El & Eh); [unfold size; rewrite length_app; lia|done|].
  apply concat_fixed_inj; [done|done|congruence|].
  rewrite Ec, take_app_le by lia. change (32 * 16)%nat with 512%nat in Hc. by rewrite <- Hc, firstn_all.
Qed.

Lemma chop_32 data key :
  length key = 32%nat → size (data ++ key) < 2 ^ 63 → chop (data ++ key) 32 = Some data.
Proof.
  intros Hk Hm. unfold chop, size in *. rewrite u64_small, length_app by lia.
  rewrite (proj2 (Z.ltb_ge _ _)) by lia. replace (length data + length key - Z.to_nat 32)%nat with (length data) by lia.
  by rewrite take_app_length.
Qed.

Lemma split_key s :
  32 ≤ size s → size s < 2 ^ 63 →
  ∃ data key, s = data ++ key ∧ length key = 32%nat ∧ get256 s (size s - 32) = key ∧ chop s 32 = Some data.
Proof.
  intros Hs Hm. set (n := (length s - 32)%nat). exists (take n s), (drop n s).
  assert (length (drop n s) = 32%nat) as Hk by (rewrite length_drop; unfold size in *; lia).
  split; [by rewrite take_drop|]. split; [done|]. split.
  - destruct (get256_slice s (size s - 32)) as [-> _]; [lia|lia|done|].
    replace (Z.to_nat (size s - 32)) with n by (unfold size in *; lia). rewrite take_ge; [done|lia].
  - rewrite <- (take_drop n s) at 1. apply chop_32; [done|]. by rewrite take_drop.
Qed.

(** ** The prefix form is canonical *)
Section raw.
Context (sha512Half : list Z → uint256).
#[local] Abbreviation make := (make sha512Half).

(** The hash of a node made without a known hash. *)
Definition honest_hash (n : SNode) : Prop :=
  match n with
  | SLeaf item type h => h = sha512Half (leaf_preimage item type)
  | SInner v hashes isb _ _ h => h = inner_hash sha512Half v hashes isb
  end.

Lemma keyed_leaf_inv s type zero_ok n :
  size s < 2 ^ 63 → keyed_leaf sha512Half s type zero_ok None = inr (Some n) →
  ∃ data key, s = data ++ key ∧ length key = 32%nat ∧
    n = SLeaf (mkItem key data) type (sha512Half (leaf_preimage (mkItem key data) type)).
Proof.
  intros Hm. unfold keyed_leaf. destruct (Z.ltb_spec (size s) 32); [done|].
  destruct (split_key s) as (data & key & -> & Hk & Eg & Ec); [lia|done|]. rewrite Eg, Ec. simpl.
  destruct (negb zero_ok && negb (isNonZero key)); [done|]. intros [= <-]. by exists data, key.
Qed.

Lemma make_prefix_inner_inv isV2 s n :
  size s < 2 ^ 63 → in_base 256 s → make_prefix_inner sha512Half isV2 s None = Some (inr (Some n)) →
  ∃ v hashes, n = make_inner sha512Half v hashes (nonzero_branches hashes) None ∧ length hashes = 16%nat ∧
    (∀ h, h ∈ hashes → length h = 32%nat) ∧
    inner_preimage v hashes = (if isV2 then HashPrefix.innerNodeV2 else HashPrefix.innerNode) ++ s.
Proof.
  intros Hm Hb. unfold make_prefix_inner. destruct (Z.ltb_spec (size s) 512) as [|Hs]; [done|].
  destruct (full_hashes_spec s Hs Hm) as (Ec & El & Eh). destruct isV2; simpl.
  - destruct (Z.eqb_spec (size s) 512); [done|]. simpl.
    assert (∃ d, s !! 512%nat = Some d ∧ 0 ≤ d < 256) as (d & Hd & Hdb).
    { destruct (lookup_lt_is_Some_2 s 512) as [d Hd]; [unfold size in *; lia|]. exists d. split; [done|].
      by eapply in_base_lookup. }
    assert (get8_at s 512 = Some d) as ->.
    { unfold get8_at. rewrite u64_small by lia. rewrite (proj2 (Z.leb_gt _ _)) by lia.
      f_equal. by apply list_lookup_total_correct. }
    simpl. destruct (Z.eqb_spec (size s) (512 + 1 + (d + 1) / 2)) as [Hn|]; [|done]. simpl.
    destruct (Z.ltb_spec 32 ((d + 1) / 2)) as [|Hn32]; [done|]. intros [= <-].
    set (k := Z.to_nat ((d + 1) / 2)). eexists _, _. split; [reflexivity|]. split; [done|]. split; [done|].
    assert (length s = (513 + k)%nat) as Hl by (unfold size, k in *; Z.to_euclidean_division_equations; lia).
    assert (length (take k (drop 513 s)) = k) as Hk by (rewrite length_take, length_drop; lia).
    unfold inner_preimage. f_equal. fold k. rewrite Ec, (Z.mod_small d) by lia.
    rewrite take_app_le, take_take, Nat.min_id by lia. rewrite (take_ge (drop 513 s)) by (rewrite length_drop; lia).
    rewrite <- (take_drop 512 s) at 3. f_equal. by rewrite (drop_S s d 512).
  - destruct (Z.eqb_spec (size s) 512) as [E|]; [|done]. simpl. intros [= <-].
    eexists _, _. split; [reflexivity|]. split; [done|]. split; [done|].
    unfold inner_preimage. f_equal. by rewrite Ec, take_ge by (unfold size in E; lia).
Qed.

Lemma make_prefix_inv raw n :
  size raw < 2 ^ 63 → in_base 256 raw → make_prefix sha512Half raw None = Some (inr (Some n)) →
  node_raw n snfPREFIX = raw ∧ honest_hash n ∧
  match n with
  | SLeaf item type h => if decide (type = tnTRANSACTION_NM) then item_key item = h else length (item_key item) = 32%nat
  | SInner v hashes isb cs _ _ => length hashes = 16%nat ∧ isb = nonzero_branches hashes ∧ cs = replicate 16 None
  end.
Proof.
  intros Hm Hb. unfold make_prefix. destruct (Z.ltb_spec (size raw) 4); [done|].
  assert (∀ p, take 4 raw = p → p ++ drop 4 raw = raw) as Hr by (intros p <-; apply take_drop).
  assert (size (drop 4 raw) < 2 ^ 63) as Hm' by (unfold size in *; rewrite length_drop; lia).
  assert (in_base 256 (drop 4 raw)) as Hb' by by apply Forall_drop.
  assert (∀ s T z, s = drop 4 raw → Some (keyed_leaf sha512Half s T z None) = Some (inr (Some n)) →
    ∃ data key, drop 4 raw = data ++ key ∧ length key = 32%nat ∧
      n = SLeaf (mkItem key data) T (sha512Half (leaf_preimage (mkItem key data) T))) as Hleaf.
  { intros s T z -> [= Hn]. by eapply keyed_leaf_inv. }
  cbv zeta. do 4 try (case_bool_decide as Hp; [intros Hn|clear Hp]); try (case_bool_decide as Hp; intros Hn; [|done]).
  - injection Hn as <-. split; [exact (Hr _ Hp)|]. split; [done|].
    symmetry. exact (f_equal sha512Half (Hr _ Hp)).
  - apply Hleaf in Hn as (data & key & Hs & Hk & ->); [|done].
    rewrite Hs in Hr. split; [exact (Hr _ Hp)|done].
  - apply make_prefix_inner_inv in Hn as (v & hashes & -> & Hl & Hh & E); [|done..].
    split; [exact (eq_trans E (Hr _ Hp))|done].
  - apply make_prefix_inner_inv in Hn as (v & hashes & -> & Hl & Hh & E); [|done..].
    split; [exact (eq_trans E (Hr _ Hp))|done].
  - apply Hleaf in Hn as (data & key & Hs & Hk & ->); [|done].
    rewrite Hs in Hr. split; [exact (Hr _ Hp)|done].
Qed.

(** ** The compressed wire form *)
Definition branch_bits (hashes : list uint256) (isb : list bool) : Prop :=
  Forall2 (λ h (b : bool), length h = 32%nat ∧ b = isNonZero h) hashes isb.

Lemma isNonZero_false h : isNonZero h = false → h = zero256.
Proof. unfold isNonZero. by case_bool_decide. Qed.

Lemma compressed_size hashes isb i :
  branch_bits hashes isb → size (compressed i hashes isb) = 33 * s_branch_count isb.
Proof.
  intros H. revert i. induction H as [|h b hashes isb [Hh _] _ IH]; intros i; [done|].
  unfold size, s_branch_count in *. cbn [compressed sumZ]. rewrite length_app, Nat2Z.inj_add, IH.
  destruct b; rewrite ?length_app, ?Hh; simpl; lia.
Qed.

Lemma branch_count_bound isb : 0 ≤ s_branch_count isb ≤ Z.of_nat (length isb).
Proof. unfold s_branch_count. induction isb as [|[] l IH]; simpl; lia. Qed.

Lemma entries_compressed hashes isb :
  branch_bits hashes isb → ∀ pre i A AB,
  size pre = 33 * i → 0 ≤ i → size (pre ++ compressed (Z.of_nat (length A)) hashes isb) < 2 ^ 63 →
  length A = length AB → (length A + length hashes ≤ 16)%nat →
  entries_loop (Z.to_nat (s_branch_count isb)) i (pre ++ compressed (Z.of_nat (length A)) hashes isb)
    (A ++ replicate (length hashes) zero256) (AB ++ replicate (length isb) false) =
  inr (A ++ hashes, AB ++ isb).
Proof.
  induction 1 as [|h b hashes isb [Hh Hb] Hs IH]; intros pre i A AB Hp Hi Hm Hl H16; [by rewrite !app_nil_r|].
  cbn [compressed length replicate] in *. unfold s_branch_count in *. cbn [sumZ].
  pose proof (branch_count_bound isb) as Hcnt. unfold s_branch_count in Hcnt. destruct b.
  - replace (Z.to_nat _) with (S (Z.to_nat (sumZ (λ b : bool, if b then 1 else 0) isb))) by lia.
    cbn [entries_loop]. set (s := pre ++ _) in *.
    assert (s = (pre ++ h) ++ byte (Z.of_nat (length A)) ::
      compressed (Z.of_nat (length A) + 1) hashes isb) as Es by (unfold s; by rewrite <- !(assoc_L (++))).
    assert (size pre ≤ size s) as Hpre by (unfold s, size; rewrite length_app; lia).
    assert (get8_at s (32 + i * 33) = Some (Z.of_nat (length A))) as ->.
    { unfold get8_at. rewrite u64_small by lia. rewrite Es. unfold size in *. rewrite !length_app, Hh. cbn [length].
      rewrite (proj2 (Z.leb_gt _ _)) by lia. f_equal.
      rewrite list_lookup_total_middle by (rewrite length_app; lia). apply Z.mod_small. lia. }
    rewrite (proj2 (Z.ltb_ge _ 0)), (proj2 (Z.leb_gt 16 _)) by lia. cbn [orb].
    assert (get256 s (i * 33) = h) as ->.
    { replace (i * 33) with (size pre) by lia. unfold s. rewrite <- (assoc_L (++)). apply get256_app; [done|].
      unfold s in Hm. by rewrite <- (assoc_L (++)) in Hm. }
    rewrite <- Hb, !Nat2Z.id. unfold s. rewrite (insert_app_r_alt A) by lia. rewrite Nat.sub_diag. cbn [insert list_insert].
    rewrite Hl, (insert_app_r_alt AB) by lia. rewrite Nat.sub_diag. cbn [insert list_insert].
    rewrite <- Hl, !(cons_middle _ A), !(cons_middle _ AB), !(assoc_L (++)).
    replace (Z.of_nat (length A) + 1) with (Z.of_nat (length (A ++ [h]))) by (rewrite length_app; simpl; lia).
    apply IH; [unfold size in *; rewrite !length_app, Hh; simpl; lia|lia| |by rewrite !length_app, Hl|].
    + unfold s in Hm. revert Hm. rewrite length_app. simpl. rewrite !(assoc_L (++)).
      by replace (Z.of_nat (length A + 1)) with (Z.of_nat (length A) + 1) by lia.
    + rewrite length_app. simpl. lia.
  - symmetry in Hb. apply isNonZero_false in Hb as ->. simpl in Hm |- *.
    rewrite !(cons_middle _ A), !(cons_middle _ AB), !(assoc_L (++)).
    replace (Z.of_nat (length A) + 1) with (Z.of_nat (length (A ++ [zero256]))) in * by (rewrite length_app; simpl; lia).
    apply IH; [done|done|done|by rewrite !length_app, Hl|]. rewrite length_app. simpl. lia.
Qed.

(** ** Nodes of a map *)
Context (sha512Half_length : ∀ x, length (sha512Half x) = 32%nat).
Context (v2 : bool) (T : TNType) (HT : is_leaf_type T).

Lemma pack_tail n q :
  (length q ≤ 2 * n)%nat →
  pack n q = take (Z.to_nat ((Z.of_nat (length q) + 1) / 2)) (pack n q) ++
             drop (Z.to_nat ((Z.of_nat (length q) + 1) / 2)) (replicate n 0).
Proof.
  assert (∀ m, pack m [] = replicate m 0) as Hnil.
  { induction m as [|m IHm]; [done|]. change (pack (S m) []) with (0 :: pack m []). by rewrite IHm. }
  revert n. induction q as [q IH] using (induction_ltof1 _ length); unfold ltof in IH. intros n Hl.
  destruct q as [|h [|l q]].
  - by rewrite Hnil.
  - destruct n as [|n]; [simpl in Hl; lia|]. change (pack (S n) [h]) with (16 * h :: pack n []). by rewrite Hnil.
  - destruct n as [|n]; [simpl in Hl; lia|]. change (pack (S n) (h :: l :: q)) with (16 * h + l :: pack n q). cbn [length replicate].
    replace (Z.to_nat _) with (S (Z.to_nat ((Z.of_nat (length q) + 1) / 2)))
      by (Z.to_euclidean_division_equations; lia).
    cbn [take drop]. simpl. f_equal. apply IH; simpl in *; lia.
Qed.

(** What reading a node back relies on. *)
Definition storable (n : Node) : Prop :=
  match n with
  | Leaf item type =>
      type = T ∧ is_u256 (item_key item) ∧ large_enough item = true ∧ size (item_data item) < 2 ^ 62 ∧
      (T ≠ tnTRANSACTION_NM → item_key item ≠ zero256) ∧ keyed sha512Half T [item]
  | Inner v cs =>
      ∃ p q, at_path v2 p q v ∧ in_base 16 q ∧ (length q < 64)%nat ∧ length cs = 16%nat ∧
        ∀ c, Some c ∈ cs → getNodeHash sha512Half c ≠ zero256
  end.

Lemma storable_bits v cs :
  storable (Inner v cs) →
  let hashes := map (getChildHash sha512Half) cs in
  let isb := map (λ o : option Node, bool_decide (is_Some o)) cs in
  length hashes = 16%nat ∧ branch_bits hashes isb ∧ nonzero_branches hashes = isb ∧
  (∀ h, h ∈ hashes → length h = 32%nat) ∧ s_branch_count isb = getBranchCount cs.
Proof.
  intros (p & q & Hat & Hq & Hlq & Hl & Hz). cbn zeta.
  assert (∀ o, o ∈ cs → bool_decide (is_Some o) = isNonZero (getChildHash sha512Half o)) as Hb.
  { intros [c|] Ho; simpl; [|by unfold isNonZero; rewrite bool_decide_eq_true_2 by done].
    unfold isNonZero. by rewrite (bool_decide_eq_false_2 _ (Hz c Ho)). }
  split; [by rewrite length_map|]. split; [|split; [|split]].
  - unfold branch_bits. apply Forall2_fmap, Forall_Forall2_diag, Forall_forall. intros o Ho.
    split; [by apply getChildHash_length|by apply Hb].
  - unfold nonzero_branches. rewrite map_map. apply list_fmap_ext. intros i o Ho. symmetry.
    apply Hb. by eapply list_elem_of_lookup_2.
  - intros h. by apply child_hashes_length.
  - clear. unfold s_branch_count. induction cs as [|[c|] cs IH]; [done|..]; simpl; rewrite IH; done.
Qed.

Lemma stored_inner v cs :
  storable (Inner v cs) → getNodeHash sha512Half (Inner v cs) ≠ zero256 →
  make_inner sha512Half v (map (getChildHash sha512Half) cs) (map (λ o, bool_decide (is_Some o)) cs) None =
  shallow (stored sha512Half (Inner v cs)) ∧
  getNodeHash sha512Half (Inner v cs) = sha512Half (inner_preimage v (map (getChildHash sha512Half) cs)).
Proof.
  intros Hs Hz. destruct (storable_bits v cs Hs) as (_ & _ & _ & _ & Hc). simpl in Hz |- *.
  destruct (Z.eqb_spec (getBranchCount cs) 0) as [|Hn]; [done|]. split; [|done].
  unfold make_inner, inner_hash. simpl. by rewrite Hc, (proj2 (Z.eqb_neq _ _) Hn).
Qed.

Lemma keyed_leaf_make item type zero_ok :
  is_u256 (item_key item) → size (item_data item) < 2 ^ 62 → (zero_ok = false → item_key item ≠ zero256) →
  keyed_leaf sha512Half (item_data item ++ item_key item) type zero_ok None =
  inr (Some (SLeaf item type (sha512Half (leaf_preimage item type)))).
Proof.
  intros [Hk _] Hd Hz. destruct item as [key data]. simpl in *. unfold keyed_leaf.
  assert (size (data ++ key) < 2 ^ 63 ∧ size (data ++ key) = size data + 32) as [Hm Es]
    by (unfold size in *; rewrite length_app; lia).
  rewrite (proj2 (Z.ltb_ge _ _)) by (unfold size in *; lia). rewrite chop_32 by done.
  replace (size (data ++ key) - 32) with (size data) by lia.
  replace (data ++ key) with (data ++ key ++ []) by by rewrite app_nil_r.
  rewrite get256_app by (done || by rewrite app_nil_r). simpl.
  destruct zero_ok; [done|]. unfold isNonZero. by rewrite bool_decide_eq_false_2 by auto.
Qed.

(** No assertion fails for a node of a map. *)
Lemma storable_asserted n : storable n → ∀ r,
  r = inr (Some (shallow (stored sha512Half n))) → leaf_asserted r = Some r.
Proof. intros Hs r ->. destruct n as [item type|v cs]; [|done]. simpl. by destruct Hs as (_ & _ & -> & _). Qed.

Lemma prefix_made n :
  storable n → getNodeHash sha512Half n ≠ zero256 →
  make_prefix sha512Half (node_raw (stored sha512Half n) snfPREFIX) None =
    Some (inr (Some (shallow (stored sha512Half n)))).
Proof.
  intros Hs Hz. destruct n as [item type|v cs].
  - destruct Hs as (-> & Hk & _ & Hd & Hnz & Hkey). destruct HT as [H1 H2]. destruct item as [key data].
    simpl in Hk, Hd, Hnz. destruct T; try done.
    + specialize (Hkey eq_refl (mkItem key data) ltac:(set_solver)). simpl in Hkey.
      unfold make_prefix, node_raw, stored, shallow, leaf_preimage, HashPrefix.transactionID, HashPrefix.make in *. simpl.
      rewrite (proj2 (Z.ltb_ge _ _)) by (unfold size; simpl; lia).
      unfold make_leaf. simpl. by rewrite Hkey at 1.
    + pose proof (keyed_leaf_make (mkItem key data) tnTRANSACTION_MD true Hk Hd ltac:(done)) as E.
      unfold make_prefix, node_raw, stored, shallow, leaf_preimage, HashPrefix.txNode, HashPrefix.make in *. simpl.
      rewrite (proj2 (Z.ltb_ge _ _)) by (unfold size; simpl; lia). exact (f_equal Some E).
    + pose proof (keyed_leaf_make (mkItem key data) tnACCOUNT_STATE false Hk Hd ltac:(auto)) as E.
      unfold make_prefix, node_raw, stored, shallow, leaf_preimage, HashPrefix.leafNode, HashPrefix.make in *. simpl.
      rewrite (proj2 (Z.ltb_ge _ _)) by (unfold size; simpl; lia). exact (f_equal Some E).
  - destruct (stored_inner v cs Hs Hz) as [Em _]. destruct (storable_bits v cs Hs) as (Hl & _ & Hnb & Hh & _).
    destruct Hs as (p & q & Hat & Hq & Hlq & _). rewrite <- Em. clear Em. cbn [stored node_raw].
    set (hashes := map _ cs) in *. rewrite <- Hnb. unfold make_prefix, inner_preimage. destruct v2.
    + destruct Hat as [_ ->]. set (k := Z.to_nat _).
      assert ((k ≤ 32)%nat) as Hk by (unfold k; Z.to_euclidean_division_equations; lia).
      assert (length (pack 32 q) = 32%nat) as Hpl by by apply pack_spec.
      destruct (full_hashes_concat hashes ([Z.of_nat (length q) mod 256] ++ take k (pack 32 q))) as [Ef Ec]; [done|done| |].
      { unfold size. rewrite !length_app, length_take, concat_hashes_length, Hl by done. simpl. lia. }
      set (s := concat hashes ++ _) in *.
      assert (length s = (513 + k)%nat) as Hs by (unfold s; rewrite !length_app, Ec, length_take; simpl; lia).
      simpl. rewrite (proj2 (Z.ltb_ge _ _)) by (unfold size; simpl; lia).
      change (make_prefix_inner sha512Half true s None =
        Some (inr (Some (make_inner sha512Half (Some (Z.of_nat (length q), pack 32 q)) hashes (nonzero_branches hashes) None)))).
      unfold make_prefix_inner. rewrite Ef.
      rewrite (proj2 (Z.ltb_ge _ _)), (proj2 (Z.eqb_neq _ _)) by (unfold size; lia). cbn [negb orb andb].
      assert (get8_at s 512 = Some (Z.of_nat (length q))) as ->.
      { unfold get8_at, size. rewrite u64_small, (proj2 (Z.leb_gt _ _)) by lia. f_equal. unfold s.
        apply list_lookup_total_correct. rewrite lookup_app_r by lia. rewrite Ec. simpl.
        f_equal. apply Z.mod_small. lia. }
      simpl default. replace ((Z.of_nat (length q) + 1) / 2) with (Z.of_nat k) by (unfold k; Z.to_euclidean_division_equations; lia).
      rewrite (proj2 (Z.eqb_eq _ _)), (proj2 (Z.ltb_ge _ _)) by (unfold size; lia). cbn [negb]. rewrite Nat2Z.id.
      assert (drop 513 s = take k (pack 32 q)) as ->.
      { unfold s. change 513%nat with (512 + 1)%nat. rewrite <- Ec, <- drop_drop, drop_app_length. done. }
      rewrite take_take, Nat.min_id. do 6 f_equal. symmetry. apply pack_tail. lia.
    + destruct Hat as [_ ->].
      destruct (full_hashes_concat hashes []) as [Ef Ec]; [done|done| |].
      { rewrite app_nil_r. unfold size. rewrite concat_hashes_length, Hl by done. lia. }
      rewrite app_nil_r in Ef.
      simpl. rewrite (proj2 (Z.ltb_ge _ _)) by (unfold size; simpl; lia).
      change (make_prefix_inner sha512Half false (concat hashes) None =
        Some (inr (Some (make_inner sha512Half None hashes (nonzero_branches hashes) None)))).
      unfold make_prefix_inner. rewrite Ef.
      rewrite (proj2 (Z.ltb_ge _ _)), (proj2 (Z.eqb_eq _ _)) by (unfold size; lia). done.
Qed.

Lemma make_wire_snoc s type hv id :
  make_wire sha512Half (s ++ [type]) hv id =
    let v2 := Some (mDepth id, mNodeID id) in
    let full v :=
      if negb (size s =? 512) then inl runtime_error
      else inr (Some (make_inner sha512Half v (full_hashes s) (nonzero_branches (full_hashes s)) hv)) in
    let short v :=
      match entries s with
      | inl e => inl e
      | inr (hashes, isb) => inr (Some (make_inner sha512Half v hashes isb hv))
      end in
    if (type <? 0) || (6 <? type) then inr None
    else if type =? 0
    then inr (Some (make_leaf sha512Half (mkItem (sha512Half (HashPrefix.transactionID ++ s)) s)
                      tnTRANSACTION_NM hv))
    else if type =? 1 then keyed_leaf sha512Half s tnACCOUNT_STATE false hv
    else if type =? 2 then full None
    else if type =? 3 then short None
    else if type =? 4 then keyed_leaf sha512Half s tnTRANSACTION_MD false hv
    else if type =? 5 then full v2
    else short v2.
Proof. unfold make_wire. by rewrite last_snoc, removelast_last. Qed.

Lemma bump_snoc s b : bump (s ++ [b]) = s ++ [byte (b + 3)].
Proof. unfold bump. by rewrite last_snoc, removelast_last. Qed.

(** Both wire forms of an inner node give back its hashes and branches. *)
Lemma inner_wire_make hashes isb hv id :
  length hashes = 16%nat → branch_bits hashes isb → nonzero_branches hashes = isb →
  (∀ h, h ∈ hashes → length h = 32%nat) →
  make_wire sha512Half (inner_wire hashes isb) hv id = inr (Some (make_inner sha512Half None hashes isb hv)) ∧
  make_wire sha512Half (bump (inner_wire hashes isb)) hv id =
    inr (Some (make_inner sha512Half (Some (mDepth id, mNodeID id)) hashes isb hv)).
Proof.
  intros Hl Hb Hn Hh. assert (length isb = 16%nat) as Hli by by rewrite <- (Forall2_length _ _ _ Hb).
  pose proof (branch_count_bound isb) as Hc. unfold inner_wire. destruct (Z.ltb_spec (s_branch_count isb) 12).
  - pose proof (compressed_size hashes isb 0 Hb) as Hs.
    assert (entries (compressed 0 hashes isb) = inr (hashes, isb)) as He.
    { unfold entries. rewrite Hs, Z.mul_comm, Z.div_mul by lia.
      pose proof (entries_compressed hashes isb Hb [] 0 [] [] eq_refl ltac:(lia)) as E. simpl in E.
      rewrite Hl, Hli in E. change (Z.of_nat 0) with 0 in E. apply E; [lia|done|lia]. }
    rewrite bump_snoc, !make_wire_snoc. cbn zeta. change (byte (3 + 3)) with 6. simpl. by rewrite He.
  - destruct (full_hashes_concat hashes []) as [Ef Ec]; [done|done| |].
    { rewrite app_nil_r. unfold size. rewrite concat_hashes_length, Hl by done. lia. }
    rewrite app_nil_r in Ef. rewrite bump_snoc, !make_wire_snoc. cbn zeta. change (byte (2 + 3)) with 5. simpl.
    rewrite Ef, Hn. unfold size. rewrite Ec. done.
Qed.

(** The identifier a node is sent with. *)
Definition sent_with (n : Node) (id : SHAMapNodeID) : Prop :=
  match n with Inner (Some (depth, common)) _ => id = mkNodeID depth common | _ => True end.

Lemma wire_made n id :
  storable n → getNodeHash sha512Half n ≠ zero256 → sent_with n id →
  make_wire sha512Half (node_raw (stored sha512Half n) snfWIRE) None id =
    inr (Some (shallow (stored sha512Half n))).
Proof.
  intros Hs Hz Hid. destruct n as [item type|v cs].
  - destruct Hs as (-> & Hk & _ & Hd & Hnz & Hkey). destruct HT as [H1 H2]. destruct item as [key data].
    simpl in Hk, Hd, Hnz. cbn [stored node_raw shallow item_data item_key]. destruct T; try done.
    + specialize (Hkey eq_refl (mkItem key data) ltac:(set_solver)). simpl in Hkey.
      rewrite make_wire_snoc. cbn zeta. simpl. unfold make_leaf. simpl. do 3 f_equal. f_equal. by symmetry.
    + rewrite (assoc_L (++)), make_wire_snoc. cbn zeta. simpl.
      apply (keyed_leaf_make (mkItem key data)); auto.
    + rewrite (assoc_L (++)), make_wire_snoc. cbn zeta. simpl.
      apply (keyed_leaf_make (mkItem key data)); auto.
  - destruct (stored_inner v cs Hs Hz) as [Em _]. destruct (storable_bits v cs Hs) as (Hl & Hb & Hnb & Hh & _).
    rewrite <- Em. cbn [stored node_raw].
    destruct (inner_wire_make _ _ None id Hl Hb Hnb Hh) as [E1 E2].
    destruct v as [[d c]|]; [|done]. simpl in Hid. subst id. done.
Qed.

Lemma prefix_roundtrip n id :
  storable n → getNodeHash sha512Half n ≠ zero256 →
  make (node_raw (stored sha512Half n) snfPREFIX) snfPREFIX None id =
    Some (inr (Some (shallow (stored sha512Half n)))).
Proof. intros Hs Hz. unfold SHAMapRaw.make. rewrite prefix_made by done. by apply (storable_asserted n). Qed.

Lemma wire_roundtrip n id :
  storable n → getNodeHash sha512Half n ≠ zero256 → sent_with n id →
  make (node_raw (stored sha512Half n) snfWIRE) snfWIRE None id =
    Some (inr (Some (shallow (stored sha512Half n)))).
Proof. intros Hs Hz Hid. unfold SHAMapRaw.make. rewrite wire_made by done. by apply (storable_asserted n). Qed.
End raw.

(** ** The nodes of a tree *)
Inductive node_of : Node → Node → Prop :=
  | node_here n : node_of n n
  | node_below n v cs i c : cs !! i = Some (Some c) → node_of n c → node_of n (Inner v cs).

Lemma node_of_items n r x : node_of n r → x ∈ items n → x ∈ items r.
Proof.
  induction 1 as [|n v cs i c Hi Hn IH]; [done|]. intros Hx. rewrite items_inner. apply citems_elem. eauto.
Qed.

(** What the server relies on for the items of a map that is stored. *)
Definition items_ok (sha512Half : list Z → uint256) (T : TNType) (l : list SHAMapItem) : Prop :=
  keyed sha512Half T l ∧
  ∀ x, x ∈ l → size (item_data x) < 2 ^ 62 ∧ (T ≠ tnTRANSACTION_NM → item_key x ≠ zero256).

Lemma items_ok_sub sha512Half T l l' :
  (∀ x, x ∈ l' → x ∈ l) → items_ok sha512Half T l → items_ok sha512Half T l'.
Proof. intros Hs [Hk Ho]. split; [intros E x Hx; by apply Hk, Hs|auto]. Qed.

Section nodes.
Context (sha512Half : list Z → uint256) (Hlen256 : ∀ x, length (sha512Half x) = 32%nat) (v2 : bool) (T : TNType) (HT : is_leaf_type T).

Lemma wf_storable n : ∀ p,
  wf v2 T p n → collision_free sha512Half (hashed sha512Half n) → items_ok sha512Half T (items n) →
  storable sha512Half v2 T n ∧ getNodeHash sha512Half n ≠ zero256.
Proof.
  intros p Hw Hcf Hi. split; [|by eapply (hash_nonzero _ Hlen256 _ _ HT)].
  destruct Hw as [p item Hk _ Hlg|p q v cs Hat Hq Hl Hlen Hc _].
  - destruct Hi as [Hkey Ho]. destruct (Ho item ltac:(rewrite items_leaf; set_solver)). simpl. by rewrite items_leaf in Hkey.
  - exists p, q. split_and!; try done. intros c [i Hci]%list_elem_of_lookup.
    eapply (hash_nonzero _ Hlen256 _ _ HT); [by eapply Hc|]. by eapply child_collision_free.
Qed.

Lemma node_of_wf n r : node_of n r → ∀ p,
  wf v2 T p r → collision_free sha512Half (hashed sha512Half r) →
  (∃ q, wf v2 T q n) ∧ collision_free sha512Half (hashed sha512Half n).
Proof.
  induction 1 as [n|n v cs i c Hi Hn IH]; intros p Hw Hcf; [eauto|].
  apply wf_body in Hw as (q & _ & (_ & _ & _ & Hc) & _).
  eapply IH; [by eapply Hc|by eapply child_collision_free].
Qed.

Lemma root_nodes_storable r n :
  wf_root v2 T r → collision_free sha512Half (hashed sha512Half r) → items_ok sha512Half T (items r) →
  node_of n r → getNodeHash sha512Half n ≠ zero256 → storable sha512Half v2 T n.
Proof.
  intros Hr Hcf Hi Hn Hz. assert (items_ok sha512Half T (items n)) as Hi'.
  { eapply items_ok_sub; [|exact Hi]. intros x. by apply node_of_items. }
  destruct r as [|v cs]; [done|]. destruct Hr as [Hat (Hq & Hl & Hlen & Hc)].
  inversion Hn as [|? ? ? i c Hci Hnc]; subst.
  - exists [], []. split_and!; try done. intros c [i Hci]%list_elem_of_lookup.
    eapply (hash_nonzero _ Hlen256 _ _ HT); [by eapply Hc|]. by eapply child_collision_free.
  - destruct (node_of_wf n c Hnc (([] : list Z) ++ [Z.of_nat i])) as [[q Hw] Hcf']; [by apply Hc|by eapply child_collision_free|].
    by eapply wf_storable.
Qed.
End nodes.

(** ** Claims *)

(** C31: Nodes are read back.  Every node of a map, of either version, written in
    the form of the node store or of the network, is read back as that node with
    its children known by their hashes; and the node's hash is the hash of its
    stored form. *)
Theorem shamap_node_roundtrip sha512Half isTransaction hasMeta v2 r n id :
  (∀ x, length (sha512Half x) = 32%nat) →
  reach sha512Half isTransaction hasMeta v2 r →
  items_ok sha512Half (leaf_type isTransaction hasMeta) (items r) →
  collision_free sha512Half (hashed sha512Half r) →
  node_of n r → getNodeHash sha512Half n ≠ zero256 → sent_with n id →
  let s := stored sha512Half n in
  make sha512Half (node_raw s snfPREFIX) snfPREFIX None id = Some (inr (Some (shallow s))) ∧
  make sha512Half (node_raw s snfWIRE) snfWIRE None id = Some (inr (Some (shallow s))) ∧
  getNodeHash sha512Half n = sha512Half (node_raw s snfPREFIX).
Proof.
  intros Hlen Hr%reach_wf Hi Hcf Hn Hz Hid s.
  pose proof (leaf_type_ok isTransaction hasMeta) as HT.
  pose proof (root_nodes_storable _ Hlen _ _ HT r n Hr Hcf Hi Hn Hz) as Hs.
  split; [by eapply prefix_roundtrip|]. split; [by eapply wire_roundtrip|].
  destruct n as [item type|v cs]; [done|]. by eapply stored_inner.
Qed.

Lemma make_asserted sha512Half raw id n :
  make sha512Half raw snfPREFIX None id = Some (inr (Some n)) → make_prefix sha512Half raw None = Some (inr (Some n)).
Proof.
  simpl. intros (r & -> & Hr)%bind_Some. f_equal. destruct r as [|[[item ty h|]|]]; simpl in Hr; try congruence.
  destruct (large_enough item); congruence.
Qed.

(** Stored nodes are addressed by their content.  Whatever bytes of the store
    are read as a node, writing the node gives back the same bytes, and its hash
    is the hash of these bytes (zero for an inner node without branches). *)
Theorem shamap_store_canonical sha512Half raw id n :
  size raw < 2 ^ 63 → in_base 256 raw →
  make sha512Half raw snfPREFIX None id = Some (inr (Some n)) →
  node_raw n snfPREFIX = raw ∧
  s_hash n = match n with
             | SInner _ hashes _ _ _ _ =>
                 if bool_decide (Forall (λ h, h = zero256) hashes) then zero256 else sha512Half raw
             | _ => sha512Half raw
             end.
Proof.
  intros Hs Hb Hm. apply make_asserted in Hm. destruct (make_prefix_inv sha512Half raw n Hs Hb Hm) as (Hraw & Hh & Hn).
  split; [done|]. destruct n as [item type h|v hashes isb cs g h]; simpl in Hh |- *.
  - by rewrite Hh, <- Hraw.
  - destruct Hn as (_ & -> & _). rewrite Hh. unfold inner_hash. rewrite <- Hraw. simpl.
    destruct (Z.eqb_spec (s_branch_count (nonzero_branches hashes)) 0) as [Hc|Hc]; case_bool_decide as Hf; try done.
    + destruct Hf. clear -Hc. unfold s_branch_count, nonzero_branches in Hc. induction hashes as [|x l IH]; [done|].
      simpl in Hc. pose proof (sumZ_nonneg (λ b : bool, if b then 1 else 0) (map isNonZero l)) as Hp.
      assert (0 ≤ sumZ (λ b : bool, if b then 1 else 0) (map isNonZero l)) by (apply Hp; intros []; lia).
      constructor; [|apply IH; destruct (isNonZero x); lia].
      destruct (isNonZero x) eqn:Hx; [lia|]. by apply isNonZero_false.
    + destruct Hc. clear -Hf. unfold s_branch_count, nonzero_branches.
      induction Hf as [|x l -> Hf IH]; [done|]. simpl. by rewrite IH.
Qed.

(** ** Where [make] is too lenient *)

(** A compressed inner node may name a branch twice; a zero hash after a nonzero
    one leaves the branch marked as present.  The node has the hash of the honest
    node and one branch too many, for which no child exists. *)
Definition honest_wire (h : uint256) : list Z := (h ++ [2]) ++ [3].
Definition bogus_wire (h : uint256) : list Z := (h ++ [5]) ++ (h ++ [2]) ++ (zero256 ++ [5]) ++ [3].

Theorem wire_bogus_branch :
  let h := sample_key [1; 2; 3] in
  ∃ hashes isb isb' hash, isb ≠ isb' ∧
    make sample_hash (honest_wire h) snfWIRE None root_id =
      Some (inr (Some (SInner None hashes isb (replicate 16 None) 0 hash))) ∧
    make sample_hash (bogus_wire h) snfWIRE None root_id =
      Some (inr (Some (SInner None hashes isb' (replicate 16 None) 0 hash))) ∧
    hashes !! 5%nat = Some zero256 ∧ isb' !! 5%nat = Some true.
Proof.
  intros h. eexists _, _, _, _. split; [|split; [|split; [|split]]];
    [|vm_compute; reflexivity|vm_compute; reflexivity|reflexivity|reflexivity]. done.
Qed.

(** A transaction of fewer than 12 bytes on the wire is not refused: the constructor of the leaf
    asserts its size. *)
Theorem wire_short_leaf : make sample_hash [1; 2; 3; 0] snfWIRE None root_id = None.
Proof. reflexivity. Qed.

(** The depth of a version 2 node is not checked: [common_] is overrun. *)
Theorem prefix_depth_overrun sha512Half hv id :
  make sha512Half (HashPrefix.innerNodeV2 ++ replicate 512 1 ++ [255] ++ replicate 128 1) snfPREFIX hv id = None.
Proof. reflexivity. Qed.

(** ** Witnesses *)
Lemma sample_items_ok v2 : items_ok sample_hash tnACCOUNT_STATE (items (sample_map v2 sample_ops)).
Proof.
  split; [done|]. intros x Hx.
  assert (forallb (λ x, (size (item_data x) <? 2 ^ 62) && isNonZero (item_key x))
    (items (sample_map v2 sample_ops)) = true) as H by (destruct v2; vm_compute; reflexivity).
  rewrite forallb_forall in H. apply list_elem_of_In, H, andb_true_iff in Hx as [H1 H2].
  split; [by apply Z.ltb_lt|]. intros _. unfold isNonZero in H2. by case_bool_decide.
Qed.

Lemma shamap_node_roundtrip_witness :
  let r := sample_map true sample_ops in
  make sample_hash (node_raw (stored sample_hash r) snfWIRE) snfWIRE None root_id =
  Some (inr (Some (shallow (stored sample_hash r)))).
Proof.
  apply (shamap_node_roundtrip sample_hash false false true (sample_map true sample_ops)
           (sample_map true sample_ops) root_id).
  - exact sample_hash_length.
  - apply sample_map_reach. by destruct sample_ops_ok.
  - exact (sample_items_ok true).
  - apply collides_free. vm_compute. reflexivity.
  - constructor.
  - vm_compute. discriminate.
  - vm_compute. reflexivity.
Defined.

Lemma shamap_store_canonical_witness :
  let raw := HashPrefix.leafNode ++ replicate 12 9 ++ sample_key [7] in
  ∃ n, make sample_hash raw snfPREFIX None root_id = Some (inr (Some n)) ∧ node_raw n snfPREFIX = raw.
Proof.
  eexists. split; [vm_compute; reflexivity|].
  apply (shamap_store_canonical sample_hash _ root_id); [by vm_compute| |by vm_compute].
  repeat constructor; lia.
Defined.
