(* ===== verification/SHAMapSync.v ===== *)
(** * SHAMap: synchronization

    src/src/ripple/shamap/impl/SHAMapSync.cpp, with [descend], [canonicalizeChild]
    and [isInconsistentNode] of SHAMap.cpp and SHAMapTreeNode.cpp: a map of which
    only the root hash is known is filled with nodes that other servers send.

    The map is a tree [SNode] of which parts are missing.  Nodes are shared
    objects in the source; each is reached by one path, so that an update of a
    node is the update of the tree along its path.  What the model does not own is
    an argument: [fetch], the node of a hash in the tree cache, the node store or
    the filter; [touch_if_exists], the cache of hashes below which nothing is
    missing; and [generation], its generation.  A failed assertion is [None].
    Nodes are added to maps of both versions; the lookup [s_findKey] is that of
    version 1, in a map with nothing behind it, and so are the theorems. *)

From stdpp Require Import prelude list gmap.
From Stdlib Require Import ZArith Lia.
From S2P Require Import Prelude.
From S2P Require Import BaseUint.
From S2P Require Import BaseUintTheorems.
From S2P Require Import Serializer.
From S2P Require Import SHAMapNodeID.
From S2P Require Import SHAMap.
From S2P Require Import SHAMapHash.
From S2P Require Import SHAMapRaw.

Inductive SHAMapState := Modifying | Immutable | Synching | Floating | Invalid.
#[export] Instance SHAMapState_eq_dec : EqDecision SHAMapState.
Proof. solve_decision. Defined.

Inductive SHAMapAddNode := duplicate | useful | invalid.
#[export] Instance SHAMapAddNode_eq_dec : EqDecision SHAMapAddNode.
Proof. solve_decision. Defined.

Record SyncMap := mkSync { root_ : SNode; state_ : SHAMapState }.

Definition isSynching (m : SyncMap) : bool :=
  match state_ m with Floating | Synching => true | _ => false end.
Definition setSynching (m : SyncMap) : SyncMap := mkSync (root_ m) Synching.
Definition clearSynching (m : SyncMap) : SyncMap := mkSync (root_ m) Modifying.

Definition s_isInner (n : SNode) : bool :=
  match n with SInner _ _ _ _ _ _ => true | SLeaf _ _ _ => false end.
Definition s_is_v2 (n : SNode) : bool :=
  match n with SInner (Some _) _ _ _ _ _ => true | _ => false end.

(** [SHAMap (type, hash, family, version)] *)
Definition new_sync (v2 : bool) : SyncMap :=
  mkSync (SInner (if v2 then Some (0, zero256) else None) (replicate 16 zero256) (replicate 16 false)
            (replicate 16 None) 0 zero256) Synching.

(** [isInBounds] *)
Definition isInBounds (n : SNode) (id : SHAMapNodeID) : bool := negb (s_isInner n) || (mDepth id <? 64).

(** Whether a node is of the other version; the caller makes the map invalid. *)
Definition isInconsistentNode (v2 : bool) (n : SNode) : bool :=
  s_isInner n && negb (Bool.eqb v2 (s_is_v2 n)).

(** [canonicalizeChild]: the child that is there, or else the new one. *)
Definition canonicalizeChild (branch : Z) (node : SNode) (cs : list (option SNode)) : list (option SNode) :=
  match mjoin (cs !! Z.to_nat branch) with
  | Some _ => cs
  | None => <[Z.to_nat branch := Some node]> cs
  end.

Section sync.
  Variable sha512Half : list Z → uint256.
  Variable fetch : uint256 → option SNode.
  Variable touch_if_exists : uint256 → bool.
  Variable generation : Z.

(** The identifier of the child [descend] returns. *)
Definition child_id (v2 : bool) (parentID : SHAMapNodeID) (branch : Z) (child : option SNode) : SHAMapNodeID :=
  match child with
  | Some c =>
      if v2
      then match c with
           | SInner (Some (depth, common)) _ _ _ _ _ => mkNodeID depth common
           | SInner None _ _ _ _ _ => getChildNodeID parentID branch
           | SLeaf item _ _ => mkNodeID 64 (item_key item)
           end
      else getChildNodeID parentID branch
  | None => getChildNodeID parentID branch
  end.

(** [descend (parent, parentID, branch, filter)]: the child, the children with a
    fetched child in its place, and whether the map became invalid. *)
Definition descend (v2 : bool) (hashes : list uint256) (cs : list (option SNode)) (branch : Z) :
    option SNode * list (option SNode) * bool :=
  match mjoin (cs !! Z.to_nat branch) with
  | Some c => (Some c, cs, false)
  | None =>
      match fetch (hashes !!! Z.to_nat branch) with
      | None => (None, cs, false)
      | Some c =>
          let cs := canonicalizeChild branch c cs in
          if isInconsistentNode v2 c then (None, cs, true) else (Some c, cs, false)
      end
  end.

(** What happens where the walk meets a missing child: the answer, whether the map
    becomes invalid, and whether the node is hooked. *)
Definition hook (v2 : bool) (childHash : uint256) (iNodeID node : SHAMapNodeID) (newNode : option SNode) :
    SHAMapAddNode * bool * bool :=
  match newNode with
  | None => (invalid, false, false)
  | Some n =>
      if negb (bool_decide (childHash = s_hash n)) then (invalid, false, false)
      else if negb (isInBounds n iNodeID) then (useful, true, false)
      else if isInconsistentNode v2 n then (useful, true, false)
      else if (s_is_v2 n && negb (has_common_prefix iNodeID node)) ||
              (negb (s_is_v2 n) && negb (bool_decide (iNodeID = node)))
      then (useful, false, false)
      else (useful, false, true)
  end.

(** The loop of [addKnownNode] from [iNode] on: the answer, the node after it, and
    whether the map becomes invalid. *)
Fixpoint add_walk (fuel : nat) (v2 : bool) (node : SHAMapNodeID) (newNode : option SNode)
    (iNode : SNode) (iNodeID : SHAMapNodeID) : option (SHAMapAddNode * SNode * bool) :=
  match fuel with
  | O => None
  | S fuel =>
      match iNode with
      | SLeaf _ _ _ => Some (duplicate, iNode, false)
      | SInner v hashes isb cs g h =>
          if (g =? generation) || negb (mDepth iNodeID <? mDepth node) then Some (duplicate, iNode, false)
          else
            let branch := selectBranch iNodeID (mNodeID node) in
            if negb (isb !!! Z.to_nat branch) then Some (invalid, iNode, false)
            else
              let childHash := hashes !!! Z.to_nat branch in
              if touch_if_exists childHash then Some (duplicate, iNode, false)
              else
                let '(child, cs, bad) := descend v2 hashes cs branch in
                let childID := child_id v2 iNodeID branch child in
                match child with
                | None =>
                    let '(answer, bad', hooked) := hook v2 childHash childID node newNode in
                    let cs := match newNode with
                              | Some n => if hooked then canonicalizeChild branch n cs else cs
                              | None => cs
                              end in
                    Some (answer, SInner v hashes isb cs g h, bad || bad')
                | Some c =>
                    match add_walk fuel v2 node newNode c childID with
                    | None => None
                    | Some (answer, c, bad') =>
                        Some (answer, SInner v hashes isb (<[Z.to_nat branch := Some c]> cs) g h, bad || bad')
                    end
                end
      end
  end.

(** The outcome: [None] where an assertion fails or the fuel runs
    out, a left value for an exception. *)
Definition addKnownNode (m : SyncMap) (node : SHAMapNodeID) (rawNode : list Z) :
    option (sexn + (SHAMapAddNode * SyncMap)) :=
  if isRoot node then None
  else if negb (isSynching m) then Some (inr (duplicate, m))
  else
    match make sha512Half rawNode snfWIRE None node with
    | None => None
    | Some (inl e) => Some (inl e)
    | Some (inr newNode) =>
        match add_walk path_fuel (s_is_v2 (root_ m)) node newNode (root_ m) root_id with
        | None => None
        | Some (answer, root, bad) =>
            Some (inr (answer, mkSync root (if bad : bool then Invalid else state_ m)))
        end
    end.

Definition addRootNode (m : SyncMap) (hash : uint256) (rootNode : list Z) (format : SHANodeFormat) :
    option (sexn + (SHAMapAddNode * SyncMap)) :=
  if isNonZero (s_hash (root_ m)) then Some (inr (duplicate, m))
  else
    match make sha512Half rootNode format None root_id with
    | None => None
    | Some (inl e) => Some (inl e)
    | Some (inr None) => Some (inr (invalid, m))
    | Some (inr (Some node)) =>
        if negb (bool_decide (s_hash node = hash)) then Some (inr (invalid, m))
        else Some (inr (useful, mkSync node (if s_isInner node then state_ m else Modifying)))
    end.

(** [walkTowardsKey] of version 1 in a map that is not backed by a store, with
    [descendThrow]: a missing node is an exception. *)
Fixpoint s_walk (fuel : nat) (id : uint256) (inNode : SNode) (nodeID : SHAMapNodeID) :
    option (uint256 + option SNode) :=
  match fuel with
  | O => None
  | S fuel =>
      match inNode with
      | SLeaf _ _ _ => Some (inr (Some inNode))
      | SInner _ hashes isb cs _ _ =>
          let branch := selectBranch nodeID id in
          if negb (isb !!! Z.to_nat branch) then Some (inr None)
          else
            match mjoin (cs !! Z.to_nat branch) with
            | None => Some (inl (hashes !!! Z.to_nat branch))
            | Some c => s_walk fuel id c (getChildNodeID nodeID branch)
            end
      end
  end.
Definition s_findKey (root : SNode) (id : uint256) : option (uint256 + option SNode) :=
  match s_walk path_fuel id root root_id with
  | Some (inr (Some (SLeaf item ty h))) =>
      Some (inr (if bool_decide (item_key item = id) then Some (SLeaf item ty h) else None))
  | r => r
  end.
End sync.

(** The leaves that are there. *)
Fixpoint s_items (n : SNode) : list SHAMapItem :=
  match n with
  | SLeaf item _ _ => [item]
  | SInner _ _ _ cs _ _ => concat (map (λ o, match o with Some c => s_items c | None => [] end) cs)
  end.
(** Whether no branch is missing. *)
Fixpoint complete (n : SNode) : bool :=
  match n with
  | SLeaf _ _ _ => true
  | SInner _ _ isb cs _ _ =>
      (fix go (isb : list bool) (cs : list (option SNode)) {struct cs} : bool :=
         match cs, isb with
         | Some c :: cs, b :: isb => (negb b || complete c) && go isb cs
         | None :: cs, b :: isb => negb b && go isb cs
         | _, _ => true
         end) isb cs
  end.
(** The number of nodes that are there. *)
Fixpoint resident (n : SNode) : nat :=
  match n with
  | SLeaf _ _ _ => 1
  | SInner _ _ _ cs _ _ =>
      S (sum_list (map (λ o, match o with Some c => resident c | None => O end) cs))
  end.
