(* ===== verification/SHAMapSyncSpec.v ===== *)
(** * SHAMap: what a partial tree stands for

    [sane]: a partial tree whose nodes carry the hash of their contents and whose
    children have the hashes their parent knows them by.  Every node that is
    accepted from the network is sane, whoever sent it, and a sane tree with the
    root hash of a map agrees with the map wherever it is there ([agree]), as long
    as no two of the byte strings [met] collide. *)

From stdpp Require Import prelude list gmap.
From Stdlib Require Import ZArith Lia.
From S2P Require Import Prelude.
From S2P Require Import BaseUint.
From S2P Require Import BaseUintTheorems.
From S2P Require Import Serializer.
From S2P Require Import SHAMapNodeID.
From S2P Require Import SHAMap.
From S2P Require Import SHAMapSpec.
From S2P Require Import SHAMapRefine.
From S2P Require Import SHAMapHash.
From S2P Require Import SHAMapDelta.
From S2P Require Import SHAMapTheorems.
From S2P Require Import SHAMapRaw.
From S2P Require Import SHAMapRawTheorems.
From S2P Require Import SHAMapSync.

Section sane.
Context (sha512Half : list Z → uint256) (Hsha : ∀ x, length (sha512Half x) = 32%nat).
Context (met : list (list Z)).

Inductive sane : SNode → Prop :=
  | sane_leaf item type h :
      is_leaf_type type → length (item_key item) = 32%nat → (type = tnTRANSACTION_NM → item_key item = h) →
      h = sha512Half (leaf_preimage item type) → leaf_preimage item type ∈ met →
      sane (SLeaf item type h)
  | sane_inner v hashes isb cs g h :
      length hashes = 16%nat → (∀ x, x ∈ hashes → length x = 32%nat) →
      length isb = 16%nat → length cs = 16%nat →
      (∀ i x, hashes !! i = Some x → isNonZero x = true → isb !! i = Some true) →
      h = inner_hash sha512Half v hashes isb →
      (s_branch_count isb ≠ 0 → inner_preimage v hashes ∈ met) →
      (∀ i c, cs !! i = Some (Some c) → hashes !! i = Some (s_hash c)) →
      (∀ i c, cs !! i = Some (Some c) → sane c) →
      sane (SInner v hashes isb cs g h).

(** ** What [make] reads from the wire is sane *)
Definition bits_ok (r : list uint256 * list bool) : Prop :=
  length r.1 = 16%nat ∧ (∀ x, x ∈ r.1 → length x = 32%nat) ∧ length r.2 = 16%nat ∧
  ∀ i x, r.1 !! i = Some x → isNonZero x = true → r.2 !! i = Some true.

Lemma entries_loop_bits n : ∀ i s hashes isb r,
  0 ≤ i → (i + Z.of_nat n) * 33 ≤ size s → size s < 2 ^ 63 →
  bits_ok (hashes, isb) → entries_loop n i s hashes isb = inr r → bits_ok r.
Proof.
  induction n as [|n IH]; intros i s hashes isb r Hi Hn Hs Hb; simpl; [by intros [= <-]|].
  destruct (get8_at s (32 + i * 33)) as [pos|]; [|done].
  destruct ((pos <? 0) || (16 <=? pos)) eqn:Hpos; [done|].
  apply orb_false_iff in Hpos as [Hp0 Hp16]. apply Z.ltb_ge in Hp0. apply Z.leb_gt in Hp16.
  apply IH; [lia|lia|done|]. destruct Hb as (H1 & H2 & H3 & H4). simpl in *.
  destruct (get256_slice s (i * 33)) as [_ Hl]; [lia|lia|done|]. set (h := get256 s (i * 33)) in *.
  split; [simpl; by rewrite length_insert|]. split; [|split].
  - intros x [k Hk]%list_elem_of_lookup. apply list_lookup_insert_Some in Hk as [(_ & <- & _)|[_ Hk]]; [done|].
    apply H2. by eapply list_elem_of_lookup_2.
  - simpl. destruct (isNonZero h); [|done]. by rewrite length_insert.
  - simpl. intros k x Hk Hx. apply list_lookup_insert_Some in Hk as [(<- & <- & Hlt)|[Hne Hk]].
    + rewrite Hx. apply list_lookup_insert_eq. lia.
    + destruct (isNonZero h); [rewrite list_lookup_insert_ne by done|]; by eapply H4.
Qed.

Lemma entries_bits s r : size s < 2 ^ 63 → entries s = inr r → bits_ok r.
Proof.
  intros Hs. unfold entries. apply entries_loop_bits; [lia| |done|].
  - unfold size in *. rewrite Z2Nat.id by (Z.to_euclidean_division_equations; lia).
    Z.to_euclidean_division_equations. lia.
  - split; [done|]. cbn [fst snd]. split; [|split; [done|]].
    + intros x [-> _]%elem_of_replicate. done.
    + intros i x Hx. apply lookup_replicate in Hx as [-> _]. unfold isNonZero. by rewrite bool_decide_eq_true_2.
Qed.

Lemma full_bits s :
  512 ≤ size s → size s < 2 ^ 63 → bits_ok (full_hashes s, nonzero_branches (full_hashes s)).
Proof.
  intros Hs Hm. destruct (full_hashes_spec s Hs Hm) as (_ & Hl & Hh). split; [done|]. split; [done|].
  unfold nonzero_branches. cbn [fst snd]. split; [by rewrite length_map|].
  intros i x Hx Hz. by rewrite list_lookup_fmap, Hx, <- Hz.
Qed.

Lemma make_inner_sane v hashes isb :
  bits_ok (hashes, isb) → (s_branch_count isb ≠ 0 → inner_preimage v hashes ∈ met) →
  sane (make_inner sha512Half v hashes isb None).
Proof.
  intros (H1 & H2 & H3 & H4) Hm. unfold make_inner.
  constructor; try done; intros i c Hc; by apply lookup_replicate in Hc as [? _].
Qed.

(** The byte string hashed for a node, if one is. *)
Definition hashed_form (n : SNode) : list (list Z) :=
  match n with
  | SInner _ _ isb _ _ _ => if s_branch_count isb =? 0 then [] else [node_raw n snfPREFIX]
  | _ => [node_raw n snfPREFIX]
  end.

Lemma make_wire_sane raw id n :
  size raw < 2 ^ 63 → make_wire sha512Half raw None id = inr (Some n) →
  (∀ x, x ∈ hashed_form n → x ∈ met) → sane n.
Proof.
  intros Hs. destruct raw as [|type s _] using rev_ind; [done|]. rewrite make_wire_snoc. cbn zeta.
  assert (size s < 2 ^ 63) as Hs' by (unfold size in *; rewrite length_app in Hs; lia).
  destruct ((type <? 0) || (6 <? type)); [done|].
  assert (∀ v hashes isb, bits_ok (hashes, isb) →
    (∀ x, x ∈ hashed_form (make_inner sha512Half v hashes isb None) → x ∈ met) →
    sane (make_inner sha512Half v hashes isb None)) as Hin.
  { intros v hashes isb Hb Hm. apply make_inner_sane; [done|]. intros Hc. apply Hm. simpl.
    rewrite (proj2 (Z.eqb_neq _ _) Hc). simpl. set_solver. }
  assert (∀ v, (if negb (size s =? 512) then inl runtime_error
     else inr (Some (make_inner sha512Half v (full_hashes s) (nonzero_branches (full_hashes s)) None))) =
     (inr (Some n) : sexn + option SNode) → (∀ x, x ∈ hashed_form n → x ∈ met) → sane n) as Hfull.
  { intros v. destruct (Z.eqb_spec (size s) 512); [|done]. simpl. intros [= <-]. apply Hin, full_bits; lia. }
  assert (∀ v, match entries s with
     | inl e => inl e
     | inr (hashes, isb) => inr (Some (make_inner sha512Half v hashes isb None))
     end = (inr (Some n) : sexn + option SNode) → (∀ x, x ∈ hashed_form n → x ∈ met) → sane n) as Hshort.
  { intros v. destruct (entries s) as [|[hashes isb]] eqn:He; [done|]. intros [= <-].
    apply Hin. by apply entries_bits in He. }
  assert (∀ ty, is_leaf_type ty → ty ≠ tnTRANSACTION_NM → keyed_leaf sha512Half s ty false None = inr (Some n) →
    (∀ x, x ∈ hashed_form n → x ∈ met) → sane n) as Hleaf.
  { intros ty Ht Hnm Hk Hm. apply keyed_leaf_inv in Hk as (data & key & -> & Hk & ->); [|done].
    constructor; try done. apply Hm. simpl. set_solver. }
  destruct (type =? 0).
  { intros [= <-] Hm. constructor; try done; [apply Hsha|]. apply Hm. simpl. set_solver. }
  destruct (type =? 1); [by apply Hleaf|]. destruct (type =? 2); [apply Hfull|].
  destruct (type =? 3); [apply Hshort|]. destruct (type =? 4); [by apply Hleaf|].
  destruct (type =? 5); [apply Hfull|apply Hshort].
Qed.

(** ** Agreement with a map *)

(** No branch: what may hang below a branch that the map does not have. *)
Inductive vacuous : SNode → Prop :=
  | vacuous_inner v hashes isb cs g h :
      length isb = 16%nat → (∀ i b, isb !! i = Some b → b = false) → (∀ i c, cs !! i = Some (Some c) → vacuous c) →
      vacuous (SInner v hashes isb cs g h).

Inductive agree : SNode → Node → Prop :=
  | agree_leaf item type h : agree (SLeaf item type h) (Leaf item type)
  | agree_inner v hashes isb cs g h ds :
      length isb = 16%nat → length cs = 16%nat → length ds = 16%nat →
      (∀ i d, ds !! i = Some (Some d) → isb !! i = Some true) →
      (∀ i c d, cs !! i = Some (Some c) → ds !! i = Some (Some d) → agree c d) →
      (∀ i c, cs !! i = Some (Some c) → ds !! i = Some None → vacuous c) →
      agree (SInner v hashes isb cs g h) (Inner v ds).

Context (met_free : collision_free sha512Half met).

Lemma count_zero_false isb : s_branch_count isb = 0 → ∀ i b, isb !! i = Some b → b = false.
Proof.
  intros Hc i [] Hi; [|done]. unfold s_branch_count in Hc.
  pose proof (sumZ_elem (λ b : bool, if b then 1 else 0) isb true) as H.
  rewrite Hc in H. specialize (H ltac:(by intros [] _) ltac:(by eapply list_elem_of_lookup_2)). simpl in H. lia.
Qed.

Lemma sane_zero_vacuous n : sane n → s_hash n = zero256 → vacuous n.
Proof.
  destruct met_free as [_ Hz]. induction 1 as [item type h Ht Hk Hnm Hh Hm|v hashes isb cs g h Hl Hx Hi Hc Hb Hh Hm Hch Hcs IH]; simpl; intros E.
  - destruct (Hz _ Hm). congruence.
  - assert (s_branch_count isb = 0) as H0.
    { rewrite Hh in E. unfold inner_hash in E. destruct (Z.eqb_spec (s_branch_count isb) 0) as [|Hn]; [done|].
      by destruct (Hz _ (Hm Hn)). }
    pose proof (count_zero_false isb H0) as Hf. constructor; [done|done|].
    intros i c Hi'. apply (IH i c Hi'). pose proof (Hch i c Hi') as Hi2.
    destruct (isNonZero (s_hash c)) eqn:Hn; [|by apply isNonZero_false].
    pose proof (Hb i _ Hi2 Hn) as Ht. by apply Hf in Ht.
Qed.

Section agree_map.
Context (T : TNType) (HT : is_leaf_type T).

(** The first byte hashed tells the kinds of node apart. *)
Lemma leaf_type_of item type item' :
  is_leaf_type type → leaf_preimage item type = leaf_preimage item' T → type = T.
Proof. intros [H1 H2] E. destruct HT. destruct type, T; try done. Qed.

(** The assumptions on the map, for a part of it. *)
Definition known (d : Node) : Prop :=
  (∀ x, x ∈ hashed sha512Half d → x ∈ met) ∧ keyed sha512Half T (items d).

Lemma known_child v ds i d : ds !! i = Some (Some d) → known (Inner v ds) → known d.
Proof.
  intros Hd [Hmet Hkey]. split.
  - intros x Hx. apply Hmet. by eapply hashed_child.
  - intros ET x Hx. apply Hkey; [done|]. rewrite items_inner. apply citems_elem. eauto.
Qed.

Lemma known_hash p d : wf false T p d → known d → getNodeHash sha512Half d ≠ zero256.
Proof.
  intros Hw [Hmet _]. destruct (hash_preimage sha512Half Hsha false T HT p d Hw) as [-> Hin].
  destruct met_free as [_ Hz]. auto.
Qed.

Lemma sane_leaf_agrees item type h p d :
  sane (SLeaf item type h) → wf false T p d → known d → h = getNodeHash sha512Half d →
  agree (SLeaf item type h) d.
Proof.
  destruct met_free as [Hinj _]. intros Hs Hw [Hmet Hkey] E. inversion Hs as [? ? ? Ht Hk Hnm Hh Hm|]; subst.
  destruct (hash_preimage sha512Half Hsha false T HT p d Hw) as [Ed Hin].
  assert (leaf_preimage item type = preimage sha512Half d) as Ep by (apply Hinj; [done|auto|congruence]).
  destruct Hw as [p item' Hk' Hp|p q v cs [-> ->] Hq Hl Hlen Hc Hbig]; [|by destruct Ht, type].
  simpl in Ep. pose proof (leaf_type_of _ _ _ Ht Ep) as ->.
  assert (item = item') as ->; [|constructor].
  destruct Hk' as [Hk' _]. destruct item as [k dt], item' as [k' dt']. cbn [item_key] in *.
  destruct (decide (T = tnTRANSACTION_NM)) as [->|Hne].
  - rewrite items_leaf in Hkey. specialize (Hkey eq_refl (mkItem k' dt') ltac:(set_solver)).
    rewrite (eq_trans (Hnm eq_refl) (eq_sym Hkey) : k = k'). simpl in Ep. by injection Ep as ->.
  - destruct HT, T; try done; simpl in Ep; injection Ep as Ep;
      apply app_inj_2 in Ep as [-> ->]; congruence.
Qed.

Lemma sane_inner_hashes v hashes isb cs g h ds :
  sane (SInner v hashes isb cs g h) → length ds = 16%nat → known (Inner None ds) →
  getBranchCount ds ≠ 0 → h = getNodeHash sha512Half (Inner None ds) →
  v = None ∧ hashes = map (getChildHash sha512Half) ds.
Proof.
  intros Hs Hlen Hkn Hcnt E.
  inversion Hs as [|? ? ? ? ? ? Hl Hx Hi Hc Hb Hh Hm Hch Hcs]. rewrite Hh in E. subst.
  rewrite getNodeHash_inner in E by done. destruct met_free as [Hinj Hz].
  assert (inner_preimage None (map (getChildHash sha512Half) ds) ∈ met) as Hin by (apply Hkn, hashed_inner; done).
  assert (s_branch_count isb ≠ 0) as Hn.
  { intros H0. unfold inner_hash in E. rewrite H0 in E. simpl in E. by destruct (Hz _ Hin). }
  assert (inner_preimage v hashes = inner_preimage None (map (getChildHash sha512Half) ds)) as Ep.
  { apply Hinj; [auto|done|]. rewrite <- E. unfold inner_hash. by rewrite (proj2 (Z.eqb_neq _ _) Hn). }
  destruct v as [[dp cm]|]; [done|]. simpl in Ep. injection Ep as Ep. split; [done|].
  apply concat_fixed_inj; [done|by apply child_hashes_length|by rewrite length_map, Hlen|exact Ep].
Qed.

Lemma sane_inner_agrees v hashes isb cs g h p ds :
  sane (SInner v hashes isb cs g h) → body false T p ds → known (Inner None ds) →
  getBranchCount ds ≠ 0 → h = getNodeHash sha512Half (Inner None ds) →
  (∀ i c d, cs !! i = Some (Some c) → ds !! i = Some (Some d) →
     s_hash c = getNodeHash sha512Half d → agree c d) →
  agree (SInner v hashes isb cs g h) (Inner None ds).
Proof.
  intros Hs (Hq & Hlq & Hlen & Hds) Hkn Hcnt E Hagree.
  destruct (sane_inner_hashes _ _ _ _ _ _ _ Hs Hlen Hkn Hcnt E) as [-> ->].
  inversion Hs as [|? ? ? ? ? ? Hl Hx Hi Hc Hb Hh Hm Hch Hcs]. constructor; [done|done|done| | |].
  - intros i d Hd. apply (Hb i (getNodeHash sha512Half d)); [by rewrite list_lookup_fmap, Hd|].
    unfold isNonZero. rewrite bool_decide_eq_false_2; [done|].
    eapply known_hash; [by apply Hds|by eapply known_child].
  - intros i c d Hci Hdi. pose proof (Hch i c Hci) as Hh'. eapply Hagree; try done.
    rewrite list_lookup_fmap, Hdi in Hh'. by injection Hh'.
  - intros i c Hci Hdi. pose proof (Hch i c Hci) as Hh'. apply sane_zero_vacuous; [by eapply Hcs|].
    rewrite list_lookup_fmap, Hdi in Hh'. by injection Hh'.
Qed.

Lemma sane_agrees n : sane n → ∀ p d,
  wf false T p d → known d → s_hash n = getNodeHash sha512Half d → agree n d.
Proof.
  intros Hs. pose proof Hs as Hs'.
  induction Hs as [item type h|v hashes isb cs g h Hl Hx Hi Hc Hb Hh Hm Hch Hcs IH]; intros p d Hw Hk E;
    [by eapply sane_leaf_agrees|].
  destruct d as [item type|w ds].
  - assert (sane (SInner v hashes isb cs g h)) as _ by done. exfalso.
    destruct (hash_preimage sha512Half Hsha false T HT p _ Hw) as [Ed Hin]. simpl in E, Ed, Hin.
    destruct met_free as [Hinj Hz]. destruct Hk as [Hmet _].
    assert (s_branch_count isb ≠ 0) as Hn.
    { intros H0. rewrite Hh in E. unfold inner_hash in E. rewrite H0 in E. simpl in E.
      apply (Hz (leaf_preimage item type)); [by apply Hmet|congruence]. }
    assert (inner_preimage v hashes = leaf_preimage item type) as Ep.
    { apply Hinj; [auto|by apply Hmet|]. rewrite <- E, Hh. unfold inner_hash. by rewrite (proj2 (Z.eqb_neq _ _) Hn). }
    inversion Hw; subst. destruct HT, v as [[]|], T; done.
  - assert (getBranchCount ds ≠ 0) as Hcnt by by eapply wf_count.
    apply wf_body in Hw as (q & [-> ->] & Hbody & _).
    eapply sane_inner_agrees; try done. intros i c d Hci Hdi Ehd.
    eapply (IH i c Hci (Hcs i c Hci)); [by apply Hbody|by eapply known_child|done].
Qed.

(** A node at its place in the tree: below the root, or the root itself. *)
Definition placed (p : list Z) (d : Node) : Prop :=
  wf false T p d ∨ ∃ ds, d = Inner None ds ∧ body false T p ds.

Lemma placed_inner p w ds : placed p (Inner w ds) → w = None ∧ body false T p ds.
Proof.
  intros [Hw|(ds' & [= -> ->] & Hb)]; [|done]. apply wf_body in Hw as (q & [-> ->] & Hb & _). done.
Qed.

Lemma placed_agrees n p d :
  sane n → placed p d → known d → getNodeHash sha512Half d ≠ zero256 →
  s_hash n = getNodeHash sha512Half d → agree n d.
Proof.
  intros Hs [Hw|(ds & -> & Hb)] Hk Hz E; [by eapply sane_agrees|].
  assert (getBranchCount ds ≠ 0) as Hcnt by (intros H0; apply Hz; simpl; by rewrite H0).
  destruct n as [item type h|v hashes isb cs g h].
  - exfalso. inversion Hs as [? ? ? Ht Hkl Hnm Hh Hm|]; subst. rewrite getNodeHash_inner in E by done.
    destruct met_free as [Hinj _]. simpl in E.
    assert (leaf_preimage item type = inner_preimage None (map (getChildHash sha512Half) ds)) as Ep.
    { apply Hinj; [done|by apply Hk, hashed_inner|done]. }
    by destruct Ht, type.
  - eapply sane_inner_agrees; try done. intros i c d Hci Hdi Ehd.
    inversion Hs as [|? ? ? ? ? ? _ _ _ _ _ _ _ _ Hcs]; subst.
    eapply sane_agrees; [by eapply Hcs|by apply Hb|by eapply known_child|done].
Qed.

(** ** What agreement gives *)
Lemma vacuous_items n : vacuous n → s_items n = [].
Proof.
  induction 1 as [v hashes isb cs g h Hl Hb Hcs IH]. simpl. apply concat_nil_Forall, Forall_forall.
  intros x (o & -> & [i Hi]%list_elem_of_lookup)%list_elem_of_fmap. destruct o as [c|]; [|done]. by apply (IH i).
Qed.

Lemma complete_inner v hashes isb cs g h :
  length isb = length cs → complete (SInner v hashes isb cs g h) = true →
  ∀ i, isb !! i = Some true → ∃ c, cs !! i = Some (Some c) ∧ complete c = true.
Proof.
  simpl. revert cs. induction isb as [|b isb IH]; intros [|o cs] Hl Hc i Hi; try done.
  destruct i as [|i]; simpl in Hi.
  - injection Hi as ->. destruct o as [c|]; [|done]. exists c. split; [done|]. by apply andb_true_iff in Hc as [Hc _].
  - assert ((fix go (isb : list bool) (cs : list (option SNode)) {struct cs} : bool :=
         match cs, isb with
         | Some c :: cs, b :: isb => (negb b || complete c) && go isb cs
         | None :: cs, b :: isb => negb b && go isb cs
         | _, _ => true
         end) isb cs = true) as Hc' by (destruct o; by apply andb_true_iff in Hc as [_ Hc]).
    apply (IH cs) in Hi; [done|by injection Hl|done].
Qed.

Lemma agree_items n d : agree n d → complete n = true → s_items n = items d.
Proof.
  induction 1 as [item type h|v hashes isb cs g h ds Hi Hc Hd Hb Ha IH Hv]; intros Hcomp; [done|].
  rewrite items_inner. simpl. unfold citems. f_equal. apply list_eq. intros i. rewrite !list_lookup_fmap.
  destruct (cs !! i) as [o|] eqn:Eo.
  - destruct (lookup_lt_is_Some_2 ds i) as [od Ed]; [apply lookup_lt_Some in Eo; lia|]. rewrite Ed. simpl. f_equal.
    destruct od as [d|].
    + destruct (complete_inner v hashes isb cs g h (eq_trans Hi (eq_sym Hc)) Hcomp i (Hb i d Ed)) as (c & Ec & Hcc).
      rewrite Eo in Ec. injection Ec as ->. by eapply IH.
    + destruct o as [c|]; [|done]. by eapply vacuous_items, Hv.
  - rewrite lookup_ge_None_2; [done|]. apply lookup_ge_None_1 in Eo. lia.
Qed.

(** The branch towards a key. *)
Lemma branch_range id k :
  is_u256 k → ∃ i : nat, selectBranch id k = Z.of_nat i ∧ (i < 16)%nat.
Proof.
  intros [_ Hk]. assert (0 ≤ byte_at k (mDepth id / 2) < 256) as Hb.
  { unfold byte_at. rewrite list_lookup_total_alt. destruct (k !! _) as [x|] eqn:Hx; [|done].
    by eapply in_base_lookup. }
  exists (Z.to_nat (selectBranch id k)). unfold selectBranch. destruct (Z.odd (mDepth id)).
  - change 15 with (Z.ones 4). rewrite Z.land_ones by lia. Z.to_euclidean_division_equations. lia.
  - rewrite Z.shiftr_div_pow2 by lia. Z.to_euclidean_division_equations. lia.
Qed.

Definition same_leaf (r : option SNode) (r' : option Node) : Prop :=
  match r, r' with
  | Some (SLeaf item ty _), Some (Leaf item' ty') => item = item' ∧ ty = ty'
  | None, None => True
  | _, _ => False
  end.

Lemma agree_walk n d : agree n d → ∀ p fuel k stack,
  placed p d → is_u256 k → (64 < fuel + length p)%nat →
  (∃ h, s_walk fuel k n (path_id p) = Some (inl h) ∧ complete n = false) ∨
  ∃ r r' st, s_walk fuel k n (path_id p) = Some (inr r) ∧
    walk_loop fuel false k d (path_id p) stack = Some (r', st) ∧ same_leaf r r'.
Proof.
  induction 1 as [item type h|v hashes isb cs g h ds Hi Hc Hd Hb Ha IH Hv]; intros p fuel k stack Hp Hk Hf.
  - assert (length p ≤ 64)%nat as Hl.
    { destruct Hp as [Hw|(ds & [=] & _)]. inversion Hw as [? ? Hu Hpre|]; subst.
      apply prefix_length in Hpre. destruct Hu as [Hu _]. rewrite nibs_length in Hpre. lia. }
    destruct fuel as [|fuel]; [lia|]. right. simpl. eexists _, _, _. split_and!; done.
  - apply placed_inner in Hp as [-> Hbody]. pose proof Hbody as (Hq & Hl & _ & Hds).
    destruct fuel as [|fuel]; [lia|]. destruct (branch_range (path_id p) k Hk) as (i & Ei & Hi16).
    cbn [s_walk walk_loop andb]. rewrite Ei, Nat2Z.id.
    destruct (lookup_lt_is_Some_2 isb i) as [b Eb]; [lia|]. rewrite (list_lookup_total_correct _ _ _ Eb).
    destruct (lookup_lt_is_Some_2 cs i) as [o Eo]; [lia|]. rewrite Eo.
    destruct (lookup_lt_is_Some_2 ds i) as [od Ed]; [lia|]. unfold getChild. rewrite Nat2Z.id, Ed. simpl.
    destruct od as [d|].
    + pose proof (Hb i d Ed) as Eb'. rewrite Eb in Eb'. injection Eb' as ->. simpl. destruct o as [c|].
      * rewrite getChildNodeID_path by (done || lia).
        destruct (IH i c d Eo Ed (p ++ [Z.of_nat i]) fuel k ((Inner None ds, path_id p) :: stack)) as [(x & E & Hx)|H].
        { left. by apply Hds. }
        { done. }
        { rewrite length_app. simpl. lia. }
        -- left. exists x. split; [done|]. destruct (complete (SInner None hashes isb cs g h)) eqn:Hcomp; [|done].
           destruct (complete_inner None hashes isb cs g h (eq_trans Hi (eq_sym Hc)) Hcomp i Eb) as (c' & Ec' & Hcc).
           rewrite Eo in Ec'. injection Ec' as ->. congruence.
        -- by right.
      * left. eexists. split; [done|]. destruct (complete (SInner None hashes isb cs g h)) eqn:Hcomp; [|done].
        destruct (complete_inner None hashes isb cs g h (eq_trans Hi (eq_sym Hc)) Hcomp i Eb) as (c' & Ec' & Hcc).
        by rewrite Eo in Ec'.
    + destruct b; simpl.
      * destruct o as [c|].
        -- right. pose proof (Hv i c Eo Ed) as Hvac. destruct Hvac as [v' hashes' isb' cs' g' h' Hl' Hb' _].
           destruct fuel as [|fuel]; [lia|]. simpl.
           destruct (branch_range (getChildNodeID (path_id p) (Z.of_nat i)) k Hk) as (j & -> & Hj). rewrite Nat2Z.id.
           destruct (lookup_lt_is_Some_2 isb' j) as [b' Eb']; [lia|]. rewrite (list_lookup_total_correct _ _ _ Eb').
           rewrite (Hb' j b' Eb'). simpl. eexists _, _, _. split_and!; done.
        -- left. eexists. split; [done|]. destruct (complete (SInner None hashes isb cs g h)) eqn:Hcomp; [|done].
           destruct (complete_inner None hashes isb cs g h (eq_trans Hi (eq_sym Hc)) Hcomp i Eb) as (c' & Ec' & Hcc).
           by rewrite Eo in Ec'.
      * right. eexists _, _, _. split_and!; done.
Qed.

(** ** The walk of [addKnownNode] *)
Lemma sane_set_child v hashes isb cs g h i c :
  sane (SInner v hashes isb cs g h) → sane c → hashes !! i = Some (s_hash c) →
  sane (SInner v hashes isb (<[i := Some c]> cs) g h).
Proof.
  intros Hs Hc Hh. inversion Hs as [|? ? ? ? ? ? H1 H2 H3 H4 H5 H6 H7 H8 H9]. constructor; try done.
  - by rewrite length_insert.
  - intros k x Hk. apply list_lookup_insert_Some in Hk as [(-> & [= <-] & _)|[_ Hk]]; auto.
  - intros k x Hk. apply list_lookup_insert_Some in Hk as [(-> & [= <-] & _)|[_ Hk]]; eauto.
Qed.

Lemma sane_canonicalize v hashes isb cs g h i c :
  sane (SInner v hashes isb cs g h) → sane c → hashes !! Z.to_nat i = Some (s_hash c) →
  sane (SInner v hashes isb (canonicalizeChild i c cs) g h).
Proof. intros Hs Hc Hh. unfold canonicalizeChild. destruct (mjoin _); [done|]. by apply sane_set_child. Qed.

Lemma hook_hash v2 childHash iNodeID node n a bad :
  hook v2 childHash iNodeID node (Some n) = (a, bad, true) → childHash = s_hash n.
Proof. unfold hook. by case_bool_decide. Qed.

Section walk.
Context (fetch : uint256 → option SNode) (touch_if_exists : uint256 → bool) (generation : Z).
Context (fetch_ok : ∀ h c, fetch h = Some c → sane c ∧ s_hash c = h).
Context (node : SHAMapNodeID) (newNode : option SNode).
Context (node_ok : is_u256 (mNodeID node)) (new_ok : ∀ x, newNode = Some x → sane x).
#[local] Abbreviation walk := (add_walk fetch touch_if_exists generation).

(** A tree without branches is left alone. *)
Lemma walk_vacuous fuel v2 n id :
  sane n → vacuous n → ∃ a, walk (S fuel) v2 node newNode n id = Some (a, n, false).
Proof.
  intros Hs Hv. destruct Hv as [v hashes isb cs g h Hl Hb _]. simpl. destruct (_ || _); [eauto|].
  destruct (branch_range id (mNodeID node) node_ok) as (j & -> & Hj). rewrite Nat2Z.id.
  destruct (lookup_lt_is_Some_2 isb j) as [b Eb]; [lia|]. rewrite (list_lookup_total_correct _ _ _ Eb), (Hb j b Eb).
  simpl. eauto.
Qed.

Lemma walk_sane fuel : ∀ n p d,
  sane n → placed p d → known d → getNodeHash sha512Half d ≠ zero256 →
  s_hash n = getNodeHash sha512Half d → (64 < fuel + length p)%nat →
  ∃ a n' bad, walk fuel false node newNode n (path_id p) = Some (a, n', bad) ∧ sane n' ∧ s_hash n' = s_hash n.
Proof.
  induction fuel as [|fuel IH]; intros n p d Hs Hp Hk Hz E Hf.
  { destruct Hp as [Hw|(ds & -> & _ & Hl & _)]; [|simpl in Hf; lia].
    destruct Hw as [p item Hu Hpre|p q v cs [-> ->] _ Hl]; [|simpl in Hf; lia].
    apply prefix_length in Hpre. destruct Hu as [Hu _]. rewrite nibs_length in Hpre. lia. }
  pose proof (placed_agrees n p d Hs Hp Hk Hz E) as Ha.
  destruct Ha as [item type h|v hashes isb cs g h ds Hi Hc Hd Hb Ha Hv].
  { simpl. eauto 6. }
  apply placed_inner in Hp as [-> Hbody]. pose proof Hbody as (Hq & Hl & _ & Hds).
  assert (getBranchCount ds ≠ 0) as Hcnt by (intros H0; apply Hz; simpl; by rewrite H0).
  destruct (sane_inner_hashes _ _ _ _ _ _ _ Hs Hd Hk Hcnt E) as [_ ->].
  change (h = getNodeHash sha512Half (Inner None ds)) in E. subst h. cbn [add_walk s_hash]. destruct (_ || _); [eauto 6|].
  destruct (branch_range (path_id p) (mNodeID node) node_ok) as (i & -> & Hi16). rewrite Nat2Z.id.
  destruct (negb _); [eauto 6|].
  destruct (lookup_lt_is_Some_2 ds i) as [od Ed]; [lia|].
  assert (map (getChildHash sha512Half) ds !! i = Some (getChildHash sha512Half od)) as Eh by by rewrite list_lookup_fmap, Ed.
  rewrite (list_lookup_total_correct _ _ _ Eh). destruct (touch_if_exists _); [eauto 6|].
  inversion Hs as [|? ? ? ? ? ? _ _ _ Hlc _ _ _ Hch Hcs].
  assert (∀ c cs', sane c → s_hash c = getChildHash sha512Half od →
    sane (SInner None (map (getChildHash sha512Half) ds) isb cs' g (getNodeHash sha512Half (Inner None ds))) →
    ∃ a n' bad, (match walk fuel false node newNode c (getChildNodeID (path_id p) (Z.of_nat i)) with
      | None => None
      | Some (answer, c, bad') => Some (answer, SInner None (map (getChildHash sha512Half) ds) isb (<[i := Some c]> cs') g
          (getNodeHash sha512Half (Inner None ds)), bad')
      end) = Some (a, n', bad) ∧ sane n' ∧ s_hash n' = getNodeHash sha512Half (Inner None ds)) as Hrec.
  { intros c cs' Hsc Ec Hs'. rewrite getChildNodeID_path by (done || lia). destruct od as [d|].
    - destruct (IH c (p ++ [Z.of_nat i]) d) as (a & c' & bad & -> & Hc' & Eh'); try done.
      { left. by apply Hds. } { by eapply known_child. } { eapply known_hash; [by apply Hds|by eapply known_child]. }
      { rewrite length_app. simpl. lia. }
      eexists _, _, _. split; [done|]. split; [|done]. apply sane_set_child; [done|done|]. by rewrite Eh, Eh', Ec.
    - destruct fuel as [|fuel]; [lia|].
      destruct (walk_vacuous fuel false c (path_id (p ++ [Z.of_nat i])) Hsc) as [a ->]; [by apply sane_zero_vacuous|].
      eexists _, _, _. split; [done|]. split; [|done]. apply sane_set_child; [done|done|]. by rewrite Eh, Ec. }
  assert (∀ childID bad0 cs',
    sane (SInner None (map (getChildHash sha512Half) ds) isb cs' g (getNodeHash sha512Half (Inner None ds))) →
    ∃ a n' bad, (let '(answer, bad', hooked) := hook false (getChildHash sha512Half od) childID node newNode in
      let cs := match newNode with Some n => if hooked then canonicalizeChild (Z.of_nat i) n cs' else cs' | None => cs' end in
      Some (answer, SInner None (map (getChildHash sha512Half) ds) isb cs g (getNodeHash sha512Half (Inner None ds)),
            bad0 || bad')) = Some (a, n', bad) ∧ sane n' ∧ s_hash n' = getNodeHash sha512Half (Inner None ds)) as Hhook.
  { intros childID bad0 cs' Hs'. destruct (hook _ _ _ _ _) as [[a bad] hooked] eqn:Eq.
    eexists _, _, _. split; [done|]. split; [|done].
    revert Eq new_ok. destruct newNode as [n|]; [|done]. intros Eq new_ok'. destruct hooked; [|done].
    apply hook_hash in Eq as Hn.
    apply sane_canonicalize; [done|by apply new_ok'|]. by rewrite Nat2Z.id, Eh, Hn. }
  unfold descend. rewrite Nat2Z.id. destruct (mjoin (cs !! i)) as [c|] eqn:Ec.
  - apply bind_Some in Ec as (o & Eo & ->). cbn [child_id orb].
    apply Hrec; [by eapply Hcs| |done]. pose proof (Hch i c Eo) as E'. rewrite Eh in E'. by injection E'.
  - rewrite (list_lookup_total_correct _ _ _ Eh). destruct (fetch _) as [c|] eqn:Ef; [|by apply Hhook].
    destruct (fetch_ok _ _ Ef) as [Hsc Ehc].
    assert (sane (SInner None (map (getChildHash sha512Half) ds) isb (canonicalizeChild (Z.of_nat i) c cs) g
      (getNodeHash sha512Half (Inner None ds)))) as Hs'.
    { apply sane_canonicalize; [done|done|]. by rewrite Nat2Z.id, Eh, Ehc. }
    destruct (isInconsistentNode false c); [by apply Hhook|]. cbn [child_id orb]. by apply Hrec.
Qed.
End walk.
End agree_map.
End sane.
