(* ===== verification/SHAMapSyncTheorems.v ===== *)
(** * SHAMap: synchronization is safe and makes progress

    The claims about SHAMapSync.cpp, for maps of version 1: whatever peers send,
    the map that is filled agrees with the map of the root hash; and as long as a
    node is missing there is one whose arrival is accepted. *)

From stdpp Require Import prelude list gmap.
From Stdlib Require Import ZArith Lia.
From S2P Require Import Prelude.
From S2P Require Import BaseUint.
From S2P Require Import BaseUintTheorems.
From S2P Require Import Serializer.
From S2P Require Import SHAMapNodeID.
From S2P Require Import SHAMap.
From S2P Require Import SHAMapSpec.
From S2P Require Import SHAMapRefine.
From S2P Require Import SHAMapHash.
From S2P Require Import SHAMapDelta.
From S2P Require Import SHAMapTheorems.
From S2P Require Import SHAMapRaw.
From S2P Require Import SHAMapRawTheorems.
From S2P Require Import SHAMapSync.
From S2P Require Import SHAMapSyncSpec.

(** ** Runs

    What the caches and the store answer while a message is handled. *)
Record SyncEnv := mkSyncEnv {
  env_fetch : uint256 → option SNode;
  env_touch : uint256 → bool;
  env_generation : Z;
}.

Inductive Delivery :=
  | RootNode (raw : list Z)
  | KnownNode (id : SHAMapNodeID) (raw : list Z).

Lemma root_placed T M : wf_root false T M → placed T [] M.
Proof. intros HM. destruct M as [|v ds]; [done|]. destruct HM as [[_ ->] Hb]. right. by exists ds. Qed.

Section runs.
Context (sha512Half : list Z → uint256).

(** An exception leaves the map as it was. *)
Definition deliver (hash : uint256) (m : SyncMap) (e : SyncEnv) (d : Delivery) : option SyncMap :=
  match
    match d with
    | RootNode raw => addRootNode sha512Half m hash raw snfWIRE
    | KnownNode id raw =>
        addKnownNode sha512Half (env_fetch e) (env_touch e) (env_generation e) m id raw
    end
  with
  | None => None
  | Some (inl _) => Some m
  | Some (inr (_, m)) => Some m
  end.
Fixpoint sync (hash : uint256) (m : SyncMap) (ds : list (SyncEnv * Delivery)) : option SyncMap :=
  match ds with
  | [] => Some m
  | (e, d) :: ds =>
      match deliver hash m e d with Some m => sync hash m ds | None => None end
  end.

(** The bytes hashed for what is delivered are among those [met], a leaf has the twelve bytes and a
    known node the depth that are asserted, and what the store has for a hash has that hash. *)
Definition leaf_large (n : SNode) : Prop := match n with SLeaf item _ _ => large_enough item = true | _ => True end.
Lemma large_asserted r : (∀ n, r = inr (Some n) → leaf_large n) → leaf_asserted r = Some r.
Proof.
  intros H. destruct r as [|[[item ty h|]|]]; try done. simpl. by rewrite (H _ eq_refl : large_enough item = true).
Qed.
Definition delivery_ok (met : list (list Z)) (x : SyncEnv * Delivery) : Prop :=
  (∀ h c, env_fetch x.1 h = Some c → sane sha512Half met c ∧ s_hash c = h) ∧
  match x.2 with
  | RootNode raw =>
      size raw < 2 ^ 63 ∧
      ∀ n, make_wire sha512Half raw None root_id = inr (Some n) → leaf_large n ∧ ∀ x, x ∈ hashed_form n → x ∈ met
  | KnownNode id raw =>
      size raw < 2 ^ 63 ∧ is_u256 (mNodeID id) ∧ isRoot id = false ∧
      ∀ n, make_wire sha512Half raw None id = inr (Some n) → leaf_large n ∧ ∀ x, x ∈ hashed_form n → x ∈ met
  end.

Context (Hsha : ∀ x, length (sha512Half x) = 32%nat) (met : list (list Z)).
Context (met_free : collision_free sha512Half met) (T : TNType) (HT : is_leaf_type T).
Context (M : Node) (HM : wf_root false T M) (Hknown : known sha512Half met T M).
Context (Hz : getNodeHash sha512Half M ≠ zero256).

Definition sync_inv (n : SNode) : Prop :=
  n = root_ (new_sync false) ∨ (sane sha512Half met n ∧ s_hash n = getNodeHash sha512Half M).

Lemma new_root_sane : sane sha512Half met (root_ (new_sync false)).
Proof.
  apply (make_inner_sane sha512Half met None (replicate 16 zero256) (replicate 16 false)).
  - split; [done|]. split; [|split; [done|]].
    + intros x [-> _]%elem_of_replicate. done.
    + intros i x Hx. cbn [fst] in Hx. apply lookup_replicate in Hx as [-> _].
      unfold isNonZero. by rewrite bool_decide_eq_true_2.
  - by intros [].
Qed.

Lemma root_id_path : root_id = path_id [].
Proof. reflexivity. Qed.

Lemma sync_v1 n : sync_inv n → s_is_v2 n = false.
Proof.
  intros [->|[Hs E]]; [done|]. pose proof (placed_agrees _ Hsha _ met_free _ HT _ _ _ Hs (root_placed T M HM) Hknown Hz E) as Ha.
  destruct M as [|w ds]; [done|]. destruct HM as [[_ ->] _]. by inversion Ha.
Qed.

Lemma deliver_inv m x :
  sync_inv (root_ m) → delivery_ok met x →
  ∃ m', deliver (getNodeHash sha512Half M) m x.1 x.2 = Some m' ∧ sync_inv (root_ m').
Proof.
  destruct x as [e d]. intros Hi [Hf Hd]. simpl in *. unfold deliver. destruct d as [raw|id raw].
  - destruct Hd as [Hs Hm]. unfold addRootNode. destruct (isNonZero _); [by exists m|]. unfold make.
    rewrite large_asserted by (intros n Hn; by apply Hm).
    destruct (make_wire _ _ _ _) as [ex|[n|]] eqn:En; [by exists m| |by exists m].
    case_bool_decide as Eh; simpl; [|by exists m]. eexists. split; [done|]. right. split; [|done].
    eapply make_wire_sane; [done|done|exact En|by apply Hm].
  - destruct Hd as (Hs & Hu & Hroot & Hm). unfold addKnownNode. rewrite Hroot. destruct (negb (isSynching m)); [by exists m|]. unfold make.
    rewrite large_asserted by (intros n Hn; by apply Hm).
    destruct (make_wire _ _ _ _) as [ex|nn] eqn:En; [by exists m|].
    rewrite (sync_v1 _ Hi), root_id_path.
    assert (∀ n, nn = Some n → sane sha512Half met n) as Hnn.
    { intros n ->. eapply make_wire_sane; [done|done|exact En|by apply Hm]. }
    destruct Hi as [Hi|[Hsn Eh]].
    + destruct (walk_vacuous sha512Half met (env_fetch e) (env_touch e) (env_generation e) id nn Hu 64 false
        (root_ m) (path_id [])) as [a E].
      { rewrite Hi. apply new_root_sane. }
      { rewrite Hi. apply (sane_zero_vacuous sha512Half met met_free); [apply new_root_sane|done]. }
      change (S 64) with path_fuel in E. rewrite E. eexists. split; [done|]. by left.
    + destruct (walk_sane sha512Half Hsha met met_free T HT (env_fetch e) (env_touch e) (env_generation e)
        Hf id nn Hu Hnn path_fuel (root_ m) [] M) as (a & n' & bad & -> & Hn' & E'); try done.
      { by apply root_placed. }
      { unfold path_fuel. simpl. lia. }
      eexists. split; [done|]. right. simpl. split; [done|congruence].
Qed.

Lemma sync_run_inv ds : ∀ m,
  sync_inv (root_ m) → Forall (delivery_ok met) ds →
  ∃ m', sync (getNodeHash sha512Half M) m ds = Some m' ∧ sync_inv (root_ m').
Proof.
  induction ds as [|[e d] ds IH]; intros m Hi Hd; [by exists m|]. apply Forall_cons in Hd as [Hd Hds].
  destruct (deliver_inv m (e, d) Hi Hd) as (m' & E & Hi'). simpl in *. rewrite E. by apply IH.
Qed.

(** Lookups in a tree of which the root is known. *)
Lemma synced_find n k :
  sane sha512Half met n → s_hash n = getNodeHash sha512Half M → is_u256 k →
  match s_findKey n k with
  | Some (inr (Some (SLeaf item type _))) => peekItem M k = Some (Some (item, type))
  | Some (inr None) => peekItem M k = Some None
  | Some (inl _) => complete n = false
  | _ => False
  end.
Proof.
  intros Hs E Hk. pose proof (placed_agrees _ Hsha _ met_free _ HT _ _ _ Hs (root_placed T M HM) Hknown Hz E) as Ha.
  unfold s_findKey, peekItem, findKey, walkTowardsKey. rewrite (is_v2_root _ _ _ HM), root_id_path.
  destruct (agree_walk T HT n M Ha [] path_fuel k [] (root_placed T M HM) Hk) as [(h & -> & Hc)|(r & r' & st & -> & -> & Hsame)].
  { unfold path_fuel. simpl. lia. }
  - done.
  - destruct r as [[item ty h|]|], r' as [[item' ty'|]|]; try done. destruct Hsame as [<- <-].
    case_bool_decide; done.
Qed.
End runs.

(** C5: Synchronization of version 1 maps is safe.  A map of which only the root
    hash is known, filled with whatever nodes peers send in whatever order - for
    places below the root, leaves of 12 bytes or more, and no two of the byte
    strings met with the same hash, what the cache and the store give for a hash
    having that hash - either still waits for its root or agrees with the map of that hash wherever it is there: what a lookup among the nodes
    it has finds is in the map, what it finds absent is not, a missing node is
    reported, and when nothing is missing the contents are those of the map. *)
Theorem shamap_sync_safe sha512Half isTransaction hasMeta M met ds :
  (∀ x, length (sha512Half x) = 32%nat) →
  reach sha512Half isTransaction hasMeta false M →
  keyed sha512Half (leaf_type isTransaction hasMeta) (items M) →
  collision_free sha512Half met → (∀ x, x ∈ hashed sha512Half M → x ∈ met) →
  getNodeHash sha512Half M ≠ zero256 → Forall (delivery_ok sha512Half met) ds →
  ∃ m, sync sha512Half (getNodeHash sha512Half M) (new_sync false) ds = Some m ∧
    (root_ m = root_ (new_sync false) ∨
     s_hash (root_ m) = getNodeHash sha512Half M ∧
     (complete (root_ m) = true → s_items (root_ m) = items M) ∧
     ∀ k, is_u256 k →
       match s_findKey (root_ m) k with
       | Some (inr (Some (SLeaf item type _))) => peekItem M k = Some (Some (item, type))
       | Some (inr None) => peekItem M k = Some None
       | Some (inl _) => complete (root_ m) = false
       | _ => False
       end).
Proof.
  intros Hsha HM%reach_wf Hkey Hmet Hin Hz Hds.
  pose proof (leaf_type_ok isTransaction hasMeta) as HT. set (T := leaf_type isTransaction hasMeta) in *.
  assert (known sha512Half met T M) as Hk by done.
  destruct (sync_run_inv sha512Half Hsha met Hmet T HT M HM Hk Hz ds (new_sync false)) as (m & E & Hi); [by left|done|].
  exists m. split; [done|]. destruct Hi as [Hi|[Hs Eh]]; [by left|]. right. split; [done|]. split.
  - eapply agree_items, (placed_agrees _ Hsha _ Hmet _ HT _ [] _ Hs); try done. by apply root_placed.
  - intros k Hu. by eapply synced_find.
Qed.

(** ** Progress

    [partial n d]: a copy of [d] of which parts are missing, as honest peers make
    it. *)
Inductive partial (sha512Half : list Z → uint256) : SNode → Node → Prop :=
  | partial_leaf item type :
      partial sha512Half (SLeaf item type (sha512Half (leaf_preimage item type))) (Leaf item type)
  | partial_inner cs ds :
      length cs = 16%nat → length ds = 16%nat →
      (∀ i c, cs !! i = Some (Some c) → ∃ d, ds !! i = Some (Some d)) →
      (∀ i c d, cs !! i = Some (Some c) → ds !! i = Some (Some d) → partial sha512Half c d) →
      partial sha512Half
        (SInner None (map (getChildHash sha512Half) ds) (map (λ o, bool_decide (is_Some o)) ds) cs 0
           (getNodeHash sha512Half (Inner None ds))) (Inner None ds).

(** The sizes of trees with one child replaced. *)
Definition osize {A} (f : A → nat) (o : option A) : nat := match o with Some c => f c | None => O end.

Lemma osize_insert {A} (f : A → nat) (cs : list (option A)) i o o' :
  cs !! i = Some o →
  (sum_list (map (osize f) (<[i := o']> cs)) + osize f o = sum_list (map (osize f) cs) + osize f o')%nat.
Proof.
  revert i. induction cs as [|x cs IH]; intros [|i] Hi; simplify_eq/=; [lia|]. specialize (IH i Hi). lia.
Qed.

Lemma osize_le {A B} (f : A → nat) (g : B → nat) cs ds :
  length cs = length ds →
  (∀ i c, cs !! i = Some (Some c) → ∃ d, ds !! i = Some (Some d) ∧ (f c ≤ g d)%nat) →
  (sum_list (map (osize f) cs) ≤ sum_list (map (osize g) ds))%nat.
Proof.
  revert ds. induction cs as [|x cs IH]; intros [|y ds] Hl H; simplify_eq/=; [lia|].
  specialize (IH ds Hl (λ i c Hc, H (S i) c Hc)). destruct x as [c|]; simpl; [|lia].
  destruct (H 0%nat c eq_refl) as (d & [= ->] & Hd). simpl. lia.
Qed.

Section progress.
Context (sha512Half : list Z → uint256) (T : TNType).
Context (fetch : uint256 → option SNode) (touch_if_exists : uint256 → bool) (generation : Z).
Context (Hfetch : ∀ h, fetch h = None) (Htouch : ∀ h, touch_if_exists h = false) (Hgen : generation ≠ 0).
#[local] Abbreviation walk := (add_walk fetch touch_if_exists generation).
#[local] Abbreviation partial := (partial sha512Half).
#[local] Abbreviation stored := (stored sha512Half).

Lemma partial_hash n d : partial n d → s_hash n = getNodeHash sha512Half d.
Proof. by destruct 1. Qed.

Lemma partial_shallow d p : placed T p d → partial (shallow (stored d)) d.
Proof.
  destruct d as [item ty|w ds]; [constructor|]. intros [-> (_ & _ & Hl & _)]%placed_inner. simpl.
  apply (partial_inner _ (replicate 16 None) ds); [done|done| |].
  - intros i c Hc. by apply lookup_replicate in Hc as [? _].
  - intros i c d Hc. by apply lookup_replicate in Hc as [? _].
Qed.

Lemma partial_resident n d : partial n d → (resident n ≤ node_count d)%nat.
Proof.
  induction 1 as [|cs ds Hc Hd Hsub Hp IH]; [done|]. simpl. apply le_n_S.
  apply (osize_le resident node_count); [congruence|]. intros i c Hi. destruct (Hsub i c Hi) as [d Hdi].
  exists d. split; [done|]. by eapply IH.
Qed.

(** Where something is missing. *)
Lemma incomplete_child v hashes isb cs g h :
  length isb = length cs → complete (SInner v hashes isb cs g h) = false →
  ∃ i, isb !! i = Some true ∧
    (cs !! i = Some None ∨ ∃ c, cs !! i = Some (Some c) ∧ complete c = false).
Proof.
  simpl. revert cs. induction isb as [|b isb IH]; intros [|o cs] Hl Hc; try done.
  destruct o as [c|]; apply andb_false_iff in Hc as [Hc|Hc].
  - apply orb_false_iff in Hc as [Hb Hc]. exists 0%nat. destruct b; [|done]. split; [done|]. right. by exists c.
  - destruct (IH cs) as (i & Hi & Hm); [by injection Hl|done|]. by exists (S i).
  - exists 0%nat. destruct b; [|done]. split; [done|]. by left.
  - destruct (IH cs) as (i & Hi & Hm); [by injection Hl|done|]. by exists (S i).
Qed.

Lemma path_branch p q i :
  in_base 16 q → (length q ≤ 64)%nat → p ++ [i] `prefix_of` q →
  selectBranch (path_id p) (mNodeID (path_id q)) = i ∧ mDepth (path_id p) < mDepth (path_id q).
Proof.
  intros Hq Hl Hp. pose proof (prefix_length _ _ Hp) as Hlen. rewrite length_app in Hlen. simpl in Hlen.
  split; [|simpl; lia]. cbn [mNodeID path_id]. rewrite (selectBranch_eq _ _ (length p)); [|by apply pack_u256|done|lia].
  apply prefix_snoc_iff in Hp as [_ Hi]. unfold nib. apply list_lookup_total_correct.
  rewrite nibs_pack by (done || lia). by rewrite lookup_app_l by lia.
Qed.

Lemma partial_set_child cs ds i c d g h :
  partial (SInner None (map (getChildHash sha512Half) ds) (map (λ o, bool_decide (is_Some o)) ds) cs g h) (Inner None ds) →
  ds !! i = Some (Some d) → partial c d →
  partial (SInner None (map (getChildHash sha512Half) ds) (map (λ o, bool_decide (is_Some o)) ds)
             (<[i := Some c]> cs) g h) (Inner None ds).
Proof.
  intros Hp Hd Hc. inversion Hp as [|? ? H1 H2 H3 H4]; subst. constructor; [by rewrite length_insert|done|..].
  - intros k x Hk. apply list_lookup_insert_Some in Hk as [(-> & [= <-] & _)|[_ Hk]]; eauto.
  - intros k x y Hk Hy. apply list_lookup_insert_Some in Hk as [(-> & [= <-] & _)|[_ Hk]]; [congruence|eauto].
Qed.

Lemma walk_progress n d : partial n d → ∀ p,
  placed T p d → complete n = false →
  ∃ q e, p `prefix_of` q ∧ (length p < length q ≤ 64)%nat ∧ in_base 16 q ∧ node_of e d ∧ wf false T q e ∧
    ∀ fuel, (64 < fuel + length p)%nat →
      ∃ n', walk fuel false (path_id q) (Some (shallow (stored e))) n (path_id p) = Some (useful, n', false) ∧
        partial n' d ∧ resident n' = S (resident n).
Proof.
  induction 1 as [item type|cs ds Hc Hd Hsub Hp IH]; intros p Hpl Hincomp; [done|].
  assert (partial (SInner None (map (getChildHash sha512Half) ds) (map (λ o, bool_decide (is_Some o)) ds) cs 0
    (getNodeHash sha512Half (Inner None ds))) (Inner None ds)) as Hpart by by constructor.
  apply placed_inner in Hpl as [_ (Hb & Hl & _ & Hwf)].
  destruct (incomplete_child _ _ _ _ _ _ (eq_trans (length_map _ ds) (eq_trans Hd (eq_sym Hc))) Hincomp) as (i & Hi & Hmiss).
  rewrite list_lookup_fmap in Hi. destruct (ds !! i) as [[d|]|] eqn:Ed; try done. clear Hi.
  assert (i < 16)%nat as Hi16 by (apply lookup_lt_Some in Ed; lia).
  assert (in_base 16 (p ++ [Z.of_nat i])) as Hpi by (apply Forall_app; split; [done|repeat constructor; lia]).
  pose proof (Hwf i d Ed) as Hwd.
  assert (∀ q, p ++ [Z.of_nat i] `prefix_of` q → in_base 16 q → (length q ≤ 64)%nat → ∀ fuel newNode,
    walk (S fuel) false (path_id q) newNode (SInner None (map (getChildHash sha512Half) ds)
      (map (λ o, bool_decide (is_Some o)) ds) cs 0 (getNodeHash sha512Half (Inner None ds))) (path_id p) =
    match mjoin (cs !! i) with
    | None => let '(answer, bad', hooked) := hook false (getNodeHash sha512Half d) (path_id (p ++ [Z.of_nat i])) (path_id q) newNode in
        Some (answer, SInner None (map (getChildHash sha512Half) ds) (map (λ o, bool_decide (is_Some o)) ds)
          (match newNode with Some n => if hooked then canonicalizeChild (Z.of_nat i) n cs else cs | None => cs end) 0
          (getNodeHash sha512Half (Inner None ds)), bad')
    | Some c =>
        match walk fuel false (path_id q) newNode c (path_id (p ++ [Z.of_nat i])) with
        | None => None
        | Some (answer, c, bad') => Some (answer, SInner None (map (getChildHash sha512Half) ds)
            (map (λ o, bool_decide (is_Some o)) ds) (<[i := Some c]> cs) 0 (getNodeHash sha512Half (Inner None ds)), bad')
        end
    end) as Hstep.
  { intros q Hq Hqb Hql fuel newNode. destruct (path_branch p q _ Hqb Hql Hq) as [Ebr Edep]. cbn [add_walk].
    rewrite (proj2 (Z.eqb_neq 0 generation)) by congruence. rewrite (proj2 (Z.ltb_lt _ _) Edep). cbn [orb negb].
    rewrite Ebr, Nat2Z.id.
    assert (map (λ o : option Node, bool_decide (is_Some o)) ds !! i = Some true) as E1 by by rewrite list_lookup_fmap, Ed.
    assert (map (getChildHash sha512Half) ds !! i = Some (getNodeHash sha512Half d)) as E2 by by rewrite list_lookup_fmap, Ed.
    rewrite (list_lookup_total_correct _ _ _ E1), (list_lookup_total_correct _ _ _ E2). cbn [negb].
    rewrite Htouch. unfold descend. rewrite Nat2Z.id, Hfetch, <- getChildNodeID_path by (done || lia).
    by destruct (mjoin (cs !! i)) as [c|]. }
  destruct Hmiss as [Ec|(c & Ec & Hci)].
  - exists (p ++ [Z.of_nat i]), d. rewrite length_app. simpl. split; [by apply prefix_app_r|]. split; [lia|].
    split; [done|]. split; [eapply node_below; [exact Ed|constructor]|]. split; [done|].
    intros [|fuel] Hf; [lia|]. rewrite Hstep; [|done|done|rewrite length_app; simpl; lia].
    assert (mjoin (cs !! i) = None) as -> by by rewrite Ec.
    assert (placed T (p ++ [Z.of_nat i]) d) as Hpd by by left.
    pose proof (partial_shallow d _ Hpd) as Hps.
    assert (hook false (getNodeHash sha512Half d) (path_id (p ++ [Z.of_nat i])) (path_id (p ++ [Z.of_nat i]))
      (Some (shallow (stored d))) = (useful, false, true)) as ->.
    { unfold hook. rewrite (partial_hash _ _ Hps), bool_decide_eq_true_2 by done. simpl.
      destruct d as [item ty|w es]; simpl.
      - by rewrite bool_decide_eq_true_2 by done.
      - apply placed_inner in Hpd as [-> (_ & Hl' & _)]. unfold isInBounds. simpl.
        rewrite (proj2 (Z.ltb_lt _ _)) by lia. simpl. by rewrite bool_decide_eq_true_2 by done. }
    eexists. split; [done|]. unfold canonicalizeChild. rewrite Nat2Z.id, Ec. simpl. split.
    + by eapply partial_set_child.
    + pose proof (osize_insert resident cs i None (Some (shallow (stored d))) Ec) as Hs. simpl in Hs.
      f_equal. change (λ o : option SNode, match o with Some c => resident c | None => 0%nat end) with (osize resident).
      assert (resident (shallow (stored d)) = 1%nat) as E1 by (by destruct d). lia.
  - destruct (Hsub i c Ec) as [d' Ed']. rewrite Ed in Ed'. injection Ed' as <-.
    destruct (IH i c d Ec Ed (p ++ [Z.of_nat i])) as (q & e & Hq & Hql & Hqb & He & Hwe & Hwalk); [by left|done|].
    exists q, e. rewrite length_app in Hql. simpl in Hql. split; [by eapply prefix_app_l|]. split; [lia|].
    split; [done|]. split; [by eapply node_below|]. split; [done|].
    intros [|fuel] Hf; [lia|]. rewrite Hstep; [|done|done|lia].
    assert (mjoin (cs !! i) = Some c) as -> by by rewrite Ec.
    destruct (Hwalk fuel) as (c' & -> & Hc' & Hr); [rewrite length_app; simpl; lia|].
    eexists. split; [done|]. split; [by eapply partial_set_child|].
    pose proof (osize_insert resident cs i (Some c) (Some c') Ec) as Hs. simpl in Hs |- *.
    f_equal. change (λ o : option SNode, match o with Some c => resident c | None => 0%nat end) with (osize resident). lia.
Qed.
End progress.

Lemma partial_agree sha512Half n d : partial sha512Half n d → agree n d.
Proof.
  induction 1 as [|cs ds Hc Hd Hsub Hp IH]; [constructor|].
  constructor; [by rewrite length_map|done|done| |done|].
  - intros i d Hi. by rewrite list_lookup_fmap, Hi.
  - intros i c Hci Hdi. destruct (Hsub i c Hci) as [d Hd']. congruence.
Qed.

(** What a server that has the map sends. *)
Definition own_node (sha512Half : list Z → uint256) (M : Node) (d : Delivery) : Prop :=
  match d with
  | RootNode raw => raw = node_raw (stored sha512Half M) snfWIRE
  | KnownNode id raw => ∃ e, node_of e M ∧ raw = node_raw (stored sha512Half e) snfWIRE
  end.

Section completes.
Context (sha512Half : list Z → uint256) (Hsha : ∀ x, length (sha512Half x) = 32%nat).
Context (T : TNType) (HT : is_leaf_type T) (M : Node) (HM : wf_root false T M).
Context (Hitems : items_ok sha512Half T (items M)) (Hcf : collision_free sha512Half (hashed sha512Half M)).
Context (Hz : getNodeHash sha512Half M ≠ zero256).
Context (e : SyncEnv) (Hfetch : ∀ h, env_fetch e h = None) (Htouch : ∀ h, env_touch e h = false).
Context (Hgen : env_generation e ≠ 0).
#[local] Abbreviation partial := (partial sha512Half).
#[local] Abbreviation known_node := (addKnownNode sha512Half (env_fetch e) (env_touch e) (env_generation e)).

Lemma node_made d id :
  node_of d M → getNodeHash sha512Half d ≠ zero256 → sent_with d id →
  make sha512Half (node_raw (stored sha512Half d) snfWIRE) snfWIRE None id =
  Some (inr (Some (shallow (stored sha512Half d)))).
Proof.
  intros Hd Hdz Hid. pose proof (root_nodes_storable sha512Half Hsha false T HT M d HM Hcf Hitems Hd Hdz) as Hst.
  by apply (wire_roundtrip sha512Half Hsha false T HT d id Hst Hdz Hid).
Qed.

Lemma partial_v1 n : partial n M → s_is_v2 n = false.
Proof. by destruct 1. Qed.

Lemma node_progress m :
  isSynching m = true → partial (root_ m) M → complete (root_ m) = false →
  ∃ id d m', own_node sha512Half M (KnownNode id (node_raw (stored sha512Half d) snfWIRE)) ∧
    known_node m id (node_raw (stored sha512Half d) snfWIRE) = Some (inr (useful, m')) ∧
    isSynching m' = true ∧ partial (root_ m') M ∧ resident (root_ m') = S (resident (root_ m)).
Proof.
  intros Hsy Hp Hinc.
  destruct (walk_progress sha512Half T (env_fetch e) (env_touch e) (env_generation e) Hfetch Htouch Hgen
    (root_ m) M Hp [] (root_placed T M HM) Hinc) as (q & d & _ & Hql & Hqb & Hd & Hwd & Hw).
  destruct (Hw path_fuel) as (n' & E & Hn' & Hr); [unfold path_fuel; simpl; lia|].
  exists (path_id q), d, (mkSync n' (state_ m)). split; [by exists d|]. split; [|by split].
  unfold addKnownNode. assert (isRoot (path_id q) = false) as -> by (unfold isRoot; simpl; apply Z.eqb_neq; simpl in Hql; lia).
  rewrite Hsy. simpl negb. cbv iota.
  assert (getNodeHash sha512Half d ≠ zero256) as Hdz.
  { destruct M as [|w ds]; [done|]. inversion Hd as [|? ? ? i c Hci Hnc]; subst; [done|].
    destruct HM as [_ (_ & _ & _ & Hc)].
    edestruct node_of_wf as [_ Hcf']; [exact Hnc|exact (Hc i c Hci)|by eapply child_collision_free|]. by eapply (hash_nonzero sha512Half Hsha false T HT). }
  rewrite node_made; [|done|done|].
  - rewrite (partial_v1 _ Hp), root_id_path, E. done.
  - destruct d as [|w ds]; [done|]. apply wf_body in Hwd as (? & [_ ->] & _). done.
Qed.

Lemma sync_from k : ∀ m,
  isSynching m = true → partial (root_ m) M → (node_count M - resident (root_ m) ≤ k)%nat →
  ∃ ds m', (length ds ≤ k)%nat ∧ Forall (own_node sha512Half M) ds ∧
    sync sha512Half (getNodeHash sha512Half M) m (map (pair e) ds) = Some m' ∧
    partial (root_ m') M ∧ complete (root_ m') = true.
Proof.
  induction k as [|k IH]; intros m Hsy Hp Hk; destruct (complete (root_ m)) eqn:Hc;
    try (exists [], m; by split_and!; [simpl; lia|constructor|..]).
  - destruct (node_progress m Hsy Hp Hc) as (id & d & m' & _ & _ & _ & Hp' & Hr).
    apply partial_resident in Hp'. lia.
  - destruct (node_progress m Hsy Hp Hc) as (id & d & m' & Hown & E & Hsy' & Hp' & Hr).
    destruct (IH m' Hsy' Hp') as (ds & m'' & Hl & Hds & E' & Hp'' & Hc''); [lia|].
    exists (KnownNode id (node_raw (stored sha512Half d) snfWIRE) :: ds), m''.
    split_and!; try done; [simpl; lia|by constructor|]. cbn [map sync].
    assert (deliver sha512Half (getNodeHash sha512Half M) m e (KnownNode id (node_raw (stored sha512Half d) snfWIRE)) = Some m')
      as -> by (unfold deliver; by rewrite E).
    done.
Qed.
End completes.

(** C6: Synchronization of version 1 maps completes when the nodes that came are
    those of the map, the caches and the store know none of them and the
    generation of the cache is not zero.  Once the root is there, as long as a
    node is missing there is one of the map's nodes whose delivery is accepted as
    useful and adds a node; so that at most as many deliveries as the map has
    nodes take a new map to the whole contents.  A node that names a branch twice
    can keep a map waiting ([wire_bogus_branch]). *)
Theorem shamap_sync_completes sha512Half isTransaction hasMeta M e :
  (∀ x, length (sha512Half x) = 32%nat) →
  reach sha512Half isTransaction hasMeta false M →
  items_ok sha512Half (leaf_type isTransaction hasMeta) (items M) →
  collision_free sha512Half (hashed sha512Half M) → getNodeHash sha512Half M ≠ zero256 →
  (∀ h, env_fetch e h = None) → (∀ h, env_touch e h = false) → env_generation e ≠ 0 →
  (∀ m, isSynching m = true → partial sha512Half (root_ m) M → complete (root_ m) = false →
     ∃ id d m', own_node sha512Half M (KnownNode id (node_raw (stored sha512Half d) snfWIRE)) ∧
       addKnownNode sha512Half (env_fetch e) (env_touch e) (env_generation e) m id
         (node_raw (stored sha512Half d) snfWIRE) = Some (inr (useful, m')) ∧
       isSynching m' = true ∧ partial sha512Half (root_ m') M ∧
       resident (root_ m') = S (resident (root_ m)) ∧ (resident (root_ m') ≤ node_count M)%nat) ∧
  ∃ ds m, (length ds ≤ node_count M)%nat ∧ Forall (own_node sha512Half M) ds ∧
    sync sha512Half (getNodeHash sha512Half M) (new_sync false) (map (pair e) ds) = Some m ∧
    complete (root_ m) = true ∧ s_items (root_ m) = items M.
Proof.
  intros Hsha HM%reach_wf Hit Hcf Hz Hf Ht Hg. pose proof (leaf_type_ok isTransaction hasMeta) as HT. split.
  - intros m Hsy Hp Hc.
    destruct (node_progress sha512Half Hsha _ HT M HM Hit Hcf Hz e Hf Ht Hg m Hsy Hp Hc)
      as (id & d & m' & Ho & E & Hsy' & Hp' & Hr).
    exists id, d, m'. split_and!; try done. by eapply partial_resident.
  - set (m0 := mkSync (shallow (stored sha512Half M)) Synching).
    assert (partial sha512Half (root_ m0) M) as Hp0 by (eapply partial_shallow, root_placed; done).
    destruct (sync_from sha512Half Hsha _ HT M HM Hit Hcf Hz e Hf Ht Hg (node_count M - 1) m0)
      as (ds & m & Hl & Hds & E & Hp & Hc); [done|done| |].
    { assert (resident (root_ m0) = 1%nat) as -> by (by destruct M). lia. }
    exists (RootNode (node_raw (stored sha512Half M) snfWIRE) :: ds), m.
    assert (1 ≤ node_count M)%nat as Hn by (destruct M; simpl; lia).
    split; [simpl; lia|]. split; [by constructor|]. split; [|split; [done|]].
    + cbn [map sync]. unfold deliver, addRootNode.
      change (s_hash (root_ (new_sync false))) with zero256.
      change (isNonZero zero256) with false. cbv iota.
      rewrite (node_made sha512Half Hsha _ HT M HM Hit Hcf); [|constructor|done|].
      * rewrite (partial_hash _ _ _ Hp0 : s_hash (shallow (stored sha512Half M)) = _), bool_decide_eq_true_2 by done.
        simpl negb. cbv iota. destruct M as [|w ds']; [done|]. exact E.
      * destruct M as [|w ds']; [done|]. by destruct HM as [[_ ->] _].
    + by eapply agree_items, Hc; eapply partial_agree.
Qed.

(** ** Witnesses

    A server that knows nothing but the root hash, and a peer that sends the
    root, a message that is no node, and a leaf. *)
Definition sample_env : SyncEnv := mkSyncEnv (λ _, None) (λ _, false) 1.
Definition sample_server : Node := sample_map false sample_ops.
Definition sample_deliveries : list (SyncEnv * Delivery) :=
  [(sample_env, KnownNode (path_id [2]) [9]);
   (sample_env, RootNode (node_raw (stored sample_hash sample_server) snfWIRE));
   (sample_env, KnownNode (path_id [2]) []);
   (sample_env, KnownNode (path_id [2]) (sample_data [0x20] ++ sample_key [0x20] ++ [1]))].

Definition sample_met : list (list Z) := hashed sample_hash sample_server.
Definition formed_met (met : list (list Z)) (r : sexn + option SNode) : bool :=
  match r with
  | inr (Some n) => match n with SLeaf item _ _ => large_enough item | _ => true end && forallb (λ x, existsb (λ y, bool_decide (x = y)) met) (hashed_form n)
  | _ => true
  end.

Lemma formed_met_ok met r n :
  formed_met met r = true → r = inr (Some n) → leaf_large n ∧ ∀ x, x ∈ hashed_form n → x ∈ met.
Proof.
  unfold formed_met. intros H ->. apply andb_true_iff in H as [Hl H]. rewrite forallb_forall in H. split; [by destruct n|].
  intros x Hx%list_elem_of_In%H. apply existsb_exists in Hx as (y & Hy & ->%bool_decide_eq_true).
  by apply list_elem_of_In.
Qed.

Lemma sample_deliveries_ok : Forall (delivery_ok sample_hash sample_met) sample_deliveries.
Proof.
  assert (is_u256 (mNodeID (path_id [2]))) as Hu by (by apply pack_u256; repeat constructor; lia).
  assert (∀ raw, size raw < 2 ^ 63 → formed_met sample_met (make_wire sample_hash raw None (path_id [2])) = true →
    delivery_ok sample_hash sample_met (sample_env, KnownNode (path_id [2]) raw)) as H.
  { intros raw Hs Hf. split; [by intros ???|]. split; [done|]. split; [done|]. split; [done|]. intros n. by apply formed_met_ok. }
  assert (∀ raw, size raw < 2 ^ 63 → formed_met sample_met (make_wire sample_hash raw None root_id) = true →
    delivery_ok sample_hash sample_met (sample_env, RootNode raw)) as H'.
  { intros raw Hs Hf. split; [by intros ???|]. split; [done|]. intros n. by apply formed_met_ok. }
  unfold sample_deliveries. constructor; [|constructor; [|constructor; [|constructor; [|constructor]]]].
  - apply H; vm_compute; reflexivity.
  - apply H'; vm_compute; reflexivity.
  - apply H; vm_compute; reflexivity.
  - apply H; vm_compute; reflexivity.
Qed.

Lemma sample_server_reach : reach sample_hash false false false sample_server.
Proof. apply sample_map_reach. by destruct sample_ops_ok. Qed.

Lemma shamap_sync_safe_witness :
  ∃ m, sync sample_hash (getNodeHash sample_hash sample_server) (new_sync false) sample_deliveries = Some m ∧
    resident (root_ m) = 2%nat ∧
    match s_findKey (root_ m) (sample_key [0x20]) with
    | Some (inr (Some (SLeaf item type _))) => peekItem sample_server (sample_key [0x20]) = Some (Some (item, type))
    | _ => False
    end.
Proof.
  destruct (shamap_sync_safe sample_hash false false sample_server sample_met sample_deliveries)
    as (m & E & H).
  - exact sample_hash_length.
  - exact sample_server_reach.
  - done.
  - apply collides_free. vm_compute. reflexivity.
  - done.
  - vm_compute. discriminate.
  - exact sample_deliveries_ok.
  - exists m. split; [exact E|]. vm_compute in E. injection E as <-. split; [vm_compute; reflexivity|].
    destruct H as [H|(_ & _ & H)]; [vm_compute in H; discriminate|].
    assert (is_u256 (sample_key [0x20])) as Hk by (by apply sample_key_ok; [simpl; lia|]).
    specialize (H _ Hk). vm_compute in H |- *. exact H.
Defined.

Lemma shamap_sync_completes_witness :
  ∃ ds m, (length ds ≤ 3)%nat ∧
    sync sample_hash (getNodeHash sample_hash sample_server) (new_sync false) (map (pair sample_env) ds) = Some m ∧
    s_items (root_ m) = items sample_server.
Proof.
  destruct (shamap_sync_completes sample_hash false false sample_server sample_env)
    as (_ & ds & m & Hl & _ & E & _ & Hi).
  - exact sample_hash_length.
  - exact sample_server_reach.
  - exact (sample_items_ok false).
  - apply collides_free. vm_compute. reflexivity.
  - vm_compute. discriminate.
  - done.
  - done.
  - done.
  - exists ds, m. split; [exact Hl|]. by split.
Defined.
