(* ===== verification/LedgerEntry.v ===== *)
(** * Ledger entries and views

    Entries of the state of a ledger (protocol/STLedgerEntry.h, Keylet.cpp) and
    the interfaces of the views they are read and changed through
    (ledger/ReadView.h, RawView.h).

    Keys are 256-bit numbers, compared as such ([compare_orders] of
    [BaseUintTheorems] is the link to their bytes).  An entry has its key, its type
    and its fields; a field that is not there reads as the default of its type.
    Entries are shared objects: a [std::shared_ptr<SLE>] is a location of a heap,
    so that an entry changed through one pointer is changed for every holder.
    [LogicError] ends the process: it is a left value with its message. *)

From stdpp Require Import prelude gmap strings sorting.
From Stdlib Require Import ZArith Lia.
From S2P Require Import Prelude.

(** ** Entries *)
Definition ltANY : Z := -3.
Definition ltCHILD : Z := -2.
Definition ltINVALID : Z := -1.
Definition ltACCOUNT_ROOT : Z := 97.
Definition ltDIR_NODE : Z := 100.

(** Fields by their codes; those of entries other than directories are kept as
    serialized bytes. *)
Record SLE := mkSLE {
  sle_key : Z;
  getType : Z;
  fields_u64 : gmap Z Z;
  fields_h256 : gmap Z Z;
  fields_v256 : gmap Z (list Z);
  fields_other : gmap Z (list Z);
}.

#[export] Instance SLE_eq_dec : EqDecision SLE.
Proof. solve_decision. Defined.

(** [type << 16 | index] of SField.cpp. *)
Definition sfIndexNext : Z := 3 * 65536 + 1.
Definition sfIndexPrevious : Z := 3 * 65536 + 2.
Definition sfRootIndex : Z := 5 * 65536 + 8.
Definition sfIndexes : Z := 19 * 65536 + 1.

Definition getFieldU64 (field : Z) (sle : SLE) : Z := default 0 (fields_u64 sle !! field).
Definition getFieldH256 (field : Z) (sle : SLE) : Z := default 0 (fields_h256 sle !! field).
Definition getFieldV256 (field : Z) (sle : SLE) : list Z := default [] (fields_v256 sle !! field).
Definition setFieldU64 (field v : Z) (sle : SLE) : SLE :=
  mkSLE (sle_key sle) (getType sle) (<[field := v]> (fields_u64 sle)) (fields_h256 sle)
    (fields_v256 sle) (fields_other sle).
Definition setFieldH256 (field v : Z) (sle : SLE) : SLE :=
  mkSLE (sle_key sle) (getType sle) (fields_u64 sle) (<[field := v]> (fields_h256 sle))
    (fields_v256 sle) (fields_other sle).
Definition setFieldV256 (field : Z) (v : list Z) (sle : SLE) : SLE :=
  mkSLE (sle_key sle) (getType sle) (fields_u64 sle) (fields_h256 sle)
    (<[field := v]> (fields_v256 sle)) (fields_other sle).

Record Keylet := mkKeylet { k_type : Z; k_key : Z }.

(** The entry [std::make_shared<SLE> (keylet)] makes. *)
Definition new_sle (k : Keylet) : SLE := mkSLE (k_key k) (k_type k) ∅ ∅ ∅ ∅.

(** [Keylet::check] *)
Definition check (k : Keylet) (sle : SLE) : bool :=
  if k_type k =? ltANY then true
  else if k_type k =? ltINVALID then false
  else if k_type k =? ltCHILD then negb (getType sle =? ltDIR_NODE)
  else getType sle =? k_type k.

Definition unchecked (key : Z) : Keylet := mkKeylet ltANY key.
Definition child (key : Z) : Keylet := mkKeylet ltCHILD key.

(** ** The heap *)
Abbreviation Ptr := positive.
Abbreviation Heap := (gmap Ptr SLE).

Definition alloc (sle : SLE) (h : Heap) : Ptr * Heap :=
  let p := fresh (dom h) in (p, <[p := sle]> h).

(** ** The interfaces *)

(** What a [ReadView] answers at one time.  [rv_sles] are the entries that its
    iterator [sles] runs over, from the first or from the first after a key. *)
Record ReadView := mkReadView {
  rv_exists : Keylet → bool;
  rv_read : Keylet → option SLE;
  rv_succ : Z → option Z → option Z;
  rv_sles : list SLE;
  rv_sles_upper : Z → list SLE;
}.

(** [RawView]: the operations by which changes are written to a view. *)
Class RawView (V : Type) := mkRawView {
  rawErase : Heap → Ptr → V → string + V;
  rawInsert : Heap → Ptr → V → string + V;
  rawReplace : Heap → Ptr → V → string + V;
  rawDestroyXRP : Z → V → V;
}.

(** [TxsRawView] *)
Class TxsRawView (V : Type) := mkTxsRawView {
  txs_raw :: RawView V;
  rawTxInsert : Z → list Z → option (list Z) → V → string + V;
}.

(** ** Maps in key order

    The elements of a [std::map] by increasing key. *)
Definition key_le {A} (a b : Z * A) : Prop := a.1 ≤ b.1.
#[export] Instance key_le_dec {A} (a b : Z * A) : Decision (key_le a b) := Z_le_dec a.1 b.1.
#[export] Instance key_le_total {A} : Total (@key_le A).
Proof. intros a b. unfold key_le. lia. Qed.
#[export] Instance key_le_trans {A} : Transitive (@key_le A).
Proof. intros a b c. unfold key_le. lia. Qed.

Definition in_order {A} (m : gmap Z A) : list (Z * A) := merge_sort key_le (map_to_list m).

(** The elements with a key above [k]: from [upper_bound] on. *)
Definition upper_bound {A} (k : Z) (l : list (Z * A)) : list (Z * A) := filter (λ x, k < x.1) l.

(** The least key above [key], below [last] where there is one. *)
Definition succ_key {A} (m : gmap Z A) (key : Z) (last : option Z) : option Z :=
  match (upper_bound key (in_order m)).*1 with
  | [] => None
  | k :: _ => match last with
              | Some l => if l <=? k then None else Some k
              | None => Some k
              end
  end.

(** The view of a state. *)
Definition map_view (m : gmap Z SLE) : ReadView :=
  let read k := s ← m !! k_key k; if check k s then Some s else None in
  mkReadView (λ k, bool_decide (is_Some (read k))) read (succ_key m) (in_order m).*2
    (λ k, (upper_bound k (in_order m)).*2).

(** [v] shows the state [m]: the law of the interface. *)
Record shows (v : ReadView) (m : gmap Z SLE) : Prop := mkShows {
  shows_keys : ∀ k s, m !! k = Some s → sle_key s = k;
  shows_exists : ∀ k, rv_exists v k = rv_exists (map_view m) k;
  shows_read : ∀ k, rv_read v k = rv_read (map_view m) k;
  shows_succ : ∀ k last, rv_succ v k last = succ_key m k last;
}.
Record shows_sles (v : ReadView) (m : gmap Z SLE) : Prop := mkShowsSles {
  shows_begin : rv_sles v = (in_order m).*2;
  shows_upper : ∀ k, rv_sles_upper v k = (upper_bound k (in_order m)).*2;
}.

(** ** Lemmas on ordered maps *)
Section in_order.
Context {A : Type}.
Implicit Types (m : gmap Z A) (l : list (Z * A)) (k key : Z).

Lemma in_order_perm m : in_order m ≡ₚ map_to_list m.
Proof. apply merge_sort_Permutation. Qed.

Lemma elem_of_in_order m k x : (k, x) ∈ in_order m ↔ m !! k = Some x.
Proof. by rewrite in_order_perm, elem_of_map_to_list. Qed.

Lemma in_order_sorted m : StronglySorted (λ a b : Z * A, a.1 < b.1) (in_order m).
Proof.
  assert (StronglySorted key_le (in_order m)) as Hs by apply (StronglySorted_merge_sort _).
  assert (NoDup (in_order m).*1) as Hn by (rewrite in_order_perm; apply NoDup_fst_map_to_list).
  induction Hs as [|x l Hs IH Hall]; constructor.
  - apply IH. by apply NoDup_cons in Hn as [_ Hn].
  - apply NoDup_cons in Hn as [Hx _]. rewrite Forall_forall in *. intros y Hy.
    pose proof (Hall y Hy) as Hle. unfold key_le in Hle.
    assert (x.1 ≠ y.1); [|lia]. intros E. apply Hx. rewrite E. apply list_elem_of_fmap. eauto.
Qed.

Lemma sorted_unique l l' :
  StronglySorted (λ a b : Z * A, a.1 < b.1) l → StronglySorted (λ a b : Z * A, a.1 < b.1) l' →
  (∀ x, x ∈ l ↔ x ∈ l') → l = l'.
Proof.
  intros Hl. revert l'. induction Hl as [|x l Hl IH Hx]; intros l' Hl' Heq.
  - destruct l' as [|y l']; [done|]. exfalso. specialize (Heq y). set_solver.
  - destruct Hl' as [|y l' Hl' Hy]; [exfalso; specialize (Heq x); set_solver|].
    rewrite Forall_forall in Hx, Hy.
    assert (x = y) as ->.
    { assert (x ∈ y :: l') as [->|H1]%elem_of_cons by (apply Heq; set_solver); [done|].
      assert (y ∈ x :: l) as [->|H2]%elem_of_cons by (apply Heq; set_solver); [done|].
      specialize (Hx _ H2). specialize (Hy _ H1). lia. }
    f_equal. apply IH; [done|]. intros z. specialize (Heq z). split; intros Hz.
    + assert (z ∈ y :: l') as [->|?]%elem_of_cons by set_solver; [|done]. specialize (Hx _ Hz). lia.
    + assert (z ∈ y :: l) as [->|?]%elem_of_cons by set_solver; [|done]. specialize (Hy _ Hz). lia.
Qed.

Lemma upper_bound_sorted k l :
  StronglySorted (λ a b : Z * A, a.1 < b.1) l → StronglySorted (λ a b : Z * A, a.1 < b.1) (upper_bound k l).
Proof. apply StronglySorted_filter. Qed.

(** [succ_key] is the least key above. *)
Lemma upper_bound_least m key k (l' : list Z) :
  (upper_bound key (in_order m)).*1 = k :: l' →
  key < k ∧ is_Some (m !! k) ∧ ∀ k', key < k' → is_Some (m !! k') → k ≤ k'.
Proof.
  pose proof (upper_bound_sorted key _ (in_order_sorted m)) as Hs.
  destruct (upper_bound key (in_order m)) as [|[k0 x] l] eqn:E; [done|]. simpl. intros [= -> _].
  assert ((k, x) ∈ upper_bound key (in_order m)) as [Hk Hin]%list_elem_of_filter by (rewrite E; set_solver).
  split; [done|]. apply elem_of_in_order in Hin. split; [eauto|]. intros k' Hk' [y Hy].
  assert ((k', y) ∈ upper_bound key (in_order m)) as Hin'
    by (apply list_elem_of_filter; split; [done|by apply elem_of_in_order]).
  rewrite E in Hin'. apply elem_of_cons in Hin' as [[= -> _]|Hin']; [lia|].
  inversion Hs as [|? ? _ Hall]; subst. rewrite Forall_forall in Hall. specialize (Hall _ Hin'). simpl in Hall. lia.
Qed.

Lemma upper_bound_none m key :
  (upper_bound key (in_order m)).*1 = [] → ∀ k', key < k' → m !! k' = None.
Proof.
  intros E k' Hk'. destruct (m !! k') as [y|] eqn:Hy; [|done].
  assert ((k', y) ∈ upper_bound key (in_order m)) as Hin
    by (apply list_elem_of_filter; split; [done|by apply elem_of_in_order]).
  apply fmap_nil_inv in E. rewrite E in Hin. by apply not_elem_of_nil in Hin.
Qed.

Definition least_above m (key : Z) (o : option Z) : Prop :=
  match o with
  | Some k => key < k ∧ is_Some (m !! k) ∧ ∀ k', key < k' → is_Some (m !! k') → k ≤ k'
  | None => ∀ k', key < k' → m !! k' = None
  end.

Lemma least_above_unique m key o o' : least_above m key o → least_above m key o' → o = o'.
Proof.
  destruct o as [k|], o' as [k'|]; simpl; try done.
  - intros (H1 & H2 & H3) (H1' & H2' & H3'). f_equal. specialize (H3 _ H1' H2'). specialize (H3' _ H1 H2). lia.
  - intros (H1 & [x Hx] & _) Hn. by rewrite Hn in Hx.
  - intros Hn (H1 & [x Hx] & _). by rewrite Hn in Hx.
Qed.

Definition below_last (last o : option Z) : option Z :=
  match o, last with
  | Some k, Some l => if l <=? k then None else Some k
  | _, _ => o
  end.

Lemma succ_key_spec m key last o : least_above m key o → succ_key m key last = below_last last o.
Proof.
  intros Ho. unfold succ_key. destruct ((upper_bound key (in_order m)).*1) as [|k l'] eqn:E.
  - rewrite (least_above_unique m key o None); [done|done|exact (upper_bound_none _ _ E)].
  - rewrite (least_above_unique m key o (Some k)); [by destruct last|done|exact (upper_bound_least _ _ _ _ E)].
Qed.

Lemma least_above_exists m key : ∃ o, least_above m key o.
Proof.
  destruct ((upper_bound key (in_order m)).*1) as [|k l'] eqn:E.
  - exists None. exact (upper_bound_none _ _ E).
  - exists (Some k). exact (upper_bound_least _ _ _ _ E).
Qed.
End in_order.
