(* ===== verification/RawStateTable.v ===== *)
(** * The table of raw changes and the open view

    src/src/ripple/ledger/detail/RawStateTable.h, impl/RawStateTable.cpp and
    impl/OpenView.cpp: changes to a base view, kept per key as an action with the
    entry it is about.

    A [std::map] is a finite map that is traversed in key order.  The iterator of
    the source is two iterators, over the base and over the table, with the
    entries they stand at; each is the list of what it has still to visit.  An
    operation that reads through a null pointer has no outcome ([None]); a
    location that holds no entry cannot arise and is a left value. *)

From stdpp Require Import prelude gmap strings sorting.
From Stdlib Require Import ZArith Lia.
From S2P Require Import Prelude.
From S2P Require Import LedgerEntry.

Inductive RawAction := raw_erase | raw_insert | raw_replace.
#[export] Instance RawAction_eq_dec : EqDecision RawAction.
Proof. solve_decision. Defined.

Abbreviation raw_items := (gmap Z (RawAction * Ptr)).

Record RawStateTable := mkRaw { r_items : raw_items; r_dropsDestroyed : Z }.
Definition empty_table : RawStateTable := mkRaw ∅ 0.
Definition set_items (i : raw_items) (t : RawStateTable) : RawStateTable := mkRaw i (r_dropsDestroyed t).

(** A pointer that is followed. *)
Definition dangling : string := "dangling pointer".

(** ** Changes *)
Definition erase (h : Heap) (p : Ptr) (t : RawStateTable) : string + RawStateTable :=
  match h !! p with
  | None => inl dangling
  | Some sle =>
      let k := sle_key sle in
      match r_items t !! k with
      | None => inr (set_items (<[k := (raw_erase, p)]> (r_items t)) t)
      | Some (raw_erase, _) => inl "RawStateTable::erase: already erased"%string
      | Some (raw_insert, _) => inr (set_items (delete k (r_items t)) t)
      | Some (raw_replace, _) => inr (set_items (<[k := (raw_erase, p)]> (r_items t)) t)
      end
  end.

Definition insert (h : Heap) (p : Ptr) (t : RawStateTable) : string + RawStateTable :=
  match h !! p with
  | None => inl dangling
  | Some sle =>
      let k := sle_key sle in
      match r_items t !! k with
      | None => inr (set_items (<[k := (raw_insert, p)]> (r_items t)) t)
      | Some (raw_erase, _) => inr (set_items (<[k := (raw_replace, p)]> (r_items t)) t)
      | Some (raw_insert, _) => inl "RawStateTable::insert: already inserted"%string
      | Some (raw_replace, _) => inl "RawStateTable::insert: already exists"%string
      end
  end.

Definition replace (h : Heap) (p : Ptr) (t : RawStateTable) : string + RawStateTable :=
  match h !! p with
  | None => inl dangling
  | Some sle =>
      let k := sle_key sle in
      match r_items t !! k with
      | None => inr (set_items (<[k := (raw_replace, p)]> (r_items t)) t)
      | Some (raw_erase, _) => inl "RawStateTable::replace: was erased"%string
      | Some (a, _) => inr (set_items (<[k := (a, p)]> (r_items t)) t)
      end
  end.

Definition destroyXRP (fee : Z) (t : RawStateTable) : RawStateTable :=
  mkRaw (r_items t) (r_dropsDestroyed t + fee).

(** The loop of [apply]. *)
Fixpoint apply_items {V} `{RawView V} (h : Heap) (l : list (Z * (RawAction * Ptr))) (to : V) : string + V :=
  match l with
  | [] => inr to
  | (_, (a, p)) :: l =>
      match match a with
            | raw_erase => rawErase h p to
            | raw_insert => rawInsert h p to
            | raw_replace => rawReplace h p to
            end
      with
      | inl e => inl e
      | inr to => apply_items h l to
      end
  end.
Definition apply {V} `{RawView V} (h : Heap) (t : RawStateTable) (to : V) : string + V :=
  apply_items h (in_order (r_items t)) (rawDestroyXRP (r_dropsDestroyed t) to).

(** ** Queries *)
Definition exists_ (h : Heap) (base : ReadView) (t : RawStateTable) (k : Keylet) : bool :=
  match r_items t !! k_key k with
  | None => rv_exists base k
  | Some (raw_erase, _) => false
  | Some (_, p) => match h !! p with Some sle => check k sle | None => false end
  end.

Definition read (h : Heap) (base : ReadView) (t : RawStateTable) (k : Keylet) : option SLE :=
  match r_items t !! k_key k with
  | None => rv_read base k
  | Some (raw_erase, _) => None
  | Some (_, p) => sle ← h !! p; if check k sle then Some sle else None
  end.

(** The loop over the keys of the base: the first that is not erased. *)
Fixpoint base_succ (fuel : nat) (succ : Z → option Z → option Z) (erased : Z → bool) (next : Z) (last : option Z) :
    option (option Z) :=
  match fuel with
  | O => None
  | S fuel =>
      match succ next last with
      | None => Some None
      | Some next => if erased next then base_succ fuel succ erased next last else Some (Some next)
      end
  end.
(** The first element of the table after [key] that is not erased. *)
Fixpoint first_live {A} (live : A → bool) (l : list (Z * A)) : option Z :=
  match l with
  | [] => None
  | (k, a) :: l => if live a then Some k else first_live live l
  end.
(** The lesser of the two, below [last]. *)
Definition merge_succ (next item last : option Z) : option Z :=
  let next :=
    match item with
    | Some i => match next with
                | Some n => if i <? n then Some i else Some n
                | None => Some i
                end
    | None => next
    end in
  match last, next with
  | Some l, Some n => if l <=? n then None else Some n
  | _, _ => next
  end.

Definition is_erase (a : RawAction * Ptr) : bool := match a.1 with raw_erase => true | _ => false end.
Definition succ (base : ReadView) (t : RawStateTable) (key : Z) (last : option Z) : option (option Z) :=
  match base_succ (S (size (r_items t))) (rv_succ base)
          (λ k, match r_items t !! k with Some a => is_erase a | None => false end) key last with
  | None => None
  | Some next =>
      Some (merge_succ next (first_live (λ a, negb (is_erase a)) (upper_bound key (in_order (r_items t)))) last)
  end.

(** ** Iteration *)
Record sles_iter := mkIter {
  iter0_ : list SLE;
  iter1_ : list (Z * (RawAction * Ptr));
  sle0_ : option SLE;
  sle1_ : option SLE;
}.

(** [iter1_->second.second] *)
Definition item_sle (h : Heap) (l : list (Z * (RawAction * Ptr))) : option SLE :=
  match l with [] => None | (_, (_, p)) :: _ => h !! p end.

Definition inc0 (it : sles_iter) : sles_iter :=
  mkIter (tail (iter0_ it)) (iter1_ it) (head (tail (iter0_ it))) (sle1_ it).
Definition inc1 (h : Heap) (it : sles_iter) : sles_iter :=
  mkIter (iter0_ it) (tail (iter1_ it)) (sle0_ it) (item_sle h (tail (iter1_ it))).

(** [skip] with [n] items left in the table. *)
Fixpoint skip_loop (h : Heap) (n : nat) (it : sles_iter) : option sles_iter :=
  match n, iter1_ it with
  | S n, (_, (raw_erase, _)) :: _ =>
      match sle0_ it, sle1_ it with
      | Some s0, Some s1 =>
          if sle_key s0 =? sle_key s1
          then let it := inc0 (inc1 h it) in
               match sle0_ it with
               | None => Some it
               | Some _ => skip_loop h n it
               end
          else Some it
      | _, _ => None
      end
  | _, _ => Some it
  end.
Definition skip (h : Heap) (it : sles_iter) : option sles_iter := skip_loop h (length (iter1_ it)) it.

(** The constructor. *)
Definition make_iter (h : Heap) (iter1 : list (Z * (RawAction * Ptr))) (iter0 : list SLE) : option sles_iter :=
  let it := mkIter iter0 iter1 (head iter0) (item_sle h iter1) in
  match iter1 with [] => Some it | _ => skip h it end.

Definition increment (h : Heap) (it : sles_iter) : option sles_iter :=
  match sle1_ it, sle0_ it with
  | Some _, None => Some (inc1 h it)
  | None, Some _ => Some (inc0 it)
  | None, None => None
  | Some s1, Some s0 =>
      if sle_key s1 =? sle_key s0 then skip h (inc0 (inc1 h it))
      else if sle_key s1 <? sle_key s0 then skip h (inc1 h it)
      else skip h (inc0 it)
  end.

Definition dereference (it : sles_iter) : option SLE :=
  match sle1_ it, sle0_ it with
  | None, s0 => s0
  | s1, None => s1
  | Some s1, Some s0 => if sle_key s1 <=? sle_key s0 then Some s1 else Some s0
  end.

(** What a loop from the iterator to the end visits. *)
Fixpoint visit (h : Heap) (fuel : nat) (it : sles_iter) : option (list SLE) :=
  match iter0_ it, iter1_ it with
  | [], [] => Some []
  | _, _ =>
      match fuel, dereference it with
      | S fuel, Some s =>
          match increment h it with
          | Some it => (cons s) <$> visit h fuel it
          | None => None
          end
      | _, _ => None
      end
  end.
Definition iterate (h : Heap) (iter1 : list (Z * (RawAction * Ptr))) (iter0 : list SLE) : option (list SLE) :=
  match make_iter h iter1 iter0 with
  | Some it => visit h (S (length iter1 + length iter0)) it
  | None => None
  end.

Definition sles (h : Heap) (base : ReadView) (t : RawStateTable) : option (list SLE) :=
  iterate h (in_order (r_items t)) (rv_sles base).
Definition slesUpperBound (h : Heap) (base : ReadView) (t : RawStateTable) (key : Z) : option (list SLE) :=
  iterate h (upper_bound key (in_order (r_items t))) (rv_sles_upper base key).

(** ** The open view

    Its transactions are serialized, with their metadata in a closed ledger. *)
Record OpenView := mkOpen {
  o_items : RawStateTable;
  txs_ : gmap Z (list Z * option (list Z));
}.
Definition new_open_view : OpenView := mkOpen empty_table ∅.

Definition on_items (f : RawStateTable → string + RawStateTable) (v : OpenView) : string + OpenView :=
  match f (o_items v) with
  | inl e => inl e
  | inr t => inr (mkOpen t (txs_ v))
  end.

#[export] Instance open_raw_view : RawView OpenView :=
  mkRawView OpenView (λ h p, on_items (erase h p)) (λ h p, on_items (insert h p))
    (λ h p, on_items (replace h p)) (λ fee v, mkOpen (destroyXRP fee (o_items v)) (txs_ v)).

Definition open_txInsert (key : Z) (txn : list Z) (metaData : option (list Z)) (v : OpenView) : string + OpenView :=
  match txs_ v !! key with
  | Some _ => inl "rawTxInsert: duplicate TX id"%string
  | None => inr (mkOpen (o_items v) (<[key := (txn, metaData)]> (txs_ v)))
  end.
#[export] Instance open_txs_view : TxsRawView OpenView :=
  mkTxsRawView OpenView open_raw_view open_txInsert.

Definition txCount (v : OpenView) : Z := Z.of_nat (size (txs_ v)).
Definition txExists (v : OpenView) (key : Z) : bool := bool_decide (is_Some (txs_ v !! key)).

(** The view as it is read. *)
Definition open_view (h : Heap) (base : ReadView) (v : OpenView) : ReadView :=
  mkReadView (exists_ h base (o_items v)) (read h base (o_items v))
    (λ k last, mjoin (succ base (o_items v) k last))
    (default [] (sles h base (o_items v))) (λ k, default [] (slesUpperBound h base (o_items v) k)).

Fixpoint insert_txs {V} `{TxsRawView V} (l : list (Z * (list Z * option (list Z)))) (to : V) : string + V :=
  match l with
  | [] => inr to
  | (k, (txn, meta)) :: l =>
      match rawTxInsert k txn meta to with
      | inl e => inl e
      | inr to => insert_txs l to
      end
  end.
(** [OpenView::apply] *)
Definition open_apply {V} `{TxsRawView V} (h : Heap) (v : OpenView) (to : V) : string + V :=
  match apply h (o_items v) to with
  | inl e => inl e
  | inr to => insert_txs (in_order (txs_ v)) to
  end.
