(* ===== verification/RawStateSpec.v ===== *)
(** * The raw state table as an overlay

    A table of changes over a base state stands for the state with the changes
    made: the operations change that state, the queries read it, and [apply]
    writes it to any store that keeps the laws of [RawStore]. *)

From stdpp Require Import prelude gmap strings sorting.
From Stdlib Require Import ZArith Lia.
From S2P Require Import Prelude.
From S2P Require Import LedgerEntry.
From S2P Require Import RawStateTable.

Definition keys_ok (m : gmap Z SLE) : Prop := ∀ k s, m !! k = Some s → sle_key s = k.

(** ** Stores of raw changes *)
Class RawStore (V : Type) `{RawView V} := mkRawStore {
  rs_holds : Heap → V → gmap Z SLE → Prop;
  rs_drops : V → Z;
  rs_erase h p s v m : rs_holds h v m → h !! p = Some s → is_Some (m !! sle_key s) →
    ∃ v', rawErase h p v = inr v' ∧ rs_holds h v' (delete (sle_key s) m) ∧ rs_drops v' = rs_drops v;
  rs_insert h p s v m : rs_holds h v m → h !! p = Some s → m !! sle_key s = None →
    ∃ v', rawInsert h p v = inr v' ∧ rs_holds h v' (<[sle_key s := s]> m) ∧ rs_drops v' = rs_drops v;
  rs_replace h p s v m : rs_holds h v m → h !! p = Some s → is_Some (m !! sle_key s) →
    ∃ v', rawReplace h p v = inr v' ∧ rs_holds h v' (<[sle_key s := s]> m) ∧ rs_drops v' = rs_drops v;
  rs_destroy h fee v m : rs_holds h v m →
    rs_holds h (rawDestroyXRP fee v) m ∧ rs_drops (rawDestroyXRP fee v) = rs_drops v + fee;
}.

(** ** The overlay *)
Definition entry_of (h : Heap) (a : RawAction * Ptr) : option SLE :=
  match a.1 with raw_erase => None | _ => h !! a.2 end.
Definition overlay_at (h : Heap) (i : option (RawAction * Ptr)) (b : option SLE) : option SLE :=
  match i with None => b | Some a => entry_of h a end.
Definition overlay (h : Heap) (i : raw_items) (m : gmap Z SLE) : gmap Z SLE := merge (overlay_at h) i m.

(** Entries are filed under their keys, insertions are new and the others old. *)
Definition valid (h : Heap) (i : raw_items) (m : gmap Z SLE) : Prop :=
  ∀ k a p, i !! k = Some (a, p) →
    (∃ s, h !! p = Some s ∧ sle_key s = k) ∧ (a = raw_insert ↔ m !! k = None).

Lemma lookup_overlay h i m k : overlay h i m !! k = overlay_at h (i !! k) (m !! k).
Proof. unfold overlay. rewrite lookup_merge. by destruct (i !! k), (m !! k). Qed.

Lemma valid_entry h i m k a p :
  valid h i m → i !! k = Some (a, p) → ∃ s, h !! p = Some s ∧ sle_key s = k.
Proof. intros Hv Hi. by destruct (Hv k a p Hi). Qed.

Lemma overlay_insert h i m k a p s :
  h !! p = Some s → a ≠ raw_erase → overlay h (<[k := (a, p)]> i) m = <[k := s]> (overlay h i m).
Proof.
  intros Hp Ha. apply map_eq. intros j. rewrite lookup_overlay. destruct (decide (k = j)) as [->|Hne].
  - rewrite !lookup_insert_eq. simpl. unfold entry_of. simpl. by destruct a.
  - by rewrite !lookup_insert_ne, lookup_overlay.
Qed.

Lemma overlay_erase h i m k p :
  overlay h (<[k := (raw_erase, p)]> i) m = delete k (overlay h i m).
Proof.
  apply map_eq. intros j. rewrite lookup_overlay. destruct (decide (k = j)) as [->|Hne].
  - by rewrite lookup_insert_eq, lookup_delete_eq.
  - by rewrite lookup_insert_ne, lookup_delete_ne, lookup_overlay.
Qed.

Lemma overlay_forget h i m k :
  m !! k = None → overlay h (delete k i) m = delete k (overlay h i m).
Proof.
  intros Hm. apply map_eq. intros j. rewrite lookup_overlay. destruct (decide (k = j)) as [->|Hne].
  - by rewrite !lookup_delete_eq, Hm.
  - by rewrite !lookup_delete_ne, lookup_overlay.
Qed.

Lemma valid_insert h i m k a p s :
  valid h i m → h !! p = Some s → sle_key s = k → (a = raw_insert ↔ m !! k = None) →
  valid h (<[k := (a, p)]> i) m.
Proof.
  intros Hv Hp Hk Ha j b q Hj. destruct (decide (k = j)) as [<-|Hne].
  - rewrite lookup_insert_eq in Hj. injection Hj as <- <-. eauto.
  - rewrite lookup_insert_ne in Hj by done. eauto.
Qed.

Lemma valid_delete h i m k : valid h i m → valid h (delete k i) m.
Proof. intros Hv j b q [_ Hj]%lookup_delete_Some. eauto. Qed.

Lemma overlay_keys h i m : keys_ok m → valid h i m → keys_ok (overlay h i m).
Proof.
  intros Hm Hv k s. rewrite lookup_overlay. destruct (i !! k) as [[a p]|] eqn:Hi; simpl; [|apply Hm].
  destruct (valid_entry _ _ _ _ _ _ Hv Hi) as (s' & Hp & Hk). unfold entry_of. simpl.
  destruct a; [done|congruence..].
Qed.

(** ** The operations *)
Section operations.
Context (h : Heap) (m : gmap Z SLE).
Implicit Types (t : RawStateTable) (p : Ptr) (s : SLE).
#[local] Abbreviation state t := (overlay h (r_items t) m).

Lemma erase_spec t p s :
  valid h (r_items t) m → h !! p = Some s → is_Some (state t !! sle_key s) →
  ∃ t', erase h p t = inr t' ∧ valid h (r_items t') m ∧ state t' = delete (sle_key s) (state t) ∧
    r_dropsDestroyed t' = r_dropsDestroyed t.
Proof.
  intros Hv Hp Hin. unfold erase. rewrite Hp. rewrite lookup_overlay in Hin.
  destruct (r_items t !! sle_key s) as [[a q]|] eqn:Hi; simpl in Hin.
  - destruct (Hv _ _ _ Hi) as [_ Ha]. destruct a; [by destruct Hin| |]; eexists; (split; [done|]); simpl.
    + split; [by apply valid_delete|]. split; [|done]. apply overlay_forget. by apply Ha.
    + split; [eapply valid_insert; try done|]. { split; [done|]. intros Hn%Ha. done. }
      split; [apply overlay_erase|done].
  - eexists. split; [done|]. simpl. split; [eapply valid_insert; try done|].
    { split; [done|]. intros Hn. rewrite Hn in Hin. by destruct Hin. }
    split; [apply overlay_erase|done].
Qed.

Lemma insert_spec t p s :
  valid h (r_items t) m → h !! p = Some s → state t !! sle_key s = None →
  ∃ t', insert h p t = inr t' ∧ valid h (r_items t') m ∧ state t' = <[sle_key s := s]> (state t) ∧
    r_dropsDestroyed t' = r_dropsDestroyed t.
Proof.
  intros Hv Hp Hin. unfold insert. rewrite Hp. rewrite lookup_overlay in Hin.
  destruct (r_items t !! sle_key s) as [[a q]|] eqn:Hi; simpl in Hin.
  - destruct (Hv _ _ _ Hi) as [(s' & Hq & _) Ha].
    assert (a = raw_erase) as -> by (destruct a; unfold entry_of in Hin; simpl in Hin; congruence).
    eexists. split; [done|]. simpl. split; [eapply valid_insert; try done|].
    { split; [done|]. intros Hn%Ha. done. }
    split; [by apply overlay_insert|done].
  - eexists. split; [done|]. simpl. split; [by eapply valid_insert|]. split; [by apply overlay_insert|done].
Qed.

Lemma replace_spec t p s :
  valid h (r_items t) m → h !! p = Some s → is_Some (state t !! sle_key s) →
  ∃ t', replace h p t = inr t' ∧ valid h (r_items t') m ∧ state t' = <[sle_key s := s]> (state t) ∧
    r_dropsDestroyed t' = r_dropsDestroyed t.
Proof.
  intros Hv Hp Hin. unfold replace. rewrite Hp. rewrite lookup_overlay in Hin.
  destruct (r_items t !! sle_key s) as [[a q]|] eqn:Hi; simpl in Hin.
  - destruct (Hv _ _ _ Hi) as [_ Ha]. destruct a; [by destruct Hin| |]; eexists; (split; [done|]); simpl;
      (split; [by eapply valid_insert|]; split; [by apply overlay_insert|done]).
  - eexists. split; [done|]. simpl. split; [eapply valid_insert; try done|].
    { split; [done|]. intros Hn. rewrite Hn in Hin. by destruct Hin. }
    split; [by apply overlay_insert|done].
Qed.

(** The open view keeps the laws of a store of raw changes over its base. *)
Lemma on_items_spec (f : RawStateTable → string + RawStateTable) v m' :
  (∃ t', f (o_items v) = inr t' ∧ valid h (r_items t') m ∧ state t' = m' ∧
     r_dropsDestroyed t' = r_dropsDestroyed (o_items v)) →
  ∃ v', on_items f v = inr v' ∧
    (valid h (r_items (o_items v')) m ∧ state (o_items v') = m') ∧
    r_dropsDestroyed (o_items v') = r_dropsDestroyed (o_items v).
Proof. intros (t' & E & Hv & Hs & Hd). unfold on_items. rewrite E. eexists. split; [done|]. done. Qed.
End operations.

Definition open_holds (m0 : gmap Z SLE) (h : Heap) (v : OpenView) (m : gmap Z SLE) : Prop :=
  valid h (r_items (o_items v)) m0 ∧ overlay h (r_items (o_items v)) m0 = m.

Definition open_store (m0 : gmap Z SLE) : RawStore OpenView.
Proof.
  refine (mkRawStore OpenView _ (open_holds m0) (λ v, r_dropsDestroyed (o_items v)) _ _ _ _).
  - intros h p s v m [Hv <-] Hp Hin. by apply on_items_spec, erase_spec.
  - intros h p s v m [Hv <-] Hp Hin. by apply on_items_spec, insert_spec.
  - intros h p s v m [Hv <-] Hp Hin. by apply on_items_spec, replace_spec.
  - intros h fee v m Hh. done.
Defined.

(** ** Writing the table to a store *)
Section apply.
Context {V : Type} `{RawStore V} (h : Heap).

Lemma overlay_cons k a p (i : raw_items) m s :
  h !! p = Some s → i !! k = None →
  overlay h (<[k := (a, p)]> i) m =
  overlay h i (match a with raw_erase => delete k m | _ => <[k := s]> m end).
Proof.
  intros Hp Hi. apply map_eq. intros j. rewrite !lookup_overlay. destruct (decide (k = j)) as [->|Hne].
  - rewrite lookup_insert_eq, Hi. simpl. unfold entry_of. simpl.
    destruct a; [by rewrite lookup_delete_eq|by rewrite lookup_insert_eq..].
  - rewrite lookup_insert_ne by done.
    destruct a; [by rewrite lookup_delete_ne|by rewrite lookup_insert_ne..].
Qed.

Lemma valid_tail k a p (i : raw_items) m m' :
  i !! k = None → valid h (<[k := (a, p)]> i) m → (∀ j, j ≠ k → m' !! j = m !! j) → valid h i m'.
Proof.
  intros Hi Hv Hm j b q Hj. assert (j ≠ k) as Hne by congruence.
  rewrite Hm by done. apply (Hv j b q). by rewrite lookup_insert_ne.
Qed.

Lemma apply_items_spec l : ∀ v m,
  NoDup l.*1 → valid h (list_to_map l) m → rs_holds h v m →
  ∃ v', apply_items h l v = inr v' ∧ rs_holds h v' (overlay h (list_to_map l) m) ∧ rs_drops v' = rs_drops v.
Proof.
  induction l as [|[k [a p]] l IH]; intros v m Hnd Hv Hh; simpl.
  - exists v. split; [done|]. split; [|done]. assert (overlay h ∅ m = m) as ->; [|done].
    apply map_eq. intros j. by rewrite lookup_overlay, lookup_empty.
  - apply NoDup_cons in Hnd as [Hk Hnd]. cbn [fmap list_fmap fst] in *.
    assert (list_to_map (M := raw_items) l !! k = None) as Hn by by apply not_elem_of_list_to_map_1.
    simpl in Hv. destruct (Hv k a p) as [(s & Hp & <-) Ha]; [by rewrite lookup_insert_eq|].
    rewrite (overlay_cons _ _ _ _ _ s) by done.
    set (m' := match a with raw_erase => delete (sle_key s) m | _ => <[sle_key s := s]> m end).
    assert (∀ j, j ≠ sle_key s → m' !! j = m !! j) as Hm'.
    { intros j Hj. unfold m'. destruct a; [by rewrite lookup_delete_ne|by rewrite lookup_insert_ne..]. }
    assert (a ≠ raw_insert → is_Some (m !! sle_key s)) as Hin.
    { intros Ha'. destruct (m !! sle_key s) eqn:E; [eauto|]. by destruct Ha'; apply Ha. }
    assert (∃ v', match a with
             | raw_erase => rawErase h p v
             | raw_insert => rawInsert h p v
             | raw_replace => rawReplace h p v
             end = inr v' ∧ rs_holds h v' m' ∧ rs_drops v' = rs_drops v) as (v' & -> & Hh' & Hd').
    { unfold m'. destruct a.
      - eapply rs_erase; eauto.
      - eapply rs_insert; eauto. by apply Ha.
      - eapply rs_replace; eauto. }
    destruct (IH v' m' Hnd) as (v'' & -> & Hh'' & Hd''); [by eapply valid_tail|done|].
    exists v''. split; [done|]. split; [done|congruence].
Qed.

Lemma in_order_to_map (i : raw_items) : list_to_map (in_order i) = i.
Proof.
  apply map_eq. intros k. apply option_eq. intros x.
  rewrite <- elem_of_list_to_map, elem_of_in_order; [done|].
  rewrite in_order_perm. apply NoDup_fst_map_to_list.
Qed.

Lemma apply_spec t v m :
  valid h (r_items t) m → rs_holds h v m →
  ∃ v', apply h t v = inr v' ∧ rs_holds h v' (overlay h (r_items t) m) ∧
    rs_drops v' = rs_drops v + r_dropsDestroyed t.
Proof.
  intros Hv Hh. destruct (rs_destroy h (r_dropsDestroyed t) v m Hh) as [Hh' Hd].
  destruct (apply_items_spec (in_order (r_items t)) (rawDestroyXRP (r_dropsDestroyed t) v) m)
    as (v' & E & Hh'' & Hd'); [|by rewrite in_order_to_map|done|].
  { rewrite in_order_perm. apply NoDup_fst_map_to_list. }
  exists v'. rewrite in_order_to_map in Hh''. split; [done|]. split; [done|congruence].
Qed.
End apply.

(** ** Queries *)
Section queries.
Context (h : Heap) (base : ReadView) (m : gmap Z SLE) (Hbase : shows base m).
Implicit Types (t : RawStateTable).

Lemma read_spec t k :
  valid h (r_items t) m → read h base t k = rv_read (map_view (overlay h (r_items t) m)) k.
Proof.
  intros Hv. unfold read. simpl. rewrite lookup_overlay. rewrite (shows_read _ _ Hbase). simpl.
  destruct (r_items t !! k_key k) as [[a p]|] eqn:Hi; [|done]. simpl. unfold entry_of. simpl. by destruct a.
Qed.

Lemma table_exists_spec t k :
  valid h (r_items t) m → exists_ h base t k = rv_exists (map_view (overlay h (r_items t) m)) k.
Proof.
  intros Hv. unfold exists_. simpl. rewrite lookup_overlay, (shows_exists _ _ Hbase). simpl.
  destruct (r_items t !! k_key k) as [[a p]|] eqn:Hi; [|done]. simpl. unfold entry_of. simpl.
  destruct (valid_entry _ _ _ _ _ _ Hv Hi) as (s & -> & _).
  destruct a; simpl; [done|..]; destruct (check k s); by rewrite ?bool_decide_eq_true_2, ?bool_decide_eq_false_2 by (done || by intros []).
Qed.
End queries.

(** *** The next key

    The first key of the base after [key] that is not erased. *)
Section succ.
Context {A : Type} (m : gmap Z SLE) (items : gmap Z A) (erased : Z → bool).
Context (Herased : ∀ k, erased k = true → is_Some (items !! k)).

Definition above (key : Z) : gmap Z A := filter (λ x : Z * A, key < x.1) items.

Lemma above_shrinks key n : key < n → is_Some (items !! n) → (size (above n) < size (above key))%nat.
Proof.
  intros Hn [x Hx]. unfold above. apply map_subset_size. split.
  - apply map_subseteq_spec. intros j y [Hj Hlt]%map_lookup_filter_Some. simpl in Hlt.
    apply map_lookup_filter_Some. split; [done|]. simpl. lia.
  - rewrite map_subseteq_spec. intros Hsub. specialize (Hsub n x).
    rewrite !map_lookup_filter_Some in Hsub. simpl in Hsub. destruct Hsub as [_ Hlt]; [done|]. lia.
Qed.

Definition below (last : option Z) (k : Z) : Prop := ∀ l, last = Some l → k < l.

Lemma below_last_spec M key last o :
  least_above (A := SLE) M key o →
  match below_last last o with
  | Some k => key < k ∧ is_Some (M !! k) ∧ below last k ∧ ∀ k', key < k' → is_Some (M !! k') → k ≤ k'
  | None => ∀ k', key < k' → is_Some (M !! k') → ¬ below last k'
  end.
Proof.
  destruct o as [k|], last as [l|]; simpl.
  - intros (H1 & H2 & H3). destruct (Z.leb_spec l k).
    + intros k' Hk' Hs Hb. specialize (Hb l eq_refl). specialize (H3 k' Hk' Hs). lia.
    + split_and!; try done. intros l' [= <-]. lia.
  - intros (H1 & H2 & H3). split_and!; done.
  - intros Hn k' Hk' [x Hx]. by rewrite Hn in Hx.
  - intros Hn k' Hk' [x Hx]. by rewrite Hn in Hx.
Qed.

(** The first key of the base that is not erased, if it is below [last]. *)
Definition live_succ (key : Z) (last o : option Z) : Prop :=
  match o with
  | Some n => key < n ∧ is_Some (m !! n) ∧ erased n = false ∧ below last n ∧
      ∀ k, key < k < n → is_Some (m !! k) → erased k = true
  | None => ∀ k, key < k → is_Some (m !! k) → below last k → erased k = true
  end.

Lemma base_succ_spec last fuel : ∀ key,
  (size (above key) < fuel)%nat →
  ∃ o, base_succ fuel (succ_key m) erased key last = Some o ∧ live_succ key last o.
Proof.
  induction fuel as [|fuel IH]; intros key Hf; [lia|]. simpl.
  destruct (least_above_exists m key) as [o Ho]. rewrite (succ_key_spec _ _ _ _ Ho).
  pose proof (below_last_spec m key last o Ho) as Hb. destruct (below_last last o) as [n|]; simpl in Hb.
  - destruct Hb as (Hn & Hin & Hlast & Hleast). destruct (erased n) eqn:En.
    + destruct (IH n) as (o' & -> & Ho').
      { pose proof (above_shrinks key n Hn (Herased n En)). lia. }
      exists o'. split; [done|]. unfold live_succ in *. destruct o' as [n'|].
      * destruct Ho' as (H1 & H2 & H3 & H4 & H5). split_and!; try done; [lia|]. intros k Hk Hs.
        destruct (decide (k = n)) as [->|]; [done|]. apply H5; [|done]. specialize (Hleast k). lia || (destruct Hk; specialize (Hleast ltac:(lia) Hs); lia).
      * intros k Hk Hs Hl. destruct (decide (k = n)) as [->|]; [done|]. apply Ho'; try done.
        specialize (Hleast k Hk Hs). lia.
    + exists (Some n). split; [done|]. simpl. split_and!; try done. intros k Hk Hs.
      specialize (Hleast k). destruct Hk. specialize (Hleast ltac:(lia) Hs). lia.
  - exists None. split; [done|]. simpl. intros k Hk Hs Hl. by destruct (Hb k Hk Hs).
Qed.

Lemma first_live_spec (live : A → bool) (l : list (Z * A)) :
  StronglySorted (λ a b : Z * A, a.1 < b.1) l →
  match first_live live l with
  | Some k => (∃ a, (k, a) ∈ l ∧ live a = true) ∧ ∀ k' a', (k', a') ∈ l → live a' = true → k ≤ k'
  | None => ∀ k a, (k, a) ∈ l → live a = false
  end.
Proof.
  induction 1 as [|[k a] l Hs IH Hall]; simpl.
  - intros k a Hin. by apply not_elem_of_nil in Hin.
  - rewrite Forall_forall in Hall. destruct (live a) eqn:Ea.
    + split; [exists a; split; [apply list_elem_of_here|done]|]. intros k' a' [[= -> ->]|Hin]%elem_of_cons Ha'; [lia|].
      specialize (Hall _ Hin). simpl in Hall. lia.
    + destruct (first_live live l) as [k0|].
      * destruct IH as [(a0 & Hin & Ha0) Hle]. split; [exists a0; split; [by apply list_elem_of_further|done]|].
        intros k' a' [[= -> ->]|Hin']%elem_of_cons Ha'; [congruence|eauto].
      * intros k' a' [[= -> ->]|Hin']%elem_of_cons; [done|eauto].
Qed.

(** The state [M] the table stands for. *)
Context (live : A → bool) (M : gmap Z SLE).
Context (Hlive : ∀ k, erased k = match items !! k with Some a => negb (live a) | None => false end).
Context (HM : ∀ k, is_Some (M !! k) ↔ match items !! k with Some a => live a = true | None => is_Some (m !! k) end).

Lemma succ_spec key last :
  ∃ o, base_succ (S (size items)) (succ_key m) erased key last = Some o ∧
    merge_succ o (first_live live (upper_bound key (in_order items))) last = succ_key M key last.
Proof.
  destruct (base_succ_spec last (S (size items)) key) as (o & Eo & Ho).
  { unfold above. pose proof (map_subseteq_size (filter (λ x : Z * A, key < x.1) items) items (map_filter_subseteq _ _)). lia. }
  exists o. split; [done|].
  destruct (least_above_exists M key) as [r Hr]. rewrite (succ_key_spec _ _ _ _ Hr).
  pose proof (below_last_spec M key last r Hr) as Hb.
  pose proof (first_live_spec live _ (upper_bound_sorted key _ (in_order_sorted items))) as Hi.
  assert (∀ k a, (k, a) ∈ upper_bound key (in_order items) ↔ key < k ∧ items !! k = Some a) as Hup.
  { intros k a. unfold upper_bound. by rewrite list_elem_of_filter, elem_of_in_order. }
  set (i := first_live live (upper_bound key (in_order items))) in *.
  (* both sides are the least key of the state in the range *)
  assert (∀ k, key < k → is_Some (M !! k) → below last k →
    (∃ n, o = Some n ∧ n ≤ k) ∨ (∃ n, i = Some n ∧ n ≤ k)) as Hle.
  { intros k Hk HMk Hbk. apply HM in HMk. destruct (items !! k) as [a|] eqn:Ei.
    - right. destruct i as [n|]; [exists n; split; [done|]; apply (proj2 Hi k a); [by apply Hup|done]|].
      specialize (Hi k a (proj2 (Hup k a) (conj Hk Ei))). congruence.
    - left. assert (erased k = false) as Ek by by rewrite Hlive, Ei.
      destruct o as [n|]; simpl in Ho.
      + exists n. split; [done|]. destruct (Z.le_gt_cases n k) as [|Hlt]; [done|].
        destruct Ho as (_ & _ & _ & _ & H5). specialize (H5 k (conj Hk Hlt) HMk). congruence.
      + specialize (Ho k Hk HMk Hbk). congruence. }
  assert (∀ n, o = Some n → key < n ∧ is_Some (M !! n) ∧ below last n) as Hon.
  { intros n ->. destruct Ho as (H1 & H2 & H3 & H4 & _). split_and!; try done. apply HM.
    rewrite Hlive in H3. destruct (items !! n) as [a|]; [by destruct (live a)|done]. }
  assert (∀ n, i = Some n → key < n ∧ is_Some (M !! n)) as Hin.
  { intros n E. rewrite E in Hi. destruct Hi as [(a & Ha%Hup & Hl) _]. destruct Ha as [H1 H2].
    split; [done|]. apply HM. by rewrite H2. }
  clearbody i. clear Hup Hi Ho Hr Eo.
  assert (∀ n, last = Some n → ∀ k, below last k ↔ k < n) as Hlt.
  { intros n -> k. unfold below. split; [by intros H; apply H|]. intros H l [= <-]. done. }
  assert (last = None → ∀ k, below last k) as Hnone by (by intros -> k l).
  unfold merge_succ. destruct (below_last last r) as [k|].
  - destruct Hb as (H1 & H2 & H3 & H4).
    destruct (Hle k H1 H2 H3) as [(n & -> & Hn)|(n & -> & Hn)].
    + destruct (Hon n eq_refl) as (G1 & G2 & G3). pose proof (H4 n G1 G2).
      destruct i as [n'|]; [destruct (Hin n' eq_refl) as (F1 & F2); pose proof (H4 n' F1 F2)|];
        destruct last as [l|]; try specialize (H3 l eq_refl); simpl; zcases; simpl; zcases; f_equal; lia.
    + destruct (Hin n eq_refl) as (G1 & G2). pose proof (H4 n G1 G2).
      destruct o as [n'|]; [destruct (Hon n' eq_refl) as (F1 & F2 & F3); pose proof (H4 n' F1 F2)|];
        destruct last as [l|]; try specialize (H3 l eq_refl); simpl; zcases; simpl; zcases; f_equal; lia.
  - destruct o as [n|]; [by destruct (Hon n eq_refl) as (G1 & G2 & G3); destruct (Hb n G1 G2)|].
    destruct i as [n|]; [|by destruct last]. destruct (Hin n eq_refl) as (G1 & G2). specialize (Hb n G1 G2).
    destruct last as [l|]; [|by destruct (Hb (Hnone eq_refl n))]. destruct (Z.leb_spec l n); [done|].
    by destruct Hb; apply (Hlt l eq_refl).
Qed.
End succ.

(** *** Iteration *)
Section iteration.
Context (h : Heap).
#[local] Abbreviation changes := (list (Z * (RawAction * Ptr))).

(** What is still to be visited: both lists sorted, the entries under their keys,
    and what is erased in the table there in the base. *)
Record ready (l1 : changes) (l0 : list SLE) : Prop := mkReady {
  ready1 : StronglySorted (λ a b : Z * (RawAction * Ptr), a.1 < b.1) l1;
  ready0 : StronglySorted (λ a b : SLE, sle_key a < sle_key b) l0;
  ready_entry : ∀ k a p, (k, (a, p)) ∈ l1 → ∃ s, h !! p = Some s ∧ sle_key s = k;
  ready_erased : ∀ k p, (k, (raw_erase, p)) ∈ l1 → ∃ s, s ∈ l0 ∧ sle_key s = k;
}.
Definition iter_at (l1 : changes) (l0 : list SLE) : sles_iter := mkIter l0 l1 (head l0) (item_sle h l1).
(** The iterator does not stand at an entry that is erased. *)
Definition at_rest (l1 : changes) (l0 : list SLE) : Prop :=
  ∀ k p r1 s r0, l1 = (k, (raw_erase, p)) :: r1 → l0 = s :: r0 → sle_key s ≠ k.
(** The entries that are shown. *)
Definition shown (l1 : changes) (l0 : list SLE) (s : SLE) : Prop :=
  (∃ k a p, (k, (a, p)) ∈ l1 ∧ a ≠ raw_erase ∧ h !! p = Some s) ∨
  (s ∈ l0 ∧ ∀ a, (sle_key s, a) ∉ l1).

Lemma ready_tail1 x l1 l0 : ready (x :: l1) l0 → ready l1 l0.
Proof.
  intros [H1 H0 He Hr]. constructor; [by inversion H1|done|..].
  - intros k a p Hin. apply (He k a p). by apply list_elem_of_further.
  - intros k p Hin. apply (Hr k p). by apply list_elem_of_further.
Qed.

Lemma ready_tail0 s l1 l0 :
  ready l1 (s :: l0) → (∀ k p, (k, (raw_erase, p)) ∈ l1 → sle_key s < k) → ready l1 l0.
Proof.
  intros [H1 H0 He Hr] Hlt. constructor; [done|by inversion H0|done|].
  intros k p Hin. destruct (Hr k p Hin) as (s' & [->|Hs']%elem_of_cons & Hk); [|eauto].
  specialize (Hlt k p Hin). lia.
Qed.

Lemma ready_above1 k a l1 l0 k' a' : ready ((k, a) :: l1) l0 → (k', a') ∈ l1 → k < k'.
Proof. intros [H1 _ _ _] Hin. inversion H1 as [|? ? _ Hall]; subst. rewrite Forall_forall in Hall. by apply (Hall _ Hin). Qed.

Lemma ready_above0 s l1 l0 s' : ready l1 (s :: l0) → s' ∈ l0 → sle_key s < sle_key s'.
Proof. intros [_ H0 _ _] Hin. inversion H0 as [|? ? _ Hall]; subst. rewrite Forall_forall in Hall. by apply (Hall _ Hin). Qed.

(** Every key that is shown is above a bound of both lists. *)
Lemma shown_above l1 l0 b s :
  ready l1 l0 → (∀ k a, (k, a) ∈ l1 → b < k) → (∀ s, s ∈ l0 → b < sle_key s) → shown l1 l0 s → b < sle_key s.
Proof.
  intros Hr H1 H0 [(k & a & p & Hin & _ & Hp)|[Hin _]]; [|by apply H0].
  destruct (ready_entry _ _ Hr k a p Hin) as (s' & Hp' & <-). assert (s' = s) as -> by congruence. by eapply H1.
Qed.

Lemma shown_drop_both k p s l1 l0 :
  ready ((k, (raw_erase, p)) :: l1) (s :: l0) → sle_key s = k →
  ∀ s', shown ((k, (raw_erase, p)) :: l1) (s :: l0) s' ↔ shown l1 l0 s'.
Proof.
  intros Hr Hk s'. unfold shown. split.
  - intros [(k' & a & q & [[= -> -> ->]|Hin]%elem_of_cons & Ha & Hq)|[[->|Hin]%elem_of_cons Hn]]; [done|left; by exists k', a, q| |].
    + exfalso. apply (Hn (raw_erase, p)). rewrite Hk. apply list_elem_of_here.
    + right. split; [done|]. intros a Ha. apply (Hn a). by apply list_elem_of_further.
  - intros [(k' & a & q & Hin & Ha & Hq)|[Hin Hn]].
    + left. exists k', a, q. split; [by apply list_elem_of_further|done].
    + right. split; [by apply list_elem_of_further|]. intros a [[= E _]|Ha]%elem_of_cons; [|by apply (Hn a)].
      pose proof (ready_above0 _ _ _ _ Hr Hin). lia.
Qed.

Lemma skip_spec l1 : ∀ l0, ready l1 l0 →
  ∃ l1' l0', skip_loop h (length l1) (iter_at l1 l0) = Some (iter_at l1' l0') ∧ ready l1' l0' ∧ at_rest l1' l0' ∧
    (length l1' + length l0' ≤ length l1 + length l0)%nat ∧ ∀ s, shown l1 l0 s ↔ shown l1' l0' s.
Proof.
  induction l1 as [|[k [a p]] l1 IH]; intros l0 Hr.
  - exists [], l0. split_and!; done.
  - destruct (decide (a = raw_erase)) as [->|Ha].
    + destruct (ready_erased _ _ Hr k p) as (s0 & Hs0 & Hk0); [apply list_elem_of_here|].
      destruct (ready_entry _ _ Hr k raw_erase p) as (s1 & Hp & Hk1); [apply list_elem_of_here|].
      destruct l0 as [|s r0]; [by apply not_elem_of_nil in Hs0|]. cbn [length skip_loop iter_at iter1_ sle0_ sle1_ head item_sle].
      rewrite Hp. destruct (Z.eqb_spec (sle_key s) (sle_key s1)) as [E|E].
      * assert (ready l1 r0) as Hr'.
        { apply ready_tail1 in Hr as Ht. eapply ready_tail0; [exact Ht|]. intros k' p' Hin.
          pose proof (ready_above1 _ _ _ _ _ _ Hr Hin). lia. }
        change (inc0 (inc1 h _)) with (iter_at l1 r0).
        assert (∀ s', shown ((k, (raw_erase, p)) :: l1) (s :: r0) s' ↔ shown l1 r0 s') as Hsh
          by (apply shown_drop_both; [done|congruence]).
        destruct r0 as [|s' r0'].
        -- exists l1, []. split; [done|]. split; [done|]. split; [by intros ?????? |]. split; [simpl; lia|done].
        -- destruct (IH (s' :: r0') Hr') as (l1' & l0' & E' & H1 & H2 & H3 & H4).
           exists l1', l0'. split; [exact E'|]. split; [done|]. split; [done|]. split; [simpl in *; lia|].
           intros x. by rewrite Hsh.
      * exists ((k, (raw_erase, p)) :: l1), (s :: r0). split; [by unfold iter_at; simpl; rewrite ?Hp|]. split; [done|].
        split; [|split; [done|done]]. intros k' p' r1' s' r0' [= <- <- <-] [= <- <-]. congruence.
    + exists ((k, (a, p)) :: l1), l0. split; [by destruct a|]. split; [done|]. split; [|split; [done|done]].
      intros k' p' r1' s' r0' [= <- ? <- <-]. done.
Qed.

(** One step: the least entry shown, and what is left. *)
Lemma shown_live k a p l1 l0 s :
  ready ((k, (a, p)) :: l1) l0 → a ≠ raw_erase → h !! p = Some s → (∀ s', s' ∈ l0 → k < sle_key s') →
  ∀ s', shown ((k, (a, p)) :: l1) l0 s' ↔ s' = s ∨ shown l1 l0 s'.
Proof.
  intros Hr Ha Hp Hab s'. unfold shown. split.
  - intros [(k' & a' & q & [[= -> -> ->]|Hin]%elem_of_cons & Ha' & Hq)|[Hin Hn]].
    + left. congruence.
    + right. left. by exists k', a', q.
    + right. right. split; [done|]. intros b Hb. apply (Hn b). by apply list_elem_of_further.
  - intros [->|[(k' & a' & q & Hin & Ha' & Hq)|[Hin Hn]]].
    + left. exists k, a, p. split; [apply list_elem_of_here|done].
    + left. exists k', a', q. split; [by apply list_elem_of_further|done].
    + right. split; [done|]. intros b [[= E _]|Hb]%elem_of_cons; [|by apply (Hn b)].
      specialize (Hab _ Hin). lia.
Qed.

Lemma shown_replaced k a p l1 s0 l0 s :
  ready ((k, (a, p)) :: l1) (s0 :: l0) → a ≠ raw_erase → h !! p = Some s → sle_key s0 = k →
  ∀ s', shown ((k, (a, p)) :: l1) (s0 :: l0) s' ↔ s' = s ∨ shown l1 l0 s'.
Proof.
  intros Hr Ha Hp Hk s'.
  assert (shown ((k, (a, p)) :: l1) (s0 :: l0) s' ↔ shown ((k, (a, p)) :: l1) l0 s') as ->.
  { unfold shown. split; (intros [H|[Hin Hn]]; [by left|right; split; [|done]]).
    - apply elem_of_cons in Hin as [->|Hin]; [|done]. exfalso. apply (Hn (a, p)). rewrite Hk. apply list_elem_of_here.
    - by apply list_elem_of_further. }
  apply shown_live; [|done|done|].
  - destruct Hr as [H1 H0 He Hr']. constructor; [done|by inversion H0|done|].
    intros k' p' Hin. destruct (Hr' k' p' Hin) as (x & [->|Hx]%elem_of_cons & Hk'); [|eauto].
    apply elem_of_cons in Hin as [[= _ <- _]|Hin]; [done|].
    assert (k < k') by (inversion H1 as [|? ? _ Hall]; subst; rewrite Forall_forall in Hall; by apply (Hall _ Hin)). lia.
  - intros x Hx. rewrite <- Hk. by apply (ready_above0 _ _ _ _ Hr).
Qed.

Lemma shown_base s0 l1 l0 :
  (∀ k a, (k, a) ∈ l1 → sle_key s0 < k) →
  ∀ s', shown l1 (s0 :: l0) s' ↔ s' = s0 ∨ shown l1 l0 s'.
Proof.
  intros Hab s'. unfold shown. split.
  - intros [H|[[->|Hin]%elem_of_cons Hn]]; [right; by left|by left|right; by right].
  - intros [->|[H|[Hin Hn]]]; [right|by left|right].
    + split; [apply list_elem_of_here|]. intros a Ha%Hab. lia.
    + split; [by apply list_elem_of_further|done].
Qed.

(** The iteration that is left. *)
Definition visits (out : list SLE) (l1 : changes) (l0 : list SLE) : Prop :=
  StronglySorted (λ a b : SLE, sle_key a < sle_key b) out ∧ ∀ s, s ∈ out ↔ shown l1 l0 s.

Lemma visits_cons s out l1 l0 l1' l0' :
  ready l1' l0' → visits out l1' l0' → (∀ s', shown l1 l0 s' ↔ s' = s ∨ shown l1' l0' s') →
  (∀ k a, (k, a) ∈ l1' → sle_key s < k) → (∀ s', s' ∈ l0' → sle_key s < sle_key s') →
  visits (s :: out) l1 l0.
Proof.
  intros Hr [Hs Ho] Hsh H1 H0. split.
  - constructor; [done|]. apply Forall_forall. intros x Hx%Ho. by eapply shown_above.
  - intros x. by rewrite elem_of_cons, Ho, Hsh.
Qed.

Lemma visits_ext out l1 l0 l1' l0' :
  (∀ s, shown l1 l0 s ↔ shown l1' l0' s) → visits out l1' l0' → visits out l1 l0.
Proof. intros Hsh [Hs Ho]. split; [done|]. intros x. by rewrite Ho. Qed.

Lemma visit_spec fuel : ∀ l1 l0,
  ready l1 l0 → at_rest l1 l0 → (length l1 + length l0 ≤ fuel)%nat →
  ∃ out, visit h fuel (iter_at l1 l0) = Some out ∧ visits out l1 l0.
Proof.
  induction fuel as [|fuel IH]; intros l1 l0 Hr Hrest Hf.
  { destruct l1, l0; simpl in Hf; try lia. exists []. split; [done|]. split; [constructor|].
    intros s. split; [by intros H%not_elem_of_nil|]. intros [(k & a & p & H%not_elem_of_nil & _)|[H%not_elem_of_nil _]]; done. }
  assert (∀ s l1' l0', (match l0, l1 with [], [] => false | _, _ => true end) = true →
    dereference (iter_at l1 l0) = Some s → increment h (iter_at l1 l0) = Some (iter_at l1' l0') →
    ready l1' l0' → at_rest l1' l0' → (length l1' + length l0' ≤ fuel)%nat →
    (∀ out, visits out l1' l0' → visits (s :: out) l1 l0) →
    ∃ out, visit h (S fuel) (iter_at l1 l0) = Some out ∧ visits out l1 l0) as Hstep.
  { intros s l1' l0' Hne Hd Hinc Hr' Hrest' Hl Hv. destruct (IH l1' l0' Hr' Hrest' Hl) as (out & E & Ho).
    exists (s :: out). split; [|by apply Hv]. cbn [visit iter_at iter0_ iter1_]. rewrite Hd, Hinc, E.
    destruct l0, l1; done. }
  destruct l1 as [|[k [a p]] l1], l0 as [|s0 l0].
  - exists []. split; [done|]. split; [constructor|].
    intros s. split; [by intros H%not_elem_of_nil|]. intros [(k & a & p & H%not_elem_of_nil & _)|[H%not_elem_of_nil _]]; done.
  - apply (Hstep s0 [] l0); try done.
    + by apply ready_tail0 in Hr; [|intros k p H%not_elem_of_nil].
    + simpl in *. lia.
    + intros out Hv. eapply visits_cons; [|exact Hv|apply shown_base| |].
      * by apply ready_tail0 in Hr; [|intros k p H%not_elem_of_nil].
      * by intros k a H%not_elem_of_nil.
      * by intros k a H%not_elem_of_nil.
      * intros x Hx. by eapply ready_above0.
  - destruct (ready_entry _ _ Hr k a p) as (s1 & Hp & Hk1); [apply list_elem_of_here|].
    assert (a ≠ raw_erase) as Ha.
    { intros ->. destruct (ready_erased _ _ Hr k p) as (x & Hx%not_elem_of_nil & _); [apply list_elem_of_here|done]. }
    apply (Hstep s1 l1 []); try done.
    + unfold dereference. simpl. by rewrite Hp.
    + unfold increment. simpl. by rewrite Hp.
    + by eapply ready_tail1.
    + simpl in *. lia.
    + intros out Hv. eapply visits_cons; [by eapply ready_tail1|exact Hv|eapply shown_live; try done| |].
      * by intros x H%not_elem_of_nil.
      * intros k' a' Hin. rewrite Hk1. by eapply ready_above1.
      * by intros x H%not_elem_of_nil.
  - destruct (ready_entry _ _ Hr k a p) as (s1 & Hp & Hk1); [apply list_elem_of_here|].
    assert (∀ x, x ∈ l0 → sle_key s0 < sle_key x) as Hab0 by (intros x; by eapply ready_above0).
    assert (∀ k' a', (k', a') ∈ l1 → k < k') as Hab1 by (intros k' a'; by eapply ready_above1).
    assert (∀ l1' l0', ready l1' l0' → (length l1' + length l0' ≤ fuel)%nat → 
      ∀ s, dereference (iter_at ((k, (a, p)) :: l1) (s0 :: l0)) = Some s →
      increment h (iter_at ((k, (a, p)) :: l1) (s0 :: l0)) = skip h (iter_at l1' l0') →
      (∀ s', shown ((k, (a, p)) :: l1) (s0 :: l0) s' ↔ s' = s ∨ shown l1' l0' s') →
      (∀ k a, (k, a) ∈ l1' → sle_key s < k) → (∀ s', s' ∈ l0' → sle_key s < sle_key s') →
      ∃ out, visit h (S fuel) (iter_at ((k, (a, p)) :: l1) (s0 :: l0)) = Some out ∧
        visits out ((k, (a, p)) :: l1) (s0 :: l0)) as Hboth.
    { intros l1' l0' Hr' Hl s Hd Hinc Hsh Hb1 Hb0. destruct (skip_spec l1' l0' Hr') as (l1'' & l0'' & E & H1 & H2 & H3 & H4).
      apply (Hstep s l1'' l0''); try done; [by rewrite Hinc|lia|].
      intros out Hv. eapply visits_cons; [exact Hr'|by eapply visits_ext|done..]. }
    destruct (Z.lt_trichotomy k (sle_key s0)) as [Hlt|[Heq|Hgt]].
    + assert (a ≠ raw_erase) as Ha.
      { intros ->. destruct (ready_erased _ _ Hr k p) as (x & [->|Hx]%elem_of_cons & Hk); [apply list_elem_of_here|lia|].
        specialize (Hab0 x Hx). lia. }
      apply (Hboth l1 (s0 :: l0)) with (s := s1); [by eapply ready_tail1|simpl in *; lia|..].
      * unfold dereference. simpl. rewrite Hp. by rewrite (proj2 (Z.leb_le _ _)) by lia.
      * unfold increment. simpl. rewrite Hp. rewrite (proj2 (Z.eqb_neq _ _)) by lia. by rewrite (proj2 (Z.ltb_lt _ _)) by lia.
      * eapply shown_live; try done. intros x [->|Hx]%elem_of_cons; [lia|]. specialize (Hab0 x Hx). lia.
      * intros k' a' Hin. rewrite Hk1. by eapply Hab1.
      * intros x [->|Hx]%elem_of_cons; [lia|]. specialize (Hab0 x Hx). lia.
    + assert (a ≠ raw_erase) as Ha by (intros ->; by eapply (Hrest k p l1 s0 l0)).
      assert (ready l1 l0) as Hr'.
      { eapply ready_tail0; [by eapply ready_tail1|]. intros k' p' Hin. specialize (Hab1 _ _ Hin). lia. }
      apply (Hboth l1 l0) with (s := s1); [done|simpl in *; lia|..].
      * unfold dereference. simpl. rewrite Hp. by rewrite (proj2 (Z.leb_le _ _)) by lia.
      * unfold increment. simpl. rewrite Hp. by rewrite (proj2 (Z.eqb_eq _ _)) by lia.
      * by eapply shown_replaced.
      * intros k' a' Hin. rewrite Hk1. by eapply Hab1.
      * intros x Hx. specialize (Hab0 x Hx). lia.
    + apply (Hboth ((k, (a, p)) :: l1) l0) with (s := s0).
      * eapply ready_tail0; [done|]. intros k' p' [[= <- _ _]|Hin]%elem_of_cons; [lia|]. specialize (Hab1 _ _ Hin). lia.
      * simpl in *. lia.
      * unfold dereference. simpl. rewrite Hp. by rewrite (proj2 (Z.leb_gt _ _)) by lia.
      * unfold increment. simpl. rewrite Hp. rewrite (proj2 (Z.eqb_neq _ _)) by lia. by rewrite (proj2 (Z.ltb_ge _ _)) by lia.
      * apply shown_base. intros k' a' [[= <- _]|Hin]%elem_of_cons; [lia|]. specialize (Hab1 _ _ Hin). lia.
      * intros k' a' [[= <- _]|Hin]%elem_of_cons; [lia|]. specialize (Hab1 _ _ Hin). lia.
      * done.
Qed.
End iteration.

Lemma base_succ_shows base m fuel erased k last :
  shows base m → base_succ fuel (rv_succ base) erased k last = base_succ fuel (succ_key m) erased k last.
Proof.
  intros Hb. revert k. induction fuel as [|fuel IH]; intros k; simpl; [done|]. rewrite (shows_succ _ _ Hb).
  destruct (succ_key m k last) as [n|]; [|done]. by destruct (erased n).
Qed.

Section shows.
Context (h : Heap) (m : gmap Z SLE) (Hm : keys_ok m).

Lemma iterate_lists_spec l1 l0 (L : list (Z * SLE)) :
  ready h l1 l0 → StronglySorted (λ a b : Z * SLE, a.1 < b.1) L →
  (∀ k s, (k, s) ∈ L ↔ sle_key s = k ∧ shown h l1 l0 s) →
  iterate h l1 l0 = Some L.*2.
Proof.
  intros Hr HL Hin. destruct (skip_spec h l1 l0 Hr) as (l1' & l0' & E & H1 & H2 & H3 & H4).
  unfold iterate, make_iter.
  assert (match l1 with [] => Some (iter_at h l1 l0) | _ => skip h (iter_at h l1 l0) end =
    Some (iter_at h l1' l0')) as E' by (destruct l1; exact E).
  change (mkIter l0 l1 (head l0) (item_sle h l1)) with (iter_at h l1 l0). rewrite E'.
  destruct (visit_spec h (S (length l1 + length l0)) l1' l0' H1 H2) as (out & -> & Hs & Ho); [lia|].
  f_equal. assert (map (λ s, (sle_key s, s)) out = L) as <-.
  - apply sorted_unique; [|done|].
    + clear -Hs. induction Hs as [|x l Hs IH Hall]; simpl; constructor; [done|].
      apply Forall_map. done.
    + intros [k s]. rewrite Hin, list_elem_of_fmap. split.
      * intros (x & [= -> ->] & Hx%Ho). by rewrite H4.
      * intros [<- Hx%H4%Ho]. eauto.
  - rewrite <- list_fmap_compose. symmetry. apply list_fmap_id.
Qed.

Lemma elem_of_entries (l : list (Z * SLE)) s :
  (∀ x, x ∈ l → sle_key x.2 = x.1) → s ∈ l.*2 ↔ (sle_key s, s) ∈ l.
Proof.
  intros Hl. rewrite list_elem_of_fmap. split.
  - intros ([k x] & -> & Hx). pose proof (Hl _ Hx) as E. simpl in *. by rewrite E.
  - intros Hx. by exists (sle_key s, s).
Qed.

Lemma entries_sorted (l : list (Z * SLE)) :
  (∀ x, x ∈ l → sle_key x.2 = x.1) → StronglySorted (λ a b : Z * SLE, a.1 < b.1) l →
  StronglySorted (λ a b : SLE, sle_key a < sle_key b) l.*2.
Proof.
  intros Hl Hs. induction Hs as [|x l Hs IH Hall]; [constructor|]. rewrite fmap_cons. constructor.
  - apply IH. intros y Hy. by apply Hl, list_elem_of_further.
  - apply Forall_fmap. rewrite Forall_forall in *. intros y Hy. simpl.
    rewrite (Hl x (list_elem_of_here _ _)), (Hl y) by by apply list_elem_of_further. by apply Hall.
Qed.

(** Iteration over the keys that satisfy [P]. *)
Lemma iterate_overlay (P : Z → Prop) `{∀ k, Decision (P k)} (i : raw_items) :
  valid h i m →
  iterate h (filter (λ x, P x.1) (in_order i)) (filter (λ x, P x.1) (in_order m)).*2 =
  Some (filter (λ x, P x.1) (in_order (overlay h i m))).*2.
Proof.
  intros Hv.
  assert (∀ x, x ∈ filter (λ x : Z * SLE, P x.1) (in_order m) → sle_key x.2 = x.1) as Hk.
  { intros [k s] [_ Hx%elem_of_in_order]%list_elem_of_filter. by apply Hm. }
  apply iterate_lists_spec.
  - constructor.
    + apply StronglySorted_filter, in_order_sorted.
    + apply entries_sorted; [done|]. apply StronglySorted_filter, in_order_sorted.
    + intros k a p [_ Hi%elem_of_in_order]%list_elem_of_filter. by eapply valid_entry.
    + intros k p [HP Hi%elem_of_in_order]%list_elem_of_filter. destruct (Hv _ _ _ Hi) as [_ Ha].
      destruct (m !! k) as [s|] eqn:E; [|by destruct Ha as [_ Ha]; specialize (Ha eq_refl)].
      exists s. pose proof (Hm k s E) as <-. split; [|done]. apply elem_of_entries; [done|].
      apply list_elem_of_filter. split; [done|]. by apply elem_of_in_order.
  - apply StronglySorted_filter, in_order_sorted.
  - intros k s. rewrite list_elem_of_filter, elem_of_in_order, lookup_overlay. simpl. unfold shown. split.
    + intros [HP Hs]. destruct (i !! k) as [[a p]|] eqn:Hi; simpl in Hs.
      * destruct (valid_entry _ _ _ _ _ _ Hv Hi) as (s' & Hp & Hk'). unfold entry_of in Hs. simpl in Hs.
        destruct a; [done|..]; assert (s' = s) as -> by congruence; (split; [done|]); left; eexists k, _, p;
          (split; [apply list_elem_of_filter; split; [done|by apply elem_of_in_order]|done]).
      * split; [by apply Hm|]. right. pose proof (Hm _ _ Hs) as E. split.
        -- apply elem_of_entries; [done|]. rewrite E. apply list_elem_of_filter. split; [done|]. by apply elem_of_in_order.
        -- intros a [_ Ha%elem_of_in_order]%list_elem_of_filter. congruence.
    + intros [<- [(k' & a & p & [HP Hi%elem_of_in_order]%list_elem_of_filter & Ha & Hp)|[Hin Hn]]]; simpl in *.
      * destruct (valid_entry _ _ _ _ _ _ Hv Hi) as (s' & Hp' & Hk'). assert (s' = s) as -> by congruence.
        rewrite Hk', Hi. split; [done|]. simpl. unfold entry_of. simpl. by destruct a.
      * apply elem_of_entries in Hin; [|done]. apply list_elem_of_filter in Hin as [HP Hin%elem_of_in_order].
        split; [done|]. destruct (i !! sle_key s) as [a|] eqn:Hi; [|done]. destruct (Hn a).
        apply list_elem_of_filter. split; [done|]. by apply elem_of_in_order.
Qed.

Lemma filter_all {A} (l : list (Z * A)) : filter (λ x, (λ _, True) x.1) l = l.
Proof. by apply filter_keeps. Qed.

Lemma sles_spec base t :
  shows_sles base m → valid h (r_items t) m →
  sles h base t = Some (in_order (overlay h (r_items t) m)).*2 ∧
  ∀ k, slesUpperBound h base t k = Some (upper_bound k (in_order (overlay h (r_items t) m))).*2.
Proof.
  intros [Hb Hu] Hv. unfold sles, slesUpperBound. split.
  - rewrite Hb. pose proof (iterate_overlay (λ _, True) (r_items t) Hv) as E. by rewrite !filter_all in E.
  - intros k. rewrite Hu. by apply (iterate_overlay (λ x, k < x)).
Qed.

(** [succ] of the table. *)
Lemma raw_succ_spec base t key last :
  shows base m → valid h (r_items t) m →
  succ base t key last = Some (succ_key (overlay h (r_items t) m) key last).
Proof.
  intros Hb Hv. unfold succ.
  rewrite (base_succ_shows base m) by done.
  destruct (succ_spec m (r_items t) (λ k, match r_items t !! k with Some a => is_erase a | None => false end)) with
    (live := λ a, negb (is_erase a)) (M := overlay h (r_items t) m) (key := key) (last := last) as (o & -> & E).
  - intros k. destruct (r_items t !! k); eauto. done.
  - intros k. destruct (r_items t !! k); [by rewrite negb_involutive|done].
  - intros k. rewrite lookup_overlay. destruct (r_items t !! k) as [[a p]|] eqn:Hi; [|done].
    destruct (valid_entry _ _ _ _ _ _ Hv Hi) as (s & Hp & _). simpl. unfold entry_of. simpl.
    destruct a; simpl; [split; [by intros []|done]|rewrite Hp; split; eauto..].
  - by rewrite E.
Qed.

(** An open view over a base that shows a state shows the overlay. *)
Lemma open_view_shows base v :
  shows base m → valid h (r_items (o_items v)) m →
  shows (open_view h base v) (overlay h (r_items (o_items v)) m).
Proof.
  intros Hb Hv. constructor.
  - by apply overlay_keys.
  - intros k. by apply table_exists_spec.
  - intros k. by apply read_spec.
  - intros k last. simpl. by rewrite (raw_succ_spec base _ k last).
Qed.
End shows.
