(* ===== verification/ApplyStateTable.v ===== *)
(** * The table of a view that changes entries in place

    src/src/ripple/ledger/detail/ApplyStateTable.h, impl/ApplyStateTable.cpp and
    impl/ApplyViewBase.cpp, with ledger/Sandbox.h: a view through which entries are
    read, changed through the pointers [peek] returns, created and erased, to be
    written to the view below at the end.

    Pointers are compared by their locations, as the source compares
    [std::shared_ptr].  The operations of [ApplyViewBase] are state transformers
    over the heap and the table. *)

From stdpp Require Import prelude gmap strings sorting.
From Stdlib Require Import ZArith Lia.
From S2P Require Import Prelude.
From S2P Require Import LedgerEntry.
From S2P Require Import RawStateTable.

Inductive Action := act_cache | act_erase | act_insert | act_modify.
#[export] Instance Action_eq_dec : EqDecision Action.
Proof. solve_decision. Defined.

Abbreviation apply_items_t := (gmap Z (Action * Ptr)).

Record ApplyStateTable := mkTable { a_items : apply_items_t; a_dropsDestroyed : Z }.
Definition empty_apply_table : ApplyStateTable := mkTable ∅ 0.
Definition with_items (i : apply_items_t) (t : ApplyStateTable) : ApplyStateTable :=
  mkTable i (a_dropsDestroyed t).

(** ** Writing to a view below *)
Fixpoint apply_loop {V} `{RawView V} (h : Heap) (l : list (Z * (Action * Ptr))) (to : V) : string + V :=
  match l with
  | [] => inr to
  | (_, (a, p)) :: l =>
      match match a with
            | act_cache => inr to
            | act_erase => rawErase h p to
            | act_insert => rawInsert h p to
            | act_modify => rawReplace h p to
            end
      with
      | inl e => inl e
      | inr to => apply_loop h l to
      end
  end.
Definition apply {V} `{RawView V} (h : Heap) (t : ApplyStateTable) (to : V) : string + V :=
  apply_loop h (in_order (a_items t)) (rawDestroyXRP (a_dropsDestroyed t) to).

Definition changes (a : Action) : bool := match a with act_cache => false | _ => true end.
Definition table_size (t : ApplyStateTable) : Z :=
  Z.of_nat (length (filter (λ x : Z * (Action * Ptr), changes x.2.1 = true) (in_order (a_items t)))).

(** The calls [visit] makes: key, whether deleted, the entry before and after. *)
Definition visit (h : Heap) (to : ReadView) (t : ApplyStateTable) :
    list (Z * bool * option SLE * option SLE) :=
  concat (map (λ '(k, (a, p)),
    match a with
    | act_cache => []
    | act_erase => [(k, true, rv_read to (unchecked k), h !! p)]
    | act_insert => [(k, false, None, h !! p)]
    | act_modify => [(k, false, rv_read to (unchecked k), h !! p)]
    end) (in_order (a_items t))).

(** ** Queries *)
Definition exists_ (h : Heap) (base : ReadView) (t : ApplyStateTable) (k : Keylet) : bool :=
  match a_items t !! k_key k with
  | None => rv_exists base k
  | Some (act_erase, _) => false
  | Some (_, p) => match h !! p with Some sle => check k sle | None => false end
  end.
Definition read (h : Heap) (base : ReadView) (t : ApplyStateTable) (k : Keylet) : option SLE :=
  match a_items t !! k_key k with
  | None => rv_read base k
  | Some (act_erase, _) => None
  | Some (_, p) => sle ← h !! p; if check k sle then Some sle else None
  end.
Definition is_erase (a : Action * Ptr) : bool := match a.1 with act_erase => true | _ => false end.
Definition succ (base : ReadView) (t : ApplyStateTable) (key : Z) (last : option Z) : option (option Z) :=
  match base_succ (S (size (a_items t))) (rv_succ base)
          (λ k, match a_items t !! k with Some a => is_erase a | None => false end) key last with
  | None => None
  | Some next =>
      Some (merge_succ next (first_live (λ a, negb (is_erase a)) (upper_bound key (in_order (a_items t)))) last)
  end.

(** ** Changes *)
Definition erase (h : Heap) (p : Ptr) (t : ApplyStateTable) : string + ApplyStateTable :=
  match h !! p with
  | None => inl dangling
  | Some sle =>
      let k := sle_key sle in
      match a_items t !! k with
      | None => inl "ApplyStateTable::erase: missing key"%string
      | Some (a, q) =>
          if negb (bool_decide (q = p)) then inl "ApplyStateTable::erase: unknown SLE"%string
          else match a with
               | act_erase => inl "ApplyStateTable::erase: double erase"%string
               | act_insert => inr (with_items (delete k (a_items t)) t)
               | act_cache | act_modify => inr (with_items (<[k := (act_erase, q)]> (a_items t)) t)
               end
      end
  end.

Definition rawErase_ (h : Heap) (p : Ptr) (t : ApplyStateTable) : string + ApplyStateTable :=
  match h !! p with
  | None => inl dangling
  | Some sle =>
      let k := sle_key sle in
      match a_items t !! k with
      | None => inr (with_items (<[k := (act_erase, p)]> (a_items t)) t)
      | Some (act_erase, _) => inl "ApplyStateTable::rawErase: double erase"%string
      | Some (act_insert, _) => inr (with_items (delete k (a_items t)) t)
      | Some (_, _) => inr (with_items (<[k := (act_erase, p)]> (a_items t)) t)
      end
  end.

Definition insert (h : Heap) (p : Ptr) (t : ApplyStateTable) : string + ApplyStateTable :=
  match h !! p with
  | None => inl dangling
  | Some sle =>
      let k := sle_key sle in
      match a_items t !! k with
      | None => inr (with_items (<[k := (act_insert, p)]> (a_items t)) t)
      | Some (act_cache, _) => inl "ApplyStateTable::insert: already cached"%string
      | Some (act_insert, _) => inl "ApplyStateTable::insert: already inserted"%string
      | Some (act_modify, _) => inl "ApplyStateTable::insert: already modified"%string
      | Some (act_erase, _) => inr (with_items (<[k := (act_modify, p)]> (a_items t)) t)
      end
  end.

Definition replace (h : Heap) (p : Ptr) (t : ApplyStateTable) : string + ApplyStateTable :=
  match h !! p with
  | None => inl dangling
  | Some sle =>
      let k := sle_key sle in
      match a_items t !! k with
      | None => inr (with_items (<[k := (act_modify, p)]> (a_items t)) t)
      | Some (act_erase, _) => inl "ApplyStateTable::replace: already erased"%string
      | Some (act_cache, _) => inr (with_items (<[k := (act_modify, p)]> (a_items t)) t)
      | Some (a, _) => inr (with_items (<[k := (a, p)]> (a_items t)) t)
      end
  end.

Definition update (h : Heap) (p : Ptr) (t : ApplyStateTable) : string + ApplyStateTable :=
  match h !! p with
  | None => inl dangling
  | Some sle =>
      let k := sle_key sle in
      match a_items t !! k with
      | None => inl "ApplyStateTable::update: missing key"%string
      | Some (a, q) =>
          if negb (bool_decide (q = p)) then inl "ApplyStateTable::update: unknown SLE"%string
          else match a with
               | act_erase => inl "ApplyStateTable::update: erased"%string
               | act_cache => inr (with_items (<[k := (act_modify, q)]> (a_items t)) t)
               | act_insert | act_modify => inr t
               end
      end
  end.

Definition destroyXRP (fee : Z) (t : ApplyStateTable) : ApplyStateTable :=
  mkTable (a_items t) (a_dropsDestroyed t + fee).

#[export] Instance apply_raw_view : RawView ApplyStateTable :=
  mkRawView ApplyStateTable rawErase_ insert replace destroyXRP.

(** ** The view

    The heap and the table, the state of an [ApplyViewBase]. *)
Record VState := mkState { v_heap : Heap; v_table : ApplyStateTable }.

Definition View (A : Type) : Type := VState → string + (A * VState).
#[export] Instance view_ret : MRet View := λ A a s, inr (a, s).
#[export] Instance view_bind : MBind View := λ A B f m s,
  match m s with inl e => inl e | inr (a, s) => f a s end.

Definition logic_error {A} (e : string) : View A := λ _, inl e.
(** An entry is read, or changed, through a pointer. *)
Definition deref (p : Ptr) : View SLE := λ s,
  match v_heap s !! p with None => inl dangling | Some sle => inr (sle, s) end.
Definition set_sle (p : Ptr) (f : SLE → SLE) : View () := λ s,
  match v_heap s !! p with
  | None => inl dangling
  | Some sle => inr ((), mkState (<[p := f sle]> (v_heap s)) (v_table s))
  end.
(** [std::make_shared<SLE>] *)
Definition make_shared (sle : SLE) : View Ptr := λ s,
  let '(p, h) := alloc sle (v_heap s) in inr (p, mkState h (v_table s)).
Definition on_table (f : Heap → ApplyStateTable → string + ApplyStateTable) : View () := λ s,
  match f (v_heap s) (v_table s) with
  | inl e => inl e
  | inr t => inr ((), mkState (v_heap s) t)
  end.

Definition v_erase (p : Ptr) : View () := on_table (λ h, erase h p).
Definition v_insert (p : Ptr) : View () := on_table (λ h, insert h p).
Definition v_update (p : Ptr) : View () := on_table (λ h, update h p).

Section view.
  Variable base : ReadView.

(** A copy of the entry of the base, or the entry of the table. *)
Definition peek (k : Keylet) : View (option Ptr) := λ s,
  match a_items (v_table s) !! k_key k with
  | None =>
      match rv_read base k with
      | None => inr (None, s)
      | Some sle =>
          let '(p, h) := alloc sle (v_heap s) in
          inr (Some p, mkState h (with_items (<[sle_key sle := (act_cache, p)]> (a_items (v_table s))) (v_table s)))
      end
  | Some (act_erase, _) => inr (None, s)
  | Some (_, p) =>
      match v_heap s !! p with
      | None => inl dangling
      | Some sle => inr (if check k sle then Some p else None, s)
      end
  end.

(** The view as it is read; its iterator is that of its base. *)
Definition apply_view (s : VState) : ReadView :=
  mkReadView (exists_ (v_heap s) base (v_table s)) (read (v_heap s) base (v_table s))
    (λ k last, mjoin (succ base (v_table s) k last)) (rv_sles base) (rv_sles_upper base).
End view.
