(* ===== verification/ApplyStateSpec.v ===== *)
(** * The apply table as an overlay with pointers

    [holds s M]: the view stands for the state [M].  [points s p k]: [p] is the
    pointer by which the entry under [k] is changed.  Each operation of the view
    is described by what it does to both. *)

From stdpp Require Import prelude gmap strings sorting.
From Stdlib Require Import ZArith Lia.
From S2P Require Import Prelude.
From S2P Require Import LedgerEntry.
From S2P Require Import RawStateTable.
From S2P Require Import RawStateSpec.
From S2P Require Import ApplyStateTable.

(** ** Running a view *)
Lemma bind_inr {A B} (m : View A) (f : A → View B) s a s' : m s = inr (a, s') → (m ≫= f) s = f a s'.
Proof. intros E. unfold mbind, view_bind. by rewrite E. Qed.

Lemma bind_assoc {A B C} (c : View A) (f : A → View B) (g : B → View C) s :
  ((c ≫= f) ≫= g) s = (c ≫= (λ a, f a ≫= g)) s.
Proof. unfold mbind, view_bind. by destruct (c s) as [|[]]. Qed.

Lemma bind_inv {A B} (c : View A) (f : A → View B) s b s' :
  (c ≫= f) s = inr (b, s') → ∃ a s1, c s = inr (a, s1) ∧ f a s1 = inr (b, s').
Proof. unfold mbind, view_bind. destruct (c s) as [|[a s1]]; [done|]. eauto. Qed.

(** One step of a run whose first part is known. *)
Ltac vstep E := rewrite (bind_inr _ _ _ _ _ E); cbv beta.

(** The changes of the table as raw changes. *)
Definition raw_action (a : Action) : option RawAction :=
  match a with
  | act_cache => None
  | act_erase => Some raw_erase
  | act_insert => Some raw_insert
  | act_modify => Some raw_replace
  end.
Definition raw_change (x : Action * Ptr) : option (RawAction * Ptr) := (λ r, (r, x.2)) <$> raw_action x.1.
Definition raw_of (i : apply_items_t) : raw_items := omap raw_change i.

(** Entries are filed under their keys, cached ones are those of the base, inserted
    ones are new and the others old. *)
Definition tracks (h : Heap) (i : apply_items_t) (m : gmap Z SLE) : Prop :=
  ∀ k a p, i !! k = Some (a, p) →
    (∃ s, h !! p = Some s ∧ sle_key s = k ∧ (a = act_cache → m !! k = Some s)) ∧
    (a = act_insert ↔ m !! k = None).

Definition state (h : Heap) (i : apply_items_t) (m : gmap Z SLE) : gmap Z SLE := overlay h (raw_of i) m.

Lemma tracks_valid h i m : tracks h i m → valid h (raw_of i) m.
Proof.
  intros Ht k r p. unfold raw_of. rewrite lookup_omap. destruct (i !! k) as [[a q]|] eqn:Hi; [|done]. simpl.
  unfold raw_change. simpl. destruct (Ht k a q Hi) as [(s & Hq & Hk & _) Ha].
  destruct a; simpl; intros [= <- <-]; (split; [eauto|]); rewrite <- Ha; done.
Qed.

Lemma state_lookup h i m k :
  tracks h i m →
  state h i m !! k = match i !! k with
                     | None => m !! k
                     | Some (act_erase, _) => None
                     | Some (_, p) => h !! p
                     end.
Proof.
  intros Ht. unfold state, raw_of. rewrite lookup_overlay, lookup_omap.
  destruct (i !! k) as [[a p]|] eqn:Hi; simpl; [|done]. destruct (Ht _ _ _ Hi) as [(s & Hp & Hk & Hc) _].
  destruct a; simpl; try done. rewrite Hp. by apply Hc.
Qed.

Section view.
Context (m : gmap Z SLE) (Hm : keys_ok m).
Implicit Types (s : VState) (M : gmap Z SLE) (k : Z) (p : Ptr).

Definition holds (s : VState) (M : gmap Z SLE) : Prop :=
  tracks (v_heap s) (a_items (v_table s)) m ∧ state (v_heap s) (a_items (v_table s)) m = M.
Definition points (s : VState) (p : Ptr) (k : Z) : Prop :=
  ∃ a, a_items (v_table s) !! k = Some (a, p) ∧ a ≠ act_erase.
(** An object that is not in the table. *)
Definition loose (s : VState) (p : Ptr) : Prop :=
  is_Some (v_heap s !! p) ∧ ∀ k a, a_items (v_table s) !! k ≠ Some (a, p).

Lemma holds_lookup s M k :
  holds s M →
  M !! k = match a_items (v_table s) !! k with
           | None => m !! k
           | Some (act_erase, _) => None
           | Some (_, p) => v_heap s !! p
           end.
Proof. intros [Ht <-]. by apply state_lookup. Qed.

Lemma holds_keys s M : holds s M → keys_ok M.
Proof. intros [Ht <-]. apply overlay_keys; [done|]. by apply tracks_valid. Qed.

Lemma points_entry s M p k :
  holds s M → points s p k → ∃ e, v_heap s !! p = Some e ∧ M !! k = Some e ∧ sle_key e = k.
Proof.
  intros Hh (a & Hi & Ha). pose proof Hh as [Ht _]. destruct (Ht _ _ _ Hi) as [(e & Hp & Hk & _) _].
  exists e. split; [done|]. split; [|done]. rewrite (holds_lookup _ _ _ Hh), Hi. by destruct a.
Qed.

(** A table and a heap with the right entries. *)
Lemma holds_intro s M :
  tracks (v_heap s) (a_items (v_table s)) m →
  (∀ k, M !! k = match a_items (v_table s) !! k with
                 | None => m !! k
                 | Some (act_erase, _) => None
                 | Some (_, p) => v_heap s !! p
                 end) → holds s M.
Proof. intros Ht HM. split; [done|]. apply map_eq. intros k. by rewrite HM, state_lookup. Qed.

(** Changing the item of one key. *)
Lemma tracks_insert h i k a p e :
  tracks h i m → h !! p = Some e → sle_key e = k → (a = act_cache → m !! k = Some e) →
  (a = act_insert ↔ m !! k = None) → tracks h (<[k := (a, p)]> i) m.
Proof.
  intros Ht Hp Hk Hc Ha j b q Hj. destruct (decide (k = j)) as [<-|Hne].
  - rewrite lookup_insert_eq in Hj. injection Hj as <- <-. split; [|done]. eauto.
  - rewrite lookup_insert_ne in Hj by done. eauto.
Qed.

Lemma holds_insert s M k a p e d :
  holds s M → v_heap s !! p = Some e → sle_key e = k → (a = act_cache → m !! k = Some e) →
  (a = act_insert ↔ m !! k = None) → a ≠ act_erase →
  holds (mkState (v_heap s) (mkTable (<[k := (a, p)]> (a_items (v_table s))) d)) (<[k := e]> M).
Proof.
  intros Hh Hp Hk Hc Ha Hne. pose proof Hh as [Ht _]. apply holds_intro; simpl.
  - by eapply tracks_insert.
  - intros j. destruct (decide (k = j)) as [<-|Hj].
    + rewrite !lookup_insert_eq. by destruct a.
    + rewrite !lookup_insert_ne by done. by apply holds_lookup.
Qed.

Lemma holds_erase_item s M k p e d :
  holds s M → v_heap s !! p = Some e → sle_key e = k → is_Some (m !! k) →
  holds (mkState (v_heap s) (mkTable (<[k := (act_erase, p)]> (a_items (v_table s))) d)) (delete k M).
Proof.
  intros Hh Hp Hk [x Hx]. pose proof Hh as [Ht _]. apply holds_intro; simpl.
  - eapply tracks_insert; try done. split; [done|]. intros E. congruence.
  - intros j. destruct (decide (k = j)) as [<-|Hj].
    + by rewrite lookup_delete_eq, lookup_insert_eq.
    + rewrite lookup_delete_ne, lookup_insert_ne by done. by apply holds_lookup.
Qed.

Lemma holds_delete_item s M k d :
  holds s M → m !! k = None →
  holds (mkState (v_heap s) (mkTable (delete k (a_items (v_table s))) d)) (delete k M).
Proof.
  intros Hh Hk. pose proof Hh as [Ht _]. apply holds_intro; simpl.
  - intros j b q [_ Hj]%lookup_delete_Some. eauto.
  - intros j. destruct (decide (k = j)) as [<-|Hj].
    + by rewrite !lookup_delete_eq.
    + rewrite !lookup_delete_ne by done. by apply holds_lookup.
Qed.

(** Objects outside the table, and new ones. *)
Lemma holds_heap s M p e :
  holds s M → (∀ k a, a_items (v_table s) !! k ≠ Some (a, p)) →
  holds (mkState (<[p := e]> (v_heap s)) (v_table s)) M.
Proof.
  intros Hh Hp. pose proof Hh as [Ht _].
  assert (∀ k a q, a_items (v_table s) !! k = Some (a, q) → <[p := e]> (v_heap s) !! q = v_heap s !! q) as Hsame.
  { intros k a q Hi. apply lookup_insert_ne. intros ->. by apply (Hp k a). }
  apply holds_intro; simpl.
  - intros k a q Hi. rewrite (Hsame k a q Hi). eauto.
  - intros k. rewrite (holds_lookup _ _ k Hh). destruct (a_items (v_table s) !! k) as [[a q]|] eqn:Hi; [|done].
    rewrite (Hsame k a q Hi). done.
Qed.

Lemma table_pointers s M k a p : holds s M → a_items (v_table s) !! k = Some (a, p) → is_Some (v_heap s !! p).
Proof. intros [Ht _] Hi. destruct (Ht _ _ _ Hi) as [(e & -> & _) _]. eauto. Qed.

(** ** The operations *)
Lemma make_shared_spec s M e :
  holds s M →
  ∃ p s', make_shared e s = inr (p, s') ∧ v_heap s' !! p = Some e ∧ loose s' p ∧ holds s' M ∧
    (∀ q k, points s q k ↔ points s' q k).
Proof.
  intros Hh. unfold make_shared, alloc. set (p := fresh (dom (v_heap s))).
  assert (v_heap s !! p = None) as Hp by (apply not_elem_of_dom, is_fresh).
  assert (∀ k a, a_items (v_table s) !! k ≠ Some (a, p)) as Hl.
  { intros k a Hi. apply (table_pointers _ _ _ _ _ Hh) in Hi. rewrite Hp in Hi. by destruct Hi. }
  eexists p, _. split; [done|]. simpl. rewrite lookup_insert_eq. split; [done|]. split; [|split; [|done]].
  - split; [simpl; rewrite lookup_insert_eq; eauto|done].
  - by apply holds_heap.
Qed.

Lemma set_loose_spec s M p e f :
  holds s M → loose s p → v_heap s !! p = Some e →
  ∃ s', set_sle p f s = inr ((), s') ∧ v_heap s' !! p = Some (f e) ∧ loose s' p ∧ holds s' M ∧
    (∀ q k, points s q k ↔ points s' q k).
Proof.
  intros Hh [_ Hl] Hp. unfold set_sle. rewrite Hp. eexists. split; [done|]. simpl.
  rewrite lookup_insert_eq. split; [done|]. split; [|split; [by apply holds_heap|done]].
  split; [simpl; rewrite lookup_insert_eq; eauto|done].
Qed.

Lemma v_insert_spec s M p e :
  holds s M → loose s p → v_heap s !! p = Some e → M !! sle_key e = None →
  ∃ s', v_insert p s = inr ((), s') ∧ holds s' (<[sle_key e := e]> M) ∧ points s' p (sle_key e) ∧
    (∀ q k, points s q k → points s' q k).
Proof.
  intros Hh Hl Hp HM. unfold v_insert, on_table, insert. rewrite Hp.
  rewrite (holds_lookup _ _ _ Hh) in HM.
  assert (∀ a q k d, a_items (v_table s) !! sle_key e = None ∨ (∃ r, a_items (v_table s) !! sle_key e = Some (act_erase, r)) →
    points s q k → points (mkState (v_heap s) (mkTable (<[sle_key e := (a, p)]> (a_items (v_table s))) d)) q k) as Hpts.
  { intros a q k d Hi (b & Hb & Hne). exists b. split; [|done]. simpl. rewrite lookup_insert_ne; [done|].
    intros <-. destruct Hi as [Hi|[r Hi]]; congruence. }
  destruct (a_items (v_table s) !! sle_key e) as [[a q]|] eqn:Hi.
  - pose proof Hh as [Ht _]. destruct (Ht _ _ _ Hi) as [(x & Hq & _) Ha].
    assert (a = act_erase) as -> by (destruct a; congruence).
    eexists. split; [done|]. split; [eapply holds_insert; try done|].
    { split; [done|]. intros E%Ha. done. }
    split; [eexists; simpl; by rewrite lookup_insert_eq|]. intros r k. apply Hpts. eauto.
  - eexists. split; [done|]. split; [by eapply holds_insert|].
    split; [eexists; simpl; by rewrite lookup_insert_eq|]. intros r k. apply Hpts. by left.
Qed.

(** A change through a pointer, followed by [update]. *)
Lemma set_update_spec s M p k e f :
  holds s M → points s p k → M !! k = Some e → sle_key (f e) = sle_key e →
  ∃ s1 s', set_sle p f s = inr ((), s1) ∧ v_update p s1 = inr ((), s') ∧
    holds s' (<[k := f e]> M) ∧ (∀ q j, points s q j → points s' q j).
Proof.
  intros Hh Hp HM Hf. destruct (points_entry _ _ _ _ Hh Hp) as (e' & Hpe & HM' & Hk).
  assert (e' = e) as -> by congruence. destruct Hp as (a & Hi & Ha). pose proof Hh as [Ht _].
  unfold set_sle. rewrite Hpe. eexists _, _. split; [done|].
  unfold v_update, on_table, update. simpl. rewrite lookup_insert_eq, Hf, Hk, Hi.
  rewrite bool_decide_eq_true_2 by done. simpl.
  assert (∀ j b q, a_items (v_table s) !! j = Some (b, q) → j ≠ k → <[p := f e]> (v_heap s) !! q = v_heap s !! q) as Hother.
  { intros j b q Hj Hne. apply lookup_insert_ne. intros <-.
    destruct (Ht _ _ _ Hj) as [(x & Hx & Hkx & _) _]. congruence. }
  set (a' := match a with act_cache => act_modify | _ => a end).
  assert (match a with
    | act_erase => inl "ApplyStateTable::update: erased"%string
    | act_cache => inr (with_items (<[k := (act_modify, p)]> (a_items (v_table s))) (v_table s))
    | _ => inr (v_table s) end = inr (with_items (<[k := (a', p)]> (a_items (v_table s))) (v_table s))) as ->.
  { unfold a'. destruct a; try done; unfold with_items; rewrite insert_id by done; by destruct (v_table s). }
  split; [done|]. destruct (Ht _ _ _ Hi) as [(x & Hx & _ & _) Hins]. split.
  - apply holds_intro; simpl.
    + intros j b q Hj. destruct (decide (k = j)) as [<-|Hne].
      * rewrite lookup_insert_eq in Hj. injection Hj as <- <-. rewrite lookup_insert_eq. split.
        -- exists (f e). split; [done|]. split; [congruence|]. unfold a'. by destruct a.
        -- rewrite <- Hins. unfold a'. by destruct a.
      * rewrite lookup_insert_ne in Hj by done. rewrite (Hother j b q Hj) by done. eauto.
    + intros j. destruct (decide (k = j)) as [<-|Hne].
      * rewrite !lookup_insert_eq. unfold a'. by destruct a.
      * rewrite !lookup_insert_ne by done. rewrite (holds_lookup _ _ j Hh).
        destruct (a_items (v_table s) !! j) as [[b q]|] eqn:Hj; [|done]. by rewrite (Hother j b q Hj).
  - intros q j (b & Hb & Hne). destruct (decide (k = j)) as [<-|Hj].
    + exists a'. simpl. rewrite lookup_insert_eq. assert (q = p) as -> by congruence. split; [done|]. unfold a'. by destruct a.
    + exists b. simpl. by rewrite lookup_insert_ne.
Qed.

(** An entry the table holds as changed can be set through its pointer. *)
Definition written (s : VState) (p : Ptr) (k : Z) : Prop :=
  ∃ a, a_items (v_table s) !! k = Some (a, p) ∧ (a = act_insert ∨ a = act_modify).

Lemma set_written_spec s M p k e f :
  holds s M → written s p k → M !! k = Some e → sle_key (f e) = sle_key e →
  ∃ s', set_sle p f s = inr ((), s') ∧ holds s' (<[k := f e]> M) ∧ written s' p k.
Proof.
  intros Hh (a & Hi & Ha) HM Hf. assert (points s p k) as Hp by (exists a; split; [done|by destruct Ha as [->| ->]]).
  destruct (points_entry _ _ _ _ Hh Hp) as (e' & Hpe & HM' & Hk). assert (e' = e) as -> by congruence.
  destruct (set_update_spec s M p k e f Hh Hp HM Hf) as (s1 & s' & E1 & E2 & Hh' & _).
  assert (s' = s1) as ->.
  { unfold set_sle in E1. rewrite Hpe in E1. injection E1 as <-. unfold v_update, on_table, update in E2. simpl in E2.
    rewrite lookup_insert_eq, Hf, Hk, Hi, bool_decide_eq_true_2 in E2 by done. simpl in E2. destruct Ha as [->| ->]; by injection E2. }
  exists s1. split; [done|]. split; [done|]. exists a. unfold set_sle in E1. rewrite Hpe in E1. by injection E1 as <-.
Qed.

Lemma v_insert_written s s' p e :
  v_heap s !! p = Some e → v_insert p s = inr ((), s') → written s' p (sle_key e).
Proof.
  intros Hp. unfold v_insert, on_table, insert. rewrite Hp. destruct (a_items (v_table s) !! sle_key e) as [[a q]|].
  - destruct a; try done. intros [= <-]. exists act_modify. simpl. rewrite lookup_insert_eq. auto.
  - intros [= <-]. exists act_insert. simpl. rewrite lookup_insert_eq. auto.
Qed.

(** The order of setting and updating does not matter. *)
Lemma update_then_set s p e f :
  v_heap s !! p = Some e → sle_key (f e) = sle_key e →
  (_ ← v_update p; set_sle p f) s = (_ ← set_sle p f; v_update p) s.
Proof.
  intros Hp Hf. unfold mbind, view_bind, set_sle, v_update, on_table, update. rewrite Hp. simpl.
  rewrite lookup_insert_eq, Hf. destruct (a_items (v_table s) !! sle_key e) as [[a q]|]; [|done].
  case_bool_decide; [|done]. destruct a; simpl; by rewrite ?Hp.
Qed.

Lemma v_erase_spec s M p k :
  holds s M → points s p k →
  ∃ s', v_erase p s = inr ((), s') ∧ holds s' (delete k M) ∧
    (∀ q j, j ≠ k → points s q j → points s' q j).
Proof.
  intros Hh Hp. destruct (points_entry _ _ _ _ Hh Hp) as (e & Hpe & HM & Hk). destruct Hp as (a & Hi & Ha).
  pose proof Hh as [Ht _]. destruct (Ht _ _ _ Hi) as [_ Hins].
  unfold v_erase, on_table, erase. rewrite Hpe, Hk, Hi, bool_decide_eq_true_2 by done. simpl.
  assert (a ≠ act_insert → is_Some (m !! k)) as Hin.
  { intros Hne. destruct (m !! k) eqn:E; [eauto|]. by destruct Hne; apply Hins. }
  destruct a; simpl; [| done | |]; eexists; (split; [done|]).
  - split; [eapply holds_erase_item; eauto|]. intros q j Hj (b & Hb & Hne). exists b. simpl. by rewrite lookup_insert_ne.
  - split; [apply holds_delete_item; [done|by apply Hins]|]. intros q j Hj (b & Hb & Hne). exists b. simpl. by rewrite lookup_delete_ne.
  - split; [eapply holds_erase_item; eauto|]. intros q j Hj (b & Hb & Hne). exists b. simpl. by rewrite lookup_insert_ne.
Qed.

Context (base : ReadView) (Hbase : shows base m).

Lemma peek_spec s M (k : Keylet) e :
  holds s M → M !! k_key k = Some e → check k e = true →
  ∃ p s', peek base k s = inr (Some p, s') ∧ holds s' M ∧ points s' p (k_key k) ∧
    (∀ q j, points s q j → points s' q j).
Proof.
  intros Hh HM Hc. pose proof (holds_keys _ _ Hh _ _ HM) as Hk. pose proof (holds_lookup _ _ (k_key k) Hh) as HM'.
  unfold peek. destruct (a_items (v_table s) !! k_key k) as [[a p]|] eqn:Hi.
  - assert (a ≠ act_erase) as Ha by (intros ->; congruence).
    assert (v_heap s !! p = Some e) as -> by (destruct a; congruence). rewrite Hc.
    eexists p, s. split; [by destruct a|]. split; [done|]. split; [by exists a|done].
  - rewrite (shows_read _ _ Hbase). simpl. rewrite <- HM', HM. simpl. rewrite Hc.
    unfold alloc. set (p := fresh (dom (v_heap s))).
    assert (v_heap s !! p = None) as Hp by (apply not_elem_of_dom, is_fresh).
    eexists p, _. split; [done|]. split; [|split].
    + assert (holds (mkState (<[p := e]> (v_heap s)) (v_table s)) M) as Hh'.
      { apply holds_heap; [done|]. intros j a Hj. apply (table_pointers _ _ _ _ _ Hh) in Hj. rewrite Hp in Hj. by destruct Hj. }
      rewrite Hk. rewrite <- (insert_id M (k_key k) e HM).
      apply (holds_insert _ _ (k_key k) act_cache p e (a_dropsDestroyed (v_table s)) Hh'); simpl.
      * by rewrite lookup_insert_eq.
      * done.
      * intros _. congruence.
      * split; [done|]. congruence.
      * done.
    + exists act_cache. simpl. by rewrite Hk, lookup_insert_eq.
    + intros q j (b & Hb & Hne). exists b. simpl. rewrite Hk, lookup_insert_ne; [done|]. congruence.
Qed.

Lemma peek_none s M (k : Keylet) :
  holds s M → M !! k_key k = None → peek base k s = inr (None, s).
Proof.
  intros Hh HM. rewrite (holds_lookup _ _ _ Hh) in HM. unfold peek.
  destruct (a_items (v_table s) !! k_key k) as [[a p]|] eqn:Hi.
  - pose proof Hh as [Ht _]. destruct (Ht _ _ _ Hi) as [(x & Hx & _) _]. destruct a; congruence.
  - rewrite (shows_read _ _ Hbase). simpl. by rewrite HM.
Qed.

(** ** What is read *)
Lemma apply_succ_spec s M :
  holds s M → ∀ key last, succ base (v_table s) key last = Some (succ_key M key last).
Proof.
  intros Hh key last. pose proof Hh as [Ht _]. unfold succ. rewrite (base_succ_shows base m) by done.
  destruct (succ_spec m (a_items (v_table s)) (λ k, match a_items (v_table s) !! k with Some a => is_erase a | None => false end)) with
    (live := λ a, negb (is_erase a)) (M := M) (key := key) (last := last) as (o & -> & E).
  - intros k. destruct (a_items (v_table s) !! k); eauto. done.
  - intros k. destruct (a_items (v_table s) !! k); [by rewrite negb_involutive|done].
  - intros k. rewrite (holds_lookup _ _ _ Hh). destruct (a_items (v_table s) !! k) as [[a p]|] eqn:Hi; [|done].
    destruct (Ht _ _ _ Hi) as [(e & Hp & _) _]. destruct a; simpl; [rewrite Hp; split; eauto|split; [by intros []|done]|rewrite Hp; split; eauto..].
  - by rewrite E.
Qed.

Lemma apply_view_shows s M : holds s M → shows (apply_view base s) M.
Proof.
  intros Hh. pose proof Hh as [Ht _]. constructor.
  - by eapply holds_keys.
  - intros k. simpl. rewrite (holds_lookup _ _ _ Hh). unfold exists_.
    destruct (a_items (v_table s) !! k_key k) as [[a p]|] eqn:Hi; [|by rewrite (shows_exists _ _ Hbase)].
    destruct (Ht _ _ _ Hi) as [(e & -> & _) _].
    destruct a; simpl; [|done|..]; destruct (check k e); by rewrite ?bool_decide_eq_true_2, ?bool_decide_eq_false_2 by (done || by intros []).
  - intros k. simpl. rewrite (holds_lookup _ _ _ Hh). unfold read.
    destruct (a_items (v_table s) !! k_key k) as [[a p]|] eqn:Hi; [|by rewrite (shows_read _ _ Hbase)].
    by destruct a.
  - intros key last. simpl. by rewrite (apply_succ_spec s M Hh key last).
Qed.
End view.

(** ** Writing to a view below *)
Lemma apply_loop_raw {V} `{RawView V} h l (to : V) :
  apply_loop h l to = apply_items h (omap (λ x, pair x.1 <$> raw_change x.2) l) to.
Proof.
  revert to. induction l as [|[k [a p]] l IH]; intros to; [done|]. destruct a; simpl; [apply IH|..];
    match goal with |- match ?x with _ => _ end = _ => destruct x; [done|apply IH] end.
Qed.

Lemma omap_sorted {A B} (f : A → option B) (l : list (Z * A)) :
  StronglySorted (λ a b : Z * A, a.1 < b.1) l →
  StronglySorted (λ a b : Z * B, a.1 < b.1) (omap (λ x, pair x.1 <$> f x.2) l).
Proof.
  induction 1 as [|[k a] l Hs IH Hall]; [constructor|]. simpl. destruct (f a) as [b|]; simpl; [|done].
  constructor; [done|]. rewrite Forall_forall in Hall. apply Forall_forall. intros [k' b'] Hin.
  apply list_elem_of_omap in Hin as ([k0 a0] & Hin & E). simpl in *. destruct (f a0); [|done].
  injection E as -> ->. by apply (Hall _ Hin).
Qed.

Lemma in_order_omap {A B} (f : A → option B) (i : gmap Z A) :
  omap (λ x, pair x.1 <$> f x.2) (in_order i) = in_order (omap f i).
Proof.
  apply sorted_unique; [apply omap_sorted, in_order_sorted|apply in_order_sorted|].
  intros [k b]. rewrite elem_of_in_order, lookup_omap, list_elem_of_omap. split.
  - intros ([k' a] & Hin%elem_of_in_order & E). simpl in E. destruct (f a) eqn:Ef; [|done]. injection E as -> ->.
    by rewrite Hin.
  - intros E. destruct (i !! k) as [a|] eqn:Hi; [|done]. simpl in E. exists (k, a). split; [by apply elem_of_in_order|].
    simpl. by rewrite E.
Qed.

(** The table writes the state it stands for. *)
Lemma table_apply_spec {V} `{RawStore V} h t (v : V) m :
  tracks h (a_items t) m → rs_holds h v m →
  ∃ v', apply h t v = inr v' ∧ rs_holds h v' (state h (a_items t) m) ∧
    rs_drops v' = rs_drops v + a_dropsDestroyed t.
Proof.
  intros Ht Hv. unfold apply. rewrite apply_loop_raw, in_order_omap.
  apply (apply_spec h (mkRaw (raw_of (a_items t)) (a_dropsDestroyed t))); [|done]. by apply tracks_valid.
Qed.

(** The table is itself a store of raw changes. *)
Definition table_holds (m0 : gmap Z SLE) (h : Heap) (t : ApplyStateTable) (M : gmap Z SLE) : Prop :=
  holds m0 (mkState h t) M.

Definition table_store (m0 : gmap Z SLE) : RawStore ApplyStateTable.
Proof.
  refine (mkRawStore ApplyStateTable _ (table_holds m0) a_dropsDestroyed _ _ _ _).
  - intros h p s t M Hh Hp HM. pose proof Hh as [Ht _]. simpl. unfold rawErase_. rewrite Hp.
    rewrite (holds_lookup _ _ _ _ Hh) in HM. simpl in *.
    destruct (a_items t !! sle_key s) as [[a q]|] eqn:Hi.
    + destruct (Ht _ _ _ Hi) as [_ Hins].
      assert (a ≠ act_insert → is_Some (m0 !! sle_key s)) as Hin.
      { intros Hne. destruct (m0 !! sle_key s) eqn:E; [eauto|]. by destruct Hne; apply Hins. }
      destruct a; [|by destruct HM|..]; eexists; (split; [done|]); split; try done.
      * eapply (holds_erase_item _ (mkState h t)); eauto.
      * apply (holds_delete_item _ (mkState h t)); [done|]. by apply Hins.
      * eapply (holds_erase_item _ (mkState h t)); eauto.
    + eexists. split; [done|]. split; [|done]. eapply (holds_erase_item _ (mkState h t)); eauto.
  - intros h p s t M Hh Hp HM. pose proof Hh as [Ht _]. simpl. unfold insert. rewrite Hp.
    rewrite (holds_lookup _ _ _ _ Hh) in HM. simpl in *.
    destruct (a_items t !! sle_key s) as [[a q]|] eqn:Hi.
    + destruct (Ht _ _ _ Hi) as [(x & Hq & _) Hins]. assert (a = act_erase) as -> by (destruct a; congruence).
      eexists. split; [done|]. split; [|done]. eapply (holds_insert _ (mkState h t)); try done.
      split; [done|]. intros E%Hins. done.
    + eexists. split; [done|]. split; [|done]. by eapply (holds_insert _ (mkState h t)).
  - intros h p s t M Hh Hp HM. pose proof Hh as [Ht _]. simpl. unfold replace. rewrite Hp.
    rewrite (holds_lookup _ _ _ _ Hh) in HM. simpl in *.
    destruct (a_items t !! sle_key s) as [[a q]|] eqn:Hi.
    + destruct (Ht _ _ _ Hi) as [_ Hins].
      destruct a; [|by destruct HM|..]; eexists; (split; [done|]); split; try done;
        eapply (holds_insert _ (mkState h t)); try done; rewrite <- Hins; done.
    + eexists. split; [done|]. split; [|done]. eapply (holds_insert _ (mkState h t)); try done.
      split; [done|]. intros E. rewrite E in HM. by destruct HM.
  - intros h fee t M [Ht Hs]. done.
Defined.
