(* ===== verification/LedgerViewTheorems.v ===== *)
(** * Ledger views: what they show and what they write

    The claims about ledger/detail/RawStateTable.h, ApplyStateTable.h and the views
    built on them: a view with changes shows the changed state, and writing the
    changes to the view below makes that one show it. *)

From stdpp Require Import prelude gmap strings sorting.
From Stdlib Require Import ZArith Lia.
From S2P Require Import Prelude.
From S2P Require Import LedgerEntry.
From S2P Require Import RawStateTable.
From S2P Require Import RawStateSpec.
From S2P Require Import ApplyStateTable.
From S2P Require Import ApplyStateSpec.

(** ** Runs of raw changes *)
Inductive RawOp := OErase (p : Ptr) | OInsert (p : Ptr) | OReplace (p : Ptr) | ODestroy (fee : Z).

Definition raw_op {V} `{RawView V} (h : Heap) (op : RawOp) (v : V) : string + V :=
  match op with
  | OErase p => rawErase h p v
  | OInsert p => rawInsert h p v
  | OReplace p => rawReplace h p v
  | ODestroy fee => inr (rawDestroyXRP fee v)
  end.
Fixpoint raw_run {V} `{RawView V} (h : Heap) (ops : list RawOp) (v : V) : string + V :=
  match ops with
  | [] => inr v
  | op :: ops => match raw_op h op v with inl e => inl e | inr v => raw_run h ops v end
  end.

(** The same on a state, where the operation makes sense: an entry that is erased
    or replaced is there, one that is inserted is not. *)
Definition raw_spec (h : Heap) (op : RawOp) (m : gmap Z SLE) : option (gmap Z SLE) :=
  match op with
  | OErase p => s ← h !! p; _ ← m !! sle_key s; Some (delete (sle_key s) m)
  | OInsert p => s ← h !! p; match m !! sle_key s with None => Some (<[sle_key s := s]> m) | Some _ => None end
  | OReplace p => s ← h !! p; _ ← m !! sle_key s; Some (<[sle_key s := s]> m)
  | ODestroy _ => Some m
  end.
Fixpoint raw_run_spec (h : Heap) (ops : list RawOp) (m : gmap Z SLE) : option (gmap Z SLE) :=
  match ops with
  | [] => Some m
  | op :: ops => match raw_spec h op m with None => None | Some m => raw_run_spec h ops m end
  end.
Definition destroyed (op : RawOp) : Z := match op with ODestroy fee => fee | _ => 0 end.

Lemma raw_op_spec {V} `{RawStore V} h op v m m' :
  rs_holds h v m → raw_spec h op m = Some m' →
  ∃ v', raw_op h op v = inr v' ∧ rs_holds h v' m' ∧ rs_drops v' = rs_drops v + destroyed op.
Proof.
  intros Hv Hs. destruct op as [p|p|p|fee]; simpl in Hs |- *;
    try (destruct (h !! p) as [s|] eqn:Hp; [|done]; simpl in Hs); rewrite ?Z.add_0_r.
  - destruct (m !! sle_key s) as [x|] eqn:Hx; [|done]. injection Hs as <-. eapply rs_erase; eauto.
  - destruct (m !! sle_key s) as [x|] eqn:Hx; [done|]. injection Hs as <-. by eapply rs_insert.
  - destruct (m !! sle_key s) as [x|] eqn:Hx; [|done]. injection Hs as <-. eapply rs_replace; eauto.
  - injection Hs as <-. destruct (rs_destroy h fee v m Hv). eauto.
Qed.

Lemma raw_run_spec_holds {V} `{RawStore V} h ops : ∀ v m m',
  rs_holds h v m → raw_run_spec h ops m = Some m' →
  ∃ v', raw_run h ops v = inr v' ∧ rs_holds h v' m' ∧ rs_drops v' = rs_drops v + sumZ destroyed ops.
Proof.
  induction ops as [|op ops IH]; intros v m m' Hv Hs; simpl in Hs |- *.
  - injection Hs as ->. exists v. rewrite Z.add_0_r. done.
  - destruct (raw_spec h op m) as [m1|] eqn:E; [|done].
    destruct (raw_op_spec h op v m m1 Hv E) as (v1 & -> & Hv1 & Hd1).
    destruct (IH v1 m1 m' Hv1 Hs) as (v' & -> & Hv' & Hd'). exists v'. split; [done|]. split; [done|lia].
Qed.

(** ** Runs of a view

    What a transactor does: entries are looked at, changed through the pointer
    [peek] gives, created and erased. *)
Inductive ViewOp :=
  | VPeek (k : Keylet)
  | VChange (key : Z) (f : SLE → SLE)
  | VCreate (e : SLE)
  | VDelete (key : Z).

Definition view_op (base : ReadView) (op : ViewOp) : View () :=
  match op with
  | VPeek k => _ ← peek base k; mret ()
  | VChange key f =>
      o ← peek base (unchecked key);
      match o with
      | None => mret ()
      | Some p => _ ← set_sle p f; v_update p
      end
  | VCreate e => p ← make_shared e; v_insert p
  | VDelete key =>
      o ← peek base (unchecked key);
      match o with
      | None => mret ()
      | Some p => v_erase p
      end
  end.
Fixpoint view_run (base : ReadView) (ops : list ViewOp) : View () :=
  match ops with
  | [] => mret ()
  | op :: ops => _ ← view_op base op; view_run base ops
  end.

Definition view_spec (op : ViewOp) (m : gmap Z SLE) : option (gmap Z SLE) :=
  match op with
  | VPeek _ => Some m
  | VChange key f => Some (alter f key m)
  | VCreate e => match m !! sle_key e with None => Some (<[sle_key e := e]> m) | Some _ => None end
  | VDelete key => Some (delete key m)
  end.
Fixpoint view_run_spec (ops : list ViewOp) (m : gmap Z SLE) : option (gmap Z SLE) :=
  match ops with
  | [] => Some m
  | op :: ops => match view_spec op m with None => None | Some m => view_run_spec ops m end
  end.
(** A key is part of an object and does not change. *)
Definition view_op_ok (op : ViewOp) : Prop :=
  match op with VChange _ f => ∀ e, sle_key (f e) = sle_key e | _ => True end.

Lemma peek_any m base s M k :
  keys_ok m → shows base m → holds m s M →
  ∃ o s', peek base k s = inr (o, s') ∧ holds m s' M ∧ (∀ p, o = Some p → points s' p (k_key k)) ∧
    (k_type k = ltANY → o = None → M !! k_key k = None).
Proof.
  intros Hm Hb Hh. destruct (M !! k_key k) as [e|] eqn:HM.
  - destruct (check k e) eqn:Hc.
    + destruct (peek_spec m Hm base Hb s M k e Hh HM Hc) as (p & s' & -> & Hh' & Hp & _).
      eexists _, s'. split; [done|]. split; [done|]. split; [by intros ? [= <-]|done].
    + assert (k_type k ≠ ltANY) as Ht by (intros E; unfold check in Hc; by rewrite E in Hc).
      exists None, s. split; [|split; [done|split; [done|done]]]. rewrite (holds_lookup _ _ _ _ Hh) in HM. unfold peek.
      destruct (a_items (v_table s) !! k_key k) as [[a p]|] eqn:Hi.
      * destruct a; try done; rewrite HM, Hc; done.
      * rewrite (shows_read _ _ Hb). simpl. rewrite HM. simpl. by rewrite Hc.
  - exists None, s. rewrite (peek_none m base Hb s M k Hh HM). done.
Qed.

Lemma view_op_spec m base op s M M' :
  keys_ok m → shows base m → holds m s M → view_op_ok op → view_spec op M = Some M' →
  ∃ s', view_op base op s = inr ((), s') ∧ holds m s' M'.
Proof.
  intros Hm Hb Hh Hok Hs. destruct op as [k|key f|e|key]; simpl in Hs.
  - injection Hs as <-. destruct (peek_any m base s M k Hm Hb Hh) as (o & s' & E & Hh' & _).
    exists s'. split; [simpl; by rewrite (bind_inr _ _ _ _ _ E)|done].
  - injection Hs as <-. destruct (peek_any m base s M (unchecked key) Hm Hb Hh) as (o & s' & E & Hh' & Hp & Hn).
    simpl. rewrite (bind_inr _ _ _ _ _ E). destruct o as [p|].
    + specialize (Hp p eq_refl). simpl in Hp. destruct (points_entry m s' M p key Hh' Hp) as (e & _ & HM & _).
      destruct (set_update_spec m s' M p key e f Hh' Hp HM (Hok e)) as (s1 & s2 & E1 & E2 & Hh2 & _).
      exists s2. rewrite (bind_inr _ _ _ _ _ E1). split; [done|].
      assert (alter f key M = <[key := f e]> M) as ->; [|done].
      apply map_eq. intros j. destruct (decide (key = j)) as [<-|].
      * by rewrite lookup_alter_eq, lookup_insert_eq, HM.
      * by rewrite lookup_alter_ne, lookup_insert_ne.
    + exists s'. split; [done|]. assert (alter f key M = M) as ->; [|done].
      apply map_eq. intros j. destruct (decide (key = j)) as [<-|]; [|by rewrite lookup_alter_ne].
      rewrite lookup_alter_eq. by rewrite (Hn eq_refl eq_refl : M !! key = None).
  - destruct (M !! sle_key e) as [x|] eqn:HM; [done|]. injection Hs as <-.
    destruct (make_shared_spec m s M e Hh) as (p & s1 & E & Hp & Hl & Hh1 & _). simpl. rewrite (bind_inr _ _ _ _ _ E).
    destruct (v_insert_spec m s1 M p e Hh1 Hl Hp HM) as (s' & E' & Hh' & _). eauto.
  - injection Hs as <-. destruct (peek_any m base s M (unchecked key) Hm Hb Hh) as (o & s' & E & Hh' & Hp & Hn).
    simpl. rewrite (bind_inr _ _ _ _ _ E). destruct o as [p|].
    + specialize (Hp p eq_refl). destruct (v_erase_spec m s' M p key Hh' Hp) as (s2 & E2 & Hh2 & _). eauto.
    + exists s'. split; [done|]. by rewrite delete_id by apply (Hn eq_refl eq_refl : M !! key = None).
Qed.

Lemma view_run_holds m base ops : ∀ s M M',
  keys_ok m → shows base m → holds m s M → Forall view_op_ok ops → view_run_spec ops M = Some M' →
  ∃ s', view_run base ops s = inr ((), s') ∧ holds m s' M'.
Proof.
  induction ops as [|op ops IH]; intros s M M' Hm Hb Hh Hok Hs; simpl in Hs.
  - injection Hs as <-. by exists s.
  - apply Forall_cons in Hok as [Hop Hok]. destruct (view_spec op M) as [M1|] eqn:E; [|done].
    destruct (view_op_spec m base op s M M1 Hm Hb Hh Hop E) as (s1 & E1 & Hh1).
    destruct (IH s1 M1 M' Hm Hb Hh1 Hok Hs) as (s' & E' & Hh'). exists s'. split; [|done].
    simpl. by rewrite (bind_inr _ _ _ _ _ E1).
Qed.

(** A new view over a base that shows [m]. *)
Lemma new_view_holds h m : holds m (mkState h empty_apply_table) m.
Proof.
  apply holds_intro; simpl; [intros k a p H; by rewrite lookup_empty in H|]. intros k. by rewrite lookup_empty.
Qed.

(** ** What a run leaves alone

    The objects of [h0], those of the views below, are not in the table and do not
    change. *)
Definition kept (h0 : Heap) (s : VState) : Prop :=
  ∀ p x, h0 !! p = Some x → v_heap s !! p = Some x ∧ ∀ k a, a_items (v_table s) !! k ≠ Some (a, p).

Section kept.
Context (h0 : Heap).
Implicit Types (s : VState) (p : Ptr).

Lemma kept_own s k a p : kept h0 s → a_items (v_table s) !! k = Some (a, p) → h0 !! p = None.
Proof. intros Hk Hi. destruct (h0 !! p) as [x|] eqn:E; [|done]. by destruct (Hk p x E) as [_ Hn]; destruct (Hn k a). Qed.

Lemma kept_heap s p e : kept h0 s → h0 !! p = None → kept h0 (mkState (<[p := e]> (v_heap s)) (v_table s)).
Proof. intros Hk Hp q x Hq. destruct (Hk q x Hq) as [H1 H2]. split; [|done]. simpl. rewrite lookup_insert_ne; [done|congruence]. Qed.

Lemma kept_table s i d :
  kept h0 s → (∀ k a p, i !! k = Some (a, p) → h0 !! p = None) → kept h0 (mkState (v_heap s) (mkTable i d)).
Proof. intros Hk Hi q x Hq. destruct (Hk q x Hq) as [H1 _]. split; [done|]. intros k a E. simpl in E. apply Hi in E. congruence. Qed.

Lemma kept_insert s k a p d :
  kept h0 s → h0 !! p = None → kept h0 (mkState (v_heap s) (mkTable (<[k := (a, p)]> (a_items (v_table s))) d)).
Proof.
  intros Hk Hp. apply kept_table; [done|]. intros j b q [(_ & [= _ <-])|[_ Hj]]%lookup_insert_Some; [done|].
  by eapply kept_own.
Qed.

Lemma fresh_own s : kept h0 s → h0 !! fresh (dom (v_heap s)) = None.
Proof.
  intros Hk. destruct (h0 !! _) as [x|] eqn:E; [|done]. destruct (Hk _ _ E) as [H _].
  pose proof (is_fresh (dom (v_heap s))) as Hf. by apply not_elem_of_dom in Hf; rewrite H in Hf.
Qed.

Lemma kept_make_shared s e p s' : kept h0 s → make_shared e s = inr (p, s') → kept h0 s' ∧ h0 !! p = None.
Proof.
  intros Hk [= <- <-]. pose proof (fresh_own s Hk). split; [by apply kept_heap|done].
Qed.

Lemma kept_set s p f s' : kept h0 s → h0 !! p = None → set_sle p f s = inr ((), s') → kept h0 s'.
Proof. unfold set_sle. intros Hk Hp. destruct (v_heap s !! p); [|done]. intros [= <-]. by apply kept_heap. Qed.

Lemma kept_peek base s k o s' :
  kept h0 s → peek base k s = inr (o, s') → kept h0 s' ∧ ∀ p, o = Some p → h0 !! p = None.
Proof.
  unfold peek. intros Hk. destruct (a_items (v_table s) !! k_key k) as [[a p]|] eqn:Hi.
  - pose proof (kept_own _ _ _ _ Hk Hi) as Hp. intros E.
    assert (s' = s ∧ (o = Some p ∨ o = None)) as [-> Ho].
    { destruct a; [|by injection E as <- <-; auto|..]; (destruct (v_heap s !! p) as [x|]; [|done]; injection E as <- <-; destruct (check k x); auto). }
    split; [done|]. intros q ->. by destruct Ho as [[= ->]|].
  - destruct (rv_read base k) as [x|]; [|by intros [= <- <-]]. unfold alloc. intros [= <- <-].
    pose proof (fresh_own s Hk) as Hf. split; [|by intros p [= <-]].
    by apply (kept_insert (mkState _ (v_table s))); [apply kept_heap|].
Qed.

Lemma kept_v_insert s p s' : kept h0 s → h0 !! p = None → v_insert p s = inr ((), s') → kept h0 s'.
Proof.
  unfold v_insert, on_table, insert. intros Hk Hp. destruct (v_heap s !! p) as [x|]; [|done].
  destruct (a_items (v_table s) !! sle_key x) as [[[] q]|]; try done; intros [= <-]; by apply kept_insert.
Qed.

Lemma kept_v_update s p s' : kept h0 s → v_update p s = inr ((), s') → kept h0 s'.
Proof.
  unfold v_update, on_table, update. intros Hk. destruct (v_heap s !! p) as [x|]; [|done].
  destruct (a_items (v_table s) !! sle_key x) as [[a q]|] eqn:Hi; [|done]. pose proof (kept_own _ _ _ _ Hk Hi).
  case_bool_decide; [|done]. simpl. destruct a; try done; intros [= <-]; [by apply kept_insert|by destruct s as [? []]..].
Qed.

Lemma kept_v_erase s p s' : kept h0 s → v_erase p s = inr ((), s') → kept h0 s'.
Proof.
  unfold v_erase, on_table, erase. intros Hk. destruct (v_heap s !! p) as [x|]; [|done].
  destruct (a_items (v_table s) !! sle_key x) as [[a q]|] eqn:Hi; [|done]. pose proof (kept_own _ _ _ _ Hk Hi).
  case_bool_decide; [|done]. simpl. destruct a; try done; intros [= <-]; try by apply kept_insert.
  apply kept_table; [done|]. intros j b r [_ Hj]%lookup_delete_Some. by eapply kept_own.
Qed.

Lemma kept_view_op base op s s' : kept h0 s → view_op base op s = inr ((), s') → kept h0 s'.
Proof.
  intros Hk. destruct op as [k|key f|e|key]; simpl; intros (o & s1 & E1 & E)%bind_inv.
  - injection E as ->. by eapply kept_peek.
  - destruct (kept_peek _ _ _ _ _ Hk E1) as [Hk1 Ho]. destruct o as [p|]; [|by injection E as ->].
    apply bind_inv in E as ([] & s2 & E2 & E). eapply kept_v_update, E. eapply kept_set, E2; auto.
  - destruct (kept_make_shared _ _ _ _ Hk E1) as [Hk1 Ho]. by eapply kept_v_insert.
  - destruct (kept_peek _ _ _ _ _ Hk E1) as [Hk1 Ho]. destruct o as [p|]; [|by injection E as ->].
    by eapply kept_v_erase.
Qed.

Lemma kept_view_run base ops : ∀ s s', kept h0 s → view_run base ops s = inr ((), s') → kept h0 s'.
Proof.
  induction ops as [|op ops IH]; intros s s' Hk; simpl; [by intros [= <-]|].
  intros ([] & s1 & E1 & E)%bind_inv. eapply IH, E. by eapply kept_view_op.
Qed.

Lemma kept_new : kept h0 (mkState h0 empty_apply_table).
Proof. intros p x Hp. split; [done|]. intros k a H. simpl in H. by rewrite lookup_empty in H. Qed.

(** The views below stand for the same states. *)
Lemma kept_table_holds s m0 t M : kept h0 s → table_holds m0 h0 t M → table_holds m0 (v_heap s) t M.
Proof.
  intros Hk Hh. pose proof Hh as [Ht _].
  assert (∀ k a p, a_items t !! k = Some (a, p) → v_heap s !! p = h0 !! p) as Hsame.
  { intros k a p Hi. destruct (Ht _ _ _ Hi) as [(x & Hx & _) _]. simpl in Hx. rewrite Hx. by apply Hk. }
  apply holds_intro; simpl.
  - intros k a p Hi. rewrite (Hsame k a p Hi). apply (Ht _ _ _ Hi).
  - intros k. rewrite (holds_lookup _ _ _ _ Hh). simpl. destruct (a_items t !! k) as [[a p]|] eqn:Hi; [|done].
    by rewrite (Hsame k a p Hi).
Qed.

Lemma kept_open_holds s m0 v M : kept h0 s → open_holds m0 h0 v M → open_holds m0 (v_heap s) v M.
Proof.
  intros Hk [Hv <-].
  assert (∀ k a p, r_items (o_items v) !! k = Some (a, p) → v_heap s !! p = h0 !! p) as Hsame.
  { intros k a p Hi. destruct (Hv _ _ _ Hi) as [(x & Hx & _) _]. rewrite Hx. by apply Hk. }
  split.
  - intros k a p Hi. rewrite (Hsame k a p Hi). apply (Hv _ _ _ Hi).
  - apply map_eq. intros k. rewrite !lookup_overlay. destruct (r_items (o_items v) !! k) as [[a p]|] eqn:Hi; [|done].
    simpl. unfold entry_of. simpl. by rewrite (Hsame k a p Hi).
Qed.
End kept.

(** The pointers a table gets from another. *)
Lemma kept_apply_loop h0 h l : ∀ t t',
  kept h0 (mkState h t) → (∀ k a p, (k, (a, p)) ∈ l → h0 !! p = None) →
  apply_loop h l t = inr t' → kept h0 (mkState h t').
Proof.
  induction l as [|[k [a p]] l IH]; intros t t' Hk Hl; simpl; [by intros [= <-]|].
  assert (h0 !! p = None) as Hp by (eapply (Hl k a p), list_elem_of_here).
  assert (∀ k' a' p', (k', (a', p')) ∈ l → h0 !! p' = None) as Hl' by (intros ? ? ? Hin; eapply Hl, list_elem_of_further, Hin).
  assert (∀ t1, match a with
     | act_cache => inr t | act_erase => rawErase h p t | act_insert => rawInsert h p t | act_modify => rawReplace h p t
     end = inr t1 → kept h0 (mkState h t1)) as Hstep.
  { intros t1. destruct a; simpl; [by intros [= <-]|unfold rawErase_|unfold insert|unfold replace];
      (destruct (h !! p) as [x|]; [|done]; destruct (a_items t !! sle_key x) as [[[] q]|] eqn:Hi; try done; intros [= <-];
       first [by apply (kept_insert _ (mkState h t))|
              apply (kept_table _ (mkState h t)); [done|]; intros j b r [_ Hj]%lookup_delete_Some;
              by apply (kept_own _ (mkState h t) _ _ _ Hk Hj)]). }
  destruct (match a with act_cache => _ | _ => _ end) as [|t1] eqn:E; [done|]. eauto.
Qed.

Lemma kept_apply h0 s t t' :
  kept h0 s → kept h0 (mkState (v_heap s) t) → apply (v_heap s) (v_table s) t = inr t' →
  kept h0 (mkState (v_heap s) t').
Proof.
  intros Hk Ht. unfold apply. apply kept_apply_loop.
  - exact Ht.
  - intros k a p Hin%elem_of_in_order. exact (kept_own h0 s k a p Hk Hin).
Qed.

(** ** Claims *)

(** An open view refines a map.  Over a base that shows a state, any run of
    erasures, insertions and replacements that makes sense on that state raises no
    error, and the view then shows the state after the run: lookups with their
    type check, existence, the next key up to a limit and iteration from the start
    or from a key, which all return; and the fees destroyed add up. *)
Theorem open_view_refines base m h ops m' :
  shows base m → shows_sles base m → raw_run_spec h ops m = Some m' →
  ∃ v, raw_run h ops new_open_view = inr v ∧
    shows (open_view h base v) m' ∧ shows_sles (open_view h base v) m' ∧
    (∀ key last, RawStateTable.succ base (o_items v) key last = Some (succ_key m' key last)) ∧
    sles h base (o_items v) = Some (in_order m').*2 ∧
    r_dropsDestroyed (o_items v) = sumZ destroyed ops.
Proof.
  intros Hb Hs Hrun. assert (keys_ok m) as Hm by exact (shows_keys _ _ Hb).
  assert (open_holds m h new_open_view m) as H0.
  { split; [intros k a p H; simpl in H; by rewrite lookup_empty in H|]. apply map_eq. intros k.
    rewrite lookup_overlay. simpl. by rewrite lookup_empty. }
  destruct (@raw_run_spec_holds _ _ (open_store m) h ops new_open_view m m' H0 Hrun) as (v & E & [Hv <-] & Hd).
  exists v. split; [done|]. split; [by apply open_view_shows|].
  destruct (sles_spec h m Hm base (o_items v) Hs Hv) as [E1 E2].
  split; [|split; [|split; [done|done]]].
  - constructor; simpl; [by rewrite E1|]. intros k. by rewrite E2.
  - intros key last. by apply raw_succ_spec.
Qed.

(** A view that changes entries in place refines a map.  Over a base that shows
    a state, looking at entries, changing them through the pointer [peek] gives
    and then calling [update], creating and erasing them raises no error and
    makes the view show the changed state, while nothing that existed before the
    view is touched. *)
Theorem apply_view_refines base m h ops m' :
  shows base m → Forall view_op_ok ops → view_run_spec ops m = Some m' →
  ∃ s, view_run base ops (mkState h empty_apply_table) = inr ((), s) ∧
    shows (apply_view base s) m' ∧
    (∀ key last, succ base (v_table s) key last = Some (succ_key m' key last)) ∧
    (∀ p x, h !! p = Some x → v_heap s !! p = Some x).
Proof.
  intros Hb Hok Hrun. assert (keys_ok m) as Hm by exact (shows_keys _ _ Hb).
  destruct (view_run_holds m base ops (mkState h empty_apply_table) m m' Hm Hb (new_view_holds h m) Hok Hrun) as (s & E & Hh).
  exists s. split; [done|]. split; [by eapply apply_view_shows|]. split.
  - by apply (apply_succ_spec m base Hb s m' Hh).
  - intros p x Hp. by apply (kept_view_run h base ops _ _ (kept_new h) E).
Qed.

(** C7: Changes reach the view below.  An apply view over an open view works, hands
    over to a sandbox on top of it, gets the sandbox's changes back by [apply], goes
    on and at last writes everything to the open view: each step sees the state
    the steps before it made, no error is raised, and the open view finally shows
    exactly the state after all steps, iteration included. *)
Theorem views_commit base0 m0 h0 v m ops1 ops2 ops3 m1 m2 m3 :
  shows base0 m0 → shows_sles base0 m0 → open_holds m0 h0 v m →
  Forall view_op_ok ops1 → Forall view_op_ok ops2 → Forall view_op_ok ops3 →
  view_run_spec ops1 m = Some m1 → view_run_spec ops2 m1 = Some m2 → view_run_spec ops3 m2 = Some m3 →
  let below := open_view h0 base0 v in
  ∃ s1 s2 t s3 v',
    view_run below ops1 (mkState h0 empty_apply_table) = inr ((), s1) ∧
    view_run (apply_view below s1) ops2 (mkState (v_heap s1) empty_apply_table) = inr ((), s2) ∧
    shows (apply_view (apply_view below s1) s2) m2 ∧
    apply (v_heap s2) (v_table s2) (v_table s1) = inr t ∧
    shows (apply_view below (mkState (v_heap s2) t)) m2 ∧
    view_run below ops3 (mkState (v_heap s2) t) = inr ((), s3) ∧
    apply (v_heap s3) (v_table s3) v = inr v' ∧
    shows (open_view (v_heap s3) base0 v') m3 ∧ shows_sles (open_view (v_heap s3) base0 v') m3 ∧
    r_dropsDestroyed (o_items v') = r_dropsDestroyed (o_items v) + a_dropsDestroyed (v_table s3).
Proof.
  intros Hb0 Hs0 Hv Hok1 Hok2 Hok3 R1 R2 R3 below. assert (keys_ok m0) as Hm0 by exact (shows_keys _ _ Hb0).
  assert (shows below m) as Hb by (destruct Hv as [Hv <-]; by apply open_view_shows).
  assert (keys_ok m) as Hm by exact (shows_keys _ _ Hb).
  destruct (view_run_holds m below ops1 (mkState h0 empty_apply_table) m m1 Hm Hb (new_view_holds h0 m) Hok1 R1) as (s1 & E1 & H1).
  pose proof (kept_view_run h0 below ops1 _ _ (kept_new h0) E1) as K1.
  pose proof (apply_view_shows m Hm below Hb s1 m1 H1) as Hb1. assert (keys_ok m1) as Hm1 by exact (shows_keys _ _ Hb1).
  destruct (view_run_holds m1 (apply_view below s1) ops2 (mkState (v_heap s1) empty_apply_table) m1 m2 Hm1 Hb1
    (new_view_holds _ m1) Hok2 R2) as (s2 & E2 & H2).
  pose proof (kept_view_run (v_heap s1) _ ops2 _ _ (kept_new _) E2) as K2.
  assert (kept h0 (mkState (v_heap s1) empty_apply_table)) as K1'.
  { intros p x Hp. split; [by apply K1|]. intros k a H. simpl in H. by rewrite lookup_empty in H. }
  pose proof (kept_view_run h0 _ ops2 _ _ K1' E2) as K2'.
  assert (table_holds m (v_heap s2) (v_table s1) m1) as H1'.
  { apply (kept_table_holds (v_heap s1)); [done|]. by destruct s1. }
  destruct (@table_apply_spec _ _ (table_store m) (v_heap s2) (v_table s2) (v_table s1) m1) as (t & Et & Ht & _);
    [apply H2|done|]. simpl in Ht. rewrite (proj2 H2) in Ht.
  assert (kept h0 (mkState (v_heap s2) t)) as Kt.
  { eapply kept_apply; [exact K2'| |exact Et]. intros p x Hp. split; [by apply K2'|]. by apply K1 in Hp as [_ Hp]. }
  destruct (view_run_holds m below ops3 (mkState (v_heap s2) t) m2 m3 Hm Hb Ht Hok3 R3) as (s3 & E3 & H3).
  pose proof (kept_view_run h0 below ops3 _ _ Kt E3) as K3.
  destruct (@table_apply_spec _ _ (open_store m0) (v_heap s3) (v_table s3) v m) as (v' & Ev & Hv' & Hd);
    [apply H3|by eapply kept_open_holds|]. simpl in Hv', Hd. rewrite (proj2 H3) in Hv'.
  exists s1, s2, t, s3, v'. split_and!; try done.
  - by apply (apply_view_shows m1).
  - by apply (apply_view_shows m).
  - destruct Hv' as [Hv' <-]. by apply open_view_shows.
  - destruct Hv' as [Hv' <-]. destruct (sles_spec (v_heap s3) m0 Hm0 base0 (o_items v') Hs0 Hv') as [F1 F2].
    constructor; simpl; [by rewrite F1|]. intros k. by rewrite F2.
Qed.

(** ** Witnesses *)
Lemma map_view_shows m : keys_ok m → shows (map_view m) m ∧ shows_sles (map_view m) m.
Proof. intros Hm. by split; constructor. Qed.

Definition sample_entry (k : Z) : SLE := mkSLE k ltACCOUNT_ROOT ∅ ∅ ∅ ∅.
Definition sample_state : gmap Z SLE := list_to_map (map (λ k, (k, sample_entry k)) [3; 5; 9]).
Definition sample_entries : Heap := <[1%positive := sample_entry 5]> (<[2%positive := sample_entry 7]> ∅).

Lemma sample_state_keys : keys_ok sample_state.
Proof. intros k s H. apply elem_of_list_to_map_2, list_elem_of_fmap in H as (j & [= -> ->] & _). done. Qed.

Lemma open_view_refines_witness :
  ∃ v, raw_run sample_entries [OErase 1; OInsert 2; ODestroy 10] new_open_view = inr v ∧
    map sle_key (rv_sles (open_view sample_entries (map_view sample_state) v)) = [3; 7; 9] ∧
    rv_succ (open_view sample_entries (map_view sample_state) v) 3 None = Some 7.
Proof.
  destruct (map_view_shows _ sample_state_keys) as [Hb Hs].
  destruct (open_view_refines (map_view sample_state) sample_state sample_entries [OErase 1; OInsert 2; ODestroy 10]
    (<[7 := sample_entry 7]> (delete 5 sample_state)) Hb Hs) as (v & E & H1 & H2 & _).
  - vm_compute. reflexivity.
  - exists v. split; [exact E|]. split.
    + rewrite (shows_begin _ _ H2). vm_compute. reflexivity.
    + rewrite (shows_succ _ _ H1). vm_compute. reflexivity.
Defined.

Definition sample_view_ops : list ViewOp :=
  [VChange 9 (setFieldU64 sfIndexNext 4); VCreate (sample_entry 8); VPeek (unchecked 3); VDelete 5].

Lemma sample_view_ops_ok : Forall view_op_ok sample_view_ops.
Proof. by repeat constructor. Qed.

Lemma apply_view_refines_witness :
  ∃ s, view_run (map_view sample_state) sample_view_ops (mkState ∅ empty_apply_table) = inr ((), s) ∧
    rv_read (apply_view (map_view sample_state) s) (unchecked 9) =
      Some (setFieldU64 sfIndexNext 4 (sample_entry 9)) ∧
    rv_succ (apply_view (map_view sample_state) s) 3 None = Some 8.
Proof.
  destruct (map_view_shows _ sample_state_keys) as [Hb _].
  destruct (apply_view_refines (map_view sample_state) sample_state ∅ sample_view_ops
    (delete 5 (<[8 := sample_entry 8]> (alter (setFieldU64 sfIndexNext 4) 9 sample_state))) Hb sample_view_ops_ok)
    as (s & E & H & _).
  - vm_compute. reflexivity.
  - exists s. split; [exact E|]. split.
    + rewrite (shows_read _ _ H). vm_compute. reflexivity.
    + rewrite (shows_succ _ _ H). vm_compute. reflexivity.
Defined.

Lemma views_commit_witness :
  ∃ s1 s2 t s3 v', let below := open_view ∅ (map_view sample_state) new_open_view in
    view_run below sample_view_ops (mkState ∅ empty_apply_table) = inr ((), s1) ∧
    view_run (apply_view below s1) [VCreate (sample_entry 5)] (mkState (v_heap s1) empty_apply_table) = inr ((), s2) ∧
    apply (v_heap s2) (v_table s2) (v_table s1) = inr t ∧
    view_run below [VDelete 3] (mkState (v_heap s2) t) = inr ((), s3) ∧
    apply (v_heap s3) (v_table s3) new_open_view = inr v' ∧
    map sle_key (rv_sles (open_view (v_heap s3) (map_view sample_state) v')) = [5; 8; 9].
Proof.
  destruct (map_view_shows _ sample_state_keys) as [Hb Hs].
  destruct (views_commit (map_view sample_state) sample_state ∅ new_open_view sample_state sample_view_ops
    [VCreate (sample_entry 5)] [VDelete 3]
    (delete 5 (<[8 := sample_entry 8]> (alter (setFieldU64 sfIndexNext 4) 9 sample_state)))
    (<[5 := sample_entry 5]> (delete 5 (<[8 := sample_entry 8]> (alter (setFieldU64 sfIndexNext 4) 9 sample_state))))
    (delete 3 (<[5 := sample_entry 5]> (delete 5 (<[8 := sample_entry 8]> (alter (setFieldU64 sfIndexNext 4) 9 sample_state))))) Hb Hs)
    as (s1 & s2 & t & s3 & v' & E1 & E2 & _ & E3 & _ & E4 & E5 & _ & H & _).
  - split; [intros k a p H; simpl in H; by rewrite lookup_empty in H|]. vm_compute. reflexivity.
  - exact sample_view_ops_ok.
  - by repeat constructor.
  - by repeat constructor.
  - vm_compute. reflexivity.
  - vm_compute. reflexivity.
  - vm_compute. reflexivity.
  - exists s1, s2, t, s3, v'. split; [exact E1|]. split; [exact E2|]. split; [exact E3|]. split; [exact E4|].
    split; [exact E5|]. rewrite (shows_begin _ _ H). vm_compute. reflexivity.
Defined.
