(* ===== verification/Directory.v ===== *)
(** * Directories

    src/src/ripple/ledger/impl/ApplyView.cpp ([dirAdd], [dirRemove]), the directory
    functions of impl/View.cpp and the iterator of impl/Directory.cpp: a directory
    is a list of keys, kept in pages of up to 32 that are entries of the ledger
    linked in a ring from the root page.

    [page_hash] stands for the hash of the name space, the root key and the page
    number that names a page.  A callback [describe] is the change it makes to the
    entry it is given.  The end of the iterator of Directory.cpp, an index of zero,
    is [None]; a directory is taken to have no entry with the key zero. *)

From stdpp Require Import prelude gmap strings sorting.
From Stdlib Require Import ZArith Lia.
From S2P Require Import Prelude.
From S2P Require Import LedgerEntry.
From S2P Require Import RawStateTable.
From S2P Require Import ApplyStateTable.

Definition dirNodeMaxEntries : Z := 32.
Definition dirNodeMaxPages : Z := 262144.

(** [std::lower_bound] and [insert] in a sorted vector. *)
Fixpoint insert_lower (key : Z) (l : list Z) : list Z :=
  match l with
  | [] => [key]
  | x :: l => if x <? key then x :: insert_lower key l else key :: x :: l
  end.
(** [std::find] and [erase]. *)
Fixpoint erase_first (key : Z) (l : list Z) : list Z :=
  match l with
  | [] => []
  | x :: l => if x =? key then l else x :: erase_first key l
  end.

Section directory.
  Variable page_hash : Z → Z → Z.

Definition getDirNodeIndex (uDirRoot uNodeIndex : Z) : Z :=
  if uNodeIndex =? 0 then uDirRoot else page_hash uDirRoot uNodeIndex.
(** [keylet::page] *)
Definition page (root : Z) (index : Z) : Keylet := mkKeylet ltDIR_NODE (getDirNodeIndex root index).

Section changes.
  Variable base : ReadView.

(** The pointer, or the error where there is none. *)
Definition require (o : option Ptr) (e : string) : View Ptr :=
  match o with None => logic_error e | Some p => mret p end.
Definition change (p : Ptr) (f : SLE → SLE) : View () := _ ← set_sle p f; v_update p.

(** The entries of a page with the new key in its place. *)
Definition place_key (preserveOrder : bool) (key : Z) (indexes : list Z) : View (list Z) :=
  if bool_decide (key ∈ indexes) then logic_error "dirInsert: double insertion"
  else mret (if preserveOrder then indexes ++ [key] else insert_lower key (merge_sort Z.le indexes)).

(** [ApplyView::dirAdd]: the page the key went to, or none. *)
Definition dirAdd (preserveOrder : bool) (directory : Keylet) (key : Z) (describe : SLE → SLE) :
    View (option Z) :=
  root ← peek base directory;
  match root with
  | None =>
      root ← make_shared (new_sle directory);
      _ ← set_sle root (setFieldH256 sfRootIndex (k_key directory));
      _ ← set_sle root describe;
      _ ← set_sle root (setFieldV256 sfIndexes [key]);
      _ ← v_insert root;
      mret (Some 0)
  | Some root =>
      sle ← deref root;
      let pg := getFieldU64 sfIndexPrevious sle in
      node ← (if pg =? 0 then mret root
              else o ← peek base (page (k_key directory) pg);
                   require o "Directory chain: root back-pointer broken.");
      sle ← deref node;
      let indexes := getFieldV256 sfIndexes sle in
      if Z.of_nat (length indexes) <? dirNodeMaxEntries
      then
        indexes ← place_key preserveOrder key indexes;
        _ ← change node (setFieldV256 sfIndexes indexes);
        mret (Some pg)
      else
        let pg := u64 (pg + 1) in
        if dirNodeMaxPages <=? pg then mret None
        else
          _ ← change node (setFieldU64 sfIndexNext pg);
          _ ← change root (setFieldU64 sfIndexPrevious pg);
          node ← make_shared (new_sle (page (k_key directory) pg));
          _ ← set_sle node (setFieldH256 sfRootIndex (k_key directory));
          _ ← set_sle node (setFieldV256 sfIndexes [key]);
          _ ← (if pg =? 1 then mret () else set_sle node (setFieldU64 sfIndexPrevious (pg - 1)));
          _ ← set_sle node describe;
          _ ← v_insert node;
          mret (Some pg)
  end.

(** The root page lost its last entry. *)
Definition remove_root (directory : Keylet) (node : Ptr) (keepRoot : bool) (prevPage nextPage : Z) : View bool :=
  if (nextPage =? 0) && negb (prevPage =? 0) then logic_error "Directory chain: fwd link broken"
  else if (prevPage =? 0) && negb (nextPage =? 0) then logic_error "Directory chain: rev link broken"
  else
    links ← (if (nextPage =? prevPage) && negb (nextPage =? 0)
             then
               o ← peek base (page (k_key directory) nextPage);
               last ← require o "Directory chain: fwd link broken.";
               sle ← deref last;
               match getFieldV256 sfIndexes sle with
               | [] =>
                   _ ← set_sle node (setFieldU64 sfIndexNext 0);
                   _ ← change node (setFieldU64 sfIndexPrevious 0);
                   _ ← v_erase last;
                   mret (0, 0)
               | _ => mret (prevPage, nextPage)
               end
             else mret (prevPage, nextPage));
    if keepRoot then mret true
    else
      _ ← (if (links.2 =? 0) && (links.1 =? 0) then v_erase node else mret ());
      mret true.

(** Another page lost its last entry. *)
Definition remove_page (directory : Keylet) (pg : Z) (node : Ptr) (keepRoot : bool) (prevPage nextPage : Z) : View bool :=
  if nextPage =? pg then logic_error "Directory chain: fwd link broken"
  else if prevPage =? pg then logic_error "Directory chain: rev link broken"
  else
    o ← peek base (page (k_key directory) prevPage);
    prev ← require o "Directory chain: fwd link broken.";
    _ ← change prev (setFieldU64 sfIndexNext nextPage);
    o ← peek base (page (k_key directory) nextPage);
    next ← require o "Directory chain: rev link broken.";
    _ ← change next (setFieldU64 sfIndexPrevious prevPage);
    _ ← v_erase node;
    sle ← deref next;
    nextPage ← (if negb (nextPage =? 0) && (getFieldU64 sfIndexNext sle =? 0) &&
                   bool_decide (getFieldV256 sfIndexes sle = [])
                then
                  _ ← v_erase next;
                  _ ← change prev (setFieldU64 sfIndexNext 0);
                  o ← peek base (page (k_key directory) 0);
                  root ← require o "Directory chain: root link broken.";
                  _ ← change root (setFieldU64 sfIndexPrevious prevPage);
                  mret 0
                else mret nextPage);
    _ ← (if negb keepRoot && (nextPage =? 0) && (prevPage =? 0)
         then sle ← deref prev;
              match getFieldV256 sfIndexes sle with
              | [] => v_erase prev
              | _ => mret ()
              end
         else mret ());
    mret true.

(** [ApplyView::dirRemove] *)
Definition dirRemove (directory : Keylet) (pg key : Z) (keepRoot : bool) : View bool :=
  o ← peek base (page (k_key directory) pg);
  match o with
  | None => mret false
  | Some node =>
      sle ← deref node;
      let entries := getFieldV256 sfIndexes sle in
      if negb (bool_decide (key ∈ entries)) then mret false
      else
        let entries := erase_first key entries in
        _ ← change node (setFieldV256 sfIndexes entries);
        match entries with
        | _ :: _ => mret true
        | [] =>
            sle ← deref node;
            let prevPage := getFieldU64 sfIndexPrevious sle in
            let nextPage := getFieldU64 sfIndexNext sle in
            if pg =? 0 then remove_root directory node keepRoot prevPage nextPage
            else remove_page directory pg node keepRoot prevPage nextPage
        end
  end.

(** [dirAdd] of View.cpp: what it does without the sorted directories. *)
Definition dirAdd_unsorted (dir : Keylet) (uLedgerIndex : Z) (fDescriber : SLE → SLE) : View (option Z) :=
  sleRoot ← peek base dir;
  match sleRoot with
  | None =>
      sleRoot ← make_shared (new_sle dir);
      _ ← set_sle sleRoot (setFieldH256 sfRootIndex (k_key dir));
      _ ← v_insert sleRoot;
      _ ← set_sle sleRoot fDescriber;
      _ ← set_sle sleRoot (setFieldV256 sfIndexes [uLedgerIndex]);
      mret (Some 0)
  | Some sleRoot =>
      sle ← deref sleRoot;
      let uNodeDir := getFieldU64 sfIndexPrevious sle in
      sleNode ← (if uNodeDir =? 0 then mret sleRoot
                 else o ← peek base (page (k_key dir) uNodeDir); require o dangling);
      sle ← deref sleNode;
      let svIndexes := getFieldV256 sfIndexes sle in
      if negb (Z.of_nat (length svIndexes) =? dirNodeMaxEntries)
      then
        _ ← v_update sleNode;
        _ ← set_sle sleNode (setFieldV256 sfIndexes (svIndexes ++ [uLedgerIndex]));
        mret (Some uNodeDir)
      else
        let uNodeDir := u64 (uNodeDir + 1) in
        if uNodeDir =? 0 then mret None
        else
          _ ← change sleNode (setFieldU64 sfIndexNext uNodeDir);
          _ ← change sleRoot (setFieldU64 sfIndexPrevious uNodeDir);
          sleNode ← make_shared (new_sle (page (k_key dir) uNodeDir));
          _ ← set_sle sleNode (setFieldH256 sfRootIndex (k_key dir));
          _ ← v_insert sleNode;
          _ ← (if uNodeDir =? 1 then mret () else set_sle sleNode (setFieldU64 sfIndexPrevious (uNodeDir - 1)));
          _ ← set_sle sleNode fDescriber;
          _ ← set_sle sleNode (setFieldV256 sfIndexes [uLedgerIndex]);
          mret (Some uNodeDir)
  end.
End changes.

(** ** Reading *)
Section reading.
  Variable view : ReadView.

Definition dirIsEmpty (k : Keylet) : bool :=
  match rv_read view k with
  | None => true
  | Some sle =>
      match getFieldV256 sfIndexes sle with
      | _ :: _ => false
      | [] => getFieldU64 sfIndexNext sle =? 0
      end
  end.

(** The loop of [forEachItem] over the pages from [pos] on: the keys it visits. *)
Fixpoint forEachItem_loop (fuel : nat) (root : Z) (pos : Keylet) : option (list Z) :=
  match fuel with
  | O => None
  | S fuel =>
      match rv_read view pos with
      | None => Some []
      | Some sle =>
          let next := getFieldU64 sfIndexNext sle in
          if next =? 0 then Some (getFieldV256 sfIndexes sle)
          else (app (getFieldV256 sfIndexes sle)) <$> forEachItem_loop fuel root (page root next)
      end
  end.
(** As many pages as there can be. *)
Definition pages_fuel : nat := Z.to_nat 262145.
Definition forEachItem (root : Keylet) : option (list Z) := forEachItem_loop pages_fuel (k_key root) root.

(** [cdirNext]: the page, the index in it and the entry, or none at the end. *)
Fixpoint cdirNext (fuel : nat) (uRootIndex : Z) (sleNode : SLE) (uDirEntry : nat) :
    option (option (SLE * nat * Z)) :=
  match fuel with
  | O => None
  | S fuel =>
      match getFieldV256 sfIndexes sleNode !! uDirEntry with
      | Some entry => Some (Some (sleNode, S uDirEntry, entry))
      | None =>
          let uNodeNext := getFieldU64 sfIndexNext sleNode in
          if uNodeNext =? 0 then Some None
          else
            match rv_read view (page uRootIndex uNodeNext) with
            | None => Some None
            | Some sleNext => cdirNext fuel uRootIndex sleNext 0
            end
      end
  end.
Definition cdirFirst (uRootIndex : Z) : option (option (SLE * nat * Z)) :=
  match rv_read view (page uRootIndex 0) with
  | None => None
  | Some sleNode => cdirNext pages_fuel uRootIndex sleNode 0
  end.

(** The iterator of [Dir]: the page and the entries from [it_] on; [None] is the
    end, and an index of zero. *)
Record dir_iter := mkDirIter { d_page : Z; d_sle : SLE; d_rest : list Z }.
Definition dir_begin (root : Keylet) : option dir_iter :=
  match rv_read view root with
  | None => None
  | Some sle =>
      match getFieldV256 sfIndexes sle with
      | [] => None
      | _ => Some (mkDirIter (k_key root) sle (getFieldV256 sfIndexes sle))
      end
  end.
(** [operator++]; the outer [None] is a null pointer, followed. *)
Definition dir_next (root : Keylet) (it : dir_iter) : option (option dir_iter) :=
  match tail (d_rest it) with
  | _ :: _ => Some (Some (mkDirIter (d_page it) (d_sle it) (tail (d_rest it))))
  | [] =>
      let next := getFieldU64 sfIndexNext (d_sle it) in
      if next =? 0 then Some None
      else
        let k := page (k_key root) next in
        match rv_read view k with
        | None => None
        | Some sle => Some (Some (mkDirIter (k_key k) sle (getFieldV256 sfIndexes sle)))
        end
  end.
End reading.
End directory.
