(* ===== verification/DirectorySpec.v ===== *)
(** * Directories as lists of pages

    [is_dir M root pages]: in the state [M] the directory of key [root] has the
    [pages], each a number with its entries, linked in a ring. *)

From stdpp Require Import prelude gmap strings sorting.
From Stdlib Require Import ZArith Lia.
From S2P Require Import Prelude.
From S2P Require Import LedgerEntry.
From S2P Require Import RawStateTable.
From S2P Require Import RawStateSpec.
From S2P Require Import ApplyStateTable.
From S2P Require Import ApplyStateSpec.
From S2P Require Import Directory.

Abbreviation Pages := (list (Z * list Z)).

Section spec.
Context (page_hash : Z → Z → Z) (root : Z).
#[local] Abbreviation idx := (getDirNodeIndex page_hash root).
Definition in_pages (n : Z) : Prop := 0 ≤ n < dirNodeMaxPages.

(** The links of a page. *)
Definition nxt (M : gmap Z SLE) (n : Z) : Z :=
  match M !! idx n with Some e => getFieldU64 sfIndexNext e | None => 0 end.
Definition prv (M : gmap Z SLE) (n : Z) : Z :=
  match M !! idx n with Some e => getFieldU64 sfIndexPrevious e | None => 0 end.

Record is_page (n : Z) (es : list Z) (e : SLE) : Prop := mkIsPage {
  page_key : sle_key e = idx n;
  page_type : getType e = ltDIR_NODE;
  page_root : getFieldH256 sfRootIndex e = root;
  page_entries : getFieldV256 sfIndexes e = es;
}.

(** The first page is the root, page numbers increase, the pages are linked in a
    ring and no other entry has the key of a page. *)
Record is_dir (M : gmap Z SLE) (pages : Pages) : Prop := mkIsDir {
  dir_first : match pages.*1 with [] => True | n :: _ => n = 0 end;
  dir_sorted : StronglySorted Z.lt pages.*1;
  dir_range : Forall in_pages pages.*1;
  dir_page : ∀ n es, (n, es) ∈ pages → ∃ e, M !! idx n = Some e ∧ is_page n es e;
  ring_next : pages ≠ [] → map (nxt M) pages.*1 = tail pages.*1 ++ [0];
  ring_prev : pages ≠ [] → map (prv M) (tail pages.*1 ++ [0]) = pages.*1;
  dir_alone : ∀ n, in_pages n → n ∉ pages.*1 → M !! idx n = None;
}.

(** Pages of one directory have different keys. *)
Context (idx_inj : ∀ i j, in_pages i → in_pages j → idx i = idx j → i = j).

(** Changing pages keeps what is under the other keys. *)
Definition same_elsewhere (M M' : gmap Z SLE) : Prop :=
  ∀ k, (∀ n, in_pages n → k ≠ idx n) → M' !! k = M !! k.

Lemma same_elsewhere_trans M1 M2 M3 :
  same_elsewhere M1 M2 → same_elsewhere M2 M3 → same_elsewhere M1 M3.
Proof. intros H1 H2 k Hk. by rewrite H2, H1. Qed.

Lemma same_elsewhere_insert M n e : in_pages n → same_elsewhere M (<[idx n := e]> M).
Proof. intros Hn k Hk. rewrite lookup_insert_ne; [done|]. intros <-. by eapply Hk. Qed.

Lemma same_elsewhere_delete M n : in_pages n → same_elsewhere M (delete (idx n) M).
Proof. intros Hn k Hk. rewrite lookup_delete_ne; [done|]. intros <-. by eapply Hk. Qed.

Lemma lookup_page_ne (M : gmap Z SLE) n j e :
  in_pages n → in_pages j → n ≠ j → <[idx n := e]> M !! idx j = M !! idx j.
Proof. intros Hn Hj Hne. apply lookup_insert_ne. intros E. by apply Hne, idx_inj. Qed.

Lemma delete_page_ne (M : gmap Z SLE) n j :
  in_pages n → in_pages j → n ≠ j → delete (idx n) M !! idx j = M !! idx j.
Proof. intros Hn Hj Hne. apply lookup_delete_ne. intros E. by apply Hne, idx_inj. Qed.

(** ** Lists of pages *)
Lemma sorted_lt_nodup (l : list Z) : StronglySorted Z.lt l → NoDup l.
Proof.
  induction 1 as [|x l Hs IH Hall]; constructor; [|done]. intros Hx. rewrite Forall_forall in Hall.
  specialize (Hall x Hx). lia.
Qed.

Lemma sorted_lt_app (l l' : list Z) :
  StronglySorted Z.lt (l ++ l') ↔
  StronglySorted Z.lt l ∧ StronglySorted Z.lt l' ∧ (∀ x y, x ∈ l → y ∈ l' → x < y).
Proof.
  induction l as [|a l IH]; simpl.
  - split; [|by intros (_ & H & _)]. intros H. split_and!; [constructor|done|]. by intros x y Hx%not_elem_of_nil.
  - split.
    + intros H. inversion H as [|? ? Hs Hall]; subst. apply IH in Hs as (H1 & H2 & H3).
      apply Forall_app in Hall as [Ha Hb]. split_and!; [by constructor|done|].
      intros x y [->|Hx]%elem_of_cons Hy; [|auto]. rewrite Forall_forall in Hb. auto.
    + intros (H1 & H2 & H3). inversion H1 as [|? ? Hs Hall]; subst. constructor.
      * apply IH. split_and!; [done|done|]. intros x y Hx Hy. apply H3; [by apply list_elem_of_further|done].
      * apply Forall_app. split; [done|]. apply Forall_forall. intros y Hy. apply H3; [apply list_elem_of_here|done].
Qed.

Lemma dir_range_of M pages n es : is_dir M pages → (n, es) ∈ pages → in_pages n.
Proof.
  intros Hd Hin. pose proof (dir_range _ _ Hd) as Hr. rewrite Forall_forall in Hr. apply Hr.
  apply list_elem_of_fmap. by exists (n, es).
Qed.

(** The directory depends on the entries of its pages. *)
Lemma is_dir_ext M M' pages :
  is_dir M pages → (∀ n, in_pages n → M' !! idx n = M !! idx n) → is_dir M' pages.
Proof.
  intros Hd He. pose proof (dir_range _ _ Hd) as Hr.
  assert (∀ n, n ∈ pages.*1 → nxt M' n = nxt M n ∧ prv M' n = prv M n) as Hl.
  { intros n Hn. rewrite Forall_forall in Hr. unfold nxt, prv. by rewrite (He n (Hr n Hn)). }
  destruct Hd as [H1 H2 H3 H4 H5 H6 H7]. constructor; [done|done|done| | | |].
  - intros n es Hin. assert (in_pages n) as Hn.
    { rewrite Forall_forall in Hr. apply Hr, list_elem_of_fmap. by exists (n, es). }
    rewrite (He n Hn). by apply H4.
  - intros Hne. rewrite <- (H5 Hne). apply map_ext_in. intros n Hn%list_elem_of_In. by apply Hl.
  - intros Hne. rewrite <- (H6 Hne) at 2. apply map_ext_in. intros n Hn%list_elem_of_In.
    apply elem_of_app in Hn as [Hn|Hn]; [apply Hl|].
    + destruct pages; [done|]. by apply list_elem_of_further.
    + apply list_elem_of_singleton in Hn as ->. apply Hl. destruct pages as [|[n es] pages]; [done|].
      simpl in H1. subst n. apply list_elem_of_here.
  - intros n Hn Hin. rewrite (He n Hn). by apply H7.
Qed.

(** New entries for a page. *)
Lemma dir_set_entries M l1 n es l2 e es' :
  is_dir M (l1 ++ (n, es) :: l2) → M !! idx n = Some e →
  is_dir (<[idx n := setFieldV256 sfIndexes es' e]> M) (l1 ++ (n, es') :: l2).
Proof.
  intros Hd He. set (pages := l1 ++ (n, es) :: l2) in *. set (pages' := l1 ++ (n, es') :: l2).
  assert (pages'.*1 = pages.*1) as Ens by (unfold pages, pages'; by rewrite !fmap_app).
  assert (in_pages n) as Hn by (apply (dir_range_of M pages n es Hd); unfold pages; set_solver).
  destruct (dir_page _ _ Hd n es) as (e0 & He0 & [K1 K2 K3 K4]); [unfold pages; set_solver|].
  assert (e0 = e) as -> by congruence.
  set (M' := <[idx n := setFieldV256 sfIndexes es' e]> M).
  assert (∀ j, in_pages j → nxt M' j = nxt M j ∧ prv M' j = prv M j) as Hl.
  { intros j Hj. unfold nxt, prv, M'. destruct (decide (n = j)) as [<-|Hne].
    - rewrite lookup_insert_eq, He. done.
    - by rewrite lookup_page_ne. }
  assert (∀ j, j ∈ pages.*1 → in_pages j) as Hr by (apply Forall_forall, (dir_range _ _ Hd)).
  assert (NoDup pages.*1) as Hnd by apply sorted_lt_nodup, (dir_sorted _ _ Hd).
  constructor; rewrite ?Ens; [apply Hd..| | | |].
  - intros j ejs Hin. destruct (decide (n = j)) as [<-|Hne].
    + unfold M'. rewrite lookup_insert_eq. eexists. split; [done|]. unfold pages', pages in *.
      rewrite fmap_app, fmap_cons in Hnd. apply NoDup_app in Hnd as (_ & Hn1 & Hn2). apply NoDup_cons in Hn2 as [Hn2 _].
      assert (ejs = es') as ->.
      { apply elem_of_app in Hin as [Hin|[[= ->]|Hin]%elem_of_cons]; [|done|].
        - exfalso. apply (Hn1 n); [apply list_elem_of_fmap; by exists (n, ejs)|apply list_elem_of_here].
        - exfalso. apply Hn2, list_elem_of_fmap. by exists (n, ejs). }
      split; simpl; [done..|]. unfold getFieldV256. simpl. by rewrite lookup_insert_eq.
    + assert ((j, ejs) ∈ pages) as Hin' by (unfold pages, pages' in *; set_solver).
      unfold M'. rewrite lookup_page_ne; [by apply (dir_page _ _ Hd)|done| |done]. by eapply dir_range_of.
  - intros _. rewrite <- (ring_next _ _ Hd) by (unfold pages; by destruct l1). apply map_ext_in.
    intros j Hj%list_elem_of_In. by apply Hl, Hr.
  - intros _. rewrite <- (ring_prev _ _ Hd) at 2 by (unfold pages; by destruct l1). apply map_ext_in.
    intros j Hj%list_elem_of_In. apply Hl. apply elem_of_app in Hj as [Hj|Hj].
    + apply Hr. destruct pages.*1; [by apply not_elem_of_nil in Hj|]. by apply list_elem_of_further.
    + apply list_elem_of_singleton in Hj as ->. unfold in_pages, dirNodeMaxPages. lia.
  - intros j Hj Hnin. assert (n ≠ j) as Hne.
    { intros <-. apply Hnin. unfold pages. rewrite fmap_app. set_solver. }
    unfold M'. rewrite lookup_page_ne by done. by apply (dir_alone _ _ Hd).
Qed.

(** The pages of a state, without their links. *)
Definition has_pages (M : gmap Z SLE) (pages : Pages) : Prop :=
  ∀ n es, (n, es) ∈ pages → ∃ e, M !! idx n = Some e ∧ is_page n es e.

Lemma tail_snoc {A} (l : list A) x y : tail (l ++ [x] ++ [y]) = tail (l ++ [x]) ++ [y].
Proof. destruct l; simpl; [done|]. by rewrite <- app_assoc. Qed.

Lemma length_tail_snoc {A} (l : list A) x : length (tail (l ++ [x])) = length l.
Proof. destruct l; simpl; [done|]. rewrite length_app. simpl. lia. Qed.

(** A page after the last. *)
Lemma dir_append M M' l n es n' es' :
  is_dir M (l ++ [(n, es)]) → n < n' → in_pages n' →
  nxt M' n = n' → nxt M' n' = 0 → (∀ j, j ∈ l.*1 → nxt M' j = nxt M j) →
  prv M' 0 = n' → prv M' n' = n → (∀ j, j ∈ tail (l.*1 ++ [n]) → prv M' j = prv M j) →
  has_pages M' (l ++ [(n, es)] ++ [(n', es')]) →
  (∀ j, in_pages j → j ∉ l.*1 ++ [n] ++ [n'] → M' !! idx j = M !! idx j) →
  is_dir M' (l ++ [(n, es)] ++ [(n', es')]).
Proof.
  intros Hd Hlt Hn' N1 N2 N3 P1 P2 P3 Hp Ha.
  pose proof (dir_first _ _ Hd) as D1. pose proof (dir_sorted _ _ Hd) as D2. pose proof (dir_range _ _ Hd) as D3.
  assert (l ++ [(n, es)] ≠ []) as Hne by by destruct l.
  pose proof (ring_next _ _ Hd Hne) as D5. pose proof (ring_prev _ _ Hd Hne) as D6.
  assert ((l ++ [(n, es)] ++ [(n', es')]).*1 = l.*1 ++ [n] ++ [n']) as Ens by by rewrite !fmap_app.
  rewrite fmap_app in D1, D2, D3, D5, D6. simpl in D1, D2, D3, D5, D6.
  constructor; rewrite ?Ens.
  - by destruct l.
  - apply sorted_lt_app in D2 as (S1 & _ & S3). apply sorted_lt_app. split; [done|]. split; [repeat constructor; lia|].
    intros x y Hx [->|[->|Hy%not_elem_of_nil]%elem_of_cons]%elem_of_cons; [| |done].
    + apply S3; [done|set_solver].
    + assert (x < n) by (apply S3; [done|set_solver]). lia.
  - rewrite app_assoc. apply Forall_app. split; [done|]. by constructor.
  - done.
  - intros _. rewrite tail_snoc, !map_app. simpl. rewrite N1, N2.
    rewrite map_app in D5. simpl in D5. apply app_inj_tail in D5 as [D5 _].
    rewrite <- D5. rewrite <- app_assoc. simpl. f_equal. apply map_ext_in. intros j Hj%list_elem_of_In. by apply N3.
  - intros _. rewrite tail_snoc, !map_app. simpl. rewrite P1, P2.
    rewrite map_app in D6. simpl in D6. apply app_inj_tail in D6 as [D6 _].
    assert (map (prv M') (tail (l.*1 ++ [n])) = map (prv M) (tail (l.*1 ++ [n]))) as ->.
    { apply map_ext_in. intros j Hj%list_elem_of_In. by apply P3. }
    by rewrite D6, <- app_assoc.
  - intros j Hj Hnin. rewrite Ha by done. apply (dir_alone _ _ Hd); [done|]. rewrite fmap_app. simpl. set_solver.
Qed.

(** A page less. *)
Lemma dir_unlink M M' l1 a ea p ep l2 b r :
  is_dir M (l1 ++ (a, ea) :: (p, ep) :: l2) → l2.*1 ++ [0] = b :: r →
  nxt M' a = b → (∀ j, j ∈ l1.*1 ++ l2.*1 → nxt M' j = nxt M j) →
  prv M' b = a → (∀ j, j ∈ tail (l1.*1 ++ [a]) ++ r → prv M' j = prv M j) →
  has_pages M' (l1 ++ (a, ea) :: l2) → M' !! idx p = None →
  (∀ j, in_pages j → j ∉ l1.*1 ++ a :: p :: l2.*1 → M' !! idx j = M !! idx j) →
  is_dir M' (l1 ++ (a, ea) :: l2).
Proof.
  intros Hd Eb N1 N2 P1 P2 Hp Hnone Ha.
  pose proof (dir_first _ _ Hd) as D1. pose proof (dir_sorted _ _ Hd) as D2. pose proof (dir_range _ _ Hd) as D3.
  assert (l1 ++ (a, ea) :: (p, ep) :: l2 ≠ []) as Hne by by destruct l1.
  pose proof (ring_next _ _ Hd Hne) as D5. pose proof (ring_prev _ _ Hd Hne) as D6.
  rewrite fmap_app in D1, D2, D3, D5, D6. cbn [fmap list_fmap fst] in D1, D2, D3, D5, D6.
  assert ((l1 ++ (a, ea) :: l2).*1 = l1.*1 ++ a :: l2.*1) as Ens by by rewrite fmap_app.
  assert (∀ y : list Z, tail (l1.*1 ++ a :: y) = tail (l1.*1 ++ [a]) ++ y) as Ht.
  { intros y. destruct l1.*1; simpl; [done|]. by rewrite <- app_assoc. }
  constructor; rewrite ?Ens.
  - by destruct l1 as [|[] ?].
  - apply sorted_lt_app in D2 as (S1 & S2 & S3). apply sorted_lt_app. split; [done|].
    inversion S2 as [|? ? S2' Hall]; subst. inversion S2' as [|? ? S2'' _]; subst. split.
    + constructor; [done|]. by inversion Hall.
    + intros x y Hx Hy. apply S3; [done|]. set_solver.
  - apply Forall_app in D3 as [F1 F2]. apply Forall_app. split; [done|]. inversion F2 as [|? ? Fa F2']; subst.
    constructor; [done|]. by inversion F2'.
  - done.
  - intros _. rewrite Ht in D5 |- *. rewrite map_app in D5 |- *. rewrite <- app_assoc in D5 |- *. simpl in D5 |- *. rewrite N1.
    apply app_inj_1 in D5 as [D5 D5']; [|by rewrite length_map, length_tail_snoc].
    injection D5' as Da Db. rewrite Eb in Db |- *. injection Db as Db Dc. rewrite <- D5, <- Dc.
    f_equal; [|f_equal]; apply map_ext_in; intros j Hj%list_elem_of_In; apply N2; set_solver.
  - intros _. rewrite Ht in D6 |- *. rewrite <- app_assoc in D6 |- *. rewrite map_app in D6 |- *.
    rewrite <- app_comm_cons in D6. rewrite Eb in D6 |- *. simpl in D6 |- *. rewrite P1.
    apply app_inj_1 in D6 as [D6 D6']; [|by rewrite length_map, length_tail_snoc].
    injection D6' as Da Db Dc.
    assert (∀ T, (∀ j, j ∈ T → j ∈ tail (l1.*1 ++ [a]) ++ r) → map (prv M') T = map (prv M) T) as Hsame.
    { intros T HT. apply map_ext_in. intros j Hj%list_elem_of_In. by apply P2, HT. }
    rewrite (Hsame (tail (l1.*1 ++ [a]))), (Hsame r) by set_solver. by rewrite D6, Dc.
  - intros j Hj Hnin. destruct (decide (j = p)) as [->|Hjp]; [done|].
    rewrite Ha by (done || set_solver). apply (dir_alone _ _ Hd); [done|]. rewrite fmap_app. set_solver.
Qed.

(** The root and the last page. *)
Lemma dir_root M pages : is_dir M pages → pages ≠ [] → ∃ es e, (0, es) ∈ pages ∧ M !! idx 0 = Some e ∧ is_page 0 es e.
Proof.
  intros Hd Hne. destruct pages as [|[n es] pages]; [done|]. pose proof (dir_first _ _ Hd) as H1. simpl in H1. subst n.
  destruct (dir_page _ _ Hd 0 es) as (e & He & Hp); [apply list_elem_of_here|]. exists es, e. split; [apply list_elem_of_here|done].
Qed.

Lemma dir_last M l n es : is_dir M (l ++ [(n, es)]) → prv M 0 = n ∧ (n = 0 ↔ l = []).
Proof.
  intros Hd. pose proof (dir_first _ _ Hd) as D1. pose proof (dir_sorted _ _ Hd) as D2.
  assert (l ++ [(n, es)] ≠ []) as Hne by by destruct l.
  pose proof (ring_prev _ _ Hd Hne) as D6. rewrite fmap_app in D1, D2, D6. simpl in D1, D2, D6.
  rewrite map_app in D6. simpl in D6. apply app_inj_tail in D6 as [_ D6]. split; [done|].
  destruct l as [|[n0 e0] l]; simpl in D1; [done|]. subst n0. split; [|done]. intros ->.
  inversion D2 as [|? ? _ Hall]; subst. apply Forall_app in Hall as [_ Hall]. inversion Hall. lia.
Qed.

Lemma prv_page M n e : M !! idx n = Some e → getFieldU64 sfIndexPrevious e = prv M n.
Proof. intros He. unfold prv. by rewrite He. Qed.
Lemma nxt_page M n e : M !! idx n = Some e → getFieldU64 sfIndexNext e = nxt M n.
Proof. intros He. unfold nxt. by rewrite He. Qed.

(** What is described of a page is not what makes it one. *)
Definition describes (describe : SLE → SLE) : Prop :=
  ∀ e, sle_key (describe e) = sle_key e ∧ getType (describe e) = getType e ∧
    getFieldH256 sfRootIndex (describe e) = getFieldH256 sfRootIndex e ∧
    getFieldV256 sfIndexes (describe e) = getFieldV256 sfIndexes e ∧
    getFieldU64 sfIndexNext (describe e) = getFieldU64 sfIndexNext e ∧
    getFieldU64 sfIndexPrevious (describe e) = getFieldU64 sfIndexPrevious e.

(** The pages after an addition. *)
Definition placed (preserveOrder : bool) (key : Z) (es : list Z) : list Z :=
  if preserveOrder then es ++ [key] else insert_lower key (merge_sort Z.le es).
Definition add_pages (preserveOrder : bool) (key : Z) (pages : Pages) : string + (option Z * Pages) :=
  match last pages with
  | None => inr (Some 0, [(0, [key])])
  | Some (n, es) =>
      if Z.of_nat (length es) <? dirNodeMaxEntries
      then if bool_decide (key ∈ es) then inl "dirInsert: double insertion"%string
           else inr (Some n, removelast pages ++ [(n, placed preserveOrder key es)])
      else if dirNodeMaxPages <=? n + 1 then inr (None, pages)
      else inr (Some (n + 1), pages ++ [(n + 1, [key])])
  end.

Lemma in_pages_0 : in_pages 0.
Proof. unfold in_pages, dirNodeMaxPages. lia. Qed.

(** A new root. *)
Lemma new_root_state M key e :
  is_dir M [] → is_page 0 [key] e → getFieldU64 sfIndexNext e = 0 → getFieldU64 sfIndexPrevious e = 0 →
  is_dir (<[idx 0 := e]> M) [(0, [key])] ∧ same_elsewhere M (<[idx 0 := e]> M).
Proof.
  intros Hd Hpage HN HP. split; [|apply same_elsewhere_insert, in_pages_0].
  assert (nxt (<[idx 0 := e]> M) 0 = 0 ∧ prv (<[idx 0 := e]> M) 0 = 0) as [N P] by (unfold nxt, prv; by rewrite lookup_insert_eq).
  constructor; simpl.
  - done.
  - repeat constructor.
  - repeat constructor; unfold dirNodeMaxPages; lia.
  - intros n es [[= -> ->]|H%not_elem_of_nil]%elem_of_cons; [|done]. rewrite lookup_insert_eq. eauto.
  - intros _. by rewrite N.
  - intros _. by rewrite P.
  - intros n Hin Hnot. rewrite lookup_page_ne; [by apply (dir_alone _ _ Hd); [|set_solver]|apply in_pages_0|done|set_solver].
Qed.

Lemma removelast_snoc {A} (l : list A) x : removelast (l ++ [x]) = l.
Proof. apply removelast_last. Qed.

(** A new page after a full one. *)
Lemma nxt_insert M n e j : in_pages n → in_pages j →
  nxt (<[idx n := e]> M) j = if decide (j = n) then getFieldU64 sfIndexNext e else nxt M j.
Proof. intros Hn Hj. unfold nxt. case_decide as E; [subst; by rewrite lookup_insert_eq|by rewrite lookup_page_ne]. Qed.
Lemma prv_insert M n e j : in_pages n → in_pages j →
  prv (<[idx n := e]> M) j = if decide (j = n) then getFieldU64 sfIndexPrevious e else prv M j.
Proof. intros Hn Hj. unfold prv. case_decide as E; [subst; by rewrite lookup_insert_eq|by rewrite lookup_page_ne]. Qed.
Lemma nxt_delete M n j : in_pages n → in_pages j →
  nxt (delete (idx n) M) j = if decide (j = n) then 0 else nxt M j.
Proof. intros Hn Hj. unfold nxt. case_decide as E; [subst; by rewrite lookup_delete_eq|by rewrite delete_page_ne]. Qed.
Lemma prv_delete M n j : in_pages n → in_pages j →
  prv (delete (idx n) M) j = if decide (j = n) then 0 else prv M j.
Proof. intros Hn Hj. unfold prv. case_decide as E; [subst; by rewrite lookup_delete_eq|by rewrite delete_page_ne]. Qed.

(** Setting a link keeps the pages and the other link. *)
Lemma is_page_link n es e f v :
  is_page n es e → is_page n es (setFieldU64 f v e).
Proof. intros [H1 H2 H3 H4]. by split. Qed.

Lemma has_pages_insert M pages n es e :
  has_pages M pages → in_pages n → Forall in_pages pages.*1 → (∀ es', (n, es') ∈ pages → es' = es) → is_page n es e →
  has_pages (<[idx n := e]> M) pages.
Proof.
  intros Hp Hn Hr Hu He j ejs Hin. destruct (decide (n = j)) as [<-|Hne].
  - rewrite lookup_insert_eq. rewrite (Hu ejs Hin). eauto.
  - rewrite lookup_page_ne; [by apply Hp|done| |done]. rewrite Forall_forall in Hr. apply Hr, list_elem_of_fmap. by exists (j, ejs).
Qed.

Lemma getFieldU64_set f f' v e :
  getFieldU64 f (setFieldU64 f' v e) = if decide (f = f') then v else getFieldU64 f e.
Proof.
  unfold getFieldU64. simpl. case_decide as E; [subst; by rewrite lookup_insert_eq|by rewrite lookup_insert_ne].
Qed.

Lemma page_unique M pages n es es' : is_dir M pages → (n, es) ∈ pages → (n, es') ∈ pages → es' = es.
Proof.
  intros Hd H1 H2. destruct (dir_page _ _ Hd _ _ H1) as (e & He & P). destruct (dir_page _ _ Hd _ _ H2) as (e' & He' & P').
  assert (e' = e) as -> by congruence. by rewrite <- (page_entries _ _ _ P), <- (page_entries _ _ _ P').
Qed.

(** Setting a link of a page. *)
Lemma has_pages_link M pages n es e f v :
  has_pages M pages → Forall in_pages pages.*1 → (∀ es', (n, es') ∈ pages → es' = es) → in_pages n →
  M !! idx n = Some e → is_page n es e →
  has_pages (<[idx n := setFieldU64 f v e]> M) pages.
Proof. intros Hp Hr Hu Hn He P. eapply has_pages_insert; eauto. by apply is_page_link. Qed.

Lemma new_page_number M l n es : is_dir M (l ++ [(n, es)]) → n + 1 ∉ (l ++ [(n, es)]).*1.
Proof.
  intros Hd Hin. pose proof (dir_sorted _ _ Hd) as Hs. rewrite fmap_app in Hs, Hin. apply sorted_lt_app in Hs as (_ & _ & Hs).
  apply elem_of_app in Hin as [Hin|Hin]; [specialize (Hs (n + 1) n Hin); simpl in Hs; set_solver by lia|set_solver by lia].
Qed.

(** The state with the new page in the ring. *)
Lemma append_state M l n es en r x key :
  let n' := n + 1 in
  let M1 := <[idx n := setFieldU64 sfIndexNext n' en]> M in
  let M2 := <[idx 0 := setFieldU64 sfIndexPrevious n' r]> M1 in
  let M3 := <[idx n' := x]> M2 in
  is_dir M (l ++ [(n, es)]) → in_pages n' → M !! idx n = Some en → M1 !! idx 0 = Some r →
  is_page n' [key] x → getFieldU64 sfIndexNext x = 0 → getFieldU64 sfIndexPrevious x = n →
  is_dir M3 (l ++ [(n, es)] ++ [(n', [key])]) ∧ same_elsewhere M M3.
Proof.
  intros n' M1 M2 M3 Hd Hn' Hen Hr Px Nx Rx. pose proof (new_page_number _ _ _ _ Hd) as Hnew.
  assert (in_pages n) as Hn by (apply (dir_range_of M _ _ es Hd); set_solver).
  destruct (dir_page _ _ Hd n es) as (e & He & Pn); [set_solver|]. assert (e = en) as -> by congruence. clear He.
  assert (∀ j, in_pages j → nxt M3 j = if decide (j = n') then 0 else if decide (j = n) then n' else nxt M j) as HN.
  { intros j Hj. unfold M3, M2. rewrite nxt_insert by done. case_decide; [congruence|].
    rewrite nxt_insert by (done || apply in_pages_0). rewrite getFieldU64_set. destruct (decide (sfIndexNext = sfIndexPrevious)); [done|].
    assert (getFieldU64 sfIndexNext r = nxt M1 0) as -> by (by apply nxt_page).
    unfold M1. rewrite !nxt_insert by (done || apply in_pages_0). rewrite getFieldU64_set.
    destruct (decide (sfIndexNext = sfIndexNext)); [|done]. destruct (decide (j = 0)) as [->|]; done. }
  assert (∀ j, in_pages j → prv M3 j = if decide (j = n') then n else if decide (j = 0) then n' else prv M j) as HP.
  { intros j Hj. unfold M3, M2. rewrite prv_insert by done. case_decide; [congruence|].
    rewrite prv_insert by (done || apply in_pages_0). rewrite getFieldU64_set. destruct (decide (sfIndexPrevious = sfIndexPrevious)); [|done].
    case_decide; [done|]. unfold M1. rewrite prv_insert by done. case_decide; [subst j|done].
    rewrite getFieldU64_set. destruct (decide (sfIndexPrevious = sfIndexNext)); [done|]. by apply prv_page. }
  assert (Forall in_pages (l ++ [(n, es)]).*1) as Hrange by apply (dir_range _ _ Hd).
  assert (∀ j, j ∈ (l ++ [(n, es)]).*1 → in_pages j ∧ j ≠ n') as Hold.
  { intros j Hj. split; [rewrite Forall_forall in Hrange; auto|]. by intros ->. }
  assert (has_pages M1 (l ++ [(n, es)])) as HP1.
  { eapply has_pages_link; eauto; [exact (dir_page _ _ Hd)|]. intros es' Hin. eapply page_unique; eauto. set_solver. }
  assert (has_pages M2 (l ++ [(n, es)])) as HP2.
  { destruct (dir_root _ _ Hd) as (es0 & _ & Hin0 & _); [by destruct l|].
    destruct (HP1 0 es0 Hin0) as (r' & Hr' & Pr). assert (r' = r) as -> by congruence.
    eapply has_pages_link; eauto; [|apply in_pages_0]. intros es' Hin. eapply page_unique; eauto. }
  assert (has_pages M3 (l ++ [(n, es)] ++ [(n', [key])])) as HP3.
  { intros j ejs Hin. rewrite app_assoc in Hin. apply elem_of_app in Hin as [Hin|Hin].
    - unfold M3. destruct (Hold j) as [H1 H2]; [apply list_elem_of_fmap; by exists (j, ejs)|].
      rewrite lookup_page_ne by done. by apply HP2.
    - apply list_elem_of_singleton in Hin as [= -> ->]. unfold M3. rewrite lookup_insert_eq. eauto. }
  rewrite fmap_app in Hold. simpl in Hold. split.
  - eapply dir_append; [exact Hd|lia|done|..].
    + rewrite HN by done. repeat case_decide; (done || lia).
    + rewrite HN by done. by case_decide.
    + intros j Hj. destruct (Hold j) as [H1 H2]; [set_solver|]. rewrite HN by done.
      assert (j ≠ n); [|by repeat case_decide].
      pose proof (dir_sorted _ _ Hd) as Hs. rewrite fmap_app in Hs. apply sorted_lt_app in Hs as (_ & _ & Hs).
      specialize (Hs j n Hj). simpl in Hs. set_solver by lia.
    + rewrite HP by apply in_pages_0. repeat case_decide; try done. unfold in_pages in Hn. lia.
    + rewrite HP by done. by case_decide.
    + intros j Hj. assert (j ∈ l.*1 ++ [n]) as Hj' by (destruct (l.*1 ++ [n]); [done|by apply list_elem_of_further]).
      destruct (Hold j Hj') as [H1 H2]. rewrite HP by done. assert (j ≠ 0); [|by repeat case_decide].
      pose proof (dir_first _ _ Hd) as Hf. pose proof (dir_sorted _ _ Hd) as Hs. rewrite fmap_app in Hf, Hs. simpl in Hf, Hs.
      destruct (l.*1 ++ [n]) as [|z zs]; [by apply not_elem_of_nil in Hj|]. subst z. inversion Hs as [|? ? _ Hall]; subst.
      rewrite Forall_forall in Hall. specialize (Hall j Hj). lia.
    + done.
    + intros j Hj Hnin. unfold M3, M2, M1.
      assert (j ≠ 0).
      { intros ->. destruct (dir_root _ _ Hd) as (es0 & _ & Hin0 & _); [by destruct l|].
        apply Hnin. apply elem_of_app in Hin0 as [Hin0|Hin0]; [apply elem_of_app; left; apply list_elem_of_fmap; by exists (0, es0)|].
        apply list_elem_of_singleton in Hin0 as [= <- _]. set_solver. }
      rewrite !lookup_page_ne; try done; try apply in_pages_0; set_solver.
  - unfold M3, M2, M1. do 2 (eapply same_elsewhere_trans; [|apply same_elsewhere_insert; done || apply in_pages_0]).
    by apply same_elsewhere_insert.
Qed.

(** The neighbours of a page. *)
Lemma dir_mid M l1 a ea p ep l2 :
  is_dir M (l1 ++ (a, ea) :: (p, ep) :: l2) → prv M p = a ∧ nxt M p = hd 0 l2.*1.
Proof.
  intros Hd. assert (l1 ++ (a, ea) :: (p, ep) :: l2 ≠ []) as Hne by by destruct l1.
  pose proof (ring_next _ _ Hd Hne) as D5. pose proof (ring_prev _ _ Hd Hne) as D6.
  rewrite fmap_app in D5, D6. cbn [fmap list_fmap fst] in D5, D6.
  assert (∀ y : list Z, tail (l1.*1 ++ a :: y) = tail (l1.*1 ++ [a]) ++ y) as Ht.
  { intros y. destruct l1.*1; simpl; [done|]. by rewrite <- app_assoc. }
  rewrite Ht in D5, D6. rewrite <- app_assoc in D5, D6. rewrite map_app in D5, D6. simpl in D5, D6. split.
  - apply app_inj_1 in D6 as [_ D6]; [by injection D6|]. by rewrite length_map, length_tail_snoc.
  - apply app_inj_1 in D5 as [_ D5]; [|by rewrite length_map, length_tail_snoc].
    injection D5 as _ D5. destruct l2.*1; simpl in *; by injection D5.
Qed.

(** Page numbers of a directory, in order. *)
Lemma dir_nums M l1 a ea p ep l2 :
  is_dir M (l1 ++ (a, ea) :: (p, ep) :: l2) →
  (∀ j, j ∈ l1.*1 → 0 ≤ j < a) ∧ 0 ≤ a < p ∧ (∀ j, j ∈ l2.*1 → p < j) ∧
  in_pages a ∧ in_pages p ∧ Forall in_pages l2.*1 ∧ Forall in_pages l1.*1 ∧ (a = 0 ↔ l1 = []).
Proof.
  intros Hd. pose proof (dir_first _ _ Hd) as D1. pose proof (dir_sorted _ _ Hd) as D2. pose proof (dir_range _ _ Hd) as D3.
  rewrite fmap_app in D1, D2, D3. simpl in D1, D2, D3. apply sorted_lt_app in D2 as (_ & S2 & S3).
  apply Forall_app in D3 as [F1 F2]. inversion F2 as [|? ? Fa F2']; subst. inversion F2' as [|? ? Fp F3]; subst.
  inversion S2 as [|? ? S2' Ha]; subst. inversion S2' as [|? ? _ Hp]; subst. rewrite Forall_forall in Ha, Hp.
  assert (∀ j, j ∈ l1.*1 → 0 ≤ j < a) as H1.
  { intros j Hj. split; [|apply S3; [done|apply list_elem_of_here]]. rewrite Forall_forall in F1. by destruct (F1 j Hj). }
  assert (a < p) by (apply Ha, list_elem_of_here). destruct Fa as [Fa0 Fa1]. split_and!; try done.
  destruct l1 as [|[z ez] l1]; simpl in D1; [done|]. split; [|done]. intros E. specialize (H1 z). set_solver by lia.
Qed.

(** Taking a page [p] out of the ring, between [a] and [b]. *)
Section unlink.
Context (M : gmap Z SLE) (l1 : Pages) (a : Z) (ea : list Z) (p : Z) (ep : list Z) (l2 : Pages) (xa xb : SLE).
#[local] Abbreviation b := (hd 0 l2.*1).
#[local] Abbreviation M2 := (<[idx a := setFieldU64 sfIndexNext b xa]> M).
#[local] Abbreviation M3 := (<[idx b := setFieldU64 sfIndexPrevious a xb]> M2).
Context (Hd : is_dir M (l1 ++ (a, ea) :: (p, ep) :: l2)) (Hxa : M !! idx a = Some xa) (Hxb : M2 !! idx b = Some xb).

Lemma unlink_next : in_pages b ∧ b ≠ p ∧ (∀ j, j ∈ tail l2.*1 → b < j).
Proof.
  clear Hxb Hxa xa xb.
  destruct (dir_nums _ _ _ _ _ _ _ Hd) as (_ & N2 & N3 & _ & _ & I2 & _ & _).
  destruct l2 as [|[z ez] l2']; simpl; [split; [apply in_pages_0|]; split; [lia|by intros j Hj%not_elem_of_nil]|].
  split; [by inversion I2|]. split; [specialize (N3 z); set_solver by lia|]. intros j Hj.
  pose proof (dir_sorted _ _ Hd) as D2. rewrite fmap_app in D2. apply sorted_lt_app in D2 as (_ & D2 & _). simpl in D2.
  inversion D2 as [|? ? D3 _]; subst. inversion D3 as [|? ? D4 _]; subst. inversion D4 as [|? ? _ Hall]; subst.
  rewrite Forall_forall in Hall. by apply Hall.
Qed.

Lemma unlink_nxt j : in_pages j → j ≠ p → nxt (delete (idx p) M3) j = if decide (j = a) then b else nxt M j.
Proof.
  intros Hj Hjp. destruct (dir_nums _ _ _ _ _ _ _ Hd) as (_ & _ & _ & Ia & Ip & _). destruct unlink_next as (Ib & _).
  rewrite nxt_delete by done. case_decide; [done|]. rewrite nxt_insert by done.
  rewrite getFieldU64_set. destruct (decide (sfIndexNext = sfIndexPrevious)); [done|]. rewrite (nxt_page _ _ _ Hxb).
  rewrite !nxt_insert by done. rewrite getFieldU64_set. destruct (decide (sfIndexNext = sfIndexNext)); [|done].
  destruct (decide (j = b)) as [->|]; done.
Qed.

Lemma unlink_prv j : in_pages j → j ≠ p → prv (delete (idx p) M3) j = if decide (j = b) then a else prv M j.
Proof.
  intros Hj Hjp. destruct (dir_nums _ _ _ _ _ _ _ Hd) as (_ & _ & _ & Ia & Ip & _). destruct unlink_next as (Ib & _).
  rewrite prv_delete by done. case_decide; [done|]. rewrite prv_insert by done.
  rewrite getFieldU64_set. destruct (decide (sfIndexPrevious = sfIndexPrevious)); [|done]. case_decide; [done|].
  rewrite prv_insert by done. case_decide; [subst j|done]. rewrite getFieldU64_set.
  destruct (decide (sfIndexPrevious = sfIndexNext)); [done|]. by apply prv_page.
Qed.

Lemma next_in_dir : ∃ eb, (b, eb) ∈ l1 ++ (a, ea) :: l2.
Proof.
  clear Hxb Hxa xa xb.
  destruct l2 as [|[z ez] l2']; simpl; [|exists ez; set_solver].
  destruct (dir_nums _ _ _ _ _ _ _ Hd) as (_ & N2 & _). destruct (dir_root _ _ Hd) as (es0 & _ & Hin & _); [by destruct l1|].
  exists es0. apply elem_of_app in Hin as [Hin|[Hin|[Hin|Hin]%elem_of_cons]%elem_of_cons]; simplify_eq; [set_solver..|lia|set_solver].
Qed.

Lemma unlink_pages : has_pages M3 (l1 ++ (a, ea) :: (p, ep) :: l2).
Proof.
  destruct (dir_nums _ _ _ _ _ _ _ Hd) as (_ & _ & _ & Ia & _). destruct unlink_next as (Ib & _).
  destruct next_in_dir as [eb Hb]. assert ((b, eb) ∈ l1 ++ (a, ea) :: (p, ep) :: l2) as Hb' by set_solver.
  destruct (dir_page _ _ Hd a ea) as (x & Hx & Pa); [set_solver|]. assert (x = xa) as -> by congruence.
  assert (has_pages M2 (l1 ++ (a, ea) :: (p, ep) :: l2)) as HP2.
  { eapply has_pages_link; [exact (dir_page _ _ Hd)|exact (dir_range _ _ Hd)| |done|done|exact Pa].
    intros es'. eapply page_unique; [exact Hd|set_solver]. }
  destruct (HP2 b eb Hb') as (x & Hx' & Pb). assert (x = xb) as -> by congruence.
  eapply has_pages_link; [exact HP2|exact (dir_range _ _ Hd)| |done|done|exact Pb].
  intros es'. by eapply page_unique.
Qed.

Lemma unlink_rest j : j ∈ l1.*1 ++ a :: l2.*1 → in_pages j ∧ j ≠ p.
Proof.
  clear Hxb Hxa xa xb.
  destruct (dir_nums _ _ _ _ _ _ _ Hd) as (N1 & N2 & N3 & Ia & Ip & I2 & I1 & _). rewrite Forall_forall in I1, I2.
  intros [Hj|[->|Hj]%elem_of_cons]%elem_of_app.
  - split; [auto|]. specialize (N1 j Hj). lia.
  - split; [done|lia].
  - split; [auto|]. specialize (N3 j Hj). lia.
Qed.

(** The pages whose link back stays. *)
Lemma unlink_back j : j ∈ tail (l1.*1 ++ [a]) ++ tail (l2.*1 ++ [0]) → j ≠ b ∧ in_pages j ∧ j ≠ p.
Proof.
  clear Hxb Hxa xa xb.
  destruct (dir_nums _ _ _ _ _ _ _ Hd) as (N1 & N2 & N3 & Ia & Ip & I2 & I1 & Z1).
  destruct unlink_next as (Ib & Hbp & Hb). pose proof (unlink_rest j) as Hrest. intros [Hj|Hj]%elem_of_app.
  - assert (j ∈ l1.*1 ++ [a]) as Hj1 by (destruct (l1.*1 ++ [a]); [by apply not_elem_of_nil in Hj|by apply list_elem_of_further]).
    assert (0 < j ≤ a) as Hja.
    { pose proof (dir_first _ _ Hd) as D1. pose proof (dir_sorted _ _ Hd) as D2. rewrite fmap_app in D1, D2. simpl in D1, D2.
      split; [|apply elem_of_app in Hj1 as [Hj1|Hj1%list_elem_of_singleton]; [specialize (N1 j Hj1)|]; lia].
      destruct l1 as [|[z ez] l1']; simpl in *; [by apply not_elem_of_nil in Hj|]. subst z.
      inversion D2 as [|? ? _ Hall]; subst. rewrite Forall_forall in Hall. apply Hall. set_solver. }
    split; [|apply Hrest; set_solver]. intros ->. destruct l2 as [|[z ez] l2']; simpl in *; [lia|].
    specialize (N3 z). set_solver by lia.
  - destruct l2 as [|[z ez] l2']; simpl in Hj, Hb |- *; [by apply not_elem_of_nil in Hj|].
    apply elem_of_app in Hj as [Hj|Hj%list_elem_of_singleton].
    + split; [specialize (Hb j Hj); lia|]. apply Hrest. set_solver.
    + subst j. specialize (N3 z). split; [set_solver by lia|]. split; [apply in_pages_0|lia].
Qed.

Lemma unlink_state : is_dir (delete (idx p) M3) (l1 ++ (a, ea) :: l2) ∧ same_elsewhere M (delete (idx p) M3).
Proof.
  destruct (dir_nums _ _ _ _ _ _ _ Hd) as (N1 & N2 & N3 & Ia & Ip & I2 & I1 & Z1). destruct unlink_next as (Ib & Hbp & _).
  split.
  - eapply (dir_unlink M _ l1 a ea p ep l2 b (tail (l2.*1 ++ [0]))); [exact Hd|by destruct l2| | | | | | |].
    + rewrite unlink_nxt by (done || lia). by case_decide.
    + intros j Hj. destruct (unlink_rest j) as [H1 H2]; [set_solver|]. rewrite unlink_nxt by done. case_decide as E; [subst j|done].
      exfalso. apply elem_of_app in Hj as [Hj|Hj]; [specialize (N1 a Hj)|specialize (N3 a Hj)]; lia.
    + rewrite unlink_prv by done. by case_decide.
    + intros j Hj. destruct (unlink_back j Hj) as (H1 & H2 & H3). rewrite unlink_prv by done. by case_decide.
    + intros j ejs Hin. destruct (unlink_rest j) as [H1 H2].
      { assert (j ∈ (l1 ++ (a, ea) :: l2).*1) as Hj; [apply list_elem_of_fmap; by exists (j, ejs)|]. by rewrite fmap_app in Hj. }
      rewrite delete_page_ne by done. apply unlink_pages. set_solver.
    + by rewrite lookup_delete_eq.
    + intros j Hj Hnin. assert (j ≠ b).
      { intros ->. destruct next_in_dir as [eb Hb].
        assert (b ∈ (l1 ++ (a, ea) :: l2).*1) as Hb'; [apply list_elem_of_fmap; by exists (b, eb)|]. rewrite fmap_app in Hb'. set_solver. }
      rewrite delete_page_ne by (done || set_solver). rewrite !lookup_page_ne by (done || set_solver). done.
  - eapply same_elsewhere_trans; [|by apply same_elsewhere_delete].
    eapply same_elsewhere_trans; by apply same_elsewhere_insert.
Qed.
End unlink.

(** The pages after a removal: an empty last page goes with the page before it,
    and the root goes when it is empty and alone. *)
Definition trim (l : Pages) : Pages := match l with [(_, [])] => [] | _ => l end.
Definition tidy (keepRoot : bool) (pages : Pages) : Pages :=
  match pages with [(_, [])] => if keepRoot then pages else [] | _ => pages end.
Fixpoint take_key (pg key : Z) (pages : Pages) : option Pages :=
  match pages with
  | [] => None
  | (n, es) :: l =>
      if n =? pg
      then if bool_decide (key ∈ es)
           then Some match erase_first key es with
                     | [] => (if n =? 0 then [(0, [])] else []) ++ trim l
                     | es' => (n, es') :: l
                     end
           else None
      else cons (n, es) <$> take_key pg key l
  end.
Definition remove_pages (keepRoot : bool) (pg key : Z) (pages : Pages) : bool * Pages :=
  match take_key pg key pages with
  | None => (false, pages)
  | Some pages' => (true, tidy keepRoot pages')
  end.

Lemma take_key_app pg key l1 es l2 :
  pg ∉ l1.*1 →
  take_key pg key (l1 ++ (pg, es) :: l2) = app l1 <$> take_key pg key ((pg, es) :: l2).
Proof.
  induction l1 as [|[n ens] l1 IH]; intros Hn; cbn [app].
  - by destruct (take_key pg key ((pg, es) :: l2)).
  - simpl in Hn. transitivity (cons (n, ens) <$> take_key pg key (l1 ++ (pg, es) :: l2)).
    { simpl. by rewrite (proj2 (Z.eqb_neq n pg)) by set_solver. }
    rewrite IH by set_solver. by destruct (take_key pg key ((pg, es) :: l2)).
Qed.

Lemma take_key_none pg key l : pg ∉ l.*1 → take_key pg key l = None.
Proof.
  induction l as [|[n es] l IH]; intros Hn; simpl in *; [done|].
  rewrite (proj2 (Z.eqb_neq n pg)) by set_solver. by rewrite IH by set_solver.
Qed.

(** The root page goes. *)
Lemma dir_drop_root M es : is_dir M [(0, es)] → is_dir (delete (idx 0) M) [].
Proof.
  intros Hd. split; try done; [constructor..|by intros ? ? ?%not_elem_of_nil|].
  intros n Hn _. destruct (decide (0 = n)) as [<-|Hne]; [by rewrite lookup_delete_eq|].
  rewrite delete_page_ne by (done || apply in_pages_0). apply (dir_alone _ _ Hd); set_solver.
Qed.

(** The links of the root. *)
Lemma dir_ends M es l : is_dir M ((0, es) :: l) → nxt M 0 = hd 0 l.*1 ∧ prv M 0 = List.last l.*1 0.
Proof.
  intros Hd. split.
  - assert ((0, es) :: l ≠ []) as Hne by done. pose proof (ring_next _ _ Hd Hne) as D.
    destruct l as [|[z ez] l]; simpl in *; by injection D.
  - destruct l as [|[n ens] l _] using rev_ind; [by destruct (dir_last M [] 0 es Hd)|].
    destruct (dir_last M ((0, es) :: l) n ens Hd) as [-> _]. rewrite fmap_app. cbn [fmap list_fmap fst]. by rewrite last_last.
Qed.

Lemma dir_nonzero M es l n : is_dir M ((0, es) :: l) → n ∈ l.*1 → 0 < n ∧ in_pages n.
Proof.
  intros Hd Hn. pose proof (dir_sorted _ _ Hd) as D2. pose proof (dir_range _ _ Hd) as D3. simpl in D2, D3.
  inversion D2 as [|? ? _ H2]; subst. inversion D3 as [|? ? _ H3]; subst. rewrite Forall_forall in H2, H3. auto.
Qed.

Lemma last_elem (l : list Z) d : l ≠ [] → List.last l d ∈ l.
Proof. intros H. destruct l as [|x l _] using rev_ind; [done|]. rewrite last_last. set_solver. Qed.

Lemma page_split (pg : Z) (pages : Pages) : pg ∈ pages.*1 → ∃ l1 es l2, pages = l1 ++ (pg, es) :: l2.
Proof.
  intros ([n es] & -> & Hin)%list_elem_of_fmap. apply list_elem_of_split in Hin as (l1 & l2 & ->). by exists l1, es, l2.
Qed.

Lemma tidy_entries keepRoot l1 (n : Z) x (es : list Z) l2 :
  tidy keepRoot (l1 ++ (n, x :: es) :: l2) = l1 ++ (n, x :: es) :: l2.
Proof. by destruct l1 as [|[? [|]] [|]]. Qed.

(** ** The operations *)
Section operations.
Context (m : gmap Z SLE) (Hm : keys_ok m) (base : ReadView) (Hbase : shows base m).
Implicit Types (s : VState) (M : gmap Z SLE).
#[local] Abbreviation holds := (holds m).
#[local] Abbreviation directory := (page page_hash root 0).

Lemma deref_spec s M p k : holds s M → points s p k → ∃ e, M !! k = Some e ∧ deref p s = inr (e, s).
Proof.
  intros Hh Hp. destruct (points_entry m s M p k Hh Hp) as (e & Hpe & HM & _). exists e. split; [done|].
  unfold deref. by rewrite Hpe.
Qed.

Lemma change_spec s M p k e f :
  holds s M → points s p k → M !! k = Some e → sle_key (f e) = sle_key e →
  ∃ s', change p f s = inr ((), s') ∧ holds s' (<[k := f e]> M) ∧ (∀ q j, points s q j → points s' q j).
Proof.
  intros Hh Hp He Hf. destruct (set_update_spec m s M p k e f Hh Hp He Hf) as (s1 & s' & E1 & E2 & Hh' & Hpts).
  exists s'. split; [|done]. unfold change. by vstep E1.
Qed.

Lemma page_peek s M n e :
  holds s M → M !! idx n = Some e → getType e = ltDIR_NODE →
  ∃ p s', peek base (page page_hash root n) s = inr (Some p, s') ∧ holds s' M ∧ points s' p (idx n) ∧
    (∀ q j, points s q j → points s' q j).
Proof.
  intros Hh He Ht. apply (peek_spec m Hm base Hbase s M (page page_hash root n) e Hh He). unfold check. simpl. by rewrite Ht.
Qed.

Definition dir_outcome {A} (r : string + (A * VState)) M (spec : string + (A * Pages)) : Prop :=
  match spec with
  | inl e => r = inl e
  | inr (a, pages) => ∃ s' M', r = inr (a, s') ∧ holds s' M' ∧ is_dir M' pages ∧ same_elsewhere M M'
  end.

Lemma add_new_root s M preserveOrder key describe :
  describes describe → holds s M → is_dir M [] →
  dir_outcome (dirAdd page_hash base preserveOrder directory key describe s) M (inr (Some 0, [(0, [key])])).
Proof.
  intros Hdesc Hh Hd. assert (M !! idx 0 = None) as Hn by (apply (dir_alone _ _ Hd); [apply in_pages_0|set_solver]).
  unfold dirAdd. vstep (peek_none m base Hbase s M directory Hh Hn).
  destruct (make_shared_spec m s M (new_sle directory) Hh) as (p & s1 & E1 & Hp1 & L1 & Hh1 & _). vstep E1.
  destruct (set_loose_spec m s1 M p _ (setFieldH256 sfRootIndex (k_key directory)) Hh1 L1 Hp1) as (s2 & E2 & Hp2 & L2 & Hh2 & _). vstep E2.
  destruct (set_loose_spec m s2 M p _ describe Hh2 L2 Hp2) as (s3 & E3 & Hp3 & L3 & Hh3 & _). vstep E3.
  destruct (set_loose_spec m s3 M p _ (setFieldV256 sfIndexes [key]) Hh3 L3 Hp3) as (s4 & E4 & Hp4 & L4 & Hh4 & _). vstep E4.
  set (e := setFieldV256 sfIndexes [key] (describe (setFieldH256 sfRootIndex (k_key directory) (new_sle directory)))) in *.
  destruct (Hdesc (setFieldH256 sfRootIndex (k_key directory) (new_sle directory))) as (K1 & K2 & K3 & K4 & K5 & K6).
  assert (sle_key e = idx 0) as Ke by done.
  destruct (v_insert_spec m s4 M p e Hh4 L4 Hp4) as (s5 & E5 & Hh5 & _ & _); [by rewrite Ke|]. vstep E5.
  rewrite Ke in Hh5. exists s5, (<[idx 0 := e]> M). split; [done|]. split; [done|].
  apply new_root_state; [done| |unfold e, getFieldU64 in *; simpl in *; by rewrite ?K5, ?K6..].
  split; [done|done| |].
  - unfold e, getFieldH256 in *. simpl in *. rewrite K3. by rewrite lookup_insert_eq.
  - unfold e, getFieldV256. simpl. by rewrite lookup_insert_eq.
Qed.

(** The pointers to the root and to the last page. *)
Lemma last_node s M l n es :
  holds s M → is_dir M (l ++ [(n, es)]) →
  ∃ p0 s1 e0 pn s2, peek base directory s = inr (Some p0, s1) ∧ deref p0 s1 = inr (e0, s1) ∧
    getFieldU64 sfIndexPrevious e0 = n ∧
    (if n =? 0 then mret p0
     else o ← peek base (page page_hash root n); require o "Directory chain: root back-pointer broken.") s1 =
      inr (pn, s2) ∧
    holds s2 M ∧ points s2 p0 (idx 0) ∧ points s2 pn (idx n).
Proof.
  intros Hh Hd. destruct (dir_last _ _ _ _ Hd) as [Hprv Hn0].
  destruct (dir_root _ _ Hd) as (es0 & e0 & _ & He0 & P0); [by destruct l|].
  destruct (page_peek s M 0 e0 Hh He0 (page_type _ _ _ P0)) as (p0 & s1 & E1 & Hh1 & Hp0 & _).
  destruct (deref_spec s1 M p0 (idx 0) Hh1 Hp0) as (e & He & E2). assert (e = e0) as -> by congruence.
  exists p0, s1, e0. destruct (Z.eqb_spec n 0) as [->|Hn].
  - exists p0, s1. split_and!; try done. by rewrite (prv_page _ _ _ He0).
  - destruct (dir_page _ _ Hd n es) as (en & Hen & Pn); [set_solver|].
    destruct (page_peek s1 M n en Hh1 Hen (page_type _ _ _ Pn)) as (pn & s2 & E3 & Hh2 & Hpn & Hpts).
    exists pn, s2. split_and!; try done; [by rewrite (prv_page _ _ _ He0)|by vstep E3|by apply Hpts].
Qed.

Lemma add_to_last s M l n es preserveOrder key describe :
  holds s M → is_dir M (l ++ [(n, es)]) → Z.of_nat (length es) < dirNodeMaxEntries →
  dir_outcome (dirAdd page_hash base preserveOrder directory key describe s) M
    (if bool_decide (key ∈ es) then inl "dirInsert: double insertion"%string
     else inr (Some n, l ++ [(n, placed preserveOrder key es)])).
Proof.
  intros Hh Hd Hlen. destruct (last_node s M l n es Hh Hd) as (p0 & s1 & e0 & pn & s2 & E1 & E2 & En & E3 & Hh2 & Hp0 & Hpn).
  unfold dirAdd. vstep E1. vstep E2. rewrite En. vstep E3.
  destruct (deref_spec s2 M pn (idx n) Hh2 Hpn) as (en & Hen & E4). vstep E4.
  destruct (dir_page _ _ Hd n es) as (e & He & Pn); [set_solver|]. assert (e = en) as -> by congruence.
  rewrite (page_entries _ _ _ Pn). rewrite (proj2 (Z.ltb_lt _ _)) by done. unfold place_key.
  case_bool_decide; [done|].
  destruct (change_spec s2 M pn (idx n) en (setFieldV256 sfIndexes (placed preserveOrder key es)) Hh2 Hpn Hen eq_refl)
    as (s3 & E5 & Hh3 & _).
  assert (change pn (setFieldV256 sfIndexes (if preserveOrder then es ++ [key] else insert_lower key (merge_sort Z.le es))) s2
    = inr ((), s3)) as E5' by done.
  cbn [mret view_ret]. unfold mbind, view_bind, mret, view_ret. rewrite E5'. exists s3, (<[idx n := setFieldV256 sfIndexes (placed preserveOrder key es) en]> M).
  split; [done|]. split; [done|]. split; [by apply (dir_set_entries M l n es [])|].
  apply same_elsewhere_insert, (dir_range_of M _ _ es Hd). set_solver.
Qed.

(** The last page is linked to the new one and the root back to it. *)
Lemma link_steps s M l n es en p0 pn :
  let n' := n + 1 in
  let M1 := <[idx n := setFieldU64 sfIndexNext n' en]> M in
  holds s M → is_dir M (l ++ [(n, es)]) → in_pages n' → M !! idx n = Some en →
  points s p0 (idx 0) → points s pn (idx n) →
  ∃ s1 r s2, change pn (setFieldU64 sfIndexNext n') s = inr ((), s1) ∧ M1 !! idx 0 = Some r ∧
    change p0 (setFieldU64 sfIndexPrevious n') s1 = inr ((), s2) ∧
    let M2 := <[idx 0 := setFieldU64 sfIndexPrevious n' r]> M1 in holds s2 M2 ∧ M2 !! idx n' = None.
Proof.
  intros n' M1 Hh Hd Hn' Hen Hp0 Hpn. assert (in_pages n) as Hn by (apply (dir_range_of M _ _ es Hd); set_solver).
  pose proof (new_page_number _ _ _ _ Hd : n' ∉ _) as Hnew. pose proof (dir_alone _ _ Hd n' Hn' Hnew) as Hnone.
  destruct (change_spec s M pn (idx n) en (setFieldU64 sfIndexNext n') Hh Hpn Hen eq_refl) as (s1 & E1 & Hh1 & Hpts1).
  apply Hpts1 in Hp0. destruct (points_entry m s1 M1 p0 (idx 0) Hh1 Hp0) as (r & _ & Hr & _).
  destruct (change_spec s1 M1 p0 (idx 0) r (setFieldU64 sfIndexPrevious n') Hh1 Hp0 Hr eq_refl) as (s2 & E2 & Hh2 & _).
  exists s1, r, s2. split_and!; try done. unfold M1.
  rewrite !lookup_page_ne; try done; try apply in_pages_0; unfold in_pages in Hn; lia.
Qed.

Lemma add_new_page s M l n es preserveOrder key describe :
  describes describe → holds s M → is_dir M (l ++ [(n, es)]) →
  dirNodeMaxEntries ≤ Z.of_nat (length es) →
  dir_outcome (dirAdd page_hash base preserveOrder directory key describe s) M
    (if dirNodeMaxPages <=? n + 1 then inr (None, l ++ [(n, es)])
     else inr (Some (n + 1), l ++ [(n, es)] ++ [(n + 1, [key])])).
Proof.
  intros Hdesc Hh Hd Hlen. destruct (last_node s M l n es Hh Hd) as (p0 & s1 & e0 & pn & s2 & E1 & E2 & En & E3 & Hh2 & Hp0 & Hpn).
  assert (in_pages n) as Hn by (apply (dir_range_of M _ _ es Hd); set_solver).
  unfold dirAdd. vstep E1. vstep E2. rewrite En. vstep E3.
  destruct (deref_spec s2 M pn (idx n) Hh2 Hpn) as (en & Hen & E4). vstep E4.
  destruct (dir_page _ _ Hd n es) as (e & He & Pn); [set_solver|]. assert (e = en) as -> by congruence. clear He.
  rewrite (page_entries _ _ _ Pn). rewrite (proj2 (Z.ltb_ge _ _)) by done.
  assert (u64 (n + 1) = n + 1) as -> by (apply u64_small; unfold in_pages, dirNodeMaxPages in Hn; lia).
  destruct (Z.leb_spec dirNodeMaxPages (n + 1)) as [Hfull|Hroom]; [by exists s2, M|].
  set (n' := n + 1) in *. assert (in_pages n') as Hn' by (unfold in_pages in *; lia).
  destruct (link_steps s2 M l n es en p0 pn Hh2 Hd Hn' Hen Hp0 Hpn) as (s3 & r & s4 & E5 & Hr & E6 & Hh4 & Hnone2).
  vstep E5. vstep E6. set (M2 := <[idx 0 := _]> _) in *.
  (* the new page is made *)
  destruct (make_shared_spec m s4 M2 (new_sle (page page_hash root n')) Hh4) as (p & s5 & E7 & Hp5 & L5 & Hh5 & _). vstep E7.
  destruct (set_loose_spec m s5 M2 p _ (setFieldH256 sfRootIndex root) Hh5 L5 Hp5) as (s6 & E8 & Hp6 & L6 & Hh6 & _).
  change (k_key directory) with root. vstep E8.
  destruct (set_loose_spec m s6 M2 p _ (setFieldV256 sfIndexes [key]) Hh6 L6 Hp6) as (s7 & E9 & Hp7 & L7 & Hh7 & _). vstep E9.
  set (x := setFieldV256 sfIndexes [key] (setFieldH256 sfRootIndex root (new_sle (page page_hash root n')))) in *.
  assert (∃ s8 x', (if n' =? 1 then mret () else set_sle p (setFieldU64 sfIndexPrevious (n' - 1))) s7 = inr ((), s8) ∧
    v_heap s8 !! p = Some x' ∧ loose s8 p ∧ holds s8 M2 ∧ is_page n' [key] x' ∧
    getFieldU64 sfIndexNext x' = 0 ∧ getFieldU64 sfIndexPrevious x' = n) as (s8 & x' & E10 & Hp8 & L8 & Hh8 & Px & Nx & Rx).
  { assert (is_page n' [key] x) as Px.
    { split; [done|done| |]; unfold x, getFieldH256, getFieldV256; simpl; by rewrite lookup_insert_eq. }
    destruct (Z.eqb_spec n' 1) as [E|E].
    - exists s7, x. split_and!; try done. assert (n = 0) by lia. by subst n.
    - destruct (set_loose_spec m s7 M2 p _ (setFieldU64 sfIndexPrevious (n' - 1)) Hh7 L7 Hp7) as (s8 & E10 & Hp8 & L8 & Hh8 & _).
      exists s8, (setFieldU64 sfIndexPrevious (n' - 1) x). split_and!; try done; try by apply is_page_link.
      rewrite getFieldU64_set. case_decide; [lia|done]. }
  vstep E10.
  destruct (set_loose_spec m s8 M2 p _ describe Hh8 L8 Hp8) as (s9 & E11 & Hp9 & L9 & Hh9 & _). vstep E11.
  destruct (Hdesc x') as (K1 & K2 & K3 & K4 & K5 & K6).
  assert (is_page n' [key] (describe x')) as Pd by (destruct Px; split; congruence).
  destruct (v_insert_spec m s9 M2 p _ Hh9 L9 Hp9) as (s10 & E12 & Hh10 & _ & _); [by rewrite (page_key _ _ _ Pd)|]. vstep E12.
  rewrite (page_key _ _ _ Pd) in Hh10. set (M3 := <[idx n' := describe x']> M2) in *.
  exists s10, M3. split; [done|]. split; [done|].
  apply append_state; try done; congruence.
Qed.

Lemma dirAdd_spec s M pages preserveOrder key describe :
  describes describe → holds s M → is_dir M pages →
  dir_outcome (dirAdd page_hash base preserveOrder directory key describe s) M (add_pages preserveOrder key pages).
Proof.
  intros Hdesc Hh Hd. unfold add_pages. destruct pages as [|[n es] l _] using rev_ind; [by apply add_new_root|].
  rewrite last_snoc, removelast_snoc. destruct (Z.ltb_spec (Z.of_nat (length es)) dirNodeMaxEntries).
  - by apply add_to_last.
  - rewrite <- app_assoc. by apply add_new_page.
Qed.

(** ** Removal *)

(** Setting two fields and updating is one change. *)
Lemma change_twice_spec s M p k e f g :
  holds s M → points s p k → M !! k = Some e → sle_key (g (f e)) = sle_key e →
  ∃ s1 s', set_sle p f s = inr ((), s1) ∧ change p g s1 = inr ((), s') ∧ holds s' (<[k := g (f e)]> M) ∧
    (∀ q j, points s q j → points s' q j).
Proof.
  intros Hh Hp He Hf. destruct (points_entry m s M p k Hh Hp) as (e' & Hpe & HM & _). assert (e' = e) as -> by congruence.
  destruct (change_spec s M p k e (λ x, g (f x)) Hh Hp He Hf) as (s' & E & Hh' & Hpts).
  exists (mkState (<[p := f e]> (v_heap s)) (v_table s)), s'. split; [unfold set_sle; by rewrite Hpe|]. split; [|done].
  rewrite <- E. unfold change, mbind, view_bind, set_sle. simpl. rewrite lookup_insert_eq, Hpe. by rewrite insert_insert_eq.
Qed.

(** The end of a removal that left the root: it goes when it is alone. *)
Lemma remove_root_end s M (keepRoot : bool) node l :
  holds s M → points s node (idx 0) → is_dir M ((0, []) :: l) →
  dir_outcome ((if keepRoot then mret true
                else _ ← (if (hd 0 l.*1 =? 0) && (List.last l.*1 0 =? 0) then v_erase node else mret ()); mret true) s)
    M (inr (true, tidy keepRoot ((0, []) :: l))).
Proof.
  intros Hh Hp Hd. destruct keepRoot.
  { exists s, M. split_and!; [done|done| |done]. by destruct l as [|[] ?]. }
  destruct l as [|[b eb] l].
  - simpl. destruct (v_erase_spec m s M node (idx 0) Hh Hp) as (s' & E & Hh' & _). vstep E.
    exists s', (delete (idx 0) M). split_and!; [done|done|by eapply dir_drop_root|apply same_elsewhere_delete, in_pages_0].
  - exists s, M. split_and!; [|done|done|done]. destruct (dir_nonzero M [] ((b, eb) :: l) b Hd) as [Hb _]; [set_solver|].
    cbn [fmap list_fmap fst hd]. by rewrite (proj2 (Z.eqb_neq b 0)) by lia.
Qed.

Lemma same_outcome {A} (r : string + (A * VState)) M M' spec :
  same_elsewhere M M' → dir_outcome r M' spec → dir_outcome r M spec.
Proof.
  intros Hs. unfold dir_outcome. destruct spec as [|[a pages]]; [done|]. intros (s' & M1 & ? & ? & ? & ?).
  exists s', M1. split_and!; try done. by eapply same_elsewhere_trans.
Qed.

Lemma remove_root_spec s M keepRoot node l :
  holds s M → points s node (idx 0) → is_dir M ((0, []) :: l) →
  dir_outcome (remove_root page_hash base directory node keepRoot (prv M 0) (nxt M 0) s) M
    (inr (true, tidy keepRoot ((0, []) :: trim l))).
Proof.
  intros Hh Hp Hd. destruct (dir_ends M [] l Hd) as [-> ->]. unfold remove_root.
  assert (∀ s', holds s' M → points s' node (idx 0) → trim l = l →
    dir_outcome ((links ← mret (List.last l.*1 0, hd 0 l.*1);
      if keepRoot then mret true
      else _ ← (if (links.2 =? 0) && (links.1 =? 0) then v_erase node else mret ()); mret true) s') M
      (inr (true, tidy keepRoot ((0, []) :: trim l)))) as Hend.
  { intros s' Hh' Hp' ->. by apply remove_root_end. }
  destruct l as [|[b eb] l]; [by apply Hend|]. cbn [fmap list_fmap fst hd] in *.
  destruct (dir_nonzero M [] ((b, eb) :: l) b Hd) as [Hb Ib]; [set_solver|].
  assert (0 < List.last (b :: l.*1) 0) as Hl by (apply (dir_nonzero M [] ((b, eb) :: l) _ Hd); by apply last_elem).
  rewrite !(proj2 (Z.eqb_neq b 0)), (proj2 (Z.eqb_neq (List.last _ _) 0)) by lia. cbn [andb negb]. rewrite andb_true_r.
  destruct l as [|[c ec] l].
  - cbn [fmap list_fmap List.last] in *. rewrite Z.eqb_refl. destruct (dir_page _ _ Hd b eb) as (xb & Hxb & Pb); [set_solver|].
    destruct (page_peek s M b xb Hh Hxb (page_type _ _ _ Pb)) as (last & s1 & E1 & Hh1 & Hlast & Hpts1).
    destruct (deref_spec s1 M last (idx b) Hh1 Hlast) as (e & He & E2). assert (e = xb) as -> by congruence.
    rewrite bind_assoc. vstep E1. rewrite bind_assoc. cbn [require]. rewrite (bind_inr _ _ s1 last s1) by done. cbv beta.
    rewrite bind_assoc. vstep E2. rewrite (page_entries _ _ _ Pb).
    destruct eb as [|x eb]; [|apply Hend; [done|by apply Hpts1|done]].
    destruct (dir_page _ _ Hd 0 []) as (x0 & Hx0 & P0); [set_solver|].
    destruct (change_twice_spec s1 M node (idx 0) x0 (setFieldU64 sfIndexNext 0) (setFieldU64 sfIndexPrevious 0) Hh1 (Hpts1 _ _ Hp) Hx0 eq_refl)
      as (s2 & s3 & E3 & E4 & Hh3 & Hpts3).
    rewrite bind_assoc. vstep E3. rewrite bind_assoc. vstep E4.
    destruct (v_erase_spec m s3 _ last (idx b) Hh3 (Hpts3 _ _ Hlast)) as (s4 & E5 & Hh4 & Hpts4).
    rewrite bind_assoc. vstep E5.
    destruct (unlink_state M [] 0 [] b [] [] x0 (setFieldU64 sfIndexNext 0 x0) Hd Hx0) as [Hd4 Hs4]; [by rewrite lookup_insert_eq|].
    simpl in Hd4, Hs4. rewrite insert_insert_eq in Hd4, Hs4. eapply same_outcome; [exact Hs4|].
    apply (remove_root_end s4 _ keepRoot node []); [done| |done]. apply Hpts4; [|by apply Hpts3, Hpts1].
    intros E. apply idx_inj in E; [lia|apply in_pages_0|done].
  - match goal with |- context [b =? ?z] => assert (b < z) as Hz; [|rewrite (proj2 (Z.eqb_neq b z)) by lia; apply Hend; [done|done|by destruct eb]] end.
    pose proof (dir_sorted _ _ Hd) as D2. simpl in D2. inversion D2 as [|? ? D3 _]; subst. inversion D3 as [|? ? _ H3]; subst.
    rewrite Forall_forall in H3. apply H3. exact (last_elem (c :: l.*1) 0 ltac:(done)).
Qed.

(** A page goes that is not the root: the page before it and the one after are
    linked. *)
Lemma unlink_steps s M l1 (a : Z) ea (p : Z) ep l2 node :
  let b := hd 0 l2.*1 in
  holds s M → is_dir M (l1 ++ (a, ea) :: (p, ep) :: l2) → points s node (idx p) →
  ∃ prev s1 s2 next s3 s4 s5 M',
    peek base (page page_hash root a) s = inr (Some prev, s1) ∧
    change prev (setFieldU64 sfIndexNext b) s1 = inr ((), s2) ∧
    peek base (page page_hash root b) s2 = inr (Some next, s3) ∧
    change next (setFieldU64 sfIndexPrevious a) s3 = inr ((), s4) ∧
    v_erase node s4 = inr ((), s5) ∧
    holds s5 M' ∧ points s5 prev (idx a) ∧ points s5 next (idx b) ∧
    is_dir M' (l1 ++ (a, ea) :: l2) ∧ same_elsewhere M M'.
Proof.
  intros b Hh Hd Hp. destruct (dir_nums _ _ _ _ _ _ _ Hd) as (_ & N2 & _ & Ia & Ip & _).
  destruct (unlink_next _ _ _ _ _ _ _ Hd) as (Ib & Hbp & _).
  destruct (dir_page _ _ Hd a ea) as (xa & Hxa & Pa); [set_solver|].
  destruct (page_peek s M a xa Hh Hxa (page_type _ _ _ Pa)) as (prev & s1 & E1 & Hh1 & Hprev & Hpts1).
  destruct (change_spec s1 M prev (idx a) xa (setFieldU64 sfIndexNext b) Hh1 Hprev Hxa eq_refl) as (s2 & E2 & Hh2 & Hpts2).
  set (M2 := <[idx a := setFieldU64 sfIndexNext b xa]> M) in *.
  assert (∃ xb, M2 !! idx b = Some xb ∧ getType xb = ltDIR_NODE) as (xb & Hxb & Tb).
  { unfold M2. destruct (decide (a = b)) as [<-|Hne]; [rewrite lookup_insert_eq; eexists; split; [done|apply (page_type _ _ _ Pa)]|].
    rewrite lookup_page_ne by done. destruct (next_in_dir _ _ _ _ _ _ _ Hd) as [eb Hb].
    destruct (dir_page _ _ Hd b eb) as (xb & Hxb & Pb); [unfold b; set_solver|]. exists xb. split; [done|apply (page_type _ _ _ Pb)]. }
  destruct (page_peek s2 M2 b xb Hh2 Hxb Tb) as (next & s3 & E3 & Hh3 & Hnext & Hpts3).
  destruct (change_spec s3 M2 next (idx b) xb (setFieldU64 sfIndexPrevious a) Hh3 Hnext Hxb eq_refl) as (s4 & E4 & Hh4 & Hpts4).
  assert (points s4 node (idx p)) as Hnode by auto.
  destruct (v_erase_spec m s4 _ node (idx p) Hh4 Hnode) as (s5 & E5 & Hh5 & Hpts5).
  destruct (unlink_state M l1 a ea p ep l2 xa xb Hd Hxa Hxb) as [Hd' Hs'].
  eexists prev, s1, s2, next, s3, s4, s5, _. split_and!; try done.
  - apply Hpts5; [|by auto]. intros E. apply idx_inj in E; (done || lia).
  - apply Hpts5; [|by auto]. intros E. by apply idx_inj in E.
Qed.

(** The end: the root goes when it is empty and alone. *)
Lemma remove_page_end s M (keepRoot : bool) prev l1 (a : Z) ea l :
  holds s M → points s prev (idx a) → is_dir M (l1 ++ (a, ea) :: l) → (a = 0 ↔ l1 = []) →
  dir_outcome ((_ ← (if negb keepRoot && (hd 0 l.*1 =? 0) && (a =? 0)
                     then sle ← deref prev;
                          match getFieldV256 sfIndexes sle with [] => v_erase prev | _ => mret () end
                     else mret ()); mret true) s)
    M (inr (true, tidy keepRoot (l1 ++ (a, ea) :: l))).
Proof.
  intros Hh Hp Hd Ha. assert (∀ pages', tidy keepRoot (l1 ++ (a, ea) :: l) = pages' → pages' = l1 ++ (a, ea) :: l →
    dir_outcome ((_ ← (mret () : View ()); mret true) s) M (inr (true, tidy keepRoot (l1 ++ (a, ea) :: l)))) as Hsame.
  { intros ? -> ->. by exists s, M. }
  destruct keepRoot; [eapply Hsame; [done|]; destruct l1 as [|[? [|]] [|]], ea, l; done|]. cbn [negb andb].
  destruct (Z.eqb_spec a 0) as [Ea|Ea].
  - rewrite andb_true_r. pose proof (proj1 Ha Ea) as ->. subst a. destruct l as [|[b eb] l].
    + simpl. destruct (deref_spec s M prev (idx 0) Hh Hp) as (e & He & E1). rewrite bind_assoc. vstep E1.
      destruct (dir_page _ _ Hd 0 ea) as (e' & He' & P); [set_solver|]. assert (e' = e) as -> by congruence.
      rewrite (page_entries _ _ _ P). destruct ea as [|x ea]; [|by apply (Hsame _ eq_refl)].
      destruct (v_erase_spec m s M prev (idx 0) Hh Hp) as (s' & E & Hh' & _). vstep E.
      exists s', (delete (idx 0) M). split_and!; [done|done|by eapply dir_drop_root|apply same_elsewhere_delete, in_pages_0].
    + destruct (dir_nonzero M ea ((b, eb) :: l) b Hd) as [Hb _]; [set_solver|].
      cbn [fmap list_fmap fst hd]. rewrite (proj2 (Z.eqb_neq b 0)) by lia. by apply (Hsame _ eq_refl); destruct ea.
  - rewrite andb_false_r. eapply Hsame; [done|]. destruct l1 as [|[? [|]] [|]]; try done. by exfalso; apply Ea, Ha.
Qed.

(** The last page goes after the one before it did. *)
Lemma drop_last_steps s M l1 (a : Z) ea (b : Z) eb prev next :
  holds s M → is_dir M (l1 ++ (a, ea) :: [(b, eb)]) → points s prev (idx a) → points s next (idx b) →
  ∃ s1 s2 rt s3 s4 M',
    v_erase next s = inr ((), s1) ∧ change prev (setFieldU64 sfIndexNext 0) s1 = inr ((), s2) ∧
    peek base (page page_hash root 0) s2 = inr (Some rt, s3) ∧
    change rt (setFieldU64 sfIndexPrevious a) s3 = inr ((), s4) ∧
    holds s4 M' ∧ points s4 prev (idx a) ∧ is_dir M' (l1 ++ [(a, ea)]) ∧ same_elsewhere M M'.
Proof.
  intros Hh Hd Hprev Hnext. destruct (dir_nums _ _ _ _ _ _ _ Hd) as (_ & N2 & _ & Ia & Ib & _).
  assert (idx b ≠ idx a) as Hab by (intros E; apply idx_inj in E; (done || lia)).
  assert (idx b ≠ idx 0) as Hb0 by (intros E; apply idx_inj in E; (done || lia || apply in_pages_0)).
  destruct (v_erase_spec m s M next (idx b) Hh Hnext) as (s1 & E1 & Hh1 & Hpts1).
  destruct (dir_page _ _ Hd a ea) as (xa & Hxa & Pa); [set_solver|].
  assert (points s1 prev (idx a)) as Hprev1 by (apply Hpts1; done).
  destruct (change_spec s1 _ prev (idx a) xa (setFieldU64 sfIndexNext 0) Hh1 Hprev1) as (s2 & E2 & Hh2 & Hpts2);
    [by rewrite lookup_delete_ne|done|]. rewrite <- delete_insert_ne in Hh2 by done.
  set (M2 := <[idx a := setFieldU64 sfIndexNext 0 xa]> M) in *.
  assert (∃ xr, M2 !! idx 0 = Some xr ∧ getType xr = ltDIR_NODE) as (xr & Hxr & Tr).
  { destruct (dir_root _ _ Hd) as (es0 & r & _ & Hr & Pr); [by destruct l1|]. unfold M2.
    destruct (decide (a = 0)) as [->|Hne]; [rewrite lookup_insert_eq; eexists; split; [done|apply (page_type _ _ _ Pa)]|].
    rewrite lookup_page_ne by (done || apply in_pages_0). exists r. split; [done|apply (page_type _ _ _ Pr)]. }
  destruct (page_peek s2 (delete (idx b) M2) 0 xr Hh2) as (rt & s3 & E3 & Hh3 & Hrt & Hpts3); [by rewrite lookup_delete_ne|done|].
  destruct (change_spec s3 _ rt (idx 0) xr (setFieldU64 sfIndexPrevious a) Hh3 Hrt) as (s4 & E4 & Hh4 & Hpts4);
    [by rewrite lookup_delete_ne|done|]. rewrite <- delete_insert_ne in Hh4 by done.
  destruct (unlink_state M l1 a ea b eb [] xa xr Hd Hxa Hxr) as [Hd' Hs'].
  eexists s1, s2, rt, s3, s4, _. split_and!; try done. by auto.
Qed.

Lemma remove_page_spec s M keepRoot node l1 (a : Z) ea (p : Z) l2 :
  holds s M → points s node (idx p) → is_dir M (l1 ++ (a, ea) :: (p, []) :: l2) →
  dir_outcome (remove_page page_hash base directory p node keepRoot (prv M p) (nxt M p) s) M
    (inr (true, tidy keepRoot (l1 ++ (a, ea) :: trim l2))).
Proof.
  intros Hh Hp Hd. destruct (dir_mid _ _ _ _ _ _ _ Hd) as [-> ->].
  destruct (dir_nums _ _ _ _ _ _ _ Hd) as (_ & N2 & N3 & Ia & _ & I2 & _ & Ha0). destruct (unlink_next _ _ _ _ _ _ _ Hd) as (Ib & Hbp & _).
  destruct (unlink_steps s M l1 a ea p [] l2 node Hh Hd Hp)
    as (prev & s1 & s2 & next & s3 & s4 & s5 & M' & E1 & E2 & E3 & E4 & E5 & Hh5 & Hprev & Hnext & Hd' & Hs').
  unfold remove_page. rewrite (proj2 (Z.eqb_neq _ p) Hbp), (proj2 (Z.eqb_neq a p)) by lia.
  vstep E1. cbn [require]. rewrite (bind_inr _ _ s1 prev s1) by done. cbv beta. vstep E2. vstep E3.
  rewrite (bind_inr _ _ s3 next s3) by done. cbv beta. vstep E4. vstep E5.
  destruct (deref_spec s5 M' next (idx (hd 0 l2.*1)) Hh5 Hnext) as (xb & Hxb & E6). vstep E6.
  eapply same_outcome; [exact Hs'|]. rewrite (nxt_page _ _ _ Hxb).
  assert (trim l2 = l2 → dir_outcome ((nextPage ← (mret (hd 0 l2.*1) : View Z);
    _ ← (if negb keepRoot && (nextPage =? 0) && (a =? 0)
         then sle ← deref prev; match getFieldV256 sfIndexes sle with [] => v_erase prev | _ => mret () end
         else mret ()); mret true) s5) M' (inr (true, tidy keepRoot (l1 ++ (a, ea) :: trim l2)))) as Hend.
  { intros ->. by apply remove_page_end. }
  destruct l2 as [|[b eb] l2]; [by apply Hend|]. cbn [fmap list_fmap fst hd] in *.
  rewrite (proj2 (Z.eqb_neq b 0)) by (specialize (N3 b); set_solver by lia). cbn [andb negb].
  destruct (dir_mid _ _ _ _ _ _ _ Hd') as [_ ->]. destruct (dir_page _ _ Hd' b eb) as (e & He & Pb); [set_solver|].
  assert (e = xb) as -> by congruence. rewrite (page_entries _ _ _ Pb).
  destruct (decide (eb = [] ∧ l2 = [])) as [[-> ->]|Hne].
  - cbn [hd fmap list_fmap]. rewrite Z.eqb_refl, bool_decide_true by done. cbn [andb].
    destruct (drop_last_steps s5 M' l1 a ea b [] prev next Hh5 Hd' Hprev Hnext)
      as (s6 & s7 & rt & s8 & s9 & M'' & F1 & F2 & F3 & F4 & Hh9 & Hprev9 & Hd'' & Hs'').
    rewrite bind_assoc. vstep F1. rewrite bind_assoc. vstep F2. rewrite bind_assoc. vstep F3.
    rewrite bind_assoc, (bind_inr _ _ s8 rt s8) by done. cbv beta. rewrite bind_assoc. vstep F4.
    eapply same_outcome; [exact Hs''|]. by apply (remove_page_end s9 M'' keepRoot prev l1 a ea []).
  - assert ((hd 0 l2.*1 =? 0) && bool_decide (eb = []) = false) as ->; [|apply Hend; destruct eb, l2; naive_solver].
    case_bool_decide; [|apply andb_false_r]. rewrite andb_true_r. apply Z.eqb_neq. destruct l2 as [|[c ec] l2]; [naive_solver|].
    simpl. specialize (N3 c). set_solver by lia.
Qed.

Lemma dirRemove_spec s M pages keepRoot pg key :
  holds s M → is_dir M pages → in_pages pg →
  dir_outcome (dirRemove page_hash base directory pg key keepRoot s) M (inr (remove_pages keepRoot pg key pages)).
Proof.
  intros Hh Hd Hpg. unfold dirRemove, remove_pages. change (k_key directory) with root.
  destruct (decide (pg ∈ pages.*1)) as [(l1 & es & l2 & ->)%page_split|Hno].
  2:{ pose proof (dir_alone _ _ Hd pg Hpg Hno) as Hn.
      vstep (peek_none m base Hbase s M (page page_hash root pg) Hh Hn). rewrite take_key_none by done. by exists s, M. }
  assert (pg ∉ l1.*1) as Hl1.
  { pose proof (sorted_lt_nodup _ (dir_sorted _ _ Hd)) as Hnd. rewrite fmap_app in Hnd. apply NoDup_app in Hnd as (_ & Hnd & _).
    intros Hin. apply (Hnd pg Hin). apply list_elem_of_here. }
  rewrite take_key_app by done. destruct (dir_page _ _ Hd pg es) as (e & He & P); [set_solver|].
  destruct (page_peek s M pg e Hh He (page_type _ _ _ P)) as (node & s1 & E1 & Hh1 & Hnode & _). vstep E1.
  destruct (deref_spec s1 M node (idx pg) Hh1 Hnode) as (e' & He' & E2). assert (e' = e) as -> by congruence. vstep E2.
  rewrite (page_entries _ _ _ P). cbn [take_key]. rewrite Z.eqb_refl. case_bool_decide as Hkey; [|by exists s1, M]. cbn [negb].
  destruct (change_spec s1 M node (idx pg) e (setFieldV256 sfIndexes (erase_first key es)) Hh1 Hnode He eq_refl) as (s2 & E3 & Hh2 & Hpts2).
  vstep E3. pose proof (dir_set_entries M l1 pg es l2 e (erase_first key es) Hd He) as Hd2. apply Hpts2 in Hnode.
  eapply same_outcome; [exact (same_elsewhere_insert M pg (setFieldV256 sfIndexes (erase_first key es) e) Hpg)|]. set (M2 := <[idx pg := _]> M) in *.
  destruct (erase_first key es) as [|x es'].
  - destruct (deref_spec s2 M2 node (idx pg) Hh2 Hnode) as (e2 & He2 & E4). vstep E4.
    rewrite (prv_page _ _ _ He2), (nxt_page _ _ _ He2). cbn [fmap option_fmap option_map]. destruct (Z.eqb_spec pg 0) as [->|Hp0].
    + assert (l1 = []) as ->; [|by apply remove_root_spec]. pose proof (dir_first _ _ Hd) as D1.
      destruct l1 as [|[z ez] l1]; [done|]. simpl in D1. subst z. exfalso. apply Hl1. apply list_elem_of_here.
    + destruct l1 as [|[a ea] l1 _] using rev_ind; [by pose proof (dir_first _ _ Hd)|].
      rewrite <- app_assoc in Hd2 |- *. simpl in Hd2 |- *. by apply remove_page_spec.
  - cbn [fmap option_fmap option_map]. exists s2, M2. rewrite tidy_entries. done.
Qed.
End operations.
End spec.

(** * Additions without sorted directories

    [dirAdd] of impl/View.cpp before the amendment that keeps directories sorted:
    a key goes to the end of the last page, or to a new one. *)

Definition append_pages (key : Z) (pages : Pages) : option Z * Pages :=
  match last pages with
  | None => (Some 0, [(0, [key])])
  | Some (n, es) =>
      if negb (Z.of_nat (length es) =? dirNodeMaxEntries)
      then (Some n, removelast pages ++ [(n, es ++ [key])])
      else (Some (n + 1), pages ++ [(n + 1, [key])])
  end.

Section unsorted.
Context (page_hash : Z → Z → Z) (root : Z).
#[local] Abbreviation idx := (getDirNodeIndex page_hash root).
#[local] Abbreviation is_dir := (is_dir page_hash root).
#[local] Abbreviation is_page := (is_page page_hash root).
Context (idx_inj : ∀ i j, in_pages i → in_pages j → idx i = idx j → i = j).
Context (m : gmap Z SLE) (Hm : keys_ok m) (base : ReadView) (Hbase : shows base m).
Implicit Types (s : VState) (M : gmap Z SLE).
#[local] Abbreviation holds := (holds m).
#[local] Abbreviation directory := (page page_hash root 0).
#[local] Abbreviation dir_outcome := (dir_outcome page_hash root m).

(** A new page in the table, and one more field of it set. *)
Lemma new_page_written s M (k : Keylet) :
  holds s M → M !! k_key k = None →
  ∃ p s1 s2 s3, make_shared (new_sle k) s = inr (p, s1) ∧ set_sle p (setFieldH256 sfRootIndex root) s1 = inr ((), s2) ∧
    v_insert p s2 = inr ((), s3) ∧ written s3 p (k_key k) ∧
    holds s3 (<[k_key k := setFieldH256 sfRootIndex root (new_sle k)]> M).
Proof.
  intros Hh HM. destruct (make_shared_spec m s M (new_sle k) Hh) as (p & s1 & E1 & Hp1 & L1 & Hh1 & _).
  destruct (set_loose_spec m s1 M p _ (setFieldH256 sfRootIndex root) Hh1 L1 Hp1) as (s2 & E2 & Hp2 & L2 & Hh2 & _).
  destruct (v_insert_spec m s2 M p _ Hh2 L2 Hp2 HM) as (s3 & E3 & Hh3 & _ & _).
  exists p, s1, s2, s3. split_and!; try done. by apply (v_insert_written _ _ _ _ Hp2 E3).
Qed.

Lemma set_again s M p k e f :
  holds s (<[k := e]> M) → written s p k → sle_key (f e) = sle_key e →
  ∃ s', set_sle p f s = inr ((), s') ∧ holds s' (<[k := f e]> M) ∧ written s' p k.
Proof.
  intros Hh W Hf. destruct (set_written_spec m s _ p k e f Hh W (lookup_insert_eq M k e) Hf) as (s' & E & Hh' & W').
  rewrite insert_insert_eq in Hh'. eauto.
Qed.

Lemma append_new_root s M key describe :
  describes describe → holds s M → is_dir M [] →
  dir_outcome (dirAdd_unsorted page_hash base directory key describe s) M (inr (Some 0, [(0, [key])])).
Proof.
  intros Hdesc Hh Hd. assert (M !! idx 0 = None) as Hn by (apply (dir_alone _ _ _ _ Hd); [apply in_pages_0|set_solver]).
  unfold dirAdd_unsorted. vstep (peek_none m base Hbase s M directory Hh Hn).
  destruct (new_page_written s M directory Hh Hn) as (p & s1 & s2 & s3 & E1 & E2 & E3 & W3 & Hh3).
  change (k_key directory) with root. vstep E1. vstep E2. vstep E3.
  destruct (Hdesc (setFieldH256 sfRootIndex root (new_sle directory))) as (K1 & K2 & K3 & K4 & K5 & K6).
  destruct (set_again s3 M p _ _ describe Hh3 W3 K1) as (s4 & E4 & Hh4 & W4). vstep E4.
  destruct (set_again s4 M p _ _ (setFieldV256 sfIndexes [key]) Hh4 W4 eq_refl) as (s5 & E5 & Hh5 & W5). vstep E5.
  eexists s5, _. split; [done|]. split; [exact Hh5|].
  apply new_root_state; [done..| |done|done]. split; [done|done| |].
  - unfold getFieldH256 in *. simpl in *. rewrite K3. by rewrite lookup_insert_eq.
  - unfold getFieldV256. simpl. by rewrite lookup_insert_eq.
Qed.

(** The pointers to the root and to the last page. *)
Lemma last_node' s M l n es :
  holds s M → is_dir M (l ++ [(n, es)]) →
  ∃ p0 s1 e0 pn s2, peek base directory s = inr (Some p0, s1) ∧ deref p0 s1 = inr (e0, s1) ∧
    getFieldU64 sfIndexPrevious e0 = n ∧
    (if n =? 0 then mret p0 else o ← peek base (page page_hash root n); require o dangling) s1 = inr (pn, s2) ∧
    holds s2 M ∧ points s2 p0 (idx 0) ∧ points s2 pn (idx n).
Proof.
  intros Hh Hd. destruct (last_node page_hash root idx_inj m Hm base Hbase s M l n es Hh Hd)
    as (p0 & s1 & e0 & pn & s2 & E1 & E2 & En & E3 & Hrest). exists p0, s1, e0, pn, s2. split_and!; try done; try apply Hrest.
  destruct (Z.eqb_spec n 0); [done|]. apply bind_inv in E3 as (o & s' & Eo & E3). vstep Eo. by destruct o.
Qed.

Lemma append_to_last s M l n es key describe :
  holds s M → is_dir M (l ++ [(n, es)]) → Z.of_nat (length es) ≠ dirNodeMaxEntries →
  dir_outcome (dirAdd_unsorted page_hash base directory key describe s) M (inr (Some n, l ++ [(n, es ++ [key])])).
Proof.
  intros Hh Hd Hlen. destruct (last_node' s M l n es Hh Hd) as (p0 & s1 & e0 & pn & s2 & E1 & E2 & En & E3 & Hh2 & Hp0 & Hpn).
  unfold dirAdd_unsorted. vstep E1. vstep E2. rewrite En. vstep E3. destruct (deref_spec m s2 M pn (idx n) Hh2 Hpn) as (en & Hen & E4). vstep E4.
  destruct (dir_page _ _ _ _ Hd n es) as (e & He & Pn); [set_solver|]. assert (e = en) as -> by congruence.
  rewrite (page_entries _ _ _ _ _ Pn). rewrite (proj2 (Z.eqb_neq _ _) Hlen). cbn [negb].
  destruct (points_entry m s2 M pn (idx n) Hh2 Hpn) as (x & Hx & HMx & _). assert (x = en) as -> by congruence.
  rewrite <- bind_assoc. 
  destruct (change_spec m s2 M pn (idx n) en (setFieldV256 sfIndexes (es ++ [key])) Hh2 Hpn Hen eq_refl) as (s3 & E5 & Hh3 & _).
  rewrite (bind_inr _ _ s2 () s3); [|by rewrite (update_then_set s2 pn en)].
  eexists s3, _. split; [done|]. split; [exact Hh3|]. split; [by apply (dir_set_entries page_hash root idx_inj M l n es [])|].
  apply same_elsewhere_insert, (dir_range_of _ _ M _ _ es Hd). set_solver.
Qed.

Lemma append_new_page s M l n es key describe :
  describes describe → holds s M → is_dir M (l ++ [(n, es)]) →
  Z.of_nat (length es) = dirNodeMaxEntries → in_pages (n + 1) →
  dir_outcome (dirAdd_unsorted page_hash base directory key describe s) M
    (inr (Some (n + 1), l ++ [(n, es)] ++ [(n + 1, [key])])).
Proof.
  intros Hdesc Hh Hd Hlen Hn'. destruct (last_node' s M l n es Hh Hd) as (p0 & s1 & e0 & pn & s2 & E1 & E2 & En & E3 & Hh2 & Hp0 & Hpn).
  assert (in_pages n) as Hn by (apply (dir_range_of page_hash root M _ _ es Hd); set_solver).
  unfold dirAdd_unsorted. vstep E1. vstep E2. rewrite En. vstep E3.
  destruct (deref_spec m s2 M pn (idx n) Hh2 Hpn) as (en & Hen & E4). vstep E4.
  destruct (dir_page _ _ _ _ Hd n es) as (e & He & Pn); [set_solver|]. assert (e = en) as -> by congruence. clear He.
  rewrite (page_entries _ _ _ _ _ Pn), Hlen, Z.eqb_refl. cbn [negb].
  assert (u64 (n + 1) = n + 1) as -> by (apply u64_small; unfold in_pages, dirNodeMaxPages in Hn; lia).
  rewrite (proj2 (Z.eqb_neq (n + 1) 0)) by (unfold in_pages in Hn; lia). set (n' := n + 1) in *.
  destruct (link_steps page_hash root idx_inj m Hm base Hbase s2 M l n es en p0 pn Hh2 Hd Hn' Hen Hp0 Hpn) as (s3 & r & s4 & E5 & Hr & E6 & Hh4 & Hnone2).
  vstep E5. vstep E6. set (M2 := <[idx 0 := _]> _) in *.
  destruct (new_page_written s4 M2 (page page_hash root n') Hh4 Hnone2) as (p & s5 & s6 & s7 & E7 & E8 & E9 & W7 & Hh7).
  change (k_key directory) with root. vstep E7. vstep E8. vstep E9. change (k_key (page page_hash root n')) with (idx n') in *.
  set (x := setFieldH256 sfRootIndex root (new_sle (page page_hash root n'))) in *.
  assert (∃ s8 x', (if n' =? 1 then mret () else set_sle p (setFieldU64 sfIndexPrevious (n' - 1))) s7 = inr ((), s8) ∧
    holds s8 (<[idx n' := x']> M2) ∧ written s8 p (idx n') ∧ is_page n' [] x' ∧
    getFieldU64 sfIndexNext x' = 0 ∧ getFieldU64 sfIndexPrevious x' = n) as (s8 & x' & E10 & Hh8 & W8 & Px & Nx & Rx).
  { assert (is_page n' [] x) as Px by (split; [done|done| |done]; unfold x, getFieldH256; simpl; by rewrite lookup_insert_eq).
    destruct (Z.eqb_spec n' 1) as [E|E].
    - exists s7, x. split_and!; try done. assert (n = 0) by lia. by subst n.
    - destruct (set_again s7 M2 p _ x (setFieldU64 sfIndexPrevious (n' - 1)) Hh7 W7 eq_refl) as (s8 & E10 & Hh8 & W8).
      exists s8, (setFieldU64 sfIndexPrevious (n' - 1) x). split_and!; try done; try by apply is_page_link.
      rewrite getFieldU64_set. case_decide; [lia|done]. }
  vstep E10. destruct (Hdesc x') as (K1 & K2 & K3 & K4 & K5 & K6).
  destruct (set_again s8 M2 p _ x' describe Hh8 W8 K1) as (s9 & E11 & Hh9 & W9). vstep E11.
  destruct (set_again s9 M2 p _ (describe x') (setFieldV256 sfIndexes [key]) Hh9 W9 eq_refl) as (s10 & E12 & Hh10 & _). vstep E12.
  eexists s10, _. split; [done|]. split; [exact Hh10|]. apply append_state; try done.
  - destruct Px as [P1 P2 P3 _]. split; [exact (eq_trans K1 P1)|exact (eq_trans K2 P2)|exact (eq_trans K3 P3)|].
    unfold getFieldV256. simpl. by rewrite lookup_insert_eq.
  - exact (eq_trans K5 Nx).
  - exact (eq_trans K6 Rx).
Qed.

Lemma dirAdd_unsorted_spec s M pages key describe :
  describes describe → holds s M → is_dir M pages →
  (∀ n es, last pages = Some (n, es) → in_pages (n + 1)) →
  dir_outcome (dirAdd_unsorted page_hash base directory key describe s) M (inr (append_pages key pages)).
Proof.
  intros Hdesc Hh Hd Hroom. unfold append_pages. destruct pages as [|[n es] l _] using rev_ind; [by apply append_new_root|].
  specialize (Hroom n es). rewrite last_snoc in Hroom |- *. rewrite removelast_snoc.
  destruct (Z.eqb_spec (Z.of_nat (length es)) dirNodeMaxEntries); cbn [negb].
  - rewrite <- app_assoc. by apply append_new_page; [..|apply Hroom].
  - by apply append_to_last.
Qed.
End unsorted.
