(* ===== verification/DirectoryTheorems.v ===== *)
(** * Directories: what is kept and what is visited

    The claims about ledger/impl/ApplyView.cpp, Directory.cpp and the directory
    functions of View.cpp. *)

From stdpp Require Import prelude gmap strings sorting.
From Stdlib Require Import ZArith Lia.
From S2P Require Import Prelude.
From S2P Require Import LedgerEntry.
From S2P Require Import RawStateTable.
From S2P Require Import RawStateSpec.
From S2P Require Import ApplyStateTable.
From S2P Require Import ApplyStateSpec.
From S2P Require Import LedgerViewTheorems.
From S2P Require Import Directory.
From S2P Require Import DirectorySpec.

(** The keys of a directory with their pages. *)
Definition page_keys (p : Z * list Z) : list (Z * Z) := pair p.1 <$> p.2.
Definition entries (pages : Pages) : list (Z * Z) := concat (page_keys <$> pages).
Definition keys (pages : Pages) : list Z := concat pages.*2.

(** Pages are not overfull, and only the root may be empty. *)
Definition filled (p : Z * list Z) : Prop :=
  Z.of_nat (length p.2) ≤ dirNodeMaxEntries ∧ (p.1 ≠ 0 → p.2 ≠ []).

(** ** Lists of pages *)
Lemma entries_app l l' : entries (l ++ l') = entries l ++ entries l'.
Proof. unfold entries. by rewrite fmap_app, concat_app. Qed.
Lemma entries_cons p l : entries (p :: l) = page_keys p ++ entries l.
Proof. done. Qed.
Lemma entries_snoc l p : entries (l ++ [p]) = entries l ++ page_keys p.
Proof. rewrite entries_app. unfold entries at 2. simpl. by rewrite app_nil_r. Qed.

Lemma insert_lower_perm key l : insert_lower key l ≡ₚ l ++ [key].
Proof.
  induction l as [|x l IH]; simpl; [done|]. destruct (x <? key); [by rewrite IH|].
  rewrite (Permutation_app_comm l [key]). simpl. apply Permutation_swap.
Qed.
Lemma placed_perm order key es : placed order key es ≡ₚ es ++ [key].
Proof. unfold placed. destruct order; [done|]. by rewrite insert_lower_perm, merge_sort_Permutation. Qed.

Lemma insert_lower_sorted key l : Sorted Z.le l → Sorted Z.le (insert_lower key l).
Proof.
  induction 1 as [|x l Hs IH Hh]; simpl; [by repeat constructor|]. destruct (Z.ltb_spec x key).
  - constructor; [done|]. destruct l as [|y l]; simpl; [constructor; lia|].
    inversion Hh; subst. destruct (Z.ltb_spec y key); constructor; lia.
  - constructor; [by constructor|]. constructor. lia.
Qed.
Lemma placed_sorted key es : Sorted Z.le (placed false key es).
Proof. unfold placed. apply insert_lower_sorted, Sorted_merge_sort, _. Qed.

Lemma erase_first_perm key es : key ∈ es → key :: erase_first key es ≡ₚ es.
Proof.
  induction es as [|x es IH]; intros Hin; simpl; [by apply not_elem_of_nil in Hin|].
  destruct (Z.eqb_spec x key) as [->|Hne]; [done|]. rewrite Permutation_swap. f_equiv. apply IH. set_solver.
Qed.

Lemma page_keys_perm n es es' : es ≡ₚ es' → page_keys (n, es) ≡ₚ page_keys (n, es').
Proof. intros H. unfold page_keys. simpl. by rewrite H. Qed.

Lemma filled_one n key : filled (n, [key]).
Proof. split; simpl; [unfold dirNodeMaxEntries; lia|done]. Qed.
Lemma filled_root : filled (0, []).
Proof. split; simpl; [unfold dirNodeMaxEntries; lia|done]. Qed.

(** ** Additions *)
Lemma add_entries order key pages o pages' :
  add_pages order key pages = inr (o, pages') → Forall filled pages → Forall in_pages pages.*1 →
  Forall filled pages' ∧
  match o with
  | Some n => in_pages n ∧ entries pages' ≡ₚ entries pages ++ [(n, key)] ∧
              (order = true → entries pages' = entries pages ++ [(n, key)])
  | None => pages' = pages ∧ ∃ l es, pages = l ++ [(dirNodeMaxPages - 1, es)] ∧ Z.of_nat (length es) = dirNodeMaxEntries
  end.
Proof.
  intros Ha Hf Hr. unfold add_pages in Ha. destruct pages as [|[n es] l _] using rev_ind.
  { injection Ha as <- <-. split; [constructor; [apply filled_one|done]|]. split_and!; [apply in_pages_0|reflexivity|done]. }
  rewrite last_snoc, removelast_snoc in Ha. rewrite fmap_app in Hr. apply Forall_app in Hr as [_ Hr]. inversion Hr as [|? ? Hr' _]; subst. clear Hr. rename Hr' into Hr.
  apply Forall_app in Hf as [Hf1 Hf2]. inversion Hf2 as [|? ? [Hlen Hne] _]; subst. simpl in Hlen, Hne, Hr.
  destruct (Z.ltb_spec (Z.of_nat (length es)) dirNodeMaxEntries) as [Hlt|Hge].
  - case_bool_decide; [done|]. injection Ha as <- <-. pose proof (placed_perm order key es) as Hp. split.
    + apply Forall_app. split; [done|]. constructor; [|done]. split; simpl.
      * rewrite Hp, length_app. simpl. lia.
      * intros _ E. rewrite E in Hp. symmetry in Hp. apply Permutation_nil_r in Hp. by destruct es.
    + split; [exact Hr|]. rewrite !entries_snoc. split.
      * rewrite (page_keys_perm n _ _ Hp), <- app_assoc. unfold page_keys. simpl. by rewrite fmap_app.
      * intros ->. rewrite <- app_assoc. unfold page_keys. simpl. by rewrite fmap_app.
  - destruct (Z.leb_spec dirNodeMaxPages (n + 1)) as [Hm|Hm]; injection Ha as <- <-.
    + split; [by apply Forall_app|]. split; [done|]. exists l, es. unfold in_pages in Hr.
      split; [|lia]. by replace (dirNodeMaxPages - 1) with n by lia.
    + split; [|unfold in_pages in *; split; [lia|by rewrite (entries_snoc (l ++ _))]].
      apply Forall_app. split; [by apply Forall_app|]. constructor; [apply filled_one|done].
Qed.

Lemma append_agrees key pages :
  Forall filled pages → (∀ n es, last pages = Some (n, es) → (key ∉ es) ∧ n + 1 < dirNodeMaxPages) →
  add_pages true key pages = inr (append_pages key pages).
Proof.
  intros Hf Hl. unfold add_pages, append_pages. destruct (last pages) as [[n es]|] eqn:E; [|done].
  destruct (Hl n es eq_refl) as [Hk Hn]. apply last_Some_elem_of in E. rewrite Forall_forall in Hf.
  destruct (Hf _ E) as [Hlen _]. simpl in Hlen. rewrite (bool_decide_eq_false_2 _ Hk).
  destruct (Z.ltb_spec (Z.of_nat (length es)) dirNodeMaxEntries), (Z.eqb_spec (Z.of_nat (length es)) dirNodeMaxEntries); try lia; simpl; [done|].
  by rewrite (proj2 (Z.leb_gt _ _) Hn).
Qed.

(** ** Removals *)
Lemma trim_entries l : entries (trim l) = entries l.
Proof. by destruct l as [|[n [|x es]] [|]]. Qed.
Lemma tidy_keys keepRoot l : entries (tidy keepRoot l) = entries l.
Proof. by destruct l as [|[n [|x es]] [|]], keepRoot. Qed.
Lemma trim_filled l : Forall filled l → Forall filled (trim l).
Proof. by destruct l as [|[n [|x es]] [|]]. Qed.
Lemma tidy_filled keepRoot l : Forall filled l → Forall filled (tidy keepRoot l).
Proof. by destruct l as [|[n [|x es]] [|]], keepRoot. Qed.

Lemma page_keys_elem pg key n es : (pg, key) ∈ page_keys (n, es) ↔ pg = n ∧ key ∈ es.
Proof. unfold page_keys. simpl. rewrite list_elem_of_fmap. naive_solver. Qed.

Lemma entries_page pg key pages : (pg, key) ∈ entries pages → pg ∈ pages.*1.
Proof.
  induction pages as [|[n es] l IH]; [by intros H%not_elem_of_nil|]. rewrite entries_cons, elem_of_app, page_keys_elem. simpl. set_solver.
Qed.

Lemma take_key_entries pg key pages :
  NoDup pages.*1 → Forall filled pages →
  match take_key pg key pages with
  | None => (pg, key) ∉ entries pages
  | Some pages' => Forall filled pages' ∧ (pg, key) :: entries pages' ≡ₚ entries pages
  end.
Proof.
  intros Hnd Hf. induction pages as [|[n es] l IH]; simpl; [by intros H%not_elem_of_nil|].
  inversion Hf as [|? ? [Hlen Hne] Hf']; subst. simpl in Hlen, Hne. apply NoDup_cons in Hnd as [Hn Hnd]. specialize (IH Hnd Hf').
  rewrite entries_cons. destruct (Z.eqb_spec n pg) as [->|Hnp].
  - case_bool_decide as Hk.
    2:{ rewrite elem_of_app, page_keys_elem. intros [[_ ?]|?%entries_page]; done. }
    pose proof (erase_first_perm key es Hk) as Hp. rewrite <- (page_keys_perm pg _ _ Hp). simpl.
    destruct (erase_first key es) as [|x es'].
    + destruct (pg =? 0); simpl.
      * split; [constructor; [apply filled_root|by apply trim_filled]|]. by rewrite entries_cons, trim_entries.
      * split; [by apply trim_filled|]. by rewrite trim_entries.
    + split; [|done]. constructor; [|done]. split; simpl; [|done]. apply Permutation_length in Hp. simpl in Hp. lia.
  - destruct (take_key pg key l) as [l'|]; simpl.
    + destruct IH as [IH1 IH2]. split; [by constructor|]. rewrite entries_cons, <- IH2. by rewrite Permutation_middle.
    + rewrite elem_of_app, page_keys_elem. naive_solver.
Qed.

Lemma remove_entries keepRoot pg key pages b pages' :
  remove_pages keepRoot pg key pages = (b, pages') → NoDup pages.*1 → Forall filled pages →
  Forall filled pages' ∧ (b = true ↔ (pg, key) ∈ entries pages) ∧
  (if b then (pg, key) :: entries pages' ≡ₚ entries pages else pages' = pages).
Proof.
  intros Hr Hnd Hf. pose proof (take_key_entries pg key pages Hnd Hf) as Ht. unfold remove_pages in Hr.
  destruct (take_key pg key pages) as [l|]; injection Hr as <- <-.
  - destruct Ht as [Ht1 Ht2]. rewrite tidy_keys. split; [by apply tidy_filled|]. split; [|done].
    split; [|done]. intros _. rewrite <- Ht2. apply list_elem_of_here.
  - split; [done|]. split; [|done]. split; done.
Qed.

(** ** Runs of additions and removals *)
Inductive DirOp := DAdd (preserveOrder : bool) (key : Z) | DRemove (pg key : Z) (keepRoot : bool).
Inductive DirRes := RAdded (pg : option Z) | RRemoved (found : bool).

Section runs.
Context (page_hash : Z → Z → Z) (base : ReadView) (dir : Keylet) (describe : SLE → SLE).
Definition dir_op (op : DirOp) : View DirRes :=
  match op with
  | DAdd order key => o ← dirAdd page_hash base order dir key describe; mret (RAdded o)
  | DRemove pg key keepRoot => b ← dirRemove page_hash base dir pg key keepRoot; mret (RRemoved b)
  end.
Fixpoint dir_run (ops : list DirOp) : View (list DirRes) :=
  match ops with
  | [] => mret []
  | op :: ops => r ← dir_op op; rs ← dir_run ops; mret (r :: rs)
  end.
End runs.

Definition dir_op_spec (op : DirOp) (pages : Pages) : string + (DirRes * Pages) :=
  match op with
  | DAdd order key =>
      match add_pages order key pages with inl e => inl e | inr (o, pages) => inr (RAdded o, pages) end
  | DRemove pg key keepRoot => let '(b, pages) := remove_pages keepRoot pg key pages in inr (RRemoved b, pages)
  end.
Fixpoint dir_run_spec (ops : list DirOp) (pages : Pages) : string + (list DirRes * Pages) :=
  match ops with
  | [] => inr ([], pages)
  | op :: ops =>
      match dir_op_spec op pages with
      | inl e => inl e
      | inr (r, pages) => match dir_run_spec ops pages with inl e => inl e | inr (rs, pages) => inr (r :: rs, pages) end
      end
  end.
Definition dir_op_ok (op : DirOp) : Prop := match op with DRemove pg _ _ => in_pages pg | _ => True end.

Lemma dir_run_spec_error ops : ∀ pages e, dir_run_spec ops pages = inl e → e = "dirInsert: double insertion"%string.
Proof.
  induction ops as [|op ops IH]; intros pages e; simpl; [done|]. destruct (dir_op_spec op pages) as [e'|[r pages']] eqn:E.
  - intros [= <-]. destruct op as [order key|pg key keepRoot]; simpl in E.
    + unfold add_pages in E. destruct (last pages) as [[n es]|]; [|done]. destruct (_ <? _); [case_bool_decide; [by injection E|done]|].
      by destruct (_ <=? _).
    + by destruct (remove_pages keepRoot pg key pages).
  - destruct (dir_run_spec ops pages') as [|[]] eqn:E'; [|done]. intros [= <-]. by eapply IH.
Qed.

Section directory.
Context (page_hash : Z → Z → Z) (root : Z).
#[local] Abbreviation idx := (getDirNodeIndex page_hash root).
#[local] Abbreviation is_dir := (is_dir page_hash root).
#[local] Abbreviation directory := (page page_hash root 0).
Context (idx_inj : ∀ i j, in_pages i → in_pages j → idx i = idx j → i = j).

Section writing.
Context (m : gmap Z SLE) (Hm : keys_ok m) (base : ReadView) (Hbase : shows base m).
Context (describe : SLE → SLE) (Hdesc : describes describe).
#[local] Abbreviation holds := (holds m).
#[local] Abbreviation dir_outcome := (dir_outcome page_hash root m).
Implicit Types (s : VState) (M : gmap Z SLE).

Lemma outcome_bind {A B} (c : View A) (f : A → View B) s M spec spec' :
  dir_outcome (c s) M spec →
  match spec with
  | inl e => spec' = inl e
  | inr (a, pages) => ∀ s' M', holds s' M' → is_dir M' pages → dir_outcome (f a s') M' spec'
  end → dir_outcome ((c ≫= f) s) M spec'.
Proof.
  unfold DirectorySpec.dir_outcome at 1. destruct spec as [e|[a pages]].
  - intros E ->. simpl. unfold mbind, view_bind. by rewrite E.
  - intros (s' & M' & E & Hh & Hd & Hs) Hf. rewrite (bind_inr _ _ _ _ _ E). eapply same_outcome; [exact Hs|]. by apply Hf.
Qed.

Lemma outcome_ret {A} (a : A) s M pages : holds s M → is_dir M pages → dir_outcome ((mret a : View A) s) M (inr (a, pages)).
Proof. intros Hh Hd. by exists s, M. Qed.

Lemma dir_op_outcome op s M pages :
  holds s M → is_dir M pages → dir_op_ok op →
  dir_outcome (dir_op page_hash base directory describe op s) M (dir_op_spec op pages).
Proof.
  intros Hh Hd Hok. destruct op as [order key|pg key keepRoot]; simpl.
  - eapply outcome_bind; [by apply dirAdd_spec|]. destruct (add_pages order key pages) as [|[o pages']]; [done|].
    intros s' M' Hh' Hd'. by apply outcome_ret.
  - eapply outcome_bind; [by apply dirRemove_spec|]. destruct (remove_pages keepRoot pg key pages) as [b pages'].
    intros s' M' Hh' Hd'. by apply outcome_ret.
Qed.

Lemma dir_run_outcome ops : ∀ s M pages,
  holds s M → is_dir M pages → Forall dir_op_ok ops →
  dir_outcome (dir_run page_hash base directory describe ops s) M (dir_run_spec ops pages).
Proof.
  induction ops as [|op ops IH]; intros s M pages Hh Hd Hok; cbn [dir_run dir_run_spec]; [by apply outcome_ret|].
  inversion Hok as [|? ? Hop Hops]; subst. eapply outcome_bind; [by apply dir_op_outcome|].
  destruct (dir_op_spec op pages) as [|[r pages1]]; [done|]. intros s1 M1 Hh1 Hd1.
  eapply outcome_bind; [by apply IH|]. destruct (dir_run_spec ops pages1) as [|[rs pages2]]; [done|].
  intros s2 M2 Hh2 Hd2. by apply outcome_ret.
Qed.
End writing.

(** ** Reading *)
Section reading.
Context (M : gmap Z SLE) (pages : Pages) (Hd : is_dir M pages) (view : ReadView) (Hview : shows view M).

Lemma read_page n es : (n, es) ∈ pages →
  ∃ e, rv_read view (page page_hash root n) = Some e ∧ M !! idx n = Some e ∧ getFieldV256 sfIndexes e = es.
Proof.
  intros Hin. destruct (dir_page _ _ _ _ Hd n es Hin) as (e & He & P). exists e. split; [|split; [done|by apply P]].
  rewrite (shows_read _ _ Hview). simpl. rewrite He. simpl. unfold check. simpl. by rewrite (page_type _ _ _ _ _ P).
Qed.

(** The link of a page, wherever it is. *)
Lemma next_page l1 n es l2 e :
  pages = l1 ++ (n, es) :: l2 → M !! idx n = Some e →
  getFieldU64 sfIndexNext e = hd 0 l2.*1 ∧ (l2 ≠ [] → hd 0 l2.*1 ≠ 0).
Proof.
  intros Hp He. rewrite (nxt_page page_hash root M n e He). destruct l1 as [|[a ea] l1 _] using rev_ind.
  - pose proof (dir_first _ _ _ _ Hd) as H0. rewrite Hp in H0, Hd. simpl in H0. subst n.
    destruct (dir_ends page_hash root M es l2 Hd) as [-> _]. split; [done|]. intros Hne.
    destruct l2 as [|[z ez] l2]; [done|]. destruct (dir_nonzero page_hash root M es ((z, ez) :: l2) z Hd); [set_solver|simpl; lia].
  - rewrite <- app_assoc in Hp. simpl in Hp. rewrite Hp in Hd.
    destruct (dir_mid page_hash root M l1 a ea n es l2 Hd) as [_ ->]. split; [done|]. intros Hne.
    destruct (dir_nums page_hash root idx_inj M l1 a ea n es l2 Hd) as (_ & N2 & N3 & _).
    destruct l2 as [|[z ez] l2]; [done|]. simpl. specialize (N3 z). set_solver by lia.
Qed.

Lemma forEachItem_loop_spec l2 : ∀ fuel l1 n es,
  pages = l1 ++ (n, es) :: l2 → (length l2 < fuel)%nat →
  forEachItem_loop page_hash view fuel root (page page_hash root n) = Some (es ++ keys l2).
Proof.
  induction l2 as [|[n2 es2] l2 IH]; intros [|fuel] l1 n es Hp Hf; simpl in Hf; [lia| |lia|].
  - destruct (read_page n es) as (e & E & He & Hes); [rewrite Hp; set_solver|]. simpl. rewrite E.
    destruct (next_page l1 n es [] e Hp He) as [-> _]. simpl. by rewrite Hes, app_nil_r.
  - destruct (read_page n es) as (e & E & He & Hes); [rewrite Hp; set_solver|]. cbn [forEachItem_loop]. rewrite E.
    destruct (next_page l1 n es ((n2, es2) :: l2) e Hp He) as [-> Hne]. cbn [fmap list_fmap fst hd] in *.
    rewrite (proj2 (Z.eqb_neq n2 0)) by by apply Hne. rewrite (IH fuel (l1 ++ [(n, es)]) n2 es2); [by rewrite Hes| |lia].
    by rewrite <- app_assoc.
Qed.

(** The number of pages is within the fuel. *)
Lemma sorted_count (l : list Z) : ∀ lo hi, StronglySorted Z.lt l → Forall (λ n, lo ≤ n < hi) l → Z.of_nat (length l) ≤ Z.max 0 (hi - lo).
Proof.
  induction l as [|x l IH]; intros lo hi Hs Hr; simpl; [lia|]. inversion Hs as [|? ? Hs' Hall]; subst.
  inversion Hr as [|? ? Hx Hr']; subst. specialize (IH (x + 1) hi Hs').
  assert (Forall (λ n, x + 1 ≤ n < hi) l); [|specialize (IH ltac:(done)); lia].
  rewrite Forall_forall in *. intros y Hy. specialize (Hall y Hy). specialize (Hr' y Hy). simpl in *. lia.
Qed.
Lemma pages_count : (length pages < pages_fuel)%nat.
Proof.
  pose proof (sorted_count pages.*1 0 dirNodeMaxPages (dir_sorted _ _ _ _ Hd) (dir_range _ _ _ _ Hd)) as H.
  rewrite length_fmap in H. unfold dirNodeMaxPages in H. unfold pages_fuel. lia.
Qed.
#[local] Opaque pages_fuel.

Lemma dir_shape : (pages = [] ∧ rv_read view directory = None) ∨ ∃ es l, pages = (0, es) :: l.
Proof.
  pose proof (dir_first _ _ _ _ Hd) as H0. destruct pages as [|[n es] l]; [left|right; simpl in H0; subst n; eauto].
  split; [done|]. rewrite (shows_read _ _ Hview). simpl. by rewrite (dir_alone _ _ _ _ Hd 0 in_pages_0) by set_solver.
Qed.

Lemma forEachItem_spec : forEachItem page_hash view directory = Some (keys pages).
Proof.
  unfold forEachItem. pose proof pages_count as Hc. destruct dir_shape as [[Hp E]|(es & l & Hp)]; rewrite Hp in Hc |- *; simpl in Hc.
  - destruct pages_fuel as [|fuel]; [lia|]. simpl. by rewrite E.
  - apply (forEachItem_loop_spec l pages_fuel [] 0 es Hp). lia.
Qed.

Lemma dirIsEmpty_spec : Forall filled pages → dirIsEmpty view directory = bool_decide (keys pages = []).
Proof.
  intros Hf. unfold dirIsEmpty. destruct dir_shape as [[Hp E]|(es & l & Hp)]; [rewrite E, Hp; done|].
  destruct (read_page 0 es) as (e & E & He & Hes); [rewrite Hp; set_solver|]. rewrite E, Hes.
  destruct (next_page [] 0 es l e Hp He) as [-> Hne]. rewrite Hp in Hf |- *. unfold keys.
  destruct es as [|x es]; [|done]. simpl. destruct l as [|[z ez] l]; [done|]. simpl in *.
  rewrite (proj2 (Z.eqb_neq z 0)) by by apply Hne. inversion Hf as [|? ? _ Hf']; subst. inversion Hf' as [|? ? [_ Hz] _]; subst.
  simpl in Hz. destruct ez; [|done]. by specialize (Hz (Hne ltac:(done))).
Qed.

(** What is left to visit after [i] entries of a page. *)
Definition at_entry (e : SLE) (i : nat) (rest : list Z) : Prop :=
  ∃ l1 n es l2, pages = l1 ++ (n, es) :: l2 ∧ M !! idx n = Some e ∧ getFieldV256 sfIndexes e = es ∧ rest = drop i es ++ keys l2.

Lemma cdirNext_spec l2 : ∀ fuel l1 n es e i,
  pages = l1 ++ (n, es) :: l2 → M !! idx n = Some e → getFieldV256 sfIndexes e = es → (length l2 < fuel)%nat →
  match drop i es ++ keys l2 with
  | [] => cdirNext page_hash view fuel root e i = Some None
  | k :: rest => ∃ e' i', cdirNext page_hash view fuel root e i = Some (Some (e', i', k)) ∧ at_entry e' i' rest
  end.
Proof.
  induction l2 as [|[n2 es2] l2 IH]; intros [|fuel] l1 n es e i Hp He Hes Hf; simpl in Hf; try lia; cbn [cdirNext]; rewrite Hes.
  all: destruct (es !! i) as [k|] eqn:Hi;
    [rewrite (drop_S _ _ _ Hi); simpl; eexists _, _; split; [done|]; by exists l1, n, es; eexists|].
  all: rewrite drop_ge by (by apply lookup_ge_None); cbn [app].
  - by destruct (next_page l1 n es [] e Hp He) as [-> _].
  - destruct (next_page l1 n es ((n2, es2) :: l2) e Hp He) as [-> Hne]. cbn [fmap list_fmap fst hd] in *.
    rewrite (proj2 (Z.eqb_neq n2 0)) by by apply Hne.
    destruct (read_page n2 es2) as (e2 & E2 & He2 & Hes2); [rewrite Hp; set_solver|]. rewrite E2.
    apply (IH fuel (l1 ++ [(n, es)]) n2 es2 e2 0%nat); [by rewrite <- app_assoc|done|done|lia].
Qed.

(** The keys [cdirFirst] and [cdirNext] give, one after the other. *)
Fixpoint cdir_walk (steps : nat) (o : option (option (SLE * nat * Z))) : option (list Z) :=
  match steps, o with
  | _, Some None => Some []
  | S steps, Some (Some (e, i, k)) => cons k <$> cdir_walk steps (cdirNext page_hash view pages_fuel root e i)
  | _, _ => None
  end.

Lemma cdir_walk_spec rest : ∀ e i steps,
  at_entry e i rest → (length rest ≤ steps)%nat → cdir_walk steps (cdirNext page_hash view pages_fuel root e i) = Some rest.
Proof.
  induction rest as [|k rest IH]; intros e i steps (l1 & n & es & l2 & Hp & He & Hes & Hr) Hs.
  all: pose proof (cdirNext_spec l2 pages_fuel l1 n es e i Hp He Hes) as Hn; rewrite <- Hr in Hn.
  all: assert (length l2 < pages_fuel)%nat as Hf by (pose proof pages_count as Hc; rewrite Hp, length_app in Hc; simpl in Hc; lia).
  - rewrite (Hn Hf). by destruct steps.
  - destruct (Hn Hf) as (e' & i' & -> & Hat). simpl in Hs. destruct steps as [|steps]; [lia|]. simpl. by rewrite IH by (done || lia).
Qed.

Lemma cdir_spec : pages ≠ [] → cdir_walk (length (keys pages)) (cdirFirst page_hash view root) = Some (keys pages).
Proof.
  intros Hne. destruct dir_shape as [[Hp _]|(es & l & Hp)]; [done|]. unfold cdirFirst.
  destruct (read_page 0 es) as (e & E & He & Hes); [rewrite Hp; set_solver|]. rewrite E.
  apply cdir_walk_spec; [|done]. exists [], 0, es, l. split_and!; try done. by rewrite Hp.
Qed.

(** The keys the iterator of [Dir] gives. *)
Fixpoint dir_walk (steps : nat) (o : option (option dir_iter)) : option (list Z) :=
  match steps, o with
  | _, Some None => Some []
  | S steps, Some (Some it) =>
      match d_rest it with
      | [] => None
      | k :: _ => cons k <$> dir_walk steps (dir_next page_hash view directory it)
      end
  | _, _ => None
  end.

Lemma dir_walk_spec l2 : ∀ steps l1 n es e pg rest,
  Forall filled pages → pages = l1 ++ (n, es) :: l2 → M !! idx n = Some e → rest ≠ [] → (length (rest ++ keys l2) ≤ steps)%nat →
  dir_walk steps (Some (Some (mkDirIter pg e rest))) = Some (rest ++ keys l2).
Proof.
  induction l2 as [|[n2 es2] l2 IH]; intros steps l1 n es e pg rest Hf Hp He Hne Hs.
  all: revert steps Hs; induction rest as [|k [|k' rest] IHr]; intros steps Hs; [done| |];
    (destruct steps as [|steps]; [simpl in Hs; lia|]); cbn [dir_walk d_rest]; unfold dir_next; cbn [d_rest tail d_sle d_page].
  all: try (rewrite IHr; [done|done|simpl in Hs |- *; lia]).
  - destruct (next_page l1 n es [] e Hp He) as [-> _]. by destruct steps.
  - destruct (next_page l1 n es ((n2, es2) :: l2) e Hp He) as [-> Hn]. cbn [fmap list_fmap fst hd] in *. specialize (Hn ltac:(done)).
    rewrite (proj2 (Z.eqb_neq n2 0)) by done. change (k_key directory) with root.
    destruct (read_page n2 es2) as (e2 & E2 & He2 & Hes2); [rewrite Hp; set_solver|]. rewrite E2, Hes2.
    rewrite (IH steps (l1 ++ [(n, es)]) n2 es2); [done|done|by rewrite <- app_assoc|done| |].
    2:{ change (keys ((n2, es2) :: l2)) with (es2 ++ keys l2) in Hs. simpl in Hs. lia. }
    rewrite Hp in Hf. apply Forall_app in Hf as [_ Hf]. inversion Hf as [|? ? _ Hf1]; subst. inversion Hf1 as [|? ? [_ H2] _]; subst. by apply H2.
Qed.

Lemma dir_iter_spec es l :
  Forall filled pages → pages = (0, es) :: l → es ≠ [] →
  dir_walk (length (keys pages)) (Some (dir_begin view directory)) = Some (keys pages).
Proof.
  intros Hf Hp Hne. unfold dir_begin. destruct (read_page 0 es) as (e & E & He & Hes); [rewrite Hp; set_solver|]. rewrite E, Hes.
  destruct es as [|x es]; [done|]. rewrite (dir_walk_spec l _ [] 0 (x :: es)); rewrite ?Hp; try done. by rewrite <- Hp.
Qed.

(** Falls short: when the root page has no entries and other pages do, the iterator
    is at its end from the start. *)
Lemma dir_begin_at_end l : pages = (0, []) :: l → dir_begin view directory = None.
Proof.
  intros Hp. unfold dir_begin. destruct (read_page 0 []) as (e & E & He & Hes); [rewrite Hp; set_solver|]. by rewrite E, Hes.
Qed.
End reading.
End directory.

(** ** Claims *)

(** Pages of one directory have different keys. *)
Definition distinct_pages (page_hash : Z → Z → Z) (root : Z) : Prop :=
  ∀ i j, in_pages i → in_pages j → getDirNodeIndex page_hash root i = getDirNodeIndex page_hash root j → i = j.

(** C8: Adding to and removing from a directory refines a list of pages.  On a view
    whose base holds a well-formed directory, any sequence of additions, sorted or
    in order, and of removals, with or without the root kept, gives the results
    and the pages of the same sequence on lists: pages of at most 32 keys, a new
    page after a full one, pages and at last the root taken out when they are
    empty.  The ring of pages is well formed after each step, nothing outside
    the directory changes, and the one error there can be is a double insertion;
    a broken chain is never met. *)
Theorem directory_refines page_hash root m base h describe pages ops :
  distinct_pages page_hash root → shows base m → is_dir page_hash root m pages →
  describes describe → Forall dir_op_ok ops →
  match dir_run_spec ops pages, dir_run page_hash base (page page_hash root 0) describe ops (mkState h empty_apply_table) with
  | inl e, r => e = "dirInsert: double insertion"%string ∧ r = inl e
  | inr _, inl _ => False
  | inr (rs, pages'), inr (rs', s) =>
      rs' = rs ∧ ∃ M, shows (apply_view base s) M ∧ is_dir page_hash root M pages' ∧ same_elsewhere page_hash root m M
  end.
Proof.
  intros Hinj Hb Hd Hdesc Hok. assert (keys_ok m) as Hm by exact (shows_keys _ _ Hb).
  pose proof (dir_run_outcome page_hash root Hinj m Hm base Hb describe Hdesc ops _ m pages (new_view_holds h m) Hd Hok) as H.
  unfold dir_outcome in H. destruct (dir_run_spec ops pages) as [e|[rs pages']] eqn:E.
  - split; [|done]. by eapply dir_run_spec_error.
  - destruct H as (s & M & -> & Hh & Hd' & Hs). split; [done|]. exists M. split; [by eapply apply_view_shows|done].
Qed.

(** Nothing is lost.  A key added to a directory is under the page number
    returned, with all the keys there were before, at the end when the order is
    preserved; removing it again under that number succeeds and leaves a
    directory with the keys there were before. *)
Theorem directory_add_remove page_hash root m base h describe pages order key keepRoot n s :
  distinct_pages page_hash root → shows base m → is_dir page_hash root m pages → Forall filled pages →
  describes describe →
  dirAdd page_hash base order (page page_hash root 0) key describe (mkState h empty_apply_table) = inr (Some n, s) →
  ∃ M pages1 s2 M2 pages2,
    shows (apply_view base s) M ∧ is_dir page_hash root M pages1 ∧ Forall filled pages1 ∧
    entries pages1 ≡ₚ entries pages ++ [(n, key)] ∧
    (order = true → entries pages1 = entries pages ++ [(n, key)]) ∧
    dirRemove page_hash base (page page_hash root 0) n key keepRoot s = inr (true, s2) ∧
    shows (apply_view base s2) M2 ∧ is_dir page_hash root M2 pages2 ∧ Forall filled pages2 ∧
    entries pages2 ≡ₚ entries pages ∧ same_elsewhere page_hash root m M2.
Proof.
  intros Hinj Hb Hd Hf Hdesc E. assert (keys_ok m) as Hm by exact (shows_keys _ _ Hb).
  pose proof (dirAdd_spec page_hash root Hinj m Hm base Hb _ m pages order key describe Hdesc (new_view_holds h m) Hd) as Ha.
  rewrite E in Ha. destruct (add_pages order key pages) as [|[o pages1]] eqn:Ep; [done|].
  destruct Ha as (s' & M & Es & Hh & Hd1 & Hs1). injection Es as <- <-.
  destruct (add_entries _ _ _ _ _ Ep Hf (dir_range _ _ _ _ Hd)) as (Hf1 & Hn & Hperm & Hord).
  pose proof (dirRemove_spec page_hash root Hinj m Hm base Hb s M pages1 keepRoot n key Hh Hd1 Hn) as Hr.
  destruct (remove_pages keepRoot n key pages1) as [b pages2] eqn:Er.
  destruct (remove_entries _ _ _ _ _ _ Er (sorted_lt_nodup _ (dir_sorted _ _ _ _ Hd1)) Hf1) as (Hf2 & Hb2 & Hperm2).
  assert (b = true) as -> by (apply Hb2; rewrite Hperm; set_solver).
  destruct Hr as (s2 & M2 & E2 & Hh2 & Hd2 & Hs2). exists M, pages1, s2, M2, pages2.
  split_and!; try done; [by eapply apply_view_shows..| |by eapply same_elsewhere_trans].
  rewrite Hperm in Hperm2. rewrite (Permutation_app_comm _ [(n, key)]) in Hperm2. by apply Permutation_cons_inv in Hperm2.
Qed.

(** C35: Readers visit every key once, in order.  On any view of a well-formed
    directory the loop over the pages and the walk from [cdirFirst] by [cdirNext]
    return, and give the keys of all pages in order; [dirIsEmpty] says whether
    there are any; and the iterator of [Dir] gives the same keys when the root
    page has entries. *)
Theorem directory_iterates page_hash root M pages view :
  distinct_pages page_hash root → is_dir page_hash root M pages → Forall filled pages → shows view M →
  forEachItem page_hash view (page page_hash root 0) = Some (keys pages) ∧
  dirIsEmpty view (page page_hash root 0) = bool_decide (keys pages = []) ∧
  (pages ≠ [] → cdir_walk page_hash root view (length (keys pages)) (cdirFirst page_hash view root) = Some (keys pages)) ∧
  (∀ es l, pages = (0, es) :: l → es ≠ [] →
     dir_walk page_hash root view (length (keys pages)) (Some (dir_begin view (page page_hash root 0))) = Some (keys pages)).
Proof.
  intros Hinj Hd Hf Hv. split_and!.
  - by eapply forEachItem_spec.
  - by eapply dirIsEmpty_spec.
  - by eapply cdir_spec.
  - intros es l. by eapply dir_iter_spec.
Qed.

(** Both ways to add agree.  On a well-formed directory with room for a page and
    without the key in its last page, [dirAdd] of the views, in order, and the one
    used before directories were sorted return the same page number and make
    directories with the same pages, whatever the rest of the state is. *)
Theorem legacy_add_agrees page_hash root m base h describe pages key :
  distinct_pages page_hash root → shows base m → is_dir page_hash root m pages → Forall filled pages →
  describes describe →
  (∀ n es, last pages = Some (n, es) → (key ∉ es) ∧ n + 1 < dirNodeMaxPages) →
  ∃ o pages' s1 M1 s2 M2,
    dirAdd page_hash base true (page page_hash root 0) key describe (mkState h empty_apply_table) = inr (o, s1) ∧
    dirAdd_unsorted page_hash base (page page_hash root 0) key describe (mkState h empty_apply_table) = inr (o, s2) ∧
    shows (apply_view base s1) M1 ∧ is_dir page_hash root M1 pages' ∧ same_elsewhere page_hash root m M1 ∧
    shows (apply_view base s2) M2 ∧ is_dir page_hash root M2 pages' ∧ same_elsewhere page_hash root m M2.
Proof.
  intros Hinj Hb Hd Hf Hdesc Hlast. assert (keys_ok m) as Hm by exact (shows_keys _ _ Hb).
  pose proof (dirAdd_spec page_hash root Hinj m Hm base Hb _ m pages true key describe Hdesc (new_view_holds h m) Hd) as H1.
  assert (∀ n es, last pages = Some (n, es) → in_pages (n + 1)) as Hroom.
  { intros n es E. destruct (Hlast n es E) as [_ Hn]. pose proof (dir_range _ _ _ _ Hd) as Hr. rewrite Forall_forall in Hr.
    assert (in_pages n) as [] by (apply Hr, list_elem_of_fmap; exists (n, es); split; [done|by apply last_Some_elem_of]).
    unfold in_pages. lia. }
  pose proof (dirAdd_unsorted_spec page_hash root Hinj m Hm base Hb _ m pages key describe Hdesc (new_view_holds h m) Hd Hroom) as H2.
  rewrite (append_agrees key pages Hf Hlast) in H1. destruct (append_pages key pages) as [o pages'].
  destruct H1 as (s1 & M1 & E1 & Hh1 & Hd1 & Hs1). destruct H2 as (s2 & M2 & E2 & Hh2 & Hd2 & Hs2).
  exists o, pages', s1, M1, s2, M2. split_and!; try done; by eapply apply_view_shows.
Qed.

(** Falls short: after 33 additions and the removal of the 32 keys of the root page
    the directory has a key, and the iterator of [Dir] is at its end. *)
Definition emptied_ops : list DirOp :=
  (DAdd true ∘ Z.of_nat <$> seq 1 33) ++ ((λ k, DRemove 0 (Z.of_nat k) false) <$> seq 1 32).

Theorem dir_iterator_misses :
  (∃ rs, dir_run_spec emptied_ops [] = inr (rs, [(0, []); (1, [33])])) ∧
  ∀ page_hash root M view,
    distinct_pages page_hash root → is_dir page_hash root M [(0, []); (1, [33])] → shows view M →
    forEachItem page_hash view (page page_hash root 0) = Some [33] ∧
    dir_begin view (page page_hash root 0) = None.
Proof.
  split; [eexists; vm_compute; reflexivity|]. intros page_hash root M view Hinj Hd Hv. split.
  - by rewrite (forEachItem_spec page_hash root Hinj M _ Hd view Hv).
  - by eapply dir_begin_at_end.
Qed.

(** ** Witnesses *)
Definition sample_hash (root n : Z) : Z := root + n.
Lemma sample_distinct root : distinct_pages sample_hash root.
Proof.
  intros i j _ _. unfold getDirNodeIndex, sample_hash.
  destruct (Z.eqb_spec i 0), (Z.eqb_spec j 0); lia.
Qed.
Lemma empty_dir page_hash root : is_dir page_hash root ∅ [].
Proof.
  split; try done; try constructor. by intros ? ? ?%not_elem_of_nil.
Qed.
Lemma empty_shows : shows (map_view ∅) ∅.
Proof. apply map_view_shows. by intros k e H. Qed.
Lemma describes_id : describes id.
Proof. done. Qed.
Definition sample_dir_ops : list DirOp := [DAdd true 9; DAdd false 4; DRemove 0 9 false; DRemove 1 4 true].

Lemma directory_refines_witness :
  ∃ s M, dir_run sample_hash (map_view ∅) (page sample_hash 100 0) id sample_dir_ops (mkState ∅ empty_apply_table) =
      inr ([RAdded (Some 0); RAdded (Some 0); RRemoved true; RRemoved false], s) ∧
    shows (apply_view (map_view ∅) s) M ∧ is_dir sample_hash 100 M [(0, [4])].
Proof.
  assert (Forall dir_op_ok sample_dir_ops) as Hok by (repeat constructor; simpl; unfold in_pages, dirNodeMaxPages; lia).
  pose proof (directory_refines sample_hash 100 ∅ (map_view ∅) ∅ id [] sample_dir_ops (sample_distinct 100) empty_shows
    (empty_dir _ _) describes_id Hok) as H.
  assert (dir_run_spec sample_dir_ops [] = inr ([RAdded (Some 0); RAdded (Some 0); RRemoved true; RRemoved false], [(0, [4])])) as E
    by (vm_compute; reflexivity).
  rewrite E in H. destruct (dir_run _ _ _ _ _ _) as [|[rs s]]; [done|]. destruct H as (-> & M & H1 & H2 & _). exists s, M. split; [done|]. done.
Defined.

Lemma directory_add_remove_witness :
  ∃ s s2, dirAdd sample_hash (map_view ∅) false (page sample_hash 100 0) 5 id (mkState ∅ empty_apply_table) = inr (Some 0, s) ∧
    dirRemove sample_hash (map_view ∅) (page sample_hash 100 0) 0 5 false s = inr (true, s2).
Proof.
  destruct (dirAdd sample_hash (map_view ∅) false (page sample_hash 100 0) 5 id (mkState ∅ empty_apply_table)) as [e|[o s]] eqn:E;
    [vm_compute in E; done|].
  assert (o = Some 0) as -> by (vm_compute in E; by injection E).
  destruct (directory_add_remove sample_hash 100 ∅ (map_view ∅) ∅ id [] false 5 false 0 s (sample_distinct 100) empty_shows
    (empty_dir _ _) (Forall_nil_2 _) describes_id E) as (_ & _ & s2 & _ & _ & _ & _ & _ & _ & _ & E2 & _).
  by exists s, s2.
Defined.

(** A directory of two pages. *)
Definition sample_pages : Pages := [(0, Z.of_nat <$> seq 1 32); (1, [33])].
Lemma sample_directory : ∃ M view, shows view M ∧ is_dir sample_hash 100 M sample_pages.
Proof.
  set (ops := DAdd true ∘ Z.of_nat <$> seq 1 33).
  assert (Forall dir_op_ok ops) as Hok by (repeat constructor).
  pose proof (dir_run_outcome sample_hash 100 (sample_distinct 100) ∅ (shows_keys _ _ empty_shows) (map_view ∅) empty_shows id describes_id
    ops (mkState ∅ empty_apply_table) ∅ [] (new_view_holds _ _) (empty_dir _ _) Hok) as H.
  assert (∃ rs, dir_run_spec ops [] = inr (rs, sample_pages)) as [rs E] by (eexists; vm_compute; reflexivity).
  rewrite E in H. destruct H as (s & M & _ & Hh & Hd & _). exists M, (apply_view (map_view ∅) s). split; [|done].
  by apply (apply_view_shows ∅ (shows_keys _ _ empty_shows) (map_view ∅) empty_shows).
Qed.

Lemma directory_iterates_witness :
  ∃ M view, is_dir sample_hash 100 M sample_pages ∧
    forEachItem sample_hash view (page sample_hash 100 0) = Some (Z.of_nat <$> seq 1 33) ∧
    dirIsEmpty view (page sample_hash 100 0) = false ∧
    cdir_walk sample_hash 100 view 33 (cdirFirst sample_hash view 100) = Some (Z.of_nat <$> seq 1 33) ∧
    dir_walk sample_hash 100 view 33 (Some (dir_begin view (page sample_hash 100 0))) = Some (Z.of_nat <$> seq 1 33).
Proof.
  destruct sample_directory as (M & view & Hv & Hd). exists M, view. split; [exact Hd|].
  assert (Forall filled sample_pages) as Hf by (repeat constructor; simpl; intros; discriminate).
  destruct (directory_iterates sample_hash 100 M sample_pages view (sample_distinct 100) Hd Hf Hv) as (H1 & H2 & H3 & H4).
  split; [exact H1|]. split; [exact H2|]. split; [apply H3; discriminate|].
  apply (H4 (Z.of_nat <$> seq 1 32) [(1, [33])]); [reflexivity|discriminate].
Defined.

Lemma legacy_add_agrees_witness :
  ∃ o s1 s2,
    dirAdd sample_hash (map_view ∅) true (page sample_hash 100 0) 5 id (mkState ∅ empty_apply_table) = inr (o, s1) ∧
    dirAdd_unsorted sample_hash (map_view ∅) (page sample_hash 100 0) 5 id (mkState ∅ empty_apply_table) = inr (o, s2).
Proof.
  destruct (legacy_add_agrees sample_hash 100 ∅ (map_view ∅) ∅ id [] 5 (sample_distinct 100) empty_shows
    (empty_dir _ _) (Forall_nil_2 _) describes_id) as (o & _ & s1 & _ & s2 & _ & E1 & E2 & _); [done|].
  by exists o, s1, s2.
Defined.
