(* ===== verification/IPEndpoint.v ===== *)
(** * Addresses and endpoints

    src/src/ripple/beast/net: addresses, endpoints and what a private or a public
    address is.  [boost::asio::ip::address] is not part of the repository: its
    predicates and its order are arguments, collected in [AsioAddress]. *)

From stdpp Require Import prelude gmap sorting.
From Stdlib Require Import ZArith Lia.
From S2P Require Import Prelude.

(** A version 4 address of 32 bits or a version 6 address of 128. *)
Inductive Address := V4 (a : Z) | V6 (a : Z).
#[export] Instance Address_eq_dec : EqDecision Address.
Proof. solve_decision. Defined.
#[export] Program Instance Address_countable : Countable Address :=
  inj_countable (λ a, match a with V4 z => inl z | V6 z => inr z end)
    (λ s, Some match s with inl z => V4 z | inr z => V6 z end) _.
Next Obligation. by intros []. Qed.

(** What is used of [boost::asio::ip::address]. *)
Record AsioAddress := mkAsio {
  asio_is_loopback : Address → bool;
  asio_is_multicast : Address → bool;
  asio_is_unspecified : Address → bool;
  asio_is_v4_mapped : Z → bool;
  asio_to_v4 : Z → Z;
  asio_lt : Address → Address → bool;
}.

Section addresses.
  Context (asio : AsioAddress).

Definition is_private_v4 (a : Z) : bool :=
  (Z.land a 0xff000000 =? 0x0a000000) ||
  (Z.land a 0xfff00000 =? 0xac100000) ||
  (Z.land a 0xffff0000 =? 0xc0a80000) ||
  asio_is_loopback asio (V4 a).
Definition is_public_v4 (a : Z) : bool :=
  negb (is_private_v4 a) && negb (asio_is_multicast asio (V4 a)).

(** [addr.to_bytes()[0]] *)
Definition first_byte (a : Z) : Z := Z.shiftr a 120.
Definition is_private_v6 (a : Z) : bool :=
  negb (Z.land (first_byte a) 0xfd =? 0) ||
  (asio_is_v4_mapped asio a && is_private_v4 (asio_to_v4 asio a)).
Definition is_public_v6 (a : Z) : bool :=
  negb (is_private_v6 a) && negb (asio_is_multicast asio (V6 a)).

Definition is_private (a : Address) : bool :=
  match a with V4 a => is_private_v4 a | V6 a => is_private_v6 a end.
Definition is_public (a : Address) : bool :=
  match a with V4 a => is_public_v4 a | V6 a => is_public_v6 a end.
Definition is_unspecified (a : Address) : bool := asio_is_unspecified asio a.

(** The class letter of an address. *)
Definition class_table : list Z := [65; 65; 65; 65; 66; 66; 67; 68].
Definition get_class (a : Z) : option Z := class_table !! Z.to_nat (Z.shiftr (Z.land a 0xe0000000) 29).
End addresses.

(** ** Endpoints *)
Record IPEndpoint := mkEP { ep_address : Address; ep_port : Z }.
#[export] Instance IPEndpoint_eq_dec : EqDecision IPEndpoint.
Proof. solve_decision. Defined.
#[export] Program Instance IPEndpoint_countable : Countable IPEndpoint :=
  inj_countable (λ e, (ep_address e, ep_port e)) (λ p, Some (mkEP p.1 p.2)) _.
Next Obligation. by intros []. Qed.

Definition at_port (e : IPEndpoint) (port : Z) : IPEndpoint := mkEP (ep_address e) port.

(** [operator<] *)
Definition ep_lt (asio : AsioAddress) (l r : IPEndpoint) : bool :=
  if asio_lt asio (ep_address l) (ep_address r) then true
  else if asio_lt asio (ep_address r) (ep_address l) then false
  else ep_port l <? ep_port r.

(** The elements of a [std::map] in its order. *)
Definition ep_before (asio : AsioAddress) {A} (l r : IPEndpoint * A) : Prop := ep_lt asio r.1 l.1 = false.
#[export] Instance ep_before_dec asio {A} (l r : IPEndpoint * A) : Decision (ep_before asio l r).
Proof. unfold ep_before. apply _. Defined.
Definition ep_order {A} (asio : AsioAddress) (m : gmap IPEndpoint A) : list (IPEndpoint * A) :=
  merge_sort (ep_before asio) (map_to_list m).

Lemma ep_order_perm {A} asio (m : gmap IPEndpoint A) : ep_order asio m ≡ₚ map_to_list m.
Proof. apply merge_sort_Permutation. Qed.

Lemma elem_of_ep_order {A} asio (m : gmap IPEndpoint A) k x : (k, x) ∈ ep_order asio m ↔ m !! k = Some x.
Proof. by rewrite ep_order_perm, elem_of_map_to_list. Qed.

(** ** Private and public addresses *)
(** Falls short: the first byte of a version 6 address is masked with 0xfd instead of
    being compared with it, so that no global unicast address, which starts with the
    bits 001, is public. *)
Theorem v6_unicast_private asio a : 0x20 ≤ first_byte a < 0x40 → is_public asio (V6 a) = false.
Proof.
  intros Hb. unfold is_public, is_public_v6, is_private_v6.
  assert (Z.land (first_byte a) 0xfd ≠ 0) as Hne; [|by rewrite (proj2 (Z.eqb_neq _ _) Hne)].
  intros E. apply (f_equal (λ z, Z.testbit z 5)) in E. rewrite Z.land_spec, Z.bits_0 in E.
  change (Z.testbit 0xfd 5) with true in E. rewrite andb_true_r in E.
  assert (Z.testbit (first_byte a) 5 = true); [|congruence].
  rewrite Z.testbit_true by lia. replace (first_byte a / 2 ^ 5) with 1; [done|].
  change (2 ^ 5) with 32. apply (Z.div_unique_pos _ _ _ (first_byte a - 32)); lia.
Qed.
