(* ===== verification/PeerSlots.v ===== *)
(** * Slots of the peer finder

    src/src/ripple/peerfinder: the tuning constants, slots ([SlotImp]) with the
    endpoints they have recently seen, the counts of slots ([Counts]) and the
    fixed peers with their waiting times ([Fixed]).

    Times are nanoseconds of the steady clock. *)

From stdpp Require Import prelude gmap.
From Stdlib Require Import ZArith QArith Qround Lia.
From S2P Require Import Prelude.
From S2P Require Import AgedMap.
From S2P Require Import IPEndpoint.

#[local] Open Scope Z_scope.

(** ** Tuning *)
Definition maxConnectAttempts : Z := 20.
Definition maxRedirects : Z := 30.
Definition connectionBackoff : list Z := [1; 1; 2; 3; 5; 8; 13; 21; 34; 55].
Definition bootcacheSize : Z := 1000.
Definition bootcachePrunePercent : Z := 10.
Definition maxHops : Z := 6.
Definition numberOfEndpoints : Z := 2 * maxHops.
Definition redirectEndpointCount : Z := 10.
Definition seconds (n : Z) : Z := n * 1000000000.
Definition minutes (n : Z) : Z := seconds (60 * n).
Definition bootcacheCooldownTime : Z := seconds 60.
Definition secondsPerMessage : Z := seconds 5.
Definition liveCacheSecondsToLive : Z := seconds 30.
Definition recentAttemptDuration : Z := seconds 60.

(** An endpoint with its distance from us. *)
Record Endpoint := mkEndpoint { hops : Z; address : IPEndpoint }.
#[export] Instance Endpoint_eq_dec : EqDecision Endpoint.
Proof. solve_decision. Defined.

(** ** Endpoints a peer knows *)
Abbreviation recent_t := (aged IPEndpoint Z).

Definition recent_insert (now : Z) (ep : IPEndpoint) (h : Z) (cache : recent_t) : recent_t :=
  match Aged.find ep cache with
  | None => Aged.index now h ep cache
  | Some h0 => if h <=? h0 then Aged.touch now ep (Aged.modify (λ _, h) ep cache) else cache
  end.
Definition recent_filter (ep : IPEndpoint) (h : Z) (cache : recent_t) : bool :=
  match Aged.find ep cache with
  | None => false
  | Some h0 => h0 <=? h
  end.
Definition recent_expire (now : Z) (cache : recent_t) : recent_t := Aged.expire now liveCacheSecondsToLive cache.

(** ** Slots *)
Inductive State := accept | connect | connected | active | closing.
#[export] Instance State_eq_dec : EqDecision State.
Proof. solve_decision. Defined.

Record SlotImp := mkSlot {
  inbound : bool;
  fixed : bool;
  cluster : bool;
  state : State;
  remote_endpoint : IPEndpoint;
  local_endpoint : option IPEndpoint;
  public_key : option Z;
  m_listening_port : Z;
  checked : bool;
  canAccept : bool;
  connectivityCheckInProgress : bool;
  whenAcceptEndpoints : Z;
  recent : recent_t;
}.

Definition unknownPort : Z := -1.
Definition listening_port (s : SlotImp) : option Z :=
  if m_listening_port s =? unknownPort then None else Some (m_listening_port s).

Definition inbound_slot (local remote : IPEndpoint) (fixed_ : bool) : SlotImp :=
  mkSlot true fixed_ false accept remote (Some local) None unknownPort false false false 0 [].
Definition outbound_slot (remote : IPEndpoint) (fixed_ : bool) : SlotImp :=
  mkSlot false fixed_ false connect remote None None unknownPort true true false 0 [].

Definition set_cluster (c : bool) (s : SlotImp) : SlotImp :=
  mkSlot (inbound s) (fixed s) c (state s) (remote_endpoint s) (local_endpoint s) (public_key s)
    (m_listening_port s) (checked s) (canAccept s) (connectivityCheckInProgress s) (whenAcceptEndpoints s) (recent s).
Definition set_local_endpoint (e : IPEndpoint) (s : SlotImp) : SlotImp :=
  mkSlot (inbound s) (fixed s) (cluster s) (state s) (remote_endpoint s) (Some e) (public_key s)
    (m_listening_port s) (checked s) (canAccept s) (connectivityCheckInProgress s) (whenAcceptEndpoints s) (recent s).
Definition set_public_key (k : Z) (s : SlotImp) : SlotImp :=
  mkSlot (inbound s) (fixed s) (cluster s) (state s) (remote_endpoint s) (local_endpoint s) (Some k)
    (m_listening_port s) (checked s) (canAccept s) (connectivityCheckInProgress s) (whenAcceptEndpoints s) (recent s).
Definition set_check (port : Z) (checked_ canAccept_ progress : bool) (s : SlotImp) : SlotImp :=
  mkSlot (inbound s) (fixed s) (cluster s) (state s) (remote_endpoint s) (local_endpoint s) (public_key s)
    port checked_ canAccept_ progress (whenAcceptEndpoints s) (recent s).
Definition set_recent (r : recent_t) (s : SlotImp) : SlotImp :=
  mkSlot (inbound s) (fixed s) (cluster s) (state s) (remote_endpoint s) (local_endpoint s) (public_key s)
    (m_listening_port s) (checked s) (canAccept s) (connectivityCheckInProgress s) (whenAcceptEndpoints s) r.
Definition set_whenAccept (t : Z) (s : SlotImp) : SlotImp :=
  mkSlot (inbound s) (fixed s) (cluster s) (state s) (remote_endpoint s) (local_endpoint s) (public_key s)
    (m_listening_port s) (checked s) (canAccept s) (connectivityCheckInProgress s) t (recent s).
Definition put_state (st : State) (s : SlotImp) : SlotImp :=
  mkSlot (inbound s) (fixed s) (cluster s) st (remote_endpoint s) (local_endpoint s) (public_key s)
    (m_listening_port s) (checked s) (canAccept s) (connectivityCheckInProgress s) (whenAcceptEndpoints s) (recent s).

(** [SlotImp::state]; no result where an assertion fails. *)
Definition set_state (st : State) (s : SlotImp) : option SlotImp :=
  if bool_decide (st ≠ active ∧ st ≠ state s ∧ st ≠ accept ∧ st ≠ connect) &&
     bool_decide (st ≠ connected ∨ (inbound s = false ∧ state s = connect)) &&
     bool_decide (st ≠ closing ∨ state s ≠ connect)
  then Some (put_state st s) else None.
(** [SlotImp::activate] *)
Definition slot_activate (now : Z) (s : SlotImp) : option SlotImp :=
  if bool_decide (state s = accept ∨ state s = connected)
  then Some (set_whenAccept now (put_state active s)) else None.

Definition slot_expire (now : Z) (s : SlotImp) : SlotImp := set_recent (recent_expire now (recent s)) s.

(** ** Configuration and counts *)
Record Config := mkConfig {
  maxPeers : Z;
  outPeers : Q;
  wantIncoming : bool;
  autoConnect : bool;
  listeningPort : Z;
  ipLimit : Z;
}.

(** The conversion to [int]. *)
Definition i32 (z : Z) : Z := if u32 z <? 2 ^ 31 then u32 z else u32 z - 2 ^ 32.

(** [int] members are kept as they are, [std::size_t] members modulo 2^64. *)
Record Counts := mkCounts {
  m_attempts : Z;
  m_active : Z;
  m_in_max : Z;
  m_in_active : Z;
  m_out_max : Z;
  m_out_active : Z;
  m_fixed : Z;
  m_fixed_active : Z;
  m_cluster : Z;
  m_acceptCount : Z;
  m_closingCount : Z;
}.
Definition no_counts : Counts := mkCounts 0 0 0 0 0 0 0 0 0 0 0.

Definition when (b : bool) (n : Z) : Z := if b then n else 0.
Definition is_state (st : State) (s : SlotImp) : bool := bool_decide (state s = st).

(** [Counts::adjust]; no result where an assertion fails. *)
Definition adjust (s : SlotImp) (n : Z) (c : Counts) : option Counts :=
  let c := mkCounts (m_attempts c) (m_active c) (m_in_max c) (m_in_active c) (m_out_max c) (m_out_active c)
    (u64 (m_fixed c + when (fixed s) n)) (m_fixed_active c) (u64 (m_cluster c + when (cluster s) n))
    (m_acceptCount c) (m_closingCount c) in
  match state s with
  | accept =>
      if inbound s
      then Some (mkCounts (m_attempts c) (m_active c) (m_in_max c) (m_in_active c) (m_out_max c) (m_out_active c)
             (m_fixed c) (m_fixed_active c) (m_cluster c) (m_acceptCount c + n) (m_closingCount c))
      else None
  | connect | connected =>
      if inbound s then None
      else Some (mkCounts (m_attempts c + n) (m_active c) (m_in_max c) (m_in_active c) (m_out_max c) (m_out_active c)
             (m_fixed c) (m_fixed_active c) (m_cluster c) (m_acceptCount c) (m_closingCount c))
  | active =>
      let free := negb (fixed s) && negb (cluster s) in
      Some (mkCounts (m_attempts c) (u64 (m_active c + n)) (m_in_max c)
        (u64 (m_in_active c + when (free && inbound s) n)) (m_out_max c)
        (u64 (m_out_active c + when (free && negb (inbound s)) n))
        (m_fixed c) (u64 (m_fixed_active c + when (fixed s) n)) (m_cluster c) (m_acceptCount c) (m_closingCount c))
  | closing =>
      Some (mkCounts (m_attempts c) (m_active c) (m_in_max c) (m_in_active c) (m_out_max c) (m_out_active c)
        (m_fixed c) (m_fixed_active c) (m_cluster c) (m_acceptCount c) (m_closingCount c + n))
  end.
Definition counts_add (s : SlotImp) : Counts → option Counts := adjust s 1.
Definition counts_remove (s : SlotImp) : Counts → option Counts := adjust s (-1).

Definition can_activate (s : SlotImp) (c : Counts) : option bool :=
  if bool_decide (state s = connected ∨ state s = accept)
  then Some (if fixed s || cluster s then true
             else if inbound s then m_in_active c <? m_in_max c
             else m_out_active c <? m_out_max c)
  else None.
Definition attempts_needed (c : Counts) : Z :=
  if maxConnectAttempts <=? m_attempts c then 0 else u64 (maxConnectAttempts - m_attempts c).
Definition attempts (c : Counts) : Z := u64 (m_attempts c).
Definition out_max (c : Counts) : Z := i32 (m_out_max c).
Definition out_active (c : Counts) : Z := i32 (m_out_active c).
Definition inboundSlots (c : Counts) : Z := i32 (m_in_max c).
Definition totalActive (c : Counts) : Z := i32 (m_in_active c + m_out_active c).
Definition inboundSlotsFree (c : Counts) : Z :=
  if m_in_active c <? m_in_max c then i32 (m_in_max c - m_in_active c) else 0.
Definition outboundSlotsFree (c : Counts) : Z :=
  if m_out_active c <? m_out_max c then i32 (m_out_max c - m_out_active c) else 0.
Definition isConnectedToNetwork (c : Counts) : bool := negb (0 <? m_out_max c).

(** [Counts::onConfig]; [threshold] is the random number drawn at the start. *)
Definition onConfig (threshold : Q) (g : Config) (c : Counts) : Counts :=
  let out := if wantIncoming g
             then let f := Qfloor (outPeers g) in
                  if Qle_bool (outPeers g - inject_Z f) threshold then f else f + 1
             else u64 (maxPeers g) in
  let max_in := if out <=? u64 (maxPeers g) then u64 (maxPeers g - out) else 0 in
  mkCounts (m_attempts c) (m_active c) max_in (m_in_active c) out (m_out_active c)
    (m_fixed c) (m_fixed_active c) (m_cluster c) (m_acceptCount c) (m_closingCount c).

(** ** Fixed peers *)
Record Fixed := mkFixed { m_when : Z; m_failures : nat }.
Definition new_fixed (now : Z) : Fixed := mkFixed now 0.
Definition fixed_failure (now : Z) (f : Fixed) : Fixed :=
  let failures := Nat.min (m_failures f + 1) (length connectionBackoff - 1) in
  mkFixed (now + minutes (nth failures connectionBackoff 0)) failures.
Definition fixed_success (now : Z) (f : Fixed) : Fixed := mkFixed now 0.
