(* ===== verification/Bootcache.v ===== *)
(** * The boot cache

    src/src/ripple/peerfinder/impl/Bootcache.cpp: endpoints with a valence, the
    number of successful connections in a row, or of failures when negative.  The
    cache is pruned when it has more than 1000 entries and saved at most once a
    minute.

    [m_map] is the right side of the bimap: entries by decreasing valence, an entry
    after those of its valence that were there before it. *)

From stdpp Require Import prelude gmap sorting.
From Stdlib Require Import ZArith Lia.
From S2P Require Import Prelude.
From S2P Require Import IPEndpoint.
From S2P Require Import PeerSlots.

Record Bootcache := mkBoot {
  m_map : list (IPEndpoint * Z);
  m_whenUpdate : Z;
  m_needsUpdate : bool;
  saved : list (list (IPEndpoint * Z));  (* what [m_store] was given *)
}.
Definition new_bootcache (now : Z) : Bootcache := mkBoot [] now false [].
Definition staticValence : Z := 32.

Definition with_map (l : list (IPEndpoint * Z)) (b : Bootcache) : Bootcache :=
  mkBoot l (m_whenUpdate b) (m_needsUpdate b) (saved b).

Module Boot.

(** ** The bimap *)
Fixpoint find (ep : IPEndpoint) (l : list (IPEndpoint * Z)) : option Z :=
  match l with
  | [] => None
  | (ep', v) :: l => if decide (ep = ep') then Some v else find ep l
  end.
Definition erase (ep : IPEndpoint) (l : list (IPEndpoint * Z)) : list (IPEndpoint * Z) := filter (λ x, x.1 ≠ ep) l.
(** In the order of [Entry]: after the entries whose valence is not below. *)
Fixpoint place (ep : IPEndpoint) (v : Z) (l : list (IPEndpoint * Z)) : list (IPEndpoint * Z) :=
  match l with
  | [] => [(ep, v)]
  | (ep', v') :: l' => if v' <? v then (ep, v) :: l else (ep', v') :: place ep v l'
  end.
(** [m_map.insert]: the map and whether the endpoint was new. *)
Definition map_insert (ep : IPEndpoint) (v : Z) (l : list (IPEndpoint * Z)) : list (IPEndpoint * Z) * bool :=
  match find ep l with Some _ => (l, false) | None => (place ep v l, true) end.

(** ** The operations *)
Definition size (b : Bootcache) : Z := Z.of_nat (length (m_map b)).
Definition update (now : Z) (b : Bootcache) : Bootcache :=
  if negb (m_needsUpdate b) then b
  else mkBoot (m_map b) (now + bootcacheCooldownTime) false (m_map b :: saved b).
Definition checkUpdate (now : Z) (b : Bootcache) : Bootcache :=
  if m_needsUpdate b && (m_whenUpdate b <? now) then update now b else b.
Definition flagForUpdate (now : Z) (b : Bootcache) : Bootcache :=
  checkUpdate now (mkBoot (m_map b) (m_whenUpdate b) true (saved b)).
Definition periodicActivity (now : Z) (b : Bootcache) : Bootcache := checkUpdate now b.

(** The loop of [prune]: entries are erased from the end of the map. *)
Fixpoint prune_loop (count : nat) (l : list (IPEndpoint * Z)) : list (IPEndpoint * Z) :=
  match count with
  | O => l
  | S count => match l with [] => [] | _ => prune_loop count (removelast l) end
  end.
Definition prune (b : Bootcache) : Bootcache :=
  if size b <=? bootcacheSize then b
  else with_map (prune_loop (Z.to_nat (size b * bootcachePrunePercent / 100)) (m_map b)) b.

Definition clear (b : Bootcache) : Bootcache := mkBoot [] (m_whenUpdate b) true (saved b).
Fixpoint load_loop (l : list (IPEndpoint * Z)) (m : list (IPEndpoint * Z)) : list (IPEndpoint * Z) :=
  match l with
  | [] => m
  | (ep, v) :: l => load_loop l (map_insert ep v m).1
  end.
(** [load]; the store calls back with its [list]. *)
Definition load (list : list (IPEndpoint * Z)) (b : Bootcache) : Bootcache :=
  let b := clear b in
  let b := with_map (load_loop list (m_map b)) b in
  if 0 <? Z.of_nat (length list) then prune b else b.

Definition insert (now : Z) (ep : IPEndpoint) (b : Bootcache) : Bootcache * bool :=
  let (l, isNew) := map_insert ep 0 (m_map b) in
  if isNew then (flagForUpdate now (prune (with_map l b)), true) else (with_map l b, false).
Definition insertStatic (now : Z) (ep : IPEndpoint) (b : Bootcache) : Bootcache * bool :=
  let (l, isNew) :=
    match find ep (m_map b) with
    | None => map_insert ep staticValence (m_map b)
    | Some v => if v <? staticValence then map_insert ep staticValence (erase ep (m_map b)) else (m_map b, false)
    end in
  if isNew then (flagForUpdate now (prune (with_map l b)), true) else (with_map l b, false).
Definition on_success (now : Z) (ep : IPEndpoint) (b : Bootcache) : Bootcache :=
  let b := match find ep (m_map b) with
           | None => prune (with_map (map_insert ep 1 (m_map b)).1 b)
           | Some v => with_map (map_insert ep ((if v <? 0 then 0 else v) + 1) (erase ep (m_map b))).1 b
           end in
  flagForUpdate now b.
Definition on_failure (now : Z) (ep : IPEndpoint) (b : Bootcache) : Bootcache :=
  let b := match find ep (m_map b) with
           | None => prune (with_map (map_insert ep (-1) (m_map b)).1 b)
           | Some v => with_map (map_insert ep ((if 0 <? v then 0 else v) - 1) (erase ep (m_map b))).1 b
           end in
  flagForUpdate now b.

(** The endpoints from [begin] to [end]. *)
Definition in_order (b : Bootcache) : list IPEndpoint := (m_map b).*1.
End Boot.

(** * What the boot cache keeps

    The valences as a map, with the operations on it ([boot_spec]) that the boot cache
    implements: [boot_refines] and [saved_ok] are the lemmas the theorems use. *)

Abbreviation entries := (list (IPEndpoint * Z)).
Abbreviation valence_map := (gmap IPEndpoint Z).

(** No endpoint twice, by decreasing valence. *)
Definition not_below (x y : IPEndpoint * Z) : Prop := y.2 ≤ x.2.
Record boot_inv (b : entries) : Prop := {
  boot_nodup : NoDup b.*1;
  boot_sorted : StronglySorted not_below b;
}.

Definition valences (b : entries) : valence_map := list_to_map b.

Section lists.
Implicit Types (l : entries) (ep : IPEndpoint) (v : Z).

Lemma find_valence ep l : Boot.find ep l = valences l !! ep.
Proof.
  induction l as [|[e v] l IH]; simpl; [by rewrite lookup_empty|]. unfold valences. simpl.
  case_decide as E; [subst; by rewrite lookup_insert_eq|]. rewrite lookup_insert_ne by done. exact IH.
Qed.

Lemma place_perm ep v l : Boot.place ep v l ≡ₚ (ep, v) :: l.
Proof.
  induction l as [|[e w] l IH]; simpl; [done|]. destruct (w <? v); [done|]. rewrite IH. apply Permutation_swap.
Qed.

Lemma place_sorted ep v l : StronglySorted not_below l → StronglySorted not_below (Boot.place ep v l).
Proof.
  induction 1 as [|[e w] l Hl IH Hf]; simpl; [repeat constructor|]. destruct (Z.ltb_spec w v).
  - constructor; [by constructor|]. constructor; [unfold not_below; simpl; lia|].
    eapply Forall_impl; [exact Hf|]. unfold not_below. simpl. lia.
  - constructor; [done|]. rewrite place_perm. constructor; [unfold not_below; simpl; lia|done].
Qed.

Lemma filter_strong {A} (R : A → A → Prop) (P : A → Prop) `{∀ x, Decision (P x)} (l : list A) :
  StronglySorted R l → StronglySorted R (filter P l).
Proof.
  induction 1 as [|x l Hl IH Hf]; [constructor|]. rewrite filter_cons. case_decide; [|done]. constructor; [done|].
  apply Forall_forall. intros y [_ Hy]%list_elem_of_filter. by eapply Forall_forall in Hf.
Qed.

Lemma erase_keys ep l : (Boot.erase ep l).*1 = filter (λ e, e ≠ ep) l.*1.
Proof.
  unfold Boot.erase. induction l as [|[e v] l IH]; [done|]. rewrite fmap_cons, !filter_cons. simpl.
  case_decide; [simpl; by f_equal|done].
Qed.

Lemma boot_erase_inv ep l : boot_inv l → boot_inv (Boot.erase ep l).
Proof.
  intros [H1 H2]. split; [rewrite erase_keys; by apply NoDup_filter|by apply filter_strong].
Qed.

Lemma erase_valences ep l : valences (Boot.erase ep l) = delete ep (valences l).
Proof.
  unfold Boot.erase, valences. induction l as [|[e v] l IH]; [done|]. rewrite filter_cons. simpl. case_decide as E.
  - simpl. by rewrite delete_insert_ne, IH by done.
  - assert (e = ep) as -> by (by destruct (decide (e = ep))). by rewrite delete_insert_eq.
Qed.

Lemma new_key ep l : valences l !! ep = None → ep ∉ l.*1.
Proof. apply not_elem_of_list_to_map. Qed.

Lemma place_inv ep v l : boot_inv l → valences l !! ep = None →
  boot_inv (Boot.place ep v l) ∧ valences (Boot.place ep v l) = <[ep := v]> (valences l).
Proof.
  intros [H1 H2] Hn. assert (NoDup (Boot.place ep v l).*1) as Hnd.
  { rewrite place_perm. simpl. constructor; [by apply new_key|done]. }
  split; [split; [done|by apply place_sorted]|]. unfold valences.
  by rewrite (list_to_map_proper _ ((ep, v) :: l)) by (done || apply place_perm).
Qed.

Lemma map_insert_new ep v l : boot_inv l → valences l !! ep = None →
  boot_inv (Boot.map_insert ep v l).1 ∧ valences (Boot.map_insert ep v l).1 = <[ep := v]> (valences l) ∧
  (Boot.map_insert ep v l).2 = true.
Proof.
  intros Hl Hn. unfold Boot.map_insert. rewrite find_valence, Hn. simpl. destruct (place_inv ep v l Hl Hn). done.
Qed.

(** The valence of an endpoint that is there changes. *)
Lemma reinsert_inv ep v l : boot_inv l →
  boot_inv (Boot.map_insert ep v (Boot.erase ep l)).1 ∧
  valences (Boot.map_insert ep v (Boot.erase ep l)).1 = <[ep := v]> (valences l) ∧
  (Boot.map_insert ep v (Boot.erase ep l)).2 = true.
Proof.
  intros Hl. destruct (map_insert_new ep v (Boot.erase ep l)) as (H1 & H2 & H3).
  - by apply boot_erase_inv.
  - by rewrite erase_valences, lookup_delete_eq.
  - split; [done|]. split; [|done]. by rewrite H2, erase_valences, insert_delete_eq.
Qed.
End lists.

(** ** Pruning *)
Lemma prune_loop_take n : ∀ l : entries, Boot.prune_loop n l = take (length l - n) l.
Proof.
  induction n as [|n IH]; intros l; simpl; [by rewrite Nat.sub_0_r, firstn_all|]. destruct l as [|x l] using rev_ind; [done|].
  rewrite removelast_last, IH, length_app. simpl.
  assert (length l + 1 - S n = length l - n)%nat as -> by lia. rewrite take_app_le by lia. by destruct (l ++ [x]) eqn:E; [destruct l|].
Qed.

(** [b] is [a] without the tenth of its entries with the least valences, when it has
    more than 1000. *)
Definition removed (n : Z) : Z := if n <=? bootcacheSize then 0 else n * bootcachePrunePercent / 100.
Record pruned (a b : valence_map) : Prop := {
  p_sub : b ⊆ a;
  p_size : Z.of_nat (size b) = Z.of_nat (size a) - removed (Z.of_nat (size a));
  p_least : ∀ e v e' v', b !! e = Some v → a !! e' = Some v' → b !! e' = None → v' ≤ v;
}.

Lemma size_valences (l : entries) : NoDup l.*1 → size (valences l) = length l.
Proof.
  intros Hn. unfold valences. rewrite <- (Permutation_length (map_to_list_to_map l Hn)). by rewrite length_map_to_list.
Qed.

Lemma take_inv n (l : entries) : boot_inv l →
  boot_inv (take n l) ∧ valences (take n l) ⊆ valences l ∧
  ∀ e v e' v', valences (take n l) !! e = Some v → valences l !! e' = Some v' → valences (take n l) !! e' = None → v' ≤ v.
Proof.
  intros [H1 H2]. rewrite <- (take_drop n l) in H1, H2. rewrite fmap_app in H1. pose proof H1 as (N1 & N2 & N3)%NoDup_app.
  apply StronglySorted_app in H2 as (S1 & S2 & S3). split; [done|].
  assert (valences l = valences (take n l) ∪ valences (drop n l)) as Ev.
  { unfold valences. rewrite <- list_to_map_app. by rewrite take_drop. }
  split; [rewrite Ev; apply map_union_subseteq_l|]. intros e v e' v' He He' Hn. rewrite Ev, lookup_union_r in He' by done.
  apply elem_of_list_to_map_2 in He, He'. by apply (S1 _ _ He He').
Qed.

Lemma prune_spec b : boot_inv (m_map b) →
  boot_inv (m_map (Boot.prune b)) ∧ pruned (valences (m_map b)) (valences (m_map (Boot.prune b))).
Proof.
  intros Hi. unfold Boot.prune, Boot.size.
  pose proof (size_valences _ (boot_nodup _ Hi)) as Hs. destruct (Z.leb_spec (Z.of_nat (length (m_map b))) bootcacheSize) as [Hle|Hgt].
  - split; [done|]. split; [done| |congruence]. rewrite Hs. unfold removed. rewrite (proj2 (Z.leb_le _ _)) by done. lia.
  - simpl. rewrite prune_loop_take. destruct (take_inv (length (m_map b) - Z.to_nat (Z.of_nat (length (m_map b)) * bootcachePrunePercent / 100)) _ Hi)
      as (H1 & H2 & H3).
    split; [done|]. split; [done| |done]. rewrite Hs, (size_valences _ (boot_nodup _ H1)), length_take. unfold removed.
    rewrite (proj2 (Z.leb_gt _ _)) by done. unfold bootcachePrunePercent.
    assert (0 ≤ Z.of_nat (length (m_map b)) * 10 / 100 ≤ Z.of_nat (length (m_map b))); [|lia].
    split; [apply Z.div_pos; lia|]. apply Z.div_le_upper_bound; lia.
Qed.

(** ** The operations on valences *)
Inductive BootOp :=
  | BInsert (ep : IPEndpoint)
  | BStatic (ep : IPEndpoint)
  | BSuccess (ep : IPEndpoint)
  | BFailure (ep : IPEndpoint)
  | BLoad (l : entries)
  | BPeriodic.
Definition boot_op (now : Z) (op : BootOp) (b : Bootcache) : Bootcache :=
  match op with
  | BInsert ep => (Boot.insert now ep b).1
  | BStatic ep => (Boot.insertStatic now ep b).1
  | BSuccess ep => Boot.on_success now ep b
  | BFailure ep => Boot.on_failure now ep b
  | BLoad l => Boot.load l b
  | BPeriodic => Boot.periodicActivity now b
  end.

(** The first valence given for an endpoint. *)
Definition loaded (l : entries) : valence_map := foldl (λ m x, match m !! x.1 with None => <[x.1 := x.2]> m | _ => m end) ∅ l.
(** The valences after an operation, before pruning, and whether there is pruning. *)
Definition boot_spec (op : BootOp) (m : valence_map) : valence_map * bool :=
  match op with
  | BInsert ep => match m !! ep with None => (<[ep := 0]> m, true) | Some _ => (m, false) end
  | BStatic ep =>
      match m !! ep with
      | None => (<[ep := staticValence]> m, true)
      | Some v => (<[ep := Z.max v staticValence]> m, v <? staticValence)
      end
  | BSuccess ep => match m !! ep with None => (<[ep := 1]> m, true) | Some v => (<[ep := Z.max v 0 + 1]> m, false) end
  | BFailure ep => match m !! ep with None => (<[ep := -1]> m, true) | Some v => (<[ep := Z.min v 0 - 1]> m, false) end
  | BLoad l => (loaded l, negb (bool_decide (l = [])))
  | BPeriodic => (m, false)
  end.

(** What is in memory is with the store, or will be. *)
Definition saved_ok (b : Bootcache) : Prop :=
  m_needsUpdate b = true ∨ default [] (head (saved b)) = m_map b.

Section ops.
Implicit Types (b : Bootcache).

Lemma checkUpdate_map now b : m_map (Boot.checkUpdate now b) = m_map b.
Proof. unfold Boot.checkUpdate, Boot.update. repeat case_match; done. Qed.
Lemma flag_map now b : m_map (Boot.flagForUpdate now b) = m_map b.
Proof. unfold Boot.flagForUpdate. by rewrite checkUpdate_map. Qed.
Lemma checkUpdate_saved now b : saved_ok b → saved_ok (Boot.checkUpdate now b).
Proof.
  unfold Boot.checkUpdate, Boot.update. destruct (m_needsUpdate b) eqn:E; simpl; [|done]. intros Hs. case_match; [by right|done].
Qed.
Lemma flag_saved now b : saved_ok (Boot.flagForUpdate now b).
Proof. apply checkUpdate_saved. by left. Qed.
Lemma prune_flags b : m_needsUpdate (Boot.prune b) = m_needsUpdate b.
Proof. unfold Boot.prune. by case_match. Qed.
Lemma saved_same l b : l = m_map b → saved_ok b → saved_ok (with_map l b).
Proof. intros ->. by destruct b. Qed.

Lemma boot_saved now op b : saved_ok b → saved_ok (boot_op now op b).
Proof.
  intros Hs. destruct op; simpl; try apply flag_saved; try by apply checkUpdate_saved.
  - unfold Boot.insert, Boot.map_insert. destruct (Boot.find ep (m_map b)); simpl; [by apply saved_same|apply flag_saved].
  - unfold Boot.insertStatic, Boot.map_insert. repeat case_match; simplify_eq; simpl; try apply flag_saved; try by apply saved_same.
    exfalso. rewrite find_valence, erase_valences, lookup_delete_eq in *. done.
  - left. unfold Boot.load. case_match; [by rewrite prune_flags|done].
Qed.

Lemma load_loop_spec l : ∀ m, boot_inv m →
  boot_inv (Boot.load_loop l m) ∧
  valences (Boot.load_loop l m) = foldl (λ m x, match m !! x.1 with None => <[x.1 := x.2]> m | _ => m end) (valences m) l.
Proof.
  induction l as [|[e v] l IH]; intros m Hm; simpl; [done|]. destruct (valences m !! e) as [v'|] eqn:E.
  - unfold Boot.map_insert. rewrite find_valence, E. by apply IH.
  - destruct (map_insert_new e v m Hm E) as (H1 & H2 & _). destruct (IH _ H1) as [H3 H4]. split; [done|]. by rewrite H4, H2.
Qed.

(** Where a branch prunes and flags, or only changes the map. *)
Lemma pruning l m b : boot_inv l → valences l = m →
  boot_inv (m_map (Boot.prune (with_map l b))) ∧ pruned m (valences (m_map (Boot.prune (with_map l b)))).
Proof. intros H1 <-. by apply (prune_spec (with_map l b)). Qed.

Definition refined (r : valence_map * bool) (m : valence_map) : Prop := if r.2 then pruned r.1 m else m = r.1.

Lemma boot_refines now op b : boot_inv (m_map b) →
  boot_inv (m_map (boot_op now op b)) ∧ refined (boot_spec op (valences (m_map b))) (valences (m_map (boot_op now op b))).
Proof.
  intros Hi. unfold refined. destruct op as [ep|ep|ep|ep|l|]; simpl.
  - unfold Boot.insert. destruct (valences (m_map b) !! ep) as [v|] eqn:E; simpl.
    + unfold Boot.map_insert. rewrite find_valence, E. by destruct b.
    + destruct (map_insert_new ep 0 _ Hi E) as (H1 & H2 & H3). destruct (Boot.map_insert ep 0 (m_map b)) as [l n]. simpl in *. subst n. simpl.
      rewrite flag_map. by apply pruning.
  - unfold Boot.insertStatic. rewrite find_valence. destruct (valences (m_map b) !! ep) as [v|] eqn:E; simpl.
    + destruct (Z.ltb_spec v staticValence) as [Hlt|Hge].
      * destruct (reinsert_inv ep staticValence _ Hi) as (H1 & H2 & H3).
        destruct (Boot.map_insert ep staticValence (Boot.erase ep (m_map b))) as [l n]. simpl in *. subst n. simpl. rewrite flag_map.
        apply pruning; [done|]. rewrite H2. do 2 f_equal. lia.
      * simpl. split; [by destruct b|]. rewrite Z.max_l by lia. by rewrite insert_id.
    + destruct (map_insert_new ep staticValence _ Hi E) as (H1 & H2 & H3).
      destruct (Boot.map_insert ep staticValence (m_map b)) as [l n]. simpl in *. subst n. simpl. rewrite flag_map. by apply pruning.
  - unfold Boot.on_success. rewrite flag_map, find_valence. destruct (valences (m_map b) !! ep) as [v|] eqn:E; simpl.
    + destruct (reinsert_inv ep ((if v <? 0 then 0 else v) + 1) _ Hi) as (H1 & H2 & _). split; [done|]. rewrite H2. f_equal.
      destruct (Z.ltb_spec v 0); lia.
    + destruct (map_insert_new ep 1 _ Hi E) as (H1 & H2 & _). by apply pruning.
  - unfold Boot.on_failure. rewrite flag_map, find_valence. destruct (valences (m_map b) !! ep) as [v|] eqn:E; simpl.
    + destruct (reinsert_inv ep ((if 0 <? v then 0 else v) - 1) _ Hi) as (H1 & H2 & _). split; [done|]. rewrite H2. f_equal.
      destruct (Z.ltb_spec 0 v); lia.
    + destruct (map_insert_new ep (-1) _ Hi E) as (H1 & H2 & _). by apply pruning.
  - unfold Boot.load. simpl. destruct (load_loop_spec l [] ltac:(repeat constructor)) as [H1 H2].
    destruct l as [|x l]; [done|]. cbn [bool_decide negb].
    rewrite bool_decide_false by done. simpl negb. destruct (Z.ltb_spec 0 (Z.of_nat (length (x :: l)))) as [_|Hbad]; [|simpl in Hbad; lia].
    by apply pruning.
  - unfold Boot.periodicActivity. by rewrite checkUpdate_map.
Qed.
End ops.
