(* ===== verification/Livecache.v ===== *)
(** * The live cache

    src/src/ripple/peerfinder/impl/Livecache.h: the endpoints heard of in the last
    30 seconds, each with the least number of hops reported, and the same
    endpoints in a list per number of hops.

    An element is named by its address: [m_cache] holds its number of hops and the
    intrusive lists [m_lists] hold addresses. *)

From stdpp Require Import prelude gmap sorting.
From Stdlib Require Import ZArith Lia.
From S2P Require Import Prelude.
From S2P Require Import AgedMap.
From S2P Require Import IPEndpoint.
From S2P Require Import PeerSlots.

Record Livecache := mkLive {
  m_cache : aged IPEndpoint Z;
  m_lists : list (list IPEndpoint);
  m_hist : list Z;
}.
(** [1 + Tuning::maxHops + 1] *)
Definition hop_lists : nat := Z.to_nat (1 + maxHops + 1).
Definition new_livecache : Livecache := mkLive [] (replicate hop_lists []) (replicate hop_lists 0).

Module Live.
Definition remove1 (a : IPEndpoint) (l : list IPEndpoint) : list IPEndpoint := filter (λ x, x ≠ a) l.

(** [hops_t::insert], [remove] and [reinsert] of the element [a]. *)
Definition hops_ok (h : Z) : bool := (0 <=? h) && (h <=? maxHops + 1).
Definition hops_insert (a : IPEndpoint) (h : Z) (c : Livecache) : option Livecache :=
  if hops_ok h
  then let i := Z.to_nat h in
       Some (mkLive (m_cache c) (alter (cons a) i (m_lists c)) (alter Z.succ i (m_hist c)))
  else None.
Definition hops_remove (a : IPEndpoint) (h : Z) (c : Livecache) : Livecache :=
  let i := Z.to_nat h in
  mkLive (m_cache c) (alter (remove1 a) i (m_lists c)) (alter Z.pred i (m_hist c)).
Definition hops_reinsert (a : IPEndpoint) (h0 h : Z) (c : Livecache) : option Livecache :=
  if hops_ok h
  then let c := hops_remove a h0 c in
       let c := mkLive (Aged.modify (λ _, h) a (m_cache c)) (m_lists c) (m_hist c) in
       hops_insert a h c
  else None.

Definition size (c : Livecache) : nat := length (m_cache c).

(** [insert]; no result where an assertion fails. *)
Definition insert (now : Z) (ep : Endpoint) (c : Livecache) : option Livecache :=
  let a := address ep in
  if negb (hops ep <=? maxHops + 1) then None
  else
    match Aged.find a (m_cache c) with
    | None => hops_insert a (hops ep) (mkLive (Aged.index now (hops ep) a (m_cache c)) (m_lists c) (m_hist c))
    | Some h =>
        if h <? hops ep then Some c
        else
          let c := mkLive (Aged.touch now a (m_cache c)) (m_lists c) (m_hist c) in
          if hops ep <? h then hops_reinsert a h (hops ep) c else Some c
    end.

(** [expire]: the oldest elements are removed from their list and from the cache. *)
Fixpoint expire_loop (expired : Z) (cache : aged IPEndpoint Z) (lists : list (list IPEndpoint)) (hist : list Z) : Livecache :=
  match cache with
  | [] => mkLive [] lists hist
  | (a, (w, h)) :: cache' =>
      if w <=? expired
      then expire_loop expired cache' (alter (remove1 a) (Z.to_nat h) lists) (alter Z.pred (Z.to_nat h) hist)
      else mkLive cache lists hist
  end.
Definition expire (now : Z) (c : Livecache) : Livecache :=
  expire_loop (now - liveCacheSecondsToLive) (m_cache c) (m_lists c) (m_hist c).

(** [hops_t::shuffle]; [perm] is the random order of each list. *)
Definition shuffle (perm : list IPEndpoint → list IPEndpoint) (c : Livecache) : Livecache :=
  mkLive (m_cache c) (perm <$> m_lists c) (m_hist c).

(** The endpoint of an element. *)
Definition element (c : Livecache) (a : IPEndpoint) : option Endpoint :=
  (λ h, mkEndpoint h a) <$> Aged.find a (m_cache c).
(** [Hop::move_back] *)
Definition move_back (a : IPEndpoint) (l : list IPEndpoint) : list IPEndpoint := remove1 a l ++ [a].

(** ** Invariant

    The elements are in the list of their number of hops, once. *)
Record live_inv (now : Z) (c : Livecache) : Prop := {
  live_aged : Aged.aged_inv now (m_cache c);
  live_hops : ∀ a h, Aged.find a (m_cache c) = Some h → 0 ≤ h ≤ maxHops + 1;
  live_length : length (m_lists c) = hop_lists;
  live_nodup : ∀ i l, m_lists c !! i = Some l → NoDup l;
  live_lists : ∀ i l a, m_lists c !! i = Some l → a ∈ l ↔ Aged.find a (m_cache c) = Some (Z.of_nat i);
  live_hist : m_hist c = Z.of_nat ∘ length <$> m_lists c;
}.

Lemma new_live_inv now : live_inv now new_livecache.
Proof.
  split; cbn [m_cache m_lists m_hist new_livecache]; try done.
  - split; constructor.
  - intros i l [-> _]%lookup_replicate. constructor.
  - intros i l a [-> _]%lookup_replicate. split; [by intros ?%not_elem_of_nil|done].
Qed.

Lemma live_list_of now c a h : live_inv now c → Aged.find a (m_cache c) = Some h →
  ∃ l, m_lists c !! Z.to_nat h = Some l ∧ a ∈ l.
Proof.
  intros Hi Hf. pose proof (live_hops _ _ Hi _ _ Hf) as Hh.
  destruct (lookup_lt_is_Some_2 (m_lists c) (Z.to_nat h)) as [l Hl].
  { rewrite (live_length _ _ Hi). unfold hop_lists, maxHops in *. lia. }
  exists l. split; [done|]. apply (live_lists _ _ Hi _ _ _ Hl). by rewrite Z2Nat.id by lia.
Qed.

(** A histogram of lists follows their changes. *)
Lemma hist_alter (f : list IPEndpoint → list IPEndpoint) (g : Z → Z) i (ls : list (list IPEndpoint)) :
  (∀ l, ls !! i = Some l → Z.of_nat (length (f l)) = g (Z.of_nat (length l))) →
  alter g i (Z.of_nat ∘ length <$> ls) = Z.of_nat ∘ length <$> alter f i ls.
Proof.
  intros H. apply list_eq. intros j. rewrite list_lookup_fmap. destruct (decide (i = j)) as [<-|Hne].
  - rewrite !list_lookup_alter_eq, list_lookup_fmap. destruct (ls !! i) as [l|] eqn:E; [|done]. simpl. by rewrite H.
  - rewrite !list_lookup_alter_ne by done. by rewrite list_lookup_fmap.
Qed.

Lemma remove1_id a l : a ∉ l → remove1 a l = l.
Proof.
  induction l as [|x l IH]; intros Ha; [done|]. unfold remove1. rewrite filter_cons_True by set_solver.
  f_equal. apply IH. set_solver.
Qed.

Lemma length_remove1 a l : NoDup l → a ∈ l → Z.of_nat (length (remove1 a l)) = Z.pred (Z.of_nat (length l)).
Proof.
  induction 1 as [|x l Hx Hnd IH]; intros Hin; [by apply not_elem_of_nil in Hin|]. unfold remove1. rewrite filter_cons.
  case_decide as E.
  - apply elem_of_cons in Hin as [->|Hin]; [done|]. simpl. specialize (IH Hin). unfold remove1 in IH. lia.
  - assert (x = a) as -> by (by destruct (decide (x = a))). simpl.
    pose proof (remove1_id a l Hx) as E'. unfold remove1 in E'. rewrite E'. lia.
Qed.

Lemma elem_of_remove1 a b l : b ∈ remove1 a l ↔ b ≠ a ∧ b ∈ l.
Proof. unfold remove1. by rewrite list_elem_of_filter. Qed.
Lemma remove1_nodup a l : NoDup l → NoDup (remove1 a l).
Proof. apply NoDup_filter. Qed.

(** ** The cache as a map *)
Lemma find_elem a h (c : aged IPEndpoint Z) : NoDup (map fst c) → Aged.find a c = Some h ↔ ∃ w, (a, (w, h)) ∈ c.
Proof.
  induction c as [|[k [w v]] c IH]; simpl; [by intros _; split; [done|intros [? ?%not_elem_of_nil]]|].
  intros [Hk Hnd]%NoDup_cons. case_decide as E.
  - subst k. split; [intros [= ->]; exists w; apply list_elem_of_here|]. intros [w' [[= _ ->]|Hin]%elem_of_cons]; [done|].
    exfalso. apply Hk. apply list_elem_of_fmap. by exists (a, (w', h)).
  - rewrite (IH Hnd). split; intros [w' Hin]; exists w'; [by apply list_elem_of_further|].
    by apply elem_of_cons in Hin as [[= -> _ _]|Hin].
Qed.

Lemma find_index now h a b (c : aged IPEndpoint Z) :
  Aged.find a c = None → Aged.find b (Aged.index now h a c) = if decide (b = a) then Some h else Aged.find b c.
Proof.
  intros Hn. unfold Aged.index. rewrite Hn. induction c as [|[k [w v]] c IH]; simpl in *; [done|].
  destruct (decide (a = k)); [done|]. destruct (decide (b = k)) as [->|]; [by rewrite decide_False|by apply IH].
Qed.

Lemma find_filter a b (c : aged IPEndpoint Z) :
  Aged.find b (filter (λ e, e.1 ≠ a) c) = if decide (b = a) then None else Aged.find b c.
Proof.
  induction c as [|[k [w v]] c IH]; simpl; [by case_decide|]. destruct (decide (k = a)) as [->|Hk].
  - rewrite filter_cons_False by naive_solver. rewrite IH. by destruct (decide (b = a)).
  - rewrite filter_cons_True by done. simpl. destruct (decide (b = k)) as [->|]; [by destruct (decide (k = a))|done].
Qed.

Lemma find_app b (c c' : aged IPEndpoint Z) :
  Aged.find b (c ++ c') = match Aged.find b c with Some v => Some v | None => Aged.find b c' end.
Proof. induction c as [|[k [w v]] c IH]; simpl; [done|]. by case_decide. Qed.

Lemma find_touch now a b (c : aged IPEndpoint Z) : Aged.find b (Aged.touch now a c) = Aged.find b c.
Proof.
  unfold Aged.touch. destruct (Aged.find a c) as [v|] eqn:E; [|done]. rewrite find_app, find_filter. simpl.
  case_decide as Eb; [by subst b|]. by destruct (Aged.find b c).
Qed.

Lemma live_find_modify f a b (c : aged IPEndpoint Z) :
  Aged.find b (Aged.modify f a c) = if decide (b = a) then f <$> Aged.find b c else Aged.find b c.
Proof.
  induction c as [|[k [w v]] c IH]; simpl; [by case_decide|]. destruct (decide (b = k)) as [->|Hne]; [|done].
  by repeat case_decide.
Qed.

(** ** The operations keep the invariant *)
Lemma hops_ok_spec h : hops_ok h = true ↔ 0 ≤ h ≤ maxHops + 1.
Proof. unfold hops_ok. rewrite andb_true_iff, !Z.leb_le. done. Qed.

(** A new element of the cache, not yet in a list. *)
Lemma hops_insert_inv now c a h cache :
  live_inv now c → hops_ok h = true → Aged.aged_inv now cache → (∀ i l, m_lists c !! i = Some l → a ∉ l) →
  (∀ b, Aged.find b cache = if decide (b = a) then Some h else Aged.find b (m_cache c)) →
  ∃ c', hops_insert a h (mkLive cache (m_lists c) (m_hist c)) = Some c' ∧ live_inv now c' ∧ m_cache c' = cache.
Proof.
  intros Hi Hh Ha Hn Hf. unfold hops_insert. rewrite Hh. simpl. eexists. split; [done|]. split; [|done].
  pose proof (proj1 (hops_ok_spec h) Hh) as Hh'. split; simpl.
  - done.
  - intros b k. rewrite Hf. case_decide; [by intros [= <-]|]. apply (live_hops _ _ Hi).
  - rewrite length_alter. apply Hi.
  - intros i l. rewrite list_lookup_alter. case_decide as E; [|apply (live_nodup _ _ Hi)].
    subst i. destruct (m_lists c !! Z.to_nat h) as [l0|] eqn:El; [|done]. intros [= <-]. constructor; [by eapply Hn|by eapply (live_nodup _ _ Hi)].
  - intros i l b. rewrite Hf. rewrite list_lookup_alter. case_decide as E.
    + subst i. destruct (m_lists c !! Z.to_nat h) as [l0|] eqn:El; [|done]. intros [= <-]. rewrite elem_of_cons, (live_lists _ _ Hi _ _ b El).
      case_decide as Eb; [|naive_solver]. split; [|by left]. intros _. f_equal. lia.
    + intros El. rewrite (live_lists _ _ Hi _ _ b El). case_decide as Eb; [|done]. subst b. split.
      * intros Hb. by apply (live_lists _ _ Hi _ _ a El), (Hn _ _ El) in Hb.
      * intros [= ->]. exfalso. apply E. by rewrite Nat2Z.id.
  - rewrite (live_hist _ _ Hi). apply hist_alter. intros l _. simpl. lia.
Qed.

Lemma aged_filter now a (c : aged IPEndpoint Z) : Aged.aged_inv now c → Aged.aged_inv now (filter (λ e, e.1 ≠ a) c).
Proof.
  intros [Hk Hs Hp]. split; [by apply Aged.filter_key_nodup|by apply Aged.filter_sorted|].
  rewrite Forall_forall in *. intros x [_ Hx]%list_elem_of_filter. auto.
Qed.

(** An element less. *)
Lemma remove_inv now c a h :
  live_inv now c → Aged.find a (m_cache c) = Some h →
  live_inv now (mkLive (filter (λ e, e.1 ≠ a) (m_cache c)) (alter (remove1 a) (Z.to_nat h) (m_lists c))
                 (alter Z.pred (Z.to_nat h) (m_hist c))) ∧
  (∀ i l, alter (remove1 a) (Z.to_nat h) (m_lists c) !! i = Some l → a ∉ l).
Proof.
  intros Hi Hf. destruct (live_list_of _ _ _ _ Hi Hf) as (l0 & Hl0 & Ha0). pose proof (live_hops _ _ Hi _ _ Hf) as Hh.
  assert (∀ i l b, alter (remove1 a) (Z.to_nat h) (m_lists c) !! i = Some l →
    b ∈ l ↔ b ≠ a ∧ Aged.find b (m_cache c) = Some (Z.of_nat i)) as Hel.
  { intros i l b. rewrite list_lookup_alter. case_decide as E.
    - subst i. rewrite Hl0. intros [= <-]. by rewrite elem_of_remove1, (live_lists _ _ Hi _ _ b Hl0).
    - intros El. rewrite (live_lists _ _ Hi _ _ b El). split; [|by intros [_ ?]]. intros Hb. split; [|done].
      intros ->. rewrite Hf in Hb. injection Hb as ->. apply E. by rewrite Nat2Z.id. }
  split; [|intros i l Hl Ha; apply (Hel _ _ _ Hl) in Ha; naive_solver]. split; simpl.
  - apply aged_filter, Hi.
  - intros b k. rewrite find_filter. case_decide; [done|]. apply (live_hops _ _ Hi).
  - rewrite length_alter. apply Hi.
  - intros i l. rewrite list_lookup_alter. case_decide as E; [|apply (live_nodup _ _ Hi)].
    subst i. rewrite Hl0. intros [= <-]. eapply remove1_nodup, (live_nodup _ _ Hi), Hl0.
  - intros i l b Hl. rewrite (Hel _ _ _ Hl), find_filter. case_decide; naive_solver.
  - rewrite (live_hist _ _ Hi). apply hist_alter. intros l. rewrite Hl0. intros [= <-]. apply length_remove1; [|done].
    by eapply (live_nodup _ _ Hi).
Qed.

Lemma insert_inv now ep c :
  live_inv now c → 0 ≤ hops ep ≤ maxHops + 1 →
  ∃ c', insert now ep c = Some c' ∧ live_inv now c' ∧
    ∀ b, Aged.find b (m_cache c') =
      if decide (b = address ep)
      then Some (match Aged.find b (m_cache c) with Some h => Z.min h (hops ep) | None => hops ep end)
      else Aged.find b (m_cache c).
Proof.
  intros Hi Hh. unfold insert. rewrite (proj2 (Z.leb_le _ _)) by lia. cbn [negb]. set (a := address ep) in *.
  pose proof (proj2 (hops_ok_spec _) Hh) as Hok. destruct (Aged.find a (m_cache c)) as [h|] eqn:Ea.
  - destruct (Z.ltb_spec h (hops ep)) as [Hlt|Hge].
    { exists c. split; [done|]. split; [done|]. intros b. case_decide; [subst b|done]. rewrite Ea. f_equal. lia. }
    destruct (Z.ltb_spec (hops ep) h) as [Hlt|Hge'].
    + unfold hops_reinsert. rewrite Hok. unfold hops_remove. cbn [m_cache m_lists m_hist].
      destruct (remove_inv now c a h Hi Ea) as [Hr Hn]. set (c1 := mkLive (filter _ _) _ _) in *.
      destruct (hops_insert_inv now c1 a (hops ep) (Aged.modify (λ _, hops ep) a (Aged.touch now a (m_cache c))) Hr Hok)
        as (c' & E & Hi' & Hc').
      * apply Aged.modify_inv, Aged.touch_inv, Hi.
      * exact Hn.
      * intros b. rewrite live_find_modify, find_touch. unfold c1. cbn [m_cache]. rewrite find_filter.
        case_decide; [subst b; by rewrite Ea|done].
      * exists c'. split; [exact E|]. split; [done|]. intros b. rewrite Hc', live_find_modify, find_touch.
        case_decide; [subst b|done]. rewrite Ea. simpl. f_equal. lia.
    + eexists. split; [done|]. split.
      * destruct Hi as [H1 H2 H3 H4 H5 H6]. split; cbn [m_cache m_lists m_hist]; [by apply Aged.touch_inv| |done|done| |done].
        -- intros b k. rewrite find_touch. apply H2.
        -- intros i l b Hl. rewrite find_touch. by apply H5.
      * intros b. cbn [m_cache]. rewrite find_touch. case_decide; [subst b|done]. rewrite Ea. f_equal. lia.
  - destruct (hops_insert_inv now c a (hops ep) (Aged.index now (hops ep) a (m_cache c)) Hi Hok) as (c' & E & Hi' & Hc').
    + apply Aged.index_inv, Hi.
    + intros i l Hl Ha. apply (live_lists _ _ Hi _ _ _ Hl) in Ha. congruence.
    + intros b. by apply find_index.
    + exists c'. split; [done|]. split; [done|]. intros b. rewrite Hc', find_index by done. case_decide; [subst b; by rewrite Ea|done].
Qed.

Lemma shuffle_inv now perm c : (∀ l, perm l ≡ₚ l) → live_inv now c → live_inv now (shuffle perm c).
Proof.
  intros Hp [H1 H2 H3 H4 H5 H6]. split; simpl; try done.
  - by rewrite length_fmap.
  - intros i l. rewrite list_lookup_fmap. destruct (m_lists c !! i) as [l0|] eqn:E; [|done]. intros [= <-].
    rewrite Hp. by eapply H4.
  - intros i l b. rewrite list_lookup_fmap. destruct (m_lists c !! i) as [l0|] eqn:E; [|done]. intros [= <-].
    rewrite Hp. by apply H5.
  - rewrite H6, <- list_fmap_compose. apply list_fmap_ext. intros i l Hl. simpl. by rewrite Hp.
Qed.

Lemma live_mono now now' c : live_inv now c → now ≤ now' → live_inv now' c.
Proof. intros [H1 H2 H3 H4 H5 H6] Hle. split; try done. by eapply Aged.aged_mono. Qed.

(** Expiry removes exactly what was not heard of for 30 seconds. *)
Lemma expire_loop_inv now e cache : ∀ lists hist,
  live_inv now (mkLive cache lists hist) →
  live_inv now (expire_loop e cache lists hist) ∧
  m_cache (expire_loop e cache lists hist) = Aged.expire_loop e cache.
Proof.
  induction cache as [|[a [w h]] cache IH]; intros lists hist Hi; simpl; [done|].
  destruct (Z.leb_spec w e); [|done]. apply IH.
  destruct (remove_inv now _ a h Hi) as [Hr _]; [simpl; by rewrite decide_True|]. cbn [m_cache m_lists m_hist] in Hr.
  rewrite filter_cons_False in Hr by naive_solver.
  assert (filter (λ e0, e0.1 ≠ a) cache = cache) as E; [|by rewrite E in Hr].
  pose proof (Aged.aged_keys _ _ (live_aged _ _ Hi)) as Hnd. simpl in Hnd. apply NoDup_cons in Hnd as [Hn _].
  clear -Hn. induction cache as [|x cache IH]; [done|]. simpl in Hn. rewrite filter_cons_True by set_solver. f_equal. apply IH. set_solver.
Qed.

Lemma live_expire_inv now now' c : live_inv now c →
  live_inv now (expire now' c) ∧
  m_cache (expire now' c) = filter (λ e, now' - liveCacheSecondsToLive < e.2.1) (m_cache c).
Proof.
  intros Hi. unfold expire. destruct (expire_loop_inv now (now' - liveCacheSecondsToLive) (m_cache c) (m_lists c) (m_hist c)) as [H1 H2];
    [by destruct c|]. split; [done|]. rewrite H2. apply (Aged.expire_exact now now' liveCacheSecondsToLive), Hi.
Qed.
End Live.
