(* ===== verification/Handouts.v ===== *)
(** * Handing out endpoints

    src/src/ripple/peerfinder/impl/Handouts.h: endpoints of the live cache are dealt
    to targets, one at a time and in turn, until every target is full or takes no
    more.  The three kinds of targets are instances of one interface. *)

From stdpp Require Import prelude gmap sorting.
From Stdlib Require Import ZArith Lia.
From S2P Require Import Prelude.
From S2P Require Import AgedMap.
From S2P Require Import IPEndpoint.
From S2P Require Import PeerSlots.
From S2P Require Import Livecache.

(** What [handout] asks of a target.  [try_insert] gives the target with the
    endpoint, or nothing where the source returns false. *)
Class Target (T : Type) := mkTarget {
  full : T → bool;
  try_insert : Endpoint → T → option T;
}.

Section handout.
  Context {T : Type} `{Target T}.
  (* the elements of the lists *)
  Variable element : IPEndpoint → option Endpoint.

(** [handout_one]: the first endpoint of [rest] the target takes goes to the end of
    the list [h]. *)
Fixpoint handout_walk (t : T) (h rest : list IPEndpoint) : option (T * list IPEndpoint) :=
  match rest with
  | [] => None
  | a :: rest =>
      match element a with
      | None => None
      | Some e =>
          match try_insert e t with
          | Some t => Some (t, Live.move_back a h)
          | None => handout_walk t h rest
          end
      end
  end.
(** The target, the list and whether something was handed out. *)
Definition handout_one (t : T) (h : list IPEndpoint) : T * list IPEndpoint * bool :=
  match handout_walk t h h with
  | Some (t, h) => (t, h, true)
  | None => (t, h, false)
  end.

(** One list for all targets: the targets, the list, how many were handed out and
    whether all targets were full. *)
Fixpoint handout_targets (ts : list T) (c : list IPEndpoint) : list T * list IPEndpoint * Z * bool :=
  match ts with
  | [] => ([], c, 0, true)
  | t :: ts =>
      if full t
      then let '(ts, c, n, all_full) := handout_targets ts c in (t :: ts, c, n, all_full)
      else let '(t, c, b) := handout_one t c in
           let '(ts, c, n, _) := handout_targets ts c in
           (t :: ts, c, n + (if b then 1 else 0), false)
  end.
(** One round over the lists: also whether to return. *)
Fixpoint handout_round (ts : list T) (seq : list (list IPEndpoint)) (n : Z) : list T * list (list IPEndpoint) * Z * bool :=
  match seq with
  | [] => (ts, [], n, false)
  | c :: seq =>
      let '(ts, c, k, all_full) := handout_targets ts c in
      if all_full then (ts, c :: seq, n + k, true)
      else let '(ts, seq, n, stop) := handout_round ts seq (n + k) in (ts, c :: seq, n, stop)
  end.
(** [handout]; no result when the fuel runs out. *)
Fixpoint handout (fuel : nat) (ts : list T) (seq : list (list IPEndpoint)) : option (list T * list (list IPEndpoint)) :=
  match fuel with
  | O => None
  | S fuel =>
      let '(ts, seq, n, stop) := handout_round ts seq 0 in
      if stop || (n =? 0) then Some (ts, seq) else handout fuel ts seq
  end.
End handout.

(** ** The targets *)
Definition same_address (e : IPEndpoint) (e' : IPEndpoint) : bool := bool_decide (ep_address e' = ep_address e).

(** For a peer that is told to connect elsewhere. *)
Record RedirectHandouts := mkRedirect { r_slot : SlotImp; r_list : list Endpoint }.
Definition redirect_full (t : RedirectHandouts) : bool := redirectEndpointCount <=? Z.of_nat (length (r_list t)).
Definition redirect_insert (ep : Endpoint) (t : RedirectHandouts) : option RedirectHandouts :=
  if redirect_full t then None
  else if maxHops <? hops ep then None
  else if hops ep =? 0 then None
  else if same_address (address ep) (remote_endpoint (r_slot t)) then None
  else if existsb (λ o, same_address (address ep) (address o)) (r_list t) then None
  else Some (mkRedirect (r_slot t) (r_list t ++ [ep])).
#[export] Instance redirect_target : Target RedirectHandouts := mkTarget _ redirect_full redirect_insert.

(** For a peer that is told the endpoints we know; the slot remembers them. *)
Record SlotHandouts := mkSlotHandouts { h_id : positive; h_slot : SlotImp; h_list : list Endpoint }.
Definition slot_full (t : SlotHandouts) : bool := numberOfEndpoints <=? Z.of_nat (length (h_list t)).
Definition slot_insert (now : Z) (ep : Endpoint) (t : SlotHandouts) : option SlotHandouts :=
  if slot_full t then None
  else if maxHops <? hops ep then None
  else if recent_filter (address ep) (hops ep) (recent (h_slot t)) then None
  else if same_address (address ep) (remote_endpoint (h_slot t)) then None
  else if existsb (λ o, same_address (address ep) (address o)) (h_list t) then None
  else Some (mkSlotHandouts (h_id t)
              (set_recent (recent_insert now (address ep) (hops ep) (recent (h_slot t))) (h_slot t))
              (h_list t ++ [ep])).
Definition slot_target (now : Z) : Target SlotHandouts := mkTarget _ slot_full (slot_insert now).

(** For our own attempts to connect; addresses tried are squelched for a while. *)
Abbreviation Squelches := (aged Address ()).
Record ConnectHandouts := mkConnect { m_needed : Z; m_squelches : Squelches; m_list : list IPEndpoint }.
Definition connect_full (t : ConnectHandouts) : bool := m_needed t <=? Z.of_nat (length (m_list t)).
Definition connect_insert_address (now : Z) (e : IPEndpoint) (t : ConnectHandouts) : option ConnectHandouts :=
  if connect_full t then None
  else if existsb (same_address e) (m_list t) then None
  else match Aged.find (ep_address e) (m_squelches t) with
       | Some _ => None
       | None => Some (mkConnect (m_needed t) (Aged.index now () (ep_address e) (m_squelches t)) (m_list t ++ [e]))
       end.
Definition connect_insert (now : Z) (ep : Endpoint) : ConnectHandouts → option ConnectHandouts :=
  connect_insert_address now (address ep).
Definition connect_target (now : Z) : Target ConnectHandouts := mkTarget _ connect_full (connect_insert now).

(** ** The laws of targets *)
Class TargetLaws (T : Type) `{Target T} := mkTargetLaws {
  room : T → nat;
  full_room : ∀ t, full t = true ↔ room t = 0%nat;
  insert_room : ∀ e t t', try_insert e t = Some t' → room t = S (room t');
}.

Section laws.
Context {T : Type} `{TargetLaws T} (element : IPEndpoint → option Endpoint).
Implicit Types (t : T) (ts : list T) (h : list IPEndpoint).

Definition rooms ts : Z := sumZ (Z.of_nat ∘ room) ts.

Lemma rooms_nonneg ts : 0 ≤ rooms ts.
Proof. apply sumZ_nonneg. intros t _. simpl. lia. Qed.

Lemma handout_walk_spec t h rest t' h' :
  handout_walk element t h rest = Some (t', h') →
  ∃ a e, a ∈ rest ∧ element a = Some e ∧ try_insert e t = Some t' ∧ h' = Live.move_back a h.
Proof.
  induction rest as [|a rest IH]; simpl; [done|]. destruct (element a) as [e|] eqn:Ea; [|done].
  destruct (try_insert e t) as [t1|] eqn:E.
  - intros [= <- <-]. exists a, e. split_and!; try done. apply list_elem_of_here.
  - intros Hw. destruct (IH Hw) as (b & e' & Hb & ? & ? & ?). exists b, e'. split_and!; try done. by apply list_elem_of_further.
Qed.

Lemma move_back_perm a h : NoDup h → a ∈ h → Live.move_back a h ≡ₚ h.
Proof.
  intros Hnd Ha. unfold Live.move_back. apply list_elem_of_split in Ha as (l1 & l2 & ->).
  apply NoDup_app in Hnd as (H1 & H2 & H3). apply NoDup_cons in H3 as [H3 H4].
  unfold Live.remove1. rewrite filter_app, filter_cons_False by naive_solver.
  pose proof (Live.remove1_id a l1) as E1. pose proof (Live.remove1_id a l2 H3) as E2. unfold Live.remove1 in E1, E2.
  rewrite E1, E2 by set_solver. rewrite (Permutation_app_comm _ [a]). simpl. apply Permutation_middle.
Qed.

(** What one list gives: some room is used, the list is only reordered and what
    insertions keep is kept. *)
Section kept.
Context (Q : Endpoint → Prop) (P : T → Prop).
Context (HP : ∀ e t t', Q e → P t → try_insert e t = Some t' → P t').
Definition good h : Prop := NoDup h ∧ ∀ a, a ∈ h → ∃ e, element a = Some e ∧ Q e.

Lemma good_perm h h' : h' ≡ₚ h → good h → good h'.
Proof. intros Hp [H1 H2]. split; [by rewrite Hp|]. intros a. rewrite Hp. apply H2. Qed.

Lemma handout_one_spec t h t' h' b :
  handout_one element t h = (t', h', b) → good h → P t →
  h' ≡ₚ h ∧ P t' ∧ Z.of_nat (room t) = Z.of_nat (room t') + (if b then 1 else 0).
Proof.
  unfold handout_one. destruct (handout_walk element t h h) as [[t1 h1]|] eqn:E; intros [= <- <- <-] [Hnd Hq] Ht.
  - destruct (handout_walk_spec _ _ _ _ _ E) as (a & e & Ha & He & Hi & ->).
    split; [by apply move_back_perm|]. split; [destruct (Hq a Ha) as (e' & He' & HQ); eapply (HP e); [congruence|exact Ht|exact Hi]|]. rewrite (insert_room _ _ _ Hi). lia.
  - split; [done|]. split; [done|lia].
Qed.

Lemma handout_targets_spec ts : ∀ h ts' h' n b,
  handout_targets element ts h = (ts', h', n, b) → good h → Forall P ts →
  h' ≡ₚ h ∧ Forall P ts' ∧ 0 ≤ n ∧ rooms ts = rooms ts' + n ∧ (b = true ↔ Forall (λ t, full t = true) ts).
Proof.
  induction ts as [|t ts IH]; intros h ts' h' n b; simpl; [intros [= <- <- <- <-] _ _; split_and!; try done; by split; [constructor|]|].
  intros E Hg Hts. inversion Hts as [|? ? Ht Hts']; subst. destruct (full t) eqn:Ef.
  - destruct (handout_targets element ts h) as [[[ts1 h1] n1] b1] eqn:E1. injection E as <- <- <- <-.
    destruct (IH _ _ _ _ _ E1 Hg Hts') as (Hp & Hf & Hn & Hr & Hb). split; [done|]. split; [by constructor|]. split; [done|].
    split; [unfold rooms in *; simpl; lia|]. rewrite Hb. split; [by constructor|by inversion 1].
  - destruct (handout_one element t h) as [[t1 h1] b1] eqn:E1. destruct (handout_targets element ts h1) as [[[ts2 h2] n2] b2] eqn:E2.
    injection E as <- <- <- <-. destruct (handout_one_spec _ _ _ _ _ E1 Hg Ht) as (Hp1 & Ht1 & Hr1).
    destruct (IH _ _ _ _ _ E2 (good_perm _ _ Hp1 Hg) Hts') as (Hp2 & Hf2 & Hn2 & Hr2 & _).
    split; [by rewrite Hp2|]. split; [by constructor|]. split; [destruct b1; lia|].
    split; [unfold rooms in *; simpl; lia|]. split; [done|]. inversion 1. congruence.
Qed.

Lemma handout_round_spec seq : ∀ ts n ts' seq' n' b,
  handout_round element ts seq n = (ts', seq', n', b) → Forall good seq → Forall P ts →
  Forall2 Permutation seq' seq ∧ Forall P ts' ∧ n ≤ n' ∧ rooms ts + n = rooms ts' + n'.
Proof.
  induction seq as [|c seq IH]; intros ts n ts' seq' n' b; simpl; [by intros [= <- <- <- <-]|].
  destruct (handout_targets element ts c) as [[[ts1 c1] k] full1] eqn:E1. intros E Hg Hts. inversion Hg as [|? ? Hc Hseq]; subst.
  destruct (handout_targets_spec _ _ _ _ _ _ E1 Hc Hts) as (Hp & Hf & Hk & Hr & _). destruct full1.
  - injection E as <- <- <- <-. split; [constructor; [done|reflexivity]|]. split; [done|]. split; lia.
  - destruct (handout_round element ts1 seq (n + k)) as [[[ts2 seq2] n2] b2] eqn:E2. injection E as <- <- <- <-.
    destruct (IH _ _ _ _ _ _ E2 Hseq Hf) as (Hp2 & Hf2 & Hn2 & Hr2). split; [by constructor|]. split; [done|]. split; lia.
Qed.

(** The target takes nothing of the list. *)
Definition refuses t h : Prop := ∀ a e, a ∈ h → element a = Some e → try_insert e t = None.
(** Every target is full or takes nothing. *)
Definition settled ts (seq : list (list IPEndpoint)) : Prop := ∀ t, t ∈ ts → full t = true ∨ ∀ h, h ∈ seq → refuses t h.

Lemma handout_walk_refuses t h rest :
  handout_walk element t h rest = None → (∀ a, a ∈ rest → is_Some (element a)) → refuses t rest.
Proof.
  induction rest as [|a rest IH]; simpl; [by intros _ _ a e ?%not_elem_of_nil|]. intros E Hs b e Hb He.
  destruct (Hs a) as [ea Ea]; [apply list_elem_of_here|]. rewrite Ea in E. destruct (try_insert ea t) eqn:Et; [done|].
  apply elem_of_cons in Hb as [->|Hb]; [congruence|]. eapply IH; eauto. intros c Hc. apply Hs. by apply list_elem_of_further.
Qed.

(** Where nothing is handed out, nothing changes and nothing is taken. *)
Lemma handout_targets_none ts : ∀ h ts' h' b,
  handout_targets element ts h = (ts', h', 0, b) → good h → Forall P ts →
  ts' = ts ∧ h' = h ∧ ∀ t, t ∈ ts → full t = true ∨ refuses t h.
Proof.
  induction ts as [|t ts IH]; intros h ts' h' b; simpl.
  { intros [= <- <- _] _ _. split; [done|]. split; [done|]. by intros ? ?%not_elem_of_nil. }
  intros E Hg Hts. inversion Hts as [|? ? Ht Hts']; subst. destruct (full t) eqn:Ef.
  - destruct (handout_targets element ts h) as [[[ts1 h1] n1] b1] eqn:E1. injection E as <- <- -> <-.
    destruct (IH _ _ _ _ E1 Hg Hts') as (-> & -> & Hr). split; [done|]. split; [done|]. intros t' [->|Hin]%elem_of_cons; auto.
  - unfold handout_one in E. destruct (handout_walk element t h h) as [[t1 h1]|] eqn:Ew.
    + destruct (handout_walk_spec _ _ _ _ _ Ew) as (a & e & Ha & _ & _ & ->).
      destruct (handout_targets element ts (Live.move_back a h)) as [[[ts2 h2] n2] b2] eqn:E2. injection E as _ _ E _.
      destruct (handout_targets_spec _ _ _ _ _ _ E2 (good_perm _ _ (move_back_perm _ _ (proj1 Hg) Ha) Hg) Hts') as (_ & _ & Hn & _). lia.
    + destruct (handout_targets element ts h) as [[[ts2 h2] n2] b2] eqn:E2. injection E as <- <- E _.
      assert (n2 = 0) as -> by lia. destruct (IH _ _ _ _ E2 Hg Hts') as (-> & -> & Hr). split; [done|]. split; [done|].
      intros t' [->|Hin]%elem_of_cons; [|auto]. right. eapply handout_walk_refuses; [exact Ew|]. intros a Ha.
      destruct (proj2 Hg a Ha) as (e & He & _). eauto.
Qed.

(** With all targets full, nothing changes. *)
Lemma handout_targets_full ts : ∀ h ts' h' n, handout_targets element ts h = (ts', h', n, true) →
  good h → Forall P ts → ts' = ts ∧ Forall (λ t, full t = true) ts'.
Proof.
  induction ts as [|t ts IH]; intros h ts' h' n; simpl; [intros [= <- _ _] _ _; by split|].
  intros E Hg Hts. inversion Hts as [|? ? Ht Hts']; subst. destruct (full t) eqn:Ef.
  - destruct (handout_targets element ts h) as [[[ts1 h1] n1] b1] eqn:E1. injection E as <- <- <- ->.
    destruct (IH _ _ _ _ E1 Hg Hts') as [-> Hf]. split; [done|by constructor].
  - destruct (handout_one element t h) as [[t1 h1] b1]. destruct (handout_targets element ts h1) as [[[? ?] ?] ?]. done.
Qed.

Lemma handout_round_settled seq : ∀ ts n ts' seq' n' b,
  handout_round element ts seq n = (ts', seq', n', b) → Forall good seq → Forall P ts →
  (b = true → Forall (λ t, full t = true) ts') ∧ (b = false → n' = n → ts' = ts ∧ seq' = seq ∧ settled ts' seq').
Proof.
  induction seq as [|c seq IH]; intros ts n ts' seq' n' b; simpl.
  { intros [= <- <- <- <-] _ _. split; [done|]. intros _ _. split; [done|]. split; [done|]. intros t _. right. by intros h ?%not_elem_of_nil. }
  destruct (handout_targets element ts c) as [[[ts1 c1] k] full1] eqn:E1. intros E Hg Hts. inversion Hg as [|? ? Hc Hseq]; subst.
  destruct (handout_targets_spec _ _ _ _ _ _ E1 Hc Hts) as (_ & Hf & Hk & _ & _). destruct full1.
  - injection E as <- <- <- <-. split; [|done]. intros _. eapply (handout_targets_full _ _ _ _ _ E1); done.
  - destruct (handout_round element ts1 seq (n + k)) as [[[ts2 seq2] n2] b2] eqn:E2. injection E as <- <- <- <-.
    destruct (handout_round_spec _ _ _ _ _ _ _ E2 Hseq Hf) as (_ & _ & Hn2 & _).
    destruct (IH _ _ _ _ _ _ E2 Hseq Hf) as [I1 I2]. split; [done|]. intros Eb En. assert (k = 0) as -> by lia.
    destruct (handout_targets_none _ _ _ _ _ E1 Hc Hts) as (-> & -> & Hr). destruct (I2 Eb) as (-> & -> & Hset); [lia|].
    split; [done|]. split; [done|]. intros t Ht. destruct (Hr t Ht) as [|Hr1]; [by left|]. destruct (Hset t Ht) as [|Hr2]; [by left|].
    right. intros h [->|Hh]%elem_of_cons; auto.
Qed.

(** Enough fuel is one round more than there is room. *)
Lemma handout_spec fuel : ∀ ts seq,
  Forall good seq → Forall P ts → rooms ts < Z.of_nat fuel →
  ∃ ts' seq', handout element fuel ts seq = Some (ts', seq') ∧ Forall P ts' ∧ Forall2 Permutation seq' seq ∧ settled ts' seq'.
Proof.
  induction fuel as [|fuel IH]; intros ts seq Hg Hts Hf; [pose proof (rooms_nonneg ts); lia|]. cbn [handout].
  destruct (handout_round element ts seq 0) as [[[ts1 seq1] n] stop] eqn:E.
  destruct (handout_round_spec _ _ _ _ _ _ _ E Hg Hts) as (Hp & Hf1 & Hn & Hr).
  destruct (handout_round_settled _ _ _ _ _ _ _ E Hg Hts) as [Hs1 Hs2].
  destruct (stop || (n =? 0)) eqn:Es.
  { exists ts1, seq1. split_and!; try done. destruct stop; simpl in Es.
    - intros t Ht. left. specialize (Hs1 eq_refl). rewrite Forall_forall in Hs1. auto.
    - apply Z.eqb_eq in Es. by apply Hs2. }
  apply orb_false_iff in Es as [_ Es%Z.eqb_neq].
  destruct (IH ts1 seq1) as (ts2 & seq2 & E2 & Hf2 & Hp2 & Hset); [|done|lia|].
  - clear -Hg Hp. induction Hp as [|h h' l l' Hh Hp IH]; [constructor|]. inversion Hg; subst. constructor; [by eapply good_perm|auto].
  - exists ts2, seq2. split; [done|]. split; [done|]. split; [by trans seq1|done].
Qed.
End kept.

Lemma handout_length fuel : ∀ ts seq ts' seq', handout element fuel ts seq = Some (ts', seq') → length ts' = length ts.
Proof.
  assert (∀ ts h, length (handout_targets element ts h).1.1.1 = length ts) as H1.
  { induction ts as [|t ts IH]; intros h; simpl; [done|]. destruct (full t).
    - specialize (IH h). destruct (handout_targets element ts h) as [[[? ?] ?] ?]. simpl in *. by f_equal.
    - destruct (handout_one element t h) as [[? h1] ?]. specialize (IH h1). destruct (handout_targets element ts h1) as [[[? ?] ?] ?].
      simpl in *. by f_equal. }
  assert (∀ seq ts n, length (handout_round element ts seq n).1.1.1 = length ts) as H2.
  { induction seq as [|c seq IH]; intros ts n; simpl; [done|]. specialize (H1 ts c).
    destruct (handout_targets element ts c) as [[[ts1 ?] k] []]; simpl in *; [done|]. specialize (IH ts1 (n + k)).
    destruct (handout_round element ts1 seq (n + k)) as [[[? ?] ?] ?]. simpl in *. congruence. }
  induction fuel as [|fuel IH]; intros ts seq ts' seq'; simpl; [done|]. specialize (H2 seq ts 0).
  destruct (handout_round element ts seq 0) as [[[ts1 seq1] n] stop]. simpl in *. case_match; [by intros [= <- <-]|].
  intros E%IH. congruence.
Qed.
End laws.

(** ** The instances *)
#[export] Program Instance redirect_laws : TargetLaws RedirectHandouts :=
  mkTargetLaws _ _ (λ t, Z.to_nat (redirectEndpointCount - Z.of_nat (length (r_list t)))) _ _.
Next Obligation. intros t. simpl. unfold redirect_full. rewrite Z.leb_le. lia. Qed.
Next Obligation.
  intros e t t'. simpl. unfold redirect_insert. destruct (redirect_full t) eqn:Ef; [done|]. unfold redirect_full in Ef. apply Z.leb_gt in Ef.
  repeat (case_match; [done|]). intros [= <-]. simpl. rewrite length_app. simpl. lia.
Qed.

#[export] Program Instance slot_laws now : @TargetLaws SlotHandouts (slot_target now) :=
  @mkTargetLaws _ (slot_target now) (λ t, Z.to_nat (numberOfEndpoints - Z.of_nat (length (h_list t)))) _ _.
Next Obligation. intros now t. simpl. unfold slot_full. rewrite Z.leb_le. lia. Qed.
Next Obligation.
  intros now e t t'. simpl. unfold slot_insert. destruct (slot_full t) eqn:Ef; [done|]. unfold slot_full in Ef. apply Z.leb_gt in Ef.
  repeat (case_match; [done|]). intros [= <-]. simpl. rewrite length_app. simpl. lia.
Qed.

#[export] Program Instance connect_laws now : @TargetLaws ConnectHandouts (connect_target now) :=
  @mkTargetLaws _ (connect_target now) (λ t, Z.to_nat (m_needed t - Z.of_nat (length (m_list t)))) _ _.
Next Obligation. intros now t. simpl. unfold connect_full. rewrite Z.leb_le. lia. Qed.
Next Obligation.
  intros now e t t'. simpl. unfold connect_insert, connect_insert_address. destruct (connect_full t) eqn:Ef; [done|].
  unfold connect_full in Ef. apply Z.leb_gt in Ef. case_match; [done|]. case_match; [done|]. intros [= <-]. simpl. rewrite length_app. simpl. lia.
Qed.
