(* ===== verification/PeerFinder.v ===== *)
(** * The logic of the peer finder

    src/src/ripple/peerfinder/impl/Logic.h: slots are opened, connected, activated
    and closed; endpoints that peers report go to the caches, and from these to
    peers and to our own attempts to connect.

    Slots are shared objects: [slots_] maps an endpoint to a pointer, the callers
    hold pointers too, and [slot_heap] has the objects.  The clock, the random orders of
    the shuffles, what a source or the store delivers and the results of
    connectivity checks are arguments of the operations; [checks] are the checks that
    were started.  A failed assertion ends an operation with an error. *)

From stdpp Require Import prelude gmap gmultiset strings sorting.
From Stdlib Require Import ZArith QArith Lia.
From S2P Require Import Prelude.
From S2P Require Import AgedMap.
From S2P Require Import IPEndpoint.
From S2P Require Import PeerSlots.
From S2P Require Import Bootcache.
From S2P Require Import Livecache.
From S2P Require Import Handouts.

#[local] Open Scope Z_scope.

Abbreviation SlotPtr := positive.

Record Logic := mkLogic {
  stopping_ : bool;
  fetchSource_ : bool;
  config_ : Config;
  threshold : Q;
  counts_ : Counts;
  fixed_ : gmap IPEndpoint Fixed;
  livecache_ : Livecache;
  bootcache_ : Bootcache;
  slots_ : gmap IPEndpoint SlotPtr;
  slot_heap : gmap SlotPtr SlotImp;
  connectedAddresses_ : gmultiset Address;
  keys_ : gset Z;
  m_whenBroadcast : Z;
  squelches_ : Squelches;
  checks : list (IPEndpoint * IPEndpoint);
}.

Definition set_stopping (x : bool) (l : Logic) : Logic :=
  mkLogic x (fetchSource_ l) (config_ l) (threshold l) (counts_ l) (fixed_ l) (livecache_ l)
    (bootcache_ l) (slots_ l) (slot_heap l) (connectedAddresses_ l) (keys_ l) (m_whenBroadcast l)
    (squelches_ l) (checks l).
Definition set_fetchSource (x : bool) (l : Logic) : Logic :=
  mkLogic (stopping_ l) x (config_ l) (threshold l) (counts_ l) (fixed_ l) (livecache_ l) (bootcache_
    l) (slots_ l) (slot_heap l) (connectedAddresses_ l) (keys_ l) (m_whenBroadcast l) (squelches_ l)
    (checks l).
Definition set_config (x : Config) (l : Logic) : Logic :=
  mkLogic (stopping_ l) (fetchSource_ l) x (threshold l) (counts_ l) (fixed_ l) (livecache_ l)
    (bootcache_ l) (slots_ l) (slot_heap l) (connectedAddresses_ l) (keys_ l) (m_whenBroadcast l)
    (squelches_ l) (checks l).
Definition set_counts (x : Counts) (l : Logic) : Logic :=
  mkLogic (stopping_ l) (fetchSource_ l) (config_ l) (threshold l) x (fixed_ l) (livecache_ l)
    (bootcache_ l) (slots_ l) (slot_heap l) (connectedAddresses_ l) (keys_ l) (m_whenBroadcast l)
    (squelches_ l) (checks l).
Definition set_fixed (x : gmap IPEndpoint Fixed) (l : Logic) : Logic :=
  mkLogic (stopping_ l) (fetchSource_ l) (config_ l) (threshold l) (counts_ l) x (livecache_ l)
    (bootcache_ l) (slots_ l) (slot_heap l) (connectedAddresses_ l) (keys_ l) (m_whenBroadcast l)
    (squelches_ l) (checks l).
Definition set_livecache (x : Livecache) (l : Logic) : Logic :=
  mkLogic (stopping_ l) (fetchSource_ l) (config_ l) (threshold l) (counts_ l) (fixed_ l) x
    (bootcache_ l) (slots_ l) (slot_heap l) (connectedAddresses_ l) (keys_ l) (m_whenBroadcast l)
    (squelches_ l) (checks l).
Definition set_bootcache (x : Bootcache) (l : Logic) : Logic :=
  mkLogic (stopping_ l) (fetchSource_ l) (config_ l) (threshold l) (counts_ l) (fixed_ l) (livecache_
    l) x (slots_ l) (slot_heap l) (connectedAddresses_ l) (keys_ l) (m_whenBroadcast l) (squelches_ l)
    (checks l).
Definition set_slots (x : gmap IPEndpoint SlotPtr) (l : Logic) : Logic :=
  mkLogic (stopping_ l) (fetchSource_ l) (config_ l) (threshold l) (counts_ l) (fixed_ l) (livecache_
    l) (bootcache_ l) x (slot_heap l) (connectedAddresses_ l) (keys_ l) (m_whenBroadcast l) (squelches_
    l) (checks l).
Definition set_slot_heap (x : gmap SlotPtr SlotImp) (l : Logic) : Logic :=
  mkLogic (stopping_ l) (fetchSource_ l) (config_ l) (threshold l) (counts_ l) (fixed_ l) (livecache_
    l) (bootcache_ l) (slots_ l) x (connectedAddresses_ l) (keys_ l) (m_whenBroadcast l) (squelches_ l)
    (checks l).
Definition set_connectedAddresses (x : gmultiset Address) (l : Logic) : Logic :=
  mkLogic (stopping_ l) (fetchSource_ l) (config_ l) (threshold l) (counts_ l) (fixed_ l) (livecache_
    l) (bootcache_ l) (slots_ l) (slot_heap l) x (keys_ l) (m_whenBroadcast l) (squelches_ l) (checks
    l).
Definition set_keys (x : gset Z) (l : Logic) : Logic :=
  mkLogic (stopping_ l) (fetchSource_ l) (config_ l) (threshold l) (counts_ l) (fixed_ l) (livecache_
    l) (bootcache_ l) (slots_ l) (slot_heap l) (connectedAddresses_ l) x (m_whenBroadcast l) (squelches_
    l) (checks l).
Definition set_whenBroadcast (x : Z) (l : Logic) : Logic :=
  mkLogic (stopping_ l) (fetchSource_ l) (config_ l) (threshold l) (counts_ l) (fixed_ l) (livecache_
    l) (bootcache_ l) (slots_ l) (slot_heap l) (connectedAddresses_ l) (keys_ l) x (squelches_ l)
    (checks l).
Definition set_squelches (x : Squelches) (l : Logic) : Logic :=
  mkLogic (stopping_ l) (fetchSource_ l) (config_ l) (threshold l) (counts_ l) (fixed_ l) (livecache_
    l) (bootcache_ l) (slots_ l) (slot_heap l) (connectedAddresses_ l) (keys_ l) (m_whenBroadcast l) x
    (checks l).
Definition set_checks (x : list (IPEndpoint * IPEndpoint)) (l : Logic) : Logic :=
  mkLogic (stopping_ l) (fetchSource_ l) (config_ l) (threshold l) (counts_ l) (fixed_ l) (livecache_
    l) (bootcache_ l) (slots_ l) (slot_heap l) (connectedAddresses_ l) (keys_ l) (m_whenBroadcast l)
    (squelches_ l) x.

(** ** Operations that fail *)
Definition PF (A : Type) : Type := Logic → string + (A * Logic).
#[export] Instance pf_ret : MRet PF := λ A a l, inr (a, l).
#[export] Instance pf_bind : MBind PF := λ A B f m l,
  match m l with inl e => inl e | inr (a, l) => f a l end.
Definition get {A} (f : Logic → A) : PF A := λ l, inr (f l, l).
Definition modify (f : Logic → Logic) : PF () := λ l, inr ((), f l).
Definition assertion_failed {A} : PF A := λ _, inl "assertion failed"%string.
Definition assert_ (b : bool) : PF () := if b then mret () else assertion_failed.
(** The value, or the failed assertion of the part that has none. *)
Definition asserted {A} (o : option A) : PF A := match o with Some a => mret a | None => assertion_failed end.

Definition slot_at (p : SlotPtr) : PF SlotImp := λ l,
  match slot_heap l !! p with Some s => inr (s, l) | None => inl "dangling pointer"%string end.
Definition put_slot (p : SlotPtr) (s : SlotImp) : PF () := modify (λ l, set_slot_heap (<[p := s]> (slot_heap l)) l).
Definition on_counts (f : Counts → option Counts) : PF () :=
  c ← get counts_; c ← asserted (f c); modify (set_counts c).
(** The slot is one of [slots_]. *)
Definition assert_found (s : SlotImp) : PF () :=
  m ← get slots_; assert_ (bool_decide (is_Some (m !! remote_endpoint s))).

Section logic.
  Context (asio : AsioAddress).

(** ** Configuration *)
Definition new_logic (now : Z) (threshold : Q) (c : Config) : Logic :=
  mkLogic false false c threshold (onConfig threshold c no_counts) ∅ new_livecache (new_bootcache now) ∅ ∅ ∅ ∅ now [] [].
Definition config (c : Config) : PF () :=
  modify (λ l, set_counts (onConfig (threshold l) c (counts_ l)) (set_config c l)).
Definition load (entries : list (IPEndpoint * Z)) : PF () :=
  modify (λ l, set_bootcache (Boot.load entries (bootcache_ l)) l).
Definition stop : PF () := modify (set_stopping true).

Fixpoint addFixedPeer (now : Z) (addresses : list IPEndpoint) : PF () :=
  match addresses with
  | [] => mret ()
  | a :: addresses =>
      if ep_port a =? 0 then λ _, inl "Port not specified for address"%string
      else
        m ← get fixed_;
        match m !! a with
        | Some _ => addFixedPeer now addresses
        | None => modify (set_fixed (<[a := new_fixed now]> m))
        end
  end.

(** [fixed] of an endpoint and of an address. *)
Definition fixed_endpoint (l : Logic) (e : IPEndpoint) : bool := bool_decide (is_Some (fixed_ l !! e)).
Definition fixed_address (l : Logic) (a : Address) : bool :=
  existsb (λ x, bool_decide (ep_address x.1 = a)) (map_to_list (fixed_ l)).

(** ** Opening slots *)
Definition new_slot (s : SlotImp) : PF SlotPtr :=
  h ← get slot_heap;
  let p := fresh (dom h) in
  _ ← put_slot p s;
  m ← get slots_;
  _ ← assert_ (bool_decide (m !! remote_endpoint s = None));
  _ ← modify (set_slots (<[remote_endpoint s := p]> m));
  _ ← modify (λ l, set_connectedAddresses ({[+ ep_address (remote_endpoint s) +]} ⊎ connectedAddresses_ l) l);
  _ ← on_counts (counts_add s);
  mret p.

Definition new_inbound_slot (local remote : IPEndpoint) : PF (option SlotPtr) :=
  l ← get id;
  if is_public asio (ep_address remote) &&
     (u64 (ipLimit (config_ l)) <? Z.of_nat (multiplicity (ep_address remote) (connectedAddresses_ l)))
  then mret None
  else p ← new_slot (inbound_slot local remote (fixed_address l (ep_address remote))); mret (Some p).

Definition new_outbound_slot (remote : IPEndpoint) : PF (option SlotPtr) :=
  l ← get id;
  match slots_ l !! remote with
  | Some _ => mret None
  | None => p ← new_slot (outbound_slot remote (fixed_endpoint l remote)); mret (Some p)
  end.

(** ** Connecting and activating *)
Definition onConnected (p : SlotPtr) (local : IPEndpoint) : PF bool :=
  s ← slot_at p;
  _ ← assert_found s;
  let s := set_local_endpoint local s in
  _ ← put_slot p s;
  m ← get slots_;
  match m !! local with
  | Some q =>
      o ← slot_at q;
      _ ← assert_ (bool_decide (local_endpoint o = Some (remote_endpoint s)));
      mret false
  | None =>
      _ ← on_counts (counts_remove s);
      s ← asserted (set_state connected s);
      _ ← put_slot p s;
      _ ← on_counts (counts_add s);
      mret true
  end.

Inductive Result := duplicate | full_ | success.

Definition boot (f : Bootcache → Bootcache) : PF () := modify (λ l, set_bootcache (f (bootcache_ l)) l).
Definition on_fixed (e : IPEndpoint) (f : Fixed → Fixed) : PF () :=
  m ← get fixed_;
  match m !! e with
  | None => assertion_failed
  | Some x => modify (set_fixed (<[e := f x]> m))
  end.

Definition activate (now : Z) (p : SlotPtr) (key : Z) (cluster_ : bool) : PF Result :=
  s ← slot_at p;
  _ ← assert_found s;
  _ ← assert_ (bool_decide (state s = accept ∨ state s = connected));
  keys ← get keys_;
  if bool_decide (key ∈ keys) then mret duplicate
  else
    _ ← on_counts (counts_remove s);
    let s := set_cluster cluster_ s in
    _ ← put_slot p s;
    _ ← on_counts (counts_add s);
    c ← get counts_;
    can ← asserted (can_activate s c);
    if negb can
    then
      _ ← (if inbound s then mret () else boot (Boot.on_success now (remote_endpoint s)));
      mret full_
    else
      let s := set_public_key key s in
      _ ← put_slot p s;
      _ ← modify (λ l, set_keys ({[ key ]} ∪ keys_ l) l);
      _ ← on_counts (counts_remove s);
      s ← asserted (slot_activate now s);
      _ ← put_slot p s;
      _ ← on_counts (counts_add s);
      _ ← (if inbound s then mret () else boot (Boot.on_success now (remote_endpoint s)));
      _ ← (if fixed s && negb (inbound s) then on_fixed (remote_endpoint s) (fixed_success now) else mret ());
      mret success.

(** ** Closing *)
Definition remove (p : SlotPtr) : PF () :=
  s ← slot_at p;
  m ← get slots_;
  _ ← assert_ (bool_decide (is_Some (m !! remote_endpoint s)));
  _ ← modify (set_slots (delete (remote_endpoint s) m));
  _ ← match public_key s with
      | None => mret ()
      | Some k =>
          keys ← get keys_;
          _ ← assert_ (bool_decide (k ∈ keys));
          modify (set_keys (keys ∖ {[ k ]}))
      end;
  a ← get connectedAddresses_;
  _ ← assert_ (bool_decide (ep_address (remote_endpoint s) ∈ a));
  _ ← modify (set_connectedAddresses (a ∖ {[+ ep_address (remote_endpoint s) +]}));
  on_counts (counts_remove s).

Definition on_closed (now : Z) (p : SlotPtr) : PF () :=
  _ ← remove p;
  s ← slot_at p;
  _ ← (if fixed s && negb (inbound s) && negb (bool_decide (state s = active))
       then on_fixed (remote_endpoint s) (fixed_failure now) else mret ());
  match state s with
  | connect | connected => boot (Boot.on_failure now (remote_endpoint s))
  | _ => mret ()
  end.

Definition on_failure (now : Z) (p : SlotPtr) : PF () :=
  s ← slot_at p;
  boot (Boot.on_failure now (remote_endpoint s)).

(** [checkComplete]; [aborted] and [failed] are the error code. *)
Definition checkComplete (now : Z) (remote checkedAddress : IPEndpoint) (aborted failed : bool) : PF () :=
  if aborted then mret ()
  else
    m ← get slots_;
    match m !! remote with
    | None => mret ()
    | Some p =>
        s ← slot_at p;
        if failed
        then _ ← put_slot p (set_check (m_listening_port s) true false false s);
             boot (Boot.on_failure now checkedAddress)
        else put_slot p (set_check (ep_port checkedAddress) true true false s)
    end.

(** ** Endpoints from a peer *)
Definition is_valid_address (e : IPEndpoint) : bool :=
  negb (is_unspecified asio (ep_address e)) && is_public asio (ep_address e) && negb (ep_port e =? 0).

(** The loop of [preprocess]: [kept] is the part of the list before the iterator. *)
Fixpoint preprocess_loop (s : SlotImp) (neighbor : bool) (kept eps : list Endpoint) : list Endpoint :=
  match eps with
  | [] => kept
  | ep :: eps =>
      if maxHops <? hops ep then preprocess_loop s neighbor kept eps
      else
        if (hops ep =? 0) && neighbor then preprocess_loop s neighbor kept eps
        else
          let isSelf := hops ep =? 0 in
          let addr := if isSelf then at_port (remote_endpoint s) (ep_port (address ep)) else address ep in
          let neighbor := neighbor || isSelf in
          if negb (is_valid_address addr) then preprocess_loop s neighbor kept eps
          else if existsb (λ o, bool_decide (addr = address o)) kept then preprocess_loop s neighbor kept eps
          else preprocess_loop s neighbor (kept ++ [mkEndpoint (hops ep + 1) addr]) eps
  end.
Definition preprocess (s : SlotImp) (eps : list Endpoint) : list Endpoint := preprocess_loop s false [] eps.

Fixpoint on_endpoints_loop (now : Z) (p : SlotPtr) (eps : list Endpoint) : PF () :=
  match eps with
  | [] => mret ()
  | ep :: eps =>
      _ ← assert_ (negb (hops ep =? 0));
      s ← slot_at p;
      let s := set_recent (recent_insert now (address ep) (hops ep) (recent s)) s in
      _ ← put_slot p s;
      if (hops ep =? 1) && connectivityCheckInProgress s then on_endpoints_loop now p eps
      else if (hops ep =? 1) && negb (checked s)
      then
        _ ← put_slot p (set_check (m_listening_port s) (checked s) (canAccept s) true s);
        _ ← modify (λ l, set_checks ((remote_endpoint s, address ep) :: checks l) l);
        on_endpoints_loop now p eps
      else if (hops ep =? 1) && negb (canAccept s) then on_endpoints_loop now p eps
      else
        c ← get livecache_;
        c ← asserted (Live.insert now ep c);
        _ ← modify (set_livecache c);
        _ ← boot (λ b, (Boot.insert now (address ep) b).1);
        on_endpoints_loop now p eps
  end.
Definition on_endpoints (now : Z) (p : SlotPtr) (eps : list Endpoint) : PF () :=
  s ← slot_at p;
  _ ← assert_found s;
  _ ← assert_ (bool_decide (state s = active));
  _ ← on_endpoints_loop now p (preprocess s eps);
  s ← slot_at p;
  put_slot p (set_whenAccept (now + secondsPerMessage) s).

(** [onRedirects] *)
Definition onRedirects (now : Z) (addrs : list IPEndpoint) : PF () :=
  boot (λ b, foldl (λ b e, (Boot.insert now e b).1) b (take (Z.to_nat maxRedirects) addrs)).
Definition addBootcacheAddresses (now : Z) (addrs : list IPEndpoint) : PF Z := λ l,
  let r := foldl (λ (r : Bootcache * Z) e,
             let '(b, isNew) := Boot.insertStatic now e r.1 in (b, r.2 + (if isNew : bool then 1 else 0)))
             (bootcache_ l, 0) addrs in
  inr (r.2, set_bootcache r.1 l).
(** [fetch] before and after the source delivers its results, [None] an error. *)
Definition fetch_start : PF bool :=
  b ← get stopping_;
  if b : bool then mret false else _ ← modify (set_fetchSource true); mret true.
Definition fetch_end (now : Z) (results : option (list IPEndpoint)) : PF () :=
  b ← get stopping_;
  if b : bool then mret ()
  else
    _ ← modify (set_fetchSource false);
    match results with
    | None => mret ()
    | Some addrs => _ ← addBootcacheAddresses now addrs; mret ()
    end.

(** ** Handing out endpoints *)

(** [handout] from the live cache, from few hops to many or, [backward], from many
    to few; one round more than the targets can take. *)
Definition live_handout {T} `{Target T} (fuel : nat) (backward : bool) (perm : list IPEndpoint → list IPEndpoint) (ts : list T) :
    PF (list T) := λ l,
  let c := Live.shuffle perm (livecache_ l) in
  let order := if backward then reverse else id in
  match handout (Live.element c) fuel ts (order (m_lists c)) with
  | None => inl "no fuel"%string
  | Some (ts, lists) => inr (ts, set_livecache (mkLive (m_cache c) (order lists) (m_hist c)) l)
  end.

Definition redirect_fuel : nat := S (Z.to_nat redirectEndpointCount).
Definition redirect (perm : list IPEndpoint → list IPEndpoint) (p : SlotPtr) : PF (list Endpoint) :=
  s ← slot_at p;
  ts ← live_handout redirect_fuel false perm [mkRedirect s []];
  mret (concat (r_list <$> ts)).

(** The fixed peers that are due, not squelched and not connected. *)
Fixpoint get_fixed (now : Z) (slots : list IPEndpoint) (peers : list (IPEndpoint * Fixed)) (needed : Z) (h : ConnectHandouts) :
    ConnectHandouts :=
  match peers with
  | [] => h
  | (e, f) :: peers =>
      if needed =? 0 then h
      else
        if (m_when f <=? now) && bool_decide (Aged.find (ep_address e) (m_squelches h) = None) &&
           negb (existsb (same_address e) slots)
        then get_fixed now slots peers (needed - 1)
               (mkConnect (m_needed h) (Aged.index now () (ep_address e) (m_squelches h)) (m_list h ++ [e]))
        else get_fixed now slots peers needed h
  end.

(** [m_squelches.insert], and [touch] of an address that is there. *)
Definition squelch (now : Z) (q : Squelches) (a : Address) : Squelches :=
  match Aged.find a q with
  | None => Aged.index now () a q
  | Some _ => Aged.touch now a q
  end.

(** The boot cache from the best entry on, until there is enough. *)
Fixpoint boot_handout (now : Z) (l : list IPEndpoint) (h : ConnectHandouts) : ConnectHandouts :=
  match l with
  | [] => h
  | e :: l => if connect_full h then h else boot_handout now l (default h (connect_insert_address now e h))
  end.

Definition connect_fuel (needed : Z) : nat := S (Z.to_nat needed).
(** The squelches are shared: what the handouts add stays. *)
Definition give (h : ConnectHandouts) : PF (list IPEndpoint) :=
  _ ← modify (set_squelches (m_squelches h)); mret (m_list h).
Definition autoconnect (now : Z) (perm : list IPEndpoint → list IPEndpoint) : PF (list IPEndpoint) :=
  c ← get counts_;
  let needed := attempts_needed c in
  if needed =? 0 then mret []
  else
    l ← get id;
    let addresses := (λ x, match slot_heap l !! x.2 with Some s => ep_address (remote_endpoint s) | None => ep_address x.1 end)
                       <$> ep_order asio (slots_ l) in
    let h := mkConnect needed (foldl (squelch now) (squelches_ l) addresses) [] in
    let short := m_fixed_active c <? Z.of_nat (size (fixed_ l)) in
    let h := if short then get_fixed now (ep_order asio (slots_ l)).*1 (ep_order asio (fixed_ l)) needed h else h in
    if short && negb (bool_decide (m_list h = [])) then give h
    else if short && (0 <? attempts c) then give (mkConnect needed (m_squelches h) [])
    else if negb (autoConnect (config_ l)) || (out_max c <=? out_active c) then give (mkConnect needed (m_squelches h) [])
    else
      hs ← @live_handout _ (connect_target now) (connect_fuel needed) true perm [h];
      match hs with
      | h :: _ =>
          if negb (bool_decide (m_list h = [])) then give h
          else if 0 <? attempts c then give h
          else give (boot_handout now (Boot.in_order (bootcache_ l)) h)
      | [] => mret []
      end.

(** [buildEndpointsForPeers]; [slot_perm] is the random order of the slots. *)
Definition self_endpoint (l : Logic) : Endpoint := mkEndpoint 0 (mkEP (V6 0) (listeningPort (config_ l))).
Definition active_targets (l : Logic) : list SlotHandouts :=
  omap (λ x, match slot_heap l !! x.2 with
             | Some s => if bool_decide (state s = active) then Some (mkSlotHandouts x.2 s []) else None
             | None => None
             end) (ep_order asio (slots_ l)).
Definition store_slots (ts : list SlotHandouts) : PF () :=
  modify (λ l, set_slot_heap (foldl (λ h t, <[h_id t := h_slot t]> h) (slot_heap l) ts) l).
Definition build_fuel (ts : list SlotHandouts) : nat := S (length ts * Z.to_nat numberOfEndpoints).
Definition buildEndpointsForPeers (now : Z) (slot_perm : list SlotHandouts → list SlotHandouts)
    (perm : list IPEndpoint → list IPEndpoint) : PF (list (SlotPtr * list Endpoint)) :=
  l ← get id;
  if negb (m_whenBroadcast l <=? now) then mret []
  else
    let targets := slot_perm (active_targets l) in
    let self := if wantIncoming (config_ l) && (0 <? inboundSlots (counts_ l)) then [self_endpoint l] else [] in
    let targets := (λ t, mkSlotHandouts (h_id t) (h_slot t) self) <$> targets in
    ts ← @live_handout _ (slot_target now) (build_fuel targets) false perm targets;
    _ ← store_slots ts;
    _ ← modify (set_whenBroadcast (now + secondsPerMessage));
    mret ((λ t, (h_id t, h_list t)) <$> ts).

Definition once_per_second (now : Z) : PF () :=
  _ ← modify (λ l, set_livecache (Live.expire now (livecache_ l)) l);
  _ ← modify (λ l, set_slot_heap (foldl (λ h x, alter (slot_expire now) x.2 h) (slot_heap l) (ep_order asio (slots_ l))) l);
  _ ← modify (λ l, set_squelches (Aged.expire now recentAttemptDuration (squelches_ l)) l);
  boot (Boot.periodicActivity now).

(** ** The message that brings endpoints

    [PeerImp::onMessage] of [TMEndpoints].  The text of an endpoint is read by
    [boost]'s address parser and addresses come in network order: [parse] and [ntohl]. *)
Record TMEndpointv2 := mkTMv2 { tm_endpoint : string; tm_hops : Z }.
Record TMEndpoint := mkTM { tm_ipv4 : Z; tm_ipv4port : Z; tm_hops1 : Z }.

Definition endpoint_v2 (parse : string → option IPEndpoint) (remote : IPEndpoint) (tm : TMEndpointv2) : option Endpoint :=
  r ← parse (tm_endpoint tm);
  Some (mkEndpoint (i32 (tm_hops tm)) (if 0 <? tm_hops tm then r else at_port remote (ep_port r))).
Definition endpoint_v1 (ntohl : Z → Z) (remote : IPEndpoint) (tm : TMEndpoint) : Endpoint :=
  let hops := i32 (tm_hops1 tm) in
  mkEndpoint hops (if 0 <? hops then mkEP (V4 (ntohl (tm_ipv4 tm))) (wrap 16 (tm_ipv4port tm))
                   else at_port remote (wrap 16 (tm_ipv4port tm))).
Definition onMessage_endpoints (parse : string → option IPEndpoint) (ntohl : Z → Z) (now : Z) (sane : bool) (p : SlotPtr)
    (remote : IPEndpoint) (v2 : list TMEndpointv2) (v1 : list TMEndpoint) : PF () :=
  if negb sane then mret ()
  else
    let endpoints := match v2 with [] => endpoint_v1 ntohl remote <$> v1 | _ => omap (endpoint_v2 parse remote) v2 end in
    match endpoints with [] => mret () | _ => on_endpoints now p endpoints end.
End logic.
