(* ===== verification/PeerFinderSpec.v ===== *)
(** * The invariant of the peer finder

    [inv now l m]: the slots of [l] are the map [m] of slots by remote endpoint, and
    the counts, the addresses and the keys are those of [m]. *)

From stdpp Require Import prelude gmap gmultiset strings sorting.
From Stdlib Require Import ZArith QArith Lia.
From S2P Require Import Prelude.
From S2P Require Import AgedMap.
From S2P Require Import IPEndpoint.
From S2P Require Import PeerSlots.
From S2P Require Import Bootcache.
From S2P Require Import Livecache.
From S2P Require Import Handouts.
From S2P Require Import PeerFinder.

#[local] Open Scope Z_scope.

(** ** Runs *)
Lemma pf_bind_inr {A B} (c : PF A) (f : A → PF B) l a l' : c l = inr (a, l') → (c ≫= f) l = f a l'.
Proof. intros E. unfold mbind, pf_bind. by rewrite E. Qed.
Lemma pf_bind_inl {A B} (c : PF A) (f : A → PF B) l e : c l = inl e → (c ≫= f) l = inl e.
Proof. intros E. unfold mbind, pf_bind. by rewrite E. Qed.
Lemma pf_bind_assoc {A B C} (c : PF A) (f : A → PF B) (g : B → PF C) l :
  ((c ≫= f) ≫= g) l = (c ≫= (λ a, f a ≫= g)) l.
Proof. unfold mbind, pf_bind. by destruct (c l) as [|[]]. Qed.
Ltac pstep E := rewrite (pf_bind_inr _ _ _ _ _ E); cbv beta.
Lemma step_get {A B} (f : Logic → A) (k : A → PF B) l : (get f ≫= k) l = k (f l) l.
Proof. done. Qed.
Lemma step_modify {B} (f : Logic → Logic) (k : () → PF B) l : (modify f ≫= k) l = k () (f l).
Proof. done. Qed.
Lemma step_put {B} p s (k : () → PF B) l : (put_slot p s ≫= k) l = k () (set_slot_heap (<[p := s]> (slot_heap l)) l).
Proof. done. Qed.
Lemma step_assert {B} (b : bool) (k : () → PF B) l : b = true → (assert_ b ≫= k) l = k () l.
Proof. by intros ->. Qed.
Lemma step_asserted {A B} (o : option A) (k : A → PF B) l a : o = Some a → (asserted o ≫= k) l = k a l.
Proof. by intros ->. Qed.
Lemma step_counts {B} (f : Counts → option Counts) (k : () → PF B) l c :
  f (counts_ l) = Some c → (on_counts f ≫= k) l = k () (set_counts c l).
Proof. intros E. unfold on_counts, get, mbind, pf_bind. by rewrite E. Qed.
Ltac pget := rewrite step_get; cbv beta zeta.
Ltac pmod := first [rewrite step_modify | rewrite step_put]; cbv beta zeta.
Ltac pcount E := erewrite step_counts by exact E; cbv beta zeta.
Ltac passert E := first [erewrite step_asserted by exact E | rewrite step_assert by exact E]; cbv beta zeta.
(** Steps that compute. *)
Ltac prun := unfold mbind, pf_bind, mret, pf_ret; simpl.

(** ** Sums over slots *)
Abbreviation SlotMap := (gmap IPEndpoint SlotImp).
Definition msum (f : SlotImp → Z) (m : SlotMap) : Z := sumZ (λ x, f x.2) (map_to_list m).

Section sums.
Implicit Types (m : SlotMap).

Lemma msum_insert f m e s : m !! e = None → msum f (<[e := s]> m) = f s + msum f m.
Proof. intros He. unfold msum. by rewrite (sumZ_perm _ _ _ (map_to_list_insert m e s He)). Qed.
Lemma msum_delete f m e s : m !! e = Some s → msum f (delete e m) = msum f m - f s.
Proof.
  intros He. rewrite <- (insert_delete_id m e s He) at 2. rewrite msum_insert by apply lookup_delete_eq. lia.
Qed.
Lemma msum_empty f : msum f ∅ = 0.
Proof. unfold msum. by rewrite map_to_list_empty. Qed.
Lemma msum_nonneg f m : (∀ s, 0 ≤ f s) → 0 ≤ msum f m.
Proof. intros Hf. apply sumZ_nonneg. intros x _. apply Hf. Qed.
Lemma msum_elem f m e s : (∀ s, 0 ≤ f s) → m !! e = Some s → f s ≤ msum f m.
Proof.
  intros Hf He. pose proof (msum_delete f m e s He). pose proof (msum_nonneg f (delete e m) Hf). lia.
Qed.
Lemma msum_pos f m : 0 < msum f m → ∃ e s, m !! e = Some s ∧ f s ≠ 0.
Proof.
  induction m as [|e s m He IH] using map_ind; [rewrite msum_empty; lia|]. rewrite msum_insert by done. intros H.
  destruct (decide (f s = 0)) as [E|E].
  - destruct IH as (e' & s' & He' & Hs'); [lia|]. exists e', s'. split; [|done]. rewrite lookup_insert_ne; [done|]. congruence.
  - exists e, s. by rewrite lookup_insert_eq.
Qed.
End sums.

(** ** The counts of a set of slots *)
Definition ones (b : SlotImp → bool) (s : SlotImp) : Z := when (b s) 1.
Definition free (s : SlotImp) : bool := negb (fixed s) && negb (cluster s).
Definition trying (s : SlotImp) : bool := is_state connect s || is_state connected s.

Record tally (c : Counts) (m : SlotMap) : Prop := {
  t_attempts : m_attempts c = msum (ones trying) m;
  t_active : m_active c = u64 (msum (ones (is_state active)) m);
  t_in_active : m_in_active c = u64 (msum (ones (λ s, is_state active s && (free s && inbound s))) m);
  t_out_active : m_out_active c = u64 (msum (ones (λ s, is_state active s && (free s && negb (inbound s)))) m);
  t_fixed : m_fixed c = u64 (msum (ones fixed) m);
  t_fixed_active : m_fixed_active c = u64 (msum (ones (λ s, is_state active s && fixed s)) m);
  t_cluster : m_cluster c = u64 (msum (ones cluster) m);
  t_accept : m_acceptCount c = msum (ones (is_state accept)) m;
  t_closing : m_closingCount c = msum (ones (is_state closing)) m;
}.

(** The state of a slot fits its direction. *)
Definition direction_ok (s : SlotImp) : Prop :=
  match state s with accept => inbound s = true | connect | connected => inbound s = false | _ => True end.

Lemma u64_add a b : u64 (u64 a + b) = u64 (a + b).
Proof. unfold u64, wrap. by rewrite Zplus_mod_idemp_l. Qed.

(** What an adjustment adds to each count. *)
Lemma adjust_spec s n c m m' :
  direction_ok s → tally c m → (∀ b, msum (ones b) m' = msum (ones b) m + when (b s) n) →
  ∃ c', adjust s n c = Some c' ∧ tally c' m' ∧ m_in_max c' = m_in_max c ∧ m_out_max c' = m_out_max c.
Proof.
  intros Hd [T1 T2 T3 T4 T5 T6 T7 T8 T9] Hs.
  assert (∀ b, when (b s) n = 0 → msum (ones b) m' = msum (ones b) m) as H0 by (intros b Hb; rewrite Hs, Hb; lia).
  unfold adjust, direction_ok in *.
  destruct (state s) eqn:Est; try rewrite Hd; eexists; (split; [reflexivity|]); (split; [|done]).
  all: split; simpl; rewrite ?T1, ?T2, ?T3, ?T4, ?T5, ?T6, ?T7, ?T8, ?T9, ?u64_add; rewrite Hs; unfold trying, is_state, free;
    rewrite ?Est; simpl; rewrite ?Z.add_0_r; done.
Qed.

Lemma tally_add s c m e : direction_ok s → tally c m → m !! e = None →
  ∃ c', counts_add s c = Some c' ∧ tally c' (<[e := s]> m) ∧ m_in_max c' = m_in_max c ∧ m_out_max c' = m_out_max c.
Proof. intros Hd Ht He. eapply adjust_spec; [done..|]. intros b. rewrite msum_insert by done. unfold ones at 1. lia. Qed.
Lemma tally_remove s c m e : direction_ok s → tally c m → m !! e = Some s →
  ∃ c', counts_remove s c = Some c' ∧ tally c' (delete e m) ∧ m_in_max c' = m_in_max c ∧ m_out_max c' = m_out_max c.
Proof.
  intros Hd Ht He. eapply adjust_spec; [done..|]. intros b. rewrite (msum_delete _ _ _ _ He). unfold ones at 2, when. destruct (b s); lia.
Qed.

(** ** The invariant *)
Definition slot_ok (fixedPeers : gmap IPEndpoint Fixed) (s : SlotImp) : Prop :=
  direction_ok s ∧ state s ≠ closing ∧ (is_Some (public_key s) ↔ state s = active) ∧
  (fixed s = true → inbound s = false → is_Some (fixedPeers !! remote_endpoint s)).

Definition has_address (a : Address) (s : SlotImp) : bool := bool_decide (ep_address (remote_endpoint s) = a).

(** The keys are those of the slots, each of one slot. *)
Record keyed (ks : gset Z) (m : SlotMap) : Prop := {
  k_keys : ∀ k, k ∈ ks ↔ ∃ e s, m !! e = Some s ∧ public_key s = Some k;
  k_distinct : ∀ e e' s s' k, m !! e = Some s → m !! e' = Some s' →
    public_key s = Some k → public_key s' = Some k → e = e';
}.

Section keys.
Implicit Types (m : SlotMap) (ks : gset Z).

Lemma lookup_insert_key m e s e1 s1 :
  <[e := s]> m !! e1 = Some s1 → (e1 = e ∧ s1 = s) ∨ (e1 ≠ e ∧ m !! e1 = Some s1).
Proof. intros [[<- <-]|[Hne H]]%lookup_insert_Some; [by left|by right]. Qed.

(** A slot without a key, or with the key that was there. *)
Lemma keyed_put ks m e s' :
  keyed ks m → public_key s' = (s ← m !! e; public_key s) → keyed ks (<[e := s']> m).
Proof.
  intros [K1 K2] Hk.
  assert (∀ e1 s1 k, <[e := s']> m !! e1 = Some s1 → public_key s1 = Some k → ∃ s2, m !! e1 = Some s2 ∧ public_key s2 = Some k) as Hold.
  { intros e1 s1 k [[-> ->]|[_ H1]]%lookup_insert_key Hs; [|by exists s1]. rewrite Hk in Hs.
    destruct (m !! e) as [s2|] eqn:E; [|done]. by exists s2. }
  split.
  - intros k. rewrite K1. split; intros (e1 & s1 & H1 & H2).
    + destruct (decide (e1 = e)) as [->|Hne]; [|exists e1, s1; by rewrite lookup_insert_ne].
      exists e, s'. rewrite lookup_insert_eq. split; [done|]. by rewrite Hk, H1.
    + destruct (Hold _ _ _ H1 H2) as (s2 & ? & ?). by exists e1, s2.
  - intros e1 e2 s1 s2 k H1 H2 E1 E2. destruct (Hold _ _ _ H1 E1) as (t1 & ? & ?), (Hold _ _ _ H2 E2) as (t2 & ? & ?).
    by eapply K2.
Qed.

(** A slot gets a new key. *)
Lemma keyed_new ks m e s' k :
  keyed ks m → (∀ s, m !! e = Some s → public_key s = None) → k ∉ ks → public_key s' = Some k →
  keyed ({[ k ]} ∪ ks) (<[e := s']> m).
Proof.
  intros [K1 K2] Hn Hk Hs. split.
  - intros k'. rewrite elem_of_union, elem_of_singleton, K1. split.
    + intros [->|(e1 & s1 & H1 & H2)]; [exists e, s'; by rewrite lookup_insert_eq|].
      exists e1, s1. rewrite lookup_insert_ne; [done|]. intros <-. by rewrite (Hn _ H1) in H2.
    + intros (e1 & s1 & [[-> ->]|[_ H1]]%lookup_insert_key & H2); [left; congruence|right; by exists e1, s1].
  - intros e1 e2 s1 s2 k' [[-> ->]|[Hne1 H1]]%lookup_insert_key [[-> ->]|[Hne2 H2]]%lookup_insert_key E1 E2; try done.
    + exfalso. apply Hk, K1. exists e2, s2. split; congruence.
    + exfalso. apply Hk, K1. exists e1, s1. split; congruence.
    + by eapply K2.
Qed.

Lemma keyed_delete ks m e s :
  keyed ks m → m !! e = Some s →
  keyed (match public_key s with Some k => ks ∖ {[ k ]} | None => ks end) (delete e m).
Proof.
  intros [K1 K2] He. split.
  - intros k. assert (k ∈ (match public_key s with Some k => ks ∖ {[ k ]} | None => ks end) ↔ k ∈ ks ∧ public_key s ≠ Some k) as ->.
    { destruct (public_key s) as [k'|]; [|naive_solver]. rewrite elem_of_difference, elem_of_singleton. naive_solver. }
    rewrite K1. split.
    + intros [(e1 & s1 & H1 & H2) Hne]. exists e1, s1. rewrite lookup_delete_ne; [done|]. congruence.
    + intros (e1 & s1 & [Hne H1]%lookup_delete_Some & H2). split; [by exists e1, s1|]. intros Hs. by apply Hne, (K2 e e1 s s1 k).
  - intros e1 e2 s1 s2 k [_ H1]%lookup_delete_Some [_ H2]%lookup_delete_Some. by apply K2.
Qed.
End keys.

Record slots_inv (l : Logic) (m : SlotMap) : Prop := {
  i_repr : ∀ e, m !! e = (p ← slots_ l !! e; slot_heap l !! p);
  i_ptr : ∀ e p, slots_ l !! e = Some p → is_Some (slot_heap l !! p);
  i_key : ∀ e s, m !! e = Some s → remote_endpoint s = e;
  i_ok : ∀ e s, m !! e = Some s → slot_ok (fixed_ l) s;
  i_tally : tally (counts_ l) m;
  i_addr : ∀ a, Z.of_nat (multiplicity a (connectedAddresses_ l)) = msum (ones (has_address a)) m;
  i_keyed : keyed (keys_ l) m;
}.

Definition inv (now : Z) (l : Logic) (m : SlotMap) : Prop :=
  slots_inv l m ∧ Live.live_inv now (livecache_ l) ∧ boot_inv (m_map (bootcache_ l)) ∧
  Aged.aged_inv now (squelches_ l).

(** A pointer to an open slot. *)
Definition points (l : Logic) (p : SlotPtr) (e : IPEndpoint) (s : SlotImp) : Prop :=
  slots_ l !! e = Some p ∧ slot_heap l !! p = Some s.

Section slots.
Implicit Types (l : Logic) (m : SlotMap).

Lemma points_slot l m p e s : slots_inv l m → points l p e s → m !! e = Some s ∧ remote_endpoint s = e.
Proof.
  intros Hi [H1 H2]. assert (m !! e = Some s) as Hm by (rewrite (i_repr _ _ Hi), H1; done).
  split; [done|]. by apply (i_key _ _ Hi).
Qed.

(** What the slots depend on. *)
Lemma slots_frame l l' m :
  slots_ l' = slots_ l → slot_heap l' = slot_heap l → (∀ e, is_Some (fixed_ l !! e) → is_Some (fixed_ l' !! e)) →
  tally (counts_ l') m → connectedAddresses_ l' = connectedAddresses_ l → keys_ l' = keys_ l →
  slots_inv l m → slots_inv l' m.
Proof.
  intros E1 E2 Hf Ht E4 E5 [H1 H2 H3 H4 H5 H6 H7].
  split; rewrite ?E1, ?E2, ?E4, ?E5; try done. intros e s Hm. destruct (H4 e s Hm) as (? & ? & ? & Hfix). split_and!; auto.
Qed.

(** The same endpoint means the same pointer, and the other way round. *)
Lemma points_inj l m e e' p : slots_inv l m → slots_ l !! e = Some p → slots_ l !! e' = Some p → e = e'.
Proof.
  intros Hi H1 H2. destruct (i_ptr _ _ Hi _ _ H1) as [s Hs].
  rewrite <- (i_key _ _ Hi e s), <- (i_key _ _ Hi e' s); [done|rewrite (i_repr _ _ Hi), H2; done|rewrite (i_repr _ _ Hi), H1; done].
Qed.

(** An object is changed. *)
Lemma repr_put l m e p s0 s' h' :
  slots_inv l m → points l p e s0 → h' = <[p := s']> (slot_heap l) →
  (∀ e', <[e := s']> m !! e' = (q ← slots_ l !! e'; h' !! q)) ∧ (∀ e' q, slots_ l !! e' = Some q → is_Some (h' !! q)).
Proof.
  intros Hi [H1 H2] ->. split.
  - intros e'. destruct (decide (e = e')) as [<-|Hne].
    + rewrite lookup_insert_eq, H1. simpl. by rewrite lookup_insert_eq.
    + rewrite lookup_insert_ne by done. rewrite (i_repr _ _ Hi). destruct (slots_ l !! e') as [q|] eqn:Eq; [|done]. simpl.
      rewrite lookup_insert_ne; [done|]. intros <-. by apply Hne, (points_inj l m e e' p).
  - intros e' q Hq. destruct (decide (p = q)) as [<-|Hne]; [rewrite lookup_insert_eq; eauto|].
    rewrite lookup_insert_ne by done. by apply (i_ptr _ _ Hi e').
Qed.

(** A change of an object that keeps its place. *)
Lemma slots_put l l' m p e s0 s' :
  slots_inv l m → points l p e s0 →
  slots_ l' = slots_ l → slot_heap l' = <[p := s']> (slot_heap l) → (∀ e, is_Some (fixed_ l !! e) → is_Some (fixed_ l' !! e)) →
  remote_endpoint s' = e → slot_ok (fixed_ l') s' → keyed (keys_ l') (<[e := s']> m) →
  tally (counts_ l') (<[e := s']> m) → connectedAddresses_ l' = connectedAddresses_ l →
  slots_inv l' (<[e := s']> m).
Proof.
  intros Hi Hp E1 E2 Hf Hr Hok Hk Ht E4. destruct (points_slot _ _ _ _ _ Hi Hp) as [Hm Hre].
  destruct (repr_put l m e p s0 s' _ Hi Hp E2) as [R1 R2].
  split; rewrite ?E1, ?E4; try done.
  - intros e1 s1 [[-> ->]|[_ H1]]%lookup_insert_key; [done|]. by apply (i_key _ _ Hi).
  - intros e1 s1 [[-> ->]|[_ H1]]%lookup_insert_key; [done|].
    destruct (i_ok _ _ Hi _ _ H1) as (? & ? & ? & Hfix). split_and!; auto.
  - intros a. rewrite (i_addr _ _ Hi). rewrite <- (insert_delete_eq m e s').
    rewrite msum_insert by apply lookup_delete_eq. rewrite (msum_delete _ _ _ _ Hm). unfold ones at 2 4, has_address. rewrite Hr, Hre. lia.
Qed.

(** The parts that are not about slots. *)
Record same_rest l l' : Prop := {
  r_live : livecache_ l' = livecache_ l;
  r_squelches : squelches_ l' = squelches_ l;
  r_config : config_ l' = config_ l;
  r_in_max : m_in_max (counts_ l') = m_in_max (counts_ l);
  r_out_max : m_out_max (counts_ l') = m_out_max (counts_ l);
  r_boot : boot_inv (m_map (bootcache_ l)) → boot_inv (m_map (bootcache_ l'));
}.
Lemma same_rest_trans l1 l2 l3 : same_rest l1 l2 → same_rest l2 l3 → same_rest l1 l3.
Proof. intros [] []. split; try congruence. auto. Qed.
Lemma rest_inv now l l' m m' : same_rest l l' → slots_inv l' m' → inv now l m → inv now l' m'.
Proof. intros [E1 E2 _ _ _ Hb] Hs (_ & ? & ? & ?). unfold inv. rewrite E1, E2. auto. Qed.

Lemma on_counts_spec f l c' : f (counts_ l) = Some c' → on_counts f l = inr ((), set_counts c' l).
Proof. intros E. unfold on_counts, get, mbind, pf_bind. by rewrite E. Qed.

Lemma no_slot l m e : slots_inv l m → m !! e = None → slots_ l !! e = None.
Proof.
  intros Hi Hm. rewrite (i_repr _ _ Hi) in Hm. destruct (slots_ l !! e) as [p|] eqn:E; [|done]. simpl in Hm.
  destruct (i_ptr _ _ Hi _ _ E). congruence.
Qed.

Lemma new_slot_spec l m s :
  slots_inv l m → m !! remote_endpoint s = None → slot_ok (fixed_ l) s → public_key s = None →
  ∃ p l', new_slot s l = inr (p, l') ∧ slots_inv l' (<[remote_endpoint s := s]> m) ∧ points l' p (remote_endpoint s) s ∧
    same_rest l l' ∧ fixed_ l' = fixed_ l.
Proof.
  intros Hi Hm Hok Hk. pose proof (no_slot _ _ _ Hi Hm) as Hn. set (e := remote_endpoint s) in *.
  set (p := fresh (dom (slot_heap l))).
  assert (slot_heap l !! p = None) as Hp by (apply not_elem_of_dom, is_fresh).
  destruct (tally_add s _ m e (proj1 Hok) (i_tally _ _ Hi) Hm) as (c' & Ec & Ht & Hmax1 & Hmax2).
  eexists p, _. split.
  { unfold new_slot, get, put_slot, modify, assert_. fold e. prun. fold p. rewrite bool_decide_true by done.
    erewrite on_counts_spec by exact Ec. reflexivity. }
  assert (∀ e' q, slots_ l !! e' = Some q → q ≠ p) as Hne.
  { intros e' q Hq ->. destruct (i_ptr _ _ Hi _ _ Hq). congruence. }
  split; [|split; [split; simpl; by rewrite lookup_insert_eq|split; [by split|done]]].
  split; simpl.
  - intros e'. destruct (decide (e = e')) as [<-|He]; [rewrite !lookup_insert_eq; simpl; by rewrite lookup_insert_eq|].
    rewrite !lookup_insert_ne by done. rewrite (i_repr _ _ Hi). destruct (slots_ l !! e') as [q|] eqn:Eq; [|done]. simpl.
    rewrite lookup_insert_ne; [done|]. intros <-. by eapply Hne.
  - intros e' q. destruct (decide (e = e')) as [<-|He].
    + rewrite lookup_insert_eq. intros [= <-]. rewrite lookup_insert_eq. eauto.
    + rewrite lookup_insert_ne by done. intros Hq. rewrite lookup_insert_ne; [by eapply (i_ptr _ _ Hi)|]. by apply not_eq_sym, (Hne e').
  - intros e' s' [[<- <-]|[_ H]]%lookup_insert_Some; [done|]. by apply (i_key _ _ Hi).
  - intros e' s' [[<- <-]|[_ H]]%lookup_insert_Some; [done|]. by apply (i_ok _ _ Hi _ _ H).
  - done.
  - intros a. rewrite multiplicity_disj_union, msum_insert by done. rewrite Nat2Z.inj_add, (i_addr _ _ Hi). f_equal.
    unfold ones, has_address, when. fold e. destruct (decide (ep_address e = a)) as [<-|Ha].
    + rewrite bool_decide_true by done. by rewrite multiplicity_singleton, decide_True.
    + rewrite bool_decide_false by done. rewrite multiplicity_singleton, decide_False; [done|]. congruence.
  - apply keyed_put; [apply Hi|]. by rewrite Hm.
Qed.

(** ** Recounting a slot *)
Definition counted (s : SlotImp) : State * bool * bool * bool := (state s, inbound s, fixed s, cluster s).

Lemma tally_same c m e s s' : m !! e = Some s → counted s' = counted s → tally c m → tally c (<[e := s']> m).
Proof.
  intros Hm [= E1 E2 E3 E4] [T1 T2 T3 T4 T5 T6 T7 T8 T9].
  assert (∀ b : SlotImp → bool, b s' = b s → msum (ones b) (<[e := s']> m) = msum (ones b) m) as Hs.
  { intros b Hb. rewrite <- (insert_delete_eq m e s'), msum_insert by apply lookup_delete_eq. rewrite (msum_delete _ _ _ _ Hm).
    unfold ones at 1 3. rewrite Hb. lia. }
  split; (rewrite Hs; [done|]); cbv beta; unfold trying, free, is_state; rewrite ?E1, ?E2, ?E3, ?E4; done.
Qed.

Lemma adjust_counted s s' n c : counted s' = counted s → adjust s' n c = adjust s n c.
Proof. intros [= E1 E2 E3 E4]. unfold adjust. by rewrite E1, E2, E3, E4. Qed.

(** [counts_.remove] of the slot as it was and [counts_.add] as it is. *)
Lemma recount l m e s0 s0' s' : slots_inv l m → m !! e = Some s0 → direction_ok s' → counted s0' = counted s0 →
  ∃ c1 c2, counts_remove s0' (counts_ l) = Some c1 ∧ counts_add s' c1 = Some c2 ∧ tally c2 (<[e := s']> m) ∧
    m_in_max c2 = m_in_max (counts_ l) ∧ m_out_max c2 = m_out_max (counts_ l).
Proof.
  intros Hi Hm Hd Hc. destruct (tally_remove s0 _ m e (proj1 (i_ok _ _ Hi _ _ Hm)) (i_tally _ _ Hi) Hm) as (c1 & E1 & T1 & A1 & B1).
  destruct (tally_add s' c1 (delete e m) e Hd T1 (lookup_delete_eq _ _)) as (c2 & E2 & T2 & A2 & B2).
  exists c1, c2. unfold counts_remove. rewrite (adjust_counted s0 s0' _ _ Hc). split_and!; try done; [|congruence|congruence].
  by rewrite insert_delete_eq in T2.
Qed.

Lemma found l m p e s : slots_inv l m → points l p e s → assert_found s l = inr ((), l).
Proof.
  intros Hi Hp. destruct (points_slot _ _ _ _ _ Hi Hp) as [_ Hr]. destruct Hp as [H1 H2].
  unfold assert_found, get, assert_. prun. rewrite Hr, H1. by rewrite bool_decide_true by eauto.
Qed.
Lemma slot_at_spec l p s : slot_heap l !! p = Some s → slot_at p l = inr (s, l).
Proof. intros E. unfold slot_at. by rewrite E. Qed.

End slots.
