(* ===== verification/PeerFinderOps.v ===== *)
(** * The operations on slots keep the invariant

    For each operation of the peer finder that opens, changes or closes a slot: under
    the callers' contract it ends without a failed assertion, and the slots, counts,
    addresses and keys agree again. *)

From stdpp Require Import prelude gmap gmultiset strings sorting.
From Stdlib Require Import ZArith QArith Lia.
From S2P Require Import Prelude.
From S2P Require Import AgedMap.
From S2P Require Import IPEndpoint.
From S2P Require Import PeerSlots.
From S2P Require Import Bootcache.
From S2P Require Import Livecache.
From S2P Require Import Handouts.
From S2P Require Import PeerFinder.
From S2P Require Import PeerFinderSpec.

#[local] Open Scope Z_scope.

Section ops.
Implicit Types (l : Logic) (m : SlotMap).

(** ** Changes of one slot *)
Definition place_of (s : SlotImp) := (counted s, remote_endpoint s, public_key s).

Lemma slot_ok_same f s s' : place_of s' = place_of s → slot_ok f s → slot_ok f s'.
Proof. intros [= E1 E2 E3 E4 E5 E6]. unfold slot_ok, direction_ok. by rewrite E1, E2, E3, E5, E6. Qed.

Lemma put_same l m p e s s' : slots_inv l m → points l p e s → place_of s' = place_of s →
  let l' := set_slot_heap (<[p := s']> (slot_heap l)) l in
  put_slot p s' l = inr ((), l') ∧ slots_inv l' (<[e := s']> m) ∧ points l' p e s'.
Proof.
  intros Hi Hp E l'. destruct (points_slot _ _ _ _ _ Hi Hp) as [Hm Hr]. split; [done|]. split.
  - eapply (slots_put l l' m p e s s'); try done.
    + injection E as _ _ _ _ E _. by rewrite E.
    + eapply slot_ok_same; [exact E|]. by apply (i_ok _ _ Hi e).
    + apply keyed_put; [apply Hi|]. rewrite Hm. simpl. by injection E as _ _ _ _ _ ->.
    + eapply tally_same; [done| |apply Hi]. unfold counted. by injection E as -> -> -> -> _ _.
  - split; [apply Hp|]. simpl. by rewrite lookup_insert_eq.
Qed.

(** The slot at [e] is replaced, with the counts [c]. *)
Lemma put_counted l m p e s s' c :
  slots_inv l m → points l p e s → remote_endpoint s' = e → slot_ok (fixed_ l) s' → public_key s' = public_key s →
  tally c (<[e := s']> m) →
  slots_inv (set_counts c (set_slot_heap (<[p := s']> (slot_heap l)) l)) (<[e := s']> m).
Proof.
  intros Hi Hp Hr Hok Hk Ht. destruct (points_slot _ _ _ _ _ Hi Hp) as [Hm _].
  eapply (slots_put l _ m p e s s'); try done. apply keyed_put; [apply Hi|]. by rewrite Hm.
Qed.

Lemma boot_rest l m f : slots_inv l m → (boot_inv (m_map (bootcache_ l)) → boot_inv (m_map (f (bootcache_ l)))) →
  let l' := set_bootcache (f (bootcache_ l)) l in boot f l = inr ((), l') ∧ slots_inv l' m ∧ same_rest l l'.
Proof. intros Hi Hf l'. split; [done|]. split; [by eapply slots_frame; try apply Hi|by split]. Qed.

Lemma on_fixed_rest l m e f : slots_inv l m → is_Some (fixed_ l !! e) →
  ∃ l', on_fixed e f l = inr ((), l') ∧ slots_inv l' m ∧ same_rest l l' ∧
    (∀ e', is_Some (fixed_ l !! e') → is_Some (fixed_ l' !! e')) ∧ slots_ l' = slots_ l ∧ slot_heap l' = slot_heap l.
Proof.
  intros Hi [x Hx]. unfold on_fixed, get. prun. rewrite Hx. simpl. unfold modify. eexists. split; [done|].
  assert (∀ e', is_Some (fixed_ l !! e') → is_Some (<[e := f x]> (fixed_ l) !! e')) as Hf.
  { intros e' He'. rewrite lookup_insert_is_Some. destruct (decide (e = e')); auto. }
  split; [by eapply slots_frame; try apply Hi|]. split; [by split|]. done.
Qed.

(** ** Connecting *)
Lemma onConnected_spec l m p e s local :
  slots_inv l m → points l p e s → state s = connect →
  (∀ o, m !! local = Some o → local ≠ e → local_endpoint o = Some e) →
  let s1 := set_local_endpoint local s in
  ∃ l', onConnected p local l = inr (bool_decide (m !! local = None), l') ∧
    slots_inv l' (<[e := if bool_decide (m !! local = None) then put_state connected s1 else s1]> m) ∧ same_rest l l'.
Proof.
  intros Hi Hp Hst Hself s1. destruct (points_slot _ _ _ _ _ Hi Hp) as [Hm Hr].
  destruct (put_same l m p e s s1 Hi Hp eq_refl) as (E1 & Hi1 & Hp1).
  set (l1 := set_slot_heap (<[p := s1]> (slot_heap l)) l) in *.
  assert (onConnected p local l = (match slots_ l !! local with
    | Some q => o ← slot_at q; _ ← assert_ (bool_decide (local_endpoint o = Some (remote_endpoint s1))); mret false
    | None => _ ← on_counts (counts_remove s1); s ← asserted (set_state connected s1); _ ← put_slot p s; _ ← on_counts (counts_add s); mret true
    end : PF bool) l1) as ->.
  { unfold onConnected. pstep (slot_at_spec _ _ _ (proj2 Hp)). pstep (found _ _ _ _ _ Hi Hp). pstep E1. done. }
  destruct (slots_ l !! local) as [q|] eqn:Eq.
  - destruct (i_ptr _ _ Hi1 local q Eq) as [o Ho].
    assert (<[e := s1]> m !! local = Some o) as Hmo by (rewrite (i_repr _ _ Hi1); simpl; by rewrite Eq).
    assert (local_endpoint o = Some (remote_endpoint s1)) as Hlo.
    { apply lookup_insert_key in Hmo as [[-> ->]|[Hne Hmo]]; simpl; rewrite Hr; [done|]. by apply Hself. }
    pstep (slot_at_spec _ _ _ Ho). rewrite bool_decide_true by done. exists l1.
    rewrite (bool_decide_false (m !! local = None)).
    { split; [done|]. split; [done|by split]. }
    apply lookup_insert_key in Hmo as [[-> ->]|[Hne Hmo]]; congruence.
  - assert (m !! local = None) as Hn by (rewrite (i_repr _ _ Hi), Eq; done).
    destruct (recount l m e s s1 (put_state connected s1) Hi Hm) as (c1 & c2 & C1 & C2 & T2 & M1 & M2); [|done|].
    { destruct (i_ok _ _ Hi _ _ Hm) as [Hd _]. unfold direction_ok in *. by rewrite Hst in Hd. }
    rewrite !(bool_decide_true (m !! local = None)) by done. eexists. split.
    { assert (on_counts (counts_remove s1) l1 = inr ((), set_counts c1 l1)) as E by (by apply on_counts_spec). pstep E.
      assert (set_state connected s1 = Some (put_state connected s1)) as ->.
      { unfold set_state. pose proof (i_ok _ _ Hi _ _ Hm) as [Hd _]. unfold direction_ok in Hd. simpl. rewrite Hst in *.
        by rewrite Hd. }
      unfold asserted, put_slot, modify. prun. erewrite on_counts_spec by exact C2. reflexivity. }
    assert (slot_ok (fixed_ l) (put_state connected s1)) as Hok.
    { destruct (i_ok _ _ Hi _ _ Hm) as (O1 & O2 & O3 & O4). unfold slot_ok, direction_ok in *. rewrite Hst in *. simpl.
      split_and!; try done. rewrite O3. naive_solver. }
    pose proof (put_counted l m p e s (put_state connected s1) c2 Hi Hp Hr Hok eq_refl T2) as Hfin.
    split; [|split; simpl; [done..|congruence|congruence|done]].
    unfold l1. simpl. rewrite insert_insert_eq. exact Hfin.
Qed.

(** ** Activating *)

(** There is room for the slot among the active ones. *)
Definition has_room l (s : SlotImp) : bool :=
  fixed s || cluster s ||
  (if inbound s then m_in_active (counts_ l) <? m_in_max (counts_ l) else m_out_active (counts_ l) <? m_out_max (counts_ l)).
Definition activated (now key : Z) (s : SlotImp) : SlotImp := set_whenAccept now (put_state active (set_public_key key s)).

(** A slot that is not active does not count among the active ones. *)
Lemma tally_inactive c c' m e s s' : m !! e = Some s → state s ≠ active → state s' ≠ active →
  tally c m → tally c' (<[e := s']> m) → m_in_active c' = m_in_active c ∧ m_out_active c' = m_out_active c.
Proof.
  intros Hm H1 H2 T T'.
  assert (∀ b : SlotImp → bool, msum (ones (λ s, is_state active s && b s)) (<[e := s']> m) =
    msum (ones (λ s, is_state active s && b s)) m) as Hs.
  { intros b. rewrite <- (insert_delete_eq m e s'), msum_insert by apply lookup_delete_eq. rewrite (msum_delete _ _ _ _ Hm).
    unfold ones, is_state. rewrite !bool_decide_false by done. simpl. lia. }
  by rewrite (t_in_active _ _ T), (t_in_active _ _ T'), (t_out_active _ _ T), (t_out_active _ _ T'), !Hs.
Qed.

(** The end of [activate]: the boot cache and the fixed peers hear of the success. *)
Lemma activate_end now l m (s : SlotImp) :
  slots_inv l m → (fixed s = true → inbound s = false → is_Some (fixed_ l !! remote_endpoint s)) →
  ∃ l', (_ ← (if inbound s then mret () else boot (Boot.on_success now (remote_endpoint s)));
         _ ← (if fixed s && negb (inbound s) then on_fixed (remote_endpoint s) (fixed_success now) else mret ());
         mret success : PF Result) l = inr (success, l') ∧ slots_inv l' m ∧ same_rest l l'.
Proof.
  intros Hi Hf. destruct (inbound s); [rewrite andb_false_r; exists l; split; [done|]; split; [done|]; by split|].
  destruct (boot_rest l m (Boot.on_success now (remote_endpoint s)) Hi) as (E1 & Hi1 & R1).
  { apply (boot_refines now (BSuccess (remote_endpoint s))). }
  pstep E1. destruct (fixed s); simpl; [|by eexists].
  destruct (on_fixed_rest (set_bootcache (Boot.on_success now (remote_endpoint s) (bootcache_ l)) l) m (remote_endpoint s) (fixed_success now) Hi1)
    as (l2 & E2 & Hi2 & R2 & _); [by apply Hf|].
  pstep E2. exists l2. split; [done|]. split; [done|]. by eapply same_rest_trans.
Qed.

(** The part of [activate] where there is room: [l] has the slot [s] at [p]. *)
Lemma activate_room now l m p e s key :
  slots_inv l m → points l p e s → state s = accept ∨ state s = connected → key ∉ keys_ l →
  let s1 := set_public_key key s in
  ∃ c1 c2, counts_remove s1 (counts_ l) = Some c1 ∧ slot_activate now s1 = Some (activated now key s) ∧
    counts_add (activated now key s) c1 = Some c2 ∧
    let l' := set_counts c2 (set_slot_heap (<[p := activated now key s]> (slot_heap l)) (set_keys ({[ key ]} ∪ keys_ l) l)) in
    slots_inv l' (<[e := activated now key s]> m) ∧ same_rest l l'.
Proof.
  intros Hi Hp Hst Hk s1. destruct (points_slot _ _ _ _ _ Hi Hp) as [Hm Hr]. destruct (i_ok _ _ Hi _ _ Hm) as (O1 & O2 & O3 & O4).
  assert (public_key s = None) as Hnk.
  { destruct (public_key s) eqn:Epk; [|done]. exfalso. assert (state s = active) by (apply O3; eauto). naive_solver congruence. }
  destruct (recount l m e s s1 (activated now key s) Hi Hm I eq_refl) as (c1 & c2 & C1 & C2 & T2 & M1 & M2).
  exists c1, c2. split; [done|]. split; [unfold slot_activate; simpl; by rewrite bool_decide_true by done|]. split; [done|].
  intros l'. split; [|by split].
  eapply (slots_put l l' m p e s (activated now key s)); try done.
  eapply keyed_new; [apply Hi| |done|done]. by intros s2; rewrite Hm; intros [= <-].
Qed.

Lemma activate_spec now l m p e s key cl :
  slots_inv l m → points l p e s → state s = accept ∨ state s = connected →
  ∃ r l' s', activate now p key cl l = inr (r, l') ∧ slots_inv l' (<[e := s']> m) ∧ same_rest l l' ∧
    match r with
    | duplicate => key ∈ keys_ l ∧ s' = s
    | full_ => (key ∉ keys_ l) ∧ has_room l (set_cluster cl s) = false ∧ s' = set_cluster cl s
    | success => (key ∉ keys_ l) ∧ has_room l (set_cluster cl s) = true ∧ s' = activated now key (set_cluster cl s)
    end.
Proof.
  intros Hi Hp Hst. destruct (points_slot _ _ _ _ _ Hi Hp) as [Hm Hr].
  unfold activate. pstep (slot_at_spec _ _ _ (proj2 Hp)). pstep (found _ _ _ _ _ Hi Hp).
  passert (bool_decide_eq_true_2 _ Hst). pget. destruct (bool_decide (key ∈ keys_ l)) eqn:Ek.
  { apply bool_decide_eq_true in Ek. exists duplicate, l, s. split; [done|]. split; [by rewrite insert_id|]. split; [by split|done]. }
  apply bool_decide_eq_false in Ek. set (s1 := set_cluster cl s).
  destruct (i_ok _ _ Hi _ _ Hm) as (O1 & O2 & O3 & O4).
  assert (slot_ok (fixed_ l) s1) as Hok1 by exact (conj O1 (conj O2 (conj O3 O4))).
  destruct (recount l m e s s s1 Hi Hm O1 eq_refl) as (c1 & c2 & C1 & C2 & T2 & M1 & M2).
  pose proof (put_counted l m p e s s1 c2 Hi Hp Hr Hok1 eq_refl T2) as Hi2.
  set (l2 := set_counts c2 (set_slot_heap (<[p := s1]> (slot_heap l)) l)) in *.
  assert (points l2 p e s1) as Hp2 by (split; [apply Hp|simpl; by rewrite lookup_insert_eq]).
  assert (can_activate s1 c2 = Some (has_room l s1)) as Ecan.
  { destruct (tally_inactive (counts_ l) c2 m e s s1) as [A1 A2]; try done; [naive_solver congruence..|apply Hi|].
    unfold can_activate, has_room. rewrite bool_decide_true by (simpl; naive_solver). rewrite A1, A2, M1, M2.
    by destruct (fixed s1 || cluster s1). }
  pcount C1. pmod. pcount C2. pget. passert Ecan. destruct (has_room l s1) eqn:Eroom.
  - destruct (activate_room now l2 (<[e := s1]> m) p e s1 key Hi2 Hp2 Hst Ek) as (c3 & c4 & C3 & Eact & C4 & Hi4 & R4).
    set (l4 := set_counts c4 _) in Hi4, R4. rewrite insert_insert_eq in Hi4.
    destruct (activate_end now l4 (<[e := activated now key s1]> m) (activated now key s1)) as (l5 & E5 & Hi5 & R5); [done|done|].
    exists success, l5, (activated now key s1). split; [|split; [done|]].
    + cbv beta iota zeta delta [negb]. pmod. pmod. pcount C3. passert Eact. pmod. pcount C4.
      rewrite <- E5. unfold l4. simpl. by rewrite !insert_insert_eq.
    + split; [|done]. eapply same_rest_trans; [|exact R5]. eapply same_rest_trans; [|exact R4]. by split.
  - destruct (inbound s1) eqn:Ein.
    + exists full_, l2, s1. split; [done|]. split; [done|]. split; [by split|done].
    + destruct (boot_rest l2 (<[e := s1]> m) (Boot.on_success now (remote_endpoint s1)) Hi2) as (E3 & Hi3 & R3).
      { apply (boot_refines now (BSuccess (remote_endpoint s1))). }
      exists full_, (set_bootcache (Boot.on_success now (remote_endpoint s1) (bootcache_ l2)) l2), s1. split; [exact (pf_bind_inr _ _ _ _ _ E3)|]. split; [done|]. split; [|done]. eapply same_rest_trans; [|exact R3]. by split.
Qed.

(** ** Closing *)
Lemma remove_spec l m p e s : slots_inv l m → points l p e s →
  ∃ l', remove p l = inr ((), l') ∧ slots_inv l' (delete e m) ∧ same_rest l l' ∧ slot_heap l' = slot_heap l ∧ fixed_ l' = fixed_ l.
Proof.
  intros Hi Hp. destruct (points_slot _ _ _ _ _ Hi Hp) as [Hm Hr]. pose proof (i_ok _ _ Hi _ _ Hm) as (O1 & _).
  destruct (tally_remove s _ m e O1 (i_tally _ _ Hi) Hm) as (c & C & T & M1 & M2).
  pose proof (keyed_delete _ _ _ _ (i_keyed _ _ Hi) Hm) as HK.
  set (ks := match public_key s with Some k => keys_ l ∖ {[ k ]} | None => keys_ l end) in HK.
  assert (Ha : ep_address e ∈ connectedAddresses_ l).
  { apply elem_of_multiplicity. enough (0 < msum (ones (has_address (ep_address e))) m) by (rewrite <- (i_addr _ _ Hi) in *; lia).
    pose proof (msum_elem (ones (has_address (ep_address e))) m e s) as Hle.
    assert (ones (has_address (ep_address e)) s = 1) as E by (unfold ones, has_address; rewrite Hr, bool_decide_true; done).
    rewrite E in Hle. enough (1 ≤ msum (ones (has_address (ep_address e))) m) by lia. apply Hle; [|done].
    intros s'. unfold ones, when. case_match; lia. }
  set (A := connectedAddresses_ l ∖ {[+ ep_address e +]}).
  set (l' := set_counts c (set_connectedAddresses A (set_keys ks (set_slots (delete e (slots_ l)) l)))).
  exists l'. split.
  { unfold remove. pstep (slot_at_spec _ _ _ (proj2 Hp)). pget. rewrite Hr.
    assert (is_Some (slots_ l !! e)) as Hs by (rewrite (proj1 Hp); eauto). passert (bool_decide_eq_true_2 _ Hs). pmod.
    set (l1 := set_slots (delete e (slots_ l)) l).
    assert ((match public_key s with
             | None => mret ()
             | Some k => keys ← get keys_; _ ← assert_ (bool_decide (k ∈ keys)); modify (set_keys (keys ∖ {[ k ]}))
             end : PF ()) l1 = inr ((), set_keys ks l1)) as Ek.
    { unfold ks. destruct (public_key s) as [k|] eqn:Epk; [|by destruct l].
      pget. assert (k ∈ keys_ l1) as Hin by (apply (k_keys _ _ (i_keyed _ _ Hi)); eauto). by passert (bool_decide_eq_true_2 _ Hin). }
    pstep Ek. pget. passert (bool_decide_eq_true_2 _ Ha). pmod. by apply on_counts_spec. }
  split; [|by split; [split|]].
  split; simpl; try done.
  - intros e'. destruct (decide (e = e')) as [<-|Hne]; [by rewrite !lookup_delete_eq|]. rewrite !lookup_delete_ne by done. apply Hi.
  - intros e' q [_ Hq]%lookup_delete_Some. by eapply (i_ptr _ _ Hi).
  - intros e' s' [_ H']%lookup_delete_Some. by apply (i_key _ _ Hi).
  - intros e' s' [_ H']%lookup_delete_Some. by apply (i_ok _ _ Hi _ _ H').
  - intros a. rewrite (msum_delete _ _ _ _ Hm), <- (i_addr _ _ Hi). unfold A, ones, has_address, when. rewrite Hr.
    rewrite multiplicity_difference, multiplicity_singleton. pose proof (proj1 (elem_of_multiplicity _ _) Ha).
    destruct (decide (a = ep_address e)) as [->|Hne]; [rewrite bool_decide_true, ?decide_True by done; lia|].
    rewrite bool_decide_false, ?decide_False by congruence. lia.
Qed.

Lemma on_closed_spec now l m p e s : slots_inv l m → points l p e s →
  ∃ l', on_closed now p l = inr ((), l') ∧ slots_inv l' (delete e m) ∧ same_rest l l'.
Proof.
  intros Hi Hp. destruct (points_slot _ _ _ _ _ Hi Hp) as [Hm Hr]. pose proof (i_ok _ _ Hi _ _ Hm) as (_ & _ & _ & Hfix).
  destruct (remove_spec l m p e s Hi Hp) as (l1 & E1 & Hi1 & R1 & Hh & Hf). unfold on_closed. pstep E1.
  assert (slot_heap l1 !! p = Some s) as Hs by (rewrite Hh; apply Hp). pstep (slot_at_spec _ _ _ Hs).
  assert (∃ l2, (if fixed s && negb (inbound s) && negb (bool_decide (state s = active))
       then on_fixed (remote_endpoint s) (fixed_failure now) else mret () : PF ()) l1 = inr ((), l2) ∧
       slots_inv l2 (delete e m) ∧ same_rest l1 l2) as (l2 & E2 & Hi2 & R2).
  { destruct (fixed s && negb (inbound s) && negb (bool_decide (state s = active))) eqn:Eb.
    - apply andb_prop in Eb as [[F1 F2%negb_true_iff]%andb_prop _].
      destruct (on_fixed_rest l1 (delete e m) (remote_endpoint s) (fixed_failure now) Hi1) as (l2 & ? & ? & ? & _); [|by exists l2].
      rewrite Hf. auto.
    - exists l1. split; [done|]. split; [done|by split]. }
  pstep E2. destruct (boot_rest l2 (delete e m) (Boot.on_failure now (remote_endpoint s)) Hi2) as (E3 & Hi3 & R3).
  { apply (boot_refines now (BFailure (remote_endpoint s))). }
  assert (same_rest l l2) as R by (by eapply same_rest_trans).
  destruct (state s); try (exists l2; done); (eexists; split; [exact E3|]; split; [done|by eapply same_rest_trans]).
Qed.

(** ** Connectivity checks *)
Lemma checkComplete_spec now l m remote chk aborted failed : slots_inv l m →
  ∃ l' m', checkComplete now remote chk aborted failed l = inr ((), l') ∧ slots_inv l' m' ∧ same_rest l l' ∧
    ∀ e, place_of <$> m' !! e = place_of <$> m !! e.
Proof.
  intros Hi. unfold checkComplete. destruct aborted; [exists l, m; split; [done|]; split; [done|]; by split; [split|]|]. pget.
  destruct (slots_ l !! remote) as [p|] eqn:Ep; [|exists l, m; split; [done|]; split; [done|]; by split; [split|]].
  destruct (i_ptr _ _ Hi _ _ Ep) as [s Hs]. assert (points l p remote s) as Hp by done.
  destruct (points_slot _ _ _ _ _ Hi Hp) as [Hm Hr].
  pstep (slot_at_spec _ _ _ Hs).
  assert (∀ s', place_of s' = place_of s → ∀ e, place_of <$> <[remote := s']> m !! e = place_of <$> m !! e) as Hsame.
  { intros s' E e. destruct (decide (remote = e)) as [<-|Hne]; [by rewrite lookup_insert_eq, Hm; simpl; rewrite E|by rewrite lookup_insert_ne]. }
  destruct failed.
  - destruct (put_same l m p remote s (set_check (m_listening_port s) true false false s) Hi Hp eq_refl) as (E1 & Hi1 & _). pstep E1.
    destruct (boot_rest _ _ (Boot.on_failure now chk) Hi1) as (E2 & Hi2 & R2).
    { apply (boot_refines now (BFailure chk)). }
    eexists _, _. split; [exact E2|]. split; [exact Hi2|]. split; [|by apply Hsame]. eapply same_rest_trans; [|exact R2]. by split.
  - destruct (put_same l m p remote s (set_check (ep_port chk) true true false s) Hi Hp eq_refl) as (E1 & Hi1 & _).
    eexists _, _. split; [exact E1|]. split; [exact Hi1|]. split; [by split|by apply Hsame].
Qed.
End ops.

(** * Endpoints that peers report

    What [preprocess] lets through, and that [on_endpoints] keeps the invariant for
    lists whose hops are not negative. *)

#[local] Open Scope Z_scope.

Section preprocess.
  Context (asio : AsioAddress) (s : SlotImp).
Implicit Types (kept eps : list Endpoint).

(** The endpoints that are direct neighbours of ours. *)
Definition near_count kept : nat := length (filter (λ ep, hops ep = 1) kept).

(** What [preprocess] promises of the list so far. *)
Record clean (neighbor : bool) kept : Prop := {
  c_hops : Forall (λ ep, 1 ≤ hops ep ≤ maxHops + 1) kept;
  c_valid : Forall (λ ep, is_valid_address asio (address ep) = true) kept;
  c_nodup : NoDup (address <$> kept);
  c_near : (near_count kept ≤ if neighbor then 1 else 0)%nat;
  c_self : Forall (λ ep, hops ep = 1 → ep_address (address ep) = ep_address (remote_endpoint s)) kept;
}.

Lemma clean_weaken b kept : clean b kept → clean true kept.
Proof. intros [H1 H2 H3 H4 H5]. split; try done. destruct b; lia. Qed.

Lemma clean_add neighbor kept (h : Z) addr :
  clean neighbor kept → 0 ≤ h ≤ maxHops → is_valid_address asio addr = true → addr ∉ address <$> kept →
  (h = 0 → neighbor = false ∧ ep_address addr = ep_address (remote_endpoint s)) →
  clean (neighbor || (h =? 0)) (kept ++ [mkEndpoint (h + 1) addr]).
Proof.
  intros [H1 H2 H3 H4 H5] Hh Hv Hn H0. split; rewrite ?Forall_app, ?Forall_singleton; simpl.
  - split; [done|lia].
  - done.
  - rewrite fmap_app. apply NoDup_app. split; [done|]. split; [|apply NoDup_singleton].
    intros x Hx ->%list_elem_of_singleton. done.
  - unfold near_count in *. rewrite filter_app, length_app, filter_cons, filter_nil. cbn [hops].
    destruct (Z.eqb_spec h 0) as [->|Hne].
    + destruct (H0 eq_refl) as [-> _]. rewrite decide_True by done. simpl. lia.
    + rewrite orb_false_r. rewrite decide_False by lia. simpl. lia.
  - split; [done|]. intros Hx. apply H0. lia.
Qed.

Lemma existsb_address addr kept :
  existsb (λ o, bool_decide (addr = address o)) kept = true ↔ addr ∈ address <$> kept.
Proof.
  rewrite existsb_exists, list_elem_of_fmap. split.
  - intros (o & Ho & Ea%bool_decide_eq_true). exists o. split; [done|by apply list_elem_of_In].
  - intros (o & -> & Ho). exists o. split; [by apply list_elem_of_In|by rewrite bool_decide_true].
Qed.

Lemma preprocess_loop_spec eps : ∀ neighbor kept,
  clean neighbor kept → Forall (λ ep, 0 ≤ hops ep) eps →
  clean true (preprocess_loop asio s neighbor kept eps) ∧
  (∃ more, preprocess_loop asio s neighbor kept eps = kept ++ more) ∧
  (∀ ep, ep ∈ eps → 0 < hops ep ≤ maxHops → is_valid_address asio (address ep) = true →
    address ep ∈ address <$> preprocess_loop asio s neighbor kept eps).
Proof.
  induction eps as [|ep eps IH]; intros neighbor kept Hc Hh; simpl.
  { split; [by eapply clean_weaken|]. split; [exists []; by rewrite app_nil_r|]. by intros ? ?%not_elem_of_nil. }
  inversion Hh as [|? ? H0 Hh']; subst.
  assert (∀ b kept', clean b kept' → (∃ more, kept' = kept ++ more) →
    (0 < hops ep ≤ maxHops → is_valid_address asio (address ep) = true → address ep ∈ address <$> kept') →
    clean true (preprocess_loop asio s b kept' eps) ∧
    (∃ more, preprocess_loop asio s b kept' eps = kept ++ more) ∧
    (∀ ep', ep' ∈ ep :: eps → 0 < hops ep' ≤ maxHops → is_valid_address asio (address ep') = true →
      address ep' ∈ address <$> preprocess_loop asio s b kept' eps)) as Hgo.
  { intros b kept' Hc' [more Em] Hep. destruct (IH b kept' Hc' Hh') as (I1 & [more' I2] & I3). split; [done|]. split.
    - exists (more ++ more'). by rewrite I2, Em, app_assoc.
    - intros ep' [->|Hin]%elem_of_cons Hh1 Hv; [|by apply I3]. rewrite I2, fmap_app. apply elem_of_app. left. by apply Hep. }
  assert (∃ more, kept = kept ++ more) as Hrefl by (exists []; by rewrite app_nil_r).
  destruct (Z.ltb_spec maxHops (hops ep)); [apply Hgo; [done..|lia]|].
  destruct ((hops ep =? 0) && neighbor) eqn:Eself.
  { apply Hgo; [done..|]. apply andb_prop in Eself as [E%Z.eqb_eq _]. lia. }
  set (addr := if hops ep =? 0 then at_port (remote_endpoint s) (ep_port (address ep)) else address ep) in *.
  assert (0 < hops ep → addr = address ep) as Haddr by (unfold addr; destruct (Z.eqb_spec (hops ep) 0); [lia|done]).
  assert (clean (neighbor || (hops ep =? 0)) kept) as Hc2.
  { destruct (hops ep =? 0); [rewrite orb_true_r; by eapply clean_weaken|by rewrite orb_false_r]. }
  destruct (is_valid_address asio addr) eqn:Ev; simpl.
  2:{ apply Hgo; [done..|]. intros Hpos Hv. rewrite <- Haddr in Hv by lia. congruence. }
  destruct (existsb (λ o, bool_decide (addr = address o)) kept) eqn:Edup.
  { apply Hgo; [done..|]. intros Hpos _. rewrite <- Haddr by lia. by apply existsb_address. }
  assert (addr ∉ address <$> kept) as Hnew by (rewrite <- existsb_address; congruence).
  apply Hgo; [| by eexists |].
  - apply clean_add; try done. intros E0. unfold addr. rewrite E0 in *. simpl in *. done.
  - intros Hpos _. rewrite fmap_app, Haddr by lia. apply elem_of_app. right. apply list_elem_of_here.
Qed.

Lemma preprocess_spec eps : Forall (λ ep, 0 ≤ hops ep) eps →
  clean true (preprocess asio s eps) ∧
  (∀ ep, ep ∈ eps → 0 < hops ep ≤ maxHops → is_valid_address asio (address ep) = true →
    address ep ∈ address <$> preprocess asio s eps).
Proof.
  intros Hh. destruct (preprocess_loop_spec eps false [] ltac:(repeat constructor) Hh) as (H1 & _ & H2). done.
Qed.
End preprocess.

(** ** The invariant *)

(** The slots have changed in what does not count: checks, recent endpoints, ports. *)
Definition places (m : SlotMap) : gmap IPEndpoint (State * bool * bool * bool * IPEndpoint * option Z) := place_of <$> m.

Record quiet (l l' : Logic) (m m' : SlotMap) : Prop := {
  q_config : config_ l' = config_ l;
  q_counts : counts_ l' = counts_ l;
  q_slots : slots_ l' = slots_ l;
  q_places : places m' = places m;
}.
Lemma quiet_refl l m : quiet l l m m.
Proof. done. Qed.
Lemma quiet_trans l1 l2 l3 m1 m2 m3 : quiet l1 l2 m1 m2 → quiet l2 l3 m2 m3 → quiet l1 l3 m1 m3.
Proof. intros [] []. split; congruence. Qed.

Lemma places_put (m : SlotMap) e s s' : m !! e = Some s → place_of s' = place_of s → places (<[e := s']> m) = places m.
Proof. intros Hm E. unfold places. rewrite fmap_insert, E. apply insert_id. by rewrite lookup_fmap, Hm. Qed.

Lemma aged_later {K V} `{EqDecision K} now now' (c : aged K V) : Aged.aged_inv now c → now ≤ now' → Aged.aged_inv now' c.
Proof. intros. by eapply Aged.aged_mono. Qed.
Lemma inv_later now now' l m : inv now l m → now ≤ now' → inv now' l m.
Proof.
  intros (H1 & H2 & H3 & H4) Hle. split_and!; [done|by eapply Live.live_mono|done|by eapply aged_later].
Qed.

Section endpoints.
Implicit Types (l : Logic) (m : SlotMap).

(** One change of the slot at [e] that does not count. *)
Lemma quiet_put now l m p e s s' : inv now l m → points l p e s → place_of s' = place_of s →
  let l' := set_slot_heap (<[p := s']> (slot_heap l)) l in
  inv now l' (<[e := s']> m) ∧ points l' p e s' ∧ quiet l l' m (<[e := s']> m).
Proof.
  intros (Hi & Hrest) Hp E l'. destruct (put_same l m p e s s' Hi Hp E) as (_ & Hi' & Hp').
  destruct (points_slot _ _ _ _ _ Hi Hp) as [Hm _]. split; [split; [done|exact Hrest]|]. split; [done|].
  split; try done. by eapply places_put.
Qed.

Lemma on_endpoints_loop_spec now p e eps : ∀ l m s,
  inv now l m → points l p e s → Forall (λ ep, 1 ≤ hops ep ≤ maxHops + 1) eps →
  ∃ l' m' s', on_endpoints_loop now p eps l = inr ((), l') ∧ inv now l' m' ∧ points l' p e s' ∧ quiet l l' m m'.
Proof.
  induction eps as [|ep eps IH]; intros l m s Hi Hp Hh; cbn [on_endpoints_loop].
  { exists l, m, s. done. }
  inversion Hh as [|? ? He Hh']; subst.
  assert (negb (hops ep =? 0) = true) as E0 by (destruct (Z.eqb_spec (hops ep) 0); [lia|done]). passert E0.
  pstep (slot_at_spec _ _ _ (proj2 Hp)). set (s1 := set_recent _ s).
  destruct (quiet_put now l m p e s s1 Hi Hp eq_refl) as (Hi1 & Hp1 & Q1). pmod. set (l1 := set_slot_heap _ l) in *.
  assert (∀ l2 m2 s2, inv now l2 m2 → points l2 p e s2 → quiet l l2 m m2 →
    ∃ l' m' s', on_endpoints_loop now p eps l2 = inr ((), l') ∧ inv now l' m' ∧ points l' p e s' ∧ quiet l l' m m') as Hgo.
  { intros l2 m2 s2 Hi2 Hp2 Q2. destruct (IH l2 m2 s2 Hi2 Hp2 Hh') as (l' & m' & s' & ? & ? & ? & Q3).
    exists l', m', s'. split_and!; try done. by eapply quiet_trans. }
  destruct ((hops ep =? 1) && connectivityCheckInProgress s1); [by eapply Hgo|].
  destruct ((hops ep =? 1) && negb (checked s1)).
  { set (s2 := set_check _ _ _ _ s1). destruct (quiet_put now l1 _ p e s1 s2 Hi1 Hp1 eq_refl) as (Hi2 & Hp2 & Q2). pmod. pmod.
    set (l2 := set_slot_heap _ l1) in *. eapply (Hgo (set_checks _ l2) (<[e := s2]> (<[e := s1]> m)) s2).
    - destruct Hi2 as (A & B & C & D). split_and!; try done. by eapply slots_frame; try apply A.
    - done.
    - eapply quiet_trans; [exact Q1|]. by destruct Q2. }
  destruct ((hops ep =? 1) && negb (canAccept s1)); [by eapply Hgo|]. pget.
  destruct Hi1 as (A & B & C & D). destruct (Live.insert_inv now ep (livecache_ l1) B) as (c' & Ec & Hc' & _); [lia|]. passert Ec.
  pmod. destruct (boot_refines now (BInsert (address ep)) (bootcache_ l1) C) as [Hb _].
  unfold boot. pmod. eapply (Hgo _ (<[e := s1]> m) s1); [|done|by destruct Q1].
  split_and!; try done. by eapply slots_frame; try apply A.
Qed.

Lemma on_endpoints_spec asio now l m p e s eps :
  inv now l m → points l p e s → state s = active → Forall (λ ep, 0 ≤ hops ep) eps →
  ∃ l' m', on_endpoints asio now p eps l = inr ((), l') ∧ inv now l' m' ∧ quiet l l' m m'.
Proof.
  intros Hi Hp Hst Hh. unfold on_endpoints. pstep (slot_at_spec _ _ _ (proj2 Hp)). pstep (found _ _ _ _ _ (proj1 Hi) Hp).
  passert (bool_decide_eq_true_2 _ Hst). destruct (preprocess_spec asio s eps Hh) as [Hc _].
  destruct (on_endpoints_loop_spec now p e (preprocess asio s eps) l m s Hi Hp (c_hops _ _ _ _ Hc)) as (l1 & m1 & s1 & E1 & Hi1 & Hp1 & Q1).
  pstep E1. pstep (slot_at_spec _ _ _ (proj2 Hp1)).
  destruct (quiet_put now l1 m1 p e s1 (set_whenAccept (now + secondsPerMessage) s1) Hi1 Hp1 eq_refl) as (Hi2 & _ & Q2).
  eexists _, _. split; [reflexivity|]. split; [exact Hi2|]. by eapply quiet_trans.
Qed.

(** ** The rest of the changes of the caches *)
Lemma boot_quiet now l m f : inv now l m → (boot_inv (m_map (bootcache_ l)) → boot_inv (m_map (f (bootcache_ l)))) →
  let l' := set_bootcache (f (bootcache_ l)) l in boot f l = inr ((), l') ∧ inv now l' m ∧ quiet l l' m m.
Proof.
  intros (A & B & C & D) Hf l'. split; [done|]. split; [|done]. split_and!; [by eapply slots_frame; try apply A|done|by apply Hf|done].
Qed.

Lemma inserts_inv now es : ∀ b, boot_inv (m_map b) → boot_inv (m_map (foldl (λ b e, (Boot.insert now e b).1) b es)).
Proof.
  induction es as [|e es IH]; intros b Hb; simpl; [done|]. apply IH. by apply (boot_refines now (BInsert e)).
Qed.
Lemma statics_inv now es : ∀ r : Bootcache * Z, boot_inv (m_map r.1) →
  boot_inv (m_map (foldl (λ (r : Bootcache * Z) e,
             let '(b, isNew) := Boot.insertStatic now e r.1 in (b, r.2 + (if isNew : bool then 1 else 0))) r es).1).
Proof.
  induction es as [|e es IH]; intros r Hb; simpl; [done|]. apply IH. pose proof (boot_refines now (BStatic e) r.1 Hb) as [H _]. simpl in H.
  by destruct (Boot.insertStatic now e r.1).
Qed.

Lemma expire_slots now es : ∀ l m, inv now l m → Forall (λ x : IPEndpoint * SlotPtr, slots_ l !! x.1 = Some x.2) es →
  ∃ h m', h = foldl (λ h x, alter (slot_expire now) x.2 h) (slot_heap l) es ∧
    inv now (set_slot_heap h l) m' ∧ quiet l (set_slot_heap h l) m m'.
Proof.
  induction es as [|[e p] es IH]; intros l m Hi Hf; simpl.
  { exists (slot_heap l), m. destruct l. done. }
  inversion Hf as [|? ? H1 Hf']; subst. simpl in H1. destruct (i_ptr _ _ (proj1 Hi) _ _ H1) as [s Hs].
  destruct (quiet_put now l m p e s (slot_expire now s) Hi) as (Hi1 & Hp1 & Q1); [done|done|].
  destruct (IH _ _ Hi1) as (h & m' & -> & Hi2 & Q2); [done|]. eexists _, m'. split; [reflexivity|].
  assert (alter (slot_expire now) p (slot_heap l) = <[p := slot_expire now s]> (slot_heap l)) as ->.
  { apply map_eq. intros q. destruct (decide (p = q)) as [<-|Hne].
    - by rewrite lookup_alter_eq, lookup_insert_eq, Hs.
    - by rewrite lookup_alter_ne, lookup_insert_ne. }
  split; [exact Hi2|]. by eapply quiet_trans.
Qed.

Lemma once_per_second_spec asio now l m : inv now l m →
  ∃ l' m', once_per_second asio now l = inr ((), l') ∧ inv now l' m' ∧ quiet l l' m m'.
Proof.
  intros (A & B & C & D). unfold once_per_second. pmod. set (l1 := set_livecache _ l).
  assert (inv now l1 m) as Hi1.
  { split_and!; [by eapply slots_frame; try apply A|by apply Live.live_expire_inv|done|done]. }
  destruct (expire_slots now (ep_order asio (slots_ l1)) l1 m Hi1) as (h & m' & Eh & Hi2 & Q2).
  { apply Forall_forall. intros [e p] Hin. by apply elem_of_ep_order in Hin. }
  pmod. rewrite <- Eh. pmod. set (l3 := set_squelches _ _).
  assert (inv now l3 m') as Hi3.
  { destruct Hi2 as (A2 & B2 & C2 & D2). split_and!; [by eapply slots_frame; try apply A2|done|done|by apply Aged.expire_inv]. }
  destruct (boot_quiet now l3 m' (Boot.periodicActivity now) Hi3) as (E4 & Hi4 & Q4); [apply (boot_refines now BPeriodic)|].
  eexists _, m'. split; [exact E4|]. split; [exact Hi4|]. by destruct Q2.
Qed.
End endpoints.
