(* ===== verification/PeerFinderHandout.v ===== *)
(** * What is handed out

    The lists that [redirect], [buildEndpointsForPeers] and [autoconnect] give, and
    that these end and keep the invariant. *)

From stdpp Require Import prelude gmap gmultiset strings sorting.
From Stdlib Require Import ZArith QArith Lia.
From S2P Require Import Prelude.
From S2P Require Import AgedMap.
From S2P Require Import IPEndpoint.
From S2P Require Import PeerSlots.
From S2P Require Import Bootcache.
From S2P Require Import Livecache.
From S2P Require Import Handouts.
From S2P Require Import PeerFinder.
From S2P Require Import PeerFinderSpec.
From S2P Require Import PeerFinderOps.

#[local] Open Scope Z_scope.

(** ** The live cache *)
Lemma live_perm now c ls : Live.live_inv now c → Forall2 Permutation ls (m_lists c) →
  Live.live_inv now (mkLive (m_cache c) ls (m_hist c)).
Proof.
  intros [H1 H2 H3 H4 H5 H6] Hp.
  assert (∀ i l, ls !! i = Some l → ∃ l0, m_lists c !! i = Some l0 ∧ l ≡ₚ l0) as Hl.
  { intros i l Hi. destruct (Forall2_lookup_l _ _ _ _ _ Hp Hi) as (l0 & ? & ?). by exists l0. }
  split; cbn [m_cache m_lists m_hist]; try done.
  - by rewrite (Forall2_length _ _ _ Hp).
  - intros i l Hi. destruct (Hl _ _ Hi) as (l0 & Hi0 & ->). by apply (H4 i).
  - intros i l a Hi. destruct (Hl _ _ Hi) as (l0 & Hi0 & ->). by apply (H5 i).
  - rewrite H6. clear -Hp. induction Hp as [|l l0 ls ls0 Hl Hp IH]; [done|]. rewrite !fmap_cons, IH. simpl. by rewrite Hl.
Qed.

(** An endpoint of the live cache. *)
Definition cached (c : Livecache) (ep : Endpoint) : Prop := Aged.find (address ep) (m_cache c) = Some (hops ep).

Lemma element_cached c a e : Live.element c a = Some e ↔ address e = a ∧ cached c e.
Proof.
  unfold Live.element, cached. split.
  - destruct (Aged.find a (m_cache c)) as [h|] eqn:E; [|done]. intros [= <-]. done.
  - intros [<- ->]. by destruct e.
Qed.

Section live.
  Context {T : Type} `{TargetLaws T}.
Implicit Types (l : Logic) (ts : list T).

Lemma live_handout_spec now l (P : T → Prop) fuel backward perm ts :
  Live.live_inv now (livecache_ l) → (∀ h, perm h ≡ₚ h) →
  (∀ e t t', cached (livecache_ l) e → P t → try_insert e t = Some t' → P t') →
  Forall P ts → rooms ts < Z.of_nat fuel →
  ∃ ts' c', live_handout fuel backward perm ts l = inr (ts', set_livecache c' l) ∧ Forall P ts' ∧ length ts' = length ts ∧
    Live.live_inv now c' ∧ m_cache c' = m_cache (livecache_ l) ∧
    (∀ t e, t ∈ ts' → cached (livecache_ l) e → full t = true ∨ try_insert e t = None).
Proof.
  intros Hi Hperm HP Hts Hf. set (c := Live.shuffle perm (livecache_ l)).
  assert (Live.live_inv now c) as Hc by (by apply Live.shuffle_inv).
  set (order := if backward then reverse else @id (list (list IPEndpoint))).
  assert (∀ ls, order ls ≡ₚ ls) as Hord by (intros ls; unfold order; destruct backward; [apply reverse_Permutation|done]).
  assert (∀ ls ls', Forall2 Permutation ls (order ls') → Forall2 Permutation (order ls) ls') as Hback.
  { intros ls ls' Hp. unfold order in *. destruct backward; [|done]. rewrite <- (reverse_involutive ls'). by apply Forall2_reverse. }
  destruct (handout_spec (Live.element c) (cached (livecache_ l)) P HP fuel ts (order (m_lists c))) as (ts' & seq' & E & Hts' & Hp & Hset);
    [|done|done|].
  { apply Forall_forall. intros h Hh. rewrite (Hord (m_lists c)) in Hh. apply list_elem_of_lookup in Hh as [i Hh].
    split; [by eapply (Live.live_nodup _ _ Hc)|]. intros a Ha. apply (Live.live_lists _ _ Hc _ _ _ Hh) in Ha.
    exists (mkEndpoint (Z.of_nat i) a). unfold Live.element. by rewrite Ha. }
  pose proof (Hback _ _ Hp) as Hp'.
  eexists ts', _. split; [unfold live_handout; fold c; fold order; rewrite E; reflexivity|]. split; [done|].
  split; [by eapply handout_length|]. split; [by eapply (live_perm now c)|]. split; [done|].
  intros t e Ht He. destruct (Hset t Ht) as [Hfull|Hr]; [by left|]. right.
  destruct (Live.live_list_of now c (address e) (hops e) Hc He) as (h & Hh & Ha).
  assert (h ∈ order (m_lists c)) as Hin by (rewrite Hord; by eapply list_elem_of_lookup_2).
  apply list_elem_of_lookup in Hin as [i Hi']. destruct (Forall2_lookup_r _ _ _ _ _ Hp Hi') as (h' & Hh' & Hperm').
  eapply (Hr h'); [by eapply list_elem_of_lookup_2|by rewrite Hperm'|]. by apply element_cached.
Qed.
End live.

(** ** Redirection *)
Definition ip (ep : Endpoint) : Address := ep_address (address ep).

Lemma same_address_spec e e' : same_address e e' = true ↔ ep_address e' = ep_address e.
Proof. apply bool_decide_eq_true. Qed.
Lemma existsb_ip ep (es : list Endpoint) : existsb (λ o, same_address (address ep) (address o)) es = false ↔ ip ep ∉ ip <$> es.
Proof.
  rewrite <- not_true_iff_false, existsb_exists, list_elem_of_fmap. apply not_iff_compat. split.
  - intros (o & Ho & Ea%same_address_spec). exists o. split; [done|by apply list_elem_of_In].
  - intros (o & Ea & Ho). exists o. split; [by apply list_elem_of_In|by apply same_address_spec].
Qed.
Lemma nodup_snoc {A} (x : A) l : NoDup l → x ∉ l → NoDup (l ++ [x]).
Proof. intros Hl Hx. apply NoDup_app. split; [done|]. split; [|apply NoDup_singleton]. by intros y Hy ->%list_elem_of_singleton. Qed.

(** What a peer we cannot serve is told. *)
Definition redirect_fit (s : SlotImp) (ep : Endpoint) : Prop :=
  1 ≤ hops ep ≤ maxHops ∧ ip ep ≠ ep_address (remote_endpoint s).
Record redirect_list (c : Livecache) (s : SlotImp) (es : list Endpoint) : Prop := {
  rl_count : Z.of_nat (length es) ≤ redirectEndpointCount;
  rl_ips : NoDup (ip <$> es);
  rl_fit : Forall (λ ep, cached c ep ∧ redirect_fit s ep) es;
}.

Section redirect.
Implicit Types (l : Logic) (m : SlotMap).

Lemma redirect_insert_spec now c s e t t' :
  Live.live_inv now c → cached c e → r_slot t = s ∧ redirect_list c s (r_list t) →
  redirect_insert e t = Some t' → r_slot t' = s ∧ redirect_list c s (r_list t').
Proof.
  intros Hi He [<- [H1 H2 H3]]. unfold redirect_insert. destruct (redirect_full t) eqn:E1; [done|].
  destruct (Z.ltb_spec maxHops (hops e)); [done|]. destruct (Z.eqb_spec (hops e) 0); [done|].
  destruct (same_address _ _) eqn:E4; [done|]. destruct (existsb _ _) eqn:E5; [done|]. intros [= <-]. simpl. split; [done|].
  unfold redirect_full in E1. apply Z.leb_gt in E1. apply existsb_ip in E5. pose proof (Live.live_hops _ _ Hi _ _ He).
  split.
  - rewrite length_app. simpl. lia.
  - rewrite fmap_app. by apply nodup_snoc.
  - apply Forall_app. split; [done|]. apply Forall_singleton. split; [done|]. split; [lia|]. intros Eip.
    rewrite (proj2 (same_address_spec _ _)) in E4; [done|]. by rewrite <- Eip.
Qed.

(** The list is short only where the cache has no more that fits. *)
Lemma redirect_spec now l m perm p s :
  inv now l m → slot_heap l !! p = Some s → (∀ h, perm h ≡ₚ h) →
  ∃ es c', redirect perm p l = inr (es, set_livecache c' l) ∧ inv now (set_livecache c' l) m ∧
    m_cache c' = m_cache (livecache_ l) ∧ redirect_list (livecache_ l) s es ∧
    (Z.of_nat (length es) < redirectEndpointCount →
     ∀ ep, cached (livecache_ l) ep → redirect_fit s ep → ip ep ∈ ip <$> es).
Proof.
  intros (A & B & C & D) Hs Hp.
  destruct (live_handout_spec now l (λ t, r_slot t = s ∧ redirect_list (livecache_ l) s (r_list t)) redirect_fuel false perm [mkRedirect s []])
    as (ts & c' & E & Hts & Hlen & Hc' & Hcache & Hset); [done|done| | | |].
  - intros e t t' He Ht Hins. by eapply redirect_insert_spec.
  - apply Forall_singleton. simpl. split; [done|]. split; simpl; [done|constructor|constructor].
  - done.
  - destruct ts as [|t [|]]; try done. apply Forall_singleton in Hts as [Et Ht].
    exists (r_list t), c'. split; [unfold redirect; pstep (slot_at_spec _ _ _ Hs); pstep E; by rewrite fmap_cons, fmap_nil; simpl; rewrite app_nil_r|].
    split; [split_and!; try done; by eapply slots_frame; try apply A|]. split; [done|]. split; [done|].
    intros Hshort ep Hep [Hh Hip]. destruct (Hset t ep (list_elem_of_here _ _) Hep) as [Hfull|Hr].
    + simpl in Hfull. unfold redirect_full in Hfull. apply Z.leb_le in Hfull. lia.
    + simpl in Hr. unfold redirect_insert, redirect_full in Hr. rewrite (proj2 (Z.leb_gt _ _)) in Hr by lia.
      destruct (Z.ltb_spec maxHops (hops ep)); [lia|]. destruct (Z.eqb_spec (hops ep) 0); [lia|].
      rewrite Et in Hr. destruct (same_address (address ep) (remote_endpoint s)) eqn:Esa; [apply same_address_spec in Esa; by unfold ip in Hip|].
      destruct (existsb _ _) eqn:Eex; [|done]. apply dec_stable. intros Hn%existsb_ip. congruence.
Qed.
End redirect.

(** ** Endpoints for the peers *)

(** What a peer is told: [r] is what it knew before. *)
Definition news_fit (s : SlotImp) (ep : Endpoint) : Prop :=
  hops ep ≤ maxHops ∧ ip ep ≠ ep_address (remote_endpoint s) ∧ recent_filter (address ep) (hops ep) (recent s) = false.
Record news_list (c : Livecache) (self : list Endpoint) (s : SlotImp) (es : list Endpoint) : Prop := {
  nl_count : Z.of_nat (length es) ≤ numberOfEndpoints;
  nl_ips : NoDup (ip <$> es);
  nl_fit : Forall (λ ep, ep ∈ self ∨ (cached c ep ∧ news_fit s ep)) es;
}.

Lemma find_recent_insert now a h b (r : recent_t) : b ≠ a → Aged.find b (recent_insert now a h r) = Aged.find b r.
Proof.
  intros Hne. unfold recent_insert. destruct (Aged.find a r) as [h0|] eqn:E.
  - case_match; [|done]. rewrite Live.find_touch, Live.live_find_modify. by rewrite decide_False.
  - rewrite Live.find_index by done. by rewrite decide_False.
Qed.

Section news.
  Context (asio : AsioAddress).
Implicit Types (l : Logic) (m : SlotMap).

(** A target of the slot [s] with what was handed to it. *)
Record news_target (l : Logic) (self : list Endpoint) (t : SlotHandouts) (e : IPEndpoint) (s : SlotImp) : Prop := {
  nt_points : points l (h_id t) e s;
  nt_active : state s = active;
  nt_place : place_of (h_slot t) = place_of s;
  nt_recent : ∀ a, ep_address a ∉ ip <$> h_list t → Aged.find a (recent (h_slot t)) = Aged.find a (recent s);
  nt_list : news_list (livecache_ l) self s (h_list t);
}.
Definition targets_slot l self t : Prop := ∃ e s, news_target l self t e s.

Lemma slot_insert_spec now l self ep t t' :
  cached (livecache_ l) ep → targets_slot l self t → slot_insert now ep t = Some t' → targets_slot l self t'.
Proof.
  intros He (e & s & [H1 H2 H3 H4 [L1 L2 L3]]). unfold slot_insert. destruct (slot_full t) eqn:E1; [done|].
  destruct (Z.ltb_spec maxHops (hops ep)); [done|]. destruct (recent_filter _ _ _) eqn:E3; [done|].
  destruct (same_address _ _) eqn:E4; [done|]. destruct (existsb _ _) eqn:E5; [done|]. intros [= <-].
  unfold slot_full in E1. apply Z.leb_gt in E1. apply existsb_ip in E5.
  assert (remote_endpoint (h_slot t) = remote_endpoint s) as Er by (by injection H3).
  exists e, s. split; simpl; try done.
  - intros a. rewrite fmap_app. simpl. intros Ha. rewrite find_recent_insert; [apply H4; set_solver|]. intros ->. set_solver.
  - split.
    + rewrite length_app. simpl. lia.
    + rewrite fmap_app. by apply nodup_snoc.
    + apply Forall_app. split; [done|]. apply Forall_singleton. right. split; [done|]. split; [lia|]. split.
      * intros Eip. rewrite (proj2 (same_address_spec _ _)) in E4; [done|]. by rewrite Er, <- Eip.
      * unfold recent_filter in *. by rewrite <- H4.
Qed.

Lemma active_targets_spec l m self t : slots_inv l m → (length self ≤ 1)%nat →
  t ∈ active_targets asio l → targets_slot l self (mkSlotHandouts (h_id t) (h_slot t) self).
Proof.
  intros Hi Hself Ht. unfold active_targets in Ht. apply list_elem_of_omap in Ht as ([e p] & Hin & E). simpl in E.
  apply elem_of_ep_order in Hin. destruct (slot_heap l !! p) as [s|] eqn:Es; [|done].
  destruct (bool_decide (state s = active)) eqn:Ea; [|done]. apply bool_decide_eq_true in Ea. injection E as <-. simpl.
  exists e, s. split; simpl; try done. split.
  - unfold numberOfEndpoints, maxHops. lia.
  - destruct self as [|x [|]]; simpl in *; [constructor|apply NoDup_singleton|lia].
  - apply Forall_forall. auto.
Qed.

(** The slots remember what was handed out. *)
Lemma store_slots_spec now l0 self ts : ∀ l m, inv now l m → slots_ l = slots_ l0 →
  (∀ p e s, points l0 p e s → ∃ s', points l p e s' ∧ place_of s' = place_of s) →
  Forall (targets_slot l0 self) ts →
  ∃ l' m', store_slots ts l = inr ((), l') ∧ inv now l' m' ∧ quiet l l' m m'.
Proof.
  induction ts as [|t ts IH]; intros l m Hi Hs Hp Hts; inversion Hts as [|? ? Ht Hts']; subst.
  { exists l, m. split; [by destruct l|]. done. }
  destruct Ht as (e & s & Ht). destruct (Hp _ _ _ (nt_points _ _ _ _ _ Ht)) as (s' & Hp' & Es').
  destruct (quiet_put now l m (h_id t) e s' (h_slot t) Hi Hp') as (Hi1 & Hp1 & Q1); [by rewrite (nt_place _ _ _ _ _ Ht)|].
  set (l1 := set_slot_heap _ l) in *. destruct (IH l1 _ Hi1) as (l' & m' & E & Hi' & Q'); [done| |done|].
  - intros p e1 s1 H1. destruct (Hp _ _ _ H1) as (s2 & [Hq1 Hq2] & E2). destruct (decide (p = h_id t)) as [->|Hne].
    + exists (h_slot t). split; [split; [exact Hq1|simpl; by rewrite lookup_insert_eq]|].
      assert (s2 = s') as -> by (destruct Hp'; congruence). rewrite (nt_place _ _ _ _ _ Ht). congruence.
    + exists s2. split; [split; [exact Hq1|simpl; by rewrite lookup_insert_ne]|done].
  - exists l', m'. split; [exact E|]. split; [done|]. by eapply quiet_trans.
Qed.

Definition self_endpoints l : list Endpoint :=
  if wantIncoming (config_ l) && (0 <? inboundSlots (counts_ l)) then [self_endpoint l] else [].

Lemma build_rooms now ts : @rooms _ _ (slot_laws now) ts < Z.of_nat (build_fuel ts).
Proof.
  unfold build_fuel. induction ts as [|t ts IH]; [done|]. unfold rooms in *. unfold numberOfEndpoints, maxHops in *. simpl in *.
  change (Z.to_nat (2 * 6)) with 12%nat in *. assert (numberOfEndpoints = 12) as E by done. lia.
Qed.

Lemma build_spec now l m slot_perm perm :
  inv now l m → (∀ h, perm h ≡ₚ h) → (∀ ts, slot_perm ts ≡ₚ ts) →
  ∃ r l' m', buildEndpointsForPeers asio now slot_perm perm l = inr (r, l') ∧ inv now l' m' ∧ quiet l l' m m' ∧
    m_cache (livecache_ l') = m_cache (livecache_ l) ∧
    Forall (λ x, ∃ e s, points l x.1 e s ∧ state s = active ∧ news_list (livecache_ l) (self_endpoints l) s x.2) r.
Proof.
  intros Hi Hperm Hsp. unfold buildEndpointsForPeers. pget. cbn [id].
  destruct (negb (m_whenBroadcast l <=? now)); [by exists [], l, m; split; [|split; [|split; [apply quiet_refl|split; [|constructor]]]]|].
  set (targets := _ <$> slot_perm _). fold (self_endpoints l) in targets.
  assert (Forall (targets_slot l (self_endpoints l)) targets) as Ht.
  { apply Forall_forall. intros t Ht. apply list_elem_of_fmap in Ht as (t0 & -> & Ht0). rewrite Hsp in Ht0.
    eapply active_targets_spec; [apply Hi| |done]. unfold self_endpoints. case_match; simpl; lia. }
  destruct Hi as (A & B & C & D).
  destruct (@live_handout_spec _ (slot_target now) (slot_laws now) now l (targets_slot l (self_endpoints l)) (build_fuel targets) false perm targets)
    as (ts & c' & E & Hts & Hlen & Hc' & Hcache & Hset); [done|done| |done| |].
  { intros e t t' He Ht' Hins. exact (slot_insert_spec now l _ e t t' He Ht' Hins). }
  { apply build_rooms. }
  pstep E. set (l1 := set_livecache c' l) in *.
  assert (inv now l1 m) as Hi1 by (split_and!; try done; by eapply slots_frame; try apply A).
  destruct (store_slots_spec now l (self_endpoints l) ts l1 m Hi1 eq_refl) as (l2 & m2 & E2 & Hi2 & Q2); [|done|].
  { intros p e s Hp. by exists s. }
  pstep E2. pmod. eexists _, _, m2. split; [reflexivity|].
  assert (livecache_ l2 = livecache_ l1) as El by (unfold store_slots, modify in E2; by injection E2 as <-).
  split; [destruct Hi2 as (A2 & B2 & C2 & D2); split_and!; try done; by eapply slots_frame; try apply A2|].
  split; [by destruct Q2|]. split; [simpl; by rewrite El|]. apply Forall_fmap. eapply Forall_impl; [exact Hts|].
  intros t (e & s & Hn). exists e, s. simpl. destruct Hn. done.
Qed.
End news.

(** ** Our own attempts to connect *)
Definition squelched (q : Squelches) (a : Address) : Prop := a ∈ map fst q.

Lemma find_squelched (q : Squelches) a : Aged.find a q = None ↔ ¬ squelched q a.
Proof. apply Aged.find_None. Qed.
Lemma found_squelched (q : Squelches) a u : Aged.find a q = Some u → squelched q a.
Proof. intros E. destruct (decide (a ∈ map fst q)) as [|Hn]; [done|]. apply Aged.find_None in Hn. congruence. Qed.
Lemma index_squelched now (q : Squelches) a b : squelched (Aged.index now () a q) b ↔ squelched q b ∨ b = a.
Proof.
  unfold Aged.index, squelched. destruct (Aged.find a q) as [[]|] eqn:E.
  - split; [by left|]. intros [?| ->]; [done|]. by eapply found_squelched.
  - rewrite map_app, elem_of_app. simpl. by rewrite list_elem_of_singleton.
Qed.
Lemma touch_squelched now (q : Squelches) a b : squelched (Aged.touch now a q) b ↔ squelched q b.
Proof.
  unfold Aged.touch, squelched. destruct (Aged.find a q) as [[]|] eqn:E; [|done].
  assert (a ∈ map fst q) as Ha by (by eapply found_squelched).
  rewrite map_app, elem_of_app. simpl. rewrite list_elem_of_singleton.
  rewrite !list_elem_of_fmap. split.
  - intros [(x & -> & [_ Hx]%list_elem_of_filter)| ->]; [by exists x|by apply list_elem_of_fmap].
  - intros (x & -> & Hx). destruct (decide (x.1 = a)) as [E'|Hne]; [by right|left]. exists x. split; [done|]. by apply list_elem_of_filter.
Qed.

Lemma squelch_spec now (q : Squelches) a : Aged.aged_inv now q →
  Aged.aged_inv now (squelch now q a) ∧ ∀ b, squelched (squelch now q a) b ↔ squelched q b ∨ b = a.
Proof.
  intros Hi. unfold squelch. destruct (Aged.find a q) as [[]|] eqn:E.
  - split; [by apply Aged.touch_inv|]. intros b. rewrite touch_squelched. split; [by left|]. intros [?| ->]; [done|].
    by eapply found_squelched.
  - split; [by apply Aged.index_inv|]. intros b. by rewrite index_squelched.
Qed.
Lemma squelches_spec now addrs : ∀ q : Squelches, Aged.aged_inv now q →
  Aged.aged_inv now (foldl (squelch now) q addrs) ∧ ∀ b, squelched (foldl (squelch now) q addrs) b ↔ squelched q b ∨ b ∈ addrs.
Proof.
  induction addrs as [|a addrs IH]; intros q Hi; simpl; [split; [done|]; intros b; rewrite elem_of_nil; naive_solver|].
  destruct (squelch_spec now q a Hi) as [H1 H2]. destruct (IH _ H1) as [H3 H4]. split; [done|]. intros b.
  rewrite H4, H2, elem_of_cons. naive_solver.
Qed.

(** The list so far, of endpoints with [src]; [q] were squelched before. *)
Record tries (now needed : Z) (q : Squelches) (src : IPEndpoint → Prop) (h : ConnectHandouts) : Prop := {
  at_needed : m_needed h = needed;
  at_count : Z.of_nat (length (m_list h)) ≤ needed;
  at_ips : NoDup (ep_address <$> m_list h);
  at_src : Forall (λ e, src e ∧ ¬ squelched q (ep_address e)) (m_list h);
  at_squelched : ∀ a, squelched (m_squelches h) a ↔ squelched q a ∨ a ∈ ep_address <$> m_list h;
  at_aged : Aged.aged_inv now (m_squelches h);
}.

Lemma attempts_none now needed q src : 0 ≤ needed → Aged.aged_inv now q → tries now needed q src (mkConnect needed q []).
Proof. intros Hn Hq. split; simpl; try done; [apply NoDup_nil_2|]. intros a. rewrite elem_of_nil. naive_solver. Qed.

(** One more, not squelched. *)
Lemma attempts_add now needed q src h e :
  tries now needed q src h → src e → ¬ squelched (m_squelches h) (ep_address e) → Z.of_nat (length (m_list h)) < needed →
  tries now needed q src (mkConnect (m_needed h) (Aged.index now () (ep_address e) (m_squelches h)) (m_list h ++ [e])).
Proof.
  intros [H1 H2 H3 H4 H5 H6] Hs Hn Hlt. rewrite H5 in Hn. split; simpl; try done.
  - rewrite length_app. simpl. lia.
  - rewrite fmap_app. apply nodup_snoc; [done|]. naive_solver.
  - apply Forall_app. split; [done|]. apply Forall_singleton. naive_solver.
  - intros a. rewrite index_squelched, H5, fmap_app, elem_of_app. simpl. rewrite list_elem_of_singleton. naive_solver.
  - by apply Aged.index_inv.
Qed.

Lemma connect_insert_spec now needed q (src : IPEndpoint → Prop) e h h' :
  src e → tries now needed q src h → connect_insert_address now e h = Some h' → tries now needed q src h'.
Proof.
  intros Hs Hh. unfold connect_insert_address. destruct (connect_full h) eqn:E1; [done|]. destruct (existsb _ _); [done|].
  destruct (Aged.find _ _) as [|] eqn:E3; [done|]. intros [= <-]. apply find_squelched in E3.
  unfold connect_full in E1. apply Z.leb_gt in E1. rewrite (at_needed _ _ _ _ _ Hh) in E1. by apply attempts_add.
Qed.

Lemma boot_handout_spec now needed q (src : IPEndpoint → Prop) es : ∀ h, Forall src es →
  tries now needed q src h → tries now needed q src (boot_handout now es h).
Proof.
  induction es as [|e es IH]; intros h Hs Hh; simpl; [done|]. inversion Hs; subst. destruct (connect_full h); [done|]. apply IH; [done|].
  destruct (connect_insert_address now e h) as [h'|] eqn:E; simpl; [|done]. by eapply connect_insert_spec.
Qed.

Definition due (now : Z) (x : IPEndpoint * Fixed) : Prop := m_when x.2 ≤ now.
Lemma get_fixed_spec now needed q (src : IPEndpoint → Prop) slots peers : ∀ left h,
  tries now needed q src h → Forall (λ x, due now x → src x.1) peers → 0 ≤ left → Z.of_nat (length (m_list h)) + left ≤ needed →
  tries now needed q src (get_fixed now slots peers left h).
Proof.
  induction peers as [|[e f] peers IH]; intros left h Hh Hp Hl Hle; simpl; [done|]. inversion Hp as [|? ? He Hp']; subst.
  destruct (Z.eqb_spec left 0); [done|]. destruct (_ && _ && _) eqn:Eb; [|by apply IH].
  apply andb_prop in Eb as [[Ew%Z.leb_le Eq%bool_decide_eq_true]%andb_prop _]. apply find_squelched in Eq.
  apply IH; [|done|lia|simpl; rewrite length_app; simpl; lia]. apply attempts_add; [done|by apply He|done|lia].
Qed.

Section auto.
  Context (asio : AsioAddress).
Implicit Types (l : Logic) (m : SlotMap).

(** Where an endpoint to try comes from. *)
Definition fixed_due (now : Z) l (e : IPEndpoint) : Prop := ∃ f, fixed_ l !! e = Some f ∧ m_when f ≤ now.
Definition known l (e : IPEndpoint) : Prop := (∃ h, cached (livecache_ l) (mkEndpoint h e)) ∨ e ∈ Boot.in_order (bootcache_ l).
Definition wants_peers l : Prop := autoConnect (config_ l) = true ∧ out_active (counts_ l) < out_max (counts_ l).

(** The endpoints to try now. *)
Record connect_list (now : Z) l m l' (es : list IPEndpoint) : Prop := {
  cl_count : Z.of_nat (length es) ≤ attempts_needed (counts_ l);
  cl_ips : NoDup (ep_address <$> es);
  cl_source : Forall (λ e, fixed_due now l e ∨ (wants_peers l ∧ known l e)) es;
  cl_quiet : Forall (λ e, ¬ squelched (squelches_ l) (ep_address e)) es;
  cl_new : Forall (λ e, ∀ e' s, m !! e' = Some s → ep_address e' ≠ ep_address e) es;
  cl_squelched : ∀ a, squelched (squelches_ l) a ∨ a ∈ ep_address <$> es → squelched (squelches_ l') a;
}.

(** The list [h] is given, with the live cache as it is then. *)
Lemma give_spec now l m c h q src :
  inv now l m → Live.live_inv now c →
  (∀ b, squelched q b ↔ squelched (squelches_ l) b ∨ ∃ e s, m !! e = Some s ∧ b = ep_address e) →
  tries now (attempts_needed (counts_ l)) q src h →
  (∀ e, src e → fixed_due now l e ∨ (wants_peers l ∧ known l e)) →
  ∃ l', give h (set_livecache c l) = inr (m_list h, l') ∧ inv now l' m ∧ quiet l l' m m ∧ connect_list now l m l' (m_list h).
Proof.
  intros (A & B & C & D) Hc Hq [H1 H2 H3 H4 H5 H6] Hsrc. eexists. split; [reflexivity|].
  split; [split_and!; try done; by eapply slots_frame; try apply A|]. split; [done|].
  rewrite Forall_forall in H4. split; try done.
  - apply Forall_forall. intros e He. by apply Hsrc, H4.
  - apply Forall_forall. intros e He Hs. apply (proj2 (H4 e He)), Hq. by left.
  - apply Forall_forall. intros e He e' s Hm E. apply (proj2 (H4 e He)), Hq. right. by exists e', s.
  - intros a [Ha|Ha]; apply H5; [left; apply Hq; by left|by right].
Qed.

Lemma autoconnect_spec now l m perm : inv now l m → (∀ h, perm h ≡ₚ h) →
  ∃ es l', autoconnect asio now perm l = inr (es, l') ∧ inv now l' m ∧ quiet l l' m m ∧ connect_list now l m l' es.
Proof.
  intros Hi Hperm. unfold autoconnect. pget. set (needed := attempts_needed (counts_ l)).
  destruct (Z.eqb_spec needed 0) as [E0|E0].
  { exists [], l. split; [done|]. split; [done|]. split; [done|]. split; simpl; try done; [fold needed; lia|apply NoDup_nil_2|]. intros a [Ha|Ha]; [done|]. by apply not_elem_of_nil in Ha. }
  pget. cbn [id]. match goal with |- context [foldl (squelch now) (squelches_ l) ?a] => set (addresses := a) end.
  destruct (squelches_spec now addresses (squelches_ l) (proj2 (proj2 (proj2 Hi)))) as [Hq1 Hq2].
  set (q := foldl (squelch now) (squelches_ l) addresses) in *.
  assert (∀ b, squelched q b ↔ squelched (squelches_ l) b ∨ ∃ e s, m !! e = Some s ∧ b = ep_address e) as Hq.
  { intros b. rewrite Hq2. f_equiv. unfold addresses. rewrite list_elem_of_fmap. destruct Hi as (A & _). split.
    - intros ([e p] & -> & Hin%elem_of_ep_order). simpl. destruct (i_ptr _ _ A _ _ Hin) as [s Hs]. rewrite Hs.
      exists e, s. assert (m !! e = Some s) as Hm by (rewrite (i_repr _ _ A), Hin; done). split; [done|]. by rewrite (i_key _ _ A e s).
    - intros (e & s & Hm & ->). pose proof Hm as Hm'. rewrite (i_repr _ _ A) in Hm. destruct (slots_ l !! e) as [p|] eqn:Ep; [|done].
      simpl in Hm. exists (e, p). simpl. rewrite Hm. rewrite (i_key _ _ A e s Hm'). split; [done|]. by apply elem_of_ep_order. }
  assert (0 ≤ needed) as Hneed by (unfold needed, attempts_needed; case_match; [lia|apply Z.mod_pos_bound; lia]).
  set (src := λ e, fixed_due now l e ∨ (wants_peers l ∧ known l e)).
  set (h := if _ <? _ then _ else _). cbv zeta.
  assert (tries now needed q src h) as Hh.
  { unfold h. case_match; [|by apply attempts_none]. apply get_fixed_spec; [by apply attempts_none| |done|simpl; lia].
    apply Forall_forall. intros [e f] Hin%elem_of_ep_order Hd. left. by exists f. }
  assert (l = set_livecache (livecache_ l) l) as El by (by destruct l).
  assert (∀ h0, tries now needed q src h0 → ∃ es l', give h0 l = inr (es, l') ∧ inv now l' m ∧ quiet l l' m m ∧ connect_list now l m l' es) as Hgive.
  { intros h0 Hh0. destruct (give_spec now l m (livecache_ l) h0 q src Hi) as (l' & E & ? & ? & ?); [apply Hi|done|done|done|].
    rewrite <- El in E. by exists (m_list h0), l'. }
  set (short := m_fixed_active (counts_ l) <? Z.of_nat (size (fixed_ l))) in *.
  destruct (short && negb (bool_decide (m_list h = []))) eqn:Efix; [by apply Hgive|].
  assert (m_list h = []) as Hnil.
  { unfold h in *. destruct short; [|done]. simpl in Efix. by apply negb_false_iff, bool_decide_eq_true in Efix. }
  assert (mkConnect needed (m_squelches h) [] = h) as Eh by (rewrite <- (at_needed _ _ _ _ _ Hh), <- Hnil; by destruct h).
  rewrite !Eh. destruct (short && (0 <? attempts (counts_ l))); [by apply Hgive|].
  destruct (negb (autoConnect (config_ l)) || _) eqn:Ewant; [by apply Hgive|].
  apply orb_false_iff in Ewant as [Ew1%negb_false_iff Ew2%Z.leb_gt].
  destruct (@live_handout_spec _ (connect_target now) (connect_laws now) now l (tries now needed q src) (connect_fuel needed) true perm [h])
    as (ts & c' & E & Hts & Hlen & Hc' & _); [apply Hi|done| |by apply Forall_singleton| |].
  { intros e t t' He Ht Hins. eapply (connect_insert_spec now needed q src (address e)); [|exact Ht|exact Hins].
    right. split; [done|]. left. exists (hops e). by destruct e. }
  { unfold rooms, connect_fuel. simpl. rewrite (at_needed _ _ _ _ _ Hh), Hnil. simpl. lia. }
  pstep E. destruct ts as [|h' [|]]; try done. apply Forall_cons in Hts as [Hts _].
  assert (∀ h0, tries now needed q src h0 →
    ∃ es l', give h0 (set_livecache c' l) = inr (es, l') ∧ inv now l' m ∧ quiet l l' m m ∧ connect_list now l m l' es) as Hgive'.
  { intros h0 Hh0. destruct (give_spec now l m c' h0 q src Hi) as (l' & E' & ? & ? & ?); try done. by exists (m_list h0), l'. }
  destruct (negb (bool_decide (m_list h' = []))); [by apply Hgive'|]. destruct (0 <? attempts (counts_ l)); [by apply Hgive'|].
  apply Hgive'. apply boot_handout_spec; [|done]. apply Forall_forall. intros e He. right. split; [done|]. by right.
Qed.
End auto.
