(* ===== verification/PeerFinderRun.v ===== *)
(** * Runs of the peer finder

    The operations in any order, at times that do not go back, under the callers'
    contract.  [step_inv]: each ends and keeps the invariant, and the slots take a
    step of the state machine [slot_step]. *)

From stdpp Require Import prelude gmap gmultiset strings sorting.
From Stdlib Require Import ZArith QArith Lia.
From S2P Require Import Prelude.
From S2P Require Import AgedMap.
From S2P Require Import IPEndpoint.
From S2P Require Import PeerSlots.
From S2P Require Import Bootcache.
From S2P Require Import Livecache.
From S2P Require Import Handouts.
From S2P Require Import PeerFinder.
From S2P Require Import PeerFinderSpec.
From S2P Require Import PeerFinderOps.
From S2P Require Import PeerFinderHandout.

#[local] Open Scope Z_scope.

Inductive PeerOp :=
  | OConfig (c : Config)
  | OLoad (l : entries)
  | OStop
  | OFixed (addresses : list IPEndpoint)
  | OInbound (local remote : IPEndpoint)
  | OOutbound (remote : IPEndpoint)
  | OConnected (p : SlotPtr) (local : IPEndpoint)
  | OActivate (p : SlotPtr) (key : Z) (cluster : bool)
  | OClosed (p : SlotPtr)
  | OFailure (p : SlotPtr)
  | OCheck (remote checkedAddress : IPEndpoint) (aborted failed : bool)
  | OEndpoints (p : SlotPtr) (eps : list Endpoint)
  | ORedirects (addrs : list IPEndpoint)
  | OFetchStart
  | OFetchEnd (results : option (list IPEndpoint))
  | ORedirect (perm : list IPEndpoint → list IPEndpoint) (p : SlotPtr)
  | OAutoconnect (perm : list IPEndpoint → list IPEndpoint)
  | OBuild (slot_perm : list SlotHandouts → list SlotHandouts) (perm : list IPEndpoint → list IPEndpoint)
  | OSecond.

Definition ignore {A} (c : PF A) : PF () := _ ← c; mret ().

Section run.
  Context (asio : AsioAddress).
Implicit Types (l : Logic) (m : SlotMap).

Definition exec (now : Z) (op : PeerOp) : PF () :=
  match op with
  | OConfig c => config c
  | OLoad es => load es
  | OStop => stop
  | OFixed addresses => addFixedPeer now addresses
  | OInbound local remote => ignore (new_inbound_slot asio local remote)
  | OOutbound remote => ignore (new_outbound_slot remote)
  | OConnected p local => ignore (onConnected p local)
  | OActivate p key cl => ignore (activate now p key cl)
  | OClosed p => on_closed now p
  | OFailure p => on_failure now p
  | OCheck remote chk aborted failed => checkComplete now remote chk aborted failed
  | OEndpoints p eps => on_endpoints asio now p eps
  | ORedirects addrs => onRedirects now addrs
  | OFetchStart => ignore fetch_start
  | OFetchEnd r => fetch_end now r
  | ORedirect perm p => ignore (redirect perm p)
  | OAutoconnect perm => ignore (autoconnect asio now perm)
  | OBuild slot_perm perm => ignore (buildEndpointsForPeers asio now slot_perm perm)
  | OSecond => once_per_second asio now
  end.

(** What the source asserts of the callers' arguments: fixed peers have a port, an
    inbound connection has a new remote endpoint, slots are open and in the right
    state, the slot at our own end of a connection is its other end, hops are not
    negative; and shuffles are permutations. *)
Definition contract l (op : PeerOp) : Prop :=
  match op with
  | OFixed addresses => Forall (λ a, ep_port a ≠ 0) addresses
  | OInbound local remote => slots_ l !! remote = None
  | OConnected p local => ∃ e s, points l p e s ∧ state s = connect ∧
      ∀ q o, points l q local o → local ≠ e → local_endpoint o = Some e
  | OActivate p key cl => ∃ e s, points l p e s ∧ (state s = accept ∨ state s = connected)
  | OClosed p => ∃ e s, points l p e s
  | OFailure p => is_Some (slot_heap l !! p)
  | OEndpoints p eps => (∃ e s, points l p e s ∧ state s = active) ∧ Forall (λ ep, 0 ≤ hops ep) eps
  | ORedirect perm p => is_Some (slot_heap l !! p) ∧ ∀ h, perm h ≡ₚ h
  | OAutoconnect perm => ∀ h, perm h ≡ₚ h
  | OBuild slot_perm perm => (∀ ts, slot_perm ts ≡ₚ ts) ∧ ∀ h, perm h ≡ₚ h
  | _ => True
  end.

(** ** The state machine of the slots *)
Inductive slot_step (now : Z) l : SlotMap → SlotMap → Prop :=
  | SQuiet m m' : places m' = places m → slot_step now l m m'
  | SOpen m e s : m !! e = None → state s = accept ∨ state s = connect → slot_step now l m (<[e := s]> m)
  | SConnected m e s s' : m !! e = Some s → state s = connect → state s' = connected →
      inbound s' = inbound s → fixed s' = fixed s → slot_step now l m (<[e := s']> m)
  | SCluster m e s cl : m !! e = Some s → state s ≠ active → slot_step now l m (<[e := set_cluster cl s]> m)
  | SActive m e s cl key : m !! e = Some s → state s = accept ∨ state s = connected → key ∉ keys_ l →
      has_room l (set_cluster cl s) = true → slot_step now l m (<[e := activated now key (set_cluster cl s)]> m)
  | SClose m e s : m !! e = Some s → slot_step now l m (delete e m).

(** The limits that the configuration sets. *)
Definition same_limits l l' : Prop :=
  m_in_max (counts_ l') = m_in_max (counts_ l) ∧ m_out_max (counts_ l') = m_out_max (counts_ l).
Definition is_config (op : PeerOp) : bool := match op with OConfig _ => true | _ => false end.

(** The result of a step of the operation [op]. *)
Definition steps (now : Z) l m (op : PeerOp) : Prop :=
  ∃ l' m', exec now op l = inr ((), l') ∧ inv now l' m' ∧ slot_step now l m m' ∧ (is_config op = false → same_limits l l').

(** Steps that change no slot. *)
Lemma quiet_steps now l m op l' m' : exec now op l = inr ((), l') → inv now l' m' → quiet l l' m m' → steps now l m op.
Proof.
  intros E Hi [Q1 Q2 Q3 Q4]. exists l', m'. split; [done|]. split; [done|]. split; [by apply SQuiet|]. intros _. unfold same_limits. by rewrite Q2.
Qed.
Lemma rest_steps now l m op l' m' : inv now l m → exec now op l = inr ((), l') → slots_inv l' m' → same_rest l l' → slot_step now l m m' →
  steps now l m op.
Proof.
  intros Hi E Hs R Hst. exists l', m'. split; [done|]. split; [by eapply rest_inv|]. split; [done|]. intros _. by destruct R.
Qed.
Lemma ignore_inr {A} (c : PF A) l a l' : c l = inr (a, l') → ignore c l = inr ((), l').
Proof. intros E. unfold ignore. by pstep E. Qed.

(** ** Opening *)
Lemma open_steps now l m op s : inv now l m → m !! remote_endpoint s = None → slot_ok (fixed_ l) s → public_key s = None →
  state s = accept ∨ state s = connect → (∀ p l', new_slot s l = inr (p, l') → exec now op l = inr ((), l')) → steps now l m op.
Proof.
  intros Hi Hm Hok Hk Hst He. destruct (new_slot_spec l m s (proj1 Hi) Hm Hok Hk) as (p & l' & E & Hi' & _ & R & _).
  eapply rest_steps; [done|by eapply He|done|done|]. by apply SOpen.
Qed.

Lemma inbound_steps now l m local remote : inv now l m → slots_ l !! remote = None → steps now l m (OInbound local remote).
Proof.
  intros Hi Hn. assert (m !! remote = None) as Hm by (rewrite (i_repr _ _ (proj1 Hi)), Hn; done).
  destruct (is_public asio (ep_address remote) && (u64 (ipLimit (config_ l)) <? Z.of_nat (multiplicity (ep_address remote) (connectedAddresses_ l)))) eqn:Eb.
  - eapply quiet_steps; [|exact Hi|apply quiet_refl]. simpl. eapply ignore_inr. unfold new_inbound_slot. pget. cbn [id]. rewrite Eb. reflexivity.
  - eapply (open_steps now l m _ (inbound_slot local remote (fixed_address l (ep_address remote)))); try done; [|by left|].
    + refine (conj eq_refl (conj _ (conj _ _))); [done| |done]. by split; [intros [? ?]|].
    + intros p l' E. simpl. eapply ignore_inr. unfold new_inbound_slot. pget. cbn [id]. rewrite Eb. pstep E. reflexivity.
Qed.

Lemma outbound_steps now l m remote : inv now l m → steps now l m (OOutbound remote).
Proof.
  intros Hi. destruct (slots_ l !! remote) as [p|] eqn:Ep.
  - eapply quiet_steps; [|exact Hi|apply quiet_refl]. simpl. eapply ignore_inr. unfold new_outbound_slot. pget. cbn [id]. rewrite Ep. reflexivity.
  - assert (m !! remote = None) as Hm by (rewrite (i_repr _ _ (proj1 Hi)), Ep; done).
    eapply (open_steps now l m _ (outbound_slot remote (fixed_endpoint l remote))); try done; [|by right|].
    + refine (conj eq_refl (conj _ (conj _ _))); [done|by split; [intros [? ?]|]|]. simpl. unfold fixed_endpoint. intros Hf%bool_decide_eq_true. done.
    + intros p l' E. simpl. eapply ignore_inr. unfold new_outbound_slot. pget. cbn [id]. rewrite Ep. pstep E. reflexivity.
Qed.

(** ** The configuration *)
Lemma addFixedPeer_spec now addresses : ∀ l m, inv now l m → Forall (λ a, ep_port a ≠ 0) addresses →
  ∃ l', addFixedPeer now addresses l = inr ((), l') ∧ inv now l' m ∧ quiet l l' m m.
Proof.
  induction addresses as [|a addresses IH]; intros l m Hi Hp; simpl; [by exists l|]. inversion Hp as [|? ? Ha Hp']; subst.
  destruct (Z.eqb_spec (ep_port a) 0); [done|]. pget. destruct (fixed_ l !! a) eqn:Ea; [by apply IH|].
  eexists. split; [reflexivity|]. split; [|done]. destruct Hi as (A & B & C & D). split_and!; try done.
  eapply slots_frame; try apply A; try done. intros e He. simpl. rewrite lookup_insert_is_Some. destruct (decide (a = e)); auto.
Qed.

Lemma config_steps now l m c : inv now l m → steps now l m (OConfig c).
Proof.
  intros (A & B & C & D). eexists _, m. split; [reflexivity|]. split; [|split; [by apply SQuiet|done]].
  split_and!; try done. eapply slots_frame; try apply A; try done. destruct (i_tally _ _ A) as [T1 T2 T3 T4 T5 T6 T7 T8 T9]. by split.
Qed.

(** Changes outside the slots. *)
Lemma frame_steps now l m op l' : inv now l m → exec now op l = inr ((), l') →
  slots_ l' = slots_ l → slot_heap l' = slot_heap l → fixed_ l' = fixed_ l → counts_ l' = counts_ l →
  connectedAddresses_ l' = connectedAddresses_ l → keys_ l' = keys_ l → livecache_ l' = livecache_ l →
  boot_inv (m_map (bootcache_ l')) → squelches_ l' = squelches_ l → steps now l m op.
Proof.
  intros (A & B & C & D) E E1 E2 E3 E4 E5 E6 E7 Hb E8. exists l', m. split; [done|]. split.
  - unfold inv. rewrite E7, E8. split_and!; try done. eapply slots_frame; try apply A; rewrite ?E3, ?E4; try done. apply A.
  - split; [by apply SQuiet|]. intros _. unfold same_limits. by rewrite E4.
Qed.

Lemma fetch_end_steps now l m r : inv now l m → steps now l m (OFetchEnd r).
Proof.
  intros Hi. destruct (stopping_ l) eqn:Es.
  - eapply (frame_steps now l m _ l); try done; [|apply Hi]. simpl. unfold fetch_end. pget. by rewrite Es.
  - destruct r as [addrs|].
    + eapply frame_steps; [done|simpl; unfold fetch_end; pget; rewrite Es; pmod; reflexivity|try reflexivity..].
      apply (statics_inv now addrs (bootcache_ l, 0)), Hi.
    + eapply (frame_steps now l m _ (set_fetchSource false l)); try done; [|apply Hi]. simpl. unfold fetch_end. pget. by rewrite Es.
Qed.

(** ** Every operation *)
Lemma step_inv now now' l m op : inv now l m → now ≤ now' → contract l op → steps now' l m op.
Proof.
  intros Hi0 Hle Hc. pose proof (inv_later _ _ _ _ Hi0 Hle) as Hi. clear Hi0 Hle.
  destruct op as [c|es| |addrs|local remote|remote|p local|p key cl|p|p|remote chk ab fl|p eps|addrs| |r|perm p|perm|sp perm|]; simpl in Hc.
  - by apply config_steps.
  - eapply frame_steps; [done|reflexivity|try done..]. apply (boot_refines now' (BLoad es)), Hi.
  - eapply frame_steps; [done|reflexivity|try done..]. apply Hi.
  - destruct (addFixedPeer_spec now' addrs l m Hi Hc) as (l' & E & Hi' & Q). by eapply quiet_steps.
  - by apply inbound_steps.
  - by apply outbound_steps.
  - destruct Hc as (e & s & Hp & Hst & Hself). destruct (points_slot _ _ _ _ _ (proj1 Hi) Hp) as [Hm _].
    destruct (onConnected_spec l m p e s local (proj1 Hi) Hp Hst) as (l' & E & Hi' & R).
    { intros o Ho Hne. rewrite (i_repr _ _ (proj1 Hi)) in Ho. destruct (slots_ l !! local) as [q|] eqn:Eq; [|done]. by apply (Hself q). }
    eapply rest_steps; [done|by eapply ignore_inr|exact Hi'|done|]. case_bool_decide.
    + by eapply SConnected.
    + apply SQuiet. by eapply places_put.
  - destruct Hc as (e & s & Hp & Hst). destruct (points_slot _ _ _ _ _ (proj1 Hi) Hp) as [Hm _].
    destruct (activate_spec now' l m p e s key cl (proj1 Hi) Hp Hst) as (r & l' & s' & E & Hi' & R & Hr).
    eapply rest_steps; [done|by eapply ignore_inr|exact Hi'|done|]. destruct r; destruct_and! Hr; subst s'.
    + apply SQuiet. by eapply places_put.
    + apply SCluster; [done|]. naive_solver congruence.
    + by apply SActive.
  - destruct Hc as (e & s & Hp). destruct (points_slot _ _ _ _ _ (proj1 Hi) Hp) as [Hm _].
    destruct (on_closed_spec now' l m p e s (proj1 Hi) Hp) as (l' & E & Hi' & R). eapply rest_steps; [done|done|done|done|by eapply SClose].
  - destruct Hc as [s Hs]. eapply frame_steps; [done|simpl; unfold on_failure; pstep (slot_at_spec _ _ _ Hs); reflexivity|try done..].
    apply (boot_refines now' (BFailure (remote_endpoint s))), Hi.
  - destruct (checkComplete_spec now' l m remote chk ab fl (proj1 Hi)) as (l' & m' & E & Hi' & R & Hm).
    eapply rest_steps; [done|done|done|done|]. apply SQuiet. apply map_eq. intros e. unfold places. rewrite !lookup_fmap. apply Hm.
  - destruct Hc as [(e & s & Hp & Hst) Hh]. destruct (on_endpoints_spec asio now' l m p e s eps Hi Hp Hst Hh) as (l' & m' & E & Hi' & Q).
    by eapply quiet_steps.
  - eapply frame_steps; [done|reflexivity|try done..]. apply inserts_inv, Hi.
  - destruct (stopping_ l) eqn:Es.
    + eapply (frame_steps now' l m _ l); try done; [|apply Hi]. simpl. eapply ignore_inr. unfold fetch_start. pget. rewrite Es. reflexivity.
    + eapply (frame_steps now' l m _ (set_fetchSource true l)); try done; [|apply Hi]. simpl. eapply ignore_inr. unfold fetch_start. pget. rewrite Es. reflexivity.
  - by apply fetch_end_steps.
  - destruct Hc as [[s Hs] Hp]. destruct (redirect_spec now' l m perm p s Hi Hs Hp) as (es & c' & E & Hi' & _).
    eapply quiet_steps; [by eapply ignore_inr|exact Hi'|done].
  - destruct (autoconnect_spec asio now' l m perm Hi Hc) as (es & l' & E & Hi' & Q & _). eapply quiet_steps; [by eapply ignore_inr|done|done].
  - destruct Hc as [Hsp Hp]. destruct (build_spec asio now' l m sp perm Hi Hp Hsp) as (r & l' & m' & E & Hi' & Q & _).
    eapply quiet_steps; [by eapply ignore_inr|done|done].
  - destruct (once_per_second_spec asio now' l m Hi) as (l' & m' & E & Hi' & Q). by eapply quiet_steps.
Qed.

Lemma new_finder_inv now th c : inv now (new_logic now th c) ∅.
Proof.
  split_and!; [|apply Live.new_live_inv|split; [apply NoDup_nil_2|constructor]|split; [apply NoDup_nil_2|constructor|constructor]].
  split; simpl.
  - intros e. by rewrite !lookup_empty.
  - intros e p. by rewrite lookup_empty.
  - intros e s. by rewrite lookup_empty.
  - intros e s. by rewrite lookup_empty.
  - split; rewrite msum_empty; done.
  - intros a. by rewrite msum_empty, multiplicity_empty.
  - split; [|intros e e' s s' k; by rewrite lookup_empty]. intros k. split; [set_solver|]. intros (e & s & H & _). by rewrite lookup_empty in H.
Qed.

(** ** Runs *)
Inductive run : Z → Logic → Prop :=
  | run_new now th c : run now (new_logic now th c)
  | run_step now now' l op l' : run now l → now ≤ now' → contract l op → exec now' op l = inr ((), l') → run now' l'.

Lemma run_inv now l : run now l → ∃ m, inv now l m.
Proof.
  induction 1 as [now th c|now now' l op l' Hr IH Hle Hc E]; [exists ∅; apply new_finder_inv|]. destruct IH as [m Hi].
  destruct (step_inv now now' l m op Hi Hle Hc) as (l1 & m' & E1 & Hi' & _). exists m'. congruence.
Qed.

(** ** Limits *)

(** The active slots that count against the limits. *)
Definition counts_in (s : SlotImp) : bool := is_state active s && (free s && inbound s).
Definition counts_out (s : SlotImp) : bool := is_state active s && (free s && negb (inbound s)).
Definition active_in m : Z := msum (ones counts_in) m.
Definition active_out m : Z := msum (ones counts_out) m.

Lemma ones_bound b s : 0 ≤ ones b s ≤ 1.
Proof. unfold ones, when. case_match; lia. Qed.
Lemma active_nonneg m : 0 ≤ active_in m ∧ 0 ≤ active_out m.
Proof. split; apply msum_nonneg; intros s; apply ones_bound. Qed.

Lemma msum_put f m e s s' : m !! e = Some s → msum f (<[e := s']> m) = msum f m - f s + f s'.
Proof.
  intros Hm. rewrite <- (insert_delete_eq m e s'), msum_insert by apply lookup_delete_eq. rewrite (msum_delete _ _ _ _ Hm). lia.
Qed.

(** What is counted depends on the places of the slots only. *)
Lemma msum_places (g : State * bool * bool * bool * IPEndpoint * option Z → Z) m :
  msum (g ∘ place_of) m = sumZ (g ∘ snd) (map_to_list (places m)).
Proof.
  unfold msum, places. rewrite map_to_list_fmap. by rewrite sumZ_map.
Qed.
Definition place_active (want : bool) (x : State * bool * bool * bool * IPEndpoint * option Z) : Z :=
  let '(st, i, f, c, _, _) := x in when (bool_decide (st = active) && ((negb f && negb c) && (if want then i else negb i))) 1.
Lemma active_places m m' : places m' = places m → active_in m' = active_in m ∧ active_out m' = active_out m.
Proof.
  intros E. assert (∀ want, msum (place_active want ∘ place_of) m' = msum (place_active want ∘ place_of) m) as H
    by (intros want; by rewrite !msum_places, E).
  split; [exact (H true)|exact (H false)].
Qed.

Definition within l m : Prop := active_in m ≤ m_in_max (counts_ l) ∧ active_out m ≤ m_out_max (counts_ l).
Definition limits_fit l : Prop := m_in_max (counts_ l) < 2 ^ 64 ∧ m_out_max (counts_ l) < 2 ^ 64.

Lemma inactive_zero b s : state s ≠ active → ones (λ s, is_state active s && b s) s = 0.
Proof. intros H. unfold ones, is_state. by rewrite bool_decide_false. Qed.

(** Room in the counts is room among the slots. *)
Lemma room_in l m s : slots_inv l m → limits_fit l → within l m → has_room l s = true → free s = true →
  if inbound s then active_in m < m_in_max (counts_ l) else active_out m < m_out_max (counts_ l).
Proof.
  intros Hi [F1 F2] [W1 W2] Hr Hf. destruct (active_nonneg m) as [N1 N2].
  unfold has_room, free in *. destruct (fixed s); [done|]. destruct (cluster s); [done|]. simpl in Hr.
  destruct (inbound s); apply Z.ltb_lt in Hr.
  - assert (m_in_active (counts_ l) = u64 (active_in m)) as E by apply (i_tally _ _ Hi). rewrite E in Hr.
    unfold u64, wrap in Hr. rewrite Z.mod_small in Hr by lia. done.
  - assert (m_out_active (counts_ l) = u64 (active_out m)) as E by apply (i_tally _ _ Hi). rewrite E in Hr.
    unfold u64, wrap in Hr. rewrite Z.mod_small in Hr by lia. done.
Qed.

Lemma within_step now l m m' : slots_inv l m → limits_fit l → within l m → slot_step now l m m' → within l m'.
Proof.
  intros Hi Hfit Hw Hs. destruct Hs as [m m' E|m e s He Hst|m e s s' He H1 H2 H3 H4|m e s cl He Hst|m e s cl key He Hst Hk Hroom|m e s He].
  - destruct (active_places _ _ E) as [E1 E2]. unfold within. by rewrite E1, E2.
  - unfold within, active_in, active_out in *. rewrite !msum_insert by done.
    unfold counts_in, counts_out in *. rewrite !inactive_zero by naive_solver congruence. done.
  - unfold within, active_in, active_out in *. rewrite !(msum_put _ _ _ _ _ He).
    unfold counts_in, counts_out in *. rewrite !inactive_zero by congruence. lia.
  - unfold within, active_in, active_out in *. rewrite !(msum_put _ _ _ _ _ He).
    unfold counts_in, counts_out in *. rewrite !inactive_zero by done. lia.
  - set (s1 := set_cluster cl s) in *. set (s2 := activated now key s1).
    assert (state s ≠ active) as Hna by naive_solver congruence.
    unfold within, active_in, active_out in *. rewrite !(msum_put _ _ _ _ _ He).
    assert (ones counts_in s = 0) as -> by (by apply inactive_zero). assert (ones counts_out s = 0) as -> by (by apply inactive_zero).
    destruct (free s1) eqn:Ef.
    + pose proof (room_in l m s1 Hi Hfit Hw Hroom Ef) as Hr. unfold active_in, active_out in Hr.
      pose proof (ones_bound counts_in s2). pose proof (ones_bound counts_out s2).
      assert (inbound s2 = inbound s1) as Ein by done.
      destruct (inbound s1) eqn:Ei.
      * assert (ones counts_out s2 = 0) as -> by (unfold ones, counts_out; rewrite Ein, !andb_false_r; done). lia.
      * assert (ones counts_in s2 = 0) as -> by (unfold ones, counts_in; rewrite Ein, !andb_false_r; done). lia.
    + assert (free s2 = false) as Ef2 by done.
      assert (ones counts_in s2 = 0) as -> by (unfold ones, counts_in; rewrite Ef2; by destruct (is_state active s2)).
      assert (ones counts_out s2 = 0) as -> by (unfold ones, counts_out; rewrite Ef2; by destruct (is_state active s2)). lia.
  - unfold within, active_in, active_out in *. rewrite !(msum_delete _ _ _ _ He).
    pose proof (ones_bound counts_in s). pose proof (ones_bound counts_out s). lia.
Qed.

(** Runs with one configuration. *)
Inductive run_with (th : Q) (c : Config) : Z → Logic → Prop :=
  | with_new now : run_with th c now (new_logic now th c)
  | with_step now now' l op l' : run_with th c now l → now ≤ now' → contract l op → is_config op = false →
      exec now' op l = inr ((), l') → run_with th c now' l'.

Lemma run_within th c now l : run_with th c now l → 
  let g := onConfig th c no_counts in 0 ≤ m_in_max g < 2 ^ 64 → 0 ≤ m_out_max g < 2 ^ 64 →
  ∃ m, inv now l m ∧ within l m ∧ same_limits (new_logic now th c) l.
Proof.
  intros Hr g Hg1 Hg2. induction Hr as [now|now now' l op l' Hr IH Hle Hc Hcfg E].
  - exists ∅. split; [apply new_finder_inv|]. split; [|done]. unfold within, active_in, active_out. rewrite !msum_empty. by split; simpl; apply Hg1 || apply Hg2.
  - destruct IH as (m & Hi & Hw & Hs). destruct (step_inv now now' l m op Hi Hle Hc) as (l1 & m' & E1 & Hi' & Hstep & Hlim).
    assert (l1 = l') as -> by congruence. specialize (Hlim Hcfg). exists m'. split; [done|].
    destruct Hs as [S1 S2], Hlim as [L1 L2]. change (counts_ (new_logic now th c)) with g in S1, S2. split.
    + unfold within. rewrite L1, L2. eapply within_step; [apply Hi| |exact Hw|exact Hstep]. unfold limits_fit. rewrite S1, S2. lia.
    + unfold same_limits. by rewrite L1, L2.
Qed.
End run.
