(* ===== verification/PeerFinderTheorems.v ===== *)
(** * Theorems about the peer finder *)

From stdpp Require Import prelude gmap gmultiset strings sorting.
From Stdlib Require Import ZArith QArith Lia.
From S2P Require Import Prelude.
From S2P Require Import AgedMap.
From S2P Require Import IPEndpoint.
From S2P Require Import PeerSlots.
From S2P Require Import Bootcache.
From S2P Require Import Livecache.
From S2P Require Import Handouts.
From S2P Require Import PeerFinder.
From S2P Require Import PeerFinderSpec.
From S2P Require Import PeerFinderOps.
From S2P Require Import PeerFinderHandout.
From S2P Require Import PeerFinderRun.

#[local] Open Scope Z_scope.

(** ** A small network *)
Definition asio0 : AsioAddress :=
  mkAsio (λ a, bool_decide (a = V4 0x7f000001)) (λ _, false) (λ a, bool_decide (a = V4 0 ∨ a = V6 0)) (λ _, false) id
    (λ a b, match a, b with V4 x, V4 y => x <? y | V6 x, V6 y => x <? y | V4 _, V6 _ => true | _, _ => false end).
Definition config0 : Config := mkConfig 21 10 true true 51235 2.
Definition peer_a : IPEndpoint := mkEP (V4 0x08080808) 51235.
Definition peer_b : IPEndpoint := mkEP (V4 0x09090909) 51235.
Definition here : IPEndpoint := mkEP (V4 0x01010101) 40000.
(** The state after some operations. *)
Fixpoint after (ops : list (Z * PeerOp)) (l : Logic) : Logic :=
  match ops with
  | [] => l
  | (now, op) :: ops => match exec asio0 now op l with inr (_, l) => after ops l | inl _ => l end
  end.
Definition logic0 : Logic := new_logic 0 0 config0.
Definition ptr0 : SlotPtr := fresh (∅ : gset SlotPtr).
Definition connected0 : Logic := after [(0, OOutbound peer_a); (1, OConnected ptr0 here)] logic0.
Definition active0 : Logic := after [(2, OActivate ptr0 7 false)] connected0.
Definition live0 : Logic := after [(3, OEndpoints ptr0 [mkEndpoint 1 peer_b; mkEndpoint 0 peer_a])] active0.

Lemma outbound0 : run asio0 0 (after [(0, OOutbound peer_a)] logic0).
Proof. eapply (run_step asio0 0 0 _ (OOutbound peer_a)); [apply (run_new asio0 0 0 config0)|reflexivity|exact I|vm_compute; reflexivity]. Qed.
Lemma run_connected0 : run asio0 1 connected0.
Proof.
  eapply (run_step asio0 0 1 _ (OConnected ptr0 here)); [apply outbound0|lia| |vm_compute; reflexivity].
  exists peer_a, (outbound_slot peer_a false). split; [split; vm_compute; reflexivity|]. split; [done|].
  intros q o [Hq _]. vm_compute in Hq. done.
Qed.
Lemma run_active0 : run asio0 2 active0.
Proof.
  eapply (run_step asio0 1 2 _ (OActivate ptr0 7 false)); [apply run_connected0|lia| |vm_compute; reflexivity].
  eexists peer_a, _. split; [split; vm_compute; reflexivity|]. by right.
Qed.

(** C24: The invariant of the peer finder holds in every state that its operations reach, and
    no operation fails there that its caller may call: slots, counts, addresses and keys
    agree, each key belongs to one slot, both caches are well formed; the assertions of
    the source hold. *)
Theorem peerfinder_sound asio now l : run asio now l →
  ∃ m, inv now l m ∧
    ∀ now' op, now ≤ now' → contract l op → ∃ l', exec asio now' op l = inr ((), l').
Proof.
  intros Hr. destruct (run_inv asio now l Hr) as [m Hi]. exists m. split; [done|]. intros now' op Hle Hc.
  destruct (step_inv asio now now' l m op Hi Hle Hc) as (l' & _ & E & _). by exists l'.
Qed.
Lemma peerfinder_sound_witness :
  run asio0 2 active0 ∧ ∃ m, inv 2 active0 m ∧ ∀ now' op, 2 ≤ now' → contract active0 op → ∃ l', exec asio0 now' op active0 = inr ((), l').
Proof. split; [apply run_active0|apply (peerfinder_sound asio0 2 active0 run_active0)]. Defined.

(** C36: With one configuration, the active slots that are neither fixed nor of the cluster stay
    within the limits computed from it, inbound and outbound; no two active slots have the
    same key; and the two limits add up to the configured number of peers, unless more
    outbound peers than that were asked for. *)
Theorem peer_limits asio th c now l :
  let g := onConfig th c no_counts in
  0 ≤ m_out_max g < 2 ^ 64 → run_with asio th c now l →
  (∃ m, inv now l m ∧ active_in m ≤ m_in_max g ∧ active_out m ≤ m_out_max g ∧
     ∀ e e' s s' k, m !! e = Some s → m !! e' = Some s' → public_key s = Some k → public_key s' = Some k → e = e') ∧
  (m_out_max g ≤ u64 (maxPeers c) → m_in_max g + m_out_max g = u64 (maxPeers c)).
Proof.
  intros g Hg Hr.
  assert (0 ≤ u64 (maxPeers c) < 2 ^ 64) as Hu by (apply Z.mod_pos_bound; lia).
  assert (m_out_max g ≤ u64 (maxPeers c) → m_in_max g + m_out_max g = u64 (maxPeers c)) as Hsum.
  { unfold g, onConfig in *. cbn [m_in_max m_out_max] in *. set (out := if wantIncoming c then _ else _) in *. intros Hle.
    rewrite (proj2 (Z.leb_le _ _)) by done. unfold u64, wrap in *. rewrite <- Zminus_mod_idemp_l, (Z.mod_small (_ - _)) by lia. lia. }
  assert (0 ≤ m_in_max g < 2 ^ 64) as Hin.
  { unfold g, onConfig. cbn [m_in_max]. case_match; [apply Z.mod_pos_bound|]; lia. }
  split; [|done]. destruct (run_within asio th c now l Hr Hin Hg) as (m & Hi & [W1 W2] & S1 & S2).
  exists m. change (counts_ (new_logic now th c)) with g in S1, S2. rewrite <- S1, <- S2. split_and!; [done..|].
  apply (i_keyed _ _ (proj1 Hi)).
Qed.
Lemma run_with0 : run_with asio0 0 config0 0 (after [(0, OOutbound peer_a)] logic0).
Proof. eapply (with_step asio0 0 config0 0 0 _ (OOutbound peer_a)); [constructor|lia|exact I|done|vm_compute; reflexivity]. Qed.
Lemma peer_limits_witness :
  (∃ m, inv 0 (after [(0, OOutbound peer_a)] logic0) m ∧ active_in m ≤ 11 ∧ active_out m ≤ 10 ∧
     ∀ e e' s s' k, m !! e = Some s → m !! e' = Some s' → public_key s = Some k → public_key s' = Some k → e = e') ∧
  (10 ≤ 21 → 11 + 10 = 21).
Proof. apply (peer_limits asio0 0 config0 0 _); [vm_compute; split; congruence|apply run_with0]. Defined.

(** Activate on every branch: it is refused as a duplicate exactly when an open slot has the
    key, and as full exactly when the slot is neither fixed nor of the cluster and the active
    slots of its direction are at the limit; otherwise the slot is active with the key. *)
Theorem activate_exact now l m p e s key cl :
  inv now l m → points l p e s → state s = accept ∨ state s = connected →
  let s1 := set_cluster cl s in
  ∃ r l', activate now p key cl l = inr (r, l') ∧
    (r = duplicate ↔ ∃ e' o, m !! e' = Some o ∧ public_key o = Some key) ∧
    (r ≠ duplicate → (r = success ↔ has_room l s1 = true)) ∧
    inv now l' (<[e := match r with duplicate => s | full_ => s1 | success => activated now key s1 end]> m).
Proof.
  intros Hi Hp Hst s1. destruct (activate_spec now l m p e s key cl (proj1 Hi) Hp Hst) as (r & l' & s' & E & Hi' & R & Hr).
  exists r, l'. split; [done|]. pose proof (k_keys _ _ (i_keyed _ _ (proj1 Hi)) key) as Hk. rewrite <- Hk.
  assert (s' = match r with duplicate => s | full_ => s1 | success => activated now key s1 end) as <- by (by destruct r; destruct_and! Hr).
  pose proof (rest_inv now l l' m _ R Hi' Hi) as Hinv. fold s1 in Hr. destruct r; destruct_and! Hr; (split; [naive_solver|]); (split; [naive_solver congruence|done]).
Qed.
Lemma activate_exact_witness :
  ∃ r l', activate 2 ptr0 7 false connected0 = inr (r, l') ∧ r = success.
Proof.
  destruct (run_inv asio0 1 connected0 run_connected0) as [m Hi].
  destruct (activate_exact 2 connected0 m ptr0 peer_a (put_state connected (set_local_endpoint here (outbound_slot peer_a false))) 7 false)
    as (r & l' & E & _ & _ & _).
  - eapply inv_later; [exact Hi|lia].
  - split; vm_compute; reflexivity.
  - by right.
  - exists r, l'. split; [exact E|]. vm_compute in E. by injection E as <-.
Defined.

(** Of the endpoints a peer reports, preprocess lets through valid addresses only, each once,
    at most seven hops away and at least one, at most one of them a neighbour and that one at
    the address of the peer itself; every valid endpoint between one and six hops away is
    among them. *)
Theorem preprocess_filters asio s eps : Forall (λ ep, 0 ≤ hops ep) eps →
  clean asio s true (preprocess asio s eps) ∧
  ∀ ep, ep ∈ eps → 0 < hops ep ≤ maxHops → is_valid_address asio (address ep) = true →
    address ep ∈ address <$> preprocess asio s eps.
Proof. apply preprocess_spec. Qed.
Lemma preprocess_filters_witness :
  preprocess asio0 (outbound_slot peer_a false) [mkEndpoint 1 peer_b; mkEndpoint 0 peer_b; mkEndpoint 2 peer_b] =
    [mkEndpoint 2 peer_b; mkEndpoint 1 peer_a] ∧
  clean asio0 (outbound_slot peer_a false) true
    (preprocess asio0 (outbound_slot peer_a false) [mkEndpoint 1 peer_b; mkEndpoint 0 peer_b; mkEndpoint 2 peer_b]).
Proof.
  split; [vm_compute; reflexivity|].
  apply (preprocess_filters asio0 (outbound_slot peer_a false) [mkEndpoint 1 peer_b; mkEndpoint 0 peer_b; mkEndpoint 2 peer_b]).
  repeat constructor; simpl; lia.
Defined.

(** A peer that is sent elsewhere is told at most ten endpoints of the live cache, one to six
    hops away, with different addresses and none with its own; it is told fewer than ten only
    if every endpoint of the cache that fits has an address that is among them. *)
Theorem redirect_best now l m perm p s :
  inv now l m → slot_heap l !! p = Some s → (∀ h, perm h ≡ₚ h) →
  ∃ es c', redirect perm p l = inr (es, set_livecache c' l) ∧ inv now (set_livecache c' l) m ∧
    m_cache c' = m_cache (livecache_ l) ∧ redirect_list (livecache_ l) s es ∧
    (Z.of_nat (length es) < redirectEndpointCount →
     ∀ ep, cached (livecache_ l) ep → redirect_fit s ep → ip ep ∈ ip <$> es).
Proof. apply redirect_spec. Qed.
Lemma run_live0 : run asio0 3 live0.
Proof.
  eapply (run_step asio0 2 3 _ (OEndpoints ptr0 [mkEndpoint 1 peer_b; mkEndpoint 0 peer_a])); [apply run_active0|lia| |vm_compute; reflexivity].
  split; [|repeat constructor; simpl; lia]. eexists peer_a, _. split; [split; vm_compute; reflexivity|done].
Qed.
Lemma redirect_best_witness : ∃ l', redirect id ptr0 live0 = inr ([mkEndpoint 2 peer_b], l').
Proof.
  destruct (run_inv asio0 3 live0 run_live0) as [m Hi]. destruct (slot_heap live0 !! ptr0) as [s|] eqn:Es; [|vm_compute in Es; done].
  destruct (redirect_best 3 live0 m id ptr0 s) as (es & c' & E & _); [exact Hi|exact Es|done|].
  exists (set_livecache c' live0). rewrite E. vm_compute in E. by injection E as <-.
Defined.

(** The endpoints sent to the peers: to active slots only, at most twelve to each, with
    different addresses; besides our own endpoint they are from the live cache, at most six
    hops away, not at the address of the peer, and the peer has neither reported nor been
    told them lately with as few hops. *)
Theorem news_for_peers asio now l m slot_perm perm :
  inv now l m → (∀ h, perm h ≡ₚ h) → (∀ ts, slot_perm ts ≡ₚ ts) →
  ∃ r l' m', buildEndpointsForPeers asio now slot_perm perm l = inr (r, l') ∧ inv now l' m' ∧
    m_cache (livecache_ l') = m_cache (livecache_ l) ∧
    Forall (λ x, ∃ e s, points l x.1 e s ∧ state s = active ∧ news_list (livecache_ l) (self_endpoints l) s x.2) r.
Proof.
  intros Hi Hp Hsp. destruct (build_spec asio now l m slot_perm perm Hi Hp Hsp) as (r & l' & m' & E & Hi' & _ & Hc & Hf).
  by exists r, l', m'.
Qed.
Lemma news_for_peers_witness : ∃ l',
  buildEndpointsForPeers asio0 3 id id live0 = inr ([(ptr0, [self_endpoint live0])], l').
Proof.
  destruct (run_inv asio0 3 live0 run_live0) as [m Hi].
  destruct (news_for_peers asio0 3 live0 m id id) as (r & l' & m' & E & _); [exact Hi|done|done|].
  exists l'. rewrite E. vm_compute in E. by injection E as <- _.
Defined.

(** The endpoints autoconnect gives to connect to: no more than attempts are free, with
    different addresses, none of them an address of an open slot or one tried lately, all
    of them squelched from now on; they are fixed peers that are due or, when outbound peers
    are wanted, endpoints of the live cache or the boot cache. *)
Theorem autoconnect_attempts asio now l m perm : inv now l m → (∀ h, perm h ≡ₚ h) →
  ∃ es l', autoconnect asio now perm l = inr (es, l') ∧ inv now l' m ∧ connect_list now l m l' es.
Proof.
  intros Hi Hp. destruct (autoconnect_spec asio now l m perm Hi Hp) as (es & l' & E & Hi' & _ & Hc). by exists es, l'.
Qed.
Lemma autoconnect_attempts_witness : ∃ l', autoconnect asio0 3 id live0 = inr ([peer_b], l').
Proof.
  destruct (run_inv asio0 3 live0 run_live0) as [m Hi].
  destruct (autoconnect_attempts asio0 3 live0 m id) as (es & l' & E & _); [exact Hi|done|].
  exists l'. rewrite E. vm_compute in E. by injection E as <- _.
Defined.

(** C25: The boot cache implements the map of valences: after any operations, one more has the
    effect of its specification, where a new endpoint may prune the tenth with the least
    valences from a map of more than 1000; entries are unique and by decreasing valence;
    and what is in memory is with the store or flagged to be saved. *)
Theorem bootcache_refines now0 (ops : list (Z * BootOp)) now op :
  let b := foldl (λ b x, boot_op x.1 x.2 b) (new_bootcache now0) ops in
  let b' := boot_op now op b in
  boot_inv (m_map b') ∧ refined (boot_spec op (valences (m_map b))) (valences (m_map b')) ∧ saved_ok b'.
Proof.
  intros b b'. assert (boot_inv (m_map b) ∧ saved_ok b) as [Hb Hs].
  { subst b b'. induction ops as [|[t o] ops IH] using rev_ind; simpl.
    - split; [split; [apply NoDup_nil_2|constructor]|by right].
    - rewrite foldl_snoc. destruct IH as [I1 I2]. split; [by apply (boot_refines t o)|by apply boot_saved]. }
  destruct (boot_refines now op b Hb) as [H1 H2]. split; [done|]. split; [done|by apply boot_saved].
Qed.

(** ** Where the code falls short *)

Lemma negative_hops_fail now l m p e s ep : inv now l m → points l p e s → hops ep ≤ 0 →
  on_endpoints_loop now p [ep] l = inl "assertion failed"%string.
Proof.
  intros Hi Hp Hh. cbn [on_endpoints_loop]. destruct (Z.eqb_spec (hops ep) 0) as [E0|E0]; [done|].
  assert (negb false = true) as Et by done. passert Et. pstep (slot_at_spec _ _ _ (proj2 Hp)). pmod.
  destruct (Z.eqb_spec (hops ep) 1); [lia|]. cbn [andb]. pget. cbn [livecache_ set_slot_heap].
  assert (Live.insert now ep (livecache_ l) = None) as ->; [|done].
  assert (Live.hops_ok (hops ep) = false) as Eok by (unfold Live.hops_ok; by rewrite (proj2 (Z.leb_gt _ _)) by lia).
  unfold Live.insert. rewrite (proj2 (Z.leb_le _ _)) by (unfold maxHops; lia). cbn [negb].
  destruct (Aged.find (address ep) (m_cache (livecache_ l))) as [h0|] eqn:Ef.
  - pose proof (Live.live_hops _ _ (proj1 (proj2 Hi)) _ _ Ef). rewrite (proj2 (Z.ltb_ge _ _)), (proj2 (Z.ltb_lt _ _)) by lia.
    unfold Live.hops_reinsert. by rewrite Eok.
  - unfold Live.hops_insert. by rewrite Eok.
Qed.

(** The number of hops of a message is read into an [int] and only its upper bound is
    checked: a peer that reports a valid endpoint with 2^31 hops or more makes an
    assertion fail, or, without assertions, an array be indexed with a negative number. *)
Theorem wire_hops_unchecked asio parse ntohl now l m p e s text a h :
  inv now l m → points l p e s → state s = active → parse text = Some a → is_valid_address asio a = true →
  2 ^ 31 ≤ h < 2 ^ 32 →
  onMessage_endpoints asio parse ntohl now true p e [mkTMv2 text h] [] l = inl "assertion failed"%string.
Proof.
  intros Hi Hp Hst Hparse Hv Hh.
  assert (i32 h = h - 2 ^ 32) as Eh.
  { unfold i32, u32. rewrite wrap_small by lia. by rewrite (proj2 (Z.ltb_ge _ _)) by lia. }
  assert (omap (endpoint_v2 parse e) [mkTMv2 text h] = [mkEndpoint (h - 2 ^ 32) a]) as Eo.
  { simpl. unfold endpoint_v2. cbn [tm_endpoint tm_hops]. rewrite Hparse. cbn [mbind option_bind].
    by rewrite (proj2 (Z.ltb_lt _ _)), Eh by lia. }
  unfold onMessage_endpoints. cbn [negb]. rewrite Eo. unfold on_endpoints. pstep (slot_at_spec _ _ _ (proj2 Hp)).
  pstep (found _ _ _ _ _ (proj1 Hi) Hp). passert (bool_decide_eq_true_2 _ Hst).
  assert (preprocess asio s [mkEndpoint (h - 2 ^ 32) a] = [mkEndpoint (h - 2 ^ 32 + 1) a]) as ->.
  { unfold preprocess. cbn [preprocess_loop hops address existsb]. rewrite (proj2 (Z.ltb_ge _ _)) by (unfold maxHops; lia).
    rewrite (proj2 (Z.eqb_neq _ _)) by lia. simpl. by rewrite Hv. }
  apply pf_bind_inl. eapply negative_hops_fail; [exact Hi|exact Hp|simpl; lia].
Qed.

(** [on_failure] and [on_success] read the entry they inserted after the cache was
    pruned: with 1000 entries of valence -1 or more, the entry of a new endpoint that
    failed is among those pruned, and the reference to it dangles. *)
Theorem boot_failure_pruned now ep b :
  boot_inv (m_map b) → length (m_map b) = 1000%nat → Forall (λ x, -1 ≤ x.2) (m_map b) → Boot.find ep (m_map b) = None →
  Boot.find ep (m_map (Boot.on_failure now ep b)) = None.
Proof.
  intros Hi Hlen Hv Hn. unfold Boot.on_failure. rewrite Hn, flag_map. unfold Boot.map_insert. rewrite Hn. cbn [fst].
  assert (Boot.place ep (-1) (m_map b) = m_map b ++ [(ep, -1)]) as ->.
  { clear -Hv. induction Hv as [|[e v] l He Hl IH]; [done|]. simpl in *. rewrite (proj2 (Z.ltb_ge _ _)) by lia. by rewrite IH. }
  unfold Boot.prune, Boot.size. cbn [m_map with_map]. rewrite length_app, Hlen. cbn [length].
  change (Z.of_nat (1000 + 1) <=? bootcacheSize) with false. cbn [m_map with_map]. rewrite prune_loop_take.
  rewrite take_app_le by (rewrite length_app, Hlen; simpl length; vm_compute Z.to_nat; lia).
  rewrite find_valence. rewrite find_valence in Hn. apply not_elem_of_list_to_map. apply not_elem_of_list_to_map in Hn.
  intros Hin. apply Hn. rewrite list_elem_of_fmap in *. destruct Hin as (x & -> & Hx). exists x. split; [done|].
  apply elem_of_take in Hx as (i & Hx & _). by eapply list_elem_of_lookup_2.
Qed.
